(* ===== verification/_CoqProject ===== *)
-Q . S2P
Prelude.v
Encoding.v
CommandModel.v
CommandTheory.v
CommandWitness.v
BudgetModel.v
BudgetTheory.v
BudgetRegistry.v
BudgetWorld.v
BudgetClaims.v
BudgetWitness.v
SessionModel.v
SessionTheory.v
SessionWitness.v
Freshness.v
PathModel.v
PathTheory.v
QueryModel.v
QueryCodec.v
QueryCoordinator.v
QueryEvents.v
QueryInvariant.v
QuerySteps.v
QueryOps.v
QueryLifecycle.v
QueryHistory.v
QueryJournal.v
QueryMirror.v
QueryRestart.v
QueryClaims.v
SampleCodec.v
QueryWitness.v
CommonModel.v
CommonCfg.v
CommonCalls.v
CommonTheory.v
CommonGraph.v
CommonSummary.v
CommonTopology.v
CommonCallTheory.v
CommonWalk.v
CommonCfgTheory.v
CommonOwners.v
CommonAnalysis.v
CommonClaims.v
CommonSample.v
CommonWitness.v
ActorModel.v
ActorLogic.v
EffectContract.v
ActorWorld.v
ActorKnowledge.v
ActorSafety.v
ActorGate.v
ActorEffects.v
Sqlite.v
JournalModel.v
JournalTheory.v
RecoveryModel.v
RecoveryTheory.v
WriterLease.v
LeaseTheory.v
ActorClaims.v
ActorWitness.v
ActivationModel.v
ActivationTheory.v
AdmissionModel.v
AdmissionTheory.v
TransactionModel.v
TransactionPorts.v
TransactionTheory.v
ActivationRecovery.v
ActivationEffect.v
ActivationEffectTheory.v
ActivationClaims.v
ActivationWitness.v
FamiliesModel.v
FamiliesTheory.v
FamiliesClaims.v
FamiliesWitness.v
