(* ===== verification/Prelude.v ===== *)
(** * CodeFabric: verification library

    CodeFabric is a daemon that keeps a fabric of facts about source code. The library models the
    parts of it whose correctness is a matter of states and decisions, and proves what they promise.
    Paths below are relative to src/src.

    ** The program and its models

    - Durable commands. A mutation of the fabric is a command. fabric/command.rs is its contract: a
      pure reducer from a record, an event and freshly read facts to the next record ([CommandModel]:
      [CommandReducer.reduce], [admit_command], [validate_persisted_invariants]).
      fabric/command_actor.rs runs commands one at a time over three ports ([ActorModel]; a handler is
      a [prog], a tree of port calls). fabric/command_effect_contract.rs and command_effect_router.rs
      stand between the actor and the effects ([EffectContract]). fabric/command_record_sqlite.rs is
      the journal ([JournalModel] over the connection of [Sqlite]). fabric/command_runtime.rs recovers
      unfinished commands at a restart and binds contexts to the lease ([RecoveryModel], and the end
      of [WriterLease]). fabric/writer_lease.rs and writer_generation_sqlite.rs decide who may write
      ([WriterLease]).
    - Epoch activation, the command that moves readers to a new epoch. fabric/activation.rs derives the
      one linear history of activations from the rows of a control table ([ActivationModel]).
      fabric/admission.rs is the gate that queries pass ([AdmissionModel]).
      fabric/activation_transaction.rs closes the gate, appends the event, swaps the epoch, reopens and
      acknowledges, and recovers an interrupted activation from a ticket ([TransactionModel]; its own
      implementations of its ports in [TransactionPorts]). fabric/activation_command_effect.rs runs
      both on behalf of the command actor ([ActivationEffect]).
    - The other command families: source waves, relation publications, rollbacks, compactions,
      retention and administration. Their files fabric/*_command_effect.rs are one program up to names,
      [family_prepare], [family_commit] and [family_reconcile] of [FamiliesModel], and each file is a
      [CommandFamily]. The router runs all seven ([routed_commit] and its siblings).
    - Resource budget, resource_budget.rs: scopes below one process root, reservations, native
      accounts and charged slices ([BudgetModel]).
    - Session authority, session_authority.rs: launch grants, the sessions minted from them, and
      their revocation ([SessionModel]).
    - Freshness barrier, freshness.rs: watermarks, reconciling workers and waiting queries, cut at
      their atomic accesses ([Freshness]).
    - Query coordinator, fabric/query_coordinator.rs: admission, dispatch, control events, closure,
      retention, cursors and recovery of queries over a journal ([QueryModel], [QueryCoordinator],
      and the SQLite journal in [QueryJournal]). It takes answers of the budget as arguments.
    - Ordered path search, fabric/graph_program.rs ([PathModel]).
    - Common derived analysis, common_derived_analysis.rs: control flow, data dependence, calls,
      summaries, invalidation and the census of every family ([CommonModel], [CommonCfg],
      [CommonCalls]).

    Each model file names the Rust items it translates; its definitions keep their names. State behind
    a lock is a record, and a critical section is one function on it. Fallible code returns [result];
    code that writes before it fails runs in the monad [stm], which keeps the writes. Machine integers
    are [Z] with explicit widths and the source's checked, saturating or wrapping operations.

    ** What the theorems show

    - Commands ([CommandTheory]): the reducer is a declarative transition relation; every reachable
      record passes the recheck of a restart; nothing is retried without proof that it did not commit;
      stale writers change nothing; a newer writer can always finish.
    - The command system ([ActorClaims]). Exactly once: in every interleaving of actors, crashes, lost
      acknowledgements and port errors, at most one transaction of an operation lands and every record
      tells the truth about it ([ActorKnowledge], [ActorSafety]). With the lease at most one command is
      unfinished, and an open gate means that all are finished ([ActorGate]). Every effect call passes
      the effect contract ([ActorEffects]). The SQLite journal implements the record port
      ([JournalTheory]). Startup recovery returns, acts once per sweep on every unfinished command,
      opens admission only over finished ones, and needs three sweeps at most where effects settle
      ([RecoveryTheory]). The lease is exclusive, its fences only grow, and an actor with a superseded
      fence is inert ([LeaseTheory]).
    - Activation ([ActivationClaims]). The history is exact: it is returned exactly for rows that are
      evidenced and form one line, in whatever order they are read ([ActivationTheory]). The gate moves
      only along the protocol, and its generation tells epochs apart ([AdmissionTheory]). An activation
      is all or nothing and leaves a ticket when it cannot tell ([TransactionTheory]); recovering with
      that ticket is truthful, and decides once the marker can be read ([ActivationRecovery], which also
      shows the tickets that recovery leaves and then refuses). The effect keeps the contract that
      [ActorWorld] assumes of the effect port ([ActivationEffectTheory]).
    - Command families ([FamiliesClaims]): whatever the authorities of a family answer, the router
      reaches them only from the durable state the call belongs to, the reducer accepts every answer
      that comes back, and a committed result is what the command asked for ([FamiliesTheory]).
    - Budget ([BudgetTheory] to [BudgetClaims]): counters are exactly the live charges, admission is
      atomic and exact, limits and the control reserve hold, the registry is a bounded forest.
    - Sessions ([SessionTheory]): one session per grant, exact authority, final revocation.
    - Freshness: while the 64-bit counter of admissions does not wrap, bounded monotone watermarks and
      answers that cover prior changes; always, no lost wake-up.
    - Queries ([QueryEvents] to [QueryClaims]): exact counters, limits, well-formed handles, work
      conservation, idempotent acceptance, exact restart, exact cursors, resumable event streams.
    - Paths ([PathTheory]): the witness is shortest and least, absence is exact, errors are exact.
    - Derived analysis ([CommonTheory] to [CommonClaims]): up to the writing of its output relations it
      finishes, unless its relational stage fails, with a census that adds up; control-flow facts are
      dominance, post-dominance and control dependence; call facts are the calls, their shortest
      distances and what they lead to.

    The files ending in Witness run the models: each theorem with hypotheses is applied there at a
    state that a concrete run reaches.

    ** Assumptions

    Code outside the repository is a parameter. BLAKE3, entropy and the kernel's process identities
    are arguments; collision resistance is a hypothesis where it is used. JSON codecs are arguments or
    classes whose law is that what was written is read back. Petgraph, tokio's [Notify] and DataFusion's
    ordered distinct stage are classes or arguments with the documented laws. SQLite executes a
    statement or fails it; a transaction without its commit has no effect, a failed commit may have
    been applied. An advisory lock excludes others until its file is closed. The effect port of a
    command does what its documentation obliges it to ([ActorWorld]): only an accepted commit starts a
    transaction, and outcomes are reported as certain only with proof; for activation this is proved,
    and for every family that its answers are ones the reducer accepts.
    The control table of activations keeps its events, appends only the row it is asked to, at once or
    later, and proves what it calls proved ([ActivationLogLaws]). Actor calls interleave freely
    in [ActorWorld]; in [RecoveryTheory] the recovering runtime is the only client of its actor, as at
    startup. Atomics are sequentially consistent.

    ** Bounds and fuel

    Loops whose end is not structural take fuel, and the theorems show it to be enough: a recovery
    sweep needs one page more than there are commands due ([recovering_sweep]); the activation history
    walks each event once; the path search, the shortest distances and the caller closure visit each
    node once, the walk up the post-dominator tree is as long as the graph has nodes, and the summary
    fixed point is bounded by the iterations that the source permits. Node counts beyond 32 bits, where
    petgraph panics, are excluded by
    [input_fits]. Sizes of the platform's [usize] are 64 bits.

    ** Not modelled

    Opening and migrating SQLite files, process start and shutdown, sockets, subprocess sandboxes, and
    the file system beyond the lock file: they are system calls. Delta tables, Arrow packages and
    DataFusion plans, among them the authorities that the command families commit through: they are
    calls into those libraries; the Rust around them has no state of its own that the models could
    speak about. The language adapters walk
    syntax trees of Ruff and Tree-sitter. The Rust and Python derived analyses, query compilation and
    the transport are as large as the rest of the program and build relational plans or generated
    messages. The manifest lists every part. *)

From stdpp Require Export base gmap strings list vector.
From Stdlib Require Export ZArith Lia.
From Stdlib Require Export Strings.Byte.
From Stdlib Require Strings.String.

(** ** Machine integers *)

Declare Scope rust_scope.
Delimit Scope rust_scope with rust.

Module Int.
Local Open Scope Z_scope.

Definition u16_max : Z := 65535.
Definition u32_max : Z := 4294967295.
Definition u64_max : Z := 18446744073709551615.
Definition u128_max : Z := 340282366920938463463374607431768211455.
Definition i64_max : Z := 9223372036854775807.
Definition i64_min : Z := -9223372036854775808.

(** [in_uint m x]: [x] is a value of the unsigned type whose maximum is [m]. *)
Definition in_uint (m x : Z) : Prop := 0 <= x <= m.

(** [checked_add]/[checked_sub]/[checked_mul] of the unsigned type with maximum [m]. *)
Definition checked_add (m a b : Z) : option Z :=
  if a + b <=? m then Some (a + b) else None.
Definition checked_sub (a b : Z) : option Z :=
  if b <=? a then Some (a - b) else None.
Definition checked_mul (m a b : Z) : option Z :=
  if a * b <=? m then Some (a * b) else None.

(** Unchecked arithmetic wraps at the width of the type. *)
Definition wrap64 (x : Z) : Z := x mod (u64_max + 1).
Definition wrap128 (x : Z) : Z := x mod (u128_max + 1).

Definition saturating_add (m a b : Z) : Z := Z.min (a + b) m.
Definition saturating_sub (a b : Z) : Z := Z.max (a - b) 0.

Lemma checked_add_Some m a b c :
  checked_add m a b = Some c <-> c = a + b /\ a + b <= m.
Proof. unfold checked_add. destruct (Z.leb_spec (a + b) m); split; intros; simplify_eq; try split; try lia; f_equal; lia. Qed.

Lemma checked_add_None m a b : checked_add m a b = None <-> m < a + b.
Proof. unfold checked_add. destruct (Z.leb_spec (a + b) m); split; intros; simplify_eq; try split; try lia; f_equal; lia. Qed.

Lemma checked_sub_Some a b c : checked_sub a b = Some c <-> c = a - b /\ b <= a.
Proof. unfold checked_sub. destruct (Z.leb_spec b a); split; intros; simplify_eq; try split; try lia; f_equal; lia. Qed.

Lemma checked_sub_None a b : checked_sub a b = None <-> a < b.
Proof. unfold checked_sub. destruct (Z.leb_spec b a); split; intros; simplify_eq; try split; try lia; f_equal; lia. Qed.

Lemma checked_mul_Some m a b c :
  checked_mul m a b = Some c <-> c = a * b /\ a * b <= m.
Proof. unfold checked_mul. destruct (Z.leb_spec (a * b) m); split; intros; simplify_eq; try split; try lia; f_equal; lia. Qed.

Lemma wrap64_small x : in_uint u64_max x -> wrap64 x = x.
Proof. unfold wrap64, in_uint, u64_max. intros. apply Z.mod_small. lia. Qed.

Lemma wrap128_small x : in_uint u128_max x -> wrap128 x = x.
Proof. unfold wrap128, in_uint, u128_max. intros. apply Z.mod_small. lia. Qed.
End Int.
Export Int.

(** Turns the boolean comparisons in the context and in the goal into propositions. *)
Ltac zify_bool :=
  repeat match goal with
  | H : (_ && _)%bool = true |- _ => apply andb_true_iff in H; destruct H
  | H : (_ || _)%bool = false |- _ => apply orb_false_iff in H; destruct H
  | H : negb _ = true |- _ => apply negb_true_iff in H
  | H : negb _ = false |- _ => apply negb_false_iff in H
  | H : (_ =? _)%Z = true |- _ => apply Z.eqb_eq in H
  | H : (_ =? _)%Z = false |- _ => apply Z.eqb_neq in H
  | H : (_ <=? _)%Z = true |- _ => apply Z.leb_le in H
  | H : (_ <=? _)%Z = false |- _ => apply Z.leb_gt in H
  | H : (_ <? _)%Z = true |- _ => apply Z.ltb_lt in H
  | H : (_ <? _)%Z = false |- _ => apply Z.ltb_ge in H
  | H : bool_decide _ = true |- _ => apply bool_decide_eq_true in H
  | H : bool_decide _ = false |- _ => apply bool_decide_eq_false in H
  end.

(** ** Fallible code: [Result] *)

Inductive result (A E : Type) : Type :=
| Ok (a : A)
| Err (e : E).
Arguments Ok {A E} a.
Arguments Err {A E} e.

(** The question-mark operator: continue with the value, or return the error. *)
Notation "'let?' x ':=' e 'in' k" :=
  (match e with Ok x => k | Err err => Err err end)
  (at level 10, x pattern, e at level 99, k at level 200) : rust_scope.
Open Scope rust_scope.

(** [Option::ok_or]. *)
Definition ok_or {A E} (o : option A) (e : E) : result A E :=
  match o with Some a => Ok a | None => Err e end.

(** [if c then Ok(()) else Err(e)], the shape of every guard. *)
Definition ensure {E} (c : bool) (e : E) : result unit E :=
  if c then Ok tt else Err e.

Definition is_ok {A E} (r : result A E) : bool :=
  match r with Ok _ => true | Err _ => false end.

Lemma ensure_Ok {E} c (e : E) u : ensure c e = Ok u <-> c = true.
Proof. unfold ensure; destruct c, u; naive_solver. Qed.

Lemma ok_or_Ok {A E} (o : option A) (e : E) a : ok_or o e = Ok a <-> o = Some a.
Proof. destruct o; naive_solver. Qed.

#[export] Instance result_eq_dec {A E} `{EqDecision A, EqDecision E} : EqDecision (result A E).
Proof. solve_decision. Defined.

(** Splits the first [match] or [if] found in hypothesis [H], keeping its equation, and closes
    the branches the context contradicts. *)
Ltac split_match H :=
  match type of H with
  | context [match ?x with _ => _ end] =>
      lazymatch x with
      | context [match _ with _ => _ end] => fail
      | _ => let E := fresh "E" in destruct x eqn:E
      end
  end.

(** Inverts a successful run: every [let?] has a value, every guard passed. *)
Ltac inv_ok H :=
  repeat (progress (simplify_eq/=; try split_match H; simplify_eq/=)).

(** ** Code over a mutable state

    A body behind [&mut State] returns the state it leaves behind together with its result: an
    early return keeps the writes that happened before it. *)
Section state_monad.
Context {S E : Type}.

Definition stm (A : Type) : Type := S -> S * result A E.

Definition st_ret {A} (a : A) : stm A := fun s => (s, Ok a).
Definition st_err {A} (e : E) : stm A := fun s => (s, Err e).
Definition st_bind {A B} (m : stm A) (k : A -> stm B) : stm B :=
  fun s => match m s with
           | (s', Ok a) => k a s'
           | (s', Err e) => (s', Err e)
           end.
Definition st_get : stm S := fun s => (s, Ok s).
Definition st_put (s : S) : stm unit := fun _ => (s, Ok tt).
Definition st_modify (f : S -> S) : stm unit := fun s => (f s, Ok tt).
(** A pure fallible computation run against the state, which it does not change. *)
Definition st_lift {A} (r : result A E) : stm A := fun s => (s, r).

Lemma st_bind_assoc {A B C} (m : stm A) (k : A -> stm B) (h : B -> stm C) s :
  st_bind (st_bind m k) h s = st_bind m (fun a => st_bind (k a) h) s.
Proof. unfold st_bind. by destruct (m s) as [s' [a|e]]. Qed.
End state_monad.
Arguments stm : clear implicits.

(** The weakest precondition of a run: [Φ] holds of the result and the state it leaves. *)
Section weakest_precondition.
Context {S E : Type}.

Definition wp {A} (m : stm S E A) (s : S) (Φ : result A E -> S -> Prop) : Prop := Φ (m s).2 (m s).1.

Lemma wp_ret {A} (a : A) s Φ : wp (st_ret a) s Φ <-> Φ (Ok a) s.
Proof. done. Qed.
Lemma wp_err {A} (e : E) s (Φ : result A E -> S -> Prop) : wp (st_err e) s Φ <-> Φ (Err e) s.
Proof. done. Qed.
Lemma wp_lift {A} (r : result A E) s Φ : wp (st_lift r) s Φ <-> Φ r s.
Proof. done. Qed.
Lemma wp_modify (f : S -> S) s Φ : wp (st_modify f) s Φ <-> Φ (Ok tt) (f s).
Proof. done. Qed.
Lemma wp_bind {A B} (m : stm S E A) (k : A -> stm S E B) s Φ :
  wp (st_bind m k) s Φ <->
  wp m s (fun r s' => match r with Ok a => wp (k a) s' Φ | Err e => Φ (Err e) s' end).
Proof. unfold wp, st_bind. by destruct (m s) as [s' [a|e]]. Qed.
Lemma wp_mono {A} (m : stm S E A) s (Φ Ψ : result A E -> S -> Prop) :
  (forall r s', Φ r s' -> Ψ r s') -> wp m s Φ -> wp m s Ψ.
Proof. unfold wp. auto. Qed.
Lemma wp_eq {A} (m : stm S E A) s s' r Φ : m s = (s', r) -> Φ r s' -> wp m s Φ.
Proof. unfold wp. by intros ->. Qed.
End weakest_precondition.

Notation "'do!' x '<-' m ';' k" := (st_bind m (fun x => k))
  (at level 10, x pattern, m at level 99, k at level 200) : rust_scope.

(** ** Byte arrays: [[u8; N]] *)

#[export] Instance byte_eq_dec : EqDecision byte := Byte.byte_eq_dec.

#[export] Instance byte_countable : Countable byte.
Proof.
  refine (inj_countable Byte.to_N Byte.of_N _). apply Byte.of_to_N.
Defined.

Record byte_array (n : nat) := ByteArray { ba_vec : vec byte n }.
Arguments ByteArray {n} _.
Arguments ba_vec {n} _.

(** [TryInto<[u8; N]>] for a slice. *)
Fixpoint vec_of_list (n : nat) (l : list byte) : option (vec byte n) :=
  match n, l with
  | 0, [] => Some vnil
  | S n, x :: l => v ← vec_of_list n l; Some (x ::: v)
  | _, _ => None
  end.
Definition byte_array_of_slice (n : nat) (l : list byte) : option (byte_array n) :=
  ByteArray <$> vec_of_list n l.
Definition as_slice {n} (b : byte_array n) : list byte := vec_to_list (ba_vec b).

Lemma vec_of_list_to_list {n} (v : vec byte n) : vec_of_list n (vec_to_list v) = Some v.
Proof. induction v as [|x n v IH]; simpl; [done|]. by rewrite IH. Qed.

Lemma byte_array_of_as_slice {n} (b : byte_array n) : byte_array_of_slice n (as_slice b) = Some b.
Proof. destruct b as [v]. unfold byte_array_of_slice, as_slice. simpl. by rewrite vec_of_list_to_list. Qed.

Lemma vec_of_list_Some n l (v : vec byte n) : vec_of_list n l = Some v -> vec_to_list v = l.
Proof.
  revert l v. induction n as [|n IH]; intros [|y l] v; simpl; try done.
  - by inv_vec v.
  - intros (v' & Hv' & [= <-])%bind_Some. simpl. f_equal. by apply IH.
Qed.

Lemma byte_array_of_slice_Some n l (b : byte_array n) : byte_array_of_slice n l = Some b -> as_slice b = l.
Proof.
  unfold byte_array_of_slice, as_slice. intros (v & Hv & ->)%fmap_Some. by apply vec_of_list_Some.
Qed.

Lemma byte_array_of_slice_length n l : length l = n -> exists b : byte_array n, byte_array_of_slice n l = Some b.
Proof.
  intros Hl. assert (exists v, vec_of_list n l = Some v) as [v Hv].
  { revert n Hl. induction l as [|x l IH]; intros [|n] Hl; simplify_eq/=; [by eexists|].
    destruct (IH _ eq_refl) as [v Hv]. exists (x ::: v). by rewrite Hv. }
  exists (ByteArray v). unfold byte_array_of_slice. by rewrite Hv.
Qed.

Lemma length_as_slice {n} (b : byte_array n) : length (as_slice b) = n.
Proof. apply length_vec_to_list. Qed.

#[export] Instance byte_array_eq_dec {n} : EqDecision (byte_array n).
Proof. solve_decision. Defined.

#[export] Instance byte_array_countable {n} : Countable (byte_array n).
Proof. exact (inj_countable as_slice (byte_array_of_slice n) byte_array_of_as_slice). Defined.

(** [[b; N]]. *)
Definition repeat_byte (n : nat) (b : byte) : byte_array n := ByteArray (vreplicate n b).
(** [[0; N]]. *)
Definition zero_bytes (n : nat) : byte_array n := repeat_byte n x00.

(** [bytes.iter().all(|byte| *byte == 0)]. *)
Definition all_zero {n} (b : byte_array n) : bool :=
  forallb (fun x => bool_decide (x = x00)) (as_slice b).

Lemma all_zero_spec {n} (b : byte_array n) : all_zero b = true <-> b = zero_bytes n.
Proof.
  destruct b as [b]. unfold all_zero, zero_bytes, repeat_byte, as_slice. simpl.
  enough (forallb (fun x => bool_decide (x = x00)) (vec_to_list b) = true <-> b = vreplicate n x00)
    by naive_solver.
  induction b as [|x n b IH]; simpl; [done|].
  rewrite andb_true_iff, bool_decide_eq_true, IH. split; [by intros [-> ->]|].
  intros H. by apply vcons_inj in H.
Qed.

(** ** Big-endian bytes and hexadecimal text *)

(** The low eight bits of a number. *)
Definition byte_of_Z (z : Z) : byte :=
  match Byte.of_N (Z.to_N (z mod 256)) with Some b => b | None => x00 end.
Definition Z_of_byte (b : byte) : Z := Z.of_N (Byte.to_N b).

(** [to_be_bytes] of an [n]-byte unsigned integer. *)
Fixpoint to_be_bytes (n : nat) (z : Z) : list byte :=
  match n with
  | O => []
  | S n => byte_of_Z (Z.shiftr z (8 * Z.of_nat n)) :: to_be_bytes n z
  end.

(** [HEX[i] as char] for [HEX = b"0123456789abcdef"]. *)
Definition hex_char (i : Z) : Ascii.ascii :=
  Ascii.ascii_of_N (Z.to_N (if (i <? 10)%Z then 48 + i else 87 + i)).

(** Two lowercase digits per byte, high nibble first. *)
Fixpoint hex (bytes : list byte) : string :=
  match bytes with
  | [] => EmptyString
  | b :: bytes =>
      String (hex_char (Z.shiftr (Z_of_byte b) 4))
        (String (hex_char (Z.land (Z_of_byte b) 15)) (hex bytes))
  end.

(** ** Loops over a fallible body *)

(** [for x in l { body }] whose body may return early with an error. *)
Fixpoint for_each {A S E} (l : list A) (f : A -> S -> result S E) (s : S) : result S E :=
  match l with
  | [] => Ok s
  | x :: l => let? s := f x s in for_each l f s
  end.

(** How a loop left: with a value, at an [unreachable!] or a failed [expect], or short of fuel. *)
Inductive Left (A : Type) := Returned (a : A) | ReachedUnreachable | OutOfFuel.
Arguments Returned {A} a.
Arguments ReachedUnreachable {A}.
Arguments OutOfFuel {A}.

(** The run succeeds and its value satisfies [Φ]: total correctness of a fallible computation. *)
Definition returns {A E} (r : result A E) (Φ : A -> Prop) : Prop :=
  match r with Ok a => Φ a | Err _ => False end.

Section returns.
Context {E : Type}.

Lemma returns_elim {A} (r : result A E) Φ : returns r Φ <-> exists a, r = Ok a /\ Φ a.
Proof. destruct r; simpl; naive_solver. Qed.

Lemma returns_mono {A} (r : result A E) (Φ Ψ : A -> Prop) :
  returns r Φ -> (forall a, Φ a -> Ψ a) -> returns r Ψ.
Proof. destruct r; simpl; auto. Qed.

Lemma returns_bind {A B} (r : result A E) (k : A -> result B E) (Φ : A -> Prop) Ψ :
  returns r Φ -> (forall a, Φ a -> returns (k a) Ψ) -> returns (let? a := r in k a) Ψ.
Proof. destruct r; simpl; naive_solver. Qed.

(** The value is the one the run returns. *)
Lemma returns_eq {A} (r : result A E) (Φ : A -> Prop) :
  returns r Φ -> returns r (fun a => r = Ok a /\ Φ a).
Proof. by destruct r. Qed.

(** The loop rule for a run that is known to have succeeded. *)
Lemma for_each_Ok {A S} (I : list A -> S -> Prop) (l : list A) (f : A -> S -> result S E) (s s' : S) :
  I [] s -> (forall done x s s', I done s -> f x s = Ok s' -> I (done ++ [x]) s') ->
  for_each l f s = Ok s' -> I l s'.
Proof.
  intros Hinit Hstep. enough (forall todo done s, I done s -> for_each todo f s = Ok s' -> I (done ++ todo) s')
    as H by exact (H l [] s Hinit).
  induction todo as [|x todo IH]; intros done s1 Hs; simpl.
  - intros [= <-]. by rewrite app_nil_r.
  - destruct (f x s1) as [s2|] eqn:Hf; [|done]. intros Hr.
    rewrite cons_middle, app_assoc. eapply IH; [|done]. by eapply Hstep.
Qed.

(** The loop rule: the invariant speaks of the elements done and of those still to come. *)
Lemma for_each_returns {A S} (I : list A -> list A -> S -> Prop) (l : list A)
    (f : A -> S -> result S E) (s : S) :
  I [] l s ->
  (forall done x todo s, l = done ++ x :: todo -> I done (x :: todo) s ->
     returns (f x s) (I (done ++ [x]) todo)) ->
  returns (for_each l f s) (I l []).
Proof.
  intros Hinit Hstep.
  enough (forall todo done s, l = done ++ todo -> I done todo s ->
            returns (for_each todo f s) (I l [])) as H by exact (H l [] s eq_refl Hinit).
  induction todo as [|x todo IH]; intros done s' -> HI; simpl.
  - by rewrite app_nil_r in *.
  - pose proof (Hstep done x todo s' eq_refl HI) as Hx. destruct (f x s') as [s''|]; simpl in *; [|done].
    apply (IH (done ++ [x])); [by rewrite <- app_assoc|done].
Qed.
End returns.

(** ** Orders of the standard library *)

(** [str::cmp]: bytes, lexicographically. *)
Definition str_cmp (a b : string) : comparison := String.compare a b.

(** ** Maps used as ordered collections *)

(** [map.values().any(f)]. *)
Definition any_value {K A} `{Countable K} (f : A -> bool) (m : gmap K A) : bool :=
  existsb f (map_to_list m).*2.

Lemma any_value_true {K A} `{Countable K} (f : A -> bool) (m : gmap K A) :
  any_value f m = true <-> exists k x, m !! k = Some x /\ f x = true.
Proof.
  unfold any_value. rewrite existsb_exists. split.
  - intros (x & Hx & Hf). apply list_elem_of_In, list_elem_of_fmap in Hx as ([k y] & -> & Hk).
    apply elem_of_map_to_list in Hk. eauto.
  - intros (k & x & Hk & Hf). exists x. split; [|done].
    apply list_elem_of_In, list_elem_of_fmap. exists (k, x). split; [done|].
    by apply elem_of_map_to_list.
Qed.

Lemma any_value_false {K A} `{Countable K} (f : A -> bool) (m : gmap K A) :
  any_value f m = false <-> forall k x, m !! k = Some x -> f x = false.
Proof.
  rewrite <- not_true_iff_false, any_value_true. split.
  - intros Hn k x Hk. apply not_true_iff_false. intros Hf. eauto.
  - intros Hall (k & x & Hk & Hf). by rewrite (Hall k x Hk) in Hf.
Qed.

(** [map.retain(|_, value| f(value))]. *)
Definition retain {K A} `{Countable K} (f : A -> bool) (m : gmap K A) : gmap K A :=
  filter (fun kx => f kx.2 = true) m.

Lemma lookup_retain_Some {K A} `{Countable K} (f : A -> bool) (m : gmap K A) k x :
  retain f m !! k = Some x <-> m !! k = Some x /\ f x = true.
Proof. apply map_lookup_filter_Some. Qed.

Lemma size_retain_le {K A} `{Countable K} (f : A -> bool) (m : gmap K A) :
  size (retain f m) <= size m.
Proof. apply map_subseteq_size, map_filter_subseteq. Qed.

(** ** Sums over finite maps *)

Section map_sum.
Context {K A : Type} `{Countable K}.
Implicit Types (m : gmap K A) (f g : K -> A -> Z).

Definition msum (f : K -> A -> Z) (m : gmap K A) : Z :=
  map_fold (fun k x acc => (f k x + acc)%Z) 0%Z m.

Lemma msum_empty f : msum f ∅ = 0%Z.
Proof. apply map_fold_empty. Qed.

Lemma msum_insert_fresh f m k x :
  m !! k = None -> msum f (<[k := x]> m) = (f k x + msum f m)%Z.
Proof. intros Hk. unfold msum. rewrite map_fold_insert_L; [done|intros; lia|done]. Qed.

Lemma msum_delete f m k x :
  m !! k = Some x -> msum f m = (f k x + msum f (delete k m))%Z.
Proof.
  intros Hk. rewrite <- (insert_delete_id m k x Hk) at 1.
  apply msum_insert_fresh, lookup_delete_eq.
Qed.

Lemma msum_delete_none f m k : m !! k = None -> msum f (delete k m) = msum f m.
Proof. intros Hk. by rewrite delete_id. Qed.

Lemma msum_replace f m k x y :
  m !! k = Some x -> msum f (<[k := y]> m) = (msum f m - f k x + f k y)%Z.
Proof.
  intros Hk. rewrite <- insert_delete_eq, msum_insert_fresh by apply lookup_delete_eq.
  rewrite (msum_delete f m k x Hk). lia.
Qed.

Lemma msum_ext f g m :
  (forall k x, m !! k = Some x -> f k x = g k x) -> msum f m = msum g m.
Proof.
  induction m as [|k x m Hk IH] using map_ind; intros Hfg; [done|].
  rewrite !msum_insert_fresh by done.
  rewrite (Hfg k x) by apply lookup_insert_eq. f_equal. apply IH.
  intros k' x' Hx'. apply Hfg. rewrite lookup_insert_ne; [done|congruence].
Qed.

Lemma msum_le f g m :
  (forall k x, m !! k = Some x -> (f k x <= g k x)%Z) -> (msum f m <= msum g m)%Z.
Proof.
  induction m as [|k x m Hk IH] using map_ind; intros Hfg; [done|].
  rewrite !msum_insert_fresh by done.
  pose proof (Hfg k x (lookup_insert_eq _ _ _)).
  cut (msum f m <= msum g m)%Z; [lia|]. apply IH.
  intros k' x' Hx'. apply Hfg. rewrite lookup_insert_ne; [done|congruence].
Qed.

Lemma msum_zero m : msum (fun _ _ => 0%Z) m = 0%Z.
Proof.
  induction m as [|k x m Hk IH] using map_ind; [done|].
  by rewrite msum_insert_fresh, IH.
Qed.

Lemma msum_nonneg f m :
  (forall k x, m !! k = Some x -> (0 <= f k x)%Z) -> (0 <= msum f m)%Z.
Proof. intros Hf. rewrite <- (msum_zero m). by apply msum_le. Qed.

Lemma msum_elem_le f m k x :
  (forall k' x', m !! k' = Some x' -> (0 <= f k' x')%Z) ->
  m !! k = Some x -> (f k x <= msum f m)%Z.
Proof.
  intros Hf Hk. rewrite (msum_delete f m k x Hk).
  cut (0 <= msum f (delete k m))%Z; [lia|]. apply msum_nonneg.
  intros k' x' Hx'. apply Hf. by apply lookup_delete_Some in Hx' as [_ ?].
Qed.

Lemma msum_fmap (g : A -> A) f m : msum f (g <$> m) = msum (fun k x => f k (g x)) m.
Proof.
  induction m as [|k x m Hk IH] using map_ind; [by rewrite fmap_empty|].
  rewrite fmap_insert, !msum_insert_fresh, IH; [done|done|]. by rewrite lookup_fmap, Hk.
Qed.
End map_sum.

(** ** Occurrences *)

Section occurrences.
Context {A : Type} `{EqDecision A}.

(** How often [x] occurs in [l]. *)
Definition occ (x : A) (l : list A) : nat := length (filter (eq x) l).

Lemma occ_cons x y l : occ x (y :: l) = ((if decide (x = y) then 1 else 0) + occ x l)%nat.
Proof. unfold occ. rewrite filter_cons. by destruct (decide (x = y)). Qed.

Lemma occ_app x l l' : occ x (l ++ l') = (occ x l + occ x l')%nat.
Proof. unfold occ. by rewrite filter_app, length_app. Qed.

Lemma occ_zero x l : occ x l = 0%nat <-> x ∉ l.
Proof.
  induction l as [|y l IH]; [unfold occ; simpl; split; [set_solver|done]|].
  rewrite occ_cons, not_elem_of_cons. destruct (decide (x = y)); naive_solver lia.
Qed.

Lemma occ_elem x l : x ∈ l -> (1 <= occ x l)%nat.
Proof. intros Hx. destruct (occ x l) eqn:E; [by apply occ_zero in E|lia]. Qed.

(** Replacing the element at [i]. *)
Lemma occ_insert x l i old new :
  l !! i = Some old ->
  (occ x (<[i := new]> l) + (if decide (x = old) then 1 else 0)
   = occ x l + (if decide (x = new) then 1 else 0))%nat.
Proof.
  revert i. induction l as [|y l IH]; intros [|i] Hi; simplify_eq/=; rewrite !occ_cons; [lia|].
  specialize (IH i Hi). lia.
Qed.

(** Two different positions of [x]. *)
Lemma occ_two x l i j : i <> j -> l !! i = Some x -> l !! j = Some x -> (2 <= occ x l)%nat.
Proof.
  revert i j. induction l as [|y l IH]; intros [|i] [|j] Hij Hi Hj; simplify_eq/=; try done;
    rewrite occ_cons.
  - rewrite decide_True by done. apply list_elem_of_lookup_2, occ_elem in Hj. lia.
  - rewrite decide_True by done. apply list_elem_of_lookup_2, occ_elem in Hi. lia.
  - specialize (IH i j ltac:(congruence) Hi Hj). lia.
Qed.
End occurrences.
