(* ===== verification/Encoding.v ===== *)
(** Texts and byte encodings shared by the components: string measures and character tests, and the
    injectivity of the big-endian and string encodings that go into hashed preimages. *)

From S2P Require Import Prelude.
From Stdlib Require Strings.String.
Local Open Scope Z_scope.

(** ** Strings as byte sequences *)

Definition len (s : string) : Z := Z.of_nat (String.length s).
Definition is_empty (s : string) : bool := len s =? 0.

Definition code (c : Ascii.ascii) : Z := Z.of_N (Ascii.N_of_ascii c).
Definition is_ascii (s : string) : bool :=
  forallb (fun c => code c <? 128) (String.list_ascii_of_string s).
(** ** Encodings *)

Lemma byte_of_Z_inj x y : 0 <= x < 256 -> 0 <= y < 256 -> byte_of_Z x = byte_of_Z y -> x = y.
Proof.
  intros Hx Hy. unfold byte_of_Z. rewrite !Z.mod_small by done.
  destruct (Byte.of_N (Z.to_N x)) as [bx|] eqn:Ex, (Byte.of_N (Z.to_N y)) as [by'|] eqn:Ey;
    try (apply Byte.of_N_None_iff in Ex; lia); try (apply Byte.of_N_None_iff in Ey; lia).
  intros <-. apply Byte.to_of_N in Ex, Ey. lia.
Qed.

Lemma byte_of_Z_mod x y : byte_of_Z x = byte_of_Z y -> x mod 256 = y mod 256.
Proof.
  intros H. apply byte_of_Z_inj; [apply Z.mod_pos_bound; lia..|].
  unfold byte_of_Z in *. by rewrite !Z.mod_mod by lia.
Qed.

Lemma length_to_be_bytes n z : length (to_be_bytes n z) = n.
Proof. induction n; simpl; congruence. Qed.

Lemma to_be_bytes_mod n x y :
  to_be_bytes n x = to_be_bytes n y -> x mod 2 ^ (8 * Z.of_nat n) = y mod 2 ^ (8 * Z.of_nat n).
Proof.
  induction n as [|n IH]; simpl to_be_bytes; intros H; [by rewrite !Z.mod_1_r|].
  injection H as Hb H. specialize (IH H). apply byte_of_Z_mod in Hb.
  rewrite !Z.shiftr_div_pow2 in Hb by lia.
  replace (8 * Z.of_nat (S n)) with (8 * Z.of_nat n + 8) by lia.
  rewrite !Z.pow_add_r by lia. change (2 ^ 8) with 256.
  rewrite !Z.rem_mul_r by lia. by rewrite IH, Hb.
Qed.

Lemma to_be_bytes_inj n x y :
  0 <= x < 2 ^ (8 * Z.of_nat n) -> 0 <= y < 2 ^ (8 * Z.of_nat n) ->
  to_be_bytes n x = to_be_bytes n y -> x = y.
Proof. intros Hx Hy H. apply to_be_bytes_mod in H. by rewrite !Z.mod_small in H. Qed.

(** [from_be_bytes]. *)
Definition from_be_bytes (l : list byte) : Z := foldl (fun acc b => acc * 256 + Z_of_byte b) 0 l.

Lemma Z_of_byte_of_Z z : Z_of_byte (byte_of_Z z) = z mod 256.
Proof.
  unfold byte_of_Z, Z_of_byte. pose proof (Z.mod_pos_bound z 256 ltac:(lia)).
  destruct (Byte.of_N (Z.to_N (z mod 256))) as [b|] eqn:E; [|apply Byte.of_N_None_iff in E; lia].
  apply Byte.to_of_N in E. rewrite E. lia.
Qed.

Lemma from_to_be_bytes n z : 0 <= z < 2 ^ (8 * Z.of_nat n) -> from_be_bytes (to_be_bytes n z) = z.
Proof.
  intros Hz. unfold from_be_bytes.
  assert (forall acc, foldl (fun acc b => acc * 256 + Z_of_byte b) acc (to_be_bytes n z)
                      = acc * 2 ^ (8 * Z.of_nat n) + z mod 2 ^ (8 * Z.of_nat n)) as ->;
    [|rewrite Z.mod_small by done; lia].
  clear Hz. induction n as [|n IH]; intros acc.
  { simpl. rewrite Z.mod_1_r. lia. }
  simpl to_be_bytes. cbn [foldl]. rewrite IH, Z_of_byte_of_Z, Z.shiftr_div_pow2 by lia.
  replace (8 * Z.of_nat (S n)) with (8 * Z.of_nat n + 8) by lia.
  rewrite !Z.pow_add_r by lia. change (2 ^ 8) with 256. rewrite Z.rem_mul_r by lia. ring.
Qed.

(** *** The order of byte strings: the first byte that differs decides, a prefix comes first *)

Fixpoint bytes_leb (a b : list byte) : bool :=
  match a, b with
  | [], _ => true
  | _ :: _, [] => false
  | x :: a, y :: b =>
      if Z_of_byte x <? Z_of_byte y then true
      else if Z_of_byte y <? Z_of_byte x then false else bytes_leb a b
  end.
Definition bytes_le (a b : list byte) : Prop := bytes_leb a b = true.

Lemma Z_of_byte_inj x y : Z_of_byte x = Z_of_byte y -> x = y.
Proof.
  unfold Z_of_byte. intros H. apply N2Z.inj in H.
  pose proof (Byte.of_to_N x) as Hx. pose proof (Byte.of_to_N y) as Hy. congruence.
Qed.

Lemma bytes_le_cons x a y b :
  bytes_le (x :: a) (y :: b) <-> Z_of_byte x < Z_of_byte y \/ x = y /\ bytes_le a b.
Proof.
  unfold bytes_le. simpl. destruct (Z.ltb_spec (Z_of_byte x) (Z_of_byte y)); [naive_solver|].
  destruct (Z.ltb_spec (Z_of_byte y) (Z_of_byte x)).
  - split; [done|]. intros [?|[-> _]]; lia.
  - assert (x = y) as -> by (apply Z_of_byte_inj; lia). naive_solver lia.
Qed.

#[export] Instance bytes_le_dec a b : Decision (bytes_le a b).
Proof. unfold bytes_le. apply _. Defined.

#[export] Instance bytes_le_refl : Reflexive bytes_le.
Proof. intros a. induction a as [|x a IH]; [done|]. apply bytes_le_cons. auto. Qed.

#[export] Instance bytes_le_trans : Transitive bytes_le.
Proof.
  intros a. induction a as [|x a IH]; intros [|y b] [|z c]; try done.
  rewrite !bytes_le_cons. intros [?|[-> ?]] [?|[-> ?]]; eauto with lia.
Qed.

#[export] Instance bytes_le_total : Total bytes_le.
Proof.
  intros a. induction a as [|x a IH]; intros [|y b]; [by left|by left|by right|].
  rewrite !bytes_le_cons. destruct (Z.lt_trichotomy (Z_of_byte x) (Z_of_byte y)) as [?|[?|?]]; auto.
  apply Z_of_byte_inj in H as ->. destruct (IH b); auto.
Qed.

Lemma bytes_le_antisymm a b : bytes_le a b -> bytes_le b a -> a = b.
Proof.
  revert b. induction a as [|x a IH]; intros [|y b]; try done.
  rewrite !bytes_le_cons. intros [?|[-> ?]] [?|[? ?]]; try lia; subst; try lia. f_equal. by apply IH.
Qed.

Lemma list_byte_of_string_inj s1 s2 :
  String.list_byte_of_string s1 = String.list_byte_of_string s2 -> s1 = s2.
Proof.
  intros H. rewrite <- (String.string_of_list_byte_of_string s1), H.
  apply String.string_of_list_byte_of_string.
Qed.

Lemma as_slice_inj {n} (a b : byte_array n) : as_slice a = as_slice b -> a = b.
Proof.
  destruct a as [a], b as [b]. unfold as_slice. simpl. intros H. f_equal. by apply vec_to_list_inj2.
Qed.

Lemma length_list_byte_of_string s : length (String.list_byte_of_string s) = String.length s.
Proof.
  unfold String.list_byte_of_string. rewrite length_map.
  induction s as [|c s IH]; simpl; congruence.
Qed.

(** ** Standard library string operations *)

(** [s.strip_prefix(p)]. *)
Fixpoint strip_prefix (p s : string) : option string :=
  match p, s with
  | EmptyString, _ => Some s
  | String a p, String b s => if bool_decide (a = b) then strip_prefix p s else None
  | String _ _, EmptyString => None
  end.

(** [s.split_once(c)]: around the first occurrence of [c]. *)
Fixpoint split_once (c : Ascii.ascii) (s : string) : option (string * string) :=
  match s with
  | EmptyString => None
  | String a s =>
      if bool_decide (a = c) then Some (EmptyString, s)
      else match split_once c s with
           | Some (l, r) => Some (String a l, r)
           | None => None
           end
  end.

(** [s.ends_with(suffix)]. *)
Definition ends_with (suffix s : string) : bool :=
  bool_decide (drop (String.length s - String.length suffix) (String.list_ascii_of_string s)
               = String.list_ascii_of_string suffix).

Definition is_ascii_digit (c : Ascii.ascii) : bool := ((48 <=? code c) && (code c <=? 57))%bool.
Definition is_ascii_hexdigit (c : Ascii.ascii) : bool :=
  (is_ascii_digit c || (65 <=? code c) && (code c <=? 70) || (97 <=? code c) && (code c <=? 102))%bool.
Definition all_bytes (f : Ascii.ascii -> bool) (s : string) : bool :=
  forallb f (String.list_ascii_of_string s).

(** ** Texts as code points *)

(** [str::chars]: the code points of a well-formed UTF-8 byte sequence. *)
Fixpoint decode_utf8 (l : list Z) : list Z :=
  match l with
  | [] => []
  | b :: l1 =>
      if b <? 128 then b :: decode_utf8 l1
      else match l1 with
      | [] => []
      | b1 :: l2 =>
          if b <? 224 then Z.lor (Z.shiftl (Z.land b 31) 6) (Z.land b1 63) :: decode_utf8 l2
          else match l2 with
          | [] => []
          | b2 :: l3 =>
              if b <? 240
              then Z.lor (Z.shiftl (Z.land b 15) 12)
                     (Z.lor (Z.shiftl (Z.land b1 63) 6) (Z.land b2 63)) :: decode_utf8 l3
              else match l3 with
              | [] => []
              | b3 :: l4 =>
                  Z.lor (Z.shiftl (Z.land b 7) 18)
                    (Z.lor (Z.shiftl (Z.land b1 63) 12)
                       (Z.lor (Z.shiftl (Z.land b2 63) 6) (Z.land b3 63))) :: decode_utf8 l4
              end
          end
      end
  end.
Definition chars (s : string) : list Z := decode_utf8 (code <$> String.list_ascii_of_string s).

(** [char::is_control]: the general category Cc. *)
Definition is_control (c : Z) : bool := ((c <? 32) || (127 <=? c) && (c <? 160))%bool.

(** [char::is_whitespace]: the property White_Space. *)
Definition is_whitespace (c : Z) : bool :=
  ((9 <=? c) && (c <=? 13) || (c =? 32) || (c =? 133) || (c =? 160) || (c =? 5760)
   || (8192 <=? c) && (c <=? 8202) || (c =? 8232) || (c =? 8233) || (c =? 8239) || (c =? 8287)
   || (c =? 12288))%bool.

(** [s.trim() == s]: neither end is a white space. *)
Definition is_trimmed (s : string) : bool :=
  (negb (from_option is_whitespace false (head (chars s)))
   && negb (from_option is_whitespace false (last (chars s))))%bool.
