(* ===== verification/CommandModel.v ===== *)
(** * The durable fabric command: data and reducer

    Translation of [src/src/fabric/command.rs]: the typed identities, the command envelope, the
    durable state of a command, the recheck of a persisted record, admission, and the reducer that
    turns one observed event into the next durable record. *)

From S2P Require Import Prelude.

(** ** Typed byte identities *)

(** One tag per [byte_identity!] invocation. *)
Inductive identity_tag :=
| TOperationId | TIdempotencyKey | TWorkspaceId | TPrincipalId | TActorId | TLeaseId | TEpochId
| TAuthorizationRef | TInputReleaseRef | TProgramReleaseRef | TApplicationReleaseRef
| TSourceAuthorityRef | TProviderReleaseRef | TProviderSetRef | TResourceEnvelopeRef
| TSourceImageSetRef | TProviderRunRef | TOwnerSetRef | TRelationSetRef | TAnalysisRunRef
| TProofReceiptRef | TRollbackAuthorizationRef | TRetentionPolicyRef | TProtectedSetRef
| TAdministrationRequestRef | TOperationSelectionRef | TTransactionRef
| TReconciliationEvidenceRef | TDiagnosticRef.

(** The second argument of each [byte_identity!] invocation. *)
Definition identity_width (t : identity_tag) : nat :=
  match t with
  | TOperationId | TWorkspaceId | TPrincipalId | TActorId | TLeaseId | TEpochId => 16
  | _ => 32
  end.

(** The newtype the macro declares. *)
Record byte_identity (t : identity_tag) :=
  from_bytes { as_bytes : byte_array (identity_width t) }.
Arguments from_bytes {t} _.
Arguments as_bytes {t} _.

#[export] Instance byte_identity_eq_dec {t} : EqDecision (byte_identity t).
Proof. solve_decision. Defined.

#[export] Instance byte_identity_countable {t} : Countable (byte_identity t).
Proof.
  refine (inj_countable as_bytes (fun b => Some (from_bytes b)) _). by intros [].
Defined.

Abbreviation OperationId := (byte_identity TOperationId).
Abbreviation IdempotencyKey := (byte_identity TIdempotencyKey).
Abbreviation WorkspaceId := (byte_identity TWorkspaceId).
Abbreviation PrincipalId := (byte_identity TPrincipalId).
Abbreviation ActorId := (byte_identity TActorId).
Abbreviation LeaseId := (byte_identity TLeaseId).
Abbreviation EpochId := (byte_identity TEpochId).
Abbreviation AuthorizationRef := (byte_identity TAuthorizationRef).
Abbreviation InputReleaseRef := (byte_identity TInputReleaseRef).
Abbreviation ProgramReleaseRef := (byte_identity TProgramReleaseRef).
Abbreviation ApplicationReleaseRef := (byte_identity TApplicationReleaseRef).
Abbreviation SourceAuthorityRef := (byte_identity TSourceAuthorityRef).
Abbreviation ProviderReleaseRef := (byte_identity TProviderReleaseRef).
Abbreviation ProviderSetRef := (byte_identity TProviderSetRef).
Abbreviation ResourceEnvelopeRef := (byte_identity TResourceEnvelopeRef).
Abbreviation SourceImageSetRef := (byte_identity TSourceImageSetRef).
Abbreviation ProviderRunRef := (byte_identity TProviderRunRef).
Abbreviation OwnerSetRef := (byte_identity TOwnerSetRef).
Abbreviation RelationSetRef := (byte_identity TRelationSetRef).
Abbreviation AnalysisRunRef := (byte_identity TAnalysisRunRef).
Abbreviation ProofReceiptRef := (byte_identity TProofReceiptRef).
Abbreviation RollbackAuthorizationRef := (byte_identity TRollbackAuthorizationRef).
Abbreviation RetentionPolicyRef := (byte_identity TRetentionPolicyRef).
Abbreviation ProtectedSetRef := (byte_identity TProtectedSetRef).
Abbreviation AdministrationRequestRef := (byte_identity TAdministrationRequestRef).
Abbreviation OperationSelectionRef := (byte_identity TOperationSelectionRef).
Abbreviation TransactionRef := (byte_identity TTransactionRef).
Abbreviation ReconciliationEvidenceRef := (byte_identity TReconciliationEvidenceRef).
Abbreviation DiagnosticRef := (byte_identity TDiagnosticRef).

(** ** Fences, heads and pins *)

(** Nonzero writer generation; [WriterGeneration_new] is its only constructor in the source. *)
Record WriterGeneration := mk_WriterGeneration { generation_get : Z }.

Definition WriterGeneration_new (value : Z) : option WriterGeneration :=
  if (value =? 0)%Z then None else Some (mk_WriterGeneration value).

Record SourceGeneration := SourceGeneration_new { source_generation_get : Z }.

Record WriterFence := mk_WriterFence {
  lease_id : LeaseId;
  generation : WriterGeneration;
}.

Inductive ExpectedHead :=
| EmptyHead
| EpochHead (epoch : EpochId).

Record CommandIdentity := mk_CommandIdentity {
  operation_id : OperationId;
  idempotency_key : IdempotencyKey;
}.

Record CommandOwnership := mk_CommandOwnership {
  owner_workspace_id : WorkspaceId;
  owner_principal_id : PrincipalId;
  owner_authorization : AuthorizationRef;
}.

Record CommandPins := mk_CommandPins {
  input_release : InputReleaseRef;
  program_release : ProgramReleaseRef;
  application_release : ApplicationReleaseRef;
  source_authority : SourceAuthorityRef;
  pinned_source_generation : SourceGeneration;
  provider_release : ProviderReleaseRef;
  provider_set : ProviderSetRef;
}.

#[export] Instance WriterGeneration_eq_dec : EqDecision WriterGeneration.
Proof. solve_decision. Defined.
#[export] Instance SourceGeneration_eq_dec : EqDecision SourceGeneration.
Proof. solve_decision. Defined.
#[export] Instance WriterFence_eq_dec : EqDecision WriterFence.
Proof. solve_decision. Defined.
#[export] Instance ExpectedHead_eq_dec : EqDecision ExpectedHead.
Proof. solve_decision. Defined.
#[export] Instance CommandIdentity_eq_dec : EqDecision CommandIdentity.
Proof. solve_decision. Defined.
#[export] Instance CommandOwnership_eq_dec : EqDecision CommandOwnership.
Proof. solve_decision. Defined.
#[export] Instance CommandPins_eq_dec : EqDecision CommandPins.
Proof. solve_decision. Defined.

(** ** Command payloads *)

Inductive RelationClass :=
| ClassProviderNative | ClassCanonical | ClassDerived | ClassOperationalFact.

Inductive RelationPublication :=
| PublishProviderNative (provider_run : ProviderRunRef) (owners : OwnerSetRef)
    (relations : RelationSetRef)
| PublishCanonical (normalization_run : AnalysisRunRef) (owners : OwnerSetRef)
    (relations : RelationSetRef)
| PublishDerived (analysis_run : AnalysisRunRef) (owners : OwnerSetRef)
    (relations : RelationSetRef)
| PublishOperationalFact (request : AdministrationRequestRef) (relations : RelationSetRef).

Definition RelationPublication_class (p : RelationPublication) : RelationClass :=
  match p with
  | PublishProviderNative _ _ _ => ClassProviderNative
  | PublishCanonical _ _ _ => ClassCanonical
  | PublishDerived _ _ _ => ClassDerived
  | PublishOperationalFact _ _ => ClassOperationalFact
  end.

Inductive AdministrationAction :=
| RebuildCandidate | RepairTemporalCache | ReconcileOperation | InspectDeltaRetention
| ValidateDeltaRetention | PlanDeltaVacuum | CreateDeltaCheckpoint | CompactDelta
| ExecuteDeltaVacuum.

Inductive CommandKind :=
| KindPublishSourceWave | KindPublishRelations | KindActivateEpoch | KindRollbackEpoch
| KindCompactRelations | KindApplyRetention | KindAdminister.

Inductive FabricCommandPayload :=
| PublishSourceWave (source_images : SourceImageSetRef) (target_generation : SourceGeneration)
| PublishRelations (publication : RelationPublication)
| ActivateEpoch (candidate_epoch : EpochId) (proof_receipt : ProofReceiptRef)
| RollbackEpoch (target_epoch : EpochId) (authorization : RollbackAuthorizationRef)
| CompactRelations (relations : RelationSetRef) (equivalence_proof : ProofReceiptRef)
| ApplyRetention (policy : RetentionPolicyRef) (protected : ProtectedSetRef)
| Administer (action : AdministrationAction) (request : AdministrationRequestRef).

Definition payload_kind (p : FabricCommandPayload) : CommandKind :=
  match p with
  | PublishSourceWave _ _ => KindPublishSourceWave
  | PublishRelations _ => KindPublishRelations
  | ActivateEpoch _ _ => KindActivateEpoch
  | RollbackEpoch _ _ => KindRollbackEpoch
  | CompactRelations _ _ => KindCompactRelations
  | ApplyRetention _ _ => KindApplyRetention
  | Administer _ _ => KindAdminister
  end.

Record FabricCommand := mk_FabricCommand {
  identity : CommandIdentity;
  ownership : CommandOwnership;
  expected_head : ExpectedHead;
  writer_fence : WriterFence;
  pins : CommandPins;
  resources : ResourceEnvelopeRef;
  payload : FabricCommandPayload;
}.

Definition command_kind (c : FabricCommand) : CommandKind := payload_kind (payload c).

#[export] Instance RelationClass_eq_dec : EqDecision RelationClass.
Proof. solve_decision. Defined.
#[export] Instance RelationPublication_eq_dec : EqDecision RelationPublication.
Proof. solve_decision. Defined.
#[export] Instance AdministrationAction_eq_dec : EqDecision AdministrationAction.
Proof. solve_decision. Defined.
#[export] Instance CommandKind_eq_dec : EqDecision CommandKind.
Proof. solve_decision. Defined.
#[export] Instance FabricCommandPayload_eq_dec : EqDecision FabricCommandPayload.
Proof. solve_decision. Defined.
#[export] Instance FabricCommand_eq_dec : EqDecision FabricCommand.
Proof. solve_decision. Defined.

(** ** Contexts, owners, results and failures *)

Inductive AuthorizationDecision :=
| Authorized (reference : AuthorizationRef)
| Denied (diagnostic : DiagnosticRef)
| UnknownAuthorization (diagnostic : DiagnosticRef).

Record AdmissionContext := mk_AdmissionContext {
  admission_workspace_id : WorkspaceId;
  admission_current_head : ExpectedHead;
  admission_active_fence : WriterFence;
  admission_authorization : AuthorizationDecision;
}.

Record ReductionContext := mk_ReductionContext {
  current_head : ExpectedHead;
  active_fence : WriterFence;
}.

Record ExecutionOwner := mk_ExecutionOwner {
  actor_id : ActorId;
  fence : WriterFence;
}.

Inductive CommandResult :=
| SourceWavePublished (source_generation : SourceGeneration) (resulting_head : ExpectedHead)
    (selection : OperationSelectionRef)
| RelationsPublished (class : RelationClass) (relations : RelationSetRef)
    (resulting_head : ExpectedHead) (selection : OperationSelectionRef)
| EpochActivated (epoch : EpochId) (selection : OperationSelectionRef)
| EpochRolledBack (epoch : EpochId) (selection : OperationSelectionRef)
| RelationsCompacted (relations : RelationSetRef) (resulting_head : ExpectedHead)
    (selection : OperationSelectionRef)
| RetentionApplied (protected : ProtectedSetRef) (resulting_head : ExpectedHead)
    (selection : OperationSelectionRef)
| AdministrationApplied (request : AdministrationRequestRef) (resulting_head : ExpectedHead)
    (selection : OperationSelectionRef).

Definition result_kind (r : CommandResult) : CommandKind :=
  match r with
  | SourceWavePublished _ _ _ => KindPublishSourceWave
  | RelationsPublished _ _ _ _ => KindPublishRelations
  | EpochActivated _ _ => KindActivateEpoch
  | EpochRolledBack _ _ => KindRollbackEpoch
  | RelationsCompacted _ _ _ => KindCompactRelations
  | RetentionApplied _ _ _ => KindApplyRetention
  | AdministrationApplied _ _ _ => KindAdminister
  end.

Inductive FailureCode :=
| AuthorizationRevoked | InvalidInput | ResourceExhausted | BackendUnavailable | FailureCancelled
| InternalInvariant.

Inductive FailureClass := Permanent | RetryableBeforeCommit.

Inductive RetryClassification :=
| RetryNever | RetrySameCommandAfterKnownNoCommit | ReconcileBeforeDecision.

Inductive ReconciliationClassification :=
| ReconciliationNotRequired | OperationMarkerAndControlHistory.

Record CommandFailure := mk_CommandFailure {
  failure_code : FailureCode;
  failure_class : FailureClass;
  failure_diagnostic : DiagnosticRef;
}.

Definition failure_retry_classification (f : CommandFailure) : RetryClassification :=
  match failure_class f with
  | Permanent => RetryNever
  | RetryableBeforeCommit => RetrySameCommandAfterKnownNoCommit
  end.

Definition failure_reconciliation_classification (f : CommandFailure)
  : ReconciliationClassification := ReconciliationNotRequired.

Inductive UnknownCommitReason :=
| UnknownTimeout | ConnectionLost | ProcessInterrupted | ReadbackUnavailable.

Record UnknownCommit := mk_UnknownCommit {
  unknown_reason : UnknownCommitReason;
  unknown_diagnostic : DiagnosticRef;
}.

Definition unknown_retry_classification (u : UnknownCommit) : RetryClassification :=
  ReconcileBeforeDecision.

Definition unknown_reconciliation_classification (u : UnknownCommit)
  : ReconciliationClassification := OperationMarkerAndControlHistory.

Record CommandCancellation := mk_CommandCancellation { cancellation_diagnostic : DiagnosticRef }.

Inductive CommitConfirmation :=
| DirectConfirmation
| ReconciledConfirmation (evidence : ReconciliationEvidenceRef).

Inductive RetryBasis :=
| KnownFailure (failure : CommandFailure)
| ReconciledNotCommitted (evidence : ReconciliationEvidenceRef).

#[export] Instance AuthorizationDecision_eq_dec : EqDecision AuthorizationDecision.
Proof. solve_decision. Defined.
#[export] Instance ExecutionOwner_eq_dec : EqDecision ExecutionOwner.
Proof. solve_decision. Defined.
#[export] Instance CommandResult_eq_dec : EqDecision CommandResult.
Proof. solve_decision. Defined.
#[export] Instance FailureCode_eq_dec : EqDecision FailureCode.
Proof. solve_decision. Defined.
#[export] Instance FailureClass_eq_dec : EqDecision FailureClass.
Proof. solve_decision. Defined.
#[export] Instance CommandFailure_eq_dec : EqDecision CommandFailure.
Proof. solve_decision. Defined.
#[export] Instance UnknownCommitReason_eq_dec : EqDecision UnknownCommitReason.
Proof. solve_decision. Defined.
#[export] Instance UnknownCommit_eq_dec : EqDecision UnknownCommit.
Proof. solve_decision. Defined.
#[export] Instance CommandCancellation_eq_dec : EqDecision CommandCancellation.
Proof. solve_decision. Defined.
#[export] Instance CommitConfirmation_eq_dec : EqDecision CommitConfirmation.
Proof. solve_decision. Defined.
#[export] Instance RetryBasis_eq_dec : EqDecision RetryBasis.
Proof. solve_decision. Defined.

(** ** Durable state of one command *)

Inductive DurableCommandState :=
| StateAdmitted (attempt : Z)
| StateExecuting (attempt : Z) (owner : ExecutionOwner)
| StateCommitPrepared (attempt : Z) (owner : ExecutionOwner) (transaction : TransactionRef)
| StateAwaitingReconciliation (attempt : Z) (execution_owner recovery_owner : ExecutionOwner)
    (transaction : TransactionRef) (unknown : UnknownCommit) (probe_count : Z)
    (last_evidence : option ReconciliationEvidenceRef)
| StateRetryReady (next_attempt : Z) (required_fence : WriterFence) (basis : RetryBasis)
| StateSucceeded (transaction : TransactionRef) (result : CommandResult)
    (confirmation : CommitConfirmation)
| StateFailed (failure : CommandFailure)
| StateCancelled (cancellation : CommandCancellation).

Inductive CommandRecoveryObligation :=
| ResumePrecommit
| MarkInterruptedCommit (transaction : TransactionRef)
| ReconcileCommit (transaction : TransactionRef)
| RetryProvedNotCommitted.

Inductive CommandStateKind :=
| KAdmitted | KExecuting | KCommitPrepared | KAwaitingReconciliation | KRetryReady | KSucceeded
| KFailed | KCancelled.

Definition state_kind (s : DurableCommandState) : CommandStateKind :=
  match s with
  | StateAdmitted _ => KAdmitted
  | StateExecuting _ _ => KExecuting
  | StateCommitPrepared _ _ _ => KCommitPrepared
  | StateAwaitingReconciliation _ _ _ _ _ _ _ => KAwaitingReconciliation
  | StateRetryReady _ _ _ => KRetryReady
  | StateSucceeded _ _ _ => KSucceeded
  | StateFailed _ => KFailed
  | StateCancelled _ => KCancelled
  end.

Definition is_terminal (s : DurableCommandState) : bool :=
  match s with
  | StateSucceeded _ _ _ | StateFailed _ | StateCancelled _ => true
  | _ => false
  end.

Record CommandRecord := mk_CommandRecord {
  command : FabricCommand;
  state : DurableCommandState;
  revision : Z;
}.

Inductive CommandRecordInvariantError :=
| InvalidAttempt (state : CommandStateKind)
| InvalidRevision (state : CommandStateKind)
| InvalidExecutionFence (state : CommandStateKind)
| InvalidRecoveryFence
| InvalidReconciliationEvidence
| InvalidRetryBasis
| InvalidTerminalFailure
| InvalidResultKind.

#[export] Instance DurableCommandState_eq_dec : EqDecision DurableCommandState.
Proof. solve_decision. Defined.
#[export] Instance CommandStateKind_eq_dec : EqDecision CommandStateKind.
Proof. solve_decision. Defined.
#[export] Instance CommandRecord_eq_dec : EqDecision CommandRecord.
Proof. solve_decision. Defined.

(** ** Recheck of a persisted record *)

Section persisted.
Local Open Scope Z_scope.

Definition validate_persisted_attempt (attempt : Z) (st : CommandStateKind)
  : result unit CommandRecordInvariantError :=
  if attempt =? 0 then Err (InvalidAttempt st) else Ok tt.

Definition validate_minimum_revision (actual minimum : Z) (st : CommandStateKind)
  : result unit CommandRecordInvariantError :=
  if actual <? minimum then Err (InvalidRevision st) else Ok tt.

Definition validate_persisted_execution_fence (admitted : WriterFence) (owner : ExecutionOwner)
    (st : CommandStateKind) : result unit CommandRecordInvariantError :=
  if bool_decide (fence owner = admitted)
     || (generation_get (generation admitted) <? generation_get (generation (fence owner)))
  then Ok tt else Err (InvalidExecutionFence st).

Definition validate_persisted_invariants (self : CommandRecord)
  : result unit CommandRecordInvariantError :=
  let kind := state_kind (state self) in
  let admitted := writer_fence (command self) in
  match state self with
  | StateAdmitted attempt =>
      if negb (attempt =? 1) then Err (InvalidAttempt kind)
      else if negb (revision self =? 0) then Err (InvalidRevision kind)
      else Ok tt
  | StateExecuting attempt owner =>
      let? _ := validate_persisted_attempt attempt kind in
      let? _ := validate_minimum_revision (revision self)
                  (wrap64 (wrap64 (attempt * 2) - 1)) kind in
      validate_persisted_execution_fence admitted owner kind
  | StateCommitPrepared attempt owner _ =>
      let? _ := validate_persisted_attempt attempt kind in
      let? _ := validate_minimum_revision (revision self) (wrap64 (attempt * 2)) kind in
      validate_persisted_execution_fence admitted owner kind
  | StateAwaitingReconciliation attempt execution_owner recovery_owner _ _ probe_count
      last_evidence =>
      let? _ := validate_persisted_attempt attempt kind in
      let? _ := validate_minimum_revision (revision self)
                  (wrap64 (wrap64 (wrap64 (attempt * 2) + 1) + probe_count)) kind in
      let? _ := validate_persisted_execution_fence admitted execution_owner kind in
      if negb (bool_decide (recovery_owner = execution_owner))
         && (generation_get (generation (fence recovery_owner))
             <=? generation_get (generation (fence execution_owner)))
      then Err InvalidRecoveryFence
      else if negb (Bool.eqb (probe_count =? 0) (bool_decide (last_evidence = None)))
      then Err InvalidReconciliationEvidence
      else Ok tt
  | StateRetryReady next_attempt required_fence basis =>
      if next_attempt <? 2 then Err (InvalidAttempt kind)
      else
        let minimum_revision :=
          match basis with
          | KnownFailure _ => wrap64 ((next_attempt - 1) * 2)
          | ReconciledNotCommitted _ => wrap64 (next_attempt * 2)
          end in
        let? _ := validate_minimum_revision (revision self) minimum_revision kind in
        if negb (bool_decide (required_fence = admitted))
           && (generation_get (generation required_fence)
               <=? generation_get (generation admitted))
        then Err (InvalidExecutionFence kind)
        else match basis with
             | KnownFailure failure =>
                 match failure_class failure with
                 | Permanent => Err InvalidRetryBasis
                 | RetryableBeforeCommit => Ok tt
                 end
             | ReconciledNotCommitted _ => Ok tt
             end
  | StateSucceeded _ res confirmation =>
      let? _ := validate_minimum_revision (revision self)
                  (match confirmation with
                   | DirectConfirmation => 3
                   | ReconciledConfirmation _ => 4
                   end) kind in
      if negb (bool_decide (result_kind res = command_kind (command self)))
      then Err InvalidResultKind
      else Ok tt
  | StateFailed failure =>
      let? _ := validate_minimum_revision (revision self) 2 kind in
      if negb (bool_decide (failure_class failure = Permanent))
      then Err InvalidTerminalFailure
      else Ok tt
  | StateCancelled _ => validate_minimum_revision (revision self) 1 kind
  end.
End persisted.

Definition recovery_obligation (self : CommandRecord) : option CommandRecoveryObligation :=
  match state self with
  | StateAdmitted _ | StateExecuting _ _ => Some ResumePrecommit
  | StateCommitPrepared _ _ transaction => Some (MarkInterruptedCommit transaction)
  | StateAwaitingReconciliation _ _ _ transaction _ _ _ => Some (ReconcileCommit transaction)
  | StateRetryReady _ _ _ => Some RetryProvedNotCommitted
  | StateSucceeded _ _ _ | StateFailed _ | StateCancelled _ => None
  end.

(** ** Events, reductions and contract errors *)

Inductive AdmissionOutcome :=
| AdmissionNew (record : CommandRecord)
| AdmissionExisting (record : CommandRecord).

Definition AdmissionOutcome_record (o : AdmissionOutcome) : CommandRecord :=
  match o with AdmissionNew r | AdmissionExisting r => r end.

Inductive ReconciliationObservation :=
| ObservedCommitted (evidence : ReconciliationEvidenceRef) (result : CommandResult)
| ObservedNotCommitted (evidence : ReconciliationEvidenceRef)
| ObservedIndeterminate (evidence : ReconciliationEvidenceRef).

Inductive CommandEvent :=
| EvStart (owner : ExecutionOwner)
| EvPrepareCommit (owner : ExecutionOwner) (transaction : TransactionRef)
| EvConfirmCommit (owner : ExecutionOwner) (transaction : TransactionRef)
    (result : CommandResult)
| EvReportKnownFailure (owner : ExecutionOwner) (failure : CommandFailure)
| EvReportUnknownCommit (owner : ExecutionOwner) (transaction : TransactionRef)
    (unknown : UnknownCommit)
| EvObserveReconciliation (owner : ExecutionOwner) (transaction : TransactionRef)
    (observation : ReconciliationObservation)
| EvCancelBeforeCommit (owner : ExecutionOwner) (cancellation : CommandCancellation).

Inductive CommandEventKind :=
| EKStart | EKPrepareCommit | EKConfirmCommit | EKReportKnownFailure | EKReportUnknownCommit
| EKObserveReconciliation | EKCancelBeforeCommit.

Definition event_kind (e : CommandEvent) : CommandEventKind :=
  match e with
  | EvStart _ => EKStart
  | EvPrepareCommit _ _ => EKPrepareCommit
  | EvConfirmCommit _ _ _ => EKConfirmCommit
  | EvReportKnownFailure _ _ => EKReportKnownFailure
  | EvReportUnknownCommit _ _ _ => EKReportUnknownCommit
  | EvObserveReconciliation _ _ _ => EKObserveReconciliation
  | EvCancelBeforeCommit _ _ => EKCancelBeforeCommit
  end.

Definition event_owner (e : CommandEvent) : ExecutionOwner :=
  match e with
  | EvStart owner | EvPrepareCommit owner _ | EvConfirmCommit owner _ _
  | EvReportKnownFailure owner _ | EvReportUnknownCommit owner _ _
  | EvObserveReconciliation owner _ _ | EvCancelBeforeCommit owner _ => owner
  end.

Inductive ReductionEffect := StateChanged | IdempotentReplay | ReconciliationStillRequired.

Record ReducerTransition := mk_ReducerTransition {
  predecessor : CommandRecord;
  successor : CommandRecord;
  transition_effect : ReductionEffect;
}.

Record Reduction := mk_Reduction {
  reduced_record : CommandRecord;
  effect : ReductionEffect;
  transition : option ReducerTransition;
}.

Inductive CommandContractError :=
| DuplicateOperationConflict (operation : OperationId)
| PayloadConflict (operation : OperationId)
| IdempotencyKeyConflict (key : IdempotencyKey)
| ExistingLookupMismatch
| WorkspaceMismatch
| AuthorizationDenied
| AuthorizationUnknown
| AuthorizationMismatch
| StaleExpectedHead (expected observed : ExpectedHead)
| StaleWriterFence (expected observed : WriterFence)
| ExecutionOwnerMismatch
| RecoveryFenceNotAdvanced
| IllegalTransition (state : CommandStateKind) (event : CommandEventKind)
| TransactionMismatch
| ResultKindMismatch (command result : CommandKind)
| TerminalConflict
| AttemptOverflow
| RevisionOverflow.

Record ReconciliationProgress := mk_ReconciliationProgress {
  progress_attempt : Z;
  progress_execution_owner : ExecutionOwner;
  progress_recovery_owner : ExecutionOwner;
  progress_transaction : TransactionRef;
  progress_unknown : UnknownCommit;
  progress_probe_count : Z;
}.

#[export] Instance ReconciliationObservation_eq_dec : EqDecision ReconciliationObservation.
Proof. solve_decision. Defined.
#[export] Instance CommandEvent_eq_dec : EqDecision CommandEvent.
Proof. solve_decision. Defined.

(** ** The reducer *)

Module CommandReducer.
Local Open Scope Z_scope.

Definition admit_command (existing : option CommandRecord) (cmd : FabricCommand)
    (context : AdmissionContext) : result AdmissionOutcome CommandContractError :=
  match existing with
  | Some existing =>
      if bool_decide (command existing = cmd) then Ok (AdmissionExisting existing)
      else if bool_decide (operation_id (identity (command existing))
                           = operation_id (identity cmd)) then
        if bool_decide (idempotency_key (identity (command existing))
                        = idempotency_key (identity cmd))
           && negb (bool_decide (payload (command existing) = payload cmd))
        then Err (PayloadConflict (operation_id (identity cmd)))
        else Err (DuplicateOperationConflict (operation_id (identity cmd)))
      else if bool_decide (idempotency_key (identity (command existing))
                           = idempotency_key (identity cmd))
      then Err (IdempotencyKeyConflict (idempotency_key (identity cmd)))
      else Err ExistingLookupMismatch
  | None =>
      if negb (bool_decide (admission_workspace_id context = owner_workspace_id (ownership cmd)))
      then Err WorkspaceMismatch
      else
        let? _ :=
          match admission_authorization context with
          | Authorized reference =>
              if bool_decide (reference = owner_authorization (ownership cmd))
              then Ok tt else Err AuthorizationMismatch
          | Denied _ => Err AuthorizationDenied
          | UnknownAuthorization _ => Err AuthorizationUnknown
          end in
        if negb (bool_decide (admission_current_head context = expected_head cmd))
        then Err (StaleExpectedHead (expected_head cmd) (admission_current_head context))
        else if negb (bool_decide (admission_active_fence context = writer_fence cmd))
        then Err (StaleWriterFence (writer_fence cmd) (admission_active_fence context))
        else Ok (AdmissionNew (mk_CommandRecord cmd (StateAdmitted 1) 0))
  end.

Definition illegal (st : DurableCommandState) (event : CommandEvent) : CommandContractError :=
  IllegalTransition (state_kind st) (event_kind event).

Definition validate_result_kind (cmd : FabricCommand) (event : CommandEvent)
  : result unit CommandContractError :=
  let res :=
    match event with
    | EvConfirmCommit _ _ r | EvObserveReconciliation _ _ (ObservedCommitted _ r) => Some r
    | _ => None
    end in
  match res with
  | Some r =>
      if negb (bool_decide (command_kind cmd = result_kind r))
      then Err (ResultKindMismatch (command_kind cmd) (result_kind r))
      else Ok tt
  | None => Ok tt
  end.

Definition validate_reduction_context (record : CommandRecord) (event : CommandEvent)
    (context : ReductionContext) : result unit CommandContractError :=
  let owner := event_owner event in
  if negb (bool_decide (fence owner = active_fence context))
  then Err (StaleWriterFence (fence owner) (active_fence context))
  else if (match event with EvStart _ | EvPrepareCommit _ _ => true | _ => false end)
          && negb (bool_decide (current_head context = expected_head (command record)))
  then Err (StaleExpectedHead (expected_head (command record)) (current_head context))
  else Ok tt.

Definition validate_new_or_recovery_owner (required : WriterFence) (owner : ExecutionOwner)
  : result unit CommandContractError :=
  if bool_decide (fence owner = required)
     || (generation_get (generation required) <? generation_get (generation (fence owner)))
  then Ok tt else Err RecoveryFenceNotAdvanced.

Definition validate_current_owner (current observed : ExecutionOwner)
  : result unit CommandContractError :=
  if bool_decide (current = observed) then Ok tt else Err ExecutionOwnerMismatch.

Definition validate_recovery_owner (current observed : ExecutionOwner)
  : result unit CommandContractError :=
  if bool_decide (current = observed)
     || (generation_get (generation (fence current))
         <? generation_get (generation (fence observed)))
  then Ok tt else Err RecoveryFenceNotAdvanced.

Definition validate_transaction (prepared observed : TransactionRef)
  : result unit CommandContractError :=
  if bool_decide (prepared = observed) then Ok tt else Err TransactionMismatch.

Definition idempotent (record : CommandRecord) : Reduction :=
  mk_Reduction record IdempotentReplay None.

Definition changed (record : CommandRecord) (st : DurableCommandState)
  : result Reduction CommandContractError :=
  let? rev := ok_or (checked_add u64_max (revision record) 1) RevisionOverflow in
  let next := mk_CommandRecord (command record) st rev in
  Ok (mk_Reduction next StateChanged (Some (mk_ReducerTransition record next StateChanged))).

Definition next_attempt (attempt : Z) : result Z CommandContractError :=
  ok_or (checked_add u32_max attempt 1) AttemptOverflow.

Definition terminal_replay (record : CommandRecord) (event : CommandEvent)
  : result (option Reduction) CommandContractError :=
  let exact :=
    match state record, event with
    | StateSucceeded committed current _, EvConfirmCommit _ transaction res
    | StateSucceeded committed current _,
      EvObserveReconciliation _ transaction (ObservedCommitted _ res) =>
        Some (bool_decide (committed = transaction) && bool_decide (current = res))
    | StateFailed current, EvReportKnownFailure _ failure =>
        Some (bool_decide (current = failure))
    | StateCancelled current, EvCancelBeforeCommit _ cancellation =>
        Some (bool_decide (current = cancellation))
    | st, _ => if is_terminal st then Some false else None
    end in
  match exact with
  | None => Ok None
  | Some true => Ok (Some (idempotent record))
  | Some false => Err TerminalConflict
  end.

(** The source matches on [failure.retry_classification()], whose third value is [unreachable!]
    for a known failure ([failure_retry_classification] has only the two classes below). *)
Definition known_failure_state (attempt : Z) (required_fence : WriterFence)
    (failure : CommandFailure) : result DurableCommandState CommandContractError :=
  match failure_class failure with
  | Permanent => Ok (StateFailed failure)
  | RetryableBeforeCommit =>
      let? n := next_attempt attempt in
      Ok (StateRetryReady n required_fence (KnownFailure failure))
  end.

Definition reduce_admitted (record : CommandRecord) (attempt : Z) (event : CommandEvent)
  : result Reduction CommandContractError :=
  let? next :=
    match event with
    | EvStart owner =>
        let? _ := validate_new_or_recovery_owner (writer_fence (command record)) owner in
        Ok (StateExecuting attempt owner)
    | EvCancelBeforeCommit owner cancellation =>
        let? _ := validate_new_or_recovery_owner (writer_fence (command record)) owner in
        Ok (StateCancelled cancellation)
    | event => Err (illegal (state record) event)
    end in
  changed record next.

Definition reduce_retry_ready (record : CommandRecord) (next_att : Z)
    (required_fence : WriterFence) (basis : RetryBasis) (event : CommandEvent)
  : result Reduction CommandContractError :=
  match event with
  | EvStart owner =>
      let? _ := validate_new_or_recovery_owner required_fence owner in
      changed record (StateExecuting next_att owner)
  | EvReportKnownFailure _ failure =>
      if bool_decide (basis = KnownFailure failure) then Ok (idempotent record)
      else Err (illegal (state record) event)
  | event => Err (illegal (state record) event)
  end.

Definition reduce_executing (record : CommandRecord) (attempt : Z) (current : ExecutionOwner)
    (event : CommandEvent) : result Reduction CommandContractError :=
  match event with
  | EvStart owner =>
      if bool_decide (current = owner) then Ok (idempotent record)
      else
        let? _ := validate_recovery_owner current owner in
        changed record (StateExecuting attempt owner)
  | EvPrepareCommit owner transaction =>
      let? _ := validate_current_owner current owner in
      changed record (StateCommitPrepared attempt owner transaction)
  | EvReportKnownFailure owner failure =>
      let? _ := validate_current_owner current owner in
      let? next := known_failure_state attempt (fence current) failure in
      changed record next
  | EvCancelBeforeCommit owner cancellation =>
      let? _ := validate_current_owner current owner in
      changed record (StateCancelled cancellation)
  | event => Err (illegal (state record) event)
  end.

Definition reduce_prepared (record : CommandRecord) (attempt : Z) (current : ExecutionOwner)
    (prepared : TransactionRef) (event : CommandEvent) : result Reduction CommandContractError :=
  match event with
  | EvPrepareCommit owner transaction =>
      let? _ := validate_current_owner current owner in
      let? _ := validate_transaction prepared transaction in
      Ok (idempotent record)
  | EvConfirmCommit owner transaction res =>
      let? _ := validate_current_owner current owner in
      let? _ := validate_transaction prepared transaction in
      changed record (StateSucceeded transaction res DirectConfirmation)
  | EvReportKnownFailure owner failure =>
      let? _ := validate_current_owner current owner in
      let? next := known_failure_state attempt (fence current) failure in
      changed record next
  | EvReportUnknownCommit owner transaction unknown =>
      let? _ := validate_recovery_owner current owner in
      let? _ := validate_transaction prepared transaction in
      changed record
        (StateAwaitingReconciliation attempt current owner transaction unknown 0 None)
  | event => Err (illegal (state record) event)
  end.

Definition apply_reconciliation (record : CommandRecord) (progress : ReconciliationProgress)
    (observation : ReconciliationObservation) : result Reduction CommandContractError :=
  let? (st, eff) :=
    match observation with
    | ObservedCommitted evidence res =>
        Ok (StateSucceeded (progress_transaction progress) res (ReconciledConfirmation evidence),
            StateChanged)
    | ObservedNotCommitted evidence =>
        let? n := next_attempt (progress_attempt progress) in
        Ok (StateRetryReady n (fence (progress_recovery_owner progress))
              (ReconciledNotCommitted evidence),
            StateChanged)
    | ObservedIndeterminate evidence =>
        let? probes := ok_or (checked_add u32_max (progress_probe_count progress) 1)
                         AttemptOverflow in
        Ok (StateAwaitingReconciliation (progress_attempt progress)
              (progress_execution_owner progress) (progress_recovery_owner progress)
              (progress_transaction progress) (progress_unknown progress) probes (Some evidence),
            ReconciliationStillRequired)
    end in
  let? reduction := changed record st in
  Ok (mk_Reduction (reduced_record reduction) eff
        ((fun t => mk_ReducerTransition (predecessor t) (successor t) eff)
         <$> transition reduction)).

Definition reduce_awaiting_reconciliation (record : CommandRecord)
    (progress : ReconciliationProgress) (event : CommandEvent)
  : result Reduction CommandContractError :=
  match event with
  | EvReportUnknownCommit owner transaction unknown =>
      let? _ := validate_recovery_owner (progress_recovery_owner progress) owner in
      let? _ := validate_transaction (progress_transaction progress) transaction in
      if bool_decide (progress_unknown progress = unknown) then Ok (idempotent record)
      else Err (illegal (state record) event)
  | EvObserveReconciliation owner transaction observation =>
      let? _ := validate_recovery_owner (progress_recovery_owner progress) owner in
      let? _ := validate_transaction (progress_transaction progress) transaction in
      apply_reconciliation record
        (mk_ReconciliationProgress (progress_attempt progress)
           (progress_execution_owner progress) owner (progress_transaction progress)
           (progress_unknown progress) (progress_probe_count progress))
        observation
  | event => Err (illegal (state record) event)
  end.

Definition reduce (record : CommandRecord) (event : CommandEvent) (context : ReductionContext)
  : result Reduction CommandContractError :=
  let? _ := validate_result_kind (command record) event in
  let? replay := terminal_replay record event in
  match replay with
  | Some reduction => Ok reduction
  | None =>
      let? _ := validate_reduction_context record event context in
      match state record with
      | StateAdmitted attempt => reduce_admitted record attempt event
      | StateExecuting attempt owner => reduce_executing record attempt owner event
      | StateCommitPrepared attempt owner transaction =>
          reduce_prepared record attempt owner transaction event
      | StateAwaitingReconciliation attempt execution_owner recovery_owner transaction unknown
          probe_count _ =>
          reduce_awaiting_reconciliation record
            (mk_ReconciliationProgress attempt execution_owner recovery_owner transaction unknown
               probe_count) event
      | StateRetryReady next_att required_fence basis =>
          reduce_retry_ready record next_att required_fence basis event
      | st => Err (illegal st event)
      end
  end.
End CommandReducer.
