(* ===== verification/CommandTheory.v ===== *)
(** * The fabric command: transition relation and invariants

    The reducer of [CommandModel] is characterised by a transition relation; the recheck of a
    persisted record, the immutability of terminal answers, fencing, and the classification of
    restarts are proved over every sequence of events. *)

From S2P Require Import Prelude CommandModel.

(** ** Order on fences and owners *)

Section fences.
Local Open Scope Z_scope.

Definition fence_generation (f : WriterFence) : Z := generation_get (generation f).

(** [f] is the required fence itself or belongs to a strictly newer writer generation. *)
Definition fence_at_or_after (required f : WriterFence) : Prop :=
  f = required \/ fence_generation required < fence_generation f.

(** The same owner, or an owner of a strictly newer generation. *)
Definition owner_at_or_after (current observed : ExecutionOwner) : Prop :=
  current = observed \/ fence_generation (fence current) < fence_generation (fence observed).

Lemma fence_at_or_after_trans f1 f2 f3 :
  fence_at_or_after f1 f2 -> fence_at_or_after f2 f3 -> fence_at_or_after f1 f3.
Proof. unfold fence_at_or_after. intros [->|?] [->|?]; auto. right; lia. Qed.

Lemma owner_at_or_after_trans o1 o2 o3 :
  owner_at_or_after o1 o2 -> owner_at_or_after o2 o3 -> owner_at_or_after o1 o3.
Proof. unfold owner_at_or_after. intros [->|?] [->|?]; auto. right; lia. Qed.

Lemma owner_at_or_after_fence o1 o2 :
  owner_at_or_after o1 o2 -> fence_at_or_after (fence o1) (fence o2).
Proof. unfold owner_at_or_after, fence_at_or_after. intros [->|?]; auto. Qed.

Lemma fence_at_or_after_generation f1 f2 :
  fence_at_or_after f1 f2 -> fence_generation f1 <= fence_generation f2.
Proof. unfold fence_at_or_after. intros [->|?]; lia. Qed.
End fences.

Create HintDb command.
#[export] Hint Resolve fence_at_or_after_trans owner_at_or_after_trans owner_at_or_after_fence
  fence_at_or_after_generation : command.

(** ** The transition relation *)

Section transitions.
Local Open Scope Z_scope.
Context (cmd : FabricCommand).

(** Material transitions of the durable state, one rule per accepted event. *)
Inductive moves : DurableCommandState -> CommandEvent -> DurableCommandState -> Prop :=
| mv_start a o :
    fence_at_or_after (writer_fence cmd) (fence o) ->
    moves (StateAdmitted a) (EvStart o) (StateExecuting a o)
| mv_cancel_admitted a o c :
    fence_at_or_after (writer_fence cmd) (fence o) ->
    moves (StateAdmitted a) (EvCancelBeforeCommit o c) (StateCancelled c)
| mv_takeover a o o' :
    fence_generation (fence o) < fence_generation (fence o') ->
    moves (StateExecuting a o) (EvStart o') (StateExecuting a o')
| mv_prepare a o t :
    moves (StateExecuting a o) (EvPrepareCommit o t) (StateCommitPrepared a o t)
| mv_cancel_executing a o c :
    moves (StateExecuting a o) (EvCancelBeforeCommit o c) (StateCancelled c)
| mv_executing_permanent a o f :
    failure_class f = Permanent ->
    moves (StateExecuting a o) (EvReportKnownFailure o f) (StateFailed f)
| mv_executing_retry a o f :
    failure_class f = RetryableBeforeCommit -> a + 1 <= u32_max ->
    moves (StateExecuting a o) (EvReportKnownFailure o f)
      (StateRetryReady (a + 1) (fence o) (KnownFailure f))
| mv_confirm a o t r :
    result_kind r = command_kind cmd ->
    moves (StateCommitPrepared a o t) (EvConfirmCommit o t r)
      (StateSucceeded t r DirectConfirmation)
| mv_prepared_permanent a o t f :
    failure_class f = Permanent ->
    moves (StateCommitPrepared a o t) (EvReportKnownFailure o f) (StateFailed f)
| mv_prepared_retry a o t f :
    failure_class f = RetryableBeforeCommit -> a + 1 <= u32_max ->
    moves (StateCommitPrepared a o t) (EvReportKnownFailure o f)
      (StateRetryReady (a + 1) (fence o) (KnownFailure f))
| mv_unknown a o o' t u :
    owner_at_or_after o o' ->
    moves (StateCommitPrepared a o t) (EvReportUnknownCommit o' t u)
      (StateAwaitingReconciliation a o o' t u 0 None)
| mv_observe_committed a eo ro t u n l o e r :
    owner_at_or_after ro o -> result_kind r = command_kind cmd ->
    moves (StateAwaitingReconciliation a eo ro t u n l)
      (EvObserveReconciliation o t (ObservedCommitted e r))
      (StateSucceeded t r (ReconciledConfirmation e))
| mv_observe_not_committed a eo ro t u n l o e :
    owner_at_or_after ro o -> a + 1 <= u32_max ->
    moves (StateAwaitingReconciliation a eo ro t u n l)
      (EvObserveReconciliation o t (ObservedNotCommitted e))
      (StateRetryReady (a + 1) (fence o) (ReconciledNotCommitted e))
| mv_observe_indeterminate a eo ro t u n l o e :
    owner_at_or_after ro o -> n + 1 <= u32_max ->
    moves (StateAwaitingReconciliation a eo ro t u n l)
      (EvObserveReconciliation o t (ObservedIndeterminate e))
      (StateAwaitingReconciliation a eo o t u (n + 1) (Some e))
| mv_retry n f b o :
    fence_at_or_after f (fence o) ->
    moves (StateRetryReady n f b) (EvStart o) (StateExecuting n o).

(** Events recognised as an exact replay: they leave the record as it is. *)
Inductive replays : DurableCommandState -> CommandEvent -> Prop :=
| rp_start a o : replays (StateExecuting a o) (EvStart o)
| rp_prepare a o t : replays (StateCommitPrepared a o t) (EvPrepareCommit o t)
| rp_unknown a eo ro t u n l o :
    owner_at_or_after ro o ->
    replays (StateAwaitingReconciliation a eo ro t u n l) (EvReportUnknownCommit o t u)
| rp_retry n f fl o :
    replays (StateRetryReady n f (KnownFailure fl)) (EvReportKnownFailure o fl)
| rp_confirmed t r cf o :
    result_kind r = command_kind cmd ->
    replays (StateSucceeded t r cf) (EvConfirmCommit o t r)
| rp_observed t r cf o e :
    result_kind r = command_kind cmd ->
    replays (StateSucceeded t r cf) (EvObserveReconciliation o t (ObservedCommitted e r))
| rp_failed f o : replays (StateFailed f) (EvReportKnownFailure o f)
| rp_cancelled c o : replays (StateCancelled c) (EvCancelBeforeCommit o c).
End transitions.

(** The mutable facts re-read with an event permit it. *)
Definition context_allows (record : CommandRecord) (event : CommandEvent)
    (context : ReductionContext) : Prop :=
  fence (event_owner event) = active_fence context
  /\ match event with
     | EvStart _ | EvPrepareCommit _ _ => current_head context = expected_head (command record)
     | _ => True
     end.

Definition event_effect (event : CommandEvent) : ReductionEffect :=
  match event with
  | EvObserveReconciliation _ _ (ObservedIndeterminate _) => ReconciliationStillRequired
  | _ => StateChanged
  end.

(** The reduction of a material transition: revision plus one and an exact transition witness. *)
Definition material_reduction (record : CommandRecord) (st : DurableCommandState)
    (eff : ReductionEffect) : Reduction :=
  let next := mk_CommandRecord (command record) st (revision record + 1)%Z in
  mk_Reduction next eff (Some (mk_ReducerTransition record next eff)).

(** ** Facts about the guards *)

Lemma new_or_recovery_owner_Ok f o u :
  CommandReducer.validate_new_or_recovery_owner f o = Ok u <-> fence_at_or_after f (fence o).
Proof.
  unfold CommandReducer.validate_new_or_recovery_owner, fence_at_or_after, fence_generation.
  destruct u. case_bool_decide; [naive_solver|]. simpl.
  destruct (Z.ltb_spec (generation_get (generation f)) (generation_get (generation (fence o))));
    split; intros; simplify_eq; try naive_solver lia.
Qed.

Lemma recovery_owner_Ok o o' u :
  CommandReducer.validate_recovery_owner o o' = Ok u <-> owner_at_or_after o o'.
Proof.
  unfold CommandReducer.validate_recovery_owner, owner_at_or_after, fence_generation.
  destruct u. case_bool_decide; [naive_solver|]. simpl.
  destruct (Z.ltb_spec (generation_get (generation (fence o)))
              (generation_get (generation (fence o'))));
    split; intros; simplify_eq; try naive_solver lia.
Qed.

Lemma current_owner_Ok o o' u :
  CommandReducer.validate_current_owner o o' = Ok u <-> o = o'.
Proof.
  unfold CommandReducer.validate_current_owner. destruct u. case_bool_decide; naive_solver.
Qed.

Lemma transaction_Ok t t' u : CommandReducer.validate_transaction t t' = Ok u <-> t = t'.
Proof.
  unfold CommandReducer.validate_transaction. destruct u. case_bool_decide; naive_solver.
Qed.

Lemma reduction_context_Ok r e c u :
  CommandReducer.validate_reduction_context r e c = Ok u <-> context_allows r e c.
Proof.
  unfold CommandReducer.validate_reduction_context, context_allows. destruct u.
  repeat case_bool_decide; destruct e; naive_solver.
Qed.

Lemma changed_Ok r s red :
  CommandReducer.changed r s = Ok red
  <-> (revision r + 1 <= u64_max)%Z /\ red = material_reduction r s StateChanged.
Proof.
  unfold CommandReducer.changed, material_reduction.
  destruct (checked_add u64_max (revision r) 1) eqn:E; simpl.
  - apply checked_add_Some in E as [-> ?]. naive_solver.
  - apply checked_add_None in E. split; [done|]. intros [? _]. lia.
Qed.

Lemma changed_eq r s :
  (revision r + 1 <= u64_max)%Z ->
  CommandReducer.changed r s = Ok (material_reduction r s StateChanged).
Proof. intros. by apply changed_Ok. Qed.

Lemma next_attempt_Ok a n :
  CommandReducer.next_attempt a = Ok n <-> n = (a + 1)%Z /\ (a + 1 <= u32_max)%Z.
Proof.
  unfold CommandReducer.next_attempt. rewrite ok_or_Ok. apply checked_add_Some.
Qed.

(** Reads the guards that passed as the relations they decide. *)
Ltac guard_facts :=
  repeat match goal with
  | H : CommandReducer.validate_new_or_recovery_owner _ _ = Ok _ |- _ =>
      apply new_or_recovery_owner_Ok in H
  | H : CommandReducer.validate_recovery_owner _ _ = Ok _ |- _ => apply recovery_owner_Ok in H
  | H : CommandReducer.validate_current_owner _ _ = Ok _ |- _ => apply current_owner_Ok in H
  | H : CommandReducer.validate_transaction _ _ = Ok _ |- _ => apply transaction_Ok in H
  | H : CommandReducer.validate_reduction_context _ _ _ = Ok _ |- _ =>
      apply reduction_context_Ok in H
  | H : CommandReducer.changed _ _ = Ok _ |- _ => apply changed_Ok in H as [? ?]
  | H : CommandReducer.next_attempt _ = Ok _ |- _ => apply next_attempt_Ok in H as [? ?]
  | H : checked_add _ _ _ = Some _ |- _ => apply checked_add_Some in H as [? ?]
  | H : ok_or _ _ = Ok _ |- _ => apply ok_or_Ok in H
  end; zify_bool; simplify_eq/=.

Lemma terminal_replay_None r e :
  CommandReducer.terminal_replay r e = Ok None <-> is_terminal (state r) = false.
Proof.
  unfold CommandReducer.terminal_replay.
  destruct (state r), e as [| | | | |? ? []|]; simpl; split; intros; try done;
    repeat case_bool_decide; done.
Qed.

Lemma terminal_replay_Some cmd r e red :
  CommandReducer.validate_result_kind cmd e = Ok tt -> command r = cmd ->
  CommandReducer.terminal_replay r e = Ok (Some red)
  <-> is_terminal (state r) = true /\ replays cmd (state r) e /\ red = CommandReducer.idempotent r.
Proof.
  intros Hk Hc. unfold CommandReducer.terminal_replay, CommandReducer.validate_result_kind in *.
  destruct (state r) eqn:Hs, e as [| | | | |? ? []|]; simpl in *; split; intros H;
    try done; try (destruct_and!; match goal with H : replays _ _ _ |- _ => inversion H end; done);
    repeat (case_bool_decide; simplify_eq/=); try done;
    try (split; [done|split; [by constructor|done]]);
    destruct_and!; match goal with H : replays _ _ _ |- _ => inversion H end; naive_solver.
Qed.

(** Each state's reducer, read as a relation. *)
Lemma reduce_admitted_iff r a e red :
  state r = StateAdmitted a ->
  CommandReducer.reduce_admitted r a e = Ok red
  <-> exists s', moves (command r) (state r) e s' /\ (revision r + 1 <= u64_max)%Z
                 /\ red = material_reduction r s' (event_effect e).
Proof.
  intros ->. unfold CommandReducer.reduce_admitted. split.
  - intros H. destruct e; inv_ok H; guard_facts; eauto using moves.
  - intros (s' & Hm & Hr & ->). inversion Hm; subst;
      rewrite (proj2 (new_or_recovery_owner_Ok _ _ tt)) by done; by apply changed_Ok.
Qed.

Lemma known_failure_state_Ok a f fl s :
  CommandReducer.known_failure_state a f fl = Ok s
  <-> failure_class fl = Permanent /\ s = StateFailed fl
      \/ failure_class fl = RetryableBeforeCommit /\ (a + 1 <= u32_max)%Z
         /\ s = StateRetryReady (a + 1) f (KnownFailure fl).
Proof.
  unfold CommandReducer.known_failure_state. destruct (failure_class fl); [naive_solver|].
  split.
  - intros H. inv_ok H. guard_facts. naive_solver.
  - intros [[? _]|(_ & ? & ->)]; [done|].
    by rewrite (proj2 (next_attempt_Ok a (a + 1))) by done.
Qed.

Lemma reduce_executing_iff r a o e red :
  state r = StateExecuting a o ->
  CommandReducer.reduce_executing r a o e = Ok red
  <-> (exists s', moves (command r) (state r) e s' /\ (revision r + 1 <= u64_max)%Z
                  /\ red = material_reduction r s' (event_effect e))
      \/ replays (command r) (state r) e /\ red = CommandReducer.idempotent r.
Proof.
  intros ->. unfold CommandReducer.reduce_executing. split.
  - intros H. destruct e; inv_ok H; guard_facts; try (right; split; [constructor|done]);
      try (left; eauto using moves; done).
    + left. eexists. split; [|done]. apply mv_takeover. by destruct E0.
    + apply known_failure_state_Ok in E0. left. naive_solver eauto using moves.
  - intros [(s' & Hm & Hr & ->)|[Hp ->]]; [|inversion Hp; by rewrite bool_decide_eq_true_2].
    inversion Hm; subst.
    + rewrite bool_decide_eq_false_2 by (intros ->; lia).
      rewrite (proj2 (recovery_owner_Ok _ _ tt)) by (by right). by apply changed_Ok.
    + rewrite (proj2 (current_owner_Ok _ _ tt)) by done. by apply changed_Ok.
    + rewrite (proj2 (current_owner_Ok _ _ tt)) by done. by apply changed_Ok.
    + rewrite (proj2 (current_owner_Ok _ _ tt)) by done.
      rewrite (proj2 (known_failure_state_Ok _ _ _ (StateFailed f))) by auto. by apply changed_Ok.
    + rewrite (proj2 (current_owner_Ok _ _ tt)) by done.
      erewrite (proj2 (known_failure_state_Ok _ _ _ _)) by eauto. by apply changed_Ok.
Qed.

Lemma reduce_prepared_iff r a o t e red :
  state r = StateCommitPrepared a o t ->
  CommandReducer.validate_result_kind (command r) e = Ok tt ->
  CommandReducer.reduce_prepared r a o t e = Ok red
  <-> (exists s', moves (command r) (state r) e s' /\ (revision r + 1 <= u64_max)%Z
                  /\ red = material_reduction r s' (event_effect e))
      \/ replays (command r) (state r) e /\ red = CommandReducer.idempotent r.
Proof.
  intros -> Hk. unfold CommandReducer.reduce_prepared. split.
  - intros H. destruct e; inv_ok H; guard_facts; try (right; split; [constructor|done]);
      try (left; eauto using moves; done).
    + left. unfold CommandReducer.validate_result_kind in Hk. inv_ok Hk. zify_bool.
      eauto using moves, eq_sym.
    + apply known_failure_state_Ok in E0. left. naive_solver eauto using moves.
  - intros [(s' & Hm & Hr & ->)|[Hp ->]].
    + inversion Hm; subst; try rewrite (proj2 (current_owner_Ok _ _ tt)) by done;
        try rewrite (proj2 (recovery_owner_Ok _ _ tt)) by done;
        try rewrite (proj2 (transaction_Ok _ _ tt)) by done;
        try (erewrite (proj2 (known_failure_state_Ok _ _ _ _)) by eauto); by apply changed_Ok.
    + inversion Hp; subst. rewrite (proj2 (current_owner_Ok _ _ tt)) by done.
      by rewrite (proj2 (transaction_Ok _ _ tt)) by done.
Qed.

Lemma reduce_retry_ready_iff r n f b e red :
  state r = StateRetryReady n f b ->
  CommandReducer.reduce_retry_ready r n f b e = Ok red
  <-> (exists s', moves (command r) (state r) e s' /\ (revision r + 1 <= u64_max)%Z
                  /\ red = material_reduction r s' (event_effect e))
      \/ replays (command r) (state r) e /\ red = CommandReducer.idempotent r.
Proof.
  intros ->. unfold CommandReducer.reduce_retry_ready. split.
  - intros H. destruct e; inv_ok H; guard_facts; try (right; split; [constructor|done]);
      left; eauto using moves.
  - intros [(s' & Hm & Hr & ->)|[Hp ->]].
    + inversion Hm; subst. rewrite (proj2 (new_or_recovery_owner_Ok _ _ tt)) by done.
      by apply changed_Ok.
    + inversion Hp; subst. by rewrite bool_decide_eq_true_2.
Qed.

Lemma reduce_awaiting_iff r a eo ro t u n l e red :
  state r = StateAwaitingReconciliation a eo ro t u n l ->
  CommandReducer.validate_result_kind (command r) e = Ok tt ->
  CommandReducer.reduce_awaiting_reconciliation r (mk_ReconciliationProgress a eo ro t u n) e
    = Ok red
  <-> (exists s', moves (command r) (state r) e s' /\ (revision r + 1 <= u64_max)%Z
                  /\ red = material_reduction r s' (event_effect e))
      \/ replays (command r) (state r) e /\ red = CommandReducer.idempotent r.
Proof.
  intros -> Hk. unfold CommandReducer.reduce_awaiting_reconciliation,
    CommandReducer.apply_reconciliation. split.
  - intros H. destruct e as [| | | | |o' t' []|]; inv_ok H; guard_facts;
      try (right; split; [by constructor|done]); left; eauto using moves.
    unfold CommandReducer.validate_result_kind in Hk. inv_ok Hk. zify_bool.
    eauto using moves, eq_sym.
  - intros [(s' & Hm & Hr & ->)|[Hp ->]].
    + inversion Hm; subst; simpl; rewrite (proj2 (recovery_owner_Ok _ _ tt)) by done;
        rewrite (proj2 (transaction_Ok _ _ tt)) by done.
      * by rewrite changed_eq.
      * rewrite (proj2 (next_attempt_Ok a (a + 1))) by done. by rewrite changed_eq.
      * rewrite (proj2 (checked_add_Some u32_max n 1 (n + 1))) by done.
        simpl. by rewrite changed_eq.
    + inversion Hp; subst; simpl. rewrite (proj2 (recovery_owner_Ok _ _ tt)) by done.
      rewrite (proj2 (transaction_Ok _ _ tt)) by done. by rewrite bool_decide_eq_true_2.
Qed.

Lemma moves_result_kind cmd s e s' :
  moves cmd s e s' -> CommandReducer.validate_result_kind cmd e = Ok tt.
Proof.
  unfold CommandReducer.validate_result_kind. destruct 1; try done;
    by rewrite bool_decide_eq_true_2.
Qed.

Lemma replays_result_kind cmd s e :
  replays cmd s e -> CommandReducer.validate_result_kind cmd e = Ok tt.
Proof.
  unfold CommandReducer.validate_result_kind. destruct 1; try done;
    by rewrite bool_decide_eq_true_2.
Qed.

Lemma moves_not_terminal cmd s e s' : moves cmd s e s' -> is_terminal s = false.
Proof. by destruct 1. Qed.

Lemma validate_result_kind_unit cmd e u :
  CommandReducer.validate_result_kind cmd e = Ok u ->
  CommandReducer.validate_result_kind cmd e = Ok tt.
Proof. by destruct u. Qed.

(** A live (nonterminal) record: the dispatch of [reduce] over its state. *)
Lemma reduce_live r e c red :
  is_terminal (state r) = false ->
  CommandReducer.reduce r e c = Ok red
  <-> context_allows r e c
      /\ ((exists s', moves (command r) (state r) e s' /\ (revision r + 1 <= u64_max)%Z
                      /\ red = material_reduction r s' (event_effect e))
          \/ replays (command r) (state r) e /\ red = CommandReducer.idempotent r).
Proof.
  intros Ht. unfold CommandReducer.reduce.
  rewrite (proj2 (terminal_replay_None r e)) by done.
  destruct (CommandReducer.validate_result_kind (command r) e) as [[]|err] eqn:Hk; cycle 1.
  { split; [done|]. intros [_ [(s' & Hm & _)|[Hp _]]].
    - apply moves_result_kind in Hm. congruence.
    - apply replays_result_kind in Hp. congruence. }
  destruct (CommandReducer.validate_reduction_context r e c) as [[]|err] eqn:Hc; cycle 1.
  { split; [done|]. intros [Hc' _]. apply (reduction_context_Ok _ _ _ tt) in Hc'. congruence. }
  apply reduction_context_Ok in Hc.
  destruct (state r) eqn:Hs; try done; rewrite <- Hs.
  - rewrite (reduce_admitted_iff r) by done. split; [naive_solver|].
    intros (_ & [?|[Hp _]]); [done|]. rewrite Hs in Hp. inversion Hp.
  - rewrite reduce_executing_iff by done. naive_solver.
  - rewrite reduce_prepared_iff by done. naive_solver.
  - rewrite reduce_awaiting_iff by done. naive_solver.
  - rewrite reduce_retry_ready_iff by done. naive_solver.
Qed.

(** The whole reducer, read as a relation. *)
Lemma reduce_spec r e c red :
  CommandReducer.reduce r e c = Ok red
  <-> (exists s', moves (command r) (state r) e s' /\ context_allows r e c
                  /\ (revision r + 1 <= u64_max)%Z
                  /\ red = material_reduction r s' (event_effect e))
      \/ (replays (command r) (state r) e
          /\ (is_terminal (state r) = true \/ context_allows r e c)
          /\ red = CommandReducer.idempotent r).
Proof.
  destruct (is_terminal (state r)) eqn:Ht.
  2: { rewrite reduce_live by done. naive_solver. }
  unfold CommandReducer.reduce.
  destruct (CommandReducer.validate_result_kind (command r) e) as [[]|err] eqn:Hk; cycle 1.
  { split; [done|]. intros [(s' & Hm & _)|[Hp _]].
    - apply moves_not_terminal in Hm. congruence.
    - apply replays_result_kind in Hp. congruence. }
  pose proof (fun red => terminal_replay_Some (command r) r e red Hk eq_refl) as Hrep.
  destruct (CommandReducer.terminal_replay r e) as [[red'|]|err] eqn:Hr.
  - destruct (proj1 (Hrep red') eq_refl) as (_ & Hp & ->). split; [naive_solver|].
    intros [(s' & Hm & _)|(_ & _ & ->)]; [|done]. apply moves_not_terminal in Hm. congruence.
  - apply terminal_replay_None in Hr. congruence.
  - split; [done|]. intros [(s' & Hm & _)|(Hp & _ & ->)].
    + apply moves_not_terminal in Hm. congruence.
    + discriminate (proj2 (Hrep (CommandReducer.idempotent r)) (conj Ht (conj Hp eq_refl))).
Qed.

(** ** Histories

    The adapter feeds events one at a time and persists a record only when the reducer accepts the
    event; a rejected event leaves the durable record as it was. *)

Definition history : Type := list (CommandEvent * ReductionContext).

Definition run_step (r : CommandRecord) (ec : CommandEvent * ReductionContext) : CommandRecord :=
  match CommandReducer.reduce r ec.1 ec.2 with
  | Ok red => reduced_record red
  | Err _ => r
  end.

Definition run (r : CommandRecord) (h : history) : CommandRecord := foldl run_step r h.
Arguments run : simpl never.

(** One step of a history: nothing happened, or a rule of the transition relation fired. *)
Lemma run_step_cases r ec :
  run_step r ec = r
  \/ exists s', moves (command r) (state r) ec.1 s' /\ context_allows r ec.1 ec.2
       /\ (revision r + 1 <= u64_max)%Z
       /\ run_step r ec = mk_CommandRecord (command r) s' (revision r + 1).
Proof.
  unfold run_step. destruct (CommandReducer.reduce r ec.1 ec.2) as [red|] eqn:E; [|by left].
  apply reduce_spec in E as [(s' & ? & ? & ? & ->)|(? & ? & ->)]; simpl.
  - right. eauto.
  - by left.
Qed.

(** A property preserved by every rule holds after every history. *)
Lemma run_invariant (P : CommandRecord -> Prop) r h :
  (forall r e c s', P r -> moves (command r) (state r) e s' -> context_allows r e c ->
     (revision r + 1 <= u64_max)%Z -> P (mk_CommandRecord (command r) s' (revision r + 1))) ->
  P r -> P (run r h).
Proof.
  intros Hstep. unfold run. revert r. induction h as [|ec h IH]; intros r HP; simpl; [done|].
  apply IH. destruct (run_step_cases r ec) as [->|(s' & ? & ? & ? & ->)]; eauto.
Qed.

Lemma run_terminal r h : is_terminal (state r) = true -> run r h = r.
Proof.
  intros Ht. unfold run. induction h as [|ec h IH]; simpl; [done|].
  destruct (run_step_cases r ec) as [->|(s' & Hm & _)]; [done|].
  apply moves_not_terminal in Hm. congruence.
Qed.

Lemma run_command r h : command (run r h) = command r.
Proof.
  apply (run_invariant (fun r' => command r' = command r)); [|done]. intros; simpl; congruence.
Qed.

(** ** The structural invariant *)

Section invariant.
Local Open Scope Z_scope.

(** Bounds on the counters and on the fences of a state, relative to its command and revision. *)
Definition state_invariant (cmd : FabricCommand) (rev : Z) (s : DurableCommandState) : Prop :=
  match s with
  | StateAdmitted a => a = 1 /\ rev = 0
  | StateExecuting a o =>
      1 <= a <= u32_max /\ 2 * a - 1 <= rev /\ fence_at_or_after (writer_fence cmd) (fence o)
  | StateCommitPrepared a o _ =>
      1 <= a <= u32_max /\ 2 * a <= rev /\ fence_at_or_after (writer_fence cmd) (fence o)
  | StateAwaitingReconciliation a eo ro _ _ n l =>
      1 <= a <= u32_max /\ 0 <= n <= u32_max /\ 2 * a + 1 + n <= rev
      /\ fence_at_or_after (writer_fence cmd) (fence eo) /\ owner_at_or_after eo ro
      /\ (n = 0 <-> l = None)
  | StateRetryReady n f b =>
      2 <= n <= u32_max /\ fence_at_or_after (writer_fence cmd) f
      /\ match b with
         | KnownFailure fl => failure_class fl = RetryableBeforeCommit /\ 2 * (n - 1) <= rev
         | ReconciledNotCommitted _ => 2 * n <= rev
         end
  | StateSucceeded _ res cf =>
      result_kind res = command_kind cmd
      /\ match cf with DirectConfirmation => 3 <= rev | ReconciledConfirmation _ => 4 <= rev end
  | StateFailed f => failure_class f = Permanent /\ 2 <= rev
  | StateCancelled _ => 1 <= rev
  end.

Definition record_invariant (r : CommandRecord) : Prop :=
  0 <= revision r <= u64_max /\ state_invariant (command r) (revision r) (state r).

Lemma moves_invariant cmd rev s e s' :
  moves cmd s e s' -> 0 <= rev -> state_invariant cmd rev s -> state_invariant cmd (rev + 1) s'.
Proof.
  destruct 1; simpl; intros; destruct_and?; subst;
    repeat match goal with |- _ /\ _ => split end; eauto with command; try lia;
    try (unfold u32_max in *; lia).
  - eapply fence_at_or_after_trans; [done|by right].
  - done.
  - split; [lia|done].
  - destruct b; destruct_and?; lia.
Qed.

Lemma record_invariant_run r h : record_invariant r -> record_invariant (run r h).
Proof.
  apply run_invariant. intros r' e c s' [? Hs] Hm _ ?. split; simpl; [lia|].
  eapply moves_invariant; eauto; lia.
Qed.
End invariant.

(** ** The recheck of a persisted record *)

Section recheck.
Local Open Scope Z_scope.

Lemma persisted_fence_Ok f o k u :
  validate_persisted_execution_fence f o k = Ok u <-> fence_at_or_after f (fence o).
Proof.
  unfold validate_persisted_execution_fence, fence_at_or_after, fence_generation. destruct u.
  case_bool_decide; [naive_solver|]. simpl.
  destruct (Z.ltb_spec (generation_get (generation f)) (generation_get (generation (fence o))));
    split; intros; simplify_eq; try naive_solver lia.
Qed.

Lemma minimum_revision_Ok a m k u : validate_minimum_revision a m k = Ok u <-> m <= a.
Proof.
  unfold validate_minimum_revision. destruct u, (Z.ltb_spec a m); split; intros; try done; lia.
Qed.

Lemma persisted_attempt_Ok a k u : validate_persisted_attempt a k = Ok u <-> a <> 0.
Proof.
  unfold validate_persisted_attempt. destruct u, (Z.eqb_spec a 0); split; intros; done.
Qed.

(** The counters of a record fit their machine types. *)
Definition counters_fit (r : CommandRecord) : Prop :=
  in_uint u64_max (revision r)
  /\ match state r with
     | StateAdmitted a | StateExecuting a _ | StateCommitPrepared a _ _ => in_uint u32_max a
     | StateAwaitingReconciliation a _ _ _ _ n _ => in_uint u32_max a /\ in_uint u32_max n
     | StateRetryReady n _ _ => in_uint u32_max n
     | _ => True
     end.

Lemma not_after_false f1 f2 :
  (negb (bool_decide (f2 = f1))
   && (generation_get (generation f2) <=? generation_get (generation f1)))%bool = false
  <-> fence_at_or_after f1 f2.
Proof.
  unfold fence_at_or_after, fence_generation. case_bool_decide; simpl; [naive_solver|].
  rewrite Z.leb_gt. naive_solver lia.
Qed.

Lemma not_owner_after_false o1 o2 :
  (negb (bool_decide (o2 = o1))
   && (generation_get (generation (fence o2)) <=? generation_get (generation (fence o1))))%bool
  = false
  <-> owner_at_or_after o1 o2.
Proof.
  unfold owner_at_or_after, fence_generation. case_bool_decide; simpl; [naive_solver|].
  rewrite Z.leb_gt. naive_solver lia.
Qed.

Lemma evidence_guard_false n (l : option ReconciliationEvidenceRef) :
  negb (Bool.eqb (n =? 0) (bool_decide (l = None))) = false <-> (n = 0 <-> l = None).
Proof.
  rewrite negb_false_iff, Bool.eqb_true_iff.
  destruct (Z.eqb_spec n 0), (bool_decide_reflect (l = None)); naive_solver.
Qed.

Ltac drop_wrap :=
  repeat match goal with
  | |- context [wrap64 ?x] =>
      lazymatch x with context [wrap64 _] => fail | _ => idtac end;
      rewrite (wrap64_small x) by (unfold in_uint, u32_max, u64_max in *; lia)
  | H : context [wrap64 ?x] |- _ =>
      lazymatch x with context [wrap64 _] => fail | _ => idtac end;
      rewrite (wrap64_small x) in H by (unfold in_uint, u32_max, u64_max in *; lia)
  end.

Ltac recheck_facts :=
  repeat match goal with
  | H : validate_persisted_attempt _ _ = Ok _ |- _ => apply persisted_attempt_Ok in H
  | H : validate_minimum_revision _ _ _ = Ok _ |- _ => apply minimum_revision_Ok in H
  | H : validate_persisted_execution_fence _ _ _ = Ok _ |- _ => apply persisted_fence_Ok in H
  | H : (negb (bool_decide (_ = _)) && _)%bool = false |- _ =>
      first [apply not_after_false in H | apply not_owner_after_false in H]
  | H : negb (Bool.eqb _ (bool_decide _)) = false |- _ => apply evidence_guard_false in H
  end; zify_bool; drop_wrap.

(** The recheck accepts exactly the records whose counters and fences satisfy the structural
    invariant; the [u64] arithmetic of its bounds never wraps on 32-bit counters. *)
Lemma recheck_iff r :
  counters_fit r ->
  validate_persisted_invariants r = Ok tt
  <-> state_invariant (command r) (revision r) (state r).
Proof.
  intros [Hrev Hfit]. unfold validate_persisted_invariants. destruct (state r) eqn:Hs; simpl in *;
    split; intros H.
  - inv_ok H. zify_bool. by rewrite E0.
  - destruct H as [-> ->]. done.
  - inv_ok H. recheck_facts. unfold in_uint in *. repeat split; try lia; done.
  - destruct H as (? & ? & Hf). rewrite (proj2 (persisted_attempt_Ok _ _ tt)) by lia. drop_wrap.
    rewrite (proj2 (minimum_revision_Ok _ _ _ tt)) by lia. by apply persisted_fence_Ok.
  - inv_ok H. recheck_facts. unfold in_uint in *. repeat split; try lia; done.
  - destruct H as (? & ? & Hf). rewrite (proj2 (persisted_attempt_Ok _ _ tt)) by lia. drop_wrap.
    rewrite (proj2 (minimum_revision_Ok _ _ _ tt)) by lia. by apply persisted_fence_Ok.
  - inv_ok H. recheck_facts. unfold in_uint in *. destruct Hfit. repeat split; try lia; tauto.
  - destruct H as (? & ? & ? & Hf & Ho & Hl). destruct Hfit.
    rewrite (proj2 (persisted_attempt_Ok _ _ tt)) by lia. drop_wrap.
    rewrite (proj2 (minimum_revision_Ok _ _ _ tt)) by lia.
    rewrite (proj2 (persisted_fence_Ok _ _ _ tt)) by done.
    rewrite (proj2 (not_owner_after_false _ _)) by done.
    by rewrite (proj2 (evidence_guard_false _ _)) by done.
  - unfold in_uint in *. destruct basis; inv_ok H; recheck_facts; repeat split; try done; lia.
  - destruct H as (? & Hf & Hb). destruct (Z.ltb_spec next_attempt 2); [lia|].
    destruct basis; destruct_and?; drop_wrap;
      rewrite (proj2 (minimum_revision_Ok _ _ _ tt)) by lia;
      rewrite (proj2 (not_after_false _ _)) by done; simplify_option_eq; try done.
    by match goal with H : failure_class _ = _ |- _ => rewrite H end.
  - destruct confirmation; inv_ok H; recheck_facts; done.
  - destruct H as [Hk Hc]. rewrite bool_decide_eq_true_2 by done.
    by destruct confirmation; rewrite (proj2 (minimum_revision_Ok _ _ _ tt)) by lia.
  - inv_ok H. recheck_facts. done.
  - destruct H as [Hk Hc]. rewrite bool_decide_eq_true_2 by done.
    by rewrite (proj2 (minimum_revision_Ok _ _ _ tt)) by lia.
  - by apply minimum_revision_Ok in H.
  - by apply minimum_revision_Ok.
Qed.

Lemma record_invariant_counters r : record_invariant r -> counters_fit r.
Proof.
  intros [? Hs]. split; [done|]. destruct (state r); simpl in *; unfold in_uint, u32_max in *;
    destruct_and?; try split; lia.
Qed.

Lemma admit_new_inv cmd ctx r :
  CommandReducer.admit_command None cmd ctx = Ok (AdmissionNew r) ->
  r = mk_CommandRecord cmd (StateAdmitted 1) 0.
Proof. unfold CommandReducer.admit_command. intros H. by inv_ok H. Qed.

Lemma admitted_record_invariant cmd : record_invariant (mk_CommandRecord cmd (StateAdmitted 1) 0).
Proof. split; simpl; [unfold u64_max; lia|done]. Qed.
End recheck.

(** A rule that applies fires. *)
Lemma run_step_move r e c s' :
  moves (command r) (state r) e s' -> context_allows r e c -> (revision r + 1 <= u64_max)%Z ->
  run_step r (e, c) = mk_CommandRecord (command r) s' (revision r + 1).
Proof.
  intros Hm Hc Hr. unfold run_step; simpl.
  rewrite (proj2 (reduce_spec r e c
                    (material_reduction r s' (event_effect e)))) by eauto 10.
  done.
Qed.

(** ** Who may still write *)

(** The newest writer generation recorded in a live state. *)
Definition authority_generation (r : CommandRecord) : Z :=
  match state r with
  | StateExecuting _ o | StateCommitPrepared _ o _ => fence_generation (fence o)
  | StateAwaitingReconciliation _ _ ro _ _ _ _ => fence_generation (fence ro)
  | StateRetryReady _ f _ => fence_generation f
  | _ => fence_generation (writer_fence (command r))
  end.

Lemma moves_authority cmd s e s' rev :
  moves cmd s e s' ->
  (authority_generation (mk_CommandRecord cmd s rev) <= fence_generation (fence (event_owner e)))%Z.
Proof.
  unfold authority_generation. destruct 1; simpl; try lia; eauto with command.
Qed.

(** ** Commits in flight *)

(** The transaction a state may have handed to the backend, with its executor. *)
Definition in_flight (s : DurableCommandState) : option (TransactionRef * ExecutionOwner) :=
  match s with
  | StateCommitPrepared _ o t => Some (t, o)
  | StateAwaitingReconciliation _ eo _ t _ _ _ => Some (t, eo)
  | _ => None
  end.

(** Events that prove transaction [t] of executor [o] did not commit: the executor's own typed
    pre-commit failure, or a reconciliation read of [t] that found no commit. *)
Definition proves_no_commit (t : TransactionRef) (o : ExecutionOwner) (e : CommandEvent) : bool :=
  match e with
  | EvReportKnownFailure o' f =>
      bool_decide (o' = o) && bool_decide (failure_class f = RetryableBeforeCommit)
  | EvObserveReconciliation _ t' (ObservedNotCommitted _) => bool_decide (t' = t)
  | _ => false
  end.

Lemma moves_in_flight cmd s e s' t o :
  moves cmd s e s' -> in_flight s = Some (t, o) -> proves_no_commit t o e = false ->
  in_flight s' = Some (t, o) \/ is_terminal s' = true.
Proof.
  destruct 1; simpl; intros; simplify_eq; auto;
    repeat (case_bool_decide; simplify_eq/=); congruence.
Qed.

Lemma moves_terminal_in_flight cmd s e s' : moves cmd s e s' -> is_terminal s = false.
Proof. by destruct 1. Qed.

(** ** Recovery *)

(** What a newer owner feeds the reducer to bring a live command to success: resume or retry the
    work, or first mark an interrupted commit and reconcile it. *)
Definition recovery_plan (r : CommandRecord) (o : ExecutionOwner) (t : TransactionRef)
    (u : UnknownCommit) (ev : ReconciliationEvidenceRef) (res : CommandResult) : history :=
  let c := mk_ReductionContext (expected_head (command r)) (fence o) in
  match recovery_obligation r with
  | None => []
  | Some ResumePrecommit | Some RetryProvedNotCommitted =>
      [(EvStart o, c); (EvPrepareCommit o t, c); (EvConfirmCommit o t res, c)]
  | Some (MarkInterruptedCommit t') =>
      [(EvReportUnknownCommit o t' u, c);
       (EvObserveReconciliation o t' (ObservedCommitted ev res), c)]
  | Some (ReconcileCommit t') =>
      [(EvObserveReconciliation o t' (ObservedCommitted ev res), c)]
  end.

Lemma run_start_prepare_confirm r a o t res :
  let c := mk_ReductionContext (expected_head (command r)) (fence o) in
  moves (command r) (state r) (EvStart o) (StateExecuting a o) ->
  result_kind res = command_kind (command r) -> (revision r + 3 <= u64_max)%Z ->
  state (run r [(EvStart o, c); (EvPrepareCommit o t, c); (EvConfirmCommit o t res, c)])
  = StateSucceeded t res DirectConfirmation.
Proof.
  intros c Hm Hk Hr. unfold run; simpl.
  rewrite (run_step_move r _ c _ Hm) by (by split || lia).
  rewrite (run_step_move _ (EvPrepareCommit o t) c (StateCommitPrepared a o t));
    [|constructor|by split|simpl; lia].
  erewrite run_step_move; [|by constructor|by split|simpl; lia]. done.
Qed.

(** ** Properties *)

(** [C1] Every record that admission and any sequence of events can produce passes the recheck that
    is run when the record is read back from the journal, and its counters fit their machine
    types: a genuine record is never rejected as corrupt. *)
Theorem recheck_accepts_every_reachable_record cmd ctx r h :
  CommandReducer.admit_command None cmd ctx = Ok (AdmissionNew r) ->
  validate_persisted_invariants (run r h) = Ok tt /\ counters_fit (run r h).
Proof.
  intros ->%admit_new_inv.
  pose proof (record_invariant_run _ h (admitted_record_invariant cmd)) as Hinv.
  pose proof (record_invariant_counters _ Hinv) as Hfit.
  split; [|done]. apply recheck_iff; [done|]. apply Hinv.
Qed.

(** [C2] The reducer implements exactly the transition relation: an event is accepted if and only
    if a rule of [moves] applies under the re-read head and fence and the revision counter has
    room, and the answer is then that rule's successor with revision plus one and its transition
    witness; or the event is an exact replay, and the record comes back unchanged with no
    witness. Everything else is an error. *)
Theorem reduce_refines_transition_relation r e c red :
  CommandReducer.reduce r e c = Ok red
  <-> (exists s', moves (command r) (state r) e s' /\ context_allows r e c
                  /\ (revision r + 1 <= u64_max)%Z
                  /\ red = material_reduction r s' (event_effect e))
      \/ (replays (command r) (state r) e
          /\ (is_terminal (state r) = true \/ context_allows r e c)
          /\ red = CommandReducer.idempotent r).
Proof. apply reduce_spec. Qed.

(** A terminal answer is immutable: no sequence of events changes a succeeded, failed or
    cancelled record, and each event is either its exact replay or an error. *)
Theorem terminal_record_never_changes r h :
  is_terminal (state r) = true ->
  run r h = r
  /\ forall e c, CommandReducer.reduce r e c = Ok (CommandReducer.idempotent r)
                 \/ CommandReducer.reduce r e c = Err TerminalConflict
                 \/ exists k1 k2, CommandReducer.reduce r e c = Err (ResultKindMismatch k1 k2).
Proof.
  intros Ht. split; [by apply run_terminal|].
  - intros e c. unfold CommandReducer.reduce.
    destruct (CommandReducer.validate_result_kind (command r) e) as [[]|err] eqn:Hk; cycle 1.
    { right. right. unfold CommandReducer.validate_result_kind in Hk. inv_ok Hk; eauto. }
    destruct (CommandReducer.terminal_replay r e) as [[red|]|err] eqn:Hr.
    + apply (terminal_replay_Some (command r)) in Hr as (_ & _ & ->); auto.
    + apply terminal_replay_None in Hr. congruence.
    + right. left. unfold CommandReducer.terminal_replay in Hr. inv_ok Hr; done.
Qed.

(** No blind retry: once a commit was handed to the backend, the command leaves that
    transaction for further work only through an event that proves the transaction did not commit,
    that is the executor's own pre-commit failure or a reconciliation read that found no commit.
    Timeouts, lost acknowledgements, new writers and indeterminate probes never suffice. *)
Theorem no_retry_without_proof_of_no_commit r h t o :
  in_flight (state r) = Some (t, o) ->
  in_flight (state (run r h)) <> Some (t, o) ->
  is_terminal (state (run r h)) = false ->
  exists e c, In (e, c) h /\ proves_no_commit t o e = true.
Proof.
  unfold run. revert r. induction h as [|[e c] h IH]; intros r Hf Hn Ht; [done|].
  destruct (proves_no_commit t o e) eqn:Hp; [exists e, c; split; [by left|done]|].
  assert (exists e' c', In (e', c') h /\ proves_no_commit t o e' = true) as (e' & c' & ? & ?);
    [|exists e', c'; split; [by right|done]].
  simpl in Hn, Ht.
  destruct (run_step_cases r (e, c)) as [Heq|(s' & Hm & _ & _ & Heq)]; rewrite Heq in *;
    [by eapply IH|].
  destruct (moves_in_flight _ _ _ _ _ _ Hm Hf Hp) as [?|Hs'];
    [by apply (IH (mk_CommandRecord (command r) s' (revision r + 1)))|].
  exfalso. change (foldl run_step ?x h) with (run x h) in Ht.
  rewrite run_terminal in Ht by done. simpl in Ht. congruence.
Qed.

(** Fencing: an event presented by a writer generation older than the newest one recorded in
    the command never changes the record, in any sequence of such events; and along every history
    the recorded generation of a live command never goes back. *)
Theorem stale_writers_cannot_change_a_command r h :
  (Forall (fun ec => (fence_generation (fence (event_owner ec.1)) < authority_generation r)%Z) h ->
   run r h = r)
  /\ (is_terminal (state (run r h)) = false ->
      (authority_generation r <= authority_generation (run r h))%Z).
Proof.
  split.
  - unfold run. induction 1 as [|ec h Hlt Hall IH]; simpl; [done|].
    destruct (run_step_cases r ec) as [->|(s' & Hm & _)]; [done|].
    apply (moves_authority _ _ _ _ (revision r)) in Hm. destruct r; simpl in *.
    unfold authority_generation in *. simpl in *. lia.
  - unfold run. revert r. induction h as [|[e c] h IH]; intros r Ht; simpl; [lia|]. simpl in Ht.
    destruct (run_step_cases r (e, c)) as [Heq|(s' & Hm & _ & _ & Heq)]; [rewrite Heq in *; auto|].
    etrans; [|by apply IH]. rewrite Heq in *.
    destruct (is_terminal s') eqn:Hs'.
    { change (foldl run_step ?x h) with (run x h) in Ht. rewrite run_terminal in Ht by done.
      simpl in Ht. congruence. }
    clear IH Ht Heq. pose proof (moves_authority _ _ _ _ (revision r) Hm) as Ha. destruct r.
    simpl in *. unfold authority_generation in *.
    inversion Hm; subst; simpl in *; try lia; done.
Qed.

(** [C6] Admission: with no record under either lookup key a command is admitted exactly when the
    workspace, the authorization reference, the current head and the active fence all match it,
    and the new record is the first attempt at revision zero; with an existing record the only
    success is the exact same command, which returns that record unchanged. *)
Theorem admission_is_exact existing cmd ctx o :
  CommandReducer.admit_command existing cmd ctx = Ok o
  <-> match existing with
      | Some r => command r = cmd /\ o = AdmissionExisting r
      | None =>
          admission_workspace_id ctx = owner_workspace_id (ownership cmd)
          /\ admission_authorization ctx = Authorized (owner_authorization (ownership cmd))
          /\ admission_current_head ctx = expected_head cmd
          /\ admission_active_fence ctx = writer_fence cmd
          /\ o = AdmissionNew (mk_CommandRecord cmd (StateAdmitted 1) 0)
      end.
Proof.
  unfold CommandReducer.admit_command. destruct existing as [r|]; split; intros H.
  - inv_ok H; by zify_bool.
  - destruct H as [Hc ->]. by rewrite bool_decide_eq_true_2.
  - inv_ok H; zify_bool; subst; repeat split; congruence.
  - destruct H as (H1 & -> & H3 & H4 & ->). by rewrite !bool_decide_eq_true_2.
Qed.

(** Recovery is always possible: in every live record a newer writer discharges the one
    restart obligation, and its plan of at most three events ends in success with the given
    result, as long as the revision counter has room. *)
Theorem recovery_plan_succeeds r o t u ev res :
  is_terminal (state r) = false ->
  (authority_generation r < fence_generation (fence o))%Z ->
  result_kind res = command_kind (command r) ->
  (revision r + 3 <= u64_max)%Z ->
  exists t' cf, state (run r (recovery_plan r o t u ev res)) = StateSucceeded t' res cf
                /\ (forall t0 o0, in_flight (state r) = Some (t0, o0) -> t' = t0).
Proof.
  intros Ht Ha Hk Hr. unfold recovery_plan, recovery_obligation, authority_generation in *.
  destruct (state r) as [a|a cur|a cur tx|a eo ro tx un n l|n f b| | |] eqn:Hs; try done; simpl.
  - erewrite run_start_prepare_confirm by (rewrite ?Hs; try constructor; try lia; try done; by right).
    naive_solver.
  - erewrite run_start_prepare_confirm by (rewrite ?Hs; try constructor; try lia; done).
    naive_solver.
  - unfold run; simpl.
    rewrite (run_step_move r _ _ (StateAwaitingReconciliation a cur o tx u 0 None));
      [|rewrite Hs; constructor; by right|by split|lia].
    erewrite run_step_move; [|simpl; apply mv_observe_committed; [by left|done]|by split|simpl; lia].
    simpl. naive_solver.
  - unfold run; simpl.
    erewrite run_step_move; [|rewrite Hs; apply mv_observe_committed; [by right|done]|by split|lia].
    simpl. naive_solver.
  - erewrite run_start_prepare_confirm by (rewrite ?Hs; try constructor; try lia; try done; by right).
    naive_solver.
Qed.
