(* ===== verification/CommandWitness.v ===== *)
(** Concrete commands and histories: every guarantee of the command component with hypotheses
    is instantiated here at a record that an admitted command really reaches. *)

From S2P Require Import Prelude.
From S2P Require Import CommandModel.
From S2P Require Import CommandTheory.

Module CommandSample.
Definition ident (t : identity_tag) (b : byte) : byte_identity t :=
  from_bytes (repeat_byte (identity_width t) b).
Definition fence_of (b : byte) (g : Z) : WriterFence :=
  mk_WriterFence (ident TLeaseId b) (mk_WriterGeneration g).
Definition owner_of (b : byte) (g : Z) : ExecutionOwner :=
  mk_ExecutionOwner (ident TActorId b) (fence_of b g).
Definition cmd : FabricCommand :=
  mk_FabricCommand
    (mk_CommandIdentity (ident _ x01) (ident _ x02))
    (mk_CommandOwnership (ident _ x03) (ident _ x04) (ident _ x05))
    EmptyHead (fence_of x06 1)
    (mk_CommandPins (ident _ x07) (ident _ x08) (ident _ x09) (ident _ x0a)
       (SourceGeneration_new 0) (ident _ x0b) (ident _ x0c))
    (ident _ x0d) (ActivateEpoch (ident _ x0e) (ident _ x0f)).
Definition ctx : AdmissionContext :=
  mk_AdmissionContext (ident _ x03) EmptyHead (fence_of x06 1) (Authorized (ident _ x05)).
Definition admitted : CommandRecord := mk_CommandRecord cmd (StateAdmitted 1) 0.
Definition txn : TransactionRef := ident _ x20.
Definition unknown : UnknownCommit := mk_UnknownCommit UnknownTimeout (ident _ x21).
Definition evidence : ReconciliationEvidenceRef := ident _ x22.
Definition res : CommandResult := EpochActivated (ident _ x0e) (ident _ x23).
Definition at_fence (g : Z) : ReductionContext := mk_ReductionContext EmptyHead (fence_of x06 g).
Definition o1 : ExecutionOwner := owner_of x06 1.
Definition o2 : ExecutionOwner := owner_of x06 2.

(** Start, prepare, lose the acknowledgement, restart as a newer writer, probe twice. *)
Definition lost_ack : history :=
  [(EvStart o1, at_fence 1); (EvPrepareCommit o1 txn, at_fence 1);
   (EvReportUnknownCommit o2 txn unknown, at_fence 2);
   (EvObserveReconciliation o2 txn (ObservedIndeterminate evidence), at_fence 2)].
Definition not_committed : CommandEvent :=
  EvObserveReconciliation o2 txn (ObservedNotCommitted evidence).
End CommandSample.


(** The in-flight record [CommandSample.lost_ack] reaches. *)
Definition lost_ack_record : CommandRecord := run CommandSample.admitted CommandSample.lost_ack.

Lemma recheck_accepts_every_reachable_record_witness :
  validate_persisted_invariants lost_ack_record = Ok tt /\ counters_fit lost_ack_record.
Proof.
  assert (H : CommandReducer.admit_command None CommandSample.cmd CommandSample.ctx
              = Ok (AdmissionNew CommandSample.admitted)) by (vm_compute; reflexivity).
  exact (recheck_accepts_every_reachable_record CommandSample.cmd CommandSample.ctx
           CommandSample.admitted CommandSample.lost_ack H).
Defined.

(** The same command after a direct confirmation. *)
Definition succeeded_record : CommandRecord :=
  mk_CommandRecord CommandSample.cmd
    (StateSucceeded CommandSample.txn CommandSample.res DirectConfirmation) 3.

Lemma terminal_record_never_changes_witness :
  run succeeded_record CommandSample.lost_ack = succeeded_record.
Proof.
  assert (H : is_terminal (state succeeded_record) = true) by (vm_compute; reflexivity).
  exact (proj1 (terminal_record_never_changes succeeded_record CommandSample.lost_ack H)).
Defined.

Lemma no_retry_without_proof_of_no_commit_witness :
  exists e c, In (e, c) [(CommandSample.not_committed, CommandSample.at_fence 2)]
              /\ proves_no_commit CommandSample.txn CommandSample.o1 e = true.
Proof.
  assert (H1 : in_flight (state lost_ack_record) = Some (CommandSample.txn, CommandSample.o1))
    by (vm_compute; reflexivity).
  assert (H2 : in_flight (state (run lost_ack_record
                 [(CommandSample.not_committed, CommandSample.at_fence 2)]))
               <> Some (CommandSample.txn, CommandSample.o1)) by (vm_compute; discriminate).
  assert (H3 : is_terminal (state (run lost_ack_record
                 [(CommandSample.not_committed, CommandSample.at_fence 2)])) = false)
    by (vm_compute; reflexivity).
  exact (no_retry_without_proof_of_no_commit lost_ack_record _ _ _ H1 H2 H3).
Defined.

Lemma stale_writers_cannot_change_a_command_witness :
  run lost_ack_record
    [(EvPrepareCommit CommandSample.o1 CommandSample.txn, CommandSample.at_fence 1)]
  = lost_ack_record.
Proof.
  refine (proj1 (stale_writers_cannot_change_a_command lost_ack_record _) _).
  constructor; [vm_compute; reflexivity|constructor].
Defined.

Lemma recovery_plan_succeeds_witness :
  exists t' cf,
    state (run lost_ack_record
             (recovery_plan lost_ack_record (CommandSample.owner_of x06 3) CommandSample.txn
                CommandSample.unknown CommandSample.evidence CommandSample.res))
    = StateSucceeded t' CommandSample.res cf
    /\ (forall t0 o0, in_flight (state lost_ack_record) = Some (t0, o0) -> t' = t0).
Proof.
  assert (H1 : is_terminal (state lost_ack_record) = false) by (vm_compute; reflexivity).
  assert (H2 : (authority_generation lost_ack_record
                < fence_generation (fence (CommandSample.owner_of x06 3)))%Z)
    by (vm_compute; reflexivity).
  assert (H3 : result_kind CommandSample.res = command_kind (command lost_ack_record))
    by (vm_compute; reflexivity).
  assert (H4 : (revision lost_ack_record + 3 <= u64_max)%Z) by (vm_compute; discriminate).
  exact (recovery_plan_succeeds lost_ack_record _ _ _ _ _ H1 H2 H3 H4).
Defined.
