(* ===== verification/BudgetModel.v ===== *)
(** The hierarchical resource budget of src/src/resource_budget.rs: amounts and policies, the
    shared ledger behind one process root, scopes, reservations, native memory accounts and
    charged slices.

    A [ResourceBudget] is an [Arc<Scope>]; its clones share one scope. It is modelled as the
    address of that scope: the identity of the root's ledger and the scope's token, which the
    ledger never hands out twice. The scopes themselves live in the store [scopes] of a [Heap],
    next to the ledger their mutex protects. Every body runs under that one mutex, so an
    operation is one step on the heap. Counters are [u128] values that wrap, as in a release
    build; the theory shows that they never do. *)

From S2P Require Import Prelude.
Local Open Scope Z_scope.

(** ** Amounts, usage and policies *)

Definition DIMENSIONS : nat := 8.
Abbreviation array := (vec Z DIMENSIONS).
(** [0..DIMENSIONS]. *)
Definition indices : list (fin DIMENSIONS) :=
  [0%fin; 1%fin; 2%fin; 3%fin; 4%fin; 5%fin; 6%fin; 7%fin].

Record ResourceAmounts := mk_ResourceAmounts {
  memory_bytes : Z;
  disk_bytes : Z;
  running_jobs : Z;
  queued_jobs : Z;
  retained_generations : Z;
  retained_bytes : Z;
  rows : Z;
  pages : Z
}.

Definition amounts_default : ResourceAmounts := mk_ResourceAmounts 0 0 0 0 0 0 0 0.
Definition memory_only (bytes : Z) : ResourceAmounts := mk_ResourceAmounts bytes 0 0 0 0 0 0 0.

Definition values (a : ResourceAmounts) : array :=
  [# memory_bytes a; disk_bytes a; running_jobs a; queued_jobs a;
     retained_generations a; retained_bytes a; rows a; pages a].

Definition from_values (v : array) : ResourceAmounts :=
  mk_ResourceAmounts (v !!! 0%fin) (v !!! 1%fin) (v !!! 2%fin) (v !!! 3%fin)
    (v !!! 4%fin) (v !!! 5%fin) (v !!! 6%fin) (v !!! 7%fin).

Definition intersection (self ceiling : ResourceAmounts) : ResourceAmounts :=
  let left := values self in
  let right := values ceiling in
  from_values (fun_to_vec (fun i => Z.min (left !!! i) (right !!! i))).

Record ResourceUsage := mk_ResourceUsage {
  usage_memory_bytes : Z;
  usage_disk_bytes : Z;
  usage_running_jobs : Z;
  usage_queued_jobs : Z;
  usage_retained_generations : Z;
  usage_retained_bytes : Z;
  usage_rows : Z;
  usage_pages : Z
}.

Definition usage_from_values (v : array) : ResourceUsage :=
  mk_ResourceUsage (v !!! 0%fin) (v !!! 1%fin) (v !!! 2%fin) (v !!! 3%fin)
    (v !!! 4%fin) (v !!! 5%fin) (v !!! 6%fin) (v !!! 7%fin).

Inductive ResourceDimension :=
| MemoryBytes | DiskBytes | RunningJobs | QueuedJobs
| RetainedGenerations | RetainedBytes | Rows | Pages.

Definition ALL_DIMENSIONS : vec ResourceDimension DIMENSIONS :=
  [# MemoryBytes; DiskBytes; RunningJobs; QueuedJobs;
     RetainedGenerations; RetainedBytes; Rows; Pages].

Record ResourceBudgetPolicy := mk_ResourceBudgetPolicy {
  limits : ResourceAmounts;
  control_reserve : ResourceAmounts
}.

Inductive ResourceScopeKind := Process | Workspace | Operation.

Record ResourceOwner := mk_ResourceOwner {
  owner_kind : ResourceScopeKind;
  owner_id : byte_array 16
}.

Inductive ResourceClass := Data | Control.

Inductive ResourceBudgetError :=
| InvalidIdentity
| InvalidPolicy (dimension : ResourceDimension)
| InvalidHierarchy
| DuplicateOwner
| ForeignOwner
| ScopeCapacity
| Overflow
| Exhausted (owner : ResourceOwner) (dimension : ResourceDimension) (requested limit : Z)
| InvalidShrink
| UnchargedAllocation (required reserved : Z)
| InvalidSlice
| NonMemoryReservation.

#[export] Instance ResourceAmounts_eq_dec : EqDecision ResourceAmounts.
Proof. solve_decision. Defined.
#[export] Instance ResourceDimension_eq_dec : EqDecision ResourceDimension.
Proof. solve_decision. Defined.
#[export] Instance ResourceBudgetPolicy_eq_dec : EqDecision ResourceBudgetPolicy.
Proof. solve_decision. Defined.
#[export] Instance ResourceScopeKind_eq_dec : EqDecision ResourceScopeKind.
Proof. solve_decision. Defined.
#[export] Instance ResourceOwner_eq_dec : EqDecision ResourceOwner.
Proof. solve_decision. Defined.
#[export] Instance ResourceClass_eq_dec : EqDecision ResourceClass.
Proof. solve_decision. Defined.
#[export] Instance ResourceBudgetError_eq_dec : EqDecision ResourceBudgetError.
Proof. solve_decision. Defined.

Definition scope_kind_code (k : ResourceScopeKind) : nat :=
  match k with Process => 0 | Workspace => 1 | Operation => 2 end.
Definition scope_kind_decode (n : nat) : ResourceScopeKind :=
  match n with 0%nat => Process | 1%nat => Workspace | _ => Operation end.

#[export] Instance ResourceOwner_countable : Countable ResourceOwner.
Proof.
  refine (inj_countable' (fun o => (scope_kind_code (owner_kind o), owner_id o))
            (fun p => mk_ResourceOwner (scope_kind_decode p.1) p.2) _).
  by intros [[] id].
Defined.

(** [ResourceBudgetPolicy::validate]: the loop over the dimensions, in order. *)
Fixpoint validate_dimensions (limit reserve : array) (ixs : list (fin DIMENSIONS))
  : result unit ResourceBudgetError :=
  match ixs with
  | [] => Ok tt
  | i :: ixs =>
      if ((limit !!! i =? 0) || (limit !!! i <=? reserve !!! i))%bool
      then Err (InvalidPolicy (ALL_DIMENSIONS !!! i))
      else validate_dimensions limit reserve ixs
  end.

Definition policy_validate (p : ResourceBudgetPolicy)
  : result ResourceBudgetPolicy ResourceBudgetError :=
  let? _ := validate_dimensions (values (limits p)) (values (control_reserve p)) indices in
  Ok p.

Definition intersect_ceiling (p : ResourceBudgetPolicy) (ceiling : ResourceAmounts)
  : result ResourceBudgetPolicy ResourceBudgetError :=
  policy_validate (mk_ResourceBudgetPolicy (intersection (limits p) ceiling) (control_reserve p)).

Definition child_scope_capacity (p : ResourceBudgetPolicy) : Z :=
  wrap128 (running_jobs (limits p) + queued_jobs (limits p)
           + retained_generations (limits p) + pages (limits p)).

(** ** The ledger and the scopes *)

Record NodeState := mk_NodeState {
  node_owner : ResourceOwner;
  node_parent : option Z;
  node_policy : ResourceBudgetPolicy;
  node_used : array;
  node_data_used : array;
  node_peak : array
}.

Record Ledger := mk_Ledger {
  next : Z;
  nodes : gmap Z NodeState;
  children : gmap (Z * ResourceOwner) Z;
  child_counts : gmap Z Z
}.

(** [Arc<Scope>]: which root's ledger, and which scope of it. *)
Record ResourceBudget := mk_ResourceBudget {
  budget_root : Z;
  scope_token : Z
}.

Record ResourceReservation := mk_ResourceReservation {
  reservation_owner : ResourceBudget;
  reservation_class : ResourceClass;
  reservation_amounts : ResourceAmounts
}.

Record Scope := mk_Scope {
  scope_owner : ResourceOwner;
  scope_policy : ResourceBudgetPolicy;
  scope_parent : option ResourceBudget;
  scope_bookkeeping : option ResourceReservation
}.

(** One root: the identity of its [Arc<Mutex<Ledger>>], the ledger, and the live scopes. *)
Record Heap := mk_Heap {
  heap_root : Z;
  ledger : Ledger;
  scopes : gmap Z Scope
}.

#[export] Instance ResourceBudget_eq_dec : EqDecision ResourceBudget.
Proof. solve_decision. Defined.
#[export] Instance ResourceReservation_eq_dec : EqDecision ResourceReservation.
Proof. solve_decision. Defined.

(** How a body ends without a value: the error it returns; a panic ([expect], indexing a missing
    key); a reference that points to no live scope; a lineage walk that does not end. Only the
    first one ever happens to a live program. *)
Inductive Fault :=
| Rejected (e : ResourceBudgetError)
| Panicked
| Dangling
| Diverged.

#[export] Instance Fault_eq_dec : EqDecision Fault.
Proof. solve_decision. Defined.

Definition rejecting {A} (r : result A ResourceBudgetError) : result A Fault :=
  match r with Ok a => Ok a | Err e => Err (Rejected e) end.

Abbreviation heap_op := (stm Heap Fault).

Definition set_ledger (h : Heap) (l : Ledger) : Heap := mk_Heap (heap_root h) l (scopes h).
Definition set_nodes (l : Ledger) (n : gmap Z NodeState) : Ledger :=
  mk_Ledger (next l) n (children l) (child_counts l).

(** The scope an [Arc<Scope>] points to. *)
Definition deref (self : ResourceBudget) : heap_op Scope :=
  fun h => (h, if budget_root self =? heap_root h
               then ok_or (scopes h !! scope_token self) Dangling else Err Dangling).

Definition new_node (owner : ResourceOwner) (parent : option Z) (policy : ResourceBudgetPolicy)
  : NodeState :=
  mk_NodeState owner parent policy
    (vreplicate DIMENSIONS 0) (vreplicate DIMENSIONS 0) (vreplicate DIMENSIONS 0).

Definition try_process (root : Z) (id : byte_array 16) (policy : ResourceBudgetPolicy)
  : result (Heap * ResourceBudget) ResourceBudgetError :=
  let? policy := policy_validate policy in
  if bool_decide (id = zero_bytes 16) then Err InvalidIdentity else
  let owner := mk_ResourceOwner Process id in
  Ok (mk_Heap root
        (mk_Ledger 1 {[ 0 := new_node owner None policy ]} ∅ ∅)
        {[ 0 := mk_Scope owner policy None None ]},
      mk_ResourceBudget root 0).

Definition child (self : ResourceBudget) (required kind : ResourceScopeKind)
    (id : byte_array 16) (policy : ResourceBudgetPolicy) : heap_op ResourceBudget :=
  do! policy <- st_lift (rejecting (policy_validate policy)) ;
  do! scope <- deref self ;
  do! _ <- st_lift (ensure (bool_decide (owner_kind (scope_owner scope) = required))
                      (Rejected InvalidHierarchy)) ;
  do! _ <- st_lift (ensure (negb (bool_decide (id = zero_bytes 16))) (Rejected InvalidIdentity)) ;
  do! _ <- st_lift (ensure (bool_decide (intersection (limits policy) (limits (scope_policy scope))
                                         = limits policy)) (Rejected InvalidHierarchy)) ;
  let owner := mk_ResourceOwner kind id in
  do! h <- st_get ;
  let l := ledger h in
  do! _ <- st_lift (ensure (bool_decide (children l !! (scope_token self, owner) = None))
                      (Rejected DuplicateOwner)) ;
  let max_scopes := child_scope_capacity (scope_policy scope) in
  let count := default 0 (child_counts l !! scope_token self) in
  do! _ <- st_lift (ensure (negb (max_scopes <=? count)) (Rejected ScopeCapacity)) ;
  let token := next l in
  do! next' <- st_lift (ok_or (checked_add u64_max token 1) (Rejected Overflow)) ;
  do! _ <- st_put (mk_Heap (heap_root h)
      (mk_Ledger next'
         (<[token := new_node owner (Some (scope_token self)) policy]> (nodes l))
         (<[(scope_token self, owner) := token]> (children l))
         (<[scope_token self := wrap64 (default 0 (child_counts l !! scope_token self) + 1)]>
            (child_counts l)))
      (<[token := mk_Scope owner policy (Some self) None]> (scopes h))) ;
  st_ret (mk_ResourceBudget (budget_root self) token).

Definition workspace (self : ResourceBudget) (id : byte_array 16) (policy : ResourceBudgetPolicy)
  : heap_op ResourceBudget := child self Process Workspace id policy.

Definition operation (self : ResourceBudget) (id : byte_array 16) (policy : ResourceBudgetPolicy)
  : heap_op ResourceBudget := child self Workspace Operation id policy.

(** [Drop for Scope]. *)
Definition scope_drop (token : Z) (owner : ResourceOwner) (l : Ledger) : Ledger :=
  match nodes l !! token with
  | None => l
  | Some node =>
      let nodes' := delete token (nodes l) in
      match node_parent node with
      | None => mk_Ledger (next l) nodes' (children l) (child_counts l)
      | Some parent =>
          mk_Ledger (next l) nodes' (delete (parent, owner) (children l))
            (match child_counts l !! parent with
             | None => child_counts l
             | Some count =>
                 let count := wrap64 (count - 1) in
                 if count =? 0 then delete parent (child_counts l)
                 else <[parent := count]> (child_counts l)
             end)
      end
  end.

(** ** Walking a lineage

    [while let Some(token) = cursor { let node = &ledger.nodes[&token]; ...; cursor = node.parent }].
    A parent's token is smaller than its children's, so [lineage_fuel] iterations are enough. *)

Definition lineage_fuel (token : Z) : nat := S (Z.to_nat token).

Fixpoint for_lineage (body : Z -> NodeState -> stm Ledger Fault unit) (fuel : nat)
    (cursor : option Z) : stm Ledger Fault unit :=
  match cursor with
  | None => st_ret tt
  | Some token =>
      match fuel with
      | O => st_err Diverged
      | S fuel =>
          do! l <- st_get ;
          match nodes l !! token with
          | None => st_err Panicked
          | Some node =>
              do! _ <- body token node ;
              for_lineage body fuel (node_parent node)
          end
      end
  end.

Definition walk (self : ResourceBudget) (body : Z -> NodeState -> stm Ledger Fault unit)
  : heap_op unit :=
  fun h =>
    let '(l, r) := for_lineage body (lineage_fuel (scope_token self)) (Some (scope_token self))
                     (ledger h) in
    (set_ledger h l, r).

(** [ancestor_owner]: the nearest owner of a kind in the live lineage. *)
Fixpoint ancestor_owner_loop (fuel : nat) (l : Ledger) (kind : ResourceScopeKind)
    (cursor : option Z) : result (option ResourceOwner) Fault :=
  match cursor with
  | None => Ok None
  | Some token =>
      match fuel with
      | O => Err Diverged
      | S fuel =>
          match nodes l !! token with
          | None => Err Panicked
          | Some node =>
              if bool_decide (owner_kind (node_owner node) = kind)
              then Ok (Some (node_owner node))
              else ancestor_owner_loop fuel l kind (node_parent node)
          end
      end
  end.

Definition ancestor_owner (self : ResourceBudget) (kind : ResourceScopeKind)
  : heap_op (option ResourceOwner) :=
  do! _ <- deref self ;
  do! h <- st_get ;
  st_lift (ancestor_owner_loop (lineage_fuel (scope_token self)) (ledger h) kind
             (Some (scope_token self))).

Definition same_root (self other : ResourceBudget) : bool :=
  budget_root self =? budget_root other.
Definition same_scope (self other : ResourceBudget) : bool := bool_decide (self = other).

Fixpoint is_descendant_loop (fuel : nat) (l : Ledger) (other : Z) (cursor : option Z)
  : result bool Fault :=
  match cursor with
  | None => Ok false
  | Some token =>
      match fuel with
      | O => Err Diverged
      | S fuel =>
          if token =? other then Ok true
          else is_descendant_loop fuel l other (nodes l !! token ≫= node_parent)
      end
  end.

Definition is_descendant_of (self other : ResourceBudget) : heap_op bool :=
  if negb (same_root self other) then st_ret false else
  do! h <- st_get ;
  st_lift (is_descendant_loop (lineage_fuel (scope_token self)) (ledger h)
             (scope_token other) (Some (scope_token self))).

Definition validate_reservation (self : ResourceBudget) (reservation : ResourceReservation)
  : heap_op unit :=
  do! descendant <- is_descendant_of (reservation_owner reservation) self ;
  st_lift (ensure descendant (Rejected ForeignOwner)).

(** ** Admission *)

(** The checks of one node, dimension by dimension. *)
Fixpoint check_dimensions (node : NodeState) (class : ResourceClass) (amounts : array)
    (checked : bool) (ixs : list (fin DIMENSIONS)) : result unit ResourceBudgetError :=
  match ixs with
  | [] => Ok tt
  | i :: ixs =>
      let amount := amounts !!! i in
      let? total := ok_or (checked_add u128_max (node_used node !!! i) amount) Overflow in
      let? _ :=
        if checked then
          let limit := values (limits (node_policy node)) !!! i in
          if limit <? total
          then Err (Exhausted (node_owner node) (ALL_DIMENSIONS !!! i) total limit)
          else if bool_decide (class = Data) then
            let limit := wrap64 (limit - values (control_reserve (node_policy node)) !!! i) in
            let requested := wrap128 (node_data_used node !!! i + amount) in
            if limit <? requested
            then Err (Exhausted (node_owner node) (ALL_DIMENSIONS !!! i) requested limit)
            else Ok tt
          else Ok tt
        else Ok tt
      in
      check_dimensions node class amounts checked ixs
  end.

(** [used[i] += amount; peak[i] = max(peak[i], used[i]); if data { data_used[i] += amount }]. *)
Definition charge_node (class : ResourceClass) (amounts : array) (node : NodeState) : NodeState :=
  let used := fun_to_vec (fun i => wrap128 (node_used node !!! i + amounts !!! i)) in
  mk_NodeState (node_owner node) (node_parent node) (node_policy node) used
    (if bool_decide (class = Data)
     then fun_to_vec (fun i => wrap128 (node_data_used node !!! i + amounts !!! i))
     else node_data_used node)
    (fun_to_vec (fun i => Z.max (node_peak node !!! i) (used !!! i))).

Definition discharge_node (class : ResourceClass) (amounts : array) (node : NodeState) : NodeState :=
  mk_NodeState (node_owner node) (node_parent node) (node_policy node)
    (fun_to_vec (fun i => wrap128 (node_used node !!! i - amounts !!! i)))
    (if bool_decide (class = Data)
     then fun_to_vec (fun i => wrap128 (node_data_used node !!! i - amounts !!! i))
     else node_data_used node)
    (node_peak node).

(** [let node = nodes.get_mut(&token)] followed by an update of it. *)
Definition update_node (f : NodeState -> NodeState) (token : Z) (node : NodeState)
  : stm Ledger Fault unit :=
  st_modify (fun l => set_nodes l (<[token := f node]> (nodes l))).

Definition add (self : ResourceBudget) (class : ResourceClass) (amounts : array) (checked : bool)
  : heap_op unit :=
  do! _ <- walk self (fun _ node =>
             st_lift (rejecting (check_dimensions node class amounts checked indices))) ;
  walk self (update_node (charge_node class amounts)).

Definition subtract (self : ResourceBudget) (class : ResourceClass) (amounts : array)
  : heap_op unit :=
  walk self (update_node (discharge_node class amounts)).

Definition try_reserve (self : ResourceBudget) (class : ResourceClass) (amounts : ResourceAmounts)
  : heap_op ResourceReservation :=
  do! _ <- add self class (values amounts) true ;
  st_ret (mk_ResourceReservation self class amounts).

Record ResourceObservation := mk_ResourceObservation {
  obs_owner : ResourceOwner;
  obs_policy : ResourceBudgetPolicy;
  obs_used : ResourceUsage;
  obs_data_used : ResourceUsage;
  obs_peak : ResourceUsage;
  obs_exceeded : ResourceUsage
}.

Definition observation (self : ResourceBudget) : heap_op ResourceObservation :=
  do! h <- st_get ;
  match nodes (ledger h) !! scope_token self with
  | None => st_err Panicked
  | Some node =>
      st_ret (mk_ResourceObservation (node_owner node) (node_policy node)
                (usage_from_values (node_used node))
                (usage_from_values (node_data_used node))
                (usage_from_values (node_peak node))
                (usage_from_values (fun_to_vec (fun i =>
                   saturating_sub (node_used node !!! i)
                     (values (limits (node_policy node)) !!! i)))))
  end.

(** The walk to the root over the scopes' own parent references. *)
Fixpoint process_root (fuel : nat) (self : ResourceBudget) : heap_op ResourceBudget :=
  match fuel with
  | O => st_err Diverged
  | S fuel =>
      do! scope <- deref self ;
      match scope_parent scope with
      | None => st_ret self
      | Some parent => process_root fuel parent
      end
  end.

Definition process_observation (self : ResourceBudget) : heap_op ResourceObservation :=
  do! root <- process_root (lineage_fuel (scope_token self)) self ;
  observation root.

(** ** Reservations *)

(** [for i in 0..DIMENSIONS { out[i] = f(i)?; }]. *)
Fixpoint collect (f : fin DIMENSIONS -> result Z ResourceBudgetError)
    (ixs : list (fin DIMENSIONS)) (out : array) : result array ResourceBudgetError :=
  match ixs with
  | [] => Ok out
  | i :: ixs => let? x := f i in collect f ixs (vinsert i x out)
  end.

Definition set_amounts (r : ResourceReservation) (a : ResourceAmounts) : ResourceReservation :=
  mk_ResourceReservation (reservation_owner r) (reservation_class r) a.

(** [try_grow(&mut self)]: the reservation it leaves behind; on an error, the one it was given. *)
Definition try_grow (r : ResourceReservation) (additional : ResourceAmounts)
  : heap_op ResourceReservation :=
  let current := values (reservation_amounts r) in
  let extra := values additional in
  do! total <- st_lift (rejecting (collect
      (fun i => ok_or (checked_add u64_max (current !!! i) (extra !!! i)) Overflow)
      indices (vreplicate DIMENSIONS 0))) ;
  do! _ <- add (reservation_owner r) (reservation_class r) extra true ;
  st_ret (set_amounts r (from_values total)).

Definition remainder_of (r : ResourceReservation) (part : ResourceAmounts)
  : result array ResourceBudgetError :=
  let current := values (reservation_amounts r) in
  let part := values part in
  collect (fun i => ok_or (checked_sub (current !!! i) (part !!! i)) InvalidShrink)
    indices (vreplicate DIMENSIONS 0).

Definition shrink (r : ResourceReservation) (freed : ResourceAmounts)
  : heap_op ResourceReservation :=
  do! next' <- st_lift (rejecting (remainder_of r freed)) ;
  do! _ <- subtract (reservation_owner r) (reservation_class r) (values freed) ;
  st_ret (set_amounts r (from_values next')).

(** [split(&mut self)]: what is left of the reservation, and the part split off. *)
Definition split_reservation (r : ResourceReservation) (amounts : ResourceAmounts)
  : result (ResourceReservation * ResourceReservation) ResourceBudgetError :=
  let? remainder := remainder_of r amounts in
  Ok (set_amounts r (from_values remainder), set_amounts r amounts).

(** [Drop for ResourceReservation]. *)
Definition reservation_drop (r : ResourceReservation) : heap_op unit :=
  subtract (reservation_owner r) (reservation_class r) (values (reservation_amounts r)).

Definition reserve_scope_bookkeeping (self : ResourceBudget) : heap_op unit :=
  do! scope <- deref self ;
  do! _ <- st_lift (ensure (bool_decide (owner_kind (scope_owner scope) = Workspace))
                      (Rejected InvalidHierarchy)) ;
  match scope_bookkeeping scope with
  | Some _ => st_ret tt
  | None =>
      do! bytes <- st_lift (ok_or
          (value ← checked_add u128_max (child_scope_capacity (scope_policy scope)) 1;
           value ← checked_mul u128_max value 4096;
           if value <=? u64_max then Some value else None) (Rejected Overflow)) ;
      do! parent <- st_lift (ok_or (scope_parent scope) (Rejected InvalidHierarchy)) ;
      do! reservation <- try_reserve parent Data (memory_only bytes) ;
      st_modify (fun h =>
        mk_Heap (heap_root h) (ledger h)
          (<[scope_token self :=
               mk_Scope (scope_owner scope) (scope_policy scope) (scope_parent scope)
                 (Some reservation)]> (scopes h)))
  end.

(** The last reference to a scope goes away: [Drop for Scope], then its fields, of which the
    bookkeeping reservation has a destructor of its own. *)
Definition scope_release (self : ResourceBudget) : heap_op unit :=
  do! scope <- deref self ;
  do! _ <- st_modify (fun h =>
      mk_Heap (heap_root h) (scope_drop (scope_token self) (scope_owner scope) (ledger h))
        (delete (scope_token self) (scopes h))) ;
  match scope_bookkeeping scope with
  | None => st_ret tt
  | Some reservation => reservation_drop reservation
  end.

(** ** Native memory accounts *)

Record NativeMemoryAccount := mk_NativeMemoryAccount {
  account_owner : ResourceBudget;
  account_class : ResourceClass;
  account_bytes : Z
}.

Definition memory_demand (bytes : Z) : array := vinsert 0%fin bytes (vreplicate DIMENSIONS 0).

Definition set_bytes (a : NativeMemoryAccount) (bytes : Z) : NativeMemoryAccount :=
  mk_NativeMemoryAccount (account_owner a) (account_class a) bytes.

Definition native_memory_account (self : ResourceBudget) (class : ResourceClass)
  : NativeMemoryAccount := mk_NativeMemoryAccount self class 0.

Definition native_try_grow (a : NativeMemoryAccount) (bytes : Z) : heap_op NativeMemoryAccount :=
  do! _ <- add (account_owner a) (account_class a) (memory_demand bytes) true ;
  st_ret (set_bytes a (wrap128 (account_bytes a + bytes))).

(** [expect] turns the only error of an unchecked [add] into a panic. *)
Definition native_grow_infallible (a : NativeMemoryAccount) (bytes : Z)
  : heap_op NativeMemoryAccount :=
  fun h =>
    match add (account_owner a) (account_class a) (memory_demand bytes) false h with
    | (h', Ok _) => (h', Ok (set_bytes a (wrap128 (account_bytes a + bytes))))
    | (h', Err (Rejected _)) => (h', Err Panicked)
    | (h', Err e) => (h', Err e)
    end.

Definition native_shrink (a : NativeMemoryAccount) (bytes : Z) : heap_op NativeMemoryAccount :=
  do! _ <- subtract (account_owner a) (account_class a) (memory_demand bytes) ;
  st_ret (set_bytes a (wrap128 (account_bytes a - bytes))).

(** [Drop for NativeMemoryAccount]. *)
Definition native_drop (a : NativeMemoryAccount) : heap_op unit :=
  subtract (account_owner a) (account_class a) (memory_demand (account_bytes a)).

(** [into_native_memory_account(mut self)] consumes the reservation: its destructor runs on both
    paths, with its memory already moved out on the successful one. *)
Definition into_native_memory_account (r : ResourceReservation) : heap_op NativeMemoryAccount :=
  let a := reservation_amounts r in
  if existsb (fun i => negb (values a !!! i =? 0)) (tail indices)
  then do! _ <- reservation_drop r ; st_err (Rejected NonMemoryReservation)
  else
    let bytes := memory_bytes a in
    let rest := mk_ResourceAmounts 0 (disk_bytes a) (running_jobs a) (queued_jobs a)
                  (retained_generations a) (retained_bytes a) (rows a) (pages a) in
    do! _ <- reservation_drop (set_amounts r rest) ;
    st_ret (mk_NativeMemoryAccount (reservation_owner r) (reservation_class r) bytes).

(** ** Charged slices *)

Section charged_slices.
(** The element type and its size, [size_of::<T>()]. *)
Context {T : Type} (size_of : Z).

(** [Vec<T>]: its elements and the capacity of its backing allocation. *)
Record Vec := mk_Vec { vec_elements : list T; vec_capacity : Z }.

Record ChargedSlice := mk_ChargedSlice {
  slice_backing : Vec;
  slice_reservation : ResourceReservation;
  range_start : Z;
  range_end : Z
}.

Definition vector_bytes (capacity : Z) : result Z ResourceBudgetError :=
  ok_or (n ← checked_mul u64_max capacity size_of;
         if n <=? u64_max then Some n else None) Overflow.

(** Consumes the reservation: an error runs its destructor. *)
Definition into_charged_vec (r : ResourceReservation) (value : Vec) : heap_op ChargedSlice :=
  match vector_bytes (vec_capacity value) with
  | Err e => do! _ <- reservation_drop r ; st_err (Rejected e)
  | Ok required =>
      if memory_bytes (reservation_amounts r) <? required
      then do! _ <- reservation_drop r ;
           st_err (Rejected (UnchargedAllocation required (memory_bytes (reservation_amounts r))))
      else st_ret (mk_ChargedSlice value r 0 (Z.of_nat (length (vec_elements value))))
  end.

Definition charged_try_from_fn (budget : ResourceBudget) (class : ResourceClass) (capacity : Z)
    (allocate : unit -> Vec) : heap_op ChargedSlice :=
  do! bytes <- st_lift (rejecting (vector_bytes capacity)) ;
  do! reservation <- try_reserve budget class (memory_only bytes) ;
  into_charged_vec reservation (allocate tt).

(** [Deref]: [&backing[range]], [None] where indexing panics. *)
Definition slice_view (s : ChargedSlice) : option (list T) :=
  if ((range_start s <=? range_end s)
      && (range_end s <=? Z.of_nat (length (vec_elements (slice_backing s)))))%bool
  then Some (take (Z.to_nat (range_end s - range_start s))
               (drop (Z.to_nat (range_start s)) (vec_elements (slice_backing s))))
  else None.

Definition slice (s : ChargedSlice) (start stop : Z) : result ChargedSlice Fault :=
  if stop <? start then Err (Rejected InvalidSlice) else
  let? view := ok_or (slice_view s) Panicked in
  if Z.of_nat (length view) <? stop then Err (Rejected InvalidSlice) else
  Ok (mk_ChargedSlice (slice_backing s) (slice_reservation s)
        (wrap64 (range_start s + start)) (wrap64 (range_start s + stop))).
End charged_slices.
Arguments Vec : clear implicits.
Arguments ChargedSlice : clear implicits.
