(* ===== verification/BudgetTheory.v ===== *)
(** Correctness of the resource budget: policies, lineages, atomic admission at every ancestor,
    and the accounting invariant of a whole program over one process root. *)

From S2P Require Import Prelude.
From S2P Require Import BudgetModel.
Local Open Scope Z_scope.

Create HintDb budget.

(** ** Arrays and policies *)

Lemma indices_all (i : fin DIMENSIONS) : i ∈ indices.
Proof.
  unfold indices, DIMENSIONS in *. do 8 (inv_fin i; [set_solver|]; intros i).
  inv_fin i.
Qed.

Lemma values_from_values v : values (from_values v) = v.
Proof.
  unfold values, from_values, DIMENSIONS in *. by inv_vec v.
Qed.

Lemma from_values_values a : from_values (values a) = a.
Proof. by destruct a. Qed.

Lemma values_inj a b : values a = values b -> a = b.
Proof. intros H. by rewrite <- (from_values_values a), H, from_values_values. Qed.

Lemma lookup_intersection a b i :
  values (intersection a b) !!! i = Z.min (values a !!! i) (values b !!! i).
Proof. unfold intersection. by rewrite values_from_values, lookup_fun_to_vec. Qed.

(** Every quantity is a [u64]. *)
Definition amounts_ok (a : ResourceAmounts) : Prop :=
  forall i, in_uint u64_max (values a !!! i).

Lemma child_scope_capacity_exact p :
  amounts_ok (limits p) ->
  child_scope_capacity p = running_jobs (limits p) + queued_jobs (limits p)
                           + retained_generations (limits p) + pages (limits p).
Proof.
  intros H. pose proof (H 2%fin) as H2. pose proof (H 3%fin) as H3. pose proof (H 4%fin) as H4.
  pose proof (H 7%fin) as H7. simpl in *. unfold in_uint, u64_max in *.
  unfold child_scope_capacity. apply wrap128_small. unfold in_uint, u128_max. lia.
Qed.

#[local] Opaque indices values.

Record policy_ok (p : ResourceBudgetPolicy) : Prop := {
  limits_u64 : amounts_ok (limits p);
  reserve_u64 : amounts_ok (control_reserve p);
  reserve_below_limit : forall i, values (control_reserve p) !!! i < values (limits p) !!! i
}.

Lemma validate_dimensions_Ok limit reserve ixs u :
  validate_dimensions limit reserve ixs = Ok u <->
  Forall (fun i => limit !!! i <> 0 /\ reserve !!! i < limit !!! i) ixs.
Proof.
  induction ixs as [|i ixs IH]; simpl; [destruct u; naive_solver|].
  rewrite Forall_cons. rewrite <- IH. destruct (_ || _)%bool eqn:E.
  - split; [done|]. intros [[H1 H2] _].
    apply orb_true_iff in E as [E|E]; zify_bool; lia.
  - zify_bool. naive_solver lia.
Qed.

Lemma policy_validate_Ok p p' :
  amounts_ok (control_reserve p) ->
  policy_validate p = Ok p' <->
  p' = p /\ forall i, values (control_reserve p) !!! i < values (limits p) !!! i.
Proof.
  intros Hr. unfold policy_validate. split.
  - intros H. inv_ok H. split; [done|]. intros i.
    apply validate_dimensions_Ok in E. rewrite Forall_forall in E.
    by apply E, indices_all.
  - intros [-> H].
    assert (validate_dimensions (values (limits p)) (values (control_reserve p)) indices = Ok tt)
      as ->; [|done].
    apply validate_dimensions_Ok, Forall_forall. intros i _. specialize (H i).
    destruct (Hr i). split; lia.
Qed.

(** [p] asks for no more than [q] in any dimension. *)
Definition limits_below (p q : ResourceBudgetPolicy) : Prop :=
  forall i, values (limits p) !!! i <= values (limits q) !!! i.

Lemma intersection_below p q :
  intersection (limits p) (limits q) = limits p <-> limits_below p q.
Proof.
  unfold limits_below. split.
  - intros H i. rewrite <- H at 1. rewrite lookup_intersection. lia.
  - intros H. apply values_inj, vec_eq. intros i. rewrite lookup_intersection.
    specialize (H i). lia.
Qed.

(** ** Lineages *)

(** The parent of every live scope. *)
Definition parents (n : gmap Z NodeState) : gmap Z (option Z) := node_parent <$> n.

Fixpoint lineage_from (fuel : nat) (P : gmap Z (option Z)) (cursor : option Z) : list Z :=
  match cursor, fuel with
  | Some token, S fuel => token :: lineage_from fuel P (P !! token ≫= id)
  | _, _ => []
  end.

(** The scope and its ancestors, nearest first. *)
Definition lineage (P : gmap Z (option Z)) (t : Z) : list Z :=
  lineage_from (lineage_fuel t) P (Some t).

Definition parents_ok (P : gmap Z (option Z)) : Prop :=
  forall t q, P !! t = Some q -> 0 <= t /\ forall p, q = Some p -> p < t /\ is_Some (P !! p).

(** Enough fuel for the walk that starts at [cursor]. *)
Definition fuel_for (fuel : nat) (cursor : option Z) : Prop :=
  forall t, cursor = Some t -> (Z.to_nat t < fuel)%nat.

Lemma fuel_for_parent fuel P t q :
  parents_ok P -> P !! t = Some q -> fuel_for (S fuel) (Some t) -> fuel_for fuel q.
Proof.
  intros HP Ht Hf p ->. destruct (HP _ _ Ht) as [H0 Hp].
  destruct (Hp p eq_refl) as [? [q' Hq]]. destruct (HP _ _ Hq) as [? _].
  specialize (Hf t eq_refl). lia.
Qed.

Lemma fuel_for_start t : fuel_for (lineage_fuel t) (Some t).
Proof. intros t' [= <-]. unfold lineage_fuel. lia. Qed.
#[export] Hint Resolve fuel_for_start fuel_for_parent : budget.

(** More fuel than enough changes nothing. *)
Lemma lineage_from_fuel P fuel1 fuel2 cursor :
  parents_ok P -> (forall t, cursor = Some t -> is_Some (P !! t)) ->
  fuel_for fuel1 cursor -> fuel_for fuel2 cursor ->
  lineage_from fuel1 P cursor = lineage_from fuel2 P cursor.
Proof.
  intros HP. revert fuel2 cursor.
  induction fuel1 as [|fuel1 IH]; intros fuel2 [t|] Hl H1 H2.
  - specialize (H1 t eq_refl). lia.
  - by destruct fuel2.
  - destruct fuel2 as [|fuel2]; [specialize (H2 t eq_refl); lia|].
    simpl. destruct (Hl t eq_refl) as [q Hq]. rewrite Hq. simpl. f_equal.
    apply IH; eauto with budget.
    intros p ->. by apply (HP _ _ Hq).
  - by destruct fuel2.
Qed.

Lemma lineage_unfold P t q :
  parents_ok P -> P !! t = Some q ->
  lineage P t = t :: match q with Some p => lineage P p | None => [] end.
Proof.
  intros HP Ht. unfold lineage at 1. simpl. rewrite Ht. simpl. f_equal.
  destruct q as [p|]; [|by destruct (Z.to_nat t)].
  apply lineage_from_fuel; eauto with budget.
  intros p' [= <-]. by apply (HP _ _ Ht).
Qed.

(** Induction along a lineage, from the root down. *)
Lemma lineage_ind (P : gmap Z (option Z)) (R : Z -> Prop) :
  parents_ok P ->
  (forall t q, P !! t = Some q -> (forall p, q = Some p -> is_Some (P !! p) -> R p) -> R t) ->
  forall t, is_Some (P !! t) -> R t.
Proof.
  intros HP Hstep t Ht.
  assert (0 <= t) as H0 by (destruct Ht as [q Hq]; by apply (HP _ _ Hq)).
  revert Ht. pattern t. apply Zlt_0_ind; [|done]. clear t H0.
  intros t IH H0 [q Hq]. apply (Hstep t q Hq). intros p -> Hp.
  apply IH; [|done]. destruct (HP _ _ Hq) as [_ H]. destruct (H p eq_refl) as [? [q' Hq']].
  destruct (HP _ _ Hq'). lia.
Qed.

Lemma lineage_le P t a :
  parents_ok P -> is_Some (P !! t) -> a ∈ lineage P t -> a <= t /\ is_Some (P !! a).
Proof.
  intros HP Ht. revert a. pattern t. apply (lineage_ind P); [done| |done]. clear t Ht.
  intros t q Hq IH a. rewrite (lineage_unfold P t q) by done.
  rewrite elem_of_cons. intros [->|Ha]; [split; [lia|by exists q]|].
  destruct q as [p|]; [|by apply not_elem_of_nil in Ha].
  destruct (HP _ _ Hq) as [_ Hp]. destruct (Hp p eq_refl) as [Hlt Hlive].
  destruct (IH p eq_refl Hlive a Ha). split; [lia|done].
Qed.

Lemma lineage_self P t : t ∈ lineage P t.
Proof. unfold lineage. simpl. left. Qed.

(** A lineage only depends on the scopes in it. *)
Lemma lineage_mono P P' t :
  parents_ok P -> parents_ok P' -> P ⊆ P' -> is_Some (P !! t) -> lineage P' t = lineage P t.
Proof.
  intros HP HP' Hsub Ht. pattern t. apply (lineage_ind P); [done| |done]. clear t Ht. intros t q Hq IH.
  rewrite (lineage_unfold P t q), (lineage_unfold P' t q) by (done || by eapply lookup_weaken).
  f_equal. destruct q as [p|]; [|done]. apply IH; [done|]. by apply (HP _ _ Hq).
Qed.

(** Every scope of a lineage has its own lineage within it. *)
Lemma lineage_trans P t a :
  parents_ok P -> is_Some (P !! t) -> a ∈ lineage P t ->
  forall b, b ∈ lineage P a -> b ∈ lineage P t.
Proof.
  intros HP Ht. revert a. pattern t. apply (lineage_ind P); [done| |done]. clear t Ht.
  intros t q Hq IH a Ha b Hb. rewrite (lineage_unfold P t q) in * by done.
  apply elem_of_cons in Ha as [->|Ha]; [by rewrite (lineage_unfold P t q) in Hb|].
  destruct q as [p|]; [|by apply not_elem_of_nil in Ha].
  right. apply (IH p eq_refl) with a; [by apply (HP _ _ Hq)|done|done].
Qed.

(** ** What the two walks of [add] do *)

Fixpoint first_error (f : NodeState -> result unit Fault) (n : gmap Z NodeState) (L : list Z)
  : result unit Fault :=
  match L with
  | [] => Ok tt
  | a :: L =>
      let? node := ok_or (n !! a) Panicked in
      let? _ := f node in
      first_error f n L
  end.

Definition update_along (L : list Z) (f : NodeState -> NodeState) (n : gmap Z NodeState)
  : gmap Z NodeState :=
  map_imap (fun a node => Some (if decide (a ∈ L) then f node else node)) n.

Lemma lookup_update_along L f n a :
  update_along L f n !! a = (fun node => if decide (a ∈ L) then f node else node) <$> n !! a.
Proof. unfold update_along. rewrite map_lookup_imap. by destruct (n !! a). Qed.

Lemma parents_update_along L f n :
  (forall node, node_parent (f node) = node_parent node) ->
  parents (update_along L f n) = parents n.
Proof.
  intros Hf. apply map_eq. intros a. unfold parents. rewrite !lookup_fmap, lookup_update_along.
  destruct (n !! a); simpl; [|done]. destruct (decide _); simpl; by rewrite ?Hf.
Qed.

Lemma lookup_parents n t : parents n !! t = node_parent <$> n !! t.
Proof. apply lookup_fmap. Qed.

Lemma live_parents n t : is_Some (parents n !! t) <-> is_Some (n !! t).
Proof. rewrite lookup_parents. apply fmap_is_Some. Qed.

Definition cursor_live (n : gmap Z NodeState) (cursor : option Z) : Prop :=
  forall t, cursor = Some t -> is_Some (n !! t).

Lemma cursor_live_parent n t node :
  parents_ok (parents n) -> n !! t = Some node -> cursor_live n (node_parent node).
Proof.
  intros HP Ht p Hp. apply live_parents.
  apply (HP t (node_parent node)); [|done]. by rewrite lookup_parents, Ht.
Qed.

Lemma fuel_for_node fuel n t node :
  parents_ok (parents n) -> n !! t = Some node -> fuel_for (S fuel) (Some t) ->
  fuel_for fuel (node_parent node).
Proof.
  intros HP Ht. apply fuel_for_parent with (parents n); [done|]. by rewrite lookup_parents, Ht.
Qed.
#[export] Hint Resolve cursor_live_parent fuel_for_node : budget.

Lemma for_lineage_check f fuel cursor l :
  parents_ok (parents (nodes l)) -> cursor_live (nodes l) cursor -> fuel_for fuel cursor ->
  for_lineage (fun _ node => st_lift (f node)) fuel cursor l
  = (l, first_error f (nodes l) (lineage_from fuel (parents (nodes l)) cursor)).
Proof.
  intros HP. revert cursor. induction fuel as [|fuel IH]; intros [t|] Hl Hf; try done.
  { specialize (Hf t eq_refl). lia. }
  destruct (Hl t eq_refl) as [node Ht]. simpl. unfold st_bind, st_get, st_lift.
  rewrite Ht. simpl. destruct (f node) as [[]|e]; [|done].
  rewrite IH by eauto with budget. by rewrite lookup_parents, Ht.
Qed.

Lemma update_along_nil f n : update_along [] f n = n.
Proof.
  apply map_eq. intros a. rewrite lookup_update_along. destruct (n !! a); [|done].
  cbv [fmap option_fmap option_map]. by rewrite decide_False by apply not_elem_of_nil.
Qed.

Lemma set_nodes_id l : set_nodes l (nodes l) = l.
Proof. by destruct l. Qed.

Lemma update_along_cons L f n t node :
  n !! t = Some node -> t ∉ L ->
  update_along L f (<[t := f node]> n) = update_along (t :: L) f n.
Proof.
  intros Ht HL. apply map_eq. intros a. rewrite !lookup_update_along.
  destruct (decide (a = t)) as [->|Hne].
  - rewrite lookup_insert_eq, Ht. cbv [fmap option_fmap option_map]. by rewrite decide_False, decide_True by set_solver.
  - rewrite lookup_insert_ne by done. destruct (n !! a); [|done].
    cbv [fmap option_fmap option_map]. f_equal. apply decide_ext. set_solver.
Qed.

(** The rest of a walk never comes back to where it started. *)
Lemma lineage_from_below fuel P p a :
  parents_ok P -> is_Some (P !! p) -> fuel_for fuel (Some p) ->
  a ∈ lineage_from fuel P (Some p) -> a <= p.
Proof.
  intros HP Hp Hf Ha. apply (lineage_le P p a HP Hp). unfold lineage.
  erewrite lineage_from_fuel; [exact Ha|..]; auto with budget. by intros ? [= <-].
Qed.

Lemma for_lineage_update f fuel cursor l :
  (forall node, node_parent (f node) = node_parent node) ->
  parents_ok (parents (nodes l)) -> cursor_live (nodes l) cursor -> fuel_for fuel cursor ->
  for_lineage (update_node f) fuel cursor l
  = (set_nodes l (update_along (lineage_from fuel (parents (nodes l)) cursor) f (nodes l)), Ok tt).
Proof.
  intros Hf. revert cursor l. induction fuel as [|fuel IH]; intros [t|] l HP Hl Hfuel.
  - specialize (Hfuel t eq_refl). lia.
  - by rewrite update_along_nil, set_nodes_id.
  - destruct (Hl t eq_refl) as [node Ht]. simpl. unfold st_bind, st_get, update_node, st_modify.
    rewrite Ht. rewrite lookup_parents, Ht. simpl.
    set (l1 := set_nodes l (<[t:=f node]> (nodes l))).
    assert (parents (nodes l1) = parents (nodes l)) as HP1.
    { unfold parents. simpl. rewrite fmap_insert, Hf, <- (fmap_insert node_parent).
      by rewrite insert_id. }
    rewrite IH; rewrite ?HP1; eauto with budget.
    2: { intros p Hp. simpl. destruct (cursor_live_parent _ _ _ HP Ht p Hp) as [np Hnp].
         destruct (decide (p = t)) as [->|]; [rewrite lookup_insert_eq|rewrite lookup_insert_ne by done];
           eauto. }
    f_equal. unfold set_nodes. simpl. f_equal. apply update_along_cons; [done|].
    destruct (node_parent node) as [p|] eqn:Hp; [|destruct fuel; apply not_elem_of_nil].
    assert (parents (nodes l) !! t = Some (Some p)) as HPt by (by rewrite lookup_parents, Ht, <- Hp).
    destruct (HP _ _ HPt) as [_ Hpar]. destruct (Hpar p eq_refl) as [Hlt Hlive].
    intros Hin. apply lineage_from_below in Hin; [lia|done|done|].
    eapply (fuel_for_parent _ _ t (Some p)); eauto.
  - by rewrite update_along_nil, set_nodes_id.
Qed.

(** ** Admission of one node *)

Record node_counters (node : NodeState) : Prop := {
  node_policy_ok : policy_ok (node_policy node);
  node_data_nonneg : forall i, 0 <= node_data_used node !!! i;
  node_data_le_used : forall i, node_data_used node !!! i <= node_used node !!! i;
  node_used_le_peak : forall i, node_used node !!! i <= node_peak node !!! i;
  node_peak_u128 : forall i, node_peak node !!! i <= u128_max
}.

Abbreviation limit_of node i := (values (limits (node_policy node)) !!! i).
Abbreviation reserve_of node i := (values (control_reserve (node_policy node)) !!! i).

(** The demand fits under the node's limit, and data work leaves the control reserve alone. *)
Definition fits_dim (class : ResourceClass) (amounts : array) (node : NodeState)
    (i : fin DIMENSIONS) : Prop :=
  node_used node !!! i + amounts !!! i <= limit_of node i
  /\ (class = Data ->
      node_data_used node !!! i + amounts !!! i <= limit_of node i - reserve_of node i).

Definition fits (class : ResourceClass) (amounts : array) (node : NodeState) : Prop :=
  forall i, fits_dim class amounts node i.

(** [e] is the error for a demand that does not fit in dimension [i]. *)
Definition limiting (class : ResourceClass) (amounts : array) (node : NodeState)
    (i : fin DIMENSIONS) (e : ResourceBudgetError) : Prop :=
  let total := node_used node !!! i + amounts !!! i in
  let data_total := node_data_used node !!! i + amounts !!! i in
  let exhausted := Exhausted (node_owner node) (ALL_DIMENSIONS !!! i) in
  e = Overflow /\ u128_max < total
  \/ e = exhausted total (limit_of node i) /\ limit_of node i < total
  \/ class = Data /\ e = exhausted data_total (limit_of node i - reserve_of node i)
     /\ limit_of node i - reserve_of node i < data_total.

Definition amounts_nonneg (amounts : array) : Prop := forall i, 0 <= amounts !!! i.

Lemma limiting_not_fits class amounts node i e :
  node_counters node -> limiting class amounts node i e -> ~ fits_dim class amounts node i.
Proof.
  intros Hn Hl [H1 H2]. pose proof (limits_u64 _ (node_policy_ok _ Hn) i) as [_ Hmax].
  unfold u64_max in Hmax. unfold limiting, u128_max in Hl.
  destruct Hl as [[_ ?]|[[_ ?]|(-> & _ & ?)]]; [lia|lia|]. specialize (H2 eq_refl). lia.
Qed.

Lemma headroom_u64 node i :
  node_counters node ->
  wrap64 (limit_of node i - reserve_of node i) = limit_of node i - reserve_of node i.
Proof.
  intros [Hp _ _ _ _]. apply wrap64_small. pose proof (limits_u64 _ Hp i).
  pose proof (reserve_u64 _ Hp i). pose proof (reserve_below_limit _ Hp i).
  unfold in_uint in *. lia.
Qed.

Lemma check_dimension_cases class amounts node i ixs :
  node_counters node -> amounts_nonneg amounts ->
  (fits_dim class amounts node i
   /\ check_dimensions node class amounts true (i :: ixs)
      = check_dimensions node class amounts true ixs)
  \/ exists e, limiting class amounts node i e
               /\ check_dimensions node class amounts true (i :: ixs) = Err e.
Proof.
  intros Hn Ha. specialize (Ha i). pose proof (node_data_nonneg _ Hn i).
  pose proof (node_data_le_used _ Hn i). simpl. rewrite (headroom_u64 _ _ Hn).
  unfold limiting, fits_dim. destruct (checked_add _ _ _) as [total|] eqn:E; simpl.
  2: { apply checked_add_None in E. right. exists Overflow. eauto. }
  apply checked_add_Some in E as [-> Hmax].
  destruct (Z.ltb_spec (limit_of node i) (node_used node !!! i + amounts !!! i)).
  { right. eexists. split; [right; left; split; [reflexivity|done]|done]. }
  rewrite wrap128_small by (unfold in_uint; lia).
  case_bool_decide as Hc; [|left; split; [split; [lia|done]|done]].
  destruct (Z.ltb_spec (limit_of node i - reserve_of node i)
              (node_data_used node !!! i + amounts !!! i)).
  - right. eexists. split; [do 2 right; split_and!; [done|reflexivity|done]|done].
  - left. split; [split; [lia|done]|done].
Qed.

(** The first dimension that does not fit decides. *)
Lemma check_dimensions_cases class amounts node ixs :
  node_counters node -> amounts_nonneg amounts ->
  (check_dimensions node class amounts true ixs = Ok tt
   /\ Forall (fits_dim class amounts node) ixs)
  \/ exists ixs1 i ixs2 e, ixs = ixs1 ++ i :: ixs2
     /\ Forall (fits_dim class amounts node) ixs1 /\ limiting class amounts node i e
     /\ check_dimensions node class amounts true ixs = Err e.
Proof.
  intros Hn Ha. induction ixs as [|i ixs IH]; [left; split; [done|constructor]|].
  destruct (check_dimension_cases class amounts node i ixs Hn Ha) as [[Hi ->]|(e & Hi & He)].
  - destruct IH as [[Hok IH]|(ixs1 & j & ixs2 & e & -> & H1 & Hj & He)].
    + left. split; [done|by constructor].
    + right. exists (i :: ixs1), j, ixs2, e. split_and!; [done|by constructor|done|done].
  - right. exists [], i, ixs, e. split_and!; [done|constructor|done|done].
Qed.

Lemma check_dimensions_unchecked class amounts node ixs :
  Forall (fun i => node_used node !!! i + amounts !!! i <= u128_max) ixs ->
  check_dimensions node class amounts false ixs = Ok tt.
Proof.
  induction 1 as [|i ixs Hi _ IH]; [done|]. simpl.
  rewrite (proj2 (checked_add_Some u128_max _ _ _) (conj eq_refl Hi)). done.
Qed.

(** ** Admission along a lineage *)

Definition check_node (class : ResourceClass) (amounts : array) (node : NodeState)
  : result unit Fault := rejecting (check_dimensions node class amounts true indices).

(** The nearest ancestor that does not fit, in its first dimension that does not fit. *)
Definition first_limit (class : ResourceClass) (amounts : array) (n : gmap Z NodeState)
    (L : list Z) (e : ResourceBudgetError) : Prop :=
  exists L1 a L2 node ixs1 i ixs2,
    L = L1 ++ a :: L2 /\ n !! a = Some node /\ indices = ixs1 ++ i :: ixs2
    /\ (forall b nb, b ∈ L1 -> n !! b = Some nb -> fits class amounts nb)
    /\ Forall (fits_dim class amounts node) ixs1
    /\ limiting class amounts node i e.

Lemma check_lineage_cases class amounts n L :
  (forall a, a ∈ L -> exists node, n !! a = Some node /\ node_counters node) ->
  amounts_nonneg amounts ->
  (first_error (check_node class amounts) n L = Ok tt
   /\ forall a node, a ∈ L -> n !! a = Some node -> fits class amounts node)
  \/ exists e, first_error (check_node class amounts) n L = Err (Rejected e)
               /\ first_limit class amounts n L e.
Proof.
  intros HL Ha. induction L as [|a L IH]; [left; split; [done|by intros ? ? ?%not_elem_of_nil]|].
  destruct (HL a) as (node & Hnode & Hc); [left|]. simpl. rewrite Hnode. simpl.
  unfold check_node at 1 3.
  destruct (check_dimensions_cases class amounts node indices Hc Ha)
    as [[-> Hfit]|(ixs1 & i & ixs2 & e & Hix & H1 & Hi & ->)]; simpl.
  - assert (fits class amounts node) as Hf.
    { intros i. rewrite Forall_forall in Hfit. apply Hfit, indices_all. }
    destruct IH as [[Hok IH]|(e & He & Hfirst)]; [intros; apply HL; by right|left|right].
    + split; [done|]. intros b nb [->|Hb]%elem_of_cons Hnb; [by simplify_eq|eauto].
    + exists e. split; [done|].
      destruct Hfirst as (L1 & b & L2 & nb & ixs1 & i & ixs2 & -> & Hb & Hix & Hall & Hr1 & Hr2).
      exists (a :: L1), b, L2, nb, ixs1, i, ixs2. split_and!; try done.
      intros c nc [->|Hc']%elem_of_cons Hnc; [by simplify_eq|eauto].
  - right. exists e. split; [done|]. exists [], a, L, node, ixs1, i, ixs2.
    split_and!; try done. by intros ? ? ?%not_elem_of_nil.
Qed.

(** ** The shape of a heap: everything but the counters *)

Record Shape := mk_Shape {
  sh_owner : ResourceOwner;
  sh_parent : option Z;
  sh_policy : ResourceBudgetPolicy
}.

Definition node_shape (n : NodeState) : Shape :=
  mk_Shape (node_owner n) (node_parent n) (node_policy n).
Definition scope_shape (s : Scope) : Shape :=
  mk_Shape (scope_owner s) (scope_token <$> scope_parent s) (scope_policy s).
Definition shapes (h : Heap) : gmap Z Shape := node_shape <$> nodes (ledger h).

(** Process scopes hold workspaces, workspaces hold operations. *)
Definition kind_below (kind parent_kind : ResourceScopeKind) : Prop :=
  (kind = Workspace /\ parent_kind = Process) \/ (kind = Operation /\ parent_kind = Workspace).

Definition parent_shape_ok (T : gmap Z Shape) (t : Z) (s : Shape) : Prop :=
  match sh_parent s with
  | None => owner_kind (sh_owner s) = Process
  | Some p => p < t /\ exists sp, T !! p = Some sp
                /\ limits_below (sh_policy s) (sh_policy sp)
                /\ kind_below (owner_kind (sh_owner s)) (owner_kind (sh_owner sp))
  end.

(** How many live scopes have [p] as their parent. *)
Definition child_count (T : gmap Z Shape) (p : Z) : Z :=
  msum (fun _ s => if decide (sh_parent s = Some p) then 1 else 0) T.

Record registry_ok (root nxt : Z) (T : gmap Z Shape) (ch : gmap (Z * ResourceOwner) Z)
    (counts : gmap Z Z) (sc : gmap Z Scope) : Prop := {
  reg_next : 0 <= nxt <= u64_max;
  reg_tokens : forall t s, T !! t = Some s -> 0 <= t < nxt;
  reg_policies : forall t s, T !! t = Some s -> policy_ok (sh_policy s);
  reg_parents : forall t s, T !! t = Some s -> parent_shape_ok T t s;
  reg_children : forall p o t,
    ch !! (p, o) = Some t <->
    exists s, T !! t = Some s /\ sh_parent s = Some p /\ sh_owner s = o;
  reg_counts : forall p, default 0 (counts !! p) = child_count T p;
  reg_counts_positive : forall p c, counts !! p = Some c -> 0 < c;
  reg_capacity : forall p s, T !! p = Some s ->
    child_count T p <= child_scope_capacity (sh_policy s);
  reg_scopes : scope_shape <$> sc = T;
  reg_scope_roots : forall t s b, sc !! t = Some s -> scope_parent s = Some b ->
    budget_root b = root
}.

Definition heap_registry_ok (h : Heap) : Prop :=
  registry_ok (heap_root h) (next (ledger h)) (shapes h) (children (ledger h))
    (child_counts (ledger h)) (scopes h).

Lemma shapes_parents h : sh_parent <$> shapes h = parents (nodes (ledger h)).
Proof. unfold shapes, parents. by rewrite <- map_fmap_compose. Qed.

Lemma registry_parents_ok root nxt T ch counts sc :
  registry_ok root nxt T ch counts sc -> parents_ok (sh_parent <$> T).
Proof.
  intros R t q Hq. apply lookup_fmap_Some in Hq as (s & <- & Hs).
  split; [by apply (reg_tokens _ _ _ _ _ _ R) in Hs as [? _]|].
  intros p Hp. pose proof (reg_parents _ _ _ _ _ _ R t s Hs) as H.
  unfold parent_shape_ok in H. rewrite Hp in H. destruct H as [? (sp & Hsp & _)].
  split; [done|]. rewrite lookup_fmap, Hsp. eauto.
Qed.

Lemma heap_parents_ok h : heap_registry_ok h -> parents_ok (parents (nodes (ledger h))).
Proof. intros R. rewrite <- shapes_parents. by eapply registry_parents_ok. Qed.
#[export] Hint Resolve heap_parents_ok : budget.

(** ** The walks on a heap *)

Definition lineage_of (h : Heap) (self : ResourceBudget) : list Z :=
  lineage (parents (nodes (ledger h))) (scope_token self).

Definition update_heap (h : Heap) (self : ResourceBudget) (f : NodeState -> NodeState) : Heap :=
  set_ledger h (set_nodes (ledger h) (update_along (lineage_of h self) f (nodes (ledger h)))).

(** A reference to a live scope of this heap. *)
Definition live_budget (h : Heap) (self : ResourceBudget) : Prop :=
  budget_root self = heap_root h /\ is_Some (nodes (ledger h) !! scope_token self).

Definition counters_ok (h : Heap) : Prop :=
  forall t node, nodes (ledger h) !! t = Some node -> node_counters node.

Lemma set_ledger_id h : set_ledger h (ledger h) = h.
Proof. by destruct h. Qed.

Lemma walk_check h self f :
  heap_registry_ok h -> live_budget h self ->
  walk self (fun _ node => st_lift (f node)) h
  = (h, first_error f (nodes (ledger h)) (lineage_of h self)).
Proof.
  intros R [_ Hl]. unfold walk. rewrite for_lineage_check; [|by auto with budget| |by auto with budget].
  - by rewrite set_ledger_id.
  - by intros t [= <-].
Qed.

Lemma walk_update h self f :
  (forall node, node_parent (f node) = node_parent node) ->
  heap_registry_ok h -> live_budget h self ->
  walk self (update_node f) h = (update_heap h self f, Ok tt).
Proof.
  intros Hf R [_ Hl]. unfold walk.
  rewrite for_lineage_update; [done|done|by auto with budget| |by auto with budget].
  by intros t [= <-].
Qed.

Lemma lineage_counters h self a :
  heap_registry_ok h -> counters_ok h -> live_budget h self -> a ∈ lineage_of h self ->
  exists node, nodes (ledger h) !! a = Some node /\ node_counters node.
Proof.
  intros R C [_ Hl] Ha. apply lineage_le in Ha as [_ Ha]; [|by auto with budget|by apply live_parents].
  apply live_parents in Ha as [node Hnode]. exists node. split; [done|]. by eapply C.
Qed.

(** The demand fits at every ancestor. *)
Definition fits_lineage (h : Heap) (self : ResourceBudget) (class : ResourceClass)
    (amounts : array) : Prop :=
  forall a node, a ∈ lineage_of h self -> nodes (ledger h) !! a = Some node ->
                 fits class amounts node.

(** [add] checks every ancestor first and charges all of them or none. *)
Lemma add_cases h self class amounts :
  heap_registry_ok h -> counters_ok h -> live_budget h self -> amounts_nonneg amounts ->
  (add self class amounts true h = (update_heap h self (charge_node class amounts), Ok tt)
   /\ fits_lineage h self class amounts)
  \/ exists e, add self class amounts true h = (h, Err (Rejected e))
               /\ first_limit class amounts (nodes (ledger h)) (lineage_of h self) e.
Proof.
  intros R C Hl Ha. unfold add, st_bind.
  pose proof (walk_check h self (check_node class amounts) R Hl) as Hw.
  unfold check_node in Hw at 1. rewrite Hw.
  destruct (check_lineage_cases class amounts (nodes (ledger h)) (lineage_of h self))
    as [[-> Hfit]|(e & -> & He)]; eauto using lineage_counters.
  left. split; [|exact Hfit]. by apply walk_update.
Qed.

Lemma first_limit_not_fits h self class amounts e :
  heap_registry_ok h -> counters_ok h -> live_budget h self ->
  first_limit class amounts (nodes (ledger h)) (lineage_of h self) e ->
  ~ fits_lineage h self class amounts.
Proof.
  intros R C Hl (L1 & a & L2 & node & ixs1 & i & ixs2 & HL & Hn & _ & _ & _ & Hlim) Hfit.
  apply (limiting_not_fits class amounts node i e); [by eapply C|done|].
  apply (Hfit a node); [|done]. rewrite HL. set_solver.
Qed.

Lemma subtract_update h self class amounts :
  heap_registry_ok h -> live_budget h self ->
  subtract self class amounts h = (update_heap h self (discharge_node class amounts), Ok tt).
Proof. intros R Hl. by apply walk_update. Qed.

Lemma shapes_update_heap h self f :
  (forall node, node_shape (f node) = node_shape node) ->
  shapes (update_heap h self f) = shapes h.
Proof.
  intros Hf. apply map_eq. intros t. unfold shapes. simpl.
  rewrite !lookup_fmap, lookup_update_along. destruct (nodes (ledger h) !! t); [|done].
  cbv [fmap option_fmap option_map]. by destruct (decide _); rewrite ?Hf.
Qed.

Lemma registry_update_heap h self f :
  (forall node, node_shape (f node) = node_shape node) ->
  heap_registry_ok h -> heap_registry_ok (update_heap h self f).
Proof. intros Hf. unfold heap_registry_ok. by rewrite shapes_update_heap. Qed.

(** An unchecked [add] only fails when a counter would leave its 128 bits. *)
Lemma add_unchecked h self class amounts :
  heap_registry_ok h -> live_budget h self ->
  (forall a node i, a ∈ lineage_of h self -> nodes (ledger h) !! a = Some node ->
                    node_used node !!! i + amounts !!! i <= u128_max) ->
  add self class amounts false h = (update_heap h self (charge_node class amounts), Ok tt).
Proof.
  intros R Hl Hmax. unfold add, st_bind.
  rewrite (walk_check h self
    (fun node => rejecting (check_dimensions node class amounts false indices)) R Hl).
  assert (first_error (fun node => rejecting (check_dimensions node class amounts false indices))
            (nodes (ledger h)) (lineage_of h self) = Ok tt) as ->; [|by apply walk_update].
  assert (forall a, a ∈ lineage_of h self -> is_Some (nodes (ledger h) !! a)) as Hlive.
  { intros a Ha. apply live_parents. eapply lineage_le in Ha as [_ ?]; [done|by auto with budget|].
    apply live_parents, Hl. }
  revert Hlive Hmax. generalize (lineage_of h self). intros L. induction L as [|a L IH]; [done|].
  intros Hlive Hmax. destruct (Hlive a) as [node Hn]; [left|]. simpl. rewrite Hn. simpl.
  rewrite check_dimensions_unchecked; simpl.
  - apply IH; intros; [apply Hlive; by right|]. eapply Hmax; [by right|done].
  - apply Forall_forall. intros i _. eapply Hmax; [left|done].
Qed.

Lemma lineage_NoDup P t : parents_ok P -> is_Some (P !! t) -> NoDup (lineage P t).
Proof.
  intros HP Ht. pattern t. apply (lineage_ind P); [done| |done]. clear t Ht.
  intros t q Hq IH. rewrite (lineage_unfold P t q) by done. apply NoDup_cons.
  destruct q as [p|]; [|split; [apply not_elem_of_nil|constructor]].
  destruct (HP _ _ Hq) as [_ Hp]. destruct (Hp p eq_refl) as [Hlt Hlive].
  split; [|by apply IH]. intros Hin. apply lineage_le in Hin as [? _]; [lia|done|done].
Qed.
