(* ===== verification/BudgetRegistry.v ===== *)
(** The scope registry: opening a child scope and closing a scope without children keep the
    nodes, the identity index, the child counters and the live scopes consistent. *)

From S2P Require Import Prelude.
From S2P Require Import BudgetModel.
From S2P Require Import BudgetTheory.
Local Open Scope Z_scope.

Definition child_indicator (p : Z) (s : Shape) : Z := if decide (sh_parent s = Some p) then 1 else 0.

Lemma child_indicator_bounds p s : 0 <= child_indicator p s <= 1.
Proof. unfold child_indicator. case_decide; lia. Qed.

Lemma child_count_insert T t s p :
  T !! t = None -> child_count (<[t := s]> T) p = child_indicator p s + child_count T p.
Proof. intros Ht. exact (msum_insert_fresh (fun _ s => child_indicator p s) T t s Ht). Qed.

Lemma child_count_delete T t s p :
  T !! t = Some s -> child_count T p = child_indicator p s + child_count (delete t T) p.
Proof. intros Ht. exact (msum_delete (fun _ s => child_indicator p s) T t s Ht). Qed.

Lemma child_count_zero T p :
  (forall t s, T !! t = Some s -> sh_parent s <> Some p) -> child_count T p = 0.
Proof.
  intros H. rewrite <- (msum_zero T). apply msum_ext. intros t s Hs.
  rewrite decide_False; [done|]. by eapply H.
Qed.

Lemma child_count_nonneg T p : 0 <= child_count T p.
Proof. apply msum_nonneg. intros k s _. apply (child_indicator_bounds p s). Qed.

Lemma msum_one {A} (m : gmap Z A) : msum (fun _ _ => 1) m = Z.of_nat (size m).
Proof.
  induction m as [|k x m Hk IH] using map_ind; [done|].
  rewrite msum_insert_fresh, IH, map_size_insert_None by done. lia.
Qed.

(** There are at most as many scopes as tokens handed out. *)
Lemma size_le_next {A} (m : gmap Z A) nxt :
  0 <= nxt -> (forall t x, m !! t = Some x -> 0 <= t < nxt) -> Z.of_nat (size m) <= nxt.
Proof.
  intros H0 Hm. assert (dom m ⊆ list_to_set (C := gset Z) (seqZ 0 nxt)) as Hsub.
  { intros t [x Hx]%elem_of_dom. apply elem_of_list_to_set, elem_of_seqZ.
    specialize (Hm t x Hx). lia. }
  apply subseteq_size in Hsub. rewrite size_dom in Hsub.
  rewrite size_list_to_set, length_seqZ in Hsub by apply NoDup_seqZ. lia.
Qed.

Lemma child_count_le_next root nxt T ch counts sc p :
  registry_ok root nxt T ch counts sc -> child_count T p <= nxt.
Proof.
  intros R. etransitivity; [|apply (size_le_next T nxt); apply R].
  rewrite <- msum_one. apply msum_le. intros k s _. apply (child_indicator_bounds p s).
Qed.

(** ** Opening a scope *)

Section open_scope.
Context (root nxt : Z) (T : gmap Z Shape) (ch : gmap (Z * ResourceOwner) Z)
        (counts : gmap Z Z) (sc : gmap Z Scope).
Context (p : Z) (sp : Shape) (s : Shape) (scope : Scope).
Hypothesis (R : registry_ok root nxt T ch counts sc).
Hypothesis (Hp : T !! p = Some sp).
Hypothesis (Hparent : sh_parent s = Some p).
Hypothesis (Hpolicy : policy_ok (sh_policy s)).
Hypothesis (Hlimits : limits_below (sh_policy s) (sh_policy sp)).
Hypothesis (Hkind : kind_below (owner_kind (sh_owner s)) (owner_kind (sh_owner sp))).
Hypothesis (Hunique : ch !! (p, sh_owner s) = None).
Hypothesis (Hroom : default 0 (counts !! p) < child_scope_capacity (sh_policy sp)).
Hypothesis (Hnext : nxt + 1 <= u64_max).
Hypothesis (Hscope : scope_shape scope = s).
Hypothesis (Hroot : forall b, scope_parent scope = Some b -> budget_root b = root).

Lemma open_fresh : T !! nxt = None.
Proof.
  destruct (T !! nxt) eqn:E; [|done]. apply (reg_tokens _ _ _ _ _ _ R) in E. lia.
Qed.

Lemma open_parent_shape t s' : T !! t = Some s' -> parent_shape_ok (<[nxt := s]> T) t s'.
Proof.
  intros Ht. pose proof (reg_parents _ _ _ _ _ _ R t s' Ht) as H. unfold parent_shape_ok in *.
  destruct (sh_parent s') as [q|]; [|done]. destruct H as [? (sq & Hq & ?)].
  split; [done|]. exists sq. rewrite lookup_insert_ne; [done|].
  intros <-. by rewrite open_fresh in Hq.
Qed.

Lemma open_children q o t :
  <[(p, sh_owner s) := nxt]> ch !! (q, o) = Some t <->
  exists s', <[nxt := s]> T !! t = Some s' /\ sh_parent s' = Some q /\ sh_owner s' = o.
Proof.
  pose proof open_fresh as Hfresh. pose proof (reg_children _ _ _ _ _ _ R) as HC.
  destruct (decide ((q, o) = (p, sh_owner s))) as [[= -> ->]|Hne].
  - rewrite lookup_insert_eq. split.
    + intros [= <-]. exists s. by rewrite lookup_insert_eq.
    + intros (s' & [[<- <-]|[_ Hs']]%lookup_insert_Some & Hs1 & Hs2); [done|].
      assert (ch !! (p, sh_owner s) = Some t) by (apply HC; eauto). congruence.
  - rewrite lookup_insert_ne by done. rewrite HC. split.
    + intros (s' & Hs' & ?). exists s'. rewrite lookup_insert_ne; [done|]. intros <-. congruence.
    + intros (s' & [[<- <-]|[_ Hs']]%lookup_insert_Some & Hs1 & Hs2); [|eauto].
      destruct Hne. congruence.
Qed.

Lemma open_counts q :
  default 0 (<[p := wrap64 (default 0 (counts !! p) + 1)]> counts !! q)
  = child_count (<[nxt := s]> T) q.
Proof.
  rewrite child_count_insert by apply open_fresh. unfold child_indicator. rewrite Hparent.
  pose proof (reg_counts _ _ _ _ _ _ R) as HC.
  pose proof (child_count_le_next _ _ _ _ _ _ p R). pose proof (child_count_nonneg T p).
  destruct (decide (q = p)) as [->|Hne].
  - rewrite lookup_insert_eq, decide_True by done. simpl. rewrite HC, wrap64_small; [lia|].
    unfold in_uint. lia.
  - rewrite lookup_insert_ne, decide_False by congruence. rewrite HC. lia.
Qed.

Lemma open_registry :
  registry_ok root (nxt + 1) (<[nxt := s]> T) (<[(p, sh_owner s) := nxt]> ch)
    (<[p := wrap64 (default 0 (counts !! p) + 1)]> counts) (<[nxt := scope]> sc).
Proof.
  pose proof open_fresh as Hfresh. pose proof (child_count_nonneg T p) as Hpos.
  pose proof (reg_next _ _ _ _ _ _ R) as H0.
  split.
  - lia.
  - intros t s' [[<- _]|[_ Ht]]%lookup_insert_Some; [lia|].
    apply (reg_tokens _ _ _ _ _ _ R) in Ht. lia.
  - intros t s' [[_ <-]|[_ Ht]]%lookup_insert_Some; [done|]. by eapply R.
  - intros t s' [[<- <-]|[_ Ht]]%lookup_insert_Some; [|by apply open_parent_shape].
    unfold parent_shape_ok. rewrite Hparent. apply (reg_tokens _ _ _ _ _ _ R) in Hp as Hlt.
    split; [lia|]. exists sp. rewrite lookup_insert_ne by lia. done.
  - exact open_children.
  - exact open_counts.
  - intros q c [[<- <-]|[_ Hq]]%lookup_insert_Some; [|by eapply R].
    pose proof (child_count_le_next _ _ _ _ _ _ p R).
    rewrite (reg_counts _ _ _ _ _ _ R), wrap64_small by (unfold in_uint; lia). lia.
  - intros q sq Hq. rewrite child_count_insert by done. unfold child_indicator. rewrite Hparent.
    apply lookup_insert_Some in Hq as [[<- <-]|[Hne Hq]].
    + rewrite decide_False by (apply (reg_tokens _ _ _ _ _ _ R) in Hp; intros [= ->]; lia).
      rewrite child_count_zero.
      * rewrite child_scope_capacity_exact by apply Hpolicy.
        pose proof (limits_u64 _ Hpolicy) as Hl.
        pose proof (Hl 2%fin). pose proof (Hl 3%fin). pose proof (Hl 4%fin). pose proof (Hl 7%fin).
        simpl in *. unfold in_uint in *. lia.
      * intros t s' Ht Hs'. pose proof (reg_parents _ _ _ _ _ _ R t s' Ht) as H.
        unfold parent_shape_ok in H. rewrite Hs' in H.
        apply (reg_tokens _ _ _ _ _ _ R) in Ht. lia.
    + case_decide as Heq; [|by eapply R]. injection Heq as ->. simplify_eq.
      rewrite (reg_counts _ _ _ _ _ _ R) in Hroom. lia.
  - rewrite fmap_insert, Hscope. by rewrite (reg_scopes _ _ _ _ _ _ R).
  - intros t s' b [[_ <-]|[_ Ht]]%lookup_insert_Some; [apply Hroot|by eapply R].
Qed.
End open_scope.

(** ** Closing a scope *)

Section close_scope.
Context (root nxt : Z) (T : gmap Z Shape) (ch : gmap (Z * ResourceOwner) Z)
        (counts : gmap Z Z) (sc : gmap Z Scope).
Context (t : Z) (s : Shape).
Hypothesis (R : registry_ok root nxt T ch counts sc).
Hypothesis (Ht : T !! t = Some s).
Hypothesis (Hleaf : forall t' s', T !! t' = Some s' -> sh_parent s' <> Some t).

(** The child counters after the scope is gone. *)
Definition closed_counts (counts : gmap Z Z) (parent : option Z) : gmap Z Z :=
  match parent with
  | None => counts
  | Some parent =>
      match counts !! parent with
      | None => counts
      | Some count =>
          let count := wrap64 (count - 1) in
          if count =? 0 then delete parent counts else <[parent := count]> counts
      end
  end.

Definition closed_children (ch : gmap (Z * ResourceOwner) Z) (parent : option Z)
    (owner : ResourceOwner) : gmap (Z * ResourceOwner) Z :=
  match parent with
  | None => ch
  | Some parent => delete (parent, owner) ch
  end.

Lemma close_children q o t' :
  closed_children ch (sh_parent s) (sh_owner s) !! (q, o) = Some t' <->
  exists s', delete t T !! t' = Some s' /\ sh_parent s' = Some q /\ sh_owner s' = o.
Proof.
  pose proof (reg_children _ _ _ _ _ _ R) as HC. unfold closed_children.
  assert (sh_parent s = Some q -> sh_owner s = o -> ch !! (q, o) = Some t) as Hown
    by (intros; apply HC; eauto).
  transitivity (ch !! (q, o) = Some t' /\ t' <> t).
  - destruct (sh_parent s) as [p|] eqn:Hpar.
    + rewrite lookup_delete_Some. split.
      * intros [Hne Hch]. split; [done|]. intros ->. apply HC in Hch as (s' & Hs' & ? & ?).
        destruct Hne. congruence.
      * intros [Hch Hne]. split; [|done]. intros [= -> <-].
        rewrite Hown in Hch by done. congruence.
    + split; [|by intros [? _]]. intros Hch. split; [done|]. intros ->.
      apply HC in Hch as (s' & Hs' & ? & ?). congruence.
  - rewrite HC. split.
    + intros [(s' & Hs' & ?) Hne]. exists s'. by rewrite lookup_delete_ne.
    + intros (s' & [Hne Hs']%lookup_delete_Some & ?). eauto.
Qed.

Lemma close_count_known p :
  sh_parent s = Some p -> exists c, counts !! p = Some c /\ c = child_count T p /\ wrap64 (c - 1) = c - 1.
Proof.
  intros Hpar. pose proof (reg_counts _ _ _ _ _ _ R p) as HC.
  rewrite (child_count_delete T t s p Ht) in HC.
  pose proof (child_count_nonneg (delete t T) p).
  pose proof (child_count_le_next _ _ _ _ _ _ p R) as Hle.
  rewrite (child_count_delete T t s p Ht) in Hle |- *.
  unfold child_indicator in *. rewrite Hpar, decide_True in * by done.
  destruct (counts !! p) as [c|]; simpl in HC; [|lia].
  exists c. split_and!; [done|lia|]. apply wrap64_small.
  pose proof (reg_next _ _ _ _ _ _ R). unfold in_uint. lia.
Qed.

Lemma close_counts q :
  default 0 (closed_counts counts (sh_parent s) !! q) = child_count (delete t T) q.
Proof.
  pose proof (child_count_delete T t s q Ht) as Hd. pose proof (reg_counts _ _ _ _ _ _ R q) as HC.
  unfold closed_counts, child_indicator in *. destruct (sh_parent s) as [p|] eqn:Hpar.
  - destruct (close_count_known p Hpar) as (c & Hc & Hcc & Hw). rewrite Hc, Hw. simpl.
    destruct (Z.eqb_spec (c - 1) 0) as [He|He];
      (destruct (decide (q = p)) as [->|Hne];
       [rewrite decide_True in Hd by done; rewrite ?lookup_delete_eq, ?lookup_insert_eq; simpl; lia
       |rewrite decide_False in Hd by congruence;
        rewrite ?lookup_delete_ne, ?lookup_insert_ne by done; rewrite HC; lia]).
  - rewrite decide_False in Hd by done. lia.
Qed.

Lemma close_counts_positive q c :
  closed_counts counts (sh_parent s) !! q = Some c -> 0 < c.
Proof.
  pose proof (reg_counts_positive _ _ _ _ _ _ R) as HP. unfold closed_counts.
  destruct (sh_parent s) as [p|] eqn:Hpar; [|apply HP].
  destruct (close_count_known p Hpar) as (c' & Hc & Hcc & Hw). rewrite Hc, Hw. simpl.
  pose proof (HP p c' Hc). destruct (Z.eqb_spec (c' - 1) 0).
  - intros [_ ?]%lookup_delete_Some. by eapply HP.
  - intros [[_ <-]|[_ ?]]%lookup_insert_Some; [lia|by eapply HP].
Qed.

Lemma close_registry :
  registry_ok root nxt (delete t T) (closed_children ch (sh_parent s) (sh_owner s))
    (closed_counts counts (sh_parent s)) (delete t sc).
Proof.
  split.
  - apply R.
  - intros t' s' [_ Hs']%lookup_delete_Some. by eapply R.
  - intros t' s' [_ Hs']%lookup_delete_Some. by eapply R.
  - intros t' s' [_ Hs']%lookup_delete_Some.
    pose proof (reg_parents _ _ _ _ _ _ R t' s' Hs') as H. unfold parent_shape_ok in *.
    specialize (Hleaf t' s' Hs'). destruct (sh_parent s') as [q|]; [|done].
    destruct H as [? (sq & Hq & ?)]. split; [done|]. exists sq.
    rewrite lookup_delete_ne by congruence. done.
  - exact close_children.
  - exact close_counts.
  - exact close_counts_positive.
  - intros q sq [_ Hq]%lookup_delete_Some.
    pose proof (reg_capacity _ _ _ _ _ _ R q sq Hq) as Hc.
    rewrite (child_count_delete T t s q Ht) in Hc. pose proof (child_indicator_bounds q s). lia.
  - rewrite fmap_delete. by rewrite (reg_scopes _ _ _ _ _ _ R).
  - intros t' s' b [_ Hs']%lookup_delete_Some. by eapply R.
Qed.
End close_scope.
