(* ===== verification/BudgetWorld.v ===== *)
(** A whole program over one process root: the heap, the reservations and native accounts that
    are alive, and every operation a caller can perform on them. The counters of every scope
    equal the sum of the live charges below it, in every world the program can reach. *)

From S2P Require Import Prelude.
From S2P Require Import BudgetModel.
From S2P Require Import BudgetTheory.
From S2P Require Import BudgetRegistry.
Local Open Scope Z_scope.
#[local] Opaque indices values.

(** ** Charges and the counters they add up to *)

Record Charge := mk_Charge {
  charge_budget : ResourceBudget;
  charge_class : ResourceClass;
  charge_amounts : array
}.

Definition reservation_charge (r : ResourceReservation) : Charge :=
  mk_Charge (reservation_owner r) (reservation_class r) (values (reservation_amounts r)).
Definition account_charge (a : NativeMemoryAccount) : Charge :=
  mk_Charge (account_owner a) (account_class a) (memory_demand (account_bytes a)).

Definition any_class (c : ResourceClass) : bool := true.
Definition data_class (c : ResourceClass) : bool := bool_decide (c = Data).

(** What a charge adds to the counter of scope [t] in dimension [i]. *)
Definition charge_at (P : gmap Z (option Z)) (sel : ResourceClass -> bool) (t : Z)
    (i : fin DIMENSIONS) (c : Charge) : Z :=
  if decide (t ∈ lineage P (scope_token (charge_budget c)))
  then if sel (charge_class c) then charge_amounts c !!! i else 0
  else 0.

Abbreviation sums := ((ResourceClass -> bool) -> Z -> fin DIMENSIONS -> Z).

(** The counters of every node are the given sums. *)
Definition accounts (h : Heap) (S : sums) : Prop :=
  forall t node i, nodes (ledger h) !! t = Some node ->
    node_used node !!! i = S any_class t i /\ node_data_used node !!! i = S data_class t i.

Definition plus_charge (h : Heap) (c : Charge) (S : sums) : sums :=
  fun sel t i => S sel t i + charge_at (parents (nodes (ledger h))) sel t i c.

Lemma lookup_update_heap h self f t node' :
  nodes (ledger (update_heap h self f)) !! t = Some node' ->
  exists node, nodes (ledger h) !! t = Some node
    /\ node' = if decide (t ∈ lineage_of h self) then f node else node.
Proof.
  unfold update_heap. simpl. rewrite lookup_update_along.
  intros (node & Hn & ->)%fmap_Some. eauto.
Qed.

Ltac node_simpl :=
  unfold charge_node, discharge_node; cbn [node_used node_data_used node_peak node_policy].

Lemma charge_node_counters class amounts node :
  node_counters node -> amounts_nonneg amounts ->
  (forall i, node_used node !!! i + amounts !!! i <= u128_max) ->
  node_counters (charge_node class amounts node)
  /\ forall i, node_used (charge_node class amounts node) !!! i
               = node_used node !!! i + amounts !!! i
     /\ node_data_used (charge_node class amounts node) !!! i
        = node_data_used node !!! i + (if data_class class then amounts !!! i else 0).
Proof.
  intros Hn Ha Hmax.
  assert (forall i, in_uint u128_max (node_used node !!! i + amounts !!! i)
            /\ in_uint u128_max (node_data_used node !!! i + amounts !!! i)) as Hw.
  { intros i. pose proof (node_data_nonneg _ Hn i). pose proof (node_data_le_used _ Hn i).
    specialize (Ha i). specialize (Hmax i). unfold in_uint. lia. }
  assert (forall i, node_used (charge_node class amounts node) !!! i
                    = node_used node !!! i + amounts !!! i) as Hu.
  { intros i. node_simpl. rewrite lookup_fun_to_vec. apply wrap128_small, Hw. }
  assert (forall i, node_data_used (charge_node class amounts node) !!! i
                    = node_data_used node !!! i + (if data_class class then amounts !!! i else 0))
    as Hd.
  { intros i. unfold data_class. node_simpl. case_bool_decide; [|lia].
    rewrite lookup_fun_to_vec. apply wrap128_small, Hw. }
  split; [|done]. split; [apply (node_policy_ok _ Hn)|intros i..].
  - rewrite Hd. pose proof (node_data_nonneg _ Hn i). specialize (Ha i).
    destruct (data_class class); lia.
  - rewrite Hd, Hu. pose proof (node_data_le_used _ Hn i). specialize (Ha i).
    destruct (data_class class); lia.
  - rewrite Hu. node_simpl. rewrite !lookup_fun_to_vec.
    rewrite wrap128_small by apply Hw. lia.
  - node_simpl. rewrite !lookup_fun_to_vec. rewrite wrap128_small by apply Hw.
    specialize (Hmax i). pose proof (node_peak_u128 _ Hn i). lia.
Qed.

Lemma discharge_node_counters class amounts node :
  node_counters node -> amounts_nonneg amounts ->
  (forall i, 0 <= node_data_used node !!! i - (if data_class class then amounts !!! i else 0)
             <= node_used node !!! i - amounts !!! i) ->
  node_counters (discharge_node class amounts node)
  /\ forall i, node_used (discharge_node class amounts node) !!! i
               = node_used node !!! i - amounts !!! i
     /\ node_data_used (discharge_node class amounts node) !!! i
        = node_data_used node !!! i - (if data_class class then amounts !!! i else 0).
Proof.
  intros Hn Ha Hmin.
  assert (forall i, node_used node !!! i <= u128_max /\ node_data_used node !!! i <= u128_max) as Hw.
  { intros i. pose proof (node_data_le_used _ Hn i). pose proof (node_used_le_peak _ Hn i).
    pose proof (node_peak_u128 _ Hn i). lia. }
  assert (forall i, node_used (discharge_node class amounts node) !!! i
                    = node_used node !!! i - amounts !!! i) as Hu.
  { intros i. node_simpl. rewrite lookup_fun_to_vec. apply wrap128_small.
    specialize (Hmin i). specialize (Ha i). specialize (Hw i). unfold in_uint. lia. }
  assert (forall i, node_data_used (discharge_node class amounts node) !!! i
                    = node_data_used node !!! i - (if data_class class then amounts !!! i else 0))
    as Hd.
  { intros i. specialize (Hmin i). specialize (Ha i). specialize (Hw i).
    unfold data_class in *. node_simpl. case_bool_decide; [|lia].
    rewrite lookup_fun_to_vec. apply wrap128_small. unfold in_uint. lia. }
  split; [|done]. split; [apply (node_policy_ok _ Hn)|intros i..].
  - rewrite Hd. apply Hmin.
  - rewrite Hd, Hu. apply Hmin.
  - rewrite Hu. node_simpl. pose proof (node_used_le_peak _ Hn i). specialize (Ha i). lia.
  - node_simpl. apply (node_peak_u128 _ Hn).
Qed.

(** Charging a lineage adds the charge to the sums. *)
Lemma accounts_charge h b class amounts S :
  counters_ok h -> amounts_nonneg amounts ->
  (forall a node i, a ∈ lineage_of h b -> nodes (ledger h) !! a = Some node ->
                    node_used node !!! i + amounts !!! i <= u128_max) ->
  accounts h S ->
  counters_ok (update_heap h b (charge_node class amounts))
  /\ accounts (update_heap h b (charge_node class amounts))
       (plus_charge h (mk_Charge b class amounts) S).
Proof.
  intros C Ha Hmax A.
  assert (forall t node, nodes (ledger h) !! t = Some node -> t ∈ lineage_of h b ->
            node_counters (charge_node class amounts node) /\ _) as Hc
    by (intros t node Hn Ht; apply charge_node_counters; eauto).
  split.
  - intros t node' (node & Hn & ->)%lookup_update_heap.
    destruct (decide _) as [Ht|]; [by apply (Hc t)|by eapply C].
  - intros t node' i (node & Hn & ->)%lookup_update_heap.
    destruct (A t node i Hn) as [Hu Hd]. unfold plus_charge, charge_at. simpl.
    change (lineage (parents (nodes (ledger h))) (scope_token b)) with (lineage_of h b).
    destruct (decide _) as [Ht|]; [|split; lia].
    destruct (Hc t node Hn Ht) as [_ Hv]. destruct (Hv i) as [-> ->]. split; lia.
Qed.

(** Discharging a lineage takes a charge of the sums away from the counters. *)
Lemma accounts_discharge h b class amounts S :
  counters_ok h -> amounts_nonneg amounts ->
  (forall t i, 0 <= S data_class t i <= S any_class t i) ->
  accounts h (plus_charge h (mk_Charge b class amounts) S) ->
  counters_ok (update_heap h b (discharge_node class amounts))
  /\ accounts (update_heap h b (discharge_node class amounts)) S.
Proof.
  intros C Ha HS A.
  assert (forall t node, nodes (ledger h) !! t = Some node -> t ∈ lineage_of h b ->
            node_counters (discharge_node class amounts node) /\
            forall i, node_used (discharge_node class amounts node) !!! i = S any_class t i
              /\ node_data_used (discharge_node class amounts node) !!! i = S data_class t i) as Hc.
  { intros t node Hn Ht.
    assert (forall i, node_used node !!! i = S any_class t i + amounts !!! i
              /\ node_data_used node !!! i
                 = S data_class t i + (if data_class class then amounts !!! i else 0)) as Hv.
    { intros i. destruct (A t node i Hn) as [-> ->]. unfold plus_charge, charge_at. simpl.
      by rewrite !decide_True. }
    destruct (discharge_node_counters class amounts node) as [Hok Hval]; [eauto|done|..].
    { intros i. destruct (Hv i) as [-> ->]. specialize (HS t i). lia. }
    split; [done|]. intros i. destruct (Hval i) as [-> ->]. destruct (Hv i) as [-> ->]. lia. }
  split.
  - intros t node' (node & Hn & ->)%lookup_update_heap.
    destruct (decide _) as [Ht|]; [by apply (Hc t)|by eapply C].
  - intros t node' i (node & Hn & ->)%lookup_update_heap.
    destruct (decide _) as [Ht|Ht]; [by apply (Hc t)|].
    destruct (A t node i Hn) as [-> ->]. unfold plus_charge, charge_at. simpl.
    rewrite !decide_False by done. lia.
Qed.

(** ** Limits *)

(** Every scope is within its limits, and its data work leaves the control reserve alone. *)
Definition within_limits (h : Heap) : Prop :=
  forall t node i, nodes (ledger h) !! t = Some node ->
    node_used node !!! i <= limit_of node i
    /\ node_data_used node !!! i <= limit_of node i - reserve_of node i.

Lemma within_charge h b class A :
  counters_ok h -> amounts_nonneg A -> fits_lineage h b class A ->
  within_limits h -> within_limits (update_heap h b (charge_node class A)).
Proof.
  intros C HA Hfit Hw t node' i (node & Hn & ->)%lookup_update_heap.
  destruct (decide _) as [Ht|]; [|by eapply Hw].
  destruct (charge_node_counters class A node) as [_ Hv]; [by eapply C|done|..].
  { intros j. destruct (Hfit t node Ht Hn j) as [Hj _].
    pose proof (limits_u64 _ (node_policy_ok _ (C _ _ Hn)) j) as [_ Hl].
    unfold u64_max in Hl. unfold u128_max. lia. }
  destruct (Hv i) as [-> ->]. destruct (Hfit t node Ht Hn i) as [H1 H2].
  destruct (Hw t node i Hn) as [_ H3]. unfold charge_node. cbn [node_policy].
  split; [done|]. unfold data_class. case_bool_decide; [by apply H2|lia].
Qed.

Lemma within_discharge h b class A :
  amounts_nonneg A -> within_limits h ->
  (forall t node i, nodes (ledger h) !! t = Some node -> t ∈ lineage_of h b ->
     0 <= node_used node !!! i - A !!! i <= u128_max
     /\ (class = Data -> 0 <= node_data_used node !!! i - A !!! i <= u128_max)) ->
  within_limits (update_heap h b (discharge_node class A)).
Proof.
  intros HA Hw Hmin t node' i (node & Hn & ->)%lookup_update_heap.
  destruct (Hw t node i Hn) as [H1 H2].
  destruct (decide _) as [Ht|]; [|done]. destruct (Hmin t node i Hn Ht) as [H3 H4].
  specialize (HA i). node_simpl. rewrite lookup_fun_to_vec, wrap128_small by done.
  split; [lia|]. case_bool_decide as Hc; [|done].
  rewrite lookup_fun_to_vec, wrap128_small by (by apply H4). lia.
Qed.

(** ** The program: live values and the operations on them *)

Inductive Holder :=
| HeldReservation (r : ResourceReservation)
| HeldAccount (a : NativeMemoryAccount).

Definition holder_charge (hd : Holder) : Charge :=
  match hd with
  | HeldReservation r => reservation_charge r
  | HeldAccount a => account_charge a
  end.

Definition holder_drop (hd : Holder) : heap_op unit :=
  match hd with
  | HeldReservation r => reservation_drop r
  | HeldAccount a => native_drop a
  end.

Record World := mk_World {
  heap : Heap;
  live : gmap Z Holder
}.

Inductive budget_op :=
| OpWorkspace (b : ResourceBudget) (id : byte_array 16) (policy : ResourceBudgetPolicy)
| OpOperation (b : ResourceBudget) (id : byte_array 16) (policy : ResourceBudgetPolicy)
| OpBookkeeping (b : ResourceBudget)
| OpReserve (k : Z) (b : ResourceBudget) (class : ResourceClass) (amounts : ResourceAmounts)
| OpGrow (k : Z) (additional : ResourceAmounts)
| OpShrink (k : Z) (freed : ResourceAmounts)
| OpSplit (k k' : Z) (amounts : ResourceAmounts)
| OpDrop (k : Z)
| OpAccount (k : Z) (b : ResourceBudget) (class : ResourceClass)
| OpAccountTryGrow (k bytes : Z)
| OpAccountGrow (k bytes : Z)
| OpAccountShrink (k bytes : Z)
| OpIntoAccount (k : Z)
| OpIntoSlice (k size_of : Z) (value : Vec Z)
| OpReleaseScope (b : ResourceBudget).

(** Runs a body on the heap; a value it returns goes to its owner. *)
Definition on_heap {A} (m : heap_op A) (w : World) (store : A -> gmap Z Holder -> gmap Z Holder)
  : World * result unit Fault :=
  match m (heap w) with
  | (h, Ok a) => (mk_World h (store a (live w)), Ok tt)
  | (h, Err e) => (mk_World h (live w), Err e)
  end.

Definition keep {A} (_ : A) (L : gmap Z Holder) : gmap Z Holder := L.
Definition put_reservation (k : Z) (r : ResourceReservation) (L : gmap Z Holder) :=
  <[k := HeldReservation r]> L.
Definition put_account (k : Z) (a : NativeMemoryAccount) (L : gmap Z Holder) :=
  <[k := HeldAccount a]> L.

(** The value moves out of the caller's hands before the body runs. *)
Definition moved (k : Z) (w : World) : World := mk_World (heap w) (delete k (live w)).

Definition with_reservation (k : Z) (w : World)
    (f : ResourceReservation -> World * result unit Fault) : World * result unit Fault :=
  match live w !! k with
  | Some (HeldReservation r) => f r
  | _ => (w, Err Dangling)
  end.

Definition with_account (k : Z) (w : World)
    (f : NativeMemoryAccount -> World * result unit Fault) : World * result unit Fault :=
  match live w !! k with
  | Some (HeldAccount a) => f a
  | _ => (w, Err Dangling)
  end.

Definition exec (o : budget_op) (w : World) : World * result unit Fault :=
  match o with
  | OpWorkspace b id policy => on_heap (workspace b id policy) w keep
  | OpOperation b id policy => on_heap (operation b id policy) w keep
  | OpBookkeeping b => on_heap (reserve_scope_bookkeeping b) w keep
  | OpReserve k b class amounts => on_heap (try_reserve b class amounts) w (put_reservation k)
  | OpGrow k additional =>
      with_reservation k w (fun r => on_heap (try_grow r additional) w (put_reservation k))
  | OpShrink k freed =>
      with_reservation k w (fun r => on_heap (shrink r freed) w (put_reservation k))
  | OpSplit k k' amounts =>
      with_reservation k w (fun r =>
        match split_reservation r amounts with
        | Ok (r1, r2) =>
            (mk_World (heap w) (put_reservation k' r2 (put_reservation k r1 (live w))), Ok tt)
        | Err e => (w, Err (Rejected e))
        end)
  | OpDrop k =>
      match live w !! k with
      | Some hd => on_heap (holder_drop hd) (moved k w) keep
      | None => (w, Err Dangling)
      end
  | OpAccount k b class =>
      (mk_World (heap w) (put_account k (native_memory_account b class) (live w)), Ok tt)
  | OpAccountTryGrow k bytes =>
      with_account k w (fun a => on_heap (native_try_grow a bytes) w (put_account k))
  | OpAccountGrow k bytes =>
      with_account k w (fun a => on_heap (native_grow_infallible a bytes) w (put_account k))
  | OpAccountShrink k bytes =>
      with_account k w (fun a => on_heap (native_shrink a bytes) w (put_account k))
  | OpIntoAccount k =>
      with_reservation k w (fun r =>
        on_heap (into_native_memory_account r) (moved k w) (put_account k))
  | OpIntoSlice k size_of value =>
      with_reservation k w (fun r =>
        on_heap (into_charged_vec size_of r value) (moved k w)
          (fun s => put_reservation k (slice_reservation s)))
  | OpReleaseScope b => on_heap (scope_release b) w keep
  end.

Definition policy_u64 (p : ResourceBudgetPolicy) : Prop :=
  amounts_ok (limits p) /\ amounts_ok (control_reserve p).

(** What the language guarantees of a call: references point to live scopes, values are in the
    range of their type, an owned value is used by its owner, and a scope is dropped when nothing
    refers to it any more. Two obligations are the caller's: a native account is not shrunk
    below zero, and the bytes it is grown by exist in some address space. *)
Definition callable (w : World) (o : budget_op) : Prop :=
  match o with
  | OpWorkspace b _ policy | OpOperation b _ policy => live_budget (heap w) b /\ policy_u64 policy
  | OpBookkeeping b => live_budget (heap w) b
  | OpReserve k b _ amounts => live_budget (heap w) b /\ amounts_ok amounts /\ live w !! k = None
  | OpGrow k amounts | OpShrink k amounts =>
      (exists r, live w !! k = Some (HeldReservation r)) /\ amounts_ok amounts
  | OpSplit k k' amounts =>
      (exists r, live w !! k = Some (HeldReservation r)) /\ live w !! k' = None /\ amounts_ok amounts
  | OpDrop k => is_Some (live w !! k)
  | OpAccount k b _ => live_budget (heap w) b /\ live w !! k = None
  | OpAccountTryGrow k bytes =>
      (exists a, live w !! k = Some (HeldAccount a)) /\ in_uint u64_max bytes
  | OpAccountGrow k bytes =>
      (exists a, live w !! k = Some (HeldAccount a)) /\ in_uint u64_max bytes
      /\ forall t node i, nodes (ledger (heap w)) !! t = Some node ->
                          node_used node !!! i + bytes <= u128_max
  | OpAccountShrink k bytes =>
      exists a, live w !! k = Some (HeldAccount a) /\ 0 <= bytes <= account_bytes a
  | OpIntoAccount k | OpIntoSlice k _ _ => exists r, live w !! k = Some (HeldReservation r)
  | OpReleaseScope b =>
      live_budget (heap w) b
      /\ (forall t node, nodes (ledger (heap w)) !! t = Some node ->
                         node_parent node <> Some (scope_token b))
      /\ (forall k hd, live w !! k = Some hd -> charge_budget (holder_charge hd) <> b)
  end.

(** ** The accounting invariant *)

Definition bookkeeping_at (P : gmap Z (option Z)) (sel : ResourceClass -> bool) (t : Z)
    (i : fin DIMENSIONS) (s : Scope) : Z :=
  match scope_bookkeeping s with
  | Some r => charge_at P sel t i (reservation_charge r)
  | None => 0
  end.

(** The sum of every live charge at or below scope [t]. *)
Definition total (w : World) : sums := fun sel t i =>
  let P := parents (nodes (ledger (heap w))) in
  msum (fun _ hd => charge_at P sel t i (holder_charge hd)) (live w)
  + msum (fun _ s => bookkeeping_at P sel t i s) (scopes (heap w)).

Definition holder_ok (hd : Holder) : Prop :=
  match hd with
  | HeldReservation r => amounts_ok (reservation_amounts r)
  | HeldAccount a => 0 <= account_bytes a
  end.

Record world_ok (w : World) : Prop := {
  wo_registry : heap_registry_ok (heap w);
  wo_counters : counters_ok (heap w);
  wo_accounts : accounts (heap w) (total w);
  wo_budgets : forall k hd, live w !! k = Some hd ->
    live_budget (heap w) (charge_budget (holder_charge hd));
  wo_holders : forall k hd, live w !! k = Some hd -> holder_ok hd;
  wo_books : forall t s r, scopes (heap w) !! t = Some s -> scope_bookkeeping s = Some r ->
    scope_parent s = Some (reservation_owner r) /\ amounts_ok (reservation_amounts r)
}.

(** ** Sums of charges *)

Definition holders_sum (P : gmap Z (option Z)) (L : gmap Z Holder) : sums := fun sel t i =>
  msum (fun _ hd => charge_at P sel t i (holder_charge hd)) L.
Definition books_sum (P : gmap Z (option Z)) (sc : gmap Z Scope) : sums := fun sel t i =>
  msum (fun _ s => bookkeeping_at P sel t i s) sc.

Lemma charge_at_bounds P t i c :
  amounts_nonneg (charge_amounts c) ->
  0 <= charge_at P data_class t i c <= charge_at P any_class t i c.
Proof.
  intros Ha. unfold charge_at, any_class. specialize (Ha i).
  destruct (decide _), (data_class (charge_class c)); lia.
Qed.

Lemma charge_at_add P sel t i b class A B C :
  C !!! i = A !!! i + B !!! i ->
  charge_at P sel t i (mk_Charge b class C)
  = charge_at P sel t i (mk_Charge b class A) + charge_at P sel t i (mk_Charge b class B).
Proof. unfold charge_at. simpl. intros ->. destruct (decide _), (sel class); lia. Qed.

Lemma amounts_ok_nonneg a : amounts_ok a -> amounts_nonneg (values a).
Proof. intros H i. apply H. Qed.

Definition memory_index : fin DIMENSIONS := 0%fin.

Lemma lookup_memory_demand n i :
  memory_demand n !!! i = if decide (i = memory_index) then n else 0.
Proof.
  unfold memory_demand. fold memory_index.
  destruct (decide _) as [->|Hne]; [apply vlookup_insert|].
  rewrite vlookup_insert_ne by done. apply vlookup_replicate.
Qed.

#[local] Opaque memory_demand.

Lemma memory_demand_nonneg n : 0 <= n -> amounts_nonneg (memory_demand n).
Proof. intros H i. rewrite lookup_memory_demand. destruct (decide _); lia. Qed.

Lemma holder_ok_nonneg hd : holder_ok hd -> amounts_nonneg (charge_amounts (holder_charge hd)).
Proof. destruct hd; [apply amounts_ok_nonneg|apply memory_demand_nonneg]. Qed.

Lemma holders_sum_bounds P L t i :
  (forall k hd, L !! k = Some hd -> holder_ok hd) ->
  0 <= holders_sum P L data_class t i <= holders_sum P L any_class t i.
Proof.
  intros HL. unfold holders_sum. split; [apply msum_nonneg|apply msum_le];
    intros k hd Hk; apply charge_at_bounds, holder_ok_nonneg; eauto.
Qed.

Lemma books_sum_bounds P sc t i :
  (forall t s r, sc !! t = Some s -> scope_bookkeeping s = Some r ->
                 amounts_ok (reservation_amounts r)) ->
  0 <= books_sum P sc data_class t i <= books_sum P sc any_class t i.
Proof.
  intros Hsc. unfold books_sum.
  assert (forall k s, sc !! k = Some s ->
            0 <= bookkeeping_at P data_class t i s <= bookkeeping_at P any_class t i s) as Hb.
  { intros k s Hk. unfold bookkeeping_at. destruct (scope_bookkeeping s) as [r|] eqn:Hr; [|lia].
    apply charge_at_bounds, amounts_ok_nonneg. eauto. }
  split; [apply msum_nonneg|apply msum_le]; intros; by eapply Hb.
Qed.

Lemma parents_update_heap h b f :
  (forall node, node_parent (f node) = node_parent node) ->
  parents (nodes (ledger (update_heap h b f))) = parents (nodes (ledger h)).
Proof. apply parents_update_along. Qed.

Lemma live_update_heap h b f c : live_budget (update_heap h b f) c <-> live_budget h c.
Proof.
  unfold live_budget, update_heap. simpl. rewrite lookup_update_along, fmap_is_Some. done.
Qed.

(** ** Preservation, by kind of change *)

Definition holders_ok (h : Heap) (L : gmap Z Holder) : Prop :=
  forall k hd, L !! k = Some hd -> live_budget h (charge_budget (holder_charge hd)) /\ holder_ok hd.

Lemma world_holders_ok w : world_ok w -> holders_ok (heap w) (live w).
Proof. intros W k hd Hk. split; [by eapply wo_budgets|by eapply wo_holders]. Qed.

Lemma world_charge w b class A L :
  world_ok w -> live_budget (heap w) b -> amounts_nonneg A ->
  (forall a node i, a ∈ lineage_of (heap w) b -> nodes (ledger (heap w)) !! a = Some node ->
                    node_used node !!! i + A !!! i <= u128_max) ->
  holders_ok (heap w) L ->
  (forall sel t i, let P := parents (nodes (ledger (heap w))) in
     holders_sum P L sel t i
     = holders_sum P (live w) sel t i + charge_at P sel t i (mk_Charge b class A)) ->
  world_ok (mk_World (update_heap (heap w) b (charge_node class A)) L).
Proof.
  intros W Hb HA Hmax HL Hsum.
  destruct (accounts_charge (heap w) b class A (total w)) as [C' A'];
    [apply W|done|done|apply W|].
  split; simpl.
  - by apply registry_update_heap, W.
  - done.
  - intros t node i Hn. destruct (A' t node i Hn) as [-> ->].
    unfold total. cbn [heap live]. rewrite parents_update_heap by done. simpl.
    unfold plus_charge, total. unfold holders_sum in Hsum. rewrite !Hsum. split; lia.
  - intros k hd Hk. apply live_update_heap. by apply HL in Hk as [? _].
  - intros k hd Hk. by apply HL in Hk as [_ ?].
  - apply (wo_books _ W).
Qed.

Lemma world_discharge w b class A L :
  world_ok w -> live_budget (heap w) b -> amounts_nonneg A ->
  holders_ok (heap w) L ->
  (forall sel t i, let P := parents (nodes (ledger (heap w))) in
     holders_sum P (live w) sel t i
     = holders_sum P L sel t i + charge_at P sel t i (mk_Charge b class A)) ->
  world_ok (mk_World (update_heap (heap w) b (discharge_node class A)) L)
  /\ (within_limits (heap w) ->
      within_limits (update_heap (heap w) b (discharge_node class A))).
Proof.
  intros W Hb HA HL Hsum. set (P := parents (nodes (ledger (heap w)))).
  assert (forall t i, 0 <= holders_sum P L data_class t i + books_sum P (scopes (heap w)) data_class t i
                      <= holders_sum P L any_class t i + books_sum P (scopes (heap w)) any_class t i)
    as Hbounds.
  { intros t i. pose proof (holders_sum_bounds P L t i) as H1.
    pose proof (books_sum_bounds P (scopes (heap w)) t i) as H2.
    assert (forall k hd, L !! k = Some hd -> holder_ok hd) as HL'
      by (intros k hd Hk; by apply HL in Hk as [_ ?]).
    specialize (H1 HL'). destruct H2 as [? ?]; [|lia].
    intros t' s r Hs Hr. by apply (wo_books _ W t' s r Hs Hr). }
  assert (accounts (heap w) (plus_charge (heap w) (mk_Charge b class A)
            (fun sel t i => holders_sum P L sel t i + books_sum P (scopes (heap w)) sel t i))) as Hacc.
  { intros t node i Hn. destruct (wo_accounts _ W t node i Hn) as [-> ->].
    unfold plus_charge, total. fold P. unfold holders_sum in *. rewrite !Hsum. fold P.
    unfold books_sum. split; lia. }
  split; cycle 1.
  { intros Hw. apply within_discharge; [done|done|]. intros t node i Hn Ht.
    destruct (Hacc t node i Hn) as [Hu Hd]. specialize (Hbounds t i).
    pose proof (wo_counters _ W t node Hn) as Hc. pose proof (node_data_le_used _ Hc i).
    pose proof (node_used_le_peak _ Hc i). pose proof (node_peak_u128 _ Hc i).
    specialize (HA i). unfold plus_charge, charge_at in Hu, Hd. simpl in Hu, Hd.
    rewrite !decide_True in Hu, Hd by done. split; [lia|]. intros ->. simpl in Hd. lia. }
  destruct (accounts_discharge (heap w) b class A
              (fun sel t i => holders_sum P L sel t i + books_sum P (scopes (heap w)) sel t i))
    as [C' A']; [apply W|done|done|done|].
  split; simpl.
  - by apply registry_update_heap, W.
  - done.
  - intros t node i Hn. destruct (A' t node i Hn) as [-> ->].
    unfold total. cbn [heap live]. rewrite parents_update_heap by done. simpl. fold P. done.
  - intros k hd Hk. apply live_update_heap. by apply HL in Hk as [? _].
  - intros k hd Hk. by apply HL in Hk as [_ ?].
  - apply (wo_books _ W).
Qed.

(** Only the hands that hold the charges change. *)
Lemma world_exchange w L :
  world_ok w -> holders_ok (heap w) L ->
  (forall sel t i, let P := parents (nodes (ledger (heap w))) in
     holders_sum P L sel t i = holders_sum P (live w) sel t i) ->
  world_ok (mk_World (heap w) L).
Proof.
  intros W HL Hsum. split; simpl; try apply W.
  - intros t node i Hn. destruct (wo_accounts _ W t node i Hn) as [-> ->].
    unfold total. simpl. unfold holders_sum in Hsum. by rewrite !Hsum.
  - intros k hd Hk. by apply HL in Hk as [? _].
  - intros k hd Hk. by apply HL in Hk as [_ ?].
Qed.

Lemma holders_sum_fresh P L k hd sel t i :
  L !! k = None ->
  holders_sum P (<[k := hd]> L) sel t i
  = charge_at P sel t i (holder_charge hd) + holders_sum P L sel t i.
Proof. exact (msum_insert_fresh _ _ _ _). Qed.

Lemma holders_sum_replace P L k hd hd' sel t i :
  L !! k = Some hd ->
  holders_sum P (<[k := hd']> L) sel t i
  = holders_sum P L sel t i - charge_at P sel t i (holder_charge hd)
    + charge_at P sel t i (holder_charge hd').
Proof. exact (msum_replace _ _ _ _ _). Qed.

Lemma holders_sum_delete P L k hd sel t i :
  L !! k = Some hd ->
  holders_sum P L sel t i
  = charge_at P sel t i (holder_charge hd) + holders_sum P (delete k L) sel t i.
Proof. exact (msum_delete _ _ _ _). Qed.

Lemma holders_ok_insert h L k hd :
  holders_ok h L -> live_budget h (charge_budget (holder_charge hd)) -> holder_ok hd ->
  holders_ok h (<[k := hd]> L).
Proof. intros HL H1 H2 k' hd' [[-> <-]|[_ Hk]]%lookup_insert_Some; eauto. Qed.

Lemma holders_ok_delete h L k : holders_ok h L -> holders_ok h (delete k L).
Proof. intros HL k' hd' [_ Hk]%lookup_delete_Some. eauto. Qed.
#[export] Hint Resolve world_holders_ok holders_ok_insert holders_ok_delete : budget.
#[export] Hint Resolve amounts_ok_nonneg memory_demand_nonneg : budget.

(** A result a caller can see: a value or a documented error, never a panic. *)
Definition settled {A} (r : result A Fault) : Prop :=
  match r with Ok _ => True | Err e => exists e', e = Rejected e' end.

Lemma fits_u128 h b class A :
  counters_ok h -> fits_lineage h b class A ->
  forall a node i, a ∈ lineage_of h b -> nodes (ledger h) !! a = Some node ->
                   node_used node !!! i + A !!! i <= u128_max.
Proof.
  intros C Hfit a node i Ha Hn. destruct (Hfit a node Ha Hn i) as [H _].
  pose proof (limits_u64 _ (node_policy_ok _ (C _ _ Hn)) i) as [_ Hl].
  unfold u64_max in Hl. unfold u128_max. lia.
Qed.

(** Native growth that no limit refuses. *)
Definition overdraws (o : budget_op) : bool :=
  match o with OpAccountGrow _ _ => true | _ => false end.

(** The outcome of a step that keeps the accounting and, if [strict], the limits. *)
Definition keeps (strict : bool) (w : World) (p : World * result unit Fault) : Prop :=
  world_ok p.1 /\ settled p.2
  /\ (strict = true -> within_limits (heap w) -> within_limits (heap p.1)).

Definition preserves (w : World) (o : budget_op) : Prop := keeps (negb (overdraws o)) w (exec o w).

Lemma world_refused strict w e : world_ok w -> keeps strict w (mk_World (heap w) (live w), Err (Rejected e)).
Proof. destruct w. unfold keeps. simpl. eauto. Qed.
#[export] Hint Resolve world_refused : budget.

(** Checked admission, whatever the caller then does with the charge. *)
Lemma world_admission w b class A :
  world_ok w -> live_budget (heap w) b -> amounts_nonneg A ->
  (exists h, add b class A true (heap w) = (h, Ok tt) /\ scopes h = scopes (heap w)
     /\ (within_limits (heap w) -> within_limits h)
     /\ forall L, holders_ok (heap w) L ->
          (forall sel t i, let P := parents (nodes (ledger (heap w))) in
             holders_sum P L sel t i
             = holders_sum P (live w) sel t i + charge_at P sel t i (mk_Charge b class A)) ->
          world_ok (mk_World h L))
  \/ exists e, add b class A true (heap w) = (heap w, Err (Rejected e)).
Proof.
  intros W Hb HA.
  destruct (add_cases (heap w) b class A) as [[Hadd Hfit]|(e & Hadd & _)]; try apply W; try done.
  - left. eexists. split_and!; [exact Hadd|done|by apply within_charge; [apply W|..]|].
    intros L HL Hsum.
    apply world_charge; try done. by apply fits_u128 with class; [apply W|].
  - right. eauto.
Qed.

Lemma rejecting_settled {A} (r : result A ResourceBudgetError) : settled (rejecting r).
Proof. destruct r; simpl; eauto. Qed.

Lemma world_reserve w k b class a :
  world_ok w -> callable w (OpReserve k b class a) -> preserves w (OpReserve k b class a).
Proof.
  intros W (Hb & Ha & Hk). unfold preserves. simpl. unfold on_heap, try_reserve, st_bind.
  destruct (world_admission w b class (values a)) as [(h & -> & Hsame & Hlim & Hok)|(e & ->)];
    simpl; eauto with budget.
  split_and!; [|done|done]. apply Hok; [apply holders_ok_insert; eauto with budget|].
  intros. unfold put_reservation. rewrite holders_sum_fresh by done. unfold P. simpl.
  unfold reservation_charge. simpl. lia.
Qed.

(** ** Piecewise arithmetic on reservations *)

Lemma collect_Ok f ixs out v :
  NoDup ixs -> collect f ixs out = Ok v ->
  (forall i, i ∈ ixs -> f i = Ok (v !!! i)) /\ (forall i, i ∉ ixs -> v !!! i = out !!! i).
Proof.
  revert out. induction ixs as [|i ixs IH]; intros out Hnd; simpl.
  { intros [= ->]. split; [by intros ? ?%not_elem_of_nil|done]. }
  apply NoDup_cons in Hnd as [Hi Hnd]. destruct (f i) as [x|e] eqn:Hf; [|done].
  intros Hc. apply IH in Hc as [H1 H2]; [|done]. split.
  - intros j [->|Hj]%elem_of_cons; [|eauto]. rewrite Hf, H2 by done. by rewrite vlookup_insert.
  - intros j Hj. rewrite H2 by set_solver. apply vlookup_insert_ne. set_solver.
Qed.

Lemma indices_NoDup : NoDup indices.
Proof. Transparent indices. apply (bool_decide_unpack _). vm_compute. exact I. Opaque indices. Qed.

Lemma collect_all f out v : collect f indices out = Ok v -> forall i, f i = Ok (v !!! i).
Proof. intros H i. apply (collect_Ok _ _ _ _ indices_NoDup) in H as [H _]. apply H, indices_all. Qed.

Lemma remainder_of_Ok r part v :
  remainder_of r part = Ok v ->
  forall i, values part !!! i <= values (reservation_amounts r) !!! i
            /\ v !!! i = values (reservation_amounts r) !!! i - values part !!! i.
Proof.
  intros H i. apply collect_all with (i := i) in H. apply ok_or_Ok in H.
  apply checked_sub_Some in H as [? ?]. done.
Qed.

Lemma grown_Ok r extra v :
  collect (fun i => ok_or (checked_add u64_max (values (reservation_amounts r) !!! i)
                             (values extra !!! i)) Overflow) indices (vreplicate DIMENSIONS 0)
  = Ok v ->
  forall i, v !!! i = values (reservation_amounts r) !!! i + values extra !!! i
            /\ v !!! i <= u64_max.
Proof.
  intros H i. apply collect_all with (i := i) in H. apply ok_or_Ok in H.
  apply checked_add_Some in H as [-> ?]. done.
Qed.

Lemma amounts_ok_from v :
  (forall i, in_uint u64_max (v !!! i)) -> amounts_ok (from_values v).
Proof. intros H i. rewrite values_from_values. apply H. Qed.

(** ** The operations on held charges *)

Lemma held_facts w k hd :
  world_ok w -> live w !! k = Some hd ->
  live_budget (heap w) (charge_budget (holder_charge hd)) /\ holder_ok hd
  /\ amounts_nonneg (charge_amounts (holder_charge hd)).
Proof.
  intros W Hk. split_and!; [by eapply wo_budgets|by eapply wo_holders|].
  apply holder_ok_nonneg. by eapply wo_holders.
Qed.

Lemma world_grow w k a : world_ok w -> callable w (OpGrow k a) -> preserves w (OpGrow k a).
Proof.
  intros W ([r Hk] & Ha). destruct (held_facts w k _ W Hk) as (Hb & Hr & _). simpl in Hb, Hr.
  unfold preserves. simpl. unfold with_reservation. rewrite Hk.
  unfold on_heap, try_grow, st_bind, st_lift.
  destruct (collect _ _ _) as [v|e] eqn:Hv; simpl; [|by apply world_refused].
  pose proof (grown_Ok _ _ _ Hv) as Hg.
  destruct (world_admission w (reservation_owner r) (reservation_class r) (values a))
    as [(h & -> & Hsame & Hlim & Hok)|(e & ->)]; simpl; eauto with budget.
  split_and!; [|done|done]. apply Hok.
  - apply holders_ok_insert; [by auto with budget|done|]. simpl. apply amounts_ok_from.
    intros i. destruct (Hg i) as [-> Hle]. specialize (Hr i). specialize (Ha i). unfold in_uint in *. lia.
  - intros. unfold put_reservation. rewrite holders_sum_replace with (hd := HeldReservation r) by done.
    simpl. unfold reservation_charge. simpl.
    rewrite (charge_at_add P sel t i _ _ (values (reservation_amounts r)) (values a)
               (values (from_values v))); [unfold P; lia|].
    rewrite values_from_values. apply Hg.
Qed.

Lemma keeps_discharge (P Q R : Prop) : P /\ Q -> P /\ True /\ (R -> Q).
Proof. tauto. Qed.

Lemma world_shrink w k a : world_ok w -> callable w (OpShrink k a) -> preserves w (OpShrink k a).
Proof.
  intros W ([r Hk] & Ha). destruct (held_facts w k _ W Hk) as (Hb & Hr & _). simpl in Hb, Hr.
  unfold preserves. simpl. unfold with_reservation. rewrite Hk.
  unfold on_heap, shrink, st_bind, st_lift.
  destruct (remainder_of r a) as [v|e] eqn:Hv; simpl; [|by apply world_refused].
  pose proof (remainder_of_Ok _ _ _ Hv) as Hg.
  rewrite subtract_update by (done || apply W). simpl.
  unfold keeps. cbn [fst snd heap]. apply keeps_discharge, world_discharge; auto with budget.
  - apply holders_ok_insert; [by auto with budget|done|]. simpl. apply amounts_ok_from.
    intros i. destruct (Hg i) as [? ->]. specialize (Hr i). specialize (Ha i). unfold in_uint in *. lia.
  - intros. unfold put_reservation. rewrite holders_sum_replace with (hd := HeldReservation r) by done.
    simpl. unfold reservation_charge. simpl.
    rewrite (charge_at_add P sel t i _ _ v (values a) (values (reservation_amounts r))).
    + rewrite values_from_values. lia.
    + destruct (Hg i). lia.
Qed.

Lemma world_split w k k' a :
  world_ok w -> callable w (OpSplit k k' a) -> preserves w (OpSplit k k' a).
Proof.
  intros W ([r Hk] & Hk' & Ha). destruct (held_facts w k _ W Hk) as (Hb & Hr & _). simpl in Hb, Hr.
  unfold preserves. simpl. unfold with_reservation. rewrite Hk. unfold split_reservation.
  destruct (remainder_of r a) as [v|e] eqn:Hv; simpl; [|destruct w; by apply world_refused].
  pose proof (remainder_of_Ok _ _ _ Hv) as Hg. split_and!; [|done|done].
  apply world_exchange; [done|..].
  - apply holders_ok_insert; [apply holders_ok_insert| |]; simpl; auto with budget.
    apply amounts_ok_from. intros i. destruct (Hg i) as [? ->].
    specialize (Hr i). specialize (Ha i). unfold in_uint in *. lia.
  - intros. unfold put_reservation.
    rewrite holders_sum_fresh by (rewrite lookup_insert_ne by congruence; done).
    rewrite holders_sum_replace with (hd := HeldReservation r) by done.
    simpl. unfold reservation_charge. simpl.
    rewrite (charge_at_add P sel t i _ _ v (values a) (values (reservation_amounts r))).
    + rewrite values_from_values. lia.
    + destruct (Hg i). lia.
Qed.

(** Dropping a value discharges exactly what it holds. *)
Lemma world_dropped w k hd :
  world_ok w -> live w !! k = Some hd ->
  exists h, holder_drop hd (heap w) = (h, Ok tt) /\ world_ok (mk_World h (delete k (live w)))
            /\ (within_limits (heap w) -> within_limits h).
Proof.
  intros W Hk. destruct (held_facts w k _ W Hk) as (Hb & _ & Hnn).
  assert (holder_drop hd = subtract (charge_budget (holder_charge hd))
            (charge_class (holder_charge hd)) (charge_amounts (holder_charge hd))) as ->
    by (by destruct hd).
  rewrite subtract_update by (done || apply W). eexists. split; [done|].
  apply world_discharge; auto with budget.
  intros. rewrite (holders_sum_delete P (live w) k hd) by done.
  destruct (holder_charge hd). simpl. lia.
Qed.

Lemma world_drop w k : world_ok w -> callable w (OpDrop k) -> preserves w (OpDrop k).
Proof.
  intros W [hd Hk]. unfold preserves. simpl. rewrite Hk. unfold on_heap, moved. simpl.
  destruct (world_dropped w k hd W Hk) as (h & -> & Hok & Hlim). done.
Qed.

Lemma world_account w k b class :
  world_ok w -> callable w (OpAccount k b class) -> preserves w (OpAccount k b class).
Proof.
  intros W (Hb & Hk). split_and!; [|done|done]. apply world_exchange; [done|..].
  - apply holders_ok_insert; auto with budget. simpl. lia.
  - intros. unfold put_account. rewrite holders_sum_fresh by done.
    unfold charge_at. simpl. rewrite lookup_memory_demand.
    repeat case_decide; destruct (sel class); lia.
Qed.

(** An account never claims more than its owner's counter records. *)
Lemma account_bytes_le w k a node :
  world_ok w -> live w !! k = Some (HeldAccount a) ->
  nodes (ledger (heap w)) !! scope_token (account_owner a) = Some node ->
  account_bytes a <= node_used node !!! memory_index.
Proof.
  intros W Hk Hn. destruct (wo_accounts _ W _ _ memory_index Hn) as [-> _]. unfold total.
  set (P := parents _).
  pose proof (books_sum_bounds P (scopes (heap w)) (scope_token (account_owner a)) memory_index) as Hbk.
  destruct Hbk as [? ?]; [intros t s r Hs Hr; by apply (wo_books _ W t s r Hs Hr)|].
  unfold books_sum in *.
  cut (account_bytes a <= msum (fun _ hd => charge_at P any_class (scope_token (account_owner a))
                                  memory_index (holder_charge hd)) (live w)); [lia|].
  transitivity (charge_at P any_class (scope_token (account_owner a)) memory_index
                  (holder_charge (HeldAccount a))).
  - unfold charge_at. simpl. rewrite decide_True by apply lineage_self.
    rewrite lookup_memory_demand. by rewrite decide_True.
  - apply (msum_elem_le (fun _ hd => charge_at P any_class (scope_token (account_owner a)) memory_index
                                       (holder_charge hd)) (live w) k); [|done].
    intros k' hd Hk'. destruct (held_facts w k' hd W Hk') as (_ & _ & Hnn).
    pose proof (charge_at_bounds P (scope_token (account_owner a)) memory_index _ Hnn). lia.
Qed.

Lemma account_bytes_u128 w k a :
  world_ok w -> live w !! k = Some (HeldAccount a) -> 0 <= account_bytes a <= u128_max.
Proof.
  intros W Hk. split; [by apply (wo_holders _ W) in Hk|].
  destruct (wo_budgets _ W _ _ Hk) as [_ [node Hn]].
  pose proof (account_bytes_le w k a node W Hk Hn). pose proof (wo_counters _ W _ _ Hn) as Hc.
  pose proof (node_used_le_peak _ Hc memory_index). pose proof (node_peak_u128 _ Hc memory_index). lia.
Qed.

Lemma memory_demand_add m n i :
  memory_demand (m + n) !!! i = memory_demand m !!! i + memory_demand n !!! i.
Proof. rewrite !lookup_memory_demand. case_decide; lia. Qed.

(** The account after a successful growth. *)
Lemma grown_account w k a n :
  world_ok w -> live w !! k = Some (HeldAccount a) -> 0 <= n -> account_bytes a + n <= u128_max ->
  let L := put_account k (set_bytes a (wrap128 (account_bytes a + n))) (live w) in
  holders_ok (heap w) L
  /\ forall sel t i, let P := parents (nodes (ledger (heap w))) in
     holders_sum P L sel t i
     = holders_sum P (live w) sel t i
       + charge_at P sel t i (mk_Charge (account_owner a) (account_class a) (memory_demand n)).
Proof.
  intros W Hk Hn Hmax. destruct (account_bytes_u128 w k a W Hk) as [H0 _].
  destruct (held_facts w k _ W Hk) as (Hb & _ & _).
  rewrite wrap128_small by (unfold in_uint; lia). split.
  - apply holders_ok_insert; auto with budget. simpl. lia.
  - intros. unfold put_account.
    rewrite holders_sum_replace with (hd := HeldAccount a) by done.
    simpl. unfold account_charge. simpl.
    rewrite (charge_at_add P sel t i _ _ (memory_demand (account_bytes a)) (memory_demand n)
               (memory_demand (account_bytes a + n))) by apply memory_demand_add.
    unfold P. lia.
Qed.

Lemma world_account_try_grow w k n :
  world_ok w -> callable w (OpAccountTryGrow k n) -> preserves w (OpAccountTryGrow k n).
Proof.
  intros W ([a Hk] & Hn). destruct (held_facts w k _ W Hk) as (Hb & _ & _). simpl in Hb.
  unfold preserves. simpl. unfold with_account. rewrite Hk.
  unfold on_heap, native_try_grow, st_bind.
  destruct (add_cases (heap w) (account_owner a) (account_class a) (memory_demand n))
    as [[-> Hfit]|(e & -> & _)];
    [apply W|apply W|done|apply memory_demand_nonneg, Hn| |by apply world_refused].
  simpl.
  pose proof (fits_u128 _ _ _ _ (wo_counters _ W) Hfit) as Hmax.
  destruct (grown_account w k a n W Hk) as [HL Hsum]; [apply Hn|..].
  { destruct Hb as [_ [node Hnode]].
    specialize (Hmax _ node memory_index (lineage_self _ _) Hnode).
    rewrite lookup_memory_demand, decide_True in Hmax by done.
    pose proof (account_bytes_le w k a node W Hk Hnode). lia. }
  split_and!; [|done|].
  - apply world_charge; try done. apply memory_demand_nonneg, Hn.
  - intros _. apply within_charge; [apply W|apply memory_demand_nonneg, Hn|done].
Qed.

Lemma world_account_grow w k n :
  world_ok w -> callable w (OpAccountGrow k n) -> preserves w (OpAccountGrow k n).
Proof.
  intros W ([a Hk] & Hn & Hmax). destruct (held_facts w k _ W Hk) as (Hb & _ & _). simpl in Hb.
  unfold preserves. simpl. unfold with_account. rewrite Hk.
  assert (forall b node i, b ∈ lineage_of (heap w) (account_owner a) ->
            nodes (ledger (heap w)) !! b = Some node ->
            node_used node !!! i + memory_demand n !!! i <= u128_max) as Hmax'.
  { intros b node i _ Hnode. rewrite lookup_memory_demand. specialize (Hmax b node i Hnode).
    destruct Hn. case_decide; lia. }
  unfold on_heap, native_grow_infallible.
  rewrite add_unchecked by (apply W || done). simpl. split_and!; [|done|done].
  destruct (grown_account w k a n W Hk) as [HL Hsum]; [apply Hn|..].
  { destruct Hb as [_ [node Hnode]]. specialize (Hmax _ node memory_index Hnode).
    pose proof (account_bytes_le w k a node W Hk Hnode). lia. }
  apply world_charge; try done. apply memory_demand_nonneg, Hn.
Qed.

Lemma world_account_shrink w k n :
  world_ok w -> callable w (OpAccountShrink k n) -> preserves w (OpAccountShrink k n).
Proof.
  intros W (a & Hk & Hn). destruct (held_facts w k _ W Hk) as (Hb & _ & _). simpl in Hb.
  unfold preserves. simpl. unfold with_account. rewrite Hk.
  destruct (account_bytes_u128 w k a W Hk) as [_ Hmax].
  unfold on_heap, native_shrink, st_bind.
  rewrite subtract_update by (done || apply W). simpl. unfold keeps. cbn [fst snd heap].
  rewrite wrap128_small by (unfold in_uint; lia).
  apply keeps_discharge, world_discharge; [done|done|apply memory_demand_nonneg; lia|..].
  - apply holders_ok_insert; auto with budget. simpl. lia.
  - intros. unfold put_account. rewrite holders_sum_replace with (hd := HeldAccount a) by done.
    simpl. unfold account_charge. simpl.
    rewrite (charge_at_add P sel t i _ _ (memory_demand (account_bytes a - n)) (memory_demand n)
               (memory_demand (account_bytes a))); [lia|].
    rewrite <- memory_demand_add. f_equal. f_equal. lia.
Qed.

(** ** Operations that consume a reservation *)

Section memory_only_reservations.
#[local] Transparent indices values memory_demand.

Lemma tail_indices_false a :
  existsb (fun i => negb (values a !!! i =? 0)) (tail indices) = false ->
  a = memory_only (memory_bytes a).
Proof.
  simpl. rewrite !orb_false_iff, !negb_false_iff, !Z.eqb_eq. destruct a. unfold memory_only. simpl.
  intros (-> & -> & -> & -> & -> & -> & -> & _). done.
Qed.

Lemma values_memory_only n i : values (memory_only n) !!! i = memory_demand n !!! i.
Proof. done. Qed.
End memory_only_reservations.

Lemma charge_at_zero P sel t i b class :
  charge_at P sel t i (mk_Charge b class (memory_demand 0)) = 0.
Proof.
  unfold charge_at. simpl. rewrite lookup_memory_demand.
  repeat case_decide; destruct (sel class); done.
Qed.

Lemma values_memory_only_vec n : values (memory_only n) = memory_demand n.
Proof. apply vec_eq, values_memory_only. Qed.

Lemma world_consumed {A} w k r e (store : A -> gmap Z Holder -> gmap Z Holder) strict :
  world_ok w -> live w !! k = Some (HeldReservation r) ->
  keeps strict w (on_heap (do! _ <- reservation_drop r ; st_err (Rejected e)) (moved k w) store).
Proof.
  intros W Hk. destruct (world_dropped w k _ W Hk) as (h & Hd & Hok & Hlim).
  unfold keeps, on_heap, st_bind, st_err, moved. simpl in *. rewrite Hd. simpl. eauto.
Qed.

Lemma world_into_account w k :
  world_ok w -> callable w (OpIntoAccount k) -> preserves w (OpIntoAccount k).
Proof.
  intros W [r Hk]. destruct (held_facts w k _ W Hk) as (Hb & Hr & _). simpl in Hb, Hr.
  unfold preserves. simpl. unfold with_reservation. rewrite Hk. unfold into_native_memory_account.
  destruct (existsb _ _) eqn:Hm.
  { by apply world_consumed. }
  apply tail_indices_false in Hm. set (a := reservation_amounts r) in *.
  replace (mk_ResourceAmounts 0 (disk_bytes a) (running_jobs a) (queued_jobs a)
             (retained_generations a) (retained_bytes a) (rows a) (pages a))
    with (memory_only 0) by (by rewrite Hm).
  unfold on_heap, st_bind, reservation_drop. simpl.
  rewrite subtract_update by (done || apply W). simpl. unfold keeps. cbn [fst snd heap].
  rewrite values_memory_only_vec. apply keeps_discharge, world_discharge; [done|done|by apply memory_demand_nonneg|..].
  - apply holders_ok_insert; [by auto with budget|done|]. simpl.
    apply (amounts_ok_nonneg a Hr memory_index).
  - intros. unfold put_account. rewrite holders_sum_fresh by apply lookup_delete_eq.
    rewrite (holders_sum_delete P (live w) k _ sel t i Hk), charge_at_zero. simpl.
    unfold reservation_charge, account_charge. simpl. fold a. rewrite Hm at 1.
    rewrite values_memory_only_vec. lia.
Qed.

Lemma world_into_slice w k size_of value :
  world_ok w -> callable w (OpIntoSlice k size_of value) -> preserves w (OpIntoSlice k size_of value).
Proof.
  intros W [r Hk]. unfold preserves. simpl. unfold with_reservation. rewrite Hk.
  unfold into_charged_vec. destruct (vector_bytes _ _) as [required|e]; [|by apply world_consumed].
  destruct (_ <? _); [by apply world_consumed|].
  unfold on_heap. simpl. split_and!; [|done|done]. unfold put_reservation, moved. simpl.
  rewrite insert_delete_eq, insert_id by done. by destruct w.
Qed.

(** ** Scopes *)

Lemma live_scope h b :
  heap_registry_ok h -> live_budget h b ->
  exists s node, deref b h = (h, Ok s) /\ scopes h !! scope_token b = Some s
    /\ nodes (ledger h) !! scope_token b = Some node /\ scope_shape s = node_shape node.
Proof.
  intros R [Hroot [node Hn]].
  assert (scope_shape <$> scopes h !! scope_token b = Some (node_shape node)) as Hs.
  { rewrite <- lookup_fmap, (reg_scopes _ _ _ _ _ _ R). unfold shapes.
    by rewrite lookup_fmap, Hn. }
  apply fmap_Some in Hs as (s & Hs & Heq). exists s, node. unfold deref.
  rewrite Hroot, Z.eqb_refl, Hs. done.
Qed.

(** What [child] does when it does not refuse. *)
Definition child_heap (h : Heap) (b : ResourceBudget) (owner : ResourceOwner)
    (policy : ResourceBudgetPolicy) : Heap :=
  let l := ledger h in
  mk_Heap (heap_root h)
    (mk_Ledger (next l + 1)
       (<[next l := new_node owner (Some (scope_token b)) policy]> (nodes l))
       (<[(scope_token b, owner) := next l]> (children l))
       (<[scope_token b := wrap64 (default 0 (child_counts l !! scope_token b) + 1)]>
          (child_counts l)))
    (<[next l := mk_Scope owner policy (Some b) None]> (scopes h)).

Lemma child_cases h b s required kind id policy :
  deref b h = (h, Ok s) -> policy_u64 policy ->
  (exists e, child b required kind id policy h = (h, Err (Rejected e)))
  \/ child b required kind id policy h
     = (child_heap h b (mk_ResourceOwner kind id) policy,
        Ok (mk_ResourceBudget (budget_root b) (next (ledger h))))
     /\ policy_ok policy /\ owner_kind (scope_owner s) = required
     /\ limits_below policy (scope_policy s)
     /\ children (ledger h) !! (scope_token b, mk_ResourceOwner kind id) = None
     /\ default 0 (child_counts (ledger h) !! scope_token b) < child_scope_capacity (scope_policy s)
     /\ next (ledger h) + 1 <= u64_max.
Proof.
  intros Hs [Hl Hr]. unfold child, st_bind, st_lift.
  destruct (policy_validate policy) as [p'|e] eqn:Hv; cbn [rejecting]; [|eauto].
  apply policy_validate_Ok in Hv as [-> Hbelow]; [|done]. rewrite Hs.
  unfold ensure, st_get.
  case_bool_decide as Hk; [|eauto]. case_bool_decide; simpl; [eauto|].
  case_bool_decide as Hi; [|eauto]. apply intersection_below in Hi.
  case_bool_decide as Hc; [|eauto].
  destruct (Z.leb_spec (child_scope_capacity (scope_policy s))
              (default 0 (child_counts (ledger h) !! scope_token b))); simpl; [eauto|].
  destruct (checked_add _ _ _) as [n'|] eqn:Hn; simpl; [|eauto].
  apply checked_add_Some in Hn as [-> Hn]. right. split_and!; try done.
Qed.

Lemma kind_below_child kind required :
  (required, kind) = (Process, Workspace) \/ (required, kind) = (Workspace, Operation) ->
  kind_below kind required.
Proof. unfold kind_below. naive_solver. Qed.

Lemma child_registry h b s kind id policy :
  heap_registry_ok h -> live_budget h b -> deref b h = (h, Ok s) ->
  policy_ok policy -> limits_below policy (scope_policy s) ->
  kind_below kind (owner_kind (scope_owner s)) ->
  children (ledger h) !! (scope_token b, mk_ResourceOwner kind id) = None ->
  default 0 (child_counts (ledger h) !! scope_token b) < child_scope_capacity (scope_policy s) ->
  next (ledger h) + 1 <= u64_max ->
  heap_registry_ok (child_heap h b (mk_ResourceOwner kind id) policy).
Proof.
  intros R Hb Hs Hp Hl Hk Hu Hroom Hn.
  destruct (live_scope h b R Hb) as (s' & node & Hs' & Hsc & Hnode & Hshape).
  rewrite Hs in Hs'. injection Hs' as <-. unfold heap_registry_ok, shapes. simpl.
  rewrite fmap_insert.
  apply (open_registry _ _ _ _ _ _ (scope_token b) (node_shape node)
           (node_shape (new_node (mk_ResourceOwner kind id) (Some (scope_token b)) policy)));
    rewrite <- ?Hshape; try done.
  - rewrite lookup_fmap, Hnode. by rewrite Hshape.
  - intros b' [= <-]. apply Hb.
Qed.

Lemma child_parents h b owner policy :
  parents (nodes (ledger (child_heap h b owner policy)))
  = <[next (ledger h) := Some (scope_token b)]> (parents (nodes (ledger h))).
Proof. unfold parents, child_heap. cbn [nodes ledger]. by rewrite fmap_insert. Qed.

(** ** Sums under a change of the registry *)

Lemma scope_parent_live h t s b :
  heap_registry_ok h -> scopes h !! t = Some s -> scope_parent s = Some b -> live_budget h b.
Proof.
  intros R Hs Hpar. split; [by eapply (reg_scope_roots _ _ _ _ _ _ R)|].
  assert (shapes h !! t = Some (scope_shape s)) as Ht
    by (rewrite <- (reg_scopes _ _ _ _ _ _ R), lookup_fmap, Hs; done).
  pose proof (reg_parents _ _ _ _ _ _ R t _ Ht) as H. unfold parent_shape_ok, scope_shape in H.
  rewrite Hpar in H. destruct H as [_ (sp & Hsp & _)].
  unfold shapes in Hsp. apply lookup_fmap_Some in Hsp as (node & _ & Hn). eauto.
Qed.

Lemma book_live w t s r :
  world_ok w -> scopes (heap w) !! t = Some s -> scope_bookkeeping s = Some r ->
  live_budget (heap w) (reservation_owner r).
Proof.
  intros W Hs Hr. destruct (wo_books _ W t s r Hs Hr) as [Hpar _].
  eapply scope_parent_live; [apply W|done|done].
Qed.

(** The two parent maps give every live charge the same lineage. *)
Definition same_lineages (P P' : gmap Z (option Z)) (h : Heap) : Prop :=
  forall b, live_budget h b -> lineage P' (scope_token b) = lineage P (scope_token b).

Lemma charge_at_same P P' h sel t i c :
  same_lineages P P' h -> live_budget h (charge_budget c) ->
  charge_at P' sel t i c = charge_at P sel t i c.
Proof. intros HP Hc. unfold charge_at. by rewrite HP. Qed.

Lemma holders_sum_same P P' h L sel t i :
  same_lineages P P' h -> (forall k hd, L !! k = Some hd -> live_budget h (charge_budget (holder_charge hd))) ->
  holders_sum P' L sel t i = holders_sum P L sel t i.
Proof. intros HP HL. apply msum_ext. intros k hd Hk. eapply charge_at_same; eauto. Qed.

Lemma books_sum_same P P' h sc sel t i :
  same_lineages P P' h ->
  (forall k s r, sc !! k = Some s -> scope_bookkeeping s = Some r ->
                 live_budget h (reservation_owner r)) ->
  books_sum P' sc sel t i = books_sum P sc sel t i.
Proof.
  intros HP HL. apply msum_ext. intros k s Hk. unfold bookkeeping_at.
  destruct (scope_bookkeeping s) as [r|] eqn:Hr; [|done]. eapply charge_at_same; [done|].
  by eapply HL.
Qed.

(** A charge counts for live scopes only. *)
Lemma charge_at_dead h sel t i c :
  heap_registry_ok h -> live_budget h (charge_budget c) -> nodes (ledger h) !! t = None ->
  charge_at (parents (nodes (ledger h))) sel t i c = 0.
Proof.
  intros R Hc Ht. unfold charge_at. rewrite decide_False; [done|]. intros Hin.
  apply lineage_le in Hin as [_ Hl]; [|by auto with budget|by apply live_parents, Hc].
  apply live_parents in Hl. rewrite Ht in Hl. by destruct Hl.
Qed.

Lemma total_dead w sel t i :
  world_ok w -> nodes (ledger (heap w)) !! t = None -> total w sel t i = 0.
Proof.
  intros W Ht. unfold total. pose proof (wo_registry _ W) as R.
  rewrite (msum_ext _ (fun _ _ => 0) (live w)), (msum_ext _ (fun _ _ => 0) (scopes (heap w))).
  - by rewrite !msum_zero.
  - intros k s Hs. unfold bookkeeping_at. destruct (scope_bookkeeping s) as [r|] eqn:Hr; [|done].
    apply charge_at_dead; [done| |done]. by eapply book_live.
  - intros k hd Hk. apply charge_at_dead; [done| |done]. by eapply wo_budgets.
Qed.

(** Opening a scope touches no charge. *)
Section opening.
Context (w : World) (b : ResourceBudget) (owner : ResourceOwner) (policy : ResourceBudgetPolicy).
Hypothesis (W : world_ok w).
Let h' := child_heap (heap w) b owner policy.
Hypothesis (R' : heap_registry_ok h').

Lemma child_node_fresh : nodes (ledger (heap w)) !! next (ledger (heap w)) = None.
Proof.
  destruct (nodes _ !! _) as [n|] eqn:E; [|done].
  assert (shapes (heap w) !! next (ledger (heap w)) = Some (node_shape n)) as Hn
    by (unfold shapes; by rewrite lookup_fmap, E).
  apply (reg_tokens _ _ _ _ _ _ (wo_registry _ W)) in Hn. lia.
Qed.

Lemma child_scope_fresh : scopes (heap w) !! next (ledger (heap w)) = None.
Proof.
  pose proof (reg_scopes _ _ _ _ _ _ (wo_registry _ W)) as Hsc.
  apply (f_equal (.!! next (ledger (heap w)))) in Hsc. unfold shapes in Hsc.
  rewrite !lookup_fmap, child_node_fresh in Hsc. by destruct (scopes _ !! _).
Qed.

Lemma child_lineages :
  same_lineages (parents (nodes (ledger (heap w)))) (parents (nodes (ledger h'))) (heap w).
Proof.
  intros c [_ Hc]. pose proof (wo_registry _ W).
  apply lineage_mono; [by auto with budget..| |by apply live_parents].
  unfold h'. rewrite child_parents. apply insert_subseteq.
  by rewrite lookup_parents, child_node_fresh.
Qed.

Lemma child_total sel t i : total (mk_World h' (live w)) sel t i = total w sel t i.
Proof.
  unfold total. cbn [heap live]. f_equal.
  - eapply holders_sum_same; [apply child_lineages|]. apply (wo_budgets _ W).
  - unfold h' at 2. unfold child_heap. cbn [scopes].
    rewrite msum_insert_fresh by apply child_scope_fresh.
    eapply books_sum_same; [apply child_lineages|]. intros; by eapply book_live.
Qed.

Lemma child_lookup t node :
  nodes (ledger h') !! t = Some node ->
  (t = next (ledger (heap w)) /\ node = new_node owner (Some (scope_token b)) policy)
  \/ nodes (ledger (heap w)) !! t = Some node.
Proof.
  unfold h', child_heap. cbn [nodes ledger].
  intros [[<- <-]|[_ ?]]%lookup_insert_Some; auto.
Qed.

Lemma child_world_ok : policy_ok policy -> world_ok (mk_World h' (live w)).
Proof.
  intros Hp. split; cbn [heap live].
  - done.
  - intros t node [[_ ->]|Hn]%child_lookup; [|by eapply wo_counters].
    split; unfold new_node; cbn [node_policy node_used node_data_used node_peak]; [done|..];
      intros i; rewrite ?vlookup_replicate; unfold u128_max; lia.
  - intros t node i [[-> ->]|Hn]%child_lookup; rewrite !child_total; [|by apply W].
    rewrite !total_dead by (done || apply child_node_fresh).
    unfold new_node. cbn [node_used node_data_used]. by rewrite vlookup_replicate.
  - intros k hd Hk. destruct (wo_budgets _ W k hd Hk) as [? [node Hl]]. split; [done|].
    exists node. unfold h', child_heap. cbn [nodes ledger]. rewrite lookup_insert_ne; [done|].
    intros Heq. rewrite <- Heq, child_node_fresh in Hl. done.
  - apply (wo_holders _ W).
  - unfold h', child_heap. cbn [scopes].
    intros t s r [[_ <-]|[_ Hs]]%lookup_insert_Some Hr; [done|]. by eapply wo_books.
Qed.
Lemma child_within : policy_ok policy -> within_limits (heap w) -> within_limits h'.
Proof.
  intros Hp Hw t node i [[_ ->]|Hn]%child_lookup; [|by eapply Hw].
  unfold new_node. cbn [node_used node_data_used node_policy]. rewrite vlookup_replicate.
  pose proof (limits_u64 _ Hp i). pose proof (reserve_below_limit _ Hp i).
  unfold in_uint in *. lia.
Qed.
End opening.

Lemma world_child w b required kind id policy :
  world_ok w -> live_budget (heap w) b -> policy_u64 policy -> kind_below kind required ->
  keeps true w (on_heap (child b required kind id policy) w keep).
Proof.
  intros W Hb Hp Hk. unfold on_heap, keep.
  destruct (live_scope (heap w) b (wo_registry _ W) Hb) as (s & _ & Hs & _).
  destruct (child_cases (heap w) b s required kind id policy Hs Hp)
    as [(e & ->)|(-> & Hpol & <- & Hlim & Hu & Hroom & Hnext)]; [by apply world_refused|].
  split_and!; [|done|intros _; by apply child_within]. apply child_world_ok; [done| |done].
  apply (child_registry _ _ s); try done. apply W.
Qed.

(** ** Bookkeeping reservations *)

Lemma fresh_key (L : gmap Z Holder) : exists k, L !! k = None.
Proof. exists (fresh (dom L)). apply not_elem_of_dom, is_fresh. Qed.

(** A reservation moves from its holder into the scope. *)
Lemma world_store_book h L k r t s :
  world_ok (mk_World h (<[k := HeldReservation r]> L)) -> L !! k = None ->
  scopes h !! t = Some s -> scope_bookkeeping s = None ->
  scope_parent s = Some (reservation_owner r) ->
  world_ok (mk_World (mk_Heap (heap_root h) (ledger h)
    (<[t := mk_Scope (scope_owner s) (scope_policy s) (scope_parent s) (Some r)]> (scopes h))) L).
Proof.
  intros W Hk Hs Hnone Hpar. set (s' := mk_Scope _ _ _ _).
  pose proof (wo_registry _ W) as R. cbn [heap] in R.
  assert (scope_shape <$> <[t := s']> (scopes h) = scope_shape <$> scopes h) as Hsh.
  { rewrite fmap_insert. apply insert_id. rewrite lookup_fmap, Hs. done. }
  split; cbn [heap live heap_root ledger scopes].
  - destruct R. split; try done; cbn [heap_root ledger scopes] in *.
    + by rewrite Hsh.
    + intros t' s0 b [[_ <-]|[_ Hs0]]%lookup_insert_Some Hb; [by eauto|by eauto].
  - apply (wo_counters _ W).
  - intros t' node i Hn. destruct (wo_accounts _ W t' node i Hn) as [-> ->].
    unfold total. cbn [heap live ledger scopes]. set (P := parents _).
    assert (forall sel, msum (fun _ s => bookkeeping_at P sel t' i s) (<[t := s']> (scopes h))
              = msum (fun _ s => bookkeeping_at P sel t' i s) (scopes h)
                + charge_at P sel t' i (reservation_charge r)) as Hb.
    { intros sel. rewrite (msum_replace _ _ _ s) by done. unfold bookkeeping_at at 2 3.
      rewrite Hnone. simpl. lia. }
    rewrite !Hb, !msum_insert_fresh by done. simpl. split; lia.
  - intros k' hd Hk'. apply (wo_budgets _ W k'). cbn [live].
    rewrite lookup_insert_ne by congruence. done.
  - intros k' hd Hk'. apply (wo_holders _ W k'). cbn [live].
    rewrite lookup_insert_ne by congruence. done.
  - intros t' s0 r' [[_ <-]|[_ Hs0]]%lookup_insert_Some Hr'; [|by eapply (wo_books _ W)].
    injection Hr' as <-. split; [done|].
    apply (wo_holders _ W k (HeldReservation r)). apply lookup_insert_eq.
Qed.

Lemma memory_only_ok bytes : in_uint u64_max bytes -> amounts_ok (memory_only bytes).
Proof.
  intros H i. rewrite values_memory_only, lookup_memory_demand. case_decide; [done|].
  unfold in_uint, u64_max. lia.
Qed.

Lemma world_bookkeeping w b :
  world_ok w -> callable w (OpBookkeeping b) -> preserves w (OpBookkeeping b).
Proof.
  intros W Hb. pose proof (wo_registry _ W) as R.
  destruct (live_scope _ _ R Hb) as (s & node & Hs & Hsc & _).
  unfold preserves. cbn [exec]. unfold on_heap, reserve_scope_bookkeeping, st_bind, st_lift, ensure.
  rewrite Hs. case_bool_decide; [|by apply world_refused].
  destruct (scope_bookkeeping s) eqn:Hbook; [split_and!; [by destruct w|done|done]|].
  destruct (checked_add u128_max _ 1) as [v1|] eqn:H1; cbn [mbind option_bind ok_or];
    [|by apply world_refused].
  destruct (checked_mul u128_max v1 4096) as [v2|] eqn:H2; cbn [mbind option_bind ok_or];
    [|by apply world_refused].
  destruct (Z.leb_spec v2 u64_max) as [Hv|]; cbn [ok_or]; [|by apply world_refused].
  destruct (scope_parent s) as [parent|] eqn:Hpar; cbn [ok_or]; [|by apply world_refused].
  assert (amounts_ok (memory_only v2)) as Ha.
  { apply memory_only_ok. apply checked_add_Some in H1 as [-> _].
    apply checked_mul_Some in H2 as [-> _]. split; [|done].
    pose proof (Z.mod_pos_bound (running_jobs (limits (scope_policy s))
      + queued_jobs (limits (scope_policy s)) + retained_generations (limits (scope_policy s))
      + pages (limits (scope_policy s))) (u128_max + 1)).
    unfold child_scope_capacity, wrap128, u128_max in *. lia. }
  assert (live_budget (heap w) parent) as Hp by (by eapply scope_parent_live).
  destruct (fresh_key (live w)) as [k Hk]. unfold try_reserve, st_bind.
  destruct (world_admission w parent Data (values (memory_only v2)))
    as [(h & -> & Hsame & Hlim & Hok)|(e & ->)]; [done|done|by auto with budget| |by apply world_refused].
  unfold st_modify, st_ret. split_and!; [|done|done]. unfold keep.
  set (r := mk_ResourceReservation parent Data (memory_only v2)).
  rewrite <- Hpar. apply world_store_book with k; try done.
  - apply Hok; [by apply holders_ok_insert; auto with budget|].
    intros. rewrite holders_sum_fresh by done. unfold P. simpl. unfold reservation_charge. simpl. lia.
  - by rewrite Hsame.
Qed.

(** ** Closing a scope *)

Lemma scope_drop_closed t node owner l :
  nodes l !! t = Some node ->
  scope_drop t owner l
  = mk_Ledger (next l) (delete t (nodes l)) (closed_children (children l) (node_parent node) owner)
      (closed_counts (child_counts l) (node_parent node)).
Proof. intros Hn. unfold scope_drop. rewrite Hn. by destruct (node_parent node). Qed.

Section closing.
Context (w : World) (b : ResourceBudget) (s : Scope) (node : NodeState).
Hypothesis (W : world_ok w).
Hypothesis (Hb : callable w (OpReleaseScope b)).
Hypothesis (Hs : scopes (heap w) !! scope_token b = Some s).
Hypothesis (Hn : nodes (ledger (heap w)) !! scope_token b = Some node).
Hypothesis (Hshape : scope_shape s = node_shape node).

Let h1 := mk_Heap (heap_root (heap w)) (scope_drop (scope_token b) (scope_owner s) (ledger (heap w)))
            (delete (scope_token b) (scopes (heap w))).

Lemma closing_nodes : nodes (ledger h1) = delete (scope_token b) (nodes (ledger (heap w))).
Proof. unfold h1. cbn [ledger]. by rewrite (scope_drop_closed _ _ _ _ Hn). Qed.

Lemma closing_within : within_limits (heap w) -> within_limits h1.
Proof.
  intros Hw t n i. rewrite closing_nodes. intros [_ Ht]%lookup_delete_Some. by eapply Hw.
Qed.

Lemma closing_registry : heap_registry_ok h1.
Proof.
  pose proof (wo_registry _ W) as R. destruct Hb as (_ & Hleaf & _).
  unfold heap_registry_ok, shapes. rewrite closing_nodes. unfold h1.
  rewrite (scope_drop_closed _ _ _ _ Hn). cbn [heap_root ledger next children child_counts scopes].
  rewrite fmap_delete.
  replace (scope_owner s) with (sh_owner (node_shape node)) by (by rewrite <- Hshape).
  replace (node_parent node) with (sh_parent (node_shape node)) by done.
  apply close_registry; [exact R|..].
  - by rewrite lookup_fmap, Hn.
  - intros t' s' Ht'. apply lookup_fmap_Some in Ht' as (n' & <- & Hn'). by eapply Hleaf.
Qed.

Lemma closing_live c :
  live_budget (heap w) c -> c <> b -> live_budget h1 c.
Proof.
  intros [Hroot [n Hc]] Hne. split; [done|]. rewrite closing_nodes.
  rewrite lookup_delete_ne; [eauto|]. intros Heq. destruct Hne. destruct Hb as ([Hr _] & _).
  destruct c, b. simpl in *. congruence.
Qed.

(** No scope keeps its bookkeeping at the scope that closes. *)
Lemma closing_book t s' r :
  scopes (heap w) !! t = Some s' -> scope_bookkeeping s' = Some r ->
  live_budget h1 (reservation_owner r).
Proof.
  intros Hs' Hr. apply closing_live; [by eapply book_live|].
  destruct (wo_books _ W t s' r Hs' Hr) as [Hpar _]. destruct Hb as (_ & Hleaf & _).
  assert (shapes (heap w) !! t = Some (scope_shape s')) as Ht.
  { rewrite <- (reg_scopes _ _ _ _ _ _ (wo_registry _ W)), lookup_fmap, Hs'. done. }
  unfold shapes in Ht. apply lookup_fmap_Some in Ht as (n' & Hsh & Hn').
  intros Heq. apply (Hleaf t n' Hn').
  replace (node_parent n') with (sh_parent (node_shape n')) by done.
  rewrite Hsh. simpl. by rewrite Hpar, Heq.
Qed.

Lemma closing_lineages :
  same_lineages (parents (nodes (ledger h1))) (parents (nodes (ledger (heap w)))) h1.
Proof.
  intros c [_ Hc]. apply lineage_mono.
  - apply heap_parents_ok, closing_registry.
  - apply heap_parents_ok, W.
  - rewrite closing_nodes. unfold parents. rewrite fmap_delete. apply delete_subseteq.
  - by apply live_parents.
Qed.

(** The bookkeeping reservation, on its way to its destructor. *)
Definition released_book (k : Z) (s : Scope) (L : gmap Z Holder) : gmap Z Holder :=
  match scope_bookkeeping s with
  | Some r => <[k := HeldReservation r]> L
  | None => L
  end.

Lemma closing_world k :
  live w !! k = None -> world_ok (mk_World h1 (released_book k s (live w))).
Proof.
  intros Hk. set (P := parents (nodes (ledger (heap w)))).
  assert (forall k' hd, released_book k s (live w) !! k' = Some hd ->
            live_budget h1 (charge_budget (holder_charge hd)) /\ holder_ok hd) as HL.
  { assert (forall k' hd, live w !! k' = Some hd ->
              live_budget h1 (charge_budget (holder_charge hd)) /\ holder_ok hd) as HL0.
    { intros k' hd Hk'. split; [|by eapply wo_holders]. destruct Hb as (_ & _ & Hown).
      apply closing_live; [by eapply wo_budgets|by eapply Hown]. }
    intros k' hd. unfold released_book. destruct (scope_bookkeeping s) as [r|] eqn:Hr; [|apply HL0].
    intros [[_ <-]|[_ Hk']]%lookup_insert_Some; [|by eapply HL0].
    split; [by eapply closing_book|]. by apply (wo_books _ W _ _ _ Hs Hr). }
  assert (forall sel t i, total (mk_World h1 (released_book k s (live w))) sel t i
                          = total w sel t i) as Htot.
  { intros sel t i. unfold total. cbn [heap live]. fold P.
    rewrite (msum_delete (fun _ s => bookkeeping_at P sel t i s) (scopes (heap w)) _ s Hs).
    transitivity (holders_sum P (released_book k s (live w)) sel t i
                  + books_sum P (delete (scope_token b) (scopes (heap w))) sel t i).
    - f_equal; symmetry.
      + eapply holders_sum_same; [apply closing_lineages|]. intros; by eapply HL.
      + eapply books_sum_same; [apply closing_lineages|].
        intros t' s' r Hs' Hr.
        apply (lookup_delete_Some (scopes (heap w)) (scope_token b)) in Hs' as [_ Hs'].
        by eapply closing_book.
    - unfold released_book, bookkeeping_at at 1. destruct (scope_bookkeeping s) as [r|].
      + rewrite holders_sum_fresh by done. unfold holders_sum, books_sum. simpl. lia.
      + unfold holders_sum, books_sum. lia. }
  split; cbn [heap live].
  - apply closing_registry.
  - intros t n. rewrite closing_nodes. intros [_ Ht]%lookup_delete_Some. by eapply wo_counters.
  - intros t n i. rewrite closing_nodes, !Htot. intros [_ Ht]%lookup_delete_Some.
    by apply (wo_accounts _ W).
  - intros k' hd Hk'. by apply HL in Hk' as [? _].
  - intros k' hd Hk'. by apply HL in Hk' as [_ ?].
  - intros t s' r. unfold h1. cbn [scopes]. intros [_ Hs']%lookup_delete_Some. by eapply wo_books.
Qed.
End closing.

Lemma world_release w b :
  world_ok w -> callable w (OpReleaseScope b) -> preserves w (OpReleaseScope b).
Proof.
  intros W Hb.
  destruct (live_scope _ _ (wo_registry _ W) (proj1 Hb)) as (s & node & Hd & Hs & Hn & Hsh).
  destruct (fresh_key (live w)) as [k Hk].
  pose proof (closing_world w b s node W Hb Hs Hn Hsh k Hk) as W1.
  unfold preserves. cbn [exec]. unfold on_heap, scope_release, st_bind. rewrite Hd.
  unfold st_modify. unfold released_book in W1.
  pose proof (closing_within w b s node Hn) as Hlim.
  destruct (scope_bookkeeping s) as [r|]; [|by split_and!].
  destruct (world_dropped _ k (HeldReservation r) W1) as (h & Hdrop & W2 & Hlim');
    [apply lookup_insert_eq|].
  cbn [holder_drop heap live] in Hdrop, W2, Hlim'. rewrite Hdrop. split_and!; [|done|by auto].
  cbn [fst]. by rewrite delete_insert_id in W2.
Qed.

(** ** Every operation *)

Lemma exec_preserves w o : world_ok w -> callable w o -> preserves w o.
Proof.
  intros W Ho. destruct o.
  - apply world_child; [done|apply Ho|apply Ho|by left].
  - apply world_child; [done|apply Ho|apply Ho|by right].
  - by apply world_bookkeeping.
  - by apply world_reserve.
  - by apply world_grow.
  - by apply world_shrink.
  - by apply world_split.
  - by apply world_drop.
  - by apply world_account.
  - by apply world_account_try_grow.
  - by apply world_account_grow.
  - by apply world_account_shrink.
  - by apply world_into_account.
  - by apply world_into_slice.
  - by apply world_release.
Qed.
