(* ===== verification/BudgetClaims.v ===== *)
(** What the resource budget promises to a whole program: exact accounting, atomic admission,
    limits and control headroom, a consistent scope registry, exact lineage queries, and charged
    slices that stay inside their backing. *)

From S2P Require Import Prelude.
From S2P Require Import BudgetModel.
From S2P Require Import BudgetTheory.
From S2P Require Import BudgetRegistry.
From S2P Require Import BudgetWorld.
Local Open Scope Z_scope.
#[local] Opaque indices values.

(** ** Programs *)

(** Any sequence of calls, each one permitted by the language and by [ok]. *)
Inductive steps (ok : budget_op -> Prop) (w0 : World) : World -> Prop :=
| steps_refl : steps ok w0 w0
| steps_step w o : steps ok w0 w -> callable w o -> ok o -> steps ok w0 (exec o w).1.

Definition any_op (o : budget_op) : Prop := True.
Definition checked_op (o : budget_op) : Prop := overdraws o = false.

(** A world reached from a process root. *)
Definition program (ok : budget_op -> Prop) (w : World) : Prop :=
  exists root id policy h b,
    policy_u64 policy /\ try_process root id policy = Ok (h, b) /\ steps ok (mk_World h ∅) w.

Lemma process_world_ok root id policy h b :
  policy_u64 policy -> try_process root id policy = Ok (h, b) ->
  world_ok (mk_World h ∅) /\ within_limits h.
Proof.
  intros [Hl Hr] H. unfold try_process in H.
  destruct (policy_validate policy) as [p|e] eqn:Hv; [|done].
  apply policy_validate_Ok in Hv as [-> Hbelow]; [|done].
  case_bool_decide; [done|]. injection H as <- <-.
  assert (policy_ok policy) as Hp by done.
  set (owner := mk_ResourceOwner Process id).
  assert (forall t node, ({[0 := new_node owner None policy]} : gmap Z NodeState) !! t = Some node ->
            t = 0 /\ node = new_node owner None policy) as Hlook
    by (by intros t node [<- <-]%lookup_singleton_Some).
  split; [|intros t node i [-> ->]%Hlook; unfold new_node;
           cbn [node_used node_data_used node_policy]; rewrite vlookup_replicate;
           specialize (Hl i); specialize (Hbelow i); unfold in_uint in Hl; lia].
  split; cbn [heap live ledger scopes nodes].
  - unfold heap_registry_ok, shapes. cbn [heap_root ledger next nodes children child_counts scopes].
    rewrite map_fmap_singleton. set (s := node_shape _).
    assert (forall t s', ({[0 := s]} : gmap Z Shape) !! t = Some s' -> t = 0 /\ s' = s) as Hs
      by (by intros t s' [<- <-]%lookup_singleton_Some).
    assert (forall p, child_count {[0 := s]} p = 0) as Hzero.
    { intros p. apply child_count_zero. by intros t s' [-> ->]%Hs. }
    split.
    + unfold u64_max. lia.
    + intros t s' [-> ->]%Hs. lia.
    + by intros t s' [-> ->]%Hs.
    + by intros t s' [-> ->]%Hs.
    + intros p o t. rewrite lookup_empty. split; [done|]. by intros (s' & [-> ->]%Hs & ? & _).
    + intros p. by rewrite Hzero, lookup_empty.
    + intros p c. by rewrite lookup_empty.
    + intros p s' [-> ->]%Hs. rewrite Hzero. apply Z.mod_pos_bound. unfold u128_max. lia.
    + by rewrite map_fmap_singleton.
    + intros t s' b [<- <-]%lookup_singleton_Some. done.
  - intros t node [-> ->]%Hlook. split; unfold new_node;
      cbn [node_policy node_used node_data_used node_peak]; [done|..];
      intros i; rewrite ?vlookup_replicate; unfold u128_max; lia.
  - intros t node i [-> ->]%Hlook. unfold total. cbn [heap live scopes].
    rewrite !msum_empty, <- !insert_empty, !msum_insert_fresh, !msum_empty by apply lookup_empty.
    unfold new_node. cbn [node_used node_data_used]. by rewrite vlookup_replicate.
  - intros k hd. by rewrite lookup_empty.
  - intros k hd. by rewrite lookup_empty.
  - intros t s r [<- <-]%lookup_singleton_Some. done.
Qed.

Lemma program_world_ok ok w : program ok w -> world_ok w.
Proof.
  intros (root & id & policy & h & b & Hp & Hproc & Hs).
  apply process_world_ok in Hproc as [W _]; [|done].
  induction Hs as [|w o Hs IH Hc Ho]; [done|]. by apply exec_preserves.
Qed.

Lemma program_within w : program checked_op w -> within_limits (heap w).
Proof.
  intros (root & id & policy & h & b & Hp & Hproc & Hs).
  apply process_world_ok in Hproc as [W L]; [|done].
  assert (world_ok w /\ within_limits (heap w)) as [_ ?]; [|done].
  induction Hs as [|w o Hs IH Hc Ho]; [done|]. destruct IH as [W' L'].
  destruct (exec_preserves w o W' Hc) as (W'' & _ & Hlim).
  split; [done|]. apply Hlim; [|done]. unfold checked_op in Ho. by rewrite Ho.
Qed.
#[export] Hint Resolve program_world_ok : budget.

(** ** Lineage queries *)

Lemma is_descendant_loop_spec fuel l other cursor :
  parents_ok (parents (nodes l)) -> cursor_live (nodes l) cursor -> fuel_for fuel cursor ->
  is_descendant_loop fuel l other cursor
  = Ok (bool_decide (other ∈ lineage_from fuel (parents (nodes l)) cursor)).
Proof.
  intros HP. revert cursor. induction fuel as [|fuel IH]; intros [t|] Hl Hf.
  - specialize (Hf t eq_refl). lia.
  - done.
  - destruct (Hl t eq_refl) as [node Ht]. cbn [is_descendant_loop lineage_from].
    rewrite lookup_parents, Ht. cbn [mbind option_bind fmap option_fmap option_map id].
    destruct (Z.eqb_spec t other) as [->|Hne].
    + by rewrite bool_decide_eq_true_2 by left.
    + rewrite IH by eauto with budget. f_equal. apply bool_decide_ext. set_solver.
  - done.
Qed.

Lemma ancestor_owner_loop_spec fuel l kind cursor :
  parents_ok (parents (nodes l)) -> cursor_live (nodes l) cursor -> fuel_for fuel cursor ->
  exists r, ancestor_owner_loop fuel l kind cursor = Ok r
    /\ (forall o, r = Some o -> exists a node, a ∈ lineage_from fuel (parents (nodes l)) cursor
          /\ nodes l !! a = Some node /\ node_owner node = o /\ owner_kind o = kind)
    /\ (r = None -> forall a node, a ∈ lineage_from fuel (parents (nodes l)) cursor ->
          nodes l !! a = Some node -> owner_kind (node_owner node) <> kind).
Proof.
  intros HP. revert cursor. induction fuel as [|fuel IH]; intros [t|] Hl Hf.
  - specialize (Hf t eq_refl). lia.
  - exists None. split_and!; [done|done|]. by intros _ a node ?%not_elem_of_nil.
  - destruct (Hl t eq_refl) as [node Ht]. cbn [ancestor_owner_loop lineage_from].
    rewrite lookup_parents, Ht. cbn [mbind option_bind fmap option_fmap option_map id].
    case_bool_decide as Hk.
    + exists (Some (node_owner node)). split_and!; [done| |done].
      intros o [= <-]. exists t, node. split_and!; [left|done..].
    + destruct (IH (node_parent node)) as (r & -> & H1 & H2); [by eauto with budget..|].
      exists r. split_and!; [done|..].
      * intros o Ho. destruct (H1 o Ho) as (a & n & Ha & ?). exists a, n. split; [by right|done].
      * intros Hr a n [->|Ha]%elem_of_cons Hn; [by simplify_eq|by eapply H2].
  - exists None. split_and!; [done|done|]. by intros _ a node ?%not_elem_of_nil.
Qed.

(** A lineage has one scope of each kind down to its own. *)
Lemma lineage_length h t node :
  heap_registry_ok h -> nodes (ledger h) !! t = Some node ->
  length (lineage (parents (nodes (ledger h))) t) = S (scope_kind_code (owner_kind (node_owner node))).
Proof.
  intros R Hn. set (P := parents (nodes (ledger h))).
  assert (is_Some (P !! t)) as Hl by (apply live_parents; eauto).
  revert node Hn. pattern t. apply (lineage_ind P); [by apply heap_parents_ok| |done]. clear t Hl.
  intros t q Hq IH node Hn. rewrite (lineage_unfold P t q) by (done || by apply heap_parents_ok).
  assert (shapes h !! t = Some (node_shape node)) as Hs by (unfold shapes; by rewrite lookup_fmap, Hn).
  pose proof (reg_parents _ _ _ _ _ _ R t _ Hs) as H. unfold parent_shape_ok in H. simpl in H.
  unfold P in Hq. rewrite lookup_parents, Hn in Hq. injection Hq as Hq. rewrite Hq in H.
  destruct q as [p|]; cbn [length]; [|by rewrite H].
  destruct H as [_ (sp & Hsp & _ & Hk)]. unfold shapes in Hsp.
  apply lookup_fmap_Some in Hsp as (np & <- & Hnp).
  rewrite (IH p eq_refl) with (node := np); [|apply live_parents; eauto|done].
  simpl in Hk. destruct Hk as [[-> ->]|[-> ->]]; done.
Qed.

(** The scopes of a lineage have pairwise different kinds: a query by kind has one answer. *)
Lemma lineage_kind_unique h t node a b na nb :
  heap_registry_ok h -> nodes (ledger h) !! t = Some node ->
  a ∈ lineage (parents (nodes (ledger h))) t -> b ∈ lineage (parents (nodes (ledger h))) t ->
  nodes (ledger h) !! a = Some na -> nodes (ledger h) !! b = Some nb ->
  owner_kind (node_owner na) = owner_kind (node_owner nb) -> a = b.
Proof.
  intros R Hn. set (P := parents (nodes (ledger h))).
  assert (forall x nx, nodes (ledger h) !! x = Some nx -> is_Some (P !! x)) as Hlive
    by (intros; apply live_parents; eauto).
  pose proof (heap_parents_ok h R) as HP. fold P in HP.
  assert (is_Some (P !! t)) as Hl by eauto. revert node Hn a b na nb.
  pattern t. apply (lineage_ind P); [done| |done]. clear t Hl.
  intros t q Hq IH node Hn a b na nb Ha Hb Hna Hnb Hk.
  assert (forall x nx, nodes (ledger h) !! x = Some nx ->
            x ∈ match q with Some p => lineage P p | None => [] end ->
            owner_kind (node_owner nx) <> owner_kind (node_owner node)) as Hne.
  { intros x nx Hx Hin Heq. pose proof (lineage_length h t node R Hn) as H1.
    pose proof (lineage_length h x nx R Hx) as H2. fold P in H1, H2.
    rewrite Heq, <- H1 in H2. rewrite (lineage_unfold P t q) in H2 by done.
    destruct q as [p|]; [|by apply not_elem_of_nil in Hin]. cbn [length] in H2.
    enough (length (lineage P x) <= length (lineage P p))%nat by lia.
    apply submseteq_length, NoDup_submseteq; [apply lineage_NoDup; eauto|].
    intros y. apply lineage_trans; [done| |done]. by apply (HP _ _ Hq). }
  rewrite (lineage_unfold P t q) in Ha, Hb by done.
  apply elem_of_cons in Ha as [->|Ha]; apply elem_of_cons in Hb as [->|Hb]; [done|..].
  - simplify_eq. by destruct (Hne b nb Hnb Hb).
  - simplify_eq. by destruct (Hne a na Hna Ha).
  - destruct q as [p|]; [|by apply not_elem_of_nil in Ha].
    assert (is_Some (P !! p)) as Hp by (by apply (HP _ _ Hq)).
    pose proof Hp as Hp'. apply live_parents in Hp' as [np Hnp]. by eapply IH.
Qed.

(** ** The promises *)

(** C8. In every world a program can reach, each scope's counters are exactly the sum of the live
    reservations, native accounts and bookkeeping reservations at or below it (all of them for
    [used], the data ones for [data_used]), and no call panics, follows a dangling reference or
    walks a lineage forever: it returns a value or a documented error. *)
Theorem ledger_counts_exactly_the_live_charges w :
  program any_op w ->
  (forall t node i, nodes (ledger (heap w)) !! t = Some node ->
     node_used node !!! i = total w any_class t i
     /\ node_data_used node !!! i = total w data_class t i
     /\ node_used node !!! i <= node_peak node !!! i <= u128_max)
  /\ (forall o, callable w o -> settled (exec o w).2).
Proof.
  intros Hw. pose proof (program_world_ok _ _ Hw) as W. split.
  - intros t node i Hn. destruct (wo_accounts _ W t node i Hn) as [H1 H2].
    pose proof (wo_counters _ W t node Hn) as Hc.
    split_and!; [done|done|apply (node_used_le_peak _ Hc)|apply (node_peak_u128 _ Hc)].
  - intros o Ho. by apply exec_preserves.
Qed.

(** C9. [try_reserve] succeeds exactly when the amounts fit at the scope and at every ancestor; it
    then charges all of them. Otherwise nothing changes at all, and the error is that of the
    nearest ancestor that does not fit, in its first dimension that does not fit. *)
Theorem admission_is_atomic_and_exact w b class a :
  program any_op w -> live_budget (heap w) b -> amounts_ok a ->
  (fits_lineage (heap w) b class (values a)
   /\ try_reserve b class a (heap w)
      = (update_heap (heap w) b (charge_node class (values a)),
         Ok (mk_ResourceReservation b class a)))
  \/ (~ fits_lineage (heap w) b class (values a)
      /\ exists e, try_reserve b class a (heap w) = (heap w, Err (Rejected e))
           /\ first_limit class (values a) (nodes (ledger (heap w))) (lineage_of (heap w) b) e).
Proof.
  intros Hw Hb Ha. pose proof (program_world_ok _ _ Hw) as W. unfold try_reserve, st_bind.
  destruct (add_cases (heap w) b class (values a)) as [[-> Hfit]|(e & -> & He)];
    [apply W|apply W|done|by auto with budget|by left|right].
  split; [|by eauto]. eapply first_limit_not_fits; eauto; apply W.
Qed.

(** C10. As long as no native account grows without admission, every scope stays within every one
    of its limits, and its data work stays out of its control reserve. *)
Theorem limits_hold_without_native_overdraft w t node i :
  program checked_op w -> nodes (ledger (heap w)) !! t = Some node ->
  node_used node !!! i <= limit_of node i
  /\ node_data_used node !!! i <= limit_of node i - reserve_of node i.
Proof. intros Hw. by apply program_within. Qed.

(** Control headroom: no amount of data work can refuse a control reservation that fits into
    what is left of the control reserve of the scope and of each ancestor. *)
Theorem control_headroom_survives_data_work w b a :
  program checked_op w -> live_budget (heap w) b -> amounts_ok a ->
  (forall t node i, t ∈ lineage_of (heap w) b -> nodes (ledger (heap w)) !! t = Some node ->
     (node_used node !!! i - node_data_used node !!! i) + values a !!! i <= reserve_of node i) ->
  try_reserve b Control a (heap w)
  = (update_heap (heap w) b (charge_node Control (values a)),
     Ok (mk_ResourceReservation b Control a)).
Proof.
  intros Hw Hb Ha Hroom. pose proof (program_world_ok _ _ Hw) as W. unfold try_reserve, st_bind.
  destruct (add_cases (heap w) b Control (values a)) as [[-> _]|(e & _ & He)];
    [apply W|apply W|done|by auto with budget|done|].
  apply first_limit_not_fits in He; [|apply W|apply W|done]. destruct He.
  intros t node Ht Hn i. split; [|done]. specialize (Hroom t node i Ht Hn).
  destruct (program_within w Hw t node i Hn). lia.
Qed.

(** The registry is a bounded forest: a live identity is unique below its parent, a scope's
    limits never exceed its parent's, its parent is of the kind above, its lineage has at most
    three scopes, and its children are counted exactly and never exceed its capacity. *)
Theorem registry_is_a_bounded_forest w t node :
  program any_op w -> nodes (ledger (heap w)) !! t = Some node ->
  (forall p, node_parent node = Some p ->
     (exists np, nodes (ledger (heap w)) !! p = Some np
        /\ limits_below (node_policy node) (node_policy np)
        /\ kind_below (owner_kind (node_owner node)) (owner_kind (node_owner np)))
     /\ forall t' node', nodes (ledger (heap w)) !! t' = Some node' ->
          node_parent node' = Some p -> node_owner node' = node_owner node -> t' = t)
  /\ length (lineage_of (heap w) (mk_ResourceBudget (heap_root (heap w)) t))
     = S (scope_kind_code (owner_kind (node_owner node)))
  /\ default 0 (child_counts (ledger (heap w)) !! t) = child_count (shapes (heap w)) t
  /\ child_count (shapes (heap w)) t <= child_scope_capacity (node_policy node).
Proof.
  intros Hw Hn. pose proof (wo_registry _ (program_world_ok _ _ Hw)) as R.
  assert (forall x nx, nodes (ledger (heap w)) !! x = Some nx ->
            shapes (heap w) !! x = Some (node_shape nx)) as Hsh
    by (intros x nx Hx; unfold shapes; by rewrite lookup_fmap, Hx).
  split_and!.
  - intros p Hp. split.
    + pose proof (reg_parents _ _ _ _ _ _ R t _ (Hsh _ _ Hn)) as H. unfold parent_shape_ok in H.
      simpl in H. rewrite Hp in H. destruct H as [_ (sp & Hsp & H)]. unfold shapes in Hsp.
      apply lookup_fmap_Some in Hsp as (np & <- & Hnp). eauto.
    + intros t' node' Hn' Hp' Ho'. pose proof (reg_children _ _ _ _ _ _ R p (node_owner node)) as HC.
      pose proof (proj2 (HC t) (ex_intro _ _ (conj (Hsh _ _ Hn) (conj Hp eq_refl)))) as H1.
      pose proof (proj2 (HC t') (ex_intro _ _ (conj (Hsh _ _ Hn') (conj Hp' Ho')))) as H2.
      congruence.
  - by apply lineage_length.
  - apply (reg_counts _ _ _ _ _ _ R).
  - apply (reg_capacity _ _ _ _ _ _ R t _ (Hsh _ _ Hn)).
Qed.

(** Lineage queries are exact: [is_descendant_of] (and with it [validate_reservation]) holds
    exactly for a scope of the same root in whose lineage the other scope lies, and
    [ancestor_owner] returns the owner of the one ancestor of the given kind, if there is one. *)
Theorem lineage_queries_are_exact w b other kind :
  program any_op w -> live_budget (heap w) b ->
  is_descendant_of b other (heap w)
  = (heap w, Ok (bool_decide (budget_root b = budget_root other
                              /\ scope_token other ∈ lineage_of (heap w) b)))
  /\ exists r, ancestor_owner b kind (heap w) = (heap w, Ok r)
     /\ forall o, r = Some o <->
          exists a node, a ∈ lineage_of (heap w) b /\ nodes (ledger (heap w)) !! a = Some node
                         /\ node_owner node = o /\ owner_kind o = kind.
Proof.
  intros Hw Hb. pose proof (wo_registry _ (program_world_ok _ _ Hw)) as R.
  assert (cursor_live (nodes (ledger (heap w))) (Some (scope_token b))) as Hc
    by (intros t [= <-]; apply Hb).
  split.
  - unfold is_descendant_of, same_root. destruct (Z.eqb_spec (budget_root b) (budget_root other)).
    + unfold st_bind, st_get, st_lift. cbn [negb].
      rewrite is_descendant_loop_spec by auto with budget.
      do 2 f_equal. apply bool_decide_ext. unfold lineage_of, lineage. tauto.
    + simpl. unfold st_ret. by rewrite bool_decide_eq_false_2 by tauto.
  - unfold ancestor_owner, st_bind.
    destruct (live_scope _ _ R Hb) as (s & node & -> & _ & Hn & _). unfold st_get, st_lift.
    destruct (ancestor_owner_loop_spec (lineage_fuel (scope_token b)) (ledger (heap w)) kind
                (Some (scope_token b))) as (r & -> & H1 & H2); [by auto with budget..|].
    exists r. split; [done|]. intros o. split; [apply H1|].
    intros (a & na & Ha & Hna & Ho & Hk). destruct r as [o'|].
    + destruct (H1 o' eq_refl) as (a' & na' & Ha' & Hna' & Ho' & Hk').
      assert (a' = a) as ->; [|congruence].
      apply (lineage_kind_unique (heap w) (scope_token b) node _ _ na' na); try done. congruence.
    + destruct (H2 eq_refl a na Ha Hna). congruence.
Qed.

(** [slice] of a charged slice is exactly the requested sub-range of the view it is taken
    from, over the same backing and the same reservation; it is refused exactly when the range is
    reversed or leaves that view, and it never panics. *)
Theorem slice_is_the_requested_subrange {T} (s : ChargedSlice T) (v : list T) start stop :
  slice_view s = Some v -> 0 <= range_start s -> 0 <= start -> 0 <= stop ->
  Z.of_nat (length (vec_elements (slice_backing s))) <= u64_max ->
  match slice s start stop with
  | Ok s' =>
      start <= stop <= Z.of_nat (length v)
      /\ slice_view s' = Some (take (Z.to_nat (stop - start)) (drop (Z.to_nat start) v))
      /\ slice_backing s' = slice_backing s /\ slice_reservation s' = slice_reservation s
  | Err f => f = Rejected InvalidSlice /\ ~ (start <= stop <= Z.of_nat (length v))
  end.
Proof.
  intros Hv H0 Hstart Hstop Hmax. unfold slice.
  destruct (Z.ltb_spec stop start); [split; [done|lia]|]. rewrite Hv. cbn [ok_or].
  destruct (Z.ltb_spec (Z.of_nat (length v)) stop); [split; [done|lia]|].
  unfold slice_view in Hv. destruct (_ && _)%bool eqn:E; [|done]. injection Hv as <-. zify_bool.
  rewrite length_take, length_drop in *.
  rewrite !wrap64_small by (unfold in_uint; lia).
  split_and!; try done; [lia..|]. unfold slice_view.
  cbn [range_start range_end slice_backing]. rewrite (proj2 (andb_true_iff _ _)) by lia.
  f_equal. rewrite skipn_firstn_comm, drop_drop, take_take. f_equal; [lia|].
  f_equal. lia.
Qed.
