(* ===== verification/BudgetWitness.v ===== *)
(** A concrete program over a budget: a process root, one workspace, one data reservation. *)

From S2P Require Import Prelude.
From S2P Require Import BudgetModel.
From S2P Require Import BudgetTheory.
From S2P Require Import BudgetRegistry.
From S2P Require Import BudgetWorld.
From S2P Require Import BudgetClaims.
Local Open Scope Z_scope.

Definition amounts_okb (a : ResourceAmounts) : bool :=
  forallb (fun i => (0 <=? values a !!! i) && (values a !!! i <=? u64_max))%bool indices.

Lemma amounts_okb_true a : amounts_okb a = true -> amounts_ok a.
Proof.
  intros H i. unfold amounts_okb in H. rewrite forallb_forall in H.
  specialize (H i (proj1 (list_elem_of_In _ _) (indices_all i))). zify_bool. done.
Qed.

Lemma all_dimensions (f g : fin DIMENSIONS -> Z) :
  forallb (fun i => f i <=? g i) indices = true -> forall i, f i <= g i.
Proof.
  intros H i. rewrite forallb_forall in H. apply Z.leb_le, H, list_elem_of_In, indices_all.
Qed.

Lemma steps_weaken ok1 ok2 w0 w :
  (forall o, ok1 o -> ok2 o) -> steps ok1 w0 w -> steps ok2 w0 w.
Proof. intros Hok. induction 1; econstructor; eauto. Qed.

Lemma program_weaken w : program checked_op w -> program any_op w.
Proof.
  intros (root & id & policy & h & b & ? & ? & Hs). exists root, id, policy, h, b.
  split_and!; [done|done|]. by eapply steps_weaken; [|done].
Qed.

Module BudgetSample.
Definition amounts_of (n : Z) : ResourceAmounts := mk_ResourceAmounts n n n n n n n n.
Definition policy : ResourceBudgetPolicy := mk_ResourceBudgetPolicy (amounts_of 1000) (amounts_of 100).
Definition process_id : byte_array 16 := repeat_byte 16 x01.
Definition workspace_id : byte_array 16 := repeat_byte 16 x02.
Definition process : ResourceBudget := mk_ResourceBudget 7 0.
Definition workspace : ResourceBudget := mk_ResourceBudget 7 1.

Definition w0 : World :=
  match try_process 7 process_id policy with
  | Ok (h, _) => mk_World h ∅
  | Err _ => mk_World (mk_Heap 0 (mk_Ledger 0 ∅ ∅ ∅) ∅) ∅
  end.
Definition op1 : budget_op := OpWorkspace process workspace_id policy.
Definition w1 : World := (exec op1 w0).1.
Definition op2 : budget_op := OpReserve 1 workspace Data (amounts_of 850).
Definition w2 : World := (exec op2 w1).1.
End BudgetSample.

Lemma sample_live_budget :
  live_budget (heap BudgetSample.w2) BudgetSample.workspace.
Proof. split; [vm_compute; reflexivity|]. eexists. vm_compute. reflexivity. Qed.

Lemma sample_program : program checked_op BudgetSample.w2.
Proof.
  exists 7, BudgetSample.process_id, BudgetSample.policy, (heap BudgetSample.w0), BudgetSample.process.
  split_and!.
  - split; apply amounts_okb_true; vm_compute; reflexivity.
  - vm_compute. reflexivity.
  - change (mk_World (heap BudgetSample.w0) ∅) with BudgetSample.w0.
    apply (steps_step _ _ BudgetSample.w1 BudgetSample.op2).
    + apply (steps_step _ _ BudgetSample.w0 BudgetSample.op1); [constructor| |done].
      split.
      * split; [vm_compute; reflexivity|]. eexists. vm_compute. reflexivity.
      * split; apply amounts_okb_true; vm_compute; reflexivity.
    + split_and!.
      * split; [vm_compute; reflexivity|]. eexists. vm_compute. reflexivity.
      * apply amounts_okb_true. vm_compute. reflexivity.
      * vm_compute. reflexivity.
    + done.
Qed.

Lemma ledger_counts_exactly_the_live_charges_witness :
  exists node, nodes (ledger (heap BudgetSample.w2)) !! 0 = Some node
    /\ node_used node !!! 0%fin = 850 /\ total BudgetSample.w2 any_class 0 0%fin = 850.
Proof.
  destruct (ledger_counts_exactly_the_live_charges BudgetSample.w2) as [H _].
  { apply program_weaken, sample_program. }
  destruct (nodes (ledger (heap BudgetSample.w2)) !! 0) as [node|] eqn:E;
    [|vm_compute in E; discriminate].
  exists node. destruct (H 0 node 0%fin E) as (H1 & _). rewrite <- H1.
  vm_compute in E. injection E as <-. auto.
Defined.

Lemma admission_is_atomic_and_exact_witness :
  exists e, try_reserve BudgetSample.workspace Data (BudgetSample.amounts_of 51)
              (heap BudgetSample.w2) = (heap BudgetSample.w2, Err (Rejected e)).
Proof.
  destruct (admission_is_atomic_and_exact BudgetSample.w2 BudgetSample.workspace Data
              (BudgetSample.amounts_of 51)) as [[_ H]|[_ (e & H & _)]].
  - apply program_weaken, sample_program.
  - apply sample_live_budget.
  - apply amounts_okb_true. vm_compute. reflexivity.
  - assert (is_ok (try_reserve BudgetSample.workspace Data (BudgetSample.amounts_of 51)
                     (heap BudgetSample.w2)).2 = false) as Hf by (vm_compute; reflexivity).
    rewrite H in Hf. discriminate Hf.
  - exists e. exact H.
Defined.

Lemma limits_hold_without_native_overdraft_witness :
  exists node, nodes (ledger (heap BudgetSample.w2)) !! 1 = Some node
    /\ node_data_used node !!! 0%fin <= limit_of node 0%fin - reserve_of node 0%fin.
Proof.
  destruct (nodes (ledger (heap BudgetSample.w2)) !! 1) as [node|] eqn:E;
    [|vm_compute in E; discriminate].
  exists node. split; [done|].
  exact (proj2 (limits_hold_without_native_overdraft BudgetSample.w2 1 node 0%fin sample_program E)).
Defined.

Lemma control_headroom_survives_data_work_witness :
  is_ok (try_reserve BudgetSample.workspace Control (BudgetSample.amounts_of 100)
           (heap BudgetSample.w2)).2 = true.
Proof.
  rewrite (control_headroom_survives_data_work BudgetSample.w2 BudgetSample.workspace
             (BudgetSample.amounts_of 100)).
  - reflexivity.
  - apply sample_program.
  - apply sample_live_budget.
  - apply amounts_okb_true. vm_compute. reflexivity.
  - intros t node i Ht Hn.
    assert (lineage_of (heap BudgetSample.w2) BudgetSample.workspace = [1; 0]) as HL
      by (vm_compute; reflexivity).
    rewrite HL, !elem_of_cons, elem_of_nil in Ht.
    destruct Ht as [-> |[-> |[]]]; vm_compute in Hn; injection Hn as <-;
      revert i; apply all_dimensions; vm_compute; reflexivity.
Defined.

Lemma registry_is_a_bounded_forest_witness :
  length (lineage_of (heap BudgetSample.w2) BudgetSample.workspace) = 2%nat
  /\ default 0 (child_counts (ledger (heap BudgetSample.w2)) !! 0) = 1.
Proof.
  destruct (nodes (ledger (heap BudgetSample.w2)) !! 1) as [n1|] eqn:E1;
    [|vm_compute in E1; discriminate].
  destruct (registry_is_a_bounded_forest BudgetSample.w2 1 n1) as (_ & H1 & _ & _);
    [apply program_weaken, sample_program|done|].
  split; [|vm_compute; reflexivity].
  transitivity (S (scope_kind_code (owner_kind (node_owner n1)))); [exact H1|].
  vm_compute in E1. injection E1 as <-. reflexivity.
Defined.

Lemma lineage_queries_are_exact_witness :
  is_descendant_of BudgetSample.workspace BudgetSample.process (heap BudgetSample.w2)
  = (heap BudgetSample.w2, Ok true).
Proof.
  destruct (lineage_queries_are_exact BudgetSample.w2 BudgetSample.workspace BudgetSample.process
              Process) as [H _];
    [apply program_weaken, sample_program|apply sample_live_budget|].
  rewrite H. do 2 f_equal.
Defined.

Definition sample_slice : ChargedSlice nat :=
  mk_ChargedSlice (mk_Vec [10; 11; 12; 13; 14]%nat 8)
    (mk_ResourceReservation BudgetSample.workspace Data (BudgetSample.amounts_of 64)) 1 4.

Lemma slice_is_the_requested_subrange_witness :
  match slice sample_slice 1 3 with
  | Ok s' => slice_view s' = Some [12; 13]%nat
  | Err _ => False
  end.
Proof.
  pose proof (slice_is_the_requested_subrange sample_slice [11; 12; 13]%nat 1 3) as H.
  assert (is_ok (slice sample_slice 1 3) = true) as Hok by (vm_compute; reflexivity).
  destruct (slice sample_slice 1 3) as [s'|f]; [|discriminate Hok].
  apply H; vm_compute; (reflexivity || discriminate).
Defined.
