(* ===== verification/SessionModel.v ===== *)
(** The launch-grant and session authority of src/src/session_authority.rs.

    The mutex-protected [AuthorityState] is the state; every method body runs under the lock, so
    each is one step. What the code takes from outside is an argument: the BLAKE3 functions, the
    entropy source's answer, and the start identity of a process as the kernel reports it. A
    [BTreeSet] whose order the code observes is the list of its elements in ascending order; one
    whose members it only looks up is any list of them. *)

From S2P Require Import Prelude.
From S2P Require Import Encoding.
From S2P Require Import CommandModel.
From Stdlib Require Strings.String.
Local Open Scope Z_scope.

(** ** Identities, revisions and errors *)

Definition MAXIMUM_CHALLENGE_TTL_SECONDS : Z := 60.

Inductive SessionAuthorityError :=
| InvalidAuthority | InvalidPolicyIdentity | Entropy | InvalidGrant | Capacity | Replay
| UnknownGrant | GrantBinding | GenerationMismatch | StaleRevocation | StalePolicyRevision
| ProfileUnavailable | InvalidSession | SessionBinding | OperationDenied.

Definition LaunchPolicyId : Type := string.
Definition LaunchPolicyRevision : Type := Z.
Definition RevocationGeneration : Type := Z.

#[export] Instance LaunchPolicyId_eq_dec : EqDecision LaunchPolicyId.
Proof. unfold LaunchPolicyId. apply _. Defined.
#[export] Instance LaunchPolicyId_countable : Countable LaunchPolicyId.
Proof. unfold LaunchPolicyId. apply _. Defined.

Definition is_ascii_alphanumeric (c : Ascii.ascii) : bool :=
  ((48 <=? code c) && (code c <=? 57)
   || (65 <=? code c) && (code c <=? 90)
   || (97 <=? code c) && (code c <=? 122))%bool.
(** [matches!(byte, b'.' | b'_' | b'-' | b':')]. *)
Definition is_policy_punctuation (c : Ascii.ascii) : bool :=
  ((code c =? 46) || (code c =? 95) || (code c =? 45) || (code c =? 58))%bool.

Definition LaunchPolicyId_try_new (value : string) : result LaunchPolicyId SessionAuthorityError :=
  if (is_empty value || (128 <? len value)
      || negb (forallb (fun c => is_ascii_alphanumeric c || is_policy_punctuation c)
                 (String.list_ascii_of_string value)))%bool
  then Err InvalidPolicyIdentity
  else Ok value.

Definition LaunchPolicyId_is_valid (id : LaunchPolicyId) : bool := is_ok (LaunchPolicyId_try_new id).

Definition LaunchPolicyRevision_new (value : Z) : result LaunchPolicyRevision SessionAuthorityError :=
  if value =? 0 then Err InvalidPolicyIdentity else Ok value.
Definition RevocationGeneration_new (value : Z) : result RevocationGeneration SessionAuthorityError :=
  if value =? 0 then Err InvalidPolicyIdentity else Ok value.

Inductive SessionOperation :=
| Status | Reference | Validate | Start | Watch | Cancel | ReadResource | ReleaseResource.

#[export] Instance SessionOperation_eq_dec : EqDecision SessionOperation.
Proof. solve_decision. Defined.
#[export] Instance SessionAuthorityError_eq_dec : EqDecision SessionAuthorityError.
Proof. solve_decision. Defined.

(** ** Grants and sessions *)

Record RegisteredLaunchGrant := mk_RegisteredLaunchGrant {
  grant_id : string;
  grant_digest : byte_array 32;
  policy_id : LaunchPolicyId;
  policy_revision : LaunchPolicyRevision;
  revocation_generation : RevocationGeneration;
  principal_id : byte_array 16;
  workspace_ids : list (byte_array 16);
  operations : list SessionOperation;
  semantic_profiles : list string;
  maximum_resource_chunk_bytes : Z;
  maximum_result_bytes : Z;
  maximum_result_pages : Z;
  maximum_request_state_ttl_seconds : Z;
  issued_at_unix_ms : Z;
  expires_at_unix_ms : Z;
  daemon_generation : Z;
  supervisor_generation : Z;
  peer_uid : Z;
  peer_pid : option Z;
  peer_start_identity : option string
}.

(** [text.is_empty() || text.len() > 128 || !text.is_ascii()]. *)
Definition bad_text (s : string) : bool := (is_empty s || (128 <? len s) || negb (is_ascii s))%bool.

Definition grant_validate (g : RegisteredLaunchGrant) : result unit SessionAuthorityError :=
  if (is_empty (grant_id g)
      || bool_decide (grant_digest g = zero_bytes 32)
      || negb (LaunchPolicyId_is_valid (policy_id g))
      || (policy_revision g =? 0)
      || (revocation_generation g =? 0)
      || bool_decide (principal_id g = zero_bytes 16)
      || bool_decide (workspace_ids g = [])
      || bool_decide (operations g = [])
      || bool_decide (semantic_profiles g = [])
      || (maximum_resource_chunk_bytes g =? 0)
      || (maximum_result_bytes g =? 0)
      || (maximum_result_pages g =? 0)
      || (maximum_request_state_ttl_seconds g =? 0)
      || (MAXIMUM_CHALLENGE_TTL_SECONDS <? maximum_request_state_ttl_seconds g)
      || (issued_at_unix_ms g <=? 0)
      || (expires_at_unix_ms g <=? issued_at_unix_ms g)
      || (daemon_generation g =? 0)
      || (supervisor_generation g =? 0)
      || bool_decide (zero_bytes 16 ∈ workspace_ids g)
      || match peer_start_identity g with Some identity => bad_text identity | None => false end
      || existsb bad_text (semantic_profiles g))%bool
  then Err InvalidGrant
  else Ok tt.

Record AuthorizedSession := mk_AuthorizedSession {
  s_token : byte_array 32;
  s_session_id : string;
  s_session_generation : Z;
  s_principal_id : PrincipalId;
  s_workspace_ids : list WorkspaceId;
  s_operations : list SessionOperation;
  s_semantic_profile : string;
  s_maximum_resource_chunk_bytes : Z;
  s_maximum_result_bytes : Z;
  s_maximum_result_pages : Z;
  s_maximum_request_state_ttl_seconds : Z;
  s_expires_at_unix_ms : Z;
  s_daemon_generation : Z;
  s_supervisor_generation : Z;
  s_policy_id : LaunchPolicyId;
  s_policy_revision : LaunchPolicyRevision;
  s_revocation_generation : RevocationGeneration
}.

Definition permits (s : AuthorizedSession) (operation : SessionOperation) : bool :=
  bool_decide (operation ∈ s_operations s).
Definition permits_workspace (s : AuthorizedSession) (workspace : WorkspaceId) : bool :=
  bool_decide (workspace ∈ s_workspace_ids s).

Record SessionRecord := mk_SessionRecord {
  r_session : AuthorizedSession;
  r_grant_id : string;
  r_grant_digest : byte_array 32;
  r_peer_uid : Z;
  r_peer_pid : option Z;
  r_peer_start_identity : option string
}.

Record PolicyAuthorityState := mk_PolicyAuthorityState {
  latest_revision : LaunchPolicyRevision;
  p_revocation_generation : RevocationGeneration
}.

Record AuthorityState := mk_AuthorityState {
  st_daemon_generation : Z;
  st_supervisor_generation : Z;
  next_session_generation : Z;
  grants : gmap (byte_array 32) RegisteredLaunchGrant;
  sessions : gmap (byte_array 32) SessionRecord;
  policies : gmap LaunchPolicyId PolicyAuthorityState;
  principal_revocations : gmap PrincipalId RevocationGeneration
}.

(** The immutable part of the authority; its state is passed explicitly. *)
Record LaunchGrantAuthority := mk_LaunchGrantAuthority {
  session_secret : byte_array 32;
  maximum_grants : Z;
  maximum_sessions : Z
}.

(** [VerifiedPeerIdentity]: the kernel-supplied credentials of the connected peer. *)
Record VerifiedPeerIdentity := mk_VerifiedPeerIdentity {
  uid : Z;
  gid : Z;
  pid : option Z
}.

Abbreviation authority_op := (stm AuthorityState SessionAuthorityError).

Definition set_grants (st : AuthorityState) g : AuthorityState :=
  mk_AuthorityState (st_daemon_generation st) (st_supervisor_generation st)
    (next_session_generation st) g (sessions st) (policies st) (principal_revocations st).
Definition set_sessions (st : AuthorityState) s : AuthorityState :=
  mk_AuthorityState (st_daemon_generation st) (st_supervisor_generation st)
    (next_session_generation st) (grants st) s (policies st) (principal_revocations st).
Definition set_next_session_generation (st : AuthorityState) n : AuthorityState :=
  mk_AuthorityState (st_daemon_generation st) (st_supervisor_generation st)
    n (grants st) (sessions st) (policies st) (principal_revocations st).

(** ** Construction and the supervisor's operations *)

(** [LaunchGrantAuthority::try_new]; [first] and [second] are the two entropy reads. *)
Definition authority_try_new (daemon supervisor max_grants max_sessions : Z)
    (first second : option (byte_array 16))
  : result (LaunchGrantAuthority * AuthorityState) SessionAuthorityError :=
  if ((daemon =? 0) || (supervisor =? 0) || (max_grants =? 0) || (max_sessions =? 0))%bool
  then Err InvalidAuthority else
  let? first := ok_or first Entropy in
  let? second := ok_or second Entropy in
  let secret := ByteArray (ba_vec first +++ ba_vec second) in
  Ok (mk_LaunchGrantAuthority secret max_grants max_sessions,
      mk_AuthorityState daemon supervisor 1 ∅ ∅ ∅ ∅).

Definition register (self : LaunchGrantAuthority) (grant : RegisteredLaunchGrant)
  : authority_op unit :=
  do! _ <- st_lift (grant_validate grant) ;
  do! st <- st_get ;
  if (negb (daemon_generation grant =? st_daemon_generation st)
      || negb (supervisor_generation grant =? st_supervisor_generation st))%bool
  then st_err GenerationMismatch else
  if maximum_grants self <=? Z.of_nat (size (grants st)) then st_err Capacity else
  if bool_decide (is_Some (grants st !! grant_digest grant)) then st_err Replay else
  let current := policies st !! policy_id grant in
  if (match current with
      | Some authority => policy_revision grant <? latest_revision authority
      | None => false
      end)
  then st_err StalePolicyRevision else
  if (match current with
      | Some authority => revocation_generation grant <? p_revocation_generation authority
      | None => false
      end)
  then st_err StaleRevocation else
  let grants' :=
    if (match current with
        | Some authority =>
            ((latest_revision authority <? policy_revision grant)
             || (p_revocation_generation authority <? revocation_generation grant))%bool
        | None => false
        end)
    then retain (fun existing =>
           negb (bool_decide (policy_id existing = policy_id grant))
           || ((policy_revision grant <=? policy_revision existing)
               && (revocation_generation grant <=? revocation_generation existing)))%bool (grants st)
    else grants st in
  let latest :=
    match current with
    | Some authority => Z.max (latest_revision authority) (policy_revision grant)
    | None => policy_revision grant
    end in
  st_put (mk_AuthorityState (st_daemon_generation st) (st_supervisor_generation st)
            (next_session_generation st)
            (<[grant_digest grant := grant]> grants') (sessions st)
            (<[policy_id grant := mk_PolicyAuthorityState latest (revocation_generation grant)]>
               (policies st))
            (principal_revocations st)).

Definition revoke_principal (principal : PrincipalId) (generation : RevocationGeneration)
  : authority_op unit :=
  do! st <- st_get ;
  if (match principal_revocations st !! principal with
      | Some current => generation <=? current
      | None => false
      end)
  then st_err StaleRevocation else
  st_put (mk_AuthorityState (st_daemon_generation st) (st_supervisor_generation st)
            (next_session_generation st)
            (retain (fun grant => negb (bool_decide (principal_id grant = as_bytes principal)))
               (grants st))
            (retain (fun record => negb (bool_decide (s_principal_id (r_session record) = principal)))
               (sessions st))
            (policies st)
            (<[principal := generation]> (principal_revocations st))).

(** The launch a revocation names: grant id, grant digest, adapter pid and start identity. *)
Definition grant_binding (grant : RegisteredLaunchGrant) (digest : byte_array 32) (adapter_pid : Z)
    (start_identity : option string) : bool :=
  (bool_decide (grant_digest grant = digest)
   && bool_decide (peer_pid grant = Some adapter_pid)
   && bool_decide (peer_start_identity grant = start_identity))%bool.
Definition record_binding (record : SessionRecord) (digest : byte_array 32) (adapter_pid : Z)
    (start_identity : option string) : bool :=
  (bool_decide (r_grant_digest record = digest)
   && bool_decide (r_peer_pid record = Some adapter_pid)
   && bool_decide (r_peer_start_identity record = start_identity))%bool.

Definition revoke_launch (gid : string) (digest : byte_array 32) (adapter_pid : Z)
    (start_identity : option string) : authority_op unit :=
  if (is_empty gid || bool_decide (digest = zero_bytes 32) || (adapter_pid <=? 1))%bool
  then st_err InvalidGrant else
  do! st <- st_get ;
  let exact_grant :=
    match grants st !! digest with
    | Some grant =>
        (bool_decide (grant_id grant = gid)
         && bool_decide (peer_pid grant = Some adapter_pid)
         && bool_decide (peer_start_identity grant = start_identity))%bool
    | None => false
    end in
  let exact_record record :=
    (bool_decide (r_grant_id record = gid) && record_binding record digest adapter_pid start_identity)%bool in
  let exact_session := any_value exact_record (sessions st) in
  let substituted :=
    (any_value (fun grant => bool_decide (grant_id grant = gid)
                 && negb (grant_binding grant digest adapter_pid start_identity)) (grants st)
     || any_value (fun record => bool_decide (r_grant_id record = gid)
                 && negb (record_binding record digest adapter_pid start_identity)) (sessions st))%bool in
  if substituted then st_err GrantBinding else
  if (negb exact_grant && negb exact_session)%bool then st_err UnknownGrant else
  do! _ <- (if exact_grant then st_put (set_grants st (delete digest (grants st))) else st_ret tt) ;
  st_modify (fun st => set_sessions st (retain (fun record => negb (exact_record record)) (sessions st))).

Definition advance_generation (daemon supervisor : Z) : authority_op unit :=
  do! st <- st_get ;
  if ((daemon <=? st_daemon_generation st) || (supervisor <? st_supervisor_generation st))%bool
  then st_err GenerationMismatch else
  st_put (mk_AuthorityState daemon supervisor 1 ∅ ∅ (policies st) (principal_revocations st)).

Definition generations (st : AuthorityState) : Z * Z :=
  (st_daemon_generation st, st_supervisor_generation st).

(** ** The peer's operations *)

Section handshake.
(** BLAKE3, plain and keyed; the keyed hasher hashes the concatenation of its updates. *)
Context (blake3_hash : list byte -> byte_array 32).
Context (blake3_keyed_hash : byte_array 32 -> list byte -> byte_array 32).
(** [observed_process_start_identity]: what the kernel reports about a process. *)
Context (observed_process_start_identity : Z -> option string).

(** [frame(&mut hasher, value)]: the bytes it appends to what is hashed. *)
Definition frame (value : list byte) : list byte :=
  (to_be_bytes 8 (if Z.of_nat (length value) <=? u64_max then Z.of_nat (length value) else u64_max)
   ++ value)%list.

(** Everything the session hasher is fed, in order. *)
Definition token_preimage (digest : byte_array 32) (nonce : byte_array 16)
    (peer : VerifiedPeerIdentity) (daemon : Z) (grant : RegisteredLaunchGrant) : list byte :=
  (frame (String.list_byte_of_string "codefabric.daemon-session.v2"%string)
   ++ frame (as_slice digest)
   ++ frame (as_slice nonce)
   ++ frame (to_be_bytes 4 (uid peer))
   ++ frame (to_be_bytes 4 (default 0 (pid peer)))
   ++ frame (to_be_bytes 8 daemon)
   ++ frame (String.list_byte_of_string (policy_id grant))
   ++ frame (to_be_bytes 8 (policy_revision grant))
   ++ frame (to_be_bytes 8 (revocation_generation grant)))%list.

Definition session_token (self : LaunchGrantAuthority) (digest : byte_array 32)
    (nonce : byte_array 16) (peer : VerifiedPeerIdentity) (daemon : Z)
    (grant : RegisteredLaunchGrant) : byte_array 32 :=
  blake3_keyed_hash (session_secret self) (token_preimage digest nonce peer daemon grant).

(** The conditions under which [consume_grant] refuses the grant it has just removed. *)
Definition grant_binding_broken (st : AuthorityState) (grant : RegisteredLaunchGrant)
    (policy : PolicyAuthorityState) (peer : VerifiedPeerIdentity)
    (observed_start : option string) (observed_at : Z) : bool :=
  (negb (peer_uid grant =? uid peer)
   || match peer_pid grant with
      | Some p => negb (bool_decide (Some p = pid peer))
      | None => false
      end
   || negb (bool_decide (peer_start_identity grant = observed_start))
   || negb (daemon_generation grant =? st_daemon_generation st)
   || negb (supervisor_generation grant =? st_supervisor_generation st)
   || (observed_at <? issued_at_unix_ms grant)
   || (expires_at_unix_ms grant <=? observed_at)
   || match principal_revocations st !! @from_bytes TPrincipalId (principal_id grant) with
      | Some generation => revocation_generation grant <? generation
      | None => false
      end
   || (policy_revision grant <? latest_revision policy)
   || (revocation_generation grant <? p_revocation_generation policy))%bool.

(** [desired.iter().find(|p| granted.contains(p)).or_else(|| granted.iter().next())]. *)
Definition choose_profile (desired granted : list string) : option string :=
  match List.find (fun p => bool_decide (p ∈ granted)) desired with
  | Some p => Some p
  | None => head granted
  end.

Definition session_of_grant (self : LaunchGrantAuthority) (st : AuthorityState)
    (grant : RegisteredLaunchGrant) (token : byte_array 32) (session_generation : Z)
    (profile : string) (resource_bound : Z) : AuthorizedSession :=
  mk_AuthorizedSession token
    ("session:b3:"%string +:+ hex (as_slice (blake3_keyed_hash (session_secret self) (as_slice token))))
    session_generation (@from_bytes TPrincipalId (principal_id grant))
    ((@from_bytes TWorkspaceId) <$> workspace_ids grant)
    (operations grant) profile resource_bound (maximum_result_bytes grant)
    (maximum_result_pages grant) (maximum_request_state_ttl_seconds grant)
    (expires_at_unix_ms grant) (st_daemon_generation st) (st_supervisor_generation st)
    (policy_id grant) (policy_revision grant) (revocation_generation grant).

Definition consume_grant (self : LaunchGrantAuthority) (raw_grant : list byte)
    (peer : VerifiedPeerIdentity) (desired_profiles : list string) (client_maximum : Z)
    (observed_at : Z) (entropy : option (byte_array 16)) : authority_op AuthorizedSession :=
  if ((Z.of_nat (length raw_grant) <? 32) || (512 <? Z.of_nat (length raw_grant)))%bool
  then st_err InvalidGrant else
  let digest := blake3_hash raw_grant in
  let observed_start := p ← pid peer; observed_process_start_identity p in
  do! st <- st_get ;
  do! grant <- st_lift (ok_or (grants st !! digest) UnknownGrant) ;
  let st := set_grants st (delete digest (grants st)) in
  do! _ <- st_put st ;
  do! policy <- st_lift (ok_or (policies st !! policy_id grant) GrantBinding) ;
  if grant_binding_broken st grant policy peer observed_start observed_at
  then st_err GrantBinding else
  if maximum_sessions self <=? Z.of_nat (size (sessions st)) then st_err Capacity else
  do! profile <- st_lift (ok_or (choose_profile desired_profiles (semantic_profiles grant))
                            ProfileUnavailable) ;
  let resource_bound := Z.min (maximum_resource_chunk_bytes grant) client_maximum in
  if resource_bound =? 0 then st_err InvalidGrant else
  do! nonce <- st_lift (ok_or entropy Entropy) ;
  let token := session_token self digest nonce peer (st_daemon_generation st) grant in
  let session_generation := next_session_generation st in
  do! next' <- st_lift (ok_or (checked_add u64_max (next_session_generation st) 1) Capacity) ;
  let session := session_of_grant self st grant token session_generation profile resource_bound in
  do! _ <- st_put (set_sessions (set_next_session_generation st next')
      (<[token := mk_SessionRecord session (grant_id grant) digest (uid peer) (pid peer)
                    observed_start]> (sessions st))) ;
  st_ret session.

Definition session_binding_broken (st : AuthorityState) (record : SessionRecord)
    (policy : PolicyAuthorityState) (peer : VerifiedPeerIdentity) (observed_at : Z) : bool :=
  let session := r_session record in
  (negb (r_peer_uid record =? uid peer)
   || match r_peer_pid record with
      | Some p => negb (bool_decide (Some p = pid peer))
      | None => false
      end
   || negb (bool_decide (r_peer_start_identity record
                         = (p ← pid peer; observed_process_start_identity p)))
   || negb (s_daemon_generation session =? st_daemon_generation st)
   || negb (s_supervisor_generation session =? st_supervisor_generation st)
   || (s_expires_at_unix_ms session <=? observed_at)
   || match principal_revocations st !! s_principal_id session with
      | Some generation => s_revocation_generation session <? generation
      | None => false
      end
   || (s_policy_revision session <? latest_revision policy)
   || (s_revocation_generation session <? p_revocation_generation policy))%bool.

(** [authorize] only reads the state. *)
Definition authorize (st : AuthorityState) (token : list byte) (peer : VerifiedPeerIdentity)
    (operation : SessionOperation) (workspace : option WorkspaceId) (observed_at : Z)
  : result AuthorizedSession SessionAuthorityError :=
  let? token := ok_or (byte_array_of_slice 32 token) InvalidSession in
  let? record := ok_or (sessions st !! token) InvalidSession in
  let? policy := ok_or (policies st !! s_policy_id (r_session record)) SessionBinding in
  if session_binding_broken st record policy peer observed_at then Err SessionBinding else
  if (negb (permits (r_session record) operation)
      || match workspace with
         | Some w => negb (permits_workspace (r_session record) w)
         | None => false
         end)%bool
  then Err OperationDenied
  else Ok (r_session record).
End handshake.
