(* ===== verification/SessionTheory.v ===== *)
(** Correctness of the launch-grant and session authority over whole histories: a grant mints at
    most one session, a session never carries more authority than its grant, only current policy
    and generations authorize, revocations are final, and the stores stay within their bounds. *)

From S2P Require Import Prelude.
From S2P Require Import Encoding.
From S2P Require Import CommandModel.
From S2P Require Import SessionModel.
From Stdlib Require Strings.String.
Local Open Scope Z_scope.

Create HintDb session.

(** ** Length-prefixed framing *)

Lemma frame_inj a b x y :
  Z.of_nat (length a) <= u64_max -> Z.of_nat (length b) <= u64_max ->
  (frame a ++ x = frame b ++ y)%list -> a = b /\ x = y.
Proof.
  intros Ha Hb. unfold frame. rewrite (proj2 (Z.leb_le _ _) Ha), (proj2 (Z.leb_le _ _) Hb).
  rewrite <- !app_assoc. intros H. apply app_inj_1 in H as [H1 H2];
    [|by rewrite !length_to_be_bytes].
  apply to_be_bytes_inj in H1; [|unfold u64_max in *; lia..].
  by apply app_inj_1 in H2; [|lia].
Qed.

(** The values that go into a token are machine integers and a bounded policy name. *)
Record token_inputs_ok (peer : VerifiedPeerIdentity) (daemon : Z) (grant : RegisteredLaunchGrant)
  : Prop := {
  ti_uid : in_uint u32_max (uid peer);
  ti_pid : in_uint u32_max (default 0 (pid peer));
  ti_daemon : in_uint u64_max daemon;
  ti_policy : len (policy_id grant) <= 128;
  ti_revision : in_uint u64_max (policy_revision grant);
  ti_revocation : in_uint u64_max (revocation_generation grant)
}.

(** Splits the first frame off both sides of an equation between framed lists. *)
Ltac split_frame H :=
  let H1 := fresh "Hf" in
  apply frame_inj in H as [H1 H];
  [|rewrite ?length_as_slice, ?length_to_be_bytes, ?length_list_byte_of_string;
    cbn [String.length]; unfold len, u64_max in *; lia..].

Lemma token_preimage_inj digest1 digest2 nonce1 nonce2 peer1 peer2 d1 d2 g1 g2 :
  token_inputs_ok peer1 d1 g1 -> token_inputs_ok peer2 d2 g2 ->
  token_preimage digest1 nonce1 peer1 d1 g1 = token_preimage digest2 nonce2 peer2 d2 g2 ->
  digest1 = digest2 /\ nonce1 = nonce2 /\ uid peer1 = uid peer2
  /\ default 0 (pid peer1) = default 0 (pid peer2) /\ d1 = d2 /\ policy_id g1 = policy_id g2
  /\ policy_revision g1 = policy_revision g2
  /\ revocation_generation g1 = revocation_generation g2.
Proof.
  intros [U1 P1 D1 N1 R1 V1] [U2 P2 D2 N2 R2 V2] H. unfold token_preimage in H.
  rewrite <- (app_nil_r (frame (to_be_bytes 8 (revocation_generation g1)))),
          <- (app_nil_r (frame (to_be_bytes 8 (revocation_generation g2)))) in H.
  do 9 split_frame H.
  unfold in_uint, u32_max, u64_max in *.
  split_and!; first [by apply as_slice_inj | by apply list_byte_of_string_inj
    | by apply (to_be_bytes_inj 4); [lia..|] | by apply (to_be_bytes_inj 8); [lia..|]].
Qed.

(** ** Histories *)

Section histories.
Context (blake3_hash : list byte -> byte_array 32).
Context (blake3_keyed_hash : byte_array 32 -> list byte -> byte_array 32).
Context (start_identity : Z -> option string).
Context (self : LaunchGrantAuthority).

Inductive authority_event :=
| EvRegister (grant : RegisteredLaunchGrant)
| EvRevokePrincipal (principal : PrincipalId) (generation : RevocationGeneration)
| EvRevokeLaunch (gid : string) (digest : byte_array 32) (adapter_pid : Z)
    (identity : option string)
| EvAdvance (daemon supervisor : Z)
| EvConsume (raw : list byte) (peer : VerifiedPeerIdentity) (desired : list string)
    (client_maximum observed_at : Z) (entropy : option (byte_array 16)).

Abbreviation consume := (consume_grant blake3_hash blake3_keyed_hash start_identity self).
Abbreviation authorize_in := (authorize start_identity).

(** One event: the state it leaves and the session it mints, if it succeeds. *)
Definition apply_event (e : authority_event) (st : AuthorityState)
  : AuthorityState * result (option AuthorizedSession) SessionAuthorityError :=
  match e with
  | EvRegister grant => (do! _ <- register self grant ; st_ret None) st
  | EvRevokePrincipal principal generation =>
      (do! _ <- revoke_principal principal generation ; st_ret None) st
  | EvRevokeLaunch gid digest adapter_pid identity =>
      (do! _ <- revoke_launch gid digest adapter_pid identity ; st_ret None) st
  | EvAdvance daemon supervisor => (do! _ <- advance_generation daemon supervisor ; st_ret None) st
  | EvConsume raw peer desired client_maximum observed_at entropy =>
      (do! s <- consume raw peer desired client_maximum observed_at entropy ; st_ret (Some s)) st
  end.

Definition run_events (st : AuthorityState) (h : list authority_event) : AuthorityState :=
  foldl (fun st e => (apply_event e st).1) st h.

Lemma run_events_app st h1 h2 : run_events st (h1 ++ h2) = run_events (run_events st h1) h2.
Proof. apply foldl_app. Qed.

Lemma run_events_invariant (I : AuthorityState -> Prop) st h :
  (forall e st, I st -> I (apply_event e st).1) -> I st -> I (run_events st h).
Proof. intros Hstep. revert st. induction h as [|e h IH]; intros st HI; [done|]. apply IH. auto. Qed.

(** ** The invariant *)

Definition grant_current (st : AuthorityState) (g : RegisteredLaunchGrant) : Prop :=
  daemon_generation g = st_daemon_generation st
  /\ supervisor_generation g = st_supervisor_generation st
  /\ policies st !! policy_id g
     = Some (mk_PolicyAuthorityState (policy_revision g) (revocation_generation g)).

Definition session_bounded (st : AuthorityState) (s : AuthorizedSession) : Prop :=
  s_daemon_generation s = st_daemon_generation st
  /\ s_supervisor_generation s = st_supervisor_generation st
  /\ (exists p, policies st !! s_policy_id s = Some p
        /\ s_policy_revision s <= latest_revision p
        /\ s_revocation_generation s <= p_revocation_generation p)
  /\ (forall g, principal_revocations st !! s_principal_id s = Some g ->
        g <= s_revocation_generation s)
  /\ s_session_generation s < next_session_generation st.

Record authority_ok (st : AuthorityState) : Prop := {
  ao_next : 1 <= next_session_generation st <= u64_max;
  ao_grants : forall d g, grants st !! d = Some g ->
    grant_digest g = d /\ grant_validate g = Ok tt /\ grant_current st g;
  ao_sessions : forall t r, sessions st !! t = Some r ->
    s_token (r_session r) = t /\ session_bounded st (r_session r);
  ao_unique : forall t1 t2 r1 r2, sessions st !! t1 = Some r1 -> sessions st !! t2 = Some r2 ->
    s_session_generation (r_session r1) = s_session_generation (r_session r2) -> t1 = t2;
  ao_grant_capacity : Z.of_nat (size (grants st)) <= maximum_grants self;
  ao_session_capacity : Z.of_nat (size (sessions st)) <= maximum_sessions self
}.

(** Fewer grants and fewer sessions keep the invariant. *)
Lemma authority_ok_shrink st st' :
  authority_ok st ->
  st_daemon_generation st' = st_daemon_generation st ->
  st_supervisor_generation st' = st_supervisor_generation st ->
  next_session_generation st' = next_session_generation st ->
  policies st' = policies st ->
  grants st' ⊆ grants st -> sessions st' ⊆ sessions st ->
  (forall t r g, sessions st' !! t = Some r ->
     principal_revocations st' !! s_principal_id (r_session r) = Some g ->
     g <= s_revocation_generation (r_session r)) ->
  authority_ok st'.
Proof.
  intros A Hd Hs Hn Hp Hg Hse Hrev.
  split; unfold grant_current, session_bounded; rewrite ?Hd, ?Hs, ?Hn, ?Hp.
  - apply A.
  - intros d g Hk. apply (ao_grants _ A). by eapply lookup_weaken.
  - intros t r Hk. destruct (ao_sessions _ A t r) as (? & ? & ? & ? & _ & ?);
      [by eapply lookup_weaken|]. split_and!; eauto.
  - intros t1 t2 r1 r2 H1 H2. eapply (ao_unique _ A); by eapply lookup_weaken.
  - pose proof (ao_grant_capacity _ A). apply map_subseteq_size in Hg. lia.
  - pose proof (ao_session_capacity _ A). apply map_subseteq_size in Hse. lia.
Qed.

Lemma retain_subseteq {K A} `{Countable K} (f : A -> bool) (m : gmap K A) : retain f m ⊆ m.
Proof. apply map_filter_subseteq. Qed.

(** ** Registration *)

(** A pending grant that registering [g] does not supersede. *)
Definition not_superseded (g existing : RegisteredLaunchGrant) : bool :=
  (negb (bool_decide (policy_id existing = policy_id g))
   || ((policy_revision g <=? policy_revision existing)
       && (revocation_generation g <=? revocation_generation existing)))%bool.

(** The state after a successful registration. *)
Definition registered (st : AuthorityState) (g : RegisteredLaunchGrant) : AuthorityState :=
  mk_AuthorityState (st_daemon_generation st) (st_supervisor_generation st)
    (next_session_generation st)
    (<[grant_digest g := g]> (retain (not_superseded g) (grants st)))
    (sessions st)
    (<[policy_id g := mk_PolicyAuthorityState (policy_revision g) (revocation_generation g)]>
       (policies st))
    (principal_revocations st).

Definition registrable (st : AuthorityState) (g : RegisteredLaunchGrant) : Prop :=
  grant_validate g = Ok tt
  /\ daemon_generation g = st_daemon_generation st
  /\ supervisor_generation g = st_supervisor_generation st
  /\ Z.of_nat (size (grants st)) < maximum_grants self
  /\ grants st !! grant_digest g = None
  /\ forall p, policies st !! policy_id g = Some p ->
       latest_revision p <= policy_revision g
       /\ p_revocation_generation p <= revocation_generation g.

(** Without a newer revision or revocation there is nothing to supersede. *)
Lemma retain_all {K A} `{Countable K} (f : A -> bool) (m : gmap K A) :
  (forall k x, m !! k = Some x -> f x = true) -> retain f m = m.
Proof. intros Hf. apply map_filter_id. intros k x Hk. by apply (Hf k). Qed.

Lemma register_cases st g :
  authority_ok st ->
  (register self g st = (registered st g, Ok tt) /\ registrable st g)
  \/ exists e, register self g st = (st, Err e) /\ ~ registrable st g.
Proof.
  intros A. unfold register, st_bind, st_lift, st_get, st_err, st_put.
  destruct (grant_validate g) as [[]|e] eqn:Hv;
    [|right; exists e; split; [done|intros (? & _); congruence]].
  destruct (negb _ || negb _)%bool eqn:Hgen.
  { right. eexists. split; [done|]. intros (_ & H1 & H2 & _). rewrite H1, H2, !Z.eqb_refl in Hgen. done. }
  zify_bool.
  destruct (Z.leb_spec (maximum_grants self) (Z.of_nat (size (grants st)))).
  { right. eexists. split; [done|]. intros (_ & _ & _ & ? & _). lia. }
  case_bool_decide as Hd.
  { right. eexists. split; [done|]. intros (_ & _ & _ & _ & Hnone & _). rewrite Hnone in Hd. by destruct Hd. }
  apply eq_None_not_Some in Hd. unfold registered.
  destruct (policies st !! policy_id g) as [p|] eqn:Hp.
  2: { left. rewrite retain_all.
       - split; [done|]. split_and!; try done. intros p Hp'. congruence.
       - intros k x Hx. destruct (ao_grants _ A k x Hx) as (_ & _ & _ & _ & Hpx).
         unfold not_superseded. rewrite bool_decide_eq_false_2; [done|]. intros Heq.
         rewrite Heq in Hpx. congruence. }
  destruct (Z.ltb_spec (policy_revision g) (latest_revision p)).
  { right. eexists. split; [done|]. intros (_ & _ & _ & _ & _ & Hall).
    destruct (Hall p Hp). lia. }
  destruct (Z.ltb_spec (revocation_generation g) (p_revocation_generation p)).
  { right. eexists. split; [done|]. intros (_ & _ & _ & _ & _ & Hall).
    destruct (Hall p Hp). lia. }
  left. split.
  - rewrite Z.max_r by lia. destruct (_ || _)%bool eqn:Hnew; [done|].
    rewrite retain_all; [done|]. intros k x Hx.
    destruct (ao_grants _ A k x Hx) as (_ & _ & _ & _ & Hpx).
    unfold not_superseded. case_bool_decide as Heq; [|done]. rewrite Heq, Hp in Hpx. injection Hpx as ->.
    simpl in *. zify_bool. simpl. apply andb_true_iff. split; lia.
  - split_and!; try done. intros p' Hp'. rewrite Hp in Hp'. injection Hp' as <-. lia.
Qed.

Lemma registered_ok st g : authority_ok st -> registrable st g -> authority_ok (registered st g).
Proof.
  intros A (Hv & Hd & Hs & Hcap & Hfresh & Hpol).
  split; cbn [registered next_session_generation grants sessions].
  - apply A.
  - intros d g' [[<- <-]|[Hne Hg']]%lookup_insert_Some.
    + split_and!; [done|done|]. unfold grant_current, registered. simpl.
      by rewrite lookup_insert_eq.
    + apply lookup_retain_Some in Hg' as [Hg' Hkeep].
      destruct (ao_grants _ A d g' Hg') as (? & ? & ? & ? & Hp).
      split_and!; [done|done|]. unfold grant_current, registered. simpl. split_and!; [done|done|].
      destruct (decide (policy_id g' = policy_id g)) as [Heq|Hneq].
      * rewrite Heq in *. unfold not_superseded in Hkeep.
        rewrite bool_decide_eq_true_2 in Hkeep by done. simpl in Hkeep.
        zify_bool. destruct (Hpol _ Hp) as [Hp1 Hp2]. simpl in Hp1, Hp2.
        rewrite lookup_insert_eq. do 2 f_equal; lia.
      * by rewrite lookup_insert_ne.
  - intros t r Hr. destruct (ao_sessions _ A t r Hr) as (? & ? & ? & (p & Hp & H1 & H2) & ? & ?).
    split; [done|]. unfold session_bounded, registered. simpl. split_and!; try done.
    destruct (decide (s_policy_id (r_session r) = policy_id g)) as [Heq|Hneq].
    + rewrite Heq in *. rewrite lookup_insert_eq. eexists. split; [done|]. simpl.
      destruct (Hpol _ Hp). lia.
    + rewrite lookup_insert_ne by done. eauto.
  - apply (ao_unique _ A).
  - pose proof (size_retain_le (not_superseded g) (grants st)).
    rewrite map_size_insert. destruct (retain _ _ !! _); simpl; lia.
  - apply A.
Qed.

(** ** Revocation and generations *)

Lemma revoke_principal_cases st p gen :
  (revoke_principal p gen st
   = (mk_AuthorityState (st_daemon_generation st) (st_supervisor_generation st)
        (next_session_generation st)
        (retain (fun grant => negb (bool_decide (principal_id grant = as_bytes p))) (grants st))
        (retain (fun record => negb (bool_decide (s_principal_id (r_session record) = p)))
           (sessions st))
        (policies st) (<[p := gen]> (principal_revocations st)), Ok tt)
   /\ forall g, principal_revocations st !! p = Some g -> g < gen)
  \/ revoke_principal p gen st = (st, Err StaleRevocation).
Proof.
  unfold revoke_principal, st_bind, st_get, st_put, st_err.
  destruct (principal_revocations st !! p) as [g|]; [|left; by split].
  destruct (Z.leb_spec gen g); [by right|left]. split; [done|]. by intros g' [= <-].
Qed.

Lemma revoke_principal_ok st p gen :
  authority_ok st -> authority_ok (revoke_principal p gen st).1.
Proof.
  intros A. destruct (revoke_principal_cases st p gen) as [[-> _]| ->]; [|done].
  apply (authority_ok_shrink st); try done; try apply retain_subseteq.
  intros t r g. cbn [fst sessions principal_revocations].
  intros [Hr Hp]%lookup_retain_Some. zify_bool. rewrite lookup_insert_ne by congruence.
  apply (ao_sessions _ A t r Hr).
Qed.

(** The session records an exact launch revocation removes. *)
Definition launch_record (gid : string) (digest : byte_array 32) (adapter_pid : Z)
    (identity : option string) (record : SessionRecord) : bool :=
  (bool_decide (r_grant_id record = gid) && record_binding record digest adapter_pid identity)%bool.

Definition launch_revoked (st : AuthorityState) (gid : string) (digest : byte_array 32)
    (adapter_pid : Z) (identity : option string) (exact_grant : bool) : AuthorityState :=
  let st' := if exact_grant then set_grants st (delete digest (grants st)) else st in
  set_sessions st' (retain (fun r => negb (launch_record gid digest adapter_pid identity r))
                      (sessions st')).

(** Some pending grant or session of the launch has another digest, process or start identity. *)
Definition substituted_launch (st : AuthorityState) (gid : string) (digest : byte_array 32)
    (adapter_pid : Z) (identity : option string) : bool :=
  (any_value (fun grant => bool_decide (grant_id grant = gid)
               && negb (grant_binding grant digest adapter_pid identity)) (grants st)
   || any_value (fun record => bool_decide (r_grant_id record = gid)
               && negb (record_binding record digest adapter_pid identity)) (sessions st))%bool.

Lemma revoke_launch_cases st gid digest adapter_pid identity :
  (exists exact_grant,
     revoke_launch gid digest adapter_pid identity st
     = (launch_revoked st gid digest adapter_pid identity exact_grant, Ok tt)
     /\ substituted_launch st gid digest adapter_pid identity = false
     /\ (exact_grant = false -> forall g, grants st !! digest = Some g -> grant_id g = gid ->
           peer_pid g <> Some adapter_pid \/ peer_start_identity g <> identity)
     /\ (exact_grant = true -> exists g, grants st !! digest = Some g /\ grant_id g = gid))
  \/ exists e, revoke_launch gid digest adapter_pid identity st = (st, Err e).
Proof.
  unfold revoke_launch. destruct (_ || _ || _)%bool; [right; eexists; done|].
  unfold st_bind, st_get, st_err, st_put, st_modify, st_ret.
  fold (substituted_launch st gid digest adapter_pid identity).
  destruct (substituted_launch _ _ _ _ _); [right; eexists; done|].
  set (eg := match grants st !! digest with Some _ => _ | None => _ end).
  destruct (negb eg && _)%bool; [right; eexists; done|]. left. exists eg.
  split_and!; [by destruct eg|done|..].
  - intros Heg g Hg Hid. unfold eg in Heg. rewrite Hg in Heg.
    rewrite bool_decide_eq_true_2 in Heg by done. simpl in Heg.
    apply andb_false_iff in Heg as [H|H]; zify_bool; auto.
  - intros Heg. unfold eg in Heg. destruct (grants st !! digest) as [g|]; [|done].
    zify_bool. eauto.
Qed.

Lemma revoke_launch_ok st gid digest adapter_pid identity :
  authority_ok st -> authority_ok (revoke_launch gid digest adapter_pid identity st).1.
Proof.
  intros A. destruct (revoke_launch_cases st gid digest adapter_pid identity)
    as [(eg & -> & _)|(e & ->)]; [|done].
  apply (authority_ok_shrink st); try (by destruct eg); unfold launch_revoked; cbn [fst].
  - destruct eg; simpl; [apply delete_subseteq|done].
  - destruct eg; simpl; apply retain_subseteq.
  - intros t r g Hr Hg. assert (sessions st !! t = Some r) as Hr'.
    { destruct eg; simpl in Hr; by apply lookup_retain_Some in Hr as [? _]. }
    apply (ao_sessions _ A t r Hr'). by destruct eg.
Qed.

Lemma advance_generation_ok st d s :
  0 <= maximum_grants self -> 0 <= maximum_sessions self ->
  authority_ok st -> authority_ok (advance_generation d s st).1.
Proof.
  intros Hg Hs A. unfold advance_generation, st_bind, st_get.
  destruct (_ || _)%bool; [done|]. simpl. split; simpl.
  - unfold u64_max. lia.
  - intros k g. by rewrite lookup_empty.
  - intros t r. by rewrite lookup_empty.
  - intros t1 t2 r1 r2. by rewrite lookup_empty.
  - by rewrite map_size_empty.
  - by rewrite map_size_empty.
Qed.

(** ** Consumption *)

(** The grant is gone, whatever happens next. *)
Definition without_grant (st : AuthorityState) (d : byte_array 32) : AuthorityState :=
  set_grants st (delete d (grants st)).

Definition observed_start (peer : VerifiedPeerIdentity) : option string :=
  p ← pid peer; start_identity p.

(** The state after a session has been minted from grant [g]. *)
Definition minted (st : AuthorityState) (d : byte_array 32) (g : RegisteredLaunchGrant)
    (peer : VerifiedPeerIdentity) (s : AuthorizedSession) : AuthorityState :=
  let st' := without_grant st d in
  set_sessions (set_next_session_generation st' (next_session_generation st + 1))
    (<[s_token s := mk_SessionRecord s (grant_id g) d (uid peer) (pid peer)
                      (observed_start peer)]> (sessions st)).

Record mintable (st : AuthorityState) (raw : list byte) (peer : VerifiedPeerIdentity)
    (desired : list string) (client_maximum observed_at : Z) (entropy : option (byte_array 16))
    (g : RegisteredLaunchGrant) (s : AuthorizedSession) : Prop := {
  mi_length : 32 <= Z.of_nat (length raw) <= 512;
  mi_grant : grants st !! blake3_hash raw = Some g;
  mi_binding : exists p, policies st !! policy_id g = Some p
    /\ grant_binding_broken st g p peer (observed_start peer) observed_at = false;
  mi_room : Z.of_nat (size (sessions st)) < maximum_sessions self;
  mi_bound : Z.min (maximum_resource_chunk_bytes g) client_maximum <> 0;
  mi_next : next_session_generation st + 1 <= u64_max;
  mi_session : exists profile nonce,
    choose_profile desired (semantic_profiles g) = Some profile /\ entropy = Some nonce
    /\ s = session_of_grant blake3_keyed_hash self st g
             (session_token blake3_keyed_hash self (blake3_hash raw) nonce peer
                (st_daemon_generation st) g)
             (next_session_generation st) profile
             (Z.min (maximum_resource_chunk_bytes g) client_maximum)
}.

Lemma consume_cases st raw peer desired client_maximum observed_at entropy :
  (exists g s, consume raw peer desired client_maximum observed_at entropy st
               = (minted st (blake3_hash raw) g peer s, Ok s)
     /\ mintable st raw peer desired client_maximum observed_at entropy g s)
  \/ (exists e, consume raw peer desired client_maximum observed_at entropy st = (st, Err e)
        /\ (32 <= Z.of_nat (length raw) <= 512 -> grants st !! blake3_hash raw = None))
  \/ (exists e, consume raw peer desired client_maximum observed_at entropy st
                = (without_grant st (blake3_hash raw), Err e)).
Proof.
  unfold consume_grant. destruct (_ || _)%bool eqn:Hlen.
  { right; left. eexists. split; [done|]. intros H. apply orb_true_iff in Hlen as [?|?]; zify_bool; lia. }
  zify_bool. unfold st_bind, st_get, st_lift, st_put, st_err, st_ret.
  destruct (grants st !! blake3_hash raw) as [g|] eqn:Hg; cbn [ok_or];
    [|right; left; by eexists].
  unfold without_grant. set (st1 := set_grants st _).
  destruct (policies st1 !! policy_id g) as [p|] eqn:Hp; cbn [ok_or]; [|right; right; by eexists].
  destruct (grant_binding_broken _ _ _ _ _ _) eqn:Hb; [right; right; by eexists|].
  destruct (Z.leb_spec (maximum_sessions self) (Z.of_nat (size (sessions st1))));
    [right; right; by eexists|].
  destruct (choose_profile _ _) as [profile|] eqn:Hprof; cbn [ok_or]; [|right; right; by eexists].
  destruct (Z.eqb_spec (Z.min (maximum_resource_chunk_bytes g) client_maximum) 0);
    [right; right; by eexists|].
  destruct entropy as [nonce|]; cbn [ok_or]; [|right; right; by eexists].
  destruct (checked_add _ _ _) as [n'|] eqn:Hn; cbn [ok_or]; [|right; right; by eexists].
  apply checked_add_Some in Hn as [-> Hn].
  left. exists g, (session_of_grant blake3_keyed_hash self st g
    (session_token blake3_keyed_hash self (blake3_hash raw) nonce peer (st_daemon_generation st) g)
    (next_session_generation st) profile (Z.min (maximum_resource_chunk_bytes g) client_maximum)).
  split; [reflexivity|]. split; try done.
  - exists p. split; [exact Hp|exact Hb].
  - exists profile, nonce. done.
Qed.

Lemma without_grant_ok st d : authority_ok st -> authority_ok (without_grant st d).
Proof.
  intros A. apply (authority_ok_shrink st); try done; [apply delete_subseteq|].
  intros t r g Hr. apply (ao_sessions _ A t r Hr).
Qed.

(** What a binding that is not broken means. *)
Lemma grant_binding_sound st g p peer start observed_at :
  grant_binding_broken st g p peer start observed_at = false ->
  peer_uid g = uid peer /\ (forall q, peer_pid g = Some q -> pid peer = Some q)
  /\ peer_start_identity g = start
  /\ daemon_generation g = st_daemon_generation st
  /\ supervisor_generation g = st_supervisor_generation st
  /\ issued_at_unix_ms g <= observed_at < expires_at_unix_ms g
  /\ (forall gen, principal_revocations st !! @from_bytes TPrincipalId (principal_id g) = Some gen ->
        gen <= revocation_generation g)
  /\ latest_revision p <= policy_revision g
  /\ p_revocation_generation p <= revocation_generation g.
Proof.
  unfold grant_binding_broken. intros H. zify_bool. split_and!; try done.
  - intros q Hq. rewrite Hq in *. zify_bool. done.
  - intros gen Hgen. rewrite Hgen in *. zify_bool. done.
Qed.

Lemma minted_ok st raw peer desired cm at_ entropy g s :
  authority_ok st -> mintable st raw peer desired cm at_ entropy g s ->
  authority_ok (minted st (blake3_hash raw) g peer s).
Proof.
  intros A M. destruct (mi_binding _ _ _ _ _ _ _ _ _ M) as (p & Hp & Hb).
  apply grant_binding_sound in Hb as (_ & _ & _ & Hd & Hs & _ & Hrev & Hp1 & Hp2).
  destruct (ao_grants _ A _ _ (mi_grant _ _ _ _ _ _ _ _ _ M)) as (_ & _ & _ & _ & Hcur).
  pose proof (mi_next _ _ _ _ _ _ _ _ _ M) as Hnext. pose proof (ao_next _ A) as Hpos.
  destruct (mi_session _ _ _ _ _ _ _ _ _ M) as (profile & nonce & _ & _ & ->).
  set (s := session_of_grant _ _ _ _ _ _ _ _).
  split; cbn [minted set_sessions set_next_session_generation without_grant set_grants
              next_session_generation grants sessions].
  - lia.
  - intros d g' [_ Hg']%lookup_delete_Some. apply (ao_grants _ A d g' Hg').
  - intros t r [[<- <-]|[_ Hr]]%lookup_insert_Some; cbn [r_session].
    + split; [done|]. unfold session_bounded, minted, s. simpl. split_and!; try done; [|lia].
      rewrite Hcur. eexists. split; [done|]. simpl. lia.
    + destruct (ao_sessions _ A t r Hr) as (? & ? & ? & ? & ? & ?).
      split; [done|]. unfold session_bounded, minted. simpl. split_and!; try done. lia.
  - intros t1 t2 r1 r2 [[<- <-]|[_ H1]]%lookup_insert_Some [[<- <-]|[_ H2]]%lookup_insert_Some;
      cbn [r_session]; intros Heq; [done| | |by eapply (ao_unique _ A)].
    + destruct (ao_sessions _ A _ _ H2) as (_ & _ & _ & _ & _ & Hlt). unfold s in Heq. simpl in Heq. lia.
    + destruct (ao_sessions _ A _ _ H1) as (_ & _ & _ & _ & _ & Hlt). unfold s in Heq. simpl in Heq. lia.
  - pose proof (ao_grant_capacity _ A).
    pose proof (map_subseteq_size _ _ (delete_subseteq (grants st) (blake3_hash raw))). lia.
  - pose proof (mi_room _ _ _ _ _ _ _ _ _ M). rewrite map_size_insert.
    destruct (sessions st !! _); simpl; lia.
Qed.

Lemma apply_event_ok e st :
  0 <= maximum_grants self -> 0 <= maximum_sessions self ->
  authority_ok st -> authority_ok (apply_event e st).1.
Proof.
  intros Hg Hs A.
  assert (forall A (m : authority_op A) (f : A -> option AuthorizedSession),
            ((do! x <- m ; st_ret (f x)) st).1 = (m st).1) as Hfst.
  { intros A' m f. unfold st_bind. by destruct (m st) as [? [?|?]]. }
  destruct e; unfold apply_event; rewrite (Hfst _ _ (fun _ => _)).
  - destruct (register_cases st grant A) as [[-> Hr]|(e & -> & _)]; [by apply registered_ok|done].
  - by apply revoke_principal_ok.
  - by apply revoke_launch_ok.
  - by apply advance_generation_ok.
  - destruct (consume_cases st raw peer desired client_maximum observed_at entropy)
      as [(g & s & -> & M)|[(e & -> & _)|(e & ->)]]; [by eapply minted_ok|done|by apply without_grant_ok].
Qed.

(** ** Reachable states *)

(** [st] is the state of a freshly constructed authority. *)
Definition opened (st : AuthorityState) : Prop :=
  exists daemon supervisor first second,
    0 <= maximum_grants self /\ 0 <= maximum_sessions self
    /\ authority_try_new daemon supervisor (maximum_grants self) (maximum_sessions self) first second
       = Ok (self, st).

Definition reachable (st : AuthorityState) : Prop :=
  exists st0 h, opened st0 /\ st = run_events st0 h.

Lemma opened_ok st : opened st -> authority_ok st /\ grants st = ∅.
Proof.
  intros (d & s & n1 & n2 & Hg & Hs & H). unfold authority_try_new in H.
  destruct (_ || _)%bool; [done|]. destruct n1; [|done]. destruct n2; [|done].
  injection H as _ <-. split; [|done]. split; simpl.
  - unfold u64_max. lia.
  - intros k g. by rewrite lookup_empty.
  - intros t r. by rewrite lookup_empty.
  - intros t1 t2 r1 r2. by rewrite lookup_empty.
  - by rewrite map_size_empty.
  - by rewrite map_size_empty.
Qed.

Lemma opened_capacities st : opened st -> 0 <= maximum_grants self /\ 0 <= maximum_sessions self.
Proof. by intros (? & ? & ? & ? & ? & ? & _). Qed.

Lemma reachable_capacities st : reachable st -> 0 <= maximum_grants self /\ 0 <= maximum_sessions self.
Proof. intros (st0 & h & H0 & _). by apply opened_capacities in H0. Qed.

Lemma reachable_ok st : reachable st -> authority_ok st.
Proof.
  intros (st0 & h & H0 & ->). pose proof (opened_capacities _ H0) as [Hg Hs].
  apply run_events_invariant; [intros; by apply apply_event_ok|by apply opened_ok].
Qed.

Lemma reachable_step e st : reachable st -> reachable (apply_event e st).1.
Proof.
  intros (st0 & h & H0 & ->). exists st0, (h ++ [e]). split; [done|]. by rewrite run_events_app.
Qed.

Lemma reachable_run h st : reachable st -> reachable (run_events st h).
Proof.
  intros Hr. apply run_events_invariant; [intros; by apply reachable_step|done].
Qed.

(** ** One session per registration *)

Definition event_ok (e : authority_event) (st : AuthorityState) : bool := is_ok (apply_event e st).2.

Definition mints (d : byte_array 32) (e : authority_event) (st : AuthorityState) : nat :=
  match e with
  | EvConsume raw _ _ _ _ _ =>
      if (bool_decide (blake3_hash raw = d) && event_ok e st)%bool then 1 else 0
  | _ => 0
  end.

Definition registers (d : byte_array 32) (e : authority_event) (st : AuthorityState) : nat :=
  match e with
  | EvRegister g => if (bool_decide (grant_digest g = d) && event_ok e st)%bool then 1 else 0
  | _ => 0
  end.

(** How often an observation holds along a history. *)
Fixpoint count_along (f : authority_event -> AuthorityState -> nat) (st : AuthorityState)
    (h : list authority_event) : nat :=
  match h with
  | [] => 0
  | e :: h => (f e st + count_along f (apply_event e st).1 h)%nat
  end.

Definition pending (d : byte_array 32) (st : AuthorityState) : nat :=
  if decide (is_Some (grants st !! d)) then 1 else 0.

Lemma pending_shrink d st st' : grants st' ⊆ grants st -> (pending d st' <= pending d st)%nat.
Proof.
  intros Hsub. unfold pending. destruct (decide (is_Some (grants st' !! d))) as [[g Hg]|];
    [|lia]. by rewrite decide_True by (eexists; by eapply lookup_weaken).
Qed.

Lemma pending_step d e st :
  authority_ok st ->
  (mints d e st + pending d (apply_event e st).1 <= registers d e st + pending d st)%nat.
Proof.
  intros A. destruct e; unfold mints, registers, event_ok, apply_event, st_bind, st_ret.
  - destruct (register_cases st grant A) as [[-> Hr]|(e & -> & _)]; cbn [fst snd is_ok].
    + unfold pending, registered. cbn [grants]. rewrite andb_true_r. case_bool_decide as Heq.
      * destruct (decide _); lia.
      * rewrite lookup_insert_ne by done. apply (pending_shrink d st (set_grants st _)).
        apply retain_subseteq.
    + rewrite andb_false_r. lia.
  - destruct (revoke_principal_cases st principal generation) as [[-> _]| ->]; [|done].
    apply pending_shrink, retain_subseteq.
  - destruct (revoke_launch_cases st gid digest adapter_pid identity) as [(eg & -> & _)|(e & ->)];
      [|done]. apply pending_shrink. destruct eg; simpl; [apply delete_subseteq|done].
  - unfold advance_generation, st_bind, st_get. destruct (_ || _)%bool; [done|].
    apply pending_shrink, map_empty_subseteq.
  - destruct (consume_cases st raw peer desired client_maximum observed_at entropy)
      as [(g & s & -> & M)|[(e & -> & _)|(e & ->)]]; cbn [fst snd is_ok].
    + rewrite andb_true_r. pose proof (mi_grant _ _ _ _ _ _ _ _ _ M) as Hg.
      case_bool_decide as Heq.
      * subst d. unfold pending. simpl. rewrite lookup_delete_eq, decide_False by (by intros [??]).
        by rewrite decide_True by eauto.
      * apply pending_shrink. simpl. apply delete_subseteq.
    + by rewrite andb_false_r.
    + rewrite andb_false_r. apply pending_shrink. simpl. apply delete_subseteq.
Qed.

Lemma mints_le_registers d st h :
  reachable st ->
  (count_along (mints d) st h <= count_along (registers d) st h + pending d st)%nat.
Proof.
  revert st. induction h as [|e h IH]; intros st Hr; simpl; [lia|].
  pose proof (pending_step d e st (reachable_ok _ Hr)).
  specialize (IH _ (reachable_step e st Hr)). lia.
Qed.

(** ** Where live sessions come from *)

(** The sessions minted along a history. *)
Fixpoint minted_sessions (st : AuthorityState) (h : list authority_event) : list AuthorizedSession :=
  match h with
  | [] => []
  | e :: h =>
      let rest := minted_sessions (apply_event e st).1 h in
      match (apply_event e st).2 with
      | Ok (Some s) => s :: rest
      | _ => rest
      end
  end.

Lemma sessions_step e st t r :
  authority_ok st -> sessions (apply_event e st).1 !! t = Some r ->
  sessions st !! t = Some r \/ (apply_event e st).2 = Ok (Some (r_session r)).
Proof.
  intros A. destruct e; unfold apply_event, st_bind, st_ret.
  - destruct (register_cases st grant A) as [[-> Hr]|(e & -> & _)]; auto.
  - destruct (revoke_principal_cases st principal generation) as [[-> _]| ->]; [|auto].
    simpl. intros [? _]%lookup_retain_Some. auto.
  - destruct (revoke_launch_cases st gid digest adapter_pid identity) as [(eg & -> & _)|(e & ->)];
      [|auto]. simpl. destruct eg; simpl; intros [? _]%lookup_retain_Some; auto.
  - unfold advance_generation, st_bind, st_get. destruct (_ || _)%bool; [auto|].
    simpl. by rewrite lookup_empty.
  - destruct (consume_cases st raw peer desired client_maximum observed_at entropy)
      as [(g & s & -> & M)|[(e & -> & _)|(e & ->)]]; cbn [fst snd]; [|auto|auto].
    simpl. intros [[_ <-]|[_ ?]]%lookup_insert_Some; auto.
Qed.

Lemma sessions_origin h st t r :
  reachable st -> sessions (run_events st h) !! t = Some r ->
  sessions st !! t = Some r \/ r_session r ∈ minted_sessions st h.
Proof.
  revert st. induction h as [|e h IH]; intros st Hr Ht; [by left|]. simpl.
  destruct (IH _ (reachable_step e st Hr) Ht) as [H|H].
  - destruct (sessions_step e st t r (reachable_ok _ Hr) H) as [|Hm]; [by left|].
    right. rewrite Hm. left.
  - right. destruct (apply_event e st).2 as [[s|]|]; [by right|done|done].
Qed.

Lemma revocations_step e st p g :
  authority_ok st -> principal_revocations st !! p = Some g ->
  exists g', principal_revocations (apply_event e st).1 !! p = Some g' /\ g <= g'.
Proof.
  intros A Hp. destruct e; unfold apply_event, st_bind, st_ret.
  - destruct (register_cases st grant A) as [[-> Hr]|(e & -> & _)]; eauto with lia.
  - destruct (revoke_principal_cases st principal generation) as [[-> Hlt]| ->]; [|eauto with lia].
    simpl. destruct (decide (p = principal)) as [->|Hne].
    + rewrite lookup_insert_eq. specialize (Hlt g Hp). eauto with lia.
    + rewrite lookup_insert_ne by done. eauto with lia.
  - destruct (revoke_launch_cases st gid digest adapter_pid identity) as [(eg & -> & _)|(e & ->)];
      [destruct eg|]; simpl; eauto with lia.
  - unfold advance_generation, st_bind, st_get. destruct (_ || _)%bool; simpl; eauto with lia.
  - destruct (consume_cases st raw peer desired client_maximum observed_at entropy)
      as [(g' & s & -> & M)|[(e & -> & _)|(e & ->)]]; simpl; eauto with lia.
Qed.

Lemma revocations_run h st p g :
  reachable st -> principal_revocations st !! p = Some g ->
  exists g', principal_revocations (run_events st h) !! p = Some g' /\ g <= g'.
Proof.
  revert st g. induction h as [|e h IH]; intros st g Hr Hp; [eauto with lia|]. simpl.
  destruct (revocations_step e st p g (reachable_ok _ Hr) Hp) as (g1 & H1 & ?).
  destruct (IH _ g1 (reachable_step e st Hr) H1) as (g2 & H2 & ?). eauto with lia.
Qed.

Lemma session_binding_iff st r p peer at_ :
  session_binding_broken start_identity st r p peer at_ = false <->
  r_peer_uid r = uid peer /\ (forall q, r_peer_pid r = Some q -> pid peer = Some q)
  /\ r_peer_start_identity r = observed_start peer
  /\ s_daemon_generation (r_session r) = st_daemon_generation st
  /\ s_supervisor_generation (r_session r) = st_supervisor_generation st
  /\ at_ < s_expires_at_unix_ms (r_session r)
  /\ (forall gen, principal_revocations st !! s_principal_id (r_session r) = Some gen ->
        gen <= s_revocation_generation (r_session r))
  /\ latest_revision p <= s_policy_revision (r_session r)
  /\ p_revocation_generation p <= s_revocation_generation (r_session r).
Proof.
  unfold session_binding_broken. split.
  - intros Hb. zify_bool. split_and!; try done.
    + intros q Hq. rewrite Hq in *. by zify_bool.
    + intros gen Hgen. rewrite Hgen in *. by zify_bool.
  - intros (H1 & H2 & H3 & H4 & H5 & H6 & H7 & H8 & H9).
    repeat (apply orb_false_iff; split); try (apply negb_false_iff);
      try (by apply Z.eqb_eq); try (by apply Z.ltb_ge); try (by apply Z.leb_gt);
      try (by apply bool_decide_eq_true_2).
    + destruct (r_peer_pid r) as [q|]; [|done]. apply negb_false_iff, bool_decide_eq_true_2.
      symmetry. auto.
    + destruct (principal_revocations st !! _) as [gen|]; [|done]. by apply Z.ltb_ge, H7.
Qed.

(** What an authorization that succeeds has established. *)
Lemma authorize_inv st token peer op ws at_ s :
  authorize_in st token peer op ws at_ = Ok s ->
  exists t r p, byte_array_of_slice 32 token = Some t /\ sessions st !! t = Some r
    /\ policies st !! s_policy_id s = Some p /\ s = r_session r
    /\ r_peer_uid r = uid peer /\ (forall q, r_peer_pid r = Some q -> pid peer = Some q)
    /\ r_peer_start_identity r = observed_start peer
    /\ s_daemon_generation s = st_daemon_generation st
    /\ s_supervisor_generation s = st_supervisor_generation st
    /\ at_ < s_expires_at_unix_ms s
    /\ latest_revision p <= s_policy_revision s
    /\ p_revocation_generation p <= s_revocation_generation s
    /\ op ∈ s_operations s /\ (forall w, ws = Some w -> w ∈ s_workspace_ids s).
Proof.
  unfold authorize. destruct (byte_array_of_slice 32 token) as [t|]; [|done]. cbn [ok_or].
  destruct (sessions st !! t) as [r|] eqn:Hr; [|done]. cbn [ok_or].
  destruct (policies st !! _) as [p|] eqn:Hp; [|done]. cbn [ok_or].
  destruct (session_binding_broken _ _ _ _ _ _) eqn:Hb; [done|].
  destruct (_ || _)%bool eqn:Hperm; [done|]. intros [= <-].
  apply session_binding_iff in Hb as (? & ? & ? & ? & ? & ? & ? & ? & ?).
  unfold permits in Hperm. zify_bool. exists t, r, p. split_and!; try done.
  intros w ->. unfold permits_workspace in *. by zify_bool.
Qed.

Lemma authorize_Ok st peer op ws at_ r p :
  sessions st !! s_token (r_session r) = Some r -> policies st !! s_policy_id (r_session r) = Some p ->
  session_binding_broken start_identity st r p peer at_ = false ->
  op ∈ s_operations (r_session r) -> (forall w, ws = Some w -> w ∈ s_workspace_ids (r_session r)) ->
  authorize_in st (as_slice (s_token (r_session r))) peer op ws at_ = Ok (r_session r).
Proof.
  intros Hr Hp Hb Hop Hws. unfold authorize. rewrite byte_array_of_as_slice. cbn [ok_or].
  rewrite Hr. cbn [ok_or]. rewrite Hp. cbn [ok_or]. rewrite Hb.
  unfold permits, permits_workspace. rewrite bool_decide_eq_true_2 by done. cbn [negb orb].
  destruct ws as [w|]; [|done]. by rewrite bool_decide_eq_true_2 by auto.
Qed.

(** ** Promises *)

Lemma choose_profile_granted desired granted p :
  choose_profile desired granted = Some p -> p ∈ granted.
Proof.
  unfold choose_profile. destruct (List.find _ desired) as [q|] eqn:Hf.
  - intros [= <-]. apply find_some in Hf as [_ Hq]. by zify_bool.
  - destruct granted; simpl; [done|]. intros [= <-]. left.
Qed.

(** C15. Over any history of the authority, the sessions minted from a grant digest are at most the
    successful registrations of that digest: consuming a grant is one-shot, also across failed
    attempts, revocations and generation changes. *)
Theorem grant_mints_at_most_one_session st0 h d :
  opened st0 -> (count_along (mints d) st0 h <= count_along (registers d) st0 h)%nat.
Proof.
  intros H0. assert (reachable st0) as Hr by (by exists st0, []).
  pose proof (mints_le_registers d st0 h Hr) as Hle. unfold pending in Hle.
  apply opened_ok in H0 as [_ Hg]. rewrite Hg, lookup_empty in Hle.
  rewrite decide_False in Hle by (by intros [??]). lia.
Qed.

(** C16. Presenting a pending grant always burns it. If a session results, the peer and the time
    match the grant's binding, and the session carries the grant's principal, workspaces,
    operations, result limits and expiry, one of the granted profiles, and a chunk bound below
    both the grant's and the client's; if not, no session is added or removed. *)
Theorem consume_burns_the_grant_and_bounds_the_session st raw peer desired cm observed_at entropy g :
  reachable st -> 32 <= Z.of_nat (length raw) <= 512 -> grants st !! blake3_hash raw = Some g ->
  let out := consume raw peer desired cm observed_at entropy st in
  grants out.1 = delete (blake3_hash raw) (grants st)
  /\ match out.2 with
     | Ok s =>
         s_principal_id s = @from_bytes TPrincipalId (principal_id g)
         /\ s_workspace_ids s = (@from_bytes TWorkspaceId) <$> workspace_ids g
         /\ s_operations s = operations g
         /\ s_semantic_profile s ∈ semantic_profiles g
         /\ s_maximum_resource_chunk_bytes s <= maximum_resource_chunk_bytes g
         /\ s_maximum_resource_chunk_bytes s <= cm
         /\ s_maximum_result_bytes s = maximum_result_bytes g
         /\ s_maximum_result_pages s = maximum_result_pages g
         /\ s_expires_at_unix_ms s = expires_at_unix_ms g
         /\ peer_uid g = uid peer /\ peer_start_identity g = observed_start peer
         /\ (forall q, peer_pid g = Some q -> pid peer = Some q)
         /\ issued_at_unix_ms g <= observed_at < expires_at_unix_ms g
         /\ exists r, r_session r = s /\ sessions out.1 = <[s_token s := r]> (sessions st)
     | Err _ => sessions out.1 = sessions st
     end.
Proof.
  intros Hr Hlen Hg out. unfold out.
  destruct (consume_cases st raw peer desired cm observed_at entropy)
    as [(g' & s & -> & M)|[(e & -> & Hnone)|(e & ->)]]; cbn [fst snd].
  - rewrite (mi_grant _ _ _ _ _ _ _ _ _ M) in Hg. injection Hg as ->.
    destruct (mi_binding _ _ _ _ _ _ _ _ _ M) as (p & _ & Hb).
    apply grant_binding_sound in Hb as (? & ? & ? & _ & _ & ? & _).
    destruct (mi_session _ _ _ _ _ _ _ _ _ M) as (profile & nonce & Hprof & _ & ->).
    apply choose_profile_granted in Hprof. split; [done|]. simpl.
    split_and!; try done; try lia. eexists. split; [|done]. done.
  - by rewrite Hnone in Hg.
  - done.
Qed.

(** Handshake round trip: the session a peer has just minted authorizes that peer for every
    operation and workspace of the grant until it expires. *)
Theorem minted_session_authorizes_its_peer st raw peer desired cm observed_at entropy s op ws later :
  reachable st ->
  (consume raw peer desired cm observed_at entropy st).2 = Ok s ->
  op ∈ s_operations s -> (forall w, ws = Some w -> w ∈ s_workspace_ids s) ->
  later < s_expires_at_unix_ms s ->
  authorize_in (consume raw peer desired cm observed_at entropy st).1
    (as_slice (s_token s)) peer op ws later = Ok s.
Proof.
  intros Hr Hs Hop Hws Hlater.
  destruct (consume_cases st raw peer desired cm observed_at entropy)
    as [(g & s' & Heq & M)|[(e & Heq & _)|(e & Heq)]]; rewrite Heq in *; cbn [fst snd] in *;
    [|done|done]. injection Hs as ->.
  destruct (mi_binding _ _ _ _ _ _ _ _ _ M) as (p & Hp & Hb).
  apply grant_binding_sound in Hb as (Huid & Hpid & Hstart & Hd & Hsup & _ & Hrev & Hp1 & Hp2).
  pose proof (mi_session _ _ _ _ _ _ _ _ _ M) as (profile & nonce & _ & _ & Hsess).
  apply (authorize_Ok _ peer op ws later (mk_SessionRecord s (grant_id g) (blake3_hash raw)
           (uid peer) (pid peer) (observed_start peer)) p); cbn [r_session]; [| | |done|done].
  - apply lookup_insert_eq.
  - rewrite Hsess. exact Hp.
  - apply session_binding_iff. cbn [r_session r_peer_uid r_peer_pid r_peer_start_identity].
    rewrite Hsess in Hlater |- *. split_and!; try done.
Qed.


(** Revoking a principal is final: whatever happens afterwards, a session of that principal
    is only authorized if it was minted after the revocation, from a grant of at least the revoked
    generation. *)
Theorem principal_revocation_is_final st p gen st1 h token peer op ws now s :
  reachable st -> revoke_principal p gen st = (st1, Ok tt) ->
  authorize_in (run_events st1 h) token peer op ws now = Ok s -> s_principal_id s = p ->
  s ∈ minted_sessions st1 h /\ gen <= s_revocation_generation s.
Proof.
  intros Hr Hrev Ha Hp.
  assert (st1 = (apply_event (EvRevokePrincipal p gen) st).1) as Hst1.
  { unfold apply_event, st_bind. by rewrite Hrev. }
  assert (reachable st1) as Hr1 by (rewrite Hst1; by apply reachable_step).
  pose proof (reachable_ok _ (reachable_run h _ Hr1)) as A.
  apply authorize_inv in Ha as (t & r & _ & _ & Hrec & _ & -> & _).
  destruct (revoke_principal_cases st p gen) as [[Heq _]|Heq]; rewrite Heq in Hrev; [|done].
  injection Hrev as Hst. split.
  - destruct (sessions_origin h st1 t r Hr1 Hrec) as [Hold|]; [|done].
    rewrite <- Hst in Hold. simpl in Hold. apply lookup_retain_Some in Hold as [_ Hne].
    by zify_bool.
  - assert (principal_revocations st1 !! p = Some gen) as Hpr
      by (rewrite <- Hst; simpl; apply lookup_insert_eq).
    destruct (revocations_run h st1 p gen Hr1 Hpr) as (gen' & Hpr' & Hle).
    destruct (ao_sessions _ A t r Hrec) as (_ & _ & _ & _ & Hbound & _).
    rewrite Hp in Hbound. specialize (Hbound gen' Hpr'). lia.
Qed.

(** Revoking a launch with its exact digest, process and start identity removes every grant
    and session of that launch; any other outcome leaves the state as it was. *)
Theorem launch_revocation_is_exact st gid digest adapter_pid identity :
  reachable st ->
  let out := revoke_launch gid digest adapter_pid identity st in
  match out.2 with
  | Ok _ =>
      (forall d g, grants out.1 !! d = Some g -> grant_id g <> gid)
      /\ (forall t r, sessions out.1 !! t = Some r -> r_grant_id r <> gid)
      /\ (forall d g, grants st !! d = Some g -> grant_id g <> gid -> grants out.1 !! d = Some g)
      /\ (forall t r, sessions st !! t = Some r -> r_grant_id r <> gid ->
            sessions out.1 !! t = Some r)
  | Err _ => out.1 = st
  end.
Proof.
  intros Hr out. unfold out. pose proof (reachable_ok _ Hr) as A.
  destruct (revoke_launch_cases st gid digest adapter_pid identity)
    as [(eg & -> & Hsub & Heg & Hown)|(e & ->)]; [|done]. cbn [fst snd].
  unfold substituted_launch in Hsub. apply orb_false_iff in Hsub as [Hg Hs].
  rewrite any_value_false in Hg. rewrite any_value_false in Hs.
  split_and!.
  - intros d g Hd Hid. assert (grants st !! d = Some g) as Hd'.
    { destruct eg; simpl in Hd; [by apply lookup_delete_Some in Hd as [_ ?]|done]. }
    specialize (Hg d g Hd'). rewrite bool_decide_eq_true_2 in Hg by done. simpl in Hg.
    unfold grant_binding in Hg. zify_bool.
    destruct (ao_grants _ A d g Hd') as (Hdig & _). assert (d = digest) as -> by congruence.
    destruct eg; simpl in Hd; [by rewrite lookup_delete_eq in Hd|].
    destruct (Heg eq_refl g Hd Hid); congruence.
  - intros t r Ht Hid. assert (sessions st !! t = Some r /\ negb (launch_record gid digest adapter_pid identity r) = true)
      as [Ht' Hkeep] by (destruct eg; simpl in Ht; by apply lookup_retain_Some in Ht).
    specialize (Hs t r Ht'). rewrite bool_decide_eq_true_2 in Hs by done. simpl in Hs.
    unfold launch_record in Hkeep. rewrite bool_decide_eq_true_2 in Hkeep by done. simpl in Hkeep.
    zify_bool. congruence.
  - intros d g Hd Hne. destruct eg; simpl; [|done]. rewrite lookup_delete_ne; [done|].
    intros <-. destruct (Hown eq_refl) as (g' & Hg' & Hid'). congruence.
  - intros t r Ht Hne.
    assert (negb (launch_record gid digest adapter_pid identity r) = true) as Hk.
    { unfold launch_record. by rewrite bool_decide_eq_false_2. }
    destruct eg; simpl; by apply lookup_retain_Some.
Qed.

(** The authority never holds more pending grants or sessions than configured, and no two live
    sessions share a session generation. *)
Theorem authority_stays_within_capacity st :
  reachable st ->
  Z.of_nat (size (grants st)) <= maximum_grants self
  /\ Z.of_nat (size (sessions st)) <= maximum_sessions self
  /\ (forall t1 t2 r1 r2, sessions st !! t1 = Some r1 -> sessions st !! t2 = Some r2 ->
        s_session_generation (r_session r1) = s_session_generation (r_session r2) -> t1 = t2).
Proof.
  intros Hr. pose proof (reachable_ok _ Hr) as A.
  split_and!; [apply A|apply A|apply (ao_unique _ A)].
Qed.
End histories.

(** What is hashed into a session token determines the grant digest, the nonce, the peer, the
    daemon generation, the policy, its revision and its revocation generation: the length-prefixed
    framing leaves no two meanings to one byte string. *)
Theorem session_token_inputs_are_unambiguous digest1 digest2 nonce1 nonce2 peer1 peer2 d1 d2 g1 g2 :
  token_inputs_ok peer1 d1 g1 -> token_inputs_ok peer2 d2 g2 ->
  token_preimage digest1 nonce1 peer1 d1 g1 = token_preimage digest2 nonce2 peer2 d2 g2 ->
  digest1 = digest2 /\ nonce1 = nonce2 /\ uid peer1 = uid peer2
  /\ default 0 (pid peer1) = default 0 (pid peer2) /\ d1 = d2 /\ policy_id g1 = policy_id g2
  /\ policy_revision g1 = policy_revision g2
  /\ revocation_generation g1 = revocation_generation g2.
Proof. apply token_preimage_inj. Qed.
