(* ===== verification/SessionWitness.v ===== *)
(** A concrete authority, one launch grant and its handshake, with stand-in hash functions. *)

From S2P Require Import Prelude.
From S2P Require Import CommandModel.
From S2P Require Import SessionModel.
From S2P Require Import SessionTheory.
Local Open Scope Z_scope.

Module SessionSample.
Definition hash (l : list byte) : byte_array 32 := repeat_byte 32 (default x00 (head l)).
Definition keyed (key : byte_array 32) (l : list byte) : byte_array 32 :=
  repeat_byte 32 (byte_of_Z (Z.of_nat (length l))).
Definition start (p : Z) : option string := Some "linux-proc-start:42"%string.
Definition nonce : byte_array 16 := repeat_byte 16 x07.
Definition opened_pair : LaunchGrantAuthority * AuthorityState :=
  match authority_try_new 3 5 4 4 (Some nonce) (Some nonce) with
  | Ok p => p
  | Err _ => (mk_LaunchGrantAuthority (zero_bytes 32) 0 0, mk_AuthorityState 0 0 0 ∅ ∅ ∅ ∅)
  end.
Definition self : LaunchGrantAuthority := opened_pair.1.
Definition st0 : AuthorityState := opened_pair.2.
Definition raw : list byte := replicate 40 x21.
Definition peer : VerifiedPeerIdentity := mk_VerifiedPeerIdentity 1000 1000 (Some 4242).
Definition grant : RegisteredLaunchGrant :=
  mk_RegisteredLaunchGrant "launch:test"%string (hash raw) "policy-one"%string 4 7
    (repeat_byte 16 x11) [repeat_byte 16 x22] [Status; Start] ["semantic.v2"%string]
    65536 1048576 8 30 1000 9000 3 5 1000 (Some 4242) (Some "linux-proc-start:42"%string).
Definition history : list authority_event :=
  [EvRegister grant; EvConsume raw peer [] 4096 2000 (Some nonce);
   EvConsume raw peer [] 4096 2001 (Some nonce)].
Definition pending_state : AuthorityState := run_events hash keyed start self st0 [EvRegister grant].
Definition live_state : AuthorityState := run_events hash keyed start self st0 history.
Definition outcome := consume_grant hash keyed start self raw peer [] 4096 2000 (Some nonce) pending_state.
Definition session : AuthorizedSession :=
  match outcome.2 with
  | Ok s => s
  | Err _ => session_of_grant keyed self st0 grant (zero_bytes 32) 0 ""%string 0
  end.
End SessionSample.

Abbreviation sample_reachable :=
  (reachable SessionSample.hash SessionSample.keyed SessionSample.start SessionSample.self).

Lemma sample_opened : opened SessionSample.self SessionSample.st0.
Proof.
  exists 3, 5, (Some SessionSample.nonce), (Some SessionSample.nonce).
  split_and!; vm_compute; (reflexivity || discriminate).
Qed.

Lemma sample_pending_reachable : sample_reachable SessionSample.pending_state.
Proof. exists SessionSample.st0, [EvRegister SessionSample.grant]. split; [apply sample_opened|done]. Qed.

Lemma sample_live_reachable : sample_reachable SessionSample.live_state.
Proof. exists SessionSample.st0, SessionSample.history. split; [apply sample_opened|done]. Qed.

Lemma grant_mints_at_most_one_session_witness :
  (count_along SessionSample.hash SessionSample.keyed SessionSample.start SessionSample.self
     (mints SessionSample.hash SessionSample.keyed SessionSample.start SessionSample.self
        (SessionSample.hash SessionSample.raw)) SessionSample.st0 SessionSample.history
   <= count_along SessionSample.hash SessionSample.keyed SessionSample.start SessionSample.self
        (registers SessionSample.hash SessionSample.keyed SessionSample.start SessionSample.self
           (SessionSample.hash SessionSample.raw)) SessionSample.st0 SessionSample.history)%nat.
Proof.
  exact (grant_mints_at_most_one_session SessionSample.hash SessionSample.keyed
           SessionSample.start SessionSample.self SessionSample.st0 SessionSample.history
           (SessionSample.hash SessionSample.raw) sample_opened).
Defined.

Lemma consume_burns_the_grant_and_bounds_the_session_witness :
  grants SessionSample.outcome.1
  = delete (SessionSample.hash SessionSample.raw) (grants SessionSample.pending_state).
Proof.
  assert (32 <= Z.of_nat (length SessionSample.raw) <= 512) as Hlen
    by (split; vm_compute; discriminate).
  assert (grants SessionSample.pending_state !! SessionSample.hash SessionSample.raw
          = Some SessionSample.grant) as Hg by (vm_compute; reflexivity).
  exact (proj1 (consume_burns_the_grant_and_bounds_the_session SessionSample.hash
    SessionSample.keyed SessionSample.start SessionSample.self SessionSample.pending_state
    SessionSample.raw SessionSample.peer [] 4096 2000 (Some SessionSample.nonce)
    SessionSample.grant sample_pending_reachable Hlen Hg)).
Defined.

Lemma sample_minted : SessionSample.outcome.2 = Ok SessionSample.session.
Proof. vm_compute. reflexivity. Qed.

Lemma minted_session_authorizes_its_peer_witness :
  authorize SessionSample.start SessionSample.outcome.1 (as_slice (s_token SessionSample.session))
    SessionSample.peer Status (Some (from_bytes (t := TWorkspaceId) (repeat_byte 16 x22))) 8999
  = Ok SessionSample.session.
Proof.
  apply (minted_session_authorizes_its_peer SessionSample.hash SessionSample.keyed
    SessionSample.start SessionSample.self SessionSample.pending_state SessionSample.raw
    SessionSample.peer [] 4096 2000 (Some SessionSample.nonce) SessionSample.session).
  - apply sample_pending_reachable.
  - apply sample_minted.
  - apply (bool_decide_unpack _). vm_compute. exact I.
  - intros w [= <-]. apply (bool_decide_unpack _). vm_compute. exact I.
  - vm_compute. reflexivity.
Defined.


Definition revoked_outcome :=
  revoke_principal (from_bytes (t := TPrincipalId) (repeat_byte 16 x11)) 8 SessionSample.live_state.

(** A grant of the revoked generation, registered and consumed after the revocation. *)
Definition renewed_grant : RegisteredLaunchGrant :=
  mk_RegisteredLaunchGrant "launch:new"%string (SessionSample.hash SessionSample.raw)
    "policy-one"%string 4 8
    (repeat_byte 16 x11) [repeat_byte 16 x22] [Status; Start] ["semantic.v2"%string]
    65536 1048576 8 30 1000 9000 3 5 1000 (Some 4242) (Some "linux-proc-start:42"%string).
Definition renewal : list authority_event :=
  [EvRegister renewed_grant;
   EvConsume SessionSample.raw SessionSample.peer [] 4096 2500 (Some SessionSample.nonce)].
Definition renewed_session : option AuthorizedSession :=
  head (minted_sessions SessionSample.hash SessionSample.keyed SessionSample.start
          SessionSample.self revoked_outcome.1 renewal).

Lemma principal_revocation_is_final_witness :
  exists s, renewed_session = Some s /\ 8 <= s_revocation_generation s.
Proof.
  destruct renewed_session as [s|] eqn:Hs; [|vm_compute in Hs; discriminate].
  exists s. split; [done|].
  assert (revoked_outcome = (revoked_outcome.1, Ok tt)) as Hrev by (vm_compute; reflexivity).
  assert (authorize SessionSample.start
            (run_events SessionSample.hash SessionSample.keyed SessionSample.start
               SessionSample.self revoked_outcome.1 renewal)
            (as_slice (s_token s)) SessionSample.peer Status None 3000 = Ok s) as Ha
    by (vm_compute in Hs; injection Hs as <-; vm_compute; reflexivity).
  assert (s_principal_id s = from_bytes (t := TPrincipalId) (repeat_byte 16 x11)) as Hp
    by (vm_compute in Hs; injection Hs as <-; vm_compute; reflexivity).
  exact (proj2 (principal_revocation_is_final SessionSample.hash SessionSample.keyed
    SessionSample.start SessionSample.self SessionSample.live_state _ 8 revoked_outcome.1 renewal
    _ _ _ _ _ s sample_live_reachable Hrev Ha Hp)).
Defined.

Definition revoked_launch :=
  revoke_launch "launch:test"%string (SessionSample.hash SessionSample.raw) 4242
    (Some "linux-proc-start:42"%string) SessionSample.live_state.

Lemma launch_revocation_is_exact_witness :
  revoked_launch.2 = Ok tt
  /\ map_Forall (fun _ r => r_grant_id r <> "launch:test"%string) (sessions revoked_launch.1).
Proof.
  assert (revoked_launch.2 = Ok tt) as Hok by (vm_compute; reflexivity).
  pose proof (launch_revocation_is_exact SessionSample.hash SessionSample.keyed
    SessionSample.start SessionSample.self SessionSample.live_state "launch:test"%string
    (SessionSample.hash SessionSample.raw) 4242 (Some "linux-proc-start:42"%string)
    sample_live_reachable) as H.
  fold revoked_launch in H. cbv zeta in H. rewrite Hok in H.
  split; [exact Hok|exact (proj1 (proj2 H))].
Defined.

Lemma authority_stays_within_capacity_witness :
  Z.of_nat (size (sessions SessionSample.live_state)) <= 4.
Proof.
  exact (proj1 (proj2 (authority_stays_within_capacity SessionSample.hash SessionSample.keyed
    SessionSample.start SessionSample.self SessionSample.live_state sample_live_reachable))).
Defined.

Lemma session_token_inputs_are_unambiguous_witness :
  token_preimage (SessionSample.hash SessionSample.raw) SessionSample.nonce SessionSample.peer 3
    SessionSample.grant
  <> token_preimage (SessionSample.hash SessionSample.raw) SessionSample.nonce SessionSample.peer 4
    SessionSample.grant.
Proof.
  intros H.
  assert (token_inputs_ok SessionSample.peer 3 SessionSample.grant) as H1
    by (split; vm_compute; (split; discriminate) || discriminate).
  assert (token_inputs_ok SessionSample.peer 4 SessionSample.grant) as H2
    by (split; vm_compute; (split; discriminate) || discriminate).
  destruct (session_token_inputs_are_unambiguous _ _ _ _ _ _ _ _ _ _ H1 H2 H)
    as (_ & _ & _ & _ & Heq & _).
  discriminate Heq.
Defined.
