(* ===== verification/Freshness.v ===== *)
(** The freshness barrier of src/src/freshness.rs under every interleaving of its atomic steps.

    Each method is cut at its atomic accesses: a caller that advances the barrier is a [worker_pc],
    a query admission is a [query_pc], and a [label] picks who moves next. Atomics are taken as
    sequentially consistent. The wake-up primitive is tokio's [Notify]; the class [Notify] states
    the part of its documented contract that the code relies on. *)

From S2P Require Import Prelude.
Local Open Scope Z_scope.

Create HintDb freshness.

Inductive FreshnessState := Current | PotentiallyStale | Unavailable.
Inductive FreshnessAdmission := BestAvailable | AwaitLatest | RequireCurrent.
Inductive FreshnessError := StaleError | UnavailableError.

(** What the code uses of [tokio::sync::Notify]: a future is registered by [notified] and
    [enable]; [notify_waiters] completes every registered future. *)
Class Notify (N : Type) := {
  notify_new : N;
  enable : Z -> N -> N;
  notify_waiters : N -> N;
  is_enabled : Z -> N -> bool;
  is_notified : Z -> N -> bool;
  enable_registers : forall w n, is_enabled w (enable w n) = true;
  enable_keeps : forall w w' n, w <> w' ->
    is_enabled w' (enable w n) = is_enabled w' n /\ is_notified w' (enable w n) = is_notified w' n;
  notify_completes : forall w n, is_enabled w n = true -> is_notified w (notify_waiters n) = true;
  notify_keeps_enabled : forall w n, is_enabled w (notify_waiters n) = is_enabled w n
}.

Section barrier.
Context {N : Type} `{Notify N}.

Record FreshnessBarrier := mk_FreshnessBarrier {
  admitted : Z;
  reconciled : Z;
  unavailable : bool;
  notify : N
}.

Definition barrier_default : FreshnessBarrier := mk_FreshnessBarrier 0 0 false notify_new.

Definition with_watermarks (a r : Z) (u : bool) : FreshnessBarrier :=
  mk_FreshnessBarrier a (Z.min r a) u notify_new.

Definition set_admitted (b : FreshnessBarrier) a :=
  mk_FreshnessBarrier a (reconciled b) (unavailable b) (notify b).
Definition set_reconciled (b : FreshnessBarrier) r :=
  mk_FreshnessBarrier (admitted b) r (unavailable b) (notify b).
Definition set_unavailable (b : FreshnessBarrier) u :=
  mk_FreshnessBarrier (admitted b) (reconciled b) u (notify b).
Definition set_notify (b : FreshnessBarrier) n :=
  mk_FreshnessBarrier (admitted b) (reconciled b) (unavailable b) n.

(** ** Callers that advance the barrier *)

(** [admit]: one [fetch_add]; the value it returns. *)
Definition admit_source (b : FreshnessBarrier) : FreshnessBarrier * Z :=
  (set_admitted b (wrap64 (admitted b + 1)), wrap64 (admitted b + 1)).

(** [admit_through]: one [fetch_max]. *)
Definition admit_through (watermark : Z) (b : FreshnessBarrier) : FreshnessBarrier :=
  set_admitted b (Z.max (admitted b) watermark).

Inductive worker_pc :=
| ReconcileLoad (watermark : Z)   (* reconcile: self.requested() *)
| ReconcileMax (bounded : Z)      (* reconcile: reconciled.fetch_max(..) *)
| NotifyWaiters                   (* notify.notify_waiters() *)
| RestoreStore (watermark : Z)    (* restore: unavailable.store(false) *)
| MarkStore                       (* mark_unavailable: unavailable.store(true) *)
| Returned.

Definition worker_step (pc : worker_pc) (b : FreshnessBarrier) : option (worker_pc * FreshnessBarrier) :=
  match pc with
  | ReconcileLoad watermark => Some (ReconcileMax (Z.min watermark (admitted b)), b)
  | ReconcileMax bounded => Some (NotifyWaiters, set_reconciled b (Z.max (reconciled b) bounded))
  | NotifyWaiters => Some (Returned, set_notify b (notify_waiters (notify b)))
  | RestoreStore watermark => Some (ReconcileLoad watermark, set_unavailable b false)
  | MarkStore => Some (NotifyWaiters, set_unavailable b true)
  | Returned => None
  end.

Inductive barrier_call :=
| CallAdmit | CallAdmitThrough (watermark : Z) | CallReconcile (watermark : Z)
| CallRestore (watermark : Z) | CallMarkUnavailable.

Definition call_start (c : barrier_call) (b : FreshnessBarrier) : worker_pc * FreshnessBarrier :=
  match c with
  | CallAdmit => (Returned, (admit_source b).1)
  | CallAdmitThrough watermark => (Returned, admit_through watermark b)
  | CallReconcile watermark => (ReconcileLoad watermark, b)
  | CallRestore watermark => (RestoreStore watermark, b)
  | CallMarkUnavailable => (MarkStore, b)
  end.

(** ** Query admission *)

Inductive query_pc :=
| QueryTarget (policy : FreshnessAdmission)             (* let target = admitted.load() *)
| StateUnavailable (policy : FreshnessAdmission)        (* state(): unavailable.load() *)
| StateReconciled (policy : FreshnessAdmission)         (* state(): reconciled.load() *)
| StateAdmitted (policy : FreshnessAdmission) (r : Z)   (* state(): admitted.load() *)
| AwaitEnable (target : Z)                              (* notified(), enable() *)
| AwaitUnavailable (target : Z)                         (* unavailable.load() *)
| AwaitReconciled (target : Z)                          (* reconciled.load() *)
| AwaitChanged (target : Z)                             (* changed.await *)
| QueryDone (r : result FreshnessState FreshnessError).

(** [return Ok(self.state())] and [return match self.state() { ... }]. *)
Definition answer (policy : FreshnessAdmission) (s : FreshnessState) : query_pc :=
  QueryDone
    match policy with
    | RequireCurrent =>
        match s with
        | Current => Ok Current
        | Unavailable => Err UnavailableError
        | PotentiallyStale => Err StaleError
        end
    | _ => Ok s
    end.

Definition query_step (q : Z) (pc : query_pc) (b : FreshnessBarrier)
  : option (query_pc * FreshnessBarrier) :=
  match pc with
  | QueryTarget policy =>
      Some (match policy with
            | AwaitLatest => AwaitEnable (admitted b)
            | _ => StateUnavailable policy
            end, b)
  | StateUnavailable policy =>
      Some (if unavailable b then answer policy Unavailable else StateReconciled policy, b)
  | StateReconciled policy => Some (StateAdmitted policy (reconciled b), b)
  | StateAdmitted policy r =>
      Some (answer policy (if admitted b <=? r then Current else PotentiallyStale), b)
  | AwaitEnable target => Some (AwaitUnavailable target, set_notify b (enable q (notify b)))
  | AwaitUnavailable target =>
      Some (if unavailable b then QueryDone (Err UnavailableError) else AwaitReconciled target, b)
  | AwaitReconciled target =>
      Some (if target <=? reconciled b then QueryDone (Ok Current) else AwaitChanged target, b)
  | AwaitChanged target => if is_notified q (notify b) then Some (AwaitEnable target, b) else None
  | QueryDone _ => None
  end.

(** ** The interleaved system *)

Record System := mk_System {
  barrier : FreshnessBarrier;
  workers : gmap Z worker_pc;
  queries : gmap Z query_pc
}.

Inductive label :=
| Call (w : Z) (c : barrier_call)
| Work (w : Z)
| Query (q : Z) (policy : FreshnessAdmission)
| Step (q : Z)
| Timeout (q : Z).

(** One move; [None] when it is not possible. A timeout fires at a suspended await only. *)
Definition move (a : label) (s : System) : option System :=
  match a with
  | Call w c =>
      match workers s !! w with
      | Some _ => None
      | None =>
          let '(pc, b) := call_start c (barrier s) in
          Some (mk_System b (<[w := pc]> (workers s)) (queries s))
      end
  | Work w =>
      pc ← workers s !! w;
      '(pc, b) ← worker_step pc (barrier s);
      Some (mk_System b (<[w := pc]> (workers s)) (queries s))
  | Query q policy =>
      match queries s !! q with
      | Some _ => None
      | None => Some (mk_System (barrier s) (workers s) (<[q := QueryTarget policy]> (queries s)))
      end
  | Step q =>
      pc ← queries s !! q;
      '(pc, b) ← query_step q pc (barrier s);
      Some (mk_System b (workers s) (<[q := pc]> (queries s)))
  | Timeout q =>
      match queries s !! q with
      | Some (AwaitChanged _) =>
          Some (mk_System (barrier s) (workers s) (<[q := QueryDone (Err StaleError)]> (queries s)))
      | _ => None
      end
  end.

(** A move that is not possible is skipped. *)
Definition run_moves (s : System) (l : list label) : System :=
  foldl (fun s a => default s (move a s)) s l.

Definition start_system (b : FreshnessBarrier) : System := mk_System b ∅ ∅.

(** An admission that finds the counter at its maximum, where [fetch_add] starts again from zero. *)
Definition wraps (a : label) (s : System) : bool :=
  match a with
  | Call w CallAdmit => (bool_decide (workers s !! w = None) && (u64_max <=? admitted (barrier s)))%bool
  | _ => false
  end.

(** No admission of a run wraps the counter. *)
Fixpoint unwrapped (s : System) (l : list label) : bool :=
  match l with
  | [] => true
  | a :: l => (negb (wraps a s) && unwrapped (default s (move a s)) l)%bool
  end.

(** ** Watermarks *)

Definition worker_bounded (a : Z) (pc : worker_pc) : Prop :=
  match pc with ReconcileMax m => m <= a | _ => True end.

Record watermarks_ok (s : System) : Prop := {
  wm_nonneg : 0 <= admitted (barrier s);
  wm_bounded : reconciled (barrier s) <= admitted (barrier s);
  wm_workers : forall w pc, workers s !! w = Some pc -> worker_bounded (admitted (barrier s)) pc
}.

(** Watermarks only grow. *)
Definition advances (s s' : System) : Prop :=
  admitted (barrier s) <= admitted (barrier s') /\ reconciled (barrier s) <= reconciled (barrier s').

Lemma worker_bounded_mono a a' pc : a <= a' -> worker_bounded a pc -> worker_bounded a' pc.
Proof. destruct pc; simpl; lia. Qed.

(** A call starts without touching anything but the admitted watermark. *)
Lemma call_start_keeps c b :
  reconciled (call_start c b).2 = reconciled b /\ unavailable (call_start c b).2 = unavailable b
  /\ notify (call_start c b).2 = notify b /\ forall a, worker_bounded a (call_start c b).1.
Proof. by destruct c. Qed.

Lemma call_start_admits c b :
  0 <= admitted b -> (c = CallAdmit -> admitted b < u64_max) -> admitted b <= admitted (call_start c b).2.
Proof.
  intros H0 Hc. destruct c; simpl; try lia.
  specialize (Hc eq_refl). rewrite wrap64_small by (unfold in_uint; lia). lia.
Qed.

(** What a move can be, with its effect on the barrier, workers and queries. *)
Lemma move_call w c s s' :
  move (Call w c) s = Some s' ->
  workers s !! w = None
  /\ s' = mk_System (call_start c (barrier s)).2 (<[w := (call_start c (barrier s)).1]> (workers s))
            (queries s).
Proof.
  simpl. destruct (workers s !! w); [done|].
  by destruct (call_start c (barrier s)) as [pc b]; intros [= <-].
Qed.

Lemma call_unwrapped w c s :
  wraps (Call w c) s = false -> workers s !! w = None -> c = CallAdmit -> admitted (barrier s) < u64_max.
Proof. intros Hw Hn ->. simpl in Hw. rewrite bool_decide_eq_true_2 in Hw by done. simpl in Hw. lia. Qed.

Lemma move_work w s s' :
  move (Work w) s = Some s' ->
  exists pc pc' b, workers s !! w = Some pc /\ worker_step pc (barrier s) = Some (pc', b)
    /\ s' = mk_System b (<[w := pc']> (workers s)) (queries s).
Proof.
  simpl. intros (pc & Hpc & Hrest)%bind_Some.
  apply bind_Some in Hrest as ([pc' b] & Hst & [= <-]). eauto 10.
Qed.

Lemma move_step q s s' :
  move (Step q) s = Some s' ->
  exists pc pc' b, queries s !! q = Some pc /\ query_step q pc (barrier s) = Some (pc', b)
    /\ s' = mk_System b (workers s) (<[q := pc']> (queries s)).
Proof.
  simpl. intros (pc & Hpc & Hrest)%bind_Some.
  apply bind_Some in Hrest as ([pc' b] & Hst & [= <-]). eauto 10.
Qed.

(** A query step leaves the watermarks and the availability alone. *)
Lemma query_step_barrier q pc b pc' b' :
  query_step q pc b = Some (pc', b') ->
  admitted b' = admitted b /\ reconciled b' = reconciled b /\ unavailable b' = unavailable b.
Proof.
  destruct pc; simpl; intros Hs; try (simplify_eq; done).
  destruct (is_notified _ _); by simplify_eq.
Qed.

Lemma move_watermarks a s s' :
  watermarks_ok s -> wraps a s = false -> move a s = Some s' -> watermarks_ok s' /\ advances s s'.
Proof.
  intros [H0 Hb Hw] Hwrap Hm. destruct a.
  - apply move_call in Hm as (Hnew & ->).
    destruct (call_start_keeps c (barrier s)) as (Hr & _ & _ & Hpc).
    pose proof (call_start_admits c (barrier s) H0 (call_unwrapped w c s Hwrap Hnew)) as Ha.
    split; [|split; simpl; lia]. split; simpl; [lia|lia|].
    intros w' pc [[_ <-]|[_ Hk]]%lookup_insert_Some; [apply Hpc|].
    eapply worker_bounded_mono; [exact Ha|by eapply Hw].
  - apply move_work in Hm as (pc & pc' & b & Hk & Hst & ->). pose proof (Hw _ _ Hk) as Hpc.
    assert (admitted b = admitted (barrier s) /\ reconciled (barrier s) <= reconciled b
            /\ reconciled b <= admitted b /\ worker_bounded (admitted b) pc') as (Ha & Hr & Hra & Hpc')
      by (destruct pc; simpl in *; simplify_eq/=; split_and!; done || lia).
    split; [|split; simpl; lia]. split; simpl; [lia|lia|].
    intros w' pc0 [[_ <-]|[_ Hk']]%lookup_insert_Some; [done|]. rewrite Ha. by eapply Hw.
  - simpl in Hm. destruct (queries s !! q); [done|]. injection Hm as <-. by split; [split|split].
  - apply move_step in Hm as (pc & pc' & b & Hk & Hst & ->).
    apply query_step_barrier in Hst as (Ha & Hr & _).
    split; [|split; simpl; lia]. split; simpl; [lia|lia|]. rewrite Ha. exact Hw.
  - simpl in Hm. destruct (queries s !! q) as [[]|]; try done. injection Hm as <-. by split; [split|split].
Qed.

Lemma run_moves_invariant (I : System -> Prop) s l :
  (forall a s s', I s -> move a s = Some s' -> I s') -> I s -> I (run_moves s l).
Proof.
  intros Hstep. revert s. induction l as [|a l IH]; intros s HI; [done|]. apply IH.
  destruct (move a s) as [s'|] eqn:E; simpl; [by eapply Hstep|done].
Qed.

(** A barrier as the constructors make it. *)
Definition constructed (b : FreshnessBarrier) : Prop :=
  b = barrier_default \/ exists a r u, in_uint u64_max a /\ b = with_watermarks a r u.

Definition reachable_system (s : System) : Prop :=
  exists b l, constructed b /\ s = run_moves (start_system b) l.

Lemma constructed_watermarks b : constructed b -> watermarks_ok (start_system b).
Proof.
  intros [->|(a & r & u & Ha & ->)]; split; simpl; try done; try (unfold in_uint in Ha; lia);
    intros w pc; by rewrite lookup_empty.
Qed.

(** Invariants of the runs that do not wrap the counter. *)
Lemma unwrapped_invariant (I : System -> Prop) s l :
  (forall a s s', I s -> wraps a s = false -> move a s = Some s' -> I s') ->
  unwrapped s l = true -> I s -> I (run_moves s l).
Proof.
  intros Hstep. revert s. induction l as [|a l IH]; intros s Hl HI; [done|].
  apply andb_true_iff in Hl as [Ha%negb_true_iff Hl]. apply IH; [done|].
  destruct (move a s) as [s'|] eqn:E; simpl; [by eapply Hstep|done].
Qed.

Lemma unwrapped_app s l l' :
  unwrapped s (l ++ l') = true -> unwrapped s l = true /\ unwrapped (run_moves s l) l' = true.
Proof.
  revert s. induction l as [|a l IH]; intros s Hl; [done|]. simpl in *.
  apply andb_true_iff in Hl as [-> Hl]. by apply IH.
Qed.

Lemma unwrapped_watermarks s l :
  unwrapped s l = true -> watermarks_ok s -> watermarks_ok (run_moves s l) /\ advances s (run_moves s l).
Proof.
  intros Hl Hs. apply (unwrapped_invariant (fun s' => watermarks_ok s' /\ advances s s')); [|done|].
  - intros a s1 s2 [H1 [Ha Hr]] Hw Hm. destruct (move_watermarks a s1 s2 H1 Hw Hm) as [H2 [Ha' Hr']].
    split; [done|]. split; lia.
  - split; [done|]. split; lia.
Qed.

(** ** What an answer means *)

(** Relative to a point where [a0] changes had been admitted: the query's own observations. *)
Definition query_sees (a0 : Z) (b : FreshnessBarrier) (pc : query_pc) : Prop :=
  match pc with
  | AwaitEnable t | AwaitUnavailable t | AwaitReconciled t | AwaitChanged t => a0 <= t
  | StateAdmitted _ r => r <= reconciled b
  | QueryDone (Ok Current) => a0 <= reconciled b
  | _ => True
  end.

Lemma query_sees_mono a0 b b' pc :
  reconciled b <= reconciled b' -> query_sees a0 b pc -> query_sees a0 b' pc.
Proof. destruct pc as [| | | | | | | |[[]|]]; simpl; lia. Qed.

Lemma query_sees_step a0 q pc b pc' b' :
  a0 <= admitted b -> query_step q pc b = Some (pc', b') -> query_sees a0 b pc ->
  query_sees a0 b' pc'.
Proof.
  intros Ha Hs Hq. destruct pc; simpl in *; simplify_eq/=; try done.
  - by destruct policy.
  - by destruct (unavailable b'), policy.
  - destruct (Z.leb_spec (admitted b') r); destruct policy; simpl; done || lia.
  - by destruct (unavailable b').
  - destruct (Z.leb_spec target (reconciled b')); simpl; lia.
  - destruct (is_notified q (notify b)); by simplify_eq/=.
Qed.

Lemma query_sees_move a0 q a s s' :
  watermarks_ok s -> wraps a s = false -> a0 <= admitted (barrier s) -> is_Some (queries s !! q) ->
  (forall pc, queries s !! q = Some pc -> query_sees a0 (barrier s) pc) ->
  move a s = Some s' ->
  is_Some (queries s' !! q)
  /\ forall pc, queries s' !! q = Some pc -> query_sees a0 (barrier s') pc.
Proof.
  intros Hw Hwrap Ha [pc0 Hpc0] Hq Hm. destruct (move_watermarks a s s' Hw Hwrap Hm) as [_ [_ Hr]].
  assert (forall pc, queries s !! q = Some pc -> query_sees a0 (barrier s') pc) as Hold
    by (intros pc Hpc; eapply query_sees_mono; [exact Hr|by apply Hq]).
  destruct a.
  - apply move_call in Hm as (_ & ->). simpl in *. eauto.
  - apply move_work in Hm as (pc & pc' & b & _ & _ & ->). simpl in *. eauto.
  - simpl in Hm. destruct (queries s !! q0) eqn:E; [done|]. injection Hm as <-. simpl in *.
    rewrite lookup_insert_ne by congruence. eauto.
  - apply move_step in Hm as (pc & pc' & b & Hk & Hst & ->). simpl in *.
    destruct (decide (q0 = q)) as [->|Hne].
    + rewrite lookup_insert_eq. split; [eauto|]. intros pc'' [= <-].
      eapply query_sees_step; [exact Ha|exact Hst|by apply Hq].
    + rewrite lookup_insert_ne by done. eauto.
  - simpl in Hm. destruct (queries s !! q0) as [pc|] eqn:E; [|done].
    destruct pc; try done. injection Hm as <-. simpl in *.
    destruct (decide (q0 = q)) as [->|Hne].
    + rewrite lookup_insert_eq. split; [eauto|]. by intros pc'' [= <-].
    + rewrite lookup_insert_ne by done. eauto.
Qed.

(** ** No wake-up is lost *)

(** Some caller has changed the barrier and is about to notify. *)
Definition notify_pending (s : System) : Prop := exists w, workers s !! w = Some NotifyWaiters.

(** A suspended or nearly suspended query has been woken, need not be, or is about to be. *)
Definition wake_ok (s : System) (q : Z) (pc : query_pc) : Prop :=
  match pc with
  | AwaitUnavailable _ => is_enabled q (notify (barrier s)) = true
  | AwaitReconciled _ =>
      is_enabled q (notify (barrier s)) = true
      /\ (is_notified q (notify (barrier s)) = true \/ unavailable (barrier s) = false
          \/ notify_pending s)
  | AwaitChanged t =>
      is_enabled q (notify (barrier s)) = true
      /\ (is_notified q (notify (barrier s)) = true
          \/ (unavailable (barrier s) = false /\ reconciled (barrier s) < t)
          \/ notify_pending s)
  | _ => True
  end.

Definition wakes_ok (s : System) : Prop :=
  forall q pc, queries s !! q = Some pc -> wake_ok s q pc.

Lemma notify_pending_insert s b w pc' qs :
  workers s !! w <> Some NotifyWaiters -> notify_pending s ->
  notify_pending (mk_System b (<[w := pc']> (workers s)) qs).
Proof.
  intros Hw [w' Hw']. exists w'. simpl. rewrite lookup_insert_ne; [done|]. intros <-. done.
Qed.

(** Whoever notifies wakes every registered query. *)
Lemma wake_ok_notified s q pc :
  (is_enabled q (notify (barrier s)) = true -> is_notified q (notify (barrier s)) = true) ->
  (match pc with
   | AwaitUnavailable _ | AwaitReconciled _ | AwaitChanged _ =>
       is_enabled q (notify (barrier s)) = true
   | _ => True
   end) -> wake_ok s q pc.
Proof. destruct pc; simpl; auto. Qed.

Lemma wake_ok_enabled s q pc :
  wake_ok s q pc ->
  match pc with
  | AwaitUnavailable _ | AwaitReconciled _ | AwaitChanged _ =>
      is_enabled q (notify (barrier s)) = true
  | _ => True
  end.
Proof. destruct pc; simpl; tauto. Qed.

(** A change of the system that keeps the wake-up state of query [q]. *)
Lemma wake_ok_weaken s s' q pc :
  is_enabled q (notify (barrier s')) = is_enabled q (notify (barrier s)) ->
  is_notified q (notify (barrier s')) = is_notified q (notify (barrier s)) ->
  (notify_pending s -> notify_pending s') ->
  notify_pending s'
  \/ ((unavailable (barrier s) = false -> unavailable (barrier s') = false)
      /\ reconciled (barrier s') = reconciled (barrier s)) ->
  wake_ok s q pc -> wake_ok s' q pc.
Proof.
  intros He Hn Hp Hb. destruct pc; simpl; rewrite ?He, ?Hn; try done.
  - intros [? [?|[?|?]]]; split; auto; destruct Hb as [?|[? ?]]; auto.
  - intros [? [?|[[? ?]|?]]]; split; auto; destruct Hb as [?|[? ->]]; auto.
Qed.

Lemma work_wakes_ok w s s' : wakes_ok s -> move (Work w) s = Some s' -> wakes_ok s'.
Proof.
  intros Hok Hm. apply move_work in Hm as (pc & pc' & b & Hk & Hst & ->). intros q qpc Hq.
  simpl in Hq. specialize (Hok q qpc Hq). destruct pc; simpl in Hst; simplify_eq.
  - apply (wake_ok_weaken s); auto. apply notify_pending_insert. congruence.
  - apply (wake_ok_weaken s); auto.
    + apply notify_pending_insert. congruence.
    + left. exists w. simpl. apply lookup_insert_eq.
  - apply wake_ok_notified; simpl; [intros He|].
    + apply notify_completes. by rewrite notify_keeps_enabled in He.
    + apply wake_ok_enabled in Hok. destruct qpc; rewrite ?notify_keeps_enabled; done.
  - apply (wake_ok_weaken s); auto. apply notify_pending_insert. congruence.
  - apply (wake_ok_weaken s); auto.
    + apply notify_pending_insert. congruence.
    + left. exists w. simpl. apply lookup_insert_eq.
Qed.

Lemma step_wakes_ok q s s' : wakes_ok s -> move (Step q) s = Some s' -> wakes_ok s'.
Proof.
  intros Hok Hm. apply move_step in Hm as (pc & pc' & b & Hk & Hst & ->). intros q' qpc.
  simpl. intros [[<- <-]|[Hne Hq']]%lookup_insert_Some.
  - specialize (Hok q pc Hk). destruct pc; simpl in Hst; simplify_eq.
    + by destruct policy.
    + by destruct (unavailable (barrier s)), policy.
    + done.
    + by destruct (_ <=? _), policy.
    + simpl. apply enable_registers.
    + destruct (unavailable (barrier s)) eqn:Hu; simpl; [done|]. simpl in Hok. auto.
    + destruct (Z.leb_spec target (reconciled (barrier s))); simpl; [done|]. simpl in Hok.
      destruct Hok as [? [?|[?|[w ?]]]]; split; auto. right; right. by exists w.
    + destruct (is_notified q (notify (barrier s))); [|done]. by simplify_eq.
  - specialize (Hok q' qpc Hq'). destruct (query_step_barrier _ _ _ _ _ Hst) as (_ & Hr & Hu).
    assert (is_enabled q' (notify b) = is_enabled q' (notify (barrier s))
            /\ is_notified q' (notify b) = is_notified q' (notify (barrier s))) as [He Hn].
    { destruct pc; simpl in Hst; simplify_eq; try done; [|by destruct (is_notified _ _); simplify_eq].
      simpl. by apply enable_keeps. }
    apply (wake_ok_weaken s); simpl; auto. right. split; [congruence|done].
Qed.

Lemma move_wakes_ok a s s' : wakes_ok s -> move a s = Some s' -> wakes_ok s'.
Proof.
  intros Hok Hm. destruct a; [|by eapply work_wakes_ok| |by eapply step_wakes_ok|].
  - apply move_call in Hm as (Hnew & ->).
    destruct (call_start_keeps c (barrier s)) as (Hr & Hu & Hn & _).
    intros q pc Hq. simpl in Hq. apply (wake_ok_weaken s); simpl; rewrite ?Hn; auto.
    + apply notify_pending_insert. congruence.
    + right. rewrite Hu. auto.
  - simpl in Hm. destruct (queries s !! q) eqn:E; [done|]. injection Hm as <-.
    intros q' pc. simpl. intros [[_ <-]|[_ Hq']]%lookup_insert_Some; [done|]. by apply Hok.
  - simpl in Hm. destruct (queries s !! q) as [[]|] eqn:E; try done. injection Hm as <-.
    intros q' pc. simpl. intros [[_ <-]|[_ Hq']]%lookup_insert_Some; [done|]. by apply Hok.
Qed.

Lemma reachable_wakes s : reachable_system s -> wakes_ok s.
Proof.
  intros (b & l & Hb & ->). apply run_moves_invariant; [intros a s s'; apply move_wakes_ok|].
  intros q pc. simpl. by rewrite lookup_empty.
Qed.

(** ** Promises *)

(** C23. In every interleaving in which no admission wraps the 64-bit counter, the reconciled watermark
    never passes the admitted one and both only ever grow. The condition is needed: an admission at
    the maximum starts the admitted watermark again from zero and leaves the reconciled one. *)
Theorem watermarks_are_bounded_and_monotone b l l' :
  constructed b -> unwrapped (start_system b) (l ++ l') = true ->
  let s := run_moves (start_system b) l in
  let s' := run_moves s l' in
  reconciled (barrier s') <= admitted (barrier s')
  /\ admitted (barrier s) <= admitted (barrier s')
  /\ reconciled (barrier s) <= reconciled (barrier s')
  /\ forall w, workers s' !! w = None -> admitted (barrier s') = u64_max ->
       exists s'', move (Call w CallAdmit) s' = Some s''
         /\ admitted (barrier s'') = 0 /\ reconciled (barrier s'') = reconciled (barrier s').
Proof.
  intros Hb (Hl & Hl')%unwrapped_app s s'.
  destruct (unwrapped_watermarks _ _ Hl (constructed_watermarks _ Hb)) as [Hw _].
  destruct (unwrapped_watermarks _ _ Hl' Hw) as [Hw' [Ha Hr]]. split_and!; [apply Hw'|done|done|].
  intros w Hn Hmax. simpl. rewrite Hn. eexists. split; [done|]. simpl. by rewrite Hmax.
Qed.

(** C24. An answer [Current] is never stale: under any policy and any interleaving in which no
    admission wraps the 64-bit counter, when a query that starts now ends with [Ok(Current)], every
    change admitted before it started has been reconciled. *)
Theorem current_answer_covers_prior_changes b l0 q policy l :
  constructed b -> unwrapped (start_system b) (l0 ++ Query q policy :: l) = true ->
  let s := run_moves (start_system b) l0 in
  queries s !! q = None ->
  queries (run_moves s (Query q policy :: l)) !! q = Some (QueryDone (Ok Current)) ->
  admitted (barrier s) <= reconciled (barrier (run_moves s (Query q policy :: l))).
Proof.
  intros Hb (Hl0 & Hl)%unwrapped_app s Hq Hdone. fold s in Hl.
  destruct (unwrapped_watermarks _ _ Hl0 (constructed_watermarks _ Hb)) as [Hw _]. fold s in Hw.
  set (s1 := mk_System (barrier s) (workers s) (<[q := QueryTarget policy]> (queries s))).
  assert (default s (move (Query q policy) s) = s1) as Hs1 by (simpl; by rewrite Hq).
  change (run_moves s (Query q policy :: l)) with (run_moves (default s (move (Query q policy) s)) l) in *.
  cbn [unwrapped wraps negb andb] in Hl. rewrite Hs1 in *.
  pose (I := fun s' => watermarks_ok s' /\ admitted (barrier s) <= admitted (barrier s')
    /\ is_Some (queries s' !! q)
    /\ forall pc, queries s' !! q = Some pc -> query_sees (admitted (barrier s)) (barrier s') pc).
  assert (I (run_moves s1 l)) as (_ & _ & _ & Hsees); [|by apply (Hsees _ Hdone)].
  apply unwrapped_invariant; [|done|].
  - intros a s2 s3 (H1 & H2 & H3 & H4) Hwrap Hm.
    destruct (move_watermarks a s2 s3 H1 Hwrap Hm) as [H1' [Ha' _]].
    destruct (query_sees_move _ q a s2 s3 H1 Hwrap H2 H3 H4 Hm) as [H3' H4'].
    unfold I. split_and!; [done|lia|done|done].
  - unfold I, s1. simpl. split_and!; [by split; apply Hw|done|rewrite lookup_insert_eq; eauto|].
    rewrite lookup_insert_eq. by intros pc [= <-].
Qed.

(** C25. No wake-up is lost: when no caller is between its write and its notification, a query
    suspended in [AwaitLatest] either has been woken or really has to wait: the source is available
    and its target is not reconciled yet. *)
Theorem suspended_query_is_woken_or_must_wait s q target :
  reachable_system s -> queries s !! q = Some (AwaitChanged target) -> ~ notify_pending s ->
  is_notified q (notify (barrier s)) = true
  \/ (unavailable (barrier s) = false /\ reconciled (barrier s) < target).
Proof.
  intros Hs Hq Hn. destruct (reachable_wakes s Hs q _ Hq) as [_ [?|[?|?]]]; auto; done.
Qed.
End barrier.
Arguments FreshnessBarrier : clear implicits.
Arguments System : clear implicits.

(** ** A concrete notifier and schedule *)

(** The registered futures, and whether each has completed. *)
#[export] Instance map_notify : Notify (gmap Z bool).
Proof.
  refine {| notify_new := ∅;
            enable := fun w n => <[w := false]> n;
            notify_waiters := fun n => (fun _ => true) <$> n;
            is_enabled := fun w n => bool_decide (is_Some (n !! w));
            is_notified := fun w n => default false (n !! w) |}.
  - intros w n. rewrite lookup_insert_eq. by apply bool_decide_eq_true_2.
  - intros w w' n Hne. by rewrite lookup_insert_ne.
  - intros w n Hw. apply bool_decide_eq_true in Hw as [x Hx]. by rewrite lookup_fmap, Hx.
  - intros w n. rewrite lookup_fmap. apply bool_decide_ext, fmap_is_Some.
Defined.

(** A change is admitted, a query suspends on it, and it is reconciled but not yet announced. *)
Definition sample_moves : list label :=
  [Call 1 CallAdmit; Query 9 AwaitLatest; Step 9; Step 9; Step 9; Step 9; Call 2 (CallReconcile 1); Work 2].
Definition sample_suspended : System (gmap Z bool) := run_moves (start_system barrier_default) sample_moves.

Lemma sample_suspended_reachable : reachable_system sample_suspended.
Proof. exists barrier_default, sample_moves. split; [by left|reflexivity]. Qed.

Lemma watermarks_are_bounded_and_monotone_witness :
  reconciled (barrier (run_moves sample_suspended [Work 2; Work 2]))
  <= admitted (barrier (run_moves sample_suspended [Work 2; Work 2])).
Proof.
  exact (proj1 (watermarks_are_bounded_and_monotone (barrier_default (N := gmap Z bool)) sample_moves
                  [Work 2; Work 2] (or_introl eq_refl) eq_refl)).
Defined.

Lemma current_answer_covers_prior_changes_witness :
  admitted (barrier sample_suspended)
  <= reconciled (barrier (run_moves sample_suspended
       [Query 10 AwaitLatest; Step 10; Step 10; Step 10; Step 10; Work 2; Work 2; Step 10; Step 10;
        Step 10; Step 10])).
Proof.
  apply (current_answer_covers_prior_changes (barrier_default (N := gmap Z bool)) sample_moves 10 AwaitLatest
    [Step 10; Step 10; Step 10; Step 10; Work 2; Work 2; Step 10; Step 10; Step 10; Step 10]).
  - by left.
  - vm_compute. reflexivity.
  - vm_compute. reflexivity.
  - vm_compute. reflexivity.
Defined.

(** Where the counter wraps a strict query is told [Current] though nothing was reconciled. *)
Example wrapped_counter_answers_current :
  let s := run_moves (start_system (with_watermarks (N := gmap Z bool) u64_max 0 false))
             [Query 1 RequireCurrent; Call 2 CallAdmit; Step 1; Step 1; Step 1; Step 1] in
  queries s !! 1 = Some (QueryDone (Ok Current)) /\ reconciled (barrier s) = 0.
Proof. vm_compute. by split. Qed.

Lemma suspended_query_is_woken_or_must_wait_witness :
  is_notified 9 (notify (barrier sample_suspended)) = true
  \/ (unavailable (barrier sample_suspended) = false /\ reconciled (barrier sample_suspended) < 1).
Proof.
  apply (suspended_query_is_woken_or_must_wait sample_suspended 9 1).
  - apply sample_suspended_reachable.
  - vm_compute. reflexivity.
  - intros [w Hw].
    assert (workers sample_suspended = <[2 := ReconcileMax 1]> {[1 := Returned]}) as Heq
      by (vm_compute; reflexivity).
    rewrite Heq in Hw. apply lookup_insert_Some in Hw as [[_ Hw]|[_ Hw]]; [discriminate|].
    apply lookup_singleton_Some in Hw as [_ Hw]. discriminate.
Defined.
