(* ===== verification/PathModel.v ===== *)
(** The bounded ordered-path search of src/src/fabric/graph_program.rs: edge rows, bounds and
    [bounded_shortest_path_witness].

    The search stores its graph in a petgraph [DiGraph]. A node index stands for exactly one entity
    identity (the map [nodes] hands out one index per identity and the graph stores the identity),
    so paths carry the identities themselves. What the search asks of petgraph is the outgoing
    edges of a node; that is the parameter [out_edges]. *)

From S2P Require Import Prelude.
From stdpp Require Import sorting.
From Stdlib Require Strings.String.

(** ** Rows, bounds and errors *)

Record OrderedPathEdge := mk_OrderedPathEdge {
  fact_id : string;
  source_entity_id : string;
  target_entity_id : string
}.

Inductive GraphProgramError :=
| InvalidText (kind value : string)
| ZeroResourceBound (bound : string)
| OrderedPathInputEdgesExceeded (limit observed : nat)
| DuplicateOrderedPathFact (fact : string)
| UnknownOrderedPathEndpoint (role entity_id : string)
| OrderedPathFrontierExceeded (limit : nat)
| UnboundedOrderedPathPolicy (policy : string).

#[export] Instance OrderedPathEdge_eq_dec : EqDecision OrderedPathEdge.
Proof. solve_decision. Defined.
#[export] Instance GraphProgramError_eq_dec : EqDecision GraphProgramError.
Proof. solve_decision. Defined.

Definition validate_bounded_text (kind value : string) : result unit GraphProgramError :=
  if ((String.length value =? 0) || (240 <? String.length value))%nat%bool
  then Err (InvalidText kind value)
  else Ok tt.

Definition OrderedPathEdge_try_new (fact source target : string)
  : result OrderedPathEdge GraphProgramError :=
  let edge := mk_OrderedPathEdge fact source target in
  let? _ := validate_bounded_text "path fact"%string (fact_id edge) in
  let? _ := validate_bounded_text "path source entity"%string (source_entity_id edge) in
  let? _ := validate_bounded_text "path target entity"%string (target_entity_id edge) in
  Ok edge.

Record OrderedPathBounds := mk_OrderedPathBounds {
  max_path_length : nat;
  max_input_edges : nat;
  max_frontier_paths : nat
}.

(** [NonZero::new(value).ok_or(ZeroResourceBound(name))]. *)
Definition non_zero (value : nat) (name : string) : result nat GraphProgramError :=
  if (value =? 0)%nat then Err (ZeroResourceBound name) else Ok value.

Definition OrderedPathBounds_try_new (path_length input_edges frontier_paths : nat)
  : result OrderedPathBounds GraphProgramError :=
  let? l := non_zero path_length "max_path_length"%string in
  let? e := non_zero input_edges "max_input_edges"%string in
  let? f := non_zero frontier_paths "max_frontier_paths"%string in
  Ok (mk_OrderedPathBounds l e f).

Record OrderedPathWitness := mk_OrderedPathWitness {
  ordered_entity_ids : list string;
  ordered_fact_ids : list string
}.

Definition witness_length (w : OrderedPathWitness) : nat := length (ordered_fact_ids w).

Definition validate_bounded_ordered_path_policy (policy : string) : result unit GraphProgramError :=
  let? _ := validate_bounded_text "ordered path policy"%string policy in
  if bool_decide (policy = "shortest"%string) then Ok tt
  else Err (UnboundedOrderedPathPolicy policy).

(** ** Orders *)

Definition then_with (c : comparison) (d : comparison) : comparison :=
  match c with Eq => d | _ => c end.

(** The derived order: fact, then source, then target. *)
Definition edge_cmp (a b : OrderedPathEdge) : comparison :=
  then_with (str_cmp (fact_id a) (fact_id b))
    (then_with (str_cmp (source_entity_id a) (source_entity_id b))
       (str_cmp (target_entity_id a) (target_entity_id b))).

(** The order of the edges out of a node: fact, then the target's identity. *)
Definition outgoing_cmp (a b : OrderedPathEdge) : comparison :=
  then_with (str_cmp (fact_id a) (fact_id b)) (str_cmp (target_entity_id a) (target_entity_id b)).

(** [sort_by(cmp)]: the standard library's stable sort. *)
Definition sort_by (cmp : OrderedPathEdge -> OrderedPathEdge -> comparison)
    (l : list OrderedPathEdge) : list OrderedPathEdge :=
  merge_sort (fun a b => cmp a b <> Gt) l.

(** ** The search *)

Record PendingPath := mk_PendingPath {
  path_nodes : list string;
  path_facts : list string
}.

(** [for edge in &ordered { if !fact_ids.insert(..) { return Err(..) } }]. *)
Fixpoint check_unique_facts (seen : gset string) (ordered : list OrderedPathEdge)
  : result unit GraphProgramError :=
  match ordered with
  | [] => Ok tt
  | edge :: ordered =>
      if bool_decide (fact_id edge ∈ seen)
      then Err (DuplicateOrderedPathFact (fact_id edge))
      else check_unique_facts ({[fact_id edge]} ∪ seen) ordered
  end.

(** The identities that become nodes of the graph. *)
Definition node_identities (ordered : list OrderedPathEdge) : list string :=
  flat_map (fun edge => [source_entity_id edge; target_entity_id edge]) ordered.

(** The inner loop: extend [path] over the sorted outgoing edges. *)
Fixpoint extend_path (limit : nat) (path : PendingPath) (outgoing : list OrderedPathEdge)
    (frontier : list PendingPath) : result (list PendingPath) GraphProgramError :=
  match outgoing with
  | [] => Ok frontier
  | edge :: outgoing =>
      if bool_decide (target_entity_id edge ∈ path_nodes path)
      then extend_path limit path outgoing frontier
      else if (limit <=? length frontier)%nat then Err (OrderedPathFrontierExceeded limit)
      else extend_path limit path outgoing
             (frontier ++ [mk_PendingPath (path_nodes path ++ [target_entity_id edge])
                             (path_facts path ++ [fact_id edge])])
  end.

(** How the search ends: with an answer, or (never) out of fuel. *)
Inductive search_outcome :=
| Finished (r : result (option OrderedPathWitness) GraphProgramError)
| OutOfFuel.

Section search.
(** [graph.edges(node)] on the graph with the given edges. *)
Context (out_edges : list OrderedPathEdge -> string -> list OrderedPathEdge).

(** [while let Some(path) = frontier.pop_front()]. *)
Fixpoint search_loop (fuel : nat) (graph : list OrderedPathEdge) (target : string)
    (bounds : OrderedPathBounds) (frontier : list PendingPath) : search_outcome :=
  match frontier with
  | [] => Finished (Ok None)
  | path :: frontier =>
      match fuel with
      | O => OutOfFuel
      | S fuel =>
          let current := default ""%string (last (path_nodes path)) in
          if bool_decide (current = target)
          then Finished (Ok (Some (mk_OrderedPathWitness (path_nodes path) (path_facts path))))
          else if (max_path_length bounds <=? length (path_facts path))%nat
          then search_loop fuel graph target bounds frontier
          else
            match extend_path (max_frontier_paths bounds) path
                    (sort_by outgoing_cmp (out_edges graph current)) frontier with
            | Err e => Finished (Err e)
            | Ok frontier => search_loop fuel graph target bounds frontier
            end
      end
  end.

(** More iterations than there are bounded paths. *)
Definition search_fuel (graph : list OrderedPathEdge) (bounds : OrderedPathBounds) : nat :=
  (S (length graph)) ^ (S (max_path_length bounds)).

Definition bounded_shortest_path_witness (edges : list OrderedPathEdge)
    (source target : string) (bounds : OrderedPathBounds) : search_outcome :=
  match (let? _ := validate_bounded_text "path source entity"%string source in
         let? _ := validate_bounded_text "path target entity"%string target in
         let? _ := ensure (length edges <=? max_input_edges bounds)%nat
                     (OrderedPathInputEdgesExceeded (max_input_edges bounds) (length edges)) in
         let ordered := sort_by edge_cmp edges in
         let? _ := check_unique_facts ∅ ordered in
         let? _ := ensure (bool_decide (source ∈ node_identities ordered))
                     (UnknownOrderedPathEndpoint "source"%string source) in
         let? _ := ensure (bool_decide (target ∈ node_identities ordered))
                     (UnknownOrderedPathEndpoint "target"%string target) in
         Ok ordered) with
  | Err e => Finished (Err e)
  | Ok ordered =>
      search_loop (search_fuel ordered bounds) ordered target bounds [mk_PendingPath [source] []]
  end.
End search.
