(* ===== verification/PathTheory.v ===== *)
(** Correctness of the bounded ordered-path search: it terminates, its witness is the shortest path
    and among those the least by fact identities, absence of a witness means absence of a path,
    and the order of the input rows does not matter. *)

From S2P Require Import Prelude.
From S2P Require Import PathModel.
From stdpp Require Import sorting.
From Stdlib Require Strings.String.

Create HintDb path.

(** ** The order of strings *)

Definition str_lt (a b : string) : Prop := str_cmp a b = Lt.

Lemma ascii_compare_spec a b :
  Ascii.compare a b = (Ascii.N_of_ascii a ?= Ascii.N_of_ascii b)%N.
Proof. done. Qed.

Lemma str_cmp_refl a : str_cmp a a = Eq.
Proof.
  induction a as [|c a IH]; [done|]. unfold str_cmp in *. simpl.
  rewrite ascii_compare_spec, N.compare_refl. done.
Qed.

Lemma str_cmp_eq a b : str_cmp a b = Eq <-> a = b.
Proof. split; [apply String.compare_eq_iff|intros ->; apply str_cmp_refl]. Qed.

Lemma str_cmp_antisym a b : str_cmp a b = CompOpp (str_cmp b a).
Proof. apply String.compare_antisym. Qed.

Lemma str_cmp_gt a b : str_cmp a b = Gt <-> str_lt b a.
Proof.
  unfold str_lt. rewrite str_cmp_antisym. destruct (str_cmp b a); simpl; split; congruence.
Qed.

Lemma str_lt_irrefl a : ~ str_lt a a.
Proof. unfold str_lt. by rewrite str_cmp_refl. Qed.

Lemma str_lt_trans a b c : str_lt a b -> str_lt b c -> str_lt a c.
Proof.
  unfold str_lt, str_cmp. revert b c.
  induction a as [|x a IH]; intros [|y b] [|z c]; simpl; try done.
  rewrite !ascii_compare_spec.
  destruct (N.compare_spec (Ascii.N_of_ascii x) (Ascii.N_of_ascii y)) as [H1|H1|H1];
    destruct (N.compare_spec (Ascii.N_of_ascii y) (Ascii.N_of_ascii z)) as [H2|H2|H2]; try done;
    intros L1 L2.
  - rewrite H1, H2, N.compare_refl. eauto.
  - rewrite H1. by apply N.compare_lt_iff in H2 as ->.
  - rewrite <- H2. by apply N.compare_lt_iff in H1 as ->.
  - assert (Ascii.N_of_ascii x < Ascii.N_of_ascii z)%N as H3%N.compare_lt_iff by lia. by rewrite H3.
Qed.

Lemma str_lt_total a b : str_lt a b \/ a = b \/ str_lt b a.
Proof.
  destruct (str_cmp a b) eqn:E; [right; left; by apply str_cmp_eq|by left|right; right].
  by apply str_cmp_gt.
Qed.

(** ** Sorting *)

(** A comparison that is a total order. *)
Class TotalCmp (cmp : OrderedPathEdge -> OrderedPathEdge -> comparison) := {
  cmp_total : forall a b, cmp a b <> Gt \/ cmp b a <> Gt;
  cmp_trans : forall a b c, cmp a b <> Gt -> cmp b c <> Gt -> cmp a c <> Gt
}.

Lemma then_with_le c d : then_with c d <> Gt <-> c = Lt \/ (c = Eq /\ d <> Gt).
Proof. destruct c; simpl; naive_solver. Qed.

(** Comparing a first key, then a second comparison, keeps totality. *)
Lemma then_with_total (key : OrderedPathEdge -> string) cmp :
  TotalCmp cmp -> TotalCmp (fun a b => then_with (str_cmp (key a) (key b)) (cmp a b)).
Proof.
  intros [T1 T2]. split.
  - intros a b. rewrite !then_with_le. rewrite (str_cmp_antisym (key b) (key a)).
    destruct (str_cmp (key a) (key b)) eqn:E; simpl; auto. destruct (T1 a b); auto.
  - intros a b c. rewrite !then_with_le. rewrite !str_cmp_eq. intros [H1|[H1 H1']] [H2|[H2 H2']].
    + left. by eapply str_lt_trans.
    + left. by rewrite <- H2.
    + left. by rewrite H1.
    + right. split; [congruence|eauto].
Qed.

Lemma str_le_iff a b : str_cmp a b <> Gt <-> str_lt a b \/ a = b.
Proof. unfold str_lt. rewrite <- str_cmp_eq. destruct (str_cmp a b); naive_solver. Qed.

#[export] Instance key_total (key : OrderedPathEdge -> string) :
  TotalCmp (fun a b => str_cmp (key a) (key b)).
Proof.
  split.
  - intros a b. rewrite !str_le_iff. destruct (str_lt_total (key a) (key b)) as [|[|]]; auto.
  - intros a b c. rewrite !str_le_iff. intros [H1| ->] [H2|H2]; auto.
    + left. by eapply str_lt_trans.
    + rewrite <- H2. auto.
Qed.

#[export] Instance edge_cmp_total : TotalCmp edge_cmp.
Proof. unfold edge_cmp. apply then_with_total, then_with_total, key_total. Qed.
#[export] Instance outgoing_cmp_total : TotalCmp outgoing_cmp.
Proof. unfold outgoing_cmp. apply then_with_total, key_total. Qed.

Section sorting.
Context (cmp : OrderedPathEdge -> OrderedPathEdge -> comparison) `{TotalCmp cmp}.

Lemma sort_by_perm l : sort_by cmp l ≡ₚ l.
Proof. apply merge_sort_Permutation. Qed.

Lemma sort_by_sorted l : StronglySorted (fun a b => cmp a b <> Gt) (sort_by cmp l).
Proof.
  assert (Transitive (fun a b => cmp a b <> Gt)) by (intros a b c; apply cmp_trans).
  assert (Total (fun a b => cmp a b <> Gt)) by (intros a b; apply cmp_total).
  apply (StronglySorted_merge_sort (fun a b => cmp a b <> Gt)).
Qed.

(** Where the order separates the elements, the sorted list does not depend on the input's order. *)
Lemma sort_by_unique l1 l2 :
  (forall a b, a ∈ l1 -> b ∈ l1 -> cmp a b <> Gt -> cmp b a <> Gt -> a = b) ->
  l1 ≡ₚ l2 -> sort_by cmp l1 = sort_by cmp l2.
Proof.
  intros Hanti Hp.
  assert (sort_by cmp l1 ≡ₚ sort_by cmp l2) as Hs by (by rewrite !sort_by_perm).
  pose proof (sort_by_sorted l1) as S1. pose proof (sort_by_sorted l2) as S2.
  assert (forall x, x ∈ sort_by cmp l1 -> x ∈ l1) as Hin by (intros x; by rewrite sort_by_perm).
  revert S1 S2 Hs Hin. generalize (sort_by cmp l1) (sort_by cmp l2). clear Hp l2.
  intros k1. induction k1 as [|a k1 IH]; intros [|b k2] S1 S2 Hs Hin; try done.
  - by apply Permutation_nil_cons in Hs.
  - symmetry in Hs. by apply Permutation_nil_cons in Hs.
  - apply StronglySorted_inv in S1 as [S1 F1]. apply StronglySorted_inv in S2 as [S2 F2].
    rewrite Forall_forall in F1, F2.
    assert (a = b) as ->.
    { assert (a ∈ b :: k2) as Ha by (rewrite <- Hs; left).
      assert (b ∈ a :: k1) as Hb by (rewrite Hs; left).
      apply elem_of_cons in Ha as [->|Ha]; [done|]. apply elem_of_cons in Hb as [->|Hb]; [done|].
      apply Hanti; [apply Hin; left|apply Hin; by right|by apply F1|by apply F2]. }
    f_equal. apply IH; [done|done|by eapply Permutation_cons_inv|].
    intros x Hx. apply Hin. by right.
Qed.
End sorting.

(** ** Paths *)

Section paths.
Context (E : list OrderedPathEdge).
Implicit Types (p q d : list OrderedPathEdge) (e : OrderedPathEdge) (a b : string).

(** Consecutive edges of the graph, starting at [a]. *)
Fixpoint chain a p : Prop :=
  match p with
  | [] => True
  | e :: p => e ∈ E /\ source_entity_id e = a /\ chain (target_entity_id e) p
  end.

Definition nodes_of a p : list string := a :: (target_entity_id <$> p).
Definition end_of a p : string := default a (last (target_entity_id <$> p)).
Definition facts_of p : list string := fact_id <$> p.
(** No entity twice. *)
Definition simple a p : Prop := NoDup (nodes_of a p).

Lemma end_of_snoc a p e : end_of a (p ++ [e]) = target_entity_id e.
Proof.
  unfold end_of. rewrite fmap_app. change (target_entity_id <$> [e]) with [target_entity_id e].
  by rewrite last_snoc.
Qed.

Lemma end_of_cons a e p : end_of a (e :: p) = end_of (target_entity_id e) p.
Proof. unfold end_of. rewrite fmap_cons, last_cons. by destruct (last _). Qed.

Lemma last_nodes_of a p : default ""%string (last (nodes_of a p)) = end_of a p.
Proof. unfold nodes_of, end_of. rewrite last_cons. by destruct (last _). Qed.

Lemma chain_snoc a p e :
  chain a (p ++ [e]) <-> chain a p /\ e ∈ E /\ source_entity_id e = end_of a p.
Proof.
  revert a. induction p as [|e' p IH]; intros a; simpl; [naive_solver|].
  rewrite IH, end_of_cons. naive_solver.
Qed.

Lemma nodes_of_snoc a p e : nodes_of a (p ++ [e]) = nodes_of a p ++ [target_entity_id e].
Proof. unfold nodes_of. by rewrite fmap_app. Qed.

Lemma simple_snoc a p e : simple a (p ++ [e]) <-> simple a p /\ target_entity_id e ∉ nodes_of a p.
Proof.
  unfold simple. rewrite nodes_of_snoc, NoDup_app. split.
  - intros (? & Hd & _). split; [done|]. intros Hin. apply (Hd _ Hin). set_solver.
  - intros [? Hn]. split_and!; [done| |apply NoDup_singleton].
    intros x Hx Hx'. apply list_elem_of_singleton in Hx' as ->. done.
Qed.

Lemma facts_of_snoc p e : facts_of (p ++ [e]) = facts_of p ++ [fact_id e].
Proof. unfold facts_of. by rewrite fmap_app. Qed.

Lemma length_facts_of p : length (facts_of p) = length p.
Proof. apply length_fmap. Qed.

(** A path through [b] has a tail that starts at [b]. *)
Lemma chain_suffix a p b :
  chain a p -> b ∈ nodes_of a p ->
  exists p', chain b p' /\ end_of b p' = end_of a p /\ length p' <= length p.
Proof.
  revert a. induction p as [|e p IH]; intros a Hc Hb.
  - apply list_elem_of_singleton in Hb as ->. exists []. done.
  - apply elem_of_cons in Hb as [->|Hb]; [exists (e :: p); done|].
    destruct Hc as (? & ? & Hc). destruct (IH _ Hc Hb) as (p' & ? & Hend & ?).
    exists p'. rewrite end_of_cons. split_and!; [done|done|simpl; lia].
Qed.

(** A path that visits an entity twice can be shortened. *)
Lemma chain_shorten a p :
  chain a p -> simple a p \/ exists p', chain a p' /\ end_of a p' = end_of a p /\ length p' < length p.
Proof.
  revert a. induction p as [|e p IH]; intros a Hc; [left; apply NoDup_singleton|].
  destruct Hc as (He & Hs & Hc). destruct (IH _ Hc) as [Hsimple|(p' & Hc' & Hend & Hlen)].
  - destruct (decide (a ∈ nodes_of (target_entity_id e) p)) as [Hin|Hnin].
    + right. destruct (chain_suffix _ p a Hc Hin) as (p' & Hc' & Hend & Hlen).
      exists p'. rewrite end_of_cons. split_and!; [done|done|simpl; lia].
    + left. by apply NoDup_cons.
  - right. exists (e :: p'). rewrite !end_of_cons. split_and!; [done|done|simpl; lia].
Qed.

Lemma chain_simple a p :
  chain a p -> exists p', chain a p' /\ simple a p' /\ end_of a p' = end_of a p /\ length p' <= length p.
Proof.
  remember (length p) as n eqn:Hn. revert p Hn.
  induction n as [n IH] using lt_wf_ind. intros p -> Hc.
  destruct (chain_shorten a p Hc) as [Hs|(p' & Hc' & Hend & Hlen)]; [by exists p|].
  destruct (IH (length p') Hlen p' eq_refl Hc') as (p'' & ? & ? & ? & ?).
  exists p''. split_and!; [done|done|congruence|lia].
Qed.
End paths.

(** ** The order of paths: length first, then fact identities *)

Inductive lex_lt : list string -> list string -> Prop :=
| lex_here a b x y : str_lt a b -> length x = length y -> lex_lt (a :: x) (b :: y)
| lex_there a x y : lex_lt x y -> lex_lt (a :: x) (a :: y).
#[export] Hint Constructors lex_lt : path.

Lemma lex_lt_length x y : lex_lt x y -> length x = length y.
Proof. induction 1; simpl; congruence. Qed.

Lemma lex_lt_trans x y z : lex_lt x y -> lex_lt y z -> lex_lt x z.
Proof.
  intros Hxy. revert z. induction Hxy as [a b x y Hab Hlen|a x y Hxy IH]; intros z Hyz;
    inversion Hyz as [b' c y' z' Hbc Hlen'|b' y' z' Hyz']; subst.
  - constructor; [by eapply str_lt_trans|congruence].
  - apply lex_lt_length in Hyz'. constructor; [done|congruence].
  - apply lex_lt_length in Hxy. constructor; [done|congruence].
  - apply lex_there. eauto.
Qed.

Lemma lex_lt_irrefl x : ~ lex_lt x x.
Proof.
  induction x as [|a x IH]; intros H; inversion H; subst; [by eapply str_lt_irrefl|done].
Qed.

Lemma lex_lt_snoc x y a b : lex_lt x y -> lex_lt (x ++ [a]) (y ++ [b]).
Proof.
  induction 1; simpl; [apply lex_here; [done|]|by apply lex_there].
  rewrite !length_app. simpl. lia.
Qed.

Lemma lex_lt_last x a b : str_lt a b -> lex_lt (x ++ [a]) (x ++ [b]).
Proof. intros Hab. induction x; simpl; [by apply lex_here|by apply lex_there]. Qed.

Definition path_lt (x y : list string) : Prop := length x < length y \/ lex_lt x y.
Definition path_le (x y : list string) : Prop := x = y \/ path_lt x y.

Lemma path_lt_trans x y z : path_lt x y -> path_lt y z -> path_lt x z.
Proof.
  intros [H1|H1] [H2|H2]; unfold path_lt.
  - left. lia.
  - apply lex_lt_length in H2. left. lia.
  - apply lex_lt_length in H1. left. lia.
  - right. by eapply lex_lt_trans.
Qed.

Lemma path_lt_irrefl x : ~ path_lt x x.
Proof. intros [H|H]; [lia|by apply lex_lt_irrefl in H]. Qed.

Lemma path_lt_snoc x a : path_lt x (x ++ [a]).
Proof. left. rewrite length_app. simpl. lia. Qed.

Lemma path_le_app x y : path_le x (x ++ y).
Proof.
  destruct y as [|a y]; [left; by rewrite app_nil_r|right; left]. rewrite length_app. simpl. lia.
Qed.

Lemma path_le_trans x y z : path_le x y -> path_le y z -> path_le x z.
Proof. intros [->|H1] [->|H2]; unfold path_le; eauto using path_lt_trans. Qed.

(** ** The search *)

Section search.
Context (out_edges : list OrderedPathEdge -> string -> list OrderedPathEdge).
(** petgraph: [edges(n)] enumerates the edges out of [n], in some order. *)
Hypothesis out_edges_spec : forall es n,
  out_edges es n ≡ₚ filter (fun e => source_entity_id e = n) es.
Context (E : list OrderedPathEdge) (src tgt : string) (bounds : OrderedPathBounds).
Hypothesis facts_unique : NoDup (fact_id <$> E).
Implicit Types (p q d : list OrderedPathEdge) (D Q : list (list OrderedPathEdge)).

Abbreviation L := (max_path_length bounds).
Abbreviation before := (fun p q => path_lt (facts_of p) (facts_of q)).

(** The pending path of the code for a list of edges. *)
Definition pending p : PendingPath := mk_PendingPath (nodes_of src p) (facts_of p).

(** The extensions of [p] over [out] that stay simple, in order. *)
Definition extensions p (out : list OrderedPathEdge) : list (list OrderedPathEdge) :=
  (fun e => p ++ [e]) <$> filter (fun e => target_entity_id e ∉ nodes_of src p) out.

Lemma pending_snoc p e :
  mk_PendingPath (path_nodes (pending p) ++ [target_entity_id e]) (path_facts (pending p) ++ [fact_id e])
  = pending (p ++ [e]).
Proof. unfold pending. simpl. by rewrite facts_of_snoc, nodes_of_snoc. Qed.

Lemma extend_path_spec limit p out Q :
  extend_path limit (pending p) out (pending <$> Q)
  = (if bool_decide (extensions p out = [] \/ length Q + length (extensions p out) <= limit)
     then Ok (pending <$> Q ++ extensions p out)
     else Err (OrderedPathFrontierExceeded limit)).
Proof.
  revert Q. induction out as [|e out IH]; intros Q.
  { rewrite bool_decide_true by (by left). change (extensions p []) with (@nil (list OrderedPathEdge)).
    by rewrite app_nil_r. }
  cbn [extend_path]. change (path_nodes (pending p)) with (nodes_of src p) at 1.
  unfold extensions. rewrite filter_cons. destruct (decide (_ ∉ _)) as [Hn|Hn].
  - rewrite bool_decide_false by done. rewrite fmap_cons, pending_snoc.
    fold (extensions p out). rewrite length_fmap.
    destruct (Nat.leb_spec limit (length Q)).
    + rewrite bool_decide_false; [done|]. intros [?|?]; [done|simpl in *; lia].
    + change ([pending (p ++ [e])]) with (pending <$> [p ++ [e]]).
      rewrite <- fmap_app, IH, length_app, <- app_assoc. simpl.
      repeat case_bool_decide; try done; exfalso; [|naive_solver lia].
      destruct (extensions p out) as [|x l] eqn:Hx; naive_solver (simpl in *; lia).
  - rewrite bool_decide_true by (by apply dec_stable). apply IH.
Qed.

(** *** The edges out of an entity *)

Abbreviation outgoing n := (sort_by outgoing_cmp (out_edges E n)).

Lemma elem_of_outgoing e n : e ∈ outgoing n <-> e ∈ E /\ source_entity_id e = n.
Proof. rewrite sort_by_perm, out_edges_spec, list_elem_of_filter. naive_solver. Qed.

Lemma length_outgoing n : length (outgoing n) <= length E.
Proof. rewrite sort_by_perm, out_edges_spec. apply length_filter. Qed.

Lemma outgoing_facts_NoDup n : NoDup (fact_id <$> outgoing n).
Proof.
  rewrite sort_by_perm, out_edges_spec.
  eapply sublist_NoDup; [apply facts_unique|apply fmap_sublist, sublist_filter].
Qed.

Lemma outgoing_sorted n : StronglySorted (fun a b => str_lt (fact_id a) (fact_id b)) (outgoing n).
Proof.
  pose proof (sort_by_sorted outgoing_cmp (out_edges E n)) as Hs.
  pose proof (outgoing_facts_NoDup n) as Hn.
  induction Hs as [|a l Hs IH Ha]; [constructor|].
  rewrite fmap_cons in Hn. apply NoDup_cons in Hn as [Hnin Hn]. constructor; [by apply IH|].
  apply Forall_forall. intros b Hb. rewrite Forall_forall in Ha. specialize (Ha b Hb).
  apply then_with_le in Ha as [Ha|[Ha _]]; [done|].
  apply str_cmp_eq in Ha. destruct Hnin. rewrite Ha. by apply list_elem_of_fmap_2.
Qed.

Lemma elem_of_extensions p q n :
  q ∈ extensions p (outgoing n) <->
  exists e, q = p ++ [e] /\ e ∈ E /\ source_entity_id e = n /\ target_entity_id e ∉ nodes_of src p.
Proof.
  unfold extensions. rewrite list_elem_of_fmap. split.
  - intros (e & -> & He). apply list_elem_of_filter in He as [? He].
    apply elem_of_outgoing in He as [? ?]. eauto.
  - intros (e & -> & ? & ? & ?). exists e. split; [done|].
    apply list_elem_of_filter. split; [done|]. by apply elem_of_outgoing.
Qed.

Lemma extensions_sorted p n : StronglySorted before (extensions p (outgoing n)).
Proof.
  unfold extensions. pose proof (outgoing_sorted n) as Hs.
  induction Hs as [|a l Hs IH Ha]; [constructor|].
  rewrite filter_cons. case_decide as Hd; [|done].
  rewrite fmap_cons. constructor; [done|].
  apply Forall_forall. intros q Hq. apply list_elem_of_fmap in Hq as (b & -> & Hb).
  apply list_elem_of_filter in Hb as [_ Hb]. rewrite Forall_forall in Ha.
  right. rewrite !facts_of_snoc. apply lex_lt_last, Ha, Hb.
Qed.

Lemma length_extensions p n : length (extensions p (outgoing n)) <= length E.
Proof.
  unfold extensions. rewrite length_fmap. etrans; [apply length_filter|apply length_outgoing].
Qed.

(** *** The loop invariant *)

(** [D]: the paths taken off the queue; [Q]: the queue. *)
Record search_inv D Q : Prop := {
  inv_paths : forall p, p ∈ D ++ Q -> chain E src p /\ simple src p /\ length p <= L;
  inv_sorted : StronglySorted before Q;
  inv_before : forall d q, d ∈ D -> q ∈ Q -> path_lt (facts_of d) (facts_of q);
  inv_parent : forall q, q ∈ Q -> q = [] \/ exists d e, d ∈ D /\ q = d ++ [e];
  inv_root : [] ∈ D ++ Q;
  inv_closed : forall d e, d ∈ D -> length d < L -> e ∈ E -> source_entity_id e = end_of src d ->
    target_entity_id e ∉ nodes_of src d -> d ++ [e] ∈ D ++ Q;
  inv_not_target : forall d, d ∈ D -> end_of src d <> tgt
}.

Lemma search_inv_init : search_inv [] [[]].
Proof.
  split; try set_solver.
  - intros p ->%list_elem_of_singleton. split_and!; [done|apply NoDup_singleton|simpl; lia].
  - repeat constructor.
Qed.

(** The queue may move past [p] when the extensions of [p], if it can have any, join it. *)
Lemma search_inv_step D p Q kids :
  search_inv D (p :: Q) -> end_of src p <> tgt ->
  (forall q, q ∈ kids <-> length p < L /\ q ∈ extensions p (outgoing (end_of src p))) ->
  StronglySorted before kids ->
  search_inv (p :: D) (Q ++ kids).
Proof.
  intros [Hpaths Hsorted Hbefore Hparent Hroot Hclosed Htgt] Hp Hkids Hks.
  apply StronglySorted_inv in Hsorted as [HsQ HpQ]. rewrite Forall_forall in HpQ.
  assert (forall q, q ∈ kids -> length p < L /\ exists e, q = p ++ [e] /\ e ∈ E
            /\ source_entity_id e = end_of src p /\ target_entity_id e ∉ nodes_of src p) as Hkid.
  { intros q [? Hq]%Hkids. by apply elem_of_extensions in Hq. }
  assert (forall q, q ∈ kids -> path_lt (facts_of p) (facts_of q)) as Hpk.
  { intros q (? & e & -> & _)%Hkid. rewrite facts_of_snoc. apply path_lt_snoc. }
  destruct (Hpaths p) as (Hcp & Hsp & _); [set_solver|]. split.
  - intros q Hq. assert (q ∈ D ++ p :: Q \/ q ∈ kids) as [?|Hk] by set_solver; [by apply Hpaths|].
    apply Hkid in Hk as (Hlen & e & -> & He & Hs & Hn).
    rewrite chain_snoc, simple_snoc, length_app. split_and!; try done. simpl. lia.
  - apply StronglySorted_app_2; [|done..]. intros q k Hq Hk.
    destruct (Hkid k Hk) as (_ & f & -> & _). rewrite facts_of_snoc.
    specialize (HpQ q Hq). destruct (Hparent q) as [->|(d & e & Hd & ->)]; [set_solver| |].
    { destruct HpQ as [HpQ|HpQ]; [simpl in HpQ; lia|inversion HpQ]. }
    rewrite facts_of_snoc. specialize (Hbefore d p Hd ltac:(set_solver)).
    destruct Hbefore as [Hlt|Hlt]; [left|right; by apply lex_lt_snoc].
    rewrite !length_app. simpl. lia.
  - intros d q Hd Hq. apply elem_of_cons in Hd as [->|Hd]; [set_solver|].
    apply elem_of_app in Hq as [Hq|Hq]; [apply Hbefore; set_solver|].
    eapply path_lt_trans; [apply (Hbefore d p); set_solver|auto].
  - intros q Hq. apply elem_of_app in Hq as [Hq|Hq]; [|right; set_solver].
    destruct (Hparent q) as [->|(d & e & ? & ->)]; [set_solver|by left|right; set_solver].
  - set_solver.
  - intros d e Hd Hlen He Hs Hn. apply elem_of_cons in Hd as [->|Hd].
    + assert (p ++ [e] ∈ kids); [|set_solver]. apply Hkids. split; [done|].
      apply elem_of_extensions. eauto.
    + specialize (Hclosed d e Hd Hlen He Hs Hn). set_solver.
  - intros d Hd. apply elem_of_cons in Hd as [->|Hd]; auto.
Qed.

(** Every simple path within the bound is done or has a queued prefix. *)
Lemma search_inv_cover D Q p :
  search_inv D Q -> chain E src p -> simple src p -> length p <= L ->
  p ∈ D \/ exists q r, q ∈ Q /\ p = q ++ r.
Proof.
  intros Hinv. induction p as [|e p IH] using rev_ind; intros Hc Hs Hlen.
  { pose proof (inv_root _ _ Hinv) as [?|?]%elem_of_app; [by left|right]. by exists [], []. }
  rewrite length_app in Hlen. simpl in Hlen.
  apply chain_snoc in Hc as (Hc & He & Hsrc). apply simple_snoc in Hs as [Hs Hn].
  destruct IH as [Hd|(q & r & Hq & ->)]; [done|done|lia| |].
  - assert (p ++ [e] ∈ D ++ Q) as [?|?]%elem_of_app by (apply (inv_closed _ _ Hinv); auto; lia);
      [by left|right]. exists (p ++ [e]), []. by rewrite app_nil_r.
  - right. exists q, (r ++ [e]). by rewrite app_assoc.
Qed.

(** *** Results and termination *)

Definition bounded_path p : Prop := chain E src p /\ simple src p /\ length p <= L.

(** What an answer of the search says about the graph. *)
Definition search_result (r : result (option OrderedPathWitness) GraphProgramError) : Prop :=
  match r with
  | Ok (Some w) => exists p,
      bounded_path p /\ end_of src p = tgt /\ w = mk_OrderedPathWitness (nodes_of src p) (facts_of p)
      /\ forall p', chain E src p' -> end_of src p' = tgt -> path_le (facts_of p) (facts_of p')
  | Ok None => forall p, chain E src p -> end_of src p = tgt -> L < length p
  | Err e => e = OrderedPathFrontierExceeded (max_frontier_paths bounds)
      /\ exists ps, NoDup ps /\ max_frontier_paths bounds < length ps /\ forall p, p ∈ ps -> bounded_path p
  end.

(** A simple path that is least among the bounded simple ones is least among all walks. *)
Lemma least_simple_is_least p :
  length p <= L ->
  (forall p', bounded_path p' -> end_of src p' = tgt -> path_le (facts_of p) (facts_of p')) ->
  forall p', chain E src p' -> end_of src p' = tgt -> path_le (facts_of p) (facts_of p').
Proof.
  intros Hlen Hleast p' Hc Hend.
  destruct (decide (length p < length p')) as [Hlt|Hge].
  { right. left. by rewrite !length_facts_of. }
  destruct (chain_shorten E src p' Hc) as [Hs|(q & Hq & Hqend & Hqlen)].
  { apply Hleast; [split_and!; [done|done|lia]|done]. }
  destruct (chain_simple E src q Hq) as (q' & Hc' & Hs' & Hend' & Hlen').
  destruct (Hleast q') as [Heq|[Hlt|Hlt]]; [split_and!; [done|done|lia]|congruence| | |].
  - apply (f_equal length) in Heq. rewrite !length_facts_of in Heq. lia.
  - rewrite !length_facts_of in Hlt. lia.
  - apply lex_lt_length in Hlt. rewrite !length_facts_of in Hlt. lia.
Qed.

Lemma search_found D p Q :
  search_inv D (p :: Q) -> end_of src p = tgt ->
  search_result (Ok (Some (mk_OrderedPathWitness (nodes_of src p) (facts_of p)))).
Proof.
  intros Hinv Hend. destruct (inv_paths _ _ Hinv p) as (Hc & Hs & Hlen); [set_solver|].
  exists p. split_and!; [done..|]. apply least_simple_is_least; [done|].
  intros p' (Hc' & Hs' & Hlen') Hend'.
  destruct (search_inv_cover _ _ p' Hinv Hc' Hs' Hlen') as [Hd|(q & r & Hq & ->)].
  { by apply (inv_not_target _ _ Hinv) in Hd. }
  apply path_le_trans with (facts_of q).
  - apply elem_of_cons in Hq as [->|Hq]; [by left|right].
    destruct (StronglySorted_inv (inv_sorted _ _ Hinv)) as [_ HF].
    rewrite Forall_forall in HF. auto.
  - unfold facts_of. rewrite fmap_app. apply path_le_app.
Qed.

Lemma search_exhausted D : search_inv D [] -> search_result (Ok None).
Proof.
  intros Hinv p Hc Hend. destruct (decide (length p <= L)) as [Hlen|]; [exfalso|lia].
  destruct (chain_simple E src p Hc) as (q & Hcq & Hsq & Hendq & Hlenq).
  destruct (search_inv_cover _ _ q Hinv Hcq Hsq ltac:(lia)) as [Hd|(q' & r & Hq & _)].
  - apply (inv_not_target _ _ Hinv) in Hd. congruence.
  - set_solver.
Qed.

Lemma before_sorted_NoDup Q : StronglySorted before Q -> NoDup Q.
Proof.
  induction 1 as [|p Q Hs IH Hp]; constructor; [|done]. intros Hin.
  rewrite Forall_forall in Hp. by apply Hp, path_lt_irrefl in Hin.
Qed.

Definition weight p : nat := S (length E) ^ (S L - length p).
Definition queue_weight Q : nat := sum_list (weight <$> Q).

Lemma weight_pos p : 0 < weight p.
Proof. unfold weight. pose proof (Nat.pow_nonzero (S (length E)) (S L - length p)). lia. Qed.

Lemma queue_weight_app Q1 Q2 : queue_weight (Q1 ++ Q2) = queue_weight Q1 + queue_weight Q2.
Proof. unfold queue_weight. by rewrite fmap_app, sum_list_with_app. Qed.

Lemma extensions_weight p n :
  length p < L -> queue_weight (extensions p (outgoing n)) < weight p.
Proof.
  intros Hlen. set (w := S (length E) ^ (L - length p)).
  assert (queue_weight (extensions p (outgoing n)) = length (extensions p (outgoing n)) * w) as ->.
  { unfold extensions, queue_weight. induction (filter _ _) as [|e l IH]; [done|].
    rewrite !fmap_cons. simpl. rewrite IH. f_equal.
    unfold weight, w. rewrite length_app. simpl. f_equal. lia. }
  assert (weight p = S (length E) * w) as ->.
  { unfold weight, w. replace (S L - length p) with (S (L - length p)) by lia. done. }
  assert (0 < w) by (unfold w; pose proof (Nat.pow_nonzero (S (length E)) (L - length p)); lia).
  pose proof (length_extensions p n). nia.
Qed.

Lemma search_overflow D p Q :
  search_inv D (p :: Q) -> end_of src p <> tgt -> length p < L ->
  max_frontier_paths bounds < length (Q ++ extensions p (outgoing (end_of src p))) ->
  search_result (Err (OrderedPathFrontierExceeded (max_frontier_paths bounds))).
Proof.
  intros Hinv Hend Hlen Hlim. split; [done|].
  eapply search_inv_step in Hinv as Hinv'; [|done| |apply extensions_sorted].
  - eexists. split_and!; [apply before_sorted_NoDup, (inv_sorted _ _ Hinv')|exact Hlim|].
    intros q Hq. apply (inv_paths _ _ Hinv'). set_solver.
  - intros q. split; [done|by intros [_ ?]].
Qed.

Lemma search_loop_correct fuel D Q :
  search_inv D Q -> queue_weight Q <= fuel ->
  exists r, search_loop out_edges fuel E tgt bounds (pending <$> Q) = Finished r /\ search_result r.
Proof.
  revert D Q. induction fuel as [|fuel IH]; intros D [|p Q] Hinv Hfuel;
    try (eexists; split; [done|by eapply search_exhausted]).
  { pose proof (weight_pos p). unfold queue_weight in Hfuel. simpl in Hfuel. lia. }
  rewrite fmap_cons. cbn [search_loop].
  change (path_nodes (pending p)) with (nodes_of src p).
  change (path_facts (pending p)) with (facts_of p).
  rewrite last_nodes_of, length_facts_of. pose proof (weight_pos p).
  assert (weight p + queue_weight Q <= S fuel) as Hw by done.
  case_bool_decide as Hend; [eexists; split; [done|by eapply search_found]|].
  destruct (Nat.leb_spec L (length p)) as [HL|HL].
  - apply (IH (p :: D)); [|lia]. rewrite <- (app_nil_r Q).
    eapply search_inv_step; [done|done| |constructor]. intros q. split; [set_solver|lia].
  - rewrite extend_path_spec. case_bool_decide as Hlim.
    + pose proof (extensions_weight p (end_of src p) HL).
      apply (IH (p :: D)); [|rewrite queue_weight_app; lia].
      eapply search_inv_step; [done|done| |apply extensions_sorted].
      intros q. split; [done|by intros [_ ?]].
    + eexists. split; [done|]. eapply search_overflow; [done..|]. rewrite length_app.
      destruct (decide (length Q + length (extensions p (outgoing (end_of src p)))
                        <= max_frontier_paths bounds)); [|lia]. destruct Hlim. by right.
Qed.

Lemma search_from_source :
  exists r, search_loop out_edges (search_fuel E bounds) E tgt bounds [mk_PendingPath [src] []]
            = Finished r /\ search_result r.
Proof.
  apply (search_loop_correct _ [] [[]]); [apply search_inv_init|].
  unfold queue_weight, weight, search_fuel. simpl. lia.
Qed.
End search.

(** ** Requests *)

Definition text_ok (s : string) : Prop := 0 < String.length s <= 240.

Lemma validate_bounded_text_spec kind s :
  validate_bounded_text kind s = Ok tt /\ text_ok s
  \/ validate_bounded_text kind s = Err (InvalidText kind s) /\ ~ text_ok s.
Proof.
  unfold validate_bounded_text, text_ok.
  destruct (Nat.eqb_spec (String.length s) 0), (Nat.ltb_spec 240 (String.length s)); simpl;
    [right|right|right|left]; (split; [done|lia]).
Qed.

Lemma check_unique_facts_spec seen es :
  check_unique_facts seen es = Ok tt /\ NoDup (fact_id <$> es)
    /\ (forall e, e ∈ es -> fact_id e ∉ seen)
  \/ (exists f, check_unique_facts seen es = Err (DuplicateOrderedPathFact f))
    /\ ~ (NoDup (fact_id <$> es) /\ forall e, e ∈ es -> fact_id e ∉ seen).
Proof.
  revert seen. induction es as [|e es IH]; intros seen.
  { left. split_and!; [done|apply NoDup_nil_2|set_solver]. }
  cbn [check_unique_facts]. rewrite fmap_cons, NoDup_cons. case_bool_decide as Hin.
  { right. split; [by eexists|]. intros [_ H]. apply (H e); set_solver. }
  destruct (IH ({[fact_id e]} ∪ seen)) as [(-> & Hnd & Hs)|[[f ->] Hno]]; [left|right].
  - split_and!; [done| |done|].
    + intros (e' & Heq & He')%list_elem_of_fmap. apply (Hs e' He'). set_solver.
    + intros e' [->|He']%elem_of_cons; [done|]. specialize (Hs e' He'). set_solver.
  - split; [by eexists|]. intros [[Hni Hnd] Hs]. apply Hno. split; [done|].
    intros e' He'. apply not_elem_of_union. split; [|apply Hs; set_solver].
    intros Heq%elem_of_singleton. apply Hni. rewrite <- Heq. by apply list_elem_of_fmap_2.
Qed.

Lemma check_unique_facts_empty es :
  check_unique_facts ∅ es = Ok tt /\ NoDup (fact_id <$> es)
  \/ (exists f, check_unique_facts ∅ es = Err (DuplicateOrderedPathFact f))
    /\ ~ NoDup (fact_id <$> es).
Proof.
  destruct (check_unique_facts_spec ∅ es) as [(? & ? & _)|[? Hno]]; [by left|right].
  split; [done|]. intros Hnd. apply Hno. set_solver.
Qed.

Lemma elem_of_node_identities x es :
  x ∈ node_identities es <->
  exists e, e ∈ es /\ (x = source_entity_id e \/ x = target_entity_id e).
Proof.
  unfold node_identities. rewrite list_elem_of_In, in_flat_map. setoid_rewrite <- list_elem_of_In.
  split; intros (e & ? & Hx); exists e; (split; [done|]); set_solver.
Qed.

#[export] Instance node_identities_proper x :
  Proper ((≡ₚ) ==> iff) (fun es => x ∈ node_identities es).
Proof. intros l1 l2 Hp. rewrite !elem_of_node_identities. by setoid_rewrite Hp. Qed.

(** The requests the search runs on. *)
Record well_formed_request (edges : list OrderedPathEdge) (source target : string)
    (bounds : OrderedPathBounds) : Prop := {
  wf_source : text_ok source;
  wf_target : text_ok target;
  wf_edges : length edges <= max_input_edges bounds;
  wf_facts : NoDup (fact_id <$> edges);
  wf_source_known : source ∈ node_identities edges;
  wf_target_known : target ∈ node_identities edges
}.

Definition is_frontier_error (e : GraphProgramError) : Prop :=
  match e with OrderedPathFrontierExceeded _ => True | _ => False end.

(** A failed check: the request is ill-formed and the error is not the frontier's. *)
Ltac rejected :=
  split; [intros []; (lia || done)|eexists; split; [done|intros []]].

(** The checks before the search accept exactly the well-formed requests. *)
Lemma request_checks out edges source target bounds :
  let ordered := sort_by edge_cmp edges in
  well_formed_request edges source target bounds
    /\ bounded_shortest_path_witness out edges source target bounds
       = search_loop out (search_fuel ordered bounds) ordered target bounds [mk_PendingPath [source] []]
  \/ ~ well_formed_request edges source target bounds
    /\ exists e, bounded_shortest_path_witness out edges source target bounds = Finished (Err e)
         /\ ~ is_frontier_error e.
Proof.
  intros ordered. pose proof (sort_by_perm edge_cmp edges) as Hp. fold ordered in Hp.
  assert (forall x, x ∈ node_identities ordered <-> x ∈ node_identities edges) as Hid
    by (intros x; by apply node_identities_proper).
  unfold bounded_shortest_path_witness, ensure. fold ordered.
  destruct (validate_bounded_text_spec "path source entity" source) as [[-> Hs]|[-> Hs]];
    [|right; by rejected].
  destruct (validate_bounded_text_spec "path target entity" target) as [[-> Ht]|[-> Ht]];
    [|right; by rejected].
  destruct (Nat.leb_spec (length edges) (max_input_edges bounds));
    [|right; by rejected].
  destruct (check_unique_facts_empty ordered) as [[-> Hn]|[[f ->] Hn]]; rewrite Hp in Hn;
    [|right; by rejected].
  case_bool_decide as H1; rewrite Hid in H1; [|right; by rejected].
  case_bool_decide as H2; rewrite Hid in H2; [|right; by rejected].
  left. split; [by split|done].
Qed.

(** ** Claims *)

Lemma chain_perm E1 E2 a p : E1 ≡ₚ E2 -> chain E1 a p -> chain E2 a p.
Proof.
  intros Hp. revert a. induction p as [|e p IH]; intros a; simpl; [done|].
  intros (? & ? & ?). split_and!; [by rewrite <- Hp|done|auto].
Qed.

Definition out_edges_law (out : list OrderedPathEdge -> string -> list OrderedPathEdge) : Prop :=
  forall es n, out es n ≡ₚ filter (fun e => source_entity_id e = n) es.

(** The search on the sorted rows answers for the rows as given. *)
Lemma search_of_well_formed out edges source target bounds :
  out_edges_law out -> well_formed_request edges source target bounds ->
  exists r, bounded_shortest_path_witness out edges source target bounds = Finished r
    /\ search_result edges source target bounds r.
Proof.
  intros Hout Hwf. destruct (request_checks out edges source target bounds) as [[_ ->]|[Hn _]];
    [|done].
  pose proof (sort_by_perm edge_cmp edges) as Hp.
  destruct (search_from_source out Hout (sort_by edge_cmp edges) source target bounds)
    as (r & -> & Hr); [rewrite Hp; apply (wf_facts _ _ _ _ Hwf)|].
  exists r. split; [done|]. symmetry in Hp. destruct r as [[w|]|e]; simpl in *.
  - destruct Hr as (p & (Hc & Hs) & Hend & -> & Hmin). exists p.
    split_and!; try done; [split; [by eapply chain_perm|done]|].
    intros p' Hp'. apply Hmin. by eapply chain_perm.
  - intros p Hpc. apply Hr. by eapply chain_perm.
  - destruct Hr as (-> & ps & ? & ? & Hps). split; [done|]. exists ps. split_and!; [done..|].
    intros p (? & ?)%Hps. split; [by eapply chain_perm|done].
Qed.

(** C26: the search always returns. A witness it returns is a path of input rows from the source to
    the target that repeats no entity and respects [max_path_length], and no walk from source to
    target, however long, is shorter or as short with lexicographically smaller fact identities. *)
Theorem path_witness_is_shortest_and_least out edges source target bounds :
  out_edges_law out ->
  exists r, bounded_shortest_path_witness out edges source target bounds = Finished r
    /\ forall w, r = Ok (Some w) ->
       exists p, chain edges source p /\ end_of source p = target
         /\ NoDup (ordered_entity_ids w) /\ witness_length w <= max_path_length bounds
         /\ ordered_entity_ids w = source :: (target_entity_id <$> p)
         /\ ordered_fact_ids w = fact_id <$> p
         /\ forall p', chain edges source p' -> end_of source p' = target ->
              path_le (ordered_fact_ids w) (fact_id <$> p').
Proof.
  intros Hout. destruct (request_checks out edges source target bounds) as [[Hwf _]|[_ (e & -> & _)]];
    [|by eexists].
  destruct (search_of_well_formed out edges source target bounds Hout Hwf) as (r & -> & Hr).
  exists r. split; [done|]. intros w ->. destruct Hr as (p & (? & ? & ?) & ? & -> & Hmin).
  exists p. split_and!; try done. unfold witness_length. simpl. by rewrite length_facts_of.
Qed.

(** C27: a search that does not fail answers [None] exactly when every walk from source to target is
    longer than [max_path_length]. *)
Theorem path_absence_is_exact out edges source target bounds o :
  out_edges_law out ->
  bounded_shortest_path_witness out edges source target bounds = Finished (Ok o) ->
  o = None <-> forall p, chain edges source p -> end_of source p = target ->
                 max_path_length bounds < length p.
Proof.
  intros Hout Hr. destruct (request_checks out edges source target bounds) as [[Hwf _]|[_ (e & He & _)]];
    [|congruence].
  destruct (search_of_well_formed out edges source target bounds Hout Hwf) as (r & Hr' & Hres).
  rewrite Hr in Hr'. injection Hr' as <-. destruct o as [w|]; [|done]. split; [done|].
  destruct Hres as (p & (Hc & _ & Hlen) & Hend & _). intros Hno. specialize (Hno p Hc Hend). lia.
Qed.

(** C28: the search is refused before it starts exactly when an endpoint's text is out of bounds,
    there are too many rows, two rows share a fact identity or an endpoint occurs in no row; a
    well-formed request fails only with the frontier bound, and only when the graph has more
    distinct bounded simple paths from the source than the frontier may hold. *)
Theorem path_errors_are_exact out edges source target bounds :
  out_edges_law out ->
  (well_formed_request edges source target bounds <->
   forall e, bounded_shortest_path_witness out edges source target bounds = Finished (Err e) ->
     e = OrderedPathFrontierExceeded (max_frontier_paths bounds))
  /\ forall n, bounded_shortest_path_witness out edges source target bounds
               = Finished (Err (OrderedPathFrontierExceeded n)) ->
     exists ps, NoDup ps /\ max_frontier_paths bounds < length ps
       /\ forall p, p ∈ ps -> bounded_path edges source bounds p.
Proof.
  intros Hout. destruct (request_checks out edges source target bounds) as [[Hwf _]|[Hwf (e & He & Hf)]].
  - destruct (search_of_well_formed out edges source target bounds Hout Hwf) as (r & -> & Hr). split.
    + split; [|done]. intros _ e [= ->]. apply Hr.
    + intros n [= ->]. apply Hr.
  - rewrite He. split; [split; [done|]|].
    + intros H. rewrite (H e eq_refl) in Hf. destruct Hf. done.
    + intros n [= ->]. destruct Hf. done.
Qed.

(** Two strings compared first in a lexicographic order are equal when neither is greater. *)
Lemma then_with_antisym x y c d :
  then_with (str_cmp x y) c <> Gt -> then_with (str_cmp y x) d <> Gt ->
  x = y /\ c <> Gt /\ d <> Gt.
Proof.
  rewrite (str_cmp_antisym y x). destruct (str_cmp x y) eqn:H; simpl; try done.
  apply str_cmp_eq in H as ->. done.
Qed.

Lemma edge_cmp_separates a b : edge_cmp a b <> Gt -> edge_cmp b a <> Gt -> a = b.
Proof.
  intros H1 H2. destruct (then_with_antisym _ _ _ _ H1 H2) as (Hf & H3 & H4).
  destruct (then_with_antisym _ _ _ _ H3 H4) as (Hs & H5 & H6).
  destruct a as [f s t], b as [f' s' t']. simpl in *. subst. f_equal.
  rewrite str_le_iff in H5, H6. destruct H5 as [H5|]; [|done]. destruct H6 as [H6|]; [|done].
  exfalso. by eapply str_lt_irrefl, str_lt_trans.
Qed.

Lemma sorted_outgoing_unique out1 out2 es n :
  out_edges_law out1 -> out_edges_law out2 -> NoDup (fact_id <$> es) ->
  sort_by outgoing_cmp (out1 es n) = sort_by outgoing_cmp (out2 es n).
Proof.
  intros H1 H2 Hnd. apply sort_by_unique; [typeclasses eauto| |by rewrite (H1 es n), (H2 es n)].
  assert (forall a, a ∈ out1 es n -> a ∈ es) as Hin.
  { intros a. rewrite (H1 es n). by intros [_ ?]%list_elem_of_filter. }
  intros a b Ha%Hin Hb%Hin Hab Hba. destruct (then_with_antisym _ _ _ _ Hab Hba) as (Hf & _).
  apply list_elem_of_lookup in Ha as [i Ha], Hb as [j Hb].
  assert (i = j) as ->; [|congruence].
  apply (NoDup_lookup (fact_id <$> es) i j (fact_id a)); [done|by rewrite list_lookup_fmap, Ha|].
  by rewrite list_lookup_fmap, Hb, Hf.
Qed.

Lemma search_loop_outgoing out1 out2 fuel es target bounds frontier :
  (forall n, sort_by outgoing_cmp (out1 es n) = sort_by outgoing_cmp (out2 es n)) ->
  search_loop out1 fuel es target bounds frontier = search_loop out2 fuel es target bounds frontier.
Proof.
  intros Hout. revert frontier. induction fuel as [|fuel IH]; intros [|p frontier]; try done.
  cbn [search_loop]. rewrite Hout. case_bool_decide; [done|]. destruct (_ <=? _); [done|].
  destruct (extend_path _ _ _ _); done.
Qed.

(** The answer depends neither on the order of the input rows nor on the order in which the
    graph library enumerates the edges of a node. *)
Theorem path_search_ignores_row_order out1 out2 edges1 edges2 source target bounds :
  out_edges_law out1 -> out_edges_law out2 -> edges1 ≡ₚ edges2 ->
  bounded_shortest_path_witness out1 edges1 source target bounds
  = bounded_shortest_path_witness out2 edges2 source target bounds.
Proof.
  intros H1 H2 Hp. unfold bounded_shortest_path_witness.
  assert (sort_by edge_cmp edges1 = sort_by edge_cmp edges2) as ->.
  { apply sort_by_unique; [typeclasses eauto| |done]. intros a b _ _. apply edge_cmp_separates. }
  rewrite (Permutation_length Hp).
  destruct (check_unique_facts_empty (sort_by edge_cmp edges2)) as [[-> Hnd]|[[f ->] _]].
  - repeat (destruct (validate_bounded_text _ _); [|done]). repeat (destruct (ensure _ _); [|done]).
    apply search_loop_outgoing. intros n. by apply sorted_outgoing_unique.
  - repeat (destruct (validate_bounded_text _ _); [|done]). by destruct (ensure _ _).
Qed.

(** ** Witnesses *)

(** A diamond with a longer way round: two shortest paths from [a] to [d], told apart by their
    fact identities. *)
Module PathSample.
Local Open Scope string_scope.
Definition out (es : list OrderedPathEdge) (n : string) : list OrderedPathEdge :=
  filter (fun e => source_entity_id e = n) es.
Definition edges : list OrderedPathEdge :=
  [mk_OrderedPathEdge "f5" "c" "d"; mk_OrderedPathEdge "f1" "a" "b"; mk_OrderedPathEdge "f4" "b" "d";
   mk_OrderedPathEdge "f2" "a" "c"; mk_OrderedPathEdge "f3" "b" "c"; mk_OrderedPathEdge "f0" "d" "a"].
Definition bounds : OrderedPathBounds := mk_OrderedPathBounds 3 10 10.
Definition answer : OrderedPathWitness := mk_OrderedPathWitness ["a"; "b"; "d"] ["f1"; "f4"].
End PathSample.

Lemma sample_out_law : out_edges_law PathSample.out.
Proof. intros es n. done. Qed.

Lemma path_witness_is_shortest_and_least_witness :
  bounded_shortest_path_witness PathSample.out PathSample.edges "a" "d" PathSample.bounds
  = Finished (Ok (Some PathSample.answer))
  /\ path_le ["f1"; "f4"]%string ["f2"; "f5"]%string.
Proof.
  destruct (path_witness_is_shortest_and_least PathSample.out PathSample.edges "a" "d"
              PathSample.bounds sample_out_law) as (r & Hr & Hw).
  assert (bounded_shortest_path_witness PathSample.out PathSample.edges "a" "d" PathSample.bounds
          = Finished (Ok (Some PathSample.answer))) as E by (vm_compute; reflexivity).
  split; [exact E|]. rewrite E in Hr. injection Hr as <-.
  destruct (Hw _ eq_refl) as (p & _ & _ & _ & _ & _ & _ & Hmin).
  apply (Hmin [mk_OrderedPathEdge "f2" "a" "c"; mk_OrderedPathEdge "f5" "c" "d"]); [|done].
  unfold PathSample.edges. simpl. split_and!; try done; rewrite !elem_of_cons; tauto.
Defined.

Lemma path_absence_is_exact_witness :
  bounded_shortest_path_witness PathSample.out PathSample.edges "c" "b" (mk_OrderedPathBounds 2 10 10)
  = Finished (Ok None)
  /\ forall p, chain PathSample.edges "c" p -> end_of "c" p = "b"%string -> 2 < length p.
Proof.
  split; [vm_compute; reflexivity|].
  apply (path_absence_is_exact PathSample.out PathSample.edges "c" "b"
           (mk_OrderedPathBounds 2 10 10) None sample_out_law); vm_compute; reflexivity.
Defined.

Lemma path_errors_are_exact_witness :
  bounded_shortest_path_witness PathSample.out PathSample.edges "a" "z" PathSample.bounds
  = Finished (Err (UnknownOrderedPathEndpoint "target" "z"))
  /\ ~ well_formed_request PathSample.edges "a" "z" PathSample.bounds.
Proof.
  split; [vm_compute; reflexivity|].
  destruct (path_errors_are_exact PathSample.out PathSample.edges "a" "z" PathSample.bounds
              sample_out_law) as [[H _] _].
  intros Hwf. specialize (H Hwf (UnknownOrderedPathEndpoint "target" "z")).
  discriminate H. vm_compute. reflexivity.
Defined.

Lemma path_search_ignores_row_order_witness :
  bounded_shortest_path_witness (fun es n => reverse (PathSample.out es n)) (reverse PathSample.edges)
    "a" "d" PathSample.bounds
  = Finished (Ok (Some PathSample.answer)).
Proof.
  rewrite (path_search_ignores_row_order _ PathSample.out _ PathSample.edges).
  - vm_compute. reflexivity.
  - intros es n. apply reverse_Permutation.
  - apply sample_out_law.
  - apply reverse_Permutation.
Defined.
