(* ===== verification/QueryModel.v ===== *)
(** The data and the pure functions of src/src/fabric/query_coordinator.rs: operations and their
    fingerprint, the policy, control events and their public projection, the validators of result
    locators and retention, hexadecimal text and the resume cursor.

    BLAKE3 and the JSON encoder and decoder are arguments of the definitions that use them. *)

From S2P Require Import Prelude.
From S2P Require Import Encoding.
From S2P Require Import CommandModel.
From S2P Require Import BudgetModel.
From S2P Require Import Freshness.
From Stdlib Require Strings.String.
Local Open Scope Z_scope.

(** ** Errors *)

Inductive QueryCoordinatorError :=
| Resource (e : ResourceBudgetError) | IntegerRange | InvalidPolicy (what : string)
| InvalidCoordinatorIdentity | InvalidIdentity | InvalidSessionAuthority | InvalidIdempotencyKey
| InvalidCancellationId | CancellationCapacity | InvalidOperationField (name : string)
| InvalidOperationBounds | NonCanonicalRequest | DeadlineElapsed | IdempotencyConflict
| AdmissionBackpressure | ResultCapacityBackpressure | TaskCapacity | JournalCapacity
| TerminalReservationBroken | TerminalRequiresClosure | AlreadyTerminal | Cancelled
| UnknownQuery (query_id : string) | QueryOwnerMismatch | QueryIdentityCollision | ResultMissing
| ResultReservationExceeded | ResultNotReleasable | InvalidResultRetentionState
| InvalidRetainedPackageLocator | PublicationIntentMissing | PublicationIntentConflict
| CursorExpiry | InvalidCursor | CursorBinding | RecoveryLimit | RecoveryCapacity
| CoordinatorState_unavailable | JournalState | NonCanonicalJournalRecord | CounterOverflow
| InvalidHex | CanonicalRequest | JournalEncoding | Sqlite (what : string) | Io (what : string)
| StructuredTask (what : string).

(** ** Session authority and the normalized operation *)

Inductive QuerySessionSharingClass := PrincipalBound.

Record QuerySessionAuthority := mk_QuerySessionAuthority {
  sa_principal_id : PrincipalId;
  sa_policy_generation : Z;
  sa_revocation_generation : Z;
  sa_sharing_class : QuerySessionSharingClass
}.

#[export] Instance QuerySessionSharingClass_eq_dec : EqDecision QuerySessionSharingClass.
Proof. solve_decision. Defined.
#[export] Instance QuerySessionAuthority_eq_dec : EqDecision QuerySessionAuthority.
Proof. solve_decision. Defined.

Definition QuerySessionAuthority_try_new (principal : PrincipalId) (policy_generation revocation_generation : Z)
    (sharing : QuerySessionSharingClass) : result QuerySessionAuthority QueryCoordinatorError :=
  if (all_zero (as_bytes principal) || (policy_generation =? 0) || (revocation_generation =? 0))%bool
  then Err InvalidSessionAuthority
  else Ok (mk_QuerySessionAuthority principal policy_generation revocation_generation sharing).

Record NormalizedQueryOperation := mk_NormalizedQueryOperation {
  op_workspace_id : WorkspaceId;
  op_principal_id : PrincipalId;
  op_policy_generation : Z;
  op_revocation_generation : Z;
  op_sharing_class : QuerySessionSharingClass;
  op_idempotency_key : string;
  op_canonical_request : list byte;
  op_semantic_profile : string;
  op_request_contract : string;
  op_response_contract : string;
  op_delivery_profile : string;
  op_compression_profile : string;
  op_freshness_policy : string;
  op_epoch_policy : string;
  op_deadline_unix_ms : Z;
  op_lease_expires_at_unix_ms : Z;
  op_maximum_result_bytes : Z;
  op_maximum_result_pages : Z
}.

(** The loop over the seven named text fields. *)
Fixpoint validate_operation_fields (fields : list (string * string)) : result unit QueryCoordinatorError :=
  match fields with
  | [] => Ok tt
  | (name, value) :: fields =>
      if (is_empty value || (256 <? len value) || negb (is_ascii value))%bool
      then Err (InvalidOperationField name)
      else validate_operation_fields fields
  end.

Section operation.
(** Decoding a JSON text and encoding the value canonically; [None] when either fails. *)
Context (canonical_json : list byte -> option (list byte)).

Definition NormalizedQueryOperation_try_new (op : NormalizedQueryOperation)
  : result NormalizedQueryOperation QueryCoordinatorError :=
  let? _ := ensure (negb (all_zero (as_bytes (op_workspace_id op))
                          || all_zero (as_bytes (op_principal_id op))
                          || (op_policy_generation op =? 0) || (op_revocation_generation op =? 0)))%bool
              InvalidSessionAuthority in
  let? _ := ensure (negb (is_empty (op_idempotency_key op) || (256 <? len (op_idempotency_key op))))%bool
              InvalidIdempotencyKey in
  let? _ := validate_operation_fields
              [("semantic_profile"%string, op_semantic_profile op);
               ("request_contract"%string, op_request_contract op);
               ("response_contract"%string, op_response_contract op);
               ("delivery_profile"%string, op_delivery_profile op);
               ("compression_profile"%string, op_compression_profile op);
               ("freshness_policy"%string, op_freshness_policy op);
               ("epoch_policy"%string, op_epoch_policy op)] in
  let? _ := ensure (negb ((op_deadline_unix_ms op <=? 0)
                          || (op_lease_expires_at_unix_ms op <=? op_deadline_unix_ms op)
                          || (op_maximum_result_bytes op =? 0) || (op_maximum_result_pages op =? 0)))%bool
              InvalidOperationBounds in
  let? canonical := ok_or (canonical_json (op_canonical_request op)) CanonicalRequest in
  let? _ := ensure (bool_decide (canonical = op_canonical_request op)) NonCanonicalRequest in
  Ok op.
End operation.

(** [frame(&mut hasher, bytes)]: the bytes it appends to what is hashed. *)
Definition query_frame (bytes : list byte) : list byte :=
  (to_be_bytes 8 (wrap64 (Z.of_nat (length bytes))) ++ bytes)%list.

(** Everything the operation's hasher is fed, in order. *)
Definition fingerprint_preimage (op : NormalizedQueryOperation) : list byte :=
  (query_frame (String.list_byte_of_string "codefabric.normalized-query-operation.v2"%string)
   ++ query_frame (as_slice (as_bytes (op_workspace_id op)))
   ++ query_frame (as_slice (as_bytes (op_principal_id op)))
   ++ query_frame (to_be_bytes 8 (op_policy_generation op))
   ++ query_frame (to_be_bytes 8 (op_revocation_generation op))
   ++ query_frame (match op_sharing_class op with
                   | PrincipalBound => String.list_byte_of_string "principal-bound"%string
                   end)
   ++ query_frame (String.list_byte_of_string (op_idempotency_key op))
   ++ query_frame (op_canonical_request op)
   ++ query_frame (String.list_byte_of_string (op_semantic_profile op))
   ++ query_frame (String.list_byte_of_string (op_request_contract op))
   ++ query_frame (String.list_byte_of_string (op_response_contract op))
   ++ query_frame (String.list_byte_of_string (op_delivery_profile op))
   ++ query_frame (String.list_byte_of_string (op_compression_profile op))
   ++ query_frame (String.list_byte_of_string (op_freshness_policy op))
   ++ query_frame (String.list_byte_of_string (op_epoch_policy op))
   ++ query_frame (to_be_bytes 8 (op_deadline_unix_ms op))
   ++ query_frame (to_be_bytes 8 (op_lease_expires_at_unix_ms op))
   ++ query_frame (to_be_bytes 8 (op_maximum_result_bytes op))
   ++ query_frame (to_be_bytes 8 (op_maximum_result_pages op)))%list.

Definition authorizes_session (op : NormalizedQueryOperation) (authority : QuerySessionAuthority) : bool :=
  (op_policy_generation op =? sa_policy_generation authority)
  && (op_revocation_generation op =? sa_revocation_generation authority)
  && bool_decide (op_sharing_class op = sa_sharing_class authority)
  && match op_sharing_class op with
     | PrincipalBound => bool_decide (op_principal_id op = sa_principal_id authority)
     end.

(** ** Policy *)

Record QueryCoordinatorPolicy := mk_QueryCoordinatorPolicy {
  max_running : Z;
  max_running_per_workspace : Z;
  max_running_per_principal : Z;
  max_queued : Z;
  max_tasks : Z;
  max_events_per_query : Z;
  max_event_bytes_per_query : Z;
  max_total_result_bytes : Z;
  max_total_result_pages : Z;
  max_recovery_records : Z
}.

(** [NonZero::new(value).ok_or(InvalidPolicy(name))]. *)
Definition nonzero_limit (value : Z) (name : string) : result Z QueryCoordinatorError :=
  if value =? 0 then Err (InvalidPolicy name) else Ok value.

Definition QueryCoordinatorPolicy_try_new (running running_per_workspace running_per_principal queued tasks
    events_per_query event_bytes_per_query total_result_bytes total_result_pages recovery_records : Z)
  : result QueryCoordinatorPolicy QueryCoordinatorError :=
  let? running := nonzero_limit running "max_running"%string in
  let? running_per_workspace := nonzero_limit running_per_workspace "max_running_per_workspace"%string in
  let? running_per_principal := nonzero_limit running_per_principal "max_running_per_principal"%string in
  let? queued := nonzero_limit queued "max_queued"%string in
  let? tasks := nonzero_limit tasks "max_tasks"%string in
  let? events_per_query := nonzero_limit events_per_query "max_events_per_query"%string in
  let? event_bytes_per_query := nonzero_limit event_bytes_per_query "max_event_bytes_per_query"%string in
  let? total_result_bytes := nonzero_limit total_result_bytes "max_total_result_bytes"%string in
  let? total_result_pages := nonzero_limit total_result_pages "max_total_result_pages"%string in
  let? recovery_records := nonzero_limit recovery_records "max_recovery_records"%string in
  if ((running <? running_per_workspace) || (running <? running_per_principal)
      || (events_per_query <? 3))%bool
  then Err (InvalidPolicy "scope running bounds or terminal event reservation"%string)
  else Ok (mk_QueryCoordinatorPolicy running running_per_workspace running_per_principal queued tasks
             events_per_query event_bytes_per_query total_result_bytes total_result_pages recovery_records).

(** ** Control events *)

Record PendingResultObjectSet := mk_PendingResultObjectSet {
  os_manifest_object_path : string;
  os_page_object_paths : list string;
  os_epoch_id : string;
  os_query_execution : string
}.

Record RetainedPackageLocator := mk_RetainedPackageLocator {
  rl_manifest_object_path : string;
  rl_page_object_paths : list string;
  rl_epoch_id : string;
  rl_query_execution : string;
  rl_lease_id : string;
  rl_lease_issued_at_unix_ms : Z;
  rl_lease_expires_at_unix_ms : Z;
  rl_expected_manifest_checksum : string;
  rl_expected_manifest_byte_length : Z;
  rl_package_id : string;
  rl_manifest_resource_id : string
}.

Inductive ResultRetentionState := Reserved | CleanupPending | Released.

Inductive QueryTerminalState := Succeeded | Failed | CancelledState | Lost.

Inductive QueryControlEventPayload :=
| SnapshotPinned (epoch_id : string) (source_generation activation_head lifecycle_watermark : Z)
    (freshness : option FreshnessState) (analysis_context_set_id : option string)
| Progress (stage : string) (completed : Z) (total : option Z)
| PublicationPending (object_set : PendingResultObjectSet)
| ResultReady (package_id manifest_resource_id manifest_checksum : string)
    (total_rows total_pages total_bytes : Z) (retained_locator : RetainedPackageLocator)
| Terminal (state : QueryTerminalState) (public_code : option string).

#[export] Instance PendingResultObjectSet_eq_dec : EqDecision PendingResultObjectSet.
Proof. solve_decision. Defined.
#[export] Instance RetainedPackageLocator_eq_dec : EqDecision RetainedPackageLocator.
Proof. solve_decision. Defined.
#[export] Instance ResultRetentionState_eq_dec : EqDecision ResultRetentionState.
Proof. solve_decision. Defined.
#[export] Instance QueryTerminalState_eq_dec : EqDecision QueryTerminalState.
Proof. solve_decision. Defined.
#[export] Instance FreshnessState_eq_dec : EqDecision FreshnessState.
Proof. solve_decision. Defined.
#[export] Instance QueryControlEventPayload_eq_dec : EqDecision QueryControlEventPayload.
Proof. solve_decision. Defined.

Definition is_progress (p : QueryControlEventPayload) : bool :=
  match p with Progress _ _ _ => true | _ => false end.
Definition is_terminal (p : QueryControlEventPayload) : bool :=
  match p with Terminal _ _ => true | _ => false end.
Definition is_pending (p : QueryControlEventPayload) : bool :=
  match p with PublicationPending _ => true | _ => false end.
Definition is_public (p : QueryControlEventPayload) : bool := negb (is_pending p).

Record QueryControlEvent := mk_QueryControlEvent {
  ev_sequence : Z;
  ev_emitted_at_unix_ms : Z;
  ev_payload : QueryControlEventPayload
}.

#[export] Instance QueryControlEvent_eq_dec : EqDecision QueryControlEvent.
Proof. solve_decision. Defined.

(** [projected = event.clone(); projected.sequence = s]. *)
Definition with_sequence (e : QueryControlEvent) (s : Z) : QueryControlEvent :=
  mk_QueryControlEvent s (ev_emitted_at_unix_ms e) (ev_payload e).

Fixpoint public_events_loop (events : list QueryControlEvent) (public_sequence after_sequence : Z)
    (suffix : list QueryControlEvent) : result (list QueryControlEvent) QueryCoordinatorError :=
  match events with
  | [] => Ok suffix
  | e :: events =>
      if is_public (ev_payload e) then
        let? public_sequence := ok_or (checked_add u64_max public_sequence 1) CounterOverflow in
        public_events_loop events public_sequence after_sequence
          (if after_sequence <? public_sequence
           then (suffix ++ [with_sequence e public_sequence])%list else suffix)
      else public_events_loop events public_sequence after_sequence suffix
  end.

Definition public_events_after (events : list QueryControlEvent) (after_sequence : Z)
  : result (list QueryControlEvent) QueryCoordinatorError :=
  public_events_loop events 0 after_sequence [].

Fixpoint public_event_loop (events : list QueryControlEvent) (ordinal public_sequence : Z)
  : result (option QueryControlEvent) QueryCoordinatorError :=
  match events with
  | [] => Ok None
  | e :: events =>
      if is_public (ev_payload e) then
        let? ordinal := ok_or (checked_add u64_max ordinal 1) CounterOverflow in
        if ordinal =? public_sequence then Ok (Some (with_sequence e public_sequence))
        else public_event_loop events ordinal public_sequence
      else public_event_loop events ordinal public_sequence
  end.

Definition public_event_at (events : list QueryControlEvent) (public_sequence : Z)
  : result (option QueryControlEvent) QueryCoordinatorError :=
  if public_sequence =? 0 then Ok None else public_event_loop events 0 public_sequence.

Section checksum.
Context (blake3_hash : list byte -> byte_array 32).
(** [serde_json_canonicalizer::to_vec(&event)]; [None] when it fails. *)
Context (event_to_vec : QueryControlEvent -> option (list byte)).

Definition public_event_checksum (events : list QueryControlEvent) (public_sequence : Z)
  : result (option string) QueryCoordinatorError :=
  let? found := public_event_at events public_sequence in
  match found with
  | None => if public_sequence =? 0 then Ok None else Err CursorBinding
  | Some e =>
      let? bytes := ok_or (event_to_vec e) JournalEncoding in
      Ok (Some (hex (as_slice (blake3_hash bytes))))
  end.
End checksum.

(** ** Hexadecimal text *)

Definition decode_nibble (c : Ascii.ascii) : result Z QueryCoordinatorError :=
  if ((48 <=? code c) && (code c <=? 57))%bool then Ok (code c - 48)
  else if ((97 <=? code c) && (code c <=? 102))%bool then Ok (code c - 97 + 10)
  else Err InvalidHex.

(** The pairs of [as_chunks::<2>], decoded in order. *)
Fixpoint decode_pairs (value : string) : result (list byte) QueryCoordinatorError :=
  match value with
  | String a (String b value) =>
      let? high := decode_nibble a in
      let? low := decode_nibble b in
      let? rest := decode_pairs value in
      Ok (byte_of_Z (Z.lor (Z.shiftl high 4) low) :: rest)
  | _ => Ok []
  end.

Definition decode_hex (value : string) : result (list byte) QueryCoordinatorError :=
  if negb (len value mod 2 =? 0) then Err InvalidHex else decode_pairs value.

Definition decode_hex_array (n : nat) (value : string) : result (byte_array n) QueryCoordinatorError :=
  let? bytes := decode_hex value in
  ok_or (byte_array_of_slice n bytes) InvalidHex.
Definition decode_hex16 : string -> result (byte_array 16) QueryCoordinatorError := decode_hex_array 16.
Definition decode_hex32 : string -> result (byte_array 32) QueryCoordinatorError := decode_hex_array 32.

(** The fold of the differences of all pairs of bytes. *)
Definition constant_time_equal (left right : byte_array 32) : bool :=
  fold_left (fun difference lr => Z.lor difference (Z.lxor (Z_of_byte lr.1) (Z_of_byte lr.2)))
    (zip (as_slice left) (as_slice right)) 0 =? 0.

(** The characters ['/'] and ['.']. *)
Definition slash : Ascii.ascii := Ascii.ascii_of_N 47.
Definition dot : Ascii.ascii := Ascii.ascii_of_N 46.

(** ** Locators and retention *)

Definition pending_object_set_from_locator (l : RetainedPackageLocator) : PendingResultObjectSet :=
  mk_PendingResultObjectSet (rl_manifest_object_path l) (rl_page_object_paths l) (rl_epoch_id l)
    (rl_query_execution l).

Definition page_path_valid (page_prefix page : string) : bool :=
  is_ascii page && (len page <=? 1024)
  && match strip_prefix page_prefix page with
     | None => false
     | Some relative =>
         match split_once slash relative with
         | None => false
         | Some (relation_hex, page_file) =>
             negb (is_empty relation_hex) && (len relation_hex mod 2 =? 0)
             && all_bytes is_ascii_hexdigit relation_hex && (len page_file =? 26)
             && forallb is_ascii_digit (take 20 (String.list_ascii_of_string page_file))
             && ends_with ".arrow"%string page_file
         end
     end.

Definition validate_pending_result_object_set (os : PendingResultObjectSet)
  : result unit QueryCoordinatorError :=
  let package_root := ("packages/" +:+ os_epoch_id os +:+ "/" +:+ os_query_execution os)%string in
  let expected_manifest_path := (package_root +:+ "/manifest.json")%string in
  let page_prefix := (package_root +:+ "/pages/")%string in
  let page_paths := os_page_object_paths os in
  let valid_pages :=
    (Z.of_nat (length page_paths) <=? 4096)
    && forallb (page_path_valid page_prefix) page_paths
    && bool_decide (NoDup page_paths)
    && negb (existsb (fun page => bool_decide (page = os_manifest_object_path os)) page_paths) in
  if (negb (bool_decide (os_manifest_object_path os = expected_manifest_path)) || negb valid_pages
      || negb (is_ok (decode_hex16 (os_epoch_id os))) || negb (is_ok (decode_hex32 (os_query_execution os))))%bool
  then Err InvalidRetainedPackageLocator
  else Ok tt.

(** [value.strip_prefix("b3:").is_some_and(|digest| decode_hex32(digest).is_ok())]. *)
Definition b3_identity (value : string) : bool :=
  match strip_prefix "b3:"%string value with
  | Some digest => is_ok (decode_hex32 digest)
  | None => false
  end.

Definition validate_result_ready_payload (p : QueryControlEventPayload) : result unit QueryCoordinatorError :=
  match p with
  | ResultReady package_id manifest_resource_id manifest_checksum total_rows total_pages total_bytes l =>
      let? _ := validate_pending_result_object_set (pending_object_set_from_locator l) in
      if (negb (total_pages =? Z.of_nat (length (rl_page_object_paths l)))
          || negb (is_ok (decode_hex16 (rl_lease_id l)))
          || (rl_lease_expires_at_unix_ms l <=? rl_lease_issued_at_unix_ms l)
          || (rl_expected_manifest_byte_length l =? 0)
          || negb (b3_identity (rl_expected_manifest_checksum l))
          || negb (b3_identity package_id) || negb (b3_identity manifest_resource_id)
          || negb (b3_identity manifest_checksum)
          || negb (bool_decide (rl_package_id l = package_id))
          || negb (bool_decide (rl_manifest_resource_id l = manifest_resource_id))
          || negb (bool_decide (rl_expected_manifest_checksum l = manifest_checksum))
          || negb (Bool.eqb (total_pages =? 0) (total_bytes =? 0))
          || (total_pages =? 0) && negb (total_rows =? 0))%bool
      then Err InvalidRetainedPackageLocator
      else Ok tt
  | _ => Ok tt
  end.

(** [events.iter().rev().find_map(f)]. *)
Definition rfind_map {A} (f : QueryControlEventPayload -> option A) (events : list QueryControlEvent)
  : option A :=
  fold_left (fun found e => match f (ev_payload e) with Some a => Some a | None => found end) events None.

Definition publication_intent : list QueryControlEvent -> option PendingResultObjectSet :=
  rfind_map (fun p => match p with PublicationPending os => Some os | _ => None end).
Definition cleanup_object_set : list QueryControlEvent -> option PendingResultObjectSet :=
  rfind_map (fun p => match p with
                      | ResultReady _ _ _ _ _ _ l => Some (pending_object_set_from_locator l)
                      | PublicationPending os => Some os
                      | _ => None
                      end).
Definition retained_locator : list QueryControlEvent -> option RetainedPackageLocator :=
  rfind_map (fun p => match p with ResultReady _ _ _ _ _ _ l => Some l | _ => None end).

Definition next_sequence (events : list QueryControlEvent) : result Z QueryCoordinatorError :=
  match last events with
  | None => Ok 1
  | Some e => ok_or (checked_add u64_max (ev_sequence e) 1) CounterOverflow
  end.

(** ** Acceptances and durable records *)

Inductive QueryExecutionPhase := Queued | Running | TerminalPhase (state : QueryTerminalState).

#[export] Instance QueryExecutionPhase_eq_dec : EqDecision QueryExecutionPhase.
Proof. solve_decision. Defined.

Definition phase_is_terminal (p : QueryExecutionPhase) : bool :=
  match p with TerminalPhase _ => true | _ => false end.

Record QueryAcceptance := mk_QueryAcceptance {
  acc_query_id : string;
  acc_operation_fingerprint : string;
  acc_accepted_at_unix_ms : Z;
  acc_lease_expires_at_unix_ms : Z;
  acc_generation : Z;
  acc_phase : QueryExecutionPhase
}.

Definition set_acc_phase (a : QueryAcceptance) (p : QueryExecutionPhase) : QueryAcceptance :=
  mk_QueryAcceptance (acc_query_id a) (acc_operation_fingerprint a) (acc_accepted_at_unix_ms a)
    (acc_lease_expires_at_unix_ms a) (acc_generation a) p.

Inductive QueryAcceptanceOutcome := New (a : QueryAcceptance) | Replay (a : QueryAcceptance).

Record QueryCancellationOutcome := mk_QueryCancellationOutcome {
  co_phase : QueryExecutionPhase;
  co_idempotent_replay : bool
}.

Record DurableQueryRecord := mk_DurableQueryRecord {
  dr_acceptance : QueryAcceptance;
  dr_workspace_id : string;
  dr_principal_id : string;
  dr_policy_generation : Z;
  dr_revocation_generation : Z;
  dr_sharing_class : QuerySessionSharingClass;
  dr_idempotency_key : string;
  dr_operation_fingerprint : string;
  dr_semantic_profile : string;
  dr_reserved_result_bytes : Z;
  dr_reserved_result_pages : Z;
  dr_cancellation_ids : gset string;
  dr_result_retention : ResultRetentionState;
  dr_events : list QueryControlEvent
}.

Definition retention_valid (phase : QueryExecutionPhase) (events : list QueryControlEvent)
    (retention : ResultRetentionState) : bool :=
  let terminal := phase_is_terminal phase in
  let succeeded := bool_decide (phase = TerminalPhase Succeeded) in
  match retention with
  | Reserved => negb terminal || succeeded && bool_decide (is_Some (retained_locator events))
  | CleanupPending => terminal && bool_decide (is_Some (cleanup_object_set events))
  | Released => terminal
  end.

Definition validate_result_retention (r : DurableQueryRecord) : result unit QueryCoordinatorError :=
  ensure (retention_valid (acc_phase (dr_acceptance r)) (dr_events r) (dr_result_retention r))
    InvalidResultRetentionState.

Definition MAX_CANCELLATION_IDENTITIES_PER_QUERY : Z := 64.

Definition valid_cancellation_id (value : string) : bool :=
  negb (is_empty value) && (len value <=? 256) && is_ascii value.

Definition validate_cancellation_ids (ids : gset string) : result unit QueryCoordinatorError :=
  let? _ := ensure (Z.of_nat (size ids) <=? MAX_CANCELLATION_IDENTITIES_PER_QUERY) CancellationCapacity in
  ensure (forallb valid_cancellation_id (elements ids)) InvalidCancellationId.

(** ** Resume cursors *)

Record CursorPayload := mk_CursorPayload {
  cu_query_id : string;
  cu_principal_id : string;
  cu_generation : Z;
  cu_policy_generation : Z;
  cu_revocation_generation : Z;
  cu_sharing_class : QuerySessionSharingClass;
  cu_semantic_profile : string;
  cu_after_sequence : Z;
  cu_event_checksum : option string;
  cu_expires_at_unix_ms : Z
}.

Section cursor.
Context (blake3_keyed_hash : byte_array 32 -> list byte -> byte_array 32).
(** Canonical JSON of a cursor payload, and the JSON decoder. *)
Context (cursor_to_vec : CursorPayload -> option (list byte)).
Context (cursor_from_slice : list byte -> option CursorPayload).

Definition encode_cursor (payload : CursorPayload) (secret : byte_array 32)
  : result string QueryCoordinatorError :=
  let? bytes := ok_or (cursor_to_vec payload) JournalEncoding in
  Ok (hex bytes +:+ "." +:+ hex (as_slice (blake3_keyed_hash secret bytes)))%string.

Definition decode_cursor (cursor : string) (secret : byte_array 32)
  : result CursorPayload QueryCoordinatorError :=
  let? (payload, mac) := ok_or (split_once dot cursor) InvalidCursor in
  let? bytes := decode_hex payload in
  let? observed_mac := decode_hex32 mac in
  let? _ := ensure (constant_time_equal (blake3_keyed_hash secret bytes) observed_mac) InvalidCursor in
  let? payload := ok_or (cursor_from_slice bytes) JournalEncoding in
  let? encoded := ok_or (cursor_to_vec payload) JournalEncoding in
  let? _ := ensure (bool_decide (encoded = bytes)) InvalidCursor in
  Ok payload.
End cursor.
