(* ===== verification/QueryCodec.v ===== *)
(** The texts the query coordinator exchanges: lowercase hexadecimal, resume cursors and the
    fingerprint of an operation determine what they encode. *)

From S2P Require Import Prelude.
From S2P Require Import Encoding.
From S2P Require Import CommandModel.
From S2P Require Import QueryModel.
From Stdlib Require Strings.String.
Local Open Scope Z_scope.

(** ** Hexadecimal text *)

Definition nibbles : list Z := [0; 1; 2; 3; 4; 5; 6; 7; 8; 9; 10; 11; 12; 13; 14; 15].

Lemma nibbles_all n : 0 <= n < 16 -> n ∈ nibbles.
Proof. intros Hn. unfold nibbles. rewrite !elem_of_cons. lia. Qed.

(** A property of nibbles checked by evaluation. *)
Lemma nibble_forall (f : Z -> bool) : forallb f nibbles = true -> forall n, 0 <= n < 16 -> f n = true.
Proof.
  intros Hf n Hn. rewrite forallb_forall in Hf. apply Hf, list_elem_of_In, nibbles_all, Hn.
Qed.

Lemma decode_hex_char n : 0 <= n < 16 -> decode_nibble (hex_char n) = Ok n.
Proof.
  intros Hn.
  pose proof (nibble_forall (fun n => match decode_nibble (hex_char n) with Ok m => m =? n | Err _ => false end)
                ltac:(vm_compute; reflexivity) n Hn) as Hb. simpl in Hb.
  destruct (decode_nibble (hex_char n)); [|done]. by apply Z.eqb_eq in Hb as ->.
Qed.

Lemma ascii_code_inj a b : code a = code b -> a = b.
Proof.
  unfold code. intros Heq. rewrite <- (Ascii.ascii_N_embedding a), <- (Ascii.ascii_N_embedding b).
  f_equal. lia.
Qed.

Lemma decode_nibble_Ok c n : decode_nibble c = Ok n -> 0 <= n < 16 /\ c = hex_char n.
Proof.
  unfold decode_nibble. intros Hd.
  assert (0 <= n < 16 /\ code c = if n <? 10 then 48 + n else 87 + n) as [Hn Hc].
  { destruct ((48 <=? code c) && (code c <=? 57))%bool eqn:E1;
      [|destruct ((97 <=? code c) && (code c <=? 102))%bool eqn:E2; [|done]]; injection Hd as <-; zify_bool.
    - rewrite (proj2 (Z.ltb_lt _ _)) by lia. lia.
    - rewrite (proj2 (Z.ltb_ge _ _)) by lia. lia. }
  split; [done|]. apply ascii_code_inj. rewrite Hc. unfold code, hex_char.
  rewrite Ascii.N_ascii_embedding; [|destruct (n <? 10); lia]. destruct (n <? 10) eqn:E; zify_bool; lia.
Qed.

(** The two digits of a byte determine it, and are determined by it. *)
Lemma byte_of_nibbles b :
  byte_of_Z (Z.lor (Z.shiftl (Z.shiftr (Z_of_byte b) 4) 4) (Z.land (Z_of_byte b) 15)) = b.
Proof. destruct b; reflexivity. Qed.

Lemma nibbles_of_byte h l :
  0 <= h < 16 -> 0 <= l < 16 ->
  Z.shiftr (Z_of_byte (byte_of_Z (Z.lor (Z.shiftl h 4) l))) 4 = h
  /\ Z.land (Z_of_byte (byte_of_Z (Z.lor (Z.shiftl h 4) l))) 15 = l.
Proof.
  intros Hh Hl.
  pose proof (nibble_forall (fun h => forallb (fun l =>
    (Z.shiftr (Z_of_byte (byte_of_Z (Z.lor (Z.shiftl h 4) l))) 4 =? h)
    && (Z.land (Z_of_byte (byte_of_Z (Z.lor (Z.shiftl h 4) l))) 15 =? l)) nibbles)
    ltac:(vm_compute; reflexivity) h Hh) as Hb.
  cbv beta in Hb. pose proof (nibble_forall _ Hb l Hl) as Hc. cbv beta in Hc. zify_bool. done.
Qed.

Lemma byte_nibble_ranges b : 0 <= Z.shiftr (Z_of_byte b) 4 < 16 /\ 0 <= Z.land (Z_of_byte b) 15 < 16.
Proof. destruct b; vm_compute; split; split; congruence. Qed.

Lemma decode_pairs_hex l : decode_pairs (hex l) = Ok l.
Proof.
  induction l as [|b l IH]; [done|]. cbn [hex decode_pairs]. destruct (byte_nibble_ranges b).
  rewrite !decode_hex_char by done. by rewrite IH, byte_of_nibbles.
Qed.

Lemma length_hex l : String.length (hex l) = (2 * length l)%nat.
Proof. induction l as [|b l IH]; [done|]. cbn [hex String.length length]. rewrite IH. lia. Qed.

Lemma decode_hex_hex l : decode_hex (hex l) = Ok l.
Proof.
  unfold decode_hex, len. rewrite length_hex, Nat2Z.inj_mul, Z.mul_comm, Z.mod_mul by lia.
  apply decode_pairs_hex.
Qed.

Lemma decode_pairs_canonical s : forall l,
  (exists k, String.length s = 2 * k)%nat -> decode_pairs s = Ok l -> s = hex l.
Proof.
  induction s as [s IH] using (induction_ltof1 _ String.length); unfold ltof in IH.
  intros l [k Hk] Hd. destruct s as [|a [|b s]]; simpl in Hk; [by injection Hd as <-|lia|].
  cbn [decode_pairs] in Hd. destruct (decode_nibble a) as [h|] eqn:Ha; [|done].
  destruct (decode_nibble b) as [n|] eqn:Hb; [|done]. destruct (decode_pairs s) as [r|] eqn:Hr; [|done].
  injection Hd as <-. apply decode_nibble_Ok in Ha as [Hh ->], Hb as [Hn ->].
  destruct (nibbles_of_byte h n Hh Hn) as [E1 E2]. cbn [hex]. rewrite E1, E2. do 2 f_equal.
  apply IH; [simpl; lia|exists (k - 1)%nat; lia|done].
Qed.

(** Only the lowercase text of the bytes decodes to them. *)
Lemma decode_hex_canonical s l : decode_hex s = Ok l -> s = hex l.
Proof.
  unfold decode_hex. destruct (negb _) eqn:He; [done|]. apply negb_false_iff, Z.eqb_eq in He.
  apply decode_pairs_canonical. unfold len in He. exists (Z.to_nat (Z.of_nat (String.length s) / 2)).
  pose proof (Z.div_mod (Z.of_nat (String.length s)) 2 ltac:(lia)). lia.
Qed.

Lemma decode_hex_array_hex {n} (b : byte_array n) : decode_hex_array n (hex (as_slice b)) = Ok b.
Proof. unfold decode_hex_array. by rewrite decode_hex_hex, byte_array_of_as_slice. Qed.

Lemma decode_hex_array_canonical n s (b : byte_array n) : decode_hex_array n s = Ok b -> s = hex (as_slice b).
Proof.
  unfold decode_hex_array. destruct (decode_hex s) as [l|] eqn:Hd; [|done].
  intros Hb%ok_or_Ok. apply byte_array_of_slice_Some in Hb as <-. by apply decode_hex_canonical.
Qed.

Lemma hex_inj l1 l2 : hex l1 = hex l2 -> l1 = l2.
Proof. intros Heq. pose proof (decode_hex_hex l1) as H1. rewrite Heq, decode_hex_hex in H1. congruence. Qed.

(** ** Comparison of MACs *)

Lemma fold_lor_zero (l : list (byte * byte)) d :
  fold_left (fun difference lr => Z.lor difference (Z.lxor (Z_of_byte lr.1) (Z_of_byte lr.2))) l d = 0
  <-> d = 0 /\ Forall (fun lr => lr.1 = lr.2) l.
Proof.
  revert d. induction l as [|[a b] l IH]; intros d; simpl; [split; [by split|by intros [? _]]|].
  rewrite IH, Z.lor_eq_0_iff, Z.lxor_eq_0_iff, Forall_cons. simpl.
  assert (Z_of_byte a = Z_of_byte b <-> a = b) as ->; [|tauto].
  split; [|congruence]. unfold Z_of_byte. intros Heq. apply (f_equal Z.to_N) in Heq.
  rewrite !N2Z.id in Heq. apply (f_equal Byte.of_N) in Heq. rewrite !Byte.of_to_N in Heq. congruence.
Qed.

Lemma constant_time_equal_spec a b : constant_time_equal a b = true <-> a = b.
Proof.
  unfold constant_time_equal. rewrite Z.eqb_eq, fold_lor_zero. split; [|intros ->].
  - intros [_ Hf]. apply as_slice_inj. pose proof (length_as_slice a). pose proof (length_as_slice b).
    apply list_eq_same_length with 32%nat; [done..|]. intros i x y Hi Hx Hy.
    rewrite Forall_lookup in Hf. apply (Hf i (x, y)). by rewrite lookup_zip_with, Hx, Hy.
  - split; [done|]. apply Forall_lookup. intros i [x y]. rewrite lookup_zip_with.
    destruct (as_slice b !! i) eqn:E; simpl; [|done]. by intros [= <- <-].
Qed.

(** ** Cursors *)

Lemma split_once_Some c s l r : split_once c s = Some (l, r) -> s = (l +:+ String c r)%string.
Proof.
  revert l r. induction s as [|a s IH]; intros l r; simpl; [done|]. case_bool_decide as Ha.
  - by intros [= <- <-]; subst.
  - destruct (split_once c s) as [[l' r']|]; [|done]. intros [= <- <-].
    rewrite (IH l' r' eq_refl). done.
Qed.

Lemma hex_char_not_dot n : 0 <= n < 16 -> hex_char n <> dot.
Proof.
  intros Hn Heq. pose proof (nibble_forall (fun n => negb (code (hex_char n) =? code dot))
    ltac:(vm_compute; reflexivity) n Hn) as Hb. cbv beta in Hb. rewrite Heq, Z.eqb_refl in Hb. done.
Qed.

Lemma split_once_hex l r : split_once dot (hex l +:+ String dot r)%string = Some (hex l, r).
Proof.
  induction l as [|b l IH]; [done|]. cbn [hex].
  change ((String ?x (String ?y ?l) +:+ ?r)%string) with (String x (String y (l +:+ r))).
  cbn [split_once]. destruct (byte_nibble_ranges b) as [Hh Hl].
  rewrite !bool_decide_false by (by apply hex_char_not_dot). by rewrite IH.
Qed.

Section cursor_codec.
Context (blake3_keyed_hash : byte_array 32 -> list byte -> byte_array 32).
Context (cursor_to_vec : CursorPayload -> option (list byte)).
Context (cursor_from_slice : list byte -> option CursorPayload).
(** Decoding the canonical JSON of a payload gives the payload. *)
Hypothesis cursor_json : forall p b, cursor_to_vec p = Some b -> cursor_from_slice b = Some p.

(** Exactly the texts [encode_cursor] produces decode. *)
Lemma decode_cursor_exact c secret p :
  decode_cursor blake3_keyed_hash cursor_to_vec cursor_from_slice c secret = Ok p
  <-> encode_cursor blake3_keyed_hash cursor_to_vec p secret = Ok c.
Proof.
  unfold decode_cursor, encode_cursor. split.
  - destruct (split_once dot c) as [[a m]|] eqn:Hs; simpl; [|done].
    destruct (decode_hex a) as [bytes|] eqn:Ha; [|done].
    destruct (decode_hex32 m) as [mac|] eqn:Hm; [|done].
    destruct (ensure _ _) eqn:He; [|done]. apply ensure_Ok, constant_time_equal_spec in He.
    destruct (cursor_from_slice bytes) as [p'|]; simpl; [|done].
    destruct (cursor_to_vec p') as [enc|] eqn:Hp; simpl; [|done].
    destruct (ensure _ _) eqn:Hc; [|done]. intros [= ->]. apply ensure_Ok in Hc. zify_bool. subst enc.
    rewrite Hp. simpl. f_equal. apply split_once_Some in Hs as ->.
    apply decode_hex_canonical in Ha as ->. apply decode_hex_array_canonical in Hm as ->. by rewrite He.
  - destruct (cursor_to_vec p) as [bytes|] eqn:Hp; simpl; [|done]. intros [= <-].
    change ("." +:+ ?m)%string with (String dot m). rewrite split_once_hex. simpl.
    rewrite decode_hex_hex. unfold decode_hex32. rewrite decode_hex_array_hex.
    rewrite (proj2 (constant_time_equal_spec _ _) eq_refl). simpl.
    rewrite (cursor_json p bytes Hp). simpl. rewrite Hp. simpl. by rewrite bool_decide_true.
Qed.
End cursor_codec.

(** ** Fingerprints *)

Lemma query_frame_inj a b x y :
  Z.of_nat (length a) <= u64_max -> Z.of_nat (length b) <= u64_max ->
  (query_frame a ++ x = query_frame b ++ y)%list -> a = b /\ x = y.
Proof.
  intros Ha Hb. unfold query_frame. rewrite !wrap64_small by (unfold in_uint; lia).
  rewrite <- !app_assoc. intros Heq. apply app_inj_1 in Heq as [H1 H2];
    [|by rewrite !length_to_be_bytes].
  apply to_be_bytes_inj in H1; [|unfold u64_max in *; lia..].
  by apply app_inj_1 in H2; [|lia].
Qed.

(** A signed value and its two's complement. *)
Lemma to_be_bytes_signed_inj x y :
  i64_min <= x <= i64_max -> i64_min <= y <= i64_max -> to_be_bytes 8 x = to_be_bytes 8 y -> x = y.
Proof.
  intros Hx Hy Heq. apply to_be_bytes_mod in Heq. change (2 ^ (8 * Z.of_nat 8)) with (u64_max + 1) in Heq.
  unfold i64_min, i64_max, u64_max in *.
  pose proof (Z.div_mod x (18446744073709551615 + 1) ltac:(lia)).
  pose proof (Z.div_mod y (18446744073709551615 + 1) ltac:(lia)). lia.
Qed.

(** The values of an operation are machine integers and bounded texts. *)
Record fingerprint_ranges (o : NormalizedQueryOperation) : Prop := {
  fr_policy : in_uint u64_max (op_policy_generation o);
  fr_revocation : in_uint u64_max (op_revocation_generation o);
  fr_key : len (op_idempotency_key o) <= u64_max;
  fr_request : Z.of_nat (length (op_canonical_request o)) <= u64_max;
  fr_texts : Forall (fun t => len t <= u64_max)
    [op_semantic_profile o; op_request_contract o; op_response_contract o; op_delivery_profile o;
     op_compression_profile o; op_freshness_policy o; op_epoch_policy o];
  fr_deadline : i64_min <= op_deadline_unix_ms o <= i64_max;
  fr_lease : i64_min <= op_lease_expires_at_unix_ms o <= i64_max;
  fr_bytes : in_uint u64_max (op_maximum_result_bytes o);
  fr_pages : in_uint u64_max (op_maximum_result_pages o)
}.

Lemma byte_identity_inj {t} (a b : byte_identity t) :
  as_slice (as_bytes a) = as_slice (as_bytes b) -> a = b.
Proof. intros Heq%as_slice_inj. destruct a, b. simpl in *. by subst. Qed.

(** Splits the first frame off both sides of an equation between framed lists. *)
Ltac split_query_frame H :=
  let H1 := fresh "Hf" in
  apply query_frame_inj in H as [H1 H];
  [|rewrite ?length_as_slice, ?length_to_be_bytes, ?length_list_byte_of_string;
    cbn [String.length identity_width]; unfold len, u64_max in *; lia..].

Lemma fingerprint_preimage_inj o1 o2 :
  fingerprint_ranges o1 -> fingerprint_ranges o2 ->
  fingerprint_preimage o1 = fingerprint_preimage o2 -> o1 = o2.
Proof.
  intros [P1 R1 K1 Q1 T1 D1 L1 B1 G1] [P2 R2 K2 Q2 T2 D2 L2 B2 G2] Heq. unfold fingerprint_preimage in Heq.
  rewrite !Forall_cons, Forall_nil in T1, T2. destruct_and!.
  rewrite <- (app_nil_r (query_frame (to_be_bytes 8 (op_maximum_result_pages o1)))),
          <- (app_nil_r (query_frame (to_be_bytes 8 (op_maximum_result_pages o2)))) in Heq.
  destruct (op_sharing_class o1) eqn:S1, (op_sharing_class o2) eqn:S2.
  do 19 split_query_frame Heq. clear Heq. unfold in_uint, u64_max in *.
  repeat match goal with H : ?x = ?x |- _ => clear H end.
  destruct o1, o2. cbn in *.
  f_equal; first [by apply list_byte_of_string_inj | by apply (to_be_bytes_inj 8); [lia..|]
    | by apply to_be_bytes_signed_inj | congruence | by apply byte_identity_inj].
Qed.
