(* ===== verification/QueryCoordinator.v ===== *)
(** The query coordinator of src/src/fabric/query_coordinator.rs: admission, dispatch, control
    events, closure, cancellation, retention, expiry and recovery, over a durable journal.

    Every method body between two acquisitions of the state lock is one function on a [World]: the
    locked [CoordinatorState] and the journal behind it. An early return keeps the writes that
    happened before it. The journal is a class; its methods may fail at any call. What a call
    learns from the resource budget and from the structured task scope is an argument. *)

From S2P Require Import Prelude.
From S2P Require Import Encoding.
From S2P Require Import CommandModel.
From S2P Require Import BudgetModel.
From S2P Require Import QueryModel.
From stdpp Require Import sorting.
From Stdlib Require Strings.String.
Local Open Scope Z_scope.

(** ** State *)

Record IdempotencyScope := mk_IdempotencyScope {
  is_workspace_id : WorkspaceId;
  is_principal_id : PrincipalId;
  is_key : string
}.

#[export] Instance IdempotencyScope_eq_dec : EqDecision IdempotencyScope.
Proof. solve_decision. Defined.
#[export] Instance IdempotencyScope_countable : Countable IdempotencyScope.
Proof.
  refine (inj_countable (fun s => (is_workspace_id s, is_principal_id s, is_key s))
            (fun '(w, p, k) => Some (mk_IdempotencyScope w p k)) _). by intros [].
Defined.

Definition operation_scope (op : NormalizedQueryOperation) : IdempotencyScope :=
  mk_IdempotencyScope (op_workspace_id op) (op_principal_id op) (op_idempotency_key op).

(** [changed] counts the [notify_waiters] calls on the handle's [Notify]: a future created at one
    count completes at the next. [task_cancelled]: the handle's task scope has been cancelled. *)
Record QueryHandle := mk_QueryHandle {
  metadata_reservation : ResourceReservation;
  h_operation : NormalizedQueryOperation;
  h_acceptance : QueryAcceptance;
  h_fingerprint : byte_array 32;
  h_cancelled : bool;
  h_cancellation_ids : gset string;
  h_events : list QueryControlEvent;
  h_event_bytes : Z;
  h_result_retention : ResultRetentionState;
  h_changed : Z;
  h_task_cancelled : bool
}.

Definition h_phase (h : QueryHandle) : QueryExecutionPhase := acc_phase (h_acceptance h).

Definition set_phase (h : QueryHandle) (p : QueryExecutionPhase) : QueryHandle :=
  mk_QueryHandle (metadata_reservation h) (h_operation h) (set_acc_phase (h_acceptance h) p)
    (h_fingerprint h) (h_cancelled h) (h_cancellation_ids h) (h_events h) (h_event_bytes h)
    (h_result_retention h) (h_changed h) (h_task_cancelled h).
Definition set_cancelled (h : QueryHandle) (c t : bool) : QueryHandle :=
  mk_QueryHandle (metadata_reservation h) (h_operation h) (h_acceptance h) (h_fingerprint h) c
    (h_cancellation_ids h) (h_events h) (h_event_bytes h) (h_result_retention h) (h_changed h) t.
Definition set_cancellation_ids (h : QueryHandle) (ids : gset string) : QueryHandle :=
  mk_QueryHandle (metadata_reservation h) (h_operation h) (h_acceptance h) (h_fingerprint h)
    (h_cancelled h) ids (h_events h) (h_event_bytes h) (h_result_retention h) (h_changed h)
    (h_task_cancelled h).
Definition set_events (h : QueryHandle) (events : list QueryControlEvent) (bytes : Z) : QueryHandle :=
  mk_QueryHandle (metadata_reservation h) (h_operation h) (h_acceptance h) (h_fingerprint h)
    (h_cancelled h) (h_cancellation_ids h) events bytes (h_result_retention h) (h_changed h)
    (h_task_cancelled h).
Definition set_retention (h : QueryHandle) (r : ResultRetentionState) : QueryHandle :=
  mk_QueryHandle (metadata_reservation h) (h_operation h) (h_acceptance h) (h_fingerprint h)
    (h_cancelled h) (h_cancellation_ids h) (h_events h) (h_event_bytes h) r (h_changed h)
    (h_task_cancelled h).
(** [handle.changed.notify_waiters()]. *)
Definition notify_changed (h : QueryHandle) : QueryHandle :=
  mk_QueryHandle (metadata_reservation h) (h_operation h) (h_acceptance h) (h_fingerprint h)
    (h_cancelled h) (h_cancellation_ids h) (h_events h) (h_event_bytes h) (h_result_retention h)
    (h_changed h + 1) (h_task_cancelled h).

Record CoordinatorState := mk_CoordinatorState {
  handles : gmap string QueryHandle;
  idempotency : gmap IdempotencyScope string;
  queue : list string;
  running : Z;
  running_by_workspace : gmap WorkspaceId Z;
  running_by_principal : gmap PrincipalId Z;
  reserved_result_bytes : Z;
  reserved_result_pages : Z;
  task_reservations : gset string;
  attached_tasks : gset string
}.

Definition state_default : CoordinatorState := mk_CoordinatorState ∅ ∅ [] 0 ∅ ∅ 0 0 ∅ ∅.

Definition set_handles (s : CoordinatorState) m :=
  mk_CoordinatorState m (idempotency s) (queue s) (running s) (running_by_workspace s)
    (running_by_principal s) (reserved_result_bytes s) (reserved_result_pages s)
    (task_reservations s) (attached_tasks s).
Definition set_idempotency (s : CoordinatorState) m :=
  mk_CoordinatorState (handles s) m (queue s) (running s) (running_by_workspace s)
    (running_by_principal s) (reserved_result_bytes s) (reserved_result_pages s)
    (task_reservations s) (attached_tasks s).
Definition set_queue (s : CoordinatorState) q :=
  mk_CoordinatorState (handles s) (idempotency s) q (running s) (running_by_workspace s)
    (running_by_principal s) (reserved_result_bytes s) (reserved_result_pages s)
    (task_reservations s) (attached_tasks s).
Definition set_running (s : CoordinatorState) r w p :=
  mk_CoordinatorState (handles s) (idempotency s) (queue s) r w p (reserved_result_bytes s)
    (reserved_result_pages s) (task_reservations s) (attached_tasks s).
Definition set_reserved (s : CoordinatorState) b p :=
  mk_CoordinatorState (handles s) (idempotency s) (queue s) (running s) (running_by_workspace s)
    (running_by_principal s) b p (task_reservations s) (attached_tasks s).
Definition set_tasks (s : CoordinatorState) t a :=
  mk_CoordinatorState (handles s) (idempotency s) (queue s) (running s) (running_by_workspace s)
    (running_by_principal s) (reserved_result_bytes s) (reserved_result_pages s) t a.
Definition set_handle (s : CoordinatorState) (id : string) (h : QueryHandle) :=
  set_handles s (<[id := h]> (handles s)).

(** The immutable part of a coordinator. *)
Record QueryCoordinator := mk_QueryCoordinator {
  qc_policy : QueryCoordinatorPolicy;
  qc_generation : Z;
  qc_cursor_secret : byte_array 32
}.

Definition durable_record (h : QueryHandle) : DurableQueryRecord :=
  let op := h_operation h in
  mk_DurableQueryRecord (h_acceptance h) (hex (as_slice (as_bytes (op_workspace_id op))))
    (hex (as_slice (as_bytes (op_principal_id op)))) (op_policy_generation op)
    (op_revocation_generation op) (op_sharing_class op) (op_idempotency_key op)
    (hex (as_slice (h_fingerprint h))) (op_semantic_profile op) (op_maximum_result_bytes op)
    (op_maximum_result_pages op) (h_cancellation_ids h) (h_result_retention h) (h_events h).

(** The journal behind the coordinator. *)
Class QueryCoordinatorJournal (J : Type) := {
  journal_load : Z -> Z -> J -> result (list (DurableQueryRecord * ResourceReservation)) QueryCoordinatorError;
  journal_create : DurableQueryRecord -> J -> J * result unit QueryCoordinatorError;
  journal_replace : DurableQueryRecord -> J -> J * result unit QueryCoordinatorError;
  journal_delete : string -> J -> J * result unit QueryCoordinatorError
}.

(** ** Counters *)

Definition decrement_scope {K} `{Countable K} (values : gmap K Z) (key : K)
  : result (gmap K Z) QueryCoordinatorError :=
  let? value := ok_or (values !! key) CoordinatorState_unavailable in
  let? value := ok_or (checked_sub value 1) CoordinatorState_unavailable in
  Ok (if value =? 0 then delete key values else <[key := value]> values).

(** [*values.entry(key).or_default() += 1]. *)
Definition increment_scope {K} `{Countable K} (values : gmap K Z) (key : K) : gmap K Z :=
  <[key := wrap64 (default 0 (values !! key) + 1)]> values.

Section coordinator.
Context {J : Type} `{QueryCoordinatorJournal J}.
Context (canonical_json : list byte -> option (list byte)).
Context (blake3_hash : list byte -> byte_array 32).
Context (blake3_keyed_hash : byte_array 32 -> list byte -> byte_array 32).
Context (event_to_vec : QueryControlEvent -> option (list byte)).
Context (cursor_to_vec : CursorPayload -> option (list byte)).
Context (cursor_from_slice : list byte -> option CursorPayload).
Context (self : QueryCoordinator).

Record World := mk_World { co_state : CoordinatorState; co_journal : J }.

Abbreviation op A := (stm World QueryCoordinatorError A).
Abbreviation policy := (qc_policy self).

Definition get_state : op CoordinatorState := fun w => (w, Ok (co_state w)).
Definition modify_state (f : CoordinatorState -> CoordinatorState) : op unit :=
  st_modify (fun w => mk_World (f (co_state w)) (co_journal w)).
Definition put_handle (id : string) (h : QueryHandle) : op unit :=
  modify_state (fun s => set_handle s id h).
(** [state.handles.get(query_id).ok_or_else(|| UnknownQuery(query_id))]. *)
Definition get_handle (id : string) : op QueryHandle :=
  do! s <- get_state ; st_lift (ok_or (handles s !! id) (UnknownQuery id)).

Definition on_journal (f : J -> J * result unit QueryCoordinatorError) : op unit :=
  fun w => let '(j, r) := f (co_journal w) in (mk_World (co_state w) j, r).
Definition create_record (h : QueryHandle) : op unit := on_journal (journal_create (durable_record h)).
Definition replace_record (h : QueryHandle) : op unit := on_journal (journal_replace (durable_record h)).
Definition delete_record (id : string) : op unit := on_journal (journal_delete id).

(** [if let Err(error) = m { undo; return Err(error) }]. *)
Definition or_undo (m : op unit) (undo : op unit) : op unit :=
  fun w => match m w with
           | (w', Ok u) => (w', Ok u)
           | (w', Err e) => ((undo w').1, Err e)
           end.

Definition release_running (workspace : WorkspaceId) (principal : PrincipalId) : op unit :=
  do! s <- get_state ;
  do! r <- st_lift (ok_or (checked_sub (running s) 1) CoordinatorState_unavailable) ;
  do! _ <- modify_state (fun s => set_running s r (running_by_workspace s) (running_by_principal s)) ;
  do! w <- st_lift (decrement_scope (running_by_workspace s) workspace) ;
  do! _ <- modify_state (fun s => set_running s (running s) w (running_by_principal s)) ;
  do! p <- st_lift (decrement_scope (running_by_principal s) principal) ;
  modify_state (fun s => set_running s (running s) (running_by_workspace s) p).

Definition release_result_reservation (bytes pages : Z) : op unit :=
  do! s <- get_state ;
  do! b <- st_lift (ok_or (checked_sub (reserved_result_bytes s) bytes) CoordinatorState_unavailable) ;
  do! _ <- modify_state (fun s => set_reserved s b (reserved_result_pages s)) ;
  do! p <- st_lift (ok_or (checked_sub (reserved_result_pages s) pages) CoordinatorState_unavailable) ;
  modify_state (fun s => set_reserved s (reserved_result_bytes s) p).

(** ** Dispatch *)

(** A popped query cannot start: its workspace or principal is at its limit. *)
Definition scope_blocked (s : CoordinatorState) (o : NormalizedQueryOperation) : bool :=
  (max_running_per_workspace policy <=? default 0 (running_by_workspace s !! op_workspace_id o))
  || (max_running_per_principal policy <=? default 0 (running_by_principal s !! op_principal_id o)).

Definition start_running (s : CoordinatorState) (id : string) (h : QueryHandle) : CoordinatorState :=
  set_handle
    (set_running s (wrap64 (running s + 1))
       (increment_scope (running_by_workspace s) (op_workspace_id (h_operation h)))
       (increment_scope (running_by_principal s) (op_principal_id (h_operation h))))
    id (set_phase h Running).

(** [while state.running < max_running && attempts > 0]. *)
Fixpoint dispatch_loop (attempts : nat) : op unit := fun w =>
  let s := co_state w in
  if running s <? max_running policy then
    match attempts with
    | O => (w, Ok tt)
    | S attempts =>
        match queue s with
        | [] => (w, Ok tt)
        | id :: rest =>
            let s := set_queue s rest in
            match handles s !! id with
            | None => (mk_World s (co_journal w), Err CoordinatorState_unavailable)
            | Some h =>
                if phase_is_terminal (h_phase h) then dispatch_loop attempts (mk_World s (co_journal w))
                else if scope_blocked s (h_operation h)
                then dispatch_loop attempts (mk_World (set_queue s (rest ++ [id])) (co_journal w))
                else
                  match replace_record (set_phase h Running)
                          (mk_World (start_running s id h) (co_journal w)) with
                  | (w, Err e) => (w, Err e)
                  | (w, Ok _) =>
                      dispatch_loop attempts
                        (mk_World (set_handle (co_state w) id (notify_changed (set_phase h Running)))
                           (co_journal w))
                  end
            end
        end
    end
  else (w, Ok tt).

Definition dispatch_locked : op unit := fun w => dispatch_loop (length (queue (co_state w))) w.

(** ** Acceptance *)

Definition fingerprint (o : NormalizedQueryOperation) : byte_array 32 :=
  blake3_hash (fingerprint_preimage o).

(** The memory the coordinator charges for one query. *)
Definition metadata_bytes (o : NormalizedQueryOperation) : option Z :=
  v ← checked_mul u64_max (max_event_bytes_per_query policy) 8;
  r ← checked_mul u64_max (Z.of_nat (length (op_canonical_request o))) 2;
  v ← checked_add u64_max v r;
  checked_add u64_max v (128 * 1024).

(** [accept]; [child] and [reserve] are the answers of the task scope and of the budget. *)
Definition accept (o : NormalizedQueryOperation) (observed_at : Z)
    (child : result unit string)
    (reserve : ResourceAmounts -> result ResourceReservation ResourceBudgetError)
  : op QueryAcceptanceOutcome :=
  do! o <- st_lift (NormalizedQueryOperation_try_new canonical_json o) ;
  do! _ <- st_lift (ensure (observed_at <? op_deadline_unix_ms o) DeadlineElapsed) ;
  let fp := fingerprint o in
  let scope := operation_scope o in
  do! s <- get_state ;
  match idempotency s !! scope with
  | Some id =>
      do! h <- st_lift (ok_or (handles s !! id) CoordinatorState_unavailable) ;
      do! _ <- st_lift (ensure (bool_decide (h_fingerprint h = fp)) IdempotencyConflict) ;
      st_ret (Replay (h_acceptance h))
  | None =>
      do! _ <- st_lift (ensure (negb ((max_queued policy <=? Z.of_nat (length (queue s)))
                                      || (max_tasks policy <=? Z.of_nat (size (task_reservations s)))))
                          AdmissionBackpressure) ;
      do! next_bytes <- st_lift (ok_or (checked_add u64_max (reserved_result_bytes s)
                                          (op_maximum_result_bytes o)) CounterOverflow) ;
      do! next_pages <- st_lift (ok_or (checked_add u64_max (reserved_result_pages s)
                                          (op_maximum_result_pages o)) CounterOverflow) ;
      do! _ <- st_lift (ensure (negb ((max_total_result_bytes policy <? next_bytes)
                                      || (max_total_result_pages policy <? next_pages)))
                          ResultCapacityBackpressure) ;
      let id := ("query:" +:+ hex (as_slice fp))%string in
      do! _ <- st_lift (ensure (bool_decide (handles s !! id = None)) QueryIdentityCollision) ;
      let acceptance := mk_QueryAcceptance id (hex (as_slice fp)) observed_at
                          (op_lease_expires_at_unix_ms o) (qc_generation self) Queued in
      do! _ <- st_lift (match child with Ok _ => Ok tt | Err e => Err (StructuredTask e) end) ;
      do! bytes <- st_lift (ok_or (metadata_bytes o) CounterOverflow) ;
      do! reservation <- st_lift (match reserve (memory_only bytes) with
                                  | Ok r => Ok r | Err e => Err (Resource e) end) ;
      let h := mk_QueryHandle reservation o acceptance fp false ∅ [] 0 Reserved 0 false in
      do! _ <- create_record h ;
      do! _ <- modify_state (fun s =>
        set_handle
          (set_tasks
             (set_queue
                (set_idempotency (set_reserved s next_bytes next_pages)
                   (<[scope := id]> (idempotency s)))
                (queue s ++ [id]))
             ({[id]} ∪ task_reservations s) (attached_tasks s))
          id h) ;
      do! _ <- dispatch_locked ;
      do! s <- get_state ;
      do! h <- st_lift (ok_or (handles s !! id) CoordinatorState_unavailable) ;
      st_ret (New (h_acceptance h))
  end.

(** ** Control events *)

(** [long.starts_with(short)]. *)
Definition starts_with (long short : list string) : bool := bool_decide (take (length short) long = short).

(** The admission of a payload against the events the query already has. *)
Definition admit_payload (h : QueryHandle) (p : QueryControlEventPayload)
    (cleanup_precondition : option PendingResultObjectSet) : result unit QueryCoordinatorError :=
  match p with
  | PublicationPending os =>
      let? _ := ensure (negb (op_maximum_result_pages (h_operation h)
                              <? Z.of_nat (length (os_page_object_paths os)))) JournalCapacity in
      let? _ := ensure (bool_decide (retained_locator (h_events h) = None)) PublicationIntentConflict in
      match publication_intent (h_events h) with
      | Some previous =>
          let old := os_page_object_paths previous in
          let new := os_page_object_paths os in
          if (negb (bool_decide (os_manifest_object_path previous = os_manifest_object_path os))
              || negb (bool_decide (os_epoch_id previous = os_epoch_id os))
              || negb (bool_decide (os_query_execution previous = os_query_execution os))
              || match cleanup_precondition with
                 | Some expected =>
                     negb (bool_decide (expected = previous)) || (length old <=? length new)%nat
                     || negb (starts_with old new)
                 | None => (length new <=? length old)%nat || negb (starts_with new old)
                 end)%bool
          then Err PublicationIntentConflict
          else Ok tt
      | None => ensure (bool_decide (cleanup_precondition = None)) PublicationIntentMissing
      end
  | ResultReady _ _ _ _ _ _ l =>
      let? expected := ok_or (publication_intent (h_events h)) PublicationIntentMissing in
      let? _ := ensure (bool_decide (expected = pending_object_set_from_locator l)) PublicationIntentConflict in
      ensure (bool_decide (retained_locator (h_events h) = None)) PublicationIntentConflict
  | _ => Ok tt
  end.

(** [events.iter().rposition(|event| matches!(.., PublicationPending { .. }))]. *)
Fixpoint rposition_pending (events : list QueryControlEvent) : option nat :=
  match events with
  | [] => None
  | e :: events =>
      match rposition_pending events with
      | Some i => Some (S i)
      | None => if is_pending (ev_payload e) then Some 0%nat else None
      end
  end.

(** The event that a new payload replaces: the private checkpoint, or a trailing progress event. *)
Definition replacement_of (events : list QueryControlEvent) (p : QueryControlEventPayload) : option nat :=
  if is_pending p then rposition_pending events
  else if (is_progress p && match last events with
                            | Some e => is_progress (ev_payload e)
                            | None => false
                            end)%bool
  then Some (length events - 1)%nat
  else None.

(** [serde_json_canonicalizer::to_vec(&event)?.len()]. *)
Definition encoded_len (e : QueryControlEvent) : result Z QueryCoordinatorError :=
  let? bytes := ok_or (event_to_vec e) JournalEncoding in
  Ok (Z.of_nat (length bytes)).

(** The events of a query after one more, and their encoded size. *)
Definition extend_events (h : QueryHandle) (p : QueryControlEventPayload) (observed_at : Z)
  : result (QueryControlEvent * list QueryControlEvent * Z) QueryCoordinatorError :=
  let events := h_events h in
  let replacement := replacement_of events p in
  let? sequence := match replacement ≫= fun i => events !! i with
                   | Some e => Ok (ev_sequence e)
                   | None => next_sequence events
                   end in
  let e := mk_QueryControlEvent sequence observed_at p in
  let? encoded := encoded_len e in
  let? replaced := match replacement ≫= fun i => events !! i with
                   | Some e => encoded_len e
                   | None => Ok 0
                   end in
  let next_count := Z.of_nat (length events) + (match replacement with Some _ => 0 | None => 1 end) in
  let? next_bytes := ok_or (b ← checked_sub (h_event_bytes h) replaced;
                            checked_add u64_max b encoded) CounterOverflow in
  let? _ := ensure (negb ((max_events_per_query policy <=? next_count)
                          || (max_event_bytes_per_query policy
                              <? saturating_add u64_max next_bytes 1024))) JournalCapacity in
  Ok (e, match replacement with
         | Some i => <[i := e]> events
         | None => (events ++ [e])%list
         end, next_bytes).

Definition append_event_with_cleanup_precondition (id : string) (p : QueryControlEventPayload)
    (observed_at : Z) (cleanup_precondition : option PendingResultObjectSet) : op QueryControlEvent :=
  do! _ <- st_lift (ensure (negb (is_terminal p)) TerminalRequiresClosure) ;
  do! _ <- st_lift (validate_result_ready_payload p) ;
  do! _ <- st_lift (match p with
                    | PublicationPending os => validate_pending_result_object_set os
                    | _ => Ok tt
                    end) ;
  do! h <- get_handle id ;
  do! _ <- st_lift (ensure (negb (phase_is_terminal (h_phase h))) AlreadyTerminal) ;
  do! _ <- st_lift (admit_payload h p cleanup_precondition) ;
  do! (e, events, bytes) <- st_lift (extend_events h p observed_at) ;
  let h := set_events h events bytes in
  do! _ <- put_handle id h ;
  do! _ <- replace_record h ;
  do! _ <- put_handle id (notify_changed h) ;
  st_ret e.

Definition append_event (id : string) (p : QueryControlEventPayload) (observed_at : Z) : op QueryControlEvent :=
  append_event_with_cleanup_precondition id p observed_at None.

Definition reconcile_publication_after_cleanup (id : string) (previous retained : PendingResultObjectSet)
    (observed_at : Z) : op QueryControlEvent :=
  append_event_with_cleanup_precondition id (PublicationPending retained) observed_at (Some previous).

(** ** Closure *)

(** The terminal event of a query and the size of its events with it. *)
Definition terminal_event (h : QueryHandle) (t : QueryTerminalState) (code : option string)
    (observed_at : Z) : result (QueryControlEvent * Z) QueryCoordinatorError :=
  let? sequence := next_sequence (h_events h) in
  let e := mk_QueryControlEvent sequence observed_at (Terminal t code) in
  let? encoded := encoded_len e in
  let? next_bytes := ok_or (checked_add u64_max (h_event_bytes h) encoded) CounterOverflow in
  let? _ := ensure (negb ((max_events_per_query policy <=? Z.of_nat (length (h_events h)))
                          || (max_event_bytes_per_query policy <? next_bytes))) TerminalReservationBroken in
  Ok (e, next_bytes).

(** What a closed query keeps: its objects await cleanup, or there are none. *)
Definition closing_retention (events : list QueryControlEvent) : ResultRetentionState :=
  if bool_decide (is_Some (cleanup_object_set events)) then CleanupPending else Released.

(** The guards of a successful closure; whether the result reservation is released. *)
Definition check_result (h : QueryHandle) (t : QueryTerminalState) (actual_result : option (Z * Z))
  : result bool QueryCoordinatorError :=
  match t with
  | Succeeded =>
      let? (bytes, pages) := ok_or actual_result ResultMissing in
      let? _ := ensure (negb ((op_maximum_result_bytes (h_operation h) <? bytes)
                              || (op_maximum_result_pages (h_operation h) <? pages)))
                  ResultReservationExceeded in
      let? _ := ensure (bool_decide (is_Some (retained_locator (h_events h)))) ResultMissing in
      Ok false
  | _ => Ok true
  end.

Definition unreserve_task (id : string) : op unit :=
  modify_state (fun s => set_tasks s (task_reservations s ∖ {[id]}) (attached_tasks s ∖ {[id]})).
(** [state.queue.retain(|queued| queued != query_id)]. *)
Definition unqueue (id : string) : op unit :=
  modify_state (fun s => set_queue s (filter (fun q => q <> id) (queue s))).
Definition notify_handle (id : string) : op unit :=
  modify_state (fun s => match handles s !! id with
                         | Some h => set_handle s id (notify_changed h)
                         | None => s
                         end).

Definition terminal (id : string) (t : QueryTerminalState) (public_code : option string)
    (actual_result : option (Z * Z)) (observed_at : Z) : op QueryControlEvent :=
  do! h <- get_handle id ;
  do! _ <- st_lift (ensure (negb (phase_is_terminal (h_phase h))) AlreadyTerminal) ;
  do! release_result <- st_lift (check_result h t actual_result) ;
  do! (e, next_bytes) <- st_lift (terminal_event h t public_code observed_at) ;
  let prior_phase := h_phase h in
  let events := (h_events h ++ [e])%list in
  let closed := set_phase (set_events h events next_bytes) (TerminalPhase t) in
  let closed := if bool_decide (t = Succeeded) then closed
                else set_cancelled closed (h_cancelled closed) true in
  let closed := if (release_result : bool) then set_retention closed (closing_retention events) else closed in
  do! _ <- put_handle id closed ;
  do! _ <- replace_record closed ;
  let o := h_operation h in
  do! _ <- (if bool_decide (prior_phase = Running)
            then release_running (op_workspace_id o) (op_principal_id o)
            else unqueue id) ;
  do! _ <- (if (release_result : bool)
            then release_result_reservation (op_maximum_result_bytes o) (op_maximum_result_pages o)
            else st_ret tt) ;
  do! _ <- unreserve_task id ;
  do! _ <- dispatch_locked ;
  do! _ <- notify_handle id ;
  st_ret e.

(** ** Cancellation *)

(** The first critical section of [cancel]; whether the query was still queued. *)
Definition cancel_signal (id : string) : op bool :=
  do! h <- get_handle id ;
  do! _ <- put_handle id (set_cancelled h true true) ;
  st_ret (bool_decide (h_phase h = Queued)).

Definition cancel (id : string) (observed_at : Z) : op unit :=
  do! queued <- cancel_signal id ;
  if (queued : bool) then
    do! _ <- terminal id CancelledState (Some "CANCELLED"%string) None observed_at ;
    st_ret tt
  else st_ret tt.

Definition cancel_idempotent (id cancellation_id : string) (observed_at : Z) : op QueryCancellationOutcome :=
  do! _ <- st_lift (ensure (valid_cancellation_id cancellation_id) InvalidCancellationId) ;
  do! h <- get_handle id ;
  if bool_decide (cancellation_id ∈ h_cancellation_ids h)
  then st_ret (mk_QueryCancellationOutcome (h_phase h) true)
  else
    do! _ <- st_lift (ensure (negb (MAX_CANCELLATION_IDENTITIES_PER_QUERY
                                    <=? Z.of_nat (size (h_cancellation_ids h)))) CancellationCapacity) ;
    let recorded := set_cancellation_ids h ({[cancellation_id]} ∪ h_cancellation_ids h) in
    match h_phase h with
    | TerminalPhase t =>
        do! _ <- put_handle id recorded ;
        do! _ <- or_undo (replace_record recorded) (put_handle id h) ;
        st_ret (mk_QueryCancellationOutcome (TerminalPhase t) false)
    | Running =>
        do! _ <- put_handle id recorded ;
        do! _ <- or_undo (replace_record recorded) (put_handle id h) ;
        do! _ <- put_handle id (set_cancelled recorded true true) ;
        st_ret (mk_QueryCancellationOutcome Running false)
    | Queued =>
        do! (e, next_bytes) <- st_lift (terminal_event h CancelledState (Some "CANCELLED"%string) observed_at) ;
        let events := (h_events h ++ [e])%list in
        let closed := set_retention
                        (set_phase (set_events recorded events next_bytes) (TerminalPhase CancelledState))
                        (closing_retention events) in
        do! _ <- put_handle id closed ;
        do! _ <- or_undo (replace_record closed) (put_handle id h) ;
        do! _ <- put_handle id (set_cancelled closed true true) ;
        do! _ <- unqueue id ;
        do! _ <- release_result_reservation (op_maximum_result_bytes (h_operation h))
                   (op_maximum_result_pages (h_operation h)) ;
        do! _ <- unreserve_task id ;
        do! _ <- dispatch_locked ;
        do! _ <- notify_handle id ;
        st_ret (mk_QueryCancellationOutcome (TerminalPhase CancelledState) false)
    end.

(** ** Tasks *)

(** [spawn_task] under the lock: one task per accepted query. *)
Definition attach_task (id : string) : op unit :=
  do! h <- get_handle id ;
  do! s <- get_state ;
  do! _ <- st_lift (ensure (negb (phase_is_terminal (h_phase h)
                                  || negb (bool_decide (id ∈ task_reservations s))
                                  || bool_decide (id ∈ attached_tasks s))) TaskCapacity) ;
  modify_state (fun s => set_tasks s (task_reservations s) ({[id]} ∪ attached_tasks s)).

Definition detach_task (id : string) : op unit :=
  modify_state (fun s => set_tasks s (task_reservations s) (attached_tasks s ∖ {[id]})).

(** [spawned]: the answer of the task scope. *)
Definition spawn_task (id : string) (spawned : result unit string) : op unit :=
  do! _ <- attach_task id ;
  match spawned with
  | Ok _ => st_ret tt
  | Err e => do! _ <- detach_task id ; st_err (StructuredTask e)
  end.

(** [drain_owned_tasks]: signal every query, then forget the joined tasks. *)
Definition drain_signal : op unit :=
  modify_state (fun s => set_handles s ((fun h => set_cancelled h true true) <$> handles s)).
Definition drain_clear : op unit :=
  modify_state (fun s => set_tasks s (task_reservations s) ∅).

Definition drain_owned_tasks (joined : result unit string) : op unit :=
  do! _ <- drain_signal ;
  match joined with
  | Ok _ => drain_clear
  | Err e => st_err (StructuredTask e)
  end.

(** [join_query_tasks]: cancel the query's task scope; forget its task once it is joined. *)
Definition join_signal (id : string) : op unit :=
  do! h <- get_handle id ; put_handle id (set_cancelled h (h_cancelled h) true).
Definition join_query_tasks (id : string) (joined : result unit string) : op unit :=
  do! _ <- join_signal id ;
  match joined with
  | Ok _ => detach_task id
  | Err e => st_err (StructuredTask e)
  end.

Definition cancellation (id : string) : op (option bool) :=
  do! s <- get_state ; st_ret (h_cancelled <$> handles s !! id).

(** Dropping a [QueryExecutionPermit] that was not completed. *)
Definition permit_drop (id : string) (completed : bool) : op unit :=
  if completed then st_ret tt
  else modify_state (fun s => match handles s !! id with
                              | Some h => set_handle s id (set_cancelled h true (h_task_cancelled h))
                              | None => s
                              end).

(** ** Result retention *)

Definition release_result (id : string) : op unit :=
  do! h <- get_handle id ;
  do! _ <- st_lift (ensure (bool_decide (h_phase h = TerminalPhase Succeeded)) ResultNotReleasable) ;
  if bool_decide (h_result_retention h <> Reserved) then st_ret tt
  else
    let pending := set_retention h CleanupPending in
    do! _ <- put_handle id pending ;
    do! _ <- or_undo (replace_record pending) (put_handle id h) ;
    release_result_reservation (op_maximum_result_bytes (h_operation h))
      (op_maximum_result_pages (h_operation h)).

Definition mark_result_cleanup_complete (id : string) : op unit :=
  do! h <- get_handle id ;
  match h_result_retention h with
  | Released => st_ret tt
  | Reserved => st_err ResultNotReleasable
  | CleanupPending =>
      let released := set_retention h Released in
      do! _ <- put_handle id released ;
      or_undo (replace_record released) (put_handle id h)
  end.

(** The keys of a [BTreeMap] keyed by strings, in its order. *)
Definition ascending_keys {A} (m : gmap string A) : list string :=
  merge_sort (fun a b => Is_true (String.leb a b)) (map_to_list m).*1.

Definition pending_result_cleanups : op (list (string * PendingResultObjectSet)) :=
  do! s <- get_state ;
  st_ret (omap (fun id => h ← handles s !! id;
                          if bool_decide (h_result_retention h = CleanupPending)
                          then (fun os => (id, os)) <$> cleanup_object_set (h_events h)
                          else None) (ascending_keys (handles s))).

(** ** Expiry *)

(** A retained object set survives its query: the query is closed and its objects await cleanup. *)
Definition expire_staged (id : string) (h : QueryHandle) (observed_at : Z) : op unit :=
  let prior_phase := h_phase h in
  do! h <- (if phase_is_terminal prior_phase then st_ret h
            else do! (e, next_bytes) <- st_lift (terminal_event h Lost (Some "QUERY_EXPIRED"%string) observed_at) ;
                 st_ret (set_phase (set_events h (h_events h ++ [e]) next_bytes) (TerminalPhase Lost))) ;
  let h := set_retention h CleanupPending in
  let o := h_operation h in
  do! _ <- put_handle id h ;
  do! _ <- replace_record h ;
  do! _ <- match prior_phase with
           | Running => release_running (op_workspace_id o) (op_principal_id o)
           | Queued => unqueue id
           | TerminalPhase _ => st_ret tt
           end ;
  do! _ <- put_handle id (set_cancelled h true true) ;
  do! _ <- release_result_reservation (op_maximum_result_bytes o) (op_maximum_result_pages o) ;
  do! _ <- unreserve_task id ;
  notify_handle id.

(** Nothing to clean up: the query and its idempotency key disappear. *)
Definition expire_removed (id : string) (h : QueryHandle) : op unit :=
  let o := h_operation h in
  do! _ <- modify_state (fun s => set_handles s (delete id (handles s))) ;
  do! _ <- unqueue id ;
  do! _ <- (if bool_decide (h_phase h = Running)
            then release_running (op_workspace_id o) (op_principal_id o) else st_ret tt) ;
  do! _ <- (if bool_decide (h_result_retention h = Reserved)
            then release_result_reservation (op_maximum_result_bytes o) (op_maximum_result_pages o)
            else st_ret tt) ;
  do! _ <- unreserve_task id ;
  do! _ <- modify_state (fun s => set_idempotency s (delete (operation_scope o) (idempotency s))) ;
  delete_record id.

Definition expire_one (observed_at : Z) (id : string) : op unit :=
  do! s <- get_state ;
  do! h <- st_lift (ok_or (handles s !! id) CoordinatorState_unavailable) ;
  if (bool_decide (h_result_retention h = Reserved)
      && bool_decide (is_Some (cleanup_object_set (h_events h))))%bool
  then expire_staged id h observed_at
  else expire_removed id h.

Definition expired_at (observed_at : Z) (h : QueryHandle) : bool :=
  (acc_lease_expires_at_unix_ms (h_acceptance h) <=? observed_at)
  && negb (bool_decide (h_result_retention h = CleanupPending)).

Fixpoint for_each (f : string -> op unit) (l : list string) : op unit :=
  match l with
  | [] => st_ret tt
  | id :: l => do! _ <- f id ; for_each f l
  end.

Definition collect_expired (observed_at : Z) : op Z :=
  do! s <- get_state ;
  let expired := filter (fun id => Is_true (match handles s !! id with
                                            | Some h => expired_at observed_at h
                                            | None => false
                                            end)) (ascending_keys (handles s)) in
  do! _ <- for_each (expire_one observed_at) expired ;
  do! _ <- dispatch_locked ;
  st_ret (Z.of_nat (length expired)).

(** ** Reads *)

(** The coordinator's own fields of a status observation. *)
Record QueryCoordinatorSnapshot := mk_QueryCoordinatorSnapshot {
  sn_running : Z;
  sn_queued : Z;
  sn_accepted : Z;
  sn_reserved_result_bytes : Z;
  sn_reserved_result_pages : Z
}.

Definition snapshot : op QueryCoordinatorSnapshot :=
  do! s <- get_state ;
  st_ret (mk_QueryCoordinatorSnapshot (running s) (Z.of_nat (length (queue s)))
            (Z.of_nat (size (handles s))) (reserved_result_bytes s) (reserved_result_pages s)).

Definition structured_task_capacity : Z := saturating_add u64_max (max_tasks policy) 64.

Definition events_after (id : string) (after_sequence : Z) : op (list QueryControlEvent) :=
  do! h <- get_handle id ; st_lift (public_events_after (h_events h) after_sequence).

Definition authorize_query (id : string) (authority : QuerySessionAuthority) : op WorkspaceId :=
  do! h <- get_handle id ;
  do! _ <- st_lift (ensure (authorizes_session (h_operation h) authority) QueryOwnerMismatch) ;
  st_ret (op_workspace_id (h_operation h)).

Definition retained_result_selection (id : string) (authority : QuerySessionAuthority)
  : op (WorkspaceId * RetainedPackageLocator) :=
  do! h <- get_handle id ;
  do! _ <- st_lift (ensure (authorizes_session (h_operation h) authority) QueryOwnerMismatch) ;
  do! _ <- st_lift (ensure (bool_decide (h_phase h = TerminalPhase Succeeded)
                            && bool_decide (h_result_retention h = Reserved)) ResultNotReleasable) ;
  do! l <- st_lift (ok_or (retained_locator (h_events h)) ResultNotReleasable) ;
  st_ret (op_workspace_id (h_operation h), l).

Definition authorize_retained_result_reissue (id : string) (authority : QuerySessionAuthority) : op WorkspaceId :=
  do! r <- retained_result_selection id authority ; st_ret r.1.

Definition phase (id : string) : op QueryExecutionPhase :=
  do! h <- get_handle id ; st_ret (h_phase h).

(** ** Resume cursors *)

Definition mint_cursor (id : string) (after_sequence expires_at : Z) : op string :=
  do! h <- get_handle id ;
  do! _ <- st_lift (ensure (negb (acc_lease_expires_at_unix_ms (h_acceptance h) <? expires_at)) CursorExpiry) ;
  do! checksum <- st_lift (public_event_checksum blake3_hash event_to_vec (h_events h) after_sequence) ;
  let o := h_operation h in
  st_lift (encode_cursor blake3_keyed_hash cursor_to_vec
    (mk_CursorPayload id (hex (as_slice (as_bytes (op_principal_id o)))) (qc_generation self)
       (op_policy_generation o) (op_revocation_generation o) (op_sharing_class o)
       (op_semantic_profile o) after_sequence checksum expires_at)
    (qc_cursor_secret self)).

Definition verify_cursor (cursor : string) (authority : QuerySessionAuthority) (observed_at : Z)
  : op (string * Z) :=
  do! p <- st_lift (decode_cursor blake3_keyed_hash cursor_to_vec cursor_from_slice cursor
                      (qc_cursor_secret self)) ;
  do! _ <- st_lift (ensure ((cu_generation p =? qc_generation self)
                            && bool_decide (cu_principal_id p
                                            = hex (as_slice (as_bytes (sa_principal_id authority))))
                            && (cu_policy_generation p =? sa_policy_generation authority)
                            && (cu_revocation_generation p =? sa_revocation_generation authority)
                            && bool_decide (cu_sharing_class p = sa_sharing_class authority)
                            && negb (cu_expires_at_unix_ms p <=? observed_at)) CursorBinding) ;
  do! h <- get_handle (cu_query_id p) ;
  let o := h_operation h in
  do! _ <- st_lift (ensure (authorizes_session o authority
                            && (cu_policy_generation p =? op_policy_generation o)
                            && (cu_revocation_generation p =? op_revocation_generation o)
                            && bool_decide (cu_sharing_class p = op_sharing_class o)
                            && bool_decide (cu_semantic_profile p = op_semantic_profile o)) CursorBinding) ;
  do! expected <- st_lift (public_event_checksum blake3_hash event_to_vec (h_events h) (cu_after_sequence p)) ;
  do! _ <- st_lift (ensure (bool_decide (cu_event_checksum p = expected)) CursorBinding) ;
  st_ret (cu_query_id p, cu_after_sequence p).

(** ** Waiting for admission *)

(** One task in [await_running]: about to look at the phase, past the lock but not yet holding a
    notification future, waiting on a future created at a notification count, or done. *)
Inductive await_pc :=
| AwaitCheck
| AwaitGap
| AwaitNotified (seen : Z)
| AwaitDone (r : result unit QueryCoordinatorError).

(** The steps of [await_running]; [None]: it cannot move. *)
Definition await_step (id : string) (pc : await_pc) (s : CoordinatorState) : option await_pc :=
  match pc with
  | AwaitCheck =>
      Some match handles s !! id with
           | None => AwaitDone (Err (UnknownQuery id))
           | Some h =>
               match h_phase h with
               | Running => AwaitDone (Ok tt)
               | TerminalPhase CancelledState => AwaitDone (Err Cancelled)
               | TerminalPhase _ => AwaitDone (Err AlreadyTerminal)
               | Queued => AwaitGap
               end
           end
  | AwaitGap => h ← handles s !! id; Some (AwaitNotified (h_changed h))
  | AwaitNotified seen =>
      h ← handles s !! id;
      if seen <? h_changed h then Some AwaitCheck else None
  | AwaitDone _ => None
  end.

(** ** Recovery *)

(** Nonterminal work of the previous process is closed as lost. *)
Definition close_lost (d : DurableQueryRecord) (observed_at : Z)
  : result (DurableQueryRecord * bool) QueryCoordinatorError :=
  if phase_is_terminal (acc_phase (dr_acceptance d)) then Ok (d, false)
  else
    let? sequence := next_sequence (dr_events d) in
    let e := mk_QueryControlEvent sequence observed_at
               (Terminal Lost (Some "QUERY_LOST_DURING_RESTART"%string)) in
    Ok (mk_DurableQueryRecord (set_acc_phase (dr_acceptance d) (TerminalPhase Lost))
          (dr_workspace_id d) (dr_principal_id d) (dr_policy_generation d)
          (dr_revocation_generation d) (dr_sharing_class d) (dr_idempotency_key d)
          (dr_operation_fingerprint d) (dr_semantic_profile d) (dr_reserved_result_bytes d)
          (dr_reserved_result_pages d) (dr_cancellation_ids d) (closing_retention (dr_events d))
          (dr_events d ++ [e]), true).

Definition set_dr_retention (d : DurableQueryRecord) (r : ResultRetentionState) : DurableQueryRecord :=
  mk_DurableQueryRecord (dr_acceptance d) (dr_workspace_id d) (dr_principal_id d)
    (dr_policy_generation d) (dr_revocation_generation d) (dr_sharing_class d) (dr_idempotency_key d)
    (dr_operation_fingerprint d) (dr_semantic_profile d) (dr_reserved_result_bytes d)
    (dr_reserved_result_pages d) (dr_cancellation_ids d) r (dr_events d).

Fixpoint validate_events (events : list QueryControlEvent) : result unit QueryCoordinatorError :=
  match events with
  | [] => Ok tt
  | e :: events =>
      let? _ := validate_result_ready_payload (ev_payload e) in
      let? _ := match ev_payload e with
                | PublicationPending os => validate_pending_result_object_set os
                | _ => Ok tt
                end in
      validate_events events
  end.

(** The encoded size of a query's events. *)
Fixpoint total_event_bytes (events : list QueryControlEvent) (total : Z) : result Z QueryCoordinatorError :=
  match events with
  | [] => Ok total
  | e :: events =>
      let? bytes := encoded_len e in
      let? total := ok_or (checked_add u64_max total bytes) CounterOverflow in
      total_event_bytes events total
  end.

(** [checked_add(amount).filter(|value| *value <= limit).ok_or(RecoveryCapacity)]. *)
Definition recover_capacity (reserved amount limit : Z) : result Z QueryCoordinatorError :=
  let? next := ok_or (checked_add u64_max reserved amount) RecoveryCapacity in
  let? _ := ensure (next <=? limit) RecoveryCapacity in
  Ok next.

Definition recovered_operation (d : DurableQueryRecord) (workspace : WorkspaceId) (principal : PrincipalId)
  : NormalizedQueryOperation :=
  mk_NormalizedQueryOperation workspace principal (dr_policy_generation d) (dr_revocation_generation d)
    (dr_sharing_class d) (dr_idempotency_key d) (String.list_byte_of_string "{}"%string)
    (dr_semantic_profile d) "recovered"%string "recovered"%string "recovered"%string
    "recovered"%string "recovered"%string "recovered"%string
    (saturating_add i64_max (acc_accepted_at_unix_ms (dr_acceptance d)) 1)
    (acc_lease_expires_at_unix_ms (dr_acceptance d)) (dr_reserved_result_bytes d)
    (dr_reserved_result_pages d).

(** The end of the recovery loop's body: the reservation is counted and the handle installed. *)
Definition recovered_handle (d : DurableQueryRecord) (o : NormalizedQueryOperation) (fp : byte_array 32)
    (reservation : ResourceReservation) (bytes : Z) : QueryHandle :=
  mk_QueryHandle reservation o (dr_acceptance d) fp false (dr_cancellation_ids d) (dr_events d) bytes
    (dr_result_retention d) 0 false.

Definition install_record (d : DurableQueryRecord) (o : NormalizedQueryOperation) (fp : byte_array 32)
    (reservation : ResourceReservation) (child : string -> result unit string) : op unit :=
  do! bytes <- st_lift (total_event_bytes (dr_events d) 0) ;
  let id := acc_query_id (dr_acceptance d) in
  do! _ <- st_lift (match child id with Ok _ => Ok tt | Err e => Err (StructuredTask e) end) ;
  modify_state (fun s =>
    set_handle (set_idempotency s (<[operation_scope o := id]> (idempotency s))) id
      (recovered_handle d o fp reservation bytes)).

Definition adopt_record (d : DurableQueryRecord) (workspace : WorkspaceId) (principal : PrincipalId)
    (fp : byte_array 32) (reservation : ResourceReservation) (child : string -> result unit string) : op unit :=
  do! s <- get_state ;
  do! _ <- (if bool_decide (dr_result_retention d = Reserved) then
              do! bytes <- st_lift (recover_capacity (reserved_result_bytes s) (dr_reserved_result_bytes d)
                                      (max_total_result_bytes policy)) ;
              do! pages <- st_lift (recover_capacity (reserved_result_pages s) (dr_reserved_result_pages d)
                                      (max_total_result_pages policy)) ;
              modify_state (fun s => set_reserved s bytes pages)
            else st_ret tt) ;
  install_record d (recovered_operation d workspace principal) fp reservation child.

(** The body of the recovery loop; [child]: the task scope's answer for a query. *)
Definition recover_one (observed_at : Z) (child : string -> result unit string)
    (loaded : DurableQueryRecord * ResourceReservation) : op unit :=
  let '(d, reservation) := loaded in
  do! workspace <- st_lift (decode_hex16 (dr_workspace_id d)) ;
  do! principal <- st_lift (decode_hex16 (dr_principal_id d)) ;
  let workspace := from_bytes (t:=TWorkspaceId) workspace in
  let principal := from_bytes (t:=TPrincipalId) principal in
  do! _ <- st_lift (QuerySessionAuthority_try_new principal (dr_policy_generation d)
                      (dr_revocation_generation d) (dr_sharing_class d)) ;
  do! fp <- st_lift (decode_hex32 (dr_operation_fingerprint d)) ;
  do! _ <- st_lift (validate_cancellation_ids (dr_cancellation_ids d)) ;
  do! _ <- st_lift (validate_events (dr_events d)) ;
  do! _ <- st_lift (validate_result_retention d) ;
  let retained_object_set := bool_decide (is_Some (cleanup_object_set (dr_events d))) in
  do! (d, changed) <- st_lift (close_lost d observed_at) ;
  let expired := acc_lease_expires_at_unix_ms (dr_acceptance d) <=? observed_at in
  let staged := (retained_object_set && negb (bool_decide (dr_result_retention d = Released)))%bool in
  if (expired && negb staged)%bool
  then delete_record (acc_query_id (dr_acceptance d))
  else
    let '(d, changed) := if (expired : bool) then (set_dr_retention d CleanupPending, true) else (d, changed) in
    do! _ <- st_lift (validate_result_retention d) ;
    do! _ <- (if (changed : bool) then on_journal (journal_replace d) else st_ret tt) ;
    adopt_record d workspace principal fp reservation child.

Fixpoint recover_loop (observed_at : Z) (child : string -> result unit string)
    (recovered : list (DurableQueryRecord * ResourceReservation)) : op unit :=
  match recovered with
  | [] => st_ret tt
  | d :: recovered =>
      do! _ <- recover_one observed_at child d ; recover_loop observed_at child recovered
  end.

(** [try_new]: reopen the journal into a fresh state. *)
Definition recover (observed_at : Z) (child : string -> result unit string) (j : J)
  : World * result unit QueryCoordinatorError :=
  (do! _ <- st_lift (ensure (negb ((qc_generation self =? 0) || all_zero (qc_cursor_secret self)))
                      InvalidCoordinatorIdentity) ;
   do! maximum_record_bytes <- st_lift (ok_or (checked_add u64_max (max_event_bytes_per_query policy)
                                                 (128 * 1024)) CounterOverflow) ;
   do! recovered <- (fun w => (w, journal_load (saturating_add u64_max (max_recovery_records policy) 1)
                                    maximum_record_bytes (co_journal w))) ;
   do! _ <- st_lift (ensure (Z.of_nat (length recovered) <=? max_recovery_records policy) RecoveryLimit) ;
   recover_loop observed_at child recovered) (mk_World state_default j).
End coordinator.
