(* ===== verification/QueryEvents.v ===== *)
(** The public event stream of a query: what [public_events_after] answers is the numbered public
    projection of the recorded events, and recording one more event only ever changes the trailing
    progress event. *)

From S2P Require Import Prelude.
From S2P Require Import Encoding.
From S2P Require Import BudgetModel.
From S2P Require Import QueryModel.
From S2P Require Import QueryCoordinator.
Local Open Scope Z_scope.

Definition public_events (events : list QueryControlEvent) : list QueryControlEvent :=
  filter (fun e => Is_true (is_public (ev_payload e))) events.

(** The public events, numbered from [n + 1]. *)
Definition stream_from (n : Z) (events : list QueryControlEvent) : list QueryControlEvent :=
  imap (fun i e => with_sequence e (n + Z.of_nat i + 1)) (public_events events).
Definition public_stream : list QueryControlEvent -> list QueryControlEvent := stream_from 0.

Lemma stream_from_cons n e events :
  stream_from n (e :: events)
  = if is_public (ev_payload e) then with_sequence e (n + 1) :: stream_from (n + 1) events
    else stream_from n events.
Proof.
  unfold stream_from, public_events. rewrite filter_cons.
  destruct (is_public (ev_payload e)); simpl; [|done]. f_equal; [by rewrite Z.add_0_r|].
  apply imap_ext. intros i x _. simpl. f_equal. lia.
Qed.

Lemma stream_sequence n events i e :
  stream_from n events !! i = Some e -> ev_sequence e = n + Z.of_nat i + 1.
Proof. unfold stream_from. rewrite list_lookup_imap. by intros (x & _ & ->)%fmap_Some_1. Qed.

Lemma length_public events : (length (public_events events) <= length events)%nat.
Proof. apply length_filter. Qed.

(** The loop collects the events after a sequence number. *)
Lemma public_events_loop_spec events : forall n after suffix,
  0 <= n -> n + Z.of_nat (length events) <= u64_max ->
  public_events_loop events n after suffix
  = Ok (suffix ++ filter (fun e => Is_true (after <? ev_sequence e)) (stream_from n events)).
Proof.
  induction events as [|e events IH]; intros n after suffix Hn Hlen; cbn [public_events_loop].
  { unfold stream_from. simpl. by rewrite app_nil_r. }
  cbn [length] in Hlen. rewrite stream_from_cons.
  destruct (is_public (ev_payload e)); [|apply IH; lia].
  rewrite (proj2 (checked_add_Some u64_max n 1 (n + 1))) by lia. cbn [ok_or].
  rewrite IH by lia. f_equal. rewrite filter_cons. cbn [ev_sequence with_sequence].
  destruct (after <? n + 1); simpl; [by rewrite <- app_assoc|done].
Qed.

(** Numbers increase by one, so the events after a number are a suffix. *)
Lemma stream_suffix events : forall n after,
  0 <= n ->
  filter (fun e => Is_true (after <? ev_sequence e)) (stream_from n events)
  = drop (Z.to_nat (after - n)) (stream_from n events).
Proof.
  induction events as [|e events IH]; intros n after Hn; [symmetry; apply drop_nil|].
  rewrite stream_from_cons. destruct (is_public (ev_payload e)); [|by apply IH].
  rewrite filter_cons. cbn [ev_sequence with_sequence]. rewrite IH by lia.
  destruct (after <? n + 1) eqn:Ha; zify_bool.
  - rewrite decide_True by exact I. replace (Z.to_nat (after - n)) with 0%nat by lia.
    replace (Z.to_nat (after - (n + 1))) with 0%nat by lia. done.
  - rewrite decide_False by (intros []). replace (Z.to_nat (after - n)) with (S (Z.to_nat (after - (n + 1)))) by lia. done.
Qed.

Lemma public_events_after_spec events after :
  0 <= after -> Z.of_nat (length events) <= u64_max ->
  public_events_after events after = Ok (drop (Z.to_nat after) (public_stream events)).
Proof.
  intros Ha Hl. unfold public_events_after, public_stream. rewrite public_events_loop_spec by lia.
  rewrite stream_suffix by lia. by rewrite Z.sub_0_r.
Qed.

Lemma public_stream_app events e :
  public_stream (events ++ [e])
  = public_stream events
    ++ (if is_public (ev_payload e)
        then [with_sequence e (Z.of_nat (length (public_events events)) + 1)] else []).
Proof.
  unfold public_stream, stream_from, public_events. rewrite filter_app, imap_app. f_equal.
  rewrite filter_cons. destruct (is_public (ev_payload e)); simpl; [|done].
  rewrite Nat.add_0_r. done.
Qed.

(** The last event a client has seen may still be replaced when it reports progress. *)
Definition is_progress_event (e : QueryControlEvent) : bool := is_progress (ev_payload e).
Definition settled_part (stream : list QueryControlEvent) : list QueryControlEvent :=
  match last stream with
  | Some e => if is_progress_event e then take (length stream - 1) stream else stream
  | None => []
  end.

Lemma settled_part_app stream e :
  settled_part (stream ++ [e]) = if is_progress_event e then stream else stream ++ [e].
Proof.
  unfold settled_part. rewrite last_snoc. destruct (is_progress_event e); [|done].
  rewrite length_app. simpl. rewrite Nat.add_sub. by rewrite take_app_length.
Qed.

Lemma settled_part_prefix stream : settled_part stream `prefix_of` stream.
Proof.
  unfold settled_part. destruct (last stream); [|apply prefix_nil].
  destruct (is_progress_event _); [apply prefix_take|done].
Qed.

(** A private checkpoint replaced in place leaves the projection alone. *)
Lemma rposition_pending_Some events i :
  rposition_pending events = Some i ->
  exists before e after, events = before ++ e :: after /\ length before = i /\ is_pending (ev_payload e) = true.
Proof.
  revert i. induction events as [|e events IH]; intros i; cbn [rposition_pending]; [done|].
  destruct (rposition_pending events) as [k|].
  - intros [= <-]. destruct (IH k eq_refl) as (before & x & after & -> & <- & Hx).
    by exists (e :: before), x, after.
  - destruct (is_pending (ev_payload e)) eqn:He; [|done]. intros [= <-]. by exists [], e, events.
Qed.

Lemma public_events_private before e e' after :
  is_pending (ev_payload e) = true -> is_pending (ev_payload e') = true ->
  public_events (before ++ e' :: after) = public_events (before ++ e :: after).
Proof.
  intros He He'. unfold public_events. rewrite !filter_app, !filter_cons. unfold is_public. by rewrite He, He'.
Qed.

Section extension.
Context (event_to_vec : QueryControlEvent -> option (list byte)) (self : QueryCoordinator).

(** Where [extend_events] puts the event. *)
Lemma extend_events_shape h p obs e events n :
  extend_events event_to_vec self h p obs = Ok (e, events, n) ->
  ev_payload e = p
  /\ events = match replacement_of (h_events h) p with
              | Some i => <[i := e]> (h_events h)
              | None => h_events h ++ [e]
              end.
Proof.
  unfold extend_events.
  destruct (match replacement_of _ _ ≫= _ with Some _ => _ | None => _ end); [|done].
  destruct (encoded_len _ _); [|done].
  destruct (match replacement_of _ _ ≫= _ with Some _ => _ | None => _ end); [|done].
  destruct (ok_or _ _); [|done]. destruct (ensure _ _); [|done]. by intros [= <- <- _].
Qed.

Lemma extend_events_stream h p obs e events n :
  extend_events event_to_vec self h p obs = Ok (e, events, n) ->
  settled_part (public_stream (h_events h)) `prefix_of` public_stream events.
Proof.
  intros [Hp ->]%extend_events_shape. unfold replacement_of. destruct (is_pending p) eqn:Hpend.
  - destruct (rposition_pending (h_events h)) as [i|] eqn:Hr.
    + apply rposition_pending_Some in Hr as (before & x & after & -> & <- & Hx).
      rewrite insert_app_r_alt by lia. rewrite Nat.sub_diag. simpl.
      unfold public_stream, stream_from at 2. rewrite (public_events_private before x e) by (by rewrite ?Hp).
      apply settled_part_prefix.
    + rewrite public_stream_app. unfold is_public. rewrite Hp, Hpend. rewrite app_nil_r. apply settled_part_prefix.
  - destruct (is_progress p && _)%bool eqn:Hprog.
    + apply andb_true_iff in Hprog as [_ Hl]. destruct (last (h_events h)) as [l|] eqn:El; [|done].
      apply last_Some in El as [init ->]. rewrite length_app. simpl. rewrite Nat.add_sub.
      rewrite insert_app_r_alt, Nat.sub_diag by lia. simpl. rewrite !public_stream_app.
      assert (is_public (ev_payload l) = true) as -> by (by destruct (ev_payload l)).
      rewrite settled_part_app. change (is_progress_event (with_sequence l ?s)) with (is_progress (ev_payload l)).
      rewrite Hl. by apply prefix_app_r.
    + rewrite public_stream_app. etrans; [apply settled_part_prefix|]. by apply prefix_app_r.
Qed.
End extension.
