(* ===== verification/QueryInvariant.v ===== *)
(** The invariant of the query coordinator: its counters are the running and reserved queries, its
    queue holds the queued ones, its idempotency index is exact and every handle is well formed.

    A closure writes the handle first and returns the slots afterwards; between the two, and for
    good when the journal fails in between, the slots are held by no query. They are the [Leak] of
    the invariant. *)

From stdpp Require Import sorting.
From S2P Require Import Prelude.
From S2P Require Import Encoding.
From S2P Require Import CommandModel.
From S2P Require Import BudgetModel.
From S2P Require Import QueryModel.
From S2P Require Import QueryCoordinator.
Local Open Scope Z_scope.

Create HintDb query.

(** ** Leaks and sums *)

Record Leak := mk_Leak {
  lk_runs : list (WorkspaceId * PrincipalId);
  lk_bytes : Z;
  lk_pages : Z;
  lk_stale : gset string
}.

Definition no_leak : Leak := mk_Leak [] 0 0 ∅.

(** The slot a handle holds. *)
Definition slot_of (h : QueryHandle) : WorkspaceId * PrincipalId :=
  (op_workspace_id (h_operation h), op_principal_id (h_operation h)).
Definition runs_of (h : QueryHandle) : list (WorkspaceId * PrincipalId) :=
  if bool_decide (h_phase h = Running) then [slot_of h] else [].
Definition bytes_of (h : QueryHandle) : Z :=
  if bool_decide (h_result_retention h = Reserved) then op_maximum_result_bytes (h_operation h) else 0.
Definition pages_of (h : QueryHandle) : Z :=
  if bool_decide (h_result_retention h = Reserved) then op_maximum_result_pages (h_operation h) else 0.

Definition count_if (f : WorkspaceId * PrincipalId -> bool) (l : list (WorkspaceId * PrincipalId)) : Z :=
  Z.of_nat (length (List.filter f l)).

Lemma count_if_app f l1 l2 : count_if f (l1 ++ l2) = count_if f l1 + count_if f l2.
Proof. unfold count_if. rewrite List.filter_app, length_app. lia. Qed.

Lemma count_if_nonneg f l : 0 <= count_if f l.
Proof. unfold count_if. lia. Qed.

Lemma count_if_perm f l1 l2 : l1 ≡ₚ l2 -> count_if f l1 = count_if f l2.
Proof.
  intros Hp. unfold count_if. f_equal.
  induction Hp; simpl; repeat case_match; simpl; congruence.
Qed.

Definition any_slot (x : WorkspaceId * PrincipalId) : bool := true.
Definition in_workspace (w : WorkspaceId) (x : WorkspaceId * PrincipalId) : bool := bool_decide (x.1 = w).
Definition of_principal (p : PrincipalId) (x : WorkspaceId * PrincipalId) : bool := bool_decide (x.2 = p).

(** The slots [f] counts: those of running queries and the leaked ones. *)
Definition slots (f : WorkspaceId * PrincipalId -> bool) (m : gmap string QueryHandle) : Z :=
  msum (fun _ h => count_if f (runs_of h)) m.
Definition held (f : WorkspaceId * PrincipalId -> bool) (lk : Leak) (s : CoordinatorState) : Z :=
  slots f (handles s) + count_if f (lk_runs lk).

Definition reserved_bytes (m : gmap string QueryHandle) : Z := msum (fun _ h => bytes_of h) m.
Definition reserved_pages (m : gmap string QueryHandle) : Z := msum (fun _ h => pages_of h) m.

Lemma slots_nonneg f m : 0 <= slots f m.
Proof. apply msum_nonneg. intros. apply count_if_nonneg. Qed.

(** ** The parts of the invariant *)

(** Counters against handles. *)
Record accounted (lk : Leak) (s : CoordinatorState) : Prop := {
  ac_running : running s = held any_slot lk s;
  ac_workspace : forall w, default 0 (running_by_workspace s !! w) = held (in_workspace w) lk s;
  ac_principal : forall p, default 0 (running_by_principal s !! p) = held (of_principal p) lk s;
  ac_bytes : reserved_result_bytes s = reserved_bytes (handles s) + lk_bytes lk;
  ac_pages : reserved_result_pages s = reserved_pages (handles s) + lk_pages lk;
  ac_leak : 0 <= lk_bytes lk /\ 0 <= lk_pages lk
}.

(** The policy's limits on the counters. *)
Record within (policy : QueryCoordinatorPolicy) (s : CoordinatorState) : Prop := {
  wi_running : running s <= max_running policy;
  wi_workspace : forall w, default 0 (running_by_workspace s !! w) <= max_running_per_workspace policy;
  wi_principal : forall p, default 0 (running_by_principal s !! p) <= max_running_per_principal policy;
  wi_bytes : reserved_result_bytes s <= max_total_result_bytes policy;
  wi_pages : reserved_result_pages s <= max_total_result_pages policy;
  wi_queue : Z.of_nat (length (queue s)) <= max_queued policy;
  wi_tasks : Z.of_nat (size (task_reservations s)) <= max_tasks policy
}.

(** The queue is the queued queries; leaked entries are skipped when they are reached. *)
Record queued_exactly (lk : Leak) (s : CoordinatorState) : Prop := {
  qe_nodup : NoDup (queue s);
  qe_queue : forall id, id ∈ queue s -> exists h, handles s !! id = Some h
    /\ (h_phase h = Queued \/ phase_is_terminal (h_phase h) = true /\ id ∈ lk_stale lk);
  qe_queued : forall id h, handles s !! id = Some h -> h_phase h = Queued -> id ∈ queue s
}.

Record tasks_reserved (s : CoordinatorState) : Prop := {
  tr_open : forall id h, handles s !! id = Some h -> phase_is_terminal (h_phase h) = false ->
    id ∈ task_reservations s;
  tr_attached : attached_tasks s ⊆ task_reservations s
}.

(** The idempotency index and the handles name each other. *)
Record indexed (s : CoordinatorState) : Prop := {
  ix_handle : forall scope id, idempotency s !! scope = Some id ->
    exists h, handles s !! id = Some h /\ operation_scope (h_operation h) = scope;
  ix_scope : forall id h, handles s !! id = Some h ->
    idempotency s !! operation_scope (h_operation h) = Some id
}.

(** Sequence numbers count the events from one. *)
Definition numbered (events : list QueryControlEvent) : Prop :=
  forall i e, events !! i = Some e -> ev_sequence e = Z.of_nat i + 1.

(** The identity [accept] gives to a query. *)
Definition query_id_of (fp : byte_array 32) : string := ("query:" +:+ hex (as_slice fp))%string.

(** A well-formed handle: it knows its identity, which its fingerprint determines, its retention agrees with its phase and events, its
    reservations are machine integers, its events are numbered, and an open query has room for
    its terminal event. *)
Record handle_ok (policy : QueryCoordinatorPolicy) (id : string) (h : QueryHandle) : Prop := {
  ho_id : acc_query_id (h_acceptance h) = id;
  ho_fingerprint : id = query_id_of (h_fingerprint h);
  ho_retention : retention_valid (h_phase h) (h_events h) (h_result_retention h) = true;
  ho_bytes : in_uint u64_max (op_maximum_result_bytes (h_operation h));
  ho_pages : in_uint u64_max (op_maximum_result_pages (h_operation h));
  ho_numbered : numbered (h_events h);
  ho_room : phase_is_terminal (h_phase h) = false ->
    Z.of_nat (length (h_events h)) < max_events_per_query policy
    /\ (h_event_bytes h = 0 \/ h_event_bytes h + 1024 <= max_event_bytes_per_query policy)
}.

Record coordinated (policy : QueryCoordinatorPolicy) (lk : Leak) (s : CoordinatorState) : Prop := {
  co_accounted : accounted lk s;
  co_within : within policy s;
  co_queue : queued_exactly lk s;
  co_tasks : tasks_reserved s;
  co_indexed : indexed s;
  co_handles : forall id h, handles s !! id = Some h -> handle_ok policy id h
}.

(** ** Changing one handle *)

(** Replacing [h] by [h'] moves what [h] held and [h'] does not into the leak, or back. *)
Record moves_slots (lk lk' : Leak) (h h' : QueryHandle) : Prop := {
  ms_runs : forall f, count_if f (runs_of h') + count_if f (lk_runs lk')
                      = count_if f (runs_of h) + count_if f (lk_runs lk);
  ms_bytes : bytes_of h' + lk_bytes lk' = bytes_of h + lk_bytes lk;
  ms_pages : pages_of h' + lk_pages lk' = pages_of h + lk_pages lk;
  ms_leak : 0 <= lk_bytes lk' /\ 0 <= lk_pages lk'
}.

Lemma accounted_change lk lk' s id h h' :
  accounted lk s -> handles s !! id = Some h -> moves_slots lk lk' h h' ->
  accounted lk' (set_handle s id h').
Proof.
  intros [Hr Hw Hp Hb Hg _] Hh [Mr Mb Mg Ml].
  assert (forall f, held f lk' (set_handle s id h') = held f lk s) as Hheld.
  { intros f. unfold held, slots. simpl. rewrite (msum_replace _ _ _ _ _ Hh).
    specialize (Mr f). lia. }
  split; intros; rewrite ?Hheld; auto; simpl;
    unfold reserved_bytes, reserved_pages in *; rewrite (msum_replace _ _ _ _ _ Hh); lia.
Qed.

(** The queue and the tasks allow [h] to become [h']. *)
Record moves_phase (lk' : Leak) (s : CoordinatorState) (id : string) (h h' : QueryHandle) : Prop := {
  mp_operation : h_operation h' = h_operation h;
  mp_queued : h_phase h' = Queued -> h_phase h = Queued;
  mp_open : phase_is_terminal (h_phase h') = false -> phase_is_terminal (h_phase h) = false;
  mp_stale : id ∈ queue s ->
    h_phase h' = Queued \/ phase_is_terminal (h_phase h') = true /\ id ∈ lk_stale lk'
}.

Lemma queued_change lk lk' s id h h' :
  queued_exactly lk s -> handles s !! id = Some h -> lk_stale lk ⊆ lk_stale lk' ->
  moves_phase lk' s id h h' -> queued_exactly lk' (set_handle s id h').
Proof.
  intros [Hnd Hq Hqd] Hh Hsub [_ Mq _ Ms]. split; simpl; [done| |].
  - intros id' Hin. destruct (decide (id' = id)) as [->|Hne].
    + exists h'. rewrite lookup_insert_eq. auto.
    + rewrite lookup_insert_ne by done. destruct (Hq id' Hin) as (k & ? & [?|[? ?]]); eauto 10.
  - intros id' k Hk Hp. apply lookup_insert_Some in Hk as [[<- <-]|[Hne Hk]]; eauto.
Qed.

Lemma tasks_change lk' s id h h' :
  tasks_reserved s -> handles s !! id = Some h -> moves_phase lk' s id h h' ->
  tasks_reserved (set_handle s id h').
Proof.
  intros [Ho Ha] Hh [_ _ Mo _]. split; simpl; [|done].
  intros id' k Hk Hp. apply lookup_insert_Some in Hk as [[<- <-]|[Hne Hk]]; eauto.
Qed.

Lemma indexed_change s id h h' :
  indexed s -> handles s !! id = Some h -> h_operation h' = h_operation h ->
  indexed (set_handle s id h').
Proof.
  intros [Hx Hs] Hh Hop. split; simpl.
  - intros scope id' Hi. destruct (Hx _ _ Hi) as (k & Hk & Hsc).
    destruct (decide (id' = id)) as [->|Hne].
    + exists h'. rewrite lookup_insert_eq. split; [done|]. rewrite Hop. congruence.
    + exists k. by rewrite lookup_insert_ne.
  - intros id' k Hk. apply lookup_insert_Some in Hk as [[<- <-]|[Hne Hk]]; [rewrite Hop|]; eauto.
Qed.

Lemma coordinated_change policy lk lk' s id h h' :
  coordinated policy lk s -> handles s !! id = Some h -> lk_stale lk ⊆ lk_stale lk' ->
  moves_slots lk lk' h h' -> moves_phase lk' s id h h' -> handle_ok policy id h' ->
  coordinated policy lk' (set_handle s id h').
Proof.
  intros [Ha Hw Hq Ht Hi Hok] Hh Hsub Ms Mp Hok'. split.
  - by eapply accounted_change.
  - destruct Hw. by split.
  - by eapply queued_change.
  - by eapply tasks_change.
  - eapply indexed_change; [done..|]. apply Mp.
  - simpl. intros id' k Hk. apply lookup_insert_Some in Hk as [[<- <-]|[Hne Hk]]; auto.
Qed.

(** Nothing the invariant counts changes. *)
Record same_footprint (h h' : QueryHandle) : Prop := {
  sf_operation : h_operation h' = h_operation h;
  sf_phase : h_phase h' = h_phase h;
  sf_retention : h_result_retention h' = h_result_retention h
}.

Lemma same_footprint_slots lk h h' :
  0 <= lk_bytes lk /\ 0 <= lk_pages lk -> same_footprint h h' -> moves_slots lk lk h h'.
Proof.
  intros Hlk [Ho Hp Hr]. split; [intros f|..];
    unfold runs_of, bytes_of, pages_of, slot_of; rewrite ?Ho, ?Hp, ?Hr; done.
Qed.

Lemma same_footprint_phase lk s id h h' :
  queued_exactly lk s -> handles s !! id = Some h -> same_footprint h h' -> moves_phase lk s id h h'.
Proof.
  intros Hq Hh [Ho Hp Hr]. split; rewrite ?Hp; try done.
  intros Hin. destruct (qe_queue _ _ Hq id Hin) as (k & Hk & Hph). rewrite Hh in Hk. by simplify_eq.
Qed.

Lemma coordinated_same policy lk s id h h' :
  coordinated policy lk s -> handles s !! id = Some h -> same_footprint h h' ->
  handle_ok policy id h' -> coordinated policy lk (set_handle s id h').
Proof.
  intros Hc Hh Hsf Hok. eapply coordinated_change; [done..| | |done].
  - apply same_footprint_slots; [|done]. apply (ac_leak _ _ (co_accounted _ _ _ Hc)).
  - eapply same_footprint_phase; [apply Hc|done..].
Qed.

(** A handle whose acceptance, operation, retention and events are kept stays well formed. *)
Lemma handle_ok_same policy id h h' :
  handle_ok policy id h -> h_operation h' = h_operation h -> h_acceptance h' = h_acceptance h ->
  h_fingerprint h' = h_fingerprint h ->
  h_events h' = h_events h -> h_event_bytes h' = h_event_bytes h ->
  h_result_retention h' = h_result_retention h -> handle_ok policy id h'.
Proof.
  intros [Hid Hf Hr Hb Hp Hn Hm] Eo Ea Ef Ee Eb Er. unfold h_phase in *.
  split; unfold h_phase; rewrite ?Eo, ?Ea, ?Ef, ?Ee, ?Eb, ?Er; done.
Qed.

Lemma coordinated_cosmetic policy lk s id h h' :
  coordinated policy lk s -> handles s !! id = Some h ->
  h_operation h' = h_operation h -> h_acceptance h' = h_acceptance h ->
  h_fingerprint h' = h_fingerprint h ->
  h_events h' = h_events h -> h_event_bytes h' = h_event_bytes h ->
  h_result_retention h' = h_result_retention h -> coordinated policy lk (set_handle s id h').
Proof.
  intros Hc Hh Eo Ea Ef Ee Eb Er. eapply coordinated_same; [done..| |].
  - split; [done| |done]. unfold h_phase. by rewrite Ea.
  - eapply handle_ok_same; [by apply Hc|done..].
Qed.

(** ** Dispatch *)

(** The policies a coordinator runs under: [QueryCoordinatorPolicy_try_new] and the first guard of
    [recover] have accepted them. *)
Record policy_ok (p : QueryCoordinatorPolicy) : Prop := {
  po_running : 0 < max_running p <= u64_max;
  po_workspace : 0 < max_running_per_workspace p <= max_running p;
  po_principal : 0 < max_running_per_principal p <= max_running p;
  po_queued : 0 < max_queued p <= u64_max;
  po_tasks : 0 < max_tasks p <= u64_max;
  po_events : 3 <= max_events_per_query p <= u64_max;
  po_event_bytes : 0 < max_event_bytes_per_query p /\ max_event_bytes_per_query p + 131072 <= u64_max;
  po_bytes : 0 < max_total_result_bytes p <= u64_max;
  po_pages : 0 < max_total_result_pages p <= u64_max
}.

Lemma count_if_one f x : count_if f [x] = if f x then 1 else 0.
Proof. unfold count_if. simpl. by destruct (f x). Qed.

Lemma increment_scope_spec {K} `{Countable K} (m : gmap K Z) k k' :
  0 <= default 0 (m !! k) < u64_max ->
  default 0 (increment_scope m k !! k')
  = default 0 (m !! k') + (if bool_decide (k = k') then 1 else 0).
Proof.
  intros Hr. unfold increment_scope. case_bool_decide as Heq.
  - subst k'. rewrite lookup_insert_eq. simpl. apply wrap64_small. unfold in_uint. lia.
  - rewrite lookup_insert_ne by done. lia.
Qed.

Section dispatch.
Context (self : QueryCoordinator).
Abbreviation policy := (qc_policy self).
Context (lk : Leak).
Implicit Types (s : CoordinatorState) (h : QueryHandle) (id : string).

Lemma head_of_queue s id rest :
  coordinated policy lk s -> queue s = id :: rest ->
  exists h, handles s !! id = Some h
    /\ (h_phase h = Queued \/ phase_is_terminal (h_phase h) = true) /\ (id ∉ rest) /\ NoDup rest.
Proof.
  intros Hc Hq. destruct (co_queue _ _ _ Hc) as [Hnd Hin _]. rewrite Hq in *.
  apply NoDup_cons in Hnd as [? ?]. destruct (Hin id) as (h & ? & Hp); [set_solver|].
  exists h. split_and!; [done|tauto|done..].
Qed.

(** A stale entry leaves the queue. *)
Lemma coordinated_skip s id rest h :
  coordinated policy lk s -> queue s = id :: rest -> handles s !! id = Some h ->
  phase_is_terminal (h_phase h) = true -> coordinated policy lk (set_queue s rest).
Proof.
  intros [Ha Hw Hq Ht Hi Hok] Eq Hh Hterm. split; try done.
  - by destruct Ha.
  - destruct Hw. split; try done. simpl. rewrite Eq in *. simpl in *. lia.
  - destruct Hq as [Hnd Hin Hqd]. rewrite Eq in *. apply NoDup_cons in Hnd as [Hni Hnd].
    split; simpl; [done|set_solver|]. intros id' k Hk Hp.
    specialize (Hqd id' k Hk Hp). apply elem_of_cons in Hqd as [->|?]; [|done].
    rewrite Hh in Hk. simplify_eq. by rewrite Hp in Hterm.
  - by destruct Ht.
  - by destruct Hi.
Qed.

(** A blocked entry moves to the back. *)
Lemma coordinated_rotate s id rest :
  coordinated policy lk s -> queue s = id :: rest -> coordinated policy lk (set_queue s (rest ++ [id])).
Proof.
  intros [Ha Hw Hq Ht Hi Hok] Eq. assert (rest ++ [id] ≡ₚ queue s) as Hp.
  { rewrite Eq, Permutation_app_comm. done. }
  split; try done.
  - by destruct Ha.
  - destruct Hw. split; try done. simpl. by rewrite (Permutation_length Hp).
  - destruct Hq as [Hnd Hin Hqd]. split; simpl; [by rewrite Hp| |].
    + intros id'. rewrite Hp. apply Hin.
    + intros id' k Hk Hph. rewrite Hp. eauto.
  - by destruct Ht.
  - by destruct Hi.
Qed.

Lemma scope_blocked_false s o :
  scope_blocked self s o = false ->
  default 0 (running_by_workspace s !! op_workspace_id o) < max_running_per_workspace policy
  /\ default 0 (running_by_principal s !! op_principal_id o) < max_running_per_principal policy.
Proof. unfold scope_blocked. intros Hb. zify_bool. done. Qed.

Hypothesis Hpolicy : policy_ok policy.

Lemma held_nonneg f s : 0 <= held f lk s.
Proof.
  unfold held. pose proof (slots_nonneg f (handles s)).
  pose proof (count_if_nonneg f (lk_runs lk)). lia.
Qed.

(** Starting a query takes one slot of its workspace and one of its principal. *)
Lemma held_start f s id rest h :
  handles s !! id = Some h -> h_phase h = Queued ->
  held f lk (start_running (set_queue s rest) id h)
  = held f lk s + (if f (slot_of h) then 1 else 0).
Proof.
  intros Hh Hq. unfold held, slots. simpl. rewrite (msum_replace _ _ _ _ _ Hh).
  assert (runs_of h = []) as -> by (unfold runs_of; by rewrite Hq).
  change (runs_of (set_phase h Running)) with [slot_of h].
  rewrite count_if_one. change (count_if f []) with 0. lia.
Qed.

Lemma start_counters s id rest h :
  coordinated policy lk s ->
  running s < max_running policy -> scope_blocked self s (h_operation h) = false ->
  let s' := start_running (set_queue s rest) id h in
  running s' = running s + 1
  /\ (forall w, default 0 (running_by_workspace s' !! w) = default 0 (running_by_workspace s !! w)
                + (if in_workspace w (slot_of h) then 1 else 0))
  /\ (forall p, default 0 (running_by_principal s' !! p) = default 0 (running_by_principal s !! p)
                + (if of_principal p (slot_of h) then 1 else 0)).
Proof.
  intros Hc Hr Hb s'. apply scope_blocked_false in Hb as [Hbw Hbp].
  destruct (co_accounted _ _ _ Hc) as [Ar Aw Ap _ _ _].
  destruct Hpolicy as [P1 P2 P3 _ _ _ _ _ _].
  assert (0 <= running s) by (rewrite Ar; apply held_nonneg).
  assert (forall w, 0 <= default 0 (running_by_workspace s !! w)) as Nw by (intros; rewrite Aw; apply held_nonneg).
  assert (forall p, 0 <= default 0 (running_by_principal s !! p)) as Np by (intros; rewrite Ap; apply held_nonneg).
  split_and!.
  - simpl. apply wrap64_small. unfold in_uint. lia.
  - intros w. apply (increment_scope_spec (running_by_workspace s)). split; [apply Nw|lia].
  - intros p. apply (increment_scope_spec (running_by_principal s)). split; [apply Np|lia].
Qed.

Lemma accounted_start s id rest h :
  coordinated policy lk s -> handles s !! id = Some h -> h_phase h = Queued ->
  running s < max_running policy -> scope_blocked self s (h_operation h) = false ->
  accounted lk (start_running (set_queue s rest) id h).
Proof.
  intros Hc Hh Hq Hr Hb. destruct (start_counters s id rest h Hc Hr Hb) as (Er & Ew & Ep).
  destruct (co_accounted _ _ _ Hc) as [Ar Aw Ap Ab Ag Al]. split.
  - by rewrite Er, held_start, Ar.
  - intros w. by rewrite Ew, held_start, Aw.
  - intros p. by rewrite Ep, held_start, Ap.
  - simpl. unfold reserved_bytes in *. rewrite (msum_replace _ _ _ _ _ Hh).
    change (bytes_of (set_phase h Running)) with (bytes_of h). lia.
  - simpl. unfold reserved_pages in *. rewrite (msum_replace _ _ _ _ _ Hh).
    change (pages_of (set_phase h Running)) with (pages_of h). lia.
  - done.
Qed.

Lemma within_start s id rest h :
  coordinated policy lk s -> (length rest <= length (queue s))%nat ->
  running s < max_running policy -> scope_blocked self s (h_operation h) = false ->
  within policy (start_running (set_queue s rest) id h).
Proof.
  intros Hc Hl Hr Hb. destruct (start_counters s id rest h Hc Hr Hb) as (Er & Ew & Ep).
  apply scope_blocked_false in Hb as [Hbw Hbp].
  destruct (co_within _ _ _ Hc) as [Wr Ww Wp Wb Wg Wq Wt]. split; try done.
  - rewrite Er. lia.
  - intros w. rewrite Ew. unfold in_workspace. case_bool_decide as Hw; simpl in Hw; [subst; lia|].
    specialize (Ww w). lia.
  - intros p. rewrite Ep. unfold of_principal. case_bool_decide as Hp; simpl in Hp; [subst; lia|].
    specialize (Wp p). lia.
  - simpl. lia.
Qed.

Lemma handle_ok_running id h :
  handle_ok policy id h -> h_phase h = Queued -> handle_ok policy id (set_phase h Running).
Proof.
  intros [Hid Hf Hr Hb Hg Hn Hm] Hq. rewrite Hq in *. split; try done.
Qed.

Lemma coordinated_start s id rest h :
  coordinated policy lk s -> queue s = id :: rest -> handles s !! id = Some h -> h_phase h = Queued ->
  running s < max_running policy -> scope_blocked self s (h_operation h) = false ->
  coordinated policy lk (start_running (set_queue s rest) id h).
Proof.
  intros Hc Eq Hh Hq Hr Hb. split.
  - by apply accounted_start.
  - apply within_start; [done| |done..]. rewrite Eq. simpl. lia.
  - destruct (co_queue _ _ _ Hc) as [Hnd Hin Hqd]. rewrite Eq in *.
    apply NoDup_cons in Hnd as [Hni Hnd]. split; simpl; [done| |].
    + intros id' Hid'. destruct (Hin id') as (k & Hk & Hp); [set_solver|]. exists k.
      rewrite lookup_insert_ne by (intros ->; done). done.
    + intros id' k Hk Hp. apply lookup_insert_Some in Hk as [[<- <-]|[Hne Hk]]; [done|].
      specialize (Hqd id' k Hk Hp). apply elem_of_cons in Hqd as [->|?]; done.
  - destruct (co_tasks _ _ _ Hc) as [Ho Ha]. split; simpl; [|done]. intros id' k Hk Hp.
    apply lookup_insert_Some in Hk as [[<- <-]|[Hne Hk]]; [|eauto]. apply (Ho id h); [done|by rewrite Hq].
  - apply (indexed_change (set_running (set_queue s rest) _ _ _) id h); [|done|done].
    destruct (co_indexed _ _ _ Hc). by split.
  - simpl. intros id' k Hk. apply lookup_insert_Some in Hk as [[<- <-]|[Hne Hk]]; [|by apply Hc].
    apply handle_ok_running; [by apply Hc|done].
Qed.
End dispatch.
