(* ===== verification/QuerySteps.v ===== *)
(** Every operation of the query coordinator preserves its invariant; dispatch starts as many
    queued queries as the limits allow. *)

From stdpp Require Import sorting.
From S2P Require Import Prelude.
From S2P Require Import Encoding.
From S2P Require Import CommandModel.
From S2P Require Import BudgetModel.
From S2P Require Import QueryModel.
From S2P Require Import QueryCoordinator.
From S2P Require Import QueryInvariant.
Local Open Scope Z_scope.

Section steps.
Context {J : Type} `{QueryCoordinatorJournal J}.
Context (canonical_json : list byte -> option (list byte)).
Context (blake3_hash : list byte -> byte_array 32).
Context (event_to_vec : QueryControlEvent -> option (list byte)).
Context (self : QueryCoordinator).
Abbreviation policy := (qc_policy self).
Hypothesis Hpolicy : policy_ok policy.
Implicit Types (w : World (J:=J)) (s : CoordinatorState) (h : QueryHandle) (id : string) (lk : Leak).

Abbreviation good lk w := (coordinated policy lk (co_state w)).

(** ** Dispatch *)

(** What dispatch may do to a handle. *)
Definition started h h' : Prop :=
  h' = h \/ h_phase h = Queued /\ (h' = set_phase h Running \/ h' = notify_changed (set_phase h Running)).

Record dispatched s s' : Prop := {
  di_handles : forall id, option_Forall2 started (handles s !! id) (handles s' !! id);
  di_idempotency : idempotency s' = idempotency s
}.

(** Every query left in the queue is blocked, or there is no free slot. *)
Definition blocked_entry s id : Prop :=
  exists h, handles s !! id = Some h /\ h_phase h = Queued /\ scope_blocked self s (h_operation h) = true.
Definition saturated s : Prop :=
  max_running policy <= running s \/ forall id, id ∈ queue s -> blocked_entry s id.

Lemma started_trans h1 h2 h3 : started h1 h2 -> started h2 h3 -> started h1 h3.
Proof.
  intros [->|[Hq H1]] [->|[Hq' H2]]; unfold started; auto.
  destruct H1 as [-> | ->]; done.
Qed.

Lemma dispatched_refl s : dispatched s s.
Proof. split; [|done]. intros id. destruct (handles s !! id); constructor. by left. Qed.

Lemma dispatched_trans s1 s2 s3 : dispatched s1 s2 -> dispatched s2 s3 -> dispatched s1 s3.
Proof.
  intros [H1 I1] [H2 I2]. split; [|congruence]. intros id. specialize (H1 id). specialize (H2 id).
  inversion H1 as [h1 h2 Hs|]; subst; inversion H2 as [h2' h3 Hs'|]; subst; try congruence; constructor.
  eapply started_trans; [done|]. congruence.
Qed.

Lemma dispatched_handle s s' id h h' :
  handles s !! id = Some h -> started h h' -> handles s' = <[id := h']> (handles s) ->
  idempotency s' = idempotency s -> dispatched s s'.
Proof.
  intros Hh Hs Em Ei. split; [|done]. intros id'. rewrite Em.
  destruct (decide (id' = id)) as [->|Hne].
  - rewrite Hh, lookup_insert_eq. by constructor.
  - rewrite lookup_insert_ne by done. destruct (handles s !! id'); constructor. by left.
Qed.

Lemma dispatched_queue s q : dispatched s (set_queue s q).
Proof. split; [|done]. intros id. simpl. destruct (handles s !! id); constructor. by left. Qed.

(** A blocked query stays blocked while others start. *)
Lemma blocked_mono s s' id :
  blocked_entry s id ->
  (forall k, default 0 (running_by_workspace s !! k) <= default 0 (running_by_workspace s' !! k)) ->
  (forall p, default 0 (running_by_principal s !! p) <= default 0 (running_by_principal s' !! p)) ->
  handles s' !! id = handles s !! id -> blocked_entry s' id.
Proof.
  intros (h & Hh & Hq & Hb) Hw Hp Eh. exists h. rewrite Eh. split_and!; [done|done|].
  unfold scope_blocked in *. specialize (Hw (op_workspace_id (h_operation h))).
  specialize (Hp (op_principal_id (h_operation h))).
  apply orb_true_iff in Hb as [Hb|Hb]; apply orb_true_iff; [left|right]; apply Z.leb_le in Hb;
    apply Z.leb_le; lia.
Qed.

Lemma replace_record_state h w : co_state (replace_record h w).1 = co_state w.
Proof. unfold replace_record, on_journal. by destruct (journal_replace _ _). Qed.

(** Starting one query keeps the others blocked. *)
Lemma blocked_start lk s id rest h h' k :
  coordinated policy lk s -> running s < max_running policy ->
  scope_blocked self s (h_operation h) = false -> k <> id ->
  blocked_entry s k -> blocked_entry (set_handle (start_running (set_queue s rest) id h) id h') k.
Proof.
  intros Hc Hr Hb Hne Hk. destruct (start_counters self lk Hpolicy s id rest h Hc Hr Hb) as (_ & Ew & Ep).
  eapply blocked_mono; [done| | |simpl; by rewrite !lookup_insert_ne].
  - intros x. change (running_by_workspace (set_handle ?a id h')) with (running_by_workspace a).
    rewrite Ew. destruct (in_workspace _ _); lia.
  - intros x. change (running_by_principal (set_handle ?a id h')) with (running_by_principal a).
    rewrite Ep. destruct (of_principal _ _); lia.
Qed.

Lemma coordinated_notify lk s id h :
  coordinated policy lk s -> handles s !! id = Some h ->
  coordinated policy lk (set_handle s id (notify_changed h)).
Proof. intros Hc Hh. by eapply coordinated_cosmetic. Qed.

(** The loop over a queue whose tail holds the entries already found blocked. *)
Lemma dispatch_loop_spec lk todo passed w :
  good lk w -> queue (co_state w) = todo ++ passed ->
  (forall id, id ∈ passed -> blocked_entry (co_state w) id) ->
  let '(w', r) := dispatch_loop self (length todo) w in
  good lk w' /\ dispatched (co_state w) (co_state w')
  /\ (r = Ok tt -> saturated (co_state w')).
Proof.
  revert passed w. induction todo as [|id todo IH]; intros passed w Hg Hq Hb;
    cbn [dispatch_loop length]; destruct (running _ <? _) eqn:Hr; zify_bool;
    try (split_and!; [done|apply dispatched_refl|intros _; left; lia]).
  { split_and!; [done|apply dispatched_refl|]. right. intros id. rewrite Hq. apply Hb. }
  destruct (head_of_queue self lk _ id (todo ++ passed) Hg Hq) as (h & Hh & Hph & Hni & Hnd).
  rewrite Hq. cbn [app]. change (handles (set_queue ?x ?y)) with (handles x). rewrite Hh.
  destruct (phase_is_terminal (h_phase h)) eqn:Hterm.
  - pose proof (coordinated_skip self lk _ id _ h Hg Hq Hh Hterm) as Hg'.
    specialize (IH passed (mk_World (set_queue (co_state w) (todo ++ passed)) (co_journal w)) Hg' eq_refl).
    destruct (dispatch_loop _ _ _) as [w' r]. destruct IH as (? & ? & ?); [done|].
    split_and!; [done| |done]. by eapply dispatched_trans; [apply dispatched_queue|].
  - destruct Hph as [Hph|]; [|congruence].
    change (scope_blocked self (set_queue ?x ?y)) with (scope_blocked self x).
    destruct (scope_blocked self (co_state w) (h_operation h)) eqn:Hblk.
    + pose proof (coordinated_rotate self lk _ id _ Hg Hq) as Hg'.
      specialize (IH (passed ++ [id])
        (mk_World (set_queue (co_state w) ((todo ++ passed) ++ [id])) (co_journal w)) Hg').
      change (set_queue (set_queue ?x ?y) ?z) with (set_queue x z).
      destruct (dispatch_loop _ _ _) as [w' r]. destruct IH as (? & ? & ?).
      { simpl. by rewrite app_assoc. }
      { intros k Hk. apply elem_of_app in Hk as [Hk|Hk]; [by apply Hb|].
        apply list_elem_of_singleton in Hk as ->. by exists h. }
      split_and!; [done| |done]. by eapply dispatched_trans; [apply dispatched_queue|].
    + pose proof (coordinated_start self lk Hpolicy _ id _ h Hg Hq Hh Hph Hr Hblk) as Hg'.
      destruct (replace_record _ _) as [w1 [u|e]] eqn:Hj;
        apply (f_equal (fun x => co_state x.1)) in Hj; rewrite replace_record_state in Hj; simpl in Hj.
      * rewrite <- Hj.
        specialize (IH passed (mk_World (set_handle (start_running (set_queue (co_state w) (todo ++ passed)) id h)
                      id (notify_changed (set_phase h Running))) (co_journal w1))).
        destruct (dispatch_loop _ _ _) as [w' r]. destruct IH as (? & ? & ?); [|done| |].
        { apply coordinated_notify; [done|]. apply lookup_insert_eq. }
        { intros k Hk. eapply blocked_start; [done|done|done|set_solver|by apply Hb]. }
        split_and!; [done| |done]. eapply dispatched_trans; [|done].
        eapply dispatched_handle; [done| |simpl; by rewrite insert_insert_eq|done]. right. auto.
      * rewrite <- Hj. split_and!; [done| |done].
        eapply dispatched_handle; [done| |done|done]. right. auto.
Qed.

Lemma dispatch_locked_spec lk w :
  good lk w ->
  let '(w', r) := dispatch_locked self w in
  good lk w' /\ dispatched (co_state w) (co_state w') /\ (r = Ok tt -> saturated (co_state w')).
Proof.
  intros Hg. apply (dispatch_loop_spec lk (queue (co_state w)) []); [done| |].
  - by rewrite app_nil_r.
  - intros id Hid. by apply elem_of_nil in Hid.
Qed.

(** ** Returning slots *)

Definition add_runs (l : list (WorkspaceId * PrincipalId)) lk : Leak :=
  mk_Leak (l ++ lk_runs lk) (lk_bytes lk) (lk_pages lk) (lk_stale lk).
Definition add_reserved (b p : Z) lk : Leak :=
  mk_Leak (lk_runs lk) (lk_bytes lk + b) (lk_pages lk + p) (lk_stale lk).
Definition add_stale id lk : Leak :=
  mk_Leak (lk_runs lk) (lk_bytes lk) (lk_pages lk) ({[id]} ∪ lk_stale lk).

(** What a closure detaches from a handle before the slots are returned. *)
Definition leak_close lk id h h' : Leak :=
  add_stale id (add_reserved (bytes_of h - bytes_of h') (pages_of h - pages_of h') (add_runs (runs_of h) lk)).

Lemma coordinated_close lk s id h h' :
  coordinated policy lk s -> handles s !! id = Some h -> h_operation h' = h_operation h ->
  phase_is_terminal (h_phase h') = true -> handle_ok policy id h' ->
  bytes_of h' <= bytes_of h -> pages_of h' <= pages_of h ->
  coordinated policy (leak_close lk id h h') (set_handle s id h').
Proof.
  intros Hc Hh Ho Ht Hok Hb Hg. pose proof (ac_leak _ _ (co_accounted _ _ _ Hc)).
  assert (runs_of h' = []) as Er by (unfold runs_of; by destruct (h_phase h')).
  eapply coordinated_change; [done|done|simpl; set_solver| | |done]; split; simpl; try lia.
  - intros f. rewrite Er, count_if_app. change (count_if f []) with 0. lia.
  - done.
  - by intros Hq; rewrite Hq in Ht.
  - congruence.
  - intros _. right. split; [done|set_solver].
Qed.

Definition same_but_counters s s' : Prop :=
  handles s' = handles s /\ idempotency s' = idempotency s.

(** A change of counters only. *)
Lemma coordinated_counters lk lk' s r rw rp b g :
  coordinated policy lk s -> lk_stale lk ⊆ lk_stale lk' ->
  let s' := set_reserved (set_running s r rw rp) b g in
  accounted lk' s' -> r <= running s ->
  (forall k, default 0 (rw !! k) <= default 0 (running_by_workspace s !! k)) ->
  (forall k, default 0 (rp !! k) <= default 0 (running_by_principal s !! k)) ->
  b <= reserved_result_bytes s -> g <= reserved_result_pages s ->
  coordinated policy lk' s'.
Proof.
  intros [Ha [W1 W2 W3 W4 W5 W6 W7] [Q1 Q2 Q3] [T1 T2] [I1 I2] Hok] Hsub s' Ha' Hr Hrw Hrp Hb Hg.
  split; [done| | |by split|by split|done].
  - split; simpl; try done; try lia; intros k; [specialize (W2 k); specialize (Hrw k)|
      specialize (W3 k); specialize (Hrp k)]; lia.
  - split; simpl; [done| |done]. intros id Hid. destruct (Q2 id Hid) as (h & ? & [?|[? ?]]); eauto 10.
Qed.

Lemma decrement_scope_spec {K} `{Countable K} (m : gmap K Z) k :
  1 <= default 0 (m !! k) ->
  exists m', decrement_scope m k = Ok m'
    /\ forall k', default 0 (m' !! k') = default 0 (m !! k') - (if bool_decide (k = k') then 1 else 0).
Proof.
  intros Hge. unfold decrement_scope. destruct (m !! k) as [v|] eqn:Hk; simpl in *; [|lia].
  unfold checked_sub. rewrite (proj2 (Z.leb_le 1 v)) by lia. simpl. eexists. split; [done|].
  intros k'. destruct (Z.eqb_spec (v - 1) 0); case_bool_decide; subst.
  - rewrite lookup_delete_eq, Hk. simpl. lia.
  - rewrite lookup_delete_ne by done. lia.
  - rewrite lookup_insert_eq, Hk. done.
  - rewrite lookup_insert_ne by done. lia.
Qed.

(** [release_running] needs the counters only. *)
Lemma release_running_run lk w x :
  accounted (add_runs [x] lk) (co_state w) ->
  exists rw rp, let s := co_state w in
    let s' := set_reserved (set_running s (running s - 1) rw rp)
                (reserved_result_bytes s) (reserved_result_pages s) in
    release_running x.1 x.2 w = (mk_World s' (co_journal w), Ok tt) /\ accounted lk s'
    /\ (forall k, default 0 (rw !! k) <= default 0 (running_by_workspace s !! k))
    /\ (forall k, default 0 (rp !! k) <= default 0 (running_by_principal s !! k)).
Proof.
  intros [Ar Aw Ap Ab Ag Al].
  assert (forall f, held f (add_runs [x] lk) (co_state w)
                    = held f lk (co_state w) + (if f x then 1 else 0)) as Hheld.
  { intros f. unfold held. simpl lk_runs. change (x :: lk_runs lk) with ([x] ++ lk_runs lk).
    rewrite count_if_app, count_if_one. lia. }
  assert (forall f, 0 <= held f lk (co_state w)) as Hpos by (intros; apply held_nonneg).
  destruct (decrement_scope_spec (running_by_workspace (co_state w)) x.1) as (rw & Erw & Hrw).
  { rewrite Aw, Hheld. unfold in_workspace. rewrite bool_decide_true by done.
    specialize (Hpos (in_workspace x.1)). unfold in_workspace in Hpos. lia. }
  destruct (decrement_scope_spec (running_by_principal (co_state w)) x.2) as (rp & Erp & Hrp).
  { rewrite Ap, Hheld. unfold of_principal. rewrite bool_decide_true by done.
    specialize (Hpos (of_principal x.2)). unfold of_principal in Hpos. lia. }
  assert (checked_sub (running (co_state w)) 1 = Some (running (co_state w) - 1)) as Hsub.
  { apply checked_sub_Some. rewrite Ar, Hheld. destruct (any_slot x) eqn:Ex; [|done].
    specialize (Hpos any_slot). lia. }
  exists rw, rp. cbv zeta. split_and!.
  - unfold release_running, st_bind, get_state, st_lift. rewrite Hsub. simpl ok_or. cbv beta iota.
    unfold modify_state, st_modify. rewrite Erw. cbv beta iota. by rewrite Erp.
  - split; try done; cbn [running running_by_workspace running_by_principal set_reserved set_running].
    + rewrite Ar, Hheld. destruct (any_slot x) eqn:Ex; [|done].
      change (held any_slot lk (set_reserved ?a ?b ?c)) with (held any_slot lk (co_state w)). lia.
    + intros k. rewrite Hrw. change (bool_decide (x.1 = k)) with (in_workspace k x).
      rewrite Aw, Hheld. change (held ?f lk (set_reserved ?a ?b ?c)) with (held f lk (co_state w)). lia.
    + intros k. rewrite Hrp. change (bool_decide (x.2 = k)) with (of_principal k x).
      rewrite Ap, Hheld. change (held ?f lk (set_reserved ?a ?b ?c)) with (held f lk (co_state w)). lia.
  - intros k. rewrite Hrw. case_bool_decide; lia.
  - intros k. rewrite Hrp. case_bool_decide; lia.
Qed.

Lemma release_running_spec lk w x :
  good (add_runs [x] lk) w ->
  exists w', release_running x.1 x.2 w = (w', Ok tt) /\ good lk w'
    /\ same_but_counters (co_state w) (co_state w').
Proof.
  intros Hg. destruct (release_running_run lk w x (co_accounted _ _ _ Hg)) as (rw & rp & Er & Ha & Hw & Hp).
  eexists. split; [exact Er|]. split; [|done].
  apply (coordinated_counters (add_runs [x] lk)); try done; lia.
Qed.

Lemma release_result_reservation_run lk w b g :
  accounted (add_reserved b g lk) (co_state w) ->
  0 <= lk_bytes lk /\ 0 <= lk_pages lk ->
  0 <= reserved_bytes (handles (co_state w)) /\ 0 <= reserved_pages (handles (co_state w)) ->
  let s := co_state w in
  let s' := set_reserved (set_running s (running s) (running_by_workspace s) (running_by_principal s))
              (reserved_result_bytes s - b) (reserved_result_pages s - g) in
  release_result_reservation b g w = (mk_World s' (co_journal w), Ok tt) /\ accounted lk s'.
Proof.
  intros [Ar Aw Ap Ab Ag Al] Hlk [Nb Np] s s'. simpl in Ab, Ag. fold s in Ab, Ag, Nb, Np.
  assert (checked_sub (reserved_result_bytes s) b = Some (reserved_result_bytes s - b)) as Eb
    by (apply checked_sub_Some; lia).
  assert (checked_sub (reserved_result_pages s) g = Some (reserved_result_pages s - g)) as Eg
    by (apply checked_sub_Some; lia).
  split.
  - unfold release_result_reservation, st_bind, get_state, st_lift. fold s. rewrite Eb. simpl ok_or.
    cbv beta iota. unfold modify_state, st_modify. fold s. rewrite Eg. done.
  - split; try done; cbn [reserved_result_bytes reserved_result_pages set_reserved set_running handles s'];
      subst s; lia.
Qed.

Lemma reserved_nonneg m :
  (forall id h, m !! id = Some h -> handle_ok policy id h) -> 0 <= reserved_bytes m /\ 0 <= reserved_pages m.
Proof.
  intros Hok. split; apply msum_nonneg; intros id h Hh; destruct (Hok id h Hh) as [_ _ _ [? _] [? _] _ _];
    unfold bytes_of, pages_of; case_bool_decide; lia.
Qed.

Lemma release_result_reservation_spec lk w b g :
  good (add_reserved b g lk) w -> 0 <= b -> 0 <= g -> 0 <= lk_bytes lk /\ 0 <= lk_pages lk ->
  exists w', release_result_reservation b g w = (w', Ok tt) /\ good lk w'
    /\ same_but_counters (co_state w) (co_state w').
Proof.
  intros Hg Hb Hp Hlk.
  destruct (release_result_reservation_run lk w b g (co_accounted _ _ _ Hg) Hlk) as [Er Ha].
  { apply reserved_nonneg, Hg. }
  eexists. split; [exact Er|]. split; [|done].
  apply (coordinated_counters (add_reserved b g lk)); try done; lia.
Qed.

(** A closed query leaves the queue, and with it the leak. *)
Lemma unqueue_spec lk w id h :
  good (add_stale id lk) w -> handles (co_state w) !! id = Some h -> h_phase h <> Queued ->
  exists w', unqueue id w = (w', Ok tt) /\ good lk w' /\ same_but_counters (co_state w) (co_state w').
Proof.
  intros [Ha Hw Hq Ht Hi Hok] Hh Hph. eexists. split_and!; [done| |done]. simpl. split; try done.
  - by destruct Ha.
  - destruct Hw. split; try done. simpl. pose proof (length_filter (fun q => q <> id) (queue (co_state w))). lia.
  - destruct Hq as [Q1 Q2 Q3]. split; simpl.
    + by apply NoDup_filter.
    + intros k [Hne Hk]%list_elem_of_filter. destruct (Q2 k Hk) as (h' & ? & [?|[? Hst]]); [eauto|].
      exists h'. split; [done|]. right. split; [done|]. simpl in Hst. set_solver.
    + intros k h' Hk Hph'. apply list_elem_of_filter. split; [|by eapply Q3].
      intros ->. rewrite Hh in Hk. by simplify_eq.
  - by destruct Ht.
  - by destruct Hi.
Qed.

Lemma drop_stale lk w id :
  good (add_stale id lk) w -> id ∉ queue (co_state w) -> good lk w.
Proof.
  intros [Ha Hw Hq Ht Hi Hok] Hni. split; try done.
  - by destruct Ha.
  - destruct Hq as [Q1 Q2 Q3]. split; [done| |done].
    intros k Hk. destruct (Q2 k Hk) as (h' & ? & [?|[? Hst]]); [eauto|].
    exists h'. split; [done|]. right. split; [done|]. simpl in Hst. set_solver.
Qed.

Lemma unreserve_task_spec lk w id :
  good lk w ->
  (forall h, handles (co_state w) !! id = Some h -> phase_is_terminal (h_phase h) = true) ->
  exists w', unreserve_task id w = (w', Ok tt) /\ good lk w' /\ same_but_counters (co_state w) (co_state w').
Proof.
  intros [Ha Hw Hq Ht Hi Hok] Hterm. eexists. split_and!; [done| |done]. simpl. split; try done.
  - by destruct Ha.
  - destruct Hw. split; try done. simpl.
    pose proof (subseteq_size (task_reservations (co_state w) ∖ {[id]}) (task_reservations (co_state w))
                  ltac:(set_solver)). lia.
  - by destruct Hq.
  - destruct Ht as [T1 T2]. split; simpl; [|set_solver]. intros k h Hk Hop.
    specialize (T1 k h Hk Hop). assert (k <> id); [|set_solver].
    intros ->. rewrite (Hterm h Hk) in Hop. done.
  - by destruct Hi.
Qed.

Lemma notify_handle_spec lk w id :
  good lk w -> exists w', notify_handle id w = (w', Ok tt) /\ good lk w'
    /\ idempotency (co_state w') = idempotency (co_state w)
    /\ running (co_state w') = running (co_state w) /\ queue (co_state w') = queue (co_state w).
Proof.
  intros Hg. eexists. split; [done|]. simpl.
  destruct (handles (co_state w) !! id) as [h|] eqn:Hh; [|done].
  split; [by apply coordinated_notify|done].
Qed.

(** ** Events *)

Lemma rfind_map_snoc {A} (f : QueryControlEventPayload -> option A) events e :
  rfind_map f (events ++ [e])
  = match f (ev_payload e) with Some a => Some a | None => rfind_map f events end.
Proof. unfold rfind_map. by rewrite fold_left_app. Qed.

Lemma numbered_snoc events e :
  numbered events -> ev_sequence e = Z.of_nat (length events) + 1 -> numbered (events ++ [e]).
Proof.
  intros Hn He i x Hx. apply lookup_app_Some in Hx as [Hx|[Hi Hx]]; [auto|].
  apply list_lookup_singleton_Some in Hx as [? <-]. rewrite He. lia.
Qed.

Lemma numbered_insert events i e x :
  numbered events -> events !! i = Some x -> ev_sequence e = ev_sequence x -> numbered (<[i := e]> events).
Proof.
  intros Hn Hx He k y Hy. destruct (decide (k = i)) as [->|Hne].
  - rewrite list_lookup_insert_eq in Hy by (by eapply lookup_lt_Some). simplify_eq. rewrite He. auto.
  - rewrite list_lookup_insert_ne in Hy by done. auto.
Qed.

Lemma next_sequence_spec events n :
  numbered events -> next_sequence events = Ok n -> n = Z.of_nat (length events) + 1.
Proof.
  intros Hn. unfold next_sequence. destruct (last events) as [e|] eqn:Hl.
  - intros Hc%ok_or_Ok. apply checked_add_Some in Hc as [-> _].
    rewrite last_lookup in Hl. rewrite (Hn _ _ Hl). apply lookup_lt_Some in Hl. lia.
  - apply last_None in Hl as ->. by intros [= <-].
Qed.

Lemma rposition_pending_lookup events i :
  rposition_pending events = Some i -> exists e, events !! i = Some e /\ is_pending (ev_payload e) = true.
Proof.
  revert i. induction events as [|e events IH]; intros i; simpl; [done|].
  destruct (rposition_pending events) as [k|]; [intros [= <-]; by apply IH|].
  destruct (is_pending (ev_payload e)) eqn:He; [|done]. intros [= <-]. by exists e.
Qed.

Lemma replacement_of_lookup events p i :
  replacement_of events p = Some i -> exists e, events !! i = Some e.
Proof.
  unfold replacement_of. destruct (is_pending p).
  - intros Hr. apply rposition_pending_lookup in Hr as (e & ? & _). eauto.
  - destruct (last events) as [e|] eqn:Hl; [|by rewrite andb_false_r].
    destruct (_ && _)%bool; [|done]. intros [= <-]. rewrite last_lookup in Hl.
    replace (length events - 1)%nat with (Init.Nat.pred (length events)) by lia. eauto.
Qed.

(** One more event keeps the numbering and leaves room for the terminal event. *)
Lemma extend_events_spec h p t e events bytes :
  extend_events event_to_vec self h p t = Ok (e, events, bytes) -> numbered (h_events h) ->
  numbered events /\ Z.of_nat (length events) < max_events_per_query policy
  /\ bytes + 1024 <= max_event_bytes_per_query policy.
Proof.
  intros He Hn. unfold extend_events in He.
  destruct (replacement_of (h_events h) p) as [i|] eqn:Hr; cbn [mbind option_bind] in He.
  - destruct (replacement_of_lookup _ _ _ Hr) as (x & Hx). rewrite Hx in He. cbn in He.
    destruct (encoded_len _ _) as [n|]; [|done]. destruct (encoded_len _ x) as [m|]; [|done].
    destruct (ok_or _ _) as [nb|] eqn:Hb; [|done].
    destruct (ensure _ _) as [[]|] eqn:Hen; [|done]. simplify_eq.
    apply ensure_Ok in Hen. zify_bool. unfold saturating_add in *.
    pose proof (po_event_bytes _ Hpolicy). split_and!.
    + by eapply numbered_insert.
    + rewrite length_insert. lia.
    + lia.
  - destruct (next_sequence _) as [n|] eqn:Hs; [|done]. cbn in He.
    destruct (encoded_len _ _) as [m|]; [|done].
    destruct (ok_or _ _) as [nb|] eqn:Hb; [|done].
    destruct (ensure _ _) as [[]|] eqn:Hen; [|done]. simplify_eq.
    apply ensure_Ok in Hen. zify_bool. unfold saturating_add in *.
    pose proof (po_event_bytes _ Hpolicy). split_and!.
    + apply numbered_snoc; [done|]. by apply next_sequence_spec.
    + rewrite length_app. simpl. lia.
    + lia.
Qed.

Lemma open_retention h id :
  handle_ok policy id h -> phase_is_terminal (h_phase h) = false -> h_result_retention h = Reserved.
Proof.
  intros Hok Hp. pose proof (ho_retention _ _ _ Hok) as Hr. unfold retention_valid in Hr.
  rewrite Hp in Hr. by destruct (h_result_retention h).
Qed.

Lemma handle_ok_extend h id p t e events bytes :
  handle_ok policy id h -> phase_is_terminal (h_phase h) = false ->
  extend_events event_to_vec self h p t = Ok (e, events, bytes) ->
  handle_ok policy id (set_events h events bytes).
Proof.
  intros Hok Hp He. pose proof (open_retention _ _ Hok Hp) as Hr.
  destruct (extend_events_spec _ _ _ _ _ _ He (ho_numbered _ _ _ Hok)) as (? & ? & ?).
  destruct Hok. split; try done.
  - unfold retention_valid. cbn [set_events h_result_retention]. rewrite Hr.
    change (h_phase (set_events h events bytes)) with (h_phase h). by rewrite Hp.
  - intros _. simpl. auto.
Qed.
End steps.
