(* ===== verification/QueryOps.v ===== *)
(** The operations of the query coordinator preserve its invariant: whatever the journal answers,
    every counter stays the sum of what the handles hold and what a failed closure leaked, and only
    a closure whose journal write fails leaks. *)

From stdpp Require Import sorting.
From S2P Require Import Prelude.
From S2P Require Import Encoding.
From S2P Require Import CommandModel.
From S2P Require Import BudgetModel.
From S2P Require Import QueryModel.
From S2P Require Import QueryCoordinator.
From S2P Require Import QueryInvariant.
From S2P Require Import QuerySteps.
Local Open Scope Z_scope.

(** ** Weakest preconditions of the primitives *)

Section primitives.
Context {J : Type} `{QueryCoordinatorJournal J}.
Implicit Types (w : World (J:=J)).

Lemma wp_get_state w Φ : wp get_state w Φ <-> Φ (Ok (co_state w)) w.
Proof. done. Qed.
Lemma wp_modify_state f w Φ :
  wp (modify_state f) w Φ <-> Φ (Ok tt) (mk_World (f (co_state w)) (co_journal w)).
Proof. done. Qed.
Lemma wp_put_handle id h w Φ :
  wp (put_handle id h) w Φ <-> Φ (Ok tt) (mk_World (set_handle (co_state w) id h) (co_journal w)).
Proof. done. Qed.
Lemma wp_get_handle id w Φ :
  wp (get_handle id) w Φ <->
  match handles (co_state w) !! id with Some h => Φ (Ok h) w | None => Φ (Err (UnknownQuery id)) w end.
Proof.
  unfold get_handle. rewrite wp_bind, wp_get_state, wp_lift. by destruct (_ !! id).
Qed.
(** Nothing is assumed of the journal's answer. *)
Lemma wp_on_journal f w Φ :
  (forall j r, Φ r (mk_World (co_state w) j)) -> wp (on_journal f) w Φ.
Proof. unfold wp, on_journal. destruct (f (co_journal w)) as [j r]. simpl. auto. Qed.
Lemma wp_or_undo m undo w Φ :
  wp m w (fun r w' => match r with
                      | Ok u => Φ (Ok u) w'
                      | Err e => wp undo w' (fun _ w'' => Φ (Err e) w'')
                      end) -> wp (or_undo m undo) w Φ.
Proof. unfold wp, or_undo. by destruct (m w) as [w' [u|e]]. Qed.
End primitives.

(** Runs the program up to its next case: a fallible value is split with its equation, the state
    accesses are rewritten away. *)
Ltac wp_case :=
  match goal with
  | |- wp (st_bind _ _) _ _ => rewrite wp_bind
  | |- wp (st_lift _) _ _ => rewrite wp_lift
  | |- wp (st_ret _) _ _ => rewrite wp_ret
  | |- wp (st_err _) _ _ => rewrite wp_err
  | |- wp get_state _ _ => rewrite wp_get_state
  | |- wp (put_handle _ _) _ _ => rewrite wp_put_handle
  | |- wp (modify_state _) _ _ => rewrite wp_modify_state
  | |- wp (get_handle _) _ _ => rewrite wp_get_handle
  | |- wp (or_undo _ _) _ _ => apply wp_or_undo
  end.

Section operations.
Context {J : Type} `{QueryCoordinatorJournal J}.
Context (canonical_json : list byte -> option (list byte)).
Context (blake3_hash : list byte -> byte_array 32).
Context (event_to_vec : QueryControlEvent -> option (list byte)).
Context (self : QueryCoordinator).
Abbreviation policy := (qc_policy self).
Hypothesis Hpolicy : policy_ok policy.
Implicit Types (w : World (J:=J)) (s : CoordinatorState) (h : QueryHandle) (id : string) (lk : Leak).
Abbreviation good lk w := (coordinated policy lk (co_state w)).

(** ** Events *)

Lemma append_event_keeps lk w id p t c :
  good lk w -> wp (append_event_with_cleanup_precondition event_to_vec self id p t c) w
                 (fun _ w' => good lk w').
Proof.
  intros Hg. unfold append_event_with_cleanup_precondition.
  do 3 (wp_case; wp_case; match goal with |- match ?r with _ => _ end => destruct r end; [|done]).
  wp_case; wp_case. destruct (handles (co_state w) !! id) as [h|] eqn:Hh; [|done].
  do 2 wp_case. destruct (ensure _ _) as [u'|] eqn:Hopen; [|done]. apply ensure_Ok, negb_true_iff in Hopen.
  do 2 wp_case. destruct (admit_payload _ _ _); [|done].
  do 2 wp_case. destruct (extend_events _ _ _ _ _) as [[[e events] bytes]|] eqn:He; [|done].
  pose proof (handle_ok_extend event_to_vec self Hpolicy h id p t e events bytes
                (co_handles _ _ _ Hg id h Hh) Hopen He) as Hok.
  assert (coordinated policy lk (set_handle (co_state w) id (set_events h events bytes))) as Hg'.
  { eapply coordinated_same; [done|done|by split|done]. }
  do 2 wp_case. wp_case. apply wp_on_journal. intros j [[]|]; [|done].
  do 2 wp_case. rewrite wp_ret. cbn [co_state]. eapply coordinated_notify; [done|].
  apply lookup_insert_eq.
Qed.

(** ** Closures *)

Lemma add_reserved_zero lk : add_reserved 0 0 lk = lk.
Proof. destruct lk. unfold add_reserved. simpl. f_equal; lia. Qed.

Lemma leak_nonneg lk s : coordinated policy lk s -> 0 <= lk_bytes lk /\ 0 <= lk_pages lk.
Proof. intros Hc. apply (ac_leak _ _ (co_accounted _ _ _ Hc)). Qed.

Lemma running_not_queued lk s id h :
  coordinated policy lk s -> handles s !! id = Some h -> h_phase h = Running -> id ∉ queue s.
Proof.
  intros Hc Hh Hr Hin. destruct (qe_queue _ _ (co_queue _ _ _ Hc) id Hin) as (k & Hk & Hp).
  rewrite Hh in Hk. simplify_eq. rewrite Hr in Hp. naive_solver.
Qed.

Definition closed_in s id : Prop :=
  exists h, handles s !! id = Some h /\ phase_is_terminal (h_phase h) = true.

Lemma closed_in_same s s' id : same_but_counters s s' -> closed_in s id -> closed_in s' id.
Proof. intros [Eh _]. unfold closed_in. by rewrite Eh. Qed.

(** A closed query returns its running slot or its place in the queue. *)
Lemma return_run {A} lk w id h (k : unit -> stm World QueryCoordinatorError A) Φ :
  good (add_stale id (add_runs (runs_of h) lk)) w -> closed_in (co_state w) id ->
  phase_is_terminal (h_phase h) = false -> (h_phase h = Running -> id ∉ queue (co_state w)) ->
  (forall w', good lk w' -> same_but_counters (co_state w) (co_state w') -> wp (k tt) w' Φ) ->
  wp (st_bind (if bool_decide (h_phase h = Running)
               then release_running (op_workspace_id (h_operation h)) (op_principal_id (h_operation h))
               else unqueue id) k) w Φ.
Proof.
  intros Hg Hcl Hopen Hq Hk. rewrite wp_bind. case_bool_decide as Hr.
  - assert (runs_of h = [slot_of h]) as Er by (unfold runs_of; by rewrite bool_decide_true).
    rewrite Er in Hg. apply (drop_stale self Hpolicy) in Hg; [|by apply Hq].
    destruct (release_running_spec self lk w (slot_of h) Hg) as (w' & Ew & Hg' & Hs).
    eapply wp_eq; [exact Ew|]. by apply Hk.
  - assert (runs_of h = []) as Er by (unfold runs_of; by rewrite bool_decide_false).
    rewrite Er in Hg. destruct Hcl as (h' & Hh' & Ht').
    destruct (unqueue_spec self Hpolicy lk w id h') as (w' & Ew & Hg' & Hs); [by destruct lk|done|by intros Hx; rewrite Hx in Ht'|].
    eapply wp_eq; [exact Ew|]. by apply Hk.
Qed.

(** It returns its result reservation, if it released it. *)
Lemma return_result {A} lk w b g (release : bool) (k : unit -> stm World QueryCoordinatorError A) Φ :
  good (if release then add_reserved b g lk else lk) w -> 0 <= b -> 0 <= g ->
  0 <= lk_bytes lk /\ 0 <= lk_pages lk ->
  (forall w', good lk w' -> same_but_counters (co_state w) (co_state w') -> wp (k tt) w' Φ) ->
  wp (st_bind (if release then release_result_reservation b g else st_ret tt) k) w Φ.
Proof.
  intros Hg Hb Hp Hlk Hk. rewrite wp_bind. destruct release; [|by apply Hk].
  destruct (release_result_reservation_spec self lk w b g Hg Hb Hp Hlk) as (w' & Ew & Hg' & Hs).
  eapply wp_eq; [exact Ew|]. by apply Hk.
Qed.

Lemma started_closed s s' id : dispatched s s' -> closed_in s id -> closed_in s' id.
Proof.
  intros [Hd _] (h & Hh & Ht). specialize (Hd id). rewrite Hh in Hd.
  inversion Hd as [x h' Hs Ex|]; subst. exists h'. split; [done|].
  destruct Hs as [->|[Hq _]]; [done|]. by rewrite Hq in Ht.
Qed.

Lemma saturated_notify s id h :
  saturated self s -> handles s !! id = Some h -> saturated self (set_handle s id (notify_changed h)).
Proof.
  intros [Hr|Hb] Hh; [by left|right]. intros k Hk. destruct (Hb k Hk) as (hk & Ek & Hq & Hs).
  unfold blocked_entry. simpl. destruct (decide (k = id)) as [->|Hne].
  - rewrite Hh in Ek. simplify_eq. exists (notify_changed hk). by rewrite lookup_insert_eq.
  - exists hk. by rewrite lookup_insert_ne.
Qed.

(** The tail of every closure: the task is forgotten, the free slot is dispatched. *)
Lemma finish_closure {A} lk w id (a : A) :
  good lk w -> closed_in (co_state w) id ->
  wp (do! _ <- unreserve_task id ;
      do! _ <- dispatch_locked self ;
      do! _ <- notify_handle id ;
      st_ret a) w
     (fun r w' => good lk w' /\ (is_ok r = true -> r = Ok a /\ saturated self (co_state w'))).
Proof.
  intros Hg Hcl. rewrite wp_bind.
  destruct (unreserve_task_spec self Hpolicy lk w id Hg) as (w1 & E1 & Hg1 & Hs1).
  { intros h Hh. destruct Hcl as (h' & Hh' & ?). by simplify_eq. }
  eapply wp_eq; [exact E1|]. cbv beta iota. rewrite wp_bind.
  pose proof (dispatch_locked_spec self Hpolicy lk w1 Hg1) as Hd.
  unfold wp at 1. destruct (dispatch_locked self w1) as [w2 [[]|e]]; destruct Hd as (Hg2 & Hd & Hsat); simpl; [|done].
  rewrite wp_bind. apply (closed_in_same _ _ _ Hs1), (started_closed _ _ _ Hd) in Hcl as (h & Hh & _).
  unfold notify_handle. rewrite wp_modify_state, wp_ret. simpl. rewrite Hh.
  split; [by apply coordinated_notify|]. intros _. split; [done|]. apply saturated_notify; auto.
Qed.

Lemma terminal_event_spec h t code obs e n :
  terminal_event event_to_vec self h t code obs = Ok (e, n) -> numbered (h_events h) ->
  numbered (h_events h ++ [e]) /\ ev_payload e = Terminal t code.
Proof.
  unfold terminal_event. destruct (next_sequence _) as [k|] eqn:Hs; [|done]. intros He Hn.
  destruct (encoded_len _ _); [|done]. destruct (ok_or _ _); [|done]. destruct (ensure _ _); [|done].
  simplify_eq. split; [|done]. apply numbered_snoc; [done|]. by apply next_sequence_spec.
Qed.

Lemma handle_ok_terminal id h h' :
  handle_ok policy id h -> acc_query_id (h_acceptance h') = acc_query_id (h_acceptance h) ->
  h_fingerprint h' = h_fingerprint h ->
  h_operation h' = h_operation h -> phase_is_terminal (h_phase h') = true -> numbered (h_events h') ->
  retention_valid (h_phase h') (h_events h') (h_result_retention h') = true -> handle_ok policy id h'.
Proof.
  intros [Hid Hf _ Hb Hg _ _] Ei Ef Eo Ht Hn Hr. split; rewrite ?Ei, ?Ef, ?Eo; try done. congruence.
Qed.

Lemma closing_retention_valid t events :
  retention_valid (TerminalPhase t) events (closing_retention events) = true.
Proof. unfold closing_retention, retention_valid. case_bool_decide; done. Qed.

Lemma closing_not_reserved events : closing_retention events <> Reserved.
Proof. unfold closing_retention. by case_bool_decide. Qed.

Lemma retained_locator_terminal events e t code :
  ev_payload e = Terminal t code -> retained_locator (events ++ [e]) = retained_locator events.
Proof. intros He. unfold retained_locator. rewrite rfind_map_snoc. by rewrite He. Qed.

Lemma check_result_spec h t actual release :
  check_result h t actual = Ok release ->
  release = negb (bool_decide (t = Succeeded))
  /\ (t = Succeeded -> is_Some (retained_locator (h_events h))).
Proof.
  unfold check_result. destruct t; try by intros [= <-].
  destruct (ok_or _ _) as [[b p]|]; [|done]. destruct (ensure _ _); [|done].
  destruct (ensure _ ResultMissing) eqn:Hl; [|done]. intros [= <-].
  apply ensure_Ok in Hl. zify_bool. done.
Qed.

(** The handle [terminal] writes. *)
Definition closed_handle h t (release : bool) events n : QueryHandle :=
  let closed := set_phase (set_events h events n) (TerminalPhase t) in
  let closed := if bool_decide (t = Succeeded) then closed
                else set_cancelled closed (h_cancelled closed) true in
  if release then set_retention closed (closing_retention events) else closed.

Lemma closed_handle_fields h t release events n :
  h_acceptance (closed_handle h t release events n) = set_acc_phase (h_acceptance h) (TerminalPhase t)
  /\ h_operation (closed_handle h t release events n) = h_operation h
  /\ h_events (closed_handle h t release events n) = events
  /\ h_result_retention (closed_handle h t release events n)
     = (if release then closing_retention events else h_result_retention h)
  /\ h_fingerprint (closed_handle h t release events n) = h_fingerprint h.
Proof. unfold closed_handle. destruct release; case_bool_decide; done. Qed.

Lemma closed_handle_ok id h t actual release code obs e n :
  handle_ok policy id h -> phase_is_terminal (h_phase h) = false ->
  check_result h t actual = Ok release -> terminal_event event_to_vec self h t code obs = Ok (e, n) ->
  handle_ok policy id (closed_handle h t release (h_events h ++ [e]) n).
Proof.
  intros Hok Hopen Hcr Hte.
  destruct (closed_handle_fields h t release (h_events h ++ [e]) n) as (Ea & Eo & Ee & Er & Ef).
  destruct (terminal_event_spec _ _ _ _ _ _ Hte (ho_numbered _ _ _ Hok)) as [Hn Hp].
  apply (handle_ok_terminal id h); unfold h_phase; rewrite ?Ea, ?Eo, ?Ee, ?Er, ?Ef; try done.
  destruct (check_result_spec _ _ _ _ Hcr) as [-> Hl].
  case_bool_decide as Ht; simpl negb; cbv iota; [|apply closing_retention_valid].
  rewrite (open_retention self h id Hok Hopen). unfold retention_valid. simpl.
  rewrite (retained_locator_terminal _ _ _ _ Hp). rewrite !bool_decide_true; auto. by subst.
Qed.

(** What a run leaves: the invariant, without a new leak when it succeeds. *)
Definition kept {A} lk (r : result A QueryCoordinatorError) w : Prop :=
  (exists lk', good lk' w) /\ (is_ok r = true -> good lk w).

Lemma kept_same {A} lk (r : result A QueryCoordinatorError) w : good lk w -> kept lk r w.
Proof. intros Hg. split; [by exists lk|done]. Qed.

(** What an open handle holds when it closes. *)
Lemma leak_close_open lk id h h' (release : bool) :
  h_result_retention h = Reserved -> h_operation h' = h_operation h ->
  (if release then h_result_retention h' <> Reserved else h_result_retention h' = Reserved) ->
  leak_close lk id h h'
  = add_stale id (add_runs (runs_of h)
      (if release then add_reserved (op_maximum_result_bytes (h_operation h))
                         (op_maximum_result_pages (h_operation h)) lk else lk)).
Proof.
  intros Hr Ho Hr'. unfold leak_close, bytes_of, pages_of.
  rewrite (bool_decide_true (h_result_retention h = Reserved)) by done. destruct release.
  - rewrite (bool_decide_false (h_result_retention h' = Reserved)) by done. by rewrite !Z.sub_0_r.
  - rewrite (bool_decide_true (h_result_retention h' = Reserved)) by done. rewrite Ho, !Z.sub_diag.
    rewrite <- (add_reserved_zero (add_runs (runs_of h) lk)) at 2. done.
Qed.

(** Writing the closed handle detaches the slots of the open one. *)
Lemma coordinated_closed lk s id h h' (release : bool) :
  coordinated policy lk s -> handles s !! id = Some h -> phase_is_terminal (h_phase h) = false ->
  phase_is_terminal (h_phase h') = true -> h_operation h' = h_operation h ->
  (if release then h_result_retention h' <> Reserved else h_result_retention h' = Reserved) ->
  handle_ok policy id h' ->
  coordinated policy
    (add_stale id (add_runs (runs_of h)
      (if release then add_reserved (op_maximum_result_bytes (h_operation h))
                         (op_maximum_result_pages (h_operation h)) lk else lk)))
    (set_handle s id h').
Proof.
  intros Hc Hh Hopen Hterm Ho Hr Hok'. pose proof (co_handles _ _ _ Hc id h Hh) as Hok.
  pose proof (open_retention self h id Hok Hopen) as Hres.
  rewrite <- (leak_close_open lk id h h' release Hres Ho Hr).
  destruct (ho_bytes _ _ _ Hok), (ho_pages _ _ _ Hok).
  apply coordinated_close; try done; unfold bytes_of, pages_of; rewrite Hres, Ho;
    repeat case_bool_decide; try done; lia.
Qed.

Lemma terminal_keeps lk w id t code actual obs :
  good lk w -> wp (terminal event_to_vec self id t code actual obs) w
    (fun r w' => kept lk r w' /\ (is_ok r = true -> saturated self (co_state w'))).
Proof.
  intros Hg. unfold terminal. do 2 wp_case.
  destruct (handles (co_state w) !! id) as [h|] eqn:Hh; [|by split; [apply kept_same|]].
  do 2 wp_case. destruct (ensure _ _) eqn:Hopen; [|by split; [apply kept_same|]].
  apply ensure_Ok, negb_true_iff in Hopen.
  do 2 wp_case. destruct (check_result h t actual) as [release|] eqn:Hcr; [|by split; [apply kept_same|]].
  do 2 wp_case. destruct (terminal_event _ _ _ _ _ _) as [[e n]|] eqn:Hte; [|by split; [apply kept_same|]].
  fold (closed_handle h t release (h_events h ++ [e]) n).
  pose proof (co_handles _ _ _ Hg id h Hh) as Hok.
  pose proof (closed_handle_ok id h t actual release code obs e n Hok Hopen Hcr Hte) as Hok'.
  destruct (closed_handle_fields h t release (h_events h ++ [e]) n) as (Ea & Eo & Ee & Er & Ef).
  set (h' := closed_handle h t release (h_events h ++ [e]) n) in *.
  assert (phase_is_terminal (h_phase h') = true) as Hterm by (unfold h_phase; by rewrite Ea).
  assert (if release then h_result_retention h' <> Reserved else h_result_retention h' = Reserved) as Hrr.
  { rewrite Er. destruct release; [apply closing_not_reserved|by apply (open_retention self h id)]. }
  pose proof (coordinated_closed lk _ id h h' release Hg Hh Hopen Hterm Eo Hrr Hok') as Hg'.
  assert (closed_in (set_handle (co_state w) id h') id) as Hcl by (exists h'; simpl; by rewrite lookup_insert_eq).
  do 2 wp_case. wp_case. apply wp_on_journal. intros j [[]|]; cbn [co_state].
  2:{ split; [|done]. split; [by eexists|done]. }
  destruct (ho_bytes _ _ _ Hok), (ho_pages _ _ _ Hok).
  eapply return_run; [exact Hg'|done|done|simpl; by eapply running_not_queued|].
  intros w1 Hg1 Hs1. eapply (return_result lk w1); [done|done|done|by eapply leak_nonneg|].
  intros w2 Hg2 Hs2. eapply wp_mono; [|apply (finish_closure lk); [done|by do 2 (eapply closed_in_same; [done|])]].
  intros r w3 [Hg3 Hsat]. split; [by apply kept_same|]. intros Hr. by apply Hsat.
Qed.

(** ** What dispatch looks at *)

Definition dispatch_view s :=
  (running s, running_by_workspace s, running_by_principal s, queue s,
   (fun h => (h_phase h, h_operation h)) <$> handles s).

(** Nothing that could start waits, if nothing that could start waited before. *)
Definition stays_saturated {A} w (r : result A QueryCoordinatorError) w' : Prop :=
  is_ok r = true -> saturated self (co_state w) -> saturated self (co_state w').

Lemma saturated_view s s' : dispatch_view s' = dispatch_view s -> saturated self s -> saturated self s'.
Proof.
  unfold dispatch_view. intros [= Er Ew Ep Eq Eh] [Hr|Hb]; [left; lia|right].
  intros id Hid. rewrite Eq in Hid. destruct (Hb id Hid) as (h & Hh & Hq & Hs).
  apply (f_equal (.!! id)) in Eh. rewrite !lookup_fmap, Hh in Eh.
  destruct (handles s' !! id) as [h'|] eqn:Hh'; [|done]. simpl in Eh. injection Eh as Eph Eop.
  exists h'. split_and!; [done|congruence|]. unfold scope_blocked in *. by rewrite Ew, Ep, Eop.
Qed.

Lemma view_set_handle s id h h' :
  handles s !! id = Some h -> h_phase h' = h_phase h -> h_operation h' = h_operation h ->
  dispatch_view (set_handle s id h') = dispatch_view s.
Proof.
  intros Hh Ep Eo. unfold dispatch_view. simpl. rewrite fmap_insert, insert_id; [done|].
  rewrite lookup_fmap, Hh. simpl. by rewrite Ep, Eo.
Qed.

(** ** Cancellation and tasks *)

Lemma cancel_signal_keeps lk w id : good lk w -> wp (cancel_signal id) w (fun _ w' => good lk w').
Proof.
  intros Hg. unfold cancel_signal. do 2 wp_case.
  destruct (handles (co_state w) !! id) as [h|] eqn:Hh; [|done].
  do 2 wp_case. wp_case. simpl. by eapply coordinated_cosmetic.
Qed.

Lemma join_signal_keeps lk w id : good lk w -> wp (join_signal id) w (fun _ w' => good lk w').
Proof.
  intros Hg. unfold join_signal. do 2 wp_case.
  destruct (handles (co_state w) !! id) as [h|] eqn:Hh; [|done].
  wp_case. simpl. by eapply coordinated_cosmetic.
Qed.

Lemma cancel_keeps lk w id obs :
  good lk w -> wp (cancel event_to_vec self id obs) w (fun r w' => kept lk r w').
Proof.
  intros Hg. unfold cancel. wp_case. eapply wp_mono; [|by apply (cancel_signal_keeps lk)].
  intros [[]|e] w' Hg'; [|by apply kept_same|by apply kept_same].
  wp_case. eapply wp_mono; [|by apply (terminal_keeps lk)].
  intros [a|e] w'' [Hk _]; [|by destruct Hk]. apply kept_same. by apply Hk.
Qed.

(** Undoing a write restores the state. *)
Lemma set_handle_undo s id h h' :
  handles s !! id = Some h -> set_handle (set_handle s id h') id h = s.
Proof.
  intros Hh. destruct s. unfold set_handle, set_handles. simpl in *.
  by rewrite insert_insert_eq, insert_id.
Qed.

(** A durable write that is undone when the journal fails. *)
Lemma wp_write_or_undo lk w id h h' Φ :
  handles (co_state w) !! id = Some h -> good lk w ->
  (forall e w', good lk w' -> Φ (Err e) w') ->
  (forall j, Φ (Ok tt) (mk_World (set_handle (co_state w) id h') j)) ->
  wp (or_undo (replace_record h') (put_handle id h))
     (mk_World (set_handle (co_state w) id h') (co_journal w)) Φ.
Proof.
  intros Hh Hg Herr Hok. apply wp_or_undo, wp_on_journal. intros j [[]|e]; cbn [co_state]; [apply Hok|].
  rewrite wp_put_handle. cbn [co_state]. rewrite set_handle_undo by done. by apply Herr.
Qed.

Lemma cancel_idempotent_keeps lk w id cid obs :
  good lk w -> wp (cancel_idempotent event_to_vec self id cid obs) w
                 (fun r w' => good lk w' /\ stays_saturated w r w').
Proof.
  intros Hg. unfold cancel_idempotent. do 2 wp_case. destruct (ensure _ _); [|by split].
  do 2 wp_case. destruct (handles (co_state w) !! id) as [h|] eqn:Hh; [|by split].
  case_bool_decide; [wp_case; by split; [|intros _ ?]|]. do 2 wp_case. destruct (ensure _ _); [|by split].
  set (rec := set_cancellation_ids h _).
  assert (good lk (mk_World (set_handle (co_state w) id rec) (co_journal w))) as Hgr
    by (by eapply coordinated_cosmetic).
  destruct (h_phase h) as [| |t] eqn:Hp.
  - do 2 wp_case. destruct (terminal_event _ _ _ _ _ _) as [[e n]|] eqn:Hte; [|by split].
    do 3 wp_case. set (h' := set_retention _ _). cbv beta iota.
    pose proof (co_handles _ _ _ Hg id h Hh) as Hok.
    destruct (terminal_event_spec _ _ _ _ _ _ Hte (ho_numbered _ _ _ Hok)) as [Hn _].
    assert (handle_ok policy id h') as Hok'.
    { apply (handle_ok_terminal id h); try done. apply closing_retention_valid. }
    assert (phase_is_terminal (h_phase h) = false) as Hopen by (by rewrite Hp).
    pose proof (coordinated_closed lk (co_state w) id h h' true Hg Hh Hopen eq_refl eq_refl
                  (closing_not_reserved _) Hok') as Hg'. cbv iota in Hg'.
    eapply wp_write_or_undo; [done|done|by split|]. intros j. do 2 wp_case. cbn [co_state].
    set (h2 := set_cancelled h' true true).
    assert (coordinated policy
      (add_stale id (add_runs (runs_of h) (add_reserved (op_maximum_result_bytes (h_operation h))
         (op_maximum_result_pages (h_operation h)) lk)))
      (set_handle (set_handle (co_state w) id h') id h2)) as Hg2.
    { eapply coordinated_cosmetic; [exact Hg'|apply lookup_insert_eq|done..]. }
    assert (closed_in (set_handle (set_handle (co_state w) id h') id h2) id) as Hcl.
    { exists h2. simpl. by rewrite lookup_insert_eq. }
    destruct (ho_bytes _ _ _ Hok), (ho_pages _ _ _ Hok).
    pose proof (return_run (A:=QueryCancellationOutcome)
      (add_reserved (op_maximum_result_bytes (h_operation h)) (op_maximum_result_pages (h_operation h)) lk)
      (mk_World (set_handle (set_handle (co_state w) id h') id h2) j) id h) as Hrun.
    rewrite bool_decide_false in Hrun by (by rewrite Hp).
    eapply Hrun; [exact Hg2|done|done|by rewrite Hp|]. clear Hrun.
    intros w1 Hg1 Hs1. eapply (return_result lk w1 _ _ true); [done|done|done|by eapply leak_nonneg|].
    intros w2 Hg2' Hs2. eapply wp_mono; [|apply (finish_closure lk); [done|by do 2 (eapply closed_in_same; [done|])]].
    intros r w3 [? Hs]. split; [done|]. intros Hr _. by apply Hs.
  - do 3 wp_case. eapply wp_write_or_undo; [done|done|by split|].
    intros j. do 2 wp_case. wp_case. cbn [co_state]. split.
    + eapply coordinated_cosmetic; [exact Hgr|apply lookup_insert_eq|done..].
    + intros _. apply saturated_view. cbn [co_state].
      erewrite view_set_handle; [by eapply view_set_handle|simpl; apply lookup_insert_eq|done..].
  - do 3 wp_case. eapply wp_write_or_undo; [done|done|by split|]. intros j. wp_case. split; [done|].
    intros _. apply saturated_view. by eapply view_set_handle.
Qed.

Lemma coordinated_tasks lk s a :
  coordinated policy lk s -> a ⊆ task_reservations s ->
  coordinated policy lk (set_tasks s (task_reservations s) a).
Proof.
  intros [[A1 A2 A3 A4 A5 A6] [W1 W2 W3 W4 W5 W6 W7] [Q1 Q2 Q3] [T1 T2] [I1 I2] Hok] Ha.
  split; [by split..|done].
Qed.

Lemma attach_task_keeps lk w id : good lk w -> wp (attach_task id) w (fun _ w' => good lk w').
Proof.
  intros Hg. unfold attach_task. do 2 wp_case.
  destruct (handles (co_state w) !! id) as [h|] eqn:Hh; [|done].
  do 2 wp_case. do 2 wp_case. destruct (ensure _ _) eqn:He; [|done]. apply ensure_Ok in He. zify_bool.
  wp_case. apply coordinated_tasks; [done|]. pose proof (tr_attached _ (co_tasks _ _ _ Hg)). set_solver.
Qed.

Lemma detach_task_keeps lk w id : good lk w -> good lk (detach_task id w).1.
Proof.
  intros Hg. apply coordinated_tasks; [done|]. pose proof (tr_attached _ (co_tasks _ _ _ Hg)). set_solver.
Qed.

Lemma drain_clear_keeps lk w : good lk w -> good lk (drain_clear w).1.
Proof. intros Hg. apply coordinated_tasks; [done|set_solver]. Qed.

Lemma permit_drop_keeps lk w id completed : good lk w -> good lk (permit_drop id completed w).1.
Proof.
  intros Hg. unfold permit_drop. destruct completed; [done|]. simpl.
  destruct (handles (co_state w) !! id) as [h|] eqn:Hh; [|done]. by eapply coordinated_cosmetic.
Qed.

Lemma drain_signal_keeps lk w : good lk w -> good lk (drain_signal w).1.
Proof.
  intros [[A1 A2 A3 A4 A5 A6] [W1 W2 W3 W4 W5 W6 W7] [Q1 Q2 Q3] [T1 T2] [I1 I2] Hok].
  set (g := fun h => set_cancelled h true true).
  assert (forall id h', (g <$> handles (co_state w)) !! id = Some h' ->
            exists h, handles (co_state w) !! id = Some h /\ h' = g h) as Hinv.
  { intros id h' (h & ? & ->)%lookup_fmap_Some. eauto. }
  assert (forall id h, handles (co_state w) !! id = Some h ->
            (g <$> handles (co_state w)) !! id = Some (g h)) as Hfw.
  { intros id h Hh. by rewrite lookup_fmap, Hh. }
  split; [split|split|split|split|split|]; try done; cbn [co_state fst drain_signal modify_state st_modify set_handles handles].
  - simpl. rewrite A1. unfold held, slots. simpl. by rewrite msum_fmap.
  - intros k. simpl. rewrite A2. unfold held, slots. simpl. by rewrite msum_fmap.
  - intros k. simpl. rewrite A3. unfold held, slots. simpl. by rewrite msum_fmap.
  - simpl. rewrite A4. unfold reserved_bytes. by rewrite msum_fmap.
  - simpl. rewrite A5. unfold reserved_pages. by rewrite msum_fmap.
  - intros id Hid. destruct (Q2 id Hid) as (h & Hh & Hp). exists (g h). split; [by apply Hfw|done].
  - intros id h' Hh' Hp. apply Hinv in Hh' as (h & Hh & ->). by eapply Q3.
  - intros id h' Hh' Hp. apply Hinv in Hh' as (h & Hh & ->). by eapply T1.
  - intros sc id Hi. destruct (I1 sc id Hi) as (h & Hh & Hs). exists (g h). split; [by apply Hfw|done].
  - intros id h' Hh'. apply Hinv in Hh' as (h & Hh & ->). exact (I2 id h Hh).
  - intros id h' Hh'. apply Hinv in Hh' as (h & Hh & ->). by apply (handle_ok_same _ id h); [apply Hok|..].
Qed.

(** ** Retention *)

Lemma locator_needs_cleanup events :
  is_Some (retained_locator events) -> is_Some (cleanup_object_set events).
Proof.
  unfold retained_locator, cleanup_object_set.
  induction events as [|e events IH] using rev_ind; [by intros [? ?]|]. rewrite !rfind_map_snoc.
  destruct (ev_payload e); first [exact IH|intros _; by eexists].
Qed.

(** A closed query gives up its result reservation. *)
Lemma coordinated_unreserve lk s id h h' :
  coordinated policy lk s -> handles s !! id = Some h -> phase_is_terminal (h_phase h) = true ->
  h_result_retention h = Reserved -> h_operation h' = h_operation h -> h_phase h' = h_phase h ->
  h_result_retention h' <> Reserved -> handle_ok policy id h' ->
  coordinated policy (add_reserved (op_maximum_result_bytes (h_operation h))
                        (op_maximum_result_pages (h_operation h)) lk) (set_handle s id h').
Proof.
  intros Hc Hh Ht Hr Ho Hp Hr' Hok'. pose proof (leak_nonneg lk s Hc).
  destruct (co_handles _ _ _ Hc id h Hh) as [_ _ _ [? _] [? _] _ _].
  eapply coordinated_change; [done|done|done| | |done]; split; try done; simpl; try lia.
  - intros f. unfold runs_of, slot_of. by rewrite Hp, Ho.
  - unfold bytes_of. rewrite bool_decide_false, bool_decide_true by done. lia.
  - unfold pages_of. rewrite bool_decide_false, bool_decide_true by done. lia.
  - by rewrite Hp.
  - by rewrite Hp.
  - intros Hin. rewrite Hp. destruct (qe_queue _ _ (co_queue _ _ _ Hc) id Hin) as (k & Hk & Hpk).
    rewrite Hh in Hk. by simplify_eq.
Qed.

Lemma release_result_keeps lk w id : good lk w -> wp (release_result id) w (fun _ w' => good lk w').
Proof.
  intros Hg. unfold release_result. do 2 wp_case.
  destruct (handles (co_state w) !! id) as [h|] eqn:Hh; [|done].
  do 2 wp_case. destruct (ensure _ _) eqn:Hs; [|done]. apply ensure_Ok in Hs. zify_bool.
  case_bool_decide as Hr; [done|].
  pose proof (co_handles _ _ _ Hg id h Hh) as Hok.
  assert (handle_ok policy id (set_retention h CleanupPending)) as Hok'.
  { pose proof (ho_retention _ _ _ Hok) as Hv. rewrite Hs, Hr in Hv. unfold retention_valid in Hv.
    simpl in Hv. zify_bool. apply (handle_ok_terminal id h); try done.
    - change (phase_is_terminal (h_phase h) = true). by rewrite Hs.
    - apply Hok.
    - change (h_phase (set_retention h CleanupPending)) with (h_phase h). rewrite Hs. simpl.
      apply bool_decide_eq_true, locator_needs_cleanup. done. }
  do 3 wp_case. cbv beta iota. eapply wp_write_or_undo; [done|done|done|]. intros j. cbv beta iota.
  destruct (ho_bytes _ _ _ Hok), (ho_pages _ _ _ Hok).
  destruct (release_result_reservation_spec self lk
    (mk_World (set_handle (co_state w) id (set_retention h CleanupPending)) j)
    (op_maximum_result_bytes (h_operation h)) (op_maximum_result_pages (h_operation h)))
    as (w' & Ew & Hg' & _); [|done|done|by eapply leak_nonneg|].
  - eapply coordinated_unreserve; try done. by rewrite Hs.
  - eapply wp_eq; [exact Ew|done].
Qed.

Lemma mark_result_cleanup_complete_keeps lk w id :
  good lk w -> wp (mark_result_cleanup_complete id) w (fun _ w' => good lk w').
Proof.
  intros Hg. unfold mark_result_cleanup_complete. do 2 wp_case.
  destruct (handles (co_state w) !! id) as [h|] eqn:Hh; [|done].
  destruct (h_result_retention h) eqn:Hr; [done| |done].
  do 2 wp_case. eapply wp_write_or_undo; [done|done|done|]. intros j. cbn [co_state].
  pose proof (co_handles _ _ _ Hg id h Hh) as Hok. pose proof (ho_retention _ _ _ Hok) as Hv.
  rewrite Hr in Hv. unfold retention_valid in Hv. zify_bool.
  eapply coordinated_change; [done|done|done| | |].
  - split; [done|unfold bytes_of; by rewrite Hr|unfold pages_of; by rewrite Hr|by eapply leak_nonneg].
  - split; try done. intros Hin. destruct (qe_queue _ _ (co_queue _ _ _ Hg) id Hin) as (k & Hk & Hpk).
    rewrite Hh in Hk. by simplify_eq.
  - apply (handle_ok_terminal id h); try done. apply Hok.
Qed.

(** ** Expiry *)

Lemma cleanup_terminal events e t code :
  ev_payload e = Terminal t code -> cleanup_object_set (events ++ [e]) = cleanup_object_set events.
Proof. intros He. unfold cleanup_object_set. rewrite rfind_map_snoc. by rewrite He. Qed.

(** The tail of a staged expiry. *)
Lemma finish_staged lk w id h :
  good (add_reserved (op_maximum_result_bytes (h_operation h)) (op_maximum_result_pages (h_operation h)) lk) w ->
  0 <= lk_bytes lk /\ 0 <= lk_pages lk ->
  handles (co_state w) !! id = Some h -> phase_is_terminal (h_phase h) = true ->
  wp (do! _ <- put_handle id (set_cancelled h true true) ;
      do! _ <- release_result_reservation (op_maximum_result_bytes (h_operation h))
                 (op_maximum_result_pages (h_operation h)) ;
      do! _ <- unreserve_task id ;
      notify_handle id) w (fun r w' => good lk w' /\ r = Ok tt).
Proof.
  intros Hg Hlk Hh Ht. do 2 wp_case.
  destruct (co_handles _ _ _ Hg id h Hh) as [_ _ _ [? _] [? _] _ _].
  eapply (return_result lk _ _ _ true); [|done|done|done|].
  { eapply coordinated_cosmetic; [exact Hg|exact Hh|done..]. }
  intros w1 Hg1 Hs1. wp_case.
  destruct (unreserve_task_spec self Hpolicy lk w1 id Hg1) as (w2 & E2 & Hg2 & _).
  { intros k Hk. rewrite (proj1 Hs1) in Hk. simpl in Hk. rewrite lookup_insert_eq in Hk. by simplify_eq. }
  eapply wp_eq; [exact E2|]. cbv beta iota.
  destruct (notify_handle_spec self lk w2 id Hg2) as (w3 & E3 & Hg3 & _).
  eapply wp_eq; [exact E3|done].
Qed.

(** Expiry distinguishes the open phases the way a closure does. *)
Lemma return_prior {A} id h (k : unit -> stm World QueryCoordinatorError A) w Φ :
  phase_is_terminal (h_phase h) = false ->
  wp (st_bind (if bool_decide (h_phase h = Running)
               then release_running (op_workspace_id (h_operation h)) (op_principal_id (h_operation h))
               else unqueue id) k) w Φ ->
  wp (st_bind match h_phase h with
              | Running => release_running (op_workspace_id (h_operation h)) (op_principal_id (h_operation h))
              | Queued => unqueue id
              | TerminalPhase _ => st_ret tt
              end k) w Φ.
Proof. by destruct (h_phase h). Qed.

Lemma expire_staged_keeps lk w id h obs :
  good lk w -> handles (co_state w) !! id = Some h -> h_result_retention h = Reserved ->
  is_Some (cleanup_object_set (h_events h)) ->
  wp (expire_staged event_to_vec self id h obs) w (kept lk).
Proof.
  intros Hg Hh Hr Hcl. unfold expire_staged. pose proof (co_handles _ _ _ Hg id h Hh) as Hok.
  pose proof (leak_nonneg _ _ Hg) as Hlk. wp_case.
  destruct (phase_is_terminal (h_phase h)) eqn:Ht.
  - wp_case. set (h' := set_retention h CleanupPending).
    assert (handle_ok policy id h') as Hok'.
    { apply (handle_ok_terminal id h); try done; [apply Hok|]. unfold retention_valid.
      change (h_phase h') with (h_phase h). rewrite Ht. by apply bool_decide_eq_true. }
    pose proof (coordinated_unreserve lk _ id h h' Hg Hh Ht Hr eq_refl eq_refl ltac:(done) Hok') as Hg'.
    do 2 wp_case. wp_case. apply wp_on_journal. intros j [[]|]; [|by split; [eexists|]].
    wp_case. destruct (h_phase h) eqn:Hp; try done. wp_case.
    eapply wp_mono; [|apply (finish_staged lk _ id h'); [exact Hg'|done|apply lookup_insert_eq|]].
    + intros r w' [? _]. by apply kept_same.
    + unfold h_phase in *. simpl. by rewrite Hp.
  - do 2 wp_case. destruct (terminal_event _ _ _ _ _ _) as [[e n]|] eqn:Hte; [|by apply kept_same].
    destruct (terminal_event_spec _ _ _ _ _ _ Hte (ho_numbered _ _ _ Hok)) as [Hn Hpl].
    wp_case. set (h' := set_retention _ CleanupPending).
    assert (handle_ok policy id h') as Hok'.
    { apply (handle_ok_terminal id h); try done. unfold retention_valid. simpl.
      by apply bool_decide_eq_true; rewrite (cleanup_terminal _ _ _ _ Hpl). }
    pose proof (coordinated_closed lk _ id h h' true Hg Hh Ht eq_refl eq_refl ltac:(done) Hok') as Hg'.
    cbv iota in Hg'. do 2 wp_case. wp_case. apply wp_on_journal.
    intros j [[]|]; [|by split; [eexists|]].
    apply (return_prior id h); [done|]. eapply return_run; [exact Hg'| |done|simpl; by eapply running_not_queued|].
    { exists h'. simpl. by rewrite lookup_insert_eq. }
    intros w1 Hg1 Hs1. eapply wp_mono; [|apply (finish_staged lk _ id h'); [exact Hg1|done| |done]].
    + intros r w' [? _]. by apply kept_same.
    + rewrite (proj1 Hs1). apply lookup_insert_eq.
Qed.

Lemma accounted_delete lk s id h :
  accounted lk s -> handles s !! id = Some h -> 0 <= bytes_of h -> 0 <= pages_of h ->
  accounted (add_reserved (bytes_of h) (pages_of h) (add_runs (runs_of h) lk))
    (set_handles s (delete id (handles s))).
Proof.
  intros [Ar Aw Ap Ab Ag Al] Hh Hb Hp.
  assert (forall f, held f (add_reserved (bytes_of h) (pages_of h) (add_runs (runs_of h) lk))
                      (set_handles s (delete id (handles s))) = held f lk s) as Hheld.
  { intros f. unfold held, slots. simpl. rewrite count_if_app.
    rewrite (msum_delete _ (handles s) id h Hh). lia. }
  split; intros; rewrite ?Hheld; simpl; auto; try lia; [rewrite Ab|rewrite Ag];
    unfold reserved_bytes, reserved_pages; rewrite (msum_delete _ (handles s) id h Hh); lia.
Qed.

(** Removing a query with everything that names it. *)
Lemma coordinated_removed lk s s' id h :
  coordinated policy lk s -> handles s !! id = Some h -> accounted lk s' -> within policy s' ->
  handles s' = delete id (handles s) -> queue s' = filter (fun q => q <> id) (queue s) ->
  idempotency s' = delete (operation_scope (h_operation h)) (idempotency s) ->
  task_reservations s' = task_reservations s ∖ {[id]} -> attached_tasks s' = attached_tasks s ∖ {[id]} ->
  coordinated policy lk s'.
Proof.
  intros [_ _ [Q1 Q2 Q3] [T1 T2] [I1 I2] Hok] Hh Ha Hw Eh Eq Ei Et Ea.
  assert (forall k h', handles s' !! k = Some h' -> k <> id /\ handles s !! k = Some h') as Hin.
  { intros k h'. rewrite Eh. intros [? ?]%lookup_delete_Some. done. }
  assert (forall k h', k <> id -> handles s !! k = Some h' -> handles s' !! k = Some h') as Hout.
  { intros k h' Hne Hk. by rewrite Eh, lookup_delete_ne. }
  split; [done|done|split|split|split|].
  - rewrite Eq. by apply NoDup_filter.
  - intros k. rewrite Eq. intros [Hne Hk]%list_elem_of_filter.
    destruct (Q2 k Hk) as (h' & ? & ?). eauto.
  - intros k h' [Hne Hk]%Hin Hp. rewrite Eq. apply list_elem_of_filter. eauto.
  - intros k h' [Hne Hk]%Hin Hp. rewrite Et. specialize (T1 k h' Hk Hp). set_solver.
  - rewrite Et, Ea. set_solver.
  - intros sc k. rewrite Ei. intros [Hne Hk]%lookup_delete_Some. destruct (I1 sc k Hk) as (h' & Hh' & Hs).
    exists h'. split; [|done]. apply Hout; [|done]. intros ->. rewrite Hh in Hh'. by simplify_eq.
  - intros k h' [Hne Hk]%Hin. rewrite Ei, lookup_delete_ne; [by apply I2|].
    intros Hs. pose proof (I2 k h' Hk) as H1. pose proof (I2 id h Hh) as H2. congruence.
  - intros k h' [Hne Hk]%Hin. by apply Hok.
Qed.

(** The counters after the slots of a removed query were returned. *)
Definition returned lk s s1 : Prop :=
  accounted lk s1 /\ handles s1 = handles s /\ queue s1 = queue s /\ idempotency s1 = idempotency s
  /\ task_reservations s1 = task_reservations s /\ attached_tasks s1 = attached_tasks s
  /\ (within policy s -> within policy s1).

Lemma return_removed_run {A} lk w h (k : unit -> stm World QueryCoordinatorError A) Φ :
  accounted (add_runs (runs_of h) lk) (co_state w) ->
  (forall w', co_journal w' = co_journal w -> returned lk (co_state w) (co_state w') -> wp (k tt) w' Φ) ->
  wp (st_bind (if bool_decide (h_phase h = Running)
               then release_running (op_workspace_id (h_operation h)) (op_principal_id (h_operation h))
               else st_ret tt) k) w Φ.
Proof.
  intros Ha Hk. rewrite wp_bind. unfold runs_of in Ha. case_bool_decide as Hp.
  - destruct (release_running_run lk w (slot_of h) Ha) as (rw & rp & Er & Ha' & Hw & Hpr).
    eapply wp_eq; [exact Er|]. apply Hk; [done|]. split_and!; try done.
    intros [W1 W2 W3 W4 W5 W6 W7]. split; try done; simpl; [lia|..]; intros x;
      [specialize (W2 x); specialize (Hw x)|specialize (W3 x); specialize (Hpr x)]; lia.
  - apply Hk; [done|]. split_and!; try done. by destruct Ha.
Qed.

Lemma return_removed_result {A} lk w h (k : unit -> stm World QueryCoordinatorError A) Φ :
  accounted (add_reserved (bytes_of h) (pages_of h) lk) (co_state w) ->
  0 <= lk_bytes lk /\ 0 <= lk_pages lk -> 0 <= bytes_of h -> 0 <= pages_of h ->
  0 <= reserved_bytes (handles (co_state w)) /\ 0 <= reserved_pages (handles (co_state w)) ->
  (forall w', co_journal w' = co_journal w -> returned lk (co_state w) (co_state w') -> wp (k tt) w' Φ) ->
  wp (st_bind (if bool_decide (h_result_retention h = Reserved)
               then release_result_reservation (op_maximum_result_bytes (h_operation h))
                      (op_maximum_result_pages (h_operation h))
               else st_ret tt) k) w Φ.
Proof.
  intros Ha Hlk Hb Hp Hn Hk. rewrite wp_bind. unfold bytes_of, pages_of in *. case_bool_decide as Hr.
  - destruct (release_result_reservation_run lk w _ _ Ha Hlk Hn) as [Er Ha'].
    eapply wp_eq; [exact Er|]. apply Hk; [done|]. split_and!; try done.
    intros [W1 W2 W3 W4 W5 W6 W7]. split; try done; simpl; lia.
  - rewrite add_reserved_zero in Ha. by apply Hk.
Qed.

Lemma expire_removed_keeps lk w id h :
  good lk w -> handles (co_state w) !! id = Some h ->
  wp (expire_removed id h) w (fun r w' => good lk w'
    /\ handles (co_state w') = delete id (handles (co_state w))
    /\ (co_journal w', r) = journal_delete id (co_journal w)).
Proof.
  intros Hg Hh. unfold expire_removed. pose proof (co_handles _ _ _ Hg id h Hh) as Hok.
  assert (0 <= bytes_of h /\ 0 <= pages_of h) as [Hb Hp].
  { destruct Hok as [_ _ _ [? _] [? _] _ _]. unfold bytes_of, pages_of. case_bool_decide; lia. }
  pose proof (leak_nonneg _ _ Hg) as Hlk.
  pose proof (accounted_delete lk _ id h (co_accounted _ _ _ Hg) Hh Hb Hp) as Ha.
  do 2 wp_case. unfold unqueue. do 2 wp_case. cbn [co_state co_journal].
  set (s1 := set_queue _ _).
  eapply (return_removed_run (add_reserved (bytes_of h) (pages_of h) lk)); [by destruct Ha|].
  intros w2 Ej2 (Ha2 & Eh2 & Eq2 & Ei2 & Et2 & Ea2 & Hw2).
  eapply (return_removed_result lk); [done|done|done|done| |].
  { rewrite Eh2. apply (reserved_nonneg self). simpl. intros k h' [? ?]%lookup_delete_Some. by apply Hg. }
  intros w3 Ej3 (Ha3 & Eh3 & Eq3 & Ei3 & Et3 & Ea3 & Hw3).
  unfold unreserve_task. do 4 wp_case. unfold delete_record, on_journal, wp. cbn [co_state co_journal].
  rewrite Ej3, Ej2. cbn [co_journal].
  destruct (journal_delete id (co_journal w)) as [j r]. cbn [fst snd co_state co_journal].
  split; [|split; [simpl; by rewrite Eh3, Eh2|done]].
  assert (within policy s1) as Hw1.
  { destruct (co_within _ _ _ Hg). split; try done. simpl.
    pose proof (length_filter (fun q => q <> id) (queue (co_state w))). lia. }
  specialize (Hw3 (Hw2 Hw1)).
  eapply (coordinated_removed lk (co_state w) _ id h); try done.
  - by destruct Ha3.
  - destruct Hw3. split; try done. simpl.
    pose proof (subseteq_size (task_reservations (co_state w3) ∖ {[id]}) (task_reservations (co_state w3))
                  ltac:(set_solver)). lia.
  - simpl. by rewrite Eh3, Eh2.
  - simpl. by rewrite Eq3, Eq2.
  - simpl. by rewrite Ei3, Ei2.
  - simpl. by rewrite Et3, Et2.
  - simpl. by rewrite Ea3, Ea2.
Qed.

Lemma expire_one_keeps lk w id obs : good lk w -> wp (expire_one event_to_vec self obs id) w (kept lk).
Proof.
  intros Hg. unfold expire_one. do 2 wp_case. do 2 wp_case.
  destruct (handles (co_state w) !! id) as [h|] eqn:Hh; simpl; [|by apply kept_same].
  destruct (bool_decide _ && bool_decide _)%bool eqn:Hst; zify_bool.
  - by apply expire_staged_keeps.
  - eapply wp_mono; [|by apply (expire_removed_keeps lk)]. intros r w' [Hg' _]. by apply kept_same.
Qed.

Lemma for_each_keeps lk f l :
  (forall w id, good lk w -> wp (f id) w (kept lk)) ->
  forall w, good lk w -> wp (for_each f l) w (kept lk).
Proof.
  intros Hf. induction l as [|id l IH]; intros w Hg; simpl; [by apply kept_same|].
  wp_case. eapply wp_mono; [|by apply Hf]. intros [[]|e] w' [He Hok]; [|done]. by apply IH, Hok.
Qed.

Lemma collect_expired_keeps lk w obs :
  good lk w -> wp (collect_expired event_to_vec self obs) w
    (fun r w' => kept lk r w' /\ (is_ok r = true -> saturated self (co_state w'))).
Proof.
  intros Hg. unfold collect_expired. do 2 wp_case. wp_case.
  eapply wp_mono; [|apply (for_each_keeps lk); [intros; by apply expire_one_keeps|done]].
  intros [[]|e] w1 [He Hk]; [|by split]. specialize (Hk eq_refl). wp_case.
  pose proof (dispatch_locked_spec self Hpolicy lk w1 Hk) as Hd. unfold wp.
  destruct (dispatch_locked self w1) as [w2 [[]|e]]; destruct Hd as (Hg2 & _ & Hsat); simpl;
    (split; [by apply kept_same|auto]). done.
Qed.

(** ** Acceptance *)

Definition operation_ranges (o : NormalizedQueryOperation) : Prop :=
  in_uint u64_max (op_maximum_result_bytes o) /\ in_uint u64_max (op_maximum_result_pages o).

Lemma try_new_same o o' : NormalizedQueryOperation_try_new canonical_json o = Ok o' -> o' = o.
Proof. unfold NormalizedQueryOperation_try_new. intros Ht. inv_ok Ht. done. Qed.

(** The state with a freshly queued query. *)
Definition enqueue s (id : string) h (bytes pages : Z) : CoordinatorState :=
  set_handle
    (set_tasks
       (set_queue
          (set_idempotency (set_reserved s bytes pages)
             (<[operation_scope (h_operation h) := id]> (idempotency s)))
          (queue s ++ [id]))
       ({[id]} ∪ task_reservations s) (attached_tasks s))
    id h.

Record fresh_handle (id : string) h : Prop := {
  fh_id : acc_query_id (h_acceptance h) = id;
  fh_fingerprint : id = query_id_of (h_fingerprint h);
  fh_phase : h_phase h = Queued;
  fh_retention : h_result_retention h = Reserved;
  fh_events : h_events h = [] /\ h_event_bytes h = 0;
  fh_ranges : operation_ranges (h_operation h)
}.

Lemma fresh_handle_ok id h : fresh_handle id h -> handle_ok policy id h.
Proof.
  intros [Hi Hf Hp Hr [He Hb] [? ?]]. split; try done.
  - unfold retention_valid. by rewrite Hp, Hr.
  - rewrite He. intros i e Hx. done.
  - intros _. rewrite He, Hb. pose proof (po_events _ Hpolicy). simpl. split; [lia|by left].
Qed.

Lemma coordinated_enqueue lk s id h :
  let o := h_operation h in
  coordinated policy lk s -> fresh_handle id h -> handles s !! id = None ->
  idempotency s !! operation_scope o = None ->
  Z.of_nat (length (queue s)) < max_queued policy ->
  Z.of_nat (size (task_reservations s)) < max_tasks policy ->
  reserved_result_bytes s + op_maximum_result_bytes o <= max_total_result_bytes policy ->
  reserved_result_pages s + op_maximum_result_pages o <= max_total_result_pages policy ->
  coordinated policy lk (enqueue s id h (reserved_result_bytes s + op_maximum_result_bytes o)
                           (reserved_result_pages s + op_maximum_result_pages o)).
Proof.
  intros o Hc Hf Hid Hsc Hq Ht Hb Hg. pose proof (fresh_handle_ok id h Hf) as Hok.
  destruct Hc as [[A1 A2 A3 A4 A5 A6] [W1 W2 W3 W4 W5 W6 W7] [Q1 Q2 Q3] [T1 T2] [I1 I2] Hoks].
  destruct Hf as [_ _ Hp Hr _ _].
  assert (runs_of h = []) as Er by (unfold runs_of; by rewrite Hp).
  assert (forall f, held f lk (enqueue s id h (reserved_result_bytes s + op_maximum_result_bytes o)
                           (reserved_result_pages s + op_maximum_result_pages o)) = held f lk s) as Hheld.
  { intros f. unfold held, slots. simpl. rewrite msum_insert_fresh, Er by done. done. }
  assert (id ∉ queue s) as Hnq by (intros (k & Hk & _)%Q2; congruence).
  split; [split|split|split|split|split|]; try done; simpl.
  - by rewrite Hheld.
  - intros k. by rewrite Hheld.
  - intros k. by rewrite Hheld.
  - unfold reserved_bytes. rewrite msum_insert_fresh by done. unfold bytes_of at 1. rewrite Hr.
    rewrite bool_decide_true by done. unfold reserved_bytes in A4. fold o. lia.
  - unfold reserved_pages. rewrite msum_insert_fresh by done. unfold pages_of at 1. rewrite Hr.
    rewrite bool_decide_true by done. unfold reserved_pages in A5. fold o. lia.
  - rewrite length_app. simpl. lia.
  - rewrite size_union_alt, size_singleton.
    pose proof (subseteq_size (task_reservations s ∖ {[id]}) (task_reservations s) ltac:(set_solver)). lia.
  - apply NoDup_app. split_and!; [done|set_solver|apply NoDup_singleton].
  - intros k [Hk|Hk]%elem_of_app.
    + destruct (Q2 k Hk) as (h' & Hh' & Hph). exists h'. rewrite lookup_insert_ne by congruence. done.
    + apply list_elem_of_singleton in Hk as ->. exists h. rewrite lookup_insert_eq. auto.
  - intros k h' Hk Hph. apply lookup_insert_Some in Hk as [[<- <-]|[Hne Hk]]; [set_solver|].
    specialize (Q3 k h' Hk Hph). set_solver.
  - intros k h' Hk Hph. apply lookup_insert_Some in Hk as [[<- <-]|[Hne Hk]]; [set_solver|].
    specialize (T1 k h' Hk Hph). set_solver.
  - set_solver.
  - intros sc k Hk. apply lookup_insert_Some in Hk as [[<- <-]|[Hne Hk]].
    + exists h. by rewrite lookup_insert_eq.
    + destruct (I1 sc k Hk) as (h' & Hh' & Hs). exists h'. rewrite lookup_insert_ne by congruence. done.
  - intros k h' Hk. apply lookup_insert_Some in Hk as [[<- <-]|[Hne Hk]]; [by rewrite lookup_insert_eq|].
    rewrite lookup_insert_ne; [by apply I2|]. intros Hs. specialize (I2 k h' Hk).
    change (operation_scope (h_operation h)) with (operation_scope o) in Hs. congruence.
  - intros k h' Hk. apply lookup_insert_Some in Hk as [[<- <-]|[Hne Hk]]; [done|by apply Hoks].
Qed.
End operations.
