(* ===== verification/QueryLifecycle.v ===== *)
(** Acceptance and recovery of queries, and the histories of a coordinator. *)

From S2P Require Import Prelude.
From S2P Require Import Encoding.
From S2P Require Import CommandModel.
From S2P Require Import BudgetModel.
From S2P Require Import QueryModel.
From S2P Require Import QueryCodec.
From S2P Require Import QueryCoordinator.
From S2P Require Import QueryInvariant.
From S2P Require Import QuerySteps.
From S2P Require Import QueryOps.
Local Open Scope Z_scope.

Section lifecycle.
Context {J : Type} `{QueryCoordinatorJournal J}.
Context (canonical_json : list byte -> option (list byte)).
Context (blake3_hash : list byte -> byte_array 32).
Context (event_to_vec : QueryControlEvent -> option (list byte)).
Context (self : QueryCoordinator).
Abbreviation policy := (qc_policy self).
Hypothesis Hpolicy : policy_ok policy.
Implicit Types (w : World (J:=J)) (s : CoordinatorState) (h : QueryHandle) (id : string) (lk : Leak).
Abbreviation good lk w := (coordinated policy lk (co_state w)).

(** What the idempotency index says about an operation. *)
Definition accept_outcome w (o : NormalizedQueryOperation)
    (r : result QueryAcceptanceOutcome QueryCoordinatorError) w' : Prop :=
  let id := query_id_of (fingerprint blake3_hash o) in
  match r with
  | Ok (New a) =>
      idempotency (co_state w) !! operation_scope o = None /\ handles (co_state w) !! id = None
      /\ idempotency (co_state w') !! operation_scope o = Some id
      /\ (exists h, handles (co_state w') !! id = Some h /\ a = h_acceptance h /\ h_operation h = o)
      /\ saturated self (co_state w')
  | Ok (Replay a) =>
      w' = w /\ idempotency (co_state w) !! operation_scope o = Some id
      /\ exists h, handles (co_state w) !! id = Some h /\ a = h_acceptance h
  | Err _ => True
  end.

(** The end of an acceptance: the queued query is dispatched and its acceptance read back. *)
Lemma accept_new lk w o h bytes pages j :
  let id := query_id_of (fingerprint blake3_hash o) in
  let s' := enqueue (co_state w) id h bytes pages in
  h_operation h = o -> coordinated policy lk s' ->
  idempotency (co_state w) !! operation_scope o = None -> handles (co_state w) !! id = None ->
  wp (do! _ <- dispatch_locked self ;
      do! s <- get_state ;
      do! h <- st_lift (ok_or (handles s !! id) CoordinatorState_unavailable) ;
      st_ret (New (h_acceptance h))) (mk_World s' j)
     (fun r w' => good lk w' /\ accept_outcome w o r w').
Proof.
  intros id s' Ho Hc Hsc Hid.
  wp_case. pose proof (dispatch_locked_spec self Hpolicy lk (mk_World s' j) Hc) as Hd. unfold wp at 1.
  destruct (dispatch_locked self (mk_World s' j)) as [w2 [[]|e]]; destruct Hd as (Hg2 & [Hh Hi] & Hsat);
    simpl; [|by split].
  do 4 wp_case. specialize (Hh id). simpl in Hh. rewrite lookup_insert_eq in Hh.
  inversion Hh as [x h2 Hst Ex E2|]; subst. simpl. wp_case. split; [done|].
  unfold accept_outcome. fold id. split_and!; [done|done| | |by apply Hsat].
  - rewrite Hi. simpl. rewrite lookup_insert_eq. done.
  - exists h2. split_and!; [done|done|]. by destruct Hst as [->|[_ [->| ->]]].
Qed.

Lemma accept_keeps lk w o obs child reserve :
  operation_ranges o -> good lk w ->
  wp (accept canonical_json blake3_hash self o obs child reserve) w
     (fun r w' => good lk w' /\ accept_outcome w o r w').
Proof.
  intros Hrange Hg. unfold accept. do 2 wp_case.
  destruct (NormalizedQueryOperation_try_new _ o) as [o'|] eqn:Ho; [|by split].
  apply try_new_same in Ho as ->. do 2 wp_case. destruct (ensure _ _); [|by split].
  do 2 wp_case. destruct (idempotency (co_state w) !! operation_scope o) as [id|] eqn:Hi.
  - destruct (ix_handle _ (co_indexed _ _ _ Hg) _ _ Hi) as (h & Hh & Hsc).
    do 2 wp_case. rewrite Hh. simpl. do 2 wp_case. destruct (ensure _ _) eqn:Hfp; [|by split].
    apply ensure_Ok in Hfp. zify_bool. wp_case. split; [done|].
    pose proof (ho_fingerprint _ _ _ (co_handles _ _ _ Hg id h Hh)) as Hid. rewrite Hfp in Hid.
    unfold accept_outcome. rewrite <- Hid. eauto.
  - do 2 wp_case. destruct (ensure _ AdmissionBackpressure) eqn:Hcap; [|by split].
    apply ensure_Ok in Hcap. zify_bool.
    do 2 wp_case. destruct (ok_or _ _) as [nb|] eqn:Hnb; [|by split].
    do 2 wp_case. destruct (ok_or (checked_add _ (reserved_result_pages _) _) _) as [np|] eqn:Hnp; [|by split].
    apply ok_or_Ok, checked_add_Some in Hnb as [-> _], Hnp as [-> _].
    do 2 wp_case. destruct (ensure _ ResultCapacityBackpressure) eqn:Hres; [|by split].
    apply ensure_Ok in Hres. zify_bool.
    do 2 wp_case. destruct (ensure _ QueryIdentityCollision) eqn:Hcol; [|by split].
    apply ensure_Ok in Hcol. zify_bool. fold (query_id_of (fingerprint blake3_hash o)) in *.
    do 2 wp_case. destruct child; [|by split].
    do 2 wp_case. destruct (ok_or (metadata_bytes _ _) _); [|by split].
    do 2 wp_case. destruct (reserve _) as [reservation|]; [|by split].
    wp_case. apply wp_on_journal. intros j [[]|]; [|by split].
    do 2 wp_case. set (h := mk_QueryHandle _ _ _ _ _ _ _ _ _ _ _).
    eapply (accept_new lk w o h); [done| |done|done].
    apply (coordinated_enqueue self Hpolicy lk (co_state w) _ h); try done; lia.
Qed.

(** ** Recovery *)

(** A record as the coordinator writes it: its identity is its fingerprint's, its reservations are
    machine integers and its events are numbered. *)
Record record_ok (d : DurableQueryRecord) : Prop := {
  rk_id : acc_query_id (dr_acceptance d) = ("query:" +:+ dr_operation_fingerprint d)%string;
  rk_bytes : in_uint u64_max (dr_reserved_result_bytes d);
  rk_pages : in_uint u64_max (dr_reserved_result_pages d);
  rk_numbered : numbered (dr_events d)
}.

Definition record_id (d : DurableQueryRecord) : string := acc_query_id (dr_acceptance d).
Definition record_scope (d : DurableQueryRecord) : string * string * string :=
  (dr_workspace_id d, dr_principal_id d, dr_idempotency_key d).

(** The scope as text; it determines the scope. *)
Definition scope_text (sc : IdempotencyScope) : string * string * string :=
  (hex (as_slice (as_bytes (is_workspace_id sc))), hex (as_slice (as_bytes (is_principal_id sc))), is_key sc).

Lemma durable_record_ok id h : handle_ok policy id h -> record_ok (durable_record h).
Proof.
  intros [Hid Hf _ Hb Hp Hn _]. split; try done. simpl. by rewrite Hid.
Qed.

(** What recovery makes of a record: [None] when its lease is over and nothing awaits cleanup. *)
Definition expired_record (obs : Z) (d : DurableQueryRecord) : bool :=
  acc_lease_expires_at_unix_ms (dr_acceptance d) <=? obs.
Definition settle (obs : Z) (d : DurableQueryRecord) : option DurableQueryRecord :=
  match close_lost d obs with
  | Err _ => None
  | Ok (d1, _) =>
      if expired_record obs d1 then
        if (bool_decide (is_Some (cleanup_object_set (dr_events d)))
            && negb (bool_decide (dr_result_retention d1 = Released)))%bool
        then Some (set_dr_retention d1 CleanupPending)
        else None
      else Some d1
  end.

Lemma close_lost_spec d obs d1 changed :
  close_lost d obs = Ok (d1, changed) -> record_ok d ->
  record_ok d1 /\ record_id d1 = record_id d /\ record_scope d1 = record_scope d
  /\ dr_operation_fingerprint d1 = dr_operation_fingerprint d
  /\ phase_is_terminal (acc_phase (dr_acceptance d1)) = true.
Proof.
  unfold close_lost. destruct (phase_is_terminal _) eqn:Ht; [by intros [= <- <-]|].
  destruct (next_sequence (dr_events d)) as [n|] eqn:Hn; [|done].
  intros [= <- <-] [Hi Hb Hp Hnum]. split_and!; try done. split; try done.
  apply numbered_snoc; [done|]. by apply next_sequence_spec.
Qed.

(** Adopting a closed query into the state. *)
Lemma coordinated_adopt lk s id h :
  coordinated policy lk s -> handle_ok policy id h -> phase_is_terminal (h_phase h) = true ->
  handles s !! id = None -> idempotency s !! operation_scope (h_operation h) = None ->
  reserved_result_bytes s + bytes_of h <= max_total_result_bytes policy ->
  reserved_result_pages s + pages_of h <= max_total_result_pages policy ->
  coordinated policy lk
    (set_handle (set_idempotency
       (set_reserved s (reserved_result_bytes s + bytes_of h) (reserved_result_pages s + pages_of h))
       (<[operation_scope (h_operation h) := id]> (idempotency s))) id h).
Proof.
  intros [[A1 A2 A3 A4 A5 A6] [W1 W2 W3 W4 W5 W6 W7] [Q1 Q2 Q3] [T1 T2] [I1 I2] Hoks] Hok Ht Hid Hsc Hb Hg.
  assert (runs_of h = []) as Er by (unfold runs_of; by destruct (h_phase h)).
  assert (forall f, held f lk (set_handle (set_idempotency
       (set_reserved s (reserved_result_bytes s + bytes_of h) (reserved_result_pages s + pages_of h))
       (<[operation_scope (h_operation h) := id]> (idempotency s))) id h) = held f lk s) as Hheld.
  { intros f. unfold held, slots. simpl. rewrite msum_insert_fresh, Er by done. done. }
  split; [split|split|split|split|split|]; try done; simpl.
  - by rewrite Hheld.
  - intros k. by rewrite Hheld.
  - intros k. by rewrite Hheld.
  - unfold reserved_bytes in *. rewrite msum_insert_fresh by done. lia.
  - unfold reserved_pages in *. rewrite msum_insert_fresh by done. lia.
  - intros k Hk. destruct (Q2 k Hk) as (h' & Hh' & Hph). exists h'. rewrite lookup_insert_ne by congruence. done.
  - intros k h' Hk Hph. apply lookup_insert_Some in Hk as [[<- <-]|[Hne Hk]]; [|eauto].
    by rewrite Hph in Ht.
  - intros k h' Hk Hph. apply lookup_insert_Some in Hk as [[<- <-]|[Hne Hk]]; [congruence|eauto].
  - intros sc k Hk. apply lookup_insert_Some in Hk as [[<- <-]|[Hne Hk]].
    + exists h. by rewrite lookup_insert_eq.
    + destruct (I1 sc k Hk) as (h' & Hh' & Hs). exists h'. rewrite lookup_insert_ne by congruence. done.
  - intros k h' Hk. apply lookup_insert_Some in Hk as [[<- <-]|[Hne Hk]]; [by rewrite lookup_insert_eq|].
    rewrite lookup_insert_ne; [by apply I2|]. intros Hs. specialize (I2 k h' Hk). congruence.
  - intros k h' Hk. apply lookup_insert_Some in Hk as [[<- <-]|[Hne Hk]]; [done|by apply Hoks].
Qed.

Lemma world_eta w : w = mk_World (co_state w) (co_journal w).
Proof. by destruct w. Qed.

Lemma set_reserved_same s : set_reserved s (reserved_result_bytes s + 0) (reserved_result_pages s + 0) = s.
Proof. destruct s. unfold set_reserved. simpl. by rewrite !Z.add_0_r. Qed.

(** The state has taken over the record [d'] of a query. *)
Definition adopts s s' (d' : DurableQueryRecord) : Prop :=
  exists h sc, durable_record h = d' /\ phase_is_terminal (h_phase h) = true
    /\ handles s' = <[record_id d' := h]> (handles s)
    /\ scope_text sc = record_scope d' /\ idempotency s' = <[sc := record_id d']> (idempotency s)
    /\ running s' = running s /\ queue s' = queue s /\ task_reservations s' = task_reservations s.

Section adoption.
Context (d : DurableQueryRecord) (workspace : WorkspaceId) (principal : PrincipalId) (fp : byte_array 32).
Context (reservation : ResourceReservation) (child : string -> result unit string).
Hypothesis Hworkspace : dr_workspace_id d = hex (as_slice (as_bytes workspace)).
Hypothesis Hprincipal : dr_principal_id d = hex (as_slice (as_bytes principal)).
Hypothesis Hfingerprint : dr_operation_fingerprint d = hex (as_slice fp).
Abbreviation operation := (recovered_operation d workspace principal).
Abbreviation handle bytes := (recovered_handle d operation fp reservation bytes).

(** The handle built from a record writes the same record. *)
Lemma durable_recovered bytes : durable_record (handle bytes) = d.
Proof.
  destruct d. unfold durable_record, recovered_handle. simpl in *.
  by rewrite Hworkspace, Hprincipal, Hfingerprint.
Qed.

Lemma recovered_scope : scope_text (operation_scope operation) = record_scope d.
Proof. unfold scope_text, record_scope. simpl. by rewrite Hworkspace, Hprincipal. Qed.

Lemma recovered_handle_ok bytes :
  record_ok d -> phase_is_terminal (acc_phase (dr_acceptance d)) = true ->
  validate_result_retention d = Ok tt -> handle_ok policy (record_id d) (handle bytes).
Proof.
  intros [Hi Hb Hp Hn] Ht Hr. apply ensure_Ok in Hr. split; try done.
  - unfold record_id, query_id_of. simpl. by rewrite Hi, Hfingerprint.
  - unfold h_phase. simpl. congruence.
Qed.

Lemma recover_capacity_spec reserved amount limit n :
  recover_capacity reserved amount limit = Ok n -> n = reserved + amount /\ n <= limit.
Proof.
  unfold recover_capacity. destruct (ok_or _ _) as [m|] eqn:Hm; [|done].
  destruct (ensure _ _) eqn:He; [|done]. intros [= <-].
  apply ok_or_Ok, checked_add_Some in Hm as [-> _]. apply ensure_Ok in He. zify_bool. lia.
Qed.

Section installed.
Context (lk : Leak) (w : World (J:=J)).
Hypothesis Hgood : good lk w.
Hypothesis Hrecord : record_ok d.
Hypothesis Hterminal : phase_is_terminal (acc_phase (dr_acceptance d)) = true.
Hypothesis Hretention : validate_result_retention d = Ok tt.
Hypothesis Hfresh : handles (co_state w) !! record_id d = None.
Hypothesis Hscope : forall sc, scope_text sc = record_scope d -> idempotency (co_state w) !! sc = None.

Lemma install_record_spec s1 j :
  s1 = set_reserved (co_state w) (reserved_result_bytes (co_state w) + bytes_of (handle 0))
         (reserved_result_pages (co_state w) + pages_of (handle 0)) ->
  reserved_result_bytes s1 <= max_total_result_bytes policy ->
  reserved_result_pages s1 <= max_total_result_pages policy ->
  wp (install_record event_to_vec d operation fp reservation child) (mk_World s1 j)
     (fun r w' => r = Ok tt -> good lk w' /\ adopts (co_state w) (co_state w') d).
Proof.
  intros Es1 Hb Hp. unfold install_record. do 2 wp_case.
  destruct (total_event_bytes _ _ _) as [bytes|]; [|done].
  do 2 wp_case. destruct (child _); [|done]. wp_case. intros _. cbn [co_state]. subst s1. split.
  - apply (coordinated_adopt lk (co_state w) (record_id d) (handle bytes));
      [done|by apply recovered_handle_ok|done|done|apply Hscope, recovered_scope|done|done].
  - eexists _, _. split_and!; [by apply durable_recovered|done|done|exact recovered_scope|done..].
Qed.

Lemma adopt_record_spec :
  wp (adopt_record event_to_vec self d workspace principal fp reservation child) w
     (fun r w' => r = Ok tt -> good lk w' /\ adopts (co_state w) (co_state w') d).
Proof.
  unfold adopt_record. do 2 wp_case. wp_case. case_bool_decide as Hr.
  - do 2 wp_case. destruct (recover_capacity _ _ _) as [b|] eqn:Hb; [|done].
    do 2 wp_case. destruct (recover_capacity _ (dr_reserved_result_pages d) _) as [g|] eqn:Hp; [|done].
    apply recover_capacity_spec in Hb as [-> Hb], Hp as [-> Hp]. wp_case.
    apply install_record_spec; simpl; [|done|done]. unfold bytes_of, pages_of. simpl. by rewrite Hr.
  - wp_case. rewrite (world_eta w) at 1. apply install_record_spec; [|apply Hgood..].
    unfold bytes_of, pages_of. simpl. rewrite bool_decide_false by done. by rewrite set_reserved_same.
Qed.
End installed.
End adoption.

(** What the loop body does with one record. *)
Definition settled (obs : Z) w (d : DurableQueryRecord) w' : Prop :=
  match settle obs d with
  | None => co_state w' = co_state w
  | Some d' => record_id d' = record_id d /\ record_scope d' = record_scope d
               /\ adopts (co_state w) (co_state w') d'
  end.

Lemma recover_one_spec lk w obs child d reservation :
  good lk w -> record_ok d -> handles (co_state w) !! record_id d = None ->
  (forall sc, scope_text sc = record_scope d -> idempotency (co_state w) !! sc = None) ->
  wp (recover_one event_to_vec self obs child (d, reservation)) w
     (fun r w' => r = Ok tt -> good lk w' /\ settled obs w d w').
Proof.
  intros Hg Hrk Hid Hsc. unfold recover_one, settled, settle.
  do 2 wp_case. destruct (decode_hex16 (dr_workspace_id d)) as [ws|] eqn:Ews; [|done].
  do 2 wp_case. destruct (decode_hex16 (dr_principal_id d)) as [pr|] eqn:Epr; [|done].
  do 2 wp_case. destruct (QuerySessionAuthority_try_new _ _ _ _); [|done].
  do 2 wp_case. destruct (decode_hex32 _) as [fp|] eqn:Efp; [|done].
  do 2 wp_case. destruct (validate_cancellation_ids _); [|done].
  do 2 wp_case. destruct (validate_events _); [|done].
  do 2 wp_case. destruct (validate_result_retention d); [|done].
  do 2 wp_case. destruct (close_lost d obs) as [[d1 changed]|] eqn:Hcl; [|done].
  apply decode_hex_array_canonical in Ews, Epr, Efp.
  destruct (close_lost_spec d obs d1 changed Hcl Hrk) as (Hrk1 & Ei & Es & Ef & Ht).
  fold (expired_record obs d1). assert (Es' := Es). injection Es' as E1 E2 E3.
  assert (forall d2 j, record_ok d2 -> record_id d2 = record_id d1 -> record_scope d2 = record_scope d1 ->
    dr_operation_fingerprint d2 = dr_operation_fingerprint d1 ->
    phase_is_terminal (acc_phase (dr_acceptance d2)) = true -> validate_result_retention d2 = Ok tt ->
    wp (adopt_record event_to_vec self d2 (from_bytes (t:=TWorkspaceId) ws) (from_bytes (t:=TPrincipalId) pr)
          fp reservation child) (mk_World (co_state w) j)
      (fun r w' => r = Ok tt -> good lk w' /\ record_id d2 = record_id d /\ record_scope d2 = record_scope d
                   /\ adopts (co_state w) (co_state w') d2)) as Hadopt.
  { intros d2 j Hk2 Ei2 Es2 Ef2 Ht2 Hv2. assert (Es2' := Es2). injection Es2' as F1 F2 F3.
    eapply wp_mono; [|apply (adopt_record_spec d2); simpl; try congruence; try done].
    - intros r w' Hpost Hr. destruct (Hpost Hr) as [Hg' Ha]. split_and!; [exact Hg'|congruence..|exact Ha].
    - intros sc Hst. apply Hsc. congruence. }
  destruct (expired_record obs d1) eqn:Hex; simpl andb; cbv iota.
  - destruct (bool_decide _ && negb _)%bool; simpl negb; cbv iota.
    + do 2 wp_case. destruct (validate_result_retention _) as [[]|] eqn:Hv; [|done].
      wp_case. apply wp_on_journal. intros j [[]|]; [|done]. apply Hadopt; try done. by destruct Hrk1.
    + apply wp_on_journal. intros j r Hr. done.
  - do 2 wp_case. destruct (validate_result_retention d1) as [[]|] eqn:Hv; [|done].
    wp_case. destruct changed.
    + apply wp_on_journal. intros j [[]|]; [|done]. by apply Hadopt.
    + wp_case. destruct w. by apply Hadopt.
Qed.

(** A journal's contents as the coordinator leaves them: one record per identity and per scope. *)
Record records_ok (ds : list DurableQueryRecord) : Prop := {
  rs_ok : Forall record_ok ds;
  rs_ids : NoDup (record_id <$> ds);
  rs_scopes : NoDup (record_scope <$> ds)
}.

(** None of the records is in the state yet. *)
Definition unknown s (ds : list DurableQueryRecord) : Prop :=
  forall d, d ∈ ds -> handles s !! record_id d = None
    /\ forall sc, scope_text sc = record_scope d -> idempotency s !! sc = None.

Lemma settled_unknown obs w d w' ds :
  records_ok (d :: ds) -> unknown (co_state w) (d :: ds) -> settled obs w d w' -> unknown (co_state w') ds.
Proof.
  intros [_ Hids Hscs] Hun Hs d0 Hd0. destruct (Hun d0) as [Hh Hi]; [set_solver|].
  unfold settled in Hs. destruct (settle obs d) as [d'|]; [|by rewrite Hs].
  destruct Hs as (Ei & Es & h & sc & _ & _ & Eh & Est & Eix & _).
  apply NoDup_cons in Hids as [Nid _]. apply NoDup_cons in Hscs as [Nsc _].
  rewrite Eh, Eix, Ei. split.
  - rewrite lookup_insert_ne; [done|]. intros Heq. apply Nid. rewrite Heq. by apply list_elem_of_fmap_2.
  - intros sc0 Hsc0. rewrite lookup_insert_ne; [by apply Hi|]. intros ->. apply Nsc.
    rewrite <- Es, <- Est, Hsc0. by apply list_elem_of_fmap_2.
Qed.

(** The handles after recovery are the settled records. *)
Record recovered_from (obs : Z) s (ds : list DurableQueryRecord) s' : Prop := {
  rf_sound : forall id h, handles s' !! id = Some h ->
    handles s !! id = Some h
    \/ exists d, d ∈ ds /\ settle obs d = Some (durable_record h) /\ record_id d = id
                /\ phase_is_terminal (h_phase h) = true;
  rf_complete : forall d d', d ∈ ds -> settle obs d = Some d' ->
    exists h, handles s' !! record_id d = Some h /\ durable_record h = d';
  rf_kept : forall id h, handles s !! id = Some h -> (forall d, d ∈ ds -> record_id d <> id) ->
    handles s' !! id = Some h;
  rf_idle : running s' = running s /\ queue s' = queue s /\ task_reservations s' = task_reservations s
}.

Lemma recovered_from_cons obs w d w' ds s'' :
  records_ok (d :: ds) -> unknown (co_state w) (d :: ds) ->
  settled obs w d w' -> recovered_from obs (co_state w') ds s'' ->
  recovered_from obs (co_state w) (d :: ds) s''.
Proof.
  intros [_ Hids _] Hun Hs [S1 C1 K1 I1]. apply NoDup_cons in Hids as [Nid _].
  assert (forall d0, d0 ∈ ds -> record_id d0 <> record_id d) as Hne.
  { intros d0 Hd0 Heq. apply Nid. rewrite <- Heq. by apply list_elem_of_fmap_2. }
  unfold settled in Hs. destruct (settle obs d) as [d'|] eqn:Hset.
  - destruct Hs as (Ei & Es & h & sc & Ed & Ht & Eh & _ & _ & Er & Eq & Et). rewrite Ei in Eh. split.
    + intros id k Hk. destruct (S1 id k Hk) as [Hk'|(d0 & ? & ?)]; [|right; exists d0; set_solver].
      rewrite Eh in Hk'. apply lookup_insert_Some in Hk' as [[<- <-]|[_ ?]]; [right|by left].
      exists d. split_and!; [set_solver|congruence|done|done].
    + intros d0 d0' Hd0 Hs0. apply elem_of_cons in Hd0 as [->|Hd0]; [|by eapply C1].
      exists h. split; [|congruence]. apply K1; [rewrite Eh; apply lookup_insert_eq|done].
    + intros id k Hk Hno. apply K1; [|intros d0 Hd0; apply Hno; set_solver].
      rewrite Eh, lookup_insert_ne; [done|]. apply Hno. set_solver.
    + destruct I1 as (-> & -> & ->). done.
  - rewrite Hs in *. split.
    + intros id k Hk. destruct (S1 id k Hk) as [?|(d0 & ? & ?)]; [by left|right; exists d0; set_solver].
    + intros d0 d0' Hd0 Hs0. apply elem_of_cons in Hd0 as [->|Hd0]; [congruence|by eapply C1].
    + intros id k Hk Hno. apply K1; [done|]. intros d0 Hd0. apply Hno. set_solver.
    + done.
Qed.

Lemma recover_loop_spec lk obs child recs : forall w,
  good lk w -> records_ok recs.*1 -> unknown (co_state w) recs.*1 ->
  wp (recover_loop event_to_vec self obs child recs) w
     (fun r w' => r = Ok tt -> good lk w' /\ recovered_from obs (co_state w) recs.*1 (co_state w')).
Proof.
  induction recs as [|[d res] recs IH]; intros w Hg Hrs Hun; simpl.
  { intros _. split; [done|]. split; [auto|set_solver|auto|done]. }
  wp_case. destruct (Hun d) as [Hh Hi]; [simpl; set_solver|].
  assert (record_ok d) as Hd by (destruct Hrs as [Hf _ _]; simpl in Hf; by apply Forall_cons in Hf as [? _]).
  eapply wp_mono; [|by apply (recover_one_spec lk w obs child d res)].
  intros [[]|e] w1 H1; [|done]. destruct (H1 eq_refl) as [Hg1 Hs1].
  assert (records_ok recs.*1) as Hrs'.
  { destruct Hrs as [R1 R2 R3]. simpl in *. apply Forall_cons in R1 as [_ ?].
    apply NoDup_cons in R2 as [_ ?], R3 as [_ ?]. by split. }
  eapply wp_mono; [|apply IH; [exact Hg1|done|by eapply settled_unknown]].
  intros r w2 H2 Hr. destruct (H2 Hr) as [Hg2 Hf2]. split; [done|]. by eapply recovered_from_cons.
Qed.
End lifecycle.
