(* ===== verification/QueryHistory.v ===== *)
(** Histories of a query coordinator: it is opened on a journal, then its critical sections run in
    any order, with any arguments and against any answers of the journal. *)

From S2P Require Import Prelude.
From S2P Require Import Encoding.
From S2P Require Import CommandModel.
From S2P Require Import BudgetModel.
From S2P Require Import QueryModel.
From S2P Require Import QueryCodec.
From S2P Require Import QueryCoordinator.
From S2P Require Import QueryInvariant.
From S2P Require Import QuerySteps.
From S2P Require Import QueryOps.
From S2P Require Import QueryLifecycle.
Local Open Scope Z_scope.

(** ** Policies *)

(** A policy that [QueryCoordinatorPolicy_try_new] built from machine integers. *)
Definition built_policy (p : QueryCoordinatorPolicy) : Prop :=
  exists a b c d e f g h i j,
    Forall (in_uint u64_max) [a; b; c; d; e; f; g; h; i; j]
    /\ QueryCoordinatorPolicy_try_new a b c d e f g h i j = Ok p.

Lemma nonzero_limit_Ok v name r : nonzero_limit v name = Ok r -> r = v /\ v <> 0.
Proof. unfold nonzero_limit. destruct (v =? 0) eqn:E; zify_bool; naive_solver. Qed.

(** Every limit of an accepted policy is a nonzero argument. *)
Ltac inv_limits Hp :=
  unfold QueryCoordinatorPolicy_try_new in Hp;
  repeat match type of Hp with
  | context [nonzero_limit ?v ?n] =>
      let E := fresh "E" in destruct (nonzero_limit v n) eqn:E; [apply nonzero_limit_Ok in E as [-> ?]|done]
  end.

Lemma built_census p : built_policy p -> 0 <= max_recovery_records p.
Proof.
  intros (a & b & c & d & e & f & g & h & i & j & Hr & Hp).
  repeat (apply Forall_cons in Hr as [[? ?] Hr]).
  inv_limits Hp.
  destruct (_ || _)%bool; simplify_eq. done.
Qed.

Lemma built_policy_ok p :
  built_policy p -> max_event_bytes_per_query p + 131072 <= u64_max -> policy_ok p.
Proof.
  intros (a & b & c & d & e & f & g & h & i & j & Hr & Hp) Hb.
  repeat (apply Forall_cons in Hr as [[? ?] Hr]).
  inv_limits Hp.
  destruct (_ || _)%bool eqn:Hg; zify_bool; simplify_eq. simpl in *. split; simpl; lia.
Qed.

(** ** Opening *)

Lemma coordinated_default policy :
  policy_ok policy -> coordinated policy no_leak state_default.
Proof.
  intros [P1 P2 P3 P4 P5 P6 P7 P8 P9].
  assert (forall f, held f no_leak state_default = 0) as Hheld.
  { intros f. unfold held, slots. simpl. by rewrite msum_empty. }
  split; [split|split|split|split|split|]; simpl; intros; rewrite ?Hheld, ?lookup_empty; simpl; try done; try lia.
  all: try (unfold reserved_bytes, reserved_pages; rewrite msum_empty; lia).
  - change (set_size _) with (size (∅ : gset string)). rewrite size_empty. lia.
  - constructor.
  - set_solver.
Qed.

Section opening.
Context {J : Type} `{QueryCoordinatorJournal J}.
Context (event_to_vec : QueryControlEvent -> option (list byte)).
Context (self : QueryCoordinator).
Abbreviation policy := (qc_policy self).

(** What the journal holds, the coordinator wrote. *)
Definition journal_ok (j : J) : Prop :=
  forall limit bytes recs, journal_load limit bytes j = Ok recs -> records_ok recs.*1.

(** Opening succeeded: the policy is usable, the state is consistent and it holds the settled records. *)
Record opened (obs : Z) (j : J) (w : World (J:=J)) : Prop := {
  on_policy : policy_ok policy;
  on_good : coordinated policy no_leak (co_state w);
  on_recovered : exists recs,
    journal_load (saturating_add u64_max (max_recovery_records policy) 1)
      (max_event_bytes_per_query policy + 131072) j = Ok recs
    /\ recovered_from obs state_default recs.*1 (co_state w)
}.

Lemma recover_opened obs child j w :
  built_policy policy -> journal_ok j ->
  recover event_to_vec self obs child j = (w, Ok tt) -> opened obs j w.
Proof.
  intros Hb Hj Hr. unfold recover, st_bind, st_lift in Hr.
  destruct (ensure _ InvalidCoordinatorIdentity); [|done].
  destruct (ok_or _ CounterOverflow) as [bytes|] eqn:Hbytes; [|done].
  apply ok_or_Ok, checked_add_Some in Hbytes as [-> Hbytes].
  destruct (journal_load _ _ _) as [recs|] eqn:Hl; [|done].
  destruct (ensure _ RecoveryLimit); [|done].
  assert (policy_ok policy) as Hpol by (apply built_policy_ok; [done|lia]).
  pose proof (recover_loop_spec event_to_vec self Hpol no_leak obs child recs (mk_World state_default j)) as Hs.
  unfold wp in Hs. rewrite Hr in Hs. destruct Hs as [Hg Hf]; try done.
  - by apply coordinated_default.
  - by eapply Hj.
  - split; [done|done|]. by exists recs.
Qed.
End opening.

(** ** Calls *)

Section history.
Context {J : Type} `{QueryCoordinatorJournal J}.
Context (canonical_json : list byte -> option (list byte)).
Context (blake3_hash : list byte -> byte_array 32).
Context (event_to_vec : QueryControlEvent -> option (list byte)).
Context (self : QueryCoordinator).
Abbreviation policy := (qc_policy self).
Implicit Types (w : World (J:=J)) (lk : Leak).
Abbreviation good lk w := (coordinated policy lk (co_state w)).

(** The critical sections of the coordinator that change its state. A method that takes the lock
    twice is two calls: [cancel] is a [CallCancelSignal] and, for a queued query, a later
    [CallTerminal]; [spawn_task] a [CallAttachTask] and, when spawning fails, a [CallDetachTask];
    [drain_owned_tasks] a [CallDrainSignal] and a [CallDrainClear]; [join_query_tasks] a
    [CallJoinSignal] and a [CallDetachTask]. *)
Inductive Call :=
| CallAccept (o : NormalizedQueryOperation) (observed_at : Z) (child : result unit string)
    (reserve : ResourceAmounts -> result ResourceReservation ResourceBudgetError)
| CallAppend (id : string) (p : QueryControlEventPayload) (observed_at : Z)
    (cleanup_precondition : option PendingResultObjectSet)
| CallTerminal (id : string) (t : QueryTerminalState) (public_code : option string)
    (actual_result : option (Z * Z)) (observed_at : Z)
| CallCancelSignal (id : string)
| CallCancelIdempotent (id cancellation_id : string) (observed_at : Z)
| CallAttachTask (id : string)
| CallDetachTask (id : string)
| CallDrainSignal
| CallDrainClear
| CallJoinSignal (id : string)
| CallPermitDrop (id : string) (completed : bool)
| CallReleaseResult (id : string)
| CallMarkCleanupComplete (id : string)
| CallCollectExpired (observed_at : Z).

Definition perform (c : Call) : stm World QueryCoordinatorError unit :=
  match c with
  | CallAccept o t child reserve =>
      do! _ <- accept canonical_json blake3_hash self o t child reserve ; st_ret tt
  | CallAppend id p t c =>
      do! _ <- append_event_with_cleanup_precondition event_to_vec self id p t c ; st_ret tt
  | CallTerminal id t code r obs => do! _ <- terminal event_to_vec self id t code r obs ; st_ret tt
  | CallCancelSignal id => do! _ <- cancel_signal id ; st_ret tt
  | CallCancelIdempotent id cid t => do! _ <- cancel_idempotent event_to_vec self id cid t ; st_ret tt
  | CallAttachTask id => attach_task id
  | CallDetachTask id => detach_task id
  | CallDrainSignal => drain_signal
  | CallDrainClear => drain_clear
  | CallJoinSignal id => join_signal id
  | CallPermitDrop id c => permit_drop id c
  | CallReleaseResult id => release_result id
  | CallMarkCleanupComplete id => mark_result_cleanup_complete id
  | CallCollectExpired t => do! _ <- collect_expired event_to_vec self t ; st_ret tt
  end.

(** The arguments are values of their Rust types. *)
Definition call_ranges (c : Call) : Prop :=
  match c with CallAccept o _ _ _ => operation_ranges o | _ => True end.

(** The calls that detach a query from the slots it holds before the journal has answered. *)
Definition closes (c : Call) : bool :=
  match c with CallTerminal _ _ _ _ _ | CallCollectExpired _ => true | _ => false end.

Fixpoint run (cs : list Call) w : World :=
  match cs with
  | [] => w
  | c :: cs => run cs (perform c w).1
  end.

(** Every closing call of the history succeeded or changed nothing. *)
Fixpoint closures_succeed (cs : list Call) w : Prop :=
  match cs with
  | [] => True
  | c :: cs =>
      (closes c = true -> is_ok (perform c w).2 = true \/ (perform c w).1 = w)
      /\ closures_succeed cs (perform c w).1
  end.

Hypothesis Hpolicy : policy_ok policy.

Lemma wp_ignore {A} (m : stm World QueryCoordinatorError A) w Φ :
  wp m w (fun r w' => Φ (match r with Ok _ => Ok tt | Err e => Err e end) w') ->
  wp (do! _ <- m ; st_ret tt) w Φ.
Proof. unfold wp, st_bind, st_ret. by destruct (m w) as [w' [a|e]]. Qed.

Lemma perform_keeps lk c w :
  call_ranges c -> good lk w ->
  wp (perform c) w (fun r w' =>
    (exists lk', good lk' w') /\ (closes c = false \/ is_ok r = true -> good lk w')
    /\ (closes c = true -> is_ok r = true -> saturated self (co_state w'))).
Proof.
  intros Hr Hg.
  assert (forall (r : result unit QueryCoordinatorError) w', good lk w' ->
    (exists lk', good lk' w') /\ (false = false \/ is_ok r = true -> good lk w')
    /\ (false = true -> is_ok r = true -> saturated self (co_state w'))) as Hk by (intros r w' Hw'; split_and!; [by eexists|done|done]).
  destruct c; cbn [perform closes]; try apply wp_ignore.
  - eapply wp_mono; [|by apply (accept_keeps canonical_json blake3_hash self Hpolicy lk)].
    intros r w' [Hg' _]. by apply Hk.
  - eapply wp_mono; [|by apply (append_event_keeps event_to_vec self Hpolicy lk)]. intros r w'. apply Hk.
  - eapply wp_mono; [|by apply (terminal_keeps event_to_vec self Hpolicy lk)].
    intros r w' [[He Hok] Hs]. destruct r; simpl in *; naive_solver.
  - eapply wp_mono; [|by apply (cancel_signal_keeps self lk)]. intros r w'. apply Hk.
  - eapply wp_mono; [|by apply (cancel_idempotent_keeps event_to_vec self Hpolicy lk)].
    intros r w' [Hg' _]. by apply Hk.
  - eapply wp_mono; [|by apply (attach_task_keeps self Hpolicy lk)]. intros r w'. apply Hk.
  - apply Hk. by apply detach_task_keeps.
  - apply Hk. by apply drain_signal_keeps.
  - apply Hk. by apply drain_clear_keeps.
  - eapply wp_mono; [|by apply (join_signal_keeps self lk)]. intros r w'. apply Hk.
  - apply Hk. by apply permit_drop_keeps.
  - eapply wp_mono; [|by apply (release_result_keeps self lk)]. intros r w'. apply Hk.
  - eapply wp_mono; [|by apply (mark_result_cleanup_complete_keeps self lk)]. intros r w'. apply Hk.
  - eapply wp_mono; [|by apply (collect_expired_keeps event_to_vec self Hpolicy lk)].
    intros r w' [[He Hok] Hs]. destruct r; simpl in *; naive_solver.
Qed.

(** ** Work conservation *)

(** The calls that only touch handles leave what dispatch looks at. *)
Lemma wp_view {A} (m : stm World QueryCoordinatorError A) w :
  wp m w (fun r w' => is_ok r = true -> dispatch_view (co_state w') = dispatch_view (co_state w)) ->
  wp m w (stays_saturated self w).
Proof. intros Hm. eapply wp_mono; [|exact Hm]. intros r w' Hv Hr. apply saturated_view. auto. Qed.

(** A successful write of one handle with its phase and operation. *)
Lemma append_event_view id p t c w :
  wp (append_event_with_cleanup_precondition event_to_vec self id p t c) w
     (fun r w' => is_ok r = true -> dispatch_view (co_state w') = dispatch_view (co_state w)).
Proof.
  unfold append_event_with_cleanup_precondition.
  do 3 (wp_case; wp_case; match goal with |- match ?r with _ => _ end => destruct r end; [|done]).
  do 2 wp_case. destruct (handles (co_state w) !! id) as [h|] eqn:Hh; [|done].
  do 2 wp_case. destruct (ensure _ _); [|done]. do 2 wp_case. destruct (admit_payload _ _ _); [|done].
  do 2 wp_case. destruct (extend_events _ _ _ _ _) as [[[e events] bytes]|]; [|done].
  do 3 wp_case. apply wp_on_journal. intros j [[]|]; [|done]. do 2 wp_case. wp_case. intros _. cbn [co_state].
  erewrite view_set_handle; [by eapply view_set_handle|simpl; apply lookup_insert_eq|done..].
Qed.

Lemma write_or_undo_view w id h h' k :
  handles (co_state w) !! id = Some h -> h_phase h' = h_phase h -> h_operation h' = h_operation h ->
  (forall j, wp k (mk_World (set_handle (co_state w) id h') j)
     (fun r w' => is_ok r = true -> dispatch_view (co_state w') = dispatch_view (set_handle (co_state w) id h'))) ->
  wp (do! _ <- put_handle id h' ; do! _ <- or_undo (replace_record h') (put_handle id h) ; k) w
     (fun (r : result unit QueryCoordinatorError) w' =>
        is_ok r = true -> dispatch_view (co_state w') = dispatch_view (co_state w)).
Proof.
  intros Hh Ep Eo Hk. do 3 wp_case. wp_case. apply wp_on_journal. intros j [[]|]; [|by wp_case].
  eapply wp_mono; [|apply Hk]. intros r w' Hr Hok. rewrite Hr by done. by eapply view_set_handle.
Qed.

Lemma release_result_view id w :
  wp (release_result id) w
     (fun r w' => is_ok r = true -> dispatch_view (co_state w') = dispatch_view (co_state w)).
Proof.
  unfold release_result. do 2 wp_case. destruct (handles (co_state w) !! id) as [h|] eqn:Hh; [|done].
  do 2 wp_case. destruct (ensure _ _); [|done]. case_bool_decide; [done|].
  apply (write_or_undo_view w id h); [done..|]. intros j. unfold release_result_reservation.
  do 4 wp_case. destruct (ok_or _ _); [|done]. do 2 wp_case. do 2 wp_case. destruct (ok_or _ _); [|done].
  wp_case. done.
Qed.

Lemma mark_result_cleanup_complete_view id w :
  wp (mark_result_cleanup_complete id) w
     (fun r w' => is_ok r = true -> dispatch_view (co_state w') = dispatch_view (co_state w)).
Proof.
  unfold mark_result_cleanup_complete. do 2 wp_case.
  destruct (handles (co_state w) !! id) as [h|] eqn:Hh; [|done].
  destruct (h_result_retention h); [done| |done].
  do 3 wp_case. apply wp_on_journal. intros j [[]|]; [|by wp_case]. intros _. by eapply view_set_handle.
Qed.

Lemma fmap_view (g : QueryHandle -> QueryHandle) s :
  (forall h, h_phase (g h) = h_phase h /\ h_operation (g h) = h_operation h) ->
  dispatch_view (set_handles s (g <$> handles s)) = dispatch_view s.
Proof.
  intros Hg. unfold dispatch_view. simpl. rewrite <- map_fmap_compose. f_equal.
  apply map_fmap_ext. intros i h _. simpl. destruct (Hg h) as [-> ->]. done.
Qed.

Lemma perform_saturates lk c w :
  call_ranges c -> good lk w -> wp (perform c) w (stays_saturated self w).
Proof.
  intros Hr Hg. destruct c; cbn [perform]; try apply wp_ignore.
  - eapply wp_mono; [|by apply (accept_keeps canonical_json blake3_hash self Hpolicy lk)].
    intros [[a|a]|e] w' [_ Ho] Hok Hs; [by apply Ho|by destruct Ho as [-> _]|done].
  - eapply wp_mono; [|apply wp_view, append_event_view]. intros [] w' Hs Hok; [by apply Hs|done].
  - eapply wp_mono; [|by apply (terminal_keeps event_to_vec self Hpolicy lk)].
    intros [] w' [_ Hs] Hok _; [by apply Hs|done].
  - eapply wp_mono; [|apply (wp_view (cancel_signal id))].
    { intros [] w' Hs Hok; [by apply Hs|done]. }
    unfold cancel_signal. do 2 wp_case.
    destruct (handles (co_state w) !! id) as [h|] eqn:Hh; [|done]. do 2 wp_case. wp_case.
    intros _. by eapply view_set_handle.
  - eapply wp_mono; [|by apply (cancel_idempotent_keeps event_to_vec self Hpolicy lk)].
    intros [] w' [_ Hs] Hok; [by apply Hs|done].
  - apply wp_view. unfold attach_task. do 2 wp_case. destruct (handles (co_state w) !! id); [|done].
    do 4 wp_case. destruct (ensure _ _); [|done]. done.
  - by apply wp_view.
  - apply wp_view. intros _. by apply fmap_view.
  - by apply wp_view.
  - apply wp_view. unfold join_signal. do 2 wp_case.
    destruct (handles (co_state w) !! id) as [h|] eqn:Hh; [|done]. wp_case. intros _. by eapply view_set_handle.
  - apply wp_view. unfold permit_drop. destruct completed; [done|]. intros _. simpl.
    destruct (handles (co_state w) !! id) eqn:Hh; [by eapply view_set_handle|done].
  - apply wp_view, release_result_view.
  - apply wp_view, mark_result_cleanup_complete_view.
  - eapply wp_mono; [|by apply (collect_expired_keeps event_to_vec self Hpolicy lk)].
    intros [] w' [_ Hs] Hok _; [by apply Hs|done].
Qed.

(** Any history keeps the invariant; without a failed closure nothing leaks. *)
Lemma run_keeps cs : forall lk w,
  Forall call_ranges cs -> good lk w ->
  (exists lk', good lk' (run cs w)) /\ (closures_succeed cs w -> good lk (run cs w)).
Proof.
  induction cs as [|c cs IH]; intros lk w Hr Hg; simpl; [eauto|].
  apply Forall_cons in Hr as [Hc Hr].
  destruct (perform_keeps lk c w Hc Hg) as ([lk' Hg'] & Hclean & _). split.
  - by apply (IH lk').
  - intros [Hs Hss]. apply (IH lk); [done| |done].
    destruct (closes c); [destruct (Hs eq_refl) as [?| ->]; [|done]|]; apply Hclean; auto.
Qed.

(** Every call succeeded or changed nothing. *)
Fixpoint calls_settle (cs : list Call) w : Prop :=
  match cs with
  | [] => True
  | c :: cs => (is_ok (perform c w).2 = true \/ (perform c w).1 = w) /\ calls_settle cs (perform c w).1
  end.

Lemma run_saturates cs : forall lk w,
  Forall call_ranges cs -> good lk w -> saturated self (co_state w) -> calls_settle cs w ->
  saturated self (co_state (run cs w)).
Proof.
  induction cs as [|c cs IH]; intros lk w Hr Hg Hs Hc; simpl; [done|].
  apply Forall_cons in Hr as [Hrc Hr]. destruct Hc as [Hc Hcs].
  destruct (perform_keeps lk c w Hrc Hg) as ([lk' Hg'] & _ & _).
  apply (IH lk'); [done|done| |done].
  destruct Hc as [Hok| ->]; [|done]. by apply (perform_saturates lk c w Hrc Hg).
Qed.
End history.
