(* ===== verification/QueryJournal.v ===== *)
(** The SQLite journal of the query coordinator (src/src/fabric/query_coordinator.rs), as an
    implementation of the coordinator's journal interface.

    The table is a map from query identities to rows. What the connection answers is a script of
    faults: a statement that meets one changes nothing. The JSON codec of the records and the
    answers of the resource budget are arguments. *)

From S2P Require Import Prelude.
From S2P Require Import Encoding.
From S2P Require Import CommandModel.
From S2P Require Import BudgetModel.
From S2P Require Import QueryModel.
From S2P Require Import QueryCoordinator.
Local Open Scope Z_scope.

(** [rows]: [record_bytes] and [expires_at] by [query_id]. [faults]: the answers of the next
    statements, [None] for a success; past the end every statement succeeds. *)
Record SqliteQueryCoordinatorJournal := mk_Sqlite {
  rows : gmap string (list byte * Z);
  faults : list (option QueryCoordinatorError)
}.

Section sqlite.
Context (record_to_vec : DurableQueryRecord -> option (list byte)).
Context (record_from_slice : list byte -> option DurableQueryRecord).
(** The budget's answers, by the number of the call. *)
Context (budget_answer : nat -> ResourceClass -> ResourceAmounts -> result ResourceReservation ResourceBudgetError).

Definition canonical_record (r : DurableQueryRecord) : result (list byte) QueryCoordinatorError :=
  ok_or (record_to_vec r) JournalEncoding.

(** [connection.lock()?.execute(..)?]: the statement's effect, unless the connection fails. *)
Definition execute (j : SqliteQueryCoordinatorJournal) (effect : gmap string (list byte * Z))
  : SqliteQueryCoordinatorJournal * result unit QueryCoordinatorError :=
  match faults j with
  | Some e :: faults => (mk_Sqlite (rows j) faults, Err e)
  | _ => (mk_Sqlite effect (tail (faults j)), Ok tt)
  end.

(** [INSERT]: a second row for a primary key is a constraint error. *)
Definition sqlite_create (r : DurableQueryRecord) (j : SqliteQueryCoordinatorJournal)
  : SqliteQueryCoordinatorJournal * result unit QueryCoordinatorError :=
  match canonical_record r with
  | Err e => (j, Err e)
  | Ok bytes =>
      let id := acc_query_id (dr_acceptance r) in
      if bool_decide (is_Some (rows j !! id))
      then match execute j (rows j) with
           | (j, Ok _) => (j, Err (Sqlite "UNIQUE constraint failed"%string))
           | (j, Err e) => (j, Err e)
           end
      else execute j (<[id := (bytes, acc_lease_expires_at_unix_ms (dr_acceptance r))]> (rows j))
  end.

(** [UPDATE .. WHERE query_id=?1]: exactly one row must have changed. *)
Definition sqlite_replace (r : DurableQueryRecord) (j : SqliteQueryCoordinatorJournal)
  : SqliteQueryCoordinatorJournal * result unit QueryCoordinatorError :=
  match canonical_record r with
  | Err e => (j, Err e)
  | Ok bytes =>
      let id := acc_query_id (dr_acceptance r) in
      if bool_decide (is_Some (rows j !! id))
      then execute j (<[id := (bytes, acc_lease_expires_at_unix_ms (dr_acceptance r))]> (rows j))
      else match execute j (rows j) with
           | (j, Ok _) => (j, Err (UnknownQuery id))
           | (j, Err e) => (j, Err e)
           end
  end.

Definition sqlite_delete (id : string) (j : SqliteQueryCoordinatorJournal)
  : SqliteQueryCoordinatorJournal * result unit QueryCoordinatorError :=
  execute j (delete id (rows j)).

(** One row of the result set: bounded, charged, decoded and canonical. *)
Definition load_row (maximum_record_bytes : Z) (call : nat) (bytes : list byte)
  : result (DurableQueryRecord * ResourceReservation) QueryCoordinatorError :=
  let length := Z.of_nat (length bytes) in
  let? _ := ensure (length <=? maximum_record_bytes) JournalCapacity in
  let? memory := ok_or (v ← checked_mul u64_max length 8; checked_add u64_max v (128 * 1024)) CounterOverflow in
  let? reservation := match budget_answer call Data (memory_only memory) with
                      | Ok r => Ok r | Err e => Err (Resource e) end in
  let? r := ok_or (record_from_slice bytes) JournalEncoding in
  let? canonical := canonical_record r in
  let? _ := ensure (bool_decide (canonical = bytes)) NonCanonicalJournalRecord in
  Ok (r, reservation).

Fixpoint load_rows (maximum_record_bytes : Z) (call : nat) (result_set : list (list byte))
  : result (list (DurableQueryRecord * ResourceReservation)) QueryCoordinatorError :=
  match result_set with
  | [] => Ok []
  | bytes :: result_set =>
      let? loaded := load_row maximum_record_bytes call bytes in
      let? output := load_rows maximum_record_bytes (S call) result_set in
      Ok (loaded :: output)
  end.

(** [SELECT .. ORDER BY query_id LIMIT ?1]. *)
Definition select_rows (maximum : Z) (j : SqliteQueryCoordinatorJournal) : list (list byte) :=
  omap (fun id => (rows j !! id) ≫= fun r => Some r.1)
    (take (Z.to_nat maximum) (ascending_keys (rows j))).

Definition sqlite_load (maximum maximum_record_bytes : Z) (j : SqliteQueryCoordinatorJournal)
  : result (list (DurableQueryRecord * ResourceReservation)) QueryCoordinatorError :=
  let? scratch := ok_or (checked_mul u64_max maximum_record_bytes 3) CounterOverflow in
  let? _ := match budget_answer 0%nat Control (memory_only scratch) with
            | Ok r => Ok r | Err e => Err (Resource e) end in
  let? _ := ensure ((maximum <=? i64_max) && (maximum_record_bytes <=? i64_max))%bool IntegerRange in
  match faults j with
  | Some e :: _ => Err e
  | _ => load_rows maximum_record_bytes 1 (select_rows maximum j)
  end.

#[export] Instance sqlite_journal : QueryCoordinatorJournal SqliteQueryCoordinatorJournal := {
  journal_load := sqlite_load;
  journal_create := sqlite_create;
  journal_replace := sqlite_replace;
  journal_delete := sqlite_delete
}.
End sqlite.
