(* ===== verification/QueryMirror.v ===== *)
(** While no statement of the SQLite journal fails, its table mirrors the coordinator's handles:
    the row of a query is the encoding of its durable record, and there are no other rows. *)

From S2P Require Import Prelude.
From S2P Require Import Encoding.
From S2P Require Import CommandModel.
From S2P Require Import BudgetModel.
From S2P Require Import QueryModel.
From S2P Require Import QueryCodec.
From S2P Require Import QueryCoordinator.
From S2P Require Import QueryInvariant.
From S2P Require Import QuerySteps.
From S2P Require Import QueryOps.
From S2P Require Import QueryLifecycle.
From S2P Require Import QueryHistory.
From S2P Require Import QueryJournal.
Local Open Scope Z_scope.

(** What the coordinator relies on of the JSON codec of its records. *)
Class RecordJson (record_to_vec : DurableQueryRecord -> option (list byte))
    (record_from_slice : list byte -> option DurableQueryRecord) : Prop := {
  record_total : forall r, is_Some (record_to_vec r);
  record_round_trip : forall r bytes, record_to_vec r = Some bytes -> record_from_slice bytes = Some r
}.

Section mirror.
Context (canonical_json : list byte -> option (list byte)).
Context (blake3_hash : list byte -> byte_array 32).
Context (event_to_vec : QueryControlEvent -> option (list byte)).
Context (record_to_vec : DurableQueryRecord -> option (list byte)).
Context (record_from_slice : list byte -> option DurableQueryRecord).
Context (budget_answer : nat -> ResourceClass -> ResourceAmounts -> result ResourceReservation ResourceBudgetError).
Context `{Hjson : RecordJson record_to_vec record_from_slice}.
Context (self : QueryCoordinator).
Abbreviation policy := (qc_policy self).
#[local] Existing Instance sqlite_journal.
Abbreviation Journal := SqliteQueryCoordinatorJournal.
Local Instance journal : QueryCoordinatorJournal Journal :=
  sqlite_journal record_to_vec record_from_slice budget_answer.
Implicit Types (w : World (J:=Journal)) (s : CoordinatorState) (h : QueryHandle) (id : string) (lk : Leak).
Abbreviation good lk w := (coordinated policy lk (co_state w)).

Definition row_of_record (d : DurableQueryRecord) : list byte * Z :=
  (default [] (record_to_vec d), acc_lease_expires_at_unix_ms (dr_acceptance d)).
Definition row_of h : list byte * Z := row_of_record (durable_record h).

(** No statement will fail. *)
Definition quiet (j : Journal) : Prop := Forall (eq None) (faults j).

Record mirrors w : Prop := {
  mi_quiet : quiet (co_journal w);
  mi_rows : rows (co_journal w) = row_of <$> handles (co_state w);
  mi_ids : forall id h, handles (co_state w) !! id = Some h -> acc_query_id (h_acceptance h) = id
}.

(** ** Statements *)

Lemma execute_quiet j effect :
  quiet j -> exists j', execute j effect = (j', Ok tt) /\ quiet j' /\ rows j' = effect.
Proof.
  intros Hq. unfold execute, quiet in *. destruct (faults j) as [|[e|] fs]; [by eexists|exfalso|].
  - apply Forall_cons in Hq as [? _]. done.
  - apply Forall_cons in Hq as [_ ?]. by eexists.
Qed.

Lemma canonical_record_total d :
  canonical_record record_to_vec d = Ok (row_of_record d).1.
Proof.
  unfold canonical_record, row_of_record. destruct (record_total d) as [bytes ->]. done.
Qed.

Lemma sqlite_replace_quiet j d :
  quiet j -> is_Some (rows j !! record_id d) ->
  exists j', sqlite_replace record_to_vec d j = (j', Ok tt) /\ quiet j'
    /\ rows j' = <[record_id d := row_of_record d]> (rows j).
Proof.
  intros Hq Hrow. unfold sqlite_replace. rewrite canonical_record_total. cbn [fst].
  rewrite bool_decide_true by done. by apply execute_quiet.
Qed.

Lemma sqlite_create_quiet j d :
  quiet j -> rows j !! record_id d = None ->
  exists j', sqlite_create record_to_vec d j = (j', Ok tt) /\ quiet j'
    /\ rows j' = <[record_id d := row_of_record d]> (rows j).
Proof.
  intros Hq Hrow. unfold sqlite_create. rewrite canonical_record_total. cbn [fst].
  rewrite bool_decide_false; [by apply execute_quiet|]. unfold record_id in Hrow. rewrite Hrow. by intros [? ?].
Qed.

(** ** Writes *)

(** A state whose handles are the same, over the same journal. *)
Lemma mirrors_frame w w' :
  mirrors w -> handles (co_state w') = handles (co_state w) -> co_journal w' = co_journal w -> mirrors w'.
Proof. intros [Hq Hr Hi] Eh Ej. split; rewrite ?Eh, ?Ej; done. Qed.

Lemma mirrors_written w id h h' j :
  mirrors w -> handles (co_state w) !! id = Some h ->
  acc_query_id (h_acceptance h') = acc_query_id (h_acceptance h) -> quiet j ->
  rows j = <[record_id (durable_record h') := row_of h']> (rows (co_journal w)) ->
  mirrors (mk_World (set_handle (co_state w) id h') j).
Proof.
  intros [Hq Hr Hi] Hh Eid Hqj Erows. assert (record_id (durable_record h') = id) as Eid'.
  { unfold record_id. simpl. rewrite Eid. by apply Hi. }
  split; cbn [co_state co_journal]; [done| |].
  - rewrite Erows, Eid', Hr. simpl. by rewrite fmap_insert.
  - simpl. intros id' k [[<- <-]|[Hne Hk]]%lookup_insert_Some; [done|by apply Hi].
Qed.

Lemma replace_written w id h h' :
  mirrors w -> handles (co_state w) !! id = Some h ->
  acc_query_id (h_acceptance h') = acc_query_id (h_acceptance h) ->
  exists j, replace_record h' (mk_World (set_handle (co_state w) id h') (co_journal w))
            = (mk_World (set_handle (co_state w) id h') j, Ok tt)
    /\ mirrors (mk_World (set_handle (co_state w) id h') j).
Proof.
  intros Hm Hh Eid.
  destruct (sqlite_replace_quiet (co_journal w) (durable_record h') (mi_quiet _ Hm)) as (j & Ej & Hq & Hr).
  { rewrite (mi_rows _ Hm). unfold record_id. simpl. rewrite Eid, (mi_ids _ Hm id h Hh), lookup_fmap, Hh.
    by eexists. }
  exists j. split; [|by eapply mirrors_written]. unfold replace_record, on_journal. simpl. by rewrite Ej.
Qed.

(** The pair every operation uses: the handle, then its record. *)
Lemma wp_write {A} w id h h' (k : unit -> stm World QueryCoordinatorError A) Φ :
  mirrors w -> handles (co_state w) !! id = Some h ->
  acc_query_id (h_acceptance h') = acc_query_id (h_acceptance h) ->
  (forall w', mirrors w' -> co_state w' = set_handle (co_state w) id h' -> wp (k tt) w' Φ) ->
  wp (do! _ <- put_handle id h' ; do! u <- replace_record h' ; k u) w Φ.
Proof.
  intros Hm Hh Eid Hk. do 3 wp_case. destruct (replace_written w id h h' Hm Hh Eid) as (j & Ej & Hm').
  eapply wp_eq; [exact Ej|]. by apply Hk.
Qed.

Lemma wp_write_undo {A} w id h h' (k : unit -> stm World QueryCoordinatorError A) Φ :
  mirrors w -> handles (co_state w) !! id = Some h ->
  acc_query_id (h_acceptance h') = acc_query_id (h_acceptance h) ->
  (forall w', mirrors w' -> co_state w' = set_handle (co_state w) id h' -> wp (k tt) w' Φ) ->
  wp (do! _ <- put_handle id h' ; do! u <- or_undo (replace_record h') (put_handle id h) ; k u) w Φ.
Proof.
  intros Hm Hh Eid Hk. do 3 wp_case. destruct (replace_written w id h h' Hm Hh Eid) as (j & Ej & Hm').
  wp_case. eapply wp_eq; [exact Ej|]. by apply Hk.
Qed.

(** ** Operations *)

(** A handle whose durable record is the same. *)
Lemma mirrors_cosmetic w id h h' :
  mirrors w -> handles (co_state w) !! id = Some h -> durable_record h' = durable_record h ->
  mirrors (mk_World (set_handle (co_state w) id h') (co_journal w)).
Proof.
  intros [Hq Hr Hi] Hh Ed. split; cbn [co_state co_journal]; [done| |].
  - simpl. rewrite fmap_insert, insert_id; [done|]. rewrite lookup_fmap, Hh. simpl. unfold row_of. by rewrite Ed.
  - simpl. intros id' k [[<- <-]|[Hne Hk]]%lookup_insert_Some; [|by apply Hi].
    apply (f_equal (fun d => acc_query_id (dr_acceptance d))) in Ed. simpl in Ed. rewrite Ed. by apply Hi.
Qed.

(** Code that neither touches a handle nor the journal. *)
Definition framed {A} (m : stm World QueryCoordinatorError A) : Prop :=
  forall w, handles (co_state (m w).1) = handles (co_state w) /\ co_journal (m w).1 = co_journal w.

Lemma framed_bind {A B} (m : stm World QueryCoordinatorError A) (k : A -> stm World QueryCoordinatorError B) :
  framed m -> (forall a, framed (k a)) -> framed (st_bind m k).
Proof.
  intros Hm Hk w. unfold st_bind. specialize (Hm w). destruct (m w) as [w' [a|e]]; [|done].
  destruct Hm as [Hh Hj], (Hk a w') as [-> ->]. done.
Qed.

Lemma framed_release_running ws p : framed (release_running ws p).
Proof.
  unfold release_running. repeat (apply framed_bind; [done|intros ?]). done.
Qed.
Lemma framed_release_result b p : framed (release_result_reservation b p).
Proof. unfold release_result_reservation. repeat (apply framed_bind; [done|intros ?]). done. Qed.

Lemma wp_framed_handles {A B} (m : stm World QueryCoordinatorError A)
    (k : A -> stm World QueryCoordinatorError B) w Φ :
  framed m -> mirrors w -> (forall e w', mirrors w' -> Φ (Err e) w') ->
  (forall a w', mirrors w' -> handles (co_state w') = handles (co_state w) -> wp (k a) w' Φ) ->
  wp (st_bind m k) w Φ.
Proof.
  intros Hf Hm He Hk. wp_case. unfold wp at 1. destruct (Hf w) as [Eh Ej].
  pose proof (mirrors_frame w _ Hm Eh Ej). destruct (m w) as [w' [a|e]]; [by apply Hk|by apply He].
Qed.

Lemma wp_framed {A B} (m : stm World QueryCoordinatorError A) (k : A -> stm World QueryCoordinatorError B) w Φ :
  framed m -> mirrors w -> (forall e w', mirrors w' -> Φ (Err e) w') ->
  (forall a w', mirrors w' -> wp (k a) w' Φ) -> wp (st_bind m k) w Φ.
Proof. intros. apply wp_framed_handles; auto. Qed.

Lemma dispatch_loop_mirrors attempts : forall w, mirrors w -> mirrors (dispatch_loop self attempts w).1.
Proof.
  induction attempts as [|n IH]; intros w Hm; cbn [dispatch_loop];
    destruct (running _ <? _); try done.
  destruct (queue (co_state w)) as [|id rest]; [done|].
  change (handles (set_queue ?x ?y)) with (handles x).
  destruct (handles (co_state w) !! id) as [h|] eqn:Hh; [|by eapply mirrors_frame].
  destruct (phase_is_terminal _); [apply IH; by eapply mirrors_frame|].
  destruct (scope_blocked _ _ _); [apply IH; by eapply mirrors_frame|].
  unfold start_running. match goal with |- context [set_handle ?s _ _] => set (s1 := s) end.
  destruct (replace_written (mk_World s1 (co_journal w)) id h (set_phase h Running)) as (j & Ej & Hm');
    [by eapply mirrors_frame|done|done|].
  cbn [co_state co_journal] in Ej. rewrite Ej. apply IH.
  apply (mirrors_cosmetic _ id (set_phase h Running)); [done|simpl; apply lookup_insert_eq|done].
Qed.

(** The end of every closure. *)
Lemma finish_mirrors {A} id (a : A) w :
  mirrors w ->
  wp (do! _ <- unreserve_task id ; do! _ <- dispatch_locked self ; do! _ <- notify_handle id ; st_ret a) w
     (fun _ w' => mirrors w').
Proof.
  intros Hm. apply wp_framed; [done|done|done|]. intros _ w1 Hm1. wp_case. unfold wp at 1.
  pose proof (dispatch_loop_mirrors (length (queue (co_state w1))) w1 Hm1) as Hd.
  change (dispatch_loop self _ w1) with (dispatch_locked self w1) in Hd.
  destruct (dispatch_locked self w1) as [w2 [[]|e]]; [|done]. simpl in *. wp_case. unfold notify_handle. wp_case.
  wp_case. simpl. destruct (handles (co_state w2) !! id) eqn:Hh; [by eapply mirrors_cosmetic|].
  by eapply mirrors_frame.
Qed.

Lemma terminal_mirrors id t code actual obs w :
  mirrors w -> wp (terminal event_to_vec self id t code actual obs) w (fun _ w' => mirrors w').
Proof.
  intros Hm. unfold terminal. do 2 wp_case. destruct (handles (co_state w) !! id) as [h|] eqn:Hh; [|done].
  do 2 wp_case. destruct (ensure _ _); [|done]. do 2 wp_case. destruct (check_result _ _ _) as [release|]; [|done].
  do 2 wp_case. destruct (terminal_event _ _ _ _ _ _) as [[e n]|]; [|done].
  fold (closed_handle h t release (h_events h ++ [e]) n).
  apply (wp_write w id h); [done|done| |].
  { by destruct (closed_handle_fields h t release (h_events h ++ [e]) n) as [-> _]. }
  intros w1 Hm1 _. apply wp_framed; [|done|done|].
  { case_bool_decide; [apply framed_release_running|done]. }
  intros _ w2 Hm2. apply wp_framed; [|done|done|].
  { destruct release; [apply framed_release_result|done]. }
  intros _ w3 Hm3. by apply finish_mirrors.
Qed.

Lemma append_event_mirrors id p t c w :
  mirrors w -> wp (append_event_with_cleanup_precondition event_to_vec self id p t c) w (fun _ w' => mirrors w').
Proof.
  intros Hm. unfold append_event_with_cleanup_precondition.
  do 3 (wp_case; wp_case; match goal with |- match ?r with _ => _ end => destruct r end; [|done]).
  do 2 wp_case. destruct (handles (co_state w) !! id) as [h|] eqn:Hh; [|done].
  do 2 wp_case. destruct (ensure _ _); [|done]. do 2 wp_case. destruct (admit_payload _ _ _); [|done].
  do 2 wp_case. destruct (extend_events _ _ _ _ _) as [[[e events] bytes]|]; [|done].
  apply (wp_write w id h); [done|done|done|]. intros w1 Hm1 Es. do 2 wp_case. wp_case.
  eapply mirrors_cosmetic; [done|rewrite Es; simpl; apply lookup_insert_eq|done].
Qed.

Lemma cancel_idempotent_mirrors id cid obs w :
  mirrors w -> wp (cancel_idempotent event_to_vec self id cid obs) w (fun _ w' => mirrors w').
Proof.
  intros Hm. unfold cancel_idempotent. do 2 wp_case. destruct (ensure _ _); [|done].
  do 2 wp_case. destruct (handles (co_state w) !! id) as [h|] eqn:Hh; [|done].
  case_bool_decide; [done|]. do 2 wp_case. destruct (ensure _ _); [|done].
  destruct (h_phase h) as [| |t].
  - do 2 wp_case. destruct (terminal_event _ _ _ _ _ _) as [[e n]|]; [|done].
    apply (wp_write_undo w id h); [done|done|done|]. intros w1 Hm1 Es. do 2 wp_case.
    apply wp_framed; [done| |done|].
    { eapply mirrors_cosmetic; [done|rewrite Es; simpl; apply lookup_insert_eq|done]. }
    intros _ w2 Hm2. apply wp_framed; [apply framed_release_result|done|done|].
    intros _ w3 Hm3. by apply finish_mirrors.
  - apply (wp_write_undo w id h); [done|done|done|]. intros w1 Hm1 Es. do 2 wp_case. wp_case.
    eapply mirrors_cosmetic; [done|rewrite Es; simpl; apply lookup_insert_eq|done].
  - apply (wp_write_undo w id h); [done|done|done|]. intros w1 Hm1 Es. by wp_case.
Qed.

Lemma release_result_mirrors id w : mirrors w -> wp (release_result id) w (fun _ w' => mirrors w').
Proof.
  intros Hm. unfold release_result. do 2 wp_case. destruct (handles (co_state w) !! id) as [h|] eqn:Hh; [|done].
  do 2 wp_case. destruct (ensure _ _); [|done]. case_bool_decide; [done|].
  apply (wp_write_undo w id h); [done|done|done|]. intros w1 Hm1 Es.
  destruct (framed_release_result (op_maximum_result_bytes (h_operation h))
              (op_maximum_result_pages (h_operation h)) w1) as [Eh Ej].
  by eapply mirrors_frame.
Qed.

Lemma mark_result_cleanup_complete_mirrors id w :
  mirrors w -> wp (mark_result_cleanup_complete id) w (fun _ w' => mirrors w').
Proof.
  intros Hm. unfold mark_result_cleanup_complete. do 2 wp_case.
  destruct (handles (co_state w) !! id) as [h|] eqn:Hh; [|done].
  destruct (h_result_retention h); [done| |done]. do 3 wp_case.
  destruct (replace_written w id h (set_retention h Released) Hm Hh eq_refl) as (j & Ej & Hm').
  eapply wp_eq; [exact Ej|]. done.
Qed.

(** ** Expiry, acceptance and the rest *)

Lemma expire_staged_mirrors id h obs w :
  mirrors w -> handles (co_state w) !! id = Some h ->
  wp (expire_staged event_to_vec self id h obs) w (fun _ w' => mirrors w').
Proof.
  intros Hm Hh. unfold expire_staged.
  assert (forall h1 : QueryHandle, acc_query_id (h_acceptance h1) = acc_query_id (h_acceptance h) ->
    wp (let h2 := set_retention h1 CleanupPending in
        let o := h_operation h2 in
        do! _ <- put_handle id h2 ;
        do! _ <- replace_record h2 ;
        do! _ <- match h_phase h with
                 | Running => release_running (op_workspace_id o) (op_principal_id o)
                 | Queued => unqueue id
                 | TerminalPhase _ => st_ret tt
                 end ;
        do! _ <- put_handle id (set_cancelled h2 true true) ;
        do! _ <- release_result_reservation (op_maximum_result_bytes o) (op_maximum_result_pages o) ;
        do! _ <- unreserve_task id ;
        notify_handle id) w (fun _ w' => mirrors w')) as Htail.
  { intros h1 Eid. cbv zeta. apply (wp_write w id h); [done|done|done|]. intros w1 Hm1 Es.
    apply wp_framed_handles; [destruct (h_phase h); [done|apply framed_release_running|done]|done|done|].
    intros _ w2 Hm2 Eh.
    do 2 wp_case. apply wp_framed; [apply framed_release_result| |done|].
    { eapply (mirrors_cosmetic w2); [done|rewrite Eh, Es; simpl; apply lookup_insert_eq|done]. }
    intros _ w3 Hm3. apply wp_framed; [done|done|done|]. intros _ w4 Hm4. unfold notify_handle. wp_case.
    simpl. destruct (handles (co_state w4) !! id) eqn:Hh4; [by eapply mirrors_cosmetic|by eapply mirrors_frame]. }
  wp_case. destruct (phase_is_terminal (h_phase h)); [by apply Htail|].
  do 2 wp_case. destruct (terminal_event _ _ _ _ _ _) as [[e n]|]; [|done]. wp_case. by apply Htail.
Qed.

Section transitions.
Hypothesis Hpolicy : policy_ok policy.

Lemma expire_one_mirrors lk id obs w :
  good lk w -> mirrors w -> wp (expire_one event_to_vec self obs id) w (fun _ w' => mirrors w').
Proof.
  intros Hg Hm. unfold expire_one. do 4 wp_case.
  destruct (handles (co_state w) !! id) as [h|] eqn:Hh; simpl; [|done].
  destruct (_ && _)%bool; [by apply expire_staged_mirrors|].
  eapply wp_mono; [|by apply (expire_removed_keeps self Hpolicy lk)]. intros r w' (_ & Eh & Ej).
  destruct (execute_quiet (co_journal w) (delete id (rows (co_journal w))) (mi_quiet _ Hm)) as (j' & Ee & Hq & Er).
  simpl in Ej. unfold sqlite_delete in Ej. rewrite Ee in Ej. injection Ej as Ej _.
  destruct Hm as [_ Hr Hi]. split; rewrite ?Ej, ?Eh; [done| |].
  - by rewrite Er, Hr, fmap_delete.
  - intros id' k [_ Hk]%lookup_delete_Some. by apply Hi.
Qed.

Lemma collect_expired_mirrors lk obs w :
  good lk w -> mirrors w -> wp (collect_expired event_to_vec self obs) w (fun _ w' => mirrors w').
Proof.
  intros Hg Hm. unfold collect_expired. do 2 wp_case. wp_case.
  match goal with |- wp (for_each _ ?l) _ _ => generalize l end. intros l.
  assert (wp (for_each (expire_one event_to_vec self obs) l) w (fun _ w' => mirrors w')) as Hall.
  { revert w Hg Hm. induction l as [|id l IH]; intros w Hg Hm; simpl; [done|]. wp_case.
    pose proof (expire_one_keeps event_to_vec self Hpolicy lk w id obs Hg) as [_ Hk].
    pose proof (expire_one_mirrors lk id obs w Hg Hm) as Hm'. unfold wp in Hm'. unfold wp at 1.
    destruct (expire_one _ _ _ _ w) as [w' [[]|e]]; [|done]. by apply IH; [apply Hk|]. }
  eapply wp_mono; [|exact Hall]. intros [[]|e] w1 Hm1; [|done]. wp_case.
  pose proof (dispatch_loop_mirrors (length (queue (co_state w1))) w1 Hm1) as Hd.
  change (dispatch_loop self _ w1) with (dispatch_locked self w1) in Hd. unfold wp.
  by destruct (dispatch_locked self w1) as [w2 [[]|e]].
Qed.

Lemma accept_mirrors o obs child reserve w :
  mirrors w -> wp (accept canonical_json blake3_hash self o obs child reserve) w (fun _ w' => mirrors w').
Proof.
  intros Hm. unfold accept. do 2 wp_case. destruct (NormalizedQueryOperation_try_new _ o) as [o'|]; [|done].
  do 2 wp_case. destruct (ensure _ _); [|done]. do 2 wp_case.
  destruct (idempotency (co_state w) !! operation_scope o') as [id|].
  { do 2 wp_case. destruct (ok_or _ _); [|done]. do 2 wp_case. by destruct (ensure _ _). }
  do 2 wp_case. destruct (ensure _ _); [|done]. do 2 wp_case. destruct (ok_or _ _) as [nb|]; [|done].
  do 2 wp_case. destruct (ok_or (checked_add _ (reserved_result_pages _) _) _) as [np|]; [|done].
  do 2 wp_case. destruct (ensure _ _); [|done].
  do 2 wp_case. destruct (ensure _ QueryIdentityCollision) eqn:Hcol; [|done]. apply ensure_Ok in Hcol. zify_bool.
  do 2 wp_case. destruct child; [|done]. do 2 wp_case. destruct (ok_or (metadata_bytes _ _) _); [|done].
  do 2 wp_case. destruct (reserve _) as [reservation|]; [|done]. wp_case.
  set (h := mk_QueryHandle _ _ _ _ _ _ _ _ _ _ _).
  destruct (sqlite_create_quiet (co_journal w) (durable_record h) (mi_quiet _ Hm)) as (j & Ej & Hq & Hr).
  { rewrite (mi_rows _ Hm), lookup_fmap. unfold record_id. simpl. by rewrite Hcol. }
  eapply wp_eq; [unfold create_record, on_journal; simpl; by rewrite Ej|]. cbv beta iota. do 2 wp_case. cbn [co_state co_journal].
  match goal with |- wp _ ?x _ => set (w1 := x) end.
  assert (mirrors w1) as Hm1.
  { destruct Hm as [_ Hrw Hi]. split; simpl; [done| |].
    - rewrite Hr, Hrw. unfold record_id. simpl. by rewrite fmap_insert.
    - intros id' k [[<- <-]|[Hne Hk]]%lookup_insert_Some; [done|by apply Hi]. }
  wp_case. pose proof (dispatch_loop_mirrors (length (queue (co_state w1))) w1 Hm1) as Hd.
  change (dispatch_loop self _ w1) with (dispatch_locked self w1) in Hd. unfold wp at 1.
  destruct (dispatch_locked self w1) as [w2 [[]|e]]; [|done]. simpl. do 4 wp_case. by destruct (ok_or _ _).
Qed.

Lemma perform_mirrors lk c w :
  good lk w -> mirrors w ->
  mirrors (perform canonical_json blake3_hash event_to_vec self c w).1.
Proof.
  intros Hg Hm. change (wp (perform canonical_json blake3_hash event_to_vec self c) w (fun _ w' => mirrors w')).
  destruct c; cbn [perform]; try apply wp_ignore.
  - by apply accept_mirrors.
  - by apply append_event_mirrors.
  - by apply terminal_mirrors.
  - unfold cancel_signal. do 2 wp_case. destruct (handles (co_state w) !! id) eqn:Hh; [|done].
    do 2 wp_case. wp_case. by eapply mirrors_cosmetic.
  - by apply cancel_idempotent_mirrors.
  - unfold attach_task. do 2 wp_case. destruct (handles (co_state w) !! id); [|done].
    do 4 wp_case. destruct (ensure _ _); [|done]. by eapply mirrors_frame.
  - by eapply mirrors_frame.
  - destruct Hm as [Hq Hr Hi]. split; simpl; [done| |].
    + by rewrite Hr, <- map_fmap_compose.
    + intros id k (h & <- & Hk)%lookup_fmap_Some. by apply (Hi id h).
  - by eapply mirrors_frame.
  - unfold join_signal. do 2 wp_case. destruct (handles (co_state w) !! id) eqn:Hh; [|done].
    wp_case. by eapply mirrors_cosmetic.
  - unfold permit_drop. destruct completed; [done|]. unfold modify_state, wp, st_modify. simpl.
    destruct (handles (co_state w) !! id) eqn:Hh; [by eapply mirrors_cosmetic|by eapply mirrors_frame].
  - by apply release_result_mirrors.
  - by apply mark_result_cleanup_complete_mirrors.
  - by apply (collect_expired_mirrors lk).
Qed.

Lemma run_mirrors cs : forall lk w,
  Forall call_ranges cs -> good lk w -> mirrors w ->
  mirrors (run canonical_json blake3_hash event_to_vec self cs w).
Proof.
  induction cs as [|c cs IH]; intros lk w Hr Hg Hm; simpl; [done|]. apply Forall_cons in Hr as [Hc Hr].
  destruct (perform_keeps canonical_json blake3_hash event_to_vec self Hpolicy lk c w Hc Hg) as ([lk' Hg'] & _).
  apply (IH lk'); [done|done|]. by apply (perform_mirrors lk).
Qed.
End transitions.
End mirror.
