(* ===== verification/QueryRestart.v ===== *)
(** Restarting the query coordinator over its SQLite journal: what a process wrote, the next one
    reads back, and nothing else. *)

From stdpp Require Import sorting.
From S2P Require Import Prelude.
From S2P Require Import Encoding.
From S2P Require Import CommandModel.
From S2P Require Import BudgetModel.
From S2P Require Import QueryModel.
From S2P Require Import QueryCodec.
From S2P Require Import QueryCoordinator.
From S2P Require Import QueryInvariant.
From S2P Require Import QuerySteps.
From S2P Require Import QueryOps.
From S2P Require Import QueryLifecycle.
From S2P Require Import QueryHistory.
From S2P Require Import QueryJournal.
From S2P Require Import QueryMirror.
Local Open Scope Z_scope.

(** ** Ordered keys *)

Lemma ascending_keys_perm {A} (m : gmap string A) : ascending_keys m ≡ₚ (map_to_list m).*1.
Proof. apply merge_sort_Permutation. Qed.

Lemma ascending_keys_nodup {A} (m : gmap string A) : NoDup (ascending_keys m).
Proof. rewrite ascending_keys_perm. apply NoDup_fst_map_to_list. Qed.

Lemma elem_of_ascending_keys {A} (m : gmap string A) id : id ∈ ascending_keys m <-> is_Some (m !! id).
Proof.
  rewrite ascending_keys_perm, list_elem_of_fmap. split.
  - intros ([k x] & -> & Hx). apply elem_of_map_to_list in Hx. by eexists.
  - intros [x Hx]. exists (id, x). split; [done|]. by apply elem_of_map_to_list.
Qed.

(** ** Tables of records *)

Record table_ok (ds : gmap string DurableQueryRecord) : Prop := {
  tb_record : forall id d, ds !! id = Some d -> record_ok d /\ record_id d = id;
  tb_scope : forall id1 id2 d1 d2, ds !! id1 = Some d1 -> ds !! id2 = Some d2 ->
    record_scope d1 = record_scope d2 -> id1 = id2
}.

Lemma record_scope_durable h : record_scope (durable_record h) = scope_text (operation_scope (h_operation h)).
Proof. done. Qed.

Lemma scope_text_inj sc1 sc2 : scope_text sc1 = scope_text sc2 -> sc1 = sc2.
Proof.
  destruct sc1 as [[w1] [p1] k1], sc2 as [[w2] [p2] k2]. unfold scope_text. simpl. intros [= Ew Ep Ek].
  apply hex_inj, as_slice_inj in Ew, Ep. by subst.
Qed.

Lemma handles_table policy lk s :
  coordinated policy lk s -> table_ok (durable_record <$> handles s).
Proof.
  intros Hc. split.
  - intros id d (h & <- & Hh)%lookup_fmap_Some. pose proof (co_handles _ _ _ Hc id h Hh) as Hok.
    split; [|apply Hok]. destruct Hok as [Hid Hf _ Hb Hp Hn _]. split; try done. simpl. by rewrite Hid.
  - intros id1 id2 d1 d2 (h1 & <- & H1)%lookup_fmap_Some (h2 & <- & H2)%lookup_fmap_Some Hs.
    rewrite !record_scope_durable in Hs. apply scope_text_inj in Hs.
    pose proof (ix_scope _ (co_indexed _ _ _ Hc) _ _ H1) as I1.
    pose proof (ix_scope _ (co_indexed _ _ _ Hc) _ _ H2) as I2. rewrite Hs in I1. congruence.
Qed.

(** The records a list of keys selects. *)
Definition selected (ds : gmap string DurableQueryRecord) (ids : list string) : list DurableQueryRecord :=
  omap (fun id => ds !! id) ids.

Lemma elem_of_selected ds ids d :
  d ∈ selected ds ids <-> exists id, id ∈ ids /\ ds !! id = Some d.
Proof. unfold selected. by rewrite list_elem_of_omap. Qed.

Lemma selected_ok ds ids : table_ok ds -> NoDup ids -> records_ok (selected ds ids).
Proof.
  intros [Hr Hs] Hnd. split.
  - apply Forall_forall. intros d (id & _ & Hd)%elem_of_selected. by eapply Hr.
  - induction Hnd as [|id ids Hni Hnd IH]; [constructor|]. unfold selected in *. simpl.
    destruct (ds !! id) as [d|] eqn:Hd; [|done]. simpl. constructor; [|done].
    intros (d' & E & (id' & Hin & Hd')%elem_of_selected)%list_elem_of_fmap.
    destruct (Hr _ _ Hd) as [_ <-], (Hr _ _ Hd') as [_ <-]. congruence.
  - induction Hnd as [|id ids Hni Hnd IH]; [constructor|]. unfold selected in *. simpl.
    destruct (ds !! id) as [d|] eqn:Hd; [|done]. simpl. constructor; [|done].
    intros (d' & E & (id' & Hin & Hd')%elem_of_selected)%list_elem_of_fmap.
    by rewrite (Hs _ _ _ _ Hd Hd' E) in Hni.
Qed.

Section restart.
Context (canonical_json : list byte -> option (list byte)).
Context (blake3_hash : list byte -> byte_array 32).
Context (event_to_vec : QueryControlEvent -> option (list byte)).
Context (record_to_vec : DurableQueryRecord -> option (list byte)).
Context (record_from_slice : list byte -> option DurableQueryRecord).
Context (budget_answer : nat -> ResourceClass -> ResourceAmounts -> result ResourceReservation ResourceBudgetError).
Context `{Hjson : RecordJson record_to_vec record_from_slice}.
Abbreviation Journal := SqliteQueryCoordinatorJournal.
Local Instance restart_journal : QueryCoordinatorJournal Journal :=
  sqlite_journal record_to_vec record_from_slice budget_answer.
Implicit Types (w : World (J:=Journal)) (j : Journal) (ds : gmap string DurableQueryRecord).
Abbreviation row_of_record := (row_of_record record_to_vec).
Abbreviation mirrors := (mirrors record_to_vec).

(** ** Loading *)

(** The table holds the records [ds] and no statement will fail. *)
Record holds j ds : Prop := {
  hl_quiet : quiet j;
  hl_rows : rows j = row_of_record <$> ds
}.

Lemma row_decodes d : record_from_slice (row_of_record d).1 = Some d.
Proof.
  unfold QueryMirror.row_of_record. destruct (record_total d) as [bytes E]. rewrite E. simpl.
  by apply record_round_trip.
Qed.

Lemma load_row_record m call d loaded :
  load_row record_to_vec record_from_slice budget_answer m call (row_of_record d).1 = Ok loaded -> loaded.1 = d.
Proof.
  unfold load_row. rewrite row_decodes. simpl. intros Hl. inv_ok Hl. done.
Qed.

Lemma load_rows_records m ds ids : forall call recs,
  load_rows record_to_vec record_from_slice budget_answer m call
    (omap (fun id => ((row_of_record <$> ds) !! id) ≫= fun r => Some r.1) ids) = Ok recs ->
  recs.*1 = selected ds ids.
Proof.
  induction ids as [|id ids IH]; intros call recs; simpl; [by intros [= <-]|].
  rewrite lookup_fmap. unfold selected. simpl. destruct (ds !! id) as [d|]; simpl; [|apply IH].
  destruct (load_row _ _ _ _ _ _) as [loaded|] eqn:El; [|done].
  destruct (load_rows _ _ _ _ _ _) as [output|] eqn:Eo; [|done]. intros [= <-].
  apply load_row_record in El. by rewrite fmap_cons, El, (IH _ _ Eo).
Qed.

Lemma load_selects j ds limit bytes recs :
  holds j ds -> journal_load limit bytes j = Ok recs ->
  recs.*1 = selected ds (take (Z.to_nat limit) (ascending_keys (rows j))).
Proof.
  intros [Hq Hr] Hl. simpl in Hl. unfold sqlite_load in Hl.
  repeat (match type of Hl with match ?r with _ => _ end = _ => destruct r end; [|done]).
  assert (load_rows record_to_vec record_from_slice budget_answer bytes 1 (select_rows limit j) = Ok recs) as Hl'.
  { destruct (faults j) as [|[e|] fs] eqn:Ef; [done| |done].
    unfold quiet in Hq. rewrite Ef in Hq. apply Forall_cons in Hq as [? _]. done. }
  clear Hl. unfold select_rows in Hl'. rewrite Hr in Hl' |- *. by apply load_rows_records in Hl'.
Qed.

Lemma holds_journal_ok j ds : holds j ds -> table_ok ds -> journal_ok j.
Proof.
  intros Hh Ht limit bytes recs Hl. rewrite (load_selects j ds limit bytes recs Hh Hl).
  apply selected_ok; [done|]. eapply sublist_NoDup; [|apply sublist_take]. apply ascending_keys_nodup.
Qed.

Lemma selected_length ds ids : (forall id, id ∈ ids -> is_Some (ds !! id)) -> length (selected ds ids) = length ids.
Proof.
  induction ids as [|id ids IH]; intros Hin; [done|]. unfold selected. simpl.
  destruct (Hin id) as [d ->]; [set_solver|]. simpl. f_equal. apply IH. intros. apply Hin. set_solver.
Qed.

Lemma load_limit j limit bytes recs : journal_load limit bytes j = Ok recs -> limit <= i64_max.
Proof.
  simpl. unfold sqlite_load. destruct (ok_or _ _); [|done]. destruct (budget_answer _ _ _); [|done].
  destruct (ensure _ IntegerRange) eqn:Hi; [|done]. apply ensure_Ok in Hi. by zify_bool.
Qed.

Lemma census_limit limit :
  0 <= limit -> saturating_add u64_max limit 1 <= i64_max -> saturating_add u64_max limit 1 = limit + 1.
Proof. unfold saturating_add, u64_max, i64_max. lia. Qed.

(** The census bound leaves no record behind: one more than the bound would have been loaded. *)
Lemma load_complete j ds (limit : Z) bytes recs :
  holds j ds -> 0 <= limit -> journal_load (saturating_add u64_max limit 1) bytes j = Ok recs ->
  Z.of_nat (length recs) <= limit ->
  forall d, d ∈ recs.*1 <-> exists id, ds !! id = Some d.
Proof.
  intros Hh Hlim Hl Hlen d. pose proof (load_selects _ _ _ _ _ Hh Hl) as Hs.
  assert (saturating_add u64_max limit 1 = limit + 1) as Esat by (apply census_limit; [done|by eapply load_limit]).
  rewrite Esat in Hs. set (keys := ascending_keys (rows j)) in *.
  assert (forall id, id ∈ keys -> is_Some (ds !! id)) as Hin.
  { intros id Hid. unfold keys in Hid. rewrite elem_of_ascending_keys, (hl_rows _ _ Hh), lookup_fmap in Hid.
    destruct (ds !! id); [by eexists|by destruct Hid]. }
  assert (take (Z.to_nat (limit + 1)) keys = keys) as Etake.
  { apply take_ge. apply (f_equal length) in Hs. rewrite length_fmap, selected_length in Hs.
    2:{ intros id Hid. apply Hin. eapply sublist_subseteq; [apply sublist_take|done]. }
    rewrite length_take in Hs. lia. }
  rewrite Etake in Hs. rewrite Hs, elem_of_selected. split; [intros (id & _ & ?); eauto|].
  intros [id Hd]. exists id. split; [|done]. unfold keys. rewrite elem_of_ascending_keys, (hl_rows _ _ Hh), lookup_fmap, Hd.
  by eexists.
Qed.

(** ** Recovery *)

Section recovery.
Context (self : QueryCoordinator).
Abbreviation policy := (qc_policy self).

(** The table after one record was settled. *)
Definition settled_rows (obs : Z) (d : DurableQueryRecord) (m : gmap string (list byte * Z)) :=
  match settle obs d with
  | None => delete (record_id d) m
  | Some d' => <[record_id d := row_of_record d']> m
  end.

(** Code that does not use the journal. *)
Definition silent {A} (m : stm (World (J:=Journal)) QueryCoordinatorError A) : Prop :=
  forall w, co_journal (m w).1 = co_journal w.

Lemma silent_bind {A B} (m : stm World QueryCoordinatorError A) (k : A -> stm World QueryCoordinatorError B) :
  silent m -> (forall a, silent (k a)) -> silent (st_bind m k).
Proof.
  intros Hm Hk w. unfold st_bind. specialize (Hm w). destruct (m w) as [w' [a|e]]; [|done].
  rewrite Hk. done.
Qed.

Lemma silent_adopt d ws p fp res child : silent (adopt_record event_to_vec self d ws p fp res child).
Proof.
  unfold adopt_record. apply silent_bind; [done|]. intros s. apply silent_bind; [|intros _].
  - case_bool_decide; [|done]. repeat (apply silent_bind; [done|intros ?]). done.
  - unfold install_record. repeat (apply silent_bind; [done|intros ?]). done.
Qed.

Lemma close_lost_same d obs d1 changed :
  close_lost d obs = Ok (d1, changed) -> record_id d1 = record_id d /\ (changed = false -> d1 = d).
Proof.
  unfold close_lost. destruct (phase_is_terminal _); [by intros [= <- <-]|].
  destruct (next_sequence _); [|done]. by intros [= <- <-].
Qed.

Lemma recover_one_rows obs child d res w :
  quiet (co_journal w) -> rows (co_journal w) !! record_id d = Some (row_of_record d) ->
  wp (recover_one event_to_vec self obs child (d, res)) w
     (fun r w' => r = Ok tt -> quiet (co_journal w')
                  /\ rows (co_journal w') = settled_rows obs d (rows (co_journal w))).
Proof.
  intros Hq Hrow. unfold recover_one, settled_rows, settle.
  do 7 (do 2 wp_case; match goal with |- match ?r with _ => _ end => destruct r end; [|done]).
  do 2 wp_case. destruct (close_lost d obs) as [[d1 changed]|] eqn:Hcl; [|done].
  apply close_lost_same in Hcl as [Ei Hsame]. fold (expired_record obs d1).
  assert (forall w1 d2 ws p fp, quiet (co_journal w1) ->
    rows (co_journal w1) = <[record_id d := row_of_record d2]> (rows (co_journal w)) ->
    wp (adopt_record event_to_vec self d2 ws p fp res child) w1
       (fun r w' => r = Ok tt -> quiet (co_journal w')
          /\ rows (co_journal w') = <[record_id d := row_of_record d2]> (rows (co_journal w)))) as Hadopt.
  { intros w1 d2 ws p fp Hq1 Hr1 _. by rewrite silent_adopt. }
  assert (forall d2, record_id d2 = record_id d -> exists j',
    journal_replace d2 (co_journal w) = (j', Ok tt) /\ quiet j'
    /\ rows j' = <[record_id d := row_of_record d2]> (rows (co_journal w))) as Hreplace.
  { intros d2 E2. rewrite <- E2. apply (sqlite_replace_quiet record_to_vec record_from_slice); [done|]. rewrite E2, Hrow. by eexists. }
  destruct (expired_record obs d1) eqn:Hex; simpl andb; cbv iota.
  - destruct (bool_decide _ && negb _)%bool; simpl negb; cbv iota.
    + do 2 wp_case. destruct (validate_result_retention _) as [[]|]; [|done]. wp_case.
      destruct (Hreplace (set_dr_retention d1 CleanupPending) Ei) as (j' & Ej & Hq' & Hr').
      eapply wp_eq; [unfold on_journal; by rewrite Ej|]. by apply Hadopt.
    + unfold delete_record, on_journal, wp. fold (record_id d1). rewrite Ei. simpl. unfold sqlite_delete.
      destruct (execute_quiet (co_journal w) (delete (record_id d) (rows (co_journal w))) Hq) as (j' & -> & Hq' & Hr').
      done.
  - do 2 wp_case. destruct (validate_result_retention d1) as [[]|]; [|done]. wp_case. destruct changed.
    + destruct (Hreplace d1 Ei) as (j' & Ej & Hq' & Hr').
      eapply wp_eq; [unfold on_journal; by rewrite Ej|]. by apply Hadopt.
    + wp_case. apply Hadopt; [done|]. rewrite Hsame by done. by rewrite insert_id.
Qed.

(** During recovery the table holds the handles already adopted and the records still to come. *)
Record pending w (ds : list DurableQueryRecord) : Prop := {
  pd_quiet : quiet (co_journal w);
  pd_adopted : forall id h, handles (co_state w) !! id = Some h ->
    rows (co_journal w) !! id = Some (row_of_record (durable_record h)) /\ acc_query_id (h_acceptance h) = id;
  pd_coming : forall d, d ∈ ds -> rows (co_journal w) !! record_id d = Some (row_of_record d)
    /\ handles (co_state w) !! record_id d = None;
  pd_only : forall id r, rows (co_journal w) !! id = Some r ->
    is_Some (handles (co_state w) !! id) \/ exists d, d ∈ ds /\ record_id d = id
}.

Lemma pending_done w : pending w [] -> mirrors w.
Proof.
  intros [Hq Ha _ Ho]. split; [done| |].
  - apply map_eq. intros id. rewrite lookup_fmap. destruct (handles (co_state w) !! id) as [h|] eqn:Hh.
    + by destruct (Ha id h Hh) as [-> _].
    + destruct (rows (co_journal w) !! id) as [r|] eqn:Hr; [|done].
      destruct (Ho id r Hr) as [[k ?]|(d & Hd & _)]; [congruence|by apply elem_of_nil in Hd].
  - intros id h Hh. by apply Ha.
Qed.

Lemma pending_settled obs w d w' (ds : list DurableQueryRecord) :
  pending w (d :: ds) -> NoDup (record_id <$> d :: ds) -> settled obs w d w' ->
  quiet (co_journal w') -> rows (co_journal w') = settled_rows obs d (rows (co_journal w)) ->
  pending w' ds.
Proof.
  intros [_ Ha Hc Ho] Hnd Hs Hq Hr. apply NoDup_cons in Hnd as [Hni Hnd].
  assert (forall d0, d0 ∈ ds -> record_id d0 <> record_id d) as Hne.
  { intros d0 Hd0 E. apply Hni. rewrite <- E. by apply list_elem_of_fmap_2. }
  assert (handles (co_state w) !! record_id d = None) as Hfresh by (apply Hc; set_solver).
  unfold settled, settled_rows in *. destruct (settle obs d) as [d'|].
  - destruct Hs as (Ei & _ & h & sc & <- & _ & Eh & _). rewrite Ei in Eh. split; [done|..]; rewrite Hr, Eh.
    + intros id k [[<- <-]|[Hn Hk]]%lookup_insert_Some; [by rewrite lookup_insert_eq|].
      rewrite lookup_insert_ne by done. by apply Ha.
    + intros d0 Hd0. rewrite !lookup_insert_ne by (apply not_eq_sym; auto). apply Hc. set_solver.
    + intros id r [[<- <-]|[Hn Hk]]%lookup_insert_Some; [left; rewrite lookup_insert_eq; by eexists|].
      rewrite lookup_insert_ne by done. destruct (Ho id r Hk) as [?|(d0 & Hd0 & <-)]; [by left|right].
      apply elem_of_cons in Hd0 as [->|?]; [done|by exists d0].
  - split; [done|..]; rewrite Hr, Hs.
    + intros id k Hk. rewrite lookup_delete_ne; [by apply Ha|congruence].
    + intros d0 Hd0. rewrite lookup_delete_ne by (apply not_eq_sym; auto). apply Hc. set_solver.
    + intros id r [Hn Hk]%lookup_delete_Some. destruct (Ho id r Hk) as [?|(d0 & Hd0 & <-)]; [by left|right].
      apply elem_of_cons in Hd0 as [->|?]; [done|by exists d0].
Qed.

Lemma recover_loop_mirrors (Hpolicy : policy_ok policy) lk obs child recs : forall w,
  coordinated policy lk (co_state w) -> records_ok recs.*1 -> unknown (co_state w) recs.*1 ->
  pending w recs.*1 ->
  wp (recover_loop event_to_vec self obs child recs) w (fun r w' => r = Ok tt -> mirrors w').
Proof.
  induction recs as [|[d res] recs IH]; intros w Hg Hrs Hun Hp; cbn [recover_loop].
  { intros _. by apply pending_done. }
  wp_case. destruct (Hun d) as [Hh Hi]; [simpl; set_solver|]. destruct Hrs as [Hf Hids Hsc].
  assert (record_ok d /\ Forall record_ok recs.*1) as [Hd Hf'] by (simpl in Hf; by apply Forall_cons in Hf).
  pose proof (recover_one_spec event_to_vec self lk w obs child d res Hg Hd Hh Hi) as Hspec.
  pose proof (recover_one_rows obs child d res w (pd_quiet _ _ Hp)) as Hrows.
  destruct (pd_coming _ _ Hp d) as [Hrow _]; [simpl; set_solver|]. specialize (Hrows Hrow).
  unfold wp in Hspec, Hrows. unfold wp at 1.
  destruct (recover_one _ _ _ _ _ w) as [w1 [[]|e]]; [|done].
  destruct (Hspec eq_refl) as [Hg1 Hs1], (Hrows eq_refl) as [Hq1 Hr1]. simpl in *.
  apply IH; [done| | |by eapply (pending_settled obs w d)].
  - apply NoDup_cons in Hids as [_ ?], Hsc as [_ ?]. by split.
  - eapply (settled_unknown self Hpolicy obs w d); [by split|exact Hun|exact Hs1].
Qed.

(** What a successful opening did to the records of the table. *)
Lemma recover_holds j ds obs child w :
  built_policy policy -> holds j ds -> table_ok ds ->
  recover event_to_vec self obs child j = (w, Ok tt) ->
  opened self obs j w /\ mirrors w
  /\ forall id, durable_record <$> (handles (co_state w) !! id) = ds !! id ≫= settle obs.
Proof.
  intros Hb Hh Ht Hr. pose proof (holds_journal_ok j ds Hh Ht) as Hj.
  pose proof (recover_opened event_to_vec self obs child j w Hb Hj Hr) as Ho. split; [done|].
  destruct Ho as [Hpol _ _]. unfold recover, st_bind, st_lift in Hr.
  destruct (ensure _ InvalidCoordinatorIdentity); [|done]. destruct (ok_or _ CounterOverflow) as [bytes|]; [|done].
  destruct (journal_load _ _ _) as [recs|] eqn:Hl; [|done]. cbn [co_journal] in Hl.
  destruct (ensure _ RecoveryLimit) eqn:Hlen; [|done]. apply ensure_Ok in Hlen. zify_bool.
  pose proof (load_complete j ds _ bytes recs Hh (built_census _ Hb) Hl Hlen) as Hall.
  pose proof (Hj _ _ _ Hl) as Hrs. set (w0 := mk_World state_default j) in *.
  assert (forall d, d ∈ recs.*1 -> ds !! record_id d = Some d) as Hkey.
  { intros d [id Hd]%Hall. by destruct (tb_record _ Ht id d Hd) as [_ <-]. }
  assert (unknown (co_state w0) recs.*1) as Hun.
  { intros d _. split; [apply lookup_empty|]. intros. apply lookup_empty. }
  pose proof (coordinated_default policy Hpol) as Hg. split.
  - assert (pending w0 recs.*1) as Hp.
    { split; simpl; [apply Hh|intros id h; by rewrite lookup_empty| |]; rewrite (hl_rows _ _ Hh).
      - intros d Hd. rewrite lookup_fmap, (Hkey d Hd). split; [done|apply lookup_empty].
      - intros id r (d & <- & Hd)%lookup_fmap_Some. right. exists d. split; [apply Hall; by exists id|].
        by apply (tb_record _ Ht). }
    pose proof (recover_loop_mirrors Hpol no_leak obs child recs w0 Hg Hrs Hun Hp) as Hm.
    unfold wp in Hm. rewrite Hr in Hm. by apply Hm.
  - pose proof (recover_loop_spec event_to_vec self Hpol no_leak obs child recs w0 Hg Hrs Hun) as Hs.
    unfold wp in Hs. rewrite Hr in Hs. destruct (Hs eq_refl) as [_ [Hsound Hcomplete _ _]]. intros id.
    destruct (handles (co_state w) !! id) as [h|] eqn:Hhd; simpl.
    + destruct (Hsound id h Hhd) as [Hn|(d & Hd & Es & <- & _)]; [simpl in Hn; by rewrite lookup_empty in Hn|].
      by rewrite (Hkey d Hd).
    + destruct (ds !! id) as [d|] eqn:Hd; [simpl|done]. destruct (settle obs d) as [d'|] eqn:Es; [exfalso|done].
      destruct (Hcomplete d d') as (h & Hh' & _); [apply Hall; by exists id|done|].
      destruct (tb_record _ Ht id d Hd) as [_ E]. rewrite E in Hh'.
      simpl in Hh'. congruence.
Qed.
End recovery.
End restart.
