(* ===== verification/QueryClaims.v ===== *)
(** The properties of the query coordinator. *)

From S2P Require Import Prelude.
From S2P Require Import Encoding.
From S2P Require Import CommandModel.
From S2P Require Import BudgetModel.
From S2P Require Import QueryModel.
From S2P Require Import QueryCodec.
From S2P Require Import QueryCoordinator.
From S2P Require Import QueryEvents.
From S2P Require Import QueryInvariant.
From S2P Require Import QuerySteps.
From S2P Require Import QueryOps.
From S2P Require Import QueryLifecycle.
From S2P Require Import QueryHistory.
From S2P Require Import QueryJournal.
From S2P Require Import QueryMirror.
From S2P Require Import QueryRestart.
Local Open Scope Z_scope.

Section any_journal.
Context {J : Type} `{QueryCoordinatorJournal J}.
Context (canonical_json : list byte -> option (list byte)).
Context (blake3_hash : list byte -> byte_array 32).
Context (event_to_vec : QueryControlEvent -> option (list byte)).
Context (self : QueryCoordinator) (observed_at : Z) (child : string -> result unit string).
Context (j0 : J) (w0 : World (J:=J)) (cs : list Call).
Abbreviation policy := (qc_policy self).
Abbreviation run := (run canonical_json blake3_hash event_to_vec self).
Abbreviation accept := (accept canonical_json blake3_hash self).

(** The coordinator was opened on a journal it wrote, and then served the calls [cs]. *)
Record served : Prop := {
  sv_policy : built_policy policy;
  sv_journal : journal_ok j0;
  sv_opened : recover event_to_vec self observed_at child j0 = (w0, Ok tt);
  sv_ranges : Forall call_ranges cs
}.

Lemma served_keeps : served ->
  policy_ok policy
  /\ (exists lk, coordinated policy lk (co_state (run cs w0)))
  /\ (closures_succeed canonical_json blake3_hash event_to_vec self cs w0 ->
      coordinated policy no_leak (co_state (run cs w0))).
Proof.
  intros [Hb Hj Ho Hr].
  destruct (recover_opened event_to_vec self observed_at child j0 w0 Hb Hj Ho) as [Hp Hg _].
  split; [done|]. by apply (run_keeps canonical_json blake3_hash event_to_vec self Hp).
Qed.

(** C30. After any sequence of calls, whatever the journal answered to each, the counters of the
    coordinator account for every query: [running], the counts by workspace and by principal and
    the reserved result bytes and pages are the sums over the queries that hold them plus what
    closures whose journal write failed have detached, so no counter is ever below what is held.
    When every closing call succeeded or changed nothing, nothing is detached: the counters are
    exactly the sums. *)
Theorem query_counters_are_exact :
  served ->
  (exists lk, accounted lk (co_state (run cs w0)))
  /\ (closures_succeed canonical_json blake3_hash event_to_vec self cs w0 ->
      accounted no_leak (co_state (run cs w0))).
Proof.
  intros Hs. destruct (served_keeps Hs) as (_ & [lk Hg] & Hclean). split.
  - exists lk. apply Hg.
  - intros Hc. apply (Hclean Hc).
Qed.

(** C31. After any sequence of calls, whatever the journal answered, no limit of the policy is
    exceeded: running queries in total, per workspace and per principal, queued queries, task
    reservations, reserved result bytes and pages; and the limits bound the queries themselves,
    not only the counters. *)
Theorem query_limits_hold :
  served ->
  let s := co_state (run cs w0) in
  within policy s
  /\ slots any_slot (handles s) <= max_running policy
  /\ (forall w, slots (in_workspace w) (handles s) <= max_running_per_workspace policy)
  /\ (forall p, slots (of_principal p) (handles s) <= max_running_per_principal policy)
  /\ reserved_bytes (handles s) <= max_total_result_bytes policy
  /\ reserved_pages (handles s) <= max_total_result_pages policy.
Proof.
  intros Hs s. destruct (served_keeps Hs) as (_ & [lk Hg] & _). fold s in Hg.
  destruct (co_within _ _ _ Hg) as [W1 W2 W3 W4 W5 W6 W7].
  destruct (co_accounted _ _ _ Hg) as [A1 A2 A3 A4 A5 [A6 A7]].
  assert (forall f, slots f (handles s) <= held f lk s) as Hle.
  { intros f. unfold held. pose proof (count_if_nonneg f (lk_runs lk)). lia. }
  split_and!; [by apply Hg| | | |lia|lia].
  - specialize (Hle any_slot). lia.
  - intros w. specialize (Hle (in_workspace w)). specialize (A2 w). specialize (W2 w). lia.
  - intros p. specialize (Hle (of_principal p)). specialize (A3 p). specialize (W3 p). lia.
Qed.

(** C32. Every query handle of a reachable coordinator is well formed: it carries the identity
    its key and its fingerprint say, its events are numbered from one without gaps, its result
    retention agrees with its phase and its events, its reservations are machine integers, an open
    query has a task reservation and room left for its terminal event, a queued query is in the
    queue, and the idempotency index and the handles name each other. *)
Theorem query_handles_are_well_formed :
  served ->
  let s := co_state (run cs w0) in
  (forall id h, handles s !! id = Some h ->
     handle_ok policy id h
     /\ (phase_is_terminal (h_phase h) = false -> id ∈ task_reservations s)
     /\ (h_phase h = Queued -> id ∈ queue s)
     /\ idempotency s !! operation_scope (h_operation h) = Some id)
  /\ (forall scope id, idempotency s !! scope = Some id ->
        exists h, handles s !! id = Some h /\ operation_scope (h_operation h) = scope)
  /\ NoDup (queue s).
Proof.
  intros Hs s. destruct (served_keeps Hs) as (_ & [lk Hg] & _). fold s in Hg.
  destruct (co_queue _ _ _ Hg) as [Q1 _ Q3], (co_tasks _ _ _ Hg) as [T1 _], (co_indexed _ _ _ Hg) as [I1 I2].
  split_and!; [|done|done]. intros id h Hh. split_and!; [by apply Hg|by eapply T1|by eapply Q3|by apply I2].
Qed.

(** C33. Admission is work conserving: as long as calls succeed or change nothing, either the
    process-wide running limit is reached or every query still in the queue is held back by the
    limit of its own workspace or principal. *)
Theorem query_admission_is_work_conserving :
  served -> calls_settle canonical_json blake3_hash event_to_vec self cs w0 ->
  let s := co_state (run cs w0) in
  max_running policy <= running s
  \/ forall id, id ∈ queue s ->
       exists h, handles s !! id = Some h /\ h_phase h = Queued
         /\ (max_running_per_workspace policy
                <= default 0 (running_by_workspace s !! op_workspace_id (h_operation h))
            \/ max_running_per_principal policy
                <= default 0 (running_by_principal s !! op_principal_id (h_operation h))).
Proof.
  intros [Hb Hj Ho Hr] Hset s.
  destruct (recover_opened event_to_vec self observed_at child j0 w0 Hb Hj Ho) as [Hp Hg (recs & _ & Hrec)].
  assert (saturated self (co_state w0)) as Hsat.
  { right. destruct (rf_idle _ _ _ _ Hrec) as (_ & -> & _). intros id Hid. by apply elem_of_nil in Hid. }
  destruct (run_saturates canonical_json blake3_hash event_to_vec self Hp cs no_leak w0 Hr Hg Hsat Hset)
    as [Hfull|Hblocked]; [by left|right].
  intros id Hid. destruct (Hblocked id Hid) as (h & Hh & Hq & Hsc). exists h. split_and!; [done|done|].
  unfold scope_blocked in Hsc. apply orb_true_iff in Hsc as [Hsc|Hsc]; zify_bool; auto.
Qed.

(** The identities of two operations agree only for the same operation, if their preimages do not
    collide. *)
Lemma query_id_of_operation o1 o2 :
  fingerprint_ranges o1 -> fingerprint_ranges o2 ->
  (fingerprint blake3_hash o1 = fingerprint blake3_hash o2 -> fingerprint_preimage o1 = fingerprint_preimage o2) ->
  query_id_of (fingerprint blake3_hash o1) = query_id_of (fingerprint blake3_hash o2) <-> o1 = o2.
Proof.
  intros H1 H2 Hcr. split; [|by intros ->]. unfold query_id_of. intros [= E].
  apply hex_inj, as_slice_inj in E. by apply fingerprint_preimage_inj, Hcr.
Qed.

(** A known idempotency key: the same identity is a replay, another one a conflict. *)
Lemma accept_known lk w o obs c reserve id :
  coordinated policy lk (co_state w) ->
  NormalizedQueryOperation_try_new canonical_json o = Ok o -> obs < op_deadline_unix_ms o ->
  idempotency (co_state w) !! operation_scope o = Some id ->
  exists h, handles (co_state w) !! id = Some h
    /\ accept o obs c reserve w
       = (w, if bool_decide (id = query_id_of (fingerprint blake3_hash o))
             then Ok (Replay (h_acceptance h)) else Err IdempotencyConflict).
Proof.
  intros Hg Ho Hd Hi. destruct (ix_handle _ (co_indexed _ _ _ Hg) _ _ Hi) as (h & Hh & _). exists h. split; [done|].
  unfold QueryCoordinator.accept, st_bind, st_lift, get_state. rewrite Ho.
  rewrite (proj2 (Z.ltb_lt _ _) Hd). cbn [ensure]. rewrite Hi, Hh. cbn [ok_or].
  pose proof (ho_fingerprint _ _ _ (co_handles _ _ _ Hg id h Hh)) as Eid.
  case_bool_decide as Hf; case_bool_decide as Hq; try done; exfalso.
  - apply Hq. by rewrite <- Hf.
  - apply Hf. rewrite Eid in Hq. unfold query_id_of in Hq. injection Hq as Hq.
    by apply hex_inj, as_slice_inj in Hq.
Qed.

(** C34. Acceptance is idempotent in every reachable state. A valid operation whose idempotency
    key is in use leaves the coordinator as it is: it is a replay of the recorded acceptance when
    the query it identifies is its own, and a conflict otherwise. A key not in use never replays;
    when the operation is accepted, its query has the identity of the operation's fingerprint, was
    unknown before and is what the key names afterwards. Where the two fingerprints do not collide,
    that identity is the same exactly for the same operation. *)
Theorem query_acceptance_is_idempotent o obs c reserve :
  served -> operation_ranges o ->
  NormalizedQueryOperation_try_new canonical_json o = Ok o -> obs < op_deadline_unix_ms o ->
  let w := run cs w0 in
  let id := query_id_of (fingerprint blake3_hash o) in
  match idempotency (co_state w) !! operation_scope o with
  | Some known => exists h, handles (co_state w) !! known = Some h
      /\ accept o obs c reserve w
         = (w, if bool_decide (known = id) then Ok (Replay (h_acceptance h)) else Err IdempotencyConflict)
  | None =>
      match accept o obs c reserve w with
      | (w', Ok (New a)) => acc_query_id a = id /\ handles (co_state w) !! id = None
          /\ idempotency (co_state w') !! operation_scope o = Some id
          /\ exists h, handles (co_state w') !! id = Some h /\ h_acceptance h = a /\ h_operation h = o
      | (_, Ok (Replay _)) => False
      | (_, Err _) => True
      end
  end
  /\ forall o', fingerprint_ranges o -> fingerprint_ranges o' ->
       (fingerprint blake3_hash o' = fingerprint blake3_hash o -> fingerprint_preimage o' = fingerprint_preimage o) ->
       (query_id_of (fingerprint blake3_hash o') = id <-> o' = o).
Proof.
  intros Hs Hr Ho Hd w id. split; [|intros; by apply query_id_of_operation].
  destruct (served_keeps Hs) as (Hp & [lk Hg] & _). fold w in Hg.
  destruct (idempotency (co_state w) !! operation_scope o) as [known|] eqn:Hi.
  - by apply (accept_known lk).
  - pose proof (accept_keeps canonical_json blake3_hash self Hp lk w o obs c reserve Hr Hg) as [Hg' Hout].
    destruct (accept o obs c reserve w) as [w' [[a|a]|e]]; simpl in Hg', Hout; [| |done].
    + destruct Hout as (_ & Hn & Hx & (h & Hh & -> & Ho') & _). fold id in Hn, Hx, Hh.
      split_and!; [|done|done|eauto]. by apply (ho_id policy), Hg'.
    + destruct Hout as (_ & Hx & _). congruence.
Qed.
End any_journal.

Section cursors.
Context {J : Type} `{QueryCoordinatorJournal J}.
Context (blake3_hash : list byte -> byte_array 32).
Context (blake3_keyed_hash : byte_array 32 -> list byte -> byte_array 32).
Context (event_to_vec : QueryControlEvent -> option (list byte)).
Context (cursor_to_vec : CursorPayload -> option (list byte)).
Context (cursor_from_slice : list byte -> option CursorPayload).
Context (self : QueryCoordinator).
Implicit Types (w : World (J:=J)).

(** The payload [mint_cursor] signs for a query. *)
Definition cursor_payload (id : string) (h : QueryHandle) (after expires : Z) (checksum : option string) :=
  mk_CursorPayload id (hex (as_slice (as_bytes (op_principal_id (h_operation h))))) (qc_generation self)
    (op_policy_generation (h_operation h)) (op_revocation_generation (h_operation h))
    (op_sharing_class (h_operation h)) (op_semantic_profile (h_operation h)) after checksum expires.

Abbreviation verify_cursor :=
  (verify_cursor blake3_hash blake3_keyed_hash event_to_vec cursor_to_vec cursor_from_slice self).
Abbreviation mint_cursor := (mint_cursor blake3_hash blake3_keyed_hash event_to_vec cursor_to_vec self).

(** The cursor is signed for this query and position, for a session of the query. *)
Definition signed_for w (cursor : string) (authority : QuerySessionAuthority) (observed_at : Z)
    (id : string) (after : Z) : Prop :=
  exists h expires checksum, handles (co_state w) !! id = Some h
    /\ authorizes_session (h_operation h) authority = true /\ observed_at < expires
    /\ public_event_checksum blake3_hash event_to_vec (h_events h) after = Ok checksum
    /\ encode_cursor blake3_keyed_hash cursor_to_vec (cursor_payload id h after expires checksum)
         (qc_cursor_secret self) = Ok cursor.

Lemma mint_signs w id after expires cursor :
  mint_cursor id after expires w = (w, Ok cursor) ->
  exists h checksum, handles (co_state w) !! id = Some h
    /\ public_event_checksum blake3_hash event_to_vec (h_events h) after = Ok checksum
    /\ encode_cursor blake3_keyed_hash cursor_to_vec (cursor_payload id h after expires checksum)
         (qc_cursor_secret self) = Ok cursor.
Proof.
  unfold QueryCoordinator.mint_cursor, get_handle, get_state, st_bind, st_lift.
  destruct (handles (co_state w) !! id) as [h|]; simpl; [|done]. destruct (ensure _ _); [|done].
  destruct (public_event_checksum _ _ _ _) as [checksum|] eqn:Hk; [|done]. intros [= He]. by exists h, checksum.
Qed.

Lemma verify_signed w cursor authority observed_at id after :
  (forall p b, cursor_to_vec p = Some b -> cursor_from_slice b = Some p) ->
  verify_cursor cursor authority observed_at w = (w, Ok (id, after))
  <-> signed_for w cursor authority observed_at id after.
Proof.
  intros Hjson. unfold QueryCoordinator.verify_cursor, signed_for, get_handle, get_state, st_bind, st_lift, st_ret. split.
  - destruct (decode_cursor _ _ _ _ _) as [p|] eqn:Hd; [|done].
    apply (decode_cursor_exact blake3_keyed_hash cursor_to_vec cursor_from_slice Hjson) in Hd.
    destruct (ensure _ CursorBinding) eqn:Hb; [|done]. apply ensure_Ok in Hb. zify_bool.
    destruct (handles (co_state w) !! cu_query_id p) as [h|] eqn:Hh; simpl; [|done].
    destruct (ensure _ CursorBinding) eqn:Hc; [|done]. apply ensure_Ok in Hc. zify_bool.
    destruct (public_event_checksum _ _ _ _) as [checksum|] eqn:Hk; [|done].
    destruct (ensure _ CursorBinding) eqn:He; [|done]. apply ensure_Ok in He. zify_bool.
    intros [= <- <-]. exists h, (cu_expires_at_unix_ms p), checksum. split_and!; [done|done|lia|done|].
    rewrite <- Hd. f_equal. destruct p. unfold cursor_payload. simpl in *. subst.
    unfold authorizes_session in *. zify_bool. destruct (op_sharing_class (h_operation h)). zify_bool. congruence.
  - intros (h & expires & checksum & Hh & Ha & Ht & Hk & He).
    apply (decode_cursor_exact blake3_keyed_hash cursor_to_vec cursor_from_slice Hjson) in He. rewrite He.
    unfold cursor_payload. simpl. assert (Ha' := Ha). unfold authorizes_session in Ha'. zify_bool.
    rewrite Hh. simpl. rewrite Ha, Hk.
    destruct (op_sharing_class (h_operation h)) eqn:Esc. zify_bool.
    rewrite !Z.eqb_refl, !bool_decide_true by congruence.
    rewrite (proj2 (Z.eqb_eq _ _)) by done. rewrite (proj2 (Z.eqb_eq _ _)) by done.
    rewrite (proj2 (Z.leb_gt _ _)) by lia. simpl. done.
Qed.

(** C36. A resume cursor is accepted exactly when it is the text this coordinator would sign now:
    [verify_cursor] answers a query and a sequence number if and only if the query is known, the
    session is authorized for it, and the cursor is the signed encoding of that query's principal,
    generations, profile, sequence number and current event checksum with an expiry in the future.
    In particular a cursor [mint_cursor] returns is accepted from the sessions of its query until
    it expires. *)
Theorem query_cursors_are_exactly_the_signed_ones w cursor authority observed_at id after :
  (forall p b, cursor_to_vec p = Some b -> cursor_from_slice b = Some p) ->
  (verify_cursor cursor authority observed_at w = (w, Ok (id, after))
   <-> signed_for w cursor authority observed_at id after)
  /\ forall expires h, mint_cursor id after expires w = (w, Ok cursor) ->
       handles (co_state w) !! id = Some h -> authorizes_session (h_operation h) authority = true ->
       observed_at < expires -> verify_cursor cursor authority observed_at w = (w, Ok (id, after)).
Proof.
  intros Hjson. split; [by apply verify_signed|]. intros expires h Hm Hh Ha Ht. apply verify_signed; [done|].
  apply mint_signs in Hm as (h' & checksum & Hh' & Hk & He). simplify_eq. by eexists _, expires, checksum.
Qed.
End cursors.

Section streams.
Context {J : Type} `{QueryCoordinatorJournal J}.
Context (event_to_vec : QueryControlEvent -> option (list byte)) (self : QueryCoordinator).
Implicit Types (w : World (J:=J)).

(** The public stream of a query; empty when it is unknown. *)
Definition stream_of w (id : string) : list QueryControlEvent :=
  match handles (co_state w) !! id with Some h => public_stream (h_events h) | None => [] end.

Lemma append_stream w id p t c :
  wp (append_event_with_cleanup_precondition event_to_vec self id p t c) w
     (fun r w' => is_ok r = true -> settled_part (stream_of w id) `prefix_of` stream_of w' id).
Proof.
  unfold append_event_with_cleanup_precondition.
  do 3 (wp_case; wp_case; match goal with |- match ?r with _ => _ end => destruct r end; [|done]).
  do 2 wp_case. destruct (handles (co_state w) !! id) as [h|] eqn:Hh; [|done].
  do 2 wp_case. destruct (ensure _ _); [|done]. do 2 wp_case. destruct (admit_payload _ _ _); [|done].
  do 2 wp_case. destruct (extend_events _ _ _ _ _) as [[[e events] bytes]|] eqn:He; [|done].
  do 3 wp_case. apply wp_on_journal. intros j [[]|]; [|done]. do 2 wp_case. wp_case. intros _.
  unfold stream_of. simpl. rewrite Hh, lookup_insert_eq. simpl. by eapply extend_events_stream.
Qed.

(** C37. The control events a client reads are a gap-free, resumable stream. Asking for the events
    of a known query after sequence number [after] returns exactly the public events numbered
    [after + 1], [after + 2] and so on; private publication checkpoints neither appear nor leave a
    gap, and reading in two steps returns what reading in one step does. Appending an event keeps
    every event already in the stream, with its number, except that a trailing progress event may
    be replaced by a newer one. *)
Theorem query_event_stream_is_resumable w id h after upto p t c :
  handles (co_state w) !! id = Some h -> Z.of_nat (length (h_events h)) <= u64_max -> 0 <= after <= upto ->
  events_after id after w = (w, Ok (drop (Z.to_nat after) (stream_of w id)))
  /\ (forall i e, stream_of w id !! i = Some e ->
        ev_sequence e = Z.of_nat i + 1 /\ is_public (ev_payload e) = true)
  /\ (forall seen rest, events_after id after w = (w, Ok seen) -> events_after id upto w = (w, Ok rest) ->
        seen = take (Z.to_nat (upto - after)) seen ++ rest)
  /\ (let '(w', r) := append_event_with_cleanup_precondition event_to_vec self id p t c w in
      is_ok r = true -> settled_part (stream_of w id) `prefix_of` stream_of w' id).
Proof.
  intros Hh Hl Ha.
  assert (forall n, 0 <= n -> events_after id n w = (w, Ok (drop (Z.to_nat n) (stream_of w id)))) as Hread.
  { intros n Hn. unfold events_after, get_handle, get_state, st_bind, st_lift, stream_of. rewrite Hh. simpl.
    by rewrite public_events_after_spec. }
  split_and!.
  - apply Hread. lia.
  - unfold stream_of. rewrite Hh. intros i e He. split; [apply stream_sequence in He; lia|].
    unfold public_stream, stream_from in He. rewrite list_lookup_imap in He.
    apply fmap_Some_1 in He as (x & Hx & ->). apply list_elem_of_lookup_2, list_elem_of_filter in Hx as [Hx _].
    simpl. by apply Is_true_true.
  - rewrite !Hread by lia. intros seen rest [= <-] [= <-].
    replace (Z.to_nat upto) with (Z.to_nat after + Z.to_nat (upto - after))%nat by lia.
    by rewrite <- drop_drop, take_drop.
  - pose proof (append_stream w id p t c) as Hw. unfold wp in Hw.
    by destruct (append_event_with_cleanup_precondition _ _ _ _ _ _ w).
Qed.
End streams.

Section restarts.
Context (canonical_json : list byte -> option (list byte)).
Context (blake3_hash : list byte -> byte_array 32).
Context (event_to_vec : QueryControlEvent -> option (list byte)).
Context (record_to_vec : DurableQueryRecord -> option (list byte)).
Context (record_from_slice : list byte -> option DurableQueryRecord).
Context `{RecordJson record_to_vec record_from_slice}.
Implicit Types (j : SqliteQueryCoordinatorJournal).
Abbreviation sqlite := (sqlite_journal record_to_vec record_from_slice).

(** C35. A restart over the SQLite journal loses nothing and invents nothing. Let a coordinator be
    opened on a table written by the coordinator, serve any calls and stop at any point, with no
    failed statement. Then the table holds exactly the durable records of its queries, one per
    query and per idempotency scope, so the same holds of the next process; and when the next
    process, under any policy, opens that table, the queries it knows are exactly the previous
    ones: each one settled, that is closed as lost unless it had ended, kept for cleanup or removed
    once its lease is over, and otherwise unchanged. *)
Theorem query_restart_is_exact self1 self2 budget1 budget2 observed1 observed2 child1 child2 j ds w1 cs w2 :
  built_policy (qc_policy self1) -> built_policy (qc_policy self2) ->
  holds record_to_vec j ds -> table_ok ds ->
  recover (H:=sqlite budget1) event_to_vec self1 observed1 child1 j = (w1, Ok tt) ->
  Forall call_ranges cs ->
  let w := run (H:=sqlite budget1) canonical_json blake3_hash event_to_vec self1 cs w1 in
  let records := durable_record <$> handles (co_state w) in
  holds record_to_vec (co_journal w) records /\ table_ok records
  /\ (recover (H:=sqlite budget2) event_to_vec self2 observed2 child2 (co_journal w) = (w2, Ok tt) ->
      forall id, durable_record <$> (handles (co_state w2) !! id)
                 = (handles (co_state w) !! id) ≫= fun h => settle observed2 (durable_record h)).
Proof.
  intros Hb1 Hb2 Hh Ht Hr1 Hcs w records.
  destruct (recover_holds event_to_vec record_to_vec record_from_slice budget1 self1 j ds observed1 child1 w1
              Hb1 Hh Ht Hr1) as ([Hp1 Hg1 _] & Hm1 & _).
  destruct (run_keeps (H:=sqlite budget1) canonical_json blake3_hash event_to_vec self1 Hp1 cs no_leak w1 Hcs Hg1)
    as [[lk Hg] _].
  pose proof (run_mirrors canonical_json blake3_hash event_to_vec record_to_vec record_from_slice budget1 self1
                Hp1 cs no_leak w1 Hcs Hg1 Hm1) as [Hq Hrows Hids].
  fold w in Hg, Hq, Hrows.
  assert (holds record_to_vec (co_journal w) records) as Hh'.
  { split; [done|]. unfold records. rewrite <- map_fmap_compose. exact Hrows. }
  assert (table_ok records) as Ht' by (by eapply handles_table).
  split_and!; [done|done|]. intros Hr2 id.
  destruct (recover_holds event_to_vec record_to_vec record_from_slice budget2 self2 (co_journal w) records
              observed2 child2 w2 Hb2 Hh' Ht' Hr2) as (_ & _ & ->).
  unfold records. rewrite lookup_fmap. by destruct (handles (co_state w) !! id).
Qed.
End restarts.
