(* ===== verification/SampleCodec.v ===== *)
(** A self-delimiting binary codec that stands in for canonical JSON in the concrete examples:
    writers and readers that compose, with the law that reading what was written gives it back. *)

From S2P Require Import Prelude.
From S2P Require Import Encoding.
From S2P Require Import BudgetModel.
From S2P Require Import Freshness.
From S2P Require Import QueryModel.
From S2P Require Import QueryCoordinator.
From S2P Require Import QueryMirror.
From Stdlib Require Strings.String.
Local Open Scope Z_scope.

Record codec (A : Type) := mk_codec {
  put : A -> list byte;
  get : list byte -> option (A * list byte);
  get_put : forall a rest, get (put a ++ rest) = Some (a, rest)
}.
Arguments put {A} c a.
Arguments get {A} c l.
Arguments get_put {A} c a rest.

(** ** Combinators *)

Definition codec_byte : codec byte.
Proof.
  refine (mk_codec _ (fun b => [b]) (fun l => match l with b :: rest => Some (b, rest) | [] => None end) _).
  done.
Defined.

Definition codec_pair {A B} (ca : codec A) (cb : codec B) : codec (A * B).
Proof.
  refine (mk_codec _ (fun p => put ca p.1 ++ put cb p.2)
    (fun l => '(a, l) ← get ca l; '(b, l) ← get cb l; Some ((a, b), l)) _).
  intros [a b] rest. simpl. rewrite <- app_assoc, get_put. simpl. by rewrite get_put.
Defined.

Definition codec_iso {A B} (ca : codec A) (f : B -> A) (g : A -> option B)
    (Hfg : forall b, g (f b) = Some b) : codec B.
Proof.
  refine (mk_codec _ (fun b => put ca (f b)) (fun l => '(a, l) ← get ca l; b ← g a; Some (b, l)) _).
  intros b rest. simpl. rewrite get_put. simpl. by rewrite Hfg.
Defined.

Definition codec_sum {A B} (ca : codec A) (cb : codec B) : codec (A + B).
Proof.
  refine (mk_codec _ (fun s => match s with inl a => x00 :: put ca a | inr b => x01 :: put cb b end)
    (fun l => match l with
              | x00 :: l => '(a, l) ← get ca l; Some (inl a, l)
              | x01 :: l => '(b, l) ← get cb l; Some (inr b, l)
              | _ => None
              end) _).
  intros [a|b] rest; simpl; by rewrite get_put.
Defined.

Fixpoint get_all {A} (ca : codec A) (n : nat) (l : list byte) : option (list A * list byte) :=
  match n with
  | O => Some ([], l)
  | S n => '(a, l) ← get ca l; '(la, l) ← get_all ca n l; Some (a :: la, l)
  end.

Lemma get_all_put {A} (ca : codec A) la rest :
  get_all ca (length la) (concat (put ca <$> la) ++ rest) = Some (la, rest).
Proof.
  induction la as [|a la IH]; [done|]. rewrite fmap_cons. cbn [concat length get_all].
  rewrite <- app_assoc, get_put. cbn [mbind option_bind]. by rewrite IH.
Qed.

(** ** Numbers and texts *)

Fixpoint put_pos (p : positive) : list byte :=
  match p with xH => [x02] | xO p => x00 :: put_pos p | xI p => x01 :: put_pos p end.
Fixpoint get_pos (l : list byte) : option (positive * list byte) :=
  match l with
  | x02 :: l => Some (xH, l)
  | x00 :: l => '(p, l) ← get_pos l; Some (xO p, l)
  | x01 :: l => '(p, l) ← get_pos l; Some (xI p, l)
  | _ => None
  end.

Definition codec_positive : codec positive.
Proof.
  refine (mk_codec _ put_pos get_pos _). intros p rest. induction p as [p IH|p IH|]; simpl; rewrite ?IH; done.
Defined.

Definition codec_unit : codec unit.
Proof. refine (codec_iso codec_byte (fun _ => x00) (fun _ => Some tt) _). by intros []. Defined.

Definition codec_Z : codec Z.
Proof.
  refine (codec_iso (codec_sum codec_positive (codec_sum codec_positive codec_unit))
    (fun z => match z with Zpos p => inl p | Zneg p => inr (inl p) | Z0 => inr (inr tt) end)
    (fun s => Some match s with inl p => Zpos p | inr (inl p) => Zneg p | inr (inr _) => Z0 end) _).
  by intros [].
Defined.

Definition codec_list {A} (ca : codec A) : codec (list A).
Proof.
  refine (mk_codec _ (fun la => put codec_Z (Z.of_nat (length la)) ++ concat (put ca <$> la))
    (fun l => '(n, l) ← get codec_Z l; get_all ca (Z.to_nat n) l) _).
  intros la rest. rewrite <- app_assoc, get_put. cbn [mbind option_bind]. rewrite Nat2Z.id. apply get_all_put.
Defined.

Definition codec_string : codec string.
Proof.
  refine (codec_iso (codec_list codec_byte) String.list_byte_of_string
            (fun l => Some (String.string_of_list_byte l)) _).
  intros s. by rewrite String.string_of_list_byte_of_string.
Defined.

Definition codec_option {A} (ca : codec A) : codec (option A).
Proof.
  refine (codec_iso (codec_sum ca codec_unit) (fun o => match o with Some a => inl a | None => inr tt end)
    (fun s => Some match s with inl a => Some a | inr _ => None end) _).
  by intros [].
Defined.

Definition codec_gset : codec (gset string).
Proof.
  refine (codec_iso (codec_list codec_string) elements (fun l => Some (list_to_set l)) _).
  intros s. by rewrite list_to_set_elements_L.
Defined.

(** An enumeration, by the position of its constructors. *)
Definition codec_enum {A} (all : list A) (index : A -> nat) (Hall : forall a, all !! index a = Some a) : codec A.
Proof.
  refine (codec_iso codec_Z (fun a => Z.of_nat (index a)) (fun z => all !! Z.to_nat z) _).
  intros a. by rewrite Nat2Z.id.
Defined.

(** ** Durable records and cursors *)

Definition codec_terminal : codec QueryTerminalState.
Proof.
  refine (codec_enum [Succeeded; Failed; CancelledState; Lost]
    (fun t => match t with Succeeded => 0 | Failed => 1 | CancelledState => 2 | Lost => 3 end)%nat _).
  by intros [].
Defined.

Definition codec_retention : codec ResultRetentionState.
Proof.
  refine (codec_enum [Reserved; CleanupPending; Released]
    (fun t => match t with Reserved => 0 | CleanupPending => 1 | Released => 2 end)%nat _).
  by intros [].
Defined.

Definition codec_phase : codec QueryExecutionPhase.
Proof.
  refine (codec_iso (codec_sum codec_terminal (codec_sum codec_unit codec_unit))
    (fun p => match p with TerminalPhase t => inl t | Queued => inr (inl tt) | Running => inr (inr tt) end)
    (fun s => Some match s with inl t => TerminalPhase t | inr (inl _) => Queued | inr (inr _) => Running end) _).
  by intros [].
Defined.

Definition codec_freshness : codec FreshnessState.
Proof.
  refine (codec_enum [Current; PotentiallyStale; Unavailable]
    (fun t => match t with Current => 0 | PotentiallyStale => 1 | Unavailable => 2 end)%nat _).
  by intros [].
Defined.

Definition codec_object_set : codec PendingResultObjectSet.
Proof.
  refine (codec_iso (codec_pair codec_string (codec_pair (codec_list codec_string) (codec_pair codec_string codec_string)))
    (fun o => (os_manifest_object_path o, (os_page_object_paths o, (os_epoch_id o, os_query_execution o))))
    (fun '(a, (b, (c, d))) => Some (mk_PendingResultObjectSet a b c d)) _).
  by intros [].
Defined.

Definition codec_locator : codec RetainedPackageLocator.
Proof.
  refine (codec_iso
    (codec_pair codec_object_set (codec_pair codec_string (codec_pair codec_Z (codec_pair codec_Z
       (codec_pair codec_string (codec_pair codec_Z (codec_pair codec_string codec_string)))))))
    (fun l => (mk_PendingResultObjectSet (rl_manifest_object_path l) (rl_page_object_paths l) (rl_epoch_id l)
                 (rl_query_execution l),
               (rl_lease_id l, (rl_lease_issued_at_unix_ms l, (rl_lease_expires_at_unix_ms l,
               (rl_expected_manifest_checksum l, (rl_expected_manifest_byte_length l,
               (rl_package_id l, rl_manifest_resource_id l))))))))
    (fun '(o, (a, (b, (c, (d, (e, (f, g))))))) =>
       Some (mk_RetainedPackageLocator (os_manifest_object_path o) (os_page_object_paths o) (os_epoch_id o)
               (os_query_execution o) a b c d e f g)) _).
  by intros [].
Defined.

Definition codec_payload : codec QueryControlEventPayload.
Proof.
  refine (codec_iso
    (codec_sum
       (codec_pair codec_string (codec_pair codec_Z (codec_pair codec_Z (codec_pair codec_Z
          (codec_pair (codec_option codec_freshness) (codec_option codec_string))))))
       (codec_sum (codec_pair codec_string (codec_pair codec_Z (codec_option codec_Z)))
       (codec_sum codec_object_set
       (codec_sum
          (codec_pair codec_string (codec_pair codec_string (codec_pair codec_string (codec_pair codec_Z
             (codec_pair codec_Z (codec_pair codec_Z codec_locator))))))
          (codec_pair codec_terminal (codec_option codec_string))))))
    (fun p => match p with
              | SnapshotPinned a b c d e f => inl (a, (b, (c, (d, (e, f)))))
              | Progress a b c => inr (inl (a, (b, c)))
              | PublicationPending o => inr (inr (inl o))
              | ResultReady a b c d e f l => inr (inr (inr (inl (a, (b, (c, (d, (e, (f, l)))))))))
              | Terminal t c => inr (inr (inr (inr (t, c))))
              end)
    (fun s => Some match s with
              | inl (a, (b, (c, (d, (e, f))))) => SnapshotPinned a b c d e f
              | inr (inl (a, (b, c))) => Progress a b c
              | inr (inr (inl o)) => PublicationPending o
              | inr (inr (inr (inl (a, (b, (c, (d, (e, (f, l)))))))))  => ResultReady a b c d e f l
              | inr (inr (inr (inr (t, c)))) => Terminal t c
              end) _).
  by intros [].
Defined.

Definition codec_event : codec QueryControlEvent.
Proof.
  refine (codec_iso (codec_pair codec_Z (codec_pair codec_Z codec_payload))
    (fun e => (ev_sequence e, (ev_emitted_at_unix_ms e, ev_payload e)))
    (fun '(a, (b, c)) => Some (mk_QueryControlEvent a b c)) _).
  by intros [].
Defined.

Definition codec_acceptance : codec QueryAcceptance.
Proof.
  refine (codec_iso (codec_pair codec_string (codec_pair codec_string (codec_pair codec_Z
            (codec_pair codec_Z (codec_pair codec_Z codec_phase)))))
    (fun a => (acc_query_id a, (acc_operation_fingerprint a, (acc_accepted_at_unix_ms a,
                (acc_lease_expires_at_unix_ms a, (acc_generation a, acc_phase a))))))
    (fun '(a, (b, (c, (d, (e, f))))) => Some (mk_QueryAcceptance a b c d e f)) _).
  by intros [].
Defined.

Definition codec_record : codec DurableQueryRecord.
Proof.
  refine (codec_iso
    (codec_pair codec_acceptance (codec_pair codec_string (codec_pair codec_string (codec_pair codec_Z
       (codec_pair codec_Z (codec_pair codec_string (codec_pair codec_string (codec_pair codec_string
       (codec_pair codec_Z (codec_pair codec_Z (codec_pair codec_gset (codec_pair codec_retention
       (codec_list codec_event)))))))))))))
    (fun r => (dr_acceptance r, (dr_workspace_id r, (dr_principal_id r, (dr_policy_generation r,
       (dr_revocation_generation r, (dr_idempotency_key r, (dr_operation_fingerprint r, (dr_semantic_profile r,
       (dr_reserved_result_bytes r, (dr_reserved_result_pages r, (dr_cancellation_ids r,
       (dr_result_retention r, dr_events r)))))))))))))
    (fun '(a, (b, (c, (d, (e, (f, (g, (h, (i, (j, (k, (l, m)))))))))))) =>
       Some (mk_DurableQueryRecord a b c d e PrincipalBound f g h i j k l m)) _).
  by intros [? ? ? ? ? [] ? ? ? ? ? ? ? ?].
Defined.

Definition codec_cursor : codec CursorPayload.
Proof.
  refine (codec_iso
    (codec_pair codec_string (codec_pair codec_string (codec_pair codec_Z (codec_pair codec_Z
       (codec_pair codec_Z (codec_pair codec_string (codec_pair codec_Z (codec_pair (codec_option codec_string)
       codec_Z))))))))
    (fun p => (cu_query_id p, (cu_principal_id p, (cu_generation p, (cu_policy_generation p,
       (cu_revocation_generation p, (cu_semantic_profile p, (cu_after_sequence p, (cu_event_checksum p,
       cu_expires_at_unix_ms p)))))))))
    (fun '(a, (b, (c, (d, (e, (f, (g, (h, i)))))))) => Some (mk_CursorPayload a b c d e PrincipalBound f g h i)) _).
  by intros [? ? ? ? ? [] ? ? ? ?].
Defined.

(** A whole text: nothing may follow. *)
Definition to_vec {A} (c : codec A) (a : A) : option (list byte) := Some (put c a).
Definition from_slice {A} (c : codec A) (l : list byte) : option A :=
  match get c l with Some (a, []) => Some a | _ => None end.

Lemma from_slice_to_vec {A} (c : codec A) a b : to_vec c a = Some b -> from_slice c b = Some a.
Proof. intros [= <-]. unfold from_slice. by rewrite <- (app_nil_r (put c a)), get_put. Qed.

#[export] Instance sample_record_json : RecordJson (to_vec codec_record) (from_slice codec_record).
Proof. split; [by eexists|]. apply from_slice_to_vec. Qed.
