(* ===== verification/QueryWitness.v ===== *)
(** A concrete coordinator over an empty SQLite journal, two queries of one workspace and the calls
    that accept, run and close them, with stand-in hash functions and codecs. *)

From S2P Require Import Prelude.
From S2P Require Import Encoding.
From S2P Require Import CommandModel.
From S2P Require Import BudgetModel.
From S2P Require Import QueryModel.
From S2P Require Import QueryCodec.
From S2P Require Import QueryCoordinator.
From S2P Require Import QueryEvents.
From S2P Require Import QueryInvariant.
From S2P Require Import QuerySteps.
From S2P Require Import QueryOps.
From S2P Require Import QueryLifecycle.
From S2P Require Import QueryHistory.
From S2P Require Import QueryJournal.
From S2P Require Import QueryMirror.
From S2P Require Import QueryRestart.
From S2P Require Import SampleCodec.
From S2P Require Import QueryClaims.
From Stdlib Require Strings.String.
Local Open Scope Z_scope.

Module QuerySample.
Definition hash (l : list byte) : byte_array 32 :=
  default (zero_bytes 32)
    (byte_array_of_slice 32 (to_be_bytes 32 (foldl (fun acc b => (acc * 257 + Z_of_byte b) mod 4294967291) 1 l))).
Definition keyed (key : byte_array 32) (l : list byte) : byte_array 32 := hash (as_slice key ++ l).
Definition canonical (l : list byte) : option (list byte) := Some l.
Definition reservation : ResourceReservation :=
  mk_ResourceReservation (mk_ResourceBudget 1 1) Data (memory_only 1).
Definition budget (call : nat) (c : ResourceClass) (a : ResourceAmounts)
  : result ResourceReservation ResourceBudgetError := Ok reservation.
Definition children (id : string) : result unit string := Ok tt.
Definition reserve (a : ResourceAmounts) : result ResourceReservation ResourceBudgetError := Ok reservation.

Definition policy : QueryCoordinatorPolicy := mk_QueryCoordinatorPolicy 2 1 2 4 4 8 65536 1000 100 10.
Definition self : QueryCoordinator := mk_QueryCoordinator policy 7 (repeat_byte 32 x05).
Definition operation (key : string) : NormalizedQueryOperation :=
  mk_NormalizedQueryOperation (from_bytes (t:=TWorkspaceId) (repeat_byte 16 x11))
    (from_bytes (t:=TPrincipalId) (repeat_byte 16 x22)) 3 5 PrincipalBound key
    (String.list_byte_of_string "{}"%string) "semantic.v2"%string "request.v1"%string "response.v1"%string
    "delivery.v1"%string "none"%string "best"%string "latest"%string 5000 9000 100 10.
Definition authority : QuerySessionAuthority :=
  mk_QuerySessionAuthority (from_bytes (t:=TPrincipalId) (repeat_byte 16 x22)) 3 5 PrincipalBound.
Definition id_of (key : string) : string := query_id_of (fingerprint hash (operation key)).

#[export] Hint Extern 0 (QueryCoordinatorJournal SqliteQueryCoordinatorJournal) =>
  exact (sqlite_journal (to_vec codec_record) (from_slice codec_record) budget) : typeclass_instances.
Definition empty : SqliteQueryCoordinatorJournal := mk_Sqlite ∅ [].

Abbreviation opening := (recover (to_vec codec_event) self 1000 children empty).
Abbreviation w0 := (opening.1).
Definition first : list Call :=
  [CallAccept (operation "one") 1000 (Ok tt) reserve; CallAccept (operation "two") 1001 (Ok tt) reserve;
   CallAppend (id_of "one") (Progress "scan"%string 1 (Some 4)) 1002 None;
   CallAppend (id_of "one") (Progress "scan"%string 2 (Some 4)) 1003 None].
Definition calls : list Call :=
  first ++ [CallTerminal (id_of "one") Failed (Some "QUERY_FAILED"%string) None 1004;
            CallCancelIdempotent (id_of "one") "cancel-1"%string 1005].
Abbreviation run := (run canonical hash (to_vec codec_event) self).
Abbreviation busy := (run first w0).
Abbreviation after := (run calls w0).
Definition phase_at (w : World (J:=SqliteQueryCoordinatorJournal)) (key : string) : option QueryExecutionPhase :=
  h_phase <$> handles (co_state w) !! id_of key.
End QuerySample.
Import QuerySample.

Lemma pair_of_snd {A B} (p : A * B) b : p.2 = b -> p = (p.1, b).
Proof. destruct p. by intros [= ->]. Qed.

Lemma sample_policy : built_policy policy.
Proof.
  exists 2, 1, 2, 4, 4, 8, 65536, 1000, 100, 10. split; [|reflexivity].
  repeat constructor; unfold u64_max; lia.
Qed.

Lemma sample_holds : holds (to_vec codec_record) empty ∅.
Proof. split; [constructor|done]. Qed.

Lemma sample_table : table_ok ∅.
Proof. split; intros *; by rewrite lookup_empty. Qed.

Lemma sample_opening_ok : opening.2 = Ok tt.
Proof. vm_compute. reflexivity. Qed.

Lemma sample_opening : opening = (w0, Ok tt).
Proof. exact (pair_of_snd opening (Ok tt) sample_opening_ok). Qed.

Lemma sample_ranges : Forall call_ranges calls.
Proof. repeat constructor; unfold u64_max; simpl; lia. Qed.

Lemma sample_served cs : Forall call_ranges cs -> served (to_vec codec_event) self 1000 children empty w0 cs.
Proof.
  intros Hr. split; [apply sample_policy| |apply sample_opening|done].
  apply (holds_journal_ok _ _ budget empty ∅ sample_holds sample_table).
Qed.

(** The first query runs, the second waits for its workspace, and starts when the first ends. *)
Lemma sample_phases :
  (phase_at busy "one", phase_at busy "two") = (Some Running, Some Queued)
  /\ (phase_at after "one", phase_at after "two") = (Some (TerminalPhase Failed), Some Running).
Proof. vm_compute. done. Qed.

Lemma sample_closures : closures_succeed canonical hash (to_vec codec_event) self calls w0.
Proof.
  unfold calls, first, app.
  repeat first [exact I | split; [intros Hc; first [discriminate Hc | left; vm_compute; reflexivity]|]].
Qed.

Lemma sample_settle : calls_settle canonical hash (to_vec codec_event) self first w0.
Proof. unfold first. repeat first [exact I | split; [left; vm_compute; reflexivity|]]. Qed.

Lemma sample_first : Forall call_ranges first.
Proof. repeat constructor; unfold u64_max; simpl; lia. Qed.

Lemma query_counters_are_exact_witness :
  accounted no_leak (co_state after) /\ running (co_state after) = 1 /\ reserved_result_bytes (co_state after) = 100.
Proof.
  pose proof (query_counters_are_exact canonical hash (to_vec codec_event) self 1000 children empty w0 calls
                (sample_served calls sample_ranges)) as [_ Hexact].
  split; [exact (Hexact sample_closures)|]. vm_compute. done.
Defined.

Lemma query_limits_hold_witness :
  slots any_slot (handles (co_state after)) <= 2 /\ reserved_bytes (handles (co_state after)) <= 1000.
Proof.
  pose proof (query_limits_hold canonical hash (to_vec codec_event) self 1000 children empty w0 calls
                (sample_served calls sample_ranges)) as (_ & Hr & _ & _ & Hb & _).
  split; [exact Hr|exact Hb].
Defined.

Lemma query_handles_are_well_formed_witness :
  exists h, handles (co_state after) !! id_of "one" = Some h /\ handle_ok policy (id_of "one") h.
Proof.
  pose proof (query_handles_are_well_formed canonical hash (to_vec codec_event) self 1000 children empty w0 calls
                (sample_served calls sample_ranges)) as (Hok & _).
  destruct (handles (co_state after) !! id_of "one") as [h|] eqn:Hh.
  - exists h. split; [reflexivity|]. exact (proj1 (Hok (id_of "one") h Hh)).
  - exfalso. revert Hh. vm_compute. discriminate.
Defined.

Lemma query_admission_is_work_conserving_witness :
  queue (co_state busy) = [id_of "two"] /\ running (co_state busy) = 1
  /\ exists h, handles (co_state busy) !! id_of "two" = Some h /\ h_phase h = Queued.
Proof.
  split; [vm_compute; reflexivity|]. split; [vm_compute; reflexivity|].
  destruct (query_admission_is_work_conserving canonical hash (to_vec codec_event) self 1000 children empty w0 first
              (sample_served first sample_first) sample_settle) as [Hfull|Hblocked].
  - exfalso. revert Hfull. vm_compute. intros Hle. by apply Hle.
  - destruct (Hblocked (id_of "two")) as (h & Hh & Hq & _); [|exists h; split; assumption].
    assert (queue (co_state busy) = [id_of "two"]) as -> by (vm_compute; reflexivity). left.
Defined.

Lemma query_acceptance_is_idempotent_witness :
  exists h, handles (co_state busy) !! id_of "one" = Some h
    /\ accept canonical hash self (operation "one") 1500 (Ok tt) reserve busy = (busy, Ok (Replay (h_acceptance h))).
Proof.
  pose proof (query_acceptance_is_idempotent canonical hash (to_vec codec_event) self 1000 children empty w0 first
                (operation "one") 1500 (Ok tt) reserve (sample_served first sample_first)) as Hacc.
  destruct Hacc as [Hknown _].
  - split; vm_compute; split; discriminate.
  - vm_compute. reflexivity.
  - vm_compute. reflexivity.
  - cbv zeta in Hknown.
    replace (idempotency (co_state busy) !! operation_scope (operation "one")) with (Some (id_of "one")) in Hknown
      by (vm_compute; reflexivity).
    rewrite bool_decide_true in Hknown by reflexivity. exact Hknown.
Defined.

Lemma verify_cursor_world (w : World (J:=SqliteQueryCoordinatorJournal)) c a t :
  (verify_cursor hash keyed (to_vec codec_event) (to_vec codec_cursor) (from_slice codec_cursor) self c a t w).1 = w.
Proof.
  unfold verify_cursor, get_handle, get_state, st_bind, st_lift, st_ret.
  repeat (case_match; simplify_eq/=; try done).
Qed.

Definition minted : string :=
  match (mint_cursor hash keyed (to_vec codec_event) (to_vec codec_cursor) self (id_of "one") 1 8000 busy).2 with
  | Ok c => c
  | Err _ => ""%string
  end.

Abbreviation verified :=
  (verify_cursor hash keyed (to_vec codec_event) (to_vec codec_cursor) (from_slice codec_cursor) self
     minted authority 2000 busy).

Lemma sample_verified : verified.2 = Ok (id_of "one", 1).
Proof. vm_compute. reflexivity. Qed.

Lemma sample_cursor : verified = (busy, Ok (id_of "one", 1)).
Proof. exact (injective_projections _ (_, _) (verify_cursor_world busy minted authority 2000) sample_verified). Qed.

Lemma query_cursors_are_exactly_the_signed_ones_witness :
  verified = (busy, Ok (id_of "one", 1))
  /\ signed_for hash keyed (to_vec codec_event) (to_vec codec_cursor) self busy minted authority 2000 (id_of "one") 1.
Proof.
  split; [exact sample_cursor|].
  exact (proj1 (proj1 (query_cursors_are_exactly_the_signed_ones hash keyed (to_vec codec_event) (to_vec codec_cursor)
                         (from_slice codec_cursor) self busy minted authority 2000 (id_of "one") 1
                         (from_slice_to_vec codec_cursor))) sample_cursor).
Defined.

Lemma sample_events : Z.of_nat (length (default [] (h_events <$> handles (co_state busy) !! id_of "one"))) <= u64_max.
Proof. vm_compute. discriminate. Qed.

Lemma query_event_stream_is_resumable_witness :
  events_after (id_of "one") 0 busy = (busy, Ok (drop (Z.to_nat 0) (stream_of busy (id_of "one"))))
  /\ length (stream_of busy (id_of "one")) = 1%nat.
Proof.
  split; [|vm_compute; reflexivity]. pose proof sample_events as Hlen.
  destruct (handles (co_state busy) !! id_of "one") as [h|] eqn:Hh; [|exfalso; revert Hh; vm_compute; discriminate].
  exact (proj1 (query_event_stream_is_resumable (to_vec codec_event) self busy (id_of "one") h 0 0
           (Progress "scan"%string 3 None) 1010 None Hh Hlen (conj (Z.le_refl 0) (Z.le_refl 0)))).
Defined.

Abbreviation reopening := (recover (to_vec codec_event) self 2000 children (co_journal after)).
Abbreviation reopened := (reopening.1).

Lemma sample_reopened : reopening.2 = Ok tt.
Proof. vm_compute. reflexivity. Qed.

Lemma query_restart_is_exact_witness :
  durable_record <$> (handles (co_state reopened) !! id_of "two")
    = ((handles (co_state after) !! id_of "two") ≫= fun h => settle 2000 (durable_record h))
  /\ phase_at reopened "two" = Some (TerminalPhase Lost).
Proof.
  split; [|vm_compute; reflexivity].
  exact (proj2 (proj2 (query_restart_is_exact canonical hash (to_vec codec_event) (to_vec codec_record)
    (from_slice codec_record) self self budget budget 1000 2000 children children empty ∅ w0 calls reopened
    sample_policy sample_policy sample_holds sample_table sample_opening sample_ranges))
    (pair_of_snd reopening (Ok tt) sample_reopened) (id_of "two")).
Defined.

(** ** Executions that show defects *)

(** The journal fails once, while the first query is being closed. *)
Definition failing : SqliteQueryCoordinatorJournal :=
  mk_Sqlite ∅ [None; None; Some (Sqlite "disk I/O error"%string)].
Definition faulty : World := (recover (to_vec codec_event) self 1000 children failing).1.
Definition close_one : Call := CallTerminal (id_of "one") Failed (Some "QUERY_FAILED"%string) None 1004.
Definition leaked : World := run [CallAccept (operation "one") 1000 (Ok tt) reserve; close_one] faulty.

(** A closure whose journal write fails has already marked the query terminal: its running slot and
    its result reservation are not returned, the retry is refused as already terminal, and after the
    lease the query is removed with the slot still taken, so the next query of the workspace never
    starts. *)
Lemma failed_closure_keeps_its_slots :
  (phase_at leaked "one", running (co_state leaked), reserved_result_bytes (co_state leaked))
    = (Some (TerminalPhase Failed), 1, 100)
  /\ (perform canonical hash (to_vec codec_event) self close_one leaked).2 = Err AlreadyTerminal
  /\ (let expired := run [CallCollectExpired 9000; CallAccept (operation "two") 1001 (Ok tt) reserve] leaked in
      (phase_at expired "one", phase_at expired "two", running (co_state expired))
      = (None, Some Queued, 1)).
Proof. vm_compute. done. Qed.

(** A task in [await_running] that saw the queued phase and releases the lock before it creates its
    notification future misses the notification of the dispatch in between: it waits although its
    query runs. *)
Definition waiter := await_step (id_of "two") AwaitCheck (co_state busy).
Definition promoted : World := run [close_one] busy.
Lemma admission_wakeup_can_be_lost :
  waiter = Some AwaitGap /\ phase_at promoted "two" = Some Running
  /\ await_step (id_of "two") AwaitGap (co_state promoted) = Some (AwaitNotified 1)
  /\ await_step (id_of "two") (AwaitNotified 1) (co_state promoted) = None.
Proof. vm_compute. done. Qed.

(** Acceptance does not observe the bound that recovery enforces on the number of records. *)
Definition small : QueryCoordinator :=
  mk_QueryCoordinator (mk_QueryCoordinatorPolicy 2 1 2 4 4 8 65536 1000 100 1) 7 (repeat_byte 32 x05).
Lemma acceptance_can_exceed_the_recovery_census :
  let '(w, r) := recover (to_vec codec_event) small 1000 children empty in
  let served := QueryHistory.run canonical hash (to_vec codec_event) small
    [CallAccept (operation "one") 1000 (Ok tt) reserve; CallAccept (operation "two") 1001 (Ok tt) reserve] w in
  r = Ok tt /\ size (handles (co_state served)) = 2%nat
  /\ (recover (to_vec codec_event) small 1002 children (co_journal served)).2 = Err RecoveryLimit.
Proof. vm_compute. done. Qed.
