(* ===== verification/CommonModel.v ===== *)
(** The common derived analysis of src/src/common_derived_analysis.rs: inputs, bindings, bounds and
    their validation, the analysis state, and the staging of the input relations.

    DataFusion runs the relational stage (distinct rows in a fixed order) and Arrow carries the rows
    in and out; the stage is the parameter [distinct_sorted], the rows are values. *)

From stdpp Require Import sorting pretty.
From S2P Require Import Prelude Encoding.
Local Open Scope string_scope.
Local Open Scope Z_scope.

(** ** Inputs *)

Record CommonAnalysisProvenance := mk_CommonAnalysisProvenance {
  fabric_epoch_id : byte_array 32;
  source_pin : byte_array 32;
  input_set_pin : byte_array 32;
  proof_pin : byte_array 32;
  source_generation : Z
}.

Record CommonCfgNode := mk_CommonCfgNode {
  n_owner_id : string;
  n_node_id : string;
  is_entry : bool;
  is_exit : bool
}.

Record CommonCfgEdge := mk_CommonCfgEdge {
  e_owner_id : string;
  e_source_node_id : string;
  e_target_node_id : string
}.

Record CommonDefUse := mk_CommonDefUse {
  d_owner_id : string;
  d_definition_node_id : string;
  d_use_node_id : string;
  d_location_id : string
}.

Inductive CommonCallResolution :=
| Exact (callee_id : string)
| Dynamic (reason : string)
| Unknown (reason : string).

Record CommonCallSite := mk_CommonCallSite {
  call_site_id : string;
  caller_id : string;
  resolution : CommonCallResolution
}.

Record CommonCallableLocalSemantics := mk_CommonCallableLocalSemantics {
  l_callable_id : string;
  l_module_id : string;
  l_owner_id : string;
  l_effects : gset string;
  l_resources : gset string
}.

Inductive CommonInputFamily :=
| Cfg | DefUseReaching | CallTargets | LocalEffectResource.

Record CommonInputCoverage := mk_CommonInputCoverage {
  requested_units : Z;
  completed_units : Z;
  remainder_units : Z;
  unknown_units : Z;
  execution_proof_pin : byte_array 32
}.

#[export] Instance CommonCfgNode_eq_dec : EqDecision CommonCfgNode.
Proof. solve_decision. Defined.
#[export] Instance CommonCfgEdge_eq_dec : EqDecision CommonCfgEdge.
Proof. solve_decision. Defined.
#[export] Instance CommonDefUse_eq_dec : EqDecision CommonDefUse.
Proof. solve_decision. Defined.
#[export] Instance CommonCallResolution_eq_dec : EqDecision CommonCallResolution.
Proof. solve_decision. Defined.
#[export] Instance CommonCallSite_eq_dec : EqDecision CommonCallSite.
Proof. solve_decision. Defined.
#[export] Instance CommonInputFamily_eq_dec : EqDecision CommonInputFamily.
Proof. solve_decision. Defined.
#[export] Instance CommonInputFamily_countable : Countable CommonInputFamily.
Proof.
  refine (inj_countable'
    (fun f => match f with Cfg => 0 | DefUseReaching => 1 | CallTargets => 2
                         | LocalEffectResource => 3 end)%nat
    (fun n => match n with 0 => Cfg | 1 => DefUseReaching | 2 => CallTargets
                         | _ => LocalEffectResource end)%nat _).
  by intros [].
Defined.

Definition coverage_is_complete (self : CommonInputCoverage) : bool :=
  (requested_units self =? completed_units self)
  && (remainder_units self =? 0)
  && (unknown_units self =? 0)
  && negb (bool_decide (execution_proof_pin self = zero_bytes 32)).

Inductive CommonChangedScope :=
| Owner (owner : string)
| Module_ (module : string)
| Callable (callable : string).

#[export] Instance CommonChangedScope_eq_dec : EqDecision CommonChangedScope.
Proof. solve_decision. Defined.
#[export] Instance CommonChangedScope_countable : Countable CommonChangedScope.
Proof.
  refine (inj_countable'
    (fun s => match s with Owner o => inl o | Module_ m => inr (inl m) | Callable c => inr (inr c) end)
    (fun x => match x with inl o => Owner o | inr (inl m) => Module_ m | inr (inr c) => Callable c end)
    _).
  by intros [].
Defined.

Record CommonDerivedAnalysisInput := mk_CommonDerivedAnalysisInput {
  provenance : CommonAnalysisProvenance;
  cfg_nodes : list CommonCfgNode;
  cfg_edges : list CommonCfgEdge;
  def_use_reaching : list CommonDefUse;
  calls : list CommonCallSite;
  local_semantics : list CommonCallableLocalSemantics;
  coverage : gmap CommonInputFamily CommonInputCoverage;
  changed_scopes : gset CommonChangedScope
}.

(** ** Bindings *)

Record CommonAnalysisRelations := mk_CommonAnalysisRelations {
  r_cfg_nodes : string;
  r_cfg_edges : string;
  r_def_use_reaching : string;
  r_call_targets : string;
  r_local_semantics : string;
  r_facts : string;
  r_unknowns : string;
  r_completeness : string;
  r_invalidation : string
}.

Definition relations_all (r : CommonAnalysisRelations) : list string :=
  [r_cfg_nodes r; r_cfg_edges r; r_def_use_reaching r; r_call_targets r; r_local_semantics r;
   r_facts r; r_unknowns r; r_completeness r; r_invalidation r].

Record CommonAnalysisFields := mk_CommonAnalysisFields {
  fd_fabric_epoch_id : string; fd_source_pin : string; fd_input_set_pin : string;
  fd_proof_pin : string; fd_source_generation : string; fd_authority_id : string;
  fd_semantic_class_id : string; fd_algorithm_release : string; fd_precision_release : string;
  fd_family_id : string; fd_subject_id : string; fd_object_id : string; fd_value_id : string;
  fd_distance : string; fd_iteration : string; fd_complete : string; fd_reason_id : string;
  fd_detail : string; fd_requested_units : string; fd_completed_units : string;
  fd_remainder_units : string; fd_unknown_units : string; fd_execution_receipt : string;
  fd_scope_kind : string; fd_scope_id : string; fd_cause_id : string
}.

Definition fields_all (f : CommonAnalysisFields) : list string :=
  [fd_fabric_epoch_id f; fd_source_pin f; fd_input_set_pin f; fd_proof_pin f;
   fd_source_generation f; fd_authority_id f; fd_semantic_class_id f; fd_algorithm_release f;
   fd_precision_release f; fd_family_id f; fd_subject_id f; fd_object_id f; fd_value_id f;
   fd_distance f; fd_iteration f; fd_complete f; fd_reason_id f; fd_detail f;
   fd_requested_units f; fd_completed_units f; fd_remainder_units f; fd_unknown_units f;
   fd_execution_receipt f; fd_scope_kind f; fd_scope_id f; fd_cause_id f].

Record CommonAnalysisFamilies := mk_CommonAnalysisFamilies {
  dominator : string;
  post_dominator : string;
  control_dependence : string;
  data_dependence : string;
  call_graph : string;
  scc_membership : string;
  reachability : string;
  callable_effect : string;
  callable_resource : string;
  callable_summary : string
}.

Definition families_all (f : CommonAnalysisFamilies) : list string :=
  [dominator f; post_dominator f; control_dependence f; data_dependence f; call_graph f;
   scc_membership f; reachability f; callable_effect f; callable_resource f; callable_summary f].

Inductive CommonAnalysisAuthority :=
| ApplicationOwned (identity : string)
| ProviderNative (identity : string).

Inductive CommonAnalysisSemanticClass :=
| Fact (identity : string)
| Judgment (identity : string).

Record CommonAnalysisBindings := mk_CommonAnalysisBindings {
  relations : CommonAnalysisRelations;
  fields : CommonAnalysisFields;
  families : CommonAnalysisFamilies;
  authority : CommonAnalysisAuthority;
  semantic_class : CommonAnalysisSemanticClass
}.

(** ** Errors *)

Inductive CommonDerivedAnalysisError :=
| DuplicateRelation (value : string)
| DuplicateField (value : string)
| DuplicateFamily (value : string)
| InvalidIdentity (kind value : string)
| ProviderNativeAuthority (identity : string)
| JudgmentSemanticClass (identity : string)
| ZeroBound (name : string)
| InvalidProvenance (name : string)
| MissingCoverage (family : CommonInputFamily)
| InvalidCoverage (family : CommonInputFamily)
| InvalidInput (message : string)
| UnknownStageKind (kind : string)
| Schema (message : string)
| Arrow (message : string)
| DataFusion (message : string).

(** How a run can fail to produce its output: with an error of the boundary, by panicking at an
    [expect] or an index, or (never) by exhausting the fuel of a loop of the model. *)
Inductive AnalysisFault :=
| Fails (e : CommonDerivedAnalysisError)
| Panics
| OutOfFuel.

Definition failing {A} (r : result A CommonDerivedAnalysisError) : result A AnalysisFault :=
  match r with Ok a => Ok a | Err e => Err (Fails e) end.

(** [expect], and indexing a map or a graph. *)
Definition expect {A} (o : option A) : result A AnalysisFault := ok_or o Panics.

(** ** Validation *)

Definition validate_text (kind value : string) : result unit CommonDerivedAnalysisError :=
  if (is_empty value || (1024 <? len value) || negb (is_trimmed value)
      || existsb is_control (chars value))%bool
  then Err (InvalidIdentity kind value)
  else Ok tt.

(** [for x in l { if !seen.insert(x) { return Err(dup(x)) } }], each element validated first. *)
Definition insert_unique (check : string -> result unit CommonDerivedAnalysisError)
    (dup : string -> CommonDerivedAnalysisError) (x : string) (seen : gset string)
  : result (gset string) CommonDerivedAnalysisError :=
  let? _ := check x in
  if bool_decide (x ∈ seen) then Err (dup x) else Ok ({[x]} ∪ seen).

Definition bindings_validate (self : CommonAnalysisBindings)
  : result unit CommonDerivedAnalysisError :=
  let? _ := for_each (relations_all (relations self))
              (insert_unique (fun _ => Ok tt) DuplicateRelation) ∅ in
  let? _ := for_each (fields_all (fields self))
              (insert_unique (fun _ => Ok tt) DuplicateField) ∅ in
  let? _ := for_each (families_all (families self))
              (insert_unique (validate_text "family") DuplicateFamily) ∅ in
  let? _ := match authority self with
            | ApplicationOwned id => validate_text "application authority" id
            | ProviderNative id => Err (ProviderNativeAuthority id)
            end in
  match semantic_class self with
  | Fact id => validate_text "fact semantic class" id
  | Judgment id => Err (JudgmentSemanticClass id)
  end.

Record CommonAnalysisBounds := mk_CommonAnalysisBounds {
  max_cfg_nodes : nat;
  max_cfg_edges : nat;
  max_callables : nat;
  max_call_sites : nat;
  max_reachability_pairs : nat;
  max_summary_values : nat;
  max_output_rows : nat;
  max_iterations : nat
}.

(** [NonZero::new(value).ok_or(ZeroBound(name))]. *)
Definition nonzero (value : nat) (name : string) : result nat CommonDerivedAnalysisError :=
  if (value =? 0)%nat then Err (ZeroBound name) else Ok value.

Definition CommonAnalysisBounds_try_new (cfg_nodes cfg_edges callables call_sites pairs values
    rows iterations : nat) : result CommonAnalysisBounds CommonDerivedAnalysisError :=
  let? a := nonzero cfg_nodes "max_cfg_nodes" in
  let? b := nonzero cfg_edges "max_cfg_edges" in
  let? c := nonzero callables "max_callables" in
  let? d := nonzero call_sites "max_call_sites" in
  let? e := nonzero pairs "max_reachability_pairs" in
  let? f := nonzero values "max_summary_values" in
  let? g := nonzero rows "max_output_rows" in
  let? h := nonzero iterations "max_iterations" in
  Ok (mk_CommonAnalysisBounds a b c d e f g h).

Definition validate_provenance (p : CommonAnalysisProvenance)
  : result unit CommonDerivedAnalysisError :=
  for_each [("fabric_epoch_id", fabric_epoch_id p); ("source_pin", source_pin p);
            ("input_set_pin", input_set_pin p); ("proof_pin", proof_pin p)]
    (fun '(name, value) _ =>
       if bool_decide (value = zero_bytes 32) then Err (InvalidProvenance name) else Ok tt) tt.

Definition validate_cfg_node (node : CommonCfgNode) (nodes : gset (string * string))
  : result (gset (string * string)) CommonDerivedAnalysisError :=
  let? _ := validate_text "owner" (n_owner_id node) in
  let? _ := validate_text "CFG node" (n_node_id node) in
  if bool_decide ((n_owner_id node, n_node_id node) ∈ nodes)
  then Err (InvalidInput ("duplicate CFG node " +:+ n_owner_id node +:+ "/" +:+ n_node_id node))
  else Ok ({[(n_owner_id node, n_node_id node)]} ∪ nodes).

Definition validate_cfg_edge (nodes : gset (string * string)) (edge : CommonCfgEdge) (_ : unit)
  : result unit CommonDerivedAnalysisError :=
  let? _ := validate_text "owner" (e_owner_id edge) in
  let? _ := validate_text "CFG source" (e_source_node_id edge) in
  let? _ := validate_text "CFG target" (e_target_node_id edge) in
  if (negb (bool_decide ((e_owner_id edge, e_source_node_id edge) ∈ nodes))
      || negb (bool_decide ((e_owner_id edge, e_target_node_id edge) ∈ nodes)))%bool
  then Err (InvalidInput ("CFG edge " +:+ e_source_node_id edge +:+ " -> "
                            +:+ e_target_node_id edge +:+ " escapes owner " +:+ e_owner_id edge))
  else Ok tt.

Definition validate_def_use (row : CommonDefUse) (_ : unit)
  : result unit CommonDerivedAnalysisError :=
  for_each [("owner", d_owner_id row); ("definition node", d_definition_node_id row);
            ("use node", d_use_node_id row); ("location", d_location_id row)]
    (fun '(kind, value) _ => validate_text kind value) tt.

Definition validate_resolution (r : CommonCallResolution)
  : result (string * string) CommonDerivedAnalysisError :=
  match r with
  | Exact callee => let? _ := validate_text "callee" callee in Ok ("exact", callee)
  | Dynamic reason => let? _ := validate_text "call gap" reason in Ok ("dynamic", reason)
  | Unknown reason => let? _ := validate_text "call gap" reason in Ok ("unknown", reason)
  end.

Definition validate_call (call : CommonCallSite)
    (s : gmap string string * gset (string * string * string))
  : result (gmap string string * gset (string * string * string)) CommonDerivedAnalysisError :=
  let '(caller_by_call_site, call_targets) := s in
  let? _ := validate_text "call site" (call_site_id call) in
  let? _ := validate_text "caller" (caller_id call) in
  let? _ := match caller_by_call_site !! call_site_id call with
            | Some caller =>
                if negb (bool_decide (caller = caller_id call))
                then Err (InvalidInput ("call site " +:+ call_site_id call
                                          +:+ " has conflicting callers"))
                else Ok tt
            | None => Ok tt
            end in
  let? (kind, value) := validate_resolution (resolution call) in
  if bool_decide ((call_site_id call, kind, value) ∈ call_targets)
  then Err (InvalidInput ("duplicate call target observation for " +:+ call_site_id call))
  else Ok (<[call_site_id call := caller_id call]> caller_by_call_site,
           {[(call_site_id call, kind, value)]} ∪ call_targets).

(** Sets of texts are visited in the order of their elements. *)
Definition iter_set (s : gset string) : list string :=
  merge_sort (fun a b => str_cmp a b <> Gt) (elements s).

(** Maps are visited in the order of their keys. *)
Definition iter_map {A} (m : gmap string A) : list (string * A) :=
  merge_sort (fun a b => str_cmp a.1 b.1 <> Gt) (map_to_list m).

Definition validate_local (local : CommonCallableLocalSemantics) (callables : gset string)
  : result (gset string) CommonDerivedAnalysisError :=
  let? _ := for_each [("callable", l_callable_id local); ("module", l_module_id local);
                      ("owner", l_owner_id local)]
              (fun '(kind, value) _ => validate_text kind value) tt in
  if bool_decide (l_callable_id local ∈ callables)
  then Err (InvalidInput ("duplicate callable local semantics " +:+ l_callable_id local))
  else
    let? _ := for_each (iter_set (l_effects local)) (fun e _ => validate_text "effect" e) tt in
    let? _ := for_each (iter_set (l_resources local)) (fun r _ => validate_text "resource" r) tt in
    Ok ({[l_callable_id local]} ∪ callables).

Definition validate_input (input : CommonDerivedAnalysisInput)
  : result unit CommonDerivedAnalysisError :=
  let? nodes := for_each (cfg_nodes input) validate_cfg_node ∅ in
  let? _ := for_each (cfg_edges input) (validate_cfg_edge nodes) tt in
  let? _ := for_each (def_use_reaching input) validate_def_use tt in
  let? _ := for_each (calls input) validate_call (∅, ∅) in
  let? _ := for_each (local_semantics input) validate_local ∅ in
  Ok tt.

Definition input_families : list CommonInputFamily :=
  [Cfg; DefUseReaching; CallTargets; LocalEffectResource].

Definition validate_coverage (cov : gmap CommonInputFamily CommonInputCoverage)
  : result unit CommonDerivedAnalysisError :=
  for_each input_families (fun family _ =>
    let? row := ok_or (cov !! family) (MissingCoverage family) in
    let? classified :=
      ok_or (v ← checked_add u64_max (completed_units row) (remainder_units row);
             checked_add u64_max v (unknown_units row)) (InvalidCoverage family) in
    if (negb (classified =? requested_units row)
        || bool_decide (execution_proof_pin row = zero_bytes 32))%bool
    then Err (InvalidCoverage family)
    else Ok tt) tt.

(** ** Rows and the analysis state *)

Record FactRow := mk_FactRow {
  f_family : string;
  f_subject : string;
  f_object : option string;
  f_value : option string;
  f_distance : option Z;
  f_algorithm : string;
  f_precision : string;
  f_iteration : Z;
  f_complete : bool
}.

Record UnknownRow := mk_UnknownRow {
  u_family : string;
  u_subject : option string;
  u_reason : string;
  u_detail : option string;
  u_iteration : Z
}.

Record InvalidationRow := mk_InvalidationRow {
  i_family : string;
  i_scope_kind : string;
  i_scope_id : string;
  i_cause : string
}.

Inductive CommonAnalysisNativeOperation :=
| DataFusionProjection | DataFusionDistinct | DataFusionDeterministicSort
| PetgraphGraphExternalIdMap | PetgraphSimpleFastDominators | PetgraphReversedPostDominators
| PetgraphTarjanScc | PetgraphCondensationForCycles | PetgraphTopologicalSchedule
| BoundedReachability | MonotoneSetUnionFixedPoint.

#[export] Instance FactRow_eq_dec : EqDecision FactRow.
Proof. solve_decision. Defined.
(** Rows as the list of their fields. *)
#[export] Instance FactRow_countable : Countable FactRow.
Proof.
  refine (inj_countable
    (fun r => [encode (f_family r); encode (f_subject r); encode (f_object r); encode (f_value r);
               encode (f_distance r); encode (f_algorithm r); encode (f_precision r);
               encode (f_iteration r); encode (f_complete r)])
    (fun l => match l with
              | [a; b; c; d; e; f; g; h; i] =>
                  a ← decode a; b ← decode b; c ← decode c; d ← decode d; e ← decode e;
                  f ← decode f; g ← decode g; h ← decode h; i ← decode i;
                  Some (mk_FactRow a b c d e f g h i)
              | _ => None
              end) _).
  intros []. cbn -[encode decode]. by rewrite !decode_encode.
Defined.
#[export] Instance UnknownRow_eq_dec : EqDecision UnknownRow.
Proof. solve_decision. Defined.
#[export] Instance UnknownRow_countable : Countable UnknownRow.
Proof.
  refine (inj_countable
    (fun r => [encode (u_family r); encode (u_subject r); encode (u_reason r); encode (u_detail r);
               encode (u_iteration r)])
    (fun l => match l with
              | [a; b; c; d; e] =>
                  a ← decode a; b ← decode b; c ← decode c; d ← decode d; e ← decode e;
                  Some (mk_UnknownRow a b c d e)
              | _ => None
              end) _).
  intros []. cbn -[encode decode]. by rewrite !decode_encode.
Defined.
#[export] Instance InvalidationRow_eq_dec : EqDecision InvalidationRow.
Proof. solve_decision. Defined.
#[export] Instance InvalidationRow_countable : Countable InvalidationRow.
Proof.
  refine (inj_countable
    (fun r => [encode (i_family r); encode (i_scope_kind r); encode (i_scope_id r); encode (i_cause r)])
    (fun l => match l with
              | [a; b; c; d] =>
                  a ← decode a; b ← decode b; c ← decode c; d ← decode d;
                  Some (mk_InvalidationRow a b c d)
              | _ => None
              end) _).
  intros []. cbn -[encode decode]. by rewrite !decode_encode.
Defined.
#[export] Instance operation_eq_dec : EqDecision CommonAnalysisNativeOperation.
Proof. solve_decision. Defined.
#[export] Instance operation_countable : Countable CommonAnalysisNativeOperation.
Proof.
  refine (inj_countable'
    (fun o => match o with
              | DataFusionProjection => 0 | DataFusionDistinct => 1
              | DataFusionDeterministicSort => 2 | PetgraphGraphExternalIdMap => 3
              | PetgraphSimpleFastDominators => 4 | PetgraphReversedPostDominators => 5
              | PetgraphTarjanScc => 6 | PetgraphCondensationForCycles => 7
              | PetgraphTopologicalSchedule => 8 | BoundedReachability => 9
              | MonotoneSetUnionFixedPoint => 10
              end)%nat
    (fun n => match n with
              | 0 => DataFusionProjection | 1 => DataFusionDistinct
              | 2 => DataFusionDeterministicSort | 3 => PetgraphGraphExternalIdMap
              | 4 => PetgraphSimpleFastDominators | 5 => PetgraphReversedPostDominators
              | 6 => PetgraphTarjanScc | 7 => PetgraphCondensationForCycles
              | 8 => PetgraphTopologicalSchedule | 9 => BoundedReachability
              | _ => MonotoneSetUnionFixedPoint
              end)%nat _).
  by intros [].
Defined.

Record Progress := mk_Progress {
  requested : Z;
  completed : Z;
  remainder : Z;
  unknown_ : Z
}.

Definition Progress_default : Progress := mk_Progress 0 0 0 0.

(** [Progress { requested, ..Progress::default() }]. *)
Definition requesting (n : Z) : Progress := mk_Progress n 0 0 0.

Definition progress_complete (self : Progress) : bool :=
  (requested self =? completed self) && (remainder self =? 0) && (unknown_ self =? 0).

Definition add_completed (n : Z) (p : Progress) : Progress :=
  mk_Progress (requested p) (wrap64 (completed p + n)) (remainder p) (unknown_ p).
Definition add_unknown (n : Z) (p : Progress) : Progress :=
  mk_Progress (requested p) (completed p) (remainder p) (wrap64 (unknown_ p + n)).
Definition all_unknown (p : Progress) : Progress :=
  mk_Progress (requested p) (completed p) (remainder p) (requested p).

Record AnalysisState := mk_AnalysisState {
  facts : gset FactRow;
  unknowns : gset UnknownRow;
  progress : gmap string Progress;
  invalidation : gset InvalidationRow;
  operations : gset CommonAnalysisNativeOperation;
  iterations : Z;
  used_condensation : bool;
  output_exhausted_families : gset string
}.

Definition AnalysisState_default : AnalysisState := mk_AnalysisState ∅ ∅ ∅ ∅ ∅ 0 false ∅.

Definition set_facts (s : AnalysisState) f exhausted :=
  mk_AnalysisState f (unknowns s) (progress s) (invalidation s) (operations s) (iterations s)
    (used_condensation s) exhausted.
Definition set_unknowns (s : AnalysisState) u :=
  mk_AnalysisState (facts s) u (progress s) (invalidation s) (operations s) (iterations s)
    (used_condensation s) (output_exhausted_families s).
Definition set_progress (s : AnalysisState) p :=
  mk_AnalysisState (facts s) (unknowns s) p (invalidation s) (operations s) (iterations s)
    (used_condensation s) (output_exhausted_families s).
Definition set_invalidation (s : AnalysisState) i :=
  mk_AnalysisState (facts s) (unknowns s) (progress s) i (operations s) (iterations s)
    (used_condensation s) (output_exhausted_families s).
Definition set_iterations (s : AnalysisState) n :=
  mk_AnalysisState (facts s) (unknowns s) (progress s) (invalidation s) (operations s) n
    (used_condensation s) (output_exhausted_families s).
Definition set_condensation (s : AnalysisState) :=
  mk_AnalysisState (facts s) (unknowns s) (progress s) (invalidation s) (operations s) (iterations s)
    true (output_exhausted_families s).

(** [state.operations.extend(ops)]. *)
Definition extend_operations (ops : list CommonAnalysisNativeOperation) (s : AnalysisState) :=
  mk_AnalysisState (facts s) (unknowns s) (progress s) (invalidation s)
    (list_to_set ops ∪ operations s) (iterations s) (used_condensation s)
    (output_exhausted_families s).

Definition insert_fact (row : FactRow) (bounds : CommonAnalysisBounds) (self : AnalysisState)
  : AnalysisState :=
  if (size (facts self) <? max_output_rows bounds)%nat
  then set_facts self ({[row]} ∪ facts self) (output_exhausted_families self)
  else set_facts self (facts self) ({[f_family row]} ∪ output_exhausted_families self).

Definition unknown (family : string) (subject : option string) (reason : string)
    (detail : option string) (iteration : Z) (self : AnalysisState) : AnalysisState :=
  set_unknowns self ({[mk_UnknownRow family subject reason detail iteration]} ∪ unknowns self).

(** [state.progress.insert(family, p)]. *)
Definition insert_progress (family : string) (p : Progress) (s : AnalysisState) : AnalysisState :=
  set_progress s (<[family := p]> (progress s)).

(** [state.progress.get_mut(family).expect(..)] followed by an update. *)
Definition progress_mut (family : string) (f : Progress -> Progress) (s : AnalysisState)
  : result AnalysisState AnalysisFault :=
  let? p := expect (progress s !! family) in
  Ok (insert_progress family (f p) s).

(** [u64::try_from(n).unwrap_or(u64::MAX)]. *)
Definition u64_of_usize (n : nat) : Z := Z.min (Z.of_nat n) u64_max.

(** ** Staging *)

Record NormalizedStageRow := mk_NormalizedStageRow {
  s_kind : string;
  s_scope : string;
  s_source : string;
  s_target : string;
  s_value : option string
}.

#[export] Instance NormalizedStageRow_eq_dec : EqDecision NormalizedStageRow.
Proof. solve_decision. Defined.

Definition STAGE_CFG : string := "cfg".
Definition STAGE_DATA : string := "data".
Definition STAGE_CALL : string := "call".

Definition stage_of_cfg_edge (edge : CommonCfgEdge) : NormalizedStageRow :=
  mk_NormalizedStageRow STAGE_CFG (e_owner_id edge) (e_source_node_id edge) (e_target_node_id edge)
    None.

Definition stage_of_def_use (row : CommonDefUse) : NormalizedStageRow :=
  mk_NormalizedStageRow STAGE_DATA (d_owner_id row) (d_definition_node_id row) (d_use_node_id row)
    (Some (d_location_id row)).

Definition stage_of_call (call : CommonCallSite) : option NormalizedStageRow :=
  match resolution call with
  | Exact callee =>
      Some (mk_NormalizedStageRow STAGE_CALL "call-graph" (caller_id call) callee
              (Some (call_site_id call)))
  | _ => None
  end.

Definition stage_rows (input : CommonDerivedAnalysisInput) : list NormalizedStageRow :=
  (stage_of_cfg_edge <$> cfg_edges input)
  ++ (stage_of_def_use <$> def_use_reaching input)
  ++ omap stage_of_call (calls input).

(** The relational engine: [SELECT DISTINCT .. ORDER BY ..] over the staged rows. *)
Class RelationalStage := {
  distinct_sorted :
    list NormalizedStageRow -> result (list NormalizedStageRow) CommonDerivedAnalysisError
}.

(** What the stage promises when it answers: every row of its input, once. *)
Class RelationalStageLaws `{RelationalStage} : Prop := {
  distinct_sorted_NoDup rows out : distinct_sorted rows = Ok out -> NoDup out;
  distinct_sorted_elem rows out row :
    distinct_sorted rows = Ok out -> row ∈ out <-> row ∈ rows
}.

Definition normalize_stage `{RelationalStage} (input : CommonDerivedAnalysisInput)
  : result (list NormalizedStageRow) CommonDerivedAnalysisError :=
  distinct_sorted (stage_rows input).

Definition NormalizedTriples : Type :=
  list CommonCfgEdge * list CommonDefUse * list (string * string * string).

Definition split_row (row : NormalizedStageRow) (acc : NormalizedTriples)
  : result NormalizedTriples CommonDerivedAnalysisError :=
  let '(cfg, data, calls) := acc in
  if bool_decide (s_kind row = STAGE_CFG) then
    Ok (cfg ++ [mk_CommonCfgEdge (s_scope row) (s_source row) (s_target row)], data, calls)%list
  else if bool_decide (s_kind row = STAGE_DATA) then
    let? location := ok_or (s_value row) (Schema "data stage row has no location") in
    Ok (cfg, data ++ [mk_CommonDefUse (s_scope row) (s_source row) (s_target row) location],
        calls)%list
  else if bool_decide (s_kind row = STAGE_CALL) then
    let? site := ok_or (s_value row) (Schema "call stage row has no site") in
    Ok (cfg, data, calls ++ [(s_source row, s_target row, site)])%list
  else Err (UnknownStageKind (s_kind row)).

Definition split_stage (rows : list NormalizedStageRow)
  : result NormalizedTriples CommonDerivedAnalysisError :=
  for_each rows split_row ([], [], []).
