(* ===== verification/CommonCfg.v ===== *)
(** The control-flow and data-dependence families of src/src/common_derived_analysis.rs:
    [build_cfg_graph], [derive_cfg_families] and [derive_data_dependence].

    Petgraph's [Graph] is used as a list of node weights and a list of edges between their indices,
    to which [add_node], [add_edge] and [update_edge] append. Its algorithms are the class
    [Petgraph]; what they promise is [PetgraphLaws]. *)

From stdpp Require Import sorting pretty.
From S2P Require Import Prelude Encoding CommonModel.
Local Open Scope string_scope.
Local Open Scope Z_scope.

(** ** Graphs *)

Record CanonicalGraph := mk_CanonicalGraph {
  weights : list string;
  graph_edges : list (nat * nat)
}.

Definition empty_graph : CanonicalGraph := mk_CanonicalGraph [] [].

(** [graph.add_node(weight)]: the new graph and the index of the node. *)
Definition add_node (weight : string) (g : CanonicalGraph) : CanonicalGraph * nat :=
  (mk_CanonicalGraph (weights g ++ [weight]) (graph_edges g), length (weights g)).

Definition add_edge (source target : nat) (g : CanonicalGraph) : CanonicalGraph :=
  mk_CanonicalGraph (weights g) (graph_edges g ++ [(source, target)]).

(** [graph.update_edge(source, target, ())]: an edge that exists is kept. *)
Definition update_edge (source target : nat) (g : CanonicalGraph) : CanonicalGraph :=
  if bool_decide ((source, target) ∈ graph_edges g) then g else add_edge source target g.

Definition node_count (g : CanonicalGraph) : nat := length (weights g).

(** The edges of [Reversed(&graph)]. *)
Definition reversed (edges : list (nat * nat)) : list (nat * nat) :=
  (fun e => (e.2, e.1)) <$> edges.

(** The answers of [petgraph::algo::dominators::Dominators]. *)
Record Dominators := mk_Dominators {
  strict_dominators : nat -> option (list nat);
  dominators_of : nat -> option (list nat);
  immediate_dominator : nat -> option nat
}.

(** The algorithms of petgraph the analyses call, on the number of nodes and the edges of a graph. *)
Class Petgraph := {
  simple_fast : nat -> list (nat * nat) -> nat -> Dominators;
  tarjan_scc : nat -> list (nat * nat) -> list (list nat);
  toposort : nat -> list (nat * nat) -> option (list nat);
  condensation : CanonicalGraph -> list (list string) * list (nat * nat)
}.

(** A walk: the nodes visited, both ends included. *)
Inductive walk {A} (E : A -> A -> Prop) : A -> list A -> A -> Prop :=
| walk_nil a : walk E a [a] a
| walk_cons a b p c : E a b -> walk E b p c -> walk E a (a :: p) c.

Definition edge_of {A} (edges : list (A * A)) (a b : A) : Prop := (a, b) ∈ edges.

(** [d] dominates [x]: every walk from the root to [x] visits [d]. *)
Definition dominates {A} (E : A -> A -> Prop) (root d x : A) : Prop :=
  forall p, walk E root p x -> d ∈ p.

Definition acyclic {A} (E : A -> A -> Prop) : Prop := forall a, ~ tc E a a.

(** Edges lie between nodes of the graph. *)
Definition edges_in (n : nat) (edges : list (nat * nat)) : Prop :=
  forall a b, (a, b) ∈ edges -> (a < n /\ b < n)%nat.

(** What petgraph documents of these algorithms. *)
Class PetgraphLaws `{Petgraph} : Prop := {
  strict_dominators_reached n edges root x :
    edges_in n edges -> (root < n)%nat -> (x < n)%nat ->
    is_Some (strict_dominators (simple_fast n edges root) x) <-> rtc (edge_of edges) root x;
  strict_dominators_Some n edges root x l d :
    edges_in n edges -> (root < n)%nat -> (x < n)%nat ->
    strict_dominators (simple_fast n edges root) x = Some l ->
    d ∈ l <-> dominates (edge_of edges) root d x /\ d <> x;
  dominators_of_reached n edges root x :
    edges_in n edges -> (root < n)%nat -> (x < n)%nat ->
    is_Some (dominators_of (simple_fast n edges root) x) <-> rtc (edge_of edges) root x;
  dominators_of_Some n edges root x l d :
    edges_in n edges -> (root < n)%nat -> (x < n)%nat ->
    dominators_of (simple_fast n edges root) x = Some l ->
    d ∈ l <-> dominates (edge_of edges) root d x;
  immediate_dominator_reached n edges root x :
    edges_in n edges -> (root < n)%nat -> (x < n)%nat ->
    is_Some (immediate_dominator (simple_fast n edges root) x) <->
    x <> root /\ rtc (edge_of edges) root x;
  immediate_dominator_Some n edges root x d :
    edges_in n edges -> (root < n)%nat -> (x < n)%nat ->
    immediate_dominator (simple_fast n edges root) x = Some d ->
    dominates (edge_of edges) root d x /\ d <> x /\
    (forall d', dominates (edge_of edges) root d' x -> d' <> x -> dominates (edge_of edges) root d' d);
  tarjan_scc_partition n edges :
    edges_in n edges -> concat (tarjan_scc n edges) ≡ₚ seq 0 n;
  tarjan_scc_components n edges c a b :
    edges_in n edges -> c ∈ tarjan_scc n edges -> a ∈ c -> (b < n)%nat ->
    b ∈ c <-> rtc (edge_of edges) a b /\ rtc (edge_of edges) b a;
  toposort_Some n edges order :
    edges_in n edges -> toposort n edges = Some order -> order ≡ₚ seq 0 n;
  toposort_acyclic n edges :
    edges_in n edges -> acyclic (edge_of edges) -> is_Some (toposort n edges);
  condensation_weights g ws es :
    edges_in (node_count g) (graph_edges g) -> condensation g = (ws, es) ->
    concat ws ≡ₚ weights g;
  condensation_acyclic g ws es :
    edges_in (node_count g) (graph_edges g) -> condensation g = (ws, es) ->
    edges_in (length ws) es /\ acyclic (edge_of es)
}.

(** ** The control-flow families *)

Definition COMMON_CFG_ANALYSIS_RELEASE : string := "codefabric.common-cfg.petgraph-0.8.3.v1".
Definition COMMON_CFG_PRECISION : string := "canonical-node-exact-accepted-cfg.v1".
Definition COMMON_DATA_DEPENDENCE_RELEASE : string :=
  "codefabric.common-data-dependence.datafusion-55.v1".
Definition COMMON_DATA_DEPENDENCE_PRECISION : string := "accepted-def-use-reaching-evidence.v1".

(** [index_by_id[id]] and [graph[index]]. *)
Definition index_of (index_by_id : gmap string nat) (id : string) : result nat AnalysisFault :=
  expect (index_by_id !! id).
Definition weight_of (g : CanonicalGraph) (i : nat) : result string AnalysisFault :=
  expect (weights g !! i).

(** One [graph.add_node] whose index is kept under the identity. *)
Definition add_identity (acc : CanonicalGraph * gmap string nat) (id : string)
  : CanonicalGraph * gmap string nat :=
  let '(graph, index) := add_node id acc.1 in (graph, <[id := index]> acc.2).

Definition build_cfg_graph (nodes : list CommonCfgNode) (edges : list CommonCfgEdge)
  : result (CanonicalGraph * gmap string nat) AnalysisFault :=
  let '(graph, index_by_id) :=
    foldl (fun acc node => add_identity acc (n_node_id node)) (empty_graph, ∅) nodes in
  let? graph := for_each edges (fun edge graph =>
    let? source := ok_or (index_by_id !! e_source_node_id edge)
                     (Fails (InvalidInput "missing CFG source")) in
    let? target := ok_or (index_by_id !! e_target_node_id edge)
                     (Fails (InvalidInput "missing CFG target")) in
    Ok (update_edge source target graph)) graph in
  Ok (graph, index_by_id).

(** [entry(owner).or_default().push(x)] for every row. *)
Definition group_by_owner {A} (owner : A -> string) (rows : list A) : gmap string (list A) :=
  foldl (fun m row => <[owner row := (default [] (m !! owner row) ++ [row])%list]> m) ∅ rows.

(** [owner_nodes.sort_by(|left, right| left.node_id.cmp(&right.node_id))]. *)
Definition sort_nodes (nodes : list CommonCfgNode) : list CommonCfgNode :=
  merge_sort (fun a b => str_cmp (n_node_id a) (n_node_id b) <> Gt) nodes.

Definition cfg_families (bindings : CommonAnalysisBindings) : list string :=
  [dominator (families bindings); post_dominator (families bindings);
   control_dependence (families bindings)].

Definition cfg_fact (family subject object : string) (complete : bool) : FactRow :=
  mk_FactRow family subject (Some object) None None COMMON_CFG_ANALYSIS_RELEASE
    COMMON_CFG_PRECISION 0 complete.

Definition input_complete (input : CommonDerivedAnalysisInput) (family : CommonInputFamily) : bool :=
  from_option coverage_is_complete false (coverage input !! family).

Section cfg.
Context `{Petgraph} (bindings : CommonAnalysisBindings) (bounds : CommonAnalysisBounds)
  (cfg_coverage_complete : bool).

Abbreviation dominator := (dominator (families bindings)).
Abbreviation post_dominator := (post_dominator (families bindings)).
Abbreviation control_dependence := (control_dependence (families bindings)).

(** [for dominator in strict { state.insert_fact(..) }] *)
Definition insert_dominators (family : string) (graph : CanonicalGraph) (node : CommonCfgNode)
    (strict : list nat) (s : AnalysisState) : result AnalysisState AnalysisFault :=
  for_each strict (fun d s =>
    let? object := weight_of graph d in
    Ok (insert_fact (cfg_fact family (n_node_id node) object cfg_coverage_complete) bounds s)) s.

(** The strict dominators of one node; an unreachable node is unknown. *)
Definition dominator_rows (owner : string) (graph : CanonicalGraph)
    (index_by_id : gmap string nat) (doms : Dominators) (node : CommonCfgNode) (s : AnalysisState)
  : result AnalysisState AnalysisFault :=
  let? index := index_of index_by_id (n_node_id node) in
  match strict_dominators doms index with
  | None =>
      progress_mut dominator (add_unknown 1)
        (unknown dominator (Some (n_node_id node)) "CFG_NODE_UNREACHABLE_FROM_ENTRY" (Some owner) 0 s)
  | Some strict =>
      let? s := insert_dominators dominator graph node strict s in
      progress_mut dominator (add_completed 1) s
  end.

(** The strict post-dominators of one node, without the virtual exit. *)
Definition post_dominator_rows (owner : string) (post_graph : CanonicalGraph)
    (index_by_id : gmap string nat) (original_indices : list nat) (post_doms : Dominators)
    (node : CommonCfgNode) (s : AnalysisState) : result AnalysisState AnalysisFault :=
  let? index := index_of index_by_id (n_node_id node) in
  match strict_dominators post_doms index with
  | None =>
      progress_mut post_dominator (add_unknown 1)
        (unknown post_dominator (Some (n_node_id node)) "CFG_NODE_CANNOT_REACH_EXIT" (Some owner) 0 s)
  | Some strict =>
      let? s := insert_dominators post_dominator post_graph node
                  (filter (fun d => d ∈ original_indices) strict) s in
      progress_mut post_dominator (add_completed 1) s
  end.

(** [while let Some(current) = runner]: up the post-dominator tree from the successor. *)
Fixpoint runner_loop (fuel : nat) (post_graph : CanonicalGraph) (post_doms : Dominators)
    (virtual_exit controller : nat) (stop runner : option nat) (seen : gset nat) (s : AnalysisState)
  : result AnalysisState AnalysisFault :=
  match runner with
  | None => Ok s
  | Some current =>
      if (bool_decide (Some current = stop) || bool_decide (current = virtual_exit)
          || bool_decide (current ∈ seen))%bool
      then Ok s
      else
        match fuel with
        | O => Err OutOfFuel
        | S fuel =>
            let? subject := weight_of post_graph current in
            let? object := weight_of post_graph controller in
            runner_loop fuel post_graph post_doms virtual_exit controller stop
              (immediate_dominator post_doms current) ({[current]} ∪ seen)
              (insert_fact (cfg_fact control_dependence subject object cfg_coverage_complete) bounds s)
        end
  end.

(** The rows of one edge. *)
Definition control_dependence_rows (post_graph : CanonicalGraph) (index_by_id : gmap string nat)
    (post_doms : Dominators) (virtual_exit : nat) (edge : CommonCfgEdge) (s : AnalysisState)
  : result AnalysisState AnalysisFault :=
  let? controller := index_of index_by_id (e_source_node_id edge) in
  let? successor := index_of index_by_id (e_target_node_id edge) in
  let post_dominates_controller :=
    from_option (fun l => bool_decide (successor ∈ l)) false (dominators_of post_doms controller) in
  let? s :=
    if post_dominates_controller then Ok s
    else runner_loop (node_count post_graph) post_graph post_doms virtual_exit controller
           (immediate_dominator post_doms controller) (Some successor) ∅ s in
  progress_mut control_dependence (add_completed 1) s.

(** An owner whose entry or exits are not known: all of it is unknown. *)
Definition unknown_owner (owner : string) (entries exits nodes edges : nat) (s : AnalysisState)
  : result AnalysisState AnalysisFault :=
  let detail := "entry_count=" +:+ pretty entries +:+ " exit_count=" +:+ pretty exits in
  let s := foldl (fun s family =>
             unknown family (Some owner) "CFG_ROOT_OR_EXIT_UNKNOWN" (Some detail) 0 s)
             s (cfg_families bindings) in
  let? s := progress_mut dominator (add_unknown (u64_of_usize nodes)) s in
  let? s := progress_mut post_dominator (add_unknown (u64_of_usize nodes)) s in
  progress_mut control_dependence (add_unknown (u64_of_usize edges)) s.

(** The graph with a virtual exit after every exit. *)
Definition build_post_graph (graph : CanonicalGraph) (index_by_id : gmap string nat)
    (exits : list CommonCfgNode) : result (CanonicalGraph * nat) AnalysisFault :=
  let '(post_graph, virtual_exit) := add_node EmptyString graph in
  let? post_graph := for_each exits (fun exit post_graph =>
    let? index := index_of index_by_id (n_node_id exit) in
    Ok (add_edge index virtual_exit post_graph)) post_graph in
  Ok (post_graph, virtual_exit).

(** One owner's graph. *)
Definition derive_owner (edges_by_owner : gmap string (list CommonCfgEdge))
    (group : string * list CommonCfgNode) (s : AnalysisState) : result AnalysisState AnalysisFault :=
  let '(owner, owner_nodes) := group in
  let owner_nodes := sort_nodes owner_nodes in
  let owner_edges := default [] (edges_by_owner !! owner) in
  let entries := filter (fun node => is_entry node = true) owner_nodes in
  let exits := filter (fun node => is_exit node = true) owner_nodes in
  match entries, exits with
  | [entry], _ :: _ =>
      let? (graph, index_by_id) := build_cfg_graph owner_nodes owner_edges in
      let? root := index_of index_by_id (n_node_id entry) in
      let doms := simple_fast (node_count graph) (graph_edges graph) root in
      let? s := for_each owner_nodes (dominator_rows owner graph index_by_id doms) s in
      let? (post_graph, virtual_exit) := build_post_graph graph index_by_id exits in
      let post_doms := simple_fast (node_count post_graph) (reversed (graph_edges post_graph))
                         virtual_exit in
      let? original_indices := for_each owner_nodes (fun node indices =>
        let? index := index_of index_by_id (n_node_id node) in Ok (index :: indices)) [] in
      let? s := for_each owner_nodes
                  (post_dominator_rows owner post_graph index_by_id original_indices post_doms) s in
      for_each owner_edges
        (control_dependence_rows post_graph index_by_id post_doms virtual_exit) s
  | _, _ =>
      unknown_owner owner (length entries) (length exits) (length owner_nodes) (length owner_edges) s
  end.
End cfg.

(** A whole family group beyond its bound is unknown. *)
Definition exhaust_families (fams : list string) (reason detail : string) (s : AnalysisState)
  : result AnalysisState AnalysisFault :=
  for_each fams (fun family s =>
    progress_mut family all_unknown (unknown family None reason (Some detail) 0 s)) s.

Definition derive_cfg_families `{Petgraph} (input : CommonDerivedAnalysisInput)
    (edges : list CommonCfgEdge) (bindings : CommonAnalysisBindings) (bounds : CommonAnalysisBounds)
    (s : AnalysisState) : result AnalysisState AnalysisFault :=
  let s := extend_operations [PetgraphSimpleFastDominators; PetgraphReversedPostDominators] s in
  let nodes_by_owner := group_by_owner n_owner_id (cfg_nodes input) in
  let edges_by_owner := group_by_owner e_owner_id edges in
  let total_nodes := u64_of_usize (length (cfg_nodes input)) in
  let total_edges := u64_of_usize (length edges) in
  let s := insert_progress (dominator (families bindings)) (requesting total_nodes) s in
  let s := insert_progress (post_dominator (families bindings)) (requesting total_nodes) s in
  let s := insert_progress (control_dependence (families bindings)) (requesting total_edges) s in
  if ((max_cfg_nodes bounds <? length (cfg_nodes input))
      || (max_cfg_edges bounds <? length edges))%nat%bool
  then
    exhaust_families (cfg_families bindings) "CFG_RESOURCE_BOUND_EXHAUSTED"
      ("nodes=" +:+ pretty (length (cfg_nodes input)) +:+ " edges=" +:+ pretty (length edges)
       +:+ " node_bound=" +:+ pretty (max_cfg_nodes bounds)
       +:+ " edge_bound=" +:+ pretty (max_cfg_edges bounds)) s
  else
    for_each (iter_map nodes_by_owner)
      (derive_owner bindings bounds (input_complete input Cfg) edges_by_owner) s.

(** ** Data dependence *)

Definition data_fact (bindings : CommonAnalysisBindings) (complete : bool) (row : CommonDefUse)
  : FactRow :=
  mk_FactRow (data_dependence (families bindings)) (d_use_node_id row)
    (Some (d_definition_node_id row)) (Some (d_location_id row)) None
    COMMON_DATA_DEPENDENCE_RELEASE COMMON_DATA_DEPENDENCE_PRECISION 0 complete.

Definition derive_data_dependence (input : CommonDerivedAnalysisInput) (rows : list CommonDefUse)
    (bindings : CommonAnalysisBindings) (bounds : CommonAnalysisBounds) (s : AnalysisState)
  : AnalysisState :=
  let n := u64_of_usize (length rows) in
  let s := insert_progress (data_dependence (families bindings)) (mk_Progress n n 0 0) s in
  let coverage_complete := input_complete input DefUseReaching in
  foldl (fun s row => insert_fact (data_fact bindings coverage_complete row) bounds s) s rows.
