(* ===== verification/CommonCalls.v ===== *)
(** The call families of src/src/common_derived_analysis.rs: call graph, components, reachability,
    the bounded fixed point of callable summaries ([derive_call_families] and the functions it
    calls), the invalidation closure ([derive_invalidation]), the upstream census
    ([apply_upstream_coverage]) and the whole analysis ([analyze_common_derived]). *)

From stdpp Require Import sorting pretty.
From S2P Require Import Prelude Encoding CommonModel CommonCfg.
Local Open Scope string_scope.
Local Open Scope Z_scope.

Definition COMMON_CALL_GRAPH_RELEASE : string := "codefabric.common-call-graph.petgraph-0.8.3.v1".
Definition COMMON_CALL_GRAPH_PRECISION : string := "exact-target-edges-explicit-dynamic-remainder.v1".
Definition COMMON_INTERPROCEDURAL_RELEASE : string :=
  "codefabric.common-interprocedural.monotone-set.v1".
Definition COMMON_INTERPROCEDURAL_PRECISION : string :=
  "context-insensitive-may-effect-resource-union.v1".

(** Callables to callables: [BTreeMap<Arc<str>, BTreeSet<Arc<str>>>]. *)
Abbreviation Adjacency := (gmap string (gset string)).

(** ** The call graph *)

Definition build_call_graph (callables : gset string) (exact_calls : list (string * string * string))
  : result (CanonicalGraph * gmap string nat) AnalysisFault :=
  let '(graph, index_by_id) := foldl add_identity (empty_graph, ∅) (iter_set callables) in
  let? graph := for_each exact_calls (fun '(caller, callee, _) graph =>
    let? source := ok_or (index_by_id !! caller)
                     (Fails (InvalidInput "missing call graph caller")) in
    let? target := ok_or (index_by_id !! callee)
                     (Fails (InvalidInput "missing call graph callee")) in
    Ok (update_edge source target graph)) graph in
  Ok (graph, index_by_id).

(** [Vec<Arc<str>>::cmp]. *)
Fixpoint texts_cmp (a b : list string) : comparison :=
  match a, b with
  | [], [] => Eq
  | [], _ => Lt
  | _, [] => Gt
  | x :: a, y :: b => match str_cmp x y with Eq => texts_cmp a b | c => c end
  end.

Definition sort_texts (l : list string) : list string :=
  merge_sort (fun a b => str_cmp a b <> Gt) l.

Definition deterministic_sccs `{Petgraph} (graph : CanonicalGraph)
  : result (list (list string)) AnalysisFault :=
  let? components :=
    for_each (tarjan_scc (node_count graph) (graph_edges graph)) (fun component acc =>
      let? members := for_each component (fun index members =>
        let? w := weight_of graph index in Ok (members ++ [w])%list) [] in
      Ok (acc ++ [sort_texts members])%list) [] in
  Ok (merge_sort (fun a b => texts_cmp a b <> Gt) components).

(** [(value.len() as u64).to_be_bytes()] and the bytes of the value. *)
Definition framed (value : string) : list byte :=
  (to_be_bytes 8 (len value) ++ String.list_byte_of_string value)%list.

Section hashed.
Context (blake3_hash : list byte -> byte_array 32).

Definition b3_text (preimage : list byte) : string :=
  "b3:" +:+ hex (as_slice (blake3_hash preimage)).

Definition component_identity (component : list string) : string :=
  b3_text (String.list_byte_of_string "codefabric.common-analysis.scc.v1"
           ++ [x00] ++ concat (framed <$> component))%list.

Definition summary_identity (effects resources : gset string) (complete : bool) : string :=
  b3_text (String.list_byte_of_string "codefabric.common-analysis.callable-summary.v1"
           ++ [x00] ++ [if complete then x01 else x00]
           ++ [x65] ++ concat (framed <$> iter_set effects)
           ++ [x72] ++ concat (framed <$> iter_set resources))%list.
End hashed.

(** ** Reachability *)

(** [for callee in callees { .. }]: enqueue the callees not seen before. *)
Fixpoint visit_callees (callable : string) (distance : Z) (callees : list string)
    (distances : gmap string Z) (queue : list (string * Z)) : gmap string Z * list (string * Z) :=
  match callees with
  | [] => (distances, queue)
  | callee :: callees =>
      let next := saturating_add u32_max distance 1 in
      if (bool_decide (callee = callable) || bool_decide (is_Some (distances !! callee)))%bool
      then visit_callees callable distance callees distances queue
      else visit_callees callable distance callees (<[callee := next]> distances)
             (queue ++ [(callee, next)])%list
  end.

(** [while let Some((current, distance)) = queue.pop_front()]. *)
Fixpoint distances_loop (fuel : nat) (adjacency : gmap string (gset string)) (callable : string)
    (distances : gmap string Z) (queue : list (string * Z)) : result (gmap string Z) AnalysisFault :=
  match queue with
  | [] => Ok distances
  | (current, distance) :: queue =>
      match fuel with
      | O => Err OutOfFuel
      | S fuel =>
          match adjacency !! current with
          | None => distances_loop fuel adjacency callable distances queue
          | Some callees =>
              let '(distances, queue) :=
                visit_callees callable distance (iter_set callees) distances queue in
              distances_loop fuel adjacency callable distances queue
          end
      end
  end.

(** Every callable is dequeued at most once. *)
Definition callee_universe (adjacency : gmap string (gset string)) : gset string :=
  ⋃ (map_to_list adjacency).*2.
Definition distances_fuel (adjacency : gmap string (gset string)) : nat :=
  S (size (callee_universe adjacency)).

Definition distances_from (adjacency : gmap string (gset string)) (callable : string)
  : result (gmap string Z) AnalysisFault :=
  distances_loop (distances_fuel adjacency) adjacency callable ∅ [(callable, 0)].

Section families.
Context (blake3_hash : list byte -> byte_array 32) `{Petgraph}.
Context (bindings : CommonAnalysisBindings) (bounds : CommonAnalysisBounds).

Abbreviation fams := (families bindings).

Definition call_fact (family subject : string) (object value : option string) (distance : option Z)
    (complete : bool) : FactRow :=
  mk_FactRow family subject object value distance COMMON_CALL_GRAPH_RELEASE
    COMMON_CALL_GRAPH_PRECISION 0 complete.

(** [state.unknown(..)] and one more unknown unit of reachability. *)
Definition unreached (callable detail : string) (s : AnalysisState)
  : result AnalysisState AnalysisFault :=
  progress_mut (reachability fams) (add_unknown 1)
    (unknown (reachability fams) (Some callable) "REACHABILITY_PAIR_BOUND_EXHAUSTED" (Some detail) 0 s).

(** One callable: [(emitted_pairs, exhausted)] and the state. *)
Definition reach_callable (adjacency : gmap string (gset string)) (topology_complete : bool)
    (callable : string) (acc : Z * bool * AnalysisState)
  : result (Z * bool * AnalysisState) AnalysisFault :=
  let '(emitted_pairs, exhausted, s) := acc in
  let pair_bound := "pair_bound=" +:+ pretty (max_reachability_pairs bounds) in
  if exhausted : bool then
    let? s := unreached callable pair_bound s in Ok (emitted_pairs, true, s)
  else
    let? distances := distances_from adjacency callable in
    let observed := saturating_add u64_max emitted_pairs (Z.of_nat (size distances)) in
    if Z.of_nat (max_reachability_pairs bounds) <? observed then
      let? s := unreached callable ("observed_at_least=" +:+ pretty observed +:+ " " +:+ pair_bound) s in
      Ok (emitted_pairs, true, s)
    else
      let s := foldl (fun s '(reachable, distance) =>
                 insert_fact (call_fact (reachability fams) callable (Some reachable) None
                                (Some distance) topology_complete) bounds s)
                 s (iter_map distances) in
      let? s := progress_mut (reachability fams) (add_completed 1) s in
      Ok (wrap64 (emitted_pairs + Z.of_nat (size distances)), false, s).

Definition derive_reachability (callables : gset string) (adjacency : gmap string (gset string))
    (topology_complete : bool) (s : AnalysisState) : result AnalysisState AnalysisFault :=
  let? (_, s) := for_each (iter_set callables) (reach_callable adjacency topology_complete)
                   (0, false, s) in
  Ok s.

(** ** The schedule of the fixed point *)

(** [iter().any(f)] for a predicate that may panic. *)
Fixpoint any_ok {A E} (f : A -> result bool E) (l : list A) : result bool E :=
  match l with
  | [] => Ok false
  | x :: l => let? b := f x in if b : bool then Ok true else any_ok f l
  end.

(** [component.len() > 1 || component.iter().any(|c| c calls itself)]. *)
Definition is_recursive (calls_itself : string -> result bool AnalysisFault)
    (component : list string) : result bool AnalysisFault :=
  if (1 <? length component)%nat then Ok true else any_ok calls_itself component.

(** [order.into_iter().map(|index| group of index)]. *)
Definition groups_of {A} (group : nat -> option A) (order : list nat) : result (list A) AnalysisFault :=
  for_each order (fun index acc => let? g := expect (group index) in Ok (acc ++ [g])%list) [].

Definition fixed_point_schedule (graph : CanonicalGraph) (components : list (list string))
    (index_by_id : gmap string nat) (s : AnalysisState)
  : result (list (list string) * AnalysisState) AnalysisFault :=
  let self_edge callable :=
    let? index := index_of index_by_id callable in
    Ok (bool_decide ((index, index) ∈ graph_edges graph)) in
  let? has_cycle := any_ok (is_recursive self_edge) components in
  if has_cycle : bool then
    let s := extend_operations [PetgraphCondensationForCycles] (set_condensation s) in
    let '(condensed, condensed_edges) := condensation graph in
    let? order := ok_or (toposort (length condensed) condensed_edges)
                    (Fails (InvalidInput "petgraph condensation unexpectedly retained a cycle")) in
    let? groups := groups_of (fun index => sort_texts <$> condensed !! index) (reverse order) in
    Ok (groups, s)
  else
    let? order := ok_or (toposort (node_count graph) (graph_edges graph))
                    (Fails (InvalidInput "acyclic call graph unexpectedly contains a cycle")) in
    let? groups := groups_of (fun index => (fun w => [w]) <$> weights graph !! index) (reverse order) in
    Ok (groups, s).

(** ** The bounded fixed point *)

Record Summaries := mk_Summaries {
  sum_effects : gmap string (gset string);
  sum_resources : gmap string (gset string);
  sum_incomplete : gset string
}.

(** [for value in propagated { .. }]: the summary, whether the bound was hit, whether it changed. *)
Fixpoint absorb (values : list string) (summary : gset string) (hit changed : bool)
  : gset string * bool * bool :=
  match values with
  | [] => (summary, hit, changed)
  | value :: values =>
      if bool_decide (value ∈ summary) then absorb values summary hit changed
      else if (size summary =? max_summary_values bounds)%nat then absorb values summary true changed
      else absorb values ({[value]} ∪ summary) hit true
  end.

(** [prior.get(callee).into_iter().flatten().take(max_summary_values)]. *)
Definition propagated (prior : gmap string (gset string)) (callee : string) : list string :=
  take (max_summary_values bounds) (iter_set (default ∅ (prior !! callee))).

Definition summary_families : list string :=
  [callable_effect fams; callable_resource fams; callable_summary fams].

(** [for family in [effect, resource, summary] { state.unknown(..) }]. *)
Definition unknown_summaries (subject reason : string) (detail : option string) (iteration : Z)
    (s : AnalysisState) : AnalysisState :=
  foldl (fun s family => unknown family (Some subject) reason detail iteration s) s summary_families.

(** [set.insert(x)]: the set, and whether it grew. *)
Definition insert_new (x : string) (set : gset string) : gset string * bool :=
  ({[x]} ∪ set, negb (bool_decide (x ∈ set))).

(** One call edge of one iteration; [prior] is the state the iteration started from. *)
Definition propagate_edge (iteration : Z) (prior : Summaries) (caller callee : string)
    (acc : Summaries * bool * AnalysisState) : result (Summaries * bool * AnalysisState) AnalysisFault :=
  let '(sums, changed, s) := acc in
  let? effect_summary := expect (sum_effects sums !! caller) in
  let '(effect_summary, hit, changed) :=
    absorb (propagated (sum_effects prior) callee) effect_summary false changed in
  let? resource_summary := expect (sum_resources sums !! caller) in
  let '(resource_summary, hit, changed) :=
    absorb (propagated (sum_resources prior) callee) resource_summary hit changed in
  let incomplete := sum_incomplete sums in
  let '(incomplete, changed, s) :=
    if hit : bool then
      let '(incomplete, grew) := insert_new caller incomplete in
      (incomplete, changed || grew,
       unknown_summaries caller "SUMMARY_VALUE_BOUND_EXHAUSTED"
         (Some ("value_bound=" +:+ pretty (max_summary_values bounds))) iteration s)
    else (incomplete, changed, s) in
  let '(incomplete, changed) :=
    if bool_decide (callee ∈ sum_incomplete prior) then
      let '(incomplete, grew) := insert_new caller incomplete in (incomplete, changed || grew)
    else (incomplete, changed) in
  Ok (mk_Summaries (<[caller := effect_summary]> (sum_effects sums))
        (<[caller := resource_summary]> (sum_resources sums)) incomplete, changed, s).

Definition propagate_caller (iteration : Z) (adjacency : gmap string (gset string))
    (prior : Summaries) (caller : string) (acc : Summaries * bool * AnalysisState)
  : result (Summaries * bool * AnalysisState) AnalysisFault :=
  for_each (iter_set (default ∅ (adjacency !! caller))) (propagate_edge iteration prior caller) acc.

(** [for iteration in iteration..=max_iterations], [remaining] of them left; [true]: exhausted. *)
Fixpoint propagate_loop (remaining : nat) (iteration : Z) (schedule : list (list string))
    (adjacency : gmap string (gset string)) (sums : Summaries) (s : AnalysisState)
  : result (bool * Summaries * AnalysisState) AnalysisFault :=
  match remaining with
  | O => Ok (true, sums, s)
  | S remaining =>
      let s := set_iterations s iteration in
      let? (sums, changed, s) :=
        for_each schedule (fun group acc =>
          for_each group (propagate_caller iteration adjacency sums) acc) (sums, false, s) in
      if changed : bool then propagate_loop remaining (iteration + 1) schedule adjacency sums s
      else Ok (false, sums, s)
  end.

Definition propagate_summaries (schedule : list (list string)) (adjacency : gmap string (gset string))
    (sums : Summaries) (s : AnalysisState) : result (bool * Summaries * AnalysisState) AnalysisFault :=
  match schedule with
  | [] => Ok (false, sums, s)
  | _ => propagate_loop (max_iterations bounds) 1 schedule adjacency sums s
  end.

(** ** Incomplete callers *)

(** [for caller in callers { if set.insert(caller) { queue.push_back(caller) } }]. *)
Fixpoint visit_callers (callers : list string) (set : gset string) (queue : list string)
  : gset string * list string :=
  match callers with
  | [] => (set, queue)
  | caller :: callers =>
      if bool_decide (caller ∈ set) then visit_callers callers set queue
      else visit_callers callers ({[caller]} ∪ set) (queue ++ [caller])%list
  end.

(** [while let Some(callee) = queue.pop_front()]. *)
Fixpoint callers_loop (fuel : nat) (reverse_callers : gmap string (gset string))
    (set : gset string) (queue : list string) : result (gset string) AnalysisFault :=
  match queue with
  | [] => Ok set
  | callee :: queue =>
      match fuel with
      | O => Err OutOfFuel
      | S fuel =>
          let '(set, queue) :=
            visit_callers (iter_set (default ∅ (reverse_callers !! callee))) set queue in
          callers_loop fuel reverse_callers set queue
      end
  end.

(** Every callable is dequeued at most once. *)
Definition callers_fuel (reverse_callers : gmap string (gset string)) (queue : list string) : nat :=
  (length queue + size (callee_universe reverse_callers))%nat.

Definition propagate_incomplete_callers (reverse_callers : gmap string (gset string))
    (incomplete : gset string) : result (gset string) AnalysisFault :=
  let queue := iter_set incomplete in
  callers_loop (callers_fuel reverse_callers queue) reverse_callers incomplete queue.

(** ** The emitted summaries *)

Definition summary_fact (family subject : string) (value : string) (iteration : Z) (complete : bool)
  : FactRow :=
  mk_FactRow family subject None (Some value) None COMMON_INTERPROCEDURAL_RELEASE
    COMMON_INTERPROCEDURAL_PRECISION iteration complete.

Definition emit_callable (sums : Summaries) (incomplete : gset string) (callable : string)
    (s : AnalysisState) : result AnalysisState AnalysisFault :=
  let callable_incomplete := bool_decide (callable ∈ incomplete) in
  let? effects := expect (sum_effects sums !! callable) in
  let? resources := expect (sum_resources sums !! callable) in
  let s := if callable_incomplete
           then unknown_summaries callable "TRANSITIVE_SUMMARY_INCOMPLETE" None (iterations s) s
           else s in
  let emit family s value :=
    insert_fact (summary_fact family callable value (iterations s) (negb callable_incomplete)) bounds s in
  let s := foldl (emit (callable_effect fams)) s (iter_set effects) in
  let s := foldl (emit (callable_resource fams)) s (iter_set resources) in
  let s := emit (callable_summary fams) s
             (summary_identity blake3_hash effects resources (negb callable_incomplete)) in
  for_each summary_families (fun family =>
    progress_mut family (if callable_incomplete then add_unknown 1 else add_completed 1)) s.

Definition emit_callable_summaries (callables : gset string) (sums : Summaries)
    (incomplete : gset string) (s : AnalysisState) : result AnalysisState AnalysisFault :=
  for_each (iter_set callables) (emit_callable sums incomplete) s.

(** ** All call families *)

Definition is_exact (call : CommonCallSite) : bool :=
  match resolution call with Exact _ => true | _ => false end.

Definition callables_of (input : CommonDerivedAnalysisInput) : gset string :=
  foldl (fun acc call =>
    let acc := {[caller_id call]} ∪ acc in
    match resolution call with Exact callee => {[callee]} ∪ acc | _ => acc end)
    (foldl (fun acc local => {[l_callable_id local]} ∪ acc) ∅ (local_semantics input))
    (calls input).

Definition call_families : list string :=
  [call_graph fams; scc_membership fams; reachability fams; callable_effect fams;
   callable_resource fams; callable_summary fams].

(** The requested units of every call family. *)
Definition request_call_families (call_count callable_count unresolved_count : Z) (s : AnalysisState)
  : AnalysisState :=
  let s := insert_progress (call_graph fams) (requesting call_count) s in
  let s := foldl (fun s family =>
             insert_progress family
               (requesting (saturating_add u64_max callable_count unresolved_count)) s)
             s [scc_membership fams; reachability fams] in
  foldl (fun s family => insert_progress family (requesting callable_count) s) s summary_families.

(** [map.get_mut(key).expect(..).insert(value)]. *)
Definition insert_neighbour (key value : string) (m : Adjacency) : result Adjacency AnalysisFault :=
  let? set := expect (m !! key) in Ok (<[key := {[value]} ∪ set]> m).

Definition record_call (call : string * string * string) (acc : Adjacency * Adjacency * AnalysisState)
  : result (Adjacency * Adjacency * AnalysisState) AnalysisFault :=
  let '(caller, callee, call_site) := call in
  let '(adjacency, reverse_callers, s) := acc in
  let? adjacency := insert_neighbour caller callee adjacency in
  let? reverse_callers := insert_neighbour callee caller reverse_callers in
  let s := insert_fact (call_fact (call_graph fams) caller (Some callee) (Some call_site) None true)
             bounds s in
  let? s := progress_mut (call_graph fams) (add_completed 1) s in
  Ok (adjacency, reverse_callers, s).

(** A call whose target is not exact leaves its caller incomplete. *)
Definition record_gap (call : CommonCallSite) (acc : gset string * AnalysisState)
  : result (gset string * AnalysisState) AnalysisFault :=
  let '(incomplete, s) := acc in
  let gap (reason detail : string) : result (gset string * AnalysisState) AnalysisFault :=
    let s := unknown (call_graph fams) (Some (call_site_id call)) reason (Some detail) 0 s in
    let? s := progress_mut (call_graph fams) (add_unknown 1) s in
    let? s := for_each [scc_membership fams; reachability fams] (fun family s =>
                progress_mut family (add_unknown 1)
                  (unknown family (Some (call_site_id call)) reason
                     (Some "call topology is incomplete") 0 s)) s in
    Ok ({[caller_id call]} ∪ incomplete, s) in
  match resolution call with
  | Exact _ => Ok acc
  | Dynamic reason => gap "DYNAMIC_DISPATCH_TARGET_UNKNOWN" reason
  | Unknown reason => gap reason reason
  end.

(** The members of one component; a recursive one leaves them incomplete. *)
Definition record_component (adjacency : Adjacency) (topology_complete : bool)
    (component : list string) (acc : gset string * AnalysisState)
  : result (gset string * AnalysisState) AnalysisFault :=
  let component_id := component_identity blake3_hash component in
  let? recursive := is_recursive (fun callable =>
    Ok (bool_decide (callable ∈ default ∅ (adjacency !! callable)))) component in
  for_each component (fun callable '(incomplete, s) =>
    let s := insert_fact (call_fact (scc_membership fams) callable (Some component_id) None None
                            topology_complete) bounds s in
    let? s := progress_mut (scc_membership fams) (add_completed 1) s in
    if recursive : bool
    then Ok ({[callable]} ∪ incomplete,
             unknown_summaries callable "RECURSIVE_SCC" (Some component_id) 0 s)
    else Ok (incomplete, s)) acc.

(** [effects.iter().take(max_summary_values).cloned().collect()]. *)
Definition seeded (values : gset string) : gset string :=
  list_to_set (take (max_summary_values bounds) (iter_set values)).

(** The local seeds of one callable. *)
Definition seed_callable (locals : gmap string CommonCallableLocalSemantics) (callable : string)
    (acc : Summaries * AnalysisState) : Summaries * AnalysisState :=
  let '(sums, s) := acc in
  match locals !! callable with
  | Some local =>
      let hit := ((max_summary_values bounds <? size (l_effects local))
                  || (max_summary_values bounds <? size (l_resources local)))%nat%bool in
      (mk_Summaries (<[callable := seeded (l_effects local)]> (sum_effects sums))
         (<[callable := seeded (l_resources local)]> (sum_resources sums))
         (if hit then {[callable]} ∪ sum_incomplete sums else sum_incomplete sums),
       if hit
       then unknown_summaries callable "SUMMARY_VALUE_BOUND_EXHAUSTED"
              (Some ("local_effect_count=" +:+ pretty (size (l_effects local))
                     +:+ " local_resource_count=" +:+ pretty (size (l_resources local))
                     +:+ " value_bound=" +:+ pretty (max_summary_values bounds))) 0 s
       else s)
  | None =>
      (mk_Summaries (<[callable := ∅]> (sum_effects sums)) (<[callable := ∅]> (sum_resources sums))
         ({[callable]} ∪ sum_incomplete sums),
       unknown_summaries callable "CALLABLE_LOCAL_SEMANTICS_MISSING" None 0 s)
  end.

Definition locals_of (input : CommonDerivedAnalysisInput) : gmap string CommonCallableLocalSemantics :=
  foldl (fun m local => <[l_callable_id local := local]> m) ∅ (local_semantics input).

(** The call graph, its components and reachability: adjacency, callers and incomplete callables. *)
Definition derive_topology (input : CommonDerivedAnalysisInput)
    (exact_calls : list (string * string * string)) (callables : gset string)
    (topology_complete : bool) (graph : CanonicalGraph) (s : AnalysisState)
  : result (Adjacency * Adjacency * gset string * list (list string) * AnalysisState) AnalysisFault :=
  let? (adjacency, reverse_callers, s) :=
    for_each exact_calls record_call (gset_to_gmap ∅ callables, gset_to_gmap ∅ callables, s) in
  let? (incomplete, s) := for_each (calls input) record_gap (∅, s) in
  let incomplete :=
    if (negb (input_complete input CallTargets) || negb (input_complete input LocalEffectResource))%bool
    then callables ∪ incomplete else incomplete in
  let? components := deterministic_sccs graph in
  let? (incomplete, s) :=
    for_each components (record_component adjacency topology_complete) (incomplete, s) in
  let? s := derive_reachability callables adjacency topology_complete s in
  Ok (adjacency, reverse_callers, incomplete, components, s).

(** When the iterations ran out, every callable is incomplete. *)
Definition exhaust_iterations (callables : gset string) (acc : gset string * AnalysisState)
  : gset string * AnalysisState :=
  foldl (fun '(incomplete, s) callable =>
    ({[callable]} ∪ incomplete,
     unknown_summaries callable "FIXED_POINT_CONVERGENCE_EXHAUSTED"
       (Some ("iteration_bound=" +:+ pretty (max_iterations bounds))) (iterations s) s))
    acc (iter_set callables).

(** The summaries of every callable, from the local seeds to the emitted rows. *)
Definition derive_summaries (input : CommonDerivedAnalysisInput) (callables : gset string)
    (graph : CanonicalGraph) (index_by_id : gmap string nat) (components : list (list string))
    (adjacency reverse_callers : Adjacency) (incomplete : gset string) (s : AnalysisState)
  : result AnalysisState AnalysisFault :=
  let '(sums, s) := foldl (fun acc callable => seed_callable (locals_of input) callable acc)
                      (mk_Summaries ∅ ∅ incomplete, s) (iter_set callables) in
  let? (schedule, s) := fixed_point_schedule graph components index_by_id s in
  let? (exhausted, sums, s) := propagate_summaries schedule adjacency sums s in
  let '(incomplete, s) :=
    if exhausted : bool then exhaust_iterations callables (sum_incomplete sums, s)
    else (sum_incomplete sums, s) in
  let? incomplete := propagate_incomplete_callers reverse_callers incomplete in
  emit_callable_summaries callables sums incomplete s.

(** The state, and the callers of every callable. *)
Definition derive_call_families (input : CommonDerivedAnalysisInput)
    (exact_calls : list (string * string * string)) (s : AnalysisState)
  : result (Adjacency * AnalysisState) AnalysisFault :=
  let s := extend_operations [PetgraphTarjanScc; PetgraphTopologicalSchedule; BoundedReachability;
                              MonotoneSetUnionFixedPoint] s in
  let callables := callables_of input in
  let callable_count := u64_of_usize (size callables) in
  let call_count := u64_of_usize (length (calls input)) in
  let unresolved_count :=
    u64_of_usize (length (filter (fun call => is_exact call = false) (calls input))) in
  let topology_complete := (unresolved_count =? 0) && input_complete input CallTargets in
  let s := request_call_families call_count callable_count unresolved_count s in
  if ((max_callables bounds <? size callables)
      || (max_call_sites bounds <? length (calls input)))%nat%bool
  then
    let? s := exhaust_families call_families "CALL_GRAPH_RESOURCE_BOUND_EXHAUSTED"
      ("callables=" +:+ pretty (size callables)
       +:+ " call_sites=" +:+ pretty (length (calls input))
       +:+ " callable_bound=" +:+ pretty (max_callables bounds)
       +:+ " call_site_bound=" +:+ pretty (max_call_sites bounds)) s in
    Ok (∅, s)
  else
    let? (graph, index_by_id) := build_call_graph callables exact_calls in
    let? (adjacency, reverse_callers, incomplete, components, s) :=
      derive_topology input exact_calls callables topology_complete graph s in
    let? s := derive_summaries input callables graph index_by_id components adjacency
                reverse_callers incomplete s in
    Ok (reverse_callers, s).

(** ** Invalidation *)

Definition invalidate (fams : list string) (kind scope cause : string) (s : AnalysisState)
  : AnalysisState :=
  foldl (fun s family =>
    set_invalidation s ({[mk_InvalidationRow family kind scope cause]} ∪ invalidation s)) s fams.

Definition invalidate_scope (reverse_callers : Adjacency) (scope : CommonChangedScope)
    (s : AnalysisState) : result AnalysisState AnalysisFault :=
  match scope with
  | Owner owner =>
      Ok (invalidate [dominator fams; post_dominator fams; control_dependence fams;
                      data_dependence fams] "owner" owner "OWNER_INPUT_CHANGED" s)
  | Module_ module => Ok (invalidate call_families "module" module "MODULE_INPUT_CHANGED" s)
  | Callable callable =>
      let? affected := callers_loop (callers_fuel reverse_callers [callable]) reverse_callers
                         {[callable]} [callable] in
      Ok (foldl (fun s affected_callable =>
            invalidate summary_families "callable" affected_callable
              "TRANSITIVE_CALLEE_INPUT_CHANGED" s) s (iter_set affected))
  end.

(** The rows are a set: the order of the scopes does not show. *)
Definition derive_invalidation (input : CommonDerivedAnalysisInput) (reverse_callers : Adjacency)
    (s : AnalysisState) : result AnalysisState AnalysisFault :=
  for_each (elements (changed_scopes input)) (invalidate_scope reverse_callers) s.

(** ** The census of the inputs *)

Definition derived_families (input_family : CommonInputFamily) : list string :=
  match input_family with
  | Cfg => cfg_families bindings
  | DefUseReaching => [data_dependence fams]
  | CallTargets => call_families
  | LocalEffectResource => summary_families
  end.

(** [format!("{input_family:?}")]. *)
Definition input_family_debug (f : CommonInputFamily) : string :=
  match f with
  | Cfg => "Cfg" | DefUseReaching => "DefUseReaching" | CallTargets => "CallTargets"
  | LocalEffectResource => "LocalEffectResource"
  end.

Definition add_gap (row : CommonInputCoverage) (p : Progress) : Progress :=
  let gap := saturating_add u64_max (remainder_units row) (unknown_units row) in
  mk_Progress (saturating_add u64_max (requested p) gap) (completed p)
    (saturating_add u64_max (remainder p) (remainder_units row))
    (saturating_add u64_max (unknown_ p) (unknown_units row)).

Definition apply_family_coverage (input : CommonDerivedAnalysisInput)
    (input_family : CommonInputFamily) (s : AnalysisState) : result AnalysisState AnalysisFault :=
  let? row := ok_or (coverage input !! input_family) (Fails (MissingCoverage input_family)) in
  if coverage_is_complete row then Ok s
  else
    let detail := "input_family=" +:+ input_family_debug input_family
                  +:+ " remainder=" +:+ pretty (remainder_units row)
                  +:+ " unknown=" +:+ pretty (unknown_units row)
                  +:+ " proof=" +:+ hex (as_slice (execution_proof_pin row)) in
    for_each (derived_families input_family) (fun family s =>
      progress_mut family (add_gap row)
        (unknown family None "UPSTREAM_INPUT_INCOMPLETE" (Some detail) (iterations s) s)) s.

Definition apply_upstream_coverage (input : CommonDerivedAnalysisInput) (s : AnalysisState)
  : result AnalysisState AnalysisFault :=
  for_each input_families (apply_family_coverage input) s.

(** ** The analysis *)

(** A family whose rows were dropped is accounted as one more unknown unit. *)
Definition report_exhausted (family : string) (s : AnalysisState) : AnalysisState :=
  let s := unknown family None "OUTPUT_ROW_BOUND_EXHAUSTED"
             (Some "semantic fact output exceeded the configured row bound") (iterations s) s in
  let p := default Progress_default (progress s !! family) in
  insert_progress family
    (mk_Progress (saturating_add u64_max (requested p) 1) (completed p) (remainder p)
       (saturating_add u64_max (unknown_ p) 1)) s.

(** The function up to its four output relations: the state after every derivation, from which they are
    written and sorted. *)
Definition analyze_common_derived `{RelationalStage} (input : CommonDerivedAnalysisInput)
  : result AnalysisState AnalysisFault :=
  let? _ := failing (bindings_validate bindings) in
  let? _ := failing (validate_provenance (provenance input)) in
  let? _ := failing (validate_input input) in
  let? _ := failing (validate_coverage (coverage input)) in
  let s := extend_operations [DataFusionProjection; DataFusionDistinct; DataFusionDeterministicSort;
                              PetgraphGraphExternalIdMap] AnalysisState_default in
  let s := foldl (fun s family => insert_progress family Progress_default s) s (families_all fams) in
  let? staged := failing (normalize_stage input) in
  let? (cfg_edges, data_rows, exact_calls) := failing (split_stage staged) in
  let? s := derive_cfg_families input cfg_edges bindings bounds s in
  let s := derive_data_dependence input data_rows bindings bounds s in
  let? (reverse_callers, s) := derive_call_families input exact_calls s in
  let? s := derive_invalidation input reverse_callers s in
  let? s := apply_upstream_coverage input s in
  Ok (foldl (fun s family => report_exhausted family s) s (iter_set (output_exhausted_families s))).

(** [state.invalidation.iter().filter(..).map(..).collect()]. *)
Definition invalidated_callables (s : AnalysisState) : gset string :=
  list_to_set (i_scope_id <$> filter (fun row => i_scope_kind row = "callable")
                                (elements (invalidation s))).
End families.
