(* ===== verification/CommonTheory.v ===== *)
(** Shared lemmas of the common derived analysis: ordered iteration, what validation establishes,
    the staged relations, and how the state evolves (rows, census accounts). *)

From stdpp Require Import sorting.
From S2P Require Import Prelude Encoding CommonModel CommonCfg CommonCalls.
Local Open Scope Z_scope.

(** ** Ordered iteration *)

Lemma iter_set_perm s : iter_set s ≡ₚ elements s.
Proof. apply merge_sort_Permutation. Qed.

Lemma elem_of_iter_set x s : x ∈ iter_set s <-> x ∈ s.
Proof. by rewrite iter_set_perm, elem_of_elements. Qed.

Lemma NoDup_iter_set s : NoDup (iter_set s).
Proof. rewrite iter_set_perm. apply NoDup_elements. Qed.

Lemma length_iter_set s : length (iter_set s) = size s.
Proof. by rewrite iter_set_perm. Qed.

Lemma list_to_set_iter_set (s : gset string) : list_to_set (iter_set s) = s.
Proof. apply set_eq. intros x. by rewrite elem_of_list_to_set, elem_of_iter_set. Qed.

Lemma iter_map_perm {A} (m : gmap string A) : iter_map m ≡ₚ map_to_list m.
Proof. apply merge_sort_Permutation. Qed.

Lemma elem_of_iter_map {A} (m : gmap string A) k x : (k, x) ∈ iter_map m <-> m !! k = Some x.
Proof. by rewrite iter_map_perm, elem_of_map_to_list. Qed.

Lemma NoDup_iter_map {A} (m : gmap string A) : NoDup (iter_map m).*1.
Proof. rewrite iter_map_perm. apply NoDup_fst_map_to_list. Qed.

(** Elements of a list keyed by [f] are determined by their key. *)
Lemma NoDup_fmap_elem {A B} (f : A -> B) (l : list A) x y :
  NoDup (f <$> l) -> x ∈ l -> y ∈ l -> f x = f y -> x = y.
Proof.
  intros Hnd [i Hi]%list_elem_of_lookup [j Hj]%list_elem_of_lookup Hf.
  assert (i = j) as ->; [|congruence].
  eapply (NoDup_lookup _ i j _ Hnd); rewrite list_lookup_fmap; [by rewrite Hi|by rewrite Hj, Hf].
Qed.

(** ** Loops that succeeded *)

Lemma for_each_Ok_ind {A S E} (I : list A -> S -> Prop) (f : A -> S -> result S E) l s s' :
  I [] s ->
  (forall done x s1 s2, I done s1 -> f x s1 = Ok s2 -> I (done ++ [x]) s2) ->
  for_each l f s = Ok s' -> I l s'.
Proof.
  intros Hinit Hstep. enough (forall todo done s1, I done s1 -> for_each todo f s1 = Ok s' ->
                        I (done ++ todo) s') as H by exact (H l [] s Hinit).
  induction todo as [|x todo IH]; intros done s1 HI; simpl.
  - intros [= <-]. by rewrite app_nil_r.
  - destruct (f x s1) as [s2|] eqn:Ef; [|done]. intros H.
    replace (done ++ x :: todo)%list with ((done ++ [x]) ++ todo)%list by by rewrite <- app_assoc.
    eapply IH; eauto.
Qed.

(** A loop that only checks: the check passed on every element. *)
Lemma for_each_check {A E} (f : A -> unit -> result unit E) l u :
  for_each l f tt = Ok u -> forall x, x ∈ l -> f x tt = Ok tt.
Proof.
  apply (for_each_Ok_ind (fun done (_ : unit) => forall x, x ∈ done -> f x tt = Ok tt)).
  - intros x []%elem_of_nil.
  - intros done x [] [] IH Hx y [Hy| ->%list_elem_of_singleton]%elem_of_app; auto.
Qed.

(** A loop over an infallible body is a fold. *)
Lemma for_each_foldl {A S E} (f : A -> S -> S) (l : list A) (s : S) :
  for_each (E:=E) l (fun x s => Ok (f x s)) s = Ok (foldl (fun s x => f x s) s l).
Proof. revert s. induction l as [|x l IH]; intros s; simpl; auto. Qed.

Lemma for_each_app {A S E} (f : A -> S -> result S E) l1 l2 s :
  for_each (l1 ++ l2) f s = let? s := for_each l1 f s in for_each l2 f s.
Proof. revert s. induction l1 as [|x l1 IH]; intros s; simpl; [done|]. destruct (f x s); auto. Qed.

(** A loop that only fills a set with fresh keys: the keys are distinct, and the set has them. *)
Lemma for_each_unique {A K E} `{Countable K} (key : A -> K) (f : A -> gset K -> result (gset K) E) l s' :
  (forall x s1 s2, f x s1 = Ok s2 -> (key x ∉ s1) /\ s2 = ({[key x]} ∪ s1)) ->
  for_each l f ∅ = Ok s' -> NoDup (key <$> l) /\ s' = list_to_set (key <$> l).
Proof.
  intros Hf. apply (for_each_Ok_ind
    (fun done s => NoDup (key <$> done) /\ s = list_to_set (key <$> done))).
  - split; [constructor|done].
  - intros done x s1 s2 [Hnd ->] [Hx ->]%Hf. rewrite fmap_app. split.
    + apply NoDup_app. split; [done|]. split; [|apply NoDup_singleton].
      intros y Hy ->%list_elem_of_singleton. apply Hx. by apply elem_of_list_to_set.
    + rewrite list_to_set_app_L. simpl. set_solver.
Qed.

(** ** What validation establishes *)

Lemma validate_text_non_empty kind v u : validate_text kind v = Ok u -> v <> EmptyString.
Proof. unfold validate_text. intros H ->. by vm_compute in H. Qed.

Lemma insert_unique_Ok check dup x s1 s2 :
  insert_unique check dup x s1 = Ok s2 -> (x ∉ s1) /\ s2 = ({[x]} ∪ s1).
Proof. unfold insert_unique. destruct (check x); [|done]. case_bool_decide; [done|]. by intros [= <-]. Qed.

Lemma bindings_validate_families b u :
  bindings_validate b = Ok u -> NoDup (families_all (families b)).
Proof.
  unfold bindings_validate. intros H.
  destruct (for_each (relations_all _) _ _); [|done].
  destruct (for_each (fields_all _) _ _); [|done].
  destruct (for_each (families_all _) _ _) as [s'|] eqn:Hf; [|done].
  apply (for_each_unique id) in Hf as [Hnd _]; [by rewrite list_fmap_id in Hnd|].
  intros x s1 s2 Hx. by apply insert_unique_Ok in Hx.
Qed.

Definition call_target (call : CommonCallSite) : string * string * string :=
  match resolution call with
  | Exact v => (call_site_id call, "exact"%string, v)
  | Dynamic v => (call_site_id call, "dynamic"%string, v)
  | Unknown v => (call_site_id call, "unknown"%string, v)
  end.

(** The input relations are keyed: nodes by owner and identity, call targets by site, locals by
    callable; edges stay inside their owner, a site has one caller, and no node is nameless. *)
Record valid_input (input : CommonDerivedAnalysisInput) : Prop := {
  nodes_unique : NoDup ((fun n => (n_owner_id n, n_node_id n)) <$> cfg_nodes input);
  nodes_named : forall n, n ∈ cfg_nodes input -> n_node_id n <> EmptyString;
  edges_inside : forall e, e ∈ cfg_edges input ->
    (e_owner_id e, e_source_node_id e) ∈ ((fun n => (n_owner_id n, n_node_id n)) <$> cfg_nodes input) /\
    (e_owner_id e, e_target_node_id e) ∈ ((fun n => (n_owner_id n, n_node_id n)) <$> cfg_nodes input);
  targets_unique : NoDup (call_target <$> calls input);
  site_caller : forall c1 c2, c1 ∈ calls input -> c2 ∈ calls input ->
    call_site_id c1 = call_site_id c2 -> caller_id c1 = caller_id c2;
  locals_unique : NoDup (l_callable_id <$> local_semantics input)
}.

Lemma validate_cfg_node_Ok n s1 s2 :
  validate_cfg_node n s1 = Ok s2 ->
  n_node_id n <> EmptyString /\
  ((n_owner_id n, n_node_id n) ∉ s1) /\ s2 = ({[(n_owner_id n, n_node_id n)]} ∪ s1).
Proof.
  unfold validate_cfg_node. destruct (validate_text "owner" _); [|done].
  destruct (validate_text "CFG node" _) eqn:Ht; [|done]. apply validate_text_non_empty in Ht.
  case_bool_decide; [done|]. by intros [= <-].
Qed.

Lemma validate_cfg_edge_Ok nodes e u :
  validate_cfg_edge nodes e tt = Ok u ->
  (e_owner_id e, e_source_node_id e) ∈ nodes /\ (e_owner_id e, e_target_node_id e) ∈ nodes.
Proof.
  unfold validate_cfg_edge. do 3 (destruct (validate_text _ _); [|done]).
  destruct (_ || _)%bool eqn:Hc; [done|]. by zify_bool.
Qed.

(** The call loop: distinct targets, and the map holds the caller of every site seen. *)
Definition calls_seen (done : list CommonCallSite)
    (s : gmap string string * gset (string * string * string)) : Prop :=
  NoDup (call_target <$> done) /\ s.2 = list_to_set (call_target <$> done) /\
  (forall c, c ∈ done -> s.1 !! call_site_id c = Some (caller_id c)).

Lemma validate_call_Ok done c s1 s2 :
  calls_seen done s1 -> validate_call c s1 = Ok s2 -> calls_seen (done ++ [c]) s2.
Proof.
  destruct s1 as [m t]. intros (Hnd & Ht & Hm). simpl in *. unfold validate_call.
  do 2 (destruct (validate_text _ _); [|done]).
  destruct (match m !! call_site_id c with Some _ => _ | None => _ end) eqn:Hc; [|done].
  assert (forall c', c' ∈ done -> call_site_id c' = call_site_id c -> caller_id c' = caller_id c)
    as Hsame.
  { intros c' Hc' Hid. rewrite <- Hid, (Hm c' Hc') in Hc. by case_bool_decide. }
  destruct (validate_resolution (resolution c)) as [[kind v]|] eqn:Hr; [|done].
  assert (call_target c = (call_site_id c, kind, v)) as <-.
  { unfold validate_resolution, call_target in *. by destruct (resolution c); inv_ok Hr. }
  case_bool_decide as Hin; [done|]. intros [= <-]. split; [|split]; simpl.
  - rewrite fmap_app. apply NoDup_app. split; [done|]. split; [|apply NoDup_singleton].
    intros y Hy ->%list_elem_of_singleton. apply Hin. rewrite Ht. by apply elem_of_list_to_set.
  - rewrite Ht, fmap_app, list_to_set_app_L. simpl. set_solver.
  - intros c' [Hc'| ->%list_elem_of_singleton]%elem_of_app; [|by rewrite lookup_insert_eq].
    destruct (decide (call_site_id c' = call_site_id c)) as [Hid|Hid].
    + rewrite Hid, lookup_insert_eq. f_equal. by rewrite (Hsame c').
    + rewrite lookup_insert_ne by done. auto.
Qed.

Lemma validate_local_Ok l s1 s2 :
  validate_local l s1 = Ok s2 -> (l_callable_id l ∉ s1) /\ s2 = ({[l_callable_id l]} ∪ s1).
Proof.
  unfold validate_local. destruct (for_each [_; _; _] _ _); [|done]. intros H.
  repeat (split_match H; try done). simplify_eq. by zify_bool.
Qed.

Lemma validate_input_valid input u : validate_input input = Ok u -> valid_input input.
Proof.
  unfold validate_input. intros H.
  destruct (for_each (cfg_nodes input) _ _) as [nodes|] eqn:Hn; [|done].
  destruct (for_each (cfg_edges input) _ _) eqn:He; [|done].
  destruct (for_each (def_use_reaching input) _ _) eqn:Hd; [|done].
  destruct (for_each (calls input) _ _) as [s|] eqn:Hc; [|done].
  destruct (for_each (local_semantics input) _ _) eqn:Hl; [|done].
  assert (forall n, n ∈ cfg_nodes input -> n_node_id n <> EmptyString) as Hnamed.
  { revert Hn. apply (for_each_Ok_ind
      (fun done _ => forall n, n ∈ done -> n_node_id n <> EmptyString)).
    - intros n []%elem_of_nil.
    - intros done n s1 s2 IH Hn%validate_cfg_node_Ok m [Hm| ->%list_elem_of_singleton]%elem_of_app;
        [auto|tauto]. }
  apply (for_each_unique (fun n => (n_owner_id n, n_node_id n))) in Hn as [Hnd ->];
    [|intros x s1 s2 Hx%validate_cfg_node_Ok; tauto].
  assert (calls_seen (calls input) s) as (Hct & _ & Hm).
  { revert Hc. apply for_each_Ok_ind; [|apply validate_call_Ok]. split; [constructor|].
    split; [done|]. intros c []%elem_of_nil. }
  apply (for_each_unique l_callable_id) in Hl as [Hln _].
  2:{ apply validate_local_Ok. }
  split; [done|done| |done| |done].
  - intros e He'. pose proof (for_each_check _ _ _ He e He') as [H1 H2]%validate_cfg_edge_Ok.
    by rewrite !elem_of_list_to_set in *.
  - intros c1 c2 H1 H2 Hid. apply Hm in H1, H2. rewrite Hid in H1. congruence.
Qed.

(** ** The staged relations *)

(** The exact calls of the input: caller, callee and site. *)
Definition exact_call (input : CommonDerivedAnalysisInput) (call : string * string * string) : Prop :=
  exists c, c ∈ calls input /\ resolution c = Exact call.1.2 /\
    caller_id c = call.1.1 /\ call_site_id c = call.2.

Definition exact_call_of (c : CommonCallSite) : option (string * string * string) :=
  match resolution c with
  | Exact callee => Some (caller_id c, callee, call_site_id c)
  | _ => None
  end.

Lemma elem_of_exact_calls input call :
  call ∈ omap exact_call_of (calls input) <-> exact_call input call.
Proof.
  destruct call as [[a b] site]. unfold exact_call, exact_call_of. rewrite list_elem_of_omap. simpl.
  split.
  - intros (c & Hc & Hx). exists c. destruct (resolution c); naive_solver.
  - intros (c & Hc & Hr & <- & <-). exists c. by rewrite Hr.
Qed.

Definition cfg_of_row (row : NormalizedStageRow) : option CommonCfgEdge :=
  if bool_decide (s_kind row = STAGE_CFG)
  then Some (mk_CommonCfgEdge (s_scope row) (s_source row) (s_target row)) else None.
Definition data_of_row (row : NormalizedStageRow) : option CommonDefUse :=
  if bool_decide (s_kind row = STAGE_DATA)
  then (fun v => mk_CommonDefUse (s_scope row) (s_source row) (s_target row) v) <$> s_value row
  else None.
Definition call_of_row (row : NormalizedStageRow) : option (string * string * string) :=
  if bool_decide (s_kind row = STAGE_CALL)
  then (fun v => (s_source row, s_target row, v)) <$> s_value row else None.

Lemma elem_of_stage_rows input row :
  row ∈ stage_rows input <->
  (exists e, e ∈ cfg_edges input /\ row = stage_of_cfg_edge e) \/
  (exists d, d ∈ def_use_reaching input /\ row = stage_of_def_use d) \/
  (exists a b site, exact_call input (a, b, site) /\
     row = mk_NormalizedStageRow STAGE_CALL "call-graph" a b (Some site)).
Proof.
  unfold stage_rows. rewrite !elem_of_app, !list_elem_of_fmap, list_elem_of_omap.
  assert ((exists c, c ∈ calls input /\ stage_of_call c = Some row) <->
          (exists a b site, exact_call input (a, b, site) /\
             row = mk_NormalizedStageRow STAGE_CALL "call-graph" a b (Some site))) as ->;
    [|naive_solver].
  unfold stage_of_call, exact_call. simpl. split.
  - intros (c & Hc & Hr). destruct (resolution c) as [b| |] eqn:E; naive_solver.
  - intros (a & b & site & (c & Hc & Hr & <- & <-) & ->). exists c. by rewrite Hr.
Qed.

(** Every staged row belongs to exactly one relation. *)
Definition well_staged (row : NormalizedStageRow) : Prop :=
  (exists e, cfg_of_row row = Some e /\ data_of_row row = None /\ call_of_row row = None) \/
  (exists d, cfg_of_row row = None /\ data_of_row row = Some d /\ call_of_row row = None) \/
  (exists c, cfg_of_row row = None /\ data_of_row row = None /\ call_of_row row = Some c).

Lemma stage_rows_well_staged input row : row ∈ stage_rows input -> well_staged row.
Proof.
  intros [(e & _ & ->)|[(d & _ & ->)|(a & b & site & _ & ->)]]%elem_of_stage_rows;
    unfold well_staged, cfg_of_row, data_of_row, call_of_row; simpl; naive_solver.
Qed.

Lemma split_row_staged row cfg data calls :
  well_staged row ->
  split_row row (cfg, data, calls)
  = Ok (cfg ++ omap cfg_of_row [row], data ++ omap data_of_row [row],
        calls ++ omap call_of_row [row])%list.
Proof.
  unfold well_staged, split_row, cfg_of_row, data_of_row, call_of_row. simpl. intros Hw.
  repeat case_bool_decide; destruct (s_value row); simpl in *; rewrite ?app_nil_r; naive_solver.
Qed.

Lemma split_stage_staged rows :
  Forall well_staged rows ->
  split_stage rows = Ok (omap cfg_of_row rows, omap data_of_row rows, omap call_of_row rows).
Proof.
  intros Hrows. unfold split_stage.
  enough (forall cfg data calls, for_each rows split_row (cfg, data, calls)
    = Ok (cfg ++ omap cfg_of_row rows, data ++ omap data_of_row rows,
          calls ++ omap call_of_row rows)%list) as H by apply H.
  induction Hrows as [|row rows Hrow _ IH]; intros cfg data calls; [by rewrite !app_nil_r|].
  cbn [for_each]. rewrite split_row_staged by done. rewrite IH.
  change (row :: rows) with ([row] ++ rows)%list. by rewrite !omap_app, <- !app_assoc.
Qed.

Lemma NoDup_omap {A B} (f : A -> option B) l :
  (forall x y z, x ∈ l -> y ∈ l -> f x = Some z -> f y = Some z -> x = y) ->
  NoDup l -> NoDup (omap f l).
Proof.
  induction l as [|x l IH]; intros Hinj; [constructor|]. intros [Hx Hnd]%NoDup_cons. simpl.
  assert (NoDup (omap f l)) as IHl by (apply IH; set_solver).
  destruct (f x) as [z|] eqn:Ez; [|done]. constructor; [|done].
  intros (y & Hy & Hz)%list_elem_of_omap. apply Hx.
  by rewrite (Hinj x y z) by set_solver.
Qed.

Lemma exact_calls_NoDup input :
  valid_input input -> NoDup (omap exact_call_of (calls input)).
Proof.
  intros Hv. apply NoDup_omap; [|apply (NoDup_fmap_1 call_target), (targets_unique _ Hv)].
  intros x y [[a b] site] Hx Hy Ex Ey.
  assert (call_target x = call_target y) as Ht.
  { unfold exact_call_of, call_target in *. destruct (resolution x), (resolution y); congruence. }
  by apply (NoDup_fmap_elem call_target (calls input)); [apply (targets_unique _ Hv)| | |].
Qed.

(** The split relations: the input relations without duplicates. *)
Record staged_ok (input : CommonDerivedAnalysisInput) (cfg : list CommonCfgEdge)
    (data : list CommonDefUse) (exact : list (string * string * string)) : Prop := {
  staged_cfg_NoDup : NoDup cfg;
  staged_cfg : forall e, e ∈ cfg <-> e ∈ cfg_edges input;
  staged_data_NoDup : NoDup data;
  staged_data : forall d, d ∈ data <-> d ∈ def_use_reaching input;
  staged_calls : exact ≡ₚ omap exact_call_of (calls input)
}.

Lemma elem_of_omap_staged {B} (f : NormalizedStageRow -> option B) input (rows : list NormalizedStageRow) b :
  (forall row, row ∈ rows <-> row ∈ stage_rows input) ->
  b ∈ omap f rows <-> exists row, row ∈ stage_rows input /\ f row = Some b.
Proof. intros Hrows. rewrite list_elem_of_omap. naive_solver. Qed.

(** Rows of one relation that come from the same tuple are the same row. *)
Lemma cfg_of_row_inj input x y e :
  x ∈ stage_rows input -> y ∈ stage_rows input -> cfg_of_row x = Some e -> cfg_of_row y = Some e ->
  x = y.
Proof.
  intros [([] & _ & ->)|[(? & _ & ->)|(? & ? & ? & _ & ->)]]%elem_of_stage_rows
    [([] & _ & ->)|[(? & _ & ->)|(? & ? & ? & _ & ->)]]%elem_of_stage_rows; try done.
  unfold cfg_of_row; simpl. congruence.
Qed.

Lemma data_of_row_inj input x y d :
  x ∈ stage_rows input -> y ∈ stage_rows input -> data_of_row x = Some d -> data_of_row y = Some d ->
  x = y.
Proof.
  intros [(? & _ & ->)|[([] & _ & ->)|(? & ? & ? & _ & ->)]]%elem_of_stage_rows
    [(? & _ & ->)|[([] & _ & ->)|(? & ? & ? & _ & ->)]]%elem_of_stage_rows; try done.
  unfold data_of_row; simpl. congruence.
Qed.

Lemma call_of_row_inj input x y c :
  x ∈ stage_rows input -> y ∈ stage_rows input -> call_of_row x = Some c -> call_of_row y = Some c ->
  x = y.
Proof.
  intros [(? & _ & ->)|[(? & _ & ->)|(? & ? & ? & _ & ->)]]%elem_of_stage_rows
    [(? & _ & ->)|[(? & _ & ->)|(? & ? & ? & _ & ->)]]%elem_of_stage_rows; try done.
  unfold call_of_row; simpl. congruence.
Qed.

(** The tuples found in the staged rows are those of the input. *)
Lemma staged_tuples input :
  (forall e, (exists row, row ∈ stage_rows input /\ cfg_of_row row = Some e) <-> e ∈ cfg_edges input) /\
  (forall d, (exists row, row ∈ stage_rows input /\ data_of_row row = Some d) <->
             d ∈ def_use_reaching input) /\
  (forall c, (exists row, row ∈ stage_rows input /\ call_of_row row = Some c) <-> exact_call input c).
Proof.
  split; [|split].
  - intros e. split.
    + intros (row & [([] & He & ->)|[(? & _ & ->)|(? & ? & ? & _ & ->)]]%elem_of_stage_rows & Hr);
        [|done..]. unfold cfg_of_row in Hr. by simplify_eq/=.
    + intros He. exists (stage_of_cfg_edge e). rewrite elem_of_stage_rows. split; [eauto|by destruct e].
  - intros d. split.
    + intros (row & [(? & _ & ->)|[([] & Hd & ->)|(? & ? & ? & _ & ->)]]%elem_of_stage_rows & Hr);
        [done| |done]. unfold data_of_row in Hr. by simplify_eq/=.
    + intros Hd. exists (stage_of_def_use d). rewrite elem_of_stage_rows. split; [eauto|by destruct d].
  - intros [[a b] site]. split.
    + intros (row & [(? & _ & ->)|[(? & _ & ->)|(? & ? & ? & Hc & ->)]]%elem_of_stage_rows & Hr);
        [done..|]. unfold call_of_row in Hr. by simplify_eq/=.
    + intros Hc. eexists. rewrite elem_of_stage_rows. split; [right; right; eauto 10|done].
Qed.

Lemma staging `{RelationalStage, !RelationalStageLaws} input rows :
  valid_input input -> normalize_stage input = Ok rows ->
  returns (split_stage rows) (fun '(cfg, data, exact) => staged_ok input cfg data exact).
Proof.
  intros Hv Hrows. unfold normalize_stage in Hrows.
  pose proof (distinct_sorted_NoDup _ _ Hrows) as Hnd.
  assert (forall row, row ∈ rows <-> row ∈ stage_rows input) as Helem
    by (intros row; by apply distinct_sorted_elem).
  assert (Forall well_staged rows) as Hw.
  { apply Forall_forall. intros row Hrow. eapply stage_rows_well_staged, Helem, Hrow. }
  destruct (staged_tuples input) as (Hcfg & Hdata & Hcall).
  rewrite split_stage_staged by done. simpl. split.
  - apply NoDup_omap; [|done]. intros x y z Hx%Helem Hy%Helem. by eapply cfg_of_row_inj.
  - intros e. by rewrite (elem_of_omap_staged _ _ _ _ Helem), Hcfg.
  - apply NoDup_omap; [|done]. intros x y z Hx%Helem Hy%Helem. by eapply data_of_row_inj.
  - intros d. by rewrite (elem_of_omap_staged _ _ _ _ Helem), Hdata.
  - apply NoDup_Permutation; [|by apply exact_calls_NoDup|].
    + apply NoDup_omap; [|done]. intros x y z Hx%Helem Hy%Helem. by eapply call_of_row_inj.
    + intros c. by rewrite (elem_of_omap_staged _ _ _ _ Helem), elem_of_exact_calls, Hcall.
Qed.

(** ** How the state evolves *)

(** From [s] to [s'] the rows [R] were emitted (or dropped, their family then being exhausted),
    unknown rows were only added, only the families [A] had their census changed, and the
    invalidation rows are the same. *)
Record evolves (R : FactRow -> Prop) (A : list string) (s s' : AnalysisState) : Prop := {
  ev_kept : facts s ⊆ facts s';
  ev_new : forall r, r ∈ facts s' -> r ∈ facts s \/ R r;
  ev_emitted : forall r, R r -> r ∈ facts s' \/ f_family r ∈ output_exhausted_families s';
  ev_exhausted : output_exhausted_families s ⊆ output_exhausted_families s';
  ev_unknowns : unknowns s ⊆ unknowns s';
  ev_progress : forall f, f ∉ A -> progress s' !! f = progress s !! f;
  ev_invalidation : invalidation s' = invalidation s
}.

Definition no_rows : FactRow -> Prop := fun _ => False.

Lemma evolves_refl A s : evolves no_rows A s s.
Proof. split; try done; auto. Qed.

Lemma evolves_trans (R1 R2 R : FactRow -> Prop) A s1 s2 s3 :
  evolves R1 A s1 s2 -> evolves R2 A s2 s3 -> (forall r, R r <-> R1 r \/ R2 r) -> evolves R A s1 s3.
Proof.
  intros [K1 N1 M1 X1 U1 P1 I1] [K2 N2 M2 X2 U2 P2 I2] HR.
  split; [by etrans| | |by etrans|by etrans| |by etrans].
  - intros r Hr. rewrite HR. apply N2 in Hr as [Hr|]; [apply N1 in Hr|]; tauto.
  - intros r [Hr|Hr]%HR; [|auto]. destruct (M1 r Hr); [left; by apply K2|right; by apply X2].
  - intros f Hf. by rewrite P2, P1.
Qed.

Lemma evolves_weaken (R1 R2 : FactRow -> Prop) A1 A2 s s' :
  evolves R1 A1 s s' -> (forall r, R1 r <-> R2 r) -> A1 ⊆ A2 -> evolves R2 A2 s s'.
Proof.
  intros [] HR HA. split; try done.
  - intros r Hr%ev_new0. rewrite <- HR. done.
  - intros r Hr%HR. auto.
  - intros f Hf. apply ev_progress0. set_solver.
Qed.

(** A step that leaves the census alone changes no family's. *)
Lemma evolves_same_progress R A s s' :
  evolves R A s s' -> progress s' = progress s -> evolves R [] s s'.
Proof. intros [] Hp. split; try done. intros f _. by rewrite Hp. Qed.

Lemma evolves_or (R1 R2 : FactRow -> Prop) A s1 s2 s3 :
  evolves R1 A s1 s2 -> evolves R2 A s2 s3 -> evolves (fun r => R1 r \/ R2 r) A s1 s3.
Proof. intros H1 H2. by eapply evolves_trans. Qed.

(** Steps that emit nothing can be put anywhere. *)
Lemma evolves_trans_l R A s1 s2 s3 :
  evolves no_rows A s1 s2 -> evolves R A s2 s3 -> evolves R A s1 s3.
Proof. intros H1 H2. eapply evolves_trans; [exact H1|exact H2|unfold no_rows; naive_solver]. Qed.
Lemma evolves_trans_r R A s1 s2 s3 :
  evolves R A s1 s2 -> evolves no_rows A s2 s3 -> evolves R A s1 s3.
Proof. intros H1 H2. eapply evolves_trans; [exact H1|exact H2|unfold no_rows; naive_solver]. Qed.

Lemma insert_fact_evolves bounds row A s : evolves (eq row) A s (insert_fact row bounds s).
Proof. unfold insert_fact. case_match; split; simpl; try done; set_solver. Qed.

Lemma unknown_evolves f sub reason detail it A s :
  evolves no_rows A s (unknown f sub reason detail it s).
Proof. split; simpl; try done; set_solver. Qed.

Lemma insert_progress_evolves f p A s : f ∈ A -> evolves no_rows A s (insert_progress f p s).
Proof.
  intros Hf. split; simpl; try done; [set_solver|]. intros g Hg. apply lookup_insert_ne. set_solver.
Qed.

Lemma extend_operations_evolves ops A s : evolves no_rows A s (extend_operations ops s).
Proof. split; try done; auto. Qed.

Lemma set_iterations_evolves n A s : evolves no_rows A s (set_iterations s n).
Proof. split; try done; auto. Qed.

Lemma set_condensation_evolves A s : evolves no_rows A s (set_condensation s).
Proof. split; try done; auto. Qed.

(** A fold that emits the rows of every element. *)
Lemma foldl_evolves {X} (f : AnalysisState -> X -> AnalysisState) (R : X -> FactRow -> Prop) A l s :
  (forall x s, x ∈ l -> evolves (R x) A s (f s x)) ->
  evolves (fun r => exists x, x ∈ l /\ R x r) A s (foldl f s l).
Proof.
  revert s. induction l as [|x l IH]; intros s Hf; simpl.
  - eapply evolves_weaken; [apply (evolves_refl A)| |done]. unfold no_rows. set_solver.
  - eapply evolves_trans; [apply Hf, list_elem_of_here|apply IH; intros; by apply Hf, list_elem_of_further|].
    intros r. setoid_rewrite elem_of_cons. naive_solver.
Qed.

Lemma foldl_evolves_silent {X} (f : AnalysisState -> X -> AnalysisState) A l s :
  (forall x s, x ∈ l -> evolves no_rows A s (f s x)) -> evolves no_rows A s (foldl f s l).
Proof.
  intros Hf. eapply evolves_weaken; [by apply (foldl_evolves f (fun _ => no_rows))| |done].
  unfold no_rows. set_solver.
Qed.

(** A loop that emits the rows of every element and keeps an invariant; the analysis state is a
    component [π] of the loop's state. *)
Lemma for_each_evolves {X S E} (π : S -> AnalysisState) (f : X -> S -> result S E)
    (R : X -> FactRow -> Prop) A (I : list X -> S -> Prop) l s :
  I [] s ->
  (forall done x todo s, l = (done ++ x :: todo)%list -> I done s ->
     returns (f x s) (fun s' => evolves (R x) A (π s) (π s') /\ I (done ++ [x])%list s')) ->
  returns (for_each l f s)
    (fun s' => evolves (fun r => exists x, x ∈ l /\ R x r) A (π s) (π s') /\ I l s').
Proof.
  intros Hinit Hstep. eapply returns_mono.
  - apply (for_each_returns (fun done _ s' =>
      evolves (fun r => exists x, x ∈ done /\ R x r) A (π s) (π s') /\ I done s')).
    + split; [|done]. eapply evolves_weaken; [apply (evolves_refl A)| |done]. unfold no_rows. set_solver.
    + intros done x todo s1 Hl [Hev HI]. eapply returns_mono; [by eapply Hstep|].
      intros s2 [Hev2 HI2]. split; [|done].
      eapply evolves_trans; [exact Hev|exact Hev2|]. set_solver.
  - naive_solver.
Qed.

(** ** Census accounts *)

(** [f] was asked for [rq] units and has settled [n] of them. *)
Definition account (s : AnalysisState) (f : string) (rq n : Z) : Prop :=
  exists p, progress s !! f = Some p /\ requested p = rq /\ remainder p = 0 /\
    0 <= completed p /\ 0 <= unknown_ p /\ completed p + unknown_ p = n.

Lemma account_frame R A s s' f rq n :
  evolves R A s s' -> f ∉ A -> account s f rq n -> account s' f rq n.
Proof. intros Hev Hf (p & Hp & ?). exists p. by rewrite (ev_progress _ _ _ _ Hev f Hf). Qed.

Lemma account_progress s s' f rq n :
  progress s' = progress s -> account s f rq n -> account s' f rq n.
Proof. unfold account. by intros ->. Qed.

Lemma account_insert s f rq : account (insert_progress f (requesting rq) s) f rq 0.
Proof. exists (requesting rq). simpl. rewrite lookup_insert_eq. naive_solver lia. Qed.

Lemma account_insert_ne s f g p rq n :
  f <> g -> account s f rq n -> account (insert_progress g p s) f rq n.
Proof. intros Hne (q & Hq & ?). exists q. split; [|done]. simpl. by rewrite lookup_insert_ne. Qed.

(** Settling [k] units, completed or unknown. *)
Lemma progress_mut_settles (g : Z -> Progress -> Progress) s f rq n k :
  g = add_completed \/ g = add_unknown -> account s f rq n -> 0 <= k -> n + k <= u64_max ->
  returns (progress_mut f (g k) s)
    (fun s' => evolves no_rows [f] s s' /\ account s' f rq (n + k)).
Proof.
  intros Hg (p & Hp & Hrq & Hrem & Hc & Hu & Hn) Hk Hmax. unfold progress_mut. rewrite Hp. simpl.
  split; [apply insert_progress_evolves; set_solver|].
  exists (g k p). simpl. rewrite lookup_insert_eq.
  destruct Hg as [-> | ->]; simpl; rewrite wrap64_small by (unfold in_uint; lia); naive_solver lia.
Qed.

(** ** Distinct families *)

(** Two families of validated bindings are distinct: [H] is the [NoDup] of all families. *)
Ltac family_ne H :=
  let Heq := fresh "Heq" in let Hnd := fresh "Hnd" in let Hx := fresh "Hx" in
  intros Heq; pose proof H as Hnd; unfold families_all in Hnd; rewrite Heq in Hnd;
  repeat (apply NoDup_cons in Hnd as [Hx Hnd];
          first [solve [exfalso; apply Hx; repeat (first [apply list_elem_of_here | apply list_elem_of_further])]
                | clear Hx]).

(** A family is not in a list of other families. *)
Ltac other_family H :=
  repeat (apply not_elem_of_cons; split); [family_ne H..|apply not_elem_of_nil].
