(* ===== verification/CommonGraph.v ===== *)
(** Graphs of the common derived analysis: the petgraph built from identities and edges, walks in
    it, and the work lists over adjacency maps (shortest distances, caller closure). *)

From stdpp Require Import sorting.
From S2P Require Import Prelude Encoding CommonModel CommonCfg CommonCalls CommonTheory.

(** ** The built graph *)

(** [g] has the nodes [ids], each under its position, and the edges [E]. *)
Record graph_ok (ids : list string) (E : string -> string -> Prop) (g : CanonicalGraph)
    (idx : gmap string nat) : Prop := {
  go_weights : weights g = ids;
  go_NoDup : NoDup ids;
  go_index : forall id i, idx !! id = Some i <-> ids !! i = Some id;
  go_edges : forall i j, (i, j) ∈ graph_edges g <->
    exists a b, ids !! i = Some a /\ ids !! j = Some b /\ E a b
}.

Lemma add_identities_ok ids :
  NoDup ids ->
  graph_ok ids (fun _ _ => False) (foldl add_identity (empty_graph, ∅) ids).1
    (foldl add_identity (empty_graph, ∅) ids).2.
Proof.
  induction ids as [|id ids IH] using rev_ind; intros Hnd.
  - split; [done|done| |]; [done|]. intros i j. split; [by intros ?%elem_of_nil|naive_solver].
  - apply NoDup_app in Hnd as (Hnd & Hid & _). destruct (IH Hnd) as [Hw _ Hi He].
    rewrite foldl_app. simpl. destruct (foldl add_identity (empty_graph, ∅) ids) as [g idx].
    simpl in *. assert (id ∉ ids) as Hfresh by set_solver.
    split; simpl.
    + by rewrite Hw.
    + apply NoDup_app. split; [done|]. split; [set_solver|apply NoDup_singleton].
    + intros id' i. rewrite Hw. destruct (decide (id' = id)) as [->|Hne].
      * rewrite lookup_insert_eq. split; [intros [= <-]; by rewrite list_lookup_middle|].
        intros Hl%lookup_app_Some. destruct Hl as [Hl|[Hle Hl]];
          [by apply list_elem_of_lookup_2 in Hl|].
        apply list_lookup_singleton_Some in Hl as [Hl _]. f_equal. lia.
      * rewrite lookup_insert_ne, Hi by done. split; [by apply lookup_app_l_Some|].
        intros [Hl|[_ Hl]]%lookup_app_Some; [done|].
        by apply list_lookup_singleton_Some in Hl as [_ ->].
    + intros i j. split; [by intros H%He; naive_solver|naive_solver].
Qed.

Lemma update_edge_ok ids E g idx a b i j :
  graph_ok ids E g idx -> idx !! a = Some i -> idx !! b = Some j ->
  graph_ok ids (fun x y => E x y \/ (x = a /\ y = b)) (update_edge i j g) idx.
Proof.
  intros [Hw Hnd Hi He] Ha%Hi Hb%Hi. unfold update_edge. case_bool_decide as Hin.
  - apply He in Hin as (a' & b' & Ha' & Hb' & HE). split; [done..|].
    intros i' j'. rewrite He. split; [naive_solver|].
    intros (x & y & Hx & Hy & [Hxy|[-> ->]]); [eauto|]. exists a, b. naive_solver.
  - split; [done..|]. intros i' j'. simpl. rewrite elem_of_app, He, list_elem_of_singleton. split.
    + intros [Hxy|[= -> ->]]; naive_solver.
    + intros (x & y & Hx & Hy & [Hxy|[-> ->]]); [left; eauto|right].
      f_equal; by eapply NoDup_lookup.
Qed.

Lemma graph_ok_ext ids E E' g idx :
  (forall a b, E a b <-> E' a b) -> graph_ok ids E g idx -> graph_ok ids E' g idx.
Proof. intros HE [Hw Hnd Hi He]. split; [done..|]. intros i j. rewrite He. naive_solver. Qed.

Lemma add_edges_ok {X E'} (src dst : X -> string) ids (xs : list X) g idx
    (f : X -> CanonicalGraph -> result CanonicalGraph E') :
  (forall x g i j, idx !! src x = Some i -> idx !! dst x = Some j -> f x g = Ok (update_edge i j g)) ->
  (forall x, x ∈ xs -> src x ∈ ids /\ dst x ∈ ids) ->
  graph_ok ids (fun _ _ => False) g idx ->
  returns (for_each xs f g)
    (fun g' => graph_ok ids (fun a b => exists x, x ∈ xs /\ src x = a /\ dst x = b) g' idx).
Proof.
  intros Hf Hin Hg. apply (for_each_returns (fun done _ g' =>
    graph_ok ids (fun a b => exists x, x ∈ done /\ src x = a /\ dst x = b) g' idx)).
  - eapply graph_ok_ext, Hg. intros a b. split; [done|]. by intros (x & ?%elem_of_nil & _).
  - intros done x todo g' -> Hg'.
    destruct (Hin x) as [Hs Hd]; [apply elem_of_app; right; apply list_elem_of_here|].
    apply list_elem_of_lookup in Hs as [i Hi%(go_index _ _ _ _ Hg')],
      Hd as [j Hj%(go_index _ _ _ _ Hg')].
    rewrite (Hf x g' i j Hi Hj). simpl.
    eapply graph_ok_ext, update_edge_ok; [|done..]. intros a b. simpl.
    setoid_rewrite elem_of_app. setoid_rewrite list_elem_of_singleton. naive_solver.
Qed.

(** The control-flow edges of a list of rows. *)
Definition cfg_edge (edges : list CommonCfgEdge) (a b : string) : Prop :=
  exists e, e ∈ edges /\ e_source_node_id e = a /\ e_target_node_id e = b.

Lemma build_cfg_graph_ok nodes edges :
  NoDup (n_node_id <$> nodes) ->
  (forall e, e ∈ edges -> e_source_node_id e ∈ n_node_id <$> nodes /\
                          e_target_node_id e ∈ n_node_id <$> nodes) ->
  returns (build_cfg_graph nodes edges)
    (fun '(g, idx) => graph_ok (n_node_id <$> nodes) (cfg_edge edges) g idx).
Proof.
  intros Hnd Hin. unfold build_cfg_graph.
  pose proof (add_identities_ok _ Hnd) as Hg. rewrite foldl_fmap in Hg.
  destruct (foldl _ _ nodes) as [g idx]. simpl in Hg.
  eapply returns_bind; [|intros g' Hg'; exact Hg'].
  apply (add_edges_ok e_source_node_id e_target_node_id); [|done..].
  intros e g' i j -> ->. done.
Qed.

(** The calls of a list of triples. *)
Definition call_edge (exact : list (string * string * string)) (a b : string) : Prop :=
  exists site, (a, b, site) ∈ exact.

Lemma build_call_graph_ok callables exact :
  (forall a b site, (a, b, site) ∈ exact -> a ∈ callables /\ b ∈ callables) ->
  returns (build_call_graph callables exact)
    (fun '(g, idx) => graph_ok (iter_set callables) (call_edge exact) g idx).
Proof.
  intros Hin. unfold build_call_graph.
  pose proof (add_identities_ok _ (NoDup_iter_set callables)) as Hg.
  destruct (foldl _ _ (iter_set callables)) as [g idx]. simpl in Hg.
  eapply returns_bind.
  - apply (add_edges_ok (fun c => c.1.1) (fun c => c.1.2)); [| |exact Hg].
    + intros [[a b] site] g' i j Ha Hb. simpl in *. by rewrite Ha, Hb.
    + intros [[a b] site] Hc%Hin. simpl. by rewrite !elem_of_iter_set.
  - intros g' Hg'. simpl. eapply graph_ok_ext, Hg'. intros a b. split.
    + intros ([[a' b'] site] & Hc & <- & <-). by exists site.
    + intros [site Hc]. by exists (a, b, site).
Qed.

Section built_graph.
Context (ids : list string) (E : string -> string -> Prop) (g : CanonicalGraph) (idx : gmap string nat).
Context (Hg : graph_ok ids E g idx).

Lemma graph_edges_in : edges_in (node_count g) (graph_edges g).
Proof.
  intros i j (a & b & Ha & Hb & _)%(go_edges _ _ _ _ Hg). unfold node_count.
  rewrite (go_weights _ _ _ _ Hg). by apply lookup_lt_Some in Ha, Hb.
Qed.

Lemma index_of_ok id : id ∈ ids -> exists i, index_of idx id = Ok i /\ ids !! i = Some id.
Proof.
  intros [i Hi]%list_elem_of_lookup. exists i. split; [|done].
  unfold index_of, expect. by rewrite (proj2 (go_index _ _ _ _ Hg id i) Hi).
Qed.

Lemma edge_of_ids i j a b :
  ids !! i = Some a -> ids !! j = Some b -> edge_of (graph_edges g) i j <-> E a b.
Proof.
  intros Ha Hb. unfold edge_of. rewrite (go_edges _ _ _ _ Hg). split; [|eauto].
  intros (a' & b' & Ha' & Hb' & HE). by simplify_eq.
Qed.

(** Indices reach each other as identities do. *)
Lemma rtc_ids i j a :
  ids !! i = Some a -> rtc (edge_of (graph_edges g)) i j -> exists b, ids !! j = Some b /\ rtc E a b.
Proof.
  intros Ha Hr. revert a Ha. induction Hr as [i|i k j Hik _ IH]; intros a Ha; [eauto using rtc_refl|].
  pose proof Hik as (a' & c & Ha' & Hc & HE)%(go_edges _ _ _ _ Hg). simplify_eq.
  destruct (IH c Hc) as (b & Hb & Hr). eauto using rtc_l.
Qed.

Lemma ids_rtc i j a b :
  (forall x y, E x y -> x ∈ ids /\ y ∈ ids) ->
  ids !! i = Some a -> ids !! j = Some b -> rtc E a b -> rtc (edge_of (graph_edges g)) i j.
Proof.
  intros Hin Ha Hb Hr. revert i Ha. induction Hr as [a|a c b Hac _ IH]; intros i Ha.
  - rewrite (NoDup_lookup ids i j a (go_NoDup _ _ _ _ Hg) Ha Hb). apply rtc_refl.
  - destruct (Hin a c Hac) as [_ [k Hk]%list_elem_of_lookup].
    eapply rtc_l; [|by apply IH]. by eapply edge_of_ids.
Qed.

Lemma tc_ids i j a :
  ids !! i = Some a -> tc (edge_of (graph_edges g)) i j -> exists b, ids !! j = Some b /\ tc E a b.
Proof.
  intros Ha Hr. revert a Ha. induction Hr as [i j Hij|i k j Hik _ IH]; intros a Ha;
    [pose proof Hij as (a' & c & Ha' & Hc & HE)%(go_edges _ _ _ _ Hg)
    |pose proof Hik as (a' & c & Ha' & Hc & HE)%(go_edges _ _ _ _ Hg)]; simplify_eq.
  - eauto using tc_once.
  - destruct (IH c Hc) as (b & Hb & Hr). eauto using tc_l.
Qed.
End built_graph.

(** ** The caller closure *)

Definition neighbours (m : gmap string (gset string)) (a : string) : gset string := default ∅ (m !! a).
Definition steps_to (m : gmap string (gset string)) (a b : string) : Prop := b ∈ neighbours m a.

Lemma neighbours_universe m a b : b ∈ neighbours m a -> b ∈ callee_universe m.
Proof.
  unfold neighbours, callee_universe. destruct (m !! a) as [X|] eqn:Ha; simpl; [|set_solver].
  intros Hb. apply elem_of_union_list. exists X. split; [|done].
  apply list_elem_of_fmap. exists (a, X). by rewrite elem_of_map_to_list.
Qed.

Lemma visit_callers_spec callers set queue :
  exists fresh, visit_callers callers set queue = (list_to_set fresh ∪ set, queue ++ fresh) /\
    NoDup fresh /\ (forall x, x ∈ fresh -> x ∈ callers /\ x ∉ set) /\
    (forall x, x ∈ callers -> x ∈ fresh \/ x ∈ set).
Proof.
  revert set queue. induction callers as [|c callers IH]; intros set queue; simpl.
  - exists []. rewrite app_nil_r. split; [f_equal; set_solver|]. split; [constructor|]. set_solver.
  - case_bool_decide as Hc.
    + destruct (IH set queue) as (fresh & -> & Hnd & H1 & H2). exists fresh. set_solver.
    + destruct (IH ({[c]} ∪ set) (queue ++ [c])) as (fresh & -> & Hnd & H1 & H2).
      exists (c :: fresh). rewrite <- app_assoc. split; [f_equal; set_solver|].
      split; [constructor; [set_solver|done]|]. set_solver.
Qed.

(** The closure of [set] under [steps_to]: the loop ends with it, given a step per element that can
    still be added and per element of the queue. *)
Lemma callers_loop_spec m (start : gset string) fuel set queue :
  (forall x, x ∈ queue -> x ∈ set) ->
  start ⊆ set -> (forall x, x ∈ set -> exists a, a ∈ start /\ rtc (steps_to m) a x) ->
  (forall x y, x ∈ set -> x ∉ queue -> steps_to m x y -> y ∈ set) ->
  length queue + size (callee_universe m ∖ set) <= fuel ->
  returns (callers_loop fuel m set queue)
    (fun result => forall x, x ∈ result <-> exists a, a ∈ start /\ rtc (steps_to m) a x).
Proof.
  revert set queue. induction fuel as [|fuel IH]; intros set [|x queue] Hq Hstart Hsound Hclosed Hfuel;
    simpl in *; try lia.
  1,2: (intros y; split; [auto|]; intros (a & Ha & Hr); apply Hstart in Ha;
        induction Hr as [|a b c Hab _ IHr]; [done|]; apply IHr, (Hclosed a); set_solver).
  destruct (visit_callers_spec (iter_set (default ∅ (m !! x))) set queue) as (fresh & -> & Hnd & H1 & H2).
  assert (forall y, y ∈ fresh -> steps_to m x y /\ y ∉ set) as Hfresh.
  { intros y [Hy%elem_of_iter_set ?]%H1. done. }
  apply IH.
  - set_solver.
  - set_solver.
  - intros y [Hy%elem_of_list_to_set|Hy]%elem_of_union; [|auto].
    destruct (Hfresh y Hy) as [Hxy _]. destruct (Hsound x) as (a & Ha & Hr); [set_solver|].
    exists a. split; [done|]. eapply rtc_r; done.
  - intros y z Hy Hyq Hyz. destruct (decide (y = x)) as [->|Hne].
    + apply elem_of_union. rewrite elem_of_list_to_set. apply H2. by apply elem_of_iter_set.
    + apply elem_of_union_r, (Hclosed y); set_solver.
  - assert (size (callee_universe m ∖ set)
            = length fresh + size (callee_universe m ∖ (list_to_set fresh ∪ set)))%nat as Hsize.
    { rewrite <- (size_list_to_set (C:=gset string) fresh) by done.
      rewrite <- size_union by set_solver. f_equal. apply set_eq. intros y.
      assert (y ∈ fresh -> y ∈ callee_universe m) by
        (intros Hy; eapply neighbours_universe, Hfresh, Hy).
      rewrite elem_of_union, !elem_of_difference, elem_of_union, elem_of_list_to_set.
      destruct (decide (y ∈ fresh)) as [Hy|]; [|tauto]. specialize (Hfresh y Hy). tauto. }
    rewrite length_app. lia.
Qed.

(** Every callable from which an incomplete one is reached through [m] read backwards. *)
Lemma propagate_incomplete_callers_spec m incomplete :
  returns (propagate_incomplete_callers m incomplete)
    (fun result => forall x, x ∈ result <-> exists a, a ∈ incomplete /\ rtc (steps_to m) a x).
Proof.
  apply callers_loop_spec.
  - intros x. by rewrite elem_of_iter_set.
  - done.
  - intros x Hx. exists x. split; [done|apply rtc_refl].
  - intros x y Hx. by rewrite elem_of_iter_set.
  - unfold callers_fuel. apply Nat.add_le_mono_l, subseteq_size. set_solver.
Qed.

Lemma affected_spec m callable :
  returns (callers_loop (callers_fuel m [callable]) m {[callable]} [callable])
    (fun result => forall x, x ∈ result <-> rtc (steps_to m) callable x).
Proof.
  eapply returns_mono; [apply (callers_loop_spec m {[callable]})|].
  - set_solver.
  - done.
  - intros x ->%elem_of_singleton. exists callable. split; [set_solver|apply rtc_refl].
  - set_solver.
  - unfold callers_fuel. apply Nat.add_le_mono_l, subseteq_size. set_solver.
  - simpl. intros result Hr x. rewrite Hr. set_solver.
Qed.

(** ** Shortest distances *)

(** [n] calls are the fewest that lead from [a] to [b]. *)
Definition shortest {A} (R : A -> A -> Prop) (a b : A) (n : nat) : Prop :=
  nsteps R n a b /\ forall m, nsteps R m a b -> n <= m.

Lemma shortest_unique {A} (R : A -> A -> Prop) a b n m :
  shortest R a b n -> shortest R a b m -> n = m.
Proof. intros [Hn Hn'] [Hm Hm']. apply Hn' in Hm as ?. apply Hm' in Hn as ?. lia. Qed.

Lemma shortest_refl {A} (R : A -> A -> Prop) a : shortest R a a 0.
Proof. split; [apply nsteps_O|lia]. Qed.

(** The last call of a shortest chain leaves from a node one call nearer. *)
Lemma shortest_pred {A} (R : A -> A -> Prop) a b n :
  shortest R a b (S n) -> exists c, shortest R a c n /\ R c b.
Proof.
  intros [Hn Hmin]. apply nsteps_inv_r in Hn as (c & Hac & Hcb). exists c. split; [|done].
  split; [done|]. intros m Hm. enough (S n <= S m) by lia. apply Hmin. by eapply nsteps_r.
Qed.

Definition sat32 (n : nat) : Z := Z.min (Z.of_nat n) u32_max.

Lemma sat32_succ n : saturating_add u32_max (sat32 n) 1 = sat32 (S n).
Proof. unfold saturating_add, sat32, u32_max. lia. Qed.

Lemma visit_callees_spec c d callees distances queue :
  exists fresh, visit_callees c d callees distances queue
    = (foldr (fun y m => <[y := saturating_add u32_max d 1]> m) distances fresh,
       queue ++ ((fun y => (y, saturating_add u32_max d 1)) <$> fresh)) /\
    NoDup fresh /\
    (forall y, y ∈ fresh -> y ∈ callees /\ y <> c /\ distances !! y = None) /\
    (forall y, y ∈ callees -> y <> c -> y ∈ fresh \/ is_Some (distances !! y)).
Proof.
  revert distances queue. induction callees as [|y callees IH]; intros distances queue; cbn [visit_callees].
  - exists []. simpl. rewrite app_nil_r. split; [done|]. split; [constructor|]. set_solver.
  - destruct (bool_decide (y = c) || bool_decide (is_Some (distances !! y)))%bool eqn:Hb.
    + destruct (IH distances queue) as (fresh & -> & Hnd & H1 & H2). exists fresh.
      split; [done|]. split; [done|]. split; [set_solver|].
      intros z [->|Hz]%elem_of_cons Hzc; [|auto]. apply orb_true_iff in Hb as [Hb|Hb];
        apply bool_decide_eq_true in Hb; [done|auto].
    + zify_bool. rename H into Hyc, H0 into Hyd. apply eq_None_not_Some in Hyd.
      destruct (IH (<[y:=saturating_add u32_max d 1]> distances)
                   (queue ++ [(y, saturating_add u32_max d 1)])) as (fresh & -> & Hnd & H1 & H2).
      assert (y ∉ fresh) as Hy. { intros (_ & _ & Hn)%H1. by rewrite lookup_insert_eq in Hn. }
      exists (y :: fresh). rewrite <- app_assoc. split; [f_equal|].
      { cbn [foldr]. clear -Hy. induction fresh as [|z fresh IH]; [done|]. cbn [foldr].
        rewrite IH by set_solver. apply insert_insert_ne. set_solver. }
      split; [by constructor|]. split.
      * intros z [->|Hz]%elem_of_cons; [split; [set_solver|done]|].
        destruct (H1 z Hz) as (Hz1 & Hz2 & Hz3). apply lookup_insert_None in Hz3 as [Hz3 _]. set_solver.
      * intros z [->|Hz]%elem_of_cons Hzc; [left; set_solver|].
        destruct (H2 z Hz Hzc) as [?|[v Hv]]; [left; set_solver|].
        apply lookup_insert_Some in Hv as [[-> _]|[_ Hv]]; [left; set_solver|eauto].
Qed.

Lemma lookup_insert_all (fresh : list string) (w : Z) (m : gmap string Z) y v :
  foldr (fun y m => <[y := w]> m) m fresh !! y = Some v <->
  (y ∈ fresh /\ v = w) \/ ((y ∉ fresh) /\ m !! y = Some v).
Proof.
  induction fresh as [|z fresh IH]; simpl; [set_solver|].
  rewrite lookup_insert_Some, IH, elem_of_cons.
  destruct (decide (z = y)), (decide (y ∈ fresh)); naive_solver.
Qed.

Section breadth_first.
Context (m : gmap string (gset string)) (c : string).
Abbreviation R := (steps_to m).

Definition visited (distances : gmap string Z) (x : string) : Prop :=
  x = c \/ is_Some (distances !! x).

(** The queue with the exact lengths behind its saturated distances. *)
Definition exact_queue (Q : list (string * nat)) : list (string * Z) :=
  (fun '(x, n) => (x, sat32 n)) <$> Q.

Record bfs_inv (distances : gmap string Z) (Q : list (string * nat)) : Prop := {
  b_dist : forall x v, distances !! x = Some v -> x <> c /\ exists n, shortest R c x n /\ v = sat32 n;
  b_queue : forall x n, (x, n) ∈ Q -> shortest R c x n /\ visited distances x;
  b_sorted : StronglySorted (fun a b => a.2 <= b.2) Q;
  b_levels : forall x n a k, head Q = Some (x, n) -> (a, k) ∈ Q -> k <= S n;
  b_done : forall x y, visited distances x -> x ∉ Q.*1 -> R x y -> visited distances y;
  b_near : forall x n y k, head Q = Some (x, n) -> nsteps R k c y -> k <= n -> visited distances y;
  b_universe : forall x, is_Some (distances !! x) -> x ∈ callee_universe m
}.

Lemma bfs_inv_init : bfs_inv ∅ [(c, 0)].
Proof.
  split.
  - intros x v. by rewrite lookup_empty.
  - intros x n [= -> ->]%list_elem_of_singleton. split; [apply shortest_refl|by left].
  - repeat constructor.
  - intros x n a k [= <- <-] [= -> ->]%list_elem_of_singleton. lia.
  - intros x y [->|[v Hv]]; [set_solver|by rewrite lookup_empty in Hv].
  - intros x n y k [= <- <-] Hk Hle. assert (k = 0) as -> by lia. inversion Hk; subst. by left.
  - intros x [v Hv]. by rewrite lookup_empty in Hv.
Qed.

(** The state after the callees of the head were visited. *)
Section step.
Context (distances : gmap string Z) (x : string) (n : nat) (Q : list (string * nat))
  (fresh : list string).
Context (Hinv : bfs_inv distances ((x, n) :: Q)).
Context (Hfresh : forall y, y ∈ fresh -> R x y /\ y <> c /\ distances !! y = None)
  (Hall : forall y, R x y -> y <> c -> y ∈ fresh \/ is_Some (distances !! y)).

Abbreviation distances' := (foldr (fun y m => <[y := sat32 (S n)]> m) distances fresh).
Abbreviation Q' := (Q ++ ((fun y => (y, S n)) <$> fresh)).

Lemma visited_step y : visited distances' y <-> visited distances y \/ y ∈ fresh.
Proof.
  unfold visited, is_Some. setoid_rewrite lookup_insert_all.
  destruct (decide (y ∈ fresh)); naive_solver.
Qed.

Lemma fresh_shortest y : y ∈ fresh -> shortest R c y (S n).
Proof.
  intros Hy. destruct (Hfresh y Hy) as (Hxy & Hyc & Hn).
  destruct (b_queue _ _ Hinv x n) as [[Hx _] _]; [apply list_elem_of_here|].
  split; [by eapply nsteps_r|]. intros k Hk. destruct (decide (S n <= k)); [done|].
  destruct (b_near _ _ Hinv x n y k) as [->|[v Hv]]; [done|done|lia|done|congruence].
Qed.

Lemma elem_of_queue_step a k :
  (a, k) ∈ Q' <-> (a, k) ∈ Q \/ (a ∈ fresh /\ k = S n).
Proof. rewrite elem_of_app, list_elem_of_fmap. naive_solver. Qed.

Lemma queue_step_bounds a k : (a, k) ∈ Q' -> n <= k <= S n.
Proof.
  intros [Ha|[_ ->]]%elem_of_queue_step; [|lia]. split.
  - pose proof (b_sorted _ _ Hinv) as [_ Hs]%StronglySorted_inv.
    rewrite Forall_forall in Hs. by apply (Hs (a, k)).
  - eapply (b_levels _ _ Hinv x n a k); [done|]. by apply list_elem_of_further.
Qed.

Lemma queue_step_shortest a k : (a, k) ∈ Q' -> shortest R c a k.
Proof.
  intros [Ha|[Ha ->]]%elem_of_queue_step; [|by apply fresh_shortest].
  apply (b_queue _ _ Hinv a k). by apply list_elem_of_further.
Qed.

Lemma step_done a b : visited distances' a -> a ∉ Q'.*1 -> R a b -> visited distances' b.
Proof.
  rewrite !visited_step. intros Ha Hq Hab. rewrite fmap_app, <- list_fmap_compose in Hq.
  assert (a ∉ fresh) as Hnf.
  { intros Hf. apply Hq, elem_of_app. right. apply list_elem_of_fmap. by exists a. }
  destruct (decide (a = x)) as [->|Hax].
  - destruct (decide (b = c)) as [->|Hbc]; [by left; left|].
    destruct (Hall b Hab Hbc); [by right|left; by right].
  - left. apply (b_done _ _ Hinv a b); [naive_solver| |done]. set_solver.
Qed.

Lemma queue_step_sorted : StronglySorted (fun a b : string * nat => a.2 <= b.2) Q'.
Proof.
  assert (forall L : list (string * nat), StronglySorted (fun a b => a.2 <= b.2) L ->
            (forall q, q ∈ L -> q.2 <= S n) ->
            StronglySorted (fun a b => a.2 <= b.2) (L ++ ((fun y => (y, S n)) <$> fresh))) as Happ.
  { induction 1 as [|q L _ IH Hq]; intros Hle; simpl.
    - clear. induction fresh as [|y l IH]; simpl; constructor; [done|].
      apply Forall_forall. intros q (z & -> & _)%list_elem_of_fmap. simpl. lia.
    - constructor; [apply IH; set_solver|]. apply Forall_app. split; [done|].
      apply Forall_forall. intros r (z & -> & _)%list_elem_of_fmap. apply Hle. set_solver. }
  apply Happ.
  - by pose proof (b_sorted _ _ Hinv) as [? _]%StronglySorted_inv.
  - intros [a k] Ha. apply (queue_step_bounds a k), elem_of_queue_step. by left.
Qed.

Lemma queue_step_head a j b k : head Q' = Some (a, j) -> (b, k) ∈ Q' -> j <= k.
Proof.
  pose proof queue_step_sorted as Hs. destruct Q' as [|q rest]; [done|]. intros [= ->].
  apply StronglySorted_inv in Hs as [_ Hs]. rewrite Forall_forall in Hs.
  intros [[= -> ->]|Hb]%elem_of_cons; [done|]. by apply (Hs (b, k)).
Qed.

Lemma step_near a j b k :
  head Q' = Some (a, j) -> nsteps R k c b -> k <= j -> visited distances' b.
Proof.
  intros Hhd Hk Hle. apply head_Some_elem_of in Hhd as Hin. pose proof (queue_step_bounds _ _ Hin) as Hj.
  destruct (decide (k <= n)) as [Hkn|Hkn].
  - apply visited_step. left. by eapply (b_near _ _ Hinv x n).
  - assert (k = S n /\ j = S n) as [-> ->] by lia.
    apply nsteps_inv_r in Hk as (z & Hz & Hzb). apply (step_done z); [| |done].
    + apply visited_step. left. by eapply (b_near _ _ Hinv x n).
    + intros ([z' i] & -> & Hi)%list_elem_of_fmap. simpl in *.
      destruct (queue_step_shortest _ _ Hi) as [_ Hmin]. apply Hmin in Hz.
      pose proof (queue_step_head _ _ _ _ Hhd Hi). lia.
Qed.

Lemma bfs_inv_step : bfs_inv distances' Q'.
Proof.
  split.
  - intros y v [[Hy ->]|[_ Hy]]%lookup_insert_all; [|by apply (b_dist _ _ Hinv)].
    split; [by apply Hfresh|]. exists (S n). split; [by apply fresh_shortest|done].
  - intros y k Hy. split; [by apply queue_step_shortest|]. apply visited_step.
    apply elem_of_queue_step in Hy as [Hy|[Hy _]]; [left|by right].
    apply (b_queue _ _ Hinv y k). by apply list_elem_of_further.
  - apply queue_step_sorted.
  - intros a j b k Hhd%head_Some_elem_of Hb.
    apply queue_step_bounds in Hhd, Hb. lia.
  - apply step_done.
  - apply step_near.
  - intros y [v Hv]. apply lookup_insert_all in Hv as [[Hy _]|[_ Hy]].
    + eapply neighbours_universe, Hfresh, Hy.
    + apply (b_universe _ _ Hinv). eauto.
Qed.
End step.

Lemma bfs_inv_final distances x v :
  bfs_inv distances [] ->
  distances !! x = Some v <-> x <> c /\ exists n, shortest R c x n /\ v = sat32 n.
Proof.
  intros Hinv. split; [apply (b_dist _ _ Hinv)|]. intros [Hxc (n & Hn & ->)].
  assert (forall a b, rtc R a b -> visited distances a -> visited distances b) as Hclosed.
  { induction 1 as [|a b d Hab _ IH]; [done|]. intros Ha. apply IH.
    apply (b_done _ _ Hinv a b); [done|apply not_elem_of_nil|done]. }
  assert (visited distances x) as [|[v Hv]]; [|done|].
  - eapply Hclosed; [eapply rtc_nsteps_2, Hn|]. by left.
  - rewrite Hv. destruct (b_dist _ _ Hinv x v Hv) as [_ (k & Hk & ->)].
    by rewrite (shortest_unique _ _ _ _ _ Hn Hk).
Qed.

(** One dequeued callable. *)
Lemma distances_loop_step fuel distances x d queue :
  distances_loop (S fuel) m c distances ((x, d) :: queue)
  = let '(distances, queue) := visit_callees c d (iter_set (neighbours m x)) distances queue in
    distances_loop fuel m c distances queue.
Proof. cbn [distances_loop]. unfold neighbours. by destruct (m !! x). Qed.

Lemma size_insert_all (fresh : list string) w (distances : gmap string Z) :
  NoDup fresh -> (forall y, y ∈ fresh -> distances !! y = None) ->
  size (foldr (fun y m => <[y := w]> m) distances fresh) = length fresh + size distances.
Proof.
  induction 1 as [|y fresh Hy _ IH]; intros Hn; simpl; [done|].
  rewrite map_size_insert_None, IH; [done|set_solver|].
  destruct (foldr _ _ _ !! y) as [v|] eqn:Hv; [|done].
  apply lookup_insert_all in Hv as [[? _]|[_ Hv]]; [done|]. rewrite Hn in Hv by set_solver. done.
Qed.

(** The loop ends, with the shortest distances to everything reachable. *)
Lemma distances_loop_spec fuel distances Q :
  bfs_inv distances Q ->
  length Q + size (callee_universe m) <= fuel + size distances ->
  returns (distances_loop fuel m c distances (exact_queue Q))
    (fun result => forall x v, result !! x = Some v <->
       x <> c /\ exists n, shortest R c x n /\ v = sat32 n).
Proof.
  revert distances Q. induction fuel as [|fuel IH]; intros distances [|[x n] Q] Hinv Hfuel.
  1,3: intros x v; by apply bfs_inv_final.
  - assert (size distances <= size (callee_universe m)); [|simpl in *; lia].
    rewrite <- (size_dom (D:=gset string) distances). apply subseteq_size. intros y Hy%elem_of_dom.
    by apply (b_universe _ _ Hinv).
  - change (exact_queue ((x, n) :: Q)) with ((x, sat32 n) :: exact_queue Q).
    rewrite distances_loop_step.
    destruct (visit_callees_spec c (sat32 n) (iter_set (neighbours m x)) distances (exact_queue Q))
      as (fresh & -> & Hnd & H1 & H2). rewrite sat32_succ.
    assert (forall y, y ∈ fresh -> R x y /\ y <> c /\ distances !! y = None) as Hfresh.
    { intros y (Hy%elem_of_iter_set & ?)%H1. done. }
    replace (exact_queue Q ++ _) with (exact_queue (Q ++ ((fun y => (y, S n)) <$> fresh))).
    2:{ unfold exact_queue. rewrite fmap_app, <- list_fmap_compose. done. }
    apply IH.
    + apply (bfs_inv_step _ x); [done..|]. intros y Hy. apply H2. by apply elem_of_iter_set.
    + rewrite size_insert_all by (done || intros y Hy; by apply Hfresh).
      rewrite length_app, length_fmap. simpl in Hfuel. lia.
Qed.

Lemma distances_from_spec :
  returns (distances_from m c)
    (fun result => forall x v, result !! x = Some v <->
       x <> c /\ exists n, shortest R c x n /\ v = sat32 n).
Proof.
  apply (distances_loop_spec _ ∅ [(c, 0)]); [apply bfs_inv_init|].
  unfold distances_fuel. simpl. lia.
Qed.
End breadth_first.
