(* ===== verification/CommonSummary.v ===== *)
(** The bounded fixed point of callable summaries ([propagate_summaries]): what one iteration
    preserves, what holds when an iteration changes nothing, and how many iterations are enough. *)

From stdpp Require Import sorting.
From S2P Require Import Prelude Encoding CommonModel CommonCfg CommonCalls CommonTheory CommonGraph.

(** ** Absorbing a callee's values *)

Lemma absorb_spec bounds values summary hit changed :
  let '(summary', hit', changed') := absorb bounds values summary hit changed in
  summary ⊆ summary' /\ summary' ⊆ summary ∪ list_to_set values /\
  (hit' = false -> hit = false /\ list_to_set values ⊆ summary') /\
  (changed' = false -> changed = false /\ summary' = summary) /\
  (changed' = true -> changed = true \/ size summary < size summary') /\
  (size summary <= max_summary_values bounds -> size summary' <= max_summary_values bounds).
Proof.
  revert summary hit changed. induction values as [|v values IH]; intros summary hit changed;
    cbn [absorb].
  - repeat split; try done; try set_solver.
  - case_bool_decide as Hv; [|destruct (size summary =? max_summary_values bounds) eqn:Hs].
    + specialize (IH summary hit changed). destruct (absorb _ _ _ _ _) as [[S' h'] c'].
      destruct IH as (H1 & H2 & H3 & H4 & H5 & H6). split; [done|]. split; [clear -H2; set_solver|].
      split; [|done]. intros Hh. destruct (H3 Hh) as [-> Hl]. split; [done|]. clear -Hl Hv H1. set_solver.
    + specialize (IH summary true changed). destruct (absorb _ _ _ _ _) as [[S' h'] c'].
      destruct IH as (H1 & H2 & H3 & H4 & H5 & H6). split; [done|]. split; [clear -H2; set_solver|].
      split; [|done]. intros Hh. by destruct (H3 Hh).
    + specialize (IH ({[v]} ∪ summary) hit true). destruct (absorb _ _ _ _ _) as [[S' h'] c'].
      destruct IH as (H1 & H2 & H3 & H4 & H5 & H6). apply Nat.eqb_neq in Hs.
      assert (size ({[v]} ∪ summary) = S (size summary)) as Hsz
        by (rewrite size_union, size_singleton by set_solver; done).
      assert (size ({[v]} ∪ summary) <= size S') by by apply subseteq_size.
      split; [clear -H1; set_solver|]. split; [clear -H2; set_solver|].
      split; [intros Hh; destruct (H3 Hh) as [-> Hl]; split; [done|]; clear -Hl H1; set_solver|].
      split; [intros Hc; by destruct (H4 Hc)|]. split; intros; [right; lia|apply H6; lia].
Qed.

Lemma take_iter_set n (X : gset string) :
  size X <= n -> list_to_set (C:=gset string) (take n (iter_set X)) = X.
Proof. intros Hn. rewrite take_ge by by rewrite length_iter_set. apply list_to_set_iter_set. Qed.

Lemma take_iter_set_subseteq n (X : gset string) :
  list_to_set (C:=gset string) (take n (iter_set X)) ⊆ X.
Proof.
  intros v Hv%elem_of_list_to_set. apply elem_of_iter_set. by eapply (subseteq_take n), Hv.
Qed.

(** ** Tables of summaries *)

(** The values a callable may have: those local to what it can call. *)
Definition may (E : string -> string -> Prop) (local : string -> gset string) (a v : string) : Prop :=
  exists d, rtc E a d /\ v ∈ local d.

Lemma may_call E local a b v : E a b -> may E local b v -> may E local a v.
Proof. intros Hab (d & Hd & Hv). exists d. split; [by eapply rtc_l|done]. Qed.

(** [M'] extends [M] entry by entry. *)
Definition grows (M M' : gmap string (gset string)) : Prop :=
  forall a X, M !! a = Some X -> exists X', M' !! a = Some X' /\ X ⊆ X'.

Lemma grows_refl M : grows M M.
Proof. intros a X HX. eauto. Qed.

Lemma grows_trans M1 M2 M3 : grows M1 M2 -> grows M2 M3 -> grows M1 M3.
Proof. intros H1 H2 a X (X' & HX' & ?)%H1. apply H2 in HX' as (X'' & ? & ?). set_solver. Qed.

Lemma grows_neighbours M M' a : grows M M' -> neighbours M a ⊆ neighbours M' a.
Proof.
  intros HM. unfold neighbours. destruct (M !! a) as [X|] eqn:Ha; [|set_solver].
  apply HM in Ha as (X' & -> & ?). done.
Qed.

Lemma grows_insert M a X X' : M !! a = Some X -> X ⊆ X' -> grows M (<[a := X']> M).
Proof.
  intros Ha HX b Y Hb. destruct (decide (a = b)) as [<-|Hab].
  - rewrite lookup_insert_eq. eexists. split; [done|]. by simplify_eq.
  - rewrite lookup_insert_ne by done. eauto.
Qed.

Definition table_size (M : gmap string (gset string)) : Z := msum (fun _ X => Z.of_nat (size X)) M.

Lemma table_size_insert M a X X' :
  M !! a = Some X ->
  table_size (<[a := X']> M) = (table_size M + Z.of_nat (size X') - Z.of_nat (size X))%Z.
Proof. intros Ha. unfold table_size. rewrite (msum_replace _ _ _ _ _ Ha). lia. Qed.

Section tables.
Context (bounds : CommonAnalysisBounds) (C : gset string) (E : string -> string -> Prop).

(** A table has a summary within the bound for every callable, between the seeds and the values the
    callable may have. *)
Record table_ok (local : string -> gset string) (M : gmap string (gset string)) : Prop := {
  t_dom : forall a, is_Some (M !! a) <-> a ∈ C;
  t_size : forall a X, M !! a = Some X -> size X <= max_summary_values bounds;
  t_sound : forall a X v, M !! a = Some X -> v ∈ X -> may E local a v
}.

(** Extending one entry with values its callee may have. *)
Lemma table_insert local M prior a b X X' :
  table_ok local M -> table_ok local prior -> M !! a = Some X -> E a b ->
  X' ⊆ X ∪ neighbours prior b -> size X' <= max_summary_values bounds ->
  table_ok local (<[a := X']> M).
Proof.
  intros [Hd Hs Hv] [_ _ Hp] Ha Hab HX Hsz. split.
  - intros c. rewrite lookup_insert_is_Some', Hd. assert (a ∈ C) by (apply Hd; eauto).
    naive_solver.
  - intros c Y [[<- <-]|[_ Hc]]%lookup_insert_Some; eauto.
  - intros c Y v [[<- <-]|[_ Hc]]%lookup_insert_Some Hin; [|by eapply Hv].
    apply HX in Hin as [Hin|Hin]%elem_of_union; [by eapply Hv|].
    unfold neighbours in Hin. destruct (prior !! b) as [Y|] eqn:Hb; [|set_solver].
    eapply may_call; [done|]. by eapply Hp.
Qed.

Lemma table_size_bound local M :
  table_ok local M ->
  (table_size M <= Z.of_nat (size C) * Z.of_nat (max_summary_values bounds))%Z.
Proof.
  intros [Hd Hs _].
  assert (dom M = C) as <- by (apply set_eq; intros a; by rewrite elem_of_dom, Hd).
  rewrite size_dom. clear Hd. unfold table_size. induction M as [|a X M Ha IH] using map_ind.
  { rewrite msum_empty, map_size_empty. lia. }
  rewrite msum_insert_fresh, map_size_insert_None by done.
  assert (size X <= max_summary_values bounds) by (apply (Hs a); by rewrite lookup_insert_eq).
  enough (msum (fun _ X => Z.of_nat (size X)) M
          <= Z.of_nat (size M) * Z.of_nat (max_summary_values bounds))%Z by lia.
  apply IH. intros b Y Hb. apply (Hs b). rewrite lookup_insert_ne; [done|congruence].
Qed.
End tables.

(** ** One call edge *)

Lemma unknown_summaries_evolves bindings c reason detail it A s :
  evolves no_rows A s (unknown_summaries bindings c reason detail it s).
Proof. apply foldl_evolves_silent. intros. apply unknown_evolves. Qed.

(** What one edge does to the caller's two summaries and to the incomplete callables. *)
Record edge_effect (bounds : CommonAnalysisBounds) (a : string) (pe pr : gset string)
    (X Y inc : gset string) (changed : bool) (X' Y' inc' : gset string) (changed' : bool) : Prop := {
  ee_effects : X ⊆ X' /\ X' ⊆ X ∪ pe;
  ee_resources : Y ⊆ Y' /\ Y' ⊆ Y ∪ pr;
  ee_sizes : (size X <= max_summary_values bounds -> size X' <= max_summary_values bounds) /\
             (size Y <= max_summary_values bounds -> size Y' <= max_summary_values bounds);
  ee_incomplete : inc' = inc \/ ((a ∉ inc) /\ inc' = {[a]} ∪ inc /\ changed' = true);
  ee_covers : a ∈ inc' \/ (pe ⊆ X' /\ pr ⊆ Y');
  ee_same : changed' = false -> changed = false /\ X' = X /\ Y' = Y /\ inc' = inc;
  ee_more : changed' = true ->
    changed = true \/ size X < size X' \/ size Y < size Y' \/ ((a ∉ inc) /\ inc' = {[a]} ∪ inc)
}.

Lemma insert_new_cases x (X : gset string) :
  (x ∈ X /\ insert_new x X = (X, false)) \/ ((x ∉ X) /\ insert_new x X = ({[x]} ∪ X, true)).
Proof.
  unfold insert_new. destruct (decide (x ∈ X)) as [Hx|Hx]; [left|right]; (split; [done|]).
  - rewrite bool_decide_eq_true_2 by done. f_equal. set_solver.
  - by rewrite bool_decide_eq_false_2.
Qed.

Lemma propagate_edge_spec bindings bounds it prior a b sums changed s X Y :
  sum_effects sums !! a = Some X -> sum_resources sums !! a = Some Y ->
  returns (propagate_edge bindings bounds it prior a b (sums, changed, s))
    (fun '(sums', changed', s') => evolves no_rows [] s s' /\
       exists X' Y' inc', sums' = mk_Summaries (<[a := X']> (sum_effects sums))
                                    (<[a := Y']> (sum_resources sums)) inc' /\
         edge_effect bounds a (list_to_set (propagated bounds (sum_effects prior) b))
           (list_to_set (propagated bounds (sum_resources prior) b))
           X Y (sum_incomplete sums) changed X' Y' inc' changed').
Proof.
  intros HX HY. unfold propagate_edge. rewrite HX. cbn [expect ok_or].
  pose proof (absorb_spec bounds (propagated bounds (sum_effects prior) b) X false changed) as HA.
  destruct (absorb _ _ X _ _) as [[X' h1] c1]. destruct HA as (A1 & A2 & A3 & A4 & A5 & A6).
  rewrite HY. cbn [expect ok_or].
  pose proof (absorb_spec bounds (propagated bounds (sum_resources prior) b) Y h1 c1) as HB.
  destruct (absorb _ _ Y _ _) as [[Y' h2] c2]. destruct HB as (B1 & B2 & B3 & B4 & B5 & B6).
  set (inc := sum_incomplete sums).
  (* the two places that may mark the caller incomplete *)
  match goal with |- context [if h2 then ?u else ?v] =>
    destruct (if h2 then u else v) as [[inc1 c3] s1] eqn:E1 end.
  assert (evolves no_rows [] s s1 /\ (h2 = true -> a ∈ inc1) /\
      ((inc1 = inc /\ c3 = c2) \/ ((a ∉ inc) /\ inc1 = {[a]} ∪ inc /\ c3 = true)))
    as (Hs1 & Hh2 & Hinc1).
  { destruct h2; [|simplify_eq; split_and!; [apply evolves_refl|done|by left]].
    destruct (insert_new_cases a inc) as [[Ha Hi]|[Ha Hi]]; rewrite Hi in E1; simplify_eq;
      (split_and!; [apply unknown_summaries_evolves|clear -Ha; set_solver|]);
      rewrite ?orb_false_r, ?orb_true_r; auto. }
  match goal with |- context [if bool_decide ?P then ?u else ?v] =>
    destruct (if bool_decide P then u else v) as [inc2 c4] eqn:E2 end.
  assert (inc1 ⊆ inc2 /\
      ((inc2 = inc1 /\ c4 = c3) \/ ((a ∉ inc1) /\ inc2 = {[a]} ∪ inc1 /\ c4 = true)))
    as (Hsub & Hinc2).
  { case_bool_decide; [|simplify_eq; split_and!; [done|by left]].
    destruct (insert_new_cases a inc1) as [[Ha Hi]|[Ha Hi]]; rewrite Hi in E2; simplify_eq;
      (split_and!; [clear -Ha; set_solver|]); rewrite ?orb_false_r, ?orb_true_r; auto. }
  assert ((inc2 = inc /\ c4 = c2) \/ ((a ∉ inc) /\ inc2 = {[a]} ∪ inc /\ c4 = true)) as Hinc.
  { destruct Hinc1 as [[-> ->]|(? & -> & ->)], Hinc2 as [[-> ->]|(Hn & -> & ->)];
      [by left|by right|by right|clear -Hn; set_solver]. }
  clear Hinc1 Hinc2 E1 E2. cbn beta iota. split; [done|]. exists X', Y', inc2. split; [done|].
  split; [done|done|done| | | |].
  - destruct Hinc as [[-> _]|(? & -> & ->)]; [by left|by right].
  - destruct h2; [left; by apply Hsub, Hh2|]. right. destruct (B3 eq_refl) as [Hh1 ?].
    by destruct (A3 Hh1).
  - intros Hc. destruct Hinc as [[-> ->]|(_ & _ & ->)]; [|done].
    destruct (B4 Hc) as [Hc1 ?]. by destruct (A4 Hc1).
  - intros Hc. destruct Hinc as [[-> ->]|(? & -> & ->)]; [|by right; right; right].
    destruct (B5 Hc) as [Hc1|?]; [|by right; right; left]. destruct (A5 Hc1); [by left|by right; left].
Qed.

(** ** One iteration *)

Lemma for_each_bind {A B S E} (g : A -> list B) (h : A -> B -> S -> result S E) l s :
  for_each l (fun x s => for_each (g x) (h x) s) s
  = for_each (l ≫= fun x => pair x <$> g x) (fun xy s => h xy.1 xy.2 s) s.
Proof.
  revert s. induction l as [|x l IH]; intros s; [done|]. cbn [for_each mbind list_bind].
  rewrite for_each_app.
  assert (forall s, for_each (pair x <$> g x) (fun xy s => h xy.1 xy.2 s) s = for_each (g x) (h x) s)
    as ->.
  { clear. induction (g x) as [|y ys IH]; intros s; [done|]. simpl. by destruct (h x y s). }
  destruct (for_each (g x) (h x) s); auto.
Qed.

Lemma for_each_ext {A S E} (f g : A -> S -> result S E) l s :
  (forall x s, f x s = g x s) -> for_each l f s = for_each l g s.
Proof. intros Hfg. revert s. induction l as [|x l IH]; intros s; simpl; [done|]. rewrite Hfg.
  by destruct (g x s). Qed.

Lemma for_each_concat {A S E} (f : A -> S -> result S E) (ls : list (list A)) s :
  for_each ls (fun l s => for_each l f s) s = for_each (concat ls) f s.
Proof.
  revert s. induction ls as [|l ls IH]; intros s; simpl; [done|]. rewrite for_each_app.
  by destruct (for_each l f s).
Qed.

Section fixed_point.
Context (bindings : CommonAnalysisBindings) (bounds : CommonAnalysisBounds).
Context (C : gset string) (adjacency : Adjacency) (LE LR : string -> gset string).
Context (Hadj : forall a b, steps_to adjacency a b -> a ∈ C /\ b ∈ C).

Abbreviation E := (steps_to adjacency).

Record sums_ok (sums : Summaries) : Prop := {
  so_effects : table_ok bounds C E LE (sum_effects sums);
  so_resources : table_ok bounds C E LR (sum_resources sums);
  so_incomplete : sum_incomplete sums ⊆ C
}.

(** Everything that can still grow: the iteration stops when it does not. *)
Definition weight (sums : Summaries) : Z :=
  (table_size (sum_effects sums) + table_size (sum_resources sums)
   + Z.of_nat (size (sum_incomplete sums)))%Z.

Lemma weight_bound sums :
  sums_ok sums ->
  (weight sums <= Z.of_nat (size C) * (2 * Z.of_nat (max_summary_values bounds) + 1))%Z.
Proof.
  intros [He Hr Hi]. apply table_size_bound in He, Hr. apply subseteq_size in Hi.
  unfold weight. lia.
Qed.

(** The edge [(a, b)] has been honoured: [a] has everything [b] had, or is incomplete. *)
Definition honoured (prior sums : Summaries) (a b : string) : Prop :=
  a ∈ sum_incomplete sums \/
  (neighbours (sum_effects prior) b ⊆ neighbours (sum_effects sums) a /\
   neighbours (sum_resources prior) b ⊆ neighbours (sum_resources sums) a).

Record extends (sums sums' : Summaries) : Prop := {
  ex_effects : grows (sum_effects sums) (sum_effects sums');
  ex_resources : grows (sum_resources sums) (sum_resources sums');
  ex_incomplete : sum_incomplete sums ⊆ sum_incomplete sums'
}.

Lemma extends_refl sums : extends sums sums.
Proof. split; [apply grows_refl..|done]. Qed.

Lemma extends_trans s1 s2 s3 : extends s1 s2 -> extends s2 s3 -> extends s1 s3.
Proof. intros [E1 R1 I1] [E2 R2 I2]. split; [exact (grows_trans _ _ _ E1 E2)|exact (grows_trans _ _ _ R1 R2)|by etrans]. Qed.

Lemma honoured_extends prior sums sums' a b :
  extends sums sums' -> honoured prior sums a b -> honoured prior sums' a b.
Proof.
  intros [He Hr Hi] [Ha|[H1 H2]]; [left; by apply Hi|right].
  split; (etrans; [done|]); by apply grows_neighbours.
Qed.

Record iterating (prior : Summaries) (s0 : AnalysisState) (D : list (string * string))
    (acc : Summaries * bool * AnalysisState) : Prop := {
  it_ok : sums_ok acc.1.1;
  it_extends : extends prior acc.1.1;
  it_same : acc.1.2 = false -> acc.1.1 = prior;
  it_weight : (weight prior <= weight acc.1.1)%Z;
  it_more : acc.1.2 = true -> (weight prior < weight acc.1.1)%Z;
  it_honoured : forall a b, (a, b) ∈ D -> honoured prior acc.1.1 a b;
  it_evolves : evolves no_rows [] s0 acc.2
}.

Lemma iterating_init prior s0 : sums_ok prior -> iterating prior s0 [] (prior, false, s0).
Proof.
  intros Hok. split; try done; [apply extends_refl|by intros a b ?%elem_of_nil|apply evolves_refl].
Qed.

Lemma propagated_all prior b :
  (forall X, prior !! b = Some X -> size X <= max_summary_values bounds) ->
  list_to_set (C:=gset string) (propagated bounds prior b) = neighbours prior b.
Proof.
  intros Hs. unfold propagated, neighbours. destruct (prior !! b) as [X|]; simpl.
  - by apply take_iter_set, Hs.
  - by apply take_iter_set; rewrite size_empty; lia.
Qed.

Lemma iterating_step it prior s0 D acc a b :
  sums_ok prior -> E a b -> iterating prior s0 D acc ->
  returns (propagate_edge bindings bounds it prior a b acc) (iterating prior s0 (D ++ [(a, b)])).
Proof.
  destruct acc as [[sums changed] s]. intros Hp Hab [Hok Hext Hsame Hw Hmore Hh Hev].
  cbn [fst snd] in *. destruct (Hadj a b Hab) as [Ha _].
  destruct (proj2 (t_dom _ _ _ _ _ (so_effects _ Hok) a) Ha) as [X HX].
  destruct (proj2 (t_dom _ _ _ _ _ (so_resources _ Hok) a) Ha) as [Y HY].
  eapply returns_mono; [by apply propagate_edge_spec|].
  intros [[sums' changed'] s'] [Hev' (X' & Y' & inc' & -> & Hee)].
  rewrite (propagated_all (sum_effects prior)) in Hee
    by (intros Z HZ; exact (t_size _ _ _ _ _ (so_effects _ Hp) _ _ HZ)).
  rewrite (propagated_all (sum_resources prior)) in Hee
    by (intros Z HZ; exact (t_size _ _ _ _ _ (so_resources _ Hp) _ _ HZ)).
  destruct Hee as [[E1 E2] [R1 R2] [S1 S2] Hinc Hcov Hs Hm].
  assert (sum_incomplete sums ⊆ inc') as Hinc'
    by (destruct Hinc as [-> | (_ & -> & _)]; [done|apply union_subseteq_r]).
  assert (extends sums (mk_Summaries (<[a:=X']> (sum_effects sums)) (<[a:=Y']> (sum_resources sums)) inc'))
    as Hgrow by (split; [by eapply grows_insert..|done]).
  assert (weight (mk_Summaries (<[a:=X']> (sum_effects sums)) (<[a:=Y']> (sum_resources sums)) inc')
          = weight sums + (Z.of_nat (size X') - Z.of_nat (size X))
            + (Z.of_nat (size Y') - Z.of_nat (size Y))
            + (Z.of_nat (size inc') - Z.of_nat (size (sum_incomplete sums))))%Z as Hweight.
  { unfold weight. simpl. erewrite !table_size_insert by done. lia. }
  pose proof (subseteq_size _ _ E1) as HsX. pose proof (subseteq_size _ _ R1) as HsY.
  pose proof (subseteq_size _ _ Hinc') as HsI.
  split; cbn [fst snd sum_effects sum_resources sum_incomplete].
  - split; simpl.
    + eapply table_insert; [apply Hok|apply Hp|done..|]. apply S1. exact (t_size _ _ _ _ _ (so_effects _ Hok) _ _ HX).
    + eapply table_insert; [apply Hok|apply Hp|done..|]. apply S2. exact (t_size _ _ _ _ _ (so_resources _ Hok) _ _ HY).
    + destruct Hinc as [-> | (_ & -> & _)]; [apply Hok|]. apply union_subseteq.
      split; [by apply singleton_subseteq_l|apply Hok].
  - by eapply extends_trans.
  - intros Hc. destruct (Hs Hc) as (Hc0 & -> & -> & ->). rewrite <- (Hsame Hc0).
    rewrite !insert_id by done. by destruct sums.
  - rewrite Hweight. lia.
  - intros Hc. rewrite Hweight. destruct (Hm Hc) as [Hc0|[?|[?|[Hn ->]]]].
    + specialize (Hmore Hc0). lia.
    + lia.
    + lia.
    + rewrite size_union, size_singleton by (clear -Hn; set_solver). lia.
  - intros a' b' [Hin|[= -> ->]%list_elem_of_singleton]%elem_of_app.
    + eapply honoured_extends; [exact Hgrow|]. by apply Hh.
    + destruct Hcov as [Hi|[H1 H2]]; [by left|right]. simpl. unfold neighbours at 2 4.
      by rewrite !lookup_insert_eq.
  - by eapply evolves_trans_r.
Qed.

(** The call edges in the order an iteration visits them. *)
Definition call_pairs (schedule : list (list string)) : list (string * string) :=
  concat schedule ≫= fun a => pair a <$> iter_set (neighbours adjacency a).

Lemma elem_of_call_pairs schedule a b :
  (a, b) ∈ call_pairs schedule <-> a ∈ concat schedule /\ E a b.
Proof.
  unfold call_pairs. rewrite list_elem_of_bind. split.
  - intros (a' & (b' & [= -> ->] & Hb)%list_elem_of_fmap & Ha). by apply elem_of_iter_set in Hb.
  - intros [Ha Hb]. exists a. split; [|done]. apply list_elem_of_fmap. exists b.
    by rewrite elem_of_iter_set.
Qed.

Lemma iteration_spec it schedule prior s :
  sums_ok prior ->
  returns (for_each schedule (fun group acc =>
             for_each group (propagate_caller bindings bounds it adjacency prior) acc) (prior, false, s))
    (iterating prior s (call_pairs schedule)).
Proof.
  intros Hp. rewrite for_each_concat. unfold propagate_caller.
  rewrite (for_each_bind (fun caller => iter_set (default ∅ (adjacency !! caller)))
             (propagate_edge bindings bounds it prior)).
  apply (for_each_returns (fun done _ acc => iterating prior s done acc)).
  - by apply iterating_init.
  - intros done [a b] todo acc Hl Hacc. cbn [fst snd]. apply iterating_step; [done| |done].
    assert ((a, b) ∈ call_pairs schedule) as [_ Hab]%elem_of_call_pairs; [|done].
    rewrite Hl. apply elem_of_app. right. apply list_elem_of_here.
Qed.

(** The whole loop: sound summaries; all edges honoured unless the iterations ran out, and then
    every iteration made some progress. *)
Lemma propagate_loop_spec schedule remaining it sums s :
  sums_ok sums ->
  returns (propagate_loop bindings bounds remaining it schedule adjacency sums s)
    (fun '(exhausted, sums', s') =>
       sums_ok sums' /\ extends sums sums' /\ evolves no_rows [] s s' /\
       (exhausted = false -> forall a b, a ∈ concat schedule -> E a b -> honoured sums' sums' a b) /\
       (exhausted = true -> (weight sums + Z.of_nat remaining <= weight sums')%Z)).
Proof.
  revert it sums s. induction remaining as [|remaining IH]; intros it sums s Hok; cbn [propagate_loop].
  - split; [done|]. split; [apply extends_refl|]. split; [apply evolves_refl|]. split; [done|lia].
  - eapply returns_bind; [by apply (iteration_spec it schedule sums (set_iterations s it))|].
    intros [[sums' changed] s'] Hit. destruct changed.
    + eapply returns_mono; [apply IH; apply (it_ok _ _ _ _ Hit)|].
      intros [[exhausted sums''] s''] (H1 & H2 & H3 & H4 & H5). split; [done|].
      split; [eapply extends_trans; [apply (it_extends _ _ _ _ Hit)|done]|].
      split; [eapply evolves_trans_l; [|exact H3];
              eapply evolves_trans_l; [apply (set_iterations_evolves it)|apply (it_evolves _ _ _ _ Hit)]|].
      split; [done|]. intros He%H5. pose proof (it_more _ _ _ _ Hit eq_refl) as Hm. simpl in Hm. lia.
    + split; [apply (it_ok _ _ _ _ Hit)|]. split; [apply (it_extends _ _ _ _ Hit)|].
      split; [eapply evolves_trans_l; [apply (set_iterations_evolves it)|apply (it_evolves _ _ _ _ Hit)]|].
      split; [|done]. intros _ a b Ha Hab.
      pose proof (it_same _ _ _ _ Hit eq_refl) as Hs. simpl in Hs. subst sums'.
      apply (it_honoured _ _ _ _ Hit). by apply elem_of_call_pairs.
Qed.

Lemma propagate_summaries_spec schedule sums s :
  sums_ok sums -> (forall a, a ∈ C -> a ∈ concat schedule) ->
  returns (propagate_summaries bindings bounds schedule adjacency sums s)
    (fun '(exhausted, sums', s') =>
       sums_ok sums' /\ extends sums sums' /\ evolves no_rows [] s s' /\
       (exhausted = false -> forall a b, E a b -> honoured sums' sums' a b) /\
       (exhausted = true -> (weight sums + Z.of_nat (max_iterations bounds) <= weight sums')%Z)).
Proof.
  intros Hok Hsched. unfold propagate_summaries. destruct schedule as [|group schedule].
  - split; [done|]. split; [apply extends_refl|]. split; [apply evolves_refl|]. split; [|done].
    intros _ a b Hab. destruct (Hadj a b Hab) as [Ha%Hsched _]. by apply elem_of_nil in Ha.
  - eapply returns_mono; [by apply propagate_loop_spec|].
    intros [[exhausted sums'] s'] (H1 & H2 & H3 & H4 & H5). split_and!; [done..| |done].
    intros He a b Hab. apply H4; [done| |done]. apply Hsched. by apply (Hadj a b).
Qed.

(** ** Exactness *)

(** From honoured edges, and seeds that hold the local values of complete callables, a callable that
    calls no incomplete one has every value it may have. *)
Lemma complete_summary_is_exact sums (incomplete : gset string) a v
    (table : Summaries -> gmap string (gset string)) (L : string -> gset string) :
  table = sum_effects \/ table = sum_resources ->
  (forall a b, E a b -> honoured sums sums a b) -> sum_incomplete sums ⊆ incomplete ->
  (forall a b, E a b -> b ∈ incomplete -> a ∈ incomplete) ->
  (forall d, d ∈ C -> d ∉ incomplete -> L d ⊆ neighbours (table sums) d) ->
  a ∈ C -> a ∉ incomplete -> may E L a v -> v ∈ neighbours (table sums) a.
Proof.
  intros Ht Hh Hi Hback Hseed Ha Hna (d & Had & Hv).
  induction Had as [a|a b d Hab _ IH]; [by apply (Hseed a)|].
  assert (b ∉ incomplete) as Hnb by (intros Hb; eapply Hna, Hback; done).
  destruct (Hadj a b Hab) as [_ Hb]. specialize (IH Hb Hnb Hv).
  destruct (Hh a b Hab) as [Hia|[H1 H2]]; [by apply Hi in Hia|].
  destruct Ht as [-> | ->]; [by apply H1|by apply H2].
Qed.
End fixed_point.
