(* ===== verification/CommonTopology.v ===== *)
(** The call graph, its components, reachability and the schedule of the fixed point
    ([derive_topology], [fixed_point_schedule]): the loops succeed, emit exactly the rows of the
    graph, and settle the units of their families. *)

From stdpp Require Import sorting.
From S2P Require Import Prelude Encoding CommonModel CommonCfg CommonCalls CommonTheory CommonGraph.

(** ** Callables and calls *)

Lemma elem_of_foldl_insert {A} (key : A -> string) (l : list A) (acc : gset string) x :
  x ∈ foldl (fun acc y => {[key y]} ∪ acc) acc l <-> x ∈ acc \/ x ∈ key <$> l.
Proof.
  revert acc. induction l as [|y l IH]; intros acc; simpl; [set_solver|]. rewrite IH. set_solver.
Qed.

(** The callables: those with local semantics, those that call, and those called exactly. *)
Lemma elem_of_callables_of input x :
  x ∈ callables_of input <->
  x ∈ l_callable_id <$> local_semantics input \/ x ∈ caller_id <$> calls input \/
  exists call, exact_call input call /\ call.1.2 = x.
Proof.
  unfold callables_of.
  assert (x ∈ foldl (fun acc local => {[l_callable_id local]} ∪ acc) (∅ : gset string)
                (local_semantics input) <-> x ∈ l_callable_id <$> local_semantics input) as <-
    by (rewrite elem_of_foldl_insert; set_solver).
  setoid_rewrite <- elem_of_exact_calls.
  generalize (foldl (fun acc local => {[l_callable_id local]} ∪ acc) (∅ : gset string)
                (local_semantics input)) as acc.
  induction (calls input) as [|c l IH]; intros acc; [simpl; set_solver|]. cbn [foldl]. rewrite IH.
  assert (forall y : string * string * string, y ∈ omap exact_call_of (c :: l) <->
            exact_call_of c = Some y \/ y ∈ omap exact_call_of l) as Hom.
  { intros y. simpl. destruct (exact_call_of c) eqn:E; set_solver. }
  setoid_rewrite Hom. clear Hom IH. unfold exact_call_of at 2.
  destruct (resolution c) as [b| |]; rewrite fmap_cons, elem_of_cons; set_solver.
Qed.

(** ** Adjacency *)

(** [m] has an entry for every callable, and its neighbours are those of [E]. *)
Definition adj_ok (C : gset string) (E : string -> string -> Prop) (m : Adjacency) : Prop :=
  (forall a, is_Some (m !! a) <-> a ∈ C) /\ (forall a b, steps_to m a b <-> E a b).

Lemma adj_ok_init C : adj_ok C (fun _ _ => False) (gset_to_gmap ∅ C).
Proof.
  split.
  - intros a. destruct (decide (a ∈ C)).
    + by rewrite lookup_gset_to_gmap, option_guard_True.
    + rewrite lookup_gset_to_gmap, option_guard_False by done. split; [by intros []|done].
  - intros a b. unfold steps_to, neighbours. rewrite lookup_gset_to_gmap.
    case_guard; simpl; set_solver.
Qed.

Lemma adj_ok_ext C E E' m : (forall a b, E a b <-> E' a b) -> adj_ok C E m -> adj_ok C E' m.
Proof. intros HE [Hd Hs]. split; [done|]. intros a b. by rewrite Hs. Qed.

Lemma insert_neighbour_ok C E m a b :
  adj_ok C E m -> a ∈ C ->
  returns (insert_neighbour a b m) (adj_ok C (fun x y => E x y \/ (x = a /\ y = b))).
Proof.
  intros [Hd Hs] Ha. destruct (proj2 (Hd a) Ha) as [X HX]. unfold insert_neighbour. rewrite HX. simpl.
  split.
  - intros c. rewrite lookup_insert_is_Some', Hd. naive_solver.
  - intros c d. rewrite <- Hs. unfold steps_to, neighbours. destruct (decide (a = c)) as [<-|Hne].
    + rewrite lookup_insert_eq, HX. simpl. set_solver.
    + rewrite lookup_insert_ne by done. naive_solver.
Qed.

(** ** Settling units *)

Lemma settle_one (g : Z -> Progress -> Progress) s f rq n :
  g = add_completed \/ g = add_unknown -> account s f rq n -> (n < u64_max)%Z ->
  returns (progress_mut f (g 1%Z) s)
    (fun s' => evolves no_rows [f] s s' /\ account s' f rq (n + 1)).
Proof. intros Hg Ha Hn. apply progress_mut_settles; [done|done|lia|lia]. Qed.

(** A row noted as unknown and one more unknown unit. *)
Lemma note_unknown s f sub reason detail it rq n :
  account s f rq n -> (n < u64_max)%Z ->
  returns (progress_mut f (add_unknown 1) (unknown f sub reason detail it s))
    (fun s' => evolves no_rows [f] s s' /\ account s' f rq (n + 1) /\
               mk_UnknownRow f sub reason detail it ∈ unknowns s').
Proof.
  intros Ha Hn. eapply returns_mono; [apply (settle_one add_unknown); [by right| |done]|].
  - by eapply account_progress, Ha.
  - intros s' [Hev Hacc]. split_and!; [|done|].
    + by eapply evolves_trans_l; [apply unknown_evolves|].
    + apply (ev_unknowns _ _ _ _ Hev). simpl. set_solver.
Qed.

Lemma evolves_incl R A A' s s' : evolves R A s s' -> A ⊆ A' -> evolves R A' s s'.
Proof. intros H HA. by eapply evolves_weaken. Qed.

(** ** Collecting loops *)

(** [l.iter().map(f).collect()] for a fallible [f]. *)
Lemma for_each_collect {A B E} (f : A -> result B E) (P : A -> B -> Prop) l :
  (forall x, x ∈ l -> returns (f x) (P x)) ->
  returns (for_each l (fun x acc => let? y := f x in Ok (acc ++ [y])) []) (Forall2 P l).
Proof.
  intros Hf. apply (for_each_returns (fun done _ acc => Forall2 P done acc)); [constructor|].
  intros done x todo acc -> Hacc.
  eapply returns_bind; [apply Hf, elem_of_app; right; apply list_elem_of_here|].
  intros y Hy. simpl. apply Forall2_app; [done|]. by constructor.
Qed.

Lemma concat_perm {A} (ls ls' : list (list A)) : ls ≡ₚ ls' -> concat ls ≡ₚ concat ls'.
Proof.
  induction 1; simpl; [done|by f_equiv| |by etrans]. rewrite !app_assoc. f_equiv. apply Permutation_app_comm.
Qed.

Lemma elem_of_concat {A} (ls : list (list A)) x : x ∈ concat ls <-> exists l, l ∈ ls /\ x ∈ l.
Proof.
  setoid_rewrite list_elem_of_In. rewrite in_concat. naive_solver.
Qed.

Lemma concat_perm_pointwise {A} (ls ls' : list (list A)) :
  Forall2 Permutation ls ls' -> concat ls ≡ₚ concat ls'.
Proof. induction 1; simpl; [done|by f_equiv]. Qed.

Lemma Forall2_concat {A B} (P : A -> B -> Prop) ls ls' :
  Forall2 (Forall2 P) ls ls' -> Forall2 P (concat ls) (concat ls').
Proof. induction 1; simpl; [constructor|by apply Forall2_app]. Qed.

(** Reading a list at a permutation of its positions permutes it. *)
Lemma lookup_seq_perm {A} (ids ws : list A) (order : list nat) :
  order ≡ₚ seq 0 (length ids) -> Forall2 (fun i w => ids !! i = Some w) order ws -> ws ≡ₚ ids.
Proof.
  intros Hp H2. destruct (Permutation_Forall2 Hp H2) as (ws' & -> & H2').
  enough (ws' = ids) as -> by done. apply list_eq. intros i.
  destruct (decide (i < length ids)) as [Hi|Hi].
  - assert (seq 0 (length ids) !! i = Some i) as Hs by (apply lookup_seq; lia).
    destruct (Forall2_lookup_l _ _ _ _ _ H2' Hs) as (w & -> & Hw). done.
  - apply Forall2_length in H2'. rewrite length_seq in H2'.
    rewrite !lookup_ge_None_2; [done|lia|lia].
Qed.

Section components.
Context `{!Petgraph, !PetgraphLaws}.
Context (ids : list string) (E : string -> string -> Prop) (g : CanonicalGraph) (idx : gmap string nat).
Context (Hg : graph_ok ids E g idx) (Hin : forall x y, E x y -> x ∈ ids /\ y ∈ ids).

Lemma weight_of_ok i : i < length ids -> returns (weight_of g i) (fun w => ids !! i = Some w).
Proof.
  intros [w Hw]%lookup_lt_is_Some_2. unfold weight_of. by rewrite (go_weights _ _ _ _ Hg), Hw.
Qed.

(** The components: a partition of the nodes into mutually reachable ones. *)
Definition components_ok (components : list (list string)) : Prop :=
  concat components ≡ₚ ids /\
  (forall c a b, c ∈ components -> a ∈ c -> b ∈ ids -> b ∈ c <-> rtc E a b /\ rtc E b a).

Lemma tarjan_member c i :
  c ∈ tarjan_scc (node_count g) (graph_edges g) -> i ∈ c -> i < length ids.
Proof.
  intros Hc Hi. pose proof (tarjan_scc_partition _ _ (graph_edges_in _ _ _ _ Hg)) as Hp.
  assert (i ∈ seq 0 (node_count g)) as Hs%elem_of_seq.
  { rewrite <- Hp. apply elem_of_concat. eauto. }
  unfold node_count in Hs. rewrite (go_weights _ _ _ _ Hg) in Hs. lia.
Qed.

(** A component read as identities. *)
Lemma component_ids c ws a b :
  c ∈ tarjan_scc (node_count g) (graph_edges g) -> Forall2 (fun i w => ids !! i = Some w) c ws ->
  a ∈ ws -> b ∈ ids -> b ∈ ws <-> rtc E a b /\ rtc E b a.
Proof.
  intros Hc H2 Ha [j Hj]%list_elem_of_lookup.
  apply list_elem_of_lookup in Ha as [k Hk]. destruct (Forall2_lookup_r _ _ _ _ _ H2 Hk) as (i & Hi & Hai).
  apply list_elem_of_lookup_2 in Hi.
  assert (b ∈ ws <-> j ∈ c) as ->.
  { split.
    - intros [k' Hk']%list_elem_of_lookup.
      destruct (Forall2_lookup_r _ _ _ _ _ H2 Hk') as (j' & Hj' & Hb).
      rewrite <- (NoDup_lookup ids j' j b (go_NoDup _ _ _ _ Hg) Hb Hj). by eapply list_elem_of_lookup_2.
    - intros [k' Hk']%list_elem_of_lookup.
      destruct (Forall2_lookup_l _ _ _ _ _ H2 Hk') as (b' & Hb' & Hb). simplify_eq.
      by eapply list_elem_of_lookup_2. }
  rewrite (tarjan_scc_components _ _ c i j (graph_edges_in _ _ _ _ Hg) Hc Hi).
  2:{ unfold node_count. rewrite (go_weights _ _ _ _ Hg). by eapply lookup_lt_Some. }
  split; intros [H1 H2'].
  - destruct (rtc_ids _ _ _ _ Hg _ _ _ Hai H1) as (b' & ? & ?).
    destruct (rtc_ids _ _ _ _ Hg _ _ _ Hj H2') as (a' & ? & ?). by simplify_eq.
  - split; by eapply ids_rtc.
Qed.

Lemma deterministic_sccs_spec : returns (deterministic_sccs g) components_ok.
Proof.
  unfold deterministic_sccs.
  set (T := tarjan_scc (node_count g) (graph_edges g)).
  set (P := fun (c : list nat) (ws : list string) =>
        exists ws', Forall2 (fun i w => ids !! i = Some w) c ws' /\ ws ≡ₚ ws').
  apply (returns_bind _ _ (Forall2 P T)).
  - apply (for_each_returns (fun done _ acc => Forall2 P done acc)); [constructor|].
    intros done c todo acc HT Hacc. eapply returns_bind.
    + apply (for_each_collect (weight_of g) (fun i w => ids !! i = Some w)).
      intros i Hi. apply weight_of_ok. eapply tarjan_member, Hi. fold T. rewrite HT.
      apply elem_of_app. right. apply list_elem_of_here.
    + intros ws Hws. simpl. apply Forall2_app; [done|]. constructor; [|done].
      exists ws. split; [done|]. apply merge_sort_Permutation.
  - intros comps HP. simpl. split.
    + rewrite (concat_perm _ comps) by apply merge_sort_Permutation.
      assert (exists wss, Forall2 (Forall2 (fun i w => ids !! i = Some w)) T wss /\
                          Forall2 Permutation comps wss) as (wss & H1 & H2).
      { clear -HP. induction HP as [|c ws T comps (ws' & ? & ?) _ (wss & ? & ?)].
        - exists []. split; constructor.
        - exists (ws' :: wss). split; by constructor. }
      rewrite (concat_perm_pointwise _ _ H2).
      apply (lookup_seq_perm ids _ (concat T)); [|by apply Forall2_concat].
      subst T. rewrite (tarjan_scc_partition _ _ (graph_edges_in _ _ _ _ Hg)). unfold node_count.
      by rewrite (go_weights _ _ _ _ Hg).
    + intros ws a b Hws. rewrite merge_sort_Permutation in Hws.
      apply list_elem_of_lookup in Hws as [k Hk].
      destruct (Forall2_lookup_r _ _ _ _ _ HP Hk) as (c & Hc & ws' & H2 & Hp).
      rewrite Hp. eapply component_ids; [|done]. by eapply list_elem_of_lookup_2.
Qed.
End components.

Section topology.
Context (blake3_hash : list byte -> byte_array 32) `{!Petgraph, !PetgraphLaws}.
Context (bindings : CommonAnalysisBindings) (bounds : CommonAnalysisBounds).
Context (Hfams : NoDup (families_all (families bindings))).

Abbreviation fams := (families bindings).

(** ** The exact calls *)

Definition call_row (call : string * string * string) : FactRow :=
  call_fact (call_graph fams) call.1.1 (Some call.1.2) (Some call.2) None true.

Lemma record_calls_spec C exact rq s :
  (forall a b site, (a, b, site) ∈ exact -> a ∈ C /\ b ∈ C) ->
  (Z.of_nat (length exact) <= u64_max)%Z -> account s (call_graph fams) rq 0 ->
  returns (for_each exact (record_call bindings bounds) (gset_to_gmap ∅ C, gset_to_gmap ∅ C, s))
    (fun acc => evolves (fun r => exists call, call ∈ exact /\ r = call_row call) [call_graph fams] s acc.2 /\
       adj_ok C (call_edge exact) acc.1.1 /\ adj_ok C (flip (call_edge exact)) acc.1.2 /\
       account acc.2 (call_graph fams) rq (Z.of_nat (length exact))).
Proof.
  intros Hin Hlen Hacc.
  apply (for_each_evolves snd (record_call bindings bounds) (fun call r => r = call_row call)
    [call_graph fams] (fun done acc =>
      adj_ok C (call_edge done) acc.1.1 /\ adj_ok C (flip (call_edge done)) acc.1.2 /\
      account acc.2 (call_graph fams) rq (Z.of_nat (length done)))).
  - cbn [fst snd]. split_and!; [| |done];
      (eapply adj_ok_ext, adj_ok_init; intros a b; split; [done|]; by intros [site ?%elem_of_nil]).
  - intros done [[a b] site] todo [[adj rev] s1] Hl (Hadj & Hrev & Ha). cbn [fst snd] in *.
    destruct (Hin a b site) as [HaC HbC]; [rewrite Hl; apply elem_of_app; right; apply list_elem_of_here|].
    unfold record_call. eapply returns_bind; [by apply (insert_neighbour_ok C _ _ a b Hadj)|].
    intros adj' Hadj'. eapply returns_bind; [by apply (insert_neighbour_ok C _ _ b a Hrev)|].
    intros rev' Hrev'.
    eapply returns_bind; [apply (settle_one add_completed); [by left| |]|].
    + eapply account_frame; [apply (insert_fact_evolves _ _ [])|apply not_elem_of_nil|exact Ha].
    + rewrite Hl, length_app in Hlen. simpl in Hlen. lia.
    + intros s2 [Hev Ha2]. simpl. split_and!.
      * eapply evolves_trans_r; [|exact Hev].
        eapply evolves_weaken; [apply insert_fact_evolves| |done]. naive_solver.
      * eapply adj_ok_ext, Hadj'. intros x y. unfold call_edge. setoid_rewrite elem_of_app.
        setoid_rewrite list_elem_of_singleton. naive_solver.
      * eapply adj_ok_ext, Hrev'. intros x y. unfold flip, call_edge. setoid_rewrite elem_of_app.
        setoid_rewrite list_elem_of_singleton. naive_solver.
      * replace (Z.of_nat (length (done ++ [(a, b, site)]))) with (Z.of_nat (length done) + 1)%Z
          by (rewrite length_app; simpl; lia). done.
Qed.

(** ** Calls without an exact target *)

Definition gaps (l : list CommonCallSite) : list CommonCallSite :=
  filter (fun call => is_exact call = false) l.

Lemma gaps_snoc l c :
  gaps (l ++ [c]) = gaps l ++ (if is_exact c then [] else [c]).
Proof.
  unfold gaps. rewrite filter_app. f_equal. rewrite filter_cons, filter_nil.
  by destruct (is_exact c).
Qed.

Definition topology_families : list string := [call_graph fams; scc_membership fams; reachability fams].

(** The units of the three topology families: the graph has settled its exact calls. *)
Definition gap_accounts (s : AnalysisState) (rq rq' exact gaps : Z) : Prop :=
  account s (call_graph fams) rq (exact + gaps) /\ account s (scc_membership fams) rq' gaps /\
  account s (reachability fams) rq' gaps.

Lemma settle_gap {T} (k : AnalysisState -> result T AnalysisFault) Ψ (site reason detail : string)
    s rq rq' exact n :
  gap_accounts s rq rq' exact n -> (0 <= exact)%Z -> (exact + n < u64_max)%Z ->
  (forall s', evolves no_rows topology_families s s' -> gap_accounts s' rq rq' exact (n + 1) ->
     returns (k s') Ψ) ->
  returns (let? s := progress_mut (call_graph fams) (add_unknown 1)
                       (unknown (call_graph fams) (Some site) reason (Some detail) 0 s) in
           let? s := for_each [scc_membership fams; reachability fams] (fun family s =>
             progress_mut family (add_unknown 1)
               (unknown family (Some site) reason (Some "call topology is incomplete"%string) 0 s)) s in
           k s) Ψ.
Proof.
  intros (H1 & H2 & H3) Hexact Hn Hk.
  eapply returns_bind; [by apply note_unknown|]. intros s1 (Hev1 & Ha1 & _).
  apply (returns_bind _ _ (fun s' => evolves no_rows topology_families s s' /\
    gap_accounts s' rq rq' exact (n + 1))); [|intros s' [? ?]; by apply Hk].
  cbn [for_each].
  eapply returns_bind; [apply (note_unknown _ _ _ _ _ _ rq' n); [|lia]|].
  { eapply (account_frame _ _ _ _ _ _ _ Hev1); [other_family Hfams|exact H2]. }
  intros s2 (Hev2 & Ha2 & _).
  eapply returns_bind; [apply (note_unknown _ _ _ _ _ _ rq' n); [|lia]|].
  { eapply (account_frame _ _ _ _ _ _ _ Hev2); [other_family Hfams|].
    eapply (account_frame _ _ _ _ _ _ _ Hev1); [other_family Hfams|exact H3]. }
  intros s3 (Hev3 & Ha3 & _). simpl. split.
  - eapply evolves_trans_l; [eapply evolves_incl; [exact Hev1|set_solver]|].
    eapply evolves_trans_l; (eapply evolves_incl; [done|set_solver]).
  - split_and!; [|eapply (account_frame _ _ _ _ _ _ _ Hev3); [other_family Hfams|done]|done].
    replace (exact + (n + 1))%Z with (exact + n + 1)%Z by lia.
    eapply (account_frame _ _ _ _ _ _ _ Hev3); [other_family Hfams|].
    eapply (account_frame _ _ _ _ _ _ _ Hev2); [other_family Hfams|done].
Qed.

Lemma record_gaps_spec cs rq rq' exact s :
  (0 <= exact)%Z -> (exact + Z.of_nat (length (gaps cs)) <= u64_max)%Z ->
  gap_accounts s rq rq' exact 0 ->
  returns (for_each cs (record_gap bindings) (∅, s))
    (fun acc => evolves no_rows topology_families s acc.2 /\
       (forall x, x ∈ acc.1 <-> x ∈ caller_id <$> gaps cs) /\
       gap_accounts acc.2 rq rq' exact (Z.of_nat (length (gaps cs)))).
Proof.
  intros Hexact Hlen Hacc. eapply returns_mono.
  - apply (for_each_evolves snd (record_gap bindings) (fun _ => no_rows) topology_families
      (fun done acc => (forall x, x ∈ acc.1 <-> x ∈ caller_id <$> gaps done) /\
         gap_accounts acc.2 rq rq' exact (Z.of_nat (length (gaps done))))).
    + split; [|done]. intros x. simpl. set_solver.
    + intros done c todo [inc s1] Hl [Hinc Ha]. cbn [fst snd] in *.
      assert (exact + Z.of_nat (length (gaps (done ++ [c]))) <= u64_max)%Z as Hlen'.
      { rewrite Hl in Hlen. change (c :: todo) with ([c] ++ todo) in Hlen.
        rewrite app_assoc in Hlen. unfold gaps in *. rewrite filter_app, length_app in Hlen. lia. }
      rewrite gaps_snoc in *. unfold is_exact in *. unfold record_gap.
      destruct (resolution c) eqn:Hr.
      1:{ simpl. rewrite app_nil_r. split; [apply evolves_refl|done]. }
      all: rewrite length_app in *; simpl in Hlen';
        (eapply settle_gap; [done|done|lia|]); intros s2 Hev2 Ha2; simpl;
        (split; [done|]; split; [|by rewrite Nat2Z.inj_add]); intros x; rewrite fmap_app; set_solver.
  - intros acc [Hev Hacc']. split; [|done]. eapply evolves_weaken; [exact Hev| |done].
    unfold no_rows. naive_solver.
Qed.

(** ** Components *)

Lemma any_ok_returns {A E'} (f : A -> result bool E') (P : A -> Prop) l :
  (forall x, x ∈ l -> returns (f x) (fun b => b = true <-> P x)) ->
  returns (any_ok f l) (fun b => b = true <-> exists x, x ∈ l /\ P x).
Proof.
  induction l as [|x l IH]; intros Hf; simpl.
  - split; [done|]. intros (x & []%elem_of_nil & _).
  - pose proof (Hf x (list_elem_of_here _ _)) as Hx. destruct (f x) as [b|]; [|done]. simpl in Hx.
    destruct b; simpl.
    + split; [|done]. intros _. exists x. split; [apply list_elem_of_here|by apply Hx].
    + eapply returns_mono; [apply IH; intros y Hy; by apply Hf, list_elem_of_further|].
      intros b Hb. rewrite Hb. setoid_rewrite elem_of_cons. naive_solver.
Qed.

Lemma is_recursive_returns (f : string -> result bool AnalysisFault) (P : string -> Prop) c :
  (forall x, x ∈ c -> returns (f x) (fun b => b = true <-> P x)) ->
  returns (is_recursive f c) (fun b => b = true <-> 1 < length c \/ exists x, x ∈ c /\ P x).
Proof.
  intros Hf. unfold is_recursive. destruct (Nat.ltb_spec 1 (length c)); simpl.
  - split; [by left|done].
  - eapply returns_mono; [by apply any_ok_returns|]. intros b Hb. rewrite Hb. split; [by right|].
    intros [?|?]; [lia|done].
Qed.

Definition scc_row (complete : bool) (component : list string) (callable : string) : FactRow :=
  call_fact (scc_membership fams) callable (Some (component_identity blake3_hash component)) None None
    complete.

(** What the component loops keep: the units of the members seen, and the incomplete callables,
    which only gain members. *)
Definition component_inv (rq n : Z) (inc0 seen : gset string) (count : nat)
    (acc : gset string * AnalysisState) : Prop :=
  account acc.2 (scc_membership fams) rq (n + Z.of_nat count) /\ inc0 ⊆ acc.1 /\ acc.1 ⊆ inc0 ∪ seen.

Lemma record_component_spec adjacency complete component rq n inc0 seen count acc :
  component_inv rq n inc0 seen count acc -> list_to_set component ⊆ seen ->
  (n + Z.of_nat (count + length component) <= u64_max)%Z ->
  returns (record_component blake3_hash bindings bounds adjacency complete component acc)
    (fun acc' => evolves (fun r => exists a, a ∈ component /\ r = scc_row complete component a)
                   [scc_membership fams] acc.2 acc'.2 /\
       component_inv rq n inc0 seen (count + length component) acc').
Proof.
  intros Hinv Hseen Hmax. unfold record_component.
  eapply returns_bind; [apply (is_recursive_returns _
    (fun x => x ∈ default ∅ (adjacency !! x))); intros; simpl; by rewrite bool_decide_eq_true|].
  intros recursive _.
  apply (for_each_evolves snd _ (fun a r => r = scc_row complete component a)
    [scc_membership fams] (fun done => component_inv rq n inc0 seen (count + length done))).
  - by rewrite Nat.add_0_r.
  - intros done a todo [inc s] Hl (Ha & H1 & H2). cbn [fst snd] in *.
    assert (a ∈ seen) as Has.
    { apply Hseen, elem_of_list_to_set. rewrite Hl. apply elem_of_app. right. apply list_elem_of_here. }
    eapply returns_bind.
    + apply (settle_one add_completed); [by left| |].
      * eapply account_frame; [apply (insert_fact_evolves _ _ [])|apply not_elem_of_nil|exact Ha].
      * rewrite Hl, length_app in Hmax. simpl in Hmax. lia.
    + intros s1 [Hev Ha1].
      assert (evolves (fun r => r = scc_row complete component a) [scc_membership fams] s s1) as Hev1.
      { eapply evolves_trans_r; [|exact Hev].
        eapply evolves_weaken; [apply insert_fact_evolves| |done]. naive_solver. }
      replace (n + Z.of_nat (count + length done) + 1)%Z
        with (n + Z.of_nat (count + length (done ++ [a])))%Z in Ha1 by (rewrite length_app; simpl; lia).
      destruct recursive; simpl; (split; [|split_and!]); simpl; try done.
      * eapply evolves_trans_r; [exact Hev1|]. apply foldl_evolves_silent. intros. apply unknown_evolves.
      * set_solver.
      * clear -H2 Has. set_solver.
Qed.

Lemma record_components_spec C adjacency complete components rq n inc0 s :
  concat components ≡ₚ iter_set C -> account s (scc_membership fams) rq n ->
  (n + Z.of_nat (size C) <= u64_max)%Z ->
  returns (for_each components (record_component blake3_hash bindings bounds adjacency complete) (inc0, s))
    (fun acc => evolves (fun r => exists c, c ∈ components /\ exists a, a ∈ c /\ r = scc_row complete c a)
                  [scc_membership fams] s acc.2 /\
       account acc.2 (scc_membership fams) rq (n + Z.of_nat (size C)) /\
       inc0 ⊆ acc.1 /\ acc.1 ⊆ inc0 ∪ C).
Proof.
  intros Hp Ha Hmax.
  assert (length (concat components) = size C) as Hlen by (rewrite Hp; apply length_iter_set).
  eapply returns_mono.
  - apply (for_each_evolves snd _ (fun c r => exists a, a ∈ c /\ r = scc_row complete c a)
      [scc_membership fams] (fun done => component_inv rq n inc0 C (length (concat done)))).
    + split_and!; simpl; [by rewrite Z.add_0_r|done|set_solver].
    + intros done c todo [inc s1] Hl Hinv. rewrite concat_app, length_app. simpl. rewrite app_nil_r.
      apply record_component_spec; [done| |].
      * intros a Ha'%elem_of_list_to_set. apply elem_of_iter_set. rewrite <- Hp, Hl.
        rewrite concat_app. apply elem_of_app. right. simpl. apply elem_of_app. by left.
      * rewrite <- Hlen, Hl, concat_app, length_app in Hmax. simpl in Hmax.
        rewrite length_app in Hmax. lia.
  - intros acc (Hev & Ha' & H1 & H2). rewrite Hlen in Ha'. done.
Qed.

(** ** Reachability *)

Definition reach_row (complete : bool) (a x : string) (distance : Z) : FactRow :=
  call_fact (reachability fams) a (Some x) None (Some distance) complete.

(** The rows of one callable: everything else it reaches, at its shortest distance. *)
Definition reach_rows (E : string -> string -> Prop) (complete : bool) (a : string) (r : FactRow) : Prop :=
  exists x n, x <> a /\ shortest E a x n /\ r = reach_row complete a x (sat32 n).

(** [f] reported [subject] as unknown. *)
Definition noted (s : AnalysisState) (f : string) (subject : option string) : Prop :=
  exists u, u ∈ unknowns s /\ u_family u = f /\ u_subject u = subject.

Lemma noted_mono s s' f subject : unknowns s ⊆ unknowns s' -> noted s f subject -> noted s' f subject.
Proof. intros Hsub (u & Hu & ?). exists u. split; [|done]. by apply Hsub. Qed.

Lemma noted_evolves R A s s' f subject : evolves R A s s' -> noted s f subject -> noted s' f subject.
Proof. intros Hev. apply noted_mono, (ev_unknowns _ _ _ _ Hev). Qed.

Record reaching (m : Adjacency) (complete : bool) (rq n : Z) (s0 : AnalysisState)
    (seen : list string) (acc : Z * bool * AnalysisState) (G : list string) : Prop := {
  re_rows : evolves (fun r => exists a, a ∈ G /\ reach_rows (steps_to m) complete a r)
              [reachability fams] s0 acc.2;
  re_account : account acc.2 (reachability fams) rq (n + Z.of_nat (length seen));
  re_seen : forall a, a ∈ G -> a ∈ seen;
  re_noted : forall a, a ∈ seen -> a ∈ G \/ noted acc.2 (reachability fams) (Some a)
}.

Lemma reaching_unreached m complete rq n s0 seen pairs exhausted s G c detail pairs' :
  reaching m complete rq n s0 seen (pairs, exhausted, s) G ->
  (n + Z.of_nat (length seen) < u64_max)%Z ->
  returns (let? s := unreached bindings c detail s in Ok (pairs', true, s))
    (fun acc => reaching m complete rq n s0 (seen ++ [c]) acc G).
Proof.
  intros [Hrows Hacc Hseen Hnoted] Hmax. cbn [fst snd] in *. unfold unreached.
  eapply returns_bind; [by apply note_unknown|]. intros s' (Hev & Ha & Hu). split; cbn [fst snd].
  - by eapply evolves_trans_r.
  - replace (n + Z.of_nat (length (seen ++ [c])))%Z with (n + Z.of_nat (length seen) + 1)%Z; [done|].
    rewrite length_app. simpl. lia.
  - set_solver.
  - intros a [Ha'| ->%list_elem_of_singleton]%elem_of_app.
    + destruct (Hnoted a Ha'); [by left|right]. by eapply noted_evolves.
    + right. eexists. by split; [exact Hu|].
Qed.

Lemma reaching_emitted m complete rq n s0 seen pairs exhausted s G c distances pairs' :
  (forall x v, distances !! x = Some v <-> x <> c /\ exists k, shortest (steps_to m) c x k /\ v = sat32 k) ->
  reaching m complete rq n s0 seen (pairs, exhausted, s) G ->
  (n + Z.of_nat (length seen) < u64_max)%Z ->
  returns (let? s := progress_mut (reachability fams) (add_completed 1)
                       (foldl (fun s '(reachable, distance) =>
                          insert_fact (reach_row complete c reachable distance) bounds s)
                          s (iter_map distances)) in
           Ok (pairs', false, s))
    (fun acc => reaching m complete rq n s0 (seen ++ [c]) acc (c :: G)).
Proof.
  intros Hd [Hrows Hacc Hseen Hnoted] Hmax. cbn [fst snd] in *.
  set (s1 := foldl _ s _).
  assert (evolves (reach_rows (steps_to m) complete c) [reachability fams] s s1) as Hs1.
  { eapply evolves_weaken; [apply (foldl_evolves _ (fun kv r => r = reach_row complete c kv.1 kv.2))| |done].
    - intros [x v] s' _. eapply evolves_weaken; [apply insert_fact_evolves| |done]. naive_solver.
    - intros r. split.
      + intros ([x v] & Hx%elem_of_iter_map%Hd & ->). destruct Hx as (Hne & k & Hk & ->).
        by exists x, k.
      + intros (x & k & Hne & Hk & ->). exists (x, sat32 k). rewrite elem_of_iter_map, Hd. eauto. }
  assert (progress s1 = progress s) as Hp.
  { subst s1. clear. generalize (iter_map distances) as l. intros l. revert s.
    induction l as [|[x v] l IH]; intros s; simpl; [done|]. rewrite IH. unfold insert_fact.
    by case_match. }
  eapply returns_bind; [apply (settle_one add_completed); [by left|by eapply account_progress|done]|].
  intros s' [Hev Ha]. split; cbn [fst snd].
  - eapply evolves_trans; [exact Hrows| |].
    + eapply evolves_trans_r; [exact Hs1|exact Hev].
    + intros r. setoid_rewrite elem_of_cons. naive_solver.
  - replace (n + Z.of_nat (length (seen ++ [c])))%Z with (n + Z.of_nat (length seen) + 1)%Z; [done|].
    rewrite length_app. simpl. lia.
  - set_solver.
  - intros a [Ha'| ->%list_elem_of_singleton]%elem_of_app; [|left; set_solver].
    destruct (Hnoted a Ha'); [left; set_solver|right].
    eapply noted_evolves; [exact Hev|]. by eapply noted_evolves.
Qed.

Lemma derive_reachability_spec C m complete rq n s :
  account s (reachability fams) rq n -> (n + Z.of_nat (size C) <= u64_max)%Z ->
  returns (derive_reachability bindings bounds C m complete s) (fun s' =>
    account s' (reachability fams) rq (n + Z.of_nat (size C)) /\
    exists G : list string, (forall a, a ∈ G -> a ∈ C) /\
      evolves (fun r => exists a, a ∈ G /\ reach_rows (steps_to m) complete a r) [reachability fams] s s' /\
      (forall a, a ∈ C -> a ∈ G \/ noted s' (reachability fams) (Some a))).
Proof.
  intros Ha Hmax. unfold derive_reachability.
  eapply (returns_bind _ _ (fun acc => exists G, reaching m complete rq n s (iter_set C) acc G)).
  - apply (for_each_returns (fun done _ acc => exists G, reaching m complete rq n s done acc G)).
    + exists []. split; cbn [fst snd].
      * eapply evolves_weaken; [apply (evolves_refl [reachability fams])| |done].
        unfold no_rows. set_solver.
      * by rewrite Z.add_0_r.
      * set_solver.
      * set_solver.
    + intros done c todo [[pairs exhausted] s1] Hl (G & HG).
      assert (n + Z.of_nat (length done) < u64_max)%Z as Hlt.
      { rewrite <- length_iter_set, Hl, length_app in Hmax. simpl in Hmax. lia. }
      unfold reach_callable. destruct exhausted.
      { eapply returns_mono; [by eapply reaching_unreached|]. intros acc Hacc. by exists G. }
      eapply returns_bind; [apply distances_from_spec|]. intros distances Hd. case_match.
      * eapply returns_mono; [by eapply reaching_unreached|]. intros acc Hacc. by exists G.
      * eapply returns_mono; [by eapply reaching_emitted|]. intros acc Hacc. by exists (c :: G).
  - intros [pe s'] (G & [Hrows Hacc Hseen Hnoted]). cbn [fst snd] in *. simpl.
    rewrite length_iter_set in Hacc. split; [done|]. exists G.
    split; [intros a Ha'%Hseen; by apply elem_of_iter_set|]. split; [done|].
    intros a Ha'. apply Hnoted. by apply elem_of_iter_set.
Qed.

(** ** All of the topology *)

(** The rows of the topology; [G]: the callables whose reachability was emitted. *)
Definition topology_rows (exact : list (string * string * string)) (components : list (list string))
    (m : Adjacency) (complete : bool) (G : list string) (r : FactRow) : Prop :=
  (exists call, call ∈ exact /\ r = call_row call) \/
  (exists c, c ∈ components /\ exists a, a ∈ c /\ r = scc_row complete c a) \/
  (exists a, a ∈ G /\ reach_rows (steps_to m) complete a r).

Record topology_ok (input : CommonDerivedAnalysisInput) (exact : list (string * string * string))
    (C : gset string) (complete : bool) (rq rq' : Z) (s : AnalysisState) (adj rev : Adjacency)
    (inc : gset string) (components : list (list string)) (s' : AnalysisState) (G : list string)
  : Prop := {
  to_adj : adj_ok C (call_edge exact) adj;
  to_rev : adj_ok C (flip (call_edge exact)) rev;
  to_components : components_ok (iter_set C) (call_edge exact) components;
  to_inc : inc ⊆ C;
  to_gaps : forall x, x ∈ caller_id <$> gaps (calls input) -> x ∈ inc;
  to_coverage : input_complete input CallTargets = false \/
                input_complete input LocalEffectResource = false -> C ⊆ inc;
  to_G : forall a, a ∈ G -> a ∈ C;
  to_rows : evolves (topology_rows exact components adj complete G) topology_families s s';
  to_noted : forall a, a ∈ C -> a ∈ G \/ noted s' (reachability fams) (Some a);
  to_graph : account s' (call_graph fams) rq
               (Z.of_nat (length exact) + Z.of_nat (length (gaps (calls input))));
  to_scc : account s' (scc_membership fams) rq'
             (Z.of_nat (length (gaps (calls input))) + Z.of_nat (size C));
  to_reach : account s' (reachability fams) rq'
               (Z.of_nat (length (gaps (calls input))) + Z.of_nat (size C))
}.

Lemma derive_topology_spec input exact C complete g idx rq rq' s :
  graph_ok (iter_set C) (call_edge exact) g idx ->
  (forall a b site, (a, b, site) ∈ exact -> a ∈ C /\ b ∈ C) ->
  (forall c, c ∈ calls input -> caller_id c ∈ C) ->
  gap_accounts s rq rq' 0 0 ->
  (Z.of_nat (length exact) + Z.of_nat (length (gaps (calls input))) <= u64_max)%Z ->
  (Z.of_nat (length (gaps (calls input))) + Z.of_nat (size C) <= u64_max)%Z ->
  returns (derive_topology blake3_hash bindings bounds input exact C complete g s)
    (fun '(adj, rev, inc, components, s') =>
       exists G, topology_ok input exact C complete rq rq' s adj rev inc components s' G).
Proof.
  intros Hg Hexact Hcallers (Hcg & Hscc & Hre) Hmax1 Hmax2. unfold derive_topology.
  eapply returns_bind; [apply (record_calls_spec C exact rq s); [done|lia|done]|].
  intros [[adj rev] s1] (Hev1 & Hadj & Hrev & Hcg1). cbn [fst snd] in *.
  eapply returns_bind; [apply (record_gaps_spec (calls input) rq rq' (Z.of_nat (length exact)));
    [lia|lia|split_and!]|].
  { by rewrite Z.add_0_r. }
  1,2: (eapply (account_frame _ _ _ _ _ _ _ Hev1); [other_family Hfams|done]).
  intros [inc s2] (Hev2 & Hinc & Hcg2 & Hscc2 & Hre2). cbn [fst snd] in *.
  match goal with |- context [if ?c then C ∪ inc else inc] =>
    set (inc1 := if c then C ∪ inc else inc) end.
  assert (inc ⊆ inc1 /\ inc1 ⊆ C /\ (input_complete input CallTargets = false \/
      input_complete input LocalEffectResource = false -> C ⊆ inc1)) as (Hsub & HincC & Hcov).
  { assert (inc ⊆ C) as HC.
    { intros x (c & -> & Hc)%Hinc%list_elem_of_fmap. apply Hcallers. unfold gaps in Hc.
      by apply list_elem_of_filter in Hc as [_ ?]. }
    subst inc1. destruct (input_complete input CallTargets), (input_complete input LocalEffectResource);
      simpl; split_and!; set_solver. }
  clearbody inc1.
  eapply returns_bind; [apply (deterministic_sccs_spec _ _ _ _ Hg)|].
  { intros a b [site Hab%Hexact]. by rewrite !elem_of_iter_set. }
  intros components Hcomp.
  eapply returns_bind; [apply (record_components_spec C adj complete components rq'
    (Z.of_nat (length (gaps (calls input)))) inc1 s2); [apply Hcomp|done|done]|].
  intros [inc3 s3] (Hev3 & Hscc3 & Hinc3 & Hinc3'). cbn [fst snd] in *.
  eapply returns_bind; [apply (derive_reachability_spec C adj complete rq'
    (Z.of_nat (length (gaps (calls input))))); [|done]|].
  { eapply (account_frame _ _ _ _ _ _ _ Hev3); [other_family Hfams|done]. }
  intros s4 (Hre4 & G & HGC & Hev4 & Hnoted). simpl. exists G. split; try done.
  - set_solver.
  - intros x Hx%Hinc. set_solver.
  - intros H'%Hcov. set_solver.
  - apply (evolves_or _ _ _ s s1); [eapply evolves_incl; [exact Hev1|set_solver]|].
    eapply evolves_trans_l; [exact Hev2|].
    apply (evolves_or _ _ _ s2 s3); [eapply evolves_incl; [exact Hev3|set_solver]|].
    eapply evolves_incl; [exact Hev4|set_solver].
  - eapply (account_frame _ _ _ _ _ _ _ Hev4); [other_family Hfams|].
    eapply (account_frame _ _ _ _ _ _ _ Hev3); [other_family Hfams|done].
  - eapply (account_frame _ _ _ _ _ _ _ Hev4); [other_family Hfams|done].
Qed.
End topology.
