(* ===== verification/CommonCallTheory.v ===== *)
(** From the seeds of the fixed point to the emitted summaries ([fixed_point_schedule],
    [derive_summaries], [derive_call_families]): the run succeeds, a callable without an unknown row
    has exactly the values it may have, and every requested unit is settled. *)

From stdpp Require Import sorting.
From S2P Require Import Prelude Encoding CommonModel CommonCfg CommonCalls CommonTheory CommonGraph.
From S2P Require Import CommonSummary CommonTopology.

(** ** The schedule *)

Section schedule.
Context `{!Petgraph, !PetgraphLaws}.
Context (ids : list string) (E : string -> string -> Prop) (g : CanonicalGraph) (idx : gmap string nat).
Context (Hg : graph_ok ids E g idx) (Hin : forall x y, E x y -> x ∈ ids /\ y ∈ ids).

(** Components without recursion leave no cycle. *)
Lemma no_recursion_acyclic components :
  components_ok ids E components ->
  ~ (exists c, c ∈ components /\ (1 < length c \/ exists x, x ∈ c /\ E x x)) ->
  acyclic (edge_of (graph_edges g)).
Proof.
  intros [Hp Hscc] Hnone i Hi.
  assert (exists a, ids !! i = Some a) as [a Ha].
  { assert (exists j, (i, j) ∈ graph_edges g) as [j (a & b & ? & _)%(go_edges _ _ _ _ Hg)]; [|eauto].
    inversion Hi; eauto. }
  destruct (tc_ids _ _ _ _ Hg _ _ _ Ha Hi) as (a' & Ha' & Hr). simplify_eq.
  assert (exists b, E a b /\ rtc E b a) as (b & Hab & Hba).
  { inversion Hr as [? ? Hab|? b ? Hab Hbc]; subst; [exists a|exists b]; split; try done.
    by apply tc_rtc. }
  assert (a ∈ concat components) as (c & Hc & Hac)%elem_of_concat.
  { rewrite Hp. by eapply list_elem_of_lookup_2. }
  apply Hnone. exists c. split; [done|]. destruct (decide (a = b)) as [<-|Hne]; [right; eauto|left].
  assert (b ∈ c) as Hbc.
  { apply (Hscc c a b Hc Hac); [by apply (Hin a b)|]. split; [by apply rtc_once|done]. }
  destruct c as [|x [|y c]]; simpl; [set_solver|set_solver|lia].
Qed.

Lemma groups_of_spec {A} (group : nat -> option A) (n : nat) order :
  order ≡ₚ seq 0 n -> (forall i, i < n -> is_Some (group i)) ->
  returns (groups_of group (reverse order))
    (Forall2 (fun i g => group i = Some g) (reverse order)).
Proof.
  intros Hp Hgroup. apply (for_each_collect (fun i => expect (group i))).
  intros i Hi. assert (i < n) as [x Hx]%Hgroup; [|by rewrite Hx].
  rewrite reverse_Permutation, Hp in Hi. apply elem_of_seq in Hi. lia.
Qed.

(** The schedule has every callable once. *)
Lemma fixed_point_schedule_spec components s :
  components_ok ids E components ->
  returns (fixed_point_schedule g components idx s)
    (fun '(schedule, s') => concat schedule ≡ₚ ids /\ evolves no_rows [] s s').
Proof.
  intros Hcomp. unfold fixed_point_schedule.
  eapply returns_bind.
  { apply (any_ok_returns _ (fun c => 1 < length c \/ exists x, x ∈ c /\ E x x)).
    intros c Hc. apply is_recursive_returns. intros x Hx.
    assert (x ∈ ids) as Hids.
    { rewrite <- (proj1 Hcomp). apply elem_of_concat. eauto. }
    destruct (index_of_ok _ _ _ _ Hg x Hids) as (i & -> & Hi). simpl. rewrite bool_decide_eq_true.
    apply (edge_of_ids _ _ _ _ Hg i i x x Hi Hi). }
  intros has_cycle Hcycle. pose proof (graph_edges_in _ _ _ _ Hg) as Hedges.
  destruct has_cycle.
  - destruct (condensation g) as [ws es] eqn:Hcond.
    destruct (condensation_acyclic g ws es Hedges Hcond) as [Hes Hac].
    destruct (toposort_acyclic _ _ Hes Hac) as [order Horder]. rewrite Horder. simpl.
    eapply returns_bind.
    + apply (groups_of_spec _ (length ws)); [by eapply toposort_Some|].
      intros i [w Hw]%lookup_lt_is_Some_2. by rewrite Hw.
    + intros groups H2. simpl. split; [|by eapply evolves_trans_l; [apply set_condensation_evolves|apply extend_operations_evolves]].
      rewrite <- (go_weights _ _ _ _ Hg), <- (condensation_weights g ws es Hedges Hcond).
      assert (exists gs, Forall2 (fun i g => ws !! i = Some g) (reverse order) gs /\ Forall2 Permutation groups gs)
        as (gs & H3 & H4).
      { clear -H2. induction H2 as [|i gr l groups Hi _ (gs & ? & ?)].
        - exists []. split; constructor.
        - apply fmap_Some_1 in Hi as (w & Hw & ->). exists (w :: gs). split; constructor; try done.
          apply merge_sort_Permutation. }
      rewrite (concat_perm_pointwise _ _ H4). apply concat_perm.
      eapply (lookup_seq_perm _ _ (reverse order)); [|done].
      rewrite reverse_Permutation. by eapply toposort_Some.
  - assert (acyclic (edge_of (graph_edges g))) as Hac.
    { eapply no_recursion_acyclic; [done|]. intros Hex%Hcycle. done. }
    destruct (toposort_acyclic _ _ Hedges Hac) as [order Horder]. rewrite Horder. simpl.
    eapply returns_bind.
    + apply (groups_of_spec _ (node_count g)); [by eapply toposort_Some|].
      intros i [w Hw]%lookup_lt_is_Some_2. by rewrite Hw.
    + intros groups H2. simpl. split; [|apply evolves_refl].
      assert (Forall2 (fun i w => ids !! i = Some w) (reverse order) (concat groups)) as H3.
      { clear -H2 Hg. rewrite (go_weights _ _ _ _ Hg) in H2.
        induction H2 as [|i gr l groups Hi _ IH]; [constructor|].
        apply fmap_Some_1 in Hi as (w & Hw & ->). simpl. by constructor. }
      eapply (lookup_seq_perm _ _ (reverse order)); [|done].
      rewrite reverse_Permutation, <- (go_weights _ _ _ _ Hg). by eapply toposort_Some.
Qed.
End schedule.

(** ** The seeds *)

(** The local values of a callable, [proj] being its effects or its resources. *)
Definition local_values (proj : CommonCallableLocalSemantics -> gset string)
    (input : CommonDerivedAnalysisInput) (a : string) : gset string :=
  from_option proj ∅ (locals_of input !! a).

Lemma locals_of_spec input a l :
  valid_input input ->
  locals_of input !! a = Some l <-> l ∈ local_semantics input /\ l_callable_id l = a.
Proof.
  intros Hv. pose proof (locals_unique _ Hv) as Hnd. unfold locals_of.
  induction (local_semantics input) as [|x L IH] using rev_ind.
  { simpl. rewrite lookup_empty. set_solver. }
  rewrite fmap_app in Hnd. apply NoDup_app in Hnd as (Hnd & Hx & _).
  rewrite foldl_app. cbn [foldl]. rewrite lookup_insert_Some, (IH Hnd), elem_of_app, list_elem_of_singleton.
  split; [naive_solver|]. intros [[Hl| ->] <-]; [right|by left]. split; [|done].
  intros Heq. apply (Hx (l_callable_id l)); [apply list_elem_of_fmap; eauto|].
  rewrite <- Heq. set_solver.
Qed.

Lemma elem_of_local_values proj input a v :
  valid_input input ->
  v ∈ local_values proj input a <->
  exists l, l ∈ local_semantics input /\ l_callable_id l = a /\ v ∈ proj l.
Proof.
  intros Hv. unfold local_values. setoid_rewrite (and_assoc (_ ∈ _) (_ = _)).
  setoid_rewrite <- (locals_of_spec input a _ Hv).
  destruct (locals_of input !! a) as [l|]; simpl; [|set_solver]. naive_solver.
Qed.

Section summaries.
Context (blake3_hash : list byte -> byte_array 32).
Context (bindings : CommonAnalysisBindings) (bounds : CommonAnalysisBounds).
Context (Hfams : NoDup (families_all (families bindings))).
Context (input : CommonDerivedAnalysisInput).

Abbreviation fams := (families bindings).
Abbreviation le := (local_values l_effects input).
Abbreviation lr := (local_values l_resources input).

Lemma seeded_empty : seeded bounds ∅ = ∅.
Proof. unfold seeded. by rewrite take_iter_set by (rewrite size_empty; lia). Qed.

(** The seeds of the callables [done]. *)
Record seeding (inc0 : gset string) (s0 : AnalysisState) (seen : list string)
    (acc : Summaries * AnalysisState) : Prop := {
  se_effects : forall a X, sum_effects acc.1 !! a = Some X <-> a ∈ seen /\ X = seeded bounds (le a);
  se_resources : forall a X, sum_resources acc.1 !! a = Some X <-> a ∈ seen /\ X = seeded bounds (lr a);
  se_inc : inc0 ⊆ sum_incomplete acc.1 /\ sum_incomplete acc.1 ⊆ inc0 ∪ list_to_set seen;
  se_whole : forall a, a ∈ seen -> a ∉ sum_incomplete acc.1 ->
    size (le a) <= max_summary_values bounds /\ size (lr a) <= max_summary_values bounds;
  se_evolves : evolves no_rows [] s0 acc.2
}.

Lemma lookup_seed (M : gmap string (gset string)) seen c X0 (f : string -> gset string) :
  (forall a X, M !! a = Some X <-> a ∈ seen /\ X = f a) -> X0 = f c ->
  forall a X, <[c := X0]> M !! a = Some X <-> a ∈ seen ++ [c] /\ X = f a.
Proof.
  intros HM -> a X. rewrite lookup_insert_Some, HM, elem_of_app, list_elem_of_singleton.
  destruct (decide (c = a)) as [->|]; naive_solver.
Qed.

Lemma seeding_step inc0 s0 seen acc c :
  seeding inc0 s0 seen acc ->
  seeding inc0 s0 (seen ++ [c]) (seed_callable bindings bounds (locals_of input) c acc).
Proof.
  destruct acc as [sums s]. intros [He Hr [Hi1 Hi2] Hw Hev]. unfold seed_callable. cbn [fst snd] in *.
  assert (local_values l_effects input c = from_option l_effects ∅ (locals_of input !! c)) as Hle by done.
  assert (local_values l_resources input c = from_option l_resources ∅ (locals_of input !! c)) as Hlr by done.
  destruct (locals_of input !! c) as [l|]; simpl in Hle, Hlr.
  - destruct (_ || _)%bool eqn:Hhit; split; cbn [fst snd sum_effects sum_resources sum_incomplete].
    1,6: apply lookup_seed; [done|by rewrite Hle].
    1,5: apply lookup_seed; [done|by rewrite Hlr].
    1,4: clear -Hi1 Hi2; split; set_solver.
    + intros a [Ha| ->%list_elem_of_singleton]%elem_of_app Hn; [apply Hw; [done|]|]; clear -Hn; set_solver.
    + eapply evolves_trans_r; [exact Hev|apply unknown_summaries_evolves].
    + apply orb_false_iff in Hhit as [H1%Nat.ltb_ge H2%Nat.ltb_ge].
      intros a [Ha| ->%list_elem_of_singleton]%elem_of_app Hn; [by apply Hw|].
      rewrite Hle, Hlr. done.
    + done.
  - split; cbn [fst snd sum_effects sum_resources sum_incomplete].
    + apply lookup_seed; [done|]. by rewrite Hle, seeded_empty.
    + apply lookup_seed; [done|]. by rewrite Hlr, seeded_empty.
    + clear -Hi1 Hi2. split; set_solver.
    + intros a [Ha| ->%list_elem_of_singleton]%elem_of_app Hn; [apply Hw; [done|]|]; clear -Hn; set_solver.
    + eapply evolves_trans_r; [exact Hev|apply unknown_summaries_evolves].
Qed.

Lemma seed_all inc0 s0 l :
  seeding inc0 s0 l (foldl (fun acc c => seed_callable bindings bounds (locals_of input) c acc)
                       (mk_Summaries ∅ ∅ inc0, s0) l).
Proof.
  induction l as [|c l IH] using rev_ind.
  - split; simpl; [set_solver..|apply evolves_refl].
  - rewrite foldl_app. by apply seeding_step.
Qed.

(** Seeds make a well-formed start of the fixed point. *)
Lemma seeding_ok inc0 s0 C adjacency acc :
  seeding inc0 s0 (iter_set C) acc -> inc0 ⊆ C -> sums_ok bounds C adjacency le lr acc.1.
Proof.
  intros [He Hr [Hi1 Hi2] Hw Hev] Hinc. rewrite list_to_set_iter_set in Hi2.
  assert (forall (L : string -> gset string) M,
    (forall a X, M !! a = Some X <-> a ∈ iter_set C /\ X = seeded bounds (L a)) ->
    table_ok bounds C (steps_to adjacency) L M) as Htable.
  { intros L M HM. split.
    - intros a. split; [intros [X [Ha _]%HM]; by apply elem_of_iter_set|].
      intros Ha. eexists. apply HM. by rewrite elem_of_iter_set.
    - intros a X [_ ->]%HM. unfold seeded. rewrite size_list_to_set.
      + rewrite length_take. lia.
      + eapply sublist_NoDup; [apply NoDup_iter_set|apply sublist_take].
    - intros a X v [_ ->]%HM Hv. exists a. split; [apply rtc_refl|].
      by eapply take_iter_set_subseteq, Hv. }
  split; [by apply Htable..|]. clear -Hi2 Hinc. set_solver.
Qed.

(** ** The emitted rows *)

Lemma iterations_insert_fact row s : iterations (insert_fact row bounds s) = iterations s.
Proof. unfold insert_fact. by case_match. Qed.

Lemma foldl_iterations {X} (f : AnalysisState -> X -> AnalysisState) l s :
  (forall s x, iterations (f s x) = iterations s) -> iterations (foldl f s l) = iterations s.
Proof. intros Hf. revert s. induction l as [|x l IH]; intros s; simpl; [done|]. by rewrite IH. Qed.

(** Rows that read the iteration count off the state as they go. *)
Lemma foldl_emit (row : Z -> string -> FactRow) A l s :
  let f := fun s v => insert_fact (row (iterations s) v) bounds s in
  evolves (fun r => exists v, v ∈ l /\ r = row (iterations s) v) A s (foldl f s l) /\
  iterations (foldl f s l) = iterations s.
Proof.
  intros f. split; [|by apply foldl_iterations; intros; apply iterations_insert_fact].
  revert s. induction l as [|v l IH]; intros s; simpl.
  - eapply evolves_weaken; [apply (evolves_refl A)| |done]. unfold no_rows. set_solver.
  - eapply evolves_trans; [apply insert_fact_evolves|apply IH|]. intros r. subst f. simpl.
    rewrite iterations_insert_fact. setoid_rewrite elem_of_cons. naive_solver.
Qed.

(** One unit more for every family of a list. *)
Lemma settle_all (g : Z -> Progress -> Progress) fs s rq n :
  g = add_completed \/ g = add_unknown -> NoDup fs ->
  (forall f, f ∈ fs -> account s f rq n) -> (n < u64_max)%Z ->
  returns (for_each fs (fun f => progress_mut f (g 1%Z)) s) (fun s' =>
    evolves no_rows fs s s' /\ iterations s' = iterations s /\
    forall f, f ∈ fs -> account s' f rq (n + 1)).
Proof.
  intros Hg Hnd Hacc Hn. eapply returns_mono.
  - apply (for_each_returns (fun done todo s' =>
      evolves no_rows fs s s' /\ iterations s' = iterations s /\
      (forall f, f ∈ done -> account s' f rq (n + 1)) /\ (forall f, f ∈ todo -> account s' f rq n))).
    + split_and!; [apply evolves_refl|done|by intros f ?%elem_of_nil|done].
    + intros done f todo s1 Hl (Hev & Hit & Hdone & Htodo).
      rewrite Hl in Hnd. apply NoDup_app in Hnd as (_ & Hdis & [Hf _]%NoDup_cons).
      eapply returns_mono;
        [apply returns_eq, (settle_one g _ f rq n Hg (Htodo f (list_elem_of_here _ _)) Hn)|].
      intros s2 (Heq & Hev2 & Ha2). split_and!.
      * eapply evolves_trans_l; [exact Hev|]. eapply evolves_incl; [exact Hev2|].
        rewrite Hl. set_solver.
      * rewrite <- Hit. unfold progress_mut in Heq. destruct (expect _); [|done]. by simplify_eq.
      * intros f' [Hf'| ->%list_elem_of_singleton]%elem_of_app; [|done].
        eapply account_frame; [exact Hev2| |by apply Hdone].
        intros ->%list_elem_of_singleton. apply (Hdis f Hf'), list_elem_of_here.
      * intros f' Hf'. eapply account_frame; [exact Hev2| |by apply Htodo, list_elem_of_further].
        by intros ->%list_elem_of_singleton.
  - naive_solver.
Qed.

Definition summary_accounts (s : AnalysisState) (rq n : Z) : Prop :=
  forall f, f ∈ summary_families bindings -> account s f rq n.

Lemma summary_families_NoDup : NoDup (summary_families bindings).
Proof.
  unfold families_all in Hfams.
  do 7 (apply NoDup_cons in Hfams as [_ Hfams]). done.
Qed.

(** The rows of one callable, from its final summaries. *)
Definition summary_rows (sums : Summaries) (incomplete : gset string) (it : Z) (a : string) (r : FactRow)
  : Prop :=
  let ok := negb (bool_decide (a ∈ incomplete)) in
  exists X Y, sum_effects sums !! a = Some X /\ sum_resources sums !! a = Some Y /\
    ((exists v, v ∈ X /\ r = summary_fact (callable_effect fams) a v it ok) \/
     (exists v, v ∈ Y /\ r = summary_fact (callable_resource fams) a v it ok) \/
     r = summary_fact (callable_summary fams) a (summary_identity blake3_hash X Y ok) it ok).

Lemma unknown_summaries_noted c reason detail it s f :
  f ∈ summary_families bindings -> noted (unknown_summaries bindings c reason detail it s) f (Some c).
Proof.
  intros Hf. exists (mk_UnknownRow f (Some c) reason detail it). split; [|done].
  unfold unknown_summaries, summary_families in *. simpl.
  repeat (apply elem_of_cons in Hf as [->|Hf]; [set_solver|]). by apply elem_of_nil in Hf.
Qed.

Lemma unknown_summaries_iterations c reason detail it s :
  iterations (unknown_summaries bindings c reason detail it s) = iterations s.
Proof. done. Qed.

Lemma emit_callable_spec sums incomplete a X Y rq n s :
  sum_effects sums !! a = Some X -> sum_resources sums !! a = Some Y ->
  summary_accounts s rq n -> (n < u64_max)%Z ->
  returns (emit_callable blake3_hash bindings bounds sums incomplete a s) (fun s' =>
    evolves (summary_rows sums incomplete (iterations s) a) (summary_families bindings) s s' /\
    iterations s' = iterations s /\ summary_accounts s' rq (n + 1) /\
    (a ∈ incomplete -> forall f, f ∈ summary_families bindings -> noted s' f (Some a))).
Proof.
  intros HX HY Hacc Hn. unfold emit_callable. rewrite HX, HY. cbn [expect ok_or].
  set (ok := negb (bool_decide (a ∈ incomplete))).
  match goal with |- context [if bool_decide (a ∈ incomplete) then ?u else s] =>
    set (s1 := if bool_decide (a ∈ incomplete) then u else s) end.
  assert (evolves no_rows [] s s1 /\ iterations s1 = iterations s /\
    (a ∈ incomplete -> forall f, f ∈ summary_families bindings -> noted s1 f (Some a))) as (Hev1 & Hit1 & Hnoted).
  { subst s1. case_bool_decide as Ha; split_and!; try done; try apply evolves_refl.
    - apply unknown_summaries_evolves.
    - intros _ f. apply unknown_summaries_noted. }
  destruct (foldl_emit (fun it v => summary_fact (callable_effect fams) a v it ok)
              [] (iter_set X) s1) as [Hev2 Hit2].
  set (s2 := foldl _ s1 (iter_set X)) in *.
  destruct (foldl_emit (fun it v => summary_fact (callable_resource fams) a v it ok)
              [] (iter_set Y) s2) as [Hev3 Hit3].
  set (s3 := foldl _ s2 (iter_set Y)) in *.
  set (row := summary_fact (callable_summary fams) a (summary_identity blake3_hash X Y ok) (iterations s3) ok).
  pose proof (insert_fact_evolves bounds row [] s3) as Hev4.
  assert (evolves (summary_rows sums incomplete (iterations s) a) [] s
            (insert_fact row bounds s3)) as Hev.
  { eapply evolves_trans_l; [exact Hev1|]. eapply evolves_trans; [exact Hev2| |].
    - eapply evolves_or; [exact Hev3|exact Hev4].
    - intros r. unfold summary_rows. fold ok. rewrite HX, HY, <- Hit1. subst row.
      rewrite Hit3, Hit2. setoid_rewrite elem_of_iter_set. naive_solver. }
  assert (summary_accounts (insert_fact row bounds s3) rq n) as Hacc'.
  { intros f Hf. eapply account_frame; [exact Hev|apply not_elem_of_nil|by apply Hacc]. }
  eapply returns_mono.
  - destruct (bool_decide (a ∈ incomplete)).
    + apply (settle_all add_unknown); [by right|apply summary_families_NoDup|exact Hacc'|done].
    + apply (settle_all add_completed); [by left|apply summary_families_NoDup|exact Hacc'|done].
  - intros s' (Hev5 & Hit5 & Hacc5). split_and!; [| |done|].
    + eapply evolves_trans_r; [|exact Hev5]. eapply evolves_incl; [exact Hev|apply list_subseteq_nil].
    + rewrite Hit5, iterations_insert_fact, Hit3, Hit2. done.
    + intros Ha f Hf. eapply noted_evolves; [exact Hev5|].
      eapply noted_evolves; [exact Hev4|]. eapply noted_evolves; [exact Hev3|].
      eapply noted_evolves; [exact Hev2|]. by apply Hnoted.
Qed.

Lemma emit_callable_summaries_spec C sums incomplete rq n s :
  (forall a, a ∈ C -> is_Some (sum_effects sums !! a) /\ is_Some (sum_resources sums !! a)) ->
  summary_accounts s rq n -> (n + Z.of_nat (size C) <= u64_max)%Z ->
  returns (emit_callable_summaries blake3_hash bindings bounds C sums incomplete s) (fun s' =>
    evolves (fun r => exists a, a ∈ C /\ summary_rows sums incomplete (iterations s) a r)
      (summary_families bindings) s s' /\
    summary_accounts s' rq (n + Z.of_nat (size C)) /\
    (forall a f, a ∈ C -> a ∈ incomplete -> f ∈ summary_families bindings -> noted s' f (Some a))).
Proof.
  intros Hdom Hacc Hmax. unfold emit_callable_summaries. eapply returns_mono.
  - apply (for_each_evolves id _ (summary_rows sums incomplete (iterations s)) (summary_families bindings)
      (fun done s' => iterations s' = iterations s /\
         summary_accounts s' rq (n + Z.of_nat (length done)) /\
         forall a f, a ∈ done -> a ∈ incomplete -> f ∈ summary_families bindings -> noted s' f (Some a))).
    + split_and!; [done|by rewrite Z.add_0_r|set_solver].
    + intros done a todo s1 Hl (Hit & Ha & Hn).
      assert (a ∈ C) as HaC.
      { apply elem_of_iter_set. rewrite Hl. apply elem_of_app. right. apply list_elem_of_here. }
      destruct (Hdom a HaC) as [[X HX] [Y HY]].
      eapply returns_mono; [apply (emit_callable_spec _ _ a X Y rq (n + Z.of_nat (length done)));
        [done|done|done|]|].
      { rewrite <- length_iter_set, Hl, length_app in Hmax. simpl in Hmax. lia. }
      intros s2 (Hev & Hit2 & Ha2 & Hn2). rewrite Hit in Hev. split; [done|].
      split_and!; [congruence| |].
      * rewrite length_app. simpl. by rewrite Nat2Z.inj_add, Z.add_assoc.
      * intros b f [Hb| ->%list_elem_of_singleton]%elem_of_app Hbi Hf; [|by apply Hn2].
        eapply noted_evolves; [exact Hev|]. by apply Hn.
  - unfold id. intros s' (Hev & _ & Ha & Hn). rewrite length_iter_set in Ha. split_and!; [|done|].
    + eapply evolves_weaken; [exact Hev| |done]. intros r. by setoid_rewrite elem_of_iter_set.
    + intros a f HaC. apply Hn. by apply elem_of_iter_set.
Qed.

Lemma exhaust_iterations_spec C inc s :
  let '(inc', s') := exhaust_iterations bindings bounds C (inc, s) in
  inc' = C ∪ inc /\ evolves no_rows [] s s'.
Proof.
  unfold exhaust_iterations.
  assert (forall l (inc : gset string) s, let '(inc', s') := foldl (fun '(incomplete, s) callable =>
    ({[callable]} ∪ incomplete,
     unknown_summaries bindings callable "FIXED_POINT_CONVERGENCE_EXHAUSTED"
       (Some ("iteration_bound=" +:+ pretty.pretty (max_iterations bounds))) (iterations s) s)) (inc, s) l in
    inc' = list_to_set l ∪ inc /\ evolves no_rows [] s s') as Hl.
  { clear. induction l as [|c l IH]; intros inc s; cbn [foldl].
    - split; [set_solver|apply evolves_refl].
    - match goal with |- context [foldl ?f (?i, ?s') l] => specialize (IH i s');
        destruct (foldl f (i, s') l) as [inc' s''] end.
      destruct IH as [-> Hev]. split; [set_solver|].
      eapply evolves_trans_l; [apply unknown_summaries_evolves|exact Hev]. }
  specialize (Hl (iter_set C) inc s). destruct (foldl _ _ _) as [inc' s']. destruct Hl as [-> Hev].
  by rewrite list_to_set_iter_set.
Qed.

(** What the summaries emitted for the callables [C] mean. *)
Record summaries_ok (C : gset string) (E : string -> string -> Prop) (sums : Summaries)
    (incomplete : gset string) (s' : AnalysisState) : Prop := {
  ss_dom : forall a, a ∈ C -> is_Some (sum_effects sums !! a) /\ is_Some (sum_resources sums !! a);
  ss_sound_e : forall a v, v ∈ neighbours (sum_effects sums) a -> may E le a v;
  ss_sound_r : forall a v, v ∈ neighbours (sum_resources sums) a -> may E lr a v;
  ss_exact_e : forall a v, a ∈ C -> a ∉ incomplete -> may E le a v -> v ∈ neighbours (sum_effects sums) a;
  ss_exact_r : forall a v, a ∈ C -> a ∉ incomplete -> may E lr a v -> v ∈ neighbours (sum_resources sums) a;
  ss_noted : forall a f, a ∈ C -> a ∈ incomplete -> f ∈ summary_families bindings -> noted s' f (Some a)
}.
End summaries.

Lemma may_ext (E E' : string -> string -> Prop) L a v :
  (forall a b, E a b <-> E' a b) -> may E L a v <-> may E' L a v.
Proof.
  assert (forall E E' : string -> string -> Prop, (forall a b, E a b <-> E' a b) ->
            may E L a v -> may E' L a v) as Himp.
  { intros E1 E2 HE (d & Hd & Hv). exists d. split; [|done].
    induction Hd as [|x y z Hxy _ IH]; [apply rtc_refl|]. eapply rtc_l; [by apply HE|by apply IH]. }
  intros HE. split; apply Himp; [done|]. intros x y. by rewrite HE.
Qed.

(** A family group beyond its bound: all of it unknown, and said so. *)
Lemma exhaust_families_spec fs reason detail (rq : string -> Z) s :
  NoDup fs -> (forall f, f ∈ fs -> account s f (rq f) 0 /\ (0 <= rq f)%Z) ->
  returns (exhaust_families fs reason detail s) (fun s' =>
    evolves no_rows fs s s' /\ (forall f, f ∈ fs -> account s' f (rq f) (rq f)) /\
    (forall f, f ∈ fs -> noted s' f None)).
Proof.
  intros Hnd Hacc. eapply returns_mono.
  - apply (for_each_returns (fun done todo s' => evolves no_rows fs s s' /\
      (forall f, f ∈ todo -> account s' f (rq f) 0) /\
      (forall f, f ∈ done -> account s' f (rq f) (rq f) /\ noted s' f None))).
    + split_and!; [apply evolves_refl|by intros; apply Hacc|by intros f ?%elem_of_nil].
    + intros done f todo s1 Hl (Hev & Htodo & Hdone).
      assert (f ∈ fs) as Hf by (rewrite Hl; apply elem_of_app; right; apply list_elem_of_here).
      rewrite Hl in Hnd. apply NoDup_app in Hnd as (_ & Hdis & [Hnf _]%NoDup_cons).
      destruct (Htodo f (list_elem_of_here _ _)) as (p & Hp & Hrq & Hrem & Hc & Hu & Hsum).
      unfold progress_mut. simpl. rewrite Hp. simpl.
      match goal with |- evolves _ _ _ ?s2 /\ _ => set (s' := s2) end.
      assert (evolves no_rows [f] s1 s') as Hev'.
      { eapply evolves_trans_l; [apply unknown_evolves|]. apply insert_progress_evolves. set_solver. }
      split_and!.
      * eapply evolves_trans_l; [exact Hev|]. eapply evolves_incl; [exact Hev'|]. set_solver.
      * intros f' Hf'. eapply account_frame; [exact Hev'| |by apply Htodo, list_elem_of_further].
        by intros ->%list_elem_of_singleton.
      * intros f' [Hf'| ->%list_elem_of_singleton]%elem_of_app.
        -- destruct (Hdone f' Hf') as [Ha Hn]. split; [|by eapply noted_evolves].
           eapply account_frame; [exact Hev'| |exact Ha].
           intros ->%list_elem_of_singleton. apply (Hdis f Hf'), list_elem_of_here.
        -- split.
           ++ exists (all_unknown p). simpl. rewrite lookup_insert_eq.
              destruct (Hacc f Hf) as [_ ?]. naive_solver lia.
           ++ eexists. split; [simpl; apply elem_of_union_l, elem_of_singleton; reflexivity|done].
  - intros s' (Hev & _ & Hdone). split_and!; [done|intros f Hf; by apply Hdone..].
Qed.

Section call_families.
Context (blake3_hash : list byte -> byte_array 32) `{!Petgraph, !PetgraphLaws}.
Context (bindings : CommonAnalysisBindings) (bounds : CommonAnalysisBounds).
Context (Hfams : NoDup (families_all (families bindings))).
Context (input : CommonDerivedAnalysisInput).

Abbreviation fams := (families bindings).
Abbreviation le := (local_values l_effects input).
Abbreviation lr := (local_values l_resources input).

(** The final summaries mean what they should: from the fixed point and the caller closure. *)
Lemma fixed_point_summaries_ok C exact adj rev inc0 s0 acc sums inc' incF (exhausted : bool) s' :
  adj_ok C (call_edge exact) adj -> adj_ok C (flip (call_edge exact)) rev ->
  (forall a b, call_edge exact a b -> a ∈ C /\ b ∈ C) ->
  seeding bounds input inc0 s0 (iter_set C) acc ->
  sums_ok bounds C adj le lr sums -> extends acc.1 sums ->
  (exhausted = false -> forall a b, steps_to adj a b -> honoured sums sums a b) ->
  (exhausted = true -> C ⊆ inc') -> sum_incomplete sums ⊆ inc' ->
  (forall x, x ∈ incF <-> exists a, a ∈ inc' /\ rtc (steps_to rev) a x) ->
  (forall a f, a ∈ C -> a ∈ incF -> f ∈ summary_families bindings -> noted s' f (Some a)) ->
  summaries_ok bindings input C (call_edge exact) sums incF s'.
Proof.
  intros [Hadjd Hadj] [Hrevd Hrev] Hin Hseed Hok Hext Hhon Hexh Hinc HF Hnoted.
  assert (forall a, a ∈ inc' -> a ∈ incF) as Hsub.
  { intros a Ha. apply HF. exists a. split; [done|apply rtc_refl]. }
  assert (forall a b, steps_to adj a b -> b ∈ incF -> a ∈ incF) as Hback.
  { intros a b Hab (c & Hc & Hr)%HF. apply HF. exists c. split; [done|].
    eapply rtc_r; [exact Hr|]. apply Hrev. by apply Hadj. }
  assert (forall a b, steps_to adj a b -> a ∈ C /\ b ∈ C) as HinC by (intros a b Hab%Hadj; by apply Hin).
  assert (forall a, a ∈ C -> is_Some (sum_effects sums !! a) /\ is_Some (sum_resources sums !! a)) as Hdom.
  { intros a Ha. split; [by apply (t_dom _ _ _ _ _ (so_effects _ _ _ _ _ _ Hok))|
                        by apply (t_dom _ _ _ _ _ (so_resources _ _ _ _ _ _ Hok))]. }
  assert (forall d, d ∈ C -> d ∉ incF ->
            le d ⊆ neighbours (sum_effects sums) d /\ lr d ⊆ neighbours (sum_resources sums) d) as Hlocal.
  { intros d Hd Hn. pose proof (proj2 (elem_of_iter_set d C) Hd) as Hd'.
    destruct (se_whole _ _ _ _ _ _ Hseed d Hd') as [H1 H2].
    { intros Hdi. apply Hn, Hsub, Hinc. by apply (ex_incomplete _ _ Hext). }
    split; (etrans; [|apply grows_neighbours, Hext]); unfold neighbours.
    - rewrite (proj2 (se_effects _ _ _ _ _ _ Hseed d (seeded bounds (le d)))) by done.
      simpl. unfold seeded. by rewrite take_iter_set.
    - rewrite (proj2 (se_resources _ _ _ _ _ _ Hseed d (seeded bounds (lr d)))) by done.
      simpl. unfold seeded. by rewrite take_iter_set. }
  assert (forall (table : Summaries -> Adjacency) (L : string -> gset string) a v,
    table = sum_effects \/ table = sum_resources ->
    (forall d, d ∈ C -> d ∉ incF -> L d ⊆ neighbours (table sums) d) ->
    a ∈ C -> a ∉ incF -> may (call_edge exact) L a v -> v ∈ neighbours (table sums) a) as Hexact.
  { intros table L a v Ht HL Ha Hn Hmay.
    destruct exhausted; [by destruct Hn; apply Hsub, Hexh|].
    eapply (complete_summary_is_exact C adj HinC sums incF); [done|by apply Hhon| |done|done|done|done|].
    - intros x Hx. by apply Hsub, Hinc.
    - eapply may_ext, Hmay. done. }
  split; [done| | | | |done].
  - intros a v Hv. unfold neighbours in Hv. destruct (sum_effects sums !! a) as [X|] eqn:HX; [|set_solver].
    eapply (may_ext (steps_to adj)); [done|]. by eapply (t_sound _ _ _ _ _ (so_effects _ _ _ _ _ _ Hok)).
  - intros a v Hv. unfold neighbours in Hv. destruct (sum_resources sums !! a) as [X|] eqn:HX; [|set_solver].
    eapply (may_ext (steps_to adj)); [done|]. by eapply (t_sound _ _ _ _ _ (so_resources _ _ _ _ _ _ Hok)).
  - intros a v. apply Hexact; [by left|]. intros d Hd Hn. by apply Hlocal.
  - intros a v. apply Hexact; [by right|]. intros d Hd Hn. by apply Hlocal.
Qed.

(** The emitted rows and units of the three summary families. *)
Record summarised (C : gset string) (E : string -> string -> Prop) (rq : Z) (s s' : AnalysisState)
    (sums : Summaries) (incomplete : gset string) (it : Z) : Prop := {
  su_ok : summaries_ok bindings input C E sums incomplete s';
  su_rows : evolves (fun r => exists a, a ∈ C /\ summary_rows blake3_hash bindings sums incomplete it a r)
              (summary_families bindings) s s';
  su_accounts : summary_accounts bindings s' rq (Z.of_nat (size C))
}.

Lemma derive_summaries_spec C exact g idx components adj rev inc rq s :
  graph_ok (iter_set C) (call_edge exact) g idx ->
  (forall a b, call_edge exact a b -> a ∈ C /\ b ∈ C) ->
  components_ok (iter_set C) (call_edge exact) components ->
  adj_ok C (call_edge exact) adj -> adj_ok C (flip (call_edge exact)) rev -> inc ⊆ C ->
  summary_accounts bindings s rq 0 -> (Z.of_nat (size C) <= u64_max)%Z ->
  returns (derive_summaries blake3_hash bindings bounds input C g idx components adj rev inc s)
    (fun s' => exists sums incomplete it, summarised C (call_edge exact) rq s s' sums incomplete it).
Proof.
  intros Hg Hin Hcomp Hadj Hrev Hinc Hacc Hmax. unfold derive_summaries.
  pose proof (seed_all bindings bounds Hfams input inc s (iter_set C)) as Hseed.
  destruct (foldl _ (mk_Summaries ∅ ∅ inc, s) _) as [sums0 s1].
  pose proof (seeding_ok bounds input inc s C adj _ Hseed Hinc) as Hok0.
  pose proof (se_evolves _ _ _ _ _ _ Hseed) as Hev1. cbn [fst snd] in *.
  eapply returns_bind; [apply (fixed_point_schedule_spec _ _ _ _ Hg); [|done]|].
  { intros a b Hab%Hin. by rewrite !elem_of_iter_set. }
  intros [schedule s2] [Hsched Hev2].
  eapply returns_bind; [apply (propagate_summaries_spec bindings bounds C adj le lr); [|done|]|].
  { intros a b Hab. by apply Hin, Hadj. }
  { intros a Ha. rewrite Hsched. by apply elem_of_iter_set. }
  intros [[exhausted sums] s3] (Hok & Hext & Hev3 & Hhon & _).
  match goal with |- context [if exhausted then ?u else ?v] =>
    destruct (if exhausted then u else v) as [inc' s4] eqn:Hexh end.
  assert (evolves no_rows [] s3 s4 /\ sum_incomplete sums ⊆ inc' /\ (exhausted = true -> C ⊆ inc'))
    as (Hev4 & Hinc' & HC).
  { destruct exhausted.
    - pose proof (exhaust_iterations_spec bindings bounds C (sum_incomplete sums) s3) as Hx.
      rewrite Hexh in Hx. destruct Hx as [-> ?]. split_and!; [done|set_solver|set_solver].
    - simplify_eq. split_and!; [apply evolves_refl|done|done]. }
  eapply returns_bind; [apply propagate_incomplete_callers_spec|]. intros incF HF.
  assert (evolves no_rows [] s s4) as Hev.
  { eapply evolves_trans_l; [exact Hev1|]. eapply evolves_trans_l; [exact Hev2|].
    by eapply evolves_trans_l. }
  eapply returns_mono; [apply (emit_callable_summaries_spec blake3_hash bindings bounds Hfams C sums incF rq 0)|].
  - intros a Ha. split; [by apply (t_dom _ _ _ _ _ (so_effects _ _ _ _ _ _ Hok))|
                        by apply (t_dom _ _ _ _ _ (so_resources _ _ _ _ _ _ Hok))].
  - intros f Hf. eapply account_frame; [exact Hev|apply not_elem_of_nil|by apply Hacc].
  - lia.
  - intros s5 (Hev5 & Hacc5 & Hnoted). exists sums, incF, (iterations s4). split; [| |exact Hacc5].
    + eapply fixed_point_summaries_ok with (exhausted := exhausted); eauto.
    + eapply evolves_trans_l; [|exact Hev5]. eapply evolves_incl; [exact Hev|apply list_subseteq_nil].
Qed.

(** ** The whole group *)

Lemma u64_of_usize_small n : (Z.of_nat n <= u64_max)%Z -> u64_of_usize n = Z.of_nat n.
Proof. unfold u64_of_usize. lia. Qed.

Lemma exact_and_gaps cs :
  length (omap exact_call_of cs) + length (gaps cs) = length cs.
Proof.
  induction cs as [|c cs IH]; [done|]. unfold gaps in *. rewrite filter_cons. cbn [omap list_omap].
  assert (is_exact c = false <-> exact_call_of c = None) as Hc.
  { unfold is_exact, exact_call_of. by destruct (resolution c). }
  destruct (decide (is_exact c = false)) as [Hd|Hd].
  - rewrite (proj1 Hc Hd). simpl. lia.
  - destruct (exact_call_of c); [simpl; lia|]. by destruct Hd; apply Hc.
Qed.

Lemma call_families_NoDup : NoDup (call_families bindings).
Proof.
  pose proof Hfams as Hnd. unfold families_all in Hnd.
  do 4 (apply NoDup_cons in Hnd as [_ Hnd]). exact Hnd.
Qed.

Lemma topology_families_incl : topology_families bindings ⊆ call_families bindings.
Proof. intros f. unfold topology_families, call_families. rewrite !elem_of_cons. tauto. Qed.

Lemma summary_families_incl : summary_families bindings ⊆ call_families bindings.
Proof. intros f. unfold summary_families, call_families. rewrite !elem_of_cons. tauto. Qed.

(** The requests of the six families; the first three are those of the topology. *)
Lemma request_call_families_spec calls callables unresolved s :
  let s' := request_call_families bindings calls callables unresolved s in
  gap_accounts bindings s' calls (saturating_add u64_max callables unresolved) 0 0 /\
  summary_accounts bindings s' callables 0 /\ evolves no_rows (call_families bindings) s s'.
Proof.
  intros s'. unfold request_call_families, summary_families, insert_progress in s'. simpl in s'.
  assert (forall f rq, progress s' !! f = Some (requesting rq) -> account s' f rq 0) as Hacc.
  { intros f rq Hf. exists (requesting rq). split; [done|]. simpl. naive_solver lia. }
  unfold gap_accounts, summary_accounts, summary_families.
  split; [split_and!; apply Hacc; simpl|split].
  1,2,3: repeat (first [rewrite lookup_insert_eq; done | rewrite lookup_insert_ne by (family_ne Hfams)]).
  - intros f Hf. apply Hacc. simpl.
    repeat (apply elem_of_cons in Hf as [->|Hf];
      [repeat (first [rewrite lookup_insert_eq; done | rewrite lookup_insert_ne by (family_ne Hfams)])|]).
    by apply elem_of_nil in Hf.
  - split; try done; [by intros; left|]. intros f Hf. simpl. unfold call_families in Hf.
    rewrite !not_elem_of_cons in Hf.
    by rewrite !lookup_insert_ne by naive_solver.
Qed.

(** The call families of a run: either the group was beyond its bound, or its rows are those of the
    topology and of the summaries. *)
Inductive call_outcome (C : gset string) (exact : list (string * string * string)) (s s' : AnalysisState)
    : Adjacency -> Prop :=
| CallsExhausted :
    evolves no_rows (call_families bindings) s s' ->
    (forall f, f ∈ call_families bindings -> noted s' f None) ->
    call_outcome C exact s s' ∅
| CallsDerived rev (components : list (list string)) adj complete G sums incomplete it :
    adj_ok C (call_edge exact) adj -> adj_ok C (flip (call_edge exact)) rev ->
    components_ok (iter_set C) (call_edge exact) components ->
    (forall a, a ∈ G -> a ∈ C) ->
    (forall a, a ∈ C -> a ∈ G \/ noted s' (reachability fams) (Some a)) ->
    summaries_ok bindings input C (call_edge exact) sums incomplete s' ->
    evolves (fun r => topology_rows blake3_hash bindings exact components adj complete G r \/
                      exists a, a ∈ C /\ summary_rows blake3_hash bindings sums incomplete it a r)
      (call_families bindings) s s' ->
    call_outcome C exact s s' rev.

Definition calls_fit : Prop :=
  (Z.of_nat (length (calls input) + size (callables_of input)) <= u64_max)%Z.

Lemma exact_in_callables exact a b site :
  exact ≡ₚ omap exact_call_of (calls input) -> (a, b, site) ∈ exact ->
  a ∈ callables_of input /\ b ∈ callables_of input.
Proof.
  intros -> Hx%elem_of_exact_calls. rewrite !elem_of_callables_of. split.
  - destruct Hx as (c & Hc & _ & Ha & _). right. left. simpl in Ha. rewrite <- Ha.
    apply list_elem_of_fmap. eauto.
  - right. right. exists (a, b, site). by split.
Qed.

Lemma derive_call_families_spec exact s :
  exact ≡ₚ omap exact_call_of (calls input) -> calls_fit ->
  returns (derive_call_families blake3_hash bindings bounds input exact s) (fun '(rev, s') =>
    call_outcome (callables_of input) exact s s' rev /\
    forall f, f ∈ call_families bindings ->
      exists rq, (rq <= Z.of_nat (length (calls input) + size (callables_of input)))%Z /\ account s' f rq rq).
Proof.
  intros Hexact Hfit. unfold derive_call_families.
  set (C := callables_of input) in *.
  assert (length (gaps (calls input)) <= length (calls input)) as Hgaps
    by (pose proof (exact_and_gaps (calls input)); lia).
  rewrite !u64_of_usize_small by (unfold calls_fit, gaps in *; subst C; lia).
  fold (gaps (calls input)).
  assert (Z.of_nat (length exact) + Z.of_nat (length (gaps (calls input)))
          = Z.of_nat (length (calls input)))%Z as Hcount
    by (rewrite Hexact, <- (exact_and_gaps (calls input)); lia).
  match goal with |- context [request_call_families bindings ?x ?y ?z ?s] =>
    destruct (request_call_families_spec x y z s) as (Hgap & Hsum & Hev0);
    set (s0 := request_call_families bindings x y z s) in * end.
  assert (evolves no_rows (call_families bindings) s s0) as Hev.
  { eapply evolves_trans_l; [apply extend_operations_evolves|exact Hev0]. }
  replace (saturating_add u64_max (Z.of_nat (size C)) (Z.of_nat (length (gaps (calls input)))))
    with (Z.of_nat (length (gaps (calls input))) + Z.of_nat (size C))%Z in Hgap
    by (unfold saturating_add, calls_fit in *; subst C; lia).
  destruct (_ || _)%bool.
  - assert (forall f, f ∈ call_families bindings -> exists rq, account s0 f rq 0 /\
              (0 <= rq <= Z.of_nat (length (calls input) + size C))%Z) as Hrq.
    { destruct Hgap as (H1 & H2 & H3). intros f Hf. unfold call_families in Hf.
      rewrite !elem_of_cons in Hf. destruct Hf as [->|[->|[->|Hf]]]; eexists; (split; [done|lia]) ||
        (split; [apply Hsum; unfold summary_families; rewrite !elem_of_cons; tauto|lia]). }
    set (rq := fun f => match progress s0 !! f with Some p => requested p | None => 0%Z end).
    eapply returns_bind; [apply (exhaust_families_spec _ _ _ rq); [apply call_families_NoDup|]|].
    { intros f (n & (p & Hp & <- & Hr) & Hn)%Hrq. unfold rq. rewrite Hp. split; [|lia].
      exists p. tauto. }
    intros s' (Hev' & Hacc' & Hnoted). simpl. split.
    2:{ intros f Hf. exists (rq f). split; [|by apply Hacc'].
        apply Hrq in Hf as (n & (p & Hp & <- & _) & ?). unfold rq. rewrite Hp. lia. }
    apply CallsExhausted; [|done].
    by eapply evolves_trans_l.
  - eapply returns_bind; [apply build_call_graph_ok; intros a b site; by apply exact_in_callables|].
    intros [g idx] Hg.
    eapply returns_bind; [eapply (derive_topology_spec blake3_hash bindings bounds Hfams input exact C);
      [exact Hg|intros a b site; by apply exact_in_callables| |exact Hgap| |]|].
    { intros c Hc. apply elem_of_callables_of. right. left. apply list_elem_of_fmap. eauto. }
    { unfold calls_fit in Hfit. lia. }
    { unfold calls_fit in Hfit. subst C. lia. }
    intros [[[[adj rev] inc] components] s1] (G & [Tadj Trev Tcomp Tinc Tgaps Tcov TG Trows Tnoted Tgraph Tscc Treach]).
    eapply returns_bind; [eapply (derive_summaries_spec C exact g idx components adj rev inc);
      [done| |done|done|done|done| |]|].
    { intros a b [site Hab]. by eapply exact_in_callables. }
    { intros f Hf. eapply account_frame; [exact Trows| |by apply Hsum].
      unfold summary_families in Hf. rewrite !elem_of_cons in Hf.
      destruct Hf as [->|[->|[->|Hf%elem_of_nil]]]; [other_family Hfams..|done]. }
    { unfold calls_fit in Hfit. subst C. lia. }
    intros s2 (sums & incomplete & it & [Hok Hrows Hacc]). simpl. split.
    + eapply CallsDerived; [done|done|done|done| |done|].
      * intros a Ha. destruct (Tnoted a Ha); [by left|right]. by eapply noted_evolves.
      * eapply evolves_trans_l; [exact Hev|].
        apply (evolves_or _ _ _ s0 s1); (eapply evolves_incl; [done|]);
          [apply topology_families_incl|apply summary_families_incl].
    + intros f Hf. unfold call_families in Hf. rewrite !elem_of_cons in Hf.
      destruct Hf as [->|[->|[->|Hf]]].
      * exists (Z.of_nat (length (calls input))). split; [lia|].
        eapply account_frame; [exact Hrows|other_family Hfams|]. by rewrite <- Hcount at 2.
      * eexists. split; [|eapply account_frame; [exact Hrows|other_family Hfams|exact Tscc]]. lia.
      * eexists. split; [|eapply account_frame; [exact Hrows|other_family Hfams|exact Treach]]. lia.
      * eexists. split; [|apply Hacc; unfold summary_families; rewrite !elem_of_cons; tauto]. lia.
Qed.
End call_families.
