(* ===== verification/CommonWalk.v ===== *)
(** Walks and dominance: composition, reversal, the order of dominators, and their transfer between
    the indices of a built graph and the identities they stand for. *)

From S2P Require Import Prelude Encoding CommonModel CommonCfg CommonTheory CommonGraph.

(** ** Walks *)

Section walks.
Context {A : Type}.
Implicit Types (E : A -> A -> Prop) (a b c : A) (p q : list A).

Lemma walk_ends E a p b : walk E a p b -> a ∈ p /\ b ∈ p.
Proof. induction 1; rewrite ?elem_of_cons, ?list_elem_of_singleton in *; naive_solver. Qed.

Lemma walk_first E a p b : walk E a p b -> a ∈ p.
Proof. intros H. by apply walk_ends in H as [? _]. Qed.

Lemma walk_last E a p b : walk E a p b -> b ∈ p.
Proof. intros H. by apply walk_ends in H as [_ ?]. Qed.

Lemma walk_rtc E a p b : walk E a p b -> rtc E a b.
Proof. induction 1; [apply rtc_refl|by eapply rtc_l]. Qed.

Lemma rtc_walk E a b : rtc E a b -> exists p, walk E a p b.
Proof. induction 1 as [a|a b c Hab _ [p Hp]]; [exists [a]; constructor|exists (a :: p); by econstructor]. Qed.

(** A walk split where it visits [d]; a proper split is shorter. *)
Lemma walk_split E a p b d :
  walk E a p b -> d ∈ p ->
  exists p1 p2, walk E a p1 d /\ walk E d p2 b /\ (forall x, x ∈ p1 -> x ∈ p) /\
    (forall x, x ∈ p2 -> x ∈ p) /\ (d <> b -> length p1 < length p).
Proof.
  induction 1 as [a|a b p c Hab Hw IH]; intros Hd.
  - apply list_elem_of_singleton in Hd as ->. exists [a], [a]. split_and!; [apply walk_nil|apply walk_nil|done|done|done].
  - apply elem_of_cons in Hd as [->|Hd].
    + exists [a], (a :: p). split_and!; [apply walk_nil|by eapply walk_cons| |done|].
      * intros x ->%list_elem_of_singleton. apply list_elem_of_here.
      * intros _. simpl. destruct Hw; simpl; lia.
    + destruct (IH Hd) as (p1 & p2 & H1 & H2 & H3 & H4 & H5). exists (a :: p1), p2.
      split_and!; [by eapply walk_cons|done| | |].
      * intros x [->|Hx]%elem_of_cons; [apply list_elem_of_here|by apply list_elem_of_further, H3].
      * intros x Hx. by apply list_elem_of_further, H4.
      * intros Hne%H5. simpl. lia.
Qed.

Lemma walk_app E a p b q c :
  walk E a p b -> walk E b q c -> exists r, walk E a r c /\ forall x, x ∈ r <-> x ∈ p \/ x ∈ q.
Proof.
  induction 1 as [a|a a' p b Hab Hw IH]; intros Hq.
  - exists q. split; [done|]. intros x. rewrite list_elem_of_singleton. split; [by right|].
    intros [->|Hx]; [by eapply walk_first|done].
  - destruct (IH Hq) as (r & Hr & Hx). exists (a :: r). split; [by eapply walk_cons|].
    intros x. rewrite !elem_of_cons, Hx. tauto.
Qed.

Lemma walk_flip E a p b : walk E a p b -> exists q, walk (flip E) b q a /\ forall x, x ∈ q <-> x ∈ p.
Proof.
  induction 1 as [a|a b p c Hab Hw (q & Hq & Hx)]; [exists [a]; split; [constructor|done]|].
  destruct (walk_app _ _ _ _ [b; a] a Hq) as (r & Hr & Hrx).
  - eapply walk_cons; [exact Hab|constructor].
  - exists r. split; [done|]. intros x. rewrite Hrx, Hx, !elem_of_cons.
    pose proof (proj1 (walk_ends _ _ _ _ Hw)) as Hb.
    split; [|tauto]. intros [?|[->|[->|?%elem_of_nil]]]; tauto.
Qed.

Lemma walk_ext E E' a p b : (forall x y, E x y -> E' x y) -> walk E a p b -> walk E' a p b.
Proof. intros HE. induction 1; [constructor|econstructor; eauto]. Qed.

(** ** Dominance *)

Lemma dominates_ext E E' r d x :
  (forall x y, E x y <-> E' x y) -> dominates E r d x <-> dominates E' r d x.
Proof.
  intros HE. split; intros Hd p Hp; apply Hd; (eapply walk_ext, Hp); intros; by apply HE.
Qed.

Lemma dominates_refl E r x : dominates E r x x.
Proof. intros p Hp. by eapply walk_last. Qed.

Lemma dominates_trans E r x y z : dominates E r x y -> dominates E r y z -> dominates E r x z.
Proof.
  intros Hxy Hyz p Hp. pose proof (Hyz p Hp) as Hy.
  destruct (walk_split _ _ _ _ _ Hp Hy) as (p1 & p2 & H1 & _ & H3 & _). by apply H3, Hxy.
Qed.

Lemma dominates_root E r x : dominates E r r x.
Proof. intros p Hp. by eapply walk_first. Qed.

Lemma dominates_antisym E r x y :
  rtc E r x -> (x = y \/ x <> y) -> dominates E r x y -> dominates E r y x -> x = y.
Proof.
  intros [p Hp]%rtc_walk [->|Hne] Hxy Hyx; [done|exfalso].
  assert (forall n p, length p <= n -> walk E r p x -> False) as Hdesc; [|by eapply Hdesc].
  clear p Hp. induction n as [|n IH]; intros p Hlen Hp.
  - destruct Hp; simpl in Hlen; lia.
  - destruct (walk_split _ _ _ _ _ Hp (Hyx p Hp)) as (p1 & _ & H1 & _ & _ & _ & L1).
    destruct (walk_split _ _ _ _ _ H1 (Hxy p1 H1)) as (p2 & _ & H2 & _ & _ & _ & L2).
    apply (IH p2); [|done]. specialize (L1 (not_eq_sym Hne)). specialize (L2 Hne). lia.
Qed.

(** A dominator of a reachable node is reachable. *)
Lemma dominates_reachable E r d x : rtc E r x -> dominates E r d x -> rtc E r d.
Proof.
  intros [p Hp]%rtc_walk Hd.
  destruct (walk_split _ _ _ _ _ Hp (Hd p Hp)) as (p1 & _ & H1 & _). by eapply walk_rtc.
Qed.

(** Going one edge further: a dominator of the next node, other than it, dominates this one... *)
Lemma dominates_pred E r d x y : E x y -> d <> y -> dominates E r d y -> dominates E r d x.
Proof.
  intros Hxy Hne Hd p Hp.
  destruct (walk_app _ _ _ _ [x; y] y Hp) as (q & Hq & Hqx).
  - eapply walk_cons; [exact Hxy|constructor].
  - pose proof (Hd q Hq) as [Hin|Hin]%Hqx; [done|].
    rewrite !elem_of_cons in Hin. destruct Hin as [->|[->|?%elem_of_nil]]; [by eapply walk_last|done|done].
Qed.
End walks.

(** ** From indices to identities *)

Section transfer.
Context (ids : list string) (E : string -> string -> Prop) (g : CanonicalGraph) (idx : gmap string nat).
Context (Hg : graph_ok ids E g idx) (Hin : forall x y, E x y -> x ∈ ids /\ y ∈ ids).

Abbreviation I := (edge_of (graph_edges g)).

(** The identities of a list of indices. *)
Definition names (p : list nat) (q : list string) : Prop := Forall2 (fun i a => ids !! i = Some a) p q.

Lemma names_elem p q k c : names p q -> ids !! k = Some c -> k ∈ p <-> c ∈ q.
Proof.
  intros Hpq Hk. split.
  - intros [n Hn]%list_elem_of_lookup. destruct (Forall2_lookup_l _ _ _ _ _ Hpq Hn) as (c' & Hc' & Hk').
    simplify_eq. by eapply list_elem_of_lookup_2.
  - intros [n Hn]%list_elem_of_lookup. destruct (Forall2_lookup_r _ _ _ _ _ Hpq Hn) as (k' & Hk' & Hc').
    rewrite (NoDup_lookup ids k k' c (go_NoDup _ _ _ _ Hg) Hk Hc'). by eapply list_elem_of_lookup_2.
Qed.

Lemma walk_ids i p j a :
  ids !! i = Some a -> walk I i p j -> exists q b, ids !! j = Some b /\ walk E a q b /\ names p q.
Proof.
  intros Ha Hw. revert a Ha. induction Hw as [i|i k p j Hik _ IH]; intros a Ha.
  - exists [a], a. split_and!; [done|apply walk_nil|by constructor].
  - pose proof Hik as (a' & c & Ha' & Hc & HE)%(go_edges _ _ _ _ Hg). simplify_eq.
    destruct (IH c Hc) as (q & b & Hb & Hq & Hn). exists (a :: q), b.
    split_and!; [done|by eapply walk_cons|by constructor].
Qed.

Lemma ids_walk i j a q b :
  ids !! i = Some a -> ids !! j = Some b -> walk E a q b -> exists p, walk I i p j /\ names p q.
Proof.
  intros Ha Hb Hw. revert i Ha. induction Hw as [a|a c q b Hac _ IH]; intros i Ha.
  - exists [i]. rewrite (NoDup_lookup ids i j a (go_NoDup _ _ _ _ Hg) Ha Hb).
    split; [apply walk_nil|by constructor].
  - destruct (Hin a c Hac) as [_ [k Hk]%list_elem_of_lookup].
    destruct (IH Hb k Hk) as (p & Hp & Hn). exists (i :: p). split; [|by constructor].
    eapply walk_cons; [|exact Hp]. by eapply (edge_of_ids _ _ _ _ Hg).
Qed.

Lemma dominates_ids r d x a c b :
  ids !! r = Some a -> ids !! d = Some c -> ids !! x = Some b ->
  dominates I r d x <-> dominates E a c b.
Proof.
  intros Hr Hd Hx. split.
  - intros HD q Hq. destruct (ids_walk r x a q b Hr Hx Hq) as (p & Hp & Hn).
    apply (names_elem p q d c Hn Hd). by apply HD.
  - intros HD p Hp. destruct (walk_ids r p x a Hr Hp) as (q & b' & Hb' & Hq & Hn). simplify_eq.
    apply (names_elem p q d c Hn Hd). by apply HD.
Qed.

(** *** The graph with a virtual exit *)

Context (X : string -> Prop) (pg : CanonicalGraph).

(** [d] post-dominates [x]: every walk from [x] to an exit visits [d]. *)
Definition post_dominates (d x : string) : Prop := forall p e, walk E x p e -> X e -> d ∈ p.

Definition reaches_exit (x : string) : Prop := exists e, X e /\ rtc E x e.

Record post_graph_ok : Prop := {
  po_weights : weights pg = ids ++ [EmptyString];
  po_edges : forall i j, (i, j) ∈ graph_edges pg <->
    (i, j) ∈ graph_edges g \/ (j = length ids /\ exists e, ids !! i = Some e /\ X e)
}.
Context (Hpg : post_graph_ok).

Abbreviation v := (length ids).
Abbreviation J := (edge_of (graph_edges pg)).
Abbreviation K := (edge_of (reversed (graph_edges pg))).

Lemma reversed_flip i j : K i j <-> flip J i j.
Proof.
  unfold edge_of, reversed, flip. rewrite list_elem_of_fmap. split.
  - intros ([a b] & [= -> ->] & Hab). done.
  - intros Hij. by exists (j, i).
Qed.

Lemma post_edges_in : edges_in (node_count pg) (graph_edges pg).
Proof.
  intros i j Hij%(po_edges Hpg). unfold node_count. rewrite (po_weights Hpg), length_app. simpl.
  destruct Hij as [Hij|(-> & e & He & _)].
  - apply (graph_edges_in _ _ _ _ Hg) in Hij. unfold node_count in Hij.
    rewrite (go_weights _ _ _ _ Hg) in Hij. lia.
  - apply lookup_lt_Some in He. lia.
Qed.

Lemma virtual_exit_final j : ~ J v j.
Proof.
  intros [Hij|(_ & e & He & _)]%(po_edges Hpg).
  - apply (graph_edges_in _ _ _ _ Hg) in Hij. unfold node_count in Hij.
    rewrite (go_weights _ _ _ _ Hg) in Hij. lia.
  - apply lookup_lt_Some in He. lia.
Qed.

(** A walk to the virtual exit is a walk to an exit. *)
Lemma walk_to_exit x p a :
  ids !! x = Some a -> walk J x p v ->
  exists q e, walk E a q e /\ X e /\ forall k c, ids !! k = Some c -> k ∈ p <-> c ∈ q.
Proof.
  intros Ha Hw. remember v as y eqn:Hy. revert a Ha.
  induction Hw as [x|x y p z Hxy Hw IH]; intros a Ha; subst.
  - apply lookup_lt_Some in Ha. lia.
  - pose proof Hxy as [Hij|(-> & e & He & HX)]%(po_edges Hpg).
    + apply (go_edges _ _ _ _ Hg) in Hij as (a' & b & Ha' & Hb & HE). simplify_eq.
      destruct (IH eq_refl b Hb) as (q & e & Hq & He & Hk). exists (a :: q), e.
      split_and!; [by eapply walk_cons|done|]. intros k c Hc. rewrite !elem_of_cons, (Hk k c Hc).
      enough (k = x <-> c = a) by tauto. split; [intros ->; by simplify_eq|].
      intros ->. by eapply NoDup_lookup; [apply (go_NoDup _ _ _ _ Hg)| |].
    + simplify_eq. inversion Hw as [|? ? ? ? Hv]; subst; [|by apply virtual_exit_final in Hv].
      exists [a], a. split_and!; [apply walk_nil|done|]. intros k c Hc.
      rewrite elem_of_cons, !list_elem_of_singleton. split.
      * intros [->| ->]; [by simplify_eq|]. apply lookup_lt_Some in Hc. lia.
      * intros ->. left. by eapply NoDup_lookup; [apply (go_NoDup _ _ _ _ Hg)| |].
Qed.

Lemma exit_walk x a q e :
  ids !! x = Some a -> walk E a q e -> X e ->
  exists p, walk J x p v /\ forall k c, ids !! k = Some c -> k ∈ p <-> c ∈ q.
Proof.
  intros Ha Hq HX.
  assert (e ∈ ids) as [j Hj]%list_elem_of_lookup.
  { clear HX. apply list_elem_of_lookup_2 in Ha. induction Hq as [|a b q e Hab _ IH]; [done|].
    apply IH. by apply (Hin a b). }
  destruct (ids_walk x j a q e Ha Hj Hq) as (p & Hp & Hn).
  assert (walk J x p j) as Hp'.
  { eapply walk_ext, Hp. intros i k Hik. apply (po_edges Hpg). by left. }
  destruct (walk_app _ _ _ _ [j; v] v Hp') as (r & Hr & Hrx).
  { eapply walk_cons; [|apply walk_nil]. apply (po_edges Hpg). right. eauto. }
  exists r. split; [done|]. intros k c Hc. rewrite <- (names_elem p q k c Hn Hc), Hrx, !elem_of_cons.
  split; [|tauto]. intros [?|[->|[->|?%elem_of_nil]]]; [done|by eapply walk_last| |done].
  apply lookup_lt_Some in Hc. lia.
Qed.

Lemma post_dominates_ids d x c a :
  ids !! d = Some c -> ids !! x = Some a -> dominates K v d x <-> post_dominates c a.
Proof.
  intros Hd Hx. rewrite (dominates_ext _ (flip J)) by apply reversed_flip. split.
  - intros HD q e Hq He. destruct (exit_walk x a q e Hx Hq He) as (p & Hp & Hk).
    apply (Hk d c Hd). destruct (walk_flip _ _ _ _ Hp) as (r & Hr & Hrx). by apply Hrx, HD.
  - intros HD r Hr. destruct (walk_flip _ _ _ _ Hr) as (p & Hp & Hpx).
    destruct (walk_to_exit x p a Hx Hp) as (q & e & Hq & He & Hk). apply Hpx, (Hk d c Hd). by eapply HD.
Qed.

Lemma reaches_exit_ids x a : ids !! x = Some a -> rtc K v x <-> reaches_exit a.
Proof.
  intros Hx. split.
  - intros [r Hr]%rtc_walk. apply (walk_ext _ (flip J)) in Hr; [|intros; by apply reversed_flip].
    destruct (walk_flip _ _ _ _ Hr) as (p & Hp & _).
    destruct (walk_to_exit x p a Hx Hp) as (q & e & Hq & He & _). exists e. by eauto using walk_rtc.
  - intros (e & He & [q Hq]%rtc_walk). destruct (exit_walk x a q e Hx Hq He) as (p & Hp & _).
    destruct (walk_flip _ _ _ _ Hp) as (r & Hr & _).
    apply (walk_rtc _ _ r), (walk_ext (flip J)); [intros; by apply reversed_flip|done].
Qed.
End transfer.
