(* ===== verification/CommonCfgTheory.v ===== *)
(** The control-flow families ([derive_cfg_families]): the rows of one owner are its strict
    dominators, its strict post-dominators and its control dependences, and every node and edge is
    accounted for. *)

From stdpp Require Import sorting.
From S2P Require Import Prelude Encoding CommonModel CommonCfg CommonCalls CommonTheory CommonGraph.
From S2P Require Import CommonTopology CommonWalk.

(** ** Up the post-dominator tree *)

Section runner.
Context `{!Petgraph, !PetgraphLaws}.
Context (bindings : CommonAnalysisBindings) (bounds : CommonAnalysisBounds) (complete : bool).
Context (ids : list string) (edges : list (nat * nat)) (pg : CanonicalGraph).
Context (Hweights : weights pg = ids ++ [EmptyString]) (Hedges : edges_in (S (length ids)) edges).

Abbreviation v := (length ids).
Abbreviation K := (edge_of edges).
Abbreviation D := (dominates K v).
Abbreviation pd := (simple_fast (S v) edges v).
Abbreviation fam := (control_dependence (families bindings)).

Lemma reachable_lt x : rtc K v x -> x < S v.
Proof.
  intros Hr. destruct (rtc_inv_r _ _ Hr) as [<-|(y & _ & Hy)]; [lia|]. by apply (Hedges y x).
Qed.

(** The rows that say that the nodes of [seen] depend on [controller]. *)
Definition depend_rows (controller : string) (seen : gset nat) (r : FactRow) : Prop :=
  exists x a, x ∈ seen /\ ids !! x = Some a /\ r = cfg_fact fam a controller complete.

(** The nodes passed on the way from [b] to [current], all below [stop]. *)
Record climbing (b stop current : nat) (seen : gset nat) : Prop := {
  cl_current : rtc K v current /\ D current b;
  cl_seen : forall x, x ∈ seen -> D x b /\ D current x /\ x <> current /\ x < v /\ x <> stop;
  cl_rest : forall x, D x b -> x ∈ seen \/ D x current
}.

Lemma climbing_step b stop current seen next :
  climbing b stop current seen -> current <> stop -> current <> v ->
  immediate_dominator pd current = Some next ->
  climbing b stop next ({[current]} ∪ seen).
Proof.
  intros [[Hr Hb] Hseen Hrest] Hstop Hv Hnext. pose proof (reachable_lt _ Hr) as Hlt.
  apply immediate_dominator_Some in Hnext as (Hd & Hne & Hmax); [|done|lia|done].
  assert (rtc K v next) as Hrn by by eapply dominates_reachable.
  split.
  - split; [done|]. by eapply dominates_trans.
  - intros x [->%elem_of_singleton|Hx]%elem_of_union.
    + split_and!; [done|done|done|lia|done].
    + destruct (Hseen x Hx) as (H1 & H2 & H3 & H4 & H5).
      split_and!; [done|by eapply dominates_trans| |done|done].
      intros ->. apply H3. apply (dominates_antisym K v); [done| |done|done].
      destruct (decide (next = current)); auto.
  - intros x [Hx|Hx]%Hrest; [left; set_solver|].
    destruct (decide (x = current)) as [->|Hxc]; [left; set_solver|right; by apply Hmax].
Qed.

(** At the stop, the nodes passed are the dominators of [b] that do not dominate the stop. *)
Lemma climbing_stop b stop seen x :
  climbing b stop stop seen -> x ∈ seen <-> D x b /\ ~ D x stop.
Proof.
  intros [[Hr _] Hseen Hrest]. split.
  - intros Hx. destruct (Hseen x Hx) as (H1 & H2 & H3 & _). split; [done|]. intros H4.
    apply H3. symmetry. apply (dominates_antisym K v); [done| |done|done].
    destruct (decide (stop = x)); auto.
  - intros [H1 H2]. by destruct (Hrest x H1).
Qed.

Lemma virtual_dominators x : D x v -> x = v.
Proof. intros HD. specialize (HD [v] (walk_nil _ _)). by apply list_elem_of_singleton in HD. Qed.

Lemma weight_of_post x : x < v -> exists a, ids !! x = Some a /\ weight_of pg x = Ok a.
Proof.
  intros [a Ha]%lookup_lt_is_Some_2. exists a. split; [done|].
  unfold weight_of. rewrite Hweights, lookup_app_l by by eapply lookup_lt_Some. by rewrite Ha.
Qed.

Lemma runner_loop_spec ctl controller b stop fuel current seen s0 s :
  ids !! ctl = Some controller -> D stop b -> climbing b stop current seen ->
  S v <= fuel + size seen ->
  evolves (depend_rows controller seen) [fam] s0 s -> progress s = progress s0 ->
  returns (runner_loop bindings bounds complete fuel pg pd v ctl (Some stop) (Some current) seen s)
    (fun s' => progress s' = progress s0 /\ exists seen', evolves (depend_rows controller seen') [fam] s0 s' /\
       forall x, x ∈ seen' <-> D x b /\ ~ D x stop).
Proof.
  intros Hctl Hstop. revert current seen s.
  induction fuel as [|fuel IH]; intros current seen s Hcl Hfuel Hev Hp; cbn [runner_loop].
  all: destruct (decide (current = stop)) as [->|Hne];
    [rewrite bool_decide_eq_true_2 by done; simpl; split; [done|]; exists seen; split; [done|];
     intros x; by apply climbing_stop|].
  all: destruct (decide (current = v)) as [->|Hnv];
    [exfalso; destruct (cl_rest _ _ _ _ Hcl stop Hstop) as [Hs|Hs%virtual_dominators]; [|done];
     by apply (cl_seen _ _ _ _ Hcl) in Hs as (_ & _ & _ & _ & ?)|].
  all: assert (current ∉ seen) as Hns by (intros Hs; by apply (cl_seen _ _ _ _ Hcl) in Hs as (_ & _ & ? & _)).
  all: destruct (cl_current _ _ _ _ Hcl) as [Hr Hb]; pose proof (reachable_lt _ Hr) as Hlt.
  - exfalso. assert (size seen <= v) as Hle; [|lia].
    rewrite <- (length_seq v 0), <- (size_list_to_set (C:=gset nat)) by apply NoDup_seq.
    apply subseteq_size. intros x Hx. apply elem_of_list_to_set, elem_of_seq.
    apply (cl_seen _ _ _ _ Hcl) in Hx. lia.
  - rewrite !bool_decide_eq_false_2 by congruence. cbn [orb].
    destruct (weight_of_post current) as (a & Ha & ->); [lia|].
    destruct (weight_of_post ctl) as (c & Hc & ->); [by eapply lookup_lt_Some|]. simplify_eq.
    assert (is_Some (immediate_dominator pd current)) as [next Hnext]
      by (apply immediate_dominator_reached; [done|lia|done|done]).
    rewrite Hnext.
    apply IH.
    + by apply climbing_step.
    + rewrite size_union, size_singleton by set_solver. lia.
    + eapply evolves_trans; [exact Hev|apply insert_fact_evolves|]. intros r. unfold depend_rows. split.
      * intros (x & a' & [->%elem_of_singleton|Hx]%elem_of_union & Hxa & ->); [right; congruence|left; eauto].
      * intros [(x & a' & Hx & Hxa & ->)|<-]; [exists x, a'; set_solver|].
        exists current, a. set_solver.
    + rewrite <- Hp. unfold insert_fact. by case_match.
Qed.
End runner.

(** ** One owner *)

(** The graph of one owner, as identities: its nodes, its edges, its entry and its exits. *)
Section owner.
Context `{!Petgraph, !PetgraphLaws}.
Context (bindings : CommonAnalysisBindings) (bounds : CommonAnalysisBounds) (complete : bool).
Context (Hfams : NoDup (families_all (families bindings))).
Context (ids : list string) (E : string -> string -> Prop) (root : string) (X : string -> Prop).
Context (g : CanonicalGraph) (idx : gmap string nat) (pg : CanonicalGraph).
Context (Hg : graph_ok ids E g idx) (Hin : forall x y, E x y -> x ∈ ids /\ y ∈ ids).
Context (Hpg : post_graph_ok ids g X pg).

Abbreviation fams := (families bindings).
Abbreviation v := (length ids).

Lemma node_count_g : node_count g = v.
Proof. unfold node_count. by rewrite (go_weights _ _ _ _ Hg). Qed.

Lemma node_count_pg : node_count pg = S v.
Proof. unfold node_count. rewrite (po_weights _ _ _ _ Hpg), length_app. simpl. lia. Qed.

(** *** Rows *)

Definition dominator_facts (a : string) (r : FactRow) : Prop :=
  exists d, rtc E root a /\ dominates E root d a /\ d <> a /\
    r = cfg_fact (dominator fams) a d complete.

Definition post_dominator_facts (a : string) (r : FactRow) : Prop :=
  exists d, reaches_exit E X a /\ post_dominates E X d a /\ d <> a /\
    r = cfg_fact (post_dominator fams) a d complete.

(** What depends on [a] because of its edge to [b]: the nodes that post-dominate [b] and not, in the
    strict sense, [a]; just [b] where the exits are out of reach. *)
Definition controls (a b x : string) : Prop :=
  (reaches_exit E X a /\ reaches_exit E X b /\ a <> b /\ post_dominates E X x b /\
   ~ (post_dominates E X x a /\ x <> a)) \/
  (~ reaches_exit E X b /\ x = b).

Definition control_facts (a b : string) (r : FactRow) : Prop :=
  exists x, controls a b x /\ r = cfg_fact (control_dependence fams) x a complete.

(** A post-dominator of a node that reaches an exit is a node. *)
Lemma post_dominator_node d a : a ∈ ids -> reaches_exit E X a -> post_dominates E X d a -> d ∈ ids.
Proof.
  intros Ha (e & He & [p Hp]%rtc_walk) Hd. specialize (Hd p e Hp He). revert Ha Hd. clear -Hp Hin.
  induction Hp as [a|a b p e Hab _ IH]; intros Ha Hd.
  - by apply list_elem_of_singleton in Hd as ->.
  - apply elem_of_cons in Hd as [->|Hd]; [done|]. apply IH; [|done]. by apply (Hin a b).
Qed.

Lemma dominator_node d a : root ∈ ids -> rtc E root a -> dominates E root d a -> d ∈ ids.
Proof.
  intros Hr [p Hp]%rtc_walk Hd. specialize (Hd p Hp). revert Hr Hd. clear -Hp Hin.
  induction Hp as [r|r b p e Hab _ IH]; intros Ha Hd.
  - by apply list_elem_of_singleton in Hd as ->.
  - apply elem_of_cons in Hd as [->|Hd]; [done|]. apply IH; [|done]. by apply (Hin r b).
Qed.

Lemma insert_dominators_spec family graph node strict s :
  (forall d, d ∈ strict -> is_Some (weights graph !! d)) ->
  returns (insert_dominators bounds complete family graph node strict s) (fun s' =>
    evolves (fun r => exists d c, d ∈ strict /\ weights graph !! d = Some c /\
                        r = cfg_fact family (n_node_id node) c complete) [] s s').
Proof.
  intros Hs. eapply returns_mono.
  - apply (for_each_evolves id _ (fun d r => exists c, weights graph !! d = Some c /\
      r = cfg_fact family (n_node_id node) c complete) [] (fun _ _ => True)); [done|].
    intros done d todo s1 Hl _. destruct (Hs d) as [c Hc].
    { rewrite Hl. apply elem_of_app. right. apply list_elem_of_here. }
    unfold weight_of. rewrite Hc. simpl. split; [|done].
    eapply evolves_weaken; [apply insert_fact_evolves| |done]. naive_solver.
  - unfold id. intros s' [Hev _]. eapply evolves_weaken; [exact Hev| |done]. naive_solver.
Qed.

Lemma dominator_rows_spec owner i a node rq n s :
  ids !! i = Some a -> n_node_id node = a -> account s (dominator fams) rq n -> (n < u64_max)%Z ->
  forall ri, ids !! ri = Some root ->
  returns (dominator_rows bindings bounds complete owner g idx
             (simple_fast (node_count g) (graph_edges g) ri) node s) (fun s' =>
    evolves (dominator_facts a) [dominator fams] s s' /\ account s' (dominator fams) rq (n + 1) /\
    (rtc E root a \/ noted s' (dominator fams) (Some a))).
Proof.
  intros Hi Hnode Hacc Hn ri Hri. unfold dominator_rows.
  rewrite Hnode. unfold index_of. rewrite (proj2 (go_index _ _ _ _ Hg a i) Hi). cbn [expect ok_or].
  pose proof (graph_edges_in _ _ _ _ Hg) as Hedges. pose proof node_count_g as Hcount.
  assert (i < node_count g) as Hlt by (rewrite Hcount; by eapply lookup_lt_Some).
  assert (ri < node_count g) as Hrlt by (rewrite Hcount; by eapply lookup_lt_Some).
  assert (rtc (edge_of (graph_edges g)) ri i <-> rtc E root a) as Hreach.
  { split; [|by eapply ids_rtc]. intros Hr. destruct (rtc_ids _ _ _ _ Hg _ _ _ Hri Hr) as (b & ? & ?).
    by simplify_eq. }
  pose proof (strict_dominators_reached _ _ ri i Hedges Hrlt Hlt) as Hsome. rewrite Hreach in Hsome.
  destruct (strict_dominators _ i) as [strict|] eqn:Hs.
  - assert (rtc E root a) as Hra by (apply Hsome; eauto).
    pose proof (fun d => strict_dominators_Some _ _ ri i strict d Hedges Hrlt Hlt Hs) as Hstrict.
    assert (forall d c, ids !! d = Some c -> d ∈ strict <-> dominates E root c a /\ c <> a) as Hids.
    { intros d c Hd. rewrite Hstrict, (dominates_ids _ _ _ _ Hg Hin ri d i root c a) by done.
      enough (d = i <-> c = a) by tauto. split; [intros ->; by simplify_eq|intros ->].
      by eapply NoDup_lookup; [apply (go_NoDup _ _ _ _ Hg)| |]. }
    eapply returns_bind; [apply (insert_dominators_spec (dominator fams) g node strict s)|].
    { intros d [Hd _]%Hstrict. rewrite (go_weights _ _ _ _ Hg).
      apply Hreach, rtc_walk in Hra as [p Hp]. specialize (Hd p Hp).
      destruct (walk_ids _ _ _ _ Hg ri p i root Hri Hp) as (q & b & _ & _ & Hq).
      apply list_elem_of_lookup in Hd as [k Hk].
      destruct (Forall2_lookup_l _ _ _ _ _ Hq Hk) as (c & _ & ->). eauto. }
    intros s1 Hev1. rewrite (go_weights _ _ _ _ Hg), Hnode in Hev1.
    eapply returns_mono; [apply (settle_one add_completed); [by left| |done]|].
    { eapply account_frame; [exact Hev1|apply not_elem_of_nil|exact Hacc]. }
    intros s2 [Hev2 Ha2]. split_and!; [|done|by left].
    eapply evolves_trans_r; [|exact Hev2].
    eapply evolves_weaken; [exact Hev1| |apply list_subseteq_nil]. intros r. split.
    + intros (d & c & Hd & Hc & ->). exists c. apply (Hids d c Hc) in Hd. naive_solver.
    + intros (c & _ & Hc & Hne & ->).
      assert (c ∈ ids) as [d Hd]%list_elem_of_lookup.
      { eapply dominator_node; [by eapply list_elem_of_lookup_2|exact Hra|done]. }
      exists d, c. rewrite (Hids d c Hd). done.
  - assert (~ rtc E root a) as Hnr by (intros [? ?]%Hsome; done).
    eapply returns_mono; [by apply note_unknown|]. intros s' (Hev & Ha & Hu). split_and!; [|done|].
    + eapply evolves_weaken; [exact Hev| |done]. intros r. unfold no_rows. split; [done|].
      by intros (d & Hr & _).
    + right. eexists. split; [exact Hu|done].
Qed.

(** *** Post-dominance *)

Abbreviation pedges := (reversed (graph_edges pg)).
Abbreviation pd := (simple_fast (S v) pedges v).

Lemma reversed_in : edges_in (S v) pedges.
Proof.
  intros i j Hij%list_elem_of_fmap. destruct Hij as ([a b] & [= -> ->] & Hab).
  apply (post_edges_in _ _ _ _ Hg X pg Hpg) in Hab. rewrite node_count_pg in Hab. lia.
Qed.

Lemma post_reached i a : ids !! i = Some a -> rtc (edge_of pedges) v i <-> reaches_exit E X a.
Proof. apply (reaches_exit_ids ids E g idx Hg Hin X pg Hpg). Qed.

Lemma post_dominated d x c a :
  ids !! d = Some c -> ids !! x = Some a -> dominates (edge_of pedges) v d x <-> post_dominates E X c a.
Proof. apply (post_dominates_ids ids E g idx Hg Hin X pg Hpg). Qed.

Lemma index_eq i j a b : ids !! i = Some a -> ids !! j = Some b -> i = j <-> a = b.
Proof.
  intros Hi Hj. split; [intros ->; by simplify_eq|intros ->].
  by eapply NoDup_lookup; [apply (go_NoDup _ _ _ _ Hg)| |].
Qed.

Lemma post_dominator_rows_spec owner i a node original rq n s :
  ids !! i = Some a -> n_node_id node = a ->
  (forall j, j ∈ original <-> j < v) ->
  account s (post_dominator fams) rq n -> (n < u64_max)%Z ->
  returns (post_dominator_rows bindings bounds complete owner pg idx original pd node s) (fun s' =>
    evolves (post_dominator_facts a) [post_dominator fams] s s' /\
    account s' (post_dominator fams) rq (n + 1) /\
    (reaches_exit E X a \/ noted s' (post_dominator fams) (Some a))).
Proof.
  intros Hi Hnode Horig Hacc Hn. unfold post_dominator_rows.
  rewrite Hnode. unfold index_of. rewrite (proj2 (go_index _ _ _ _ Hg a i) Hi). cbn [expect ok_or].
  pose proof reversed_in as Hedges. assert (i < v) as Hlt by by eapply lookup_lt_Some.
  pose proof (strict_dominators_reached _ _ v i Hedges ltac:(lia) ltac:(lia)) as Hsome.
  rewrite (post_reached i a Hi) in Hsome.
  destruct (strict_dominators pd i) as [strict|] eqn:Hs.
  - assert (reaches_exit E X a) as Hra by (apply Hsome; eauto).
    pose proof (fun d => strict_dominators_Some _ _ v i strict d Hedges ltac:(lia) ltac:(lia) Hs) as Hstrict.
    assert (forall d c, ids !! d = Some c ->
      d ∈ filter (fun d => d ∈ original) strict <-> post_dominates E X c a /\ c <> a) as Hids.
    { intros d c Hd. rewrite list_elem_of_filter, Hstrict, (post_dominated d i c a Hd Hi), Horig.
      rewrite (index_eq d i c a Hd Hi). apply lookup_lt_Some in Hd. tauto. }
    eapply returns_bind; [apply (insert_dominators_spec (post_dominator fams) pg node)|].
    { intros d [[w Hw]%Horig%lookup_lt_is_Some_2 _]%list_elem_of_filter.
      rewrite (po_weights _ _ _ _ Hpg), lookup_app_l by by eapply lookup_lt_Some. eauto. }
    intros s1 Hev1. rewrite (po_weights _ _ _ _ Hpg), Hnode in Hev1.
    eapply returns_mono; [apply (settle_one add_completed); [by left| |done]|].
    { eapply account_frame; [exact Hev1|apply not_elem_of_nil|exact Hacc]. }
    intros s2 [Hev2 Ha2]. split_and!; [|done|by left].
    eapply evolves_trans_r; [|exact Hev2].
    eapply evolves_weaken; [exact Hev1| |apply list_subseteq_nil]. intros r. split.
    + intros (d & c & Hd & Hc & ->). exists c.
      assert (d < v) as Hdv by (apply list_elem_of_filter in Hd as [Hd _]; by apply Horig).
      rewrite lookup_app_l in Hc by done. apply (Hids d c Hc) in Hd. naive_solver.
    + intros (c & _ & Hc & Hne & ->).
      assert (c ∈ ids) as [d Hd]%list_elem_of_lookup.
      { eapply post_dominator_node; [by eapply list_elem_of_lookup_2|done|done]. }
      exists d, c. rewrite (Hids d c Hd), lookup_app_l by by eapply lookup_lt_Some. done.
  - assert (~ reaches_exit E X a) as Hnr by (intros [? ?]%Hsome; done).
    eapply returns_mono; [by apply note_unknown|]. intros s' (Hev & Ha & Hu). split_and!; [|done|].
    + eapply evolves_weaken; [exact Hev| |done]. intros r. unfold no_rows. split; [done|].
      by intros (d & Hr & _).
    + right. eexists. split; [exact Hu|done].
Qed.

(** *** Control dependence *)

(** The reversed edge of a control-flow edge. *)
Lemma reversed_edge i j a b :
  ids !! i = Some a -> ids !! j = Some b -> E a b -> edge_of pedges j i.
Proof.
  intros Hi Hj HE. apply reversed_flip, (po_edges _ _ _ _ Hpg). left.
  apply (go_edges _ _ _ _ Hg). eauto.
Qed.

Lemma reaches_exit_pred a b : E a b -> reaches_exit E X b -> reaches_exit E X a.
Proof. intros HE (e & He & Hb). exists e. split; [done|]. by eapply rtc_l. Qed.

(** The stop of the walk up: the immediate post-dominator of [a] post-dominates [b] too, and what
    is above it is what post-dominates [a] strictly. *)
Lemma stop_dominators i j stop :
  i < v -> edge_of pedges j i -> immediate_dominator pd i = Some stop ->
  dominates (edge_of pedges) v stop j /\
  forall x, dominates (edge_of pedges) v x stop <-> dominates (edge_of pedges) v x i /\ x <> i.
Proof.
  intros Hi Hji Hstop. pose proof reversed_in as Hedges.
  assert (rtc (edge_of pedges) v i) as Hr.
  { apply (immediate_dominator_reached _ _ v i Hedges ltac:(lia) ltac:(lia)). eauto. }
  apply (immediate_dominator_Some _ _ v i stop Hedges ltac:(lia) ltac:(lia)) in Hstop
    as (Hd & Hne & Hmax).
  split; [by eapply dominates_pred|]. intros x. split; [|intros [? ?]; by apply Hmax].
  intros Hx. split; [by eapply dominates_trans|]. intros ->. apply Hne.
  apply (dominates_antisym (edge_of pedges) v); [by eapply dominates_reachable| |done|done].
  destruct (decide (stop = i)); auto.
Qed.

(** Where the successor cannot reach an exit the walk stops after it. *)
Lemma runner_unreachable i j a b s :
  ids !! i = Some a -> ids !! j = Some b -> ~ reaches_exit E X b ->
  exists s', runner_loop bindings bounds complete (node_count pg) pg pd v i
      (immediate_dominator pd i) (Some j) ∅ s = Ok s' /\
    s' = insert_fact (cfg_fact (control_dependence fams) b a complete) bounds s.
Proof.
  intros Hi Hj Hb. pose proof reversed_in as Hedges.
  pose proof (lookup_lt_Some _ _ _ Hi) as Hil. pose proof (lookup_lt_Some _ _ _ Hj) as Hjl.
  assert (~ rtc (edge_of pedges) v j) as Hnr by by rewrite (post_reached j b Hj).
  assert (immediate_dominator pd j = None) as Hnone.
  { apply eq_None_not_Some. intros Hs.
    by apply (immediate_dominator_reached _ _ v j Hedges ltac:(lia) ltac:(lia)) in Hs as [_ ?]. }
  assert (Some j <> immediate_dominator pd i) as Hstop.
  { intros Hs. symmetry in Hs.
    assert (rtc (edge_of pedges) v i) as Hr
      by (apply (immediate_dominator_reached _ _ v i Hedges ltac:(lia) ltac:(lia)); eauto).
    apply (immediate_dominator_Some _ _ v i j Hedges ltac:(lia) ltac:(lia)) in Hs as (Hd & _).
    apply Hnr. by eapply dominates_reachable. }
  rewrite node_count_pg. cbn [runner_loop].
  rewrite (bool_decide_eq_false_2 _ Hstop), (bool_decide_eq_false_2 (j = v)) by lia.
  rewrite bool_decide_eq_false_2 by apply not_elem_of_empty. cbn [orb].
  destruct (weight_of_post ids pg (po_weights _ _ _ _ Hpg) j Hjl) as (b' & Hb' & ->).
  destruct (weight_of_post ids pg (po_weights _ _ _ _ Hpg) i Hil) as (a' & Ha' & ->).
  simplify_eq. rewrite Hnone. destruct v; eexists; done.
Qed.

Lemma post_dominates_reaches d a : reaches_exit E X a -> post_dominates E X d a -> reaches_exit E X d.
Proof.
  intros (e & He & [p Hp]%rtc_walk) Hd. exists e. split; [done|].
  destruct (walk_split _ _ _ _ _ Hp (Hd p e Hp He)) as (_ & p2 & _ & H2 & _). by eapply walk_rtc.
Qed.

Lemma post_dominates_trans c d a :
  post_dominates E X c d -> post_dominates E X d a -> post_dominates E X c a.
Proof.
  intros Hc Hd p e Hp He.
  destruct (walk_split _ _ _ _ _ Hp (Hd p e Hp He)) as (_ & p2 & _ & H2 & _ & H4 & _).
  by apply H4, (Hc p2 e).
Qed.

Lemma post_dominates_antisym a b :
  a ∈ ids -> b ∈ ids -> reaches_exit E X a ->
  post_dominates E X a b -> post_dominates E X b a -> a = b.
Proof.
  intros [i Hi]%list_elem_of_lookup [j Hj]%list_elem_of_lookup.
  rewrite <- (post_reached i a Hi), <- (post_dominated i j a b Hi Hj), <- (post_dominated j i b a Hj Hi).
  intros Hr Hab Hba. apply (index_eq i j a b Hi Hj).
  apply (dominates_antisym (edge_of pedges) v); [done| |done|done]. destruct (decide (i = j)); auto.
Qed.

(** An edge to a post-dominator controls nothing. *)
Lemma post_dominated_no_control a b x :
  a ∈ ids -> b ∈ ids -> reaches_exit E X a -> post_dominates E X b a -> ~ controls a b x.
Proof.
  intros Ha Hb Hra Hba [(_ & Hrb & Hne & Hx & Hnx)|[Hnb _]].
  - pose proof (post_dominates_trans x b a Hx Hba) as Hxa.
    destruct (decide (x = a)) as [->|Hxne]; [|tauto]. by apply Hne, post_dominates_antisym.
  - by eapply Hnb, post_dominates_reaches.
Qed.

(** Where it can, the walk passes the nodes that depend on the edge. *)
Lemma runner_reached i j a b s :
  ids !! i = Some a -> ids !! j = Some b -> E a b ->
  reaches_exit E X b -> ~ (reaches_exit E X a /\ post_dominates E X b a) ->
  returns (runner_loop bindings bounds complete (node_count pg) pg pd v i
             (immediate_dominator pd i) (Some j) ∅ s)
    (fun s' => evolves (control_facts a b) [] s s' /\ progress s' = progress s).
Proof.
  intros Hi Hj HE Hrb Hnot. pose proof (reaches_exit_pred a b HE Hrb) as Hra.
  pose proof reversed_in as Hedges. pose proof (reversed_edge i j a b Hi Hj HE) as Hji.
  pose proof (lookup_lt_Some _ _ _ Hi) as Hil. pose proof (lookup_lt_Some _ _ _ Hj) as Hjl.
  assert (is_Some (immediate_dominator pd i)) as [stop Hstop].
  { apply (immediate_dominator_reached _ _ v i Hedges ltac:(lia) ltac:(lia)).
    split; [lia|]. by apply (post_reached i a Hi). }
  destruct (stop_dominators i j stop Hil Hji Hstop) as [Hsj Hsx]. rewrite Hstop.
  eapply returns_mono.
  - apply (runner_loop_spec bindings bounds complete ids pedges pg (po_weights _ _ _ _ Hpg) Hedges
             i a j stop (node_count pg) j ∅ s s Hi Hsj); [| |  |done].
    + split; [|set_solver|by right]. split; [by apply (post_reached j b Hj)|apply dominates_refl].
    + rewrite node_count_pg. lia.
    + eapply evolves_weaken; [apply (evolves_refl [control_dependence fams])| |done].
      intros r. unfold no_rows, depend_rows. split; [done|]. intros (x & ? & []%not_elem_of_empty & _).
  - intros s' (Hp & seen & Hev & Hseen). split; [|done].
    eapply evolves_same_progress; [|done]. eapply evolves_weaken; [exact Hev| |done].
    assert (a <> b) as Hne.
    { intros ->. apply Hnot. split; [done|]. intros p e Hp' _. by eapply walk_first. }
    assert (forall x c, ids !! x = Some c -> x ∈ seen <-> controls a b c) as Hctl.
    { intros x c Hc. rewrite Hseen, Hsx, (post_dominated x j c b Hc Hj), (post_dominated x i c a Hc Hi).
      rewrite (index_eq x i c a Hc Hi). unfold controls. tauto. }
    intros r. split.
    + intros (x & c & Hx & Hc & ->). exists c. by rewrite <- (Hctl x c Hc).
    + intros (c & Hcc & ->).
      assert (c ∈ ids) as [x Hx]%list_elem_of_lookup.
      { destruct Hcc as [(_ & _ & _ & Hpd & _)|[_ ->]]; [|by eapply list_elem_of_lookup_2].
        by eapply post_dominator_node; [eapply list_elem_of_lookup_2| |]. }
      exists x, c. by rewrite (Hctl x c Hx).
Qed.

(** The rows of one edge, before it is counted. *)
Lemma runner_rows i j a b s :
  ids !! i = Some a -> ids !! j = Some b -> E a b ->
  returns (if from_option (fun l => bool_decide (j ∈ l)) false (dominators_of pd i) then Ok s
           else runner_loop bindings bounds complete (node_count pg) pg pd v i
                  (immediate_dominator pd i) (Some j) ∅ s)
    (fun s' => evolves (control_facts a b) [] s s' /\ progress s' = progress s).
Proof.
  intros Hi Hj HE. pose proof reversed_in as Hedges. pose proof (reversed_edge i j a b Hi Hj HE) as Hji.
  pose proof (lookup_lt_Some _ _ _ Hi) as Hil. pose proof (lookup_lt_Some _ _ _ Hj) as Hjl.
  pose proof (dominators_of_reached _ _ v i Hedges ltac:(lia) ltac:(lia)) as Hreached.
  pose proof (fun l d => dominators_of_Some _ _ v i l d Hedges ltac:(lia) ltac:(lia)) as Hdoms.
  rewrite (post_reached i a Hi) in Hreached. pose proof (reaches_exit_pred a b HE) as Hpred.
  destruct (from_option _ false _) eqn:Hdec.
  - destruct (dominators_of pd i) as [l|] eqn:Hl; [|done]. simpl in Hdec. zify_bool.
    apply (Hdoms l j eq_refl), (post_dominated j i b a Hj Hi) in Hdec.
    assert (reaches_exit E X a) as Hra by (apply Hreached; eauto).
    assert (reaches_exit E X b) as Hrb by by eapply post_dominates_reaches.
    simpl. split; [|done]. eapply evolves_weaken; [apply (evolves_refl [])| |done].
    intros r. unfold no_rows. split; [done|]. intros (x & Hx & _).
    revert Hx. by apply post_dominated_no_control; [by eapply list_elem_of_lookup_2..| |].
  - assert (~ (reaches_exit E X a /\ post_dominates E X b a)) as Hnot.
    { intros [[l Hl]%Hreached Hba]. rewrite Hl in Hdec. simpl in Hdec. zify_bool.
      by apply Hdec, (Hdoms l j Hl), (post_dominated j i b a Hj Hi). }
    pose proof (dominators_of_reached _ _ v j Hedges ltac:(lia) ltac:(lia)) as Hreachb.
    rewrite (post_reached j b Hj) in Hreachb.
    destruct (dominators_of pd j) as [lb|].
    + assert (reaches_exit E X b) as Hrb by (apply Hreachb; eauto). by apply runner_reached.
    + assert (~ reaches_exit E X b) as Hrb by (intros [? ?]%Hreachb; done).
      destruct (runner_unreachable i j a b s Hi Hj Hrb) as (s' & -> & ->). simpl.
      split; [|unfold insert_fact; by case_match].
      eapply evolves_weaken; [apply insert_fact_evolves| |done]. intros r. split.
      * intros <-. exists b. split; [by right|done].
      * intros (x & [(_ & ? & _)|[_ ->]] & ->); done.
Qed.

Lemma control_dependence_rows_spec edge a b rq n s :
  e_source_node_id edge = a -> e_target_node_id edge = b -> E a b ->
  account s (control_dependence fams) rq n -> (n < u64_max)%Z ->
  returns (control_dependence_rows bindings bounds complete pg idx pd v edge s) (fun s' =>
    evolves (control_facts a b) [control_dependence fams] s s' /\
    account s' (control_dependence fams) rq (n + 1)).
Proof.
  intros Ha Hb HE Hacc Hn. pose proof (Hin a b HE) as [Hia Hib].
  apply list_elem_of_lookup in Hia as [i Hi], Hib as [j Hj].
  pose proof (lookup_lt_Some _ _ _ Hi) as Hil. pose proof (lookup_lt_Some _ _ _ Hj) as Hjl.
  unfold control_dependence_rows, index_of.
  rewrite Ha, Hb, (proj2 (go_index _ _ _ _ Hg a i) Hi), (proj2 (go_index _ _ _ _ Hg b j) Hj).
  cbn [expect ok_or].
  eapply (returns_bind _ _ (fun s' => evolves (control_facts a b) [] s s' /\ progress s' = progress s)).
  - by apply runner_rows.
  - intros s1 [Hev1 Hp1]. eapply returns_mono; [apply (settle_one add_completed); [by left| |done]|].
    { by eapply account_progress. }
    intros s2 [Hev2 Ha2]. split; [|done]. eapply evolves_trans_r; [|exact Hev2].
    eapply evolves_weaken; [exact Hev1|done|apply list_subseteq_nil].
Qed.
End owner.
