(* ===== verification/CommonOwners.v ===== *)
(** The control-flow families over all owners ([derive_owner], [derive_cfg_families]) and data
    dependence: the rows emitted are those of the analysable owners, and each family settles as many
    units as it was asked for. *)

From stdpp Require Import sorting pretty.
From S2P Require Import Prelude Encoding CommonModel CommonCfg CommonCalls CommonTheory CommonGraph.
From S2P Require Import CommonTopology CommonCallTheory CommonWalk CommonCfgTheory.

(** ** Grouping by owner *)

Section grouping.
Context {A : Type} (owner : A -> string).

Lemma group_by_owner_default rows k :
  default [] (group_by_owner owner rows !! k) = filter (fun r => owner r = k) rows.
Proof.
  unfold group_by_owner. induction rows as [|x rows IH] using rev_ind; [done|].
  rewrite foldl_app, filter_app. simpl. rewrite filter_cons, filter_nil.
  destruct (decide (owner x = k)) as [<-|Hne].
  - by rewrite lookup_insert_eq, <- IH.
  - by rewrite lookup_insert_ne, IH, app_nil_r by done.
Qed.

Lemma group_by_owner_some rows k :
  is_Some (group_by_owner owner rows !! k) <-> exists r, r ∈ rows /\ owner r = k.
Proof.
  unfold group_by_owner. induction rows as [|x rows IH] using rev_ind.
  - split; [by intros [? ?]|]. by intros (r & ?%elem_of_nil & _).
  - rewrite foldl_app. simpl. destruct (decide (owner x = k)) as [<-|Hne].
    + rewrite lookup_insert_eq. split; [|eauto]. intros _. exists x. split; [|done].
      apply elem_of_app. right. apply list_elem_of_here.
    + rewrite lookup_insert_ne, IH by done. setoid_rewrite elem_of_app.
      setoid_rewrite list_elem_of_singleton. naive_solver.
Qed.

Lemma group_by_owner_lookup rows k l :
  group_by_owner owner rows !! k = Some l -> l = filter (fun r => owner r = k) rows.
Proof. intros Hl. by rewrite <- group_by_owner_default, Hl. Qed.

(** The groups of distinct owners, of all owners, have all the rows. *)
Lemma length_groups rows keys :
  NoDup keys -> (forall r, r ∈ rows -> owner r ∈ keys) ->
  sum_list_with (fun k => length (filter (fun r => owner r = k) rows)) keys = length rows.
Proof.
  intros Hnd. induction rows as [|x rows IH]; intros Hin.
  - clear. by induction keys.
  - simpl. rewrite <- IH by (intros; apply Hin; by apply list_elem_of_further).
    specialize (Hin x (list_elem_of_here _ _)). clear IH. revert Hnd Hin.
    enough (forall ks, NoDup ks ->
      sum_list_with (fun k => length (filter (fun r => owner r = k) (x :: rows))) ks
      = (if decide (owner x ∈ ks) then 1 else 0)
        + sum_list_with (fun k => length (filter (fun r => owner r = k) rows)) ks) as H.
    { intros Hnd Hin. rewrite H by done. by rewrite decide_True. }
    induction ks as [|k ks IH]; intros Hnd; [done|]. apply NoDup_cons in Hnd as [Hk Hnd].
    cbn [sum_list_with]. rewrite (IH Hnd), filter_cons.
    destruct (decide (owner x = k)) as [<-|Hne].
    + rewrite decide_False by done. rewrite decide_True by apply list_elem_of_here. simpl. lia.
    + destruct (decide (owner x ∈ ks)); [rewrite decide_True by (by apply list_elem_of_further); lia|].
      rewrite decide_False; [lia|]. by intros [?|?]%elem_of_cons.
Qed.
End grouping.

(** ** One owner *)

Definition entry_of (nodes : list CommonCfgNode) (a : string) : Prop :=
  exists n, n ∈ nodes /\ is_entry n = true /\ n_node_id n = a.
Definition exit_of (nodes : list CommonCfgNode) (a : string) : Prop :=
  exists n, n ∈ nodes /\ is_exit n = true /\ n_node_id n = a.

(** The owner has one entry, [root], and an exit. *)
Definition analysable (nodes : list CommonCfgNode) (root : string) : Prop :=
  entry_of nodes root /\ (forall a, entry_of nodes a -> a = root) /\ exists x, exit_of nodes x.

Section owner_rows.
Context (bindings : CommonAnalysisBindings) (complete : bool).
Context (nodes : list CommonCfgNode) (edges : list CommonCfgEdge).

Abbreviation fams := (families bindings).
Abbreviation E := (cfg_edge edges).
Abbreviation X := (exit_of nodes).

Definition owner_rows (r : FactRow) : Prop :=
  exists root, analysable nodes root /\
    ((exists n, n ∈ nodes /\ dominator_facts bindings complete E root (n_node_id n) r) \/
     (exists n, n ∈ nodes /\ post_dominator_facts bindings complete E X (n_node_id n) r) \/
     (exists e, e ∈ edges /\
        control_facts bindings complete E X (e_source_node_id e) (e_target_node_id e) r)).

(** What is missing is named: the whole owner, or the node an analysis does not reach. *)
Definition owner_noted (owner : string) (s : AnalysisState) : Prop :=
  (exists root, analysable nodes root /\ forall n, n ∈ nodes ->
     (rtc E root (n_node_id n) \/ noted s (dominator fams) (Some (n_node_id n))) /\
     (reaches_exit E X (n_node_id n) \/ noted s (post_dominator fams) (Some (n_node_id n)))) \/
  ((forall root, ~ analysable nodes root) /\
   forall f, f ∈ cfg_families bindings -> noted s f (Some owner)).

Lemma owner_noted_mono owner s s' :
  unknowns s ⊆ unknowns s' -> owner_noted owner s -> owner_noted owner s'.
Proof.
  intros Hsub [(root & Hroot & Hn)|[Hno Hf]]; [left; exists root; split; [done|]|right; split; [done|]].
  - intros n [[?|?] [?|?]]%Hn; split; eauto using noted_mono.
  - eauto using noted_mono.
Qed.
End owner_rows.

(** The rows depend on the sets of nodes and edges alone. *)
Section same_graph.
Context (E E' : string -> string -> Prop) (X X' : string -> Prop).
Context (HE : forall a b, E a b <-> E' a b) (HX : forall a, X a <-> X' a).

Lemma rtc_iff a b : rtc E a b <-> rtc E' a b.
Proof. split; induction 1; [done|eapply rtc_l; [by apply HE|done]|done|eapply rtc_l; [by apply HE|done]]. Qed.

Lemma reaches_exit_iff a : reaches_exit E X a <-> reaches_exit E' X' a.
Proof. unfold reaches_exit. by setoid_rewrite HX; setoid_rewrite rtc_iff. Qed.

Lemma post_dominates_iff d a : post_dominates E X d a <-> post_dominates E' X' d a.
Proof.
  split; intros Hd p e Hp He; (eapply Hd; [|by apply HX]); (eapply walk_ext; [|exact Hp]);
    intros; by apply HE.
Qed.

Lemma controls_iff a b x : controls E X a b x <-> controls E' X' a b x.
Proof. unfold controls. by rewrite !reaches_exit_iff, !post_dominates_iff. Qed.

Context (bindings : CommonAnalysisBindings) (complete : bool).

Lemma dominator_facts_iff root a r :
  dominator_facts bindings complete E root a r <-> dominator_facts bindings complete E' root a r.
Proof.
  unfold dominator_facts. setoid_rewrite rtc_iff.
  by setoid_rewrite (fun d => dominates_ext E E' root d a HE).
Qed.

Lemma post_dominator_facts_iff a r :
  post_dominator_facts bindings complete E X a r <-> post_dominator_facts bindings complete E' X' a r.
Proof. unfold post_dominator_facts. by setoid_rewrite reaches_exit_iff; setoid_rewrite post_dominates_iff. Qed.

Lemma control_facts_iff a b r :
  control_facts bindings complete E X a b r <-> control_facts bindings complete E' X' a b r.
Proof. unfold control_facts. by setoid_rewrite controls_iff. Qed.
End same_graph.

Section same_owner.
Context (nodes nodes' : list CommonCfgNode) (edges edges' : list CommonCfgEdge).
Context (Hnodes : forall n, n ∈ nodes <-> n ∈ nodes') (Hedges : forall e, e ∈ edges <-> e ∈ edges').

Lemma cfg_edge_iff a b : cfg_edge edges a b <-> cfg_edge edges' a b.
Proof. unfold cfg_edge. by setoid_rewrite Hedges. Qed.

Lemma exit_of_iff a : exit_of nodes a <-> exit_of nodes' a.
Proof. unfold exit_of. by setoid_rewrite Hnodes. Qed.

Lemma analysable_iff root : analysable nodes root <-> analysable nodes' root.
Proof. unfold analysable, entry_of, exit_of. by setoid_rewrite Hnodes. Qed.

Lemma owner_rows_iff bindings complete r :
  owner_rows bindings complete nodes edges r <-> owner_rows bindings complete nodes' edges' r.
Proof.
  unfold owner_rows. setoid_rewrite analysable_iff. setoid_rewrite Hnodes. setoid_rewrite Hedges.
  setoid_rewrite (fun root a => dominator_facts_iff _ _ cfg_edge_iff bindings complete root a r).
  setoid_rewrite (fun a => post_dominator_facts_iff _ _ _ _ cfg_edge_iff exit_of_iff bindings complete a r).
  by setoid_rewrite (fun a b => control_facts_iff _ _ _ _ cfg_edge_iff exit_of_iff bindings complete a b r).
Qed.

Lemma owner_noted_iff bindings owner s :
  owner_noted bindings nodes edges owner s <-> owner_noted bindings nodes' edges' owner s.
Proof.
  unfold owner_noted. setoid_rewrite analysable_iff. setoid_rewrite Hnodes.
  setoid_rewrite (rtc_iff _ _ cfg_edge_iff).
  by setoid_rewrite (reaches_exit_iff _ _ _ _ cfg_edge_iff exit_of_iff).
Qed.
End same_owner.

Section one_owner.
Context `{!Petgraph, !PetgraphLaws}.
Context (bindings : CommonAnalysisBindings) (bounds : CommonAnalysisBounds) (complete : bool).
Context (Hfams : NoDup (families_all (families bindings))).

Abbreviation fams := (families bindings).

Lemma build_post_graph_spec nodes E g idx exits :
  graph_ok (n_node_id <$> nodes) E g idx -> (forall n, n ∈ exits -> n ∈ nodes) ->
  returns (build_post_graph g idx exits) (fun '(pg, v) =>
    v = length (n_node_id <$> nodes) /\
    post_graph_ok (n_node_id <$> nodes) g (fun a => exists n, n ∈ exits /\ n_node_id n = a) pg).
Proof.
  intros Hg Hin. unfold build_post_graph, add_node. rewrite (go_weights _ _ _ _ Hg).
  set (ids := n_node_id <$> nodes) in *.
  eapply returns_bind.
  - apply (for_each_returns (fun done _ pg =>
      post_graph_ok ids g (fun a => exists n, n ∈ done /\ n_node_id n = a) pg)).
    + split; [done|]. simpl. intros i j. split; [by left|]. intros [?|(_ & e & _ & n & ?%elem_of_nil & _)]; done.
    + intros done n todo pg Hl [Hw He].
      assert (n_node_id n ∈ ids) as [i Hi]%list_elem_of_lookup.
      { apply list_elem_of_fmap. exists n. split; [done|]. apply Hin. rewrite Hl.
        apply elem_of_app. right. apply list_elem_of_here. }
      unfold index_of. rewrite (proj2 (go_index _ _ _ _ Hg _ i) Hi). cbn [expect ok_or returns].
      split; [done|]. intros i' j'. simpl. rewrite elem_of_app, He, list_elem_of_singleton.
      setoid_rewrite elem_of_app. setoid_rewrite list_elem_of_singleton. split.
      * intros [[?|(-> & e & He' & m & Hm & <-)]|[= -> ->]]; [by left|right; eauto 10..].
      * intros [?|(-> & e & He' & m & [Hm| ->] & Hme)]; [by left; left|left; right; eauto 10|].
        right. f_equal. subst e. by eapply NoDup_lookup; [apply (go_NoDup _ _ _ _ Hg)| |].
  - intros pg Hpg. done.
Qed.

Lemma original_indices_spec nodes E g idx :
  graph_ok (n_node_id <$> nodes) E g idx ->
  returns (for_each nodes (fun node indices =>
      let? index := index_of idx (n_node_id node) in Ok (index :: indices)) [])
    (fun l => forall j, j ∈ l <-> j < length (n_node_id <$> nodes)).
Proof.
  intros Hg. eapply returns_mono.
  - apply (for_each_returns (fun done _ l => forall j, j ∈ l <-> j < length done)).
    + intros j. simpl. split; [by intros ?%elem_of_nil|lia].
    + intros done n todo l Hl IH.
      assert ((n_node_id <$> nodes) !! length done = Some (n_node_id n)) as Hi.
      { by rewrite list_lookup_fmap, Hl, list_lookup_middle. }
      unfold index_of. rewrite (proj2 (go_index _ _ _ _ Hg _ _) Hi). cbn [expect ok_or returns].
      intros j. rewrite elem_of_cons, IH, length_app. simpl. lia.
  - intros l Hl j. rewrite length_fmap. apply Hl.
Qed.

(** The lists the code computes decide whether the owner is analysable. *)
Lemma analysable_lists nodes :
  NoDup (n_node_id <$> nodes) ->
  match filter (fun node => is_entry node = true) nodes,
        filter (fun node => is_exit node = true) nodes with
  | [entry], _ :: _ => analysable nodes (n_node_id entry)
  | _, _ => forall root, ~ analysable nodes root
  end.
Proof.
  intros Hnd. pose proof (NoDup_filter (fun node => is_entry node = true) nodes (NoDup_fmap_1 _ _ Hnd)) as Hnd'.
  pose proof (fun n => list_elem_of_filter (fun node => is_entry node = true) nodes n) as Hen.
  pose proof (fun n => list_elem_of_filter (fun node => is_exit node = true) nodes n) as Hex.
  destruct (filter _ nodes) as [|entry [|other entries]].
  - intros root ((n & Hn & He & _) & _). by apply (not_elem_of_nil n), Hen.
  - assert (forall a, entry_of nodes a -> a = n_node_id entry) as Hroot.
    { intros a (n & Hn & He & <-). by assert (n ∈ [entry]) as ->%list_elem_of_singleton by by apply Hen. }
    destruct (filter (fun node => is_exit node = true) nodes) as [|x exits].
    + intros root (_ & _ & _ & n & Hn & He & _). by apply (not_elem_of_nil n), Hex.
    + destruct (proj1 (Hen entry) (list_elem_of_here _ _)) as [He Hin].
      destruct (proj1 (Hex x) (list_elem_of_here _ _)) as [Hx Hxin].
      split_and!; [by exists entry|done|]. by exists (n_node_id x), x.
  - intros root (_ & Huniq & _).
    destruct (proj1 (Hen entry) (list_elem_of_here _ _)) as [He1 Hin1].
    destruct (proj1 (Hen other) (list_elem_of_further _ _ _ (list_elem_of_here _ _))) as [He2 Hin2].
    assert (entry = other) as ->.
    { eapply NoDup_fmap_elem; [exact Hnd|done|done|].
      rewrite (Huniq (n_node_id entry)), (Huniq (n_node_id other)); [done|eexists; eauto..]. }
    apply NoDup_cons in Hnd' as [Hnot _]. apply Hnot, list_elem_of_here.
Qed.

(** A loop each of whose turns settles one unit of [fam], emits its rows and leaves a note [N]. *)
Lemma settle_loop {T} (f : T -> AnalysisState -> result AnalysisState AnalysisFault)
    (R : T -> FactRow -> Prop) (N : T -> AnalysisState -> Prop) fam l rq n s :
  (forall x Q A s1 s2, evolves Q A s1 s2 -> N x s1 -> N x s2) ->
  (forall x s k, x ∈ l -> account s fam rq k -> (k < u64_max)%Z ->
     returns (f x s) (fun s' => evolves (R x) [fam] s s' /\ account s' fam rq (k + 1) /\ N x s')) ->
  account s fam rq n -> (n + Z.of_nat (length l) <= u64_max)%Z ->
  returns (for_each l f s) (fun s' =>
    evolves (fun r => exists x, x ∈ l /\ R x r) [fam] s s' /\
    account s' fam rq (n + Z.of_nat (length l)) /\ forall x, x ∈ l -> N x s').
Proof.
  intros HN Hf Hacc Hle. apply (for_each_evolves id f R [fam] (fun done s' =>
    account s' fam rq (n + Z.of_nat (length done)) /\ forall x, x ∈ done -> N x s')).
  - split; [by rewrite Z.add_0_r|]. by intros x ?%elem_of_nil.
  - intros done x todo s1 Hl [Ha Hdone]. eapply returns_mono.
    + apply Hf; [rewrite Hl; apply elem_of_app; right; apply list_elem_of_here|exact Ha|].
      rewrite Hl, length_app in Hle. simpl in Hle. lia.
    + unfold id. intros s2 (Hev & Ha2 & Hx). split; [done|]. split.
      * rewrite length_app. simpl. by replace (n + Z.of_nat (length done + 1))%Z
          with (n + Z.of_nat (length done) + 1)%Z by lia.
      * intros y [Hy| ->%list_elem_of_singleton]%elem_of_app; [|done]. eapply HN; eauto.
Qed.

(** What the analysis of one owner does: it emits the owner's rows, settles its nodes and its edges,
    and names what is missing. *)
Definition owner_settled (nodes : list CommonCfgNode) (edges : list CommonCfgEdge) (owner : string)
    (rqn nn rqe ne : Z) (s s' : AnalysisState) : Prop :=
  evolves (owner_rows bindings complete nodes edges) (cfg_families bindings) s s' /\
  account s' (dominator fams) rqn (nn + Z.of_nat (length nodes)) /\
  account s' (post_dominator fams) rqn (nn + Z.of_nat (length nodes)) /\
  account s' (control_dependence fams) rqe (ne + Z.of_nat (length edges)) /\
  owner_noted bindings nodes edges owner s'.

Section analysed.
Context (nodes : list CommonCfgNode) (edges : list CommonCfgEdge).
Context (Hnd : NoDup (n_node_id <$> nodes)).
Context (Hinside : forall e, e ∈ edges -> e_source_node_id e ∈ n_node_id <$> nodes /\
                                          e_target_node_id e ∈ n_node_id <$> nodes).

Abbreviation E := (cfg_edge edges).
Abbreviation X := (exit_of nodes).

Lemma cfg_edge_inside x y : E x y -> x ∈ n_node_id <$> nodes /\ y ∈ n_node_id <$> nodes.
Proof. intros (e & He & <- & <-). by apply Hinside. Qed.

Lemma node_position n : n ∈ nodes -> exists i, (n_node_id <$> nodes) !! i = Some (n_node_id n).
Proof. intros [i Hi]%list_elem_of_lookup. exists i. by rewrite list_lookup_fmap, Hi. Qed.

Lemma exits_exit_of a :
  (exists n, n ∈ filter (fun node => is_exit node = true) nodes /\ n_node_id n = a) <-> X a.
Proof. unfold exit_of. setoid_rewrite list_elem_of_filter. naive_solver. Qed.

Lemma post_graph_ok_ext ids g Y Y' pg :
  (forall a, Y a <-> Y' a) -> post_graph_ok ids g Y pg -> post_graph_ok ids g Y' pg.
Proof. intros HY [Hw He]. split; [done|]. intros i j. rewrite He. naive_solver. Qed.

(** The loops over the reversed graph. *)
Lemma post_loops_spec owner g idx pg original rqn nn rqe ne s :
  graph_ok (n_node_id <$> nodes) E g idx -> post_graph_ok (n_node_id <$> nodes) g X pg ->
  (forall j, j ∈ original <-> j < length (n_node_id <$> nodes)) ->
  account s (post_dominator fams) rqn nn -> account s (control_dependence fams) rqe ne ->
  (nn + Z.of_nat (length nodes) <= u64_max)%Z -> (ne + Z.of_nat (length edges) <= u64_max)%Z ->
  let v := length (n_node_id <$> nodes) in
  let post_doms := simple_fast (node_count pg) (reversed (graph_edges pg)) v in
  returns
    (let? s := for_each nodes
       (post_dominator_rows bindings bounds complete owner pg idx original post_doms) s in
     for_each edges (control_dependence_rows bindings bounds complete pg idx post_doms v) s)
    (fun s' => evolves (fun r =>
         (exists n, n ∈ nodes /\ post_dominator_facts bindings complete E X (n_node_id n) r) \/
         (exists e, e ∈ edges /\
            control_facts bindings complete E X (e_source_node_id e) (e_target_node_id e) r))
         [post_dominator fams; control_dependence fams] s s' /\
       account s' (post_dominator fams) rqn (nn + Z.of_nat (length nodes)) /\
       account s' (control_dependence fams) rqe (ne + Z.of_nat (length edges)) /\
       forall n, n ∈ nodes ->
         reaches_exit E X (n_node_id n) \/ noted s' (post_dominator fams) (Some (n_node_id n))).
Proof.
  intros Hg Hpg Horig Hp Hc Hnn Hne v post_doms. pose proof cfg_edge_inside as Hin.
  subst post_doms. rewrite (node_count_pg _ _ _ _ Hpg). fold v.
  eapply returns_bind; [apply (settle_loop _
    (fun n => post_dominator_facts bindings complete E X (n_node_id n))
    (fun n s => reaches_exit E X (n_node_id n) \/ noted s (post_dominator fams) (Some (n_node_id n)))
    (post_dominator fams) nodes rqn nn s); [| |done|done]|].
  { intros n Q A s1 s2 Hev [?|?]; eauto using noted_evolves. }
  { intros n s1 k Hn Ha Hk. destruct (node_position n Hn) as [i Hi].
    by eapply (post_dominator_rows_spec bindings bounds complete _ E X g idx pg Hg Hin Hpg owner i). }
  intros s1 (Hev1 & Hp1 & Hn1). eapply returns_mono; [apply (settle_loop _
    (fun e => control_facts bindings complete E X (e_source_node_id e) (e_target_node_id e))
    (fun _ _ => True) (control_dependence fams) edges rqe ne s1); [done| | |done]|].
  { intros e s2 k He Ha Hk. eapply returns_mono.
    - by eapply (control_dependence_rows_spec bindings bounds complete Hfams _ E X g idx pg Hg Hin Hpg e);
        [done|done|exists e|..].
    - intros s' [Hs1 Hs2]. by split_and!. }
  { eapply account_frame; [exact Hev1|other_family Hfams|done]. }
  intros s2 (Hev2 & Hc2 & _). split_and!; [|eapply account_frame; [exact Hev2|other_family Hfams|done]|done|].
  - eapply evolves_or; (eapply evolves_incl; [done|set_solver]).
  - intros n Hn. destruct (Hn1 n Hn); [by left|right]. by eapply noted_evolves.
Qed.

(** The three loops over an owner with its entry and its exits. *)
Lemma analysed_owner_spec owner root rqn nn rqe ne s :
  analysable nodes root ->
  account s (dominator fams) rqn nn -> account s (post_dominator fams) rqn nn ->
  account s (control_dependence fams) rqe ne ->
  (nn + Z.of_nat (length nodes) <= u64_max)%Z -> (ne + Z.of_nat (length edges) <= u64_max)%Z ->
  returns
    (let? (graph, index_by_id) := build_cfg_graph nodes edges in
     let? root := index_of index_by_id root in
     let doms := simple_fast (node_count graph) (graph_edges graph) root in
     let? s := for_each nodes (dominator_rows bindings bounds complete owner graph index_by_id doms) s in
     let? (post_graph, virtual_exit) := build_post_graph graph index_by_id
       (filter (fun node => is_exit node = true) nodes) in
     let post_doms := simple_fast (node_count post_graph) (reversed (graph_edges post_graph))
                        virtual_exit in
     let? original_indices := for_each nodes (fun node indices =>
       let? index := index_of index_by_id (n_node_id node) in Ok (index :: indices)) [] in
     let? s := for_each nodes
       (post_dominator_rows bindings bounds complete owner post_graph index_by_id original_indices
          post_doms) s in
     for_each edges
       (control_dependence_rows bindings bounds complete post_graph index_by_id post_doms
          virtual_exit) s)
    (owner_settled nodes edges owner rqn nn rqe ne s).
Proof.
  intros Hroot Hd Hp Hc Hnn Hne. pose proof cfg_edge_inside as Hin.
  eapply returns_bind; [by apply build_cfg_graph_ok|]. intros [g idx] Hg.
  assert (exists ri, (n_node_id <$> nodes) !! ri = Some root) as [ri Hri].
  { destruct Hroot as ((n & Hn & _ & <-) & _). by apply node_position. }
  unfold index_of at 1. rewrite (proj2 (go_index _ _ _ _ Hg _ ri) Hri). cbn [expect ok_or].
  eapply returns_bind; [apply (settle_loop _ (fun n => dominator_facts bindings complete E root (n_node_id n))
    (fun n s => rtc E root (n_node_id n) \/ noted s (dominator fams) (Some (n_node_id n)))
    (dominator fams) nodes rqn nn s); [| |done|done]|].
  { intros n Q A s1 s2 Hev [?|?]; eauto using noted_evolves. }
  { intros n s1 k Hn Ha Hk. destruct (node_position n Hn) as [i Hi].
    by eapply (dominator_rows_spec bindings bounds complete _ E root g idx Hg Hin owner i). }
  intros s1 (Hev1 & Hd1 & Hn1).
  eapply returns_bind; [eapply build_post_graph_spec; [exact Hg|]|].
  { by intros n [_ Hn]%list_elem_of_filter. }
  intros [pg v] [-> Hpg].
  eapply returns_bind; [by eapply original_indices_spec|]. intros original Horig.
  eapply (post_graph_ok_ext _ _ _ X) in Hpg; [|apply exits_exit_of].
  eapply returns_mono; [apply (post_loops_spec owner g idx pg original rqn nn rqe ne s1 Hg Hpg Horig);
    [| |done|done]|].
  { eapply account_frame; [exact Hev1|other_family Hfams|done]. }
  { eapply account_frame; [exact Hev1|other_family Hfams|done]. }
  intros s2 (Hev2 & Hp2 & Hc2 & Hn2). split_and!; [| |done|done|].
  - eapply evolves_trans; [eapply evolves_incl; [exact Hev1|unfold cfg_families; set_solver]
      |eapply evolves_incl; [exact Hev2|unfold cfg_families; set_solver]|].
    intros r. unfold owner_rows. split; [|naive_solver].
    intros (root' & Hroot' & Hr). replace root' with root in Hr; [tauto|].
    destruct Hroot' as [? _]. symmetry. by apply Hroot.
  - eapply account_frame; [exact Hev2|other_family Hfams|done].
  - left. exists root. split; [done|]. intros n Hn. split; [|by apply Hn2].
    destruct (Hn1 n Hn); [by left|right]. by eapply noted_evolves.
Qed.
End analysed.

Lemma cfg_families_NoDup : NoDup (cfg_families bindings).
Proof. repeat constructor; other_family Hfams. Qed.

(** A row per family names the subject in each of them. *)
Lemma noted_families fs subject reason detail it s f :
  f ∈ fs -> noted (foldl (fun s f => unknown f subject reason detail it s) s fs) f subject.
Proof.
  revert s. induction fs as [|f' fs IH]; intros s Hf; [by apply elem_of_nil in Hf|].
  apply elem_of_cons in Hf as [->|Hf]; [|by apply IH]. simpl.
  eapply noted_evolves.
  - apply (foldl_evolves_silent _ []). intros. apply unknown_evolves.
  - eexists. split; [simpl; apply elem_of_union_l, elem_of_singleton; reflexivity|done].
Qed.

Lemma unknown_owner_spec owner entries exits nodes edges rqn nn rqe ne s :
  account s (dominator fams) rqn nn -> account s (post_dominator fams) rqn nn ->
  account s (control_dependence fams) rqe ne -> (0 <= nn)%Z -> (0 <= ne)%Z ->
  (nn + Z.of_nat nodes <= u64_max)%Z -> (ne + Z.of_nat edges <= u64_max)%Z ->
  returns (unknown_owner bindings owner entries exits nodes edges s) (fun s' =>
    evolves no_rows (cfg_families bindings) s s' /\
    account s' (dominator fams) rqn (nn + Z.of_nat nodes) /\
    account s' (post_dominator fams) rqn (nn + Z.of_nat nodes) /\
    account s' (control_dependence fams) rqe (ne + Z.of_nat edges) /\
    forall f, f ∈ cfg_families bindings -> noted s' f (Some owner)).
Proof.
  intros Hd Hp Hc H1 H2 Hnn Hne. unfold unknown_owner. rewrite !u64_of_usize_small by lia.
  match goal with |- context [foldl ?f s ?l] => set (s0 := foldl f s l) end.
  assert (progress s0 = progress s) as Hp0 by done.
  assert (evolves no_rows (cfg_families bindings) s s0) as Hev0
    by (apply foldl_evolves_silent; intros; apply unknown_evolves).
  assert (forall f, f ∈ cfg_families bindings -> noted s0 f (Some owner)) as Hn0.
  { intros f Hf. by apply noted_families. }
  clearbody s0.
  eapply returns_bind; [apply (progress_mut_settles add_unknown s0 (dominator fams) rqn nn);
    [by right|by eapply account_progress|lia|done]|].
  intros s1 [Hev1 Hd1].
  eapply returns_bind; [apply (progress_mut_settles add_unknown s1 (post_dominator fams) rqn nn);
    [by right| |lia|done]|].
  { eapply account_frame; [exact Hev1|other_family Hfams|]. by eapply account_progress. }
  intros s2 [Hev2 Hp2].
  eapply returns_mono; [apply (progress_mut_settles add_unknown s2 (control_dependence fams) rqe ne);
    [by right| |lia|done]|].
  { eapply account_frame; [exact Hev2|other_family Hfams|].
    eapply account_frame; [exact Hev1|other_family Hfams|]. by eapply account_progress. }
  intros s3 [Hev3 Hc3].
  assert (evolves no_rows (cfg_families bindings) s0 s3) as Hev.
  { unfold cfg_families.
    eapply evolves_trans_l; [eapply evolves_incl; [exact Hev1|set_solver]|].
    eapply evolves_trans_l; [eapply evolves_incl; [exact Hev2|set_solver]|].
    eapply evolves_incl; [exact Hev3|set_solver]. }
  split_and!; [by eapply evolves_trans_l| | |done|].
  - eapply account_frame; [exact Hev3|other_family Hfams|].
    eapply account_frame; [exact Hev2|other_family Hfams|done].
  - eapply account_frame; [exact Hev3|other_family Hfams|done].
  - intros f Hf. by eapply noted_evolves, Hn0.
Qed.

Lemma derive_owner_spec edges_by_owner owner nodes rqn nn rqe ne s :
  let edges := default [] (edges_by_owner !! owner) in
  NoDup (n_node_id <$> nodes) ->
  (forall e, e ∈ edges -> e_source_node_id e ∈ n_node_id <$> nodes /\
                          e_target_node_id e ∈ n_node_id <$> nodes) ->
  account s (dominator fams) rqn nn -> account s (post_dominator fams) rqn nn ->
  account s (control_dependence fams) rqe ne -> (0 <= nn)%Z -> (0 <= ne)%Z ->
  (nn + Z.of_nat (length nodes) <= u64_max)%Z -> (ne + Z.of_nat (length edges) <= u64_max)%Z ->
  returns (derive_owner bindings bounds complete edges_by_owner (owner, nodes) s)
    (owner_settled nodes edges owner rqn nn rqe ne s).
Proof.
  intros edges Hnd Hinside Hd Hp Hc H1 H2 Hnn Hne. unfold derive_owner. fold edges.
  assert (sort_nodes nodes ≡ₚ nodes) as Hperm by apply merge_sort_Permutation.
  assert (length (sort_nodes nodes) = length nodes) as Hlen by by rewrite Hperm.
  assert (forall n, n ∈ sort_nodes nodes <-> n ∈ nodes) as Hsame by (intros n; by rewrite Hperm).
  assert (NoDup (n_node_id <$> sort_nodes nodes)) as Hnd' by by rewrite Hperm.
  assert (forall e, e ∈ edges -> e_source_node_id e ∈ n_node_id <$> sort_nodes nodes /\
            e_target_node_id e ∈ n_node_id <$> sort_nodes nodes) as Hinside' by by setoid_rewrite Hperm.
  pose proof (analysable_lists _ Hnd') as Hlists. rewrite <- Hlen in *.
  clearbody edges. set (sorted := sort_nodes nodes) in *. clearbody sorted. clear Hperm.
  eapply (returns_mono _ (owner_settled sorted edges owner rqn nn rqe ne s)).
  2:{ intros s' (Hev & Ha1 & Ha2 & Ha3 & Hn). unfold owner_settled. rewrite <- Hlen. split_and!; [|done..|].
      - eapply evolves_weaken; [exact Hev| |done]. intros r. by apply owner_rows_iff.
      - eapply owner_noted_iff; [| |exact Hn]; [intros n; by rewrite Hsame|done]. }
  assert (forall entries exits, (forall root, ~ analysable sorted root) ->
    returns (unknown_owner bindings owner entries exits (length sorted) (length edges) s)
      (owner_settled sorted edges owner rqn nn rqe ne s)) as Hunknown.
  { intros entries exits Hno. eapply returns_mono; [by apply unknown_owner_spec|].
    intros s' (Hev & Ha1 & Ha2 & Ha3 & Hn). split_and!; [|done..|by right].
    eapply evolves_weaken; [exact Hev| |done]. intros r. split; [done|].
    intros (root & Hroot & _). by eapply Hno. }
  destruct (filter (fun node => is_entry node = true) sorted) as [|entry [|other entries]];
    [by apply Hunknown| |by apply Hunknown].
  destruct (filter (fun node => is_exit node = true) sorted) as [|x exits] eqn:Hexits;
    [by apply Hunknown|].
  rewrite <- Hexits. by apply analysed_owner_spec.
Qed.
End one_owner.

(** ** All owners *)

Definition nodes_of (input : CommonDerivedAnalysisInput) (owner : string) : list CommonCfgNode :=
  filter (fun n => n_owner_id n = owner) (cfg_nodes input).
Definition edges_of (input : CommonDerivedAnalysisInput) (owner : string) : list CommonCfgEdge :=
  filter (fun e => e_owner_id e = owner) (cfg_edges input).

Section all_owners.
Context `{!Petgraph, !PetgraphLaws}.
Context (bindings : CommonAnalysisBindings) (bounds : CommonAnalysisBounds).
Context (Hfams : NoDup (families_all (families bindings))).
Context (input : CommonDerivedAnalysisInput) (Hvalid : valid_input input).

Abbreviation fams := (families bindings).
Abbreviation complete := (input_complete input Cfg).

Definition cfg_rows (r : FactRow) : Prop :=
  exists owner, owner_rows bindings complete (nodes_of input owner) (edges_of input owner) r.

Definition cfg_noted (s : AnalysisState) : Prop :=
  forall n, n ∈ cfg_nodes input ->
    owner_noted bindings (nodes_of input (n_owner_id n)) (edges_of input (n_owner_id n))
      (n_owner_id n) s.

(** The control-flow families are all unknown, or derived owner by owner. *)
Inductive cfg_outcome (s s' : AnalysisState) : Prop :=
| CfgExhausted :
    evolves no_rows (cfg_families bindings) s s' ->
    (forall f, f ∈ cfg_families bindings -> noted s' f None) -> cfg_outcome s s'
| CfgDerived :
    evolves cfg_rows (cfg_families bindings) s s' -> cfg_noted s' -> cfg_outcome s s'.

Lemma nodes_of_NoDup owner : NoDup (n_node_id <$> nodes_of input owner).
Proof.
  pose proof (nodes_unique _ Hvalid) as Hnd. unfold nodes_of. revert Hnd.
  induction (cfg_nodes input) as [|n l IH]; [constructor|]. rewrite fmap_cons, filter_cons.
  intros [Hn Hnd]%NoDup_cons. case_decide as Ho; [|by apply IH]. rewrite fmap_cons. constructor; [|by apply IH].
  intros (n' & Hid & [Ho' Hn']%list_elem_of_filter)%list_elem_of_fmap. apply Hn, list_elem_of_fmap.
  exists n'. split; [congruence|done].
Qed.

Lemma edges_of_inside owner e :
  e ∈ edges_of input owner ->
  e_source_node_id e ∈ n_node_id <$> nodes_of input owner /\
  e_target_node_id e ∈ n_node_id <$> nodes_of input owner.
Proof.
  intros [<- [Hs Ht]%(edges_inside _ Hvalid)]%list_elem_of_filter.
  assert (forall a, (e_owner_id e, a) ∈ (fun n => (n_owner_id n, n_node_id n)) <$> cfg_nodes input ->
            a ∈ n_node_id <$> nodes_of input (e_owner_id e)) as Hsub; [|auto].
  intros a (n & [= Ho ->] & Hn)%list_elem_of_fmap. apply list_elem_of_fmap. exists n. split; [done|].
  by apply list_elem_of_filter.
Qed.

Context (edges : list CommonCfgEdge).
Context (Hnd : NoDup edges) (Hedges : forall e, e ∈ edges <-> e ∈ cfg_edges input).

Abbreviation staged_edges_of owner := (filter (fun e => e_owner_id e = owner) edges).

Lemma staged_edges_of_same owner e : e ∈ staged_edges_of owner <-> e ∈ edges_of input owner.
Proof. unfold edges_of. by rewrite !list_elem_of_filter, Hedges. Qed.

Abbreviation groups := (iter_map (group_by_owner n_owner_id (cfg_nodes input))).

Lemma group_owner owner nodes :
  (owner, nodes) ∈ groups -> nodes = nodes_of input owner.
Proof. intros Hg%elem_of_iter_map. by apply group_by_owner_lookup. Qed.

Lemma owner_group n : n ∈ cfg_nodes input -> (n_owner_id n, nodes_of input (n_owner_id n)) ∈ groups.
Proof.
  intros Hn. apply elem_of_iter_map.
  destruct (group_by_owner n_owner_id (cfg_nodes input) !! n_owner_id n) as [l|] eqn:Hl.
  - by rewrite (group_by_owner_lookup _ _ _ _ Hl).
  - assert (is_Some (group_by_owner n_owner_id (cfg_nodes input) !! n_owner_id n)) as [? ?]
      by (apply group_by_owner_some; eauto). congruence.
Qed.

(** The owners of the groups have every node and every edge. *)
Lemma groups_total :
  sum_list_with (fun k => length (nodes_of input k)) groups.*1 = length (cfg_nodes input) /\
  sum_list_with (fun k => length (staged_edges_of k)) groups.*1 = length edges.
Proof.
  split; (apply length_groups; [apply NoDup_iter_map|]).
  - intros n Hn. apply list_elem_of_fmap. eexists. split; [|by apply owner_group]. done.
  - intros e [Hs _]%Hedges%(edges_inside _ Hvalid).
    apply list_elem_of_fmap in Hs as (n & [= -> _] & Hn).
    apply list_elem_of_fmap. eexists. split; [|by apply owner_group]. done.
Qed.

Abbreviation counted l := (Z.of_nat (sum_list_with (fun k => length (nodes_of input k)) l)).
Abbreviation counted_edges l := (Z.of_nat (sum_list_with (fun k => length (staged_edges_of k)) l)).
Abbreviation rqn := (Z.of_nat (length (cfg_nodes input))).
Abbreviation rqe := (Z.of_nat (length edges)).

(** After the owners [l]: their units are settled, and what they miss is named. *)
Definition owners_done (l : list (string * list CommonCfgNode)) (s : AnalysisState) : Prop :=
  account s (dominator fams) rqn (counted l.*1) /\
  account s (post_dominator fams) rqn (counted l.*1) /\
  account s (control_dependence fams) rqe (counted_edges l.*1) /\
  forall o ns, (o, ns) ∈ l -> owner_noted bindings ns (edges_of input o) o s.

Lemma owner_step done o ns todo s :
  groups = (done ++ (o, ns) :: todo)%list -> (rqn <= u64_max)%Z -> (rqe <= u64_max)%Z ->
  owners_done done s ->
  returns (derive_owner bindings bounds complete (group_by_owner e_owner_id edges) (o, ns) s)
    (fun s' => evolves (owner_rows bindings complete ns (edges_of input o)) (cfg_families bindings) s s' /\
               owners_done (done ++ [(o, ns)]) s').
Proof.
  intros Hl Hn He (Hd & Hp & Hc & Hnoted).
  assert ((o, ns) ∈ groups) as Hg by (rewrite Hl; apply elem_of_app; right; apply list_elem_of_here).
  pose proof (group_owner o ns Hg) as ->. destruct groups_total as [Tn Te].
  rewrite Hl, fmap_app, fmap_cons, sum_list_with_app in Tn, Te. simpl in Tn, Te.
  pose proof (group_by_owner_default e_owner_id edges o) as Hgroup.
  eapply returns_mono; [eapply (derive_owner_spec bindings bounds complete Hfams _ o _
    rqn (counted done.*1) rqe (counted_edges done.*1)); rewrite ?Hgroup; [apply nodes_of_NoDup| |done|done|done|lia|lia|lia|lia]|].
  - intros e He'%staged_edges_of_same. by apply edges_of_inside.
  - rewrite Hgroup. intros s' (Hev & Ha1 & Ha2 & Ha3 & Hno). split.
    + eapply evolves_weaken; [exact Hev| |done]. intros r.
      by apply owner_rows_iff; [|apply staged_edges_of_same].
    + unfold owners_done. rewrite fmap_app, !sum_list_with_app. simpl. rewrite !Nat.add_0_r, !Nat2Z.inj_add.
      split_and!; [done..|]. intros o' ns' [Ho'|Ho'%list_elem_of_singleton]%elem_of_app.
      * eapply owner_noted_mono, Hnoted; [apply (ev_unknowns _ _ _ _ Hev)|done].
      * injection Ho' as -> ->. eapply owner_noted_iff; [done| |exact Hno].
        intros e. by rewrite staged_edges_of_same.
Qed.

Lemma request_cfg_families_spec s :
  let s0 := insert_progress (control_dependence fams) (requesting rqe)
    (insert_progress (post_dominator fams) (requesting rqn)
      (insert_progress (dominator fams) (requesting rqn)
        (extend_operations [PetgraphSimpleFastDominators; PetgraphReversedPostDominators] s))) in
  account s0 (dominator fams) rqn 0 /\ account s0 (post_dominator fams) rqn 0 /\
  account s0 (control_dependence fams) rqe 0 /\ evolves no_rows (cfg_families bindings) s s0.
Proof.
  intros s0. split_and!; subst s0; [| |apply account_insert|].
  - do 2 (apply account_insert_ne; [family_ne Hfams|]). apply account_insert.
  - apply account_insert_ne; [family_ne Hfams|]. apply account_insert.
  - unfold cfg_families.
    do 3 (eapply evolves_trans_r; [|apply insert_progress_evolves; set_solver]).
    apply extend_operations_evolves.
Qed.

Lemma derive_cfg_families_spec s :
  (rqn <= u64_max)%Z -> (rqe <= u64_max)%Z ->
  returns (derive_cfg_families input edges bindings bounds s) (fun s' =>
    cfg_outcome s s' /\ account s' (dominator fams) rqn rqn /\
    account s' (post_dominator fams) rqn rqn /\ account s' (control_dependence fams) rqe rqe).
Proof.
  intros Hn He. unfold derive_cfg_families. rewrite !u64_of_usize_small by lia.
  match goal with |- context [insert_progress ?f ?p ?t] => set (s0 := insert_progress f p t) end.
  assert (account s0 (dominator fams) rqn 0 /\ account s0 (post_dominator fams) rqn 0 /\
          account s0 (control_dependence fams) rqe 0 /\
          evolves no_rows (cfg_families bindings) s s0) as (Hd & Hp & Hc & Hev0).
  { subst s0. apply request_cfg_families_spec. }
  clearbody s0. destruct (_ || _)%bool.
  - eapply returns_mono; [apply (exhaust_families_spec _ _ _
      (fun f => if decide (f = control_dependence fams) then rqe else rqn)); [by apply cfg_families_NoDup|]|].
    + intros f Hf. unfold cfg_families in Hf. rewrite !elem_of_cons in Hf.
      destruct Hf as [->|[->|[->|Hf%elem_of_nil]]]; [..|done];
        [rewrite decide_False by family_ne Hfams..|rewrite decide_True by done]; (split; [done|lia]).
    + intros s' (Hev & Hacc & Hnoted).
      pose proof (Hacc (dominator fams)) as H1. pose proof (Hacc (post_dominator fams)) as H2.
      pose proof (Hacc (control_dependence fams)) as H3. unfold cfg_families in H1, H2, H3.
      rewrite decide_False in H1 by family_ne Hfams. rewrite decide_False in H2 by family_ne Hfams.
      rewrite decide_True in H3 by done.
      split_and!; [|apply H1; set_solver|apply H2; set_solver|apply H3; set_solver].
      apply CfgExhausted; [|done]. by eapply evolves_trans_l.
  - eapply returns_mono; [apply (for_each_evolves id _
      (fun g => owner_rows bindings complete g.2 (edges_of input g.1)) (cfg_families bindings)
      owners_done groups s0)|].
    + split_and!; [done..|]. by intros o ns ?%elem_of_nil.
    + intros done [o ns] todo s1 Hl Hdone. by eapply owner_step.
    + unfold id. intros s' [Hev (Ha1 & Ha2 & Ha3 & Hnoted)]. destruct groups_total as [Tn Te].
      rewrite Tn, Te in *. split_and!; [|done..]. apply CfgDerived.
      * eapply evolves_trans_l; [exact Hev0|]. eapply evolves_weaken; [exact Hev| |done].
        intros r. unfold cfg_rows. split.
        -- intros ([o ns] & Hg & Hr). exists o. by rewrite <- (group_owner o ns Hg).
        -- intros (o & Hr). pose proof Hr as (root & ((n & Hin & _) & _) & _).
           apply list_elem_of_filter in Hin as [<- Hin].
           exists (n_owner_id n, nodes_of input (n_owner_id n)). split; [by apply owner_group|done].
      * intros n Hin. apply Hnoted. by apply owner_group.
Qed.
End all_owners.
