(* ===== verification/CommonAnalysis.v ===== *)
(** The whole common derived analysis ([analyze_common_derived]): data dependence, invalidation, the
    census of the inputs and the composition of all families. *)

From stdpp Require Import sorting pretty.
From S2P Require Import Prelude Encoding CommonModel CommonCfg CommonCalls CommonTheory CommonGraph.
From S2P Require Import CommonTopology CommonCallTheory CommonWalk CommonCfgTheory CommonOwners.

(** ** Data dependence *)

Section data_dependence.
Context (bindings : CommonAnalysisBindings) (bounds : CommonAnalysisBounds).
Context (input : CommonDerivedAnalysisInput).

Abbreviation fams := (families bindings).

Definition data_rows (r : FactRow) : Prop :=
  exists d, d ∈ def_use_reaching input /\
    r = data_fact bindings (input_complete input DefUseReaching) d.

Lemma derive_data_dependence_spec rows s :
  (forall d, d ∈ rows <-> d ∈ def_use_reaching input) -> (Z.of_nat (length rows) <= u64_max)%Z ->
  let s' := derive_data_dependence input rows bindings bounds s in
  evolves data_rows [data_dependence fams] s s' /\
  account s' (data_dependence fams) (Z.of_nat (length rows)) (Z.of_nat (length rows)).
Proof.
  intros Hrows Hlen. unfold derive_data_dependence. rewrite u64_of_usize_small by done. cbv zeta.
  set (n := Z.of_nat (length rows)) in *. set (s0 := insert_progress _ _ s).
  assert (account s0 (data_dependence fams) n n) as Ha.
  { exists (mk_Progress n n 0 0). subst s0. simpl. rewrite lookup_insert_eq. naive_solver lia. }
  assert (evolves data_rows [] s0
    (foldl (fun s row => insert_fact
       (data_fact bindings (input_complete input DefUseReaching) row) bounds s) s0 rows)) as Hev.
  { eapply evolves_weaken; [apply (foldl_evolves _ (fun d =>
      eq (data_fact bindings (input_complete input DefUseReaching) d)) []);
      intros; apply insert_fact_evolves| |done].
    intros r. unfold data_rows. setoid_rewrite Hrows. naive_solver. }
  split; [|by eapply account_frame, Ha; [exact Hev|apply not_elem_of_nil]].
  eapply evolves_trans_l; [apply insert_progress_evolves, list_elem_of_here|].
  eapply evolves_incl; [exact Hev|apply list_subseteq_nil].
Qed.
End data_dependence.

(** ** Invalidation *)

Section invalidation.
Context (bindings : CommonAnalysisBindings) (input : CommonDerivedAnalysisInput).

Abbreviation fams := (families bindings).

(** The rows of one changed scope: a callable also reaches what [R] leads to from it. *)
Definition scope_rows (R : string -> string -> Prop) (scope : CommonChangedScope)
    (row : InvalidationRow) : Prop :=
  match scope with
  | Owner owner => exists f,
      f ∈ [dominator fams; post_dominator fams; control_dependence fams; data_dependence fams] /\
      row = mk_InvalidationRow f "owner" owner "OWNER_INPUT_CHANGED"
  | Module_ module => exists f, f ∈ call_families bindings /\
      row = mk_InvalidationRow f "module" module "MODULE_INPUT_CHANGED"
  | Callable callable => exists a f, rtc R callable a /\ f ∈ summary_families bindings /\
      row = mk_InvalidationRow f "callable" a "TRANSITIVE_CALLEE_INPUT_CHANGED"
  end.

Definition invalidation_rows (R : string -> string -> Prop) (row : InvalidationRow) : Prop :=
  exists scope, scope ∈ changed_scopes input /\ scope_rows R scope row.

(** Only invalidation rows were added, those of [I]. *)
Definition invalidates (I : InvalidationRow -> Prop) (s s' : AnalysisState) : Prop :=
  s' = set_invalidation s (invalidation s') /\
  forall row, row ∈ invalidation s' <-> row ∈ invalidation s \/ I row.

Lemma invalidates_refl s : invalidates (fun _ => False) s s.
Proof. split; [by destruct s|tauto]. Qed.

Lemma invalidates_trans (I1 I2 I : InvalidationRow -> Prop) s1 s2 s3 :
  invalidates I1 s1 s2 -> invalidates I2 s2 s3 -> (forall row, I row <-> I1 row \/ I2 row) ->
  invalidates I s1 s3.
Proof.
  intros [H1 R1] [H2 R2] HI. split; [rewrite H2, H1; done|].
  intros row. rewrite R2, R1, HI. tauto.
Qed.

Lemma invalidate_spec fs kind scope cause s :
  invalidates (fun row => exists f, f ∈ fs /\ row = mk_InvalidationRow f kind scope cause) s
    (invalidate fs kind scope cause s).
Proof.
  revert s. induction fs as [|f fs IH]; intros s.
  - split; [by destruct s|]. set_solver.
  - eapply (invalidates_trans (fun row => row = mk_InvalidationRow f kind scope cause)); [|apply IH|].
    + split; [reflexivity|]. intros row. simpl. rewrite elem_of_union, elem_of_singleton. tauto.
    + simpl. intros row. setoid_rewrite elem_of_cons. naive_solver.
Qed.

Lemma invalidate_scope_spec rev scope s :
  returns (invalidate_scope bindings rev scope s)
    (invalidates (scope_rows (steps_to rev) scope) s).
Proof.
  destruct scope as [owner|module|callable]; simpl; [apply invalidate_spec..|].
  eapply returns_bind; [apply affected_spec|]. intros affected Haff. cbv beta in Haff. simpl.
  enough (forall l s, invalidates (fun row => exists a f, a ∈ l /\ f ∈ summary_families bindings /\
    row = mk_InvalidationRow f "callable" a "TRANSITIVE_CALLEE_INPUT_CHANGED") s
    (foldl (fun s a => invalidate (summary_families bindings) "callable" a
       "TRANSITIVE_CALLEE_INPUT_CHANGED" s) s l)) as Hfold.
  { destruct (Hfold (iter_set affected) s) as [Hs Hrow]. split; [done|]. intros row.
    rewrite Hrow. setoid_rewrite elem_of_iter_set. by setoid_rewrite Haff. }
  clear. intros l. induction l as [|a l IH]; intros s.
  - split; [by destruct s|]. set_solver.
  - cbn [foldl]. eapply invalidates_trans; [apply invalidate_spec|apply IH|].
    intros row. setoid_rewrite elem_of_cons. naive_solver.
Qed.

Lemma derive_invalidation_spec rev s :
  returns (derive_invalidation bindings input rev s) (invalidates (invalidation_rows (steps_to rev)) s).
Proof.
  unfold derive_invalidation. eapply returns_mono.
  - apply (for_each_returns (fun done _ s' =>
      invalidates (fun row => exists scope, scope ∈ done /\ scope_rows (steps_to rev) scope row) s s')).
    + split; [by destruct s|]. set_solver.
    + intros done scope todo s1 _ Hinv. eapply returns_mono; [apply invalidate_scope_spec|].
      intros s2 Hinv2. eapply invalidates_trans; [exact Hinv|exact Hinv2|].
      intros row. setoid_rewrite elem_of_app. setoid_rewrite list_elem_of_singleton. naive_solver.
  - intros s' [Hs Hrow]. split; [done|]. intros row. rewrite Hrow. unfold invalidation_rows.
    by setoid_rewrite elem_of_elements.
Qed.
End invalidation.

(** ** The census *)

(** The census of [f] adds up, and asks for at most [limit] units. *)
Definition balanced (limit : Z) (s : AnalysisState) (f : string) : Prop :=
  exists p, progress s !! f = Some p /\ (0 <= completed p)%Z /\ (0 <= remainder p)%Z /\
    (0 <= unknown_ p)%Z /\ requested p = (completed p + remainder p + unknown_ p)%Z /\
    (requested p <= limit)%Z.

Lemma account_balanced limit s f rq :
  account s f rq rq -> (rq <= limit)%Z -> balanced limit s f.
Proof. intros (p & Hp & Hrq & Hrem & Hc & Hu & Hn) Hle. exists p. split_and!; [done|lia..]. Qed.

Lemma balanced_mono limit limit' s f : balanced limit s f -> (limit <= limit')%Z -> balanced limit' s f.
Proof. intros (p & Hp & ? & ? & ? & ? & ?) Hle. exists p. split_and!; [done|lia..]. Qed.

Lemma balanced_frame limit R A s s' f :
  evolves R A s s' -> f ∉ A -> balanced limit s f -> balanced limit s' f.
Proof. intros Hev Hf (p & Hp & ?). exists p. by rewrite (ev_progress _ _ _ _ Hev f Hf). Qed.

Lemma saturating_add_small m a b : (a + b <= m)%Z -> saturating_add m a b = (a + b)%Z.
Proof. unfold saturating_add. lia. Qed.

Section census.
Context (bindings : CommonAnalysisBindings) (input : CommonDerivedAnalysisInput).
Context (Hfams : NoDup (families_all (families bindings))).

Abbreviation fams := (families bindings).
Abbreviation all := (families_all fams).

Lemma derived_families_all f g : g ∈ derived_families bindings f -> g ∈ all.
Proof.
  unfold families_all. destruct f; unfold derived_families, cfg_families, call_families, summary_families;
    rewrite !elem_of_cons; tauto.
Qed.

Lemma derived_families_NoDup f : NoDup (derived_families bindings f).
Proof. destruct f; unfold derived_families; repeat constructor; other_family Hfams. Qed.

(** The gap of one input is added once to each family derived from it. *)
Lemma add_gap_balanced row limit s f sub reason detail it :
  (0 <= remainder_units row)%Z -> (0 <= unknown_units row)%Z ->
  (limit + (remainder_units row + unknown_units row) <= u64_max)%Z -> balanced limit s f ->
  returns (progress_mut f (add_gap row) (unknown f sub reason detail it s)) (fun s' =>
    evolves no_rows [f] s s' /\
    balanced (limit + (remainder_units row + unknown_units row)) s' f /\ noted s' f sub).
Proof.
  intros Hr Hu Hle (p & Hp & H1 & H2 & H3 & H4 & H5). unfold progress_mut. simpl.
  rewrite Hp. simpl. split_and!.
  - eapply evolves_trans_l; [apply unknown_evolves|]. apply insert_progress_evolves, list_elem_of_here.
  - exists (add_gap row p). simpl. rewrite lookup_insert_eq, !saturating_add_small; [split_and!; [done|lia..]| | | |];
      rewrite ?saturating_add_small; lia.
  - eexists. split; [simpl; apply elem_of_union_l, elem_of_singleton; reflexivity|done].
Qed.

Lemma apply_family_coverage_spec family row limit s :
  coverage input !! family = Some row ->
  (0 <= remainder_units row)%Z -> (0 <= unknown_units row)%Z ->
  (limit + (remainder_units row + unknown_units row) <= u64_max)%Z ->
  (forall f, f ∈ all -> balanced limit s f) ->
  returns (apply_family_coverage bindings input family s) (fun s' =>
    evolves no_rows all s s' /\
    (forall f, f ∈ all -> balanced (limit + (remainder_units row + unknown_units row)) s' f) /\
    (coverage_is_complete row = false ->
     forall f, f ∈ derived_families bindings family -> noted s' f None)).
Proof.
  intros Hrow Hr Hu Hle Hall. unfold apply_family_coverage. rewrite Hrow. cbn [ok_or].
  set (gap := (remainder_units row + unknown_units row)%Z) in *.
  destruct (coverage_is_complete row).
  { simpl. split_and!; [apply evolves_refl| |done]. intros f Hf. eapply balanced_mono; [by apply Hall|lia]. }
  pose proof (derived_families_NoDup family) as Hnd.
  eapply returns_mono; [apply (for_each_returns (fun done todo s' => evolves no_rows all s s' /\
    (forall f, f ∈ all -> f ∉ done -> balanced limit s' f) /\
    (forall f, f ∈ done -> balanced (limit + gap) s' f /\ noted s' f None)))|].
  - split_and!; [apply evolves_refl|by intros; apply Hall|by intros f ?%elem_of_nil].
  - intros done f todo s1 Hl (Hev & Htodo & Hdone).
    assert (f ∈ derived_families bindings family) as Hf
      by (rewrite Hl; apply elem_of_app; right; apply list_elem_of_here).
    rewrite Hl in Hnd. apply NoDup_app in Hnd as (_ & Hdis & _).
    assert (f ∉ done) as Hfd by (intros Hd; apply (Hdis f Hd), list_elem_of_here).
    eapply returns_mono; [apply add_gap_balanced; [done|done|exact Hle|]|].
    { apply Htodo; [by eapply derived_families_all|done]. }
    intros s2 (Hev2 & Hb & Hn). split_and!.
    + eapply evolves_trans_l; [exact Hev|]. eapply evolves_incl; [exact Hev2|].
      intros g ->%list_elem_of_singleton. by eapply derived_families_all.
    + intros g Hg [Hgd Hgf]%not_elem_of_app. eapply balanced_frame; [exact Hev2|done|by apply Htodo].
    + intros g [Hg| ->%list_elem_of_singleton]%elem_of_app; [|done].
      destruct (Hdone g Hg) as [Hgb Hgn]. split; [|by eapply noted_evolves].
      eapply balanced_frame; [exact Hev2| |done]. by intros ->%list_elem_of_singleton.
  - intros s' (Hev & Htodo & Hdone). split_and!; [done| |intros _ f Hf; by apply Hdone].
    intros f Hf. destruct (decide (f ∈ derived_families bindings family)); [by apply Hdone|].
    eapply balanced_mono; [by apply Htodo|lia].
Qed.

(** The units the inputs left open. *)
Definition input_gap (family : CommonInputFamily) : Z :=
  from_option (fun row => remainder_units row + unknown_units row)%Z 0%Z (coverage input !! family).
Definition upstream_gap : Z :=
  (input_gap Cfg + input_gap DefUseReaching + input_gap CallTargets + input_gap LocalEffectResource)%Z.

(** Every input has a census row of 64-bit counters. *)
Definition coverage_ok : Prop := forall family, exists row, coverage input !! family = Some row /\
  (0 <= remainder_units row)%Z /\ (0 <= unknown_units row)%Z.

(** A family derived from an input that is not complete says so. *)
Definition gaps_noted (s : AnalysisState) : Prop := forall family f,
  input_complete input family = false -> f ∈ derived_families bindings family -> noted s f None.

Lemma input_gap_nonneg family : coverage_ok -> (0 <= input_gap family)%Z.
Proof. intros Hok. destruct (Hok family) as (row & Hrow & ?). unfold input_gap. rewrite Hrow. simpl. lia. Qed.

Lemma apply_upstream_coverage_spec limit s :
  coverage_ok -> (limit + upstream_gap <= u64_max)%Z -> (forall f, f ∈ all -> balanced limit s f) ->
  returns (apply_upstream_coverage bindings input s) (fun s' =>
    evolves no_rows all s s' /\ (forall f, f ∈ all -> balanced (limit + upstream_gap) s' f) /\
    gaps_noted s').
Proof.
  intros Hok Hle Hall. unfold apply_upstream_coverage.
  assert (forall n family s, (limit <= n)%Z -> (n + input_gap family <= limit + upstream_gap)%Z ->
    (forall f, f ∈ all -> balanced n s f) ->
    returns (apply_family_coverage bindings input family s) (fun s' =>
      evolves no_rows all s s' /\ (forall f, f ∈ all -> balanced (n + input_gap family) s' f) /\
      (input_complete input family = false ->
       forall f, f ∈ derived_families bindings family -> noted s' f None))) as Hstep.
  { intros n family s1 Hn Hgap Hb. destruct (Hok family) as (row & Hrow & Hr & Hu).
    unfold input_gap, input_complete in *. rewrite Hrow in *. cbn [from_option] in *.
    apply apply_family_coverage_spec; [done|done|done|lia|done]. }
  pose proof (fun family => input_gap_nonneg family Hok) as Hpos.
  pose proof (Hpos Cfg). pose proof (Hpos DefUseReaching). pose proof (Hpos CallTargets).
  pose proof (Hpos LocalEffectResource). unfold upstream_gap in *. unfold input_families. cbn [for_each].
  eapply returns_bind; [apply (Hstep limit Cfg); [lia|lia|done]|]. intros s1 (Hev1 & Hb1 & Hn1).
  eapply returns_bind; [apply (fun Hn Hg => Hstep _ DefUseReaching s1 Hn Hg Hb1); lia|]. intros s2 (Hev2 & Hb2 & Hn2).
  eapply returns_bind; [apply (fun Hn Hg => Hstep _ CallTargets s2 Hn Hg Hb2); lia|]. intros s3 (Hev3 & Hb3 & Hn3).
  eapply returns_bind; [apply (fun Hn Hg => Hstep _ LocalEffectResource s3 Hn Hg Hb3); lia|].
  intros s4 (Hev4 & Hb4 & Hn4). simpl. split_and!.
  - eauto using evolves_trans_l.
  - intros f Hf. eapply balanced_mono; [by apply Hb4|lia].
  - intros [] f Hc Hf; eauto using noted_evolves.
Qed.

(** A family whose rows were dropped asks for one more unit, which is unknown. *)
Lemma report_exhausted_spec f s :
  evolves no_rows [f] s (report_exhausted f s) /\ noted (report_exhausted f s) f None /\
  forall limit, (limit + 1 <= u64_max)%Z -> balanced limit s f -> balanced (limit + 1) (report_exhausted f s) f.
Proof.
  split_and!.
  - eapply evolves_trans_l; [apply unknown_evolves|]. apply insert_progress_evolves, list_elem_of_here.
  - eexists. split; [simpl; apply elem_of_union_l, elem_of_singleton; reflexivity|done].
  - intros limit Hle (p & Hp & ? & ? & ? & ? & ?). eexists. unfold report_exhausted. simpl.
    rewrite lookup_insert_eq. split; [reflexivity|]. rewrite Hp. simpl.
    rewrite !saturating_add_small by lia. lia.
Qed.

Lemma report_all_spec l limit s :
  NoDup l -> (limit + 1 <= u64_max)%Z -> (forall f, f ∈ all -> balanced limit s f) ->
  let s' := foldl (fun s f => report_exhausted f s) s l in
  evolves no_rows l s s' /\ (forall f, f ∈ all -> balanced (limit + 1) s' f) /\
  (forall f, f ∈ l -> noted s' f None).
Proof.
  intros Hnd Hle Hall. cbv zeta.
  enough (evolves no_rows l s (foldl (fun s f => report_exhausted f s) s l) /\
    (forall f, f ∈ all -> f ∈ l ->
       balanced (limit + 1) (foldl (fun s f => report_exhausted f s) s l) f) /\
    (forall f, f ∈ l -> noted (foldl (fun s f => report_exhausted f s) s l) f None))
    as (Hev & Hb & Hn).
  { split_and!; [done| |done]. intros f Hf. destruct (decide (f ∈ l)); [by apply Hb|].
    eapply balanced_mono; [eapply balanced_frame; [exact Hev|done|by apply Hall]|lia]. }
  induction l as [|f l IH] using rev_ind.
  { simpl. split_and!; [apply evolves_refl|by intros f _ ?%elem_of_nil|by intros f ?%elem_of_nil]. }
  apply NoDup_app in Hnd as (Hnd & Hdis & _). destruct (IH Hnd) as (Hev & Hb & Hn). clear IH.
  assert (f ∉ l) as Hf by (intros Hl; by apply (Hdis f Hl), list_elem_of_here).
  rewrite foldl_app. cbn [foldl]. set (s1 := foldl _ s l) in *.
  destruct (report_exhausted_spec f s1) as (Hev1 & Hn1 & Hb1). split_and!.
  - eapply evolves_trans_l; [eapply evolves_incl; [exact Hev|]|eapply evolves_incl; [exact Hev1|]];
      intros g Hg; apply elem_of_app; tauto.
  - intros g Hg [Hgl| ->%list_elem_of_singleton]%elem_of_app.
    + eapply balanced_frame; [exact Hev1| |by apply Hb]. by intros ->%list_elem_of_singleton.
    + apply Hb1; [done|]. eapply balanced_frame; [exact Hev|done|by apply Hall].
  - intros g [Hgl| ->%list_elem_of_singleton]%elem_of_app; [|done]. by eapply noted_evolves, Hn.
Qed.
End census.

(** ** The whole analysis *)

Section analysis.
Context (blake3_hash : list byte -> byte_array 32).
Context (bindings : CommonAnalysisBindings) (input : CommonDerivedAnalysisInput).

Abbreviation fams := (families bindings).
Abbreviation all := (families_all fams).
Abbreviation C := (callables_of input).

(** The sizes stay below the indices of petgraph and the counters of the census. *)
Definition input_size : Z :=
  Z.of_nat (length (cfg_nodes input) + length (cfg_edges input) + length (def_use_reaching input)
            + length (calls input) + size C).

Record input_fits : Prop := {
  fit_nodes : (Z.of_nat (length (cfg_nodes input) + length (cfg_edges input)) < u32_max)%Z;
  fit_calls : (Z.of_nat (length (calls input) + size C) < u32_max)%Z;
  fit_units : forall family row, coverage input !! family = Some row ->
    (0 <= remainder_units row)%Z /\ (0 <= unknown_units row)%Z;
  fit_census : (input_size + upstream_gap input < u64_max)%Z
}.

(** The bindings and the input pass the checks the analysis starts with. *)
Record input_accepted : Prop := {
  ac_bindings : bindings_validate bindings = Ok tt;
  ac_provenance : validate_provenance (provenance input) = Ok tt;
  ac_input : validate_input input = Ok tt;
  ac_coverage : validate_coverage (coverage input) = Ok tt
}.

(** The call rows of a final state, and the callers a change of a callable leads to. *)
Inductive call_facts (s : AnalysisState) : (FactRow -> Prop) -> (string -> string -> Prop) -> Prop :=
| call_facts_exhausted :
    (forall f, f ∈ call_families bindings -> noted s f None) ->
    call_facts s no_rows (fun _ _ => False)
| call_facts_derived exact (components : list (list string)) adj complete G sums incomplete it :
    (forall call, call ∈ exact <-> exact_call input call) ->
    adj_ok C (call_edge exact) adj ->
    components_ok (iter_set C) (call_edge exact) components ->
    (forall a, a ∈ G -> a ∈ C) ->
    (forall a, a ∈ C -> a ∈ G \/ noted s (reachability fams) (Some a)) ->
    summaries_ok bindings input C (call_edge exact) sums incomplete s ->
    call_facts s (fun r => topology_rows blake3_hash bindings exact components adj complete G r \/
                           exists a, a ∈ C /\ summary_rows blake3_hash bindings sums incomplete it a r)
      (flip (call_edge exact)).

Inductive cfg_facts (s : AnalysisState) : (FactRow -> Prop) -> Prop :=
| cfg_facts_exhausted :
    (forall f, f ∈ cfg_families bindings -> noted s f None) -> cfg_facts s no_rows
| cfg_facts_derived : cfg_noted bindings input s -> cfg_facts s (cfg_rows bindings input).

(** What a finished analysis holds. *)
Record analysed (s : AnalysisState) (Rcfg Rcall : FactRow -> Prop) (step : string -> string -> Prop)
  : Prop := {
  an_balanced : forall f, f ∈ all -> balanced u64_max s f;
  an_gaps : gaps_noted bindings input s;
  an_cfg : cfg_facts s Rcfg;
  an_calls : call_facts s Rcall step;
  an_sound : forall r, r ∈ facts s -> Rcfg r \/ data_rows bindings input r \/ Rcall r;
  an_emitted : forall r, Rcfg r \/ data_rows bindings input r \/ Rcall r ->
    r ∈ facts s \/ noted s (f_family r) None;
  an_invalidation : forall row, row ∈ invalidation s <-> invalidation_rows bindings input step row
}.

Lemma validate_coverage_ok :
  validate_coverage (coverage input) = Ok tt ->
  (forall family row, coverage input !! family = Some row ->
    (0 <= remainder_units row)%Z /\ (0 <= unknown_units row)%Z) ->
  coverage_ok input.
Proof.
  intros Hv Hunits family. unfold validate_coverage in Hv.
  assert (family ∈ input_families) as Hf by (unfold input_families; destruct family; set_solver).
  pose proof (for_each_check _ _ _ Hv family Hf) as Hc.
  destruct (coverage input !! family) as [row|] eqn:Hrow.
  - exists row. split; [done|]. by eapply Hunits.
  - cbv beta in Hc. by rewrite Hrow in Hc.
Qed.

Lemma invalidation_rows_ext (R R' : string -> string -> Prop) row :
  (forall a b, R a b <-> R' a b) ->
  invalidation_rows bindings input R row <-> invalidation_rows bindings input R' row.
Proof.
  intros HR. pose proof (rtc_iff R R' HR) as Hrtc. unfold invalidation_rows.
  split; intros (scope & Hs & Hrow); exists scope; (split; [done|]);
    destruct scope; try done; simpl in *; destruct Hrow as (a & f & Ha & ?); exists a, f;
    (split; [by apply Hrtc|done]).
Qed.

(** The rows found stay explained as more unknown rows are added. *)
Lemma cfg_facts_mono s s' R : unknowns s ⊆ unknowns s' -> cfg_facts s R -> cfg_facts s' R.
Proof.
  intros Hsub [Hn|Hn]; [apply cfg_facts_exhausted; eauto using noted_mono|apply cfg_facts_derived].
  intros n Hin. eapply owner_noted_mono, Hn, Hin. done.
Qed.

Lemma call_facts_mono s s' R step : unknowns s ⊆ unknowns s' -> call_facts s R step -> call_facts s' R step.
Proof.
  intros Hsub [Hn|exact components adj complete G sums inc it H1 H2 H3 H4 H5 H6].
  - apply call_facts_exhausted. eauto using noted_mono.
  - eapply call_facts_derived; [done..| |].
    + intros a Ha. destruct (H5 a Ha); [by left|right]. by eapply noted_mono.
    + destruct H6. split; eauto using noted_mono.
Qed.

(** The families of a validated binding, by the stage that derives them. *)
Lemma all_families f :
  f ∈ all -> f ∈ cfg_families bindings \/ f = data_dependence fams \/ f ∈ call_families bindings.
Proof.
  unfold families_all, cfg_families, call_families, summary_families. rewrite !elem_of_cons. tauto.
Qed.

Lemma families_incl :
  cfg_families bindings ⊆ all /\ [data_dependence fams] ⊆ all /\ call_families bindings ⊆ all.
Proof.
  unfold families_all, cfg_families, call_families, summary_families.
  split_and!; intros f; rewrite !elem_of_cons; tauto.
Qed.

Lemma families_apart f :
  NoDup all -> (f ∈ cfg_families bindings ->
    (f ∉ [data_dependence fams]) /\ (f ∉ call_families bindings)) /\
  (f = data_dependence fams -> f ∉ call_families bindings).
Proof.
  intros Hfams. split.
  - intros Hf. unfold cfg_families in Hf. rewrite !elem_of_cons in Hf.
    destruct Hf as [->|[->|[->|Hf%elem_of_nil]]]; [..|done]; (split; [other_family Hfams|];
      unfold call_families, summary_families; other_family Hfams).
  - intros ->. unfold call_families, summary_families. other_family Hfams.
Qed.

Lemma NoDup_length_le {A} (l k : list A) : NoDup l -> (forall x, x ∈ l -> x ∈ k) -> length l <= length k.
Proof. intros Hnd Hin. apply submseteq_length. by apply NoDup_submseteq. Qed.

(** The three derivations, from the staged relations. *)
Record derived (s : AnalysisState) (rev : Adjacency) (s' : AnalysisState)
    (Rcfg Rcall : FactRow -> Prop) (step : string -> string -> Prop) : Prop := {
  de_balanced : forall f, f ∈ all -> balanced input_size s' f;
  de_cfg : cfg_facts s' Rcfg;
  de_calls : call_facts s' Rcall step;
  de_step : forall a b, steps_to rev a b <-> step a b;
  de_rows : evolves (fun r => Rcfg r \/ data_rows bindings input r \/ Rcall r) all s s'
}.

Lemma cfg_outcome_facts s s' :
  cfg_outcome bindings input s s' ->
  exists R, cfg_facts s' R /\ evolves R (cfg_families bindings) s s'.
Proof. intros [Hev Hn|Hev Hn]; eexists; split; [by apply cfg_facts_exhausted|done|by apply cfg_facts_derived|done]. Qed.

Lemma call_outcome_facts exact s s' rev :
  exact ≡ₚ omap exact_call_of (calls input) ->
  call_outcome blake3_hash bindings input C exact s s' rev ->
  exists R step, call_facts s' R step /\ evolves R (call_families bindings) s s' /\
    forall a b, steps_to rev a b <-> step a b.
Proof.
  intros Hexact [Hev Hn|rev' components adj complete G sums inc it H1 H2 H3 H4 H5 H6 Hev].
  - do 2 eexists. split_and!; [by apply call_facts_exhausted|done|].
    intros a b. unfold steps_to, neighbours. rewrite lookup_empty. simpl. set_solver.
  - do 2 eexists. split_and!; [eapply call_facts_derived; try done|exact Hev|apply H2].
    intros call. by rewrite Hexact, elem_of_exact_calls.
Qed.

Lemma upstream_gap_nonneg : input_fits -> (0 <= upstream_gap input)%Z.
Proof.
  intros Hfit. assert (forall family, 0 <= input_gap input family)%Z as Hpos.
  { intros family. unfold input_gap. destruct (coverage input !! family) as [row|] eqn:Hrow; [|done].
    simpl. apply (fit_units Hfit) in Hrow. lia. }
  unfold upstream_gap. pose proof (Hpos Cfg). pose proof (Hpos DefUseReaching).
  pose proof (Hpos CallTargets). pose proof (Hpos LocalEffectResource). lia.
Qed.

Lemma derivations_spec `{!Petgraph, !PetgraphLaws} bounds cfg data exact s :
  NoDup all -> valid_input input -> input_fits -> staged_ok input cfg data exact ->
  returns
    (let? s := derive_cfg_families input cfg bindings bounds s in
     let s := derive_data_dependence input data bindings bounds s in
     derive_call_families blake3_hash bindings bounds input exact s)
    (fun '(rev, s') => exists Rcfg Rcall step, derived s rev s' Rcfg Rcall step).
Proof.
  intros Hfams Hvalid Hfit [Hcn Hc Hdn Hd Hexact]. pose proof (fit_census Hfit) as Hcensus.
  pose proof (upstream_gap_nonneg Hfit) as Hgap.
  unfold input_size in *.
  pose proof (NoDup_length_le _ _ Hcn (fun e => proj1 (Hc e))) as Hcl.
  pose proof (NoDup_length_le _ _ Hdn (fun e => proj1 (Hd e))) as Hdl.
  eapply returns_bind; [apply derive_cfg_families_spec; [done|done|done|done|lia|lia]|].
  intros s1 (Hcfg & Ha1 & Ha2 & Ha3). destruct (cfg_outcome_facts _ _ Hcfg) as (Rcfg & Fcfg & Ecfg).
  destruct (derive_data_dependence_spec bindings bounds input data s1 Hd ltac:(lia)) as [Edata Ha4].
  cbv zeta in *. set (s2 := derive_data_dependence input data bindings bounds s1) in *.
  eapply returns_mono; [apply (derive_call_families_spec blake3_hash bindings bounds Hfams input exact s2 Hexact)|].
  { unfold calls_fit. lia. }
  intros [rev s3] [Hcalls Ha5].
  destruct (call_outcome_facts _ _ _ _ Hexact Hcalls) as (Rcall & step & Fcall & Ecall & Hstep).
  exists Rcfg, Rcall, step. destruct families_incl as (I1 & I2 & I3). split.
  - intros f Hf. unfold input_size. destruct (families_apart f Hfams) as [Ap1 Ap2].
    destruct (all_families f Hf) as [Hf'|[Hf'|Hf']].
    + destruct (Ap1 Hf') as [N1 N2]. eapply balanced_frame; [exact Ecall|done|].
      eapply balanced_frame; [exact Edata|done|]. unfold cfg_families in Hf'.
      rewrite !elem_of_cons in Hf'. destruct Hf' as [->|[->|[->|?%elem_of_nil]]]; [..|done];
        (eapply account_balanced; [done|lia]).
    + eapply balanced_frame; [exact Ecall|by apply Ap2|]. subst f. eapply account_balanced; [done|lia].
    + apply Ha5 in Hf' as (rq & Hrq & Ha). eapply account_balanced; [exact Ha|lia].
  - eapply cfg_facts_mono, Fcfg. etrans; [apply (ev_unknowns _ _ _ _ Edata)|apply (ev_unknowns _ _ _ _ Ecall)].
  - done.
  - done.
  - eapply evolves_trans; [eapply evolves_incl; [exact Ecfg|done]|eapply evolves_or;
      [eapply evolves_incl; [exact Edata|done]|eapply evolves_incl; [exact Ecall|done]]|]. tauto.
Qed.

(** After the derivations: invalidation, the gaps of the inputs, the families that overflowed. *)
Lemma finish_spec s rev s' Rcfg Rcall step :
  NoDup all -> input_fits -> coverage_ok input ->
  facts s = ∅ -> invalidation s = ∅ -> derived s rev s' Rcfg Rcall step ->
  returns
    (let? s := derive_invalidation bindings input rev s' in
     let? s := apply_upstream_coverage bindings input s in
     Ok (foldl (fun s family => report_exhausted family s) s (iter_set (output_exhausted_families s))))
    (fun s'' => analysed s'' Rcfg Rcall step).
Proof.
  intros Hfams Hfit Hcov Hempty Hinv0 [Hbal Fcfg Fcall Hstep Hrows].
  pose proof (fit_census Hfit) as Hcensus. pose proof (upstream_gap_nonneg Hfit) as Hgap.
  eapply returns_bind; [apply derive_invalidation_spec|]. intros s1 [Hs1 Hinv1].
  assert (progress s1 = progress s' /\ unknowns s1 = unknowns s' /\ facts s1 = facts s' /\
          output_exhausted_families s1 = output_exhausted_families s') as (Ep & Eu & Ef & Ex)
    by (rewrite Hs1; done). clear Hs1.
  eapply returns_bind; [apply (apply_upstream_coverage_spec bindings input Hfams input_size);
    [done|lia|]|].
  { intros f Hf. unfold balanced. rewrite Ep. by apply Hbal. }
  intros s2 (Ev2 & Hbal2 & Hgaps).
  destruct (report_all_spec bindings (iter_set (output_exhausted_families s2))
    (input_size + upstream_gap input) s2 (NoDup_iter_set _) ltac:(lia) Hbal2) as (Ev3 & Hbal3 & Hnoted).
  cbn [returns]. set (s3 := foldl _ s2 _) in *. clearbody s3.
  assert (unknowns s2 ⊆ unknowns s3) as Hu3 by apply (ev_unknowns _ _ _ _ Ev3).
  assert (unknowns s' ⊆ unknowns s3) as Hu.
  { rewrite <- Eu. etrans; [apply (ev_unknowns _ _ _ _ Ev2)|done]. }
  split.
  - intros f Hf. eapply balanced_mono; [by apply Hbal3|lia].
  - intros family f Hc Hf. eapply noted_mono; [exact Hu3|by eapply Hgaps].
  - by eapply cfg_facts_mono.
  - by eapply call_facts_mono.
  - intros r Hr. apply (ev_new _ _ _ _ Ev3) in Hr as [Hr|[]].
    apply (ev_new _ _ _ _ Ev2) in Hr as [Hr|[]]. rewrite Ef in Hr.
    apply (ev_new _ _ _ _ Hrows) in Hr as [Hr|Hr]; [|done]. rewrite Hempty in Hr. set_solver.
  - intros r Hr. apply (ev_emitted _ _ _ _ Hrows) in Hr as [Hr|Hr].
    + left. apply (ev_kept _ _ _ _ Ev3), (ev_kept _ _ _ _ Ev2). by rewrite Ef.
    + right. apply Hnoted, elem_of_iter_set, (ev_exhausted _ _ _ _ Ev2). by rewrite Ex.
  - intros row. rewrite (ev_invalidation _ _ _ _ Ev3), (ev_invalidation _ _ _ _ Ev2), Hinv1.
    rewrite (ev_invalidation _ _ _ _ Hrows), Hinv0, (invalidation_rows_ext _ _ row Hstep). set_solver.
Qed.

Lemma analyze_common_derived_spec `{!Petgraph, !PetgraphLaws, !RelationalStage, !RelationalStageLaws}
    bounds rows :
  input_accepted -> input_fits -> normalize_stage input = Ok rows ->
  returns (analyze_common_derived blake3_hash bindings bounds input)
    (fun s => exists Rcfg Rcall step, analysed s Rcfg Rcall step).
Proof.
  intros [Hb Hp Hi Hc] Hfit Hstage. unfold analyze_common_derived.
  pose proof (bindings_validate_families _ _ Hb) as Hfams. pose proof (validate_input_valid _ _ Hi) as Hvalid.
  pose proof (validate_coverage_ok Hc (fit_units Hfit)) as Hcov.
  rewrite Hb, Hp, Hi, Hc, Hstage. cbn [failing].
  pose proof (staging input rows Hvalid Hstage) as Hsplit.
  destruct (split_stage rows) as [[[cfg data] exact]|]; [|done]. cbn [failing]. simpl in Hsplit.
  match goal with |- context [foldl ?f ?t all] => set (s0 := foldl f t all) end.
  assert (facts s0 = ∅ /\ invalidation s0 = ∅) as [Hf0 Hi0] by done. clearbody s0.
  pose proof (derivations_spec bounds cfg data exact s0 Hfams Hvalid Hfit Hsplit) as Hderive.
  destruct (derive_cfg_families input cfg bindings bounds s0) as [s1|]; [|done]. cbv zeta in *.
  destruct (derive_call_families _ _ _ _ _ _) as [[rev s2]|]; [|done].
  destruct Hderive as (Rcfg & Rcall & step & Hd).
  eapply returns_mono; [exact (finish_spec s0 rev s2 Rcfg Rcall step Hfams Hfit Hcov Hf0 Hi0 Hd)|].
  intros s Hs. by exists Rcfg, Rcall, step.
Qed.
End analysis.
