(* ===== verification/CommonClaims.v ===== *)
(** What the common derived analysis promises: it always finishes with a census that adds up, its
    control-flow facts are dominance, post-dominance and control dependence, and its call facts are
    the calls, their shortest distances and the effects they lead to. *)

From stdpp Require Import sorting.
From S2P Require Import Prelude Encoding CommonModel CommonCfg CommonCalls CommonTheory CommonGraph.
From S2P Require Import CommonSummary CommonTopology CommonCallTheory CommonWalk CommonCfgTheory.
From S2P Require Import CommonOwners CommonAnalysis.

Section claims.
Context (blake3_hash : list byte -> byte_array 32).
Context `{!Petgraph, !PetgraphLaws, !RelationalStage, !RelationalStageLaws}.
Context (bindings : CommonAnalysisBindings) (bounds : CommonAnalysisBounds).
Context (input : CommonDerivedAnalysisInput).

Abbreviation fams := (families bindings).
Abbreviation C := (callables_of input).

(** The exact calls between callables. *)
Definition calls_to (a b : string) : Prop := exists site, exact_call input (a, b, site).

Lemma stage_error e :
  input_accepted bindings input -> normalize_stage input = Err e ->
  analyze_common_derived blake3_hash bindings bounds input = Err (Fails e).
Proof.
  intros [Hb Hp Hi Hc] He. unfold analyze_common_derived. rewrite Hb, Hp, Hi, Hc. cbn [failing]. by rewrite He.
Qed.

Lemma analysis_ok s :
  input_accepted bindings input -> input_fits input ->
  analyze_common_derived blake3_hash bindings bounds input = Ok s ->
  exists Rcfg Rcall step, analysed blake3_hash bindings input s Rcfg Rcall step.
Proof.
  intros Hacc Hfit Hrun.
  assert (exists rows, normalize_stage input = Ok rows) as [rows Hrows].
  { destruct (normalize_stage input) as [rows|e] eqn:He; [by exists rows|].
    by rewrite (stage_error e Hacc He) in Hrun. }
  pose proof (analyze_common_derived_spec blake3_hash bindings input bounds rows Hacc Hfit Hrows) as Hspec.
  by rewrite Hrun in Hspec.
Qed.

(** The family of a row of each group. *)
Lemma cfg_rows_family r : cfg_rows bindings input r -> f_family r ∈ cfg_families bindings.
Proof.
  unfold cfg_families.
  intros (o & root & _ & [(n & _ & d & _ & _ & _ & ->)|[(n & _ & d & _ & _ & _ & ->)|(e & _ & x & _ & ->)]]);
    simpl; rewrite !elem_of_cons; tauto.
Qed.

Lemma data_rows_family r : data_rows bindings input r -> f_family r = data_dependence fams.
Proof. by intros (d & _ & ->). Qed.

Lemma call_rows_family exact components adj complete G sums inc it r :
  topology_rows blake3_hash bindings exact components adj complete G r \/
  (exists a, a ∈ C /\ summary_rows blake3_hash bindings sums inc it a r) ->
  f_family r ∈ call_families bindings.
Proof.
  unfold call_families, summary_families.
  intros [[(c & _ & ->)|[(c & _ & a & _ & ->)|(a & _ & x & n & _ & _ & ->)]]
         |(a & _ & X & Y & _ & _ & [(v & _ & ->)|[(v & _ & ->)| ->]])];
    simpl; rewrite !elem_of_cons; tauto.
Qed.

Lemma call_facts_family s R step r :
  call_facts blake3_hash bindings input s R step -> R r -> f_family r ∈ call_families bindings.
Proof. intros [|] Hr; [done|]. by eapply call_rows_family. Qed.

Lemma cfg_facts_family s R r : cfg_facts bindings input s R -> R r -> f_family r ∈ cfg_families bindings.
Proof. intros [|] Hr; [done|]. by apply cfg_rows_family. Qed.

(** C38. The derivation of an accepted input whose sizes fit always ends in the state from which the
    output relations are written: no loop runs forever, no lookup panics, and the one error there can
    be is that of the relational stage itself, which is passed on. In the census of every family the
    requested units are the completed, remaining and unknown ones. Writing and sorting the output
    relations is not part of the model. *)
Theorem analysis_always_finishes_and_balances :
  input_accepted bindings input -> input_fits input ->
  match normalize_stage input with
  | Ok _ =>
      exists s, analyze_common_derived blake3_hash bindings bounds input = Ok s /\
        forall f, f ∈ families_all fams -> exists p, progress s !! f = Some p /\
          requested p = (completed p + remainder p + unknown_ p)%Z /\
          (0 <= completed p)%Z /\ (0 <= remainder p)%Z /\ (0 <= unknown_ p)%Z /\
          (requested p <= u64_max)%Z
  | Err e => analyze_common_derived blake3_hash bindings bounds input = Err (Fails e)
  end.
Proof.
  intros Hacc Hfit. destruct (normalize_stage input) as [rows|e] eqn:Hrows; [|by apply stage_error].
  pose proof (analyze_common_derived_spec blake3_hash bindings input bounds rows Hacc Hfit Hrows)
    as (s & Hs & Rcfg & Rcall & step & Han)%returns_elim.
  exists s. split; [done|]. intros f Hf.
  destruct (an_balanced _ _ _ _ _ _ _ Han f Hf) as (p & Hp & ? & ? & ? & ? & ?).
  exists p. split_and!; done.
Qed.

(** C39. The control-flow facts are exact: every dominator, post-dominator and control-dependence row
    is one of an owner with one entry and an exit, read off the walks of its graph, and every such
    row is in the facts unless its family reports a bound or an owner-less gap; a node or an owner
    without rows is named as unknown. *)
Theorem control_flow_facts_are_exact s :
  input_accepted bindings input -> input_fits input ->
  analyze_common_derived blake3_hash bindings bounds input = Ok s ->
  (forall r, r ∈ facts s -> f_family r ∈ cfg_families bindings -> cfg_rows bindings input r) /\
  (forall r, cfg_rows bindings input r -> r ∈ facts s \/ noted s (f_family r) None) /\
  ((forall n, n ∈ cfg_nodes input ->
      owner_noted bindings (nodes_of input (n_owner_id n)) (edges_of input (n_owner_id n))
        (n_owner_id n) s) \/
   forall f, f ∈ cfg_families bindings -> noted s f None).
Proof.
  intros Hacc Hfit Hrun. pose proof (bindings_validate_families _ _ (ac_bindings _ _ Hacc)) as Hfams.
  destruct (analysis_ok s Hacc Hfit Hrun) as (Rcfg & Rcall & step & [_ _ Hcfg Hcall Hsound Hemit _]).
  split_and!.
  - intros r [Hr|[Hr|Hr]]%Hsound Hf.
    + by destruct Hcfg.
    + apply (families_apart _ (f_family r) Hfams) in Hf as [Hf _]. apply data_rows_family in Hr.
      rewrite Hr in Hf. set_solver.
    + apply (families_apart _ (f_family r) Hfams) in Hf as [_ Hf].
      by apply (call_facts_family _ _ _ _ Hcall) in Hr.
  - intros r Hr. destruct Hcfg as [Hn|Hn]; [right; by apply Hn, cfg_rows_family|].
    apply Hemit. by left.
  - destruct Hcfg as [Hn|Hn]; [by right|by left].
Qed.

(** ** Call facts *)

Abbreviation effects := (local_values l_effects input).
Abbreviation resources := (local_values l_resources input).

(** [c] is the strongly connected component of [a]. *)
Definition component_of (a : string) (c : list string) : Prop :=
  a ∈ c /\ forall b, b ∈ C -> b ∈ c <-> rtc calls_to a b /\ rtc calls_to b a.

Inductive call_fact_holds : FactRow -> Prop :=
| holds_call call : exact_call input call -> call_fact_holds (call_row bindings call)
| holds_component a c complete :
    component_of a c -> call_fact_holds (scc_row blake3_hash bindings complete c a)
| holds_reaches a x n complete :
    x <> a -> shortest calls_to a x n -> call_fact_holds (reach_row bindings complete a x (sat32 n))
| holds_effect a v it complete :
    may calls_to effects a v -> call_fact_holds (summary_fact (callable_effect fams) a v it complete)
| holds_resource a v it complete :
    may calls_to resources a v -> call_fact_holds (summary_fact (callable_resource fams) a v it complete)
| holds_summary a (X Y : gset string) it complete :
    (forall v, v ∈ X -> may calls_to effects a v) -> (forall v, v ∈ Y -> may calls_to resources a v) ->
    (complete = true -> forall v, (may calls_to effects a v -> v ∈ X) /\
                                  (may calls_to resources a v -> v ∈ Y)) ->
    call_fact_holds
      (summary_fact (callable_summary fams) a (summary_identity blake3_hash X Y complete) it complete).

Section derived_calls.
Context (exact : list (string * string * string)).
Context (Hexact : forall call, call ∈ exact <-> exact_call input call).

Lemma call_edge_calls a b : call_edge exact a b <-> calls_to a b.
Proof. unfold call_edge, calls_to. by setoid_rewrite Hexact. Qed.

Lemma shortest_iff {A} (R R' : A -> A -> Prop) a b n :
  (forall x y, R x y <-> R' x y) -> shortest R a b n <-> shortest R' a b n.
Proof.
  intros HR. assert (forall m x, nsteps R m x b <-> nsteps R' m x b) as Hn.
  { induction m as [|m IH]; intros x; split; inversion 1; subst; try constructor;
      (econstructor; [by apply HR|by apply IH]). }
  unfold shortest. setoid_rewrite Hn. done.
Qed.

Lemma topology_rows_hold components adj complete G r :
  adj_ok C (call_edge exact) adj -> components_ok (iter_set C) (call_edge exact) components ->
  topology_rows blake3_hash bindings exact components adj complete G r -> call_fact_holds r.
Proof.
  intros [_ Hadj] [Hperm Hcomp] [(call & Hc & ->)|[(c & Hc & a & Ha & ->)|(a & _ & x & n & Hx & Hn & ->)]].
  - constructor. by apply Hexact.
  - constructor. split; [done|]. intros b Hb.
    rewrite (Hcomp c a b Hc Ha ltac:(by apply elem_of_iter_set)).
    by rewrite !(rtc_iff _ _ call_edge_calls).
  - constructor; [done|]. eapply shortest_iff, Hn. intros y z. by rewrite Hadj, call_edge_calls.
Qed.

Lemma summary_rows_hold sums inc it s a r :
  summaries_ok bindings input C (call_edge exact) sums inc s -> a ∈ C ->
  summary_rows blake3_hash bindings sums inc it a r -> call_fact_holds r.
Proof.
  intros [Hdom He Hr Hce Hcr _] Ha (X & Y & HX & HY & Hrow).
  assert (neighbours (sum_effects sums) a = X) as EX by (unfold neighbours; by rewrite HX).
  assert (neighbours (sum_resources sums) a = Y) as EY by (unfold neighbours; by rewrite HY).
  pose proof (fun L v => may_ext _ _ L a v call_edge_calls) as Hmay.
  assert (forall v, v ∈ X -> may calls_to effects a v) as SX by (intros v Hv; apply Hmay, He; by rewrite EX).
  assert (forall v, v ∈ Y -> may calls_to resources a v) as SY by (intros v Hv; apply Hmay, Hr; by rewrite EY).
  destruct Hrow as [(v & Hv & ->)|[(v & Hv & ->)| ->]]; [constructor; auto..|].
  constructor; [done|done|]. intros Hc v. rewrite negb_true_iff, bool_decide_eq_false in Hc.
  rewrite <- EX, <- EY, <- !Hmay. auto.
Qed.
End derived_calls.

(** The subject, or its whole family, is reported as unknown. *)
Definition missing (s : AnalysisState) (f a : string) : Prop := noted s f (Some a) \/ noted s f None.

(** Every call fact that holds is there or reported as missing. *)
Record calls_covered (s : AnalysisState) : Prop := {
  cov_call call : exact_call input call ->
    call_row bindings call ∈ facts s \/ noted s (call_graph fams) None;
  cov_component a : a ∈ C ->
    (exists c complete, component_of a c /\ scc_row blake3_hash bindings complete c a ∈ facts s) \/
    noted s (scc_membership fams) None;
  cov_reaches a x n : a ∈ C -> x <> a -> shortest calls_to a x n ->
    (exists complete, reach_row bindings complete a x (sat32 n) ∈ facts s) \/
    missing s (reachability fams) a;
  cov_effect a v : a ∈ C -> may calls_to effects a v ->
    (exists it complete, summary_fact (callable_effect fams) a v it complete ∈ facts s) \/
    missing s (callable_effect fams) a;
  cov_resource a v : a ∈ C -> may calls_to resources a v ->
    (exists it complete, summary_fact (callable_resource fams) a v it complete ∈ facts s) \/
    missing s (callable_resource fams) a
}.

Section coverage.
Context (s : AnalysisState) (R : FactRow -> Prop).
Context (Hemit : forall r, R r -> r ∈ facts s \/ noted s (f_family r) None).
Context (exact : list (string * string * string)).
Context (Hexact : forall call, call ∈ exact <-> exact_call input call).

Lemma topology_covered components adj complete G :
  adj_ok C (call_edge exact) adj -> components_ok (iter_set C) (call_edge exact) components ->
  (forall a, a ∈ C -> a ∈ G \/ noted s (reachability fams) (Some a)) ->
  (forall r, topology_rows blake3_hash bindings exact components adj complete G r -> R r) ->
  (forall call, exact_call input call ->
     call_row bindings call ∈ facts s \/ noted s (call_graph fams) None) /\
  (forall a, a ∈ C ->
     (exists c complete, component_of a c /\ scc_row blake3_hash bindings complete c a ∈ facts s) \/
     noted s (scc_membership fams) None) /\
  (forall a x n, a ∈ C -> x <> a -> shortest calls_to a x n ->
     (exists complete, reach_row bindings complete a x (sat32 n) ∈ facts s) \/
     missing s (reachability fams) a).
Proof.
  intros [_ Hadj] [Hperm Hcomp] HG HR. split_and!.
  - intros call Hc. apply (Hemit (call_row bindings call)), HR. left. exists call. split; [by apply Hexact|done].
  - intros a Ha%elem_of_iter_set. rewrite <- Hperm in Ha.
    apply elem_of_concat in Ha as (c & Hc & Hac).
    destruct (Hemit (scc_row blake3_hash bindings complete c a)) as [Hin|Hn]; [| |by right].
    { apply HR. right. left. eauto. }
    left. exists c, complete. split; [|done]. split; [done|]. intros b Hb.
    rewrite (Hcomp c a b Hc Hac ltac:(by apply elem_of_iter_set)).
    by rewrite !(rtc_iff _ _ (call_edge_calls exact Hexact)).
  - intros a x n Ha Hx Hn. destruct (HG a Ha) as [Hg|Hg]; [|right; by left].
    destruct (Hemit (reach_row bindings complete a x (sat32 n))) as [Hin|Hno]; [|by left; eauto|right; by right].
    apply HR. right. right. exists a. split; [done|]. exists x, n. split_and!; [done| |done].
    eapply shortest_iff, Hn. intros y z. by rewrite Hadj, (call_edge_calls exact Hexact).
Qed.

Lemma summaries_covered sums inc it :
  summaries_ok bindings input C (call_edge exact) sums inc s ->
  (forall r, (exists a, a ∈ C /\ summary_rows blake3_hash bindings sums inc it a r) -> R r) ->
  (forall a v, a ∈ C -> may calls_to effects a v ->
     (exists it complete, summary_fact (callable_effect fams) a v it complete ∈ facts s) \/
     missing s (callable_effect fams) a) /\
  (forall a v, a ∈ C -> may calls_to resources a v ->
     (exists it complete, summary_fact (callable_resource fams) a v it complete ∈ facts s) \/
     missing s (callable_resource fams) a).
Proof.
  intros [Hdom _ _ He Hr Hnoted] HR.
  assert (callable_effect fams ∈ summary_families bindings /\
          callable_resource fams ∈ summary_families bindings) as [Fe Fr]
    by (unfold summary_families; rewrite !elem_of_cons; tauto).
  split; intros a v Ha Hv; destruct (Hdom a Ha) as [[X HX] [Y HY]];
    (destruct (decide (a ∈ inc)) as [Hi|Hi]; [right; left; by eapply Hnoted|]);
    apply (may_ext _ _ _ a v (call_edge_calls exact Hexact)) in Hv.
  - apply He in Hv; [|done..]. unfold neighbours in Hv. rewrite HX in Hv. simpl in Hv.
    destruct (Hemit (summary_fact (callable_effect fams) a v it (negb (bool_decide (a ∈ inc))))) as [Hin|Hno];
      [|by left; eauto|right; by right].
    apply HR. exists a. split; [done|]. exists X, Y. split_and!; [done..|]. left. eauto.
  - apply Hr in Hv; [|done..]. unfold neighbours in Hv. rewrite HY in Hv. simpl in Hv.
    destruct (Hemit (summary_fact (callable_resource fams) a v it (negb (bool_decide (a ∈ inc))))) as [Hin|Hno];
      [|by left; eauto|right; by right].
    apply HR. exists a. split; [done|]. exists X, Y. split_and!; [done..|]. right. left. eauto.
Qed.
End coverage.

(** C40. The call facts are exact: every call, component, reachability, effect and resource row says
    what the exact calls of the input say (distances are shortest, saturated at 32 bits; effects and
    resources are those of everything reachable), and whatever the calls say is in the facts unless
    the callable or the family is reported as unknown. *)
Theorem call_facts_are_exact s :
  input_accepted bindings input -> input_fits input ->
  analyze_common_derived blake3_hash bindings bounds input = Ok s ->
  (forall r, r ∈ facts s -> f_family r ∈ call_families bindings -> call_fact_holds r) /\
  calls_covered s.
Proof.
  intros Hacc Hfit Hrun. pose proof (bindings_validate_families _ _ (ac_bindings _ _ Hacc)) as Hfams.
  destruct (analysis_ok s Hacc Hfit Hrun) as (Rcfg & Rcall & step & [_ _ Hcfg Hcall Hsound Hemit _]).
  split.
  - intros r [Hr|[Hr|Hr]]%Hsound Hf.
    + apply (cfg_facts_family _ _ _ Hcfg), (families_apart _ (f_family r) Hfams) in Hr as [_ Hr]. done.
    + apply data_rows_family, (families_apart _ (f_family r) Hfams) in Hr. done.
    + destruct Hcall as [|exact components adj complete G sums inc it K1 K2 K3 K4 K5 K6]; [done|].
      destruct Hr as [Hr|(a & Ha & Hr)]; [by eapply topology_rows_hold|by eapply summary_rows_hold].
  - assert (forall r, Rcall r -> r ∈ facts s \/ noted s (f_family r) None) as Hemit' by eauto.
    destruct Hcall as [Hn|exact components adj complete G sums inc it K1 K2 K3 K4 K5 K6].
    + unfold call_families, summary_families, missing in *. split; intros; right;
        try right; apply Hn; rewrite !elem_of_cons; tauto.
    + destruct (topology_covered s _ Hemit' exact K1 components adj complete G K2 K3 K5) as (V1 & V2 & V3);
        [by left|].
      destruct (summaries_covered s _ Hemit' exact K1 sums inc it K6) as (V4 & V5); [by right|]. by split.
Qed.
End claims.
