(* ===== verification/CommonSample.v ===== *)
(** A graph library for the common derived analysis: reachability as a closure, dominators by
    removing a node, components by mutual reachability. It satisfies [PetgraphLaws], and it runs. *)

From stdpp Require Import sorting.
From S2P Require Import Prelude Encoding CommonModel CommonCfg CommonCalls CommonTheory CommonGraph.
From S2P Require Import CommonWalk.

(** ** Reachability *)

Definition successors (edges : list (nat * nat)) (X : gset nat) : gset nat :=
  list_to_set (snd <$> filter (fun e => e.1 ∈ X) edges).

Fixpoint grow (edges : list (nat * nat)) (k : nat) (X : gset nat) : gset nat :=
  match k with O => X | S k => grow edges k (X ∪ successors edges X) end.

Definition reach (n : nat) (edges : list (nat * nat)) (root : nat) : gset nat := grow edges n {[root]}.

Lemma elem_of_successors edges X y :
  y ∈ successors edges X <-> exists x, x ∈ X /\ edge_of edges x y.
Proof.
  unfold successors, edge_of. rewrite elem_of_list_to_set, list_elem_of_fmap.
  setoid_rewrite list_elem_of_filter. split.
  - intros ([x z] & -> & Hx & He). eauto.
  - intros (x & Hx & He). by exists (x, y).
Qed.

Lemma grow_sound edges k X y : y ∈ grow edges k X -> exists x, x ∈ X /\ rtc (edge_of edges) x y.
Proof.
  revert X. induction k as [|k IH]; intros X; simpl; [eauto using rtc_refl|].
  intros (x & [Hx|Hx]%elem_of_union & Hr)%IH; [eauto|].
  apply elem_of_successors in Hx as (w & Hw & He). exists w. split; [done|by eapply rtc_l].
Qed.

Lemma grow_incl edges k X : X ⊆ grow edges k X.
Proof. revert X. induction k as [|k IH]; intros X; simpl; [done|]. etrans; [|apply IH]. set_solver. Qed.

(** Enough rounds close the set. *)
Lemma grow_closed edges k (X U : gset nat) :
  X ⊆ U -> (forall x y, edge_of edges x y -> y ∈ U) -> size U <= size X + k ->
  successors edges (grow edges k X) ⊆ grow edges k X.
Proof.
  revert X. induction k as [|k IH]; intros X HX HU Hsize; simpl.
  - intros y (x & _ & He)%elem_of_successors. apply HU in He. revert y He. clear HU x.
    rewrite (set_subseteq_size_eq X U); [done|done|lia].
  - destruct (decide (successors edges X ⊆ X)) as [Hin|Hout].
    + replace (X ∪ successors edges X) with X by set_solver. clear -Hin.
      enough (grow edges k X = X) as -> by done.
      induction k as [|k IHk]; [done|]. simpl. by replace (X ∪ successors edges X) with X by set_solver.
    + apply IH; [|done|].
      * intros y [Hy|(x & _ & He)%elem_of_successors]%elem_of_union; [by apply HX|by eapply HU].
      * assert (X ⊂ X ∪ successors edges X) as Hlt by set_solver.
        apply subset_size in Hlt. lia.
Qed.

Lemma elem_of_reach n edges root x :
  edges_in n edges -> root < n -> x ∈ reach n edges root <-> rtc (edge_of edges) root x.
Proof.
  intros Hin Hroot. split.
  - intros (r & ->%elem_of_singleton & Hr)%grow_sound. done.
  - intros Hr.
    assert (successors edges (reach n edges root) ⊆ reach n edges root) as Hclosed.
    { apply (grow_closed edges n {[root]} (list_to_set (seq 0 n))).
      - intros y ->%elem_of_singleton. apply elem_of_list_to_set, elem_of_seq. lia.
      - intros y z He%Hin. apply elem_of_list_to_set, elem_of_seq. lia.
      - rewrite size_list_to_set, length_seq by apply NoDup_seq. lia. }
    revert x Hr. apply rtc_ind_r.
    + apply (grow_incl edges n {[root]}). by apply elem_of_singleton.
    + intros y z _ He IH. apply Hclosed, elem_of_successors. eauto.
Qed.

(** ** Dominance *)

(** The edges that avoid [d]. *)
Definition avoiding (d : nat) (edges : list (nat * nat)) : list (nat * nat) :=
  filter (fun e => e.1 <> d /\ e.2 <> d) edges.

Definition dominates_b (n : nat) (edges : list (nat * nat)) (root d x : nat) : bool :=
  bool_decide (d = root) || bool_decide (d = x) || bool_decide (x ∉ reach n (avoiding d edges) root).

Lemma avoiding_in n d edges : edges_in n edges -> edges_in n (avoiding d edges).
Proof. intros Hin a b [_ Hab]%list_elem_of_filter. by apply Hin. Qed.

Lemma avoiding_walk d edges a p b :
  walk (edge_of edges) a p b -> d ∉ p -> rtc (edge_of (avoiding d edges)) a b.
Proof.
  induction 1 as [a|a b p c Hab Hw IH]; [intros _; apply rtc_refl|].
  intros [Ha Hp]%not_elem_of_cons. eapply rtc_l; [|by apply IH].
  apply list_elem_of_filter. split; [|done]. simpl. split; [done|].
  intros ->. by apply Hp, (walk_first _ _ _ _ Hw).
Qed.

Lemma avoiding_rtc d edges a b :
  a <> d -> rtc (edge_of (avoiding d edges)) a b -> exists p, walk (edge_of edges) a p b /\ d ∉ p.
Proof.
  intros Hne Hr. revert Hne. induction Hr as [a|a b c Hab _ IH]; intros Hne.
  - exists [a]. split; [constructor|]. by intros ->%list_elem_of_singleton.
  - apply list_elem_of_filter in Hab as [[_ Hb] Hab]. destruct (IH Hb) as (p & Hp & Hd).
    exists (a :: p). split; [by econstructor|]. by apply not_elem_of_cons.
Qed.

Lemma dominates_b_spec n edges root d x :
  edges_in n edges -> root < n -> dominates_b n edges root d x = true <-> dominates (edge_of edges) root d x.
Proof.
  intros Hin Hroot. unfold dominates_b. rewrite !orb_true_iff, !bool_decide_eq_true.
  rewrite (elem_of_reach n _ root x (avoiding_in n d edges Hin) Hroot). split.
  - intros [[->| ->]|Hn]; [apply dominates_root|apply dominates_refl|].
    intros p Hp. destruct (decide (d ∈ p)) as [|Hd]; [done|]. exfalso. apply Hn. by eapply avoiding_walk.
  - intros HD. destruct (decide (d = root)) as [->|Hr]; [by left; left|]. right. intros Hreach.
    destruct (avoiding_rtc d edges root x ltac:(done) Hreach) as (p & Hp & Hd). by apply Hd, HD.
Qed.

(** The dominators of a reachable node form a chain. *)
Section chain.
Context (n : nat) (edges : list (nat * nat)) (root : nat).
Context (Hin : edges_in n edges) (Hroot : root < n).

Abbreviation E := (edge_of edges).
Abbreviation D := (dominates E root).

Lemma dominates_decide d x : D d x \/ ~ D d x.
Proof.
  destruct (dominates_b n edges root d x) eqn:Hd; [left|right]; rewrite <- (dominates_b_spec n) by done; [done|].
  by rewrite Hd.
Qed.

(** A walk through [a] or [b] leaves both behind from one of them on. *)
Lemma last_visit a b r p x :
  walk E r p x -> a ∈ p \/ b ∈ p ->
  exists d q, (d = a \/ d = b) /\ walk E d (d :: q) x /\ (a ∉ q) /\ (b ∉ q).
Proof.
  induction 1 as [r|r r' p x Hr Hw IH]; intros Hab.
  - exists r, []. split_and!; [|constructor|apply not_elem_of_nil..].
    rewrite !list_elem_of_singleton in Hab. naive_solver.
  - destruct (decide (a ∈ p)) as [Ha|Ha]; [apply IH; by left|].
    destruct (decide (b ∈ p)) as [Hb|Hb]; [apply IH; by right|].
    exists r, p. split_and!; [|by econstructor|done..].
    rewrite !elem_of_cons in Hab. naive_solver.
Qed.

(** A walk around [d] to [x] contradicts dominance. *)
Lemma dominates_around d x a q :
  D d x -> ~ D d a -> walk E a (a :: q) x -> d ∉ q -> a = d.
Proof.
  intros HD Hn Hw Hq. destruct (decide (a = d)) as [|Hne]; [done|]. exfalso. apply Hn. intros p Hp.
  destruct (walk_app _ _ _ _ _ _ Hp Hw) as (w & Hww & Hx). specialize (HD w Hww).
  apply Hx in HD as [?|HD]; [done|]. apply elem_of_cons in HD as [->|?]; done.
Qed.

Lemma dominators_chain x a b : rtc E root x -> D a x -> D b x -> D a b \/ D b a.
Proof.
  intros [p Hp]%rtc_walk Ha Hb.
  destruct (dominates_decide a b) as [|Hab]; [by left|]. destruct (dominates_decide b a) as [|Hba]; [by right|].
  destruct (last_visit a b root p x Hp (or_introl (Ha p Hp))) as (d & q & [-> | ->] & Hw & Haq & Hbq).
  - left. rewrite (dominates_around b x a q Hb Hba Hw Hbq). apply dominates_refl.
  - left. rewrite (dominates_around a x b q Ha Hab Hw Haq). apply dominates_refl.
Qed.

(** So a non-empty list of dominators has a closest one. *)
Lemma closest_dominator x l :
  rtc E root x -> (forall d, d ∈ l -> D d x) -> l <> [] -> exists m, m ∈ l /\ forall d, d ∈ l -> D d m.
Proof.
  intros Hx. induction l as [|a l IH]; intros Hl Hne; [done|].
  destruct l as [|b l].
  - exists a. split; [apply list_elem_of_here|]. intros d ->%list_elem_of_singleton. apply dominates_refl.
  - destruct IH as (m & Hm & Hd); [intros; by apply Hl, list_elem_of_further|done|].
    destruct (dominators_chain x a m) as [Ham|Hma];
      [done|apply Hl, list_elem_of_here|by apply Hl, list_elem_of_further| |].
    + exists m. split; [by apply list_elem_of_further|]. intros d [->|Hd']%elem_of_cons; [done|by apply Hd].
    + exists a. split; [apply list_elem_of_here|].
      intros d [->|Hd']%elem_of_cons; [apply dominates_refl|]. eapply dominates_trans; [by apply Hd|done].
Qed.
End chain.

(** ** Components *)

Definition mutual (n : nat) (edges : list (nat * nat)) (a b : nat) : Prop :=
  b ∈ reach n edges a /\ a ∈ reach n edges b.

#[export] Instance mutual_dec n edges a b : Decision (mutual n edges a b).
Proof. unfold mutual. apply _. Defined.

(** The class of the first node, then the rest. *)
Fixpoint classes (n : nat) (edges : list (nat * nat)) (fuel : nat) (l : list nat) : list (list nat) :=
  match fuel, l with
  | S fuel, a :: _ =>
      filter (fun b => mutual n edges a b) l
      :: classes n edges fuel (filter (fun b => ~ mutual n edges a b) l)
  | _, _ => []
  end.

Section components.
Context (n : nat) (edges : list (nat * nat)) (Hin : edges_in n edges).

Abbreviation E := (edge_of edges).
Abbreviation M := (mutual n edges).

Lemma mutual_rtc a b : a < n -> b < n -> M a b <-> rtc E a b /\ rtc E b a.
Proof. intros Ha Hb. unfold mutual. by rewrite !elem_of_reach. Qed.

Lemma mutual_refl a : M a a.
Proof. split; apply (grow_incl edges n {[a]}); by apply elem_of_singleton. Qed.

Lemma classes_partition fuel l : length l <= fuel -> concat (classes n edges fuel l) ≡ₚ l.
Proof.
  revert l. induction fuel as [|fuel IH]; intros [|a l] Hl; simpl in Hl |- *; [done|lia|done|].
  rewrite IH.
  - apply (filter_app_complement (fun b => M a b) (a :: l)).
  - rewrite filter_cons_False by (intros Hn; apply Hn, mutual_refl).
    etrans; [apply length_filter|]. lia.
Qed.

Lemma classes_components fuel l c a b :
  (forall x, x ∈ l -> x < n) ->
  (forall x y, x ∈ l -> y < n -> rtc E x y -> rtc E y x -> y ∈ l) ->
  c ∈ classes n edges fuel l -> a ∈ c -> b < n -> b ∈ c <-> rtc E a b /\ rtc E b a.
Proof.
  revert l. induction fuel as [|fuel IH]; intros [|r l] Hlt Hclosed; simpl; try by intros ?%elem_of_nil.
  set (l0 := r :: l) in *. assert (r ∈ l0) as Hr by apply list_elem_of_here.
  intros [->|Hc]%elem_of_cons Ha Hb.
  - apply list_elem_of_filter in Ha as [Hra Ha]. apply mutual_rtc in Hra as [H1 H2]; [|auto..].
    rewrite list_elem_of_filter. split.
    + intros [Hrb _]. apply mutual_rtc in Hrb as [H3 H4]; [|auto..]. split; by etrans.
    + intros [H3 H4]. split; [apply mutual_rtc; [auto..|split; by etrans]|]. by apply (Hclosed a).
  - revert Hc Ha Hb. apply IH.
    + intros x [_ Hx]%list_elem_of_filter. auto.
    + intros x y [Hnx Hx]%list_elem_of_filter Hy H1 H2. apply list_elem_of_filter.
      split; [|by apply (Hclosed x)]. intros Hry. apply Hnx.
      apply mutual_rtc in Hry as [H3 H4]; [|auto..]. apply mutual_rtc; [auto..|split; by etrans].
Qed.
End components.

(** ** The library *)

Definition sample_dominators (n : nat) (edges : list (nat * nat)) (root : nat) : Dominators :=
  let reached x := bool_decide (x ∈ reach n edges root) in
  let all x := filter (fun d => dominates_b n edges root d x = true) (seq 0 n) in
  let strict x := filter (fun d => d <> x) (all x) in
  mk_Dominators
    (fun x => if reached x then Some (strict x) else None)
    (fun x => if reached x then Some (all x) else None)
    (fun x => if reached x
              then head (filter (fun m => forallb (fun d => dominates_b n edges root d m) (strict x) = true)
                           (strict x))
              else None).

Definition sample_tarjan_scc (n : nat) (edges : list (nat * nat)) : list (list nat) :=
  classes n edges n (seq 0 n).

(** Any order of the nodes serves the analyses. *)
Definition sample_toposort (n : nat) (edges : list (nat * nat)) : option (list nat) := Some (seq 0 n).

Definition sample_condensation (g : CanonicalGraph) : list (list string) * list (nat * nat) :=
  ((fun c : list nat => omap (fun i => weights g !! i) c) <$> sample_tarjan_scc (node_count g) (graph_edges g), []).

Definition SamplePetgraph : Petgraph := {|
  simple_fast := sample_dominators;
  tarjan_scc := sample_tarjan_scc;
  toposort := sample_toposort;
  condensation := sample_condensation
|}.

Section laws.
Context (n : nat) (edges : list (nat * nat)) (root x : nat).
Context (Hin : edges_in n edges) (Hroot : root < n) (Hx : x < n).

Abbreviation E := (edge_of edges).

Lemma dominator_lt d : rtc E root x -> dominates E root d x -> d < n.
Proof.
  intros [p Hp]%rtc_walk HD. specialize (HD p Hp). revert Hroot HD. clear -Hin Hp.
  induction Hp as [a|a b p c Hab _ IH]; intros Ha HD.
  - by apply list_elem_of_singleton in HD as ->.
  - apply elem_of_cons in HD as [->|HD]; [done|]. apply IH; [|done]. by apply (Hin a b).
Qed.

Lemma elem_of_dominators d :
  rtc E root x ->
  d ∈ filter (fun d => dominates_b n edges root d x = true) (seq 0 n) <-> dominates E root d x.
Proof.
  intros Hr. rewrite list_elem_of_filter, dominates_b_spec, elem_of_seq by done.
  split; [tauto|]. intros HD. pose proof (dominator_lt d Hr HD). split; [done|lia].
Qed.

Lemma elem_of_strict d :
  rtc E root x ->
  d ∈ filter (fun d => d <> x) (filter (fun d => dominates_b n edges root d x = true) (seq 0 n)) <->
  dominates E root d x /\ d <> x.
Proof. intros Hr. rewrite list_elem_of_filter, (elem_of_dominators d Hr). tauto. Qed.

Lemma sample_immediate :
  (is_Some (immediate_dominator (sample_dominators n edges root) x) <-> x <> root /\ rtc E root x) /\
  forall m, immediate_dominator (sample_dominators n edges root) x = Some m ->
    dominates E root m x /\ m <> x /\
    forall d, dominates E root d x -> d <> x -> dominates E root d m.
Proof.
  cbn [sample_dominators immediate_dominator]. cbv zeta.
  pose proof (elem_of_reach n edges root x Hin Hroot) as Hreach.
  case_bool_decide as Hr; rewrite Hreach in Hr.
  2:{ split; [|done]. split; [by intros []|tauto]. }
  pose proof (fun d => elem_of_strict d Hr) as Hstrict.
  set (strict := filter (fun d => d <> x) _) in *. clearbody strict.
  assert (forall m, forallb (fun d => dominates_b n edges root d m) strict = true <->
            forall d, d ∈ strict -> dominates E root d m) as Hall.
  { intros m. rewrite forallb_forall. setoid_rewrite <- list_elem_of_In.
    by setoid_rewrite (fun d => dominates_b_spec n edges root d m Hin Hroot). }
  assert (forall m, m ∈ filter (fun m => forallb (fun d => dominates_b n edges root d m) strict = true) strict <->
            (dominates E root m x /\ m <> x) /\ forall d, dominates E root d x -> d <> x -> dominates E root d m) as Hf.
  { intros m. rewrite list_elem_of_filter, Hall, Hstrict. setoid_rewrite Hstrict. naive_solver. }
  set (best := filter _ strict) in *. clearbody best.
  assert (forall m, head best = Some m -> m ∈ best) as Hhead
    by (intros m Hm; destruct best; [done|]; injection Hm as ->; apply list_elem_of_here).
  split.
  - split.
    + intros [m [[HD Hm] _]%Hhead%Hf]. split; [|done]. intros ->.
      specialize (HD [root] (walk_nil _ _)). by apply list_elem_of_singleton in HD.
    + intros [Hne _]. destruct (closest_dominator n edges root Hin Hroot x strict Hr) as (m & Hm & Hd).
      * by intros d [? _]%Hstrict.
      * intros Hnil. apply (not_elem_of_nil root). rewrite <- Hnil. apply Hstrict.
        split; [apply dominates_root|done].
      * assert (m ∈ best) as Hb.
        { apply Hf. split; [by apply Hstrict|]. intros d H1 H2. apply Hd, Hstrict. done. }
        destruct best; [by apply elem_of_nil in Hb|]. eauto.
  - intros m [? ?]%Hhead%Hf. tauto.
Qed.
End laws.

Lemma omap_concat {A B} (f : A -> option B) (ls : list (list A)) :
  concat ((fun l : list A => omap f l) <$> ls) = omap f (concat ls).
Proof. induction ls as [|l ls IH]; [done|]. cbn [concat]. by rewrite fmap_cons, omap_app, <- IH. Qed.

Lemma omap_lookup_seq {A} (l : list A) : omap (fun i => l !! i) (seq 0 (length l)) = l.
Proof.
  induction l as [|a l IH] using rev_ind; [done|]. rewrite length_app, seq_app, omap_app. simpl.
  rewrite lookup_app_r, Nat.sub_diag by done. simpl. f_equal. etrans; [|exact IH].
  apply list_omap_ext, Forall_Forall2_diag, Forall_forall. intros i Hi%elem_of_seq.
  by rewrite lookup_app_l by lia.
Qed.

#[export] Instance SamplePetgraph_laws : @PetgraphLaws SamplePetgraph.
Proof.
  split; cbn [simple_fast tarjan_scc toposort condensation SamplePetgraph].
  - intros n edges root x Hin Hroot Hx. rewrite <- (elem_of_reach n edges root x Hin Hroot). simpl.
    case_bool_decide; split; naive_solver.
  - intros n edges root x l d Hin Hroot Hx. simpl. case_bool_decide as Hr; [|done]. intros [= <-].
    apply elem_of_strict; [done..|]. by apply (elem_of_reach n).
  - intros n edges root x Hin Hroot Hx. rewrite <- (elem_of_reach n edges root x Hin Hroot). simpl.
    case_bool_decide; split; naive_solver.
  - intros n edges root x l d Hin Hroot Hx. simpl. case_bool_decide as Hr; [|done]. intros [= <-].
    apply elem_of_dominators; [done..|]. by apply (elem_of_reach n).
  - intros n edges root x Hin Hroot Hx. by apply sample_immediate.
  - intros n edges root x d Hin Hroot Hx. by apply sample_immediate.
  - intros n edges Hin. apply classes_partition. by rewrite length_seq.
  - intros n edges c a b Hin Hc. eapply classes_components; [done| | |exact Hc].
    + intros y Hy%elem_of_seq. lia.
    + intros y z _ Hz _ _. apply elem_of_seq. lia.
  - intros n edges order _ [= <-]. done.
  - intros n edges _ _. eexists. done.
  - intros g ws es Hin [= <- <-]. rewrite omap_concat. unfold sample_tarjan_scc.
    rewrite classes_partition by by rewrite length_seq. unfold node_count. by rewrite omap_lookup_seq.
  - intros g ws es _ [= _ <-]. split; [by intros a b ?%elem_of_nil|].
    intros a Ha. inversion Ha as [? ? He|? ? ? He]; by apply elem_of_nil in He.
Qed.

(** ** The relational stage *)

Definition SampleStage : RelationalStage := {| distinct_sorted := fun rows => Ok (remove_dups rows) |}.

#[export] Instance SampleStage_laws : @RelationalStageLaws SampleStage.
Proof.
  split; cbn [distinct_sorted SampleStage].
  - intros rows out [= <-]. apply NoDup_remove_dups.
  - intros rows out row [= <-]. apply elem_of_remove_dups.
Qed.
