(* ===== verification/CommonWitness.v ===== *)
(** The theorems on the common derived analysis at a concrete input: a branch with a loop, a call
    chain with a recursive component, an effect at its end, a dynamic call and a changed callable;
    and two graphs on which control dependence is not what the branches decide. *)

From stdpp Require Import sorting.
From S2P Require Import Prelude Encoding CommonModel CommonCfg CommonCalls CommonTheory CommonGraph.
From S2P Require Import CommonSummary CommonTopology CommonCallTheory CommonWalk CommonCfgTheory.
From S2P Require Import CommonOwners CommonAnalysis CommonClaims CommonSample.
Local Open Scope string_scope.

Module CommonSampleInput.

Definition relations : CommonAnalysisRelations := mk_CommonAnalysisRelations
  "cfg_nodes" "cfg_edges" "def_use" "call_targets" "local_semantics" "facts" "unknowns"
  "completeness" "invalidation".

Definition fields : CommonAnalysisFields := mk_CommonAnalysisFields
  "epoch" "source" "input_set" "proof" "generation" "authority" "class" "algorithm" "precision"
  "family" "subject" "object" "value" "distance" "iteration" "complete" "reason" "detail"
  "requested" "completed" "remainder" "unknown" "receipt" "scope_kind" "scope" "cause".

Definition families : CommonAnalysisFamilies := mk_CommonAnalysisFamilies
  "dom" "postdom" "control" "data" "calls" "scc" "reach" "effect" "resource" "summary".

Definition bindings : CommonAnalysisBindings :=
  mk_CommonAnalysisBindings relations fields families (ApplicationOwned "app") (Fact "fact").

Definition bounds : CommonAnalysisBounds := mk_CommonAnalysisBounds 100 100 100 100 100 100 1000 50.

Definition pin : byte_array 32 := repeat_byte 32 x01.

Definition complete_row : CommonInputCoverage := mk_CommonInputCoverage 1 1 0 0 pin.
Definition partial_row : CommonInputCoverage := mk_CommonInputCoverage 5 3 1 1 pin.

Definition node (owner id : string) (entry exit : bool) : CommonCfgNode :=
  mk_CommonCfgNode owner id entry exit.
Definition edge (owner a b : string) : CommonCfgEdge := mk_CommonCfgEdge owner a b.

Definition input (nodes : list CommonCfgNode) (edges : list CommonCfgEdge)
    (defs : list CommonDefUse) (calls : list CommonCallSite)
    (locals : list CommonCallableLocalSemantics) (defuse : CommonInputCoverage)
    (changed : gset CommonChangedScope) : CommonDerivedAnalysisInput :=
  mk_CommonDerivedAnalysisInput (mk_CommonAnalysisProvenance pin pin pin pin 7) nodes edges defs calls
    locals
    (<[Cfg := complete_row]> (<[DefUseReaching := defuse]> (<[CallTargets := complete_row]>
      {[LocalEffectResource := complete_row]}))) changed.

(** A branch with an empty arm; the def-use input is not complete. *)
Definition branch : CommonDerivedAnalysisInput := input
  [node "f" "test" true false; node "f" "then" false false; node "f" "exit" false true]
  [edge "f" "test" "then"; edge "f" "test" "exit"; edge "f" "then" "exit"] [] [] [] partial_row
  {[Owner "f"]}.

(** [main] calls [read], which does the work; [read] has changed. *)
Definition chain : CommonDerivedAnalysisInput := input [] [] []
  [mk_CommonCallSite "s" "main" (Exact "read")]
  [mk_CommonCallableLocalSemantics "read" "m" "read" {["io"]} ∅;
   mk_CommonCallableLocalSemantics "main" "m" "main" ∅ ∅]
  complete_row {[Callable "read"]}.

(** A node that repeats itself before it leaves. *)
Definition spin : CommonDerivedAnalysisInput := input
  [node "f" "spin" true false; node "f" "exit" false true]
  [edge "f" "spin" "spin"; edge "f" "spin" "exit"] [] [] [] complete_row ∅.

(** A region without a way out: no branch in it. *)
Definition trap : CommonDerivedAnalysisInput := input
  [node "f" "test" true false; node "f" "exit" false true; node "f" "a" false false;
   node "f" "b" false false]
  [edge "f" "test" "exit"; edge "f" "test" "a"; edge "f" "a" "b"; edge "f" "b" "a"] [] [] [] complete_row ∅.

Definition hash (_ : list byte) : byte_array 32 := pin.

Definition run (i : CommonDerivedAnalysisInput) : result AnalysisState AnalysisFault :=
  analyze_common_derived (H:=SamplePetgraph) (H0:=SampleStage) hash bindings bounds i.

Definition final (i : CommonDerivedAnalysisInput) : AnalysisState :=
  match run i with Ok s => s | Err _ => AnalysisState_default end.

(** The control-dependence rows: what depends, and on what. *)
Definition control_rows (i : CommonDerivedAnalysisInput) : list (string * option string * bool) :=
  (fun r => (f_subject r, f_object r, f_complete r))
    <$> filter (fun r => f_family r = "control") (elements (facts (final i))).
End CommonSampleInput.

Import CommonSampleInput.

Lemma run_final i : (if run i is Ok _ then true else false) = true -> run i = Ok (final i).
Proof. unfold final. by destruct (run i). Qed.

(** The samples pass the checks. *)
Ltac accept := split; vm_compute; reflexivity.

Lemma sample_units nodes edges defs calls locals changed :
  forall family row,
    coverage (input nodes edges defs calls locals partial_row changed) !! family = Some row \/
    coverage (input nodes edges defs calls locals complete_row changed) !! family = Some row ->
    (0 <= remainder_units row)%Z /\ (0 <= unknown_units row)%Z.
Proof. intros [] row [Hrow|Hrow]; vm_compute in Hrow; injection Hrow as <-; simpl; lia. Qed.

Lemma branch_accepted : input_accepted bindings branch.
Proof. accept. Qed.

Lemma branch_fits : input_fits branch.
Proof. split; [done|done| |done]. intros family row Hrow. eapply sample_units. left. exact Hrow. Qed.

Lemma chain_accepted : input_accepted bindings chain.
Proof. accept. Qed.

Lemma chain_fits : input_fits chain.
Proof. split; [done|done| |done]. intros family row Hrow. eapply sample_units. right. exact Hrow. Qed.

(** The branch is analysed to the end, though one of its inputs is not complete. *)
Lemma analysis_always_finishes_and_balances_witness :
  exists s, run branch = Ok s /\
    forall f, f ∈ families_all families -> exists p, progress s !! f = Some p /\
      requested p = (completed p + remainder p + unknown_ p)%Z /\
      (0 <= completed p)%Z /\ (0 <= remainder p)%Z /\ (0 <= unknown_ p)%Z /\ (requested p <= u64_max)%Z.
Proof.
  pose proof (analysis_always_finishes_and_balances (H:=SamplePetgraph) (H1:=SampleStage)
                hash bindings bounds branch branch_accepted branch_fits) as Hends.
  assert (exists rows, normalize_stage (H := SampleStage) branch = Ok rows) as [rows Hrows]
    by (vm_compute; eexists; reflexivity).
  rewrite Hrows in Hends. exact Hends.
Defined.

(** The empty arm of the branch: the row that says it depends on the test is what the graph says. *)
Lemma control_flow_facts_are_exact_witness :
  cfg_fact "control" "then" "test" true ∈ facts (final branch) /\
  cfg_rows bindings branch (cfg_fact "control" "then" "test" true) /\
  (cfg_rows bindings branch (cfg_fact "dom" "exit" "test" true) ->
   cfg_fact "dom" "exit" "test" true ∈ facts (final branch) \/ noted (final branch) "dom" None).
Proof.
  pose proof (control_flow_facts_are_exact (H:=SamplePetgraph) (H1:=SampleStage) hash bindings bounds
    branch (final branch) branch_accepted branch_fits) as Hexact.
  assert (run branch = Ok (final branch)) as Hrun by (apply run_final; vm_compute; reflexivity).
  destruct (Hexact Hrun) as (Hsound & Hemit & _).
  assert (cfg_fact "control" "then" "test" true ∈ facts (final branch)) as Hin
    by (apply (bool_decide_eq_true_1 _); vm_compute; reflexivity).
  split; [exact Hin|]. split.
  - apply Hsound; [exact Hin|]. apply (bool_decide_eq_true_1 _). vm_compute. reflexivity.
  - exact (Hemit (cfg_fact "dom" "exit" "test" true)).
Defined.

(** The effect of [read] is found for [main], and nothing about the chain is missing. *)
Lemma call_facts_are_exact_witness :
  call_fact_holds hash bindings chain (summary_fact "effect" "main" "io" 2 true) /\
  calls_covered hash bindings chain (final chain).
Proof.
  pose proof (call_facts_are_exact (H:=SamplePetgraph) (H1:=SampleStage) hash bindings bounds
    chain (final chain) chain_accepted chain_fits) as Hexact.
  assert (run chain = Ok (final chain)) as Hrun by (apply run_final; vm_compute; reflexivity).
  destruct (Hexact Hrun) as [Hsound Hcov]. split; [|exact Hcov].
  apply Hsound; apply (bool_decide_eq_true_1 _); vm_compute; reflexivity.
Defined.

(** ** Control dependence on two odd graphs *)

(** A node that repeats itself controls whether it runs again, but no row says so. *)
Lemma self_loop_controls_nothing : control_rows spin = [].
Proof. vm_compute. reflexivity. Qed.

(** Where no exit is in reach every edge yields a row, marked complete, also between nodes with one
    successor each. *)
Lemma trapped_nodes_control_each_other :
  ("b", Some "a", true) ∈ control_rows trap /\ ("a", Some "b", true) ∈ control_rows trap.
Proof. split; apply (bool_decide_eq_true_1 _); vm_compute; reflexivity. Qed.
