(* ===== verification/ActorModel.v ===== *)
(** The durable command actor of src/src/fabric/command_actor.rs: its ports, its message handlers,
    its queue and its ingress gate.

    A handler awaits calls on three ports (durable records, contexts, effects) and reads or writes
    the shared gate. It is a [prog]: a tree whose nodes are those calls and whose branches are the
    answers a port may give. What an answer may be is not part of the handler; the files that use
    this one say it. The response channel of a message is the value its handler returns. *)

From S2P Require Import Prelude.
From S2P Require Import CommandModel.
Local Open Scope Z_scope.

(** ** Port data *)

Inductive CommandPortError :=
| DurableStoreUnavailable | CorruptRecord | ContextUnavailable | EffectUnavailable.

Inductive DurableAdmissionWrite :=
| Inserted (record : CommandRecord)
| AlreadyAdmitted (record : CommandRecord).

Inductive DurableTransitionWrite :=
| Stored (record : CommandRecord)
| RevisionConflicted (observed : option CommandRecord).

Inductive PrepareEffectOutcome :=
| Prepared (transaction : TransactionRef)
| PrepareKnownFailure (failure : CommandFailure)
| PrepareCancelled (cancellation : CommandCancellation).

Inductive CommitEffectOutcome :=
| Committed (result : CommandResult)
| CommitKnownFailure (failure : CommandFailure)
| CommitUnknown (unknown : UnknownCommit).

Inductive FabricCommandActorError :=
| ActorContract (error : CommandContractError)
| ActorPort (error : CommandPortError)
| DurableAdmissionMismatch
| DurableTransitionMismatch
| RevisionConflict (expected : Z) (observed : option Z)
| QueueClosed
| ResponseDropped
| OperationNotFound
| EffectStateMismatch
| AdmissionClosedForRecovery
| RecoveryPending (operation : OperationId) (obligation : CommandRecoveryObligation).

Inductive FabricCommandBackpressure :=
| BackpressureRecoveryPending | BackpressureFull | BackpressureClosed.

(** One page of the journal's nonterminal records, in the order of their operations. *)
Record CommandRecoveryPage := mk_CommandRecoveryPage {
  page_records : list CommandRecord;
  page_next_after : option OperationId
}.

(** ** Calls and answers *)

(** [DurableCommandRecordPort], and the paged read of its implementation. *)
Inductive RecordCall :=
| LookupAdmission (operation : OperationId) (key : IdempotencyKey)
| LookupOperation (operation : OperationId)
| InsertIfAbsent (admitted : CommandRecord)
| CompareAndSwap (transition : ReducerTransition)
| FirstNonterminal
| LoadNonterminalPage (after : option OperationId) (page_size : Z).

Definition record_answer (c : RecordCall) : Type :=
  match c with
  | LookupAdmission _ _ | LookupOperation _ | FirstNonterminal =>
      result (option CommandRecord) CommandPortError
  | InsertIfAbsent _ => result DurableAdmissionWrite CommandPortError
  | CompareAndSwap _ => result DurableTransitionWrite CommandPortError
  | LoadNonterminalPage _ _ => result CommandRecoveryPage CommandPortError
  end.

(** [CommandReductionContextPort]. *)
Inductive ContextCall :=
| ReadAdmissionContext (cmd : FabricCommand)
| ReadReductionContext (record : CommandRecord).

Definition context_answer (c : ContextCall) : Type :=
  match c with
  | ReadAdmissionContext _ => result AdmissionContext CommandPortError
  | ReadReductionContext _ => result ReductionContext CommandPortError
  end.

(** [FabricCommandEffectPort]. *)
Inductive EffectCall :=
| PrepareEffect (executing : CommandRecord) (owner : ExecutionOwner) (context : ReductionContext)
| CommitEffect (prepared : CommandRecord) (owner : ExecutionOwner) (transaction : TransactionRef)
    (context : ReductionContext)
| ReconcileEffect (awaiting : CommandRecord) (owner : ExecutionOwner)
    (transaction : TransactionRef) (context : ReductionContext).

Definition effect_answer (c : EffectCall) : Type :=
  match c with
  | PrepareEffect _ _ _ => result PrepareEffectOutcome CommandPortError
  | CommitEffect _ _ _ _ => result CommitEffectOutcome CommandPortError
  | ReconcileEffect _ _ _ _ => result ReconciliationObservation CommandPortError
  end.

(** [FabricCommandIngressGate]: one atomic flag, shared with the runtime. *)
Inductive GateCall := GateIsOpen | GateOpen | GateClose.

Definition gate_answer (c : GateCall) : Type :=
  match c with GateIsOpen => bool | GateOpen | GateClose => unit end.

(** What the runtime asks besides: its writer lease, the diagnostic of an interrupted commit, and
    the turn of a message in the actor's queue. *)
Inductive RuntimeCall :=
| ValidateWriterAuthority
| InterruptionDiagnostic (prepared : CommandRecord) (transaction : TransactionRef)
    (active_fence : WriterFence)
| AwaitTurn.

(** Why a message gets no reply: the queue is closed, or the response channel was dropped. *)
Inductive TurnLost := TurnQueueClosed | TurnResponseDropped.

Inductive WriterGenerationPortError := GenerationUnavailable | GenerationExhausted | GenerationCorrupt.

(** A path, and the number of a system error. *)
Inductive WorkspaceWriterLeaseError :=
| UnsafeAdminDirectory (path : string)
| UnsafeLockFile (path : string)
| AlreadyHeld
| LeaseIo (errno : Z)
| LeaseGeneration (error : WriterGenerationPortError)
| StaleFence.

Definition runtime_answer (c : RuntimeCall) : Type :=
  match c with
  | ValidateWriterAuthority => result unit WorkspaceWriterLeaseError
  | InterruptionDiagnostic _ _ _ => result DiagnosticRef CommandPortError
  | AwaitTurn => result unit TurnLost
  end.

Inductive PortCall :=
| Records (c : RecordCall)
| Contexts (c : ContextCall)
| Effects (c : EffectCall)
| Gate (c : GateCall)
| Runtime (c : RuntimeCall).

Definition answer (c : PortCall) : Type :=
  match c with
  | Records c => record_answer c
  | Contexts c => context_answer c
  | Effects c => effect_answer c
  | Gate c => gate_answer c
  | Runtime c => runtime_answer c
  end.

(** ** Programs *)

Inductive prog (A : Type) : Type :=
| Ret (a : A)
| Ask (c : PortCall) (k : answer c -> prog A).
Arguments Ret {A} a.
Arguments Ask {A} c k.

Fixpoint pbind {A B} (p : prog A) (f : A -> prog B) : prog B :=
  match p with
  | Ret a => f a
  | Ask c k => Ask c (fun x => pbind (k x) f)
  end.

(** [.await?]: continue with the value, or return the error. *)
Definition try_bind {A B E} (p : prog (result A E)) (f : A -> prog (result B E))
  : prog (result B E) :=
  pbind p (fun r => match r with Ok a => f a | Err e => Ret (Err e) end).

(** [.map_err(f)], which is also the [From] conversion of the question-mark operator. *)
Definition map_err {A E F} (f : E -> F) (r : result A E) : result A F :=
  match r with Ok a => Ok a | Err e => Err (f e) end.
Definition pmap_err {A E F} (f : E -> F) (p : prog (result A E)) : prog (result A F) :=
  pbind p (fun r => Ret (map_err f r)).

Declare Scope prog_scope.
Delimit Scope prog_scope with prog.
Notation "'await' x ':=' p 'in' k" := (pbind p (fun x => k))
  (at level 10, x pattern, p at level 99, k at level 200) : prog_scope.
Notation "'await?' x ':=' p 'in' k" := (try_bind p (fun x => k))
  (at level 10, x pattern, p at level 99, k at level 200) : prog_scope.
Local Open Scope prog_scope.

Definition lookup_admission (op : OperationId) (key : IdempotencyKey)
  : prog (result (option CommandRecord) CommandPortError) :=
  Ask (Records (LookupAdmission op key)) Ret.
Definition lookup_operation (op : OperationId)
  : prog (result (option CommandRecord) CommandPortError) :=
  Ask (Records (LookupOperation op)) Ret.
Definition insert_if_absent (r : CommandRecord)
  : prog (result DurableAdmissionWrite CommandPortError) :=
  Ask (Records (InsertIfAbsent r)) Ret.
Definition compare_and_swap (t : ReducerTransition)
  : prog (result DurableTransitionWrite CommandPortError) :=
  Ask (Records (CompareAndSwap t)) Ret.
Definition first_nonterminal : prog (result (option CommandRecord) CommandPortError) :=
  Ask (Records FirstNonterminal) Ret.
Definition read_admission_context (cmd : FabricCommand)
  : prog (result AdmissionContext CommandPortError) :=
  Ask (Contexts (ReadAdmissionContext cmd)) Ret.
Definition read_reduction_context (r : CommandRecord)
  : prog (result ReductionContext CommandPortError) :=
  Ask (Contexts (ReadReductionContext r)) Ret.
Definition prepare (r : CommandRecord) (owner : ExecutionOwner) (context : ReductionContext)
  : prog (result PrepareEffectOutcome CommandPortError) :=
  Ask (Effects (PrepareEffect r owner context)) Ret.
Definition commit (r : CommandRecord) (owner : ExecutionOwner) (transaction : TransactionRef)
    (context : ReductionContext) : prog (result CommitEffectOutcome CommandPortError) :=
  Ask (Effects (CommitEffect r owner transaction context)) Ret.
Definition reconcile (r : CommandRecord) (owner : ExecutionOwner) (transaction : TransactionRef)
    (context : ReductionContext) : prog (result ReconciliationObservation CommandPortError) :=
  Ask (Effects (ReconcileEffect r owner transaction context)) Ret.
Definition gate_is_open : prog bool := Ask (Gate GateIsOpen) Ret.
Definition gate_open : prog unit := Ask (Gate GateOpen) Ret.
Definition gate_close : prog unit := Ask (Gate GateClose) Ret.

#[export] Instance ReductionEffect_eq_dec : EqDecision ReductionEffect.
Proof. solve_decision. Defined.

(** ** Handlers *)

(** The operation a record belongs to, and the key it was admitted under. *)
Definition record_operation (r : CommandRecord) : OperationId :=
  operation_id (identity (command r)).
Definition record_key (r : CommandRecord) : IdempotencyKey :=
  idempotency_key (identity (command r)).

Abbreviation actor_prog A := (prog (result A FabricCommandActorError)).

(** The conversions of port and reducer errors. *)
Definition port {A} (p : prog (result A CommandPortError)) : actor_prog A := pmap_err ActorPort p.
Definition reduced {A} (r : result A CommandContractError) : actor_prog A :=
  Ret (map_err ActorContract r).

Definition replay_admission (existing : CommandRecord) (cmd : FabricCommand)
  : result CommandRecord FabricCommandActorError :=
  let replay_context :=
    mk_AdmissionContext (owner_workspace_id (ownership cmd)) (expected_head cmd)
      (writer_fence cmd) (Authorized (owner_authorization (ownership cmd))) in
  let? outcome := map_err ActorContract
                    (CommandReducer.admit_command (Some existing) cmd replay_context) in
  match outcome with
  | AdmissionExisting record =>
      if bool_decide (record = existing) then Ok record else Err DurableAdmissionMismatch
  | AdmissionNew _ => Err DurableAdmissionMismatch
  end.

Definition validate_idempotent (record : CommandRecord) (event : CommandEvent)
  : actor_prog ReductionContext :=
  await? context := port (read_reduction_context record) in
  await? reduction := reduced (CommandReducer.reduce record event context) in
  if (negb (bool_decide (effect reduction = IdempotentReplay))
      || negb (bool_decide (reduced_record reduction = record)))%bool
  then Ret (Err EffectStateMismatch)
  else Ret (Ok context).

Definition actor_transition (record : CommandRecord) (event : CommandEvent)
  : actor_prog CommandRecord :=
  await? context := port (read_reduction_context record) in
  await? reduction := reduced (CommandReducer.reduce record event context) in
  match effect reduction with
  | IdempotentReplay => Ret (Ok record)
  | StateChanged | ReconciliationStillRequired =>
      match transition reduction with
      | None => Ret (Err EffectStateMismatch)
      | Some t =>
          if (negb (bool_decide (predecessor t = record))
              || negb (bool_decide (successor t = reduced_record reduction))
              || negb (bool_decide (transition_effect t = effect reduction)))%bool
          then Ret (Err EffectStateMismatch)
          else
            await? write := port (compare_and_swap t) in
            match write with
            | Stored stored =>
                if bool_decide (stored = reduced_record reduction) then Ret (Ok stored)
                else Ret (Err DurableTransitionMismatch)
            | RevisionConflicted observed =>
                Ret (Err (RevisionConflict (revision record) (revision <$> observed)))
            end
      end
  end.

Arguments validate_idempotent : simpl never.
Arguments actor_transition : simpl never.

Section actor.
(** [self.actor_id]. *)
Context (self : ActorId).

(** [PrepareEffectOutcome::Prepared]: persist the marker, commit, record the outcome. *)
Definition commit_prepared (record : CommandRecord) (owner : ExecutionOwner)
    (transaction : TransactionRef) : actor_prog CommandRecord :=
  let prepare_event := EvPrepareCommit owner transaction in
  await? record := actor_transition record prepare_event in
  await? commit_context := validate_idempotent record prepare_event in
  await? outcome := port (commit record owner transaction commit_context) in
  actor_transition record
    (match outcome with
     | Committed res => EvConfirmCommit owner transaction res
     | CommitKnownFailure failure => EvReportKnownFailure owner failure
     | CommitUnknown unknown => EvReportUnknownCommit owner transaction unknown
     end).

Definition execute_started (record : CommandRecord) (owner : ExecutionOwner)
  : actor_prog CommandRecord :=
  await? prepare_context := validate_idempotent record (EvStart owner) in
  await? outcome := port (prepare record owner prepare_context) in
  match outcome with
  | PrepareKnownFailure failure => actor_transition record (EvReportKnownFailure owner failure)
  | PrepareCancelled cancellation =>
      actor_transition record (EvCancelBeforeCommit owner cancellation)
  | Prepared transaction => commit_prepared record owner transaction
  end.

Arguments commit_prepared : simpl never.
Arguments execute_started : simpl never.

(** The admitted record, once it is durably inserted. *)
Definition start_admitted (cmd : FabricCommand) (record : CommandRecord)
  : actor_prog CommandRecord :=
  let owner := mk_ExecutionOwner self (writer_fence cmd) in
  await? record := actor_transition record (EvStart owner) in
  execute_started record owner.

Definition process_submit (cmd : FabricCommand) : actor_prog CommandRecord :=
  await? existing := port (lookup_admission (operation_id (identity cmd))
                             (idempotency_key (identity cmd))) in
  match existing with
  | Some existing => Ret (replay_admission existing cmd)
  | None =>
      await? admission_context := port (read_admission_context cmd) in
      await? outcome := reduced (CommandReducer.admit_command None cmd admission_context) in
      match outcome with
      | AdmissionExisting _ => Ret (Err DurableAdmissionMismatch)
      | AdmissionNew admitted =>
          await? write := port (insert_if_absent admitted) in
          match write with
          | Inserted stored =>
              if negb (bool_decide (stored = admitted)) then Ret (Err DurableAdmissionMismatch)
              else start_admitted cmd stored
          | AlreadyAdmitted existing => Ret (replay_admission existing cmd)
          end
      end
  end.

Arguments process_submit : simpl never.

(** [lookup_operation(..).await?.ok_or(OperationNotFound)?]. *)
Definition find_operation (op : OperationId) : actor_prog CommandRecord :=
  await? found := port (lookup_operation op) in
  Ret (ok_or found OperationNotFound).

(** [ExecutionOwner { actor_id: self.actor_id, fence: context.active_fence }]. *)
Definition active_owner (context : ReductionContext) : ExecutionOwner :=
  mk_ExecutionOwner self (active_fence context).

Definition process_retry (op : OperationId) : actor_prog CommandRecord :=
  await? record := find_operation op in
  match state record with
  | StateRetryReady _ required_fence _ =>
      await? context := port (read_reduction_context record) in
      let owner := active_owner context in
      if generation_get (generation (fence owner)) <? generation_get (generation required_fence)
      then Ret (Err (ActorContract RecoveryFenceNotAdvanced))
      else
        await? started := actor_transition record (EvStart owner) in
        execute_started started owner
  | _ => Ret (Err EffectStateMismatch)
  end.

Definition process_resume_precommit (op : OperationId) : actor_prog CommandRecord :=
  await? record := find_operation op in
  match state record with
  | StateAdmitted _ | StateExecuting _ _ =>
      await? context := port (read_reduction_context record) in
      let owner := active_owner context in
      await? started := actor_transition record (EvStart owner) in
      execute_started started owner
  | _ => Ret (Err EffectStateMismatch)
  end.

Definition process_mark_interrupted_commit (op : OperationId) (unknown : UnknownCommit)
  : actor_prog CommandRecord :=
  await? record := find_operation op in
  match state record with
  | StateCommitPrepared _ _ transaction =>
      await? context := port (read_reduction_context record) in
      actor_transition record (EvReportUnknownCommit (active_owner context) transaction unknown)
  | _ => Ret (Err EffectStateMismatch)
  end.

Definition process_cancel (op : OperationId) (cancellation : CommandCancellation)
  : actor_prog CommandRecord :=
  await? record := find_operation op in
  await? context := port (read_reduction_context record) in
  let owner := active_owner context in
  await? record :=
    match state record with
    | StateExecuting _ current =>
        if negb (bool_decide (current = owner)) then actor_transition record (EvStart owner)
        else Ret (Ok record)
    | _ => Ret (Ok record)
    end in
  actor_transition record (EvCancelBeforeCommit owner cancellation).

Definition process_reconcile (op : OperationId) : actor_prog CommandRecord :=
  await? record := find_operation op in
  match state record with
  | StateAwaitingReconciliation _ _ _ transaction _ _ _ =>
      await? context := port (read_reduction_context record) in
      let owner := active_owner context in
      await? observation := port (reconcile record owner transaction context) in
      actor_transition record (EvObserveReconciliation owner transaction observation)
  | _ => Ret (Err EffectStateMismatch)
  end.

(** ** Messages *)

Inductive ActorMessage :=
| MsgSubmit (cmd : FabricCommand)
| MsgCancel (operation : OperationId) (cancellation : CommandCancellation)
| MsgReconcile (operation : OperationId)
| MsgRetry (operation : OperationId)
| MsgResumePrecommit (operation : OperationId)
| MsgMarkInterruptedCommit (operation : OperationId) (unknown : UnknownCommit)
| MsgOpenAdmission
| MsgShutdown.

(** What is sent back. [Panicked]: the [expect] on the obligation of a nonterminal record failed. *)
Inductive Reply :=
| RecordReply (result : result CommandRecord FabricCommandActorError)
| OpenReply (result : result unit FabricCommandActorError)
| ShutdownReply
| Panicked.

Definition recovery_required (r : result CommandRecord FabricCommandActorError) : bool :=
  match r with
  | Ok record => negb (is_terminal (state record))
  | Err _ => true
  end.

Definition handle_submit (cmd : FabricCommand) : prog (result CommandRecord FabricCommandActorError) :=
  await is_open := gate_is_open in
  await result := (if is_open : bool then process_submit cmd
                   else Ret (Err AdmissionClosedForRecovery)) in
  if recovery_required result
  then await _ := gate_close in Ret result
  else Ret result.

Definition handle_open_admission : prog Reply :=
  await _ := gate_close in
  await found := first_nonterminal in
  match found with
  | Ok (Some record) =>
      match recovery_obligation record with
      | Some obligation =>
          Ret (OpenReply (Err (RecoveryPending (record_operation record) obligation)))
      | None => Ret Panicked
      end
  | Ok None => await _ := gate_open in Ret (OpenReply (Ok tt))
  | Err error => Ret (OpenReply (Err (ActorPort error)))
  end.

Definition record_reply (p : actor_prog CommandRecord) : prog Reply :=
  await result := p in Ret (RecordReply result).

(** One iteration of the actor's loop. *)
Definition handle_message (m : ActorMessage) : prog Reply :=
  match m with
  | MsgSubmit cmd => record_reply (handle_submit cmd)
  | MsgCancel op cancellation => record_reply (process_cancel op cancellation)
  | MsgReconcile op => record_reply (process_reconcile op)
  | MsgRetry op => record_reply (process_retry op)
  | MsgResumePrecommit op => record_reply (process_resume_precommit op)
  | MsgMarkInterruptedCommit op unknown => record_reply (process_mark_interrupted_commit op unknown)
  | MsgOpenAdmission => handle_open_admission
  | MsgShutdown => Ret ShutdownReply
  end.
End actor.

(** ** The actor and its queue *)

(** What the actor's task is doing. [Committing i k]: it awaits [commit], which the effect port
    runs as its invocation number [i]. *)
Inductive Task :=
| Idle
| Running (p : prog Reply)
| Committing (i : nat) (k : result CommitEffectOutcome CommandPortError -> prog Reply)
| Stopped.

Record Actor := mk_Actor {
  a_id : ActorId;
  a_capacity : nat;
  a_gate : bool;
  a_mailbox : list ActorMessage;
  a_task : Task
}.

Definition is_stopped (t : Task) : bool := match t with Stopped => true | _ => false end.

(** [FabricCommandActorConfig::new]: the capacity is a [NonZeroUsize]; [Default]. *)
Definition FabricCommandActorConfig_new (queue_capacity : Z) : option nat :=
  if queue_capacity =? 0 then None else Some (Z.to_nat queue_capacity).
Definition default_capacity : option nat := FabricCommandActorConfig_new 64.

(** [spawn_fabric_command_actor_closed]. *)
Definition spawn_closed (capacity : nat) (id : ActorId) : Actor := mk_Actor id capacity false [] Idle.

Definition with_gate (a : Actor) (g : bool) : Actor :=
  mk_Actor (a_id a) (a_capacity a) g (a_mailbox a) (a_task a).
Definition with_mailbox (a : Actor) (l : list ActorMessage) : Actor :=
  mk_Actor (a_id a) (a_capacity a) (a_gate a) l (a_task a).
Definition with_task (a : Actor) (t : Task) : Actor :=
  mk_Actor (a_id a) (a_capacity a) (a_gate a) (a_mailbox a) t.

(** [mpsc::Sender::try_send]: the receiver is closed when the task has ended. *)
Definition try_send (a : Actor) (m : ActorMessage) : result Actor FabricCommandBackpressure :=
  if is_stopped (a_task a) then Err BackpressureClosed
  else if Nat.leb (a_capacity a) (length (a_mailbox a)) then Err BackpressureFull
  else Ok (with_mailbox a (a_mailbox a ++ [m])).

(** [FabricCommandActorHandle::try_submit]. *)
Definition try_submit (a : Actor) (cmd : FabricCommand) : result Actor FabricCommandBackpressure :=
  if negb (a_gate a) then Err BackpressureRecoveryPending else try_send a (MsgSubmit cmd).

(** [recv] in the loop of [run]: the next message, in the order of arrival. *)
Definition receive (a : Actor) : option Actor :=
  match a_task a, a_mailbox a with
  | Idle, m :: rest => Some (with_task (with_mailbox a rest) (Running (handle_message (a_id a) m)))
  | _, _ => None
  end.

(** The handler returned: the reply is sent; [Shutdown] leaves the loop and closes the receiver, a
    panic ends the task. What is still queued is dropped. *)
Definition finish (a : Actor) (reply : Reply) : Actor :=
  match reply with
  | ShutdownReply | Panicked => with_task (with_mailbox a []) Stopped
  | RecordReply _ | OpenReply _ => with_task a Idle
  end.
