(* ===== verification/ActorLogic.v ===== *)
(** Reasoning about the actor's handlers: a protocol says which calls may be made and which answers
    they get in a state; [obeys] is the weakest precondition of a program under a protocol. The
    contract of the durable record port is stated here. *)

From stdpp Require Import sorting.
From S2P Require Import Prelude.
From S2P Require Import Encoding.
From S2P Require Import CommandModel.
From S2P Require Import CommandTheory.
From S2P Require Import ActorModel.
Local Open Scope Z_scope.

(** ** Protocols *)

(** [allows s c]: the call [c] may be made in [s]. [answers s c x s']: it may be answered with [x],
    and the state is then [s']. *)
Record Protocol (S : Type) := mk_Protocol {
  allows : S -> PortCall -> Prop;
  answers : S -> forall c : PortCall, answer c -> S -> Prop
}.
Arguments mk_Protocol {S} _ _.
Arguments allows {S} _ _ _.
Arguments answers {S} _ _ _ _ _.

Section obeys.
Context {S : Type} (P : Protocol S).

(** Whatever the answers are, [p] makes only allowed calls and ends with [Φ]. A program is finite,
    so it does end as long as its calls are answered. *)
Fixpoint obeys {A} (p : prog A) (s : S) (Φ : A -> S -> Prop) : Prop :=
  match p with
  | Ret a => Φ a s
  | Ask c k => allows P s c /\ forall x s', answers P s c x s' -> obeys (k x) s' Φ
  end.

Lemma obeys_mono {A} (p : prog A) s (Φ Ψ : A -> S -> Prop) :
  obeys p s Φ -> (forall a s', Φ a s' -> Ψ a s') -> obeys p s Ψ.
Proof.
  revert s. induction p as [a|c k IH]; intros s Hp HΦ; simpl in *; [auto|].
  destruct Hp as [Ha Hk]. split; [done|]. eauto.
Qed.

Lemma obeys_and {A} (p : prog A) s (Φ Ψ : A -> S -> Prop) :
  obeys p s Φ -> obeys p s Ψ -> obeys p s (fun a s' => Φ a s' /\ Ψ a s').
Proof.
  revert s. induction p as [a|c k IH]; intros s Hp Hq; simpl in *; [done|].
  destruct Hp as [Ha Hk], Hq as [_ Hl]. split; [done|]. eauto.
Qed.

Lemma obeys_bind {A B} (p : prog A) (f : A -> prog B) s (Φ : B -> S -> Prop) :
  obeys p s (fun a s' => obeys (f a) s' Φ) -> obeys (pbind p f) s Φ.
Proof.
  revert s. induction p as [a|c k IH]; intros s Hp; simpl in *; [done|].
  destruct Hp as [Ha Hk]. split; [done|]. eauto.
Qed.

(** The question-mark operator: an error ends the program, a value is passed on. *)
Lemma obeys_try {A B E} (p : prog (result A E)) (f : A -> prog (result B E)) s
    (Φ : result B E -> S -> Prop) :
  obeys p s (fun r s' => match r with Ok a => obeys (f a) s' Φ | Err e => Φ (Err e) s' end) ->
  obeys (try_bind p f) s Φ.
Proof.
  intros Hp. apply obeys_bind. eapply obeys_mono; [exact Hp|].
  intros [a|e] s'; simpl; auto.
Qed.

Lemma obeys_map_err {A E F} (f : E -> F) (p : prog (result A E)) s (Φ : result A F -> S -> Prop) :
  obeys p s (fun r s' => Φ (map_err f r) s') -> obeys (pmap_err f p) s Φ.
Proof. intros Hp. apply obeys_bind. eapply obeys_mono; [exact Hp|]. done. Qed.

Lemma obeys_call {A} c (k : answer c -> prog A) s Φ :
  allows P s c -> (forall x s', answers P s c x s' -> obeys (k x) s' Φ) -> obeys (Ask c k) s Φ.
Proof. by split. Qed.

(** A call whose errors become the actor's. *)
Lemma obeys_port {A} (p : prog (result A CommandPortError)) s
    (Φ : result A FabricCommandActorError -> S -> Prop) :
  obeys p s (fun r s' => Φ (map_err ActorPort r) s') -> obeys (port p) s Φ.
Proof. apply obeys_map_err. Qed.

(** A reduction either rejects the event or goes on with its product. *)
Lemma obeys_reduced {A B} (r : result A CommandContractError) (f : A -> actor_prog B) s Φ :
  (forall e, Φ (Err (ActorContract e)) s) ->
  (forall a, r = Ok a -> obeys (f a) s Φ) ->
  obeys (try_bind (reduced r) f) s Φ.
Proof. intros He Hf. apply obeys_try. destruct r as [a|e]; simpl; auto. Qed.
End obeys.

(** Steps over a program without unfolding the handlers it calls. *)
Ltac prog_simpl := cbn [obeys map_err ok_or negb].
(** The next call of a port: whether it is allowed, and its answers. *)
Ltac prog_ask :=
  first [apply obeys_try, obeys_port, obeys_call | apply obeys_port, obeys_call
        | apply obeys_bind, obeys_call | apply obeys_call].

(** A program that obeys a protocol obeys every weaker one: more calls allowed, fewer answers. *)
Lemma obeys_weaken {S A} (P Q : Protocol S) (p : prog A) s (Φ : A -> S -> Prop) :
  (forall s c, allows P s c -> allows Q s c) ->
  (forall s c x s', answers Q s c x s' -> answers P s c x s') ->
  obeys P p s Φ -> obeys Q p s Φ.
Proof.
  intros Hc Ha. revert s. induction p as [a|c k IH]; intros s Hp; simpl in *; [done|].
  destruct Hp as [H1 H2]. split; [auto|]. eauto.
Qed.

(** A newly admitted command starts at revision zero. *)
Lemma admitted_record cmd c r :
  CommandReducer.admit_command None cmd c = Ok (AdmissionNew r) ->
  r = mk_CommandRecord cmd (StateAdmitted 1) 0.
Proof. unfold CommandReducer.admit_command. intros Ha. by inv_ok Ha. Qed.

(** ** The contract of the durable record port *)

Abbreviation CommandRecords := (gmap OperationId CommandRecord).

(** A record for a command that can still be admitted: no record has its operation or its key. *)
Definition unadmitted (m : CommandRecords) (r : CommandRecord) : Prop :=
  m !! record_operation r = None
  /\ forall op r', m !! op = Some r' -> record_key r' <> record_key r.

Definition matches (op : OperationId) (key : IdempotencyKey) (r : CommandRecord) : Prop :=
  record_operation r = op \/ record_key r = key.

(** The swap of [t] applies: its predecessor is the stored record. *)
Definition swappable (m : CommandRecords) (t : ReducerTransition) : Prop :=
  m !! record_operation (predecessor t) = Some (predecessor t)
  /\ command (successor t) = command (predecessor t)
  /\ revision (successor t) = revision (predecessor t) + 1.

Definition admit_record (r : CommandRecord) (m : CommandRecords) : CommandRecords :=
  <[record_operation r := r]> m.
Definition swap_record (t : ReducerTransition) (m : CommandRecords) : CommandRecords :=
  <[record_operation (predecessor t) := successor t]> m.

(** Records in the order of their operations: bytes, first to last. *)
Definition operation_le (a b : OperationId) : Prop :=
  bytes_le (as_slice (as_bytes a)) (as_slice (as_bytes b)).
Definition operation_lt (a b : OperationId) : Prop := operation_le a b /\ a <> b.

Definition comes_after (after : option OperationId) (op : OperationId) : Prop :=
  match after with Some a => operation_lt a op | None => True end.

(** [page] is the first [n] nonterminal records after the cursor, in order, and says whether there
    are more. *)
Definition is_page (m : CommandRecords) (after : option OperationId) (n : Z)
    (page : CommandRecoveryPage) : Prop :=
  let due r := m !! record_operation r = Some r /\ is_terminal (state r) = false
               /\ comes_after after (record_operation r) in
  StronglySorted (fun r r' => operation_lt (record_operation r) (record_operation r')) (page_records page)
  /\ (forall r, r ∈ page_records page -> due r)
  /\ match page_next_after page with
     | None => forall r, due r -> r ∈ page_records page
     | Some cursor =>
         Z.of_nat (length (page_records page)) = n
         /\ (exists last, list.last (page_records page) = Some last /\ record_operation last = cursor)
         /\ (forall r, due r -> r ∈ page_records page \/ operation_lt cursor (record_operation r))
     end.

(** What a call on records [m] may answer, and the records afterwards. An error says nothing about
    a write: it may or may not have happened. *)
Definition record_contract (m : CommandRecords) (c : RecordCall) : record_answer c -> CommandRecords -> Prop :=
  match c return record_answer c -> CommandRecords -> Prop with
  | LookupAdmission op key => fun x m' =>
      m' = m
      /\ match x with
         | Ok None => forall r, m !! record_operation r = Some r -> ~ matches op key r
         | Ok (Some r) => m !! record_operation r = Some r /\ matches op key r
         | Err _ => True
         end
  | LookupOperation op => fun x m' =>
      m' = m /\ match x with Ok found => found = m !! op | Err _ => True end
  | InsertIfAbsent r => fun x m' =>
      match x with
      | Ok (Inserted stored) => stored = r /\ unadmitted m r /\ m' = admit_record r m
      | Ok (AlreadyAdmitted r') =>
          m' = m /\ m !! record_operation r' = Some r' /\ matches (record_operation r) (record_key r) r'
      | Err _ => m' = m \/ unadmitted m r /\ m' = admit_record r m
      end
  | CompareAndSwap t => fun x m' =>
      match x with
      | Ok (Stored stored) => stored = successor t /\ swappable m t /\ m' = swap_record t m
      | Ok (RevisionConflicted observed) =>
          m' = m /\ observed = m !! record_operation (predecessor t)
          /\ revision <$> observed <> Some (revision (predecessor t))
      | Err _ => m' = m \/ swappable m t /\ m' = swap_record t m
      end
  | FirstNonterminal => fun x m' =>
      m' = m
      /\ match x with
         | Ok None => forall op r, m !! op = Some r -> is_terminal (state r) = true
         | Ok (Some r) =>
             m !! record_operation r = Some r /\ is_terminal (state r) = false
             /\ forall op r', m !! op = Some r' -> is_terminal (state r') = false ->
                 operation_le (record_operation r) op
         | Err _ => True
         end
  | LoadNonterminalPage after n => fun x m' =>
      m' = m /\ match x with Ok page => 1 <= n -> is_page m after n page | Err _ => True end
  end.

(** An implementation of the port: the states it can be in, the records they stand for, and the
    contract. *)
Class DurableCommandRecordPort (J : Type) := {
  handles : J -> forall c : RecordCall, record_answer c -> J -> Prop;
  journal_ok : J -> Prop;
  contents : J -> CommandRecords;
}.

Class DurableCommandRecordLaws (J : Type) `{DurableCommandRecordPort J} := {
  handles_ok j c x j' : journal_ok j -> handles j c x j' -> journal_ok j';
  handles_contract j c x j' :
    journal_ok j -> handles j c x j' -> record_contract (contents j) c x (contents j');
  contents_keyed j op r : journal_ok j -> contents j !! op = Some r -> record_operation r = op;
}.
