(* ===== verification/EffectContract.v ===== *)
(** The boundary between the command actor and the command effects: the validation shared by the
    effect families (src/src/fabric/command_effect_contract.rs) and the dispatch from a command to
    its family (src/src/fabric/command_effect_router.rs). *)

From S2P Require Import Prelude.
From S2P Require Import CommandModel.
From S2P Require Import CommandTheory.
From S2P Require Import ActorModel.
Local Open Scope Z_scope.

Record ValidatedCommandAttempt := mk_ValidatedCommandAttempt {
  va_command : FabricCommand;
  va_attempt : Z;
  va_execution_owner : ExecutionOwner;
  va_prepared_transaction : option TransactionRef
}.

Record ValidatedCommandRecovery := mk_ValidatedCommandRecovery {
  vr_attempt : ValidatedCommandAttempt;
  vr_active_recovery_owner : ExecutionOwner
}.

#[export] Instance ValidatedCommandAttempt_eq_dec : EqDecision ValidatedCommandAttempt.
Proof. solve_decision. Defined.

Definition validate_receipt_generation (self : ValidatedCommandAttempt)
    (writer_generation : WriterGeneration) : result unit CommandPortError :=
  if bool_decide (writer_generation = generation (fence (va_execution_owner self)))
  then Ok tt else Err CorruptRecord.

Definition validate_context (record : CommandRecord) (owner : ExecutionOwner)
    (context : ReductionContext) (require_expected_head : bool) : result unit CommandPortError :=
  if negb (bool_decide (active_fence context = fence owner)) then Err ContextUnavailable
  else if (require_expected_head
           && negb (bool_decide (current_head context = expected_head (command record))))%bool
  then Err ContextUnavailable
  else Ok tt.

Definition validate_kind (record : CommandRecord) (expected_kind : CommandKind)
  : result unit CommandPortError :=
  if bool_decide (command_kind (command record) = expected_kind) then Ok tt
  else Err CorruptRecord.

Definition validated_attempt (record : CommandRecord) (attempt : Z)
    (execution_owner : ExecutionOwner) (prepared_transaction : option TransactionRef)
  : result ValidatedCommandAttempt CommandPortError :=
  let admitted := writer_fence (command record) in
  if (negb (bool_decide (fence execution_owner = admitted))
      && (generation_get (generation (fence execution_owner))
          <=? generation_get (generation admitted)))%bool
  then Err CorruptRecord
  else Ok (mk_ValidatedCommandAttempt (command record) attempt execution_owner
             prepared_transaction).

Definition validate_owner_advance (prior observed : ExecutionOwner) (corrupt_on_failure : bool)
  : result unit CommandPortError :=
  if (bool_decide (prior = observed)
      || (generation_get (generation (fence prior))
          <? generation_get (generation (fence observed))))%bool
  then Ok tt
  else if corrupt_on_failure then Err CorruptRecord else Err ContextUnavailable.

Definition executing_attempt (record : CommandRecord) (owner : ExecutionOwner)
    (context : ReductionContext) (expected_kind : CommandKind)
  : result ValidatedCommandAttempt CommandPortError :=
  let? _ := validate_context record owner context true in
  let? _ := validate_kind record expected_kind in
  match state record with
  | StateExecuting attempt recorded =>
      if negb (bool_decide (recorded = owner)) then Err ContextUnavailable
      else validated_attempt record attempt owner None
  | _ => Err CorruptRecord
  end.

Definition prepared_attempt (record : CommandRecord) (owner : ExecutionOwner)
    (transaction : TransactionRef) (context : ReductionContext) (expected_kind : CommandKind)
  : result ValidatedCommandAttempt CommandPortError :=
  let? _ := validate_context record owner context true in
  let? _ := validate_kind record expected_kind in
  match state record with
  | StateCommitPrepared attempt recorded prepared =>
      if (negb (bool_decide (recorded = owner)) || negb (bool_decide (prepared = transaction)))%bool
      then Err ContextUnavailable
      else validated_attempt record attempt owner (Some transaction)
  | _ => Err CorruptRecord
  end.

Definition reconciliation_attempt (record : CommandRecord) (active_recovery_owner : ExecutionOwner)
    (transaction : TransactionRef) (context : ReductionContext) (expected_kind : CommandKind)
  : result ValidatedCommandRecovery CommandPortError :=
  let? _ := validate_context record active_recovery_owner context false in
  let? _ := validate_kind record expected_kind in
  match state record with
  | StateAwaitingReconciliation attempt execution_owner recovery_owner prepared _ _ _ =>
      let? _ := validate_owner_advance execution_owner recovery_owner true in
      let? _ := validate_owner_advance recovery_owner active_recovery_owner false in
      if negb (bool_decide (prepared = transaction)) then Err ContextUnavailable
      else
        let? attempt := validated_attempt record attempt execution_owner (Some transaction) in
        Ok (mk_ValidatedCommandRecovery attempt active_recovery_owner)
  | _ => Err CorruptRecord
  end.

(** ** The router *)

(** [FabricCommandEffectRouter]: one port of type [P] per command family. *)
Record FabricCommandEffectRouter (P : Type) := mk_Router {
  source_wave : P;
  relation_publication : P;
  activation : P;
  rollback : P;
  compaction : P;
  retention : P;
  administration : P
}.
Arguments mk_Router {P} _ _ _ _ _ _ _.
Arguments source_wave {P} _.
Arguments relation_publication {P} _.
Arguments activation {P} _.
Arguments rollback {P} _.
Arguments compaction {P} _.
Arguments retention {P} _.
Arguments administration {P} _.

(** The [match] on the payload that [prepare], [commit] and [reconcile] share. *)
Definition route {P} (self : FabricCommandEffectRouter P) (p : FabricCommandPayload) : P :=
  match p with
  | PublishSourceWave _ _ => source_wave self
  | PublishRelations _ => relation_publication self
  | ActivateEpoch _ _ => activation self
  | RollbackEpoch _ _ => rollback self
  | CompactRelations _ _ => compaction self
  | ApplyRetention _ _ => retention self
  | Administer _ _ => administration self
  end.

(** The [expected_kind] each family passes to the validation. *)
Definition family_kinds : FabricCommandEffectRouter CommandKind :=
  mk_Router KindPublishSourceWave KindPublishRelations KindActivateEpoch KindRollbackEpoch
    KindCompactRelations KindApplyRetention KindAdminister.

Definition routed_kind (record : CommandRecord) : CommandKind :=
  route family_kinds (payload (command record)).

(** A command reaches the family of its own kind. *)
Lemma routed_kind_eq record : routed_kind record = command_kind (command record).
Proof. unfold routed_kind, command_kind. by destruct (payload (command record)). Qed.
