(* ===== verification/ActorWorld.v ===== *)
(** Command actors at work: a durable journal, the transactions that commits have started, and any
    number of actors over them, each moved one call at a time. Actors may stop at any point; ports
    may fail at any call. With [lease = true] an actor starts only when no other one runs, which is
    what the writer lease of the runtime gives; with [lease = false] actors overlap freely.

    The effect port is described by what its documentation obliges it to: only a commit whose
    validation passes starts a transaction; [Committed] and [NotCommitted] are answered only with
    proof, where proof of no commit rules the transaction out for good; a known failure means that
    no commit occurred; an unknown outcome or an error means nothing. *)

From S2P Require Import Prelude.
From S2P Require Import CommandModel.
From S2P Require Import CommandTheory.
From S2P Require Import ActorModel.
From S2P Require Import ActorLogic.
From S2P Require Import EffectContract.
Local Open Scope Z_scope.

(** ** Target transactions *)

(** A transaction in flight may still land; landed and dead ones stay so. *)
Inductive Fate := InFlight | Landed | Dead.

(** One execution of [commit]: which attempt of which operation it runs. *)
Record Invocation := mk_Invocation {
  inv_operation : OperationId;
  inv_attempt : Z;
  inv_fate : Fate
}.

Record World (J : Type) := mk_World {
  w_journal : J;
  w_invocations : list Invocation;
  w_closed : list (OperationId * Z);   (* attempts proved not to commit, now or later *)
  w_actors : list Actor
}.
Arguments mk_World {J} _ _ _ _.
Arguments w_journal {J} _.
Arguments w_invocations {J} _.
Arguments w_closed {J} _.
Arguments w_actors {J} _.

Definition landed (l : list Invocation) (i : nat) (op : OperationId) (a : Z) : Prop :=
  l !! i = Some (mk_Invocation op a Landed).

(** ** Answers of the effect port *)

Definition prepare_answers (r : CommandRecord) (owner : ExecutionOwner) (context : ReductionContext)
    (x : result PrepareEffectOutcome CommandPortError) : Prop :=
  match executing_attempt r owner context (routed_kind r) with
  | Ok _ => True
  | Err e => x = Err e
  end.

(** [commit] answers for its invocation [v]. *)
Definition commit_answers (v : Invocation) (x : result CommitEffectOutcome CommandPortError) : Prop :=
  match x with
  | Ok (Committed _) => inv_fate v = Landed
  | Ok (CommitKnownFailure _) => inv_fate v = Dead
  | Ok (CommitUnknown _) | Err _ => True
  end.

Definition reconcile_answers (l : list Invocation) (closed : list (OperationId * Z))
    (r : CommandRecord) (owner : ExecutionOwner) (transaction : TransactionRef)
    (context : ReductionContext) (x : result ReconciliationObservation CommandPortError) : Prop :=
  match reconciliation_attempt r owner transaction context (routed_kind r) with
  | Err e => x = Err e
  | Ok recovery =>
      let a := va_attempt (vr_attempt recovery) in
      match x with
      | Ok (ObservedCommitted _ _) => exists i, landed l i (record_operation r) a
      | Ok (ObservedNotCommitted _) => (record_operation r, a) ∈ closed
      | Ok (ObservedIndeterminate _) | Err _ => True
      end
  end.

Section world.
Context {J : Type} `{DurableCommandRecordPort J}.

(** A call other than a commit that starts: its answer [x], the journal and the gate afterwards.
    Contexts and diagnostics are read from sources outside and may be anything. *)
Definition served (w : World J) (g : bool) (c : PortCall) : answer c -> J -> bool -> Prop :=
  match c return answer c -> J -> bool -> Prop with
  | Records c => fun x j' g' => handles (w_journal w) c x j' /\ g' = g
  | Contexts _ => fun _ j' g' => j' = w_journal w /\ g' = g
  | Effects (PrepareEffect r o ctx) => fun x j' g' =>
      j' = w_journal w /\ g' = g /\ prepare_answers r o ctx x
  | Effects (CommitEffect r o t ctx) => fun x j' g' =>
      j' = w_journal w /\ g' = g
      /\ exists e, prepared_attempt r o t ctx (routed_kind r) = Err e /\ x = Err e
  | Effects (ReconcileEffect r o t ctx) => fun x j' g' =>
      j' = w_journal w /\ g' = g /\ reconcile_answers (w_invocations w) (w_closed w) r o t ctx x
  | Gate GateIsOpen => fun x j' g' => x = g /\ j' = w_journal w /\ g' = g
  | Gate GateOpen => fun _ j' g' => j' = w_journal w /\ g' = true
  | Gate GateClose => fun _ j' g' => j' = w_journal w /\ g' = false
  | Runtime _ => fun _ j' g' => j' = w_journal w /\ g' = g
  end.

Definition set_actor (w : World J) (i : nat) (a : Actor) : World J :=
  mk_World (w_journal w) (w_invocations w) (w_closed w) (<[i := a]> (w_actors w)).
Definition set_journal (w : World J) (j : J) : World J :=
  mk_World j (w_invocations w) (w_closed w) (w_actors w).
Definition set_fate (w : World J) (n : nat) (v : Invocation) (f : Fate) : World J :=
  mk_World (w_journal w)
    (<[n := mk_Invocation (inv_operation v) (inv_attempt v) f]> (w_invocations w))
    (w_closed w) (w_actors w).

Inductive step (lease : bool) (w : World J) : World J -> Prop :=
| st_spawn capacity id :
    (lease = true -> Forall (fun a => is_stopped (a_task a) = true) (w_actors w)) ->
    step lease w (mk_World (w_journal w) (w_invocations w) (w_closed w)
                    (w_actors w ++ [spawn_closed capacity id]))
| st_send i a a' m :
    w_actors w !! i = Some a -> try_send a m = Ok a' -> step lease w (set_actor w i a')
| st_close_gate i a :
    w_actors w !! i = Some a -> step lease w (set_actor w i (with_gate a false))
| st_receive i a a' :
    w_actors w !! i = Some a -> receive a = Some a' -> step lease w (set_actor w i a')
| st_call i a c k x j' g' :
    w_actors w !! i = Some a -> a_task a = Running (Ask c k) -> served w (a_gate a) c x j' g' ->
    step lease w (set_journal (set_actor w i (with_task (with_gate a g') (Running (k x)))) j')
| st_commit i a r o t ctx k v :
    w_actors w !! i = Some a ->
    a_task a = Running (Ask (Effects (CommitEffect r o t ctx)) k) ->
    prepared_attempt r o t ctx (routed_kind r) = Ok v ->
    step lease w
      (mk_World (w_journal w)
         (w_invocations w ++ [mk_Invocation (record_operation r) (va_attempt v) InFlight])
         (w_closed w)
         (<[i := with_task a (Committing (length (w_invocations w)) k)]> (w_actors w)))
| st_committed i a n k v x :
    w_actors w !! i = Some a -> a_task a = Committing n k -> w_invocations w !! n = Some v ->
    commit_answers v x -> step lease w (set_actor w i (with_task a (Running (k x))))
| st_reply i a reply :
    w_actors w !! i = Some a -> a_task a = Running (Ret reply) ->
    step lease w (set_actor w i (finish a reply))
| st_crash i a :
    w_actors w !! i = Some a -> step lease w (set_actor w i (with_task (with_mailbox a []) Stopped))
| st_land n v :
    w_invocations w !! n = Some v -> inv_fate v = InFlight ->
    (inv_operation v, inv_attempt v) ∉ w_closed w -> step lease w (set_fate w n v Landed)
| st_die n v :
    w_invocations w !! n = Some v -> inv_fate v = InFlight -> step lease w (set_fate w n v Dead)
| st_rule_out op a :
    (forall n, ~ landed (w_invocations w) n op a) ->
    step lease w (mk_World (w_journal w) (w_invocations w) ((op, a) :: w_closed w) (w_actors w)).

(** Nothing has happened yet: the journal holds no record. *)
Definition initial (w : World J) : Prop :=
  journal_ok (w_journal w) /\ contents (w_journal w) = ∅
  /\ w_invocations w = [] /\ w_closed w = [] /\ w_actors w = [].

Definition reachable (lease : bool) (w : World J) : Prop :=
  exists w0, initial w0 /\ rtc (step lease) w0 w.

(** A property of the initial worlds that every step preserves holds in every reachable world. *)
Lemma reachable_ind (lease : bool) (I : World J -> Prop) :
  (forall w, initial w -> I w) -> (forall w w', I w -> step lease w w' -> I w') ->
  forall w, reachable lease w -> I w.
Proof.
  intros Hi Hs w (w0 & H0 & Hr). apply Hi in H0.
  induction Hr as [|w w1 w2 H1 _ IH]; [done|]. eauto.
Qed.
End world.
