(* ===== verification/ActorKnowledge.v ===== *)
(** What an actor may rely on. A handler carries the evidence its ports have given it and, after it
    has durably stored [CommitPrepared] itself, the licence to commit that attempt once. Every
    handler only swaps records it has evidence for and only commits under a licence. *)

From stdpp Require Import sorting.
From S2P Require Import Prelude.
From S2P Require Import CommandModel.
From S2P Require Import CommandTheory.
From S2P Require Import ActorModel.
From S2P Require Import ActorLogic.
From S2P Require Import EffectContract.
Local Open Scope Z_scope.

(** ** Evidence and licences *)

(** An attempt of an operation. *)
Abbreviation Attempt := (OperationId * Z)%type.

(** A commit of the attempt died; one landed; none can land any more. *)
Inductive Evidence :=
| SomeDead (a : Attempt)
| SomeLanded (a : Attempt)
| RuledOut (a : Attempt).

Record Knowledge := mk_Knowledge {
  licence : option Attempt;
  evidence : list Evidence
}.

Definition knows_nothing : Knowledge := mk_Knowledge None [].

(** The evidence that a change of state from [s] to [s'] needs. *)
Definition needs (op : OperationId) (s s' : DurableCommandState) : option Evidence :=
  match s, s' with
  | StateCommitPrepared a _ _, StateSucceeded _ _ _
  | StateAwaitingReconciliation a _ _ _ _ _ _, StateSucceeded _ _ _ => Some (SomeLanded (op, a))
  | StateCommitPrepared a _ _, (StateFailed _ | StateRetryReady _ _ _) => Some (SomeDead (op, a))
  | StateAwaitingReconciliation a _ _ _ _ _ _, StateRetryReady _ _ _ => Some (RuledOut (op, a))
  | _, _ => None
  end.

Definition has (E : list Evidence) (need : option Evidence) : Prop :=
  match need with Some e => e ∈ E | None => True end.

(** A swap that follows the reducer's transition relation, with the evidence it needs. *)
Definition justified (E : list Evidence) (t : ReducerTransition) : Prop :=
  let r := predecessor t in
  let r' := successor t in
  command r' = command r /\ revision r' = revision r + 1 /\ revision r' <= u64_max
  /\ (exists e, moves (command r) (state r) e (state r'))
  /\ has E (needs (record_operation r) (state r) (state r')).

(** Storing [CommitPrepared] is what licenses a commit. *)
Definition grant (r : CommandRecord) (l : option Attempt) : option Attempt :=
  match state r with
  | StateCommitPrepared a _ _ => Some (record_operation r, a)
  | _ => l
  end.

Definition learned_commit (x : Attempt) (ans : result CommitEffectOutcome CommandPortError)
    (E : list Evidence) : list Evidence :=
  match ans with
  | Ok (Committed _) => SomeLanded x :: E
  | Ok (CommitKnownFailure _) => SomeDead x :: E
  | Ok (CommitUnknown _) | Err _ => E
  end.

Definition learned_reconcile (r : CommandRecord)
    (ans : result ReconciliationObservation CommandPortError) (E : list Evidence)
  : list Evidence :=
  match state r, ans with
  | StateAwaitingReconciliation a _ _ _ _ _ _, Ok (ObservedCommitted _ _) =>
      SomeLanded (record_operation r, a) :: E
  | StateAwaitingReconciliation a _ _ _ _ _ _, Ok (ObservedNotCommitted _) =>
      RuledOut (record_operation r, a) :: E
  | _, _ => E
  end.

(** The protocol of one actor. *)
Definition knowledge_allows (K : Knowledge) (c : PortCall) : Prop :=
  match c with
  | Records (InsertIfAbsent r) => state r = StateAdmitted 1 /\ revision r = 0
  | Records (CompareAndSwap t) => justified (evidence K) t
  | Effects (CommitEffect r o t _) =>
      exists a, state r = StateCommitPrepared a o t /\ licence K = Some (record_operation r, a)
  | _ => True
  end.

Definition knowledge_answers (K : Knowledge) (c : PortCall) : answer c -> Knowledge -> Prop :=
  match c return answer c -> Knowledge -> Prop with
  | Records (CompareAndSwap t) => fun x K' =>
      match x with
      | Ok (Stored s) =>
          s = successor t /\ K' = mk_Knowledge (grant (successor t) (licence K)) (evidence K)
      | _ => K' = K
      end
  | Effects (CommitEffect r _ _ _) => fun x K' =>
      exists a, licence K = Some a /\ K' = mk_Knowledge None (learned_commit a x (evidence K))
  | Effects (ReconcileEffect r _ _ _) => fun x K' =>
      K' = mk_Knowledge (licence K) (learned_reconcile r x (evidence K))
  | _ => fun _ K' => K' = K
  end.

Definition knowledge_protocol : Protocol Knowledge := mk_Protocol knowledge_allows knowledge_answers.

Abbreviation careful p K Φ := (obeys knowledge_protocol p K Φ).

(** ** Transitions *)

(** The event turns the record into [r'], or leaves it as it is. *)
Definition advances (r : CommandRecord) (e : CommandEvent) (r' : CommandRecord) : Prop :=
  command r' = command r
  /\ (r' = r /\ replays (command r) (state r) e
      \/ moves (command r) (state r) e (state r') /\ revision r' = revision r + 1).

Lemma advances_operation r e r' : advances r e r' -> record_operation r' = record_operation r.
Proof. intros [Hc _]. unfold record_operation. by rewrite Hc. Qed.

Lemma careful_read_context {B} r (f : ReductionContext -> actor_prog B) K Φ :
  (forall e, Φ (Err e) K) -> (forall c, careful (f c) K Φ) ->
  careful (try_bind (port (read_reduction_context r)) f) K Φ.
Proof.
  intros He Hf. prog_ask; [done|]. intros [c|e] K' ->; prog_simpl; auto.
Qed.

(** What a transition leaves: its record advanced, and the licence if it stored [CommitPrepared]. *)
Definition transitioned (r : CommandRecord) (e : CommandEvent) (K : Knowledge)
    (x : result CommandRecord FabricCommandActorError) (K' : Knowledge) : Prop :=
  match x with
  | Ok r' =>
      command r' = command r
      /\ (r' = r /\ replays (command r) (state r) e /\ K' = K
          \/ moves (command r) (state r) e (state r')
             /\ K' = mk_Knowledge (grant r' (licence K)) (evidence K))
  | Err _ => True
  end.

Lemma careful_swap r e s' eff K :
  moves (command r) (state r) e s' -> revision r + 1 <= u64_max ->
  has (evidence K) (needs (record_operation r) (state r) s') ->
  let r' := mk_CommandRecord (command r) s' (revision r + 1) in
  careful
    (await? write := port (compare_and_swap (mk_ReducerTransition r r' eff)) in
     match write with
     | Stored stored =>
         if bool_decide (stored = r') then Ret (Ok stored) else Ret (Err DurableTransitionMismatch)
     | RevisionConflicted observed =>
         Ret (Err (RevisionConflict (revision r) (revision <$> observed)))
     end)%prog K (transitioned r e K).
Proof.
  intros Hm Hr Hneed r'. prog_ask.
  - simpl. unfold justified; simpl. split_and!; [done|done|done|by exists e|done].
  - intros [[s|o]|err] K'; simpl; [intros [-> ->]|done|done].
    rewrite bool_decide_eq_true_2 by done. simpl. auto 10.
Qed.

Lemma careful_transition r e K :
  (forall s', moves (command r) (state r) e s' ->
     has (evidence K) (needs (record_operation r) (state r) s')) ->
  careful (actor_transition r e) K (transitioned r e K).
Proof.
  intros Hneed. apply careful_read_context; [done|]. intros c. apply obeys_reduced; [done|].
  intros red Hred. apply reduce_spec in Hred as [(s' & Hm & _ & Hr & ->)|(Hp & _ & ->)]; cycle 1.
  { simpl. auto 10. }
  unfold material_reduction; simpl.
  destruct (event_effect e) eqn:He; simpl;
    try rewrite !(bool_decide_eq_true_2 _ eq_refl); simpl;
    [apply careful_swap; auto| |apply careful_swap; auto].
  by destruct e as [| | | | |? ? []|].
Qed.

Lemma careful_validate r e K :
  careful (validate_idempotent r e) K (fun x K' => K' = K).
Proof.
  apply careful_read_context; [done|]. intros c. apply obeys_reduced; [done|].
  intros red _. by destruct (negb _ || negb _)%bool.
Qed.

(** ** Handlers *)

(** Events that need no evidence wherever they apply. *)
Lemma start_needs_nothing cmd s o s' op E : moves cmd s (EvStart o) s' -> has E (needs op s s').
Proof. inversion 1; done. Qed.
Lemma cancel_needs_nothing cmd s o c s' op E :
  moves cmd s (EvCancelBeforeCommit o c) s' -> has E (needs op s s').
Proof. inversion 1; done. Qed.
Lemma unknown_needs_nothing cmd s o t u s' op E :
  moves cmd s (EvReportUnknownCommit o t u) s' -> has E (needs op s s').
Proof. inversion 1; done. Qed.
Lemma executing_needs_nothing a o s' op E : has E (needs op (StateExecuting a o) s').
Proof. done. Qed.
#[local] Hint Resolve start_needs_nothing cancel_needs_nothing unknown_needs_nothing : core.

(** The outcome of the commit is recorded with the evidence it gave. *)
Lemma careful_outcome r a o t x K :
  state r = StateCommitPrepared a o t ->
  let event := match x with
               | Committed res => EvConfirmCommit o t res
               | CommitKnownFailure failure => EvReportKnownFailure o failure
               | CommitUnknown unknown => EvReportUnknownCommit o t unknown
               end in
  let K' := mk_Knowledge None (learned_commit (record_operation r, a) (Ok x) (evidence K)) in
  careful (actor_transition r event) K' (transitioned r event K').
Proof.
  intros Hs event K'. apply careful_transition. intros s' Hm. subst event. rewrite Hs in *.
  destruct x; inversion Hm; subst; simpl; set_solver.
Qed.

Lemma careful_commit_prepared r a o t K :
  state r = StateExecuting a o -> careful (commit_prepared r o t) K (fun _ _ => True).
Proof.
  intros Hs. apply obeys_try. eapply obeys_mono; [apply careful_transition; rewrite Hs; done|].
  intros [r1|e] K1; [|done].
  intros (Hc & [(-> & Hp & _)|[Hm ->]]); [rewrite Hs in Hp; inversion Hp|].
  rewrite Hs in Hm. assert (Hs1 : state r1 = StateCommitPrepared a o t) by (inversion Hm; congruence).
  apply obeys_try. eapply obeys_mono; [apply careful_validate|]. intros [c|e] K2; [intros ->|done].
  unfold grant. rewrite Hs1. prog_ask; [by exists a|].
  intros x K' (x' & [= <-] & ->). destruct x as [x|]; prog_simpl; [|done].
  eapply obeys_mono; [by apply (careful_outcome r1 a o t x (mk_Knowledge None (evidence K)))|done].
Qed.

Lemma careful_execute_started r a o K :
  state r = StateExecuting a o -> careful (execute_started r o) K (fun _ _ => True).
Proof.
  intros Hs. apply obeys_try. eapply obeys_mono; [apply careful_validate|].
  intros [c|e] K1; [intros ->|done]. prog_ask; [done|].
  intros x K' ->. destruct x as [[t|f|c']|e]; prog_simpl; [by eapply careful_commit_prepared| | |done];
    (eapply obeys_mono; [apply careful_transition; rewrite Hs; done|done]).
Qed.

(** Starting a record and running it. *)
Lemma careful_start r o K :
  careful (await? started := actor_transition r (EvStart o) in execute_started started o)%prog
    K (fun _ _ => True).
Proof.
  apply obeys_try. eapply obeys_mono; [apply careful_transition; eauto|].
  intros [r1|e] K1; [|done]. intros (_ & [(-> & Hp & _)|[Hm _]]).
  - inversion Hp; subst. by eapply careful_execute_started.
  - inversion Hm; subst; by eapply careful_execute_started.
Qed.

Lemma careful_submit self cmd K : careful (process_submit self cmd) K (fun _ _ => True).
Proof.
  unfold process_submit. prog_ask; [done|]. intros [[r|]|e] K' ->; prog_simpl; [done| |done].
  prog_ask; [done|]. intros [c|e] K' ->; prog_simpl; [|done].
  apply obeys_reduced; [done|]. intros [r|r] Ha; [|done].
  apply admitted_record in Ha as ->. prog_ask; [done|]. intros [[r|r]|e] K' ->; prog_simpl; [|done|done].
  case_bool_decide; prog_simpl; [|done]. apply careful_start.
Qed.

Lemma careful_find op (f : CommandRecord -> actor_prog CommandRecord) K :
  (forall r, careful (f r) K (fun _ _ => True)) ->
  careful (try_bind (find_operation op) f) K (fun _ _ => True).
Proof.
  intros Hf. apply obeys_try. prog_ask; [done|]. intros [[r|]|e] K' ->; prog_simpl; auto.
Qed.

Ltac forget := eapply obeys_mono; [|done].

Lemma careful_cancel self op c K : careful (process_cancel self op c) K (fun _ _ => True).
Proof.
  apply careful_find. intros r. apply careful_read_context; [done|]. intros ctx. apply obeys_try.
  apply obeys_mono with (fun _ _ => True); cycle 1.
  - intros [r1|e] K1 _; [|done]. forget. apply careful_transition. eauto.
  - destruct (state r); try done. case_bool_decide; prog_simpl; [done|].
    forget. apply careful_transition. eauto.
Qed.

Lemma careful_reconcile self op K : careful (process_reconcile self op) K (fun _ _ => True).
Proof.
  apply careful_find. intros r. destruct (state r) eqn:Hs; try done.
  apply careful_read_context; [done|]. intros ctx. prog_ask; [done|].
  intros [x|e] K' ->; prog_simpl; [|done]. forget. apply careful_transition.
  intros s' Hm. unfold learned_reconcile. rewrite Hs in *. inversion Hm; subst; simpl; set_solver.
Qed.

Lemma careful_message self m K : careful (handle_message self m) K (fun _ _ => True).
Proof.
  destruct m as [cmd|op c|op|op|op|op u| |]; cbn [handle_message]; try apply obeys_bind.
  - prog_ask; [done|]. intros b K' ->. prog_simpl. apply obeys_bind.
    apply obeys_mono with (fun _ _ => True).
    + destruct b; [apply careful_submit|done].
    + intros x K' _. destruct (recovery_required x); simpl; auto.
  - apply careful_cancel.
  - apply careful_reconcile.
  - apply careful_find. intros r. destruct (state r); try done.
    apply careful_read_context; [done|]. intros ctx. cbv zeta. case_match; [done|].
    apply careful_start.
  - apply careful_find. intros r. destruct (state r); try done;
      (apply careful_read_context; [done|]; intros ctx; apply careful_start).
  - apply careful_find. intros r. destruct (state r); try done.
    apply careful_read_context; [done|]. intros ctx. forget. apply careful_transition. eauto.
  - prog_ask; [done|]. intros u K' ->. prog_simpl. prog_ask; [done|].
    intros [[r|]|e] K' ->; prog_simpl; [by destruct (recovery_obligation r)|by prog_ask|done].
  - done.
Qed.
