(* ===== verification/ActorSafety.v ===== *)
(** Commands take effect at most once. The ledger of a world relates what is stored for a command
    to the transactions started for it: how many commits an attempt has used or may still use, and
    which attempts are quiet, that is, can no longer land. Every step of every actor keeps it. *)

From stdpp Require Import sorting.
From S2P Require Import Prelude.
From S2P Require Import CommandModel.
From S2P Require Import CommandTheory.
From S2P Require Import ActorModel.
From S2P Require Import ActorLogic.
From S2P Require Import EffectContract.
From S2P Require Import ActorKnowledge.
From S2P Require Import ActorWorld.
Local Open Scope Z_scope.

#[export] Instance Fate_eq_dec : EqDecision Fate.
Proof. solve_decision. Defined.

(** ** The ledger *)

Definition inv_key (v : Invocation) : Attempt := (inv_operation v, inv_attempt v).

Lemma inv_key_eq v op a : inv_key v = (op, a) -> v = mk_Invocation op a (inv_fate v).
Proof. destruct v. unfold inv_key. simpl. by intros [= -> ->]. Qed.

Section ledger.
(** The invocations, the attempts ruled out, and the licences the actors hold. *)
Implicit Types (l : list Invocation) (C : list Attempt) (L : list (option Attempt)).

(** Commits of [x] that were started or may still be started. *)
Definition uses l L (x : Attempt) : nat := (occ x (inv_key <$> l) + occ (Some x) L)%nat.

(** [x] has not landed and cannot land any more. *)
Definition quiet l C L (x : Attempt) : Prop :=
  (forall v, v ∈ l -> inv_key v = x -> inv_fate v <> Landed /\ (inv_fate v = InFlight -> x ∈ C))
  /\ (Some x ∈ L -> x ∈ C).

Definition has_fate l (x : Attempt) (f : Fate) : Prop := mk_Invocation x.1 x.2 f ∈ l.

(** Attempts before [a] are quiet; those from [a] on were never started. *)
Definition quiet_below l C L (op : OperationId) (a : Z) : Prop := forall a', a' < a -> quiet l C L (op, a').
Definition unused_from l L (op : OperationId) (a : Z) : Prop := forall a', a <= a' -> uses l L (op, a') = 0%nat.

(** What the stored state of an operation says about its transactions. *)
Definition status l C L (op : OperationId) (s : DurableCommandState) : Prop :=
  match s with
  | StateAdmitted a | StateExecuting a _ | StateRetryReady a _ _ =>
      quiet_below l C L op a /\ unused_from l L op a
  | StateCommitPrepared a _ _ | StateAwaitingReconciliation a _ _ _ _ _ _ =>
      quiet_below l C L op a /\ (uses l L (op, a) <= 1)%nat /\ unused_from l L op (a + 1)
  | StateSucceeded _ _ _ =>
      exists a, has_fate l (op, a) Landed /\ (uses l L (op, a) <= 1)%nat
                /\ forall a', a' <> a -> quiet l C L (op, a')
  | StateFailed _ | StateCancelled _ => forall a, quiet l C L (op, a)
  end.

Lemma key_elem l v : v ∈ l -> inv_key v ∈ inv_key <$> l.
Proof. intros Hv. apply list_elem_of_fmap. eauto. Qed.

Lemma unused_quiet l C L x : uses l L x = 0%nat -> quiet l C L x.
Proof.
  unfold uses. intros Hu. assert (x ∉ inv_key <$> l) as Hl by (apply occ_zero; lia).
  assert (Some x ∉ L) as HL by (apply occ_zero; lia). split; [|done].
  intros v Hv <-. destruct Hl. by apply key_elem.
Qed.

(** Two commits of one attempt would be two uses. *)
Lemma single_use l L x i j v v' :
  (uses l L x <= 1)%nat -> l !! i = Some v -> l !! j = Some v' -> inv_key v = x -> inv_key v' = x -> i = j.
Proof.
  intros Hu Hi Hj Hv Hv'. destruct (decide (i = j)) as [|Hij]; [done|].
  assert (2 <= occ x (inv_key <$> l))%nat; [|unfold uses in Hu; lia].
  apply (occ_two x _ i j Hij); rewrite list_lookup_fmap; [rewrite Hi|rewrite Hj]; simpl; congruence.
Qed.

(** *** Fewer licences, more attempts ruled out *)

Definition calmer (op : OperationId) L L' : Prop :=
  forall a, (occ (Some (op, a)) L' <= occ (Some (op, a)) L)%nat.

Lemma quiet_mono l C C' L L' op a :
  calmer op L L' -> (forall x, x ∈ C -> x ∈ C') -> quiet l C L (op, a) -> quiet l C' L' (op, a).
Proof.
  intros HL HC [Hl HL']. split; [naive_solver|]. intros Hin. apply HC, HL'.
  destruct (decide (Some (op, a) ∈ L)) as [|Hn]; [done|]. apply occ_zero in Hn.
  specialize (HL a). assert (occ (Some (op, a)) L' = 0%nat) as H0 by lia.
  by apply occ_zero in H0.
Qed.

Lemma uses_mono l L L' op a : calmer op L L' -> (uses l L' (op, a) <= uses l L (op, a))%nat.
Proof. intros HL. specialize (HL a). unfold uses. lia. Qed.

Lemma unused_mono l L L' op a : calmer op L L' -> unused_from l L op a -> unused_from l L' op a.
Proof. intros HL Hu a' Ha. pose proof (uses_mono l L L' op a' HL). specialize (Hu a' Ha). lia. Qed.

Lemma status_mono l C C' L L' op s :
  calmer op L L' -> (forall x, x ∈ C -> x ∈ C') -> status l C L op s -> status l C' L' op s.
Proof.
  intros HL HC. assert (forall a, quiet l C L (op, a) -> quiet l C' L' (op, a)) as Hq.
  { intros a. by apply quiet_mono. }
  pose proof (fun a => uses_mono l L L' op a HL) as Hu.
  destruct s; simpl; unfold quiet_below; try solve [auto].
  - intros [? ?]. split; [auto|]. by eapply unused_mono.
  - intros [? ?]. split; [auto|]. by eapply unused_mono.
  - intros (? & Hx & ?). split_and!; [auto| |by eapply unused_mono]. specialize (Hu attempt). lia.
  - intros (? & Hx & ?). split_and!; [auto| |by eapply unused_mono]. specialize (Hu attempt). lia.
  - intros [? ?]. split; [auto|]. by eapply unused_mono.
  - intros (a & ? & Hx & ?). exists a. split_and!; [done| |auto]. specialize (Hu a). lia.
Qed.

(** A map of the uses and of quietness from one ledger to another carries the status over. *)
Lemma status_transfer l l' C L L' op s :
  (forall a, quiet l C L (op, a) -> quiet l' C L' (op, a)) ->
  (forall a, uses l' L' (op, a) = uses l L (op, a)) ->
  (forall a, has_fate l (op, a) Landed -> has_fate l' (op, a) Landed) ->
  status l C L op s -> status l' C L' op s.
Proof.
  intros Hq Hu Hl. destruct s; simpl; unfold quiet_below, unused_from; try solve [auto].
  all: try (intros [? Hf]; split; [auto|]; intros a' Ha; rewrite Hu; auto; fail).
  - intros (? & Hx & Hf). split_and!; [auto|by rewrite Hu|]. intros a' Ha. rewrite Hu. auto.
  - intros (? & Hx & Hf). split_and!; [auto|by rewrite Hu|]. intros a' Ha. rewrite Hu. auto.
  - intros (a & ? & Hx & ?). exists a. split_and!; [auto|by rewrite Hu|auto].
Qed.

(** *** A transaction lands or dies *)

Definition refate (v : Invocation) (f : Fate) : Invocation :=
  mk_Invocation (inv_operation v) (inv_attempt v) f.

Lemma keys_refate l n v f : l !! n = Some v -> inv_key <$> <[n := refate v f]> l = inv_key <$> l.
Proof.
  intros Hn. rewrite list_fmap_insert. apply list_insert_id. by rewrite list_lookup_fmap, Hn.
Qed.

Lemma has_fate_refate l n v f x g :
  l !! n = Some v -> inv_fate v = InFlight -> g <> InFlight ->
  has_fate l x g -> has_fate (<[n := refate v f]> l) x g.
Proof.
  intros Hn Hv Hg Hx. unfold has_fate in *. apply list_elem_of_lookup in Hx as [i Hi].
  apply list_elem_of_lookup. exists i. rewrite list_lookup_insert_ne; [done|].
  intros ->. rewrite Hn in Hi. injection Hi as ->. done.
Qed.

Lemma elem_refate l n v f v' : v' ∈ <[n := refate v f]> l -> v' ∈ l \/ v' = refate v f.
Proof.
  intros Hv. apply list_elem_of_lookup in Hv as [i Hi].
  apply list_lookup_insert_Some in Hi as [(-> & -> & _)|[_ Hi]]; [by right|].
  left. by eapply list_elem_of_lookup_2.
Qed.

Lemma quiet_refate l C L n v f x :
  l !! n = Some v -> inv_fate v = InFlight -> f <> InFlight -> (f = Landed -> inv_key v ∉ C) ->
  quiet l C L x -> quiet (<[n := refate v f]> l) C L x.
Proof.
  intros Hn Hv Hf HC [Hq HL]. split; [|done]. intros v' Hv' Hx.
  apply elem_refate in Hv' as [Hv'| ->]; [auto|]. simpl. split; [|done]. intros ->.
  apply list_elem_of_lookup_2 in Hn. change (inv_key v = x) in Hx. subst x.
  apply HC; [done|]. by apply (Hq v Hn eq_refl).
Qed.

Lemma status_refate l C L n v f op s :
  l !! n = Some v -> inv_fate v = InFlight -> f <> InFlight -> (f = Landed -> inv_key v ∉ C) ->
  status l C L op s -> status (<[n := refate v f]> l) C L op s.
Proof.
  intros Hn Hv Hf HC. apply status_transfer.
  - intros a. by apply quiet_refate.
  - intros a. unfold uses. by rewrite (keys_refate l n v f Hn).
  - intros a. by apply has_fate_refate.
Qed.

(** *** A licence is used *)

Lemma uses_commit l L i x y :
  L !! i = Some (Some x) ->
  uses (l ++ [mk_Invocation x.1 x.2 InFlight]) (<[i := None]> L) y = uses l L y.
Proof.
  intros Hi. destruct x as [op a]. unfold uses. rewrite fmap_app, occ_app. simpl.
  rewrite (occ_cons y _ []). assert (occ y [] = 0%nat) as -> by done.
  change (inv_key (mk_Invocation op a InFlight)) with (op, a).
  pose proof (occ_insert (Some y) L i (Some (op, a)) None Hi) as Ho.
  rewrite (decide_False (P := Some y = None)) in Ho by done.
  destruct (decide (y = (op, a))) as [->|Hn];
    [rewrite (decide_True (P := Some (op, a) = Some (op, a))) in Ho by done
    |rewrite (decide_False (P := Some y = Some (op, a))) in Ho by congruence]; lia.
Qed.

Lemma quiet_commit l C L i x y :
  L !! i = Some (Some x) -> quiet l C L y ->
  quiet (l ++ [mk_Invocation x.1 x.2 InFlight]) C (<[i := None]> L) y.
Proof.
  intros Hi [Hq HL]. split.
  - intros v Hv Hy. apply elem_of_app in Hv as [Hv|Hv]; [auto|].
    apply list_elem_of_singleton in Hv as ->. simpl. split; [done|]. intros _.
    unfold inv_key in Hy. simpl in Hy. rewrite <- (surjective_pairing x) in Hy. subst y.
    apply HL. by eapply list_elem_of_lookup_2.
  - intros Hin. apply HL. apply list_elem_of_lookup in Hin as [j Hj].
    apply list_lookup_insert_Some in Hj as [(_ & ? & _)|[_ Hj]]; [done|].
    by eapply list_elem_of_lookup_2.
Qed.

Lemma status_commit l C L i x op s :
  L !! i = Some (Some x) -> status l C L op s ->
  status (l ++ [mk_Invocation x.1 x.2 InFlight]) C (<[i := None]> L) op s.
Proof.
  intros Hi. apply status_transfer.
  - intros a. by apply quiet_commit.
  - intros a. by apply uses_commit.
  - intros a. unfold has_fate. set_solver.
Qed.

(** *** The stored state moves *)

Definition holds l C (e : Evidence) : Prop :=
  match e with
  | SomeDead x => has_fate l x Dead
  | SomeLanded x => has_fate l x Landed
  | RuledOut x => x ∈ C
  end.

(** The only use of an attempt died: it is quiet. *)
Lemma dead_quiet l C L x : (uses l L x <= 1)%nat -> has_fate l x Dead -> quiet l C L x.
Proof.
  intros Hu Hd. apply list_elem_of_lookup in Hd as [i Hi].
  assert (x = inv_key (mk_Invocation x.1 x.2 Dead)) as Hx by (by destruct x). split.
  - intros v Hv Hk. apply list_elem_of_lookup in Hv as [j Hj].
    assert (i = j) as <- by (by eapply single_use). rewrite Hi in Hj. by injection Hj as <-.
  - intros Hin. exfalso. apply occ_elem in Hin. apply list_elem_of_lookup_2, key_elem, occ_elem in Hi.
    rewrite <- Hx in Hi. unfold uses in Hu. lia.
Qed.

(** A ruled-out attempt that has not landed twice is quiet, unless it had landed. *)
Lemma ruled_out_quiet l C L x :
  x ∈ C -> ~ has_fate l x Landed -> quiet l C L x.
Proof.
  intros HC Hn. split; [|done]. intros v Hv Hk. split; [|done]. intros Hf. apply Hn.
  unfold has_fate. destruct x as [op a]. apply inv_key_eq in Hk. rewrite Hf in Hk. by subst v.
Qed.

(** Extending a quiet prefix by one attempt. *)
Lemma quiet_below_succ l C L op a :
  quiet_below l C L op a -> quiet l C L (op, a) -> quiet_below l C L op (a + 1).
Proof. intros Hb Hq a' Ha. destruct (decide (a' = a)) as [->|]; [done|]. apply Hb. lia. Qed.

Lemma all_quiet l C L op a :
  quiet_below l C L op a -> unused_from l L op a -> forall a', quiet l C L (op, a').
Proof.
  intros Hb Hu a'. destruct (decide (a' < a)); [by apply Hb|]. apply unused_quiet, Hu. lia.
Qed.

Lemma others_quiet l C L op a :
  quiet_below l C L op a -> unused_from l L op (a + 1) -> forall a', a' <> a -> quiet l C L (op, a').
Proof.
  intros Hb Hu a' Hn. destruct (decide (a' < a)); [by apply Hb|]. apply unused_quiet, Hu. lia.
Qed.

Lemma unused_from_succ l L op a : unused_from l L op a -> unused_from l L op (a + 1).
Proof. intros Hu a' Ha. apply Hu. lia. Qed.

(** Every rule of the transition relation keeps the status, given the evidence it needs. Attempts
    ruled out have not landed ([Hout]). *)
Lemma status_moves l C L op cmd s e s' :
  (forall x, x ∈ C -> ~ has_fate l x Landed) ->
  moves cmd s e s' -> (forall ev, needs op s s' = Some ev -> holds l C ev) ->
  status l C L op s -> status l C L op s'.
Proof.
  intros Hout Hm Hneed. destruct Hm; simpl in *; intros Hs; destruct_and?;
    try (specialize (Hneed _ eq_refl); simpl in Hneed); try done;
    eauto using all_quiet, quiet_below_succ, unused_quiet, unused_from_succ.
  - split_and!; [done| |by apply unused_from_succ].
    match goal with Hu : unused_from _ _ _ _ |- _ => rewrite (Hu a (Z.le_refl a)); lia end.
  - eauto 10 using others_quiet.
  - eapply all_quiet; [apply quiet_below_succ; eauto using dead_quiet|done].
  - split; [apply quiet_below_succ; eauto using dead_quiet|done].
  - eauto 10 using others_quiet.
  - split; [apply quiet_below_succ; eauto using ruled_out_quiet|done].
Qed.

(** Storing [CommitPrepared] hands out the licence. *)
Lemma status_grant l C L i old op a o t :
  L !! i = Some old -> status l C L op (StateExecuting a o) ->
  status l C (<[i := Some (op, a)]> L) op (StateCommitPrepared a o t).
Proof.
  intros Hi [Hb Hu]. simpl.
  assert (Hcalm : forall a', a' <> a -> (occ (Some (op, a')) (<[i := Some (op, a)]> L)
                                       <= occ (Some (op, a')) L)%nat).
  { intros a' Hn. pose proof (occ_insert (Some (op, a')) L i old (Some (op, a)) Hi) as Ho.
    rewrite (decide_False (P := Some (op, a') = Some (op, a))) in Ho by congruence. lia. }
  split_and!.
  - intros a' Ha. specialize (Hb a' Ha). destruct Hb as [Hq HL]. split; [done|]. intros Hin.
    apply HL. destruct (decide (Some (op, a') ∈ L)) as [|Hn]; [done|]. apply occ_zero in Hn.
    apply occ_elem in Hin. specialize (Hcalm a' ltac:(lia)). lia.
  - pose proof (occ_insert (Some (op, a)) L i old (Some (op, a)) Hi) as Ho.
    specialize (Hu a (Z.le_refl a)). unfold uses in *. destruct (decide _), (decide _); lia.
  - intros a' Ha. specialize (Hu a' ltac:(lia)). specialize (Hcalm a' ltac:(lia)).
    unfold uses in *. lia.
Qed.

(** Replacing a licence by none, or by that of another operation, is calmer. *)
Lemma calmer_insert L i old new op :
  L !! i = Some old -> new = None \/ new = old \/ (exists x, new = Some x /\ x.1 <> op) ->
  calmer op L (<[i := new]> L).
Proof.
  intros Hi Hnew a. pose proof (occ_insert (Some (op, a)) L i old new Hi) as Ho.
  destruct Hnew as [->|[->|([op' a'] & -> & Hx)]].
  - rewrite (decide_False (P := Some (op, a) = None)) in Ho by done. lia.
  - lia.
  - rewrite (decide_False (P := Some (op, a) = Some (op', a'))) in Ho by (simpl in Hx; congruence). lia.
Qed.
End ledger.

(** ** The invariant of a world *)

(** What an actor knows holds, and what is left of its handler is careful. *)
Definition actor_ok (l : list Invocation) (C : list Attempt) (a : Actor) (K : Knowledge) : Prop :=
  Forall (holds l C) (evidence K)
  /\ match a_task a with
     | Running p => careful p K (fun _ _ => True)
     | Committing n k =>
         licence K = None
         /\ exists x f, l !! n = Some (mk_Invocation x.1 x.2 f)
            /\ forall ans, careful (k ans) (mk_Knowledge None (learned_commit x ans (evidence K)))
                             (fun _ _ => True)
     | Idle | Stopped => True
     end.

(** No attempt has two uses. Every stored record is one the reducer can reach, with the status of
    its operation; an operation without a record has no transaction. *)
Definition booked (l : list Invocation) (C : list Attempt) (L : list (option Attempt))
    (m : CommandRecords) : Prop :=
  (forall x, (uses l L x <= 1)%nat)
  /\ forall op, match m !! op with
             | Some r => record_invariant r /\ status l C L op (state r)
             | None => forall a, uses l L (op, a) = 0%nat
             end.

Lemma actor_ok_mono l C l' C' a K :
  (forall e, holds l C e -> holds l' C' e) ->
  (forall n v, l !! n = Some v -> exists f, l' !! n = Some (refate v f)) ->
  actor_ok l C a K -> actor_ok l' C' a K.
Proof.
  intros Hh Hn [He Ht]. split; [by eapply Forall_impl|].
  destruct (a_task a); try done. destruct Ht as (HK & x & f & Hx & Hk). split; [done|].
  destruct (Hn _ _ Hx) as [f' Hf]. exists x, f'. by split.
Qed.

Lemma booked_calmer l C C' L L' m :
  (forall op, calmer op L L') -> (forall x, x ∈ C -> x ∈ C') -> booked l C L m -> booked l C' L' m.
Proof.
  intros HL HC [Hone Hb]. split.
  { intros [op a]. specialize (Hone (op, a)). pose proof (uses_mono l L L' op a (HL op)). lia. }
  intros op. specialize (Hb op). destruct (m !! op).
  - destruct Hb as [? Hs]. split; [done|]. by eapply status_mono.
  - intros a. specialize (Hb a). pose proof (uses_mono l L L' op a (HL op)). lia.
Qed.

(** *** Records change *)

Lemma booked_admit l C L m r :
  state r = StateAdmitted 1 -> revision r = 0 -> m !! record_operation r = None ->
  booked l C L m -> booked l C L (admit_record r m).
Proof.
  intros Hs Hr Hm [Hone Hb]. split; [done|]. intros op. unfold admit_record. specialize (Hb op).
  destruct (decide (op = record_operation r)) as [->|Hn].
  - rewrite lookup_insert_eq. rewrite Hm in Hb. split.
    + unfold record_invariant. rewrite Hs, Hr. simpl. unfold u64_max. lia.
    + rewrite Hs. split; intros a' _; [by apply unused_quiet|done].
  - by rewrite lookup_insert_ne by done.
Qed.

Lemma justified_operation E t : justified E t -> record_operation (successor t) = record_operation (predecessor t).
Proof. intros (Hc & _). unfold record_operation. by rewrite Hc. Qed.

Lemma justified_invariant E t :
  justified E t -> record_invariant (predecessor t) -> record_invariant (successor t).
Proof.
  intros (Hc & Hr & Hmax & (e & Hm) & _) [Hrev Hs]. unfold record_invariant. rewrite Hc, Hr. split; [lia|].
  eapply moves_invariant; eauto. lia.
Qed.

Lemma justified_holds l C E t ev :
  justified E t -> Forall (holds l C) E ->
  needs (record_operation (predecessor t)) (state (predecessor t)) (state (successor t)) = Some ev ->
  holds l C ev.
Proof.
  intros (_ & _ & _ & _ & Hh) HE Hn. rewrite Hn in Hh. simpl in Hh. by eapply Forall_forall in HE.
Qed.

(** The swap is stored; the licences stay as they are. *)
Lemma booked_swap l C L m E t :
  justified E t -> Forall (holds l C) E -> (forall x, x ∈ C -> ~ has_fate l x Landed) ->
  swappable m t -> booked l C L m -> booked l C L (swap_record t m).
Proof.
  intros Hj HE HC (Hm & _) [Hone Hb]. split; [done|]. intros op. unfold swap_record. specialize (Hb op).
  destruct (decide (op = record_operation (predecessor t))) as [->|Hn].
  - rewrite lookup_insert_eq. rewrite Hm in Hb. destruct Hb as [Hinv Hs].
    split; [by eapply justified_invariant|].
    pose proof (justified_holds l C E t) as Hh. destruct Hj as (? & ? & ? & (e & Hmv) & ?).
    eapply status_moves; [done|done| |done]. intros ev Hev. apply Hh; [|done|done].
    by repeat split; eauto.
  - by rewrite lookup_insert_ne by done.
Qed.

(** The swap is stored and its actor told so: it may get the licence. *)
Lemma booked_grant l C L m E t i old :
  justified E t -> Forall (holds l C) E -> (forall x, x ∈ C -> ~ has_fate l x Landed) ->
  swappable m t -> L !! i = Some old -> booked l C L m ->
  booked l C (<[i := grant (successor t) old]> L) (swap_record t m).
Proof.
  intros Hj HE HC Hsw Hi Hb. pose proof (booked_swap l C L m E t Hj HE HC Hsw Hb) as Hb'.
  unfold grant. destruct (state (successor t)) eqn:Hs'; try by rewrite list_insert_id.
  rewrite (justified_operation _ _ Hj). destruct Hb' as [Hone' Hb'], Hb as [Hone Hb].
  set (new := Some (record_operation (predecessor t), attempt)).
  assert (Hcalm : forall op, op <> record_operation (predecessor t) -> calmer op L (<[i := new]> L)).
  { intros op Hne. apply (calmer_insert _ _ old); [done|]. right. right. eexists. split; [done|].
    simpl. congruence. }
  assert (Hown : status l C (<[i := new]> L) (record_operation (predecessor t)) (state (successor t))).
  { specialize (Hb (record_operation (predecessor t))). destruct Hsw as (Hm & _). rewrite Hm in Hb.
    destruct Hb as [_ Hs], Hj as (_ & _ & _ & (e & Hmv) & _). rewrite Hs' in Hmv |- *.
    inversion Hmv; subst. eapply status_grant; [done|]. congruence. }
  split.
  { intros [op a]. specialize (Hone (op, a)). destruct (decide (op = record_operation (predecessor t))) as [->|Hn].
    - rewrite Hs' in Hown. destruct Hown as (_ & H1 & _). destruct (decide (a = attempt)) as [->|Ha]; [done|].
      pose proof (occ_insert (Some (record_operation (predecessor t), a)) L i old new Hi) as Ho.
      rewrite (decide_False (P := _ = new)) in Ho by (subst new; congruence). unfold uses in *. lia.
    - pose proof (uses_mono l _ _ op a (Hcalm op Hn)). lia. }
  intros op. specialize (Hb' op). destruct (decide (op = record_operation (predecessor t))) as [->|Hn].
  - unfold swap_record in *. rewrite lookup_insert_eq in *. split; [apply Hb'|done].
  - specialize (Hcalm op Hn). destruct (swap_record t m !! op).
    + destruct Hb' as [? ?]. split; [done|]. by eapply status_mono.
    + intros a. specialize (Hb' a). pose proof (uses_mono l _ _ op a Hcalm). lia.
Qed.

Section invariant.
Context {J : Type} `{!DurableCommandRecordPort J, !DurableCommandRecordLaws J}.

Record Ledger (w : World J) (Ks : list Knowledge) : Prop := {
  lg_journal : journal_ok (w_journal w);
  lg_actors : Forall2 (actor_ok (w_invocations w) (w_closed w)) (w_actors w) Ks;
  lg_booked : booked (w_invocations w) (w_closed w) (licence <$> Ks) (contents (w_journal w));
  lg_closed x : x ∈ w_closed w -> ~ has_fate (w_invocations w) x Landed
}.

(** An actor moves without touching the journal or the transactions. *)
Lemma ledger_actor w Ks i a a' K K' :
  Ledger w Ks -> w_actors w !! i = Some a -> Ks !! i = Some K ->
  actor_ok (w_invocations w) (w_closed w) a' K' ->
  (licence K' = None \/ licence K' = licence K) ->
  Ledger (set_actor w i a') (<[i := K']> Ks).
Proof.
  intros [HJ HA HB HC] Hi HK Hok Hl. split; [done| | |done]; simpl.
  - by apply Forall2_insert.
  - rewrite list_fmap_insert. eapply booked_calmer; [|done|exact HB].
    intros op. apply (calmer_insert _ _ (licence K)); [by rewrite list_lookup_fmap, HK|].
    destruct Hl; auto.
Qed.

Lemma ledger_lookup w Ks i a :
  Ledger w Ks -> w_actors w !! i = Some a ->
  exists K, Ks !! i = Some K /\ actor_ok (w_invocations w) (w_closed w) a K.
Proof. intros [_ HA _ _] Hi. by eapply Forall2_lookup_l. Qed.

(** An actor that no longer runs a handler needs no knowledge. *)
Lemma ledger_rest w Ks i a a' :
  Ledger w Ks -> w_actors w !! i = Some a ->
  match a_task a' with Idle | Stopped => True | Running p => exists m, p = handle_message (a_id a') m
  | Committing _ _ => False end ->
  exists Ks', Ledger (set_actor w i a') Ks'.
Proof.
  intros HL Hi Ht. destruct (ledger_lookup w Ks i a HL Hi) as (K & HK & _).
  exists (<[i := knows_nothing]> Ks). eapply ledger_actor; [done|done|done| |by left].
  split; [by constructor|]. destruct (a_task a'); try done. destruct Ht as [m ->].
  apply careful_message.
Qed.

(** An actor keeps its task; its mailbox or its gate changes. *)
Lemma ledger_same_task w Ks i a a' :
  Ledger w Ks -> w_actors w !! i = Some a -> a_task a' = a_task a ->
  exists Ks', Ledger (set_actor w i a') Ks'.
Proof.
  intros HL Hi Ht. destruct (ledger_lookup w Ks i a HL Hi) as (K & HK & Hok).
  exists (<[i := K]> Ks). eapply ledger_actor; [done|done|done| |by right].
  destruct Hok as [? ?]. split; [done|]. by rewrite Ht.
Qed.

(** A call that leaves the records and the transactions alone; the actor learns [E']. *)
Lemma ledger_call w Ks i a g' p j' K K' :
  Ledger w Ks -> w_actors w !! i = Some a -> Ks !! i = Some K ->
  journal_ok j' -> contents j' = contents (w_journal w) ->
  careful p K' (fun _ _ => True) -> Forall (holds (w_invocations w) (w_closed w)) (evidence K') ->
  (licence K' = None \/ licence K' = licence K) ->
  Ledger (set_journal (set_actor w i (with_task (with_gate a g') (Running p))) j') (<[i := K']> Ks).
Proof.
  intros HL Hi HK Hj Hm Hp HE Hl.
  destruct (ledger_actor w Ks i a (with_task (with_gate a g') (Running p)) K K' HL Hi HK)
    as [H1 H2 H3 H4]; [by split|done|].
  split; simpl in *; [done|done|by rewrite Hm|done].
Qed.

(** A call on the records. *)
Lemma ledger_records w Ks i a c k x j' :
  Ledger w Ks -> w_actors w !! i = Some a -> a_task a = Running (Ask (Records c) k) ->
  handles (w_journal w) c x j' ->
  exists Ks', Ledger (set_journal (set_actor w i (with_task (with_gate a (a_gate a)) (Running (k x)))) j') Ks'.
Proof.
  intros HL Hi Ht Hh. destruct (ledger_lookup w Ks i a HL Hi) as (K & HK & HE & Hk).
  rewrite Ht in Hk. destruct Hk as [Hallow Hk]. destruct HL as [HJ HA HB HC].
  pose proof (handles_ok _ _ _ _ HJ Hh) as HJ'. pose proof (handles_contract _ _ _ _ HJ Hh) as Hc.
  assert (HKl : (licence <$> Ks) !! i = Some (licence K)) by (by rewrite list_lookup_fmap, HK).
  (* the records stay, or the actor's change of them is booked *)
  assert (Hdone : forall K', Forall (holds (w_invocations w) (w_closed w)) (evidence K') ->
    careful (k x) K' (fun _ _ => True) ->
    booked (w_invocations w) (w_closed w) (<[i := licence K']> (licence <$> Ks)) (contents j') ->
    exists Ks', Ledger (set_journal (set_actor w i (with_task (with_gate a (a_gate a)) (Running (k x)))) j') Ks').
  { intros K' HE' Hk' Hb'. exists (<[i := K']> Ks). split; simpl; [done| |by rewrite list_fmap_insert|done].
    apply Forall2_insert; [done|]. by split. }
  assert (Hsame : answers knowledge_protocol K (Records c) x K ->
    contents j' = contents (w_journal w) ->
    exists Ks', Ledger (set_journal (set_actor w i (with_task (with_gate a (a_gate a)) (Running (k x)))) j') Ks').
  { intros Hx Hm. apply (Hdone K); [done|by apply Hk|]. by rewrite list_insert_id, Hm. }
  destruct c as [op key|op|r|t| |after n]; simpl in Hc; try (apply Hsame; [done|by destruct Hc]).
  - (* insert *)
    assert (contents j' = contents (w_journal w)
            \/ unadmitted (contents (w_journal w)) r /\ contents j' = admit_record r (contents (w_journal w)))
      as [?|[[Hun _] Hm]] by (destruct x as [[?|?]|?]; naive_solver).
    + by apply Hsame.
    + destruct Hallow as [Hs Hr]. apply (Hdone K); [done|by apply Hk|].
      rewrite list_insert_id, Hm by done. by apply booked_admit.
  - (* compare and swap *)
    destruct x as [[r|obs]|err].
    + destruct Hc as (-> & Hsw & Hm).
      apply (Hdone (mk_Knowledge (grant (successor t) (licence K)) (evidence K))); [done|by apply Hk|].
      rewrite Hm. by apply (booked_grant _ _ _ _ (evidence K)).
    + apply Hsame; [done|apply Hc].
    + destruct Hc as [?|[Hsw Hm]]; [by apply Hsame|].
      apply (Hdone K); [done|by apply Hk|]. rewrite list_insert_id, Hm by done. by apply (booked_swap _ _ _ _ (evidence K)).
Qed.

Lemma learned_reconcile_holds l C r o t ctx x E :
  reconcile_answers l C r o t ctx x -> Forall (holds l C) E ->
  Forall (holds l C) (learned_reconcile r x E).
Proof.
  unfold reconcile_answers, reconciliation_attempt, learned_reconcile. intros Hx HE.
  destruct (state r); try done. destruct x as [[e res|e|e]|e]; try done; constructor; try done; simpl;
    unfold validated_attempt in Hx; repeat case_match; simplify_eq/=; try done;
    destruct Hx as [i Hi]; by eapply list_elem_of_lookup_2.
Qed.

(** A call on another port, and the gate. *)
Lemma ledger_served w Ks i a c k x j' g' :
  Ledger w Ks -> w_actors w !! i = Some a -> a_task a = Running (Ask c k) ->
  served w (a_gate a) c x j' g' ->
  exists Ks', Ledger (set_journal (set_actor w i (with_task (with_gate a g') (Running (k x)))) j') Ks'.
Proof.
  intros HL Hi Ht Hs. destruct c as [c|c|c|c|c].
  { destruct Hs as [Hh ->]. by eapply ledger_records. }
  all: destruct (ledger_lookup w Ks i a HL Hi) as (K & HK & HE & Hk); rewrite Ht in Hk;
    destruct Hk as [Hallow Hk]; pose proof (lg_journal _ _ HL) as HJ.
  - destruct Hs as [-> ->]. eexists. eapply ledger_call; eauto. by apply Hk.
  - destruct c as [r o ctx|r o t ctx|r o t ctx]; destruct Hs as (-> & -> & Hs).
    + eexists. eapply ledger_call; eauto. by apply Hk.
    + destruct Hs as (e & _ & ->). destruct Hallow as (b & _ & Hl).
      eexists. eapply (ledger_call _ _ _ _ _ _ _ K (mk_Knowledge None (evidence K))); eauto.
      apply Hk. by exists (record_operation r, b).
    + eexists. eapply (ledger_call _ _ _ _ _ _ _ K
                (mk_Knowledge (licence K) (learned_reconcile r x (evidence K)))); eauto.
      * by apply Hk.
      * by eapply learned_reconcile_holds.
  - assert (j' = w_journal w) as -> by (destruct c; naive_solver).
    eexists. eapply ledger_call; eauto. by apply Hk; destruct c.
  - destruct Hs as [-> ->]. eexists. eapply ledger_call; eauto. by apply Hk.
Qed.

(** A transaction lands or dies. *)
Lemma ledger_fate w Ks n v f :
  Ledger w Ks -> w_invocations w !! n = Some v -> inv_fate v = InFlight -> f <> InFlight ->
  (f = Landed -> inv_key v ∉ w_closed w) -> Ledger (set_fate w n v f) Ks.
Proof.
  intros [HJ HA HB HC] Hn Hv Hf Hcl. change (set_fate w n v f) with
    (mk_World (w_journal w) (<[n := refate v f]> (w_invocations w)) (w_closed w) (w_actors w)).
  assert (forall x g, g <> InFlight -> has_fate (w_invocations w) x g ->
            has_fate (<[n := refate v f]> (w_invocations w)) x g) as Hstable.
  { intros x g Hg. by apply has_fate_refate. }
  split; simpl; [done| | |].
  - eapply Forall2_impl; [exact HA|]. intros a K. apply actor_ok_mono.
    + intros [x|x|x]; simpl; auto.
    + intros m u Hm. destruct (decide (m = n)) as [->|Hne].
      * exists f. rewrite list_lookup_insert_eq by (by eapply lookup_lt_Some). congruence.
      * exists (inv_fate u). rewrite list_lookup_insert_ne by done. rewrite Hm. by destruct u.
  - destruct HB as [Hone HB]. unfold booked, uses in *. rewrite (keys_refate _ n v f Hn). split; [done|].
    intros op. specialize (HB op). destruct (contents (w_journal w) !! op); [|done].
    destruct HB as [? ?]. split; [done|]. by apply status_refate.
  - intros x Hx Hl. apply elem_refate in Hl as [Hl|Hl]; [by eapply HC|].
    injection Hl as Ho Ha <-. apply (Hcl eq_refl). unfold inv_key. rewrite <- Ho, <- Ha. by destruct x.
Qed.

(** A licensed commit starts. *)
Lemma ledger_commit w Ks i a r o t ctx k v :
  Ledger w Ks -> w_actors w !! i = Some a ->
  a_task a = Running (Ask (Effects (CommitEffect r o t ctx)) k) ->
  prepared_attempt r o t ctx (routed_kind r) = Ok v ->
  exists Ks', Ledger
    (mk_World (w_journal w)
       (w_invocations w ++ [mk_Invocation (record_operation r) (va_attempt v) InFlight])
       (w_closed w)
       (<[i := with_task a (Committing (length (w_invocations w)) k)]> (w_actors w))) Ks'.
Proof.
  intros HL Hi Ht Hv. destruct (ledger_lookup w Ks i a HL Hi) as (K & HK & HE & Hk).
  rewrite Ht in Hk. destruct Hk as [(b & Hs & Hl) Hk]. destruct HL as [HJ HA HB HC].
  assert (va_attempt v = b) as ->.
  { unfold prepared_attempt, validated_attempt in Hv. rewrite Hs in Hv. by inv_ok Hv. }
  set (x := (record_operation r, b)) in *.
  assert (HKl : (licence <$> Ks) !! i = Some (Some x)) by (rewrite list_lookup_fmap, HK; simpl; congruence).
  exists (<[i := mk_Knowledge None (evidence K)]> Ks). split; simpl; [done| | |].
  - apply Forall2_insert.
    + eapply Forall2_impl; [exact HA|]. intros a' K'. apply actor_ok_mono.
      * intros [y|y|y]; simpl; unfold has_fate; set_solver.
      * intros n u Hn. exists (inv_fate u). rewrite lookup_app_l by (by eapply lookup_lt_Some).
        rewrite Hn. by destruct u.
    + split; simpl.
      * eapply Forall_impl; [exact HE|]. intros [y|y|y]; simpl; unfold has_fate; set_solver.
      * split; [done|]. exists x, InFlight. split; [by rewrite lookup_app_r, Nat.sub_diag|].
        intros ans. apply Hk. by exists x.
  - rewrite list_fmap_insert. simpl. destruct HB as [Hone HB]. split.
    { intros y. by rewrite (uses_commit _ _ _ x). }
    intros op. specialize (HB op). destruct (contents (w_journal w) !! op).
    + destruct HB as [? ?]. split; [done|]. by apply (status_commit _ _ _ _ x).
    + intros b'. rewrite (uses_commit _ _ _ x) by done. apply HB.
  - intros y Hy Hf. apply elem_of_app in Hf as [Hf|Hf]; [by eapply HC|].
    apply list_elem_of_singleton in Hf. done.
Qed.

(** The answer of a commit. *)
Lemma ledger_committed w Ks i a n k v x :
  Ledger w Ks -> w_actors w !! i = Some a -> a_task a = Committing n k ->
  w_invocations w !! n = Some v -> commit_answers v x ->
  exists Ks', Ledger (set_actor w i (with_task a (Running (k x)))) Ks'.
Proof.
  intros HL Hi Ht Hn Hx. destruct (ledger_lookup w Ks i a HL Hi) as (K & HK & HE & Hk).
  rewrite Ht in Hk. destruct Hk as (Hl & y & f & Hy & Hk). rewrite Hn in Hy. injection Hy as ->.
  eexists. eapply (ledger_actor w Ks i a _ K (mk_Knowledge None (learned_commit y x (evidence K))));
    [done|done|done| |by left]. split; [|apply Hk].
  simpl. destruct x as [[res|fl|u]|e]; simpl in *; try done; constructor; try done; subst f;
    by eapply list_elem_of_lookup_2.
Qed.

Lemma ledger_step lease w w' Ks :
  Ledger w Ks -> step lease w w' -> exists Ks', Ledger w' Ks'.
Proof.
  intros HL Hst. destruct Hst.
  - destruct HL as [HJ HA HB HC]. exists (Ks ++ [knows_nothing]). split; simpl; [done| | |done].
    + apply Forall2_app; [done|]. constructor; [|done]. by split; [constructor|].
    + eapply booked_calmer; [|done|exact HB]. intros op b. rewrite fmap_app, occ_app. simpl.
      rewrite occ_cons, decide_False by done. assert (occ (Some (op, b)) [] = 0%nat) as -> by done. lia.
  - eapply ledger_same_task; [done|done|]. unfold try_send in *.
    repeat case_match; by simplify_eq/=.
  - by eapply ledger_same_task.
  - eapply ledger_rest; [done|done|]. unfold receive in *.
    repeat case_match; simplify_eq/=. by eexists.
  - by eapply ledger_served.
  - by eapply ledger_commit.
  - by eapply ledger_committed.
  - eapply ledger_rest; [done|done|]. by destruct reply.
  - by eapply ledger_rest.
  - exists Ks. by apply ledger_fate.
  - exists Ks. by apply ledger_fate.
  - destruct HL as [HJ HA HB HC]. exists Ks. split; simpl; [done| | |].
    + eapply Forall2_impl; [exact HA|]. intros a' K'. apply actor_ok_mono.
      * intros [y|y|y]; simpl; set_solver.
      * intros n u Hn. exists (inv_fate u). rewrite Hn. by destruct u.
    + eapply booked_calmer; [by intros ? ?|set_solver|exact HB].
    + intros x [->|Hx]%elem_of_cons Hl; [|by eapply HC].
      apply list_elem_of_lookup in Hl as [n Hn]. by eapply H.
Qed.

Lemma ledger_reachable lease w : reachable lease w -> exists Ks, Ledger w Ks.
Proof.
  apply (reachable_ind lease (fun w => exists Ks, Ledger w Ks)).
  - intros w0 (HJ & Hm & Hl & HC & HA). exists []. split; [done|..]; rewrite ?Hm, ?Hl, ?HC, ?HA; try done.
    + split; [unfold uses, occ; simpl; lia|]. intros op. rewrite lookup_empty. done.
    + intros x. set_solver.
  - intros w1 w2 [Ks HL] Hst. by eapply ledger_step.
Qed.

(** ** Consequences *)

(** An attempt that landed is not quiet. *)
Lemma landed_not_quiet l C L n op a : landed l n op a -> ~ quiet l C L (op, a).
Proof.
  intros Hn [Hq _]. apply list_elem_of_lookup_2 in Hn.
  by destruct (Hq (mk_Invocation op a Landed) Hn eq_refl).
Qed.

(** Where the state says that nothing landed, nothing has. *)
Definition settled_empty (s : DurableCommandState) : bool :=
  match s with
  | StateAdmitted _ | StateExecuting _ _ | StateRetryReady _ _ _ | StateFailed _ | StateCancelled _ => true
  | _ => false
  end.

Lemma status_empty l C L op s n a : status l C L op s -> settled_empty s = true -> ~ landed l n op a.
Proof.
  intros Hs He Hn. destruct s; try done; simpl in Hs; destruct_and?;
    eapply landed_not_quiet; eauto using all_quiet.
Qed.

Lemma status_unique l C L op s n n' a a' :
  status l C L op s -> landed l n op a -> landed l n' op a' -> n = n'.
Proof.
  intros Hs Hn Hn'. destruct (settled_empty s) eqn:He; [by destruct (status_empty _ _ _ _ _ _ _ Hs He Hn)|].
  assert (exists b, (uses l L (op, b) <= 1)%nat /\ forall c, c <> b -> quiet l C L (op, c)) as (b & Hb & Hq).
  { destruct s; try done; simpl in Hs; destruct_and?; [eauto using others_quiet ..|].
    destruct Hs as (b & _ & ? & ?). eauto. }
  assert (a = b) as -> by (destruct (decide (a = b)); [done|]; by destruct (landed_not_quiet _ _ _ _ _ _ Hn (Hq _ n0))).
  assert (a' = b) as -> by (destruct (decide (a' = b)); [done|]; by destruct (landed_not_quiet _ _ _ _ _ _ Hn' (Hq _ n0))).
  by eapply (single_use l L (op, b)).
Qed.
End invariant.
