(* ===== verification/ActorGate.v ===== *)
(** The ingress gate. When the writer lease is respected, an idle actor whose gate is open has only
    finished commands in its journal, a new command is inserted only then, and so at most one
    command is unfinished at any time. *)

From stdpp Require Import sorting.
From S2P Require Import Prelude.
From S2P Require Import CommandModel.
From S2P Require Import CommandTheory.
From S2P Require Import ActorModel.
From S2P Require Import ActorLogic.
From S2P Require Import EffectContract.
From S2P Require Import ActorWorld.
Local Open Scope Z_scope.

Definition all_terminal (m : CommandRecords) : Prop :=
  forall op r, m !! op = Some r -> is_terminal (state r) = true.

Definition at_most_one_unfinished (m : CommandRecords) : Prop :=
  forall op op' r r', m !! op = Some r -> m !! op' = Some r' ->
    is_terminal (state r) = false -> is_terminal (state r') = false -> op = op'.

(** ** The protocol of the only actor *)

(** The records, and whether the gate is open. Others may close the gate at any time, so an open
    gate may be read as closed. *)
Abbreviation GateState := (CommandRecords * bool)%type.

Definition gate_allows (s : GateState) (c : PortCall) : Prop :=
  match c with
  | Records (InsertIfAbsent r) => all_terminal s.1
  | Records (CompareAndSwap t) => is_terminal (state (predecessor t)) = false
  | _ => True
  end.

Definition gate_answers (s : GateState) (c : PortCall) : answer c -> GateState -> Prop :=
  match c return answer c -> GateState -> Prop with
  | Records c => fun x s' => record_contract s.1 c x s'.1 /\ s'.2 = s.2
  | Gate GateIsOpen => fun b s' => (b = true -> s.2 = true) /\ s' = s
  | Gate GateOpen => fun _ s' => s' = (s.1, true)
  | Gate GateClose => fun _ s' => s' = (s.1, false)
  | _ => fun _ s' => s' = s
  end.

Definition gate_protocol : Protocol GateState := mk_Protocol gate_allows gate_answers.

Abbreviation guarded p s Φ := (obeys gate_protocol p s Φ).

(** What holds when a handler returns, and while the actor is idle. *)
Definition gate_inv (s : GateState) : Prop := s.2 = true -> all_terminal s.1.

Definition handled (reply : Reply) (s : GateState) : Prop := reply <> Panicked /\ gate_inv s.

(** Closing the gate under a running handler does not disturb it. *)
Lemma guarded_close (p : prog Reply) m : guarded p (m, true) handled -> guarded p (m, false) handled.
Proof.
  revert m. induction p as [a|c k IH]; intros m; [intros [? _]; by split|].
  intros [Ha Hk]. split; [by destruct c as [[]| | | |]|]. intros x [m' g'] Hx.
  destruct c as [c|c|c|[]|c]; simpl in *.
  - destruct Hx as [Hx ->]. apply IH, Hk. done.
  - injection Hx as -> ->. by apply IH, Hk.
  - injection Hx as -> ->. by apply IH, Hk.
  - destruct Hx as [Hx [= -> ->]]. apply IH, Hk. done.
  - by apply Hk.
  - by apply Hk.
  - injection Hx as -> ->. by apply IH, Hk.
Qed.

(** ** Transitions *)

(** Only the record of [r] is touched, and what is returned is what is stored. *)
Definition touched (r : CommandRecord) (m : CommandRecords) (g : bool)
    (x : result CommandRecord FabricCommandActorError) (s : GateState) : Prop :=
  s.2 = g
  /\ (forall op, op <> record_operation r -> s.1 !! op = m !! op)
  /\ (is_terminal (state r) = true -> s.1 = m)
  /\ forall r', x = Ok r' ->
       command r' = command r
       /\ (m !! record_operation r = Some r -> s.1 !! record_operation r = Some r').

Lemma touched_operation r r' m g x s :
  command r' = command r -> touched r' m g x s ->
  s.2 = g /\ (forall op, op <> record_operation r -> s.1 !! op = m !! op)
  /\ forall r'', x = Ok r'' ->
       command r'' = command r
       /\ (m !! record_operation r = Some r' -> s.1 !! record_operation r = Some r'').
Proof.
  unfold touched, record_operation. intros -> (? & ? & _ & Hx). split_and!; [done|done|].
  intros r'' ->. destruct (Hx r'' eq_refl). by split.
Qed.

Lemma touched_err r m g e : touched r m g (Err e) (m, g).
Proof. by split_and!. Qed.

Lemma touched_same r m g : touched r m g (Ok r) (m, g).
Proof. split_and!; try done. intros r' [= <-]. done. Qed.
#[local] Hint Resolve touched_err touched_same : core.

Lemma guarded_read_context {B} r (f : ReductionContext -> actor_prog B) s Φ :
  (forall e, Φ (Err e) s) -> (forall c, guarded (f c) s Φ) ->
  guarded (try_bind (port (read_reduction_context r)) f) s Φ.
Proof. intros He Hf. prog_ask; [done|]. intros [c|e] s' ->; prog_simpl; auto. Qed.

Lemma touched_swap r r' m g eff :
  is_terminal (state r) = false -> command r' = command r ->
  touched r m g (Ok r') (swap_record (mk_ReducerTransition r r' eff) m, g)
  /\ forall e, touched r m g (Err e) (swap_record (mk_ReducerTransition r r' eff) m, g).
Proof.
  intros Ht Hc. unfold touched, swap_record; simpl. rewrite Ht. split_and!; try done.
  - intros op Hop. by rewrite lookup_insert_ne.
  - intros r'' [= <-]. split; [done|]. intros _. by rewrite lookup_insert_eq.
  - intros e. split_and!; try done. intros op Hop. by rewrite lookup_insert_ne.
Qed.

Lemma guarded_swap r s' eff m g :
  is_terminal (state r) = false ->
  let r' := mk_CommandRecord (command r) s' (revision r + 1) in
  guarded
    (await? write := port (compare_and_swap (mk_ReducerTransition r r' eff)) in
     match write with
     | Stored stored =>
         if bool_decide (stored = r') then Ret (Ok stored) else Ret (Err DurableTransitionMismatch)
     | RevisionConflicted observed =>
         Ret (Err (RevisionConflict (revision r) (revision <$> observed)))
     end)%prog (m, g) (touched r m g).
Proof.
  intros Ht r'. destruct (touched_swap r r' m g eff Ht eq_refl) as [Hok Herr]. prog_ask; [done|].
  intros [[st|obs]|e] [m' g'] [Hx Hg]; simpl in Hx, Hg; subst g'; prog_simpl.
  - destruct Hx as (-> & _ & ->). by rewrite bool_decide_eq_true_2.
  - destruct Hx as [-> _]. apply touched_err.
  - destruct Hx as [->|[_ ->]]; auto.
Qed.

Lemma guarded_transition r e m g : guarded (actor_transition r e) (m, g) (touched r m g).
Proof.
  apply guarded_read_context; [auto|]. intros c. apply obeys_reduced; [auto|].
  intros red Hred. apply reduce_spec in Hred as [(s' & Hm & _ & Hr & ->)|(Hp & _ & ->)]; [|simpl; auto].
  apply moves_not_terminal in Hm. unfold material_reduction; simpl.
  destruct (event_effect e) eqn:He; simpl;
    try rewrite !(bool_decide_eq_true_2 _ eq_refl); simpl;
    [by apply guarded_swap| |by apply guarded_swap].
  by destruct e as [| | | | |? ? []|].
Qed.

Lemma guarded_validate r e s : guarded (validate_idempotent r e) s (fun _ s' => s' = s).
Proof.
  apply guarded_read_context; [done|]. intros c. apply obeys_reduced; [done|].
  intros red _. by destruct (negb _ || negb _)%bool.
Qed.

(** ** Running one command *)

(** Only operation [op] differs from [m0], and its record is the one returned. *)
Definition confined (op : OperationId) (m0 : CommandRecords) (g : bool)
    (x : result CommandRecord FabricCommandActorError) (s : GateState) : Prop :=
  s.2 = g
  /\ (forall op', op' <> op -> s.1 !! op' = m0 !! op')
  /\ forall r, x = Ok r -> record_operation r = op /\ s.1 !! op = Some r.

(** The record in hand is the stored one. *)
Definition in_hand (op : OperationId) (m0 : CommandRecords) (r : CommandRecord) (m : CommandRecords) : Prop :=
  record_operation r = op /\ m !! op = Some r /\ forall op', op' <> op -> m !! op' = m0 !! op'.

Lemma confined_err op m0 r m g e : in_hand op m0 r m -> confined op m0 g (Err e) (m, g).
Proof. intros (? & ? & ?). by split_and!. Qed.

Lemma confined_in_hand op m0 g r s : confined op m0 g (Ok r) s -> in_hand op m0 r s.1 /\ s = (s.1, g).
Proof. intros (Hg & Ho & Hr). destruct (Hr r eq_refl). destruct s. simpl in *. by subst. Qed.

Lemma guarded_confined op m0 r e m g :
  in_hand op m0 r m -> guarded (actor_transition r e) (m, g) (confined op m0 g).
Proof.
  intros (Ho & Hm & Hrest). eapply obeys_mono; [apply guarded_transition|].
  intros x s (Hg & Hother & _ & Hx). rewrite Ho in *. split_and!; [done| |].
  - intros op' Hne. by rewrite Hother, Hrest.
  - intros r' ->. destruct (Hx r' eq_refl) as [Hc Hs]. split; [|by apply Hs].
    unfold record_operation in *. by rewrite Hc.
Qed.

(** A step that ends in a confined result, then the rest. *)
Lemma guarded_then op m0 g p f s :
  guarded p s (confined op m0 g) ->
  (forall r m, in_hand op m0 r m -> guarded (f r) (m, g) (confined op m0 g)) ->
  guarded (try_bind p f) s (confined op m0 g).
Proof.
  intros Hp Hf. apply obeys_try. eapply obeys_mono; [exact Hp|]. intros [r|e] s' Hs; [|].
  - apply confined_in_hand in Hs as [Hh ->]. by apply Hf.
  - destruct Hs as (? & ? & ?). by split_and!.
Qed.

Lemma guarded_then_validate {B} op m0 g r e (f : ReductionContext -> actor_prog B) m Φ :
  in_hand op m0 r m -> (forall c, guarded (f c) (m, g) Φ) -> (forall e, Φ (Err e) (m, g)) ->
  guarded (try_bind (validate_idempotent r e) f) (m, g) Φ.
Proof.
  intros Hh Hf He. apply obeys_try. eapply obeys_mono; [apply guarded_validate|].
  intros [c|err] s ->; auto.
Qed.

Lemma guarded_commit_prepared op m0 r o t m g :
  in_hand op m0 r m -> guarded (commit_prepared r o t) (m, g) (confined op m0 g).
Proof.
  intros Hh. apply guarded_then; [by apply guarded_confined|]. clear r m Hh. intros r m Hh.
  eapply guarded_then_validate; [done| |intros; by eapply confined_err]. intros c.
  prog_ask; [done|]. intros [x|e] s ->; prog_simpl; [by apply guarded_confined|by eapply confined_err].
Qed.

Lemma guarded_execute_started op m0 r o m g :
  in_hand op m0 r m -> guarded (execute_started r o) (m, g) (confined op m0 g).
Proof.
  intros Hh. eapply guarded_then_validate; [done| |intros; by eapply confined_err]. intros c.
  prog_ask; [done|]. intros [[t|f|c']|e] s ->; prog_simpl;
    [by apply guarded_commit_prepared|by apply guarded_confined|by apply guarded_confined
    |by eapply confined_err].
Qed.

Lemma guarded_start op m0 r o m g :
  in_hand op m0 r m ->
  guarded (await? started := actor_transition r (EvStart o) in execute_started started o)%prog
    (m, g) (confined op m0 g).
Proof.
  intros Hh. apply guarded_then; [by apply guarded_confined|].
  intros r' m' Hh'. by apply guarded_execute_started.
Qed.

(** ** Handlers *)

Definition keyed (m : CommandRecords) : Prop := forall op r, m !! op = Some r -> record_operation r = op.

(** A record that was looked up is in hand. *)
Lemma found_in_hand m op r : keyed m -> m !! op = Some r -> in_hand op m r m.
Proof. intros Hk Hm. split_and!; [by apply Hk|done|done]. Qed.

Lemma guarded_find op (f : CommandRecord -> actor_prog CommandRecord) m g :
  gate_inv (m, g) ->
  (forall r, m !! op = Some r -> guarded (f r) (m, g) (fun _ s => gate_inv s)) ->
  guarded (try_bind (find_operation op) f) (m, g) (fun _ s => gate_inv s).
Proof.
  intros Hg Hf. apply obeys_try. prog_ask; [done|].
  intros [found|e] [m' g'] [[Hm Hx] Hg']; simpl in *; subst; prog_simpl; [|done].
  destruct (m !! op) as [r|] eqn:Hr; prog_simpl; auto.
Qed.

(** While the gate is open there is no unfinished record to act on. *)
Lemma unfinished_closed m g op r :
  gate_inv (m, g) -> m !! op = Some r -> is_terminal (state r) = false -> g = false.
Proof. intros Hg Hm Ht. destruct g; [|done]. specialize (Hg eq_refl op r Hm). congruence. Qed.

Lemma confined_closed op m0 x s : confined op m0 false x s -> gate_inv s.
Proof. intros (Hg & _). unfold gate_inv. rewrite Hg. done. Qed.

(** The rest of a handler that acts on an unfinished record. *)
Lemma guarded_unfinished (p : actor_prog CommandRecord) op m g r :
  keyed m -> gate_inv (m, g) -> m !! op = Some r -> is_terminal (state r) = false ->
  (in_hand op m r m -> guarded p (m, g) (confined op m g)) -> guarded p (m, g) (fun _ s => gate_inv s).
Proof.
  intros Hk Hg Hm Ht Hp. assert (g = false) as -> by (by eapply unfinished_closed).
  eapply obeys_mono; [apply Hp; by apply found_in_hand|]. intros x s. apply confined_closed.
Qed.

Lemma guarded_cancel self op c m g :
  keyed m -> gate_inv (m, g) -> guarded (process_cancel self op c) (m, g) (fun _ s => gate_inv s).
Proof.
  intros Hk Hg. apply guarded_find; [done|]. intros r Hr. apply guarded_read_context; [done|].
  intros ctx. cbv zeta. destruct (is_terminal (state r)) eqn:Ht.
  - apply obeys_try. destruct (state r) eqn:Hs; try done; prog_simpl;
      (eapply obeys_mono; [apply guarded_transition|]; intros x [m' g'] (Hg' & _ & Hsame & _);
       rewrite Hs in Hsame; specialize (Hsame eq_refl); simpl in *; by subst).
  - eapply guarded_unfinished; eauto. intros Hh. apply guarded_then.
    + destruct (state r) eqn:Hs; try done; try (apply (guarded_confined op m r); [done|]);
        try (prog_simpl; split_and!; [done|done|]; intros ? [= <-]; by destruct Hh as (? & ? & ?)).
      case_bool_decide; prog_simpl; [|by apply guarded_confined].
      split_and!; [done|done|]. intros ? [= <-]. by destruct Hh as (? & ? & ?).
    + intros r' m' Hh'. by apply guarded_confined.
Qed.

(** A submission runs with the gate open, and leaves it open only with its command finished. *)
Lemma guarded_submit self cmd m g :
  all_terminal m ->
  guarded (process_submit self cmd) (m, g) (fun x s =>
    s.2 = g /\ (recovery_required x = false -> all_terminal s.1)).
Proof.
  intros Hall. unfold process_submit.
  prog_ask; [done|]. intros [[r|]|e] [m' g'] [[Hm _] Hg]; simpl in Hm, Hg; subst; prog_simpl; try done.
  prog_ask; [done|]. intros [c|e] s ->; prog_simpl; [|done].
  apply obeys_reduced; [done|]. intros [r|r] Ha; [|done]. apply admitted_record in Ha as ->.
  set (r := mk_CommandRecord cmd (StateAdmitted 1) 0).
  prog_ask; [done|]. intros [[st|ex]|e] [m' g'] [Hx Hg]; simpl in Hx, Hg; subst; prog_simpl; try done.
  - destruct Hx as (-> & _ & ->). rewrite bool_decide_eq_true_2 by done. prog_simpl.
    eapply obeys_mono.
    + apply (guarded_start (record_operation r) m r). split_and!; [done|by apply lookup_insert_eq|].
      intros op Hop. unfold admit_record. by rewrite lookup_insert_ne.
    + intros x s (Hg & Hother & Hx). split; [done|]. intros Hfin op r' Hr'.
      destruct (decide (op = record_operation r)) as [->|Hne].
      * destruct x as [r1|]; [|done]. destruct (Hx r1 eq_refl) as [_ H1].
        simpl in Hfin. rewrite negb_false_iff in Hfin. congruence.
      * rewrite Hother in Hr' by done. by eapply Hall.
  - destruct Hx as [-> _]. done.
Qed.

Lemma guarded_handle_submit self cmd m g :
  gate_inv (m, g) -> guarded (handle_submit self cmd) (m, g) (fun _ s => gate_inv s).
Proof.
  intros Hg. unfold handle_submit. prog_ask; [done|]. intros b s [Hb ->]. prog_simpl. apply obeys_bind.
  destruct b; prog_simpl.
  - simpl in Hb. rewrite Hb in * by done. eapply obeys_mono; [apply guarded_submit, Hg; done|].
    intros x [m' g'] [Hg' Hfin]. simpl in *. subst g'. destruct (recovery_required x).
    + prog_ask; [done|]. intros u s ->. done.
    + prog_simpl. intros _. by apply Hfin.
  - cbn [recovery_required]. prog_ask; [done|]. intros u s ->. done.
Qed.

Lemma guarded_open_admission m g : guarded handle_open_admission (m, g) handled.
Proof.
  unfold handle_open_admission. prog_ask; [done|]. intros u s ->. prog_simpl. prog_ask; [done|].
  intros [[r|]|e] [m' g'] [[Hm Hx] Hg]; simpl in *; subst; prog_simpl.
  - destruct Hx as (_ & Ht & _). unfold recovery_obligation. by destruct (state r).
  - split; [done|]. intros u' s ->. split; [done|]. intros _ op r Hr. by eapply Hx.
  - done.
Qed.

Lemma guarded_message self msg m g :
  keyed m -> gate_inv (m, g) -> guarded (handle_message self msg) (m, g) handled.
Proof.
  intros Hk Hg.
  assert (Hreply : forall p, guarded p (m, g) (fun _ s => gate_inv s) -> guarded (record_reply p) (m, g) handled).
  { intros p Hp. apply obeys_bind. eapply obeys_mono; [exact Hp|]. intros x s Hs. by split. }
  destruct msg as [cmd|op c|op|op|op|op u| |]; cbn [handle_message]; try apply Hreply.
  - by apply guarded_handle_submit.
  - by apply guarded_cancel.
  - apply guarded_find; [done|]. intros r Hr. destruct (state r) eqn:Hs; try done.
    apply guarded_read_context; [done|]. intros ctx.
    eapply guarded_unfinished; eauto; [by rewrite Hs|]. intros Hh.
    prog_ask; [done|]. intros [x|e] s ->; prog_simpl; [by apply guarded_confined|by eapply confined_err].
  - apply guarded_find; [done|]. intros r Hr. destruct (state r) eqn:Hs; try done.
    apply guarded_read_context; [done|]. intros ctx. cbv zeta. case_match; [done|].
    eapply guarded_unfinished; eauto; [by rewrite Hs|]. intros Hh. by apply guarded_start with (r := r).
  - apply guarded_find; [done|]. intros r Hr. destruct (state r) eqn:Hs; try done;
      (apply guarded_read_context; [done|]; intros ctx;
       eapply guarded_unfinished; eauto; [by rewrite Hs|]; intros Hh; by apply guarded_start with (r := r)).
  - apply guarded_find; [done|]. intros r Hr. destruct (state r) eqn:Hs; try done.
    apply guarded_read_context; [done|]. intros ctx.
    eapply guarded_unfinished; eauto; [by rewrite Hs|]. intros Hh. by apply guarded_confined.
  - apply guarded_open_admission.
  - by split.
Qed.

(** ** The invariant of a world *)

Section invariant.
Context {J : Type} `{!DurableCommandRecordPort J, !DurableCommandRecordLaws J}.

Definition live (a : Actor) : Prop := is_stopped (a_task a) = false.

Definition actor_guarded (m : CommandRecords) (a : Actor) : Prop :=
  match a_task a with
  | Idle => gate_inv (m, a_gate a)
  | Running p => guarded p (m, a_gate a) handled
  | Committing _ k => forall x, guarded (k x) (m, a_gate a) handled
  | Stopped => True
  end.

Record Exclusive (w : World J) : Prop := {
  ex_journal : journal_ok (w_journal w);
  ex_single i j a b : w_actors w !! i = Some a -> w_actors w !! j = Some b -> live a -> live b -> i = j;
  ex_guarded i a : w_actors w !! i = Some a -> actor_guarded (contents (w_journal w)) a;
  ex_unfinished : at_most_one_unfinished (contents (w_journal w))
}.

Lemma contents_keyed_all j : journal_ok j -> keyed (contents j).
Proof. intros Hj op r. by apply contents_keyed. Qed.

(** One actor moves; the journal may change if the actor is the live one. *)
Lemma exclusive_actor w i a a' j' :
  Exclusive w -> w_actors w !! i = Some a -> (live a' -> live a) ->
  journal_ok j' -> (contents j' = contents (w_journal w) \/ live a) ->
  actor_guarded (contents j') a' -> at_most_one_unfinished (contents j') ->
  Exclusive (set_journal (set_actor w i a') j').
Proof.
  intros [HJ HS HG HU] Hi Hlive Hj' Hm Ha' HU'. split; simpl; [done| | |done].
  - intros n n' b b' Hn Hn' Hb Hb'.
    assert (forall n b, <[i := a']> (w_actors w) !! n = Some b -> live b ->
              exists b0, w_actors w !! n = Some b0 /\ live b0) as Hold.
    { intros n0 b0 H0 Hl. apply list_lookup_insert_Some in H0 as [(-> & -> & _)|[_ H0]]; eauto. }
    destruct (Hold n b Hn Hb) as (? & ? & ?), (Hold n' b' Hn' Hb') as (? & ? & ?). by eapply HS.
  - intros n b Hn. apply list_lookup_insert_Some in Hn as [(-> & -> & _)|[Hne Hn]]; [done|].
    specialize (HG n b Hn). destruct Hm as [->|Hl]; [done|].
    unfold actor_guarded in *. destruct (a_task b) eqn:Ht; try done; exfalso; apply Hne;
      eapply HS; eauto; unfold live; by rewrite Ht.
Qed.

Lemma exclusive_still w i a a' :
  Exclusive w -> w_actors w !! i = Some a -> (live a' -> live a) ->
  actor_guarded (contents (w_journal w)) a' -> Exclusive (set_actor w i a').
Proof.
  intros HE Hi Hl Ha. pose proof HE as [HJ _ _ HU].
  apply (exclusive_actor w i a a' (w_journal w)); auto.
Qed.

(** A call on the records by the live actor. *)
Lemma exclusive_records w i a c k x j' :
  Exclusive w -> w_actors w !! i = Some a -> a_task a = Running (Ask (Records c) k) ->
  handles (w_journal w) c x j' ->
  Exclusive (set_journal (set_actor w i (with_task (with_gate a (a_gate a)) (Running (k x)))) j').
Proof.
  intros HE Hi Ht Hh. pose proof HE as [HJ _ HG HU]. specialize (HG i a Hi). unfold actor_guarded in HG.
  rewrite Ht in HG. destruct HG as [Hallow Hk].
  pose proof (handles_ok _ _ _ _ HJ Hh) as HJ'. pose proof (handles_contract _ _ _ _ HJ Hh) as Hc.
  assert (Hl : live a) by (unfold live; by rewrite Ht).
  eapply exclusive_actor; eauto; [by apply Hk|].
  assert (contents j' = contents (w_journal w)
          \/ (exists r, all_terminal (contents (w_journal w))
                        /\ contents j' = admit_record r (contents (w_journal w)))
          \/ (exists t, contents (w_journal w) !! record_operation (predecessor t) = Some (predecessor t)
                        /\ is_terminal (state (predecessor t)) = false
                        /\ contents j' = swap_record t (contents (w_journal w))))
    as [->|[(r & Hall & ->)|(t & Hp & Hnt & ->)]]; [|done| |].
  - destruct c as [op key|op|r|t| |after n]; simpl in Hc, Hallow; try (left; by destruct Hc).
    + destruct x as [[?|?]|?]; naive_solver.
    + destruct x as [[?|?]|?]; unfold swappable in *; naive_solver.
  - intros op op' r1 r2 H1 H2 Ht1 Ht2.
    assert (forall op0 r0, admit_record r (contents (w_journal w)) !! op0 = Some r0 ->
              is_terminal (state r0) = false -> op0 = record_operation r) as Honly.
    { intros op0 r0 H0 Hf. destruct (decide (op0 = record_operation r)) as [|Hne]; [done|].
      unfold admit_record in H0. rewrite lookup_insert_ne in H0 by done. apply Hall in H0. congruence. }
    rewrite (Honly op r1 H1 Ht1). symmetry. eauto.
  - intros op op' r1 r2 H1 H2 Ht1 Ht2.
    assert (forall op0 r0, swap_record t (contents (w_journal w)) !! op0 = Some r0 ->
              is_terminal (state r0) = false ->
              exists r0', contents (w_journal w) !! op0 = Some r0' /\ is_terminal (state r0') = false) as Hold.
    { intros op0 r0 H0 Hf. unfold swap_record in H0.
      apply lookup_insert_Some in H0 as [[<- _]|[_ H0]]; eauto. }
    destruct (Hold op r1 H1 Ht1) as (? & ? & ?), (Hold op' r2 H2 Ht2) as (? & ? & ?). by eapply HU.
Qed.

Lemma exclusive_served w i a c k x j' g' :
  Exclusive w -> w_actors w !! i = Some a -> a_task a = Running (Ask c k) ->
  served w (a_gate a) c x j' g' ->
  Exclusive (set_journal (set_actor w i (with_task (with_gate a g') (Running (k x)))) j').
Proof.
  intros HE Hi Ht Hs. destruct c as [c|c|c|c|c].
  { destruct Hs as [Hh ->]. by eapply exclusive_records. }
  all: pose proof HE as [HJ _ HG HU]; specialize (HG i a Hi); unfold actor_guarded in HG;
    rewrite Ht in HG; destruct HG as [_ Hk].
  all: assert (Hl : live a) by (unfold live; by rewrite Ht).
  all: assert (j' = w_journal w) as -> by (destruct c; destruct_and?; naive_solver).
  all: eapply exclusive_actor; eauto; apply Hk.
  - by destruct Hs as [_ ->].
  - destruct c; by destruct Hs as (_ & -> & _).
  - destruct c; [by destruct Hs as (-> & _ & ->)|by destruct Hs as (_ & ->)|by destruct Hs as (_ & ->)].
  - by destruct Hs as [_ ->].
Qed.

Lemma exclusive_step w w' : Exclusive w -> step true w w' -> Exclusive w'.
Proof.
  intros HE Hst. pose proof HE as [HJ HS HG HU]. destruct Hst as
    [capacity id Hall|i a a' m Hi Hsend|i a Hi|i a a' Hi Hrecv|i a c k x j' g' Hi Ht Hs
    |i a r o t ctx k v Hi Ht Hv|i a n k v x Hi Ht Hn Hx|i a reply Hi Ht|i a Hi| | |].
  - (* spawn: every other actor has stopped *)
    assert (forall n b, w_actors w !! n = Some b -> ~ live b) as Hdead.
    { intros n b Hn Hb. specialize (Hall eq_refl). rewrite Forall_lookup in Hall.
      specialize (Hall n b Hn). unfold live in Hb. congruence. }
    split; simpl; [done| | |done].
    + intros n n' b b' Hn Hn' Hb Hb'.
      assert (forall n b, (w_actors w ++ [spawn_closed capacity id]) !! n = Some b -> live b ->
                n = length (w_actors w)) as Hlast.
      { intros n0 b0 H0 Hl. apply lookup_app_Some in H0 as [H0|[Hge H0]].
        - by destruct (Hdead n0 b0 H0).
        - apply list_lookup_singleton_Some in H0 as [? _]. lia. }
      rewrite (Hlast n b Hn Hb). symmetry. eauto.
    + intros n b Hn. apply lookup_app_Some in Hn as [Hn|[_ Hn]]; [by eapply HG|].
      apply list_lookup_singleton_Some in Hn as [_ <-]. done.
  - unfold try_send in Hsend. repeat case_match; simplify_eq.
    eapply exclusive_still; eauto. by apply (HG i a).
  - eapply exclusive_still; eauto. specialize (HG i a Hi). unfold actor_guarded in *. simpl.
    destruct (a_task a); [done| | |done]; destruct (a_gate a); auto using guarded_close.
  - unfold receive in Hrecv. repeat case_match; simplify_eq.
    match goal with Ht : a_task a = Idle |- _ => rename Ht into Hidle end.
    eapply exclusive_still; eauto; [by unfold live; rewrite Hidle|]. simpl.
    apply guarded_message; [by apply contents_keyed_all|].
    specialize (HG i a Hi). unfold actor_guarded in HG. by rewrite Hidle in HG.
  - by eapply exclusive_served.
  - assert (Exclusive (set_actor w i (with_task a (Committing (length (w_invocations w)) k)))) as [? ? ? ?];
      [|by split].
    eapply exclusive_still; eauto; [by unfold live; rewrite Ht|]. specialize (HG i a Hi).
    unfold actor_guarded in *. rewrite Ht in HG. destruct HG as [_ HG]. simpl. intros x. by apply HG.
  - eapply exclusive_still; eauto; [by unfold live; rewrite Ht|]. specialize (HG i a Hi).
    unfold actor_guarded in *. rewrite Ht in HG. apply HG.
  - specialize (HG i a Hi). unfold actor_guarded in HG. rewrite Ht in HG. destruct HG as [Hp HG].
    eapply exclusive_still; eauto; [by unfold live; rewrite Ht|]. by destruct reply.
  - by eapply exclusive_still.
  - by split.
  - by split.
  - by split.
Qed.

Lemma exclusive_reachable w : reachable true w -> Exclusive w.
Proof.
  apply reachable_ind.
  - intros w0 (HJ & Hm & _ & _ & HA). split; [done|..]; rewrite ?HA, ?Hm.
    + intros i j a b Hi. by rewrite lookup_nil in Hi.
    + intros i a Hi. by rewrite lookup_nil in Hi.
    + intros op op' r r' Hr. by rewrite lookup_empty in Hr.
  - intros w1 w2. apply exclusive_step.
Qed.
End invariant.
