(* ===== verification/ActorEffects.v ===== *)
(** Every effect call of an actor passes the validation of the effect families: the record is in
    the state the effect expects, the owner and the transaction are the recorded ones, and the
    context is current. *)

From stdpp Require Import sorting.
From S2P Require Import Prelude.
From S2P Require Import CommandModel.
From S2P Require Import CommandTheory.
From S2P Require Import ActorModel.
From S2P Require Import ActorLogic.
From S2P Require Import EffectContract.
From S2P Require Import ActorWorld.
From S2P Require Import ActorKnowledge.
From S2P Require Import ActorSafety.
Local Open Scope Z_scope.

(** A recovery owner [ro] already stands in the record, of a generation that [o] does not surpass. *)
Definition overtaken (ro o : ExecutionOwner) : Prop :=
  ro <> o /\ fence_generation (fence o) <= fence_generation (fence ro).

(** The actor [self] asks under the active fence, and the family accepts the attempt, the owner and the
    transaction that the record holds. Only a reconciliation may be refused, and only because the
    record has been overtaken. *)
Definition admissible (self : ActorId) (c : EffectCall) : Prop :=
  match c with
  | PrepareEffect r o ctx =>
      o = active_owner self ctx
      /\ exists a, state r = StateExecuting a o
           /\ executing_attempt r o ctx (routed_kind r) = Ok (mk_ValidatedCommandAttempt (command r) a o None)
  | CommitEffect r o t ctx =>
      o = active_owner self ctx
      /\ exists a, state r = StateCommitPrepared a o t
           /\ prepared_attempt r o t ctx (routed_kind r)
              = Ok (mk_ValidatedCommandAttempt (command r) a o (Some t))
  | ReconcileEffect r o t ctx =>
      o = active_owner self ctx
      /\ exists a eo ro u n e, state r = StateAwaitingReconciliation a eo ro t u n e
           /\ ((owner_at_or_after ro o
                /\ reconciliation_attempt r o t ctx (routed_kind r)
                   = Ok (mk_ValidatedCommandRecovery (mk_ValidatedCommandAttempt (command r) a eo (Some t)) o))
               \/ (overtaken ro o
                   /\ reconciliation_attempt r o t ctx (routed_kind r) = Err ContextUnavailable))
  end.

(** The protocol: records that are looked up satisfy the invariant of the reducer. *)
Definition effect_allows (self : ActorId) (_ : unit) (c : PortCall) : Prop :=
  match c with Effects c => admissible self c | _ => True end.

Definition effect_answers (_ : unit) (c : PortCall) : answer c -> unit -> Prop :=
  match c return answer c -> unit -> Prop with
  | Records (LookupOperation _) => fun x _ =>
      match x with Ok (Some r) => record_invariant r | _ => True end
  | Records (CompareAndSwap t) => fun x _ =>
      match x with Ok (Stored r) => r = successor t | _ => True end
  | _ => fun _ _ => True
  end.

Definition effect_protocol (self : ActorId) : Protocol unit := mk_Protocol (effect_allows self) effect_answers.

(** ** What validation checks *)

Lemma validate_context_Ok r o c :
  active_fence c = fence o -> current_head c = expected_head (command r) ->
  forall b, validate_context r o c b = Ok tt.
Proof.
  intros Hf Hh b. unfold validate_context. rewrite !bool_decide_eq_true_2 by done. by destruct b.
Qed.

Lemma validate_kind_Ok r : validate_kind r (routed_kind r) = Ok tt.
Proof. unfold validate_kind. by rewrite routed_kind_eq, bool_decide_eq_true_2. Qed.

Lemma validated_attempt_Ok r a o t :
  fence_at_or_after (writer_fence (command r)) (fence o) ->
  validated_attempt r a o t = Ok (mk_ValidatedCommandAttempt (command r) a o t).
Proof. intros Hf. unfold validated_attempt. by rewrite (proj2 (not_after_false _ _) Hf). Qed.

Lemma active_owner_eq self o c : actor_id o = self -> active_fence c = fence o -> o = active_owner self c.
Proof. destruct o as [i f]. unfold active_owner. simpl. by intros <- ->. Qed.

Lemma executing_admissible self r a o c :
  actor_id o = self -> record_invariant r -> state r = StateExecuting a o -> context_allows r (EvStart o) c ->
  admissible self (PrepareEffect r o c).
Proof.
  intros Ho [_ Hi] Hs [Hf Hh]. rewrite Hs in Hi. destruct Hi as (_ & _ & Hfence). simpl.
  split; [by apply active_owner_eq|]. exists a. split; [done|].
  unfold executing_attempt. rewrite validate_context_Ok, validate_kind_Ok, Hs by done.
  rewrite bool_decide_eq_true_2 by done. simpl. by rewrite validated_attempt_Ok.
Qed.

Lemma prepared_admissible self r a o t c :
  actor_id o = self -> record_invariant r -> state r = StateCommitPrepared a o t ->
  context_allows r (EvPrepareCommit o t) c -> admissible self (CommitEffect r o t c).
Proof.
  intros Ho [_ Hi] Hs [Hf Hh]. rewrite Hs in Hi. destruct Hi as (_ & _ & Hfence). simpl.
  split; [by apply active_owner_eq|]. exists a. split; [done|].
  unfold prepared_attempt. rewrite validate_context_Ok, validate_kind_Ok, Hs by done.
  rewrite !bool_decide_eq_true_2 by done. simpl. by rewrite validated_attempt_Ok.
Qed.

Lemma owner_advance_Ok o o' b : owner_at_or_after o o' -> validate_owner_advance o o' b = Ok tt.
Proof.
  intros Ho. unfold validate_owner_advance. destruct Ho as [->|Hlt].
  - by rewrite bool_decide_eq_true_2.
  - unfold fence_generation in Hlt. rewrite (proj2 (Z.ltb_lt _ _) Hlt), orb_true_r. done.
Qed.

Lemma owner_advance_cases ro o :
  (owner_at_or_after ro o /\ validate_owner_advance ro o false = Ok tt)
  \/ (overtaken ro o /\ validate_owner_advance ro o false = Err ContextUnavailable).
Proof.
  unfold validate_owner_advance, owner_at_or_after, overtaken, fence_generation.
  case_bool_decide as He; simpl; [by auto|]. destruct (Z.ltb_spec (generation_get (generation (fence ro)))
    (generation_get (generation (fence o)))); [left|right]; auto.
Qed.

Lemma reconcile_admissible r a eo ro t u n l c self :
  record_invariant r -> state r = StateAwaitingReconciliation a eo ro t u n l ->
  admissible self (ReconcileEffect r (active_owner self c) t c).
Proof.
  intros [_ Hi] Hs. rewrite Hs in Hi. destruct Hi as (_ & _ & _ & Hfence & Ho & _). simpl.
  split; [done|]. exists a, eo, ro, u, n, l. split; [done|].
  unfold reconciliation_attempt, validate_context. rewrite validate_kind_Ok, Hs.
  rewrite (bool_decide_eq_true_2 (active_fence c = _)) by done. simpl. rewrite owner_advance_Ok by done. simpl.
  destruct (owner_advance_cases ro (active_owner self c)) as [[Ha ->]|[Hno ->]]; [left|by right].
  simpl. rewrite bool_decide_eq_true_2 by done. by rewrite validated_attempt_Ok.
Qed.

(** ** Handlers *)

Section handlers.
Context (self : ActorId).

Abbreviation sound p Φ := (obeys (effect_protocol self) p tt Φ).

Lemma sound_read_context {B} r (f : ReductionContext -> actor_prog B) Φ :
  (forall e, Φ (Err e) tt) -> (forall c, sound (f c) Φ) ->
  sound (try_bind (port (read_reduction_context r)) f) Φ.
Proof. intros He Hf. prog_ask; [done|]. intros [c|e] [] _; prog_simpl; auto. Qed.

Lemma sound_swap r r' eff (Φ : result CommandRecord FabricCommandActorError -> unit -> Prop) :
  (forall e, Φ (Err e) tt) -> Φ (Ok r') tt ->
  sound
    (await? write := port (compare_and_swap (mk_ReducerTransition r r' eff)) in
     match write with
     | Stored stored =>
         if bool_decide (stored = r') then Ret (Ok stored) else Ret (Err DurableTransitionMismatch)
     | RevisionConflicted observed =>
         Ret (Err (RevisionConflict (revision r) (revision <$> observed)))
     end)%prog Φ.
Proof.
  intros He Hok. prog_ask; [done|]. intros [[st|obs]|err] [] Hx; prog_simpl; auto.
  simpl in Hx. subst st. by rewrite bool_decide_eq_true_2.
Qed.

Lemma sound_transition r e :
  record_invariant r ->
  sound (actor_transition r e) (fun x _ =>
    match x with
    | Ok r' => record_invariant r'
               /\ (r' = r /\ replays (command r) (state r) e \/ moves (command r) (state r) e (state r'))
    | Err _ => True
    end).
Proof.
  intros Hi. apply sound_read_context; [done|]. intros c. apply obeys_reduced; [done|].
  intros red Hred. apply reduce_spec in Hred as [(s' & Hm & _ & Hr & ->)|(Hp & _ & ->)]; [|simpl; auto].
  assert (record_invariant (mk_CommandRecord (command r) s' (revision r + 1))) as Hi'.
  { destruct Hi as [? Hs]. split; simpl; [lia|]. eapply moves_invariant; eauto. lia. }
  unfold material_reduction; cbn [effect transition predecessor successor transition_effect reduced_record].
  rewrite !(bool_decide_eq_true_2 _ eq_refl). cbn [negb orb].
  destruct (event_effect e) eqn:He; [by apply sound_swap; auto| |by apply sound_swap; auto].
  by destruct e as [| | | | |? ? []|].
Qed.

Lemma sound_validate r e :
  is_terminal (state r) = false ->
  sound (validate_idempotent r e) (fun x _ =>
    match x with Ok c => context_allows r e c | Err _ => True end).
Proof.
  intros Ht. apply sound_read_context; [done|]. intros c. apply obeys_reduced; [done|].
  intros red Hred. apply reduce_live in Hred as [Hc _]; [|done].
  by destruct (negb _ || negb _)%bool.
Qed.

Lemma sound_finish r e : record_invariant r -> sound (actor_transition r e) (fun _ _ => True).
Proof. intros Hi. eapply obeys_mono; [by apply sound_transition|done]. Qed.

Lemma sound_commit_prepared r a o t :
  actor_id o = self -> record_invariant r -> state r = StateExecuting a o -> sound (commit_prepared r o t) (fun _ _ => True).
Proof.
  intros Ho Hi Hs. apply obeys_try. eapply obeys_mono; [by apply sound_transition|].
  intros [r1|e] []; [|done]. rewrite Hs. intros (Hi1 & [[_ Hp]|Hm]); [by inversion Hp|].
  assert (state r1 = StateCommitPrepared a o t) as Hs1 by (by inversion Hm).
  apply obeys_try. eapply obeys_mono; [apply sound_validate; by rewrite Hs1|].
  intros [c|e] []; [intros Hc|done]. prog_ask; [by eapply prepared_admissible|].
  intros [x|e] [] _; prog_simpl; [by apply sound_finish|done].
Qed.

Lemma sound_start r o :
  actor_id o = self -> record_invariant r ->
  sound (await? started := actor_transition r (EvStart o) in execute_started started o)%prog (fun _ _ => True).
Proof.
  intros Ho Hi. apply obeys_try. eapply obeys_mono; [by apply sound_transition|].
  intros [r1|e] []; [|done]. intros (Hi1 & Hcase).
  assert (exists a, state r1 = StateExecuting a o) as [a Hs].
  { destruct Hcase as [[-> Hp]|Hm]; [inversion Hp|inversion Hm]; eauto. }
  apply obeys_try. eapply obeys_mono; [apply sound_validate; by rewrite Hs|].
  intros [c|e] []; [intros Hc|done]. prog_ask; [by eapply executing_admissible|].
  intros [[t|f|c']|e] [] _; prog_simpl;
    [by eapply sound_commit_prepared|by apply sound_finish|by apply sound_finish|done].
Qed.

Lemma sound_find op (f : CommandRecord -> actor_prog CommandRecord) :
  (forall r, record_invariant r -> sound (f r) (fun _ _ => True)) ->
  sound (try_bind (find_operation op) f) (fun _ _ => True).
Proof.
  intros Hf. apply obeys_try. prog_ask; [done|]. intros [[r|]|e] [] Hx; prog_simpl; auto.
Qed.

Lemma sound_submit cmd : sound (process_submit self cmd) (fun _ _ => True).
Proof.
  unfold process_submit. prog_ask; [done|]. intros [[r|]|e] [] _; prog_simpl; try done.
  prog_ask; [done|]. intros [c|e] [] _; prog_simpl; [|done].
  apply obeys_reduced; [done|]. intros [r|r] Ha; [|done]. apply admitted_record in Ha as ->.
  prog_ask; [done|]. intros [[st|ex]|e] [] _; prog_simpl; try done.
  case_bool_decide; prog_simpl; [|done]. subst st. apply sound_start; [done|].
  split; simpl; [unfold u64_max|]; lia.
Qed.

Lemma sound_message m : sound (handle_message self m) (fun _ _ => True).
Proof.
  destruct m as [cmd|op c|op|op|op|op u| |]; cbn [handle_message]; try apply obeys_bind.
  - prog_ask; [done|]. intros b [] _. prog_simpl. apply obeys_bind.
    apply obeys_mono with (fun _ _ => True).
    + destruct b; [apply sound_submit|done].
    + intros x [] _. by destruct (recovery_required x); [prog_ask|].
  - apply sound_find. intros r Hi. apply sound_read_context; [done|]. intros ctx. cbv zeta. apply obeys_try.
    apply obeys_mono with (fun x _ => match x with Ok r' => record_invariant r' | Err _ => True end).
    + destruct (state r) eqn:Hs; try done. case_bool_decide; prog_simpl; [done|].
      eapply obeys_mono; [by apply sound_transition|]. intros [r'|] []; naive_solver.
    + intros [r'|e] [] Hi'; [|done]. by apply sound_finish.
  - apply sound_find. intros r Hi. destruct (state r) eqn:Hs; try done.
    apply sound_read_context; [done|]. intros ctx. prog_ask; [by eapply reconcile_admissible|].
    intros [x|e] [] _; prog_simpl; [by apply sound_finish|done].
  - apply sound_find. intros r Hi. destruct (state r); try done.
    apply sound_read_context; [done|]. intros ctx. cbv zeta. case_match; [done|]. by apply sound_start.
  - apply sound_find. intros r Hi. destruct (state r); try done;
      (apply sound_read_context; [done|]; intros ctx; by apply sound_start).
  - apply sound_find. intros r Hi. destruct (state r); try done.
    apply sound_read_context; [done|]. intros ctx. by apply sound_finish.
  - prog_ask; [done|]. intros u [] _. prog_simpl. prog_ask; [done|].
    intros [[r|]|e] [] _; prog_simpl; [by destruct (recovery_obligation r)|by prog_ask|done].
  - done.
Qed.

End handlers.

(** ** Actors at work *)

Definition actor_sound (a : Actor) : Prop :=
  match a_task a with
  | Running p => obeys (effect_protocol (a_id a)) p tt (fun _ _ => True)
  | Committing _ k => forall x, obeys (effect_protocol (a_id a)) (k x) tt (fun _ _ => True)
  | Idle | Stopped => True
  end.

Section world.
Context {J : Type} `{!DurableCommandRecordPort J, !DurableCommandRecordLaws J}.

Lemma served_sound (w : World J) Ks g c x j' g' :
  Ledger w Ks -> served w g c x j' g' -> effect_answers tt c x tt.
Proof.
  intros HL Hs. destruct c as [c| | | |]; try done. destruct Hs as [Hh _].
  destruct c as [ |op| |t| |]; try done; simpl.
  - pose proof (handles_contract _ _ _ _ (lg_journal _ _ HL) Hh) as [_ Hx].
    destruct x as [[r|]|]; try done. destruct (lg_booked _ _ HL) as [_ Hb]. specialize (Hb op).
    rewrite <- Hx in Hb. apply Hb.
  - pose proof (handles_contract _ _ _ _ (lg_journal _ _ HL) Hh) as Hx.
    destruct x as [[r|]|]; try done. apply Hx.
Qed.

(** Replacing one actor by a sound one. *)
Lemma all_sound_insert (l : list Actor) i a :
  (forall n b, l !! n = Some b -> actor_sound b) -> actor_sound a ->
  forall n b, <[i := a]> l !! n = Some b -> actor_sound b.
Proof. intros Hl Ha n b Hn. apply list_lookup_insert_Some in Hn as [(_ & <- & _)|[_ Hn]]; eauto. Qed.

Lemma sound_step lease (w w' : World J) Ks :
  Ledger w Ks -> (forall n b, w_actors w !! n = Some b -> actor_sound b) -> step lease w w' ->
  forall n b, w_actors w' !! n = Some b -> actor_sound b.
Proof.
  intros HL Hall Hst. destruct Hst as
    [capacity id _|i a a' m Hi Hsend|i a Hi|i a a' Hi Hrecv|i a c k x j' g' Hi Ht Hs
    |i a r o t ctx k v Hi Ht Hv|i a n k v x Hi Ht Hn Hx|i a reply Hi Ht|i a Hi| | |]; simpl; try done.
  - intros n b Hn. apply lookup_app_Some in Hn as [Hn|[_ Hn]]; [eauto|].
    by apply list_lookup_singleton_Some in Hn as [_ <-].
  - apply all_sound_insert; [done|]. unfold try_send in Hsend. repeat case_match; simplify_eq.
    by apply (Hall i a).
  - apply all_sound_insert; [done|]. by apply (Hall i a).
  - apply all_sound_insert; [done|]. unfold receive in Hrecv. repeat case_match; simplify_eq.
    apply sound_message.
  - apply all_sound_insert; [done|]. specialize (Hall i a Hi). unfold actor_sound in *. rewrite Ht in Hall.
    apply Hall. by eapply served_sound.
  - apply all_sound_insert; [done|]. specialize (Hall i a Hi). unfold actor_sound in *. rewrite Ht in Hall.
    intros x. by apply Hall.
  - apply all_sound_insert; [done|]. specialize (Hall i a Hi). unfold actor_sound in *. rewrite Ht in Hall.
    apply Hall.
  - apply all_sound_insert; [done|]. by destruct reply.
  - by apply all_sound_insert.
Qed.

Lemma sound_reachable lease (w : World J) :
  reachable lease w ->
  (exists Ks, Ledger w Ks) /\ forall n b, w_actors w !! n = Some b -> actor_sound b.
Proof.
  apply (reachable_ind lease (fun w => (exists Ks, Ledger w Ks)
           /\ forall n b, w_actors w !! n = Some b -> actor_sound b)).
  - intros w0 H0. split; [by apply (ledger_reachable lease); exists w0|].
    destruct H0 as (_ & _ & _ & _ & HA). rewrite HA. intros n b Hn. by rewrite lookup_nil in Hn.
  - intros w1 w2 [[Ks HL] Hall] Hst. split; [by eapply ledger_step|by eapply sound_step].
Qed.
End world.
