(* ===== verification/Sqlite.v ===== *)
(** A SQLite connection as the stores of the fabric use one: a table, and a script of the faults that
    its statements and commits meet. A transaction that ends without its commit leaves the table as
    it was; one whose commit fails may have been applied. *)

From S2P Require Import Prelude.
From S2P Require Import Encoding.

(** [map_err] on a computation with state. *)
Definition st_map_err {S E F A} (f : E -> F) (m : stm S E A) : stm S F A := fun s =>
  match m s with
  | (s', Ok a) => (s', Ok a)
  | (s', Err e) => (s', Err (f e))
  end.

Lemma wp_map_err {S E F A} (f : E -> F) (m : stm S E A) s Φ :
  wp m s (fun r s' => Φ (match r with Ok a => Ok a | Err e => Err (f e) end) s') -> wp (st_map_err f m) s Φ.
Proof. unfold wp, st_map_err. by destruct (m s) as [s' [a|e]]. Qed.

Lemma wp_get {S E} (s : S) (Φ : result S E -> S -> Prop) : Φ (Ok s) s -> wp st_get s Φ.
Proof. done. Qed.

(** A 64-bit counter stored as a blob of its big-endian bytes. *)
Lemma u64_blob_roundtrip z : (0 <= z <= u64_max)%Z -> from_be_bytes (to_be_bytes 8 z) = z.
Proof.
  intros Hz. apply from_to_be_bytes. change (2 ^ (8 * Z.of_nat 8))%Z with (u64_max + 1)%Z. lia.
Qed.

Inductive Fault := Passes | Fails | AppliedButFails.

Record Connection (K V : Type) `{Countable K} := mk_Store {
  table : gmap K V;
  faults : list Fault
}.
Arguments mk_Store {K V _ _} _ _.
Arguments table {K V _ _} _.
Arguments faults {K V _ _} _.

Section connection.
Context {K V E : Type} `{Countable K} (unavailable : E).
Implicit Types s : Connection K V.

(** A statement that reads, or that writes inside a transaction: [map_err(..)?]. *)
Definition sql_statement : stm (Connection K V) E unit := fun s =>
  match faults s with
  | (Fails | AppliedButFails) :: rest => (mk_Store (table s) rest, Err unavailable)
  | _ => (mk_Store (table s) (tail (faults s)), Ok tt)
  end.

(** [transaction.commit().map_err(..)?] of a transaction that wrote [t]. *)
Definition sql_commit (t : gmap K V) : stm (Connection K V) E unit := fun s =>
  match faults s with
  | Fails :: rest => (mk_Store (table s) rest, Err unavailable)
  | AppliedButFails :: rest => (mk_Store t rest, Err unavailable)
  | _ => (mk_Store t (tail (faults s)), Ok tt)
  end.

Lemma wp_statement s Φ :
  (forall f, Φ (Ok tt) (mk_Store (table s) f)) ->
  (forall f, Φ (Err unavailable) (mk_Store (table s) f)) -> wp sql_statement s Φ.
Proof. intros Hok Herr. unfold wp, sql_statement. destruct (faults s) as [|[] l]; simpl; auto. Qed.

(** Without faults every statement passes and every commit is applied. *)
Lemma statement_passes t : sql_statement (mk_Store t []) = (mk_Store t [], Ok tt).
Proof. done. Qed.

Lemma commit_passes t t' : sql_commit t' (mk_Store t []) = (mk_Store t' [], Ok tt).
Proof. done. Qed.

Lemma wp_commit t s Φ :
  (forall f, Φ (Ok tt) (mk_Store t f)) ->
  (forall t' f, t' = table s \/ t' = t -> Φ (Err unavailable) (mk_Store t' f)) -> wp (sql_commit t) s Φ.
Proof. intros Hok Herr. unfold wp, sql_commit. destruct (faults s) as [|[] l]; simpl; auto. Qed.
End connection.
