(* ===== verification/JournalModel.v ===== *)
(** The SQLite command journal of src/src/fabric/command_record_sqlite.rs: its table, the statements
    the worker runs, and the requests of the record port.

    The table maps the primary key to rows of columns. The canonical JSON codec is a class. *)

From stdpp Require Import sorting.
From S2P Require Import Prelude.
From S2P Require Import Encoding.
From S2P Require Import CommandModel.
From S2P Require Import ActorModel.
From S2P Require Import ActorLogic.
From S2P Require Import Sqlite.
Local Open Scope Z_scope.

(** [serde_json_canonicalizer::to_vec] and [serde_json::from_slice] on records. *)
Class CommandCodec := {
  record_to_vec : CommandRecord -> option (list byte);
  record_from_slice : list byte -> option CommandRecord
}.

(** What was written is read back. *)
Class CommandCodecLaws `{CommandCodec} := {
  record_roundtrip r b : record_to_vec r = Some b -> record_from_slice b = Some r
}.

Definition MAX_RECORD_BYTES : Z := 64 * 1024.

(** [CommandRecoveryPageSize]: a [NonZeroU16] of at most [MAX]. *)
Definition PAGE_SIZE_MAX : Z := 1024.
Definition CommandRecoveryPageSize_new (value : Z) : option Z :=
  if ((value =? 0) || (PAGE_SIZE_MAX <? value))%bool then None else Some value.

(** ** Rows *)

Record StoredRow := mk_StoredRow {
  row_operation_id : list byte;
  row_idempotency_key : list byte;
  row_workspace_id : list byte;
  row_revision : list byte;
  row_state_kind : string;
  row_is_terminal : Z;
  row_record_jcs : list byte
}.

Definition state_kind_name (kind : CommandStateKind) : string :=
  match kind with
  | KAdmitted => "ADMITTED"
  | KExecuting => "EXECUTING"
  | KCommitPrepared => "COMMIT_PREPARED"
  | KAwaitingReconciliation => "AWAITING_RECONCILIATION"
  | KRetryReady => "RETRY_READY"
  | KSucceeded => "SUCCEEDED"
  | KFailed => "FAILED"
  | KCancelled => "CANCELLED"
  end%string.

(** The [CHECK] constraints of the schema. *)
Definition schema_accepts (row : StoredRow) : bool :=
  (Nat.eqb (length (row_operation_id row)) 16
   && Nat.eqb (length (row_idempotency_key row)) 32
   && Nat.eqb (length (row_workspace_id row)) 16
   && Nat.eqb (length (row_revision row)) 8
   && bool_decide (row_state_kind row ∈ ["ADMITTED"; "EXECUTING"; "COMMIT_PREPARED";
        "AWAITING_RECONCILIATION"; "RETRY_READY"; "SUCCEEDED"; "FAILED"; "CANCELLED"]%string)
   && ((row_is_terminal row =? 0) || (row_is_terminal row =? 1))
   && (2 <=? Z.of_nat (length (row_record_jcs row)))
   && (Z.of_nat (length (row_record_jcs row)) <=? 65536))%bool.

(** The connection to the table. *)
Abbreviation SqliteCommandRecordStore := (Connection OperationId StoredRow).
Abbreviation query A := (stm SqliteCommandRecordStore CommandPortError A).
Abbreviation statement := (sql_statement DurableStoreUnavailable).
Abbreviation commit_transaction := (sql_commit DurableStoreUnavailable).

Section journal.
Context `{CommandCodec}.

Definition encode_record (record : CommandRecord) : result (list byte) CommandPortError :=
  let? _ := map_err (fun _ => CorruptRecord) (validate_persisted_invariants record) in
  let? bytes := ok_or (record_to_vec record) CorruptRecord in
  if negb ((2 <=? Z.of_nat (length bytes)) && (Z.of_nat (length bytes) <=? MAX_RECORD_BYTES))%bool
  then Err CorruptRecord
  else Ok bytes.

(** The columns bound by the [INSERT] and by the [UPDATE]. *)
Definition row_of (record : CommandRecord) (encoded : list byte) : StoredRow :=
  let cmd := command record in
  mk_StoredRow (as_slice (as_bytes (operation_id (identity cmd))))
    (as_slice (as_bytes (idempotency_key (identity cmd))))
    (as_slice (as_bytes (owner_workspace_id (ownership cmd))))
    (to_be_bytes 8 (revision record))
    (state_kind_name (state_kind (state record)))
    (if is_terminal (state record) then 1 else 0)
    encoded.

Definition decode_row (row : StoredRow) : result CommandRecord CommandPortError :=
  if (negb (Nat.eqb (length (row_operation_id row)) 16)
      || negb (Nat.eqb (length (row_idempotency_key row)) 32)
      || negb (Nat.eqb (length (row_workspace_id row)) 16)
      || negb (Nat.eqb (length (row_revision row)) 8)
      || (MAX_RECORD_BYTES <? Z.of_nat (length (row_record_jcs row)))
      || negb ((row_is_terminal row =? 0) || (row_is_terminal row =? 1)))%bool
  then Err CorruptRecord
  else
    let? record := ok_or (record_from_slice (row_record_jcs row)) CorruptRecord in
    let? _ := map_err (fun _ => CorruptRecord) (validate_persisted_invariants record) in
    let? encoded := encode_record record in
    if negb (bool_decide (encoded = row_record_jcs row)) then Err CorruptRecord
    else
      let cmd := command record in
      let rev := from_be_bytes (row_revision row) in
      if (negb (bool_decide (as_slice (as_bytes (operation_id (identity cmd))) = row_operation_id row))
          || negb (bool_decide (as_slice (as_bytes (idempotency_key (identity cmd)))
                                = row_idempotency_key row))
          || negb (bool_decide (as_slice (as_bytes (owner_workspace_id (ownership cmd)))
                                = row_workspace_id row))
          || negb (revision record =? rev)
          || negb (bool_decide (state_kind_name (state_kind (state record)) = row_state_kind row))
          || negb (Bool.eqb (is_terminal (state record)) (row_is_terminal row =? 1)))%bool
      then Err CorruptRecord
      else Ok record.

(** Rows decoded in order, up to the first that does not decode. *)
Fixpoint decode_rows (rows : list StoredRow) : result (list CommandRecord) CommandPortError :=
  match rows with
  | [] => Ok []
  | row :: rows =>
      let? record := decode_row row in
      let? records := decode_rows rows in
      Ok (record :: records)
  end.

(** [decode_nonterminal_rows]: stop at the first [target] nonterminal records. *)
Fixpoint decode_nonterminal_rows (target : nat) (rows : list StoredRow)
  : result (list CommandRecord) CommandPortError :=
  match rows with
  | [] => Ok []
  | row :: rows =>
      let? record := decode_row row in
      if negb (is_terminal (state record)) then
        match target with
        | O | S O => Ok [record]
        | S target =>
            let? records := decode_nonterminal_rows target rows in
            Ok (record :: records)
        end
      else decode_nonterminal_rows target rows
  end.

(** [ORDER BY operation_id]: blobs compare byte by byte. *)
Definition ordered_rows (t : gmap OperationId StoredRow) : list (OperationId * StoredRow) :=
  merge_sort (fun a b => bytes_le (as_slice (as_bytes a.1)) (as_slice (as_bytes b.1))) (map_to_list t).

(** [WHERE operation_id = ?1 OR idempotency_key = ?2 ORDER BY operation_id]. *)
Definition select_admission (t : gmap OperationId StoredRow) (op : OperationId) (key : IdempotencyKey)
  : list StoredRow :=
  (filter (fun p => p.1 = op \/ row_idempotency_key p.2 = as_slice (as_bytes key)) (ordered_rows t)).*2.

(** [WHERE operation_id > ?1 ORDER BY operation_id], or all rows. *)
Definition select_after (t : gmap OperationId StoredRow) (after : option OperationId) : list StoredRow :=
  match after with
  | Some a => (filter (fun p => ~ bytes_le (as_slice (as_bytes p.1)) (as_slice (as_bytes a)))
                 (ordered_rows t)).*2
  | None => (ordered_rows t).*2
  end.

(** A row other than that of [op] has the idempotency key: the [UNIQUE] constraint. *)
Definition key_taken (t : gmap OperationId StoredRow) (op : OperationId) (key : list byte) : bool :=
  existsb (fun p => (negb (bool_decide (p.1 = op)) && bool_decide (row_idempotency_key p.2 = key))%bool)
    (map_to_list t).

(** [INSERT OR IGNORE]: a row that violates a constraint is not inserted. *)
Definition insert_or_ignore (t : gmap OperationId StoredRow) (op : OperationId) (row : StoredRow)
  : gmap OperationId StoredRow * bool :=
  if (bool_decide (is_Some (t !! op)) || key_taken t op (row_idempotency_key row)
      || negb (schema_accepts row))%bool
  then (t, false) else (<[op := row]> t, true).

(** ** Requests *)

Definition lookup_admission_on (t : gmap OperationId StoredRow) (op : OperationId) (key : IdempotencyKey)
  : query (option CommandRecord) :=
  do! _ <- statement;
  do! records <- st_lift (decode_rows (select_admission t op key));
  match records with
  | [] => st_ret None
  | [record] => st_ret (Some record)
  | _ => st_err CorruptRecord
  end.

Definition lookup_admission_sync (op : OperationId) (key : IdempotencyKey) : query (option CommandRecord) :=
  do! s <- st_get; lookup_admission_on (table s) op key.

Definition lookup_operation_sync (op : OperationId) : query (option CommandRecord) :=
  do! _ <- statement;
  do! s <- st_get;
  match table s !! op with
  | Some row => do! record <- st_lift (decode_row row); st_ret (Some record)
  | None => st_ret None
  end.

Definition insert_if_absent_sync (admitted : CommandRecord) : query DurableAdmissionWrite :=
  if negb (revision admitted =? 0) then st_err CorruptRecord
  else
    do! _ <- statement;
    do! encoded <- st_lift (encode_record admitted);
    do! _ <- statement;
    do! s <- st_get;
    let op := record_operation admitted in
    let (t, inserted) := insert_or_ignore (table s) op (row_of admitted encoded) in
    do! outcome <- (if inserted : bool then st_ret (Inserted admitted)
                    else
                      do! existing <- lookup_admission_on t op (record_key admitted);
                      do! existing <- st_lift (ok_or existing CorruptRecord);
                      st_ret (AlreadyAdmitted existing));
    do! _ <- commit_transaction t;
    st_ret outcome.

Definition compare_and_swap_sync (t : ReducerTransition) : query DurableTransitionWrite :=
  let pred := predecessor t in
  let succ := successor t in
  let op := record_operation pred in
  do! next_revision <- st_lift (ok_or (checked_add u64_max (revision pred) 1) CorruptRecord);
  do! _ <- statement;
  do! observed <- lookup_operation_sync op;
  match observed with
  | None => do! _ <- statement; st_ret (RevisionConflicted None)
  | Some current =>
      if negb (revision current =? revision pred)
      then do! _ <- statement; st_ret (RevisionConflicted (Some current))
      else if negb (bool_decide (current = pred)) then st_err CorruptRecord
      else if (bool_decide (transition_effect t = IdempotentReplay)
               || negb (bool_decide (command succ = command current))
               || negb (bool_decide (record_operation succ = op))
               || negb (revision succ =? next_revision))%bool
      then st_err CorruptRecord
      else
        do! encoded <- st_lift (encode_record succ);
        do! _ <- statement;
        do! s <- st_get;
        let row := row_of succ encoded in
        match table s !! op with
        | Some stored =>
            if negb (bool_decide (row_revision stored = to_be_bytes 8 (revision pred)))
            then st_err CorruptRecord
            else if (key_taken (table s) op (row_idempotency_key row) || negb (schema_accepts row))%bool
            then st_err DurableStoreUnavailable
            else do! _ <- commit_transaction (<[op := row]> (table s)); st_ret (Stored succ)
        | None => st_err CorruptRecord
        end
  end.

Definition load_nonterminal_page_sync (after : option OperationId) (page_size : Z)
  : query CommandRecoveryPage :=
  do! _ <- statement;
  do! s <- st_get;
  do! records <- st_lift (decode_nonterminal_rows (Z.to_nat page_size + 1) (select_after (table s) after));
  let has_more := page_size <? Z.of_nat (length records) in
  let records := if has_more then removelast records else records in
  st_ret (mk_CommandRecoveryPage records
            (if has_more then record_operation <$> last records else None)).

(** [first_nonterminal]: a page of one. *)
Definition first_nonterminal_sync : query (option CommandRecord) :=
  do! page <- load_nonterminal_page_sync None 1;
  st_ret (head (page_records page)).

(** One turn of the worker. *)
Definition run_request (c : RecordCall) (s : SqliteCommandRecordStore)
  : SqliteCommandRecordStore * record_answer c :=
  match c return SqliteCommandRecordStore * record_answer c with
  | LookupAdmission op key => lookup_admission_sync op key s
  | LookupOperation op => lookup_operation_sync op s
  | InsertIfAbsent r => insert_if_absent_sync r s
  | CompareAndSwap t => compare_and_swap_sync t s
  | FirstNonterminal => first_nonterminal_sync s
  | LoadNonterminalPage after page_size => load_nonterminal_page_sync after page_size s
  end.

(** The channel to the worker is closed, or the response is dropped after the request has run. *)
Definition unavailable (c : RecordCall) : record_answer c :=
  match c return record_answer c with
  | LookupAdmission _ _ | LookupOperation _ | FirstNonterminal => Err DurableStoreUnavailable
  | InsertIfAbsent _ => Err DurableStoreUnavailable
  | CompareAndSwap _ => Err DurableStoreUnavailable
  | LoadNonterminalPage _ _ => Err DurableStoreUnavailable
  end.

Definition sqlite_handles (s : SqliteCommandRecordStore) (c : RecordCall) (x : record_answer c)
    (s' : SqliteCommandRecordStore) : Prop :=
  run_request c s = (s', x)
  \/ x = unavailable c /\ (s' = s \/ s' = (run_request c s).1).

(** The records the rows stand for. *)
Definition sqlite_contents (s : SqliteCommandRecordStore) : CommandRecords :=
  omap (fun row => match decode_row row with Ok r => Some r | Err _ => None end) (table s).

(** Every row is the exact row of a record under its own operation, and keys are unique. *)
Record sqlite_ok (s : SqliteCommandRecordStore) : Prop := {
  rows_exact op row : table s !! op = Some row ->
    exists r bytes, record_operation r = op /\ 0 <= revision r <= u64_max
                    /\ encode_record r = Ok bytes /\ row = row_of r bytes;
  keys_unique op op' row row' : table s !! op = Some row -> table s !! op' = Some row' ->
    row_idempotency_key row = row_idempotency_key row' -> op = op'
}.

#[export] Instance sqlite_record_port : DurableCommandRecordPort SqliteCommandRecordStore := {
  handles := sqlite_handles;
  journal_ok := sqlite_ok;
  contents := sqlite_contents
}.
End journal.
