(* ===== verification/JournalTheory.v ===== *)
(** The SQLite command journal implements the durable record port: whatever faults its connection
    meets, each request answers from the stored records and changes them as the contract says. *)

From stdpp Require Import sorting.
From S2P Require Import Prelude.
From S2P Require Import Encoding.
From S2P Require Import CommandModel.
From S2P Require Import CommandTheory.
From S2P Require Import ActorModel.
From S2P Require Import ActorLogic.
From S2P Require Import Sqlite.
From S2P Require Import JournalModel.
Local Open Scope Z_scope.

#[local] Arguments to_be_bytes : simpl never.
#[local] Arguments as_slice : simpl never.
#[local] Arguments from_be_bytes : simpl never.

(** *** Sorted lists *)

(** Sorted, with distinct keys: strictly sorted. *)
Lemma StronglySorted_strict {A K} (R : A -> A -> Prop) (f : A -> K) (l : list A) :
  StronglySorted R l -> NoDup (f <$> l) -> StronglySorted (fun a b => R a b /\ f a <> f b) l.
Proof.
  induction 1 as [|a l Hs IH Hall]; intros Hnd; [constructor|]. simpl in Hnd.
  apply NoDup_cons in Hnd as [Hn Hnd]. constructor; [auto|].
  rewrite Forall_forall in *. intros b Hb. split; [auto|]. intros Hf. apply Hn. rewrite Hf.
  apply list_elem_of_fmap. eauto.
Qed.

Lemma StronglySorted_mono {A} (R R' : A -> A -> Prop) (l : list A) :
  (forall a b, R a b -> R' a b) -> StronglySorted R l -> StronglySorted R' l.
Proof.
  intros HR. induction 1; constructor; [done|].
  eapply Forall_impl; [eassumption|]. auto.
Qed.

Lemma StronglySorted_filter_1 {A} (R : A -> A -> Prop) (P : A -> Prop) `{forall x, Decision (P x)} (l : list A) :
  StronglySorted R l -> StronglySorted R (filter P l).
Proof.
  induction 1 as [|a l Hs IH Hall]; [constructor|]. rewrite filter_cons.
  destruct (decide (P a)); [|done]. constructor; [done|].
  rewrite Forall_forall in *. intros b Hb. apply list_elem_of_filter in Hb as [_ Hb]. auto.
Qed.

(** Everything in the first [n] comes before everything after them. *)
Lemma StronglySorted_take_drop {A} (R : A -> A -> Prop) n (l : list A) :
  StronglySorted R l ->
  StronglySorted R (take n l) /\ forall a b, a ∈ take n l -> b ∈ drop n l -> R a b.
Proof.
  intros Hs. revert n. induction Hs as [|a l Hs IH Hall]; intros n;
    [rewrite take_nil; split; [constructor|set_solver]|].
  destruct n as [|n]; [split; [constructor|set_solver]|]. destruct (IH n) as [Ht Hlt]. simpl. split.
  - constructor; [done|]. rewrite Forall_forall in *. intros b Hb. apply Hall.
    rewrite <- (take_drop n l). set_solver.
  - intros x y [->|Hx]%elem_of_cons Hy; [|by apply Hlt]. rewrite Forall_forall in Hall. apply Hall.
    rewrite <- (take_drop n l). set_solver.
Qed.

(** The columns of the row of a record. *)
Ltac columns :=
  unfold row_of;
  cbn [row_operation_id row_idempotency_key row_workspace_id row_revision row_state_kind
       row_is_terminal row_record_jcs].

Section journal.
Context `{!CommandCodec, !CommandCodecLaws}.

(** ** Rows *)

Lemma encode_record_Ok r bytes :
  encode_record r = Ok bytes ->
  validate_persisted_invariants r = Ok tt /\ record_to_vec r = Some bytes
  /\ 2 <= Z.of_nat (length bytes) <= MAX_RECORD_BYTES.
Proof.
  unfold encode_record. intros He. inv_ok He.
  destruct (validate_persisted_invariants r) as [[]|]; simplify_eq/=.
  destruct (record_to_vec r); simplify_eq/=. zify_bool. done.
Qed.

(** The row of a record decodes to that record. *)
Lemma decode_row_of r bytes :
  0 <= revision r <= u64_max -> encode_record r = Ok bytes -> decode_row (row_of r bytes) = Ok r.
Proof.
  intros Hrev He. pose proof (encode_record_Ok r bytes He) as (Hv & Hvec & Hlen).
  unfold decode_row. columns. rewrite !length_as_slice, length_to_be_bytes.
  rewrite (proj2 (Z.ltb_ge _ _)) by lia. simpl.
  destruct (is_terminal (state r)) eqn:Ht; simpl; rewrite (record_roundtrip _ _ Hvec); simpl;
    rewrite Hv; simpl; rewrite He; rewrite !bool_decide_eq_true_2 by done; simpl;
    rewrite u64_blob_roundtrip, Z.eqb_refl, Ht by done; done.
Qed.

Lemma schema_accepts_row r bytes : encode_record r = Ok bytes -> schema_accepts (row_of r bytes) = true.
Proof.
  intros He. apply encode_record_Ok in He as (_ & _ & Hlen). unfold schema_accepts. columns.
  rewrite !length_as_slice, length_to_be_bytes. simpl.
  rewrite bool_decide_eq_true_2 by (destruct (state_kind (state r)); set_solver). simpl.
  unfold MAX_RECORD_BYTES in Hlen. rewrite (proj2 (Z.leb_le _ _)), (proj2 (Z.leb_le _ _)) by lia.
  by destruct (is_terminal (state r)).
Qed.

(** A stored row stands for a record. *)
Lemma stored_row s op row :
  sqlite_ok s -> table s !! op = Some row ->
  exists r, decode_row row = Ok r /\ record_operation r = op /\ sqlite_contents s !! op = Some r
            /\ row_idempotency_key row = as_slice (as_bytes (record_key r))
            /\ row_revision row = to_be_bytes 8 (revision r) /\ 0 <= revision r <= u64_max.
Proof.
  intros Hok Hr. destruct (rows_exact s Hok op row Hr) as (r & bytes & Ho & Hrev & He & ->).
  exists r. pose proof (decode_row_of r bytes Hrev He) as Hd.
  split; [done|]. split; [done|]. split; [|done].
  unfold sqlite_contents. rewrite lookup_omap, Hr. simpl. by rewrite Hd.
Qed.

Lemma contents_Some s op r :
  sqlite_ok s -> sqlite_contents s !! op = Some r ->
  record_operation r = op
  /\ exists row, table s !! op = Some row /\ decode_row row = Ok r
                 /\ row_idempotency_key row = as_slice (as_bytes (record_key r)).
Proof.
  intros Hok Hr. destruct (table s !! op) as [row|] eqn:Ht.
  - destruct (stored_row s op row Hok Ht) as (r' & Hd & Ho & Hc & Hk & _ & _).
    rewrite Hc in Hr. injection Hr as ->. eauto.
  - unfold sqlite_contents in Hr. by rewrite lookup_omap, Ht in Hr.
Qed.

Lemma contents_None s op : sqlite_ok s -> table s !! op = None -> sqlite_contents s !! op = None.
Proof. intros _ Ht. unfold sqlite_contents. by rewrite lookup_omap, Ht. Qed.

Lemma sqlite_ok_table s s' : table s' = table s -> sqlite_ok s -> sqlite_ok s'.
Proof. intros Ht [H1 H2]. split; rewrite Ht; done. Qed.

Lemma key_bytes_inj (k k' : IdempotencyKey) : as_slice (as_bytes k) = as_slice (as_bytes k') -> k = k'.
Proof. intros Hk. apply as_slice_inj in Hk. destruct k, k'. simpl in Hk. by subst. Qed.

Lemma operation_bytes_inj (a b : OperationId) : as_slice (as_bytes a) = as_slice (as_bytes b) -> a = b.
Proof. intros Hk. apply as_slice_inj in Hk. destruct a, b. simpl in Hk. by subst. Qed.

(** ** Writing a row *)

(** A row for [r] whose key no other row has may be put under its operation. *)
Lemma sqlite_ok_put s s' r bytes :
  sqlite_ok s -> encode_record r = Ok bytes -> 0 <= revision r <= u64_max ->
  key_taken (table s) (record_operation r) (as_slice (as_bytes (record_key r))) = false ->
  table s' = <[record_operation r := row_of r bytes]> (table s) ->
  sqlite_ok s' /\ sqlite_contents s' = <[record_operation r := r]> (sqlite_contents s).
Proof.
  intros Hok He Hrev Hfree Ht.
  assert (Hkey : forall op row, table s !! op = Some row -> op <> record_operation r ->
            row_idempotency_key row <> as_slice (as_bytes (record_key r))).
  { intros op row Hrow Hne Heq. apply not_true_iff_false in Hfree. apply Hfree.
    apply existsb_exists. exists (op, row). split; [by apply list_elem_of_In, elem_of_map_to_list|].
    simpl. by rewrite bool_decide_eq_false_2, bool_decide_eq_true_2. }
  split; [split; rewrite Ht|].
  - intros op row Hrow. apply lookup_insert_Some in Hrow as [[<- <-]|[_ Hrow]].
    + exists r, bytes. done.
    + by apply (rows_exact s Hok).
  - intros op op' row row' H1 H2 Heq.
    apply lookup_insert_Some in H1 as [[<- <-]|[Hn1 H1]]; apply lookup_insert_Some in H2 as [[<- <-]|[Hn2 H2]].
    + done.
    + by destruct (Hkey op' row' H2 (not_eq_sym Hn2)).
    + by destruct (Hkey op row H1 (not_eq_sym Hn1)).
    + by apply (keys_unique s Hok op op' row row').
  - apply map_eq. intros op. unfold sqlite_contents. rewrite lookup_omap, Ht.
    destruct (decide (op = record_operation r)) as [->|Hne].
    + rewrite !lookup_insert_eq. simpl. by rewrite decode_row_of.
    + rewrite !lookup_insert_ne by done. by rewrite lookup_omap.
Qed.

(** ** Reading *)

Lemma contents_table s s' : table s' = table s -> sqlite_contents s' = sqlite_contents s.
Proof. intros Ht. unfold sqlite_contents. by rewrite Ht. Qed.

Lemma decode_rows_Ok rows :
  (forall row, row ∈ rows -> exists r, decode_row row = Ok r) ->
  exists rs, decode_rows rows = Ok rs /\ Forall2 (fun row r => decode_row row = Ok r) rows rs.
Proof.
  induction rows as [|row rows IH]; intros Hall; [by exists []|].
  destruct (Hall row) as [r Hr]; [set_solver|]. destruct IH as (rs & Hrs & Hf); [set_solver|].
  exists (r :: rs). simpl. rewrite Hr, Hrs. auto.
Qed.

Lemma ordered_elem t op row : (op, row) ∈ ordered_rows t <-> t !! op = Some row.
Proof. unfold ordered_rows. by rewrite merge_sort_Permutation, elem_of_map_to_list. Qed.

Lemma select_admission_elem t op key row :
  row ∈ select_admission t op key
  <-> exists op', t !! op' = Some row /\ (op' = op \/ row_idempotency_key row = as_slice (as_bytes key)).
Proof.
  unfold select_admission. rewrite list_elem_of_fmap. split.
  - intros ([op' row'] & -> & Hin). apply list_elem_of_filter in Hin as [Hm Hin].
    apply ordered_elem in Hin. eauto.
  - intros (op' & Hr & Hm). exists (op', row). split; [done|].
    apply list_elem_of_filter. by rewrite ordered_elem.
Qed.

(** The records among the selected rows are the stored ones that match. *)
Lemma selected_records s op key rs :
  sqlite_ok s -> Forall2 (fun row r => decode_row row = Ok r) (select_admission (table s) op key) rs ->
  forall r, r ∈ rs <-> sqlite_contents s !! record_operation r = Some r /\ matches op key r.
Proof.
  intros Hok Hf r. split.
  - intros Hr. apply list_elem_of_lookup in Hr as [i Hi].
    destruct (Forall2_lookup_r _ _ _ _ _ Hf Hi) as (row & Hrow & Hd).
    apply list_elem_of_lookup_2, select_admission_elem in Hrow as (op' & Hop' & Hm).
    destruct (stored_row s op' row Hok Hop') as (r' & Hd' & Ho & Hc & Hk & _).
    rewrite Hd in Hd'. injection Hd' as <-. rewrite Ho. split; [done|]. unfold matches.
    destruct Hm as [->|Hm]; [by left|right]. apply key_bytes_inj. congruence.
  - intros [Hc Hm]. destruct (contents_Some s _ r Hok Hc) as (_ & row & Hrow & Hd & Hk).
    assert (row ∈ select_admission (table s) op key) as Hin.
    { apply select_admission_elem. exists (record_operation r). split; [done|].
      destruct Hm as [->| <-]; auto. }
    apply list_elem_of_lookup in Hin as [i Hi]. destruct (Forall2_lookup_l _ _ _ _ _ Hf Hi) as (r' & Hr' & Hd').
    rewrite Hd in Hd'. injection Hd' as <-. by eapply list_elem_of_lookup_2.
Qed.

Lemma selected_decode s op key :
  sqlite_ok s ->
  exists rs, decode_rows (select_admission (table s) op key) = Ok rs
             /\ Forall2 (fun row r => decode_row row = Ok r) (select_admission (table s) op key) rs.
Proof.
  intros Hok. apply decode_rows_Ok. intros row Hrow.
  apply select_admission_elem in Hrow as (op' & Hop' & _).
  destruct (stored_row s op' row Hok Hop') as (r & Hd & _). eauto.
Qed.

Definition admission_answer (m : CommandRecords) (op : OperationId) (key : IdempotencyKey)
    (x : result (option CommandRecord) CommandPortError) : Prop :=
  match x with
  | Ok None => forall r, m !! record_operation r = Some r -> ~ matches op key r
  | Ok (Some r) => m !! record_operation r = Some r /\ matches op key r
  | Err _ => True
  end.

Lemma wp_lookup_admission_on s0 op key s :
  sqlite_ok s0 ->
  wp (lookup_admission_on (table s0) op key) s (fun x s' =>
    table s' = table s /\ admission_answer (sqlite_contents s0) op key x).
Proof.
  intros Hok. apply wp_bind, wp_statement; intros f; [|done]. apply wp_bind.
  destruct (selected_decode s0 op key Hok) as (rs & Hrs & Hf). apply wp_lift. rewrite Hrs.
  pose proof (selected_records s0 op key rs Hok Hf) as Hmem.
  destruct rs as [|r [|r' rs]]; split; simpl; try done.
  - intros r Hr Hm. pose proof (proj2 (Hmem r) (conj Hr Hm)) as Hin. by apply not_elem_of_nil in Hin.
  - apply Hmem. set_solver.
Qed.

Lemma wp_lookup_operation op s :
  sqlite_ok s ->
  wp (lookup_operation_sync op) s (fun x s' =>
    table s' = table s
    /\ match x with
       | Ok found => found = sqlite_contents s !! op
       | Err _ => True
       end).
Proof.
  intros Hok. apply wp_bind, wp_statement; intros f; [|done]. apply wp_bind. simpl.
  unfold wp at 1. simpl. destruct (table s !! op) as [row|] eqn:Hr.
  - destruct (stored_row s op row Hok Hr) as (r & Hd & _ & Hc & _). apply wp_bind, wp_lift. rewrite Hd.
    split; [done|]. simpl. congruence.
  - split; [done|]. simpl. by rewrite contents_None.
Qed.

(** ** Writing *)

Lemma key_taken_false s op key :
  sqlite_ok s -> key_taken (table s) op (as_slice (as_bytes key)) = false ->
  forall op' r', sqlite_contents s !! op' = Some r' -> op' <> op -> record_key r' <> key.
Proof.
  intros Hok Hfree op' r' Hc Hne <-. destruct (contents_Some s op' r' Hok Hc) as (_ & row & Hrow & _ & Hk).
  apply not_true_iff_false in Hfree. apply Hfree. apply existsb_exists. exists (op', row).
  split; [by apply list_elem_of_In, elem_of_map_to_list|]. simpl.
  by rewrite bool_decide_eq_false_2, bool_decide_eq_true_2.
Qed.

(** A commit that puts the row of [r]: it is there, or the error left the table as it was. *)
Lemma wp_put s s1 r bytes {A} (a : A) (Φ : result A CommandPortError -> SqliteCommandRecordStore -> Prop) :
  sqlite_ok s -> table s1 = table s -> encode_record r = Ok bytes -> 0 <= revision r <= u64_max ->
  key_taken (table s) (record_operation r) (as_slice (as_bytes (record_key r))) = false ->
  (forall s', sqlite_ok s' -> sqlite_contents s' = <[record_operation r := r]> (sqlite_contents s) ->
     Φ (Ok a) s' /\ forall e, Φ (Err e) s') ->
  (forall s' e, sqlite_ok s' -> sqlite_contents s' = sqlite_contents s -> Φ (Err e) s') ->
  wp (do! _ <- commit_transaction (<[record_operation r := row_of r bytes]> (table s1)); st_ret a) s1 Φ.
Proof.
  intros Hok Ht He Hrev Hfree Hput Hkeep. apply wp_bind, wp_commit.
  - intros f. destruct (sqlite_ok_put s (mk_Store (<[record_operation r := row_of r bytes]> (table s1)) f)
      r bytes Hok He Hrev Hfree) as [Hok' Hc']; [simpl; by rewrite Ht|]. by apply Hput.
  - intros t f [->| ->].
    + apply Hkeep; [by apply (sqlite_ok_table s)|apply contents_table]; simpl; done.
    + destruct (sqlite_ok_put s (mk_Store (<[record_operation r := row_of r bytes]> (table s1)) f)
        r bytes Hok He Hrev Hfree) as [Hok' Hc']; [simpl; by rewrite Ht|]. by apply Hput.
Qed.

Definition keeps_contract (s : SqliteCommandRecordStore) (c : RecordCall) (x : record_answer c)
    (s' : SqliteCommandRecordStore) : Prop :=
  sqlite_ok s' /\ record_contract (sqlite_contents s) c x (sqlite_contents s').

(** An error before anything was written. *)
Lemma keeps_same s s' c x :
  sqlite_ok s -> table s' = table s -> record_contract (sqlite_contents s) c x (sqlite_contents s) ->
  keeps_contract s c x s'.
Proof.
  intros Hok Ht Hc. split; [by apply (sqlite_ok_table s)|]. by rewrite (contents_table s s').
Qed.

Lemma insert_error_same s s' r e :
  sqlite_ok s -> table s' = table s -> keeps_contract s (InsertIfAbsent r) (Err e) s'.
Proof. intros Hok Ht. apply keeps_same; [done|done|]. by left. Qed.

(** The command was admitted before: the transaction reads the record and writes nothing. *)
Lemma wp_existing r s f :
  sqlite_ok s ->
  wp (do! outcome <-
        (do! existing <- lookup_admission_on (table s) (record_operation r) (record_key r);
         do! existing <- st_lift (ok_or existing CorruptRecord);
         st_ret (AlreadyAdmitted existing));
      do! _ <- commit_transaction (table s); st_ret outcome) (mk_Store (table s) f)
    (keeps_contract s (InsertIfAbsent r)).
Proof.
  intros Hok. rewrite wp_bind, wp_bind. eapply wp_mono; [|exact (wp_lookup_admission_on s _ _ _ Hok)].
  intros [[r'|]|e] s1 [Ht Ha]; [|by apply insert_error_same|by apply insert_error_same].
  rewrite wp_bind. apply wp_lift. simpl. apply wp_ret. rewrite wp_bind. apply wp_commit.
  - intros f1. split; [by apply (sqlite_ok_table s)|]. split; [by apply contents_table|]. exact Ha.
  - intros t f1 Ht1. apply insert_error_same; [done|]. simpl in *. destruct Ht1; congruence.
Qed.

Lemma wp_insert_if_absent r s :
  sqlite_ok s -> wp (insert_if_absent_sync r) s (keeps_contract s (InsertIfAbsent r)).
Proof.
  intros Hok. unfold insert_if_absent_sync.
  destruct (Z.eqb_spec (revision r) 0) as [Hr|]; cbn [negb]; [|by apply insert_error_same].
  apply wp_bind, wp_statement; intros f; [|by apply insert_error_same].
  apply wp_bind, wp_lift. destruct (encode_record r) as [bytes|e] eqn:He; [|by apply insert_error_same].
  apply wp_bind, wp_statement; intros f'; [|by apply insert_error_same]. apply wp_bind. unfold wp at 1. simpl.
  unfold insert_or_ignore. rewrite (schema_accepts_row r bytes He). cbn [negb]. rewrite orb_false_r.
  change (row_idempotency_key (row_of r bytes)) with (as_slice (as_bytes (record_key r))).
  destruct (bool_decide_reflect (is_Some (table s !! record_operation r))) as [Hsome|Hnone]; cbn [orb].
  2: destruct (key_taken (table s) (record_operation r) (as_slice (as_bytes (record_key r)))) eqn:Hfree.
  3: { apply wp_bind, wp_ret. assert (unadmitted (sqlite_contents s) r) as Hun.
       { apply eq_None_not_Some in Hnone. split; [by apply contents_None|].
         intros op r' Hr' Hk. eapply (key_taken_false s (record_operation r) (record_key r)); eauto.
         intros ->. by rewrite contents_None in Hr'. }
       apply (wp_put s (mk_Store (table s) f') r bytes); try done; [rewrite Hr; unfold u64_max; lia| |].
       - intros s' Hok' Hc'. split; [split; [done|]; simpl; auto|]. intros e. split; [done|]. simpl. auto.
       - intros s' e Hok' Hc'. split; [done|]. simpl. auto. }
  all: by apply wp_existing.
Qed.

Lemma cas_error_same s s' t e :
  sqlite_ok s -> table s' = table s -> keeps_contract s (CompareAndSwap t) (Err e) s'.
Proof. intros Hok Ht. apply keeps_same; [done|done|]. by left. Qed.

(** The row that the swap replaces is the predecessor's; its key is its own. *)
Lemma own_key_free s op r r' :
  sqlite_ok s -> sqlite_contents s !! op = Some r -> record_key r' = record_key r ->
  key_taken (table s) op (as_slice (as_bytes (record_key r'))) = false.
Proof.
  intros Hok Hc ->. apply not_true_iff_false. intros Ht. apply existsb_exists in Ht as ([op' row'] & Hin & Hb).
  apply list_elem_of_In, elem_of_map_to_list in Hin. apply andb_true_iff in Hb as [Hne Hk].
  apply negb_true_iff, bool_decide_eq_false in Hne. apply bool_decide_eq_true in Hk. simpl in *.
  destruct (contents_Some s op r Hok Hc) as (_ & row & Hrow & _ & Hkey). apply Hne.
  apply (keys_unique s Hok op' op row' row); [done|done|]. by rewrite Hk, Hkey.
Qed.

(** The write of a swap whose checks have passed. *)
Lemma wp_swap t s f bytes :
  sqlite_ok s -> sqlite_contents s !! record_operation (predecessor t) = Some (predecessor t) ->
  command (successor t) = command (predecessor t) ->
  revision (successor t) = revision (predecessor t) + 1 -> revision (successor t) <= u64_max ->
  0 <= revision (predecessor t) -> encode_record (successor t) = Ok bytes ->
  wp (do! _ <- commit_transaction
                 (<[record_operation (predecessor t) := row_of (successor t) bytes]> (table s));
      st_ret (Stored (successor t))) (mk_Store (table s) f) (keeps_contract s (CompareAndSwap t)).
Proof.
  intros Hok Hp Hc Hr Hmax Hpos He.
  assert (record_operation (successor t) = record_operation (predecessor t)) as Ho
    by (unfold record_operation; by rewrite Hc).
  assert (swappable (sqlite_contents s) t) as Hsw by done. unfold swap_record in *. rewrite <- Ho.
  apply (wp_put s (mk_Store (table s) f) (successor t) bytes); try done; [lia| | |].
  - rewrite Ho. eapply own_key_free; [done|exact Hp|]. unfold record_key. by rewrite Hc.
  - intros s' Hok' Hc'. rewrite Ho in Hc'. split; [split; [done|]; simpl; auto|].
    intros e. split; [done|]. simpl. auto.
  - intros s' e Hok' Hc'. split; [done|]. simpl. auto.
Qed.

Lemma wp_compare_and_swap t s :
  sqlite_ok s -> wp (compare_and_swap_sync t) s (keeps_contract s (CompareAndSwap t)).
Proof.
  intros Hok. unfold compare_and_swap_sync. apply wp_bind, wp_lift.
  destruct (checked_add u64_max (revision (predecessor t)) 1) as [next|] eqn:Hn; simpl;
    [apply checked_add_Some in Hn as [-> Hmax]|by apply cas_error_same].
  apply wp_bind, wp_statement; intros f; [|by apply cas_error_same].
  apply wp_bind. eapply wp_mono; [|apply wp_lookup_operation; by apply (sqlite_ok_table s)].
  intros [found|e] [tb f1] [Ht Hfound]; simpl in Ht; subst tb; [|by apply cas_error_same].
  rewrite (contents_table s) in Hfound by done.
  destruct found as [current|]; cycle 1.
  { apply wp_bind, wp_statement; intros f2; [|by apply cas_error_same].
    apply keeps_same; [done|done|]. simpl. by rewrite <- Hfound. }
  destruct (Z.eqb_spec (revision current) (revision (predecessor t))) as [Hrev|Hrev]; cbn [negb]; cycle 1.
  { apply wp_bind, wp_statement; intros f2; [|by apply cas_error_same].
    apply keeps_same; [done|done|]. simpl. rewrite <- Hfound. simpl. split_and!; try done. congruence. }
  case_bool_decide as Hcur; cbn [negb]; [subst current|by apply cas_error_same].
  match goal with |- context [if ?b then _ else _] => destruct b eqn:Hchk end; [by apply cas_error_same|].
  zify_bool. apply wp_bind, wp_lift.
  destruct (encode_record (successor t)) as [bytes|e] eqn:He; [|by apply cas_error_same].
  apply wp_bind, wp_statement; intros f2; [|by apply cas_error_same]. apply wp_bind. unfold wp at 1. simpl.
  destruct (contents_Some s _ _ Hok (eq_sym Hfound)) as (_ & row & Hrow & Hd & _). rewrite Hrow.
  destruct (stored_row s _ row Hok Hrow) as (r' & Hd' & _ & _ & _ & Hrr & Hpos).
  rewrite Hd in Hd'. injection Hd' as <-. rewrite Hrr, bool_decide_eq_true_2 by done. cbn [negb].
  rewrite (schema_accepts_row _ _ He), orb_false_r.
  assert (key_taken (table s) (record_operation (predecessor t))
            (as_slice (as_bytes (record_key (successor t)))) = false) as Hfree.
  { eapply (own_key_free s _ (predecessor t)); [done|done|]. unfold record_key. congruence. }
  match goal with |- context [key_taken ?tb ?o ?k] => change (key_taken tb o k) with
    (key_taken (table s) (record_operation (predecessor t)) (as_slice (as_bytes (record_key (successor t))))) end.
  rewrite Hfree. apply wp_swap; try done; lia.
Qed.

(** ** Pages *)

(** The rows after a cursor, with their keys. *)
Definition rows_after (t : gmap OperationId StoredRow) (after : option OperationId)
  : list (OperationId * StoredRow) :=
  match after with
  | Some a => filter (fun p => ~ bytes_le (as_slice (as_bytes p.1)) (as_slice (as_bytes a))) (ordered_rows t)
  | None => ordered_rows t
  end.

Lemma select_after_rows t after : select_after t after = (rows_after t after).*2.
Proof. by destruct after. Qed.

Lemma not_le_lt a b :
  ~ bytes_le (as_slice (as_bytes b)) (as_slice (as_bytes a)) <-> operation_lt a b.
Proof.
  unfold operation_lt, operation_le. split.
  - intros Hn. split; [by destruct (total bytes_le (as_slice (as_bytes b)) (as_slice (as_bytes a)))|].
    intros ->. by apply Hn.
  - intros [Hle Hne] Hge. apply Hne. apply operation_bytes_inj. by apply bytes_le_antisymm.
Qed.

Lemma rows_after_elem t after op row :
  (op, row) ∈ rows_after t after <-> t !! op = Some row /\ comes_after after op.
Proof.
  destruct after as [a|]; simpl; [|rewrite ordered_elem; tauto].
  rewrite list_elem_of_filter, ordered_elem, not_le_lt. simpl. tauto.
Qed.

(** The order of [ORDER BY operation_id] on keyed rows. *)
Definition row_le (p q : OperationId * StoredRow) : Prop :=
  bytes_le (as_slice (as_bytes p.1)) (as_slice (as_bytes q.1)).

Lemma ordered_rows_sorted t :
  StronglySorted (fun p q => operation_lt p.1 q.1) (ordered_rows t).
Proof.
  eapply (StronglySorted_mono (fun p q => row_le p q /\ p.1 <> q.1)); [done|].
  apply (StronglySorted_strict row_le fst).
  - apply StronglySorted_merge_sort.
    + intros x y z. apply bytes_le_trans.
    + intros x y. apply bytes_le_total.
  - unfold ordered_rows. rewrite merge_sort_Permutation. apply NoDup_fst_map_to_list.
Qed.

Lemma rows_after_sorted t after :
  StronglySorted (fun p q => operation_lt p.1 q.1) (rows_after t after).
Proof.
  destruct after; [apply StronglySorted_filter_1|]; apply ordered_rows_sorted.
Qed.

Definition nonterminal (r : CommandRecord) : Prop := is_terminal (state r) = false.

Lemma decode_nonterminal_Ok n rows rs :
  Forall2 (fun row r => decode_row row = Ok r) rows rs ->
  decode_nonterminal_rows (S n) rows = Ok (take (S n) (filter nonterminal rs)).
Proof.
  intros Hf. revert n. induction Hf as [|row r rows rs Hd Hf IH]; intros n; [done|].
  cbn [decode_nonterminal_rows]. rewrite Hd, filter_cons.
  destruct (decide (nonterminal r)) as [Ht|Ht].
  - rewrite Ht. cbn [negb]. destruct n as [|n]; [by destruct (filter _ rs)|]. by rewrite IH.
  - unfold nonterminal in Ht. rewrite (not_false_is_true _ Ht). apply IH.
Qed.

(** The nonterminal records after a cursor, in order. *)
Lemma due_records s after :
  sqlite_ok s ->
  exists rs, Forall2 (fun row r => decode_row row = Ok r) (select_after (table s) after) rs
    /\ StronglySorted (fun r r' => operation_lt (record_operation r) (record_operation r')) rs
    /\ forall r, r ∈ rs <-> sqlite_contents s !! record_operation r = Some r
                            /\ comes_after after (record_operation r).
Proof.
  intros Hok. rewrite select_after_rows. pose proof (rows_after_sorted (table s) after) as Hs.
  assert (forall p, p ∈ rows_after (table s) after ->
            exists r, decode_row p.2 = Ok r /\ record_operation r = p.1
                      /\ sqlite_contents s !! record_operation r = Some r) as Hdec.
  { intros [op row] Hp. apply rows_after_elem in Hp as [Hrow _].
    destruct (stored_row s op row Hok Hrow) as (r & ? & Ho & Hc & _). exists r. by rewrite Ho. }
  assert (exists rs, Forall2 (fun p r => decode_row p.2 = Ok r /\ record_operation r = p.1
            /\ sqlite_contents s !! record_operation r = Some r) (rows_after (table s) after) rs) as [rs Hrs].
  { clear Hs. induction (rows_after (table s) after) as [|p l IH]; [by exists []|].
    destruct (Hdec p) as [r Hr]; [set_solver|]. destruct IH as [rs Hrs]; [set_solver|].
    exists (r :: rs). by constructor. }
  exists rs. split_and!.
  - apply Forall2_fmap_l. eapply Forall2_impl; [exact Hrs|]. simpl. tauto.
  - clear Hdec. induction Hrs as [|p r l rs (_ & Ho & _) Hrs IH]; [constructor|].
    inversion Hs as [|? ? Hs' Hlt]; subst. constructor; [by apply IH|].
    rewrite Ho. clear -Hlt Hrs. induction Hrs as [|q r' l rs (_ & Ho' & _) _ IH]; [constructor|].
    inversion Hlt; subst. constructor; [by rewrite Ho'|by apply IH].
  - intros r. split.
    + intros Hr. apply list_elem_of_lookup in Hr as [i Hi].
      destruct (Forall2_lookup_r _ _ _ _ _ Hrs Hi) as ([op row] & Hp & _ & Ho & Hc).
      apply list_elem_of_lookup_2, rows_after_elem in Hp as [_ Ha]. simpl in Ho. by rewrite Ho in *.
    + intros [Hc Ha]. destruct (contents_Some s _ r Hok Hc) as (_ & row & Hrow & Hd & _).
      assert ((record_operation r, row) ∈ rows_after (table s) after) as Hp by (by apply rows_after_elem).
      apply list_elem_of_lookup in Hp as [i Hi]. destruct (Forall2_lookup_l _ _ _ _ _ Hrs Hi) as (r' & Hr' & Hd' & _).
      simpl in Hd'. rewrite Hd in Hd'. injection Hd' as <-. by eapply list_elem_of_lookup_2.
Qed.
(** The page the request builds from the first [n + 1] of the due records. *)
Definition page_of (n : Z) (records : list CommandRecord) : CommandRecoveryPage :=
  let has_more := n <? Z.of_nat (length records) in
  let records := if has_more then removelast records else records in
  mk_CommandRecoveryPage records (if has_more then record_operation <$> last records else None).

Lemma removelast_take {A} n (l : list A) :
  length (take (S n) l) = S n -> removelast (take (S n) l) = take n l.
Proof. intros Hl. rewrite removelast_firstn_len, Hl. simpl. rewrite take_take. f_equal. lia. Qed.

(** Strictly sorted due records make a page. *)
Lemma page_of_is_page m after n due :
  1 <= n ->
  StronglySorted (fun r r' => operation_lt (record_operation r) (record_operation r')) due ->
  (forall r, r ∈ due <-> m !! record_operation r = Some r /\ is_terminal (state r) = false
                         /\ comes_after after (record_operation r)) ->
  is_page m after n (page_of n (take (S (Z.to_nat n)) due)).
Proof.
  intros Hn Hs Hdue. unfold is_page, page_of.
  destruct (StronglySorted_take_drop _ (Z.to_nat n) _ Hs) as [Hts Hlt].
  destruct (Z.ltb_spec n (Z.of_nat (length (take (S (Z.to_nat n)) due)))) as [Hm|Hm];
    cbn [page_records page_next_after].
  - rewrite length_take in Hm. rewrite removelast_take by (rewrite length_take; lia).
    split; [done|]. split; [intros r Hr; apply Hdue; by eapply elem_of_subseteq, Hr; apply subseteq_take|].
    destruct (last (take (Z.to_nat n) due)) as [z|] eqn:Hz; cbn [fmap option_fmap option_map].
    + split_and!; [rewrite length_take; lia|by exists z|].
      intros r Hr. apply Hdue in Hr. rewrite <- (take_drop (Z.to_nat n) due), elem_of_app in Hr.
      destruct Hr as [Hr|Hr]; [by left|right]. apply Hlt; [|done].
      by eapply last_Some_elem_of.
    + apply last_None in Hz. apply (f_equal length) in Hz. rewrite length_take in Hz. simpl in Hz. lia.
  - rewrite length_take in Hm. rewrite take_ge by lia. split; [done|]. split; intros r; apply Hdue.
Qed.

Lemma wp_load_page after n s :
  sqlite_ok s ->
  wp (load_nonterminal_page_sync after n) s (fun x s' =>
    table s' = table s
    /\ match x with Ok page => 1 <= n -> is_page (sqlite_contents s) after n page | Err _ => True end).
Proof.
  intros Hok. apply wp_bind, wp_statement; intros f; [|done]. apply wp_bind. unfold wp at 1. simpl.
  destruct (due_records s after Hok) as (rs & Hf & Hs & Hmem). apply wp_bind, wp_lift.
  rewrite Nat.add_1_r, (decode_nonterminal_Ok _ _ rs Hf).
  split; [done|]. intros Hn. apply page_of_is_page; [done|by apply StronglySorted_filter_1|].
  intros r. rewrite list_elem_of_filter, Hmem. unfold nonterminal. tauto.
Qed.

(** The head of a page of one is the least nonterminal record. *)
Lemma page_head m page :
  is_page m None 1 page ->
  match head (page_records page) with
  | None => forall op r, m !! op = Some r -> record_operation r = op -> is_terminal (state r) = true
  | Some r =>
      m !! record_operation r = Some r /\ is_terminal (state r) = false
      /\ forall op r', m !! op = Some r' -> record_operation r' = op -> is_terminal (state r') = false ->
          operation_le (record_operation r) op
  end.
Proof.
  destruct page as [records next]. intros (Hs & Hin & Hall). simpl in *.
  destruct records as [|r records]; simpl.
  - destruct next as [c|]; [by destruct Hall|]. intros op r Hr <-.
    apply not_false_is_true. intros Ht. by specialize (Hall r ltac:(done)) as ?%not_elem_of_nil.
  - destruct (Hin r) as (Hr & Ht & _); [set_solver|]. split; [done|]. split; [done|].
    intros op r' Hr' <- Ht'. inversion Hs as [|? ? _ Hlt]; subst. rewrite Forall_forall in Hlt.
    destruct next as [c|].
    + destruct Hall as (Hl & (z & Hz & <-) & Hall). destruct records; [|simpl in Hl; lia]. injection Hz as <-.
      destruct (Hall r') as [Hr''|[Hle _]]; [done| |done]. apply list_elem_of_singleton in Hr'' as ->. by red.
    + specialize (Hall r' ltac:(done)). apply elem_of_cons in Hall as [->|Hr'']; [by red|]. by apply Hlt.
Qed.

Lemma wp_first_nonterminal s :
  sqlite_ok s -> wp first_nonterminal_sync s (keeps_contract s FirstNonterminal).
Proof.
  intros Hok. apply wp_bind. eapply wp_mono; [|exact (wp_load_page None 1 s Hok)].
  intros [page|e] s' [Ht Hp]; [|by apply keeps_same].
  pose proof (page_head _ _ (Hp ltac:(lia))) as Hh. apply wp_ret, keeps_same; [done|done|].
  split; [done|]. destruct (head (page_records page)) as [r|].
  - destruct Hh as (Hr & Hn & Hle). split_and!; [done..|]. intros op r' Hr' Hn'.
    eapply Hle; [done| |done]. by apply (contents_Some s).
  - intros op r Hr. apply (Hh op r); [done|]. by apply (contents_Some s).
Qed.

(** ** The requests of the port *)

(** Every request, whatever faults it meets, keeps the rows exact and the contract. *)
Lemma run_request_contract c s :
  sqlite_ok s -> keeps_contract s c (run_request c s).2 (run_request c s).1.
Proof.
  intros Hok. destruct c as [op key|op|r|t| |after n]; cbn [run_request].
  - pose proof (wp_lookup_admission_on s op key s Hok) as Hw. apply keeps_same; [done|apply Hw|].
    split; [done|]. apply Hw.
  - pose proof (wp_lookup_operation op s Hok) as Hw. apply keeps_same; [done|apply Hw|].
    split; [done|]. apply Hw.
  - exact (wp_insert_if_absent r s Hok).
  - exact (wp_compare_and_swap t s Hok).
  - exact (wp_first_nonterminal s Hok).
  - pose proof (wp_load_page after n s Hok) as Hw. apply keeps_same; [done|apply Hw|].
    split; [done|]. apply Hw.
Qed.

(** The answer that the worker is gone says nothing, so it fits whatever has been done. *)
Lemma unavailable_contract m c x m' : record_contract m c x m' -> record_contract m c (unavailable c) m'.
Proof. destruct c; simpl; try tauto; destruct x as [[]|]; naive_solver. Qed.

Lemma unavailable_same m c : record_contract m c (unavailable c) m.
Proof. destruct c; simpl; auto. Qed.

Lemma sqlite_handles_contract s c x s' :
  sqlite_ok s -> sqlite_handles s c x s' -> keeps_contract s c x s'.
Proof.
  intros Hok. pose proof (run_request_contract c s Hok) as [Hok' Hc]. intros [Hr|[-> [->| ->]]].
  - by rewrite Hr in *.
  - split; [done|]. apply unavailable_same.
  - split; [done|]. by eapply unavailable_contract.
Qed.

#[export] Instance sqlite_record_laws : DurableCommandRecordLaws SqliteCommandRecordStore.
Proof.
  split; simpl.
  - intros j c x j' Hok Hh. by apply (sqlite_handles_contract j c x j').
  - intros j c x j' Hok Hh. by apply (sqlite_handles_contract j c x j').
  - intros j op r Hok Hr. by apply (contents_Some j).
Qed.
(** ** Without faults *)

Lemma bind_passes {A B} (m : query A) (k : A -> query B) s s' a : m s = (s', Ok a) -> st_bind m k s = k a s'.
Proof. unfold st_bind. by intros ->. Qed.

Lemma lookup_operation_exact t op :
  sqlite_ok (mk_Store t []) ->
  lookup_operation_sync op (mk_Store t []) = (mk_Store t [], Ok (sqlite_contents (mk_Store t []) !! op)).
Proof.
  intros Hok. unfold lookup_operation_sync. rewrite (bind_passes _ _ _ _ _ (statement_passes _ t)).
  rewrite (bind_passes _ _ _ (mk_Store t []) (mk_Store t [])) by done. cbn [table].
  destruct (t !! op) as [row|] eqn:Hr; [|by rewrite contents_None].
  destruct (stored_row _ op row Hok Hr) as (r & Hd & _ & Hc & _).
  rewrite (bind_passes _ _ _ (mk_Store t []) r) by (unfold st_lift; by rewrite Hd). by rewrite Hc.
Qed.

Lemma unadmitted_free t r :
  sqlite_ok (mk_Store t []) -> unadmitted (sqlite_contents (mk_Store t [])) r ->
  t !! record_operation r = None /\ key_taken t (record_operation r) (as_slice (as_bytes (record_key r))) = false.
Proof.
  intros Hok [Hn Hk]. split.
  - destruct (t !! record_operation r) as [row|] eqn:Hr; [|done].
    destruct (stored_row _ _ row Hok Hr) as (r' & _ & _ & Hc & _). congruence.
  - apply not_true_iff_false. intros ([op row] & Hin & Hb)%existsb_exists.
    apply list_elem_of_In, elem_of_map_to_list in Hin. apply andb_true_iff in Hb as [_ Hb].
    apply bool_decide_eq_true in Hb. simpl in *.
    destruct (stored_row _ op row Hok Hin) as (r' & _ & _ & Hc & Hkey & _). apply (Hk op r' Hc).
    apply key_bytes_inj. etrans; [symmetry; exact Hkey|exact Hb].
Qed.

(** A new record that encodes is inserted. *)
Lemma insert_exact t r bytes :
  sqlite_ok (mk_Store t []) -> revision r = 0 -> encode_record r = Ok bytes ->
  unadmitted (sqlite_contents (mk_Store t [])) r ->
  (insert_if_absent_sync r (mk_Store t [])).2 = Ok (Inserted r).
Proof.
  intros Hok Hr He Hun. destruct (unadmitted_free t r Hok Hun) as [Hn Hk]. unfold insert_if_absent_sync.
  rewrite Hr. cbn [Z.eqb negb]. rewrite (bind_passes _ _ _ _ _ (statement_passes _ t)).
  rewrite (bind_passes _ _ _ (mk_Store t []) bytes) by (unfold st_lift; by rewrite He).
  rewrite (bind_passes _ _ _ _ _ (statement_passes _ t)).
  rewrite (bind_passes _ _ _ (mk_Store t []) (mk_Store t [])) by done. cbn [table].
  unfold insert_or_ignore. rewrite (schema_accepts_row r bytes He), Hn.
  change (row_idempotency_key (row_of r bytes)) with (as_slice (as_bytes (record_key r))). rewrite Hk. done.
Qed.

(** A swap that applies is stored. *)
Lemma swap_exact t tr bytes :
  sqlite_ok (mk_Store t []) -> swappable (sqlite_contents (mk_Store t [])) tr ->
  transition_effect tr <> IdempotentReplay -> revision (successor tr) <= u64_max ->
  encode_record (successor tr) = Ok bytes ->
  (compare_and_swap_sync tr (mk_Store t [])).2 = Ok (Stored (successor tr)).
Proof.
  intros Hok (Hp & Hc & Hrev) He Hmax Henc.
  assert (record_operation (successor tr) = record_operation (predecessor tr)) as Hop
    by (unfold record_operation; by rewrite Hc).
  destruct (contents_Some _ _ _ Hok Hp) as (_ & row & Hrow & Hd & _). simpl in Hrow.
  destruct (stored_row _ _ row Hok Hrow) as (r' & Hd' & _ & _ & _ & Hrr & Hpos).
  rewrite Hd in Hd'. injection Hd' as <-.
  unfold compare_and_swap_sync. rewrite (bind_passes _ _ _ (mk_Store t []) (revision (predecessor tr) + 1)).
  2: { unfold st_lift, checked_add. by rewrite (proj2 (Z.leb_le _ _)) by lia. }
  rewrite (bind_passes _ _ _ _ _ (statement_passes _ t)).
  rewrite (bind_passes _ _ _ _ _ (lookup_operation_exact t _ Hok)), Hp.
  rewrite Z.eqb_refl, (bool_decide_eq_true_2 (predecessor tr = _)) by done. cbn [negb].
  rewrite bool_decide_eq_false_2, !bool_decide_eq_true_2, Hrev, Z.eqb_refl by done. cbn [negb orb].
  rewrite (bind_passes _ _ _ (mk_Store t []) bytes) by (unfold st_lift; by rewrite Henc).
  rewrite (bind_passes _ _ _ _ _ (statement_passes _ t)).
  rewrite (bind_passes _ _ _ (mk_Store t []) (mk_Store t [])) by done. cbn [table].
  rewrite Hrow, Hrr, bool_decide_eq_true_2 by done. cbn [negb].
  rewrite (schema_accepts_row _ _ Henc).
  change (row_idempotency_key (row_of (successor tr) bytes)) with (as_slice (as_bytes (record_key (successor tr)))).
  assert (key_taken t (record_operation (predecessor tr)) (as_slice (as_bytes (record_key (successor tr)))) = false) as ->
    by (apply (own_key_free (mk_Store t []) _ (predecessor tr)); [done|done|unfold record_key; by rewrite Hc]).
  done.
Qed.
End journal.
