(* ===== verification/RecoveryModel.v ===== *)
(** Restart recovery of the command runtime, src/src/fabric/command_runtime.rs: the pages of
    unfinished commands, the bounded sweeps over them, and the reopening of admission.

    The runtime talks to its actor through the queue. A call waits for its turn, which a closed queue
    or a dropped response denies it; then the actor runs the handler of the message and replies. *)

From S2P Require Import Prelude.
From S2P Require Import CommandModel.
From S2P Require Import ActorModel.
Local Open Scope Z_scope.
Local Open Scope prog_scope.

Inductive FabricCommandAdmissionOpenError :=
| AdmissionWriterAuthority (error : WorkspaceWriterLeaseError)
| AdmissionCommandStore (error : CommandPortError)
| AdmissionRecoveryPending (operation : OperationId) (obligation : CommandRecoveryObligation)
| AdmissionActor (error : FabricCommandActorError).

Inductive FabricCommandRecoveryError :=
| RecoveryWriterAuthority (error : WorkspaceWriterLeaseError)
| TerminalRecord (operation : OperationId)
| InterruptionDiagnosticFailed (error : CommandPortError)
| RecoveryJournal (error : CommandPortError)
| RecoveryActor (error : FabricCommandActorError).

Inductive FabricCommandStartupRecoveryError :=
| StartupRecovery (error : FabricCommandRecoveryError)
| StartupAdmission (error : FabricCommandAdmissionOpenError)
| TransitionCountOverflow.

Record CommandRecoveryTransition := mk_CommandRecoveryTransition {
  recovered_operation : OperationId;
  prior_obligation : CommandRecoveryObligation;
  resulting_record : CommandRecord
}.

Record CommandRecoveryPass := mk_CommandRecoveryPass {
  pass_transitions : list CommandRecoveryTransition;
  pass_next_after : option OperationId
}.

Inductive FabricCommandStartupRecoveryState :=
| RecoveryReady
| RecoveryStillPending (operation : OperationId) (obligation : CommandRecoveryObligation).

Record FabricCommandStartupRecovery := mk_FabricCommandStartupRecovery {
  recovery_state : FabricCommandStartupRecoveryState;
  recovery_sweeps : Z;
  recovery_transitions : Z
}.

Definition validate_writer_authority : prog (result unit WorkspaceWriterLeaseError) :=
  Ask (Runtime ValidateWriterAuthority) Ret.
Definition interruption_diagnostic (prepared : CommandRecord) (transaction : TransactionRef)
    (active_fence : WriterFence) : prog (result DiagnosticRef CommandPortError) :=
  Ask (Runtime (InterruptionDiagnostic prepared transaction active_fence)) Ret.
Definition load_nonterminal_commands (after : option OperationId) (page_size : Z)
  : prog (result CommandRecoveryPage CommandPortError) :=
  Ask (Records (LoadNonterminalPage after page_size)) Ret.
Definition turn_error (lost : TurnLost) : FabricCommandActorError :=
  match lost with TurnQueueClosed => QueueClosed | TurnResponseDropped => ResponseDropped end.
Definition await_turn : prog (result unit FabricCommandActorError) :=
  pmap_err turn_error (Ask (Runtime AwaitTurn) Ret).

Section runtime.
(** The actor's identity, and [self.fence]. *)
Context (self : ActorId) (runtime_fence : WriterFence).

(** A message that is answered with a record. *)
Definition call_for_record (m : ActorMessage) : actor_prog CommandRecord :=
  await? _ := await_turn in
  await reply := handle_message self m in
  match reply with
  | RecordReply result => Ret result
  | OpenReply _ | ShutdownReply | Panicked => Ret (Err ResponseDropped)
  end.

(** [open_admission_after_recovery]. *)
Definition open_admission_after_recovery : actor_prog unit :=
  await? _ := await_turn in
  await reply := handle_message self MsgOpenAdmission in
  match reply with
  | OpenReply result => Ret result
  | RecordReply _ | ShutdownReply | Panicked => Ret (Err ResponseDropped)
  end.

Definition admission_open_error (error : FabricCommandActorError) : FabricCommandAdmissionOpenError :=
  match error with
  | RecoveryPending operation obligation => AdmissionRecoveryPending operation obligation
  | ActorPort error => AdmissionCommandStore error
  | error => AdmissionActor error
  end.

Definition open_command_admission : prog (result unit FabricCommandAdmissionOpenError) :=
  await _ := gate_close in
  await? _ := pmap_err AdmissionWriterAuthority validate_writer_authority in
  pmap_err admission_open_error open_admission_after_recovery.

Abbreviation recovery_prog A := (prog (result A FabricCommandRecoveryError)).

(** The action an obligation selects. *)
Definition discharge (record : CommandRecord) (obligation : CommandRecoveryObligation)
  : recovery_prog CommandRecord :=
  let op := record_operation record in
  match obligation with
  | ResumePrecommit => pmap_err RecoveryActor (call_for_record (MsgResumePrecommit op))
  | MarkInterruptedCommit transaction =>
      await? diagnostic := pmap_err InterruptionDiagnosticFailed
                             (interruption_diagnostic record transaction runtime_fence) in
      pmap_err RecoveryActor
        (call_for_record
           (MsgMarkInterruptedCommit op (mk_UnknownCommit ProcessInterrupted diagnostic)))
  | ReconcileCommit _ => pmap_err RecoveryActor (call_for_record (MsgReconcile op))
  | RetryProvedNotCommitted => pmap_err RecoveryActor (call_for_record (MsgRetry op))
  end.

(** The body of the loop over a page. *)
Definition recover_record (record : CommandRecord) : recovery_prog CommandRecoveryTransition :=
  match recovery_obligation record with
  | None => Ret (Err (TerminalRecord (record_operation record)))
  | Some obligation =>
      await? resulting := discharge record obligation in
      Ret (Ok (mk_CommandRecoveryTransition (record_operation record) obligation resulting))
  end.

Fixpoint recover_records (records : list CommandRecord) : recovery_prog (list CommandRecoveryTransition) :=
  match records with
  | [] => Ret (Ok [])
  | record :: records =>
      await? first := recover_record record in
      await? rest := recover_records records in
      Ret (Ok (first :: rest))
  end.

Definition recover_nonterminal_page (after : option OperationId) (page_size : Z)
  : recovery_prog CommandRecoveryPass :=
  await _ := gate_close in
  await? _ := pmap_err RecoveryWriterAuthority validate_writer_authority in
  await? page := pmap_err RecoveryJournal (load_nonterminal_commands after page_size) in
  await? transitions := recover_records (page_records page) in
  Ret (Ok (mk_CommandRecoveryPass transitions (page_next_after page))).

Abbreviation startup_prog A := (prog (Left (result A FabricCommandStartupRecoveryError))).

(** The inner loop: pages until there is no cursor. The counter is a [usize] of 64 bits. *)
Fixpoint sweep (fuel : nat) (page_size : Z) (after : option OperationId) (transitions : Z)
  : startup_prog Z :=
  match fuel with
  | O => Ret OutOfFuel
  | S fuel =>
      await pass := recover_nonterminal_page after page_size in
      match pass with
      | Err error => Ret (Returned (Err (StartupRecovery error)))
      | Ok pass =>
          match checked_add u64_max transitions (Z.of_nat (length (pass_transitions pass))) with
          | None => Ret (Returned (Err TransitionCountOverflow))
          | Some transitions =>
              match pass_next_after pass with
              | None => Ret (Returned (Ok transitions))
              | Some next_after => sweep fuel page_size (Some next_after) transitions
              end
          end
      end
  end.

(** The outer loop, with [rounds] iterations left of [maximum_sweeps]. *)
Fixpoint sweeps (rounds : nat) (fuel : nat) (page_size maximum_sweeps sweep_index transitions : Z)
  : startup_prog FabricCommandStartupRecovery :=
  match rounds with
  | O => Ret ReachedUnreachable
  | S rounds =>
      await swept := sweep fuel page_size None transitions in
      match swept with
      | ReachedUnreachable => Ret ReachedUnreachable
      | OutOfFuel => Ret OutOfFuel
      | Returned (Err error) => Ret (Returned (Err error))
      | Returned (Ok transitions) =>
          await opened := open_command_admission in
          match opened with
          | Ok _ =>
              Ret (Returned (Ok (mk_FabricCommandStartupRecovery RecoveryReady
                                   (sweep_index + 1) transitions)))
          | Err (AdmissionRecoveryPending operation obligation) =>
              if sweep_index + 1 =? maximum_sweeps
              then Ret (Returned (Ok (mk_FabricCommandStartupRecovery
                                        (RecoveryStillPending operation obligation)
                                        (sweep_index + 1) transitions)))
              else sweeps rounds fuel page_size maximum_sweeps (sweep_index + 1) transitions
          | Err error => Ret (Returned (Err (StartupAdmission error)))
          end
      end
  end.

Definition recover_and_open_bounded (fuel : nat) (page_size maximum_sweeps : Z)
  : startup_prog FabricCommandStartupRecovery :=
  sweeps (Z.to_nat maximum_sweeps) fuel page_size maximum_sweeps 0 0.
End runtime.

Arguments call_for_record : simpl never.
Arguments open_admission_after_recovery : simpl never.
Arguments open_command_admission : simpl never.
Arguments discharge : simpl never.
Arguments recover_record : simpl never.
Arguments recover_nonterminal_page : simpl never.
