(* ===== verification/RecoveryTheory.v ===== *)
(** What restart recovery achieves. The runtime is the only client of its actor while it recovers;
    the journal keeps its contract, every other answer may be anything. A sweep ends and advances
    every unfinished command once; admission opens only over finished commands; and where the effect
    port settles what it is asked, three sweeps are enough. *)

From stdpp Require Import sorting.
From S2P Require Import Prelude.
From S2P Require Import Encoding.
From S2P Require Import CommandModel.
From S2P Require Import CommandTheory.
From S2P Require Import ActorModel.
From S2P Require Import ActorLogic.
From S2P Require Import EffectContract.
From S2P Require Import ActorWorld.
From S2P Require Import ActorGate.
From S2P Require Import RecoveryModel.
Local Open Scope Z_scope.
Local Open Scope prog_scope.

(** ** The protocol *)

(** An answer that settles its attempt: it neither leaves the outcome open nor asks for a retry. *)
Definition conclusive (c : EffectCall) : effect_answer c -> Prop :=
  match c return effect_answer c -> Prop with
  | PrepareEffect _ _ _ => fun x =>
      match x with Ok (PrepareKnownFailure f) => failure_class f = Permanent | _ => True end
  | CommitEffect _ _ _ _ => fun x =>
      match x with
      | Ok (CommitKnownFailure f) => failure_class f = Permanent
      | Ok (CommitUnknown _) => False
      | _ => True
      end
  | ReconcileEffect _ _ _ _ => fun x => match x with Ok (ObservedIndeterminate _) => False | _ => True end
  end.

Definition recovery_answers (settles : bool) (s : GateState) (c : PortCall) : answer c -> GateState -> Prop :=
  match c return answer c -> GateState -> Prop with
  | Effects c => fun x s' => (settles = true -> conclusive c x) /\ s' = s
  | c => gate_answers s c
  end.

Definition recovery_protocol (settles : bool) : Protocol GateState :=
  mk_Protocol (fun _ _ => True) (recovery_answers settles).

Abbreviation recovering settles p s Φ := (obeys (recovery_protocol settles) p s Φ).

(** What the gate theory shows of a program holds here too. *)
Lemma guarded_recovering {A} settles (p : prog A) s Φ : guarded p s Φ -> recovering settles p s Φ.
Proof.
  apply obeys_weaken; [done|]. intros s0 [c|c|c|c|c] x s'; simpl; try done. by intros [_ ->].
Qed.

Lemma recovering_read_context {B} settles r (f : ReductionContext -> actor_prog B) s Φ :
  (forall e, Φ (Err e) s) -> (forall c, recovering settles (f c) s Φ) ->
  recovering settles (try_bind (port (read_reduction_context r)) f) s Φ.
Proof. intros He Hf. prog_ask; [done|]. intros [c|e] s' ->; prog_simpl; auto. Qed.

(** ** One command *)

(** What an accepted event did to a record. *)
Definition stepped (r : CommandRecord) (e : CommandEvent) (r' : CommandRecord) : Prop :=
  r' = r /\ replays (command r) (state r) e
  \/ moves (command r) (state r) e (state r') /\ revision r' = revision r + 1.

Abbreviation ok_with Q := (fun x (_ : GateState) => match x with Ok r' => Q r' | Err _ => True end).

Lemma recovering_transition settles r e s :
  recovering settles (actor_transition r e) s (ok_with (stepped r e)).
Proof.
  apply recovering_read_context; [done|]. intros c. apply obeys_reduced; [done|].
  intros red Hred. apply reduce_spec in Hred as [(s' & Hm & _ & Hr & ->)|(Hp & _ & ->)];
    [|left; simpl; auto].
  unfold material_reduction; cbn [effect transition predecessor successor transition_effect reduced_record].
  rewrite !(bool_decide_eq_true_2 _ eq_refl). cbn [negb orb].
  destruct (event_effect e) eqn:He; [| by destruct e as [| | | | |? ? []|]|].
  all: prog_ask; [done|]; intros [[st|obs]|err] [m' g'] [Hx _]; prog_simpl; try done;
    destruct Hx as (-> & _); rewrite bool_decide_eq_true_2 by done; right; simpl; auto.
Qed.

(** How many sweeps a state may still need. *)
Definition rank (s : DurableCommandState) : nat :=
  match s with
  | StateCommitPrepared _ _ _ => 3
  | StateAwaitingReconciliation _ _ _ _ _ _ _ => 2
  | StateAdmitted _ | StateExecuting _ _ | StateRetryReady _ _ _ => 1
  | StateSucceeded _ _ _ | StateFailed _ | StateCancelled _ => 0
  end.

Lemma rank_terminal s : is_terminal s = true <-> rank s = 0%nat.
Proof. by destruct s. Qed.

Lemma rank_bound s : (rank s <= 3)%nat.
Proof. destruct s; simpl; lia. Qed.

(** The command of [r] has moved on to [r']. *)
Definition advanced (settles : bool) (r r' : CommandRecord) : Prop :=
  revision r < revision r' /\ (settles = true -> (rank (state r') < rank (state r))%nat).

Definition ran (settles : bool) (r r' : CommandRecord) : Prop :=
  revision r < revision r' /\ (settles = true -> is_terminal (state r') = true).

Lemma ran_advanced settles r r' : is_terminal (state r) = false -> ran settles r r' -> advanced settles r r'.
Proof.
  intros Ht [Hr Hs]. split; [done|]. intros Hset. specialize (Hs Hset). apply rank_terminal in Hs.
  rewrite Hs. destruct (state r); simpl in *; try done; lia.
Qed.

Lemma recovering_commit_prepared settles r a o t s :
  state r = StateExecuting a o ->
  recovering settles (commit_prepared r o t) s (ok_with (ran settles r)).
Proof.
  intros Hs. apply obeys_try. eapply obeys_mono; [apply recovering_transition|].
  intros [r1|e] s1; [|done]. intros [[_ Hp]|[Hm Hr]]; [rewrite Hs in Hp; by inversion Hp|].
  assert (state r1 = StateCommitPrepared a o t) as Hs1 by (rewrite Hs in Hm; by inversion Hm).
  apply obeys_try. eapply obeys_mono; [apply guarded_recovering, guarded_validate|].
  intros [c|e] s2 ->; [|done]. prog_ask; [done|]. intros [x|e] s3 [Hx ->]; prog_simpl; [|done].
  eapply obeys_mono; [apply recovering_transition|]. intros [r2|e] s4; [|done].
  unfold stepped. rewrite Hs1. intros [[-> Hp]|[Hm2 Hr2]]; [destruct x; by inversion Hp|].
  split; [lia|]. intros Hset. specialize (Hx Hset). destruct x as [res|f|u]; simpl in Hx;
    inversion Hm2; subst; try done; congruence.
Qed.

Lemma recovering_start settles r o s :
  recovering settles (await? started := actor_transition r (EvStart o) in execute_started started o) s
    (ok_with (ran settles r)).
Proof.
  apply obeys_try. eapply obeys_mono; [apply recovering_transition|].
  intros [r1|e] s1; [|done]. intros Hst.
  assert ((exists a, state r1 = StateExecuting a o) /\ revision r <= revision r1) as [[a Hs] Hr].
  { destruct Hst as [[-> Hp]|[Hm Hr]]; [inversion Hp|inversion Hm]; eauto with lia. }
  apply obeys_try. eapply obeys_mono; [apply guarded_recovering, guarded_validate|].
  intros [c|e] s2 ->; [|done]. prog_ask; [done|]. intros [x|e] s3 [Hx ->]; prog_simpl; [|done].
  assert (forall e, recovering settles (actor_transition r1 e) s1 (ok_with (stepped r1 e))) as Htr
    by (intros; apply recovering_transition).
  destruct x as [t|f|c']; simpl in Hx.
  - eapply obeys_mono; [by eapply recovering_commit_prepared|]. intros [r2|e] s4; [|done].
    intros [Hr2 Ht]. split; [lia|done].
  - eapply obeys_mono; [apply Htr|]. intros [r2|e] s4; [|done]. unfold stepped. rewrite Hs.
    intros [[-> Hp]|[Hm Hr2]]; [by inversion Hp|]. split; [lia|]. intros Hset. specialize (Hx Hset).
    inversion Hm; subst; [done|congruence].
  - eapply obeys_mono; [apply Htr|]. intros [r2|e] s4; [|done]. unfold stepped. rewrite Hs.
    intros [[-> Hp]|[Hm Hr2]]; [by inversion Hp|]. split; [lia|]. intros _. by inversion Hm.
Qed.

(** ** One message *)

(** The outcome of acting on the stored record [r]: the gate stays closed and no other command is
    touched; on success the record that came back is stored, and has moved on. *)
Definition discharged {E} (settles : bool) (r : CommandRecord) (m : CommandRecords)
    (x : result CommandRecord E) (s : GateState) : Prop :=
  s.2 = false
  /\ (forall op, op <> record_operation r -> s.1 !! op = m !! op)
  /\ forall r', x = Ok r' ->
       record_operation r' = record_operation r /\ s.1 !! record_operation r = Some r'
       /\ advanced settles r r'.

Lemma discharged_err {E} settles r m (e : E) : discharged settles r m (Err e) (m, false).
Proof. by split_and!. Qed.
#[local] Hint Resolve discharged_err : core.

Lemma discharged_confined settles r m x s :
  confined (record_operation r) m false x s -> ok_with (advanced settles r) x s -> discharged settles r m x s.
Proof.
  intros (Hg & Ho & Hx) Ha. split_and!; [done|done|]. intros r' ->. by destruct (Hx r' eq_refl).
Qed.

(** A program that is confined, and whose result has moved on. *)
Lemma recovering_discharged settles r m p :
  (in_hand (record_operation r) m r m -> guarded p (m, false) (confined (record_operation r) m false)) ->
  recovering settles p (m, false) (ok_with (advanced settles r)) ->
  m !! record_operation r = Some r -> recovering settles p (m, false) (discharged settles r m).
Proof.
  intros Hp Ha Hm. eapply obeys_mono; [apply obeys_and; [|exact Ha]|].
  - apply guarded_recovering, Hp. by split_and!.
  - intros x s [? ?]. by apply discharged_confined.
Qed.

Lemma recovering_find {B} settles op r (f : CommandRecord -> actor_prog B) s Φ :
  s.1 !! op = Some r -> (forall e, Φ (Err e) s) -> recovering settles (f r) s Φ ->
  recovering settles (try_bind (find_operation op) f) s Φ.
Proof.
  intros Hr He Hf. apply obeys_try. prog_ask; [done|].
  intros [found|e] [m' g'] [[Hm Hx] Hg]; destruct s; simpl in *; subst; prog_simpl; auto.
  by rewrite Hr.
Qed.

Lemma recovering_start_discharged settles r o m :
  m !! record_operation r = Some r -> is_terminal (state r) = false ->
  recovering settles (await? started := actor_transition r (EvStart o) in execute_started started o)
    (m, false) (discharged settles r m).
Proof.
  intros Hm Ht. apply recovering_discharged; [by apply guarded_start| |done].
  eapply obeys_mono; [apply recovering_start|]. intros [r'|e] s; [|done]. by apply ran_advanced.
Qed.

Lemma recovering_resume settles self r m :
  m !! record_operation r = Some r -> recovery_obligation r = Some ResumePrecommit ->
  recovering settles (process_resume_precommit self (record_operation r)) (m, false) (discharged settles r m).
Proof.
  intros Hm Ho. eapply recovering_find; [done|auto|]. unfold recovery_obligation in Ho.
  destruct (state r) eqn:Hs; try done; (apply recovering_read_context; [auto|]; intros c;
    apply recovering_start_discharged; [done|by rewrite Hs]).
Qed.

Lemma recovering_retry settles self r m :
  m !! record_operation r = Some r -> recovery_obligation r = Some RetryProvedNotCommitted ->
  recovering settles (process_retry self (record_operation r)) (m, false) (discharged settles r m).
Proof.
  intros Hm Ho. eapply recovering_find; [done|auto|]. unfold recovery_obligation in Ho.
  destruct (state r) eqn:Hs; try done. apply recovering_read_context; [auto|]. intros c. cbv zeta.
  case_match; [apply discharged_err|]. apply recovering_start_discharged; [done|by rewrite Hs].
Qed.

Lemma recovering_mark settles self r t u m :
  m !! record_operation r = Some r -> recovery_obligation r = Some (MarkInterruptedCommit t) ->
  recovering settles (process_mark_interrupted_commit self (record_operation r) u) (m, false)
    (discharged settles r m).
Proof.
  intros Hm Ho. eapply recovering_find; [done|auto|]. unfold recovery_obligation in Ho.
  destruct (state r) eqn:Hs; try done. apply recovering_read_context; [auto|]. intros c.
  apply recovering_discharged; [by apply guarded_confined| |done].
  eapply obeys_mono; [apply recovering_transition|]. intros [r'|e] s; [|done].
  unfold stepped, advanced. rewrite Hs. intros [[-> Hp]|[Hmv Hr]]; [by inversion Hp|]. split; [lia|].
  intros _. inversion Hmv; subst; simpl; lia.
Qed.

Lemma recovering_reconcile settles self r t m :
  m !! record_operation r = Some r -> recovery_obligation r = Some (ReconcileCommit t) ->
  recovering settles (process_reconcile self (record_operation r)) (m, false) (discharged settles r m).
Proof.
  intros Hm Ho. eapply recovering_find; [done|auto|]. unfold recovery_obligation in Ho.
  destruct (state r) eqn:Hs; try done. apply recovering_read_context; [auto|]. intros c. cbv zeta.
  prog_ask; [done|]. intros [x|e] s [Hx ->]; prog_simpl; [|apply discharged_err].
  apply recovering_discharged; [by apply guarded_confined| |done].
  eapply obeys_mono; [apply recovering_transition|]. intros [r'|e] s; [|done].
  unfold stepped, advanced. rewrite Hs. intros [[-> Hp]|[Hmv Hr]]; [by inversion Hp|]. split; [lia|].
  intros Hset. specialize (Hx Hset). destruct x; try done; inversion Hmv; subst; simpl; lia.
Qed.

(** ** Calls of the runtime *)

Lemma recovering_call {A} settles (p : actor_prog A) s Φ :
  (forall lost, Φ (Err (turn_error lost)) s) -> recovering settles p s Φ ->
  recovering settles (await? _ := await_turn in p) s Φ.
Proof. intros He Hp. apply obeys_try, obeys_map_err. prog_ask; [done|]. intros [[]|e] s' ->; prog_simpl; auto. Qed.

Lemma recovering_reply settles p s (Φ : result CommandRecord FabricCommandActorError -> GateState -> Prop) :
  recovering settles p s Φ ->
  recovering settles
    (await reply := record_reply p in
     match reply with
     | RecordReply result => Ret result
     | OpenReply _ | ShutdownReply | Panicked => Ret (Err ResponseDropped)
     end) s Φ.
Proof. intros Hp. apply obeys_bind, obeys_bind. eapply obeys_mono; [exact Hp|]. done. Qed.

(** A message whose handler discharges [r] does so for the runtime. *)
Lemma recovering_message settles self msg p r m :
  handle_message self msg = record_reply p ->
  recovering settles p (m, false) (discharged settles r m) ->
  recovering settles (pmap_err RecoveryActor (call_for_record self msg)) (m, false) (discharged settles r m).
Proof.
  intros Hmsg Hp. apply obeys_map_err. unfold call_for_record. apply recovering_call; [intros e; by split_and!|].
  rewrite Hmsg. apply recovering_reply. eapply obeys_mono; [exact Hp|].
  intros [r'|e] s (Hg & Ho & Hx); split_and!; try done. intros ? [= <-]. by apply Hx.
Qed.

Lemma recovering_discharge settles self fence r ob m :
  m !! record_operation r = Some r -> recovery_obligation r = Some ob ->
  recovering settles (discharge self fence r ob) (m, false) (discharged settles r m).
Proof.
  intros Hm Ho. unfold discharge. destruct ob as [|t|t|].
  - eapply recovering_message; [done|]. by apply recovering_resume.
  - apply obeys_try, obeys_map_err. prog_ask; [done|]. intros [d|e] s ->; prog_simpl; [|apply discharged_err].
    eapply recovering_message; [done|]. by eapply recovering_mark.
  - eapply recovering_message; [done|]. by eapply recovering_reconcile.
  - eapply recovering_message; [done|]. by apply recovering_retry.
Qed.

(** ** One page *)

(** The records of a page, stored in [m]. *)
Definition page_stored (m : CommandRecords) (l : list CommandRecord) : Prop :=
  NoDup (record_operation <$> l)
  /\ forall r, r ∈ l -> m !! record_operation r = Some r /\ is_terminal (state r) = false.

(** The transitions of a page: each of its records, in order, has been acted on once. *)
Definition page_recovered (settles : bool) (m m' : CommandRecords) (l : list CommandRecord)
    (ts : list CommandRecoveryTransition) : Prop :=
  (forall op, op ∉ record_operation <$> l -> m' !! op = m !! op)
  /\ Forall2 (fun r t => recovered_operation t = record_operation r
                         /\ recovery_obligation r = Some (prior_obligation t)
                         /\ record_operation (resulting_record t) = record_operation r
                         /\ m' !! record_operation r = Some (resulting_record t)
                         /\ advanced settles r (resulting_record t)) l ts.

Lemma recovering_record settles self fence r m :
  m !! record_operation r = Some r -> is_terminal (state r) = false ->
  recovering settles (recover_record self fence r) (m, false) (fun x s =>
    s.2 = false
    /\ match x with Ok t => page_recovered settles m s.1 [r] [t] | Err _ => True end).
Proof.
  intros Hm Ht. unfold recover_record. destruct (recovery_obligation r) as [ob|] eqn:Ho.
  2: { unfold recovery_obligation in Ho. by destruct (state r). }
  apply obeys_try. eapply obeys_mono; [by apply recovering_discharge|].
  intros [r'|e] s (Hg & Hother & Hx); [|done]. destruct (Hx r' eq_refl) as (Hop & Hs & Ha). simpl.
  split; [done|]. split; [intros op Hne; apply Hother; set_solver|].
  constructor; [by split_and!|constructor].
Qed.

Lemma page_recovered_cons settles m m1 m2 r t l ts :
  NoDup (record_operation <$> r :: l) ->
  page_recovered settles m m1 [r] [t] -> page_recovered settles m1 m2 l ts ->
  page_recovered settles m m2 (r :: l) (t :: ts).
Proof.
  intros [Hn _]%NoDup_cons [Ho1 Hf1] [Ho2 Hf2]. apply Forall2_cons in Hf1 as [(? & ? & ? & Hs & ?) _]. split.
  - intros op Hop. simpl in Hop. apply not_elem_of_cons in Hop as [? ?]. rewrite Ho2, Ho1; set_solver.
  - constructor; [|done]. split_and!; try done. by rewrite Ho2.
Qed.

Lemma recovering_records settles self fence l m :
  page_stored m l ->
  recovering settles (recover_records self fence l) (m, false) (fun x s =>
    s.2 = false
    /\ match x with Ok ts => page_recovered settles m s.1 l ts | Err _ => True end).
Proof.
  revert m. induction l as [|r l IH]; intros m [Hnd Hl].
  { simpl. split; [done|]. by split. }
  cbn [recover_records]. destruct (Hl r) as [Hm Ht]; [set_solver|].
  apply obeys_try. eapply obeys_mono; [by apply recovering_record|].
  intros [t|e] [m1 g1] [Hg Hx]; simpl in Hg; subst g1; [|done].
  apply obeys_try. eapply obeys_mono; [apply IH|].
  - apply NoDup_cons in Hnd as [Hn Hnd]. split; [done|]. intros r' Hr'.
    destruct Hx as [Ho _]. simpl in Ho. rewrite Ho; [apply Hl; set_solver|].
    intros Heq%list_elem_of_singleton. apply Hn. rewrite <- Heq. by apply list_elem_of_fmap_2.
  - intros [ts|e] [m2 g2] [Hg Hy]; simpl in Hg; subst g2; [|done]. simpl. split; [done|].
    by eapply page_recovered_cons.
Qed.

(** The page that was read, and what became of its records. *)
Lemma recovering_page settles self fence after n m g :
  1 <= n ->
  recovering settles (recover_nonterminal_page self fence after n) (m, g) (fun x s =>
    s.2 = false
    /\ match x with
       | Ok pass => exists page, is_page m after n page /\ pass_next_after pass = page_next_after page
                      /\ page_recovered settles m s.1 (page_records page) (pass_transitions pass)
       | Err _ => True
       end).
Proof.
  intros Hn. unfold recover_nonterminal_page. prog_ask; [done|]. intros u s ->. prog_simpl.
  apply obeys_try, obeys_map_err. prog_ask; [done|]. intros [[]|e] s ->; prog_simpl; [|done].
  apply obeys_try, obeys_map_err. prog_ask; [done|].
  intros [page|e] [m' g'] [[Hm Hp] Hg]; simpl in Hm, Hg; subst; prog_simpl; [|done]. specialize (Hp Hn).
  apply obeys_try. eapply obeys_mono; [apply recovering_records|].
  - destruct Hp as (Hs & Hin & _). split; [|intros r Hr; by destruct (Hin r Hr) as (? & ? & _)].
    clear Hin. induction Hs as [|r l Hs IH Hlt]; [constructor|]. simpl. constructor; [|done].
    intros (r' & Heq & Hr')%list_elem_of_fmap. rewrite Forall_forall in Hlt. destruct (Hlt r' Hr'). done.
  - intros [ts|e] s [Hg Hx]; [|done]. simpl. split; [done|]. by exists page.
Qed.

(** ** What is due *)

#[export] Instance operation_lt_dec a b : Decision (operation_lt a b).
Proof. unfold operation_lt, operation_le. apply _. Defined.
#[export] Instance comes_after_dec after op : Decision (comes_after after op).
Proof. destruct after; apply _. Defined.

Lemma operation_lt_trans a b c : operation_lt a b -> operation_lt b c -> operation_lt a c.
Proof.
  intros [H1 N1] [H2 N2]. split; [by eapply bytes_le_trans|]. intros ->. apply N2.
  apply bytes_le_antisymm in H1; [|done]. apply as_slice_inj in H1. destruct b, c. simpl in H1. by subst.
Qed.

Lemma operation_lt_irrefl a : ~ operation_lt a a.
Proof. by intros [_ ?]. Qed.

(** The unfinished commands after a cursor. *)
Definition due (m : CommandRecords) (after : option OperationId) : CommandRecords :=
  filter (fun p => is_terminal (state p.2) = false /\ comes_after after p.1) m.

Lemma due_Some m after op r :
  due m after !! op = Some r <-> m !! op = Some r /\ is_terminal (state r) = false /\ comes_after after op.
Proof. unfold due. by rewrite map_lookup_filter_Some. Qed.

Lemma sorted_last {A} (R : A -> A -> Prop) (l : list A) x z :
  StronglySorted R l -> last l = Some z -> x ∈ l -> x = z \/ R x z.
Proof.
  induction 1 as [|a l Hs IH Hall]; intros Hz Hx; [by apply not_elem_of_nil in Hx|].
  destruct l as [|b l]; [injection Hz as ->; set_solver|]. apply elem_of_cons in Hx as [->|Hx]; [|by apply IH].
  right. rewrite Forall_forall in Hall. apply Hall. by eapply last_Some_elem_of.
Qed.

(** A page splits what is due into its own records and what is due after its cursor. *)
Lemma page_due m after n page op r :
  keyed m -> is_page m after n page ->
  due m after !! op = Some r
  <-> r ∈ page_records page /\ record_operation r = op
      \/ exists c, page_next_after page = Some c /\ due m (Some c) !! op = Some r.
Proof.
  intros Hk (Hs & Hin & Hall). rewrite due_Some. split.
  - intros (Hm & Ht & Ha). pose proof (Hk op r Hm) as Ho. destruct (page_next_after page) as [c|].
    + destruct Hall as (_ & _ & Hall). destruct (Hall r) as [Hr|Hc]; [by subst op|by left|].
      right. exists c. rewrite due_Some. by subst op.
    + left. split; [|done]. apply Hall. by subst op.
  - intros [[Hr <-]|(c & Hc & (Hm & Ht & Hlt)%due_Some)]; [by destruct (Hin r Hr) as (? & ? & ?)|].
    split_and!; [done|done|]. rewrite Hc in Hall. destruct Hall as (_ & (z & Hz & <-) & _).
    destruct (Hin z) as (_ & _ & Ha); [by eapply last_Some_elem_of|]. destruct after as [a|]; [|done].
    by eapply operation_lt_trans.
Qed.

Lemma page_before_cursor m after n page c r :
  is_page m after n page -> page_next_after page = Some c -> r ∈ page_records page ->
  ~ comes_after (Some c) (record_operation r).
Proof.
  intros (Hs & _ & Hall) Hc Hr. rewrite Hc in Hall. destruct Hall as (_ & (z & Hz & <-) & _).
  destruct (sorted_last _ _ _ _ Hs Hz Hr) as [->|Hlt]; [apply operation_lt_irrefl|].
  intros Hgt. by eapply operation_lt_irrefl, operation_lt_trans.
Qed.

(** A sweep from [m] to [m']: every command that was due has moved on, no other is touched. *)
Definition swept (settles : bool) (after : option OperationId) (m m' : CommandRecords) : Prop :=
  forall op, match due m after !! op with
             | Some r => exists r', m' !! op = Some r' /\ record_operation r' = op /\ advanced settles r r'
             | None => m' !! op = m !! op
             end.

Lemma page_recovered_elem settles m m' l ts r :
  page_recovered settles m m' l ts -> r ∈ l ->
  exists r', m' !! record_operation r = Some r' /\ record_operation r' = record_operation r
             /\ advanced settles r r'.
Proof.
  intros [_ Hf] [i Hi]%list_elem_of_lookup. destruct (Forall2_lookup_l _ _ _ _ _ Hf Hi) as (t & _ & ? & _ & ? & ? & ?).
  eauto.
Qed.

(** Nothing that is due after the cursor was on the page. *)
Lemma due_rest settles m m1 after n page c ts op :
  keyed m -> is_page m after n page -> page_next_after page = Some c ->
  page_recovered settles m m1 (page_records page) ts -> due m1 (Some c) !! op = due m (Some c) !! op.
Proof.
  intros Hk Hp Hc Hr. destruct (decide (op ∈ record_operation <$> page_records page)) as [Hin|Hn].
  - apply list_elem_of_fmap in Hin as (r & -> & Hin). pose proof (page_before_cursor _ _ _ _ _ _ Hp Hc Hin) as Hb.
    assert (forall m, due m (Some c) !! record_operation r = None) as Hnone; [|by rewrite !Hnone].
    intros m0. apply eq_None_not_Some. intros [x (_ & _ & Hx)%due_Some]. done.
  - apply option_eq. intros x. rewrite !due_Some. by rewrite (proj1 Hr op Hn).
Qed.

Lemma swept_last settles m m' after n page ts :
  keyed m -> is_page m after n page -> page_next_after page = None ->
  page_recovered settles m m' (page_records page) ts -> swept settles after m m'.
Proof.
  intros Hk Hp Hc Hr op. destruct (due m after !! op) as [r|] eqn:Hd.
  - apply (page_due m after n page op r Hk Hp) in Hd as [[Hin <-]|(c & Hc' & _)]; [|congruence].
    by eapply page_recovered_elem.
  - apply (proj1 Hr). intros (r & -> & Hin)%list_elem_of_fmap.
    assert (due m after !! record_operation r = Some r) as Hd'; [|congruence]. apply (page_due m after n page); auto.
Qed.

Lemma swept_more settles m m1 m' after n page c ts :
  keyed m -> is_page m after n page -> page_next_after page = Some c ->
  page_recovered settles m m1 (page_records page) ts -> swept settles (Some c) m1 m' ->
  swept settles after m m'.
Proof.
  intros Hk Hp Hc Hr Hsw op. specialize (Hsw op).
  rewrite (due_rest settles m m1 after n page c ts op Hk Hp Hc Hr) in Hsw.
  destruct (decide (op ∈ record_operation <$> page_records page)) as [Hin|Hn].
  - apply list_elem_of_fmap in Hin as (r & -> & Hin). pose proof (page_before_cursor _ _ _ _ _ _ Hp Hc Hin) as Hb.
    assert (due m after !! record_operation r = Some r) as -> by (apply (page_due m after n page); auto).
    assert (due m (Some c) !! record_operation r = None) as Hnone
      by (apply eq_None_not_Some; intros [x (_ & _ & Hx)%due_Some]; done).
    rewrite Hnone in Hsw. destruct (page_recovered_elem _ _ _ _ _ _ Hr Hin) as (r' & Hr' & ?).
    exists r'. by rewrite Hsw.
  - destruct (due m (Some c) !! op) as [r|] eqn:Hd.
    + assert (due m after !! op = Some r) as -> by (apply (page_due m after n page); eauto). done.
    + destruct (due m after !! op) as [r|] eqn:Ha; [|rewrite Hsw; by apply (proj1 Hr)].
      apply (page_due m after n page) in Ha as [[Hin <-]|(c' & Hc' & Hd')]; [|congruence|done|done].
      by destruct Hn; apply list_elem_of_fmap_2.
Qed.

(** ** Counting *)

Lemma page_nodup m after n page : is_page m after n page -> NoDup (record_operation <$> page_records page).
Proof.
  intros (Hs & _). induction Hs as [|r l Hs IH Hlt]; [constructor|]. simpl. constructor; [|done].
  intros (r' & Heq & Hr')%list_elem_of_fmap. rewrite Forall_forall in Hlt. by destruct (Hlt r' Hr').
Qed.

Definition due_next (m : CommandRecords) (page : CommandRecoveryPage) : CommandRecords :=
  match page_next_after page with Some c => due m (Some c) | None => ∅ end.

Lemma due_size m after n page :
  keyed m -> is_page m after n page ->
  size (due m after) = (length (page_records page) + size (due_next m page))%nat.
Proof.
  intros Hk Hp. rewrite <- (length_fmap record_operation), <- !size_dom.
  rewrite <- (size_list_to_set (C := gset OperationId)) by (by eapply page_nodup).
  rewrite <- size_union.
  - apply set_size_proper. intros op. rewrite elem_of_union, elem_of_list_to_set, !elem_of_dom, list_elem_of_fmap.
    unfold due_next. split.
    + intros [r Hr]. apply (page_due m after n page op r Hk Hp) in Hr as [[Hin <-]|(c & -> & Hd)]; eauto.
    + intros [(r & -> & Hin)|[r Hr]]; exists r; apply (page_due m after n page); auto.
      destruct (page_next_after page) as [c|]; [eauto|by rewrite lookup_empty in Hr].
  - intros op. rewrite elem_of_list_to_set, elem_of_dom, list_elem_of_fmap. intros (r & -> & Hin) [x Hx].
    unfold due_next in Hx. destruct (page_next_after page) as [c|] eqn:Hc; [|by rewrite lookup_empty in Hx].
    apply due_Some in Hx as (_ & _ & Hx). by eapply page_before_cursor.
Qed.

Lemma page_recovered_keyed settles m m' l ts : keyed m -> page_recovered settles m m' l ts -> keyed m'.
Proof.
  intros Hk Hr op r Hm. destruct (decide (op ∈ record_operation <$> l)) as [Hin|Hn].
  - apply list_elem_of_fmap in Hin as (r0 & -> & Hin).
    destruct (page_recovered_elem _ _ _ _ _ _ Hr Hin) as (r' & Hr' & Ho & _). congruence.
  - rewrite (proj1 Hr op Hn) in Hm. by apply Hk.
Qed.

Lemma swept_keyed settles after m m' : keyed m -> swept settles after m m' -> keyed m'.
Proof.
  intros Hk Hs op r Hm. specialize (Hs op). destruct (due m after !! op) as [r0|].
  - destruct Hs as (r' & Hr' & Ho & _). congruence.
  - rewrite Hs in Hm. by apply Hk.
Qed.

(** ** One sweep *)

(** With more fuel than there are commands due, a sweep returns. It counts each of them once. *)
Lemma recovering_sweep settles self fence n fuel after total m g :
  1 <= n -> keyed m -> (size (due m after) < fuel)%nat ->
  recovering settles (sweep self fence fuel n after total) (m, g) (fun x s =>
    s.2 = false
    /\ exists res, x = Returned res
         /\ match res with
            | Ok total' => total' = total + Z.of_nat (size (due m after)) /\ swept settles after m s.1
            | Err _ => True
            end).
Proof.
  intros Hn. revert after total m g. induction fuel as [|fuel IH]; intros after total m g Hk Hfuel; [lia|].
  cbn [sweep]. apply obeys_bind. eapply obeys_mono; [by apply recovering_page|].
  intros [pass|e] [m1 g1] [Hg Hx]; simpl in Hg; subst g1; [|split; [done|]; by eexists].
  destruct Hx as (page & Hp & Hnext & Hr). rewrite Hnext.
  pose proof (due_size m after n page Hk Hp) as Hsize. unfold due_next in Hsize.
  rewrite <- (Forall2_length _ _ _ (proj2 Hr)).
  destruct (checked_add _ _ _) as [total'|] eqn:Ht; [|split; [done|]; by eexists].
  apply checked_add_Some in Ht as [-> _]. simpl in Hr.
  destruct (page_next_after page) as [c|] eqn:Hc.
  - assert (due m1 (Some c) = due m (Some c)) as Hd by (apply map_eq; intros op; by eapply due_rest).
    eapply obeys_mono; [apply IH; [by eapply page_recovered_keyed|]|].
    + rewrite Hd. destruct Hp as (_ & _ & Hl). rewrite Hc in Hl. destruct Hl as (Hl & _). lia.
    + intros x s (Hg & res & -> & Hres). split; [done|]. exists res. split; [done|].
      destruct res as [t'|]; [|done]. destruct Hres as [-> Hsw]. rewrite Hd. split; [lia|].
      by eapply swept_more.
  - prog_simpl. split; [done|]. eexists. split; [done|]. split; [rewrite map_size_empty in Hsize; lia|].
    by eapply swept_last.
Qed.

(** ** Admission *)

(** Admission opens over finished commands only; what is reported pending is the first that is not. *)
Definition admission_opened (m : CommandRecords) (x : result unit FabricCommandAdmissionOpenError)
    (s : GateState) : Prop :=
  s.1 = m
  /\ match x with
     | Ok _ => s.2 = true /\ all_terminal m
     | Err (AdmissionRecoveryPending op ob) =>
         s.2 = false
         /\ exists r, m !! op = Some r /\ recovery_obligation r = Some ob
                      /\ forall op' r', m !! op' = Some r' -> is_terminal (state r') = false -> operation_le op op'
     | Err _ => s.2 = false
     end.

Lemma recovering_open settles self m g :
  recovering settles (open_command_admission self) (m, g) (admission_opened m).
Proof.
  unfold open_command_admission. prog_ask; [done|]. intros u s ->. prog_simpl.
  apply obeys_try, obeys_map_err. prog_ask; [done|]. intros [[]|e] s ->; prog_simpl; [|by split].
  apply obeys_map_err. unfold open_admission_after_recovery. apply recovering_call; [by intros []|].
  unfold handle_message, handle_open_admission. apply obeys_bind. prog_ask; [done|]. intros u' s ->. prog_simpl.
  prog_ask; [done|]. intros [[r|]|e] [m' g'] [[Hm Hx] Hg]; simpl in Hm, Hx, Hg; subst; prog_simpl; [| |by split].
  - destruct Hx as (Hr & Ht & Hle). destruct (recovery_obligation r) as [ob|] eqn:Ho; prog_simpl.
    + split; [done|]. split; [done|]. by exists r.
    + by split.
  - prog_ask; [done|]. intros v s ->. prog_simpl. split; [done|]. by split.
Qed.

(** ** Recovery *)

(** No state needs more than [k] further sweeps. *)
Definition ranked (k : nat) (m : CommandRecords) : Prop :=
  forall op r, m !! op = Some r -> (rank (state r) <= k)%nat.

Lemma swept_ranked m m' k : swept true None m m' -> ranked (S k) m -> ranked k m'.
Proof.
  intros Hs Hk op r Hr. specialize (Hs op). destruct (due m None !! op) as [r0|] eqn:Hd.
  - destruct Hs as (r' & Hr' & _ & _ & Hlt). apply due_Some in Hd as (Hm & _).
    specialize (Hk op r0 Hm). specialize (Hlt eq_refl). rewrite Hr' in Hr. injection Hr as <-. lia.
  - rewrite Hs in Hr. destruct (is_terminal (state r)) eqn:Ht.
    + apply rank_terminal in Ht. lia.
    + assert (due m None !! op = Some r) as Hd' by (by apply due_Some). congruence.
Qed.

Lemma ranked_terminal m : ranked 0 m -> all_terminal m.
Proof. intros Hk op r Hr. apply rank_terminal. specialize (Hk op r Hr). lia. Qed.

(** The size of the journal does not change, so the same fuel serves every sweep. *)
Lemma swept_size settles after m m' : swept settles after m m' -> size m' = size m.
Proof.
  intros Hs. rewrite <- !size_dom. apply set_size_proper. intros op. rewrite !elem_of_dom. specialize (Hs op).
  destruct (due m after !! op) as [r|] eqn:Hd; [|by rewrite Hs].
  destruct Hs as (r' & -> & _). apply due_Some in Hd as (-> & _). by split; eauto.
Qed.

Lemma due_le m after : (size (due m after) <= size m)%nat.
Proof. unfold due. apply map_size_filter. Qed.

(** What [recover_and_open_bounded] returns, and where it leaves the gate. *)
Definition recovered (settles : bool) (k : nat) (rounds : nat) (maximum_sweeps : Z)
    (res : result FabricCommandStartupRecovery FabricCommandStartupRecoveryError) (s : GateState) : Prop :=
  match res with
  | Ok report =>
      match recovery_state report with
      | RecoveryReady => s.2 = true /\ all_terminal s.1 /\ 1 <= recovery_sweeps report <= maximum_sweeps
      | RecoveryStillPending op ob =>
          s.2 = false /\ recovery_sweeps report = maximum_sweeps
          /\ (exists r, s.1 !! op = Some r /\ recovery_obligation r = Some ob)
          /\ ~ (settles = true /\ (k <= rounds)%nat)
      end
  | Err _ => s.2 = false
  end.

Lemma ranked_mono k k' m : (k <= k')%nat -> ranked k m -> ranked k' m.
Proof. intros Hle Hk op r Hr. specialize (Hk op r Hr). lia. Qed.

(** A command still pending after the last sweep was not on its way to an end. *)
Lemma still_pending m op r ob k :
  ranked k m -> m !! op = Some r -> recovery_obligation r = Some ob -> (1 <= k)%nat.
Proof.
  intros Hk Hr Ho. specialize (Hk op r Hr). unfold recovery_obligation in Ho. destruct (state r); simpl in *; try done; lia.
Qed.

Lemma recovering_sweeps settles self fence n fuel rounds k maximum index total m g :
  1 <= n -> keyed m -> (size m < fuel)%nat -> (1 <= rounds)%nat -> 0 <= index ->
  index + Z.of_nat rounds = maximum -> (settles = true -> ranked k m) ->
  recovering settles (sweeps self fence rounds fuel n maximum index total) (m, g) (fun x s =>
    exists res, x = Returned res /\ recovered settles k rounds maximum res s).
Proof.
  intros Hn. revert k index total m g.
  induction rounds as [|rounds IH]; intros k index total m g Hk Hfuel Hrounds Hi Hmax Hrank; [lia|].
  cbn [sweeps]. apply obeys_bind. eapply obeys_mono.
  { apply (recovering_sweep settles self fence n fuel None); [done|done|]. pose proof (due_le m None). lia. }
  intros x [m1 g1] (Hg & res & -> & Hres). simpl in Hg. subst g1.
  destruct res as [total'|e]; [destruct Hres as [_ Hsw]|by eexists].
  cbn [fst] in Hsw. assert (settles = true -> ranked (pred k) m1) as Hrank1.
  { intros ->. eapply swept_ranked; [exact Hsw|]. eapply ranked_mono; [|by apply Hrank]. lia. }
  pose proof (swept_keyed _ _ _ _ Hk Hsw) as Hk1. pose proof (swept_size _ _ _ _ Hsw) as Hsize.
  apply obeys_bind. eapply obeys_mono; [apply recovering_open|].
  intros x [m2 g2] [Hm Hx]. simpl in Hm. subst m2.
  destruct x as [[]|[e|e|op ob|e]]; [|by eexists|by eexists| |by eexists].
  { eexists. split; [done|]. destruct Hx as [Hg Hall]. simpl in *. split_and!; [done|done|lia|lia]. }
  destruct Hx as (Hg & r & Hr & Ho & _). simpl in Hg. subst g2.
  destruct (Z.eqb_spec (index + 1) maximum) as [He|Hne].
  - eexists. split; [done|]. simpl. split_and!; [done|done|by exists r|]. intros [Hset Hkr].
    pose proof (still_pending _ _ _ _ _ (Hrank1 Hset) Hr Ho). lia.
  - eapply obeys_mono; [apply (IH (pred k) (index + 1)); try done; lia|].
    intros y s (res & -> & Hrec). exists res. split; [done|]. destruct res as [rep|e]; [|done]. simpl in *.
    destruct (recovery_state rep); [done|]. destruct Hrec as (? & ? & ? & Hno). split_and!; try done.
    intros [? ?]. apply Hno. split; [done|lia].
Qed.
