(* ===== verification/WriterLease.v ===== *)
(** The workspace writer lease, src/src/fabric/writer_lease.rs, the generation store under it,
    src/src/fabric/writer_generation_sqlite.rs, and the lease-bound contexts of
    src/src/fabric/command_runtime.rs.

    What the file system and the clock answer is an argument of an operation. Advisory locks are the
    set of locked file names: closing a file, by a drop or by the end of the process, unlocks it. *)

From S2P Require Import Prelude.
From S2P Require Import Encoding.
From S2P Require Import CommandModel.
From S2P Require Import ActorModel.
From S2P Require Import Sqlite.
Local Open Scope Z_scope.

(** ** The generation store *)

(** [rusqlite::types::Value]. *)
Inductive Value := VNull | VInteger (value : Z) | VReal | VText (value : string) | VBlob (value : list byte).

Record GenerationRow := mk_GenerationRow {
  current_generation : Value;
  current_lease_id : Value;
  acquired_at_unix_micros : Value
}.

Abbreviation SqliteWriterGenerationStore := (Connection WorkspaceId GenerationRow).
Abbreviation generation_query A := (stm SqliteWriterGenerationStore WriterGenerationPortError A).
Abbreviation generation_statement := (sql_statement GenerationUnavailable).

(** The [CHECK] constraints of the schema. *)
Definition generation_schema_accepts (row : GenerationRow) : bool :=
  match current_generation row, current_lease_id row, acquired_at_unix_micros row with
  | VBlob g, VBlob l, VInteger t =>
      Nat.eqb (length g) 8 && negb (bool_decide (g = replicate 8 x00)) && Nat.eqb (length l) 16 && (0 <=? t)
  | _, _, _ => false
  end%bool.

Definition decode_temporal_row (row : GenerationRow) : result WriterFence WriterGenerationPortError :=
  match current_generation row with
  | VBlob generation =>
      let? generation_bytes := ok_or (byte_array_of_slice 8 generation) GenerationCorrupt in
      let? generation := ok_or (WriterGeneration_new (from_be_bytes (as_slice generation_bytes)))
                           GenerationCorrupt in
      match current_lease_id row with
      | VBlob lease =>
          let? lease := ok_or (byte_array_of_slice 16 lease) GenerationCorrupt in
          match acquired_at_unix_micros row with
          | VInteger value =>
              if 0 <=? value then Ok (mk_WriterFence (from_bytes (t := TLeaseId) lease) generation)
              else Err GenerationCorrupt
          | _ => Err GenerationCorrupt
          end
      | _ => Err GenerationCorrupt
      end
  | _ => Err GenerationCorrupt
  end.

(** [allocate_next], at the clock reading [now]: [None] when it does not fit. The statements are the
    lock on the connection, the begin of the transaction, the read and the upsert, which affects one
    row. *)
Definition allocate_next (now : option Z) (workspace_id : WorkspaceId) (lease_id : LeaseId)
  : generation_query WriterGeneration :=
  do! _ <- generation_statement;
  do! _ <- generation_statement;
  do! _ <- generation_statement;
  do! s <- st_get;
  do! next <- match table s !! workspace_id with
              | Some row =>
                  do! current <- st_lift (decode_temporal_row row);
                  st_lift (ok_or (checked_add u64_max (generation_get (generation current)) 1)
                             GenerationExhausted)
              | None => st_ret 1
              end;
  do! allocated <- st_lift (ok_or (WriterGeneration_new next) GenerationExhausted);
  do! acquired_at <- st_lift (ok_or now GenerationUnavailable);
  let row := mk_GenerationRow (VBlob (to_be_bytes 8 next)) (VBlob (as_slice (as_bytes lease_id)))
               (VInteger acquired_at) in
  do! _ <- generation_statement;
  if negb (generation_schema_accepts row) then st_err GenerationUnavailable
  else
    do! _ <- sql_commit GenerationUnavailable (<[workspace_id := row]> (table s));
    st_ret allocated.

Definition observe_current (workspace_id : WorkspaceId) : generation_query (option WriterFence) :=
  do! _ <- generation_statement;
  do! _ <- generation_statement;
  do! s <- st_get;
  match table s !! workspace_id with
  | Some row => do! fence <- st_lift (decode_temporal_row row); st_ret (Some fence)
  | None => st_ret None
  end.

Definition validate_writer_fence (workspace_id : WorkspaceId) (fence : WriterFence)
  : stm SqliteWriterGenerationStore WorkspaceWriterLeaseError unit :=
  do! current <- st_map_err LeaseGeneration (observe_current workspace_id);
  if bool_decide (current = Some fence) then st_ret tt else st_err StaleFence.

(** ** The lease *)

Record WorkspaceWriterLease := mk_WorkspaceWriterLease {
  lease_workspace_id : WorkspaceId;
  lease_fence : WriterFence;
  lock_path : string
}.

Definition lock_file_name (workspace_id : WorkspaceId) : string :=
  hex (as_slice (as_bytes workspace_id)) +:+ ".writer.lock".

(** [Path::join] with a relative name. *)
Definition join (root name : string) : string :=
  match String.length root with
  | O => name
  | S n => if bool_decide (String.get n root = Some (Ascii.ascii_of_nat 47)) then root +:+ name
           else root +:+ "/" +:+ name
  end.

Record DirectoryMetadata := { dir_is_dir : bool; dir_is_symlink : bool; dir_mode : Z }.
Record FileMetadata := { file_is_file : bool; file_nlink : Z; file_mode : Z }.

(** What the system calls of one acquisition answer; [None] and [Err] are failures. *)
Record LockAttempt := {
  at_directory_metadata : option DirectoryMetadata;
  at_open : result unit Z;
  at_openat : result unit Z;
  at_metadata : option FileMetadata;
  at_flock : result unit Z;
  at_now : option Z
}.

(** [Errno::LOOP], and [Errno::WOULDBLOCK], which is [Errno::AGAIN]. *)
Definition ELOOP : Z := 40.
Definition EWOULDBLOCK : Z := 11.

(** The locked files of the administration directory, and the generation database. *)
Record Host := mk_Host {
  locked : gset string;
  generations : SqliteWriterGenerationStore
}.

Definition on_generations {E A} (m : stm SqliteWriterGenerationStore E A) : stm Host E A := fun h =>
  let '(g, r) := m (generations h) in (mk_Host (locked h) g, r).

Definition unlock (name : string) (h : Host) : Host := mk_Host (locked h ∖ {[name]}) (generations h).

Definition flock_exclusive (outcome : result unit Z) (name : string)
  : stm Host WorkspaceWriterLeaseError unit := fun h =>
  match outcome with
  | Err errno => (h, Err (if errno =? EWOULDBLOCK then AlreadyHeld else LeaseIo errno))
  | Ok _ => if bool_decide (name ∈ locked h) then (h, Err AlreadyHeld)
            else (mk_Host ({[name]} ∪ locked h) (generations h), Ok tt)
  end.

(** An early return drops the locked file. *)
Definition or_unlock {A} (name : string) (m : stm Host WorkspaceWriterLeaseError A)
  : stm Host WorkspaceWriterLeaseError A := fun h =>
  match m h with
  | (h', Ok a) => (h', Ok a)
  | (h', Err e) => (unlock name h', Err e)
  end.

Section lease.
Context (admin_root : string).

(** Up to the open lock file: its directory and the file itself are private. *)
Definition open_lock_file (attempt : LockAttempt) (path : string) : result unit WorkspaceWriterLeaseError :=
  let? directory := ok_or (at_directory_metadata attempt) (UnsafeAdminDirectory admin_root) in
  if (negb (dir_is_dir directory) || dir_is_symlink directory
      || negb (Z.land (dir_mode directory) 63 =? 0))%bool
  then Err (UnsafeAdminDirectory admin_root)
  else
    let? _ := map_err LeaseIo (at_open attempt) in
    let? _ := map_err (fun errno => if errno =? ELOOP then UnsafeLockFile path else LeaseIo errno)
                (at_openat attempt) in
    let? metadata := ok_or (at_metadata attempt) (UnsafeLockFile path) in
    if (negb (file_is_file metadata) || negb (file_nlink metadata =? 1)
        || negb (Z.land (file_mode metadata) 511 =? 384))%bool
    then Err (UnsafeLockFile path)
    else Ok tt.

Definition acquire (attempt : LockAttempt) (workspace_id : WorkspaceId) (lease_id : LeaseId)
  : stm Host WorkspaceWriterLeaseError WorkspaceWriterLease :=
  let name := lock_file_name workspace_id in
  let path := join admin_root name in
  do! _ <- st_lift (open_lock_file attempt path);
  do! _ <- flock_exclusive (at_flock attempt) name;
  or_unlock name
    (do! generation <- on_generations
                         (st_map_err LeaseGeneration (allocate_next (at_now attempt) workspace_id lease_id));
     let fence := mk_WriterFence lease_id generation in
     do! _ <- on_generations (validate_writer_fence workspace_id fence);
     st_ret (mk_WorkspaceWriterLease workspace_id fence path)).

(** [validate]: the durable generation, re-read. *)
Definition validate (lease : WorkspaceWriterLease) : stm Host WorkspaceWriterLeaseError unit :=
  on_generations (validate_writer_fence (lease_workspace_id lease) (lease_fence lease)).

(** [release] consumes the lease: its file is closed also when the unlock fails. *)
Definition release (outcome : result unit Z) (lease : WorkspaceWriterLease)
  : stm Host WorkspaceWriterLeaseError unit := fun h =>
  (unlock (lock_file_name (lease_workspace_id lease)) h, map_err LeaseIo outcome).
End lease.

(** ** Lease-bound contexts *)

Record SemanticAdmissionContext := mk_SemanticAdmissionContext {
  semantic_workspace_id : WorkspaceId;
  semantic_current_head : ExpectedHead;
  semantic_authorization : AuthorizationDecision
}.

Section contexts.
(** [LeaseBoundCommandContextPort]: its workspace and its fence. *)
Context (workspace_id : WorkspaceId) (fence : WriterFence).

Abbreviation context_query A := (stm SqliteWriterGenerationStore CommandPortError A).

Definition validate_active_authority : context_query unit :=
  st_map_err (fun _ => ContextUnavailable) (validate_writer_fence workspace_id fence).

Definition validate_admission (cmd : FabricCommand) : context_query unit :=
  if (negb (bool_decide (owner_workspace_id (ownership cmd) = workspace_id))
      || negb (bool_decide (writer_fence cmd = fence)))%bool
  then st_err ContextUnavailable
  else validate_active_authority.

Definition validate_reduction (cmd : FabricCommand) : context_query unit :=
  if (negb (bool_decide (owner_workspace_id (ownership cmd) = workspace_id))
      || (negb (bool_decide (writer_fence cmd = fence))
          && (generation_get (generation fence) <=? generation_get (generation (writer_fence cmd)))))%bool
  then st_err ContextUnavailable
  else validate_active_authority.

(** The answer of the semantic reader is an argument. *)
Definition bound_admission_context (cmd : FabricCommand)
    (read_admission_semantics : result SemanticAdmissionContext CommandPortError)
  : context_query AdmissionContext :=
  do! _ <- validate_admission cmd;
  do! semantics <- st_lift read_admission_semantics;
  if negb (bool_decide (semantic_workspace_id semantics = workspace_id)) then st_err ContextUnavailable
  else st_ret (mk_AdmissionContext (semantic_workspace_id semantics) (semantic_current_head semantics)
                 fence (semantic_authorization semantics)).

Definition bound_reduction_context (record : CommandRecord)
    (read_current_head : result ExpectedHead CommandPortError) : context_query ReductionContext :=
  do! _ <- validate_reduction (command record);
  do! current_head <- st_lift read_current_head;
  st_ret (mk_ReductionContext current_head fence).
End contexts.
