(* ===== verification/LeaseTheory.v ===== *)
(** The writer lease at work: acquisitions, releases, crashes and forgotten guards in any order, over
    a database and system calls that may fail at any point. One live lease per workspace; its fence
    is the current one and newer than all before; a superseded fence never validates again. *)

From stdpp Require Import sorting.
From S2P Require Import Prelude.
From S2P Require Import Encoding.
From S2P Require Import CommandModel.
From S2P Require Import CommandTheory.
From S2P Require Import ActorModel.
From S2P Require Import ActorLogic.
From S2P Require Import Sqlite.
From S2P Require Import QueryCodec.
From S2P Require Import WriterLease.
Local Open Scope Z_scope.

#[local] Arguments to_be_bytes : simpl never.
#[local] Arguments as_slice : simpl never.
#[local] Arguments from_be_bytes : simpl never.
#[local] Arguments byte_array_of_slice : simpl never.

(** ** Rows *)

Definition generation_row (fence : WriterFence) (at_micros : Z) : GenerationRow :=
  mk_GenerationRow (VBlob (to_be_bytes 8 (generation_get (generation fence))))
    (VBlob (as_slice (as_bytes (lease_id fence)))) (VInteger at_micros).

Definition valid_generation (g : Z) : Prop := 1 <= g <= u64_max.

(** The columns of a row. *)
Ltac generation_columns :=
  cbn [current_generation current_lease_id acquired_at_unix_micros generation lease_id generation_get
       as_bytes ok_or].

Lemma decode_generation_row fence t :
  valid_generation (generation_get (generation fence)) -> 0 <= t ->
  decode_temporal_row (generation_row fence t) = Ok fence.
Proof.
  destruct fence as [[l] [g]]. unfold valid_generation, decode_temporal_row, generation_row.
  generation_columns. intros Hg Ht.
  destruct (byte_array_of_slice_length 8 (to_be_bytes 8 g)) as [b Hb]; [apply length_to_be_bytes|].
  rewrite Hb. apply byte_array_of_slice_Some in Hb. generation_columns. rewrite Hb.
  rewrite u64_blob_roundtrip by lia. unfold WriterGeneration_new.
  rewrite (proj2 (Z.eqb_neq g 0)) by lia. generation_columns.
  assert (byte_array_of_slice 16 (as_slice (n := identity_width TLeaseId) l) = Some l) as Hl
    by exact (byte_array_of_as_slice l).
  rewrite Hl. generation_columns. by rewrite (proj2 (Z.leb_le 0 t)).
Qed.

(** Every row was written by an allocation. *)
Definition rows_ok (t : gmap WorkspaceId GenerationRow) : Prop :=
  forall ws row, t !! ws = Some row ->
    exists f at_micros, row = generation_row f at_micros /\ 0 <= at_micros
                        /\ valid_generation (generation_get (generation f)).

(** The fence a workspace's row records, and its generation; zero before the first. *)
Definition current_fence (t : gmap WorkspaceId GenerationRow) (ws : WorkspaceId) : option WriterFence :=
  row ← t !! ws; match decode_temporal_row row with Ok f => Some f | Err _ => None end.

Definition current_number (t : gmap WorkspaceId GenerationRow) (ws : WorkspaceId) : Z :=
  match current_fence t ws with Some f => generation_get (generation f) | None => 0 end.

Lemma generation_row_decodes t ws row :
  rows_ok t -> t !! ws = Some row ->
  exists f, decode_temporal_row row = Ok f /\ current_fence t ws = Some f
            /\ valid_generation (generation_get (generation f)).
Proof.
  intros Hok Hr. destruct (Hok ws row Hr) as (f & a & -> & Ha & Hv). exists f.
  pose proof (decode_generation_row f a Hv Ha) as Hd. unfold current_fence. rewrite Hr. cbn [mbind option_bind].
  by rewrite Hd.
Qed.

Lemma no_row t ws : t !! ws = None -> current_fence t ws = None.
Proof. unfold current_fence. by intros ->. Qed.

Lemma current_insert t ws f a :
  0 <= a -> valid_generation (generation_get (generation f)) ->
  current_fence (<[ws := generation_row f a]> t) ws = Some f.
Proof.
  intros Ha Hv. unfold current_fence. rewrite lookup_insert_eq. cbn [mbind option_bind].
  by rewrite decode_generation_row.
Qed.

Lemma current_insert_ne t ws ws' row : ws' <> ws -> current_fence (<[ws := row]> t) ws' = current_fence t ws'.
Proof. intros Hne. unfold current_fence. by rewrite lookup_insert_ne. Qed.

(** ** The store *)

(** A failure of the connection, the only error over rows written by allocations. *)
Abbreviation connection_failure e := (e = GenerationUnavailable).

Lemma wp_observe ws s :
  rows_ok (table s) ->
  wp (observe_current ws) s (fun x s' =>
    table s' = table s
    /\ match x with Ok found => found = current_fence (table s) ws | Err e => connection_failure e end).
Proof.
  intros Hok. do 2 (apply wp_bind, wp_statement; intros ?; [|done]). apply wp_bind, wp_get.
  cbn [table]. destruct (table s !! ws) as [row|] eqn:Hr.
  - destruct (generation_row_decodes _ _ _ Hok Hr) as (cur & Hd & Hc & _). apply wp_bind, wp_lift. rewrite Hd. by split.
  - split; [done|]. simpl. by rewrite no_row.
Qed.

Lemma wp_validate_fence ws f s :
  rows_ok (table s) ->
  wp (validate_writer_fence ws f) s (fun x s' =>
    table s' = table s
    /\ match x with
       | Ok _ => current_fence (table s) ws = Some f
       | Err e => e = LeaseGeneration GenerationUnavailable \/ e = StaleFence /\ current_fence (table s) ws <> Some f
       end).
Proof.
  intros Hok. apply wp_bind, wp_map_err. eapply wp_mono; [|by apply wp_observe].
  intros [found|e] s' [Ht Hx]; subst; [|auto]. case_bool_decide; [apply wp_ret|apply wp_err]; auto.
Qed.

(** What an allocation leaves: a row for the next generation, or what was there. *)
Definition allocated (t t' : gmap WorkspaceId GenerationRow) (ws : WorkspaceId) (f : WriterFence) : Prop :=
  generation_get (generation f) = current_number t ws + 1
  /\ valid_generation (generation_get (generation f))
  /\ exists a, 0 <= a /\ t' = <[ws := generation_row f a]> t.

Lemma allocated_facts t t' ws f :
  rows_ok t -> allocated t t' ws f ->
  rows_ok t' /\ current_fence t' ws = Some f /\ forall ws', ws' <> ws -> current_fence t' ws' = current_fence t ws'.
Proof.
  intros Hok (_ & Hv & a & Ha & ->). split_and!.
  - intros ws' row [[<- <-]|[_ Hr]]%lookup_insert_Some; [by exists f, a|by apply (Hok ws' row)].
  - by apply current_insert.
  - intros ws' Hne. by apply current_insert_ne.
Qed.

Definition allocation_outcome (t : gmap WorkspaceId GenerationRow) (ws : WorkspaceId) (l : LeaseId)
    (x : result WriterGeneration WriterGenerationPortError) (s : SqliteWriterGenerationStore) : Prop :=
  match x with
  | Ok g => allocated t (table s) ws (mk_WriterFence l g)
  | Err _ => table s = t \/ exists g, allocated t (table s) ws (mk_WriterFence l g)
  end.

Lemma schema_accepts_time g l a :
  generation_schema_accepts (mk_GenerationRow (VBlob g) (VBlob l) (VInteger a)) = true -> 0 <= a.
Proof.
  unfold generation_schema_accepts. generation_columns. intros [_ Ha]%andb_true_iff. by apply Z.leb_le.
Qed.

Lemma wp_allocate_from now ws l next s0 s :
  table s = table s0 -> next = current_number (table s0) ws + 1 -> valid_generation next ->
  wp (do! allocated <- st_lift (ok_or (WriterGeneration_new next) GenerationExhausted);
      do! acquired_at <- st_lift (ok_or now GenerationUnavailable);
      let row := mk_GenerationRow (VBlob (to_be_bytes 8 next)) (VBlob (as_slice (as_bytes l)))
                   (VInteger acquired_at) in
      do! _ <- generation_statement;
      if negb (generation_schema_accepts row) then st_err GenerationUnavailable
      else
        do! _ <- sql_commit GenerationUnavailable (<[ws := row]> (table s0));
        st_ret allocated) s (allocation_outcome (table s0) ws l).
Proof.
  intros Ht Hn Hv. unfold WriterGeneration_new. rewrite (proj2 (Z.eqb_neq next 0)) by (unfold valid_generation in Hv; lia).
  apply wp_bind, wp_lift. cbn [ok_or]. apply wp_bind, wp_lift. destruct now as [a|]; cbn [ok_or]; [|by left].
  cbv zeta. apply wp_bind, wp_statement; intros f; [|by left].
  destruct (generation_schema_accepts _) eqn:Ha; cbn [negb]; [|by left].
  assert (allocated (table s0) (<[ws := generation_row (mk_WriterFence l (mk_WriterGeneration next)) a]> (table s0)) ws
            (mk_WriterFence l (mk_WriterGeneration next))) as Hal.
  { split_and!; [done|done|]. exists a. split; [|done]. by apply schema_accepts_time in Ha. }
  apply wp_bind, wp_commit; [done|]. intros t' f' [->| ->]; [by left|]. right. eauto.
Qed.

Lemma wp_allocate now ws l s :
  rows_ok (table s) -> wp (allocate_next now ws l) s (allocation_outcome (table s) ws l).
Proof.
  intros Hok. do 3 (apply wp_bind, wp_statement; intros ?; [|by left]). apply wp_bind, wp_get.
  cbn [table]. apply wp_bind. destruct (table s !! ws) as [row|] eqn:Hr.
  - destruct (generation_row_decodes _ _ _ Hok Hr) as (cur & Hd & Hc & Hv). apply wp_bind, wp_lift. rewrite Hd. apply wp_lift.
    destruct (checked_add _ _ _) as [next|] eqn:Hn; [|by left]. apply checked_add_Some in Hn as [-> Hm].
    apply (wp_allocate_from now ws l _ s); [done| |unfold valid_generation in *; lia].
    unfold current_number. by rewrite Hc.
  - apply wp_ret. apply (wp_allocate_from now ws l 1 s); [done| |unfold valid_generation, u64_max; lia].
    unfold current_number. by rewrite no_row.
Qed.

(** ** Lock files *)

Lemma append_cancel (a b s : string) :
  String.length a = String.length b -> a +:+ s = b +:+ s -> a = b.
Proof.
  revert b. induction a as [|c a IH]; intros [|d b] Hl Heq; simplify_eq/=; [done|]. f_equal. by apply IH.
Qed.

(** Workspaces lock different files. *)
Lemma lock_file_name_inj ws ws' : lock_file_name ws = lock_file_name ws' -> ws = ws'.
Proof.
  unfold lock_file_name. intros Heq. apply append_cancel in Heq; [|by rewrite !length_hex, !length_as_slice].
  apply hex_inj, as_slice_inj in Heq. destruct ws, ws'. simpl in Heq. by subst.
Qed.

(** The workspaces of [l] are distinct and their files are locked. *)
Definition locks_ok (l : list WorkspaceId) (k : gset string) : Prop :=
  NoDup l /\ forall ws, ws ∈ l -> lock_file_name ws ∈ k.

#[export] Instance locks_ok_perm : Proper ((≡ₚ) ==> (=) ==> iff) locks_ok.
Proof. intros l l' Hp k k' ->. unfold locks_ok. by setoid_rewrite Hp. Qed.

Lemma locks_ok_unlock ws l k : locks_ok (ws :: l) k -> locks_ok l (k ∖ {[lock_file_name ws]}).
Proof.
  intros [[Hn Hnd]%NoDup_cons Hk]. split; [done|]. intros ws' Hin. apply elem_of_difference. split; [set_solver|].
  intros Heq%elem_of_singleton. apply lock_file_name_inj in Heq as ->. done.
Qed.

Lemma locks_ok_lock ws l k :
  lock_file_name ws ∉ k -> locks_ok l k -> locks_ok (ws :: l) ({[lock_file_name ws]} ∪ k).
Proof.
  intros Hn [Hnd Hk]. split; [constructor; [|done]; intros Hin; by apply Hn, Hk|].
  intros ws' [->|Hin]%elem_of_cons; set_solver.
Qed.

(** ** Acquisition *)

Lemma wp_on_generations {E A} (m : stm SqliteWriterGenerationStore E A) h Φ :
  wp m (generations h) (fun x g => Φ x (mk_Host (locked h) g)) -> wp (on_generations m) h Φ.
Proof. unfold wp, on_generations. by destruct (m (generations h)). Qed.

Lemma wp_or_unlock {A} name (m : stm Host WorkspaceWriterLeaseError A) h Φ :
  wp m h (fun x h' => Φ x (match x with Ok _ => h' | Err _ => unlock name h' end)) -> wp (or_unlock name m) h Φ.
Proof. unfold wp, or_unlock. by destruct (m h) as [h' []]. Qed.

Lemma wp_flock outcome name h Φ :
  (forall e, Φ (Err e) h) ->
  (name ∉ locked h -> Φ (Ok tt) (mk_Host ({[name]} ∪ locked h) (generations h))) ->
  wp (flock_exclusive outcome name) h Φ.
Proof.
  intros He Hok. unfold wp, flock_exclusive. destruct outcome; [|apply He]. case_bool_decide; [apply He|auto].
Qed.

(** The outcome of an acquisition that started from [h]. *)
Definition acquisition (ws : WorkspaceId) (l : LeaseId) (h : Host)
    (x : result WorkspaceWriterLease WorkspaceWriterLeaseError) (h' : Host) : Prop :=
  let t := table (generations h) in
  let t' := table (generations h') in
  match x with
  | Ok lease =>
      (lock_file_name ws ∉ locked h) /\ locked h' = {[lock_file_name ws]} ∪ locked h
      /\ lease_workspace_id lease = ws /\ lease_id (lease_fence lease) = l /\ allocated t t' ws (lease_fence lease)
  | Err _ =>
      locked h' = locked h
      /\ (t' = t \/ (lock_file_name ws ∉ locked h) /\ exists f, allocated t t' ws f)
  end.

Lemma acquisition_refused ws l h e : acquisition ws l h (Err e) h.
Proof. split; [done|]. by left. Qed.

Lemma wp_acquire root attempt ws l h :
  rows_ok (table (generations h)) -> wp (acquire root attempt ws l) h (acquisition ws l h).
Proof.
  intros Hok. apply wp_bind, wp_lift. destruct (open_lock_file _ _ _) as [[]|e]; [|apply acquisition_refused].
  apply wp_bind, wp_flock; [apply acquisition_refused|]. intros Hfree.
  assert (({[lock_file_name ws]} ∪ locked h) ∖ {[lock_file_name ws]} = locked h) as Hback by set_solver.
  apply wp_or_unlock, wp_bind, wp_on_generations, wp_map_err. cbn [generations locked].
  eapply wp_mono; [|by apply wp_allocate]. intros [g|e] s Hal; cycle 1.
  { split; [done|]. destruct Hal as [Hal|[g Hal]]; [by left|]. right. split; [done|]. by exists (mk_WriterFence l g). }
  destruct (allocated_facts _ _ _ _ Hok Hal) as (Hok1 & _).
  apply wp_bind, wp_on_generations. cbn [generations locked].
  eapply wp_mono; [|by apply wp_validate_fence]. intros [[]|e] s' [Hs _].
  - apply wp_ret. unfold acquisition. cbn [generations locked]. by rewrite Hs.
  - unfold acquisition. cbn [generations locked unlock]. rewrite Hs. split; [done|]. right. split; [done|]. by exists (mk_WriterFence l g).
Qed.

(** ** Leases over time *)

(** The machine, the leases alive in some process, the workspaces whose guard was forgotten by a
    process that still runs, and every fence a lease was ever issued with, newest first. *)
Record Leases := mk_Leases {
  l_host : Host;
  l_live : list WorkspaceWriterLease;
  l_forgotten : list WorkspaceId;
  l_issued : list (WorkspaceId * WriterFence)
}.

Definition with_host (w : Leases) (h : Host) : Leases :=
  mk_Leases h (l_live w) (l_forgotten w) (l_issued w).

Inductive lease_step (admin_root : string) (w : Leases) : Leases -> Prop :=
| ls_acquired attempt ws l h lease :
    acquire admin_root attempt ws l (l_host w) = (h, Ok lease) ->
    lease_step admin_root w (mk_Leases h (lease :: l_live w) (l_forgotten w) ((ws, lease_fence lease) :: l_issued w))
| ls_refused attempt ws l h e :
    acquire admin_root attempt ws l (l_host w) = (h, Err e) -> lease_step admin_root w (with_host w h)
| ls_validated lease h x :
    validate lease (l_host w) = (h, x) -> lease_step admin_root w (with_host w h)
| ls_released i lease outcome h x :
    l_live w !! i = Some lease -> release outcome lease (l_host w) = (h, x) ->
    lease_step admin_root w (mk_Leases h (delete i (l_live w)) (l_forgotten w) (l_issued w))
| ls_crashed i lease :
    l_live w !! i = Some lease ->
    lease_step admin_root w (mk_Leases (unlock (lock_file_name (lease_workspace_id lease)) (l_host w))
                               (delete i (l_live w)) (l_forgotten w) (l_issued w))
| ls_forgotten i lease :
    l_live w !! i = Some lease ->
    lease_step admin_root w (mk_Leases (l_host w) (delete i (l_live w))
                               (lease_workspace_id lease :: l_forgotten w) (l_issued w))
| ls_exited i ws :
    l_forgotten w !! i = Some ws ->
    lease_step admin_root w (mk_Leases (unlock (lock_file_name ws) (l_host w)) (l_live w)
                               (delete i (l_forgotten w)) (l_issued w))
| ls_faults fs :
    lease_step admin_root w (with_host w (mk_Host (locked (l_host w)) (mk_Store (table (generations (l_host w))) fs))).

(** No lease was ever taken: no lock, no row. *)
Definition no_leases (fs : list Fault) : Leases := mk_Leases (mk_Host ∅ (mk_Store ∅ fs)) [] [] [].

Definition leases_reachable (admin_root : string) (w : Leases) : Prop :=
  exists fs, rtc (lease_step admin_root) (no_leases fs) w.

Definition rows_of (w : Leases) : gmap WorkspaceId GenerationRow := table (generations (l_host w)).
Definition held (w : Leases) : list WorkspaceId := (lease_workspace_id <$> l_live w) ++ l_forgotten w.

(** An issued fence is the current one or older. *)
Definition at_most (t : gmap WorkspaceId GenerationRow) (p : WorkspaceId * WriterFence) : Prop :=
  current_fence t p.1 = Some p.2 \/ generation_get (generation p.2) < current_number t p.1.

Definition newer (p q : WorkspaceId * WriterFence) : Prop :=
  p.1 = q.1 -> generation_get (generation q.2) < generation_get (generation p.2).

Record LeasesOk (w : Leases) : Prop := {
  lo_rows : rows_ok (rows_of w);
  lo_locks : locks_ok (held w) (locked (l_host w));
  lo_live lease : lease ∈ l_live w ->
    current_fence (rows_of w) (lease_workspace_id lease) = Some (lease_fence lease)
    /\ (lease_workspace_id lease, lease_fence lease) ∈ l_issued w;
  lo_issued : Forall (at_most (rows_of w)) (l_issued w);
  lo_newer : StronglySorted newer (l_issued w)
}.

Lemma at_most_allocated t t' ws f p : rows_ok t -> allocated t t' ws f -> at_most t p -> at_most t' p.
Proof.
  intros Hok Hal. destruct (allocated_facts _ _ _ _ Hok Hal) as (_ & Hc & Ho). destruct Hal as (Hg & _).
  unfold at_most, current_number in *. destruct (decide (p.1 = ws)) as [->|Hne].
  - rewrite Hc. intros [Hp|Hp]; right; [rewrite Hp in Hg|]; lia.
  - by rewrite Ho.
Qed.

Lemma at_most_newer t ws f p :
  generation_get (generation f) = current_number t ws + 1 -> at_most t p -> newer (ws, f) p.
Proof.
  intros Hg Hp. unfold newer, at_most, current_number in *. simpl. intros ->.
  destruct Hp as [Hp|Hp]; [rewrite Hp in Hg|]; lia.
Qed.

(** An allocation for a workspace that nobody holds does not touch the leases alive. *)
Lemma leases_ok_allocated w h ws f :
  LeasesOk w -> allocated (rows_of w) (table (generations h)) ws f -> locked h = locked (l_host w) ->
  (lock_file_name ws ∉ locked (l_host w)) -> LeasesOk (with_host w h).
Proof.
  intros [Hr [Hnd Hk] Hl Hi Hn] Hal Hlk Hfree. destruct (allocated_facts _ _ _ _ Hr Hal) as (Hr' & _ & Ho).
  assert (forall lease, lease ∈ l_live w -> lease_workspace_id lease <> ws) as Hne.
  { intros lease Hin <-. apply Hfree, Hk. apply elem_of_app. left. by apply list_elem_of_fmap_2. }
  split; unfold rows_of, held, with_host in *; simpl; try done.
  - rewrite Hlk. by split.
  - intros lease Hin. rewrite Ho by auto. by apply Hl.
  - eapply Forall_impl; [exact Hi|]. intros p. by eapply at_most_allocated.
Qed.

(** The rows and the locks are what they were. *)
Lemma leases_ok_same w h :
  LeasesOk w -> table (generations h) = rows_of w -> locked h = locked (l_host w) -> LeasesOk (with_host w h).
Proof.
  intros [Hr Hk Hl Hi Hn] Ht Hlk. split; unfold rows_of, held, with_host in *; simpl; rewrite ?Ht, ?Hlk; done.
Qed.

(** Some leases alive are gone, and with them their locks. *)
Lemma leases_ok_fewer w h live forgotten :
  LeasesOk w -> table (generations h) = rows_of w ->
  (forall lease, lease ∈ live -> lease ∈ l_live w) ->
  locks_ok ((lease_workspace_id <$> live) ++ forgotten) (locked h) ->
  LeasesOk (mk_Leases h live forgotten (l_issued w)).
Proof.
  intros [Hr Hk Hl Hi Hn] Ht Hsub Hlk. split; unfold rows_of, held in *; simpl; rewrite ?Ht; try done. auto.
Qed.

Lemma leases_ok_step root w w' : LeasesOk w -> lease_step root w w' -> LeasesOk w'.
Proof.
  intros Hok Hs. pose proof Hok as [Hr Hk Hl Hi Hn].
  destruct Hs as [attempt ws l h lease Ha|attempt ws l h e Ha|lease h x Hv|i lease outcome h x Hin Hrel
                 |i lease Hin|i lease Hin|i ws Hin|fs].
  - pose proof (wp_acquire root attempt ws l (l_host w) Hr) as Hw. unfold wp in Hw. rewrite Ha in Hw.
    destruct Hw as (Hfree & Hlk & Hws & _ & Hal). simpl in *. subst ws.
    destruct (leases_ok_allocated w (mk_Host (locked (l_host w)) (generations h)) _ _ Hok Hal eq_refl Hfree)
      as [Hr' _ Hl' Hi' _]. destruct (allocated_facts _ _ _ _ Hr Hal) as (_ & Hc & _). unfold rows_of in *.
    split; unfold rows_of, held; simpl in *; [done| | | |].
    + rewrite Hlk. by apply locks_ok_lock.
    + intros lease' [->|Hin]%elem_of_cons; [split; [done|set_solver]|].
      destruct (Hl' lease' Hin). split; [done|set_solver].
    + constructor; [by left|done].
    + constructor; [done|]. eapply Forall_impl; [exact Hi|]. intros p. by apply at_most_newer, Hal.
  - pose proof (wp_acquire root attempt ws l (l_host w) Hr) as Hw. unfold wp in Hw. rewrite Ha in Hw.
    destruct Hw as (Hlk & [Ht|[Hfree [f Hal]]]); [by apply leases_ok_same|by eapply leases_ok_allocated].
  - unfold validate, on_generations in Hv.
    pose proof (wp_validate_fence (lease_workspace_id lease) (lease_fence lease) _ Hr) as [Ht _].
    destruct (validate_writer_fence _ _ _) as [g r]. injection Hv as <- <-. by apply leases_ok_same.
  - injection Hrel as <- <-. apply leases_ok_fewer; [done|done|intros ? ?; by eapply list_elem_of_delete_inv|].
    apply locks_ok_unlock. unfold held in Hk. by rewrite (delete_Permutation _ _ _ Hin) in Hk.
  - apply leases_ok_fewer; [done|done|intros ? ?; by eapply list_elem_of_delete_inv|].
    apply locks_ok_unlock. unfold held in Hk. by rewrite (delete_Permutation _ _ _ Hin) in Hk.
  - apply leases_ok_fewer; [done|done|intros ? ?; by eapply list_elem_of_delete_inv|].
    unfold held in Hk. rewrite (delete_Permutation _ _ _ Hin) in Hk. simpl in Hk. by rewrite <- Permutation_middle.
  - apply leases_ok_fewer; [done|done|done|].
    apply locks_ok_unlock. unfold held in Hk. by rewrite (delete_Permutation _ _ _ Hin), <- Permutation_middle in Hk.
  - by apply leases_ok_same.
Qed.

Lemma leases_ok_reachable root w : leases_reachable root w -> LeasesOk w.
Proof.
  intros (fs & Hs). remember (no_leases fs) as w0 eqn:H0.
  assert (LeasesOk w0) as Hok.
  { subst. split; [| |intros lease Hin; by apply not_elem_of_nil in Hin|constructor|constructor].
    - intros ws row Hr. unfold rows_of in Hr. simpl in Hr. by rewrite lookup_empty in Hr.
    - split; [constructor|]. intros ws Hin. by apply not_elem_of_nil in Hin. }
  clear H0. induction Hs as [|w0 w1 w2 H1 _ IH]; [done|]. apply IH. by eapply leases_ok_step.
Qed.

(** ** A superseded writer *)

(** A newer fence was issued for the workspace. *)
Definition superseded (ws : WorkspaceId) (f : WriterFence) (w : Leases) : Prop :=
  exists f', (ws, f') ∈ l_issued w
             /\ generation_get (generation f) < generation_get (generation f').

Lemma superseded_step root ws f w w' : lease_step root w w' -> superseded ws f w -> superseded ws f w'.
Proof. intros Hs (f' & Hin & Hlt). exists f'. split; [|done]. destruct Hs; simpl; set_solver. Qed.

Lemma superseded_not_current ws f w : LeasesOk w -> superseded ws f w -> current_fence (rows_of w) ws <> Some f.
Proof.
  intros [_ _ _ Hi _] (f' & Hin & Hlt) Hc. rewrite Forall_forall in Hi. specialize (Hi _ Hin).
  unfold at_most, current_number in Hi. simpl in Hi. rewrite Hc in Hi. destruct Hi as [[= <-]|Hi]; lia.
Qed.

Lemma validate_active_stale ws f s :
  rows_ok (table s) -> current_fence (table s) ws <> Some f ->
  (validate_active_authority ws f s).2 = Err ContextUnavailable.
Proof.
  intros Hok Hst. unfold validate_active_authority, st_map_err. pose proof (wp_validate_fence ws f s Hok) as [_ Hx].
  destruct (validate_writer_fence ws f s) as [s' [[]|e]]; [by destruct Hst|done].
Qed.

Lemma stale_admission_context ws f cmd sem s :
  rows_ok (table s) -> current_fence (table s) ws <> Some f ->
  (bound_admission_context ws f cmd sem s).2 = Err ContextUnavailable.
Proof.
  intros Hok Hst. unfold bound_admission_context, validate_admission, st_bind.
  pose proof (validate_active_stale ws f s Hok Hst) as Hv.
  destruct (negb _ || negb _)%bool; [done|]. destruct (validate_active_authority ws f s) as [? [?|?]];
    simpl in *; congruence.
Qed.

Lemma stale_reduction_context ws f r head s :
  rows_ok (table s) -> current_fence (table s) ws <> Some f ->
  (bound_reduction_context ws f r head s).2 = Err ContextUnavailable.
Proof.
  intros Hok Hst. unfold bound_reduction_context, validate_reduction, st_bind.
  pose proof (validate_active_stale ws f s Hok Hst) as Hv.
  destruct (negb _ || _)%bool; [done|]. destruct (validate_active_authority ws f s) as [? [?|?]];
    simpl in *; congruence.
Qed.

(** A call that changes neither the journal nor the world outside. *)
Definition inert (c : PortCall) : Prop :=
  match c with
  | Records (InsertIfAbsent _) | Records (CompareAndSwap _) | Effects _ => False
  | _ => True
  end.

(** An actor whose contexts are bound to the fence [f]. The leases move on between its calls; only
    its contexts are read from them, and the other ports may answer anything. *)
Definition bound_answers (root : string) (ws : WorkspaceId) (f : WriterFence) (w : Leases) (c : PortCall)
  : answer c -> Leases -> Prop :=
  match c return answer c -> Leases -> Prop with
  | Contexts (ReadAdmissionContext cmd) => fun x w' =>
      rtc (lease_step root) w w'
      /\ exists sem, x = (bound_admission_context ws f cmd sem (generations (l_host w'))).2
  | Contexts (ReadReductionContext r) => fun x w' =>
      rtc (lease_step root) w w'
      /\ exists head, x = (bound_reduction_context ws f r head (generations (l_host w'))).2
  | _ => fun _ w' => rtc (lease_step root) w w'
  end.

Definition bound_protocol (root : string) (ws : WorkspaceId) (f : WriterFence) : Protocol Leases :=
  mk_Protocol (fun _ => inert) (bound_answers root ws f).

Section superseded_writer.
Context (root : string) (ws : WorkspaceId) (f : WriterFence).

Definition left_behind (w : Leases) : Prop := LeasesOk w /\ superseded ws f w.

Lemma left_behind_steps w w' : rtc (lease_step root) w w' -> left_behind w -> left_behind w'.
Proof.
  induction 1 as [|w w1 w2 H1 _ IH]; [done|]. intros [Hok Hs]. apply IH.
  split; [by eapply leases_ok_step|by eapply superseded_step].
Qed.

Abbreviation bound p w := (obeys (bound_protocol root ws f) p w (fun _ w' => left_behind w')).

Lemma bound_reduction {B} r (k : ReductionContext -> actor_prog B) w :
  left_behind w -> bound (try_bind (port (read_reduction_context r)) k) w.
Proof.
  intros Hw. prog_ask; [done|]. intros x w' [Hs [head ->]]. apply left_behind_steps in Hs; [|done].
  destruct Hs as [Hok Hsup]. rewrite stale_reduction_context; [by split|apply Hok|by apply superseded_not_current].
Qed.

Lemma bound_find {B} op (k : CommandRecord -> actor_prog B) w :
  left_behind w -> (forall r w', left_behind w' -> bound (k r) w') -> bound (try_bind (find_operation op) k) w.
Proof.
  intros Hw Hk. apply obeys_try. prog_ask; [done|]. intros [[r|]|e] w' Hs; prog_simpl;
    apply left_behind_steps in Hs; auto.
Qed.

Lemma bound_reply (p : actor_prog CommandRecord) w : bound p w -> bound (record_reply p) w.
Proof. intros Hp. apply obeys_bind. eapply obeys_mono; [exact Hp|]. done. Qed.

Lemma bound_submit self cmd w : left_behind w -> bound (process_submit self cmd) w.
Proof.
  intros Hw. unfold process_submit. prog_ask; [done|].
  intros [[r|]|e] w' Hs; prog_simpl; apply left_behind_steps in Hs; try done.
  prog_ask; [done|]. intros x w'' [Hs' [sem ->]]. apply left_behind_steps in Hs'; [|done].
  destruct Hs' as [Hok Hsup]. rewrite stale_admission_context; [by split|apply Hok|by apply superseded_not_current].
Qed.

Lemma bound_gate c (k : answer (Gate c) -> prog Reply) w :
  left_behind w -> (forall x w', left_behind w' -> bound (k x) w') -> bound (Ask (Gate c) k) w.
Proof. intros Hw Hk. split; [by destruct c|]. intros x w' Hs. apply Hk, (left_behind_steps w w' Hs Hw). Qed.

Lemma bound_message self m w : left_behind w -> bound (handle_message self m) w.
Proof.
  intros Hw. destruct m as [cmd|op c|op|op|op|op u| |]; cbn [handle_message]; try apply bound_reply; try done.
  - unfold handle_submit. prog_ask; [done|]. intros b w1 Hs. apply left_behind_steps in Hs; [|done]. prog_simpl.
    apply obeys_bind. apply obeys_mono with (Φ := fun _ w' => left_behind w');
      [destruct b; [by apply bound_submit|done]|].
    intros x w2 Hw2. destruct (recovery_required x); [|done]. prog_ask; [done|]. intros u w3 Hs3.
    exact (left_behind_steps w2 w3 Hs3 Hw2).
  - apply bound_find; [done|]. intros r w1 Hw1. by apply bound_reduction.
  - apply bound_find; [done|]. intros r w1 Hw1. destruct (state r); try done; by apply bound_reduction.
  - apply bound_find; [done|]. intros r w1 Hw1. destruct (state r); try done; by apply bound_reduction.
  - apply bound_find; [done|]. intros r w1 Hw1. destruct (state r); try done; by apply bound_reduction.
  - apply bound_find; [done|]. intros r w1 Hw1. destruct (state r); try done; by apply bound_reduction.
  - unfold handle_open_admission. prog_ask; [done|]. intros u w1 Hs. apply left_behind_steps in Hs; [|done].
    prog_simpl. prog_ask; [done|]. intros [[r|]|e] w2 Hs2; apply left_behind_steps in Hs2; prog_simpl; try done.
    + by destruct (recovery_obligation r).
    + apply bound_gate; [done|]. done.
Qed.
End superseded_writer.
