(* ===== verification/ActorClaims.v ===== *)
(** What the durable command component guarantees as a whole: the actor and its effects, the ingress
    gate, the SQLite journal, restart recovery and the writer lease. *)

From stdpp Require Import sorting.
From S2P Require Import Prelude.
From S2P Require Import CommandModel.
From S2P Require Import CommandTheory.
From S2P Require Import ActorModel.
From S2P Require Import ActorLogic.
From S2P Require Import EffectContract.
From S2P Require Import ActorWorld.
From S2P Require Import ActorKnowledge.
From S2P Require Import ActorSafety.
From S2P Require Import ActorGate.
From S2P Require Import ActorEffects.
From S2P Require Import Sqlite.
From S2P Require Import JournalModel.
From S2P Require Import JournalTheory.
From S2P Require Import RecoveryModel.
From S2P Require Import RecoveryTheory.
From S2P Require Import WriterLease.
From S2P Require Import LeaseTheory.
Local Open Scope Z_scope.

(** What a stored state says about the transactions of its operation. *)
Definition truthful (l : list Invocation) (op : OperationId) (s : DurableCommandState) : Prop :=
  match s with
  | StateSucceeded _ _ _ => exists n a, landed l n op a
  | StateCommitPrepared _ _ _ | StateAwaitingReconciliation _ _ _ _ _ _ _ => True
  | StateAdmitted _ | StateExecuting _ _ | StateRetryReady _ _ _ | StateFailed _ | StateCancelled _ =>
      forall n a, ~ landed l n op a
  end.

Lemma status_truthful l C L op s : status l C L op s -> truthful l op s.
Proof.
  intros Hs. destruct s; simpl; try done; try (intros n a; by eapply status_empty).
  destruct Hs as (a & Hl & _). apply list_elem_of_lookup in Hl as [n Hn]. by exists n, a.
Qed.

(** [C3] Exactly once: whatever crashes, lost acknowledgements, port errors and overlapping writers
    occur, at most one target transaction of an operation ever lands, no attempt is committed twice,
    no transaction lands without a record, and every stored record is reachable by the reducer and
    truthful: succeeded only after a commit that landed, and failed, cancelled, to be retried or not
    yet committed only if none did. *)
Theorem effects_land_exactly_once `{!CommandCodec, !CommandCodecLaws} (lease : bool)
    (w : World SqliteCommandRecordStore) :
  reachable lease w ->
  (forall op n n' a a', landed (w_invocations w) n op a -> landed (w_invocations w) n' op a' -> n = n')
  /\ (forall i j v v', w_invocations w !! i = Some v -> w_invocations w !! j = Some v' ->
        inv_operation v = inv_operation v' -> inv_attempt v = inv_attempt v' -> i = j)
  /\ (forall n op a, landed (w_invocations w) n op a -> is_Some (sqlite_contents (w_journal w) !! op))
  /\ forall op r, sqlite_contents (w_journal w) !! op = Some r ->
       record_operation r = op /\ record_invariant r /\ truthful (w_invocations w) op (state r).
Proof.
  intros Hr. destruct (ledger_reachable lease w Hr) as [Ks [Hj _ [Hu Hb] _]].
  assert (forall n op a, landed (w_invocations w) n op a -> is_Some (sqlite_contents (w_journal w) !! op)) as Hsome.
  { intros n op a Hn. specialize (Hb op). simpl in Hb. destruct (sqlite_contents (w_journal w) !! op) as [r|]; [by eexists|].
    destruct (landed_not_quiet _ (w_closed w) (licence <$> Ks) _ _ _ Hn). eapply unused_quiet, Hb. }
  split_and!; [| |done|].
  - intros op n n' a a' Hn Hn'. destruct (Hsome _ _ _ Hn) as [r Hc]. specialize (Hb op). simpl in Hb.
    rewrite Hc in Hb. eapply status_unique; [apply Hb|done..].
  - intros i j v v' Hi Hj' Ho Ha. eapply (single_use _ _ (inv_key v)); [apply Hu|done|done|done|].
    unfold inv_key. congruence.
  - intros op r Hc. split; [by apply (contents_Some (w_journal w))|]. specialize (Hb op). simpl in Hb.
    rewrite Hc in Hb. destruct Hb as [Hi Hs]. split; [done|]. by eapply status_truthful.
Qed.

(** [C13] With the writer lease respected, at most one actor is alive and at most one command is
    unfinished; an idle actor admits new commands only while every recorded command is finished. *)
Theorem open_gate_means_all_finished `{!CommandCodec, !CommandCodecLaws}
    (w : World SqliteCommandRecordStore) :
  reachable true w ->
  (forall i j a b, w_actors w !! i = Some a -> w_actors w !! j = Some b -> live a -> live b -> i = j)
  /\ at_most_one_unfinished (sqlite_contents (w_journal w))
  /\ forall i a, w_actors w !! i = Some a -> a_task a = Idle -> a_gate a = true ->
       all_terminal (sqlite_contents (w_journal w)).
Proof.
  intros Hr. destruct (exclusive_reachable w Hr) as [_ Hs Hg Hu]. split_and!; [done|done|].
  intros i a Hi Ht Ho. specialize (Hg i a Hi). unfold actor_guarded in Hg. rewrite Ht, Ho in Hg. by apply Hg.
Qed.

(** [C14] Every effect an actor asks for is one that the effect contract accepts: the actor asks as
    itself under the active fence of the context, and the command, attempt, owner and transaction that
    the contract validates are those of the record. A reconciliation alone may be refused, and only
    because the record names another recovery owner whose generation the actor does not surpass. *)
Theorem effect_calls_are_admissible `{!CommandCodec, !CommandCodecLaws} (lease : bool)
    (w : World SqliteCommandRecordStore) (i : nat) (a : Actor) (c : EffectCall)
    (k : answer (Effects c) -> prog Reply) :
  reachable lease w -> w_actors w !! i = Some a -> a_task a = Running (Ask (Effects c) k) ->
  admissible (a_id a) c.
Proof.
  intros Hr Hi Ht. destruct (sound_reachable lease w Hr) as [_ Hs]. specialize (Hs i a Hi).
  unfold actor_sound in Hs. rewrite Ht in Hs. apply Hs.
Qed.

(** [C17] The SQLite journal implements the durable record port: whatever faults its statements and
    commits meet, every request answers from the stored records and changes them as the contract
    says, an error leaving at most the requested write behind; and without faults operations are
    looked up, new records inserted and successors stored. *)
Theorem journal_implements_the_record_port `{!CommandCodec, !CommandCodecLaws}
    (s : SqliteCommandRecordStore) :
  sqlite_ok s ->
  (forall c x s', sqlite_handles s c x s' ->
     sqlite_ok s' /\ record_contract (sqlite_contents s) c x (sqlite_contents s'))
  /\ (faults s = [] ->
      (forall op, run_request (LookupOperation op) s = (s, Ok (sqlite_contents s !! op)))
      /\ (forall r bytes, revision r = 0 -> encode_record r = Ok bytes -> unadmitted (sqlite_contents s) r ->
            (run_request (InsertIfAbsent r) s).2 = Ok (Inserted r))
      /\ (forall t bytes, swappable (sqlite_contents s) t -> transition_effect t <> IdempotentReplay ->
            revision (successor t) <= u64_max -> encode_record (successor t) = Ok bytes ->
            (run_request (CompareAndSwap t) s).2 = Ok (Stored (successor t)))).
Proof.
  intros Hok. split; [intros c x s'; by apply sqlite_handles_contract|].
  destruct s as [t f]. simpl. intros ->. split_and!.
  - intros op. by apply lookup_operation_exact.
  - intros r bytes. by apply insert_exact.
  - intros tr bytes. by apply swap_exact.
Qed.

(** [C20] Startup recovery returns. On ready, admission is open and every command finished; pending
    is reported after exactly the permitted sweeps, over an unfinished command with that obligation
    and with admission closed; every error leaves admission closed. Where the effect port settles
    what it is asked, three sweeps are enough: nothing is left pending. *)
Theorem recovery_returns_and_opens_safely (settles : bool) (self : ActorId) (fence : WriterFence)
    (fuel : nat) (page_size maximum_sweeps : Z) (m : CommandRecords) (g : bool) :
  1 <= page_size <= PAGE_SIZE_MAX -> 1 <= maximum_sweeps -> keyed m -> (size m < fuel)%nat ->
  obeys (recovery_protocol settles) (recover_and_open_bounded self fence fuel page_size maximum_sweeps) (m, g)
    (fun x s => exists res, x = Returned res /\
       match res with
       | Ok report =>
           match recovery_state report with
           | RecoveryReady => s.2 = true /\ all_terminal s.1 /\ 1 <= recovery_sweeps report <= maximum_sweeps
           | RecoveryStillPending op ob =>
               s.2 = false /\ recovery_sweeps report = maximum_sweeps
               /\ (exists r, s.1 !! op = Some r /\ recovery_obligation r = Some ob)
               /\ ~ (settles = true /\ 3 <= maximum_sweeps)
           end
       | Err _ => s.2 = false
       end).
Proof.
  intros Hn Hmax Hk Hf. eapply obeys_mono.
  - apply (recovering_sweeps settles self fence page_size fuel (Z.to_nat maximum_sweeps) 3 maximum_sweeps 0 0 m g);
      try done; try lia. intros _ op r _. apply rank_bound.
  - intros x s (res & -> & Hr). exists res. split; [done|]. destruct res as [rep|]; [|done]. simpl in Hr.
    destruct (recovery_state rep); [done|]. destruct Hr as (? & ? & ? & Hno). split_and!; try done.
    intros [? ?]. apply Hno. split; [done|lia].
Qed.

(** [C21] A sweep over the pages returns, with admission closed throughout. When it succeeds it has
    acted once on each command that was unfinished when it began: the count grows by their number,
    each has a later revision, and no other record is touched. *)
Theorem sweep_advances_every_unfinished_command (settles : bool) (self : ActorId) (fence : WriterFence)
    (fuel : nat) (page_size transitions : Z) (m : CommandRecords) (g : bool) :
  1 <= page_size <= PAGE_SIZE_MAX -> keyed m -> (size m < fuel)%nat ->
  obeys (recovery_protocol settles) (sweep self fence fuel page_size None transitions) (m, g)
    (fun x s => s.2 = false /\ exists res, x = Returned res /\
       match res with
       | Ok total =>
           total = transitions + Z.of_nat (size (due m None))
           /\ forall op, match due m None !! op with
                         | Some r => exists r', s.1 !! op = Some r' /\ record_operation r' = op
                                                /\ revision r < revision r'
                         | None => s.1 !! op = m !! op
                         end
       | Err _ => True
       end).
Proof.
  intros Hn Hk Hf. eapply obeys_mono.
  - apply (recovering_sweep settles self fence page_size fuel None transitions m g); [lia|done|].
    pose proof (due_le m None). lia.
  - intros x s (Hg & res & -> & Hr). split; [done|]. exists res. split; [done|]. destruct res as [total|]; [|done].
    destruct Hr as [-> Hs]. split; [done|]. intros op. specialize (Hs op).
    destruct (due m None !! op); [|done]. destruct Hs as (r' & ? & ? & ? & _). by exists r'.
Qed.

(** [C22] The writer lease is exclusive: over any history of acquisitions, releases, crashes and
    forgotten guards, with any failures of the system calls and of the database, at most one lease
    of a workspace is alive. Its fence is the current one, so that only the connection can fail its
    validation; it is newer than every other fence issued for the workspace; and no other fence
    validates while it lives. *)
Theorem writer_lease_is_exclusive (root : string) (w : Leases) :
  leases_reachable root w ->
  (forall i j a b, l_live w !! i = Some a -> l_live w !! j = Some b ->
     lease_workspace_id a = lease_workspace_id b -> i = j)
  /\ StronglySorted newer (l_issued w)
  /\ forall a, a ∈ l_live w ->
       (forall e, (validate a (l_host w)).2 = Err e -> e = LeaseGeneration GenerationUnavailable)
       /\ (forall f, (lease_workspace_id a, f) ∈ l_issued w -> f <> lease_fence a ->
             generation_get (generation f) < generation_get (generation (lease_fence a)))
       /\ (forall f, (validate_writer_fence (lease_workspace_id a) f (generations (l_host w))).2 = Ok tt ->
             f = lease_fence a).
Proof.
  intros Hr. destruct (leases_ok_reachable root w Hr) as [Hrows [Hnd _] Hl Hi Hn]. split_and!; [|done|].
  - intros i j a b Ha Hb Heq. unfold held in Hnd. apply NoDup_app in Hnd as [Hnd _].
    eapply (NoDup_lookup _ i j (lease_workspace_id a)); [done|rewrite list_lookup_fmap, Ha; done|].
    rewrite list_lookup_fmap, Hb. simpl. by rewrite Heq.
  - intros a Ha. destruct (Hl a Ha) as [Hc _].
    pose proof (fun f => wp_validate_fence (lease_workspace_id a) f (generations (l_host w)) Hrows) as Hv.
    split_and!.
    + intros e. specialize (Hv (lease_fence a)). unfold validate, on_generations. unfold wp in Hv.
      destruct (validate_writer_fence _ _ _) as [s x]. simpl in *. intros ->. destruct Hv as [_ [->|[_ Hne]]]; done.
    + intros f Hin Hne. rewrite Forall_forall in Hi. specialize (Hi _ Hin). unfold at_most, current_number in Hi.
      simpl in Hi. rewrite Hc in Hi. destruct Hi as [[= <-]|]; done.
    + intros f Hok. specialize (Hv f). unfold wp in Hv. rewrite Hok in Hv. unfold rows_of in Hc.
      destruct Hv as [_ Hf]. congruence.
Qed.

(** [C29] A superseded writer is inert: once a newer fence was issued for its workspace, an actor
    whose contexts are bound to the old one handles every message, to its end, without an insert, a
    swap or an effect, however the leases go on and whatever its other ports answer. *)
Theorem superseded_writer_is_inert (root : string) (ws : WorkspaceId) (f : WriterFence) (w : Leases)
    (self : ActorId) (m : ActorMessage) :
  leases_reachable root w -> superseded ws f w ->
  obeys (bound_protocol root ws f) (handle_message self m) w (fun _ w' => superseded ws f w').
Proof.
  intros Hr Hs. eapply obeys_mono; [apply bound_message|]; [|by intros _ w' [_ ?]].
  split; [by apply (leases_ok_reachable root)|done].
Qed.
