(* ===== verification/ActorWitness.v ===== *)
(** Concrete commands run through the actor, the journal, recovery and the lease: the guarantees of
    [ActorClaims] with hypotheses are instantiated here at states that such runs reach. *)

From stdpp Require Import sorting.
From S2P Require Import Prelude.
From S2P Require Import Encoding.
From S2P Require Import CommandModel.
From S2P Require Import CommandTheory.
From S2P Require Import CommandWitness.
From S2P Require Import ActorModel.
From S2P Require Import ActorLogic.
From S2P Require Import EffectContract.
From S2P Require Import ActorWorld.
From S2P Require Import ActorSafety.
From S2P Require Import ActorGate.
From S2P Require Import ActorEffects.
From S2P Require Import Sqlite.
From S2P Require Import JournalModel.
From S2P Require Import JournalTheory.
From S2P Require Import RecoveryModel.
From S2P Require Import RecoveryTheory.
From S2P Require Import WriterLease.
From S2P Require Import LeaseTheory.
From S2P Require Import ActorClaims.
Local Open Scope Z_scope.

Module ActorSample.
Import CommandSample.

Definition self : ActorId := ident _ x06.
Definition op : OperationId := operation_id (identity cmd).
Definition txn2 : TransactionRef := ident _ x30.
Definition interrupted : UnknownCommit := mk_UnknownCommit ProcessInterrupted (ident _ x31).

(** A command that commits at once; one whose process is interrupted, that a newer writer proves not
    committed and runs again. *)
Definition direct : history :=
  [(EvStart o1, at_fence 1); (EvPrepareCommit o1 txn, at_fence 1); (EvConfirmCommit o1 txn res, at_fence 1)].
Definition repeated : history :=
  [(EvStart o1, at_fence 1); (EvPrepareCommit o1 txn, at_fence 1);
   (EvReportUnknownCommit o2 txn interrupted, at_fence 2);
   (EvObserveReconciliation o2 txn (ObservedNotCommitted evidence), at_fence 2);
   (EvStart o2, at_fence 2); (EvPrepareCommit o2 txn2, at_fence 2); (EvConfirmCommit o2 txn2 res, at_fence 2)].

Definition prefixes (h : history) : list CommandRecord :=
  (fun n => run admitted (take n h)) <$> seq 0 (S (length h)).

(** ** A codec for these records: a brace and their number. *)
Definition samples : list CommandRecord := prefixes direct ++ prefixes repeated.

Definition number (l : list CommandRecord) (r : CommandRecord) : option (list byte) :=
  (fun p => [x7b; byte_of_Z (Z.of_nat p.1)]) <$> list_find (eq r) l.
Definition pick (l : list CommandRecord) (b : list byte) : option CommandRecord :=
  match b with [x7b; n] => l !! Z.to_nat (Z_of_byte n) | _ => None end.

Lemma pick_number l r b : (length l <= 256)%nat -> number l r = Some b -> pick l b = Some r.
Proof.
  intros Hl Hb. apply fmap_Some in Hb as ([i r'] & Hf & ->). apply list_find_Some in Hf as (Hi & -> & _).
  unfold pick. cbn [fst]. rewrite Z_of_byte_of_Z. assert (i < length l)%nat by (by eapply lookup_lt_Some).
  by rewrite Z.mod_small, Nat2Z.id by lia.
Qed.

#[export] Instance codec : CommandCodec := {
  record_to_vec := number samples;
  record_from_slice := pick samples
}.

#[export] Instance codec_laws : CommandCodecLaws.
Proof. split. intros r b. apply pick_number. vm_compute. lia. Qed.

(** ** Running an actor *)

(** The ports answer as they do when nothing goes wrong, and a commit lands. *)
Definition called (w : World SqliteCommandRecordStore) (a : Actor) (c : PortCall)
  : (answer c -> prog Reply) -> option (World SqliteCommandRecordStore) :=
  let go (g : bool) (j : SqliteCommandRecordStore) (p : prog Reply) :=
    Some (set_journal (set_actor w 0 (with_task (with_gate a g) (Running p))) j) in
  match c return (answer c -> prog Reply) -> option (World SqliteCommandRecordStore) with
  | Records c => fun k => let '(j, x) := run_request c (w_journal w) in go (a_gate a) j (k x)
  | Contexts (ReadAdmissionContext _) => fun k => go (a_gate a) (w_journal w) (k (Ok ctx))
  | Contexts (ReadReductionContext _) => fun k => go (a_gate a) (w_journal w) (k (Ok (at_fence 1)))
  | Effects (PrepareEffect r o x) => fun k =>
      match executing_attempt r o x (routed_kind r) with
      | Ok _ => go (a_gate a) (w_journal w) (k (Ok (Prepared txn)))
      | Err _ => None
      end
  | Effects (CommitEffect r o t x) => fun k =>
      match prepared_attempt r o t x (routed_kind r) with
      | Ok v =>
          Some (mk_World (w_journal w)
                  (w_invocations w ++ [mk_Invocation (record_operation r) (va_attempt v) InFlight]) (w_closed w)
                  (<[0%nat := with_task a (Committing (length (w_invocations w)) k)]> (w_actors w)))
      | Err _ => None
      end
  | Gate GateIsOpen => fun k => go (a_gate a) (w_journal w) (k (a_gate a))
  | Gate GateOpen => fun k => go true (w_journal w) (k tt)
  | Gate GateClose => fun k => go false (w_journal w) (k tt)
  | _ => fun _ => None
  end.

Definition act (w : World SqliteCommandRecordStore) : option (World SqliteCommandRecordStore) :=
  a ← w_actors w !! 0%nat;
  match a_task a with
  | Idle => set_actor w 0 <$> receive a
  | Running (Ask c k) => called w a c k
  | Running (Ret reply) => Some (set_actor w 0 (finish a reply))
  | Committing n k =>
      v ← w_invocations w !! n;
      match inv_fate v with
      | InFlight => if decide ((inv_operation v, inv_attempt v) ∈ w_closed w) then None
                    else Some (set_fate w n v Landed)
      | Landed => Some (set_actor w 0 (with_task a (Running (k (Ok (Committed res))))))
      | Dead => None
      end
  | Stopped => None
  end.

Lemma called_step w a c k w' :
  w_actors w !! 0%nat = Some a -> a_task a = Running (Ask c k) -> called w a c k = Some w' -> step true w w'.
Proof.
  intros Ha Ht Hc. destruct c as [c|[cmd'|r]|[r o x|r o t x|r o t x]|[]|c]; simpl in Hc; try done.
  - destruct (run_request c (w_journal w)) as [j x] eqn:Hr. injection Hc as <-.
    eapply st_call; [done|done|]. split; [|done]. by left.
  - injection Hc as <-. by eapply st_call.
  - injection Hc as <-. by eapply st_call.
  - destruct (executing_attempt r o x (routed_kind r)) eqn:He; [|done]. injection Hc as <-.
    eapply st_call; [done|done|]. simpl. unfold prepare_answers. by rewrite He.
  - destruct (prepared_attempt r o t x (routed_kind r)) eqn:He; [|done]. injection Hc as <-. by eapply st_commit.
  - injection Hc as <-. by eapply st_call.
  - injection Hc as <-. by eapply st_call.
  - injection Hc as <-. by eapply st_call.
Qed.

Lemma act_step w w' : act w = Some w' -> step true w w'.
Proof.
  intros Hw. apply bind_Some in Hw as (a & Ha & Hw). destruct (a_task a) as [|[reply|c k]|n k|] eqn:Ht; try done.
  - apply fmap_Some in Hw as (a' & Hr & ->). by eapply st_receive.
  - injection Hw as <-. by eapply st_reply.
  - by eapply called_step.
  - apply bind_Some in Hw as (v & Hv & Hw). destruct (inv_fate v) eqn:Hf; [| |done].
    + case_decide; [done|]. injection Hw as <-. by eapply st_land.
    + injection Hw as <-. eapply st_committed; [done|done|done|]. done.
Qed.

(** At most [n] steps, as far as the actor goes. *)
Fixpoint acts (n : nat) (w : World SqliteCommandRecordStore) : World SqliteCommandRecordStore :=
  match n with
  | O => w
  | S n => match act w with Some w' => acts n w' | None => w end
  end.

Definition post (m : ActorMessage) (w : World SqliteCommandRecordStore) : World SqliteCommandRecordStore :=
  match w_actors w !! 0%nat with
  | Some a => match try_send a m with Ok a' => set_actor w 0 a' | Err _ => w end
  | None => w
  end.

Lemma reachable_more w w' : reachable true w -> rtc (step true) w w' -> reachable true w'.
Proof. intros (w0 & H0 & Hs) Hs'. exists w0. split; [done|]. by etrans. Qed.

Lemma acts_reachable n w : reachable true w -> reachable true (acts n w).
Proof.
  revert w. induction n as [|n IH]; intros w Hw; [done|]. simpl. destruct (act w) as [w'|] eqn:Ha; [|done].
  apply IH. eapply reachable_more; [done|]. by apply rtc_once, act_step.
Qed.

Lemma post_reachable m w : reachable true w -> reachable true (post m w).
Proof.
  intros Hw. unfold post. destruct (w_actors w !! 0%nat) as [a|] eqn:Ha; [|done].
  destruct (try_send a m) as [a'|] eqn:Hs; [|done]. eapply reachable_more; [done|]. apply rtc_once. by eapply st_send.
Qed.

(** One actor over an empty journal. *)
Definition spawned : World SqliteCommandRecordStore :=
  mk_World (mk_Store ∅ []) [] [] [spawn_closed 4 self].

Lemma spawned_reachable : reachable true spawned.
Proof.
  exists (mk_World (mk_Store ∅ []) [] [] []). split.
  - split; [|done]. split; intros *; simpl; by rewrite lookup_empty.
  - apply rtc_once. by apply (st_spawn true (mk_World (mk_Store ∅ []) [] [] []) 4 self).
Qed.

(** Admission is opened and the command submitted: on the way, and at the end. *)
Definition submitted : World SqliteCommandRecordStore :=
  post (MsgSubmit cmd) (acts 10 (post MsgOpenAdmission spawned)).
Definition finished : World SqliteCommandRecordStore := acts 40 submitted.

Lemma submitted_reachable : reachable true submitted.
Proof. apply post_reachable, acts_reachable, post_reachable, spawned_reachable. Qed.
Lemma finished_reachable : reachable true finished.
Proof. apply acts_reachable, submitted_reachable. Qed.

(** The actor is about to commit. *)
Definition committing : World SqliteCommandRecordStore := acts 12 submitted.
Lemma committing_reachable : reachable true committing.
Proof. apply acts_reachable, submitted_reachable. Qed.

Definition asked (t : Task) : option EffectCall :=
  match t with Running (Ask (Effects c) _) => Some c | _ => None end.
Lemma asked_Some t c : asked t = Some c -> exists k, t = Running (Ask (Effects c) k).
Proof. destruct t as [|[r|[] k]| |]; simpl; try done. intros [= <-]. by exists k. Qed.

Lemma journal_sound w : reachable true w -> sqlite_ok (w_journal w).
Proof. intros Hw. by destruct (exclusive_reachable w Hw). Qed.

(** ** Running recovery *)

(** A program run by a function that answers its calls. *)
Fixpoint interp {T A} (oracle : forall c, T -> T * answer c) (p : prog A) (t : T) : A * T :=
  match p with
  | Ret a => (a, t)
  | Ask c k => let '(t', x) := oracle c t in interp oracle (k x) t'
  end.

(** A run whose answers a protocol permits ends as the program is shown to. *)
Lemma interp_obeys {S T A} (P : Protocol S) (α : T -> S) (good : T -> Prop) oracle (p : prog A) t Φ :
  (forall c t, good t -> good (oracle c t).1 /\ answers P (α t) c (oracle c t).2 (α (oracle c t).1)) ->
  good t -> obeys P p (α t) Φ -> Φ (interp oracle p t).1 (α (interp oracle p t).2).
Proof.
  intros Ho. revert t. induction p as [a|c k IH]; intros t Ht Hp; [done|]. destruct Hp as [_ Hk]. simpl.
  destruct (Ho c t Ht) as [Hg Ha]. destruct (oracle c t) as [t' x]. apply IH; [done|]. by apply Hk.
Qed.

(** The journal and the gate under the second writer, whose probe finds no commit. *)
Definition oracle (c : PortCall) (t : SqliteCommandRecordStore * bool)
  : (SqliteCommandRecordStore * bool) * answer c :=
  match c return (SqliteCommandRecordStore * bool) * answer c with
  | Records c => let '(j, x) := run_request c t.1 in ((j, t.2), x)
  | Contexts (ReadAdmissionContext _) => (t, Err ContextUnavailable)
  | Contexts (ReadReductionContext _) => (t, Ok (at_fence 2))
  | Effects (PrepareEffect _ _ _) => (t, Ok (Prepared txn2))
  | Effects (CommitEffect _ _ _ _) => (t, Ok (Committed res))
  | Effects (ReconcileEffect _ _ _ _) => (t, Ok (ObservedNotCommitted evidence))
  | Gate GateIsOpen => (t, t.2)
  | Gate GateOpen => ((t.1, true), tt)
  | Gate GateClose => ((t.1, false), tt)
  | Runtime ValidateWriterAuthority => (t, Ok tt)
  | Runtime (InterruptionDiagnostic _ _ _) => (t, Ok (ident _ x31))
  | Runtime AwaitTurn => (t, Ok tt)
  end.

Definition seen (t : SqliteCommandRecordStore * bool) : GateState := (sqlite_contents t.1, t.2).

Lemma oracle_permitted c t :
  sqlite_ok t.1 ->
  sqlite_ok (oracle c t).1.1
  /\ answers (recovery_protocol true) (seen t) c (oracle c t).2 (seen (oracle c t).1).
Proof.
  intros Hok. destruct c as [c|[cmd'|r]|[r o x|r o u x|r o u x]|[]|[|r u f|]]; simpl; try done.
  pose proof (run_request_contract c t.1 Hok) as [Hok' Hc]. by destruct (run_request c t.1) as [j x].
Qed.

(** The process died before its commit; the journal holds the prepared record. *)
Definition left_over : SqliteCommandRecordStore := w_journal committing.
Definition recovery : prog (Left (result FabricCommandStartupRecovery FabricCommandStartupRecoveryError)) :=
  recover_and_open_bounded self (fence_of x06 2) 2 1 3.
End ActorSample.
Import ActorSample.

Lemma effects_land_exactly_once_witness :
  landed (w_invocations finished) 0 op 1
  /\ (forall n a, landed (w_invocations finished) n op a -> n = 0%nat)
  /\ exists r, sqlite_contents (w_journal finished) !! op = Some r /\ state_kind (state r) = KSucceeded
               /\ truthful (w_invocations finished) op (state r).
Proof.
  destruct (effects_land_exactly_once true finished finished_reachable) as (H1 & _ & _ & H4).
  assert (Hl : landed (w_invocations finished) 0 op 1) by (vm_compute; reflexivity).
  split; [exact Hl|]. split; [intros n a Hn; exact (H1 op n 0%nat a 1 Hn Hl)|].
  exists (run CommandSample.admitted direct).
  assert (Hc : sqlite_contents (w_journal finished) !! op = Some (run CommandSample.admitted direct))
    by (vm_compute; reflexivity).
  split; [exact Hc|]. split; [vm_compute; reflexivity|]. exact (proj2 (proj2 (H4 op _ Hc))).
Defined.

Lemma open_gate_means_all_finished_witness :
  exists a, w_actors finished !! 0%nat = Some a /\ a_task a = Idle /\ a_gate a = true
            /\ all_terminal (sqlite_contents (w_journal finished)).
Proof.
  destruct (open_gate_means_all_finished finished finished_reachable) as (_ & _ & H3).
  exists (mk_Actor self 4 true [] Idle).
  assert (H : w_actors finished !! 0%nat = Some (mk_Actor self 4 true [] Idle)) by (vm_compute; reflexivity).
  split; [exact H|]. split; [reflexivity|]. split; [reflexivity|]. exact (H3 0%nat _ H eq_refl eq_refl).
Defined.

Lemma effect_calls_are_admissible_witness :
  exists a r o t c, w_actors committing !! 0%nat = Some a /\ asked (a_task a) = Some (CommitEffect r o t c)
                    /\ admissible (a_id a) (CommitEffect r o t c).
Proof.
  assert (H : (asked ∘ a_task) <$> w_actors committing !! 0%nat
              = Some (Some (CommitEffect (run CommandSample.admitted (take 2 direct)) CommandSample.o1
                              CommandSample.txn (CommandSample.at_fence 1)))) by (vm_compute; reflexivity).
  apply fmap_Some in H as (a & Ha & Ht). symmetry in Ht.
  exists a, (run CommandSample.admitted (take 2 direct)), CommandSample.o1, CommandSample.txn, (CommandSample.at_fence 1).
  split; [exact Ha|]. split; [exact Ht|]. destruct (asked_Some _ _ Ht) as [k Hk].
  exact (effect_calls_are_admissible true committing 0 a _ k committing_reachable Ha Hk).
Defined.

Lemma journal_implements_the_record_port_witness :
  sqlite_ok left_over /\ faults left_over = []
  /\ run_request (LookupOperation op) left_over
     = (left_over, Ok (Some (run CommandSample.admitted (take 2 direct)))).
Proof.
  assert (Hok : sqlite_ok left_over) by exact (journal_sound committing committing_reachable).
  assert (Hf : faults left_over = []) by (vm_compute; reflexivity).
  destruct (journal_implements_the_record_port left_over Hok) as [_ H]. destruct (H Hf) as [H1 _].
  split; [exact Hok|]. split; [exact Hf|]. rewrite (H1 op).
  assert (Hc : sqlite_contents left_over !! op = Some (run CommandSample.admitted (take 2 direct)))
    by (vm_compute; reflexivity).
  rewrite Hc. reflexivity.
Defined.

(** The three sweeps mark the commit unknown, prove it absent, and run the command again. *)
Lemma recovery_returns_and_opens_safely_witness :
  (interp oracle recovery (left_over, false)).1
  = Returned (Ok (mk_FabricCommandStartupRecovery RecoveryReady 3 3))
  /\ all_terminal (sqlite_contents (interp oracle recovery (left_over, false)).2.1).
Proof.
  assert (Hok : sqlite_ok left_over) by exact (journal_sound committing committing_reachable).
  assert (Hk : keyed (sqlite_contents left_over)) by (intros o r Hr; by apply (contents_Some left_over)).
  assert (Hs : (size (sqlite_contents left_over) < 2)%nat) by (vm_compute; lia).
  assert (Hp : obeys (recovery_protocol true) recovery (seen (left_over, false)) _)
    by (refine (recovery_returns_and_opens_safely true self (CommandSample.fence_of x06 2) 2 1 3
                  (sqlite_contents left_over) false _ _ Hk Hs); vm_compute; intuition congruence).
  apply (interp_obeys _ seen (fun t => sqlite_ok t.1) oracle) in Hp; [|intros c t; apply oracle_permitted|exact Hok].
  assert (He : (interp oracle recovery (left_over, false)).1
               = Returned (Ok (mk_FabricCommandStartupRecovery RecoveryReady 3 3))) by (vm_compute; reflexivity).
  split; [exact He|]. destruct Hp as (res & Hres & Hm). rewrite He in Hres. injection Hres as <-. apply Hm.
Defined.

Lemma sweep_advances_every_unfinished_command_witness :
  (interp oracle (sweep self (CommandSample.fence_of x06 2) 2 1 None 0) (left_over, false)).1 = Returned (Ok 1)
  /\ exists r, sqlite_contents (interp oracle (sweep self (CommandSample.fence_of x06 2) 2 1 None 0)
                                  (left_over, false)).2.1 !! op = Some r /\ 2 < revision r.
Proof.
  assert (Hok : sqlite_ok left_over) by exact (journal_sound committing committing_reachable).
  assert (Hk : keyed (sqlite_contents left_over)) by (intros o r Hr; by apply (contents_Some left_over)).
  assert (Hs : (size (sqlite_contents left_over) < 2)%nat) by (vm_compute; lia).
  assert (Hp : obeys (recovery_protocol true) (sweep self (CommandSample.fence_of x06 2) 2 1 None 0)
                 (seen (left_over, false)) _)
    by (refine (sweep_advances_every_unfinished_command true self (CommandSample.fence_of x06 2) 2 1 0
                  (sqlite_contents left_over) false _ Hk Hs); vm_compute; intuition congruence).
  apply (interp_obeys _ seen (fun t => sqlite_ok t.1) oracle) in Hp; [|intros c t; apply oracle_permitted|exact Hok].
  assert (He : (interp oracle (sweep self (CommandSample.fence_of x06 2) 2 1 None 0) (left_over, false)).1
               = Returned (Ok 1)) by (vm_compute; reflexivity).
  split; [exact He|]. destruct Hp as (_ & res & Hres & Hm). rewrite He in Hres. injection Hres as <-.
  destruct Hm as [_ Hm]. specialize (Hm op).
  assert (Hd : due (sqlite_contents left_over) None !! op = Some (run CommandSample.admitted (take 2 direct)))
    by (vm_compute; reflexivity).
  rewrite Hd in Hm. destruct Hm as (r & Hr & _ & Hlt). exists r. split; [exact Hr|exact Hlt].
Defined.

Module LeaseSample.
Import CommandSample.

Definition root : string := "/run/fabric".
Definition ws : WorkspaceId := ident _ x03.

(** A private directory and lock file, a lock that is free, a clock. *)
Definition attempt : LockAttempt := {|
  at_directory_metadata := Some {| dir_is_dir := true; dir_is_symlink := false; dir_mode := 448 |};
  at_open := Ok tt;
  at_openat := Ok tt;
  at_metadata := Some {| file_is_file := true; file_nlink := 1; file_mode := 384 |};
  at_flock := Ok tt;
  at_now := Some 5
|}.

Definition acquired (l : LeaseId) (w : Leases) : Leases :=
  match acquire root attempt ws l (l_host w) with
  | (h, Ok lease) => mk_Leases h (lease :: l_live w) (l_forgotten w) ((ws, lease_fence lease) :: l_issued w)
  | (h, Err _) => with_host w h
  end.
Definition crashed (w : Leases) : Leases :=
  match l_live w !! 0%nat with
  | Some lease => mk_Leases (unlock (lock_file_name (lease_workspace_id lease)) (l_host w))
                    (delete 0%nat (l_live w)) (l_forgotten w) (l_issued w)
  | None => w
  end.

Lemma acquired_reachable l w : leases_reachable root w -> leases_reachable root (acquired l w).
Proof.
  intros (fs & Hs). exists fs. etrans; [exact Hs|]. unfold acquired. apply rtc_once.
  destruct (acquire root attempt ws l (l_host w)) as [h [lease|e]] eqn:Ha; [by eapply ls_acquired|by eapply ls_refused].
Qed.

Lemma crashed_reachable w : leases_reachable root w -> leases_reachable root (crashed w).
Proof.
  intros (fs & Hs). exists fs. etrans; [exact Hs|]. unfold crashed.
  destruct (l_live w !! 0%nat) as [lease|] eqn:Hl; [|done]. apply rtc_once. by apply ls_crashed.
Qed.

(** The second process starts after the first has died; a third is refused. *)
Definition successor_alive : Leases :=
  acquired (ident _ x08) (acquired (ident _ x07) (crashed (acquired (ident _ x06) (no_leases [])))).
Lemma successor_alive_reachable : leases_reachable root successor_alive.
Proof. do 2 apply acquired_reachable. apply crashed_reachable, acquired_reachable. exists []. apply rtc_refl. Qed.

Definition live_lease : WorkspaceWriterLease :=
  mk_WorkspaceWriterLease ws (fence_of x07 2) (join root (lock_file_name ws)).
End LeaseSample.
Import LeaseSample.

Lemma writer_lease_is_exclusive_witness :
  l_live successor_alive = [live_lease]
  /\ l_issued successor_alive = [(ws, CommandSample.fence_of x07 2); (ws, CommandSample.fence_of x06 1)]
  /\ (validate live_lease (l_host successor_alive)).2 = Ok tt
  /\ forall f, (validate_writer_fence ws f (generations (l_host successor_alive))).2 = Ok tt ->
       f = CommandSample.fence_of x07 2.
Proof.
  destruct (writer_lease_is_exclusive root successor_alive successor_alive_reachable) as (_ & _ & H).
  assert (Hl : l_live successor_alive = [live_lease]) by (vm_compute; reflexivity).
  split; [exact Hl|]. split; [vm_compute; reflexivity|]. split; [vm_compute; reflexivity|].
  apply (H live_lease). rewrite Hl. by apply list_elem_of_singleton.
Defined.

Lemma superseded_writer_is_inert_witness :
  superseded ws (CommandSample.fence_of x06 1) successor_alive
  /\ obeys (bound_protocol root ws (CommandSample.fence_of x06 1))
       (handle_message self (MsgResumePrecommit op)) successor_alive
       (fun _ w => superseded ws (CommandSample.fence_of x06 1) w).
Proof.
  assert (Hs : superseded ws (CommandSample.fence_of x06 1) successor_alive).
  { exists (CommandSample.fence_of x07 2).
    assert (Hi : l_issued successor_alive = [(ws, CommandSample.fence_of x07 2); (ws, CommandSample.fence_of x06 1)])
      by (vm_compute; reflexivity).
    split; [rewrite Hi; by apply list_elem_of_here|vm_compute; reflexivity]. }
  split; [exact Hs|].
  exact (superseded_writer_is_inert root ws _ successor_alive self (MsgResumePrecommit op)
           successor_alive_reachable Hs).
Defined.
