(* ===== verification/ActivationModel.v ===== *)
(** Activation events and the history they form, translated from src/src/fabric/activation.rs: the
    pins an event selects, the durable row and the event built from a reducer-validated attempt, the
    evidence of an exact Delta commit, and the derivation of the one linear history, with its head,
    from rows in any order.

    BLAKE3 is the parameter [blake3_hash]. A [Url] is its canonical text. The sealed binding of a
    DataFusion session is a value with the two fields that are read here. *)

From stdpp Require Import sorting.
From S2P Require Import Prelude.
From S2P Require Import Encoding.
From S2P Require Import CommandModel.
From S2P Require Import EffectContract.
Local Open Scope Z_scope.

(** ** Identities *)

(** One tag per [activation_identity!] invocation; every one is 32 bytes wide. *)
Inductive activation_tag :=
| TActivationEventId | TTableVersionSetRef | TOverlaySegmentSetRef | TPolicySetRef
| TCompatibilityClassRef | TBackendCommitRef | TActivationReadbackRef.

Record activation_identity (t : activation_tag) :=
  activation_from_bytes { activation_as_bytes : byte_array 32 }.
Arguments activation_from_bytes {t} _.
Arguments activation_as_bytes {t} _.

#[export] Instance activation_identity_eq_dec {t} : EqDecision (activation_identity t).
Proof. solve_decision. Defined.
#[export] Instance activation_identity_countable {t} : Countable (activation_identity t).
Proof.
  refine (inj_countable activation_as_bytes (fun b => Some (activation_from_bytes b)) _). by intros [].
Defined.

Abbreviation ActivationEventId := (activation_identity TActivationEventId).
Abbreviation TableVersionSetRef := (activation_identity TTableVersionSetRef).
Abbreviation OverlaySegmentSetRef := (activation_identity TOverlaySegmentSetRef).
Abbreviation PolicySetRef := (activation_identity TPolicySetRef).
Abbreviation CompatibilityClassRef := (activation_identity TCompatibilityClassRef).
Abbreviation BackendCommitRef := (activation_identity TBackendCommitRef).
Abbreviation ActivationReadbackRef := (activation_identity TActivationReadbackRef).

(** ** Attempts *)

(** The token a durable boundary requires; made only from a validated attempt. *)
Record ActivationAttempt := activation_attempt { aa_validated : ValidatedCommandAttempt }.
Record ActivationRecoveryAttempt := activation_recovery { ra_validated : ValidatedCommandRecovery }.

Definition attempt_command (a : ActivationAttempt) : FabricCommand := va_command (aa_validated a).
Definition attempt_fence (a : ActivationAttempt) : WriterFence :=
  fence (va_execution_owner (aa_validated a)).
Definition recovered_attempt (r : ActivationRecoveryAttempt) : ActivationAttempt :=
  activation_attempt (vr_attempt (ra_validated r)).
Definition recovering_fence (r : ActivationRecoveryAttempt) : WriterFence :=
  fence (vr_active_recovery_owner (ra_validated r)).

(** ** Pins, rows and events *)

(** A nonzero [u64]. *)
Record ActivationOrdinal := mk_ActivationOrdinal { ordinal_get : Z }.

Definition ActivationOrdinal_new (value : Z) : option ActivationOrdinal :=
  if value =? 0 then None else Some (mk_ActivationOrdinal value).

Definition ordinal_typed (o : ActivationOrdinal) : Prop := 0 < ordinal_get o <= u64_max.

Record FabricEpochPins := mk_FabricEpochPins {
  ep_epoch : EpochId;
  ep_input_release : InputReleaseRef;
  ep_program_release : ProgramReleaseRef;
  ep_application_release : ApplicationReleaseRef;
  ep_source_authority : SourceAuthorityRef;
  ep_source_generation : SourceGeneration;
  ep_provider_release : ProviderReleaseRef;
  ep_provider_set : ProviderSetRef;
  ep_table_versions : TableVersionSetRef;
  ep_overlay_segments : OverlaySegmentSetRef;
  ep_policy_set : PolicySetRef;
  ep_resource_envelope : ResourceEnvelopeRef;
  ep_proof_receipt : ProofReceiptRef
}.

Definition command_pins_match (self : FabricEpochPins) (c : FabricCommand) : bool :=
  let p := pins c in
  (bool_decide (ep_input_release self = input_release p)
   && bool_decide (ep_program_release self = program_release p)
   && bool_decide (ep_application_release self = application_release p)
   && bool_decide (ep_source_authority self = source_authority p)
   && bool_decide (ep_source_generation self = pinned_source_generation p)
   && bool_decide (ep_provider_release self = provider_release p)
   && bool_decide (ep_provider_set self = provider_set p)
   && bool_decide (ep_resource_envelope self = resources c))%bool.

Record DurableActivationCommit := mk_DurableActivationCommit {
  dc_operation_selection : OperationSelectionRef;
  dc_transaction : TransactionRef
}.

Record DurableActivationRow := mk_DurableActivationRow {
  ar_event_id : ActivationEventId;
  ar_workspace_id : WorkspaceId;
  ar_operation_id : OperationId;
  ar_predecessor_event_id : option ActivationEventId;
  ar_predecessor_epoch : ExpectedHead;
  ar_ordinal : ActivationOrdinal;
  ar_execution_fence : WriterFence;
  ar_pins : FabricEpochPins;
  ar_compatibility : CompatibilityClassRef;
  ar_retention : RetentionPolicyRef;
  ar_commit : DurableActivationCommit
}.

Record ActivationCommit := mk_ActivationCommit {
  ac_operation_selection : OperationSelectionRef;
  ac_transaction : TransactionRef;
  ac_backend_commit : BackendCommitRef;
  ac_readback : ActivationReadbackRef
}.

Record ActivationEvent := mk_ActivationEvent {
  ev_event_id : ActivationEventId;
  ev_workspace_id : WorkspaceId;
  ev_operation_id : OperationId;
  ev_predecessor_event_id : option ActivationEventId;
  ev_predecessor_epoch : ExpectedHead;
  ev_ordinal : ActivationOrdinal;
  ev_execution_fence : WriterFence;
  ev_pins : FabricEpochPins;
  ev_compatibility : CompatibilityClassRef;
  ev_retention : RetentionPolicyRef;
  ev_commit : ActivationCommit
}.

#[export] Instance ActivationAttempt_eq_dec : EqDecision ActivationAttempt.
Proof. solve_decision. Defined.
#[export] Instance ActivationOrdinal_eq_dec : EqDecision ActivationOrdinal.
Proof. solve_decision. Defined.
#[export] Instance FabricEpochPins_eq_dec : EqDecision FabricEpochPins.
Proof. solve_decision. Defined.
#[export] Instance DurableActivationCommit_eq_dec : EqDecision DurableActivationCommit.
Proof. solve_decision. Defined.
#[export] Instance DurableActivationRow_eq_dec : EqDecision DurableActivationRow.
Proof. solve_decision. Defined.
#[export] Instance ActivationCommit_eq_dec : EqDecision ActivationCommit.
Proof. solve_decision. Defined.
#[export] Instance ActivationEvent_eq_dec : EqDecision ActivationEvent.
Proof. solve_decision. Defined.

Inductive ActivationError :=
| CommandDoesNotSelectEpoch
| ProofReceiptMismatch
| SelectedEpochMismatch (cmd event : EpochId)
| CommandPinMismatch
| EventWorkspaceMismatch (expected actual : WorkspaceId)
| DuplicateEvent (event : ActivationEventId)
| DuplicateOperation (operation : OperationId)
| DuplicateOperationSelection (selection : OperationSelectionRef)
| DuplicateTransaction (transaction : TransactionRef)
| RootCount (count : Z)
| InvalidRoot (event : ActivationEventId)
| MissingPredecessor (event predecessor : ActivationEventId)
| Fork (event : ActivationEventId)
| PredecessorEpochMismatch (event predecessor : ActivationEventId)
| OrdinalGap (event : ActivationEventId) (expected actual : Z)
| WriterGenerationRegression (event predecessor : ActivationEventId)
| DisconnectedOrCyclicHistory (reachable total : Z).

(** [DurableActivationRow::try_from_attempt]. *)
Definition row_from_attempt (event_id : ActivationEventId) (attempt : ActivationAttempt)
    (predecessor_event_id : option ActivationEventId) (ordinal : ActivationOrdinal)
    (p : FabricEpochPins) (compatibility : CompatibilityClassRef) (retention : RetentionPolicyRef)
    (commit : DurableActivationCommit) : result DurableActivationRow ActivationError :=
  let c := attempt_command attempt in
  let? expected_target :=
    match payload c with
    | ActivateEpoch candidate_epoch proof_receipt =>
        if negb (bool_decide (proof_receipt = ep_proof_receipt p)) then Err ProofReceiptMismatch
        else Ok candidate_epoch
    | RollbackEpoch target_epoch _ => Ok target_epoch
    | _ => Err CommandDoesNotSelectEpoch
    end in
  if negb (bool_decide (expected_target = ep_epoch p))
  then Err (SelectedEpochMismatch expected_target (ep_epoch p))
  else if negb (command_pins_match p c) then Err CommandPinMismatch
  else Ok (mk_DurableActivationRow event_id (owner_workspace_id (ownership c))
             (operation_id (identity c)) predecessor_event_id (expected_head c) ordinal
             (attempt_fence attempt) p compatibility retention commit).

Definition from_durable_parts (row : DurableActivationRow) (backend_commit : BackendCommitRef)
    (readback : ActivationReadbackRef) : ActivationEvent :=
  mk_ActivationEvent (ar_event_id row) (ar_workspace_id row) (ar_operation_id row)
    (ar_predecessor_event_id row) (ar_predecessor_epoch row) (ar_ordinal row)
    (ar_execution_fence row) (ar_pins row) (ar_compatibility row) (ar_retention row)
    (mk_ActivationCommit (dc_operation_selection (ar_commit row)) (dc_transaction (ar_commit row))
       backend_commit readback).

Definition durable_row (e : ActivationEvent) : DurableActivationRow :=
  mk_DurableActivationRow (ev_event_id e) (ev_workspace_id e) (ev_operation_id e)
    (ev_predecessor_event_id e) (ev_predecessor_epoch e) (ev_ordinal e) (ev_execution_fence e)
    (ev_pins e) (ev_compatibility e) (ev_retention e)
    (mk_DurableActivationCommit (ac_operation_selection (ev_commit e)) (ac_transaction (ev_commit e))).

(** [ActivationEvent::try_from_attempt]. *)
Definition event_from_attempt (event_id : ActivationEventId) (attempt : ActivationAttempt)
    (predecessor_event_id : option ActivationEventId) (ordinal : ActivationOrdinal)
    (p : FabricEpochPins) (compatibility : CompatibilityClassRef) (retention : RetentionPolicyRef)
    (commit : ActivationCommit) : result ActivationEvent ActivationError :=
  let? row := row_from_attempt event_id attempt predecessor_event_id ordinal p compatibility retention
                (mk_DurableActivationCommit (ac_operation_selection commit) (ac_transaction commit)) in
  Ok (from_durable_parts row (ac_backend_commit commit) (ac_readback commit)).

(** ** The history *)

Record ActivationChain := mk_ActivationChain {
  chain_workspace_id : WorkspaceId;
  chain_events : list ActivationEvent
}.

#[export] Instance ActivationChain_eq_dec : EqDecision ActivationChain.
Proof. solve_decision. Defined.

(** The state of the first loop of [derive]: [by_id] and the three sets. *)
Record Indexed := mk_Indexed {
  by_id : gmap ActivationEventId ActivationEvent;
  operations : gset OperationId;
  selections : gset OperationSelectionRef;
  transactions : gset TransactionRef
}.

(** One round of it. *)
Definition index_event (workspace_id : WorkspaceId) (e : ActivationEvent) (s : Indexed)
  : result Indexed ActivationError :=
  if negb (bool_decide (ev_workspace_id e = workspace_id))
  then Err (EventWorkspaceMismatch workspace_id (ev_workspace_id e))
  else if bool_decide (is_Some (by_id s !! ev_event_id e)) then Err (DuplicateEvent (ev_event_id e))
  else if bool_decide (ev_operation_id e ∈ operations s)
  then Err (DuplicateOperation (ev_operation_id e))
  else if bool_decide (ac_operation_selection (ev_commit e) ∈ selections s)
  then Err (DuplicateOperationSelection (ac_operation_selection (ev_commit e)))
  else if bool_decide (ac_transaction (ev_commit e) ∈ transactions s)
  then Err (DuplicateTransaction (ac_transaction (ev_commit e)))
  else Ok (mk_Indexed (<[ev_event_id e := e]> (by_id s)) ({[ev_operation_id e]} ∪ operations s)
             ({[ac_operation_selection (ev_commit e)]} ∪ selections s)
             ({[ac_transaction (ev_commit e)]} ∪ transactions s)).

Definition event_le (a b : ActivationEvent) : Prop :=
  bytes_le (as_slice (activation_as_bytes (ev_event_id a)))
    (as_slice (activation_as_bytes (ev_event_id b))).
#[export] Instance event_le_dec a b : Decision (event_le a b).
Proof. unfold event_le. apply _. Defined.

(** [BTreeMap::values]: in the order of the keys. *)
Definition values (m : gmap ActivationEventId ActivationEvent) : list ActivationEvent :=
  merge_sort event_le (snd <$> map_to_list m).

(** One round of the second loop, with [child_by_parent] as its state. The addition is the one of
    a release build, where it wraps. *)
Definition link_event (events : gmap ActivationEventId ActivationEvent) (e : ActivationEvent)
    (child_by_parent : gmap ActivationEventId ActivationEventId)
  : result (gmap ActivationEventId ActivationEventId) ActivationError :=
  match ev_predecessor_event_id e with
  | None => Ok child_by_parent
  | Some parent_id =>
      let? parent := ok_or (events !! parent_id) (MissingPredecessor (ev_event_id e) parent_id) in
      if bool_decide (is_Some (child_by_parent !! parent_id)) then Err (Fork parent_id)
      else if negb (bool_decide (ev_predecessor_epoch e = EpochHead (ep_epoch (ev_pins parent))))
      then Err (PredecessorEpochMismatch (ev_event_id e) parent_id)
      else if negb (ordinal_get (ev_ordinal e) =? wrap64 (ordinal_get (ev_ordinal parent) + 1))
      then Err (OrdinalGap (ev_event_id e) (wrap64 (ordinal_get (ev_ordinal parent) + 1))
                  (ordinal_get (ev_ordinal e)))
      else if generation_get (generation (ev_execution_fence e))
              <? generation_get (generation (ev_execution_fence parent))
      then Err (WriterGenerationRegression (ev_event_id e) parent_id)
      else Ok (<[parent_id := ev_event_id e]> child_by_parent)
  end.

(** The last loop. *)
Fixpoint walk (fuel : nat) (events : gmap ActivationEventId ActivationEvent)
    (child_by_parent : gmap ActivationEventId ActivationEventId) (next : ActivationEventId)
  : Left (list ActivationEvent) :=
  match fuel with
  | O => OutOfFuel
  | S fuel =>
      match events !! next with
      | None => ReachedUnreachable
      | Some e =>
          match child_by_parent !! next with
          | None => Returned [e]
          | Some child =>
              match walk fuel events child_by_parent child with
              | Returned rest => Returned (e :: rest)
              | ReachedUnreachable => ReachedUnreachable
              | OutOfFuel => OutOfFuel
              end
          end
      end
  end.

(** [ActivationChain::derive]. One round of the last loop per event is enough. *)
Definition derive (workspace_id : WorkspaceId) (events : list ActivationEvent)
  : Left (result ActivationChain ActivationError) :=
  match for_each events (index_event workspace_id) (mk_Indexed ∅ ∅ ∅ ∅) with
  | Err error => Returned (Err error)
  | Ok indexed =>
      let events := by_id indexed in
      if bool_decide (size events = 0%nat) then Returned (Ok (mk_ActivationChain workspace_id []))
      else
        match filter (fun e => ev_predecessor_event_id e = None) (values events) with
        | [root] =>
            if (negb (bool_decide (ev_predecessor_epoch root = EmptyHead))
                || negb (ordinal_get (ev_ordinal root) =? 1))%bool
            then Returned (Err (InvalidRoot (ev_event_id root)))
            else
              match for_each (values events) (link_event events) ∅ with
              | Err error => Returned (Err error)
              | Ok child_by_parent =>
                  match walk (size events) events child_by_parent (ev_event_id root) with
                  | Returned ordered =>
                      if negb (length ordered =? size events)%nat
                      then Returned (Err (DisconnectedOrCyclicHistory
                                            (Z.of_nat (length ordered)) (Z.of_nat (size events))))
                      else Returned (Ok (mk_ActivationChain workspace_id ordered))
                  | ReachedUnreachable => ReachedUnreachable
                  | OutOfFuel => OutOfFuel
                  end
              end
        | roots => Returned (Err (RootCount (Z.of_nat (length roots))))
        end
  end.

Definition head_event (c : ActivationChain) : option ActivationEvent := last (chain_events c).

Definition chain_head (c : ActivationChain) : ExpectedHead :=
  match head_event c with Some e => EpochHead (ep_epoch (ev_pins e)) | None => EmptyHead end.

(** ** Exact Delta states *)

Record ExactDeltaPin := mk_ExactDeltaPin { canonical_root : string; pin_version : Z }.

Record TableVersionSet := mk_TableVersionSet {
  tv_reference : TableVersionSetRef;
  tv_components : gmap string ExactDeltaPin
}.

Inductive TableVersionSetError :=
| EmptySet
| EmptyRelationIdentity
| DuplicateRelationIdentity (relation_id : string)
| ComponentCountOverflow.

Record SealedActivationControlBinding := mk_SealedActivationControlBinding {
  cb_session_id : string;
  cb_fingerprint : byte_array 32
}.

Record ActivationControlRelationPin := mk_ActivationControlRelationPin {
  cr_table : ExactDeltaPin;
  cr_binding : SealedActivationControlBinding;
  cr_fingerprint : byte_array 32
}.

(** [ApplicationTransactionMarker] of src/src/fabric/delta_write.rs. *)
Record ApplicationTransactionMarker := mk_ApplicationTransactionMarker {
  application_id : string;
  application_version : Z
}.

Definition marker_from_transaction_ref (t : TransactionRef) : ApplicationTransactionMarker :=
  mk_ApplicationTransactionMarker
    ("codefabric/transaction/" +:+ hex (as_slice (as_bytes t))) 0.

Inductive ActivationDeltaReadVersionEvidence :=
| ReadVersionExact (version : Z)
| NotExposedByCommitHistory.

Record ActivationDeltaCommitObservation := mk_ActivationDeltaCommitObservation {
  ob_predecessor : ExactDeltaPin;
  ob_committed : ExactDeltaPin;
  ob_marker : ApplicationTransactionMarker;
  ob_marker_observed_in : ExactDeltaPin;
  ob_operation_id : OperationId;
  ob_writer_generation : WriterGeneration;
  ob_session_id : string;
  ob_read_version : ActivationDeltaReadVersionEvidence;
  ob_num_retries : Z
}.

Record ActivationDeltaCommitEvidence := mk_ActivationDeltaCommitEvidence {
  de_control_predecessor : ActivationControlRelationPin;
  de_committed : ExactDeltaPin;
  de_marker_observed_in : ExactDeltaPin;
  de_operation_id : OperationId;
  de_transaction : TransactionRef;
  de_execution_fence : WriterFence;
  de_read_version : ActivationDeltaReadVersionEvidence;
  de_num_retries : Z;
  de_backend_commit : BackendCommitRef
}.

Inductive ActivationDeltaEvidenceError :=
| EmptyObservedSessionId
| ControlVersionOverflow (version : Z)
| PredecessorObservationMismatch
| CommittedRootMismatch
| CommittedVersionMismatch (expected observed : Z)
| MarkerObservationMismatch
| TransactionMarkerMismatch
| OperationMismatch
| WriterGenerationMismatch
| SessionBindingMismatch
| ReadVersionMismatch (expected observed : Z)
| NonzeroRetryCount (retries : Z)
| RowTransactionMismatch
| RowFenceMismatch
| RowReadbackPinMismatch.

Inductive ActivationReconstructionError :=
| RowEvidence (event_id : ActivationEventId) (source : ActivationDeltaEvidenceError)
| ChainError (source : ActivationError).

#[export] Instance ExactDeltaPin_eq_dec : EqDecision ExactDeltaPin.
Proof. solve_decision. Defined.
#[export] Instance TableVersionSet_eq_dec : EqDecision TableVersionSet.
Proof. solve_decision. Defined.
#[export] Instance SealedActivationControlBinding_eq_dec : EqDecision SealedActivationControlBinding.
Proof. solve_decision. Defined.
#[export] Instance ActivationControlRelationPin_eq_dec : EqDecision ActivationControlRelationPin.
Proof. solve_decision. Defined.
#[export] Instance ApplicationTransactionMarker_eq_dec : EqDecision ApplicationTransactionMarker.
Proof. solve_decision. Defined.

(** [s.trim().is_empty()]. *)
Definition blank (s : string) : bool := forallb is_whitespace (chars s).

(** [ActivationDeltaCommitObservation::try_new]. *)
Definition observe_commit (o : ActivationDeltaCommitObservation)
  : result ActivationDeltaCommitObservation ActivationDeltaEvidenceError :=
  if blank (ob_session_id o) then Err EmptyObservedSessionId else Ok o.

(** [CanonicalEvidenceDigest]: what its hasher has been fed. *)
Definition evidence_frame (bytes : list byte) : list byte :=
  (to_be_bytes 8 (wrap64 (Z.of_nat (length bytes))) ++ bytes)%list.
Definition evidence_frames (l : list (list byte)) : list byte := concat (evidence_frame <$> l).
Definition text (s : string) : list byte := String.list_byte_of_string s.
Definition u64_bytes (z : Z) : list byte := to_be_bytes 8 z.
Definition id_bytes {t} (i : byte_identity t) : list byte := as_slice (as_bytes i).
Definition aid_bytes {t} (i : activation_identity t) : list byte := as_slice (activation_as_bytes i).

(** [canonical_digest]: the frames of a row. *)
Definition row_frames (r : DurableActivationRow) : list (list byte) :=
  let p := ar_pins r in
  ([text "codefabric.activation.durable-row.v1"; aid_bytes (ar_event_id r);
    id_bytes (ar_workspace_id r); id_bytes (ar_operation_id r)]
   ++ match ar_predecessor_event_id r with
      | Some e => [[x01]; aid_bytes e]
      | None => [[x00]]
      end
   ++ match ar_predecessor_epoch r with
      | EmptyHead => [[x00]]
      | EpochHead epoch => [[x01]; id_bytes epoch]
      end
   ++ [u64_bytes (ordinal_get (ar_ordinal r)); id_bytes (lease_id (ar_execution_fence r));
       u64_bytes (generation_get (generation (ar_execution_fence r)));
       id_bytes (ep_epoch p); id_bytes (ep_input_release p); id_bytes (ep_program_release p);
       id_bytes (ep_application_release p); id_bytes (ep_source_authority p);
       u64_bytes (source_generation_get (ep_source_generation p)); id_bytes (ep_provider_release p);
       id_bytes (ep_provider_set p); aid_bytes (ep_table_versions p);
       aid_bytes (ep_overlay_segments p); aid_bytes (ep_policy_set p);
       id_bytes (ep_resource_envelope p); id_bytes (ep_proof_receipt p);
       aid_bytes (ar_compatibility r); id_bytes (ar_retention r);
       id_bytes (dc_operation_selection (ar_commit r)); id_bytes (dc_transaction (ar_commit r))])%list.

Section digest.
Context (blake3_hash : list byte -> byte_array 32).

Definition evidence_digest (l : list (list byte)) : byte_array 32 := blake3_hash (evidence_frames l).

(** [TableVersionSet::try_new]; a component is a relation with its pin. *)
Definition insert_component (c : string * ExactDeltaPin) (m : gmap string ExactDeltaPin)
  : result (gmap string ExactDeltaPin) TableVersionSetError :=
  if blank c.1 then Err EmptyRelationIdentity
  else if bool_decide (is_Some (m !! c.1)) then Err (DuplicateRelationIdentity c.1)
  else Ok (<[c.1 := c.2]> m).

Definition TableVersionSet_try_new (components : list (string * ExactDeltaPin))
  : result TableVersionSet TableVersionSetError :=
  let? ordered := for_each components insert_component ∅ in
  if bool_decide (size ordered = 0%nat) then Err EmptySet
  else
    let component_count := Z.of_nat (size ordered) in
    if u64_max <? component_count then Err ComponentCountOverflow
    else
      let entries := merge_sort (fun a b => str_cmp a.1 b.1 <> Gt) (map_to_list ordered) in
      Ok (mk_TableVersionSet
            (activation_from_bytes
               (evidence_digest
                  ([text "codefabric.activation.table-version-set.v1"; u64_bytes component_count]
                   ++ ('(relation_id, pin) ← entries;
                       [text relation_id; text (canonical_root pin); u64_bytes (pin_version pin)]))%list))
            ordered).

(** [ActivationControlRelationPin::new]. *)
Definition control_relation_pin (table : ExactDeltaPin) (binding : SealedActivationControlBinding)
  : ActivationControlRelationPin :=
  mk_ActivationControlRelationPin table binding
    (evidence_digest
       [text "codefabric.activation-control.relation-pin.v1"; text (canonical_root table);
        u64_bytes (pin_version table); as_slice (cb_fingerprint binding)]).

Definition backend_commit_ref (control_predecessor : ActivationControlRelationPin)
    (transaction : TransactionRef) (operation : OperationId) (execution_fence : WriterFence)
    (o : ActivationDeltaCommitObservation) : BackendCommitRef :=
  activation_from_bytes
    (evidence_digest
       ([text "codefabric.activation.backend-commit.v1"; as_slice (cr_fingerprint control_predecessor);
         text (canonical_root (ob_committed o)); u64_bytes (pin_version (ob_committed o));
         text (application_id (ob_marker o)); u64_bytes (application_version (ob_marker o));
         text (canonical_root (ob_marker_observed_in o)); u64_bytes (pin_version (ob_marker_observed_in o));
         id_bytes operation; id_bytes transaction; id_bytes (lease_id execution_fence);
         u64_bytes (generation_get (generation execution_fence))]
        ++ match ob_read_version o with
           | ReadVersionExact version => [[x01]; u64_bytes version]
           | NotExposedByCommitHistory => [[x00]]
           end
        ++ [u64_bytes (ob_num_retries o)])%list).

(** [ActivationDeltaCommitEvidence::try_new]. *)
Definition commit_evidence (control_predecessor : ActivationControlRelationPin)
    (transaction : TransactionRef) (operation : OperationId) (execution_fence : WriterFence)
    (o : ActivationDeltaCommitObservation)
  : result ActivationDeltaCommitEvidence ActivationDeltaEvidenceError :=
  let predecessor := cr_table control_predecessor in
  if negb (bool_decide (ob_predecessor o = predecessor)) then Err PredecessorObservationMismatch
  else
    let? expected_version := ok_or (checked_add u64_max (pin_version predecessor) 1)
                               (ControlVersionOverflow (pin_version predecessor)) in
    if negb (bool_decide (canonical_root (ob_committed o) = canonical_root predecessor))
    then Err CommittedRootMismatch
    else if negb (pin_version (ob_committed o) =? expected_version)
    then Err (CommittedVersionMismatch expected_version (pin_version (ob_committed o)))
    else if negb (bool_decide (ob_marker_observed_in o = ob_committed o)) then Err MarkerObservationMismatch
    else if negb (bool_decide (ob_marker o = marker_from_transaction_ref transaction))
    then Err TransactionMarkerMismatch
    else if negb (bool_decide (ob_operation_id o = operation)) then Err OperationMismatch
    else if negb (bool_decide (ob_writer_generation o = generation execution_fence))
    then Err WriterGenerationMismatch
    else if negb (bool_decide (ob_session_id o = cb_session_id (cr_binding control_predecessor)))
    then Err SessionBindingMismatch
    else
    let? _ := match ob_read_version o with
              | ReadVersionExact version =>
                  if negb (version =? pin_version predecessor)
                  then Err (ReadVersionMismatch (pin_version predecessor) version) else Ok tt
              | NotExposedByCommitHistory => Ok tt
              end in
    if negb (ob_num_retries o =? 0) then Err (NonzeroRetryCount (ob_num_retries o))
    else Ok (mk_ActivationDeltaCommitEvidence control_predecessor (ob_committed o)
               (ob_marker_observed_in o) operation transaction execution_fence (ob_read_version o)
               (ob_num_retries o)
               (backend_commit_ref control_predecessor transaction operation execution_fence o)).

(** [ActivationEvent::try_from_durable_row]. *)
Definition event_from_durable_row (row : DurableActivationRow) (observed_in : ExactDeltaPin)
    (evidence : ActivationDeltaCommitEvidence)
  : result ActivationEvent ActivationDeltaEvidenceError :=
  if negb (bool_decide (observed_in = de_committed evidence)) then Err RowReadbackPinMismatch
  else if negb (bool_decide (ar_operation_id row = de_operation_id evidence)) then Err OperationMismatch
  else if negb (bool_decide (dc_transaction (ar_commit row) = de_transaction evidence))
  then Err RowTransactionMismatch
  else if negb (bool_decide (ar_execution_fence row = de_execution_fence evidence))
  then Err RowFenceMismatch
  else
    let readback :=
      activation_from_bytes
        (evidence_digest
           [text "codefabric.activation.readback.v1";
            as_slice (cr_fingerprint (de_control_predecessor evidence));
            text (canonical_root observed_in); u64_bytes (pin_version observed_in);
            aid_bytes (de_backend_commit evidence); as_slice (evidence_digest (row_frames row))]) in
    Ok (from_durable_parts row (de_backend_commit evidence) readback).

(** The [collect] of [try_from_durable_rows]: the events of all rows, or the first failure. *)
Fixpoint events_from_rows
    (rows : list (DurableActivationRow * ExactDeltaPin * ActivationDeltaCommitEvidence))
  : result (list ActivationEvent) ActivationReconstructionError :=
  match rows with
  | [] => Ok []
  | (row, observed_in, evidence) :: rows =>
      match event_from_durable_row row observed_in evidence with
      | Err source => Err (RowEvidence (ar_event_id row) source)
      | Ok e => let? events := events_from_rows rows in Ok (e :: events)
      end
  end.

(** [ActivationChain::try_from_durable_rows]. *)
Definition chain_from_durable_rows (workspace_id : WorkspaceId)
    (rows : list (DurableActivationRow * ExactDeltaPin * ActivationDeltaCommitEvidence))
  : Left (result ActivationChain ActivationReconstructionError) :=
  match events_from_rows rows with
  | Err error => Returned (Err error)
  | Ok events =>
      match derive workspace_id events with
      | Returned (Ok chain) => Returned (Ok chain)
      | Returned (Err error) => Returned (Err (ChainError error))
      | ReachedUnreachable => ReachedUnreachable
      | OutOfFuel => OutOfFuel
      end
  end.
End digest.
