(* ===== verification/ActivationTheory.v ===== *)
(** The derivation of the activation history is exact: it returns a history exactly when the rows,
    in some order, form one, and then that one. *)

From stdpp Require Import sorting.
From S2P Require Import Prelude.
From S2P Require Import Encoding.
From S2P Require Import CommandModel.
From S2P Require Import EffectContract.
From S2P Require Import ActivationModel.
Local Open Scope Z_scope.

(** ** What a history is *)

Definition ordinal (e : ActivationEvent) : Z := ordinal_get (ev_ordinal e).
Definition fence_of (e : ActivationEvent) : Z := generation_get (generation (ev_execution_fence e)).
Definition selection_of (e : ActivationEvent) : OperationSelectionRef := ac_operation_selection (ev_commit e).
Definition transaction_of (e : ActivationEvent) : TransactionRef := ac_transaction (ev_commit e).
Definition epoch_of (e : ActivationEvent) : EpochId := ep_epoch (ev_pins e).

(** [e] comes right after [prev] in a history; after nothing when it is the first. *)
Definition extends (prev : option ActivationEvent) (e : ActivationEvent) : Prop :=
  match prev with
  | None =>
      ev_predecessor_event_id e = None /\ ev_predecessor_epoch e = EmptyHead /\ ordinal e = 1
  | Some p =>
      ev_predecessor_event_id e = Some (ev_event_id p)
      /\ ev_predecessor_epoch e = EpochHead (epoch_of p)
      /\ ordinal e = ordinal p + 1 /\ fence_of p <= fence_of e
  end.

Fixpoint linear (prev : option ActivationEvent) (l : list ActivationEvent) : Prop :=
  match l with
  | [] => True
  | e :: l => extends prev e /\ linear (Some e) l
  end.

(** The events are of this workspace, and no two share an identity. *)
Record distinct (ws : WorkspaceId) (l : list ActivationEvent) : Prop := {
  di_workspace : Forall (fun e => ev_workspace_id e = ws) l;
  di_ids : NoDup (ev_event_id <$> l);
  di_operations : NoDup (ev_operation_id <$> l);
  di_selections : NoDup (selection_of <$> l);
  di_transactions : NoDup (transaction_of <$> l)
}.

Definition history (ws : WorkspaceId) (l : list ActivationEvent) : Prop := distinct ws l /\ linear None l.

Definition typed (l : list ActivationEvent) : Prop := Forall (fun e => ordinal_typed (ev_ordinal e)) l.

Lemma distinct_nil ws : distinct ws [].
Proof. split; constructor. Qed.

#[export] Instance distinct_perm ws : Proper ((≡ₚ) ==> iff) (distinct ws).
Proof.
  assert (forall l l', l ≡ₚ l' -> distinct ws l -> distinct ws l') as H.
  { intros l l' Hp [Hw Hi Ho Hs Ht]. split; by rewrite <- Hp. }
  intros l l' Hp. split; by apply H.
Qed.

Lemma NoDup_fmap_snoc {A B} (f : A -> B) l x :
  NoDup (f <$> (l ++ [x])) <-> NoDup (f <$> l) /\ (f x ∉ f <$> l).
Proof.
  rewrite fmap_app, NoDup_app. simpl. split; [set_solver|]. intros [? Hx].
  split_and!; [done|set_solver|apply NoDup_singleton].
Qed.

Lemma distinct_snoc ws l e :
  distinct ws (l ++ [e]) <->
  distinct ws l /\ ev_workspace_id e = ws /\ (ev_event_id e ∉ ev_event_id <$> l)
  /\ (ev_operation_id e ∉ ev_operation_id <$> l) /\ (selection_of e ∉ selection_of <$> l)
  /\ (transaction_of e ∉ transaction_of <$> l).
Proof.
  split.
  - intros [Hw Hi Ho Hs Ht]. rewrite Forall_app, Forall_singleton in Hw.
    destruct Hw. apply NoDup_fmap_snoc in Hi as [], Ho as [], Hs as [], Ht as []. by split_and!; try split.
  - intros ([Hw Hi Ho Hs Ht] & ?). split; rewrite ?Forall_app, ?Forall_singleton; try apply NoDup_fmap_snoc; naive_solver.
Qed.

Lemma distinct_event ws l e e' :
  distinct ws l -> e ∈ l -> e' ∈ l -> ev_event_id e = ev_event_id e' -> e = e'.
Proof.
  intros [_ Hi _ _ _] He He' Heq. apply list_elem_of_lookup in He as [i Hi1], He' as [j Hj].
  assert (i = j) as ->; [|congruence]. eapply (NoDup_lookup _ _ _ (ev_event_id e) Hi).
  - by rewrite list_lookup_fmap, Hi1.
  - by rewrite list_lookup_fmap, Hj, Heq.
Qed.

(** ** Histories as sequences *)

Definition base (prev : option ActivationEvent) : Z := from_option ordinal 0 prev.

Lemma extends_ordinal prev e : extends prev e -> ordinal e = base prev + 1.
Proof. destruct prev; simpl; naive_solver. Qed.

Lemma linear_ordinal prev l i e : linear prev l -> l !! i = Some e -> ordinal e = base prev + Z.of_nat i + 1.
Proof.
  revert prev i. induction l as [|x l IH]; intros prev i; [by rewrite lookup_nil|]. intros [He Hl].
  apply extends_ordinal in He. destruct i as [|i]; simpl.
  - intros [= <-]. lia.
  - intros Hi. specialize (IH (Some x) i Hl Hi). simpl in IH. lia.
Qed.

Lemma linear_NoDup prev l : linear prev l -> NoDup l.
Proof.
  intros Hl. apply NoDup_alt. intros i j e Hi Hj.
  pose proof (linear_ordinal _ _ _ _ Hl Hi). pose proof (linear_ordinal _ _ _ _ Hl Hj). lia.
Qed.

Lemma linear_snoc prev l e :
  linear prev (l ++ [e]) <-> linear prev l /\ extends (from_option Some prev (last l)) e.
Proof.
  revert prev. induction l as [|x l IH]; intros prev; [simpl; naive_solver|].
  cbn [app linear]. rewrite IH, last_cons. destruct (last l); simpl; naive_solver.
Qed.

(** A set of events has at most one order in which it is a history. *)
Lemma linear_unique l l' : linear None l -> linear None l' -> l ≡ₚ l' -> l = l'.
Proof.
  intros Hl Hl' Hp. apply list_eq. intros i.
  assert (forall k k' j (e : ActivationEvent), linear None k -> linear None k' -> k ≡ₚ k' ->
            k !! j = Some e -> k' !! j = Some e) as Hsame.
  { intros k k' j e Hk Hk' Hkp Hj. pose proof (list_elem_of_lookup_2 _ _ _ Hj) as He. rewrite Hkp in He.
    apply list_elem_of_lookup in He as [j' Hj'].
    pose proof (linear_ordinal _ _ _ _ Hk Hj). pose proof (linear_ordinal _ _ _ _ Hk' Hj').
    assert (j = j') as -> by lia. done. }
  apply option_eq. intros e. split; [by apply Hsame|by apply Hsame].
Qed.

(** ** The index *)

Record indexes (ws : WorkspaceId) (l : list ActivationEvent) (s : Indexed) : Prop := {
  in_distinct : distinct ws l;
  in_by_id : forall i e, by_id s !! i = Some e <-> e ∈ l /\ ev_event_id e = i;
  in_operations : forall o, o ∈ operations s <-> o ∈ ev_operation_id <$> l;
  in_selections : forall o, o ∈ selections s <-> o ∈ selection_of <$> l;
  in_transactions : forall t, t ∈ transactions s <-> t ∈ transaction_of <$> l
}.

Lemma indexes_nil ws : indexes ws [] (mk_Indexed ∅ ∅ ∅ ∅).
Proof. split; [apply distinct_nil|..]; intros; simpl; set_solver. Qed.

Lemma indexed_id ws l s e : indexes ws l s -> is_Some (by_id s !! ev_event_id e) <-> ev_event_id e ∈ ev_event_id <$> l.
Proof.
  intros Hs. rewrite list_elem_of_fmap. split.
  - intros [e' He']. apply (in_by_id _ _ _ Hs) in He' as [? ?]. by exists e'.
  - intros (e' & Heq & He'). exists e'. apply (in_by_id _ _ _ Hs). by rewrite Heq.
Qed.

Lemma index_event_returns ws l s e :
  indexes ws l s -> distinct ws (l ++ [e]) -> returns (index_event ws e s) (fun _ => True).
Proof.
  intros Hs (_ & Hw & Hi & Ho & Hse & Ht)%distinct_snoc. unfold index_event.
  rewrite bool_decide_eq_true_2 by done. simpl.
  rewrite !bool_decide_eq_false_2; [done|..];
    rewrite ?(in_transactions _ _ _ Hs), ?(in_selections _ _ _ Hs), ?(in_operations _ _ _ Hs); try done.
  by rewrite (indexed_id ws l).
Qed.

Lemma index_event_Ok ws l s e s' :
  indexes ws l s -> index_event ws e s = Ok s' -> indexes ws (l ++ [e]) s'.
Proof.
  intros Hs. unfold index_event.
  case_bool_decide as Hw; [simpl|done]. case_bool_decide as Hi; [done|].
  case_bool_decide as Ho; [done|]. case_bool_decide as Hse; [done|].
  case_bool_decide as Ht; [done|]. intros [= <-].
  rewrite (indexed_id ws l) in Hi by done.
  rewrite (in_operations _ _ _ Hs) in Ho. rewrite (in_selections _ _ _ Hs) in Hse.
  rewrite (in_transactions _ _ _ Hs) in Ht. split; simpl.
  - apply distinct_snoc. split_and!; try done. apply Hs.
  - intros i e'. rewrite lookup_insert_Some, (in_by_id _ _ _ Hs), elem_of_app, list_elem_of_singleton. split.
    + intros [[<- <-]|(? & ? & ?)]; auto.
    + intros [[He'| ->] Hid]; [right|by left]. split_and!; [|done|done].
      intros Heq. apply Hi. rewrite Heq, <- Hid. by apply list_elem_of_fmap_2.
  - intros o. rewrite fmap_app, elem_of_app, <- (in_operations _ _ _ Hs). set_solver.
  - intros o. rewrite fmap_app, elem_of_app, <- (in_selections _ _ _ Hs). set_solver.
  - intros o. rewrite fmap_app, elem_of_app, <- (in_transactions _ _ _ Hs). set_solver.
Qed.

Lemma index_Ok ws l s : for_each l (index_event ws) (mk_Indexed ∅ ∅ ∅ ∅) = Ok s -> indexes ws l s.
Proof.
  apply (for_each_Ok (indexes ws)); [apply indexes_nil|]. intros done x s1 s2. apply index_event_Ok.
Qed.

Lemma distinct_prefix ws l k : distinct ws (l ++ k) -> distinct ws l.
Proof.
  revert l. induction k as [|x k IH]; intros l; [by rewrite app_nil_r|].
  rewrite cons_middle, app_assoc. intros H%IH. by apply distinct_snoc in H as [? _].
Qed.

Lemma index_returns ws l :
  distinct ws l -> returns (for_each l (index_event ws) (mk_Indexed ∅ ∅ ∅ ∅)) (indexes ws l).
Proof.
  intros Hd. apply (for_each_returns (fun done _ s => indexes ws done s)); [apply indexes_nil|].
  intros done x todo s -> Hs. rewrite cons_middle, app_assoc in Hd. apply distinct_prefix in Hd.
  pose proof (index_event_returns ws done s x Hs Hd) as Hr.
  destruct (index_event ws x s) as [s'|] eqn:Hx; [|done]. by eapply index_event_Ok.
Qed.

Lemma values_perm ws l s : indexes ws l s -> values (by_id s) ≡ₚ l.
Proof.
  intros Hs. unfold values. rewrite merge_sort_Permutation. apply NoDup_Permutation.
  - apply (NoDup_fmap_1 ev_event_id). rewrite <- list_fmap_compose.
    rewrite (list_fmap_ext _ fst); [apply NoDup_fst_map_to_list|].
    intros i [k e] Hk. apply list_elem_of_lookup_2, elem_of_map_to_list, (in_by_id _ _ _ Hs) in Hk as [_ ?]. done.
  - apply (NoDup_fmap_1 ev_event_id), Hs.
  - intros e. rewrite list_elem_of_fmap. split.
    + intros ([k e'] & -> & Hk). by apply elem_of_map_to_list, (in_by_id _ _ _ Hs) in Hk as [? _].
    + intros He. exists (ev_event_id e, e). split; [done|].
      by apply elem_of_map_to_list, (in_by_id _ _ _ Hs).
Qed.

Lemma index_size ws l s : indexes ws l s -> size (by_id s) = length l.
Proof.
  intros Hs. rewrite <- (values_perm ws l s Hs). unfold values.
  rewrite (Permutation_length (merge_sort_Permutation _ _)), length_fmap, length_map_to_list. done.
Qed.

Lemma filter_length_lt {A} (P Q : A -> Prop) `{!forall x, Decision (P x), !forall x, Decision (Q x)} l x :
  (forall y, P y -> Q y) -> x ∈ l -> Q x -> ~ P x -> (length (filter P l) < length (filter Q l))%nat.
Proof.
  intros HPQ Hx HQ HP.
  assert (forall k : list A, (length (filter P k) <= length (filter Q k))%nat) as Hle.
  { induction k as [|z k IH]; [done|]. rewrite !filter_cons. repeat case_decide; simpl; first [lia|naive_solver]. }
  apply list_elem_of_split in Hx as (l1 & l2 & ->). rewrite !filter_app, !length_app.
  rewrite filter_cons_False, filter_cons_True by done. simpl. pose proof (Hle l1). pose proof (Hle l2). lia.
Qed.

(** ** Parents and children *)

Section links.
Context (ws : WorkspaceId) (l : list ActivationEvent) (s : Indexed).
Context (Hs : indexes ws l s) (Htyped : typed l).
Implicit Types ch : gmap ActivationEventId ActivationEventId.

Record links (done : list ActivationEvent) (ch : gmap ActivationEventId ActivationEventId) : Prop := {
  lk_child : forall e i, e ∈ done -> ev_predecessor_event_id e = Some i ->
    exists p, by_id s !! i = Some p /\ extends (Some p) e /\ ch !! i = Some (ev_event_id e);
  lk_only : forall i c, ch !! i = Some c ->
    exists e, e ∈ done /\ ev_predecessor_event_id e = Some i /\ ev_event_id e = c
}.

Lemma links_nil : links [] ∅.
Proof. split; set_solver. Qed.

(** What the checks on an event and its parent say. *)
Lemma link_event_spec e ch i p :
  e ∈ l -> ev_predecessor_event_id e = Some i -> by_id s !! i = Some p -> ch !! i = None ->
  (link_event (by_id s) e ch = Ok (<[i := ev_event_id e]> ch) <-> extends (Some p) e)
  /\ forall ch', link_event (by_id s) e ch = Ok ch' -> ch' = <[i := ev_event_id e]> ch.
Proof.
  intros He Hi Hp Hfree. apply (in_by_id _ _ _ Hs) in Hp as Hpl. destruct Hpl as [Hpl Hpi].
  pose proof (proj1 (Forall_forall _ _) Htyped _ He) as [? ?].
  pose proof (proj1 (Forall_forall _ _) Htyped _ Hpl) as [? ?]. unfold link_event, extends, ordinal, fence_of, epoch_of.
  rewrite Hi, Hp. simpl. rewrite Hfree, Hpi, bool_decide_eq_false_2 by apply is_Some_None. simpl.
  case_bool_decide; simpl; [|split; [split; [done|intros; naive_solver]|done]].
  unfold wrap64. destruct (Z.eqb_spec (ordinal_get (ev_ordinal e))
    ((ordinal_get (ev_ordinal p) + 1) mod (u64_max + 1))) as [Hord|Hord]; simpl.
  - assert (ordinal_get (ev_ordinal e) = ordinal_get (ev_ordinal p) + 1).
    { destruct (Z.eq_dec (ordinal_get (ev_ordinal p)) u64_max) as [Hmax|].
      - rewrite Hmax, Z.mod_same in Hord by (unfold u64_max; lia). lia.
      - rewrite Z.mod_small in Hord by lia. lia. }
    destruct (Z.ltb_spec (generation_get (generation (ev_execution_fence e)))
                (generation_get (generation (ev_execution_fence p)))).
    + split; [|done]. split; [done|]. intros (_ & _ & _ & ?). lia.
    + split; [|by intros ? [= <-]]. split; [intros _|done]. split_and!; auto with lia.
  - split; [|done]. split; [done|]. intros (_ & _ & Ho & _). destruct Hord. rewrite Ho, Z.mod_small; lia.
Qed.

Lemma link_event_Ok done e ch ch' :
  e ∈ l -> links done ch -> link_event (by_id s) e ch = Ok ch' -> links (done ++ [e]) ch'.
Proof.
  intros He [Hc Ho] Hl. destruct (ev_predecessor_event_id e) as [i|] eqn:Hi.
  - destruct (by_id s !! i) as [p|] eqn:Hp; [|unfold link_event in Hl; by rewrite Hi, Hp in Hl].
    destruct (ch !! i) as [c|] eqn:Hfree.
    { unfold link_event in Hl. by rewrite Hi, Hp in Hl; simpl in Hl; rewrite Hfree in Hl. }
    destruct (link_event_spec e ch i p He Hi Hp Hfree) as [Hext Heq].
    pose proof (Heq _ Hl) as ->. apply Hext in Hl. split.
    + intros e' i' [He'| ->%list_elem_of_singleton]%elem_of_app Hi'.
      * destruct (Hc e' i' He' Hi') as (p' & Hp' & Hx & Hch). exists p'. split_and!; try done.
        rewrite lookup_insert_ne; [done|]. intros ->. congruence.
      * assert (i' = i) as -> by congruence. exists p. by rewrite lookup_insert_eq.
    + intros i' c. rewrite lookup_insert_Some. intros [[<- <-]|[_ Hch]].
      * exists e. set_solver.
      * destruct (Ho i' c Hch) as (e' & ? & ?). exists e'. set_solver.
  - unfold link_event in Hl. rewrite Hi in Hl. injection Hl as <-. split.
    + intros e' i' [He'| ->%list_elem_of_singleton]%elem_of_app Hi'; [eauto|congruence].
    + intros i' c Hch. destruct (Ho i' c Hch) as (e' & ? & ?). exists e'. set_solver.
Qed.

Lemma link_all_Ok k ch : k ⊆ l -> for_each k (link_event (by_id s)) ∅ = Ok ch -> links k ch.
Proof.
  intros Hk Hf. enough (k ⊆ l -> links k ch) as H by auto. revert Hf.
  apply (for_each_Ok (fun done ch => done ⊆ l -> links done ch)); [intros _; apply links_nil|].
  intros done x ch1 ch2 IH Hl Hsub. eapply link_event_Ok; [set_solver|apply IH; set_solver|done].
Qed.

(** Every event has its parent, and no parent has two children. *)
Definition linkable (k : list ActivationEvent) : Prop :=
  forall e i, e ∈ k -> ev_predecessor_event_id e = Some i ->
    exists p, by_id s !! i = Some p /\ extends (Some p) e
              /\ forall e', e' ∈ k -> ev_predecessor_event_id e' = Some i -> e' = e.

Lemma link_all_returns k :
  k ⊆ l -> NoDup k -> linkable k -> returns (for_each k (link_event (by_id s)) ∅) (links k).
Proof.
  intros Hk Hnd Hlk. apply (for_each_returns (fun done _ ch => links done ch)); [apply links_nil|].
  intros done x todo ch -> Hd. assert (x ∈ l) as Hx by set_solver.
  destruct (link_event (by_id s) x ch) as [ch'|err] eqn:Hl; [by eapply link_event_Ok|].
  destruct (ev_predecessor_event_id x) as [i|] eqn:Hi; [|unfold link_event in Hl; by rewrite Hi in Hl].
  destruct (Hlk x i) as (p & Hp & Hext & Huniq); [set_solver|done|].
  destruct (ch !! i) as [c|] eqn:Hfree.
  - destruct (lk_only _ _ Hd i c Hfree) as (e' & He & Hei & _).
    assert (e' = x) as -> by (apply Huniq; [set_solver|done]).
    apply NoDup_app in Hnd as (_ & Hnd & _). by destruct (Hnd x He); left.
  - destruct (link_event_spec x ch i p Hx Hi Hp Hfree) as [Hext' _].
    apply Hext' in Hext. congruence.
Qed.

(** ** The walk *)

Context (ch : gmap ActivationEventId ActivationEventId) (Hch : links l ch).

Lemma child_extends e c :
  e ∈ l -> ch !! ev_event_id e = Some c -> exists e', e' ∈ l /\ ev_event_id e' = c /\ extends (Some e) e'.
Proof.
  intros He Hc. destruct (lk_only _ _ Hch _ _ Hc) as (e' & He' & Hi & <-). exists e'. split_and!; [done..|].
  destruct (lk_child _ _ Hch e' _ He' Hi) as (p & Hp & Hext & _). apply (in_by_id _ _ _ Hs) in Hp as [Hp Hid].
  by rewrite <- (distinct_event ws l p e (in_distinct _ _ _ Hs) Hp He Hid).
Qed.

Definition above (n : Z) : nat := length (filter (fun e => n <= ordinal e) l).

(** The events from one on: enough fuel returns them, linear and closed under children. *)
Lemma walk_returns fuel e :
  e ∈ l -> (above (ordinal e) <= fuel)%nat ->
  exists k, walk fuel (by_id s) ch (ev_event_id e) = Returned (e :: k) /\ linear (Some e) k /\ k ⊆ l
            /\ forall p c, p ∈ e :: k -> ch !! ev_event_id p = Some c ->
                 exists e', e' ∈ e :: k /\ ev_event_id e' = c.
Proof.
  revert e. induction fuel as [|fuel IH]; intros e He Hf.
  { assert (0 < above (ordinal e))%nat; [|lia]. apply (Nat.le_lt_trans _ (above (ordinal e + 1))); [lia|].
    apply (filter_length_lt _ _ _ e); intros; lia || done. }
  assert (by_id s !! ev_event_id e = Some e) as Hid by (by apply (in_by_id _ _ _ Hs)).
  simpl. rewrite Hid. destruct (ch !! ev_event_id e) as [c|] eqn:Hc.
  - destruct (child_extends e c He Hc) as (e' & He' & <- & Hext).
    assert (ordinal e' = ordinal e + 1) as Ho by (by apply extends_ordinal in Hext).
    assert (above (ordinal e') < above (ordinal e))%nat.
    { apply (filter_length_lt _ _ _ e); intros; lia || done. }
    destruct (IH e' He') as (k & -> & Hlin & Hsub & Hclosed); [lia|].
    exists (e' :: k). split_and!; [done|by split|set_solver|].
    intros p c [->|Hp]%elem_of_cons Hpc.
    + exists e'. split; [set_solver|]. congruence.
    + destruct (Hclosed p c Hp Hpc) as (x & ? & ?). exists x. set_solver.
  - exists []. split_and!; [done|done|set_solver|]. intros p c ->%list_elem_of_singleton Hpc. congruence.
Qed.

(** From the only root, the walk meets every event. *)
Lemma walk_complete root :
  root ∈ l -> extends None root -> (forall e, e ∈ l -> ev_predecessor_event_id e = None -> e = root) ->
  exists ordered, walk (size (by_id s)) (by_id s) ch (ev_event_id root) = Returned ordered
                  /\ ordered ≡ₚ l /\ linear None ordered.
Proof.
  intros Hr Hext Honly. destruct (walk_returns (size (by_id s)) root Hr) as (k & Hw & Hlin & Hsub & Hclosed).
  { rewrite (index_size ws l) by done. apply length_filter. }
  exists (root :: k). assert (linear None (root :: k)) as Hl by done. split_and!; [done| |done].
  apply NoDup_Permutation; [by eapply linear_NoDup|apply (NoDup_fmap_1 ev_event_id), Hs|].
  intros e. split; [set_solver|].
  remember (Z.to_nat (ordinal e)) as n eqn:Hn. revert e Hn.
  induction n as [n IH] using lt_wf_ind. intros e Hn He.
  destruct (ev_predecessor_event_id e) as [i|] eqn:Hi; [|by rewrite (Honly e); [left|..]].
  destruct (lk_child _ _ Hch e i He Hi) as (p & Hp & Hx & Hc). apply extends_ordinal in Hx.
  apply (in_by_id _ _ _ Hs) in Hp as [Hp <-].
  pose proof (proj1 (Forall_forall _ _) Htyped p Hp) as [? _]. unfold base, ordinal in *. simpl in Hx.
  destruct (Hclosed p (ev_event_id e)) as (e' & He' & Hid); [apply (IH (Z.to_nat (ordinal_get (ev_ordinal p)))); [lia|done|done]|done|].
  rewrite <- (distinct_event ws l e' e (in_distinct _ _ _ Hs)); set_solver.
Qed.
End links.

(** ** The derivation *)

(** In a history every event but the first comes right after another one. *)
Lemma linear_parent prev l n e :
  linear prev l -> l !! n = Some e ->
  match n with O => extends prev e | S m => exists p, l !! m = Some p /\ extends (Some p) e end.
Proof.
  revert prev n. induction l as [|x l IH]; intros prev n; [by rewrite lookup_nil|]. intros [Hx Hl].
  destruct n as [|n]; simpl; [by intros [= <-]|]. intros Hn. specialize (IH (Some x) n Hl Hn).
  destruct n as [|n]; [by exists x|done].
Qed.

Lemma linear_only_root r l e : linear None (r :: l) -> e ∈ r :: l -> ev_predecessor_event_id e = None -> e = r.
Proof.
  intros Hl [[|n] Hn]%list_elem_of_lookup Hi; [by injection Hn as <-|].
  destruct (linear_parent _ _ _ _ Hl Hn) as (p & _ & Hext & _). congruence.
Qed.

Lemma linear_linkable ws l s k :
  indexes ws l s -> k ≡ₚ l -> linear None k -> linkable s k.
Proof.
  intros Hs Hk Hlin e i [n Hn]%list_elem_of_lookup Hi. pose proof (in_distinct _ _ _ Hs) as Hd.
  rewrite <- Hk in Hd. pose proof (linear_parent _ _ _ _ Hlin Hn) as Hp.
  destruct n as [|n]; [destruct Hp; congruence|]. destruct Hp as (p & Hp & Hext).
  assert (ev_event_id p = i) as <- by (destruct Hext; congruence). exists p. split_and!; [|done|].
  { apply (in_by_id _ _ _ Hs). rewrite <- Hk. split; [by eapply list_elem_of_lookup_2|done]. }
  intros e' [n' Hn']%list_elem_of_lookup Hi'. pose proof (linear_parent _ _ _ _ Hlin Hn') as Hp'.
  destruct n' as [|n']; [destruct Hp'; congruence|]. destruct Hp' as (p' & Hp' & Hext' & _).
  assert (p' = p) as ->.
  { eapply (distinct_event ws k); [done|by eapply list_elem_of_lookup_2..|congruence]. }
  assert (n' = n) as -> by (eapply NoDup_lookup; [by eapply linear_NoDup|done|done]). congruence.
Qed.

(** Events that form a history pass every check. *)
Lemma linear_roots ws l s k :
  indexes ws l s -> k ≡ₚ l -> linear None k -> l <> [] ->
  exists r, filter (fun e => ev_predecessor_event_id e = None) (values (by_id s)) = [r] /\ extends None r.
Proof.
  intros Hs Hk Hlin Hne. destruct k as [|r k]; [by apply Permutation_nil_l in Hk|].
  exists r. split; [|apply Hlin]. apply Permutation_singleton_r, NoDup_Permutation.
  - apply NoDup_filter. rewrite (values_perm ws l s), <- Hk by done. by eapply linear_NoDup.
  - apply NoDup_singleton.
  - intros e. rewrite list_elem_of_filter, (values_perm ws l s), <- Hk, list_elem_of_singleton by done. split.
    + intros [Hi He]. by eapply linear_only_root.
    + intros ->. split; [apply Hlin|left].
Qed.

Lemma for_each_Err {A S E} (l : list A) (f : A -> S -> result S E) s e :
  for_each l f s = Err e -> exists x s', f x s' = Err e.
Proof.
  revert s. induction l as [|x l IH]; intros s; simpl; [done|].
  destruct (f x s) as [s'|] eqn:Hf; [apply IH|]. intros [= <-]. eauto.
Qed.

Lemma index_event_Err ws e s n m : index_event ws e s <> Err (DisconnectedOrCyclicHistory n m).
Proof. unfold index_event. by repeat case_match. Qed.

Lemma link_event_Err m e ch n k : link_event m e ch <> Err (DisconnectedOrCyclicHistory n k).
Proof.
  unfold link_event. destruct (ev_predecessor_event_id e) as [i|]; [|done].
  destruct (m !! i); [|done]. simpl. by repeat case_match.
Qed.

(** How a run of [derive] can end: with the history, or with an error and no history to be found. *)
Definition derived (ws : WorkspaceId) (l : list ActivationEvent)
    (x : Left (result ActivationChain ActivationError)) : Prop :=
  match x with
  | Returned (Ok c) => chain_workspace_id c = ws /\ chain_events c ≡ₚ l /\ history ws (chain_events c)
  | Returned (Err e) =>
      (forall n m, e <> DisconnectedOrCyclicHistory n m) /\ forall k, k ≡ₚ l -> ~ history ws k
  | ReachedUnreachable | OutOfFuel => False
  end.

Lemma derive_linked ws l s root :
  indexes ws l s -> typed l ->
  filter (fun e => ev_predecessor_event_id e = None) (values (by_id s)) = [root] -> extends None root ->
  derived ws l
    match for_each (values (by_id s)) (link_event (by_id s)) ∅ with
    | Err error => Returned (Err error)
    | Ok child_by_parent =>
        match walk (size (by_id s)) (by_id s) child_by_parent (ev_event_id root) with
        | Returned ordered =>
            if negb (length ordered =? size (by_id s))%nat
            then Returned (Err (DisconnectedOrCyclicHistory
                                  (Z.of_nat (length ordered)) (Z.of_nat (size (by_id s)))))
            else Returned (Ok (mk_ActivationChain ws ordered))
        | ReachedUnreachable => ReachedUnreachable
        | OutOfFuel => OutOfFuel
        end
    end.
Proof.
  intros Hs Ht Hroots Hroot. pose proof (values_perm ws l s Hs) as Hv.
  assert (values (by_id s) ⊆ l) as Hsub by (intros e; by rewrite Hv).
  destruct (for_each _ _ _) as [ch|error] eqn:Hlink.
  - apply (link_all_Ok ws l) in Hlink; [|done..].
    assert (links s l ch) as Hch by (destruct Hlink; split; setoid_rewrite <- Hv; done).
    assert (forall e, e ∈ filter (fun e => ev_predecessor_event_id e = None) (values (by_id s)) <->
              ev_predecessor_event_id e = None /\ e ∈ l) as Hmem
      by (intros e; by rewrite list_elem_of_filter, Hv).
    rewrite Hroots in Hmem. setoid_rewrite list_elem_of_singleton in Hmem.
    destruct (walk_complete ws l s Hs Ht ch Hch root) as (ordered & -> & Hperm & Hlin);
      [by apply Hmem|done|naive_solver|].
    rewrite (index_size ws l s Hs), Hperm, Nat.eqb_refl. simpl. split_and!; [done|done|].
    split; [|done]. rewrite Hperm. apply Hs.
  - split.
    + intros n m ->. apply for_each_Err in Hlink as (e & ch & He). by apply link_event_Err in He.
    + intros k Hk [_ Hlin].
      assert (returns (for_each (values (by_id s)) (link_event (by_id s)) ∅) (links s (values (by_id s)))) as Hr.
      { eapply link_all_returns; [done|done|done|rewrite Hv, <- Hk; by eapply linear_NoDup|].
        intros e i He Hi. rewrite Hv, <- Hk in He.
        destruct (linear_linkable ws l s k Hs Hk Hlin e i He Hi) as (p & ? & ? & Hu). exists p. split_and!; try done.
        intros e' He'. apply Hu. by rewrite Hk, <- Hv. }
      by rewrite Hlink in Hr.
Qed.

Lemma derive_spec ws l : typed l -> derived ws l (derive ws l).
Proof.
  intros Ht. unfold derive. destruct (for_each l _ _) as [s|error] eqn:Hix.
  2: { split.
    - intros n m ->. apply for_each_Err in Hix as (e & s & He). by apply index_event_Err in He.
    - intros k Hk [Hd _]. rewrite Hk in Hd. apply index_returns in Hd. by rewrite Hix in Hd. }
  apply index_Ok in Hix as Hs. case_bool_decide as Hz.
  { rewrite (index_size ws l s Hs) in Hz. destruct l; [|done]. simpl. split_and!; [done..|]. split; [apply Hs|done]. }
  assert (l <> []) as Hne by (intros ->; by rewrite (index_size ws [] s Hs) in Hz).
  assert (forall k r, k ≡ₚ l -> history ws k ->
     filter (fun e => ev_predecessor_event_id e = None) (values (by_id s)) = r ->
     exists root, r = [root] /\ extends None root) as Hroots.
  { intros k r Hk [_ Hlin] <-. by eapply linear_roots. }
  destruct (filter _ _) as [|root [|r2 rest]] eqn:Hf.
  - split; [done|]. intros k Hk Hh. by destruct (Hroots k [] Hk Hh eq_refl) as (? & ? & _).
  - destruct (_ || _)%bool eqn:Hbad.
    + split; [done|]. intros k Hk Hh. destruct (Hroots k [root] Hk Hh eq_refl) as (r & [= <-] & _ & He & Ho).
      unfold ordinal in Ho. rewrite bool_decide_eq_true_2, Ho in Hbad by done. done.
    + apply orb_false_iff in Hbad as [He Ho]. apply negb_false_iff in He, Ho.
      apply bool_decide_eq_true_1 in He. apply Z.eqb_eq in Ho.
      assert (root ∈ filter (fun e => ev_predecessor_event_id e = None) (values (by_id s))) as Hin
        by (rewrite Hf; left).
      apply list_elem_of_filter in Hin as [? _]. by apply derive_linked.
  - split; [done|]. intros k Hk Hh. by destruct (Hroots k (root :: r2 :: rest) Hk Hh eq_refl) as (? & ? & _).
Qed.

(** [derive] is a decision procedure for histories, whatever the order of the rows. *)
Lemma derive_exact ws l c :
  typed l ->
  derive ws l = Returned (Ok c) <->
  chain_workspace_id c = ws /\ chain_events c ≡ₚ l /\ history ws (chain_events c).
Proof.
  intros Ht. pose proof (derive_spec ws l Ht) as Hd. split.
  - intros Hc. by rewrite Hc in Hd.
  - intros (Hw & Hp & Hh). destruct (derive ws l) as [[c'|e]| |]; try done.
    + destruct Hd as (Hw' & Hp' & Hh'). do 2 f_equal. destruct c as [w k], c' as [w' k']; simpl in *. subst.
      f_equal. apply linear_unique; [apply Hh'|apply Hh|]. by rewrite Hp', Hp.
    + by destruct Hd as [_ Hd]; destruct (Hd _ Hp).
Qed.
