(* ===== verification/AdmissionModel.v ===== *)
(** The query admission gate of one active workspace, translated from src/src/fabric/admission.rs.

    Every operation takes the lock for its whole body, so it is a function on the locked state; the
    poisoning of the lock, which needs a panic inside such a body, does not occur. *)

From S2P Require Import Prelude.
From S2P Require Import CommandModel.
From S2P Require Import ActivationModel.
Local Open Scope Z_scope.

Record ActivationBarrier := mk_ActivationBarrier {
  ba_runtime_instance : Z;
  ba_barrier_id : Z;
  ba_expected_head : ExpectedHead;
  ba_authority_fence : WriterFence
}.

#[export] Instance ActivationBarrier_eq_dec : EqDecision ActivationBarrier.
Proof. solve_decision. Defined.

Inductive AdmissionPhase :=
| PhaseOpen
| PhaseDraining
| PhaseRecovering (durable_head : ExpectedHead)
| PhaseClosed (barrier : ActivationBarrier)
| PhaseSwapped (barrier : ActivationBarrier) (selected_event : ActivationEventId)
    (selected_epoch : EpochId).

Inductive RecoverySelectionPublication := PublishedClosed | AlreadyReopened.

(** The runtime with the state under its lock. *)
Record FabricAdmissionRuntime := mk_FabricAdmissionRuntime {
  gate_workspace_id : WorkspaceId;
  gate_instance : Z;
  gate_phase : AdmissionPhase;
  gate_generation : Z;
  gate_next_barrier_id : Z
}.

(** A sealed epoch: its identity and the table versions it was built from. *)
Record ProgrammaticFabricEpoch := mk_ProgrammaticFabricEpoch {
  epoch_identity : EpochId;
  epoch_table_versions : TableVersionSet
}.

Record FabricQueryLease := mk_FabricQueryLease {
  ql_epoch : ProgrammaticFabricEpoch;
  ql_generation : Z
}.

Inductive AdmissionError :=
| SelectedEpochUnavailable (epoch : EpochId)
| ResolvedEpochIdentityMismatch (selected resolved : EpochId)
| AdmissionClosed
| NoActiveEpoch
| AdmissionAlreadyClosed
| StalePredecessor (expected actual : ExpectedHead)
| ForeignBarrier
| StaleBarrier
| AdmissionNotClosed
| SelectionAlreadyPublished
| AdmissionWorkspaceMismatch
| ProcessCacheChangedWhileClosed
| MissingSelectedEvent
| SelectedEventPredecessorMismatch
| SelectedEventFenceMismatch
| SelectedCandidateMismatch (selected candidate : EpochId)
| SelectionNotPublished
| ReconciliationMismatch (selected : EpochId) (reconciled active : ExpectedHead)
| CannotAbortAfterSelection
| RecoveryEventIsNotHead
| RecoveryHeadMismatch (durable active : ExpectedHead)
| RecoveryPublishedSelectionMismatch
| RecoveryAdmissionUnexpectedlyOpen
| ShutdownTransitionInProgress
| RecoveryFenceNotAuthorized (execution active : WriterFence)
| SuccessorQueryAuthorityUnavailable (epoch : EpochId)
| SuccessorQueryAuthorityMismatch (epoch : EpochId)
| SuccessorQueryAuthorityInstallFailed (epoch : EpochId)
| StatePoisoned
| AdmissionInvariant (what : string).

Abbreviation admission := (stm FabricAdmissionRuntime AdmissionError).

(** [fresh_genesis]; [runtime_instance] is the number drawn from the process-wide counter. *)
Definition fresh_genesis (workspace_id : WorkspaceId) (runtime_instance : Z) : FabricAdmissionRuntime :=
  mk_FabricAdmissionRuntime workspace_id runtime_instance PhaseOpen 1 1.

Definition recover_unmaterialized_for_reconciliation (chain : ActivationChain) (runtime_instance : Z)
  : FabricAdmissionRuntime :=
  mk_FabricAdmissionRuntime (chain_workspace_id chain) runtime_instance
    (PhaseRecovering (chain_head chain)) 1 1.

Definition with_phase (g : FabricAdmissionRuntime) (p : AdmissionPhase) : FabricAdmissionRuntime :=
  mk_FabricAdmissionRuntime (gate_workspace_id g) (gate_instance g) p (gate_generation g)
    (gate_next_barrier_id g).
Definition set_phase (p : AdmissionPhase) : admission unit := st_modify (fun g => with_phase g p).

Definition advance_admission_generation : admission unit :=
  do! g <- st_get ;
  do! generation <- st_lift (ok_or (checked_add u64_max (gate_generation g) 1)
                               (AdmissionInvariant "admission generation exhausted")) ;
  st_put (mk_FabricAdmissionRuntime (gate_workspace_id g) (gate_instance g) (gate_phase g) generation
            (gate_next_barrier_id g)).

(** The barrier that [close_admission] and [next_recovery_barrier] draw. *)
Definition next_barrier (expected_head : ExpectedHead) (authority_fence : WriterFence)
  : admission ActivationBarrier :=
  do! g <- st_get ;
  let barrier := mk_ActivationBarrier (gate_instance g) (gate_next_barrier_id g) expected_head
                   authority_fence in
  do! next <- st_lift (ok_or (checked_add u64_max (gate_next_barrier_id g) 1)
                         (AdmissionInvariant "activation barrier sequence exhausted")) ;
  do! _ <- st_put (mk_FabricAdmissionRuntime (gate_workspace_id g) (gate_instance g) (gate_phase g)
                     (gate_generation g) next) ;
  st_ret barrier.

Definition recovery_fence_authorizes (execution active : WriterFence) : bool :=
  (bool_decide (active = execution)
   || (generation_get (generation execution) <? generation_get (generation active)))%bool.

Definition require_recovery_fence (execution active : WriterFence) : result unit AdmissionError :=
  if recovery_fence_authorizes execution active then Ok tt
  else Err (RecoveryFenceNotAuthorized execution active).

Definition require_closed_barrier (g : FabricAdmissionRuntime) (barrier : ActivationBarrier)
  : result unit AdmissionError :=
  if negb (ba_runtime_instance barrier =? gate_instance g) then Err ForeignBarrier
  else match gate_phase g with
  | PhaseClosed active => if bool_decide (active = barrier) then Ok tt else Err StaleBarrier
  | PhaseOpen | PhaseDraining | PhaseRecovering _ => Err AdmissionNotClosed
  | PhaseSwapped _ _ _ => Err SelectionAlreadyPublished
  end.

(** [chain.head_event().copied() == Some(event)]. *)
Definition is_head (chain : ActivationChain) (e : ActivationEvent) : bool :=
  bool_decide (head_event chain = Some e).

(** ** Queries and shutdown *)

Definition admit_selected (epoch : ProgrammaticFabricEpoch) : admission FabricQueryLease :=
  do! g <- st_get ;
  match gate_phase g with
  | PhaseOpen => st_ret (mk_FabricQueryLease epoch (gate_generation g))
  | _ => st_err AdmissionClosed
  end.

Definition close_for_shutdown : admission unit :=
  do! g <- st_get ;
  match gate_phase g with
  | PhaseOpen => set_phase PhaseDraining
  | PhaseDraining => st_ret tt
  | PhaseRecovering _ | PhaseClosed _ | PhaseSwapped _ _ _ => st_err ShutdownTransitionInProgress
  end.

(** ** Activation *)

Definition close_admission (expected_head : ExpectedHead) (execution_fence : WriterFence)
  : admission ActivationBarrier :=
  do! g <- st_get ;
  match gate_phase g with
  | PhaseOpen =>
      do! barrier <- next_barrier expected_head execution_fence ;
      do! _ <- set_phase (PhaseClosed barrier) ;
      st_ret barrier
  | _ => st_err AdmissionAlreadyClosed
  end.

Definition publish_selected_epoch (barrier : ActivationBarrier) (chain : ActivationChain)
    (candidate : ProgrammaticFabricEpoch) : admission unit :=
  do! g <- st_get ;
  do! _ <- st_lift (require_closed_barrier g barrier) ;
  if negb (bool_decide (chain_workspace_id chain = gate_workspace_id g))
  then st_err AdmissionWorkspaceMismatch
  else
    do! head <- st_lift (ok_or (head_event chain) MissingSelectedEvent) ;
    if negb (bool_decide (ev_predecessor_epoch head = ba_expected_head barrier))
    then st_err SelectedEventPredecessorMismatch
    else if negb (bool_decide (ev_execution_fence head = ba_authority_fence barrier))
    then st_err SelectedEventFenceMismatch
    else
      let selected_epoch := ep_epoch (ev_pins head) in
      if (negb (bool_decide (chain_head chain = EpochHead selected_epoch))
          || negb (bool_decide (epoch_identity candidate = selected_epoch)))%bool
      then st_err (SelectedCandidateMismatch selected_epoch (epoch_identity candidate))
      else set_phase (PhaseSwapped barrier (ev_event_id head) selected_epoch).

Definition reopen_after_reconciliation (barrier : ActivationBarrier) (reconciled_head : ExpectedHead)
  : admission unit :=
  do! g <- st_get ;
  do! selected <-
    match gate_phase g with
    | PhaseSwapped active _ selected_epoch =>
        if bool_decide (active = barrier) then st_ret selected_epoch else st_err StaleBarrier
    | PhaseOpen | PhaseDraining | PhaseRecovering _ | PhaseClosed _ => st_err SelectionNotPublished
    end ;
  if negb (bool_decide (reconciled_head = EpochHead selected))
  then st_err (ReconciliationMismatch selected reconciled_head reconciled_head)
  else
    do! _ <- advance_admission_generation ;
    set_phase PhaseOpen.

Definition finish_predecessor_handoff (barrier : ActivationBarrier) (selected : EpochId) : admission unit :=
  do! g <- st_get ;
  match gate_phase g with
  | PhaseSwapped active _ selected_epoch =>
      if (bool_decide (active = barrier) && bool_decide (selected_epoch = selected))%bool
      then set_phase PhaseDraining else st_err StaleBarrier
  | _ => st_err SelectionNotPublished
  end.

Definition abort_before_selection (barrier : ActivationBarrier) (durable_chain : ActivationChain)
  : admission unit :=
  do! g <- st_get ;
  do! _ <- st_lift (require_closed_barrier g barrier) ;
  if (negb (bool_decide (chain_workspace_id durable_chain = gate_workspace_id g))
      || negb (bool_decide (chain_head durable_chain = ba_expected_head barrier)))%bool
  then st_err CannotAbortAfterSelection
  else set_phase PhaseOpen.

(** ** Recovery *)

Definition install_reconciled_selected_head (e : ActivationEvent) (chain : ActivationChain)
    (candidate : ProgrammaticFabricEpoch) (active_recovery_fence : WriterFence) : admission unit :=
  do! g <- st_get ;
  do! _ <- st_lift (require_recovery_fence (ev_execution_fence e) active_recovery_fence) ;
  if negb (bool_decide (chain_workspace_id chain = gate_workspace_id g))
  then st_err AdmissionWorkspaceMismatch
  else if negb (is_head chain e) then st_err RecoveryEventIsNotHead
  else
    let selected_epoch := ep_epoch (ev_pins e) in
    if (negb (bool_decide (chain_head chain = EpochHead selected_epoch))
        || negb (bool_decide (epoch_identity candidate = selected_epoch)))%bool
    then st_err (SelectedCandidateMismatch selected_epoch (epoch_identity candidate))
    else
      match gate_phase g with
      | PhaseRecovering durable_head =>
          if negb (bool_decide (durable_head = EpochHead selected_epoch))
          then st_err (RecoveryHeadMismatch (EpochHead selected_epoch) durable_head)
          else
            do! _ <- advance_admission_generation ;
            set_phase PhaseOpen
      | _ => st_err RecoveryAdmissionUnexpectedlyOpen
      end.

Definition recover_selected_epoch (expected_head : ExpectedHead)
    (execution_fence active_recovery_fence : WriterFence) (e : ActivationEvent)
    (chain : ActivationChain) (allow_already_reopened : bool)
  : admission RecoverySelectionPublication :=
  do! g <- st_get ;
  do! _ <- st_lift (require_recovery_fence execution_fence active_recovery_fence) ;
  if negb (bool_decide (chain_workspace_id chain = gate_workspace_id g))
  then st_err AdmissionWorkspaceMismatch
  else if negb (is_head chain e) then st_err RecoveryEventIsNotHead
  else if negb (bool_decide (ev_predecessor_epoch e = expected_head))
  then st_err SelectedEventPredecessorMismatch
  else if negb (bool_decide (ev_execution_fence e = execution_fence))
  then st_err SelectedEventFenceMismatch
  else
    let selected_epoch := ep_epoch (ev_pins e) in
    if negb (bool_decide (chain_head chain = EpochHead selected_epoch))
    then st_err RecoveryEventIsNotHead
    else
      match gate_phase g with
      | PhaseRecovering durable_head =>
          if negb (bool_decide (durable_head = EpochHead selected_epoch))
          then st_err (RecoveryHeadMismatch (EpochHead selected_epoch) durable_head)
          else
            do! barrier <- next_barrier expected_head active_recovery_fence ;
            do! _ <- set_phase (PhaseSwapped barrier (ev_event_id e) selected_epoch) ;
            st_ret PublishedClosed
      | PhaseClosed barrier =>
          if (negb (bool_decide (ba_expected_head barrier = expected_head))
              || negb (bool_decide (ba_authority_fence barrier = execution_fence)))%bool
          then st_err StaleBarrier
          else
            do! recovery_barrier <- next_barrier expected_head active_recovery_fence ;
            do! _ <- set_phase (PhaseSwapped recovery_barrier (ev_event_id e) selected_epoch) ;
            st_ret PublishedClosed
      | PhaseSwapped barrier selected_event active_epoch =>
          if (negb (bool_decide (selected_event = ev_event_id e))
              || negb (bool_decide (active_epoch = selected_epoch))
              || negb (recovery_fence_authorizes (ba_authority_fence barrier) active_recovery_fence))%bool
          then st_err RecoveryPublishedSelectionMismatch
          else st_ret PublishedClosed
      | PhaseOpen =>
          if allow_already_reopened then st_ret AlreadyReopened
          else st_err RecoveryAdmissionUnexpectedlyOpen
      | PhaseDraining => st_err RecoveryAdmissionUnexpectedlyOpen
      end.

Definition reopen_recovered_selection (e : ActivationEvent) (chain : ActivationChain)
    (active_recovery_fence : WriterFence) : admission unit :=
  do! g <- st_get ;
  do! _ <- st_lift (require_recovery_fence (ev_execution_fence e) active_recovery_fence) ;
  if (negb (bool_decide (chain_workspace_id chain = gate_workspace_id g)) || negb (is_head chain e))%bool
  then st_err RecoveryEventIsNotHead
  else
    match gate_phase g with
    | PhaseSwapped barrier selected_event active_epoch =>
        if (bool_decide (selected_event = ev_event_id e)
            && bool_decide (active_epoch = ep_epoch (ev_pins e))
            && recovery_fence_authorizes (ba_authority_fence barrier) active_recovery_fence)%bool
        then
          do! _ <- advance_admission_generation ;
          set_phase PhaseOpen
        else st_err RecoveryPublishedSelectionMismatch
    | PhaseOpen => st_ret tt
    | PhaseDraining => st_err RecoveryAdmissionUnexpectedlyOpen
    | _ => st_err RecoveryPublishedSelectionMismatch
    end.

Definition finish_recovered_predecessor (e : ActivationEvent) (chain : ActivationChain)
    (active_recovery_fence : WriterFence) : admission unit :=
  do! g <- st_get ;
  do! _ <- st_lift (require_recovery_fence (ev_execution_fence e) active_recovery_fence) ;
  if (negb (bool_decide (chain_workspace_id chain = gate_workspace_id g)) || negb (is_head chain e))%bool
  then st_err RecoveryEventIsNotHead
  else
    match gate_phase g with
    | PhaseSwapped _ selected_event selected_epoch =>
        if (bool_decide (selected_event = ev_event_id e)
            && bool_decide (selected_epoch = ep_epoch (ev_pins e)))%bool
        then set_phase PhaseDraining else st_err RecoveryPublishedSelectionMismatch
    | PhaseOpen => set_phase PhaseDraining
    | _ => st_err RecoveryPublishedSelectionMismatch
    end.

Definition recover_proved_no_selection (expected_head : ExpectedHead)
    (execution_fence active_recovery_fence : WriterFence) (unchanged_chain : ActivationChain)
  : admission unit :=
  do! g <- st_get ;
  do! _ <- st_lift (require_recovery_fence execution_fence active_recovery_fence) ;
  if (negb (bool_decide (chain_workspace_id unchanged_chain = gate_workspace_id g))
      || negb (bool_decide (chain_head unchanged_chain = expected_head)))%bool
  then st_err CannotAbortAfterSelection
  else
    match gate_phase g with
    | PhaseRecovering durable_head =>
        if bool_decide (durable_head = expected_head)
        then
          do! _ <- advance_admission_generation ;
          set_phase PhaseOpen
        else st_err CannotAbortAfterSelection
    | PhaseClosed barrier =>
        if (bool_decide (ba_expected_head barrier = expected_head)
            && bool_decide (ba_authority_fence barrier = execution_fence))%bool
        then
          do! _ <- advance_admission_generation ;
          set_phase PhaseOpen
        else st_err CannotAbortAfterSelection
    | PhaseOpen => st_ret tt
    | PhaseDraining => st_err RecoveryAdmissionUnexpectedlyOpen
    | PhaseSwapped _ _ _ => st_err CannotAbortAfterSelection
    end.
