(* ===== verification/AdmissionTheory.v ===== *)
(** The admission gate: every operation is one of a few moves, each of which needs its evidence; and
    what follows for sequences of operations by any callers. *)

From S2P Require Import Prelude.
From S2P Require Import CommandModel.
From S2P Require Import ActivationModel.
From S2P Require Import AdmissionModel.
Local Open Scope Z_scope.
#[local] Arguments checked_add : simpl never.

(** ** Operations *)

Inductive GateOp :=
| AdmitSelected (epoch : ProgrammaticFabricEpoch)
| CloseForShutdown
| CloseAdmission (expected_head : ExpectedHead) (execution_fence : WriterFence)
| PublishSelectedEpoch (barrier : ActivationBarrier) (chain : ActivationChain)
    (candidate : ProgrammaticFabricEpoch)
| ReopenAfterReconciliation (barrier : ActivationBarrier) (reconciled_head : ExpectedHead)
| FinishPredecessorHandoff (barrier : ActivationBarrier) (selected : EpochId)
| AbortBeforeSelection (barrier : ActivationBarrier) (chain : ActivationChain)
| InstallReconciledSelectedHead (e : ActivationEvent) (chain : ActivationChain)
    (candidate : ProgrammaticFabricEpoch) (active : WriterFence)
| RecoverSelectedEpoch (expected_head : ExpectedHead) (execution active : WriterFence)
    (e : ActivationEvent) (chain : ActivationChain) (allow_already_reopened : bool)
| ReopenRecoveredSelection (e : ActivationEvent) (chain : ActivationChain) (active : WriterFence)
| FinishRecoveredPredecessor (e : ActivationEvent) (chain : ActivationChain) (active : WriterFence)
| RecoverProvedNoSelection (expected_head : ExpectedHead) (execution active : WriterFence)
    (chain : ActivationChain).

(** The gate after the operation. *)
Definition after (op : GateOp) (g : FabricAdmissionRuntime) : FabricAdmissionRuntime :=
  match op with
  | AdmitSelected epoch => (admit_selected epoch g).1
  | CloseForShutdown => (close_for_shutdown g).1
  | CloseAdmission h f => (close_admission h f g).1
  | PublishSelectedEpoch b chain candidate => (publish_selected_epoch b chain candidate g).1
  | ReopenAfterReconciliation b h => (reopen_after_reconciliation b h g).1
  | FinishPredecessorHandoff b selected => (finish_predecessor_handoff b selected g).1
  | AbortBeforeSelection b chain => (abort_before_selection b chain g).1
  | InstallReconciledSelectedHead e chain candidate f =>
      (install_reconciled_selected_head e chain candidate f g).1
  | RecoverSelectedEpoch h f active e chain again => (recover_selected_epoch h f active e chain again g).1
  | ReopenRecoveredSelection e chain f => (reopen_recovered_selection e chain f g).1
  | FinishRecoveredPredecessor e chain f => (finish_recovered_predecessor e chain f g).1
  | RecoverProvedNoSelection h f active chain => (recover_proved_no_selection h f active chain g).1
  end.

(** The durable history the caller presents. *)
Definition presents (op : GateOp) : option ActivationChain :=
  match op with
  | PublishSelectedEpoch _ chain _ | AbortBeforeSelection _ chain
  | InstallReconciledSelectedHead _ chain _ _ | RecoverSelectedEpoch _ _ _ _ chain _
  | ReopenRecoveredSelection _ chain _ | FinishRecoveredPredecessor _ chain _
  | RecoverProvedNoSelection _ _ _ chain => Some chain
  | AdmitSelected _ | CloseForShutdown | CloseAdmission _ _ | ReopenAfterReconciliation _ _
  | FinishPredecessorHandoff _ _ => None
  end.

(** ** Moves *)

(** The phase and the two counters afterwards. *)
Definition moved (g : FabricAdmissionRuntime) (p : AdmissionPhase) (generation next : Z)
  : FabricAdmissionRuntime :=
  mk_FabricAdmissionRuntime (gate_workspace_id g) (gate_instance g) p generation next.

Definition fresh_barrier (g : FabricAdmissionRuntime) (b : ActivationBarrier) : Prop :=
  ba_runtime_instance b = gate_instance g /\ ba_barrier_id b = gate_next_barrier_id g.

(** The history is this workspace's and its last event extends the closed predecessor under the
    closing fence. *)
Definition selects (g : FabricAdmissionRuntime) (b : ActivationBarrier) (chain : ActivationChain)
    (e : ActivationEvent) : Prop :=
  chain_workspace_id chain = gate_workspace_id g /\ head_event chain = Some e
  /\ ev_predecessor_epoch e = ba_expected_head b /\ ev_execution_fence e = ba_authority_fence b.

Definition unselected (g : FabricAdmissionRuntime) (h : ExpectedHead) (chain : ActivationChain) : Prop :=
  chain_workspace_id chain = gate_workspace_id g /\ chain_head chain = h.

Inductive move (g : FabricAdmissionRuntime) : option ActivationChain -> FabricAdmissionRuntime -> Prop :=
| mv_stay x : move g x g
| mv_close x b :
    gate_phase g = PhaseOpen -> fresh_barrier g b ->
    move g x (moved g (PhaseClosed b) (gate_generation g) (gate_next_barrier_id g + 1))
| mv_publish b chain e :
    gate_phase g = PhaseClosed b -> selects g b chain e ->
    move g (Some chain) (moved g (PhaseSwapped b (ev_event_id e) (ep_epoch (ev_pins e)))
                           (gate_generation g) (gate_next_barrier_id g))
| mv_republish b b' chain e :
    gate_phase g = PhaseClosed b -> selects g b chain e -> fresh_barrier g b' ->
    move g (Some chain) (moved g (PhaseSwapped b' (ev_event_id e) (ep_epoch (ev_pins e)))
                           (gate_generation g) (gate_next_barrier_id g + 1))
| mv_recover b chain e :
    gate_phase g = PhaseRecovering (EpochHead (ep_epoch (ev_pins e))) ->
    chain_workspace_id chain = gate_workspace_id g -> head_event chain = Some e -> fresh_barrier g b ->
    move g (Some chain) (moved g (PhaseSwapped b (ev_event_id e) (ep_epoch (ev_pins e)))
                           (gate_generation g) (gate_next_barrier_id g + 1))
| mv_reopen x b event epoch :
    gate_phase g = PhaseSwapped b event epoch ->
    move g x (moved g PhaseOpen (gate_generation g + 1) (gate_next_barrier_id g))
| mv_install h chain :
    gate_phase g = PhaseRecovering h -> unselected g h chain ->
    move g (Some chain) (moved g PhaseOpen (gate_generation g + 1) (gate_next_barrier_id g))
| mv_abort b chain n :
    gate_phase g = PhaseClosed b -> unselected g (ba_expected_head b) chain ->
    gate_generation g <= n ->
    move g (Some chain) (moved g PhaseOpen n (gate_next_barrier_id g))
| mv_drain x :
    gate_phase g = PhaseOpen \/ (exists b event epoch, gate_phase g = PhaseSwapped b event epoch) ->
    move g x (moved g PhaseDraining (gate_generation g) (gate_next_barrier_id g)).

Lemma moved_same g : moved g (gate_phase g) (gate_generation g) (gate_next_barrier_id g) = g.
Proof. by destruct g. Qed.

Lemma is_head_true chain e : is_head chain e = true <-> head_event chain = Some e.
Proof. apply bool_decide_eq_true. Qed.

(** Turns the checks that passed or failed into facts. *)
Ltac gate_facts :=
  repeat match goal with
  | H : (_ || _)%bool = false |- _ => apply orb_false_iff in H as [? ?]
  | H : (_ && _)%bool = true |- _ => apply andb_true_iff in H as [? ?]
  | H : negb _ = false |- _ => apply negb_false_iff in H
  | H : bool_decide _ = true |- _ => apply bool_decide_eq_true_1 in H
  | H : is_head _ _ = true |- _ => apply is_head_true in H
  end.

Lemma checked_add_one n m : checked_add u64_max n 1 = Some m -> m = n + 1.
Proof. intros H. by apply checked_add_Some in H as [-> _]. Qed.

(** Runs an operation: its branches, with what each one has found out. *)
Ltac gate_run :=
  unfold admit_selected, close_for_shutdown, close_admission, publish_selected_epoch,
    reopen_after_reconciliation, finish_predecessor_handoff, abort_before_selection,
    install_reconciled_selected_head, recover_selected_epoch, reopen_recovered_selection,
    finish_recovered_predecessor, recover_proved_no_selection, next_barrier, advance_admission_generation,
    set_phase, require_closed_barrier, require_recovery_fence, st_bind, st_get, st_lift, st_err, st_ret,
    st_modify, st_put; simpl;
  repeat (case_match; simplify_eq/=); gate_facts;
  repeat match goal with
  | H : ok_or _ _ = Ok _ |- _ => apply ok_or_Ok in H
  | H : checked_add _ _ _ = Some _ |- _ => apply checked_add_one in H
  end; simplify_eq/=.

Lemma op_moves op g : move g (presents op) (after op g).
Proof.
  destruct g as [ws inst ph gen nxt]. destruct op; simpl; gate_run; try apply mv_stay.
  all: match goal with |- move ?g ?x ?g' => change g' with (moved g (gate_phase g') (gate_generation g')
         (gate_next_barrier_id g')) end; simpl.
  all: first
    [ by apply mv_drain; eauto | by eapply mv_close | by eapply mv_publish; [|split_and!]
    | by eapply mv_republish; [|split_and!|] | by eapply mv_recover | by eapply mv_reopen
    | by eapply mv_install; [|split] | by eapply mv_abort; [|split|simpl; lia] ].
Qed.

(** ** What an answer says *)

Section answers.
Context (g : FabricAdmissionRuntime).

(** The move of an operation that succeeded; a refusal changes nothing. *)
Lemma close_admission_inv h f :
  match close_admission h f g with
  | (g', Ok b) =>
      gate_phase g = PhaseOpen
      /\ b = mk_ActivationBarrier (gate_instance g) (gate_next_barrier_id g) h f
      /\ g' = moved g (PhaseClosed b) (gate_generation g) (gate_next_barrier_id g + 1)
  | (g', Err _) => g' = g
  end.
Proof. destruct g as [ws inst ph gen nxt]. by gate_run. Qed.

Lemma publish_selected_epoch_inv b chain candidate :
  match publish_selected_epoch b chain candidate g with
  | (g', Ok _) =>
      gate_phase g = PhaseClosed b
      /\ exists e, selects g b chain e
           /\ g' = moved g (PhaseSwapped b (ev_event_id e) (ep_epoch (ev_pins e))) (gate_generation g)
                     (gate_next_barrier_id g)
  | (g', Err _) => g' = g
  end.
Proof.
  destruct g as [ws inst ph gen nxt]. gate_run; try done. split; [done|]. by eexists.
Qed.

Lemma reopen_after_reconciliation_inv b h :
  match reopen_after_reconciliation b h g with
  | (g', Ok _) =>
      (exists event epoch, gate_phase g = PhaseSwapped b event epoch /\ h = EpochHead epoch)
      /\ g' = moved g PhaseOpen (gate_generation g + 1) (gate_next_barrier_id g)
  | (g', Err _) => g' = g
  end.
Proof. destruct g as [ws inst ph gen nxt]. gate_run; try done. split; [|done]. by eexists _, _. Qed.

Lemma finish_predecessor_handoff_inv b selected :
  match finish_predecessor_handoff b selected g with
  | (g', Ok _) => exists event epoch, gate_phase g = PhaseSwapped b event epoch /\ gate_phase g' = PhaseDraining
  | (g', Err _) => g' = g
  end.
Proof. destruct g as [ws inst ph gen nxt]. gate_run; try done. by eexists _, _. Qed.

Lemma abort_before_selection_inv b chain :
  match abort_before_selection b chain g with
  | (g', Ok _) =>
      gate_phase g = PhaseClosed b /\ g' = moved g PhaseOpen (gate_generation g) (gate_next_barrier_id g)
  | (g', Err _) => g' = g
  end.
Proof. destruct g as [ws inst ph gen nxt]. by gate_run. Qed.

Lemma recover_selected_epoch_inv h f active e chain again :
  match recover_selected_epoch h f active e chain again g with
  | (g', Ok PublishedClosed) =>
      exists b n, g' = moved g (PhaseSwapped b (ev_event_id e) (ep_epoch (ev_pins e))) (gate_generation g) n
                  /\ recovery_fence_authorizes (ba_authority_fence b) active = true
  | (g', Ok AlreadyReopened) => again = true /\ g' = g /\ gate_phase g = PhaseOpen
  | (g', Err _) => g' = g
  end.
Proof.
  destruct g as [ws inst ph gen nxt]. gate_run; try done.
  all: eexists _, _; (split; [done|]); simpl; try done;
    unfold recovery_fence_authorizes; by rewrite bool_decide_eq_true_2.
Qed.

Lemma reopen_recovered_selection_inv e chain active :
  match reopen_recovered_selection e chain active g with
  | (g', Ok _) => gate_phase g' = PhaseOpen /\ gate_workspace_id g' = gate_workspace_id g
  | (g', Err _) => g' = g
  end.
Proof. destruct g as [ws inst ph gen nxt]. by gate_run. Qed.

Lemma recover_proved_no_selection_inv h f active chain :
  match recover_proved_no_selection h f active chain g with
  | (g', Ok _) => gate_phase g' = PhaseOpen /\ gate_workspace_id g' = gate_workspace_id g
  | (g', Err _) => g' = g
  end.
Proof. destruct g as [ws inst ph gen nxt]. by gate_run. Qed.

(** ** When recovery goes through *)

Context (h : ExpectedHead) (f active : WriterFence) (e : ActivationEvent) (chain : ActivationChain).
Context (Hauthorized : recovery_fence_authorizes f active = true).
Context (Hchain : chain_workspace_id chain = gate_workspace_id g).
Context (Hgeneration : gate_generation g < u64_max) (Hbarriers : gate_next_barrier_id g < u64_max).

(** The posture from which the selection of [e] can be taken up. *)
Definition resumable (again : bool) : Prop :=
  match gate_phase g with
  | PhaseOpen => again = true
  | PhaseDraining => False
  | PhaseRecovering durable_head => durable_head = EpochHead (ep_epoch (ev_pins e))
  | PhaseClosed b => ba_expected_head b = h /\ ba_authority_fence b = f
  | PhaseSwapped b event epoch =>
      event = ev_event_id e /\ epoch = ep_epoch (ev_pins e)
      /\ recovery_fence_authorizes (ba_authority_fence b) active = true
  end.

Lemma recovery_fence_refl x : recovery_fence_authorizes x x = true.
Proof. unfold recovery_fence_authorizes. by rewrite bool_decide_eq_true_2. Qed.

Lemma recover_selected_epoch_Ok again :
  head_event chain = Some e -> ev_predecessor_epoch e = h -> ev_execution_fence e = f -> resumable again ->
  match recover_selected_epoch h f active e chain again g with
  | (g', Ok PublishedClosed) =>
      exists b, gate_phase g' = PhaseSwapped b (ev_event_id e) (ep_epoch (ev_pins e))
                /\ recovery_fence_authorizes (ba_authority_fence b) active = true
                /\ gate_generation g' = gate_generation g /\ gate_workspace_id g' = gate_workspace_id g
  | (g', Ok AlreadyReopened) => g' = g
  | (_, Err _) => False
  end.
Proof.
  intros He Hp Hf Hres.
  assert (chain_head chain = EpochHead (ep_epoch (ev_pins e))) as Hh by (unfold chain_head; by rewrite He).
  assert (is_head chain e = true) as Hih by (by apply is_head_true).
  unfold resumable in Hres. destruct g as [ws inst ph gen nxt]. simpl in *.
  unfold recover_selected_epoch, next_barrier, set_phase, require_recovery_fence, st_bind, st_get, st_lift, st_err, st_ret,
    st_modify, st_put. simpl.
  rewrite Hauthorized, Hih, !bool_decide_eq_true_2 by done. simpl.
  assert (checked_add u64_max nxt 1 = Some (nxt + 1)) as Hadd by (apply checked_add_Some; lia).
  destruct ph as [| |durable|b|b event epoch]; simpl.
  - by rewrite Hres.
  - done.
  - rewrite bool_decide_eq_true_2 by done. simpl. rewrite Hadd. simpl. eexists. split_and!; [done|apply recovery_fence_refl|done..].
  - destruct Hres as [Hb1 Hb2]. rewrite !bool_decide_eq_true_2 by done. simpl. rewrite Hadd. simpl.
    eexists. split_and!; [done|apply recovery_fence_refl|done..].
  - destruct Hres as (-> & -> & Hb). rewrite Hb, !bool_decide_eq_true_2 by done. simpl. by exists b.
Qed.
End answers.

Lemma reopen_recovered_selection_Ok g active e chain b :
  recovery_fence_authorizes (ev_execution_fence e) active = true ->
  chain_workspace_id chain = gate_workspace_id g -> gate_generation g < u64_max ->
  head_event chain = Some e ->
  gate_phase g = PhaseSwapped b (ev_event_id e) (ep_epoch (ev_pins e)) ->
  recovery_fence_authorizes (ba_authority_fence b) active = true ->
  (reopen_recovered_selection e chain active g).2 = Ok tt.
Proof.
  intros Ha Hw Hg He Hp Hb. apply is_head_true in He. destruct g as [ws inst ph gen nxt]. simpl in *. subst ph.
  unfold reopen_recovered_selection, advance_admission_generation, set_phase, require_recovery_fence, st_bind, st_get,
    st_lift, st_err, st_ret, st_modify, st_put. simpl.
  rewrite Ha, He, Hb, !bool_decide_eq_true_2 by done. simpl.
  by rewrite (proj2 (checked_add_Some u64_max gen 1 (gen + 1))) by lia.
Qed.

Lemma recover_proved_no_selection_Ok g h f active chain :
  recovery_fence_authorizes f active = true -> chain_workspace_id chain = gate_workspace_id g ->
  gate_generation g < u64_max -> chain_head chain = h ->
  match gate_phase g with
  | PhaseOpen => True
  | PhaseRecovering durable_head => durable_head = h
  | PhaseClosed b => ba_expected_head b = h /\ ba_authority_fence b = f
  | PhaseDraining | PhaseSwapped _ _ _ => False
  end ->
  (recover_proved_no_selection h f active chain g).2 = Ok tt.
Proof.
  intros Ha Hw Hg Hh Hp. destruct g as [ws inst ph gen nxt]. simpl in *.
  unfold recover_proved_no_selection, advance_admission_generation, set_phase, require_recovery_fence, st_bind, st_get,
    st_lift, st_err, st_ret, st_modify, st_put. simpl.
  rewrite Ha, !bool_decide_eq_true_2 by done. simpl.
  assert (checked_add u64_max gen 1 = Some (gen + 1)) as Hadd by (apply checked_add_Some; lia).
  destruct ph as [| |durable|b|b event epoch]; simpl; try done.
  - rewrite bool_decide_eq_true_2 by done. simpl. by rewrite Hadd.
  - destruct Hp as [Hb1 Hb2]. rewrite !bool_decide_eq_true_2 by done. simpl. by rewrite Hadd.
Qed.

(** ** Sequences of operations *)

Definition serve (ops : list GateOp) (g : FabricAdmissionRuntime) : FabricAdmissionRuntime :=
  foldl (fun g op => after op g) g ops.

(** The rule of induction over a sequence. *)
Lemma serve_inv (I : FabricAdmissionRuntime -> Prop) ops g :
  I g -> (forall g x g', I g -> move g x g' -> I g') -> I (serve ops g).
Proof.
  intros Hg Hstep. revert g Hg. induction ops as [|op ops IH]; intros g Hg; [done|].
  apply IH. eapply Hstep; [done|apply op_moves].
Qed.

Definition held (g : FabricAdmissionRuntime) : option ActivationBarrier :=
  match gate_phase g with
  | PhaseClosed b | PhaseSwapped b _ _ => Some b
  | PhaseOpen | PhaseDraining | PhaseRecovering _ => None
  end.

(** A barrier this gate has drawn and no longer holds. *)
Definition spent (g : FabricAdmissionRuntime) (b : ActivationBarrier) : Prop :=
  ba_barrier_id b < gate_next_barrier_id g /\ held g <> Some b.

(** A selection waits to be served, or a restart to be reconciled. *)
Definition awaiting (g : FabricAdmissionRuntime) : Prop :=
  match gate_phase g with
  | PhaseSwapped _ _ _ | PhaseRecovering _ => True
  | PhaseOpen | PhaseDraining | PhaseClosed _ => False
  end.

Lemma serve_generation ops g : gate_generation g <= gate_generation (serve ops g).
Proof.
  apply (serve_inv (fun g' => gate_generation g <= gate_generation g')); [lia|].
  intros g1 x g2 Hg Hm. destruct Hm; simpl; lia.
Qed.

Lemma serve_draining ops g : gate_phase g = PhaseDraining -> gate_phase (serve ops g) = PhaseDraining.
Proof.
  intros Hg. apply (serve_inv (fun g => gate_phase g = PhaseDraining)); [done|].
  intros g1 x g2 Hd Hm. destruct Hm; simpl; congruence || naive_solver congruence.
Qed.

Lemma serve_awaiting ops g :
  awaiting g -> gate_phase (serve ops g) = PhaseOpen -> gate_generation g < gate_generation (serve ops g).
Proof.
  intros Ha. enough (awaiting (serve ops g) \/ gate_phase (serve ops g) = PhaseDraining
                     \/ gate_generation g < gate_generation (serve ops g)) as H.
  { intros Ho. unfold awaiting in H. rewrite Ho in H. naive_solver. }
  pose (I g' := (awaiting g' /\ gate_generation g <= gate_generation g') \/ gate_phase g' = PhaseDraining
                \/ gate_generation g < gate_generation g').
  enough (I (serve ops g)) as [[? _]|?]; [by left|by right|].
  apply serve_inv; [left; split; [done|lia]|]. clear ops. intros g1 x g2 [[H1 H2]|[H1|H1]] Hm.
  - unfold I, awaiting in *. destruct Hm; simpl; repeat case_match; simplify_eq/=; auto with lia.
  - right; left. destruct Hm; simpl; congruence || naive_solver congruence.
  - right; right. destruct Hm; simpl; lia.
Qed.

Lemma serve_spent ops g b : spent g b -> spent (serve ops g) b.
Proof.
  intros Hs. apply (serve_inv (fun g => spent g b)); [done|]. clear g ops Hs.
  intros g1 x g2 [Hid Hh] Hm. unfold spent, held, fresh_barrier in *.
  destruct Hm as [|? b0 Hp [_ Hn]|b0 ? ? Hp|b0 b1 ? ? Hp _ [_ Hn]|b0 ? ? Hp _ _ [_ Hn]| | | |]; simpl;
    rewrite ?Hp in Hh; split; try done; try lia; intros [= ->]; lia || done.
Qed.

(** The barrier an operation shows. *)
Definition shows (op : GateOp) : option ActivationBarrier :=
  match op with
  | PublishSelectedEpoch b _ _ | ReopenAfterReconciliation b _ | FinishPredecessorHandoff b _
  | AbortBeforeSelection b _ => Some b
  | AdmitSelected _ | CloseForShutdown | CloseAdmission _ _ | InstallReconciledSelectedHead _ _ _ _
  | RecoverSelectedEpoch _ _ _ _ _ _ | ReopenRecoveredSelection _ _ _ | FinishRecoveredPredecessor _ _ _
  | RecoverProvedNoSelection _ _ _ _ => None
  end.

(** Only the barrier the gate holds moves it. *)
Lemma shown_held op g b : shows op = Some b -> after op g = g \/ held g = Some b.
Proof.
  intros Hb. unfold held. destruct op; try discriminate Hb; injection Hb as ->; unfold after.
  - pose proof (publish_selected_epoch_inv g b chain candidate) as Hi.
    destruct (publish_selected_epoch _ _ _ _) as [g' [u|]]; [destruct Hi as [-> _]; by right|by left].
  - pose proof (reopen_after_reconciliation_inv g b reconciled_head) as Hi.
    destruct (reopen_after_reconciliation _ _ _) as [g' [u|]]; [destruct Hi as [(? & ? & -> & _) _]; by right|by left].
  - pose proof (finish_predecessor_handoff_inv g b selected) as Hi.
    destruct (finish_predecessor_handoff _ _ _) as [g' [u|]]; [destruct Hi as (? & ? & -> & _); by right|by left].
  - pose proof (abort_before_selection_inv g b chain) as Hi.
    destruct (abort_before_selection _ _ _) as [g' [u|]]; [destruct Hi as [-> _]; by right|by left].
Qed.
