(* ===== verification/TransactionModel.v ===== *)
(** The activation transaction and its recovery, translated from
    src/src/fabric/activation_transaction.rs: one sealed epoch becomes the current one through proof,
    admission closure, revalidation, one durable append with readback, publication, cache
    reconciliation, reopening and acknowledgement; an interrupted transaction converges from what a
    marker read says.

    The ports are classes over a state [W] of whatever is behind them; a call is a function on that
    state. An early [return] is the error of the sequence it leaves. *)

From S2P Require Import Prelude.
From S2P Require Import Encoding.
From S2P Require Import CommandModel.
From S2P Require Import EffectContract.
From S2P Require Import ActivationModel.
From S2P Require Import AdmissionModel.
Local Open Scope Z_scope.

(** ** What the ports exchange *)

Inductive CandidateProofOutcome :=
| CandidateProved (proof_receipt : ProofReceiptRef)
| CandidateFailed (diagnostic : DiagnosticRef)
| CandidateUnknown (diagnostic : DiagnosticRef)
| CandidateCancelled (diagnostic : DiagnosticRef).

Record CandidateProofRequest := mk_CandidateProofRequest {
  pr_workspace_id : WorkspaceId;
  pr_operation_id : OperationId;
  pr_expected_head : ExpectedHead;
  pr_execution_fence : WriterFence;
  pr_pins : FabricEpochPins
}.

Record ActivationAuthoritySnapshot := mk_ActivationAuthoritySnapshot {
  sn_chain : ActivationChain;
  sn_active_fence : WriterFence
}.

Inductive AuthorityRevalidationOutcome :=
| AuthorityValid (snapshot : ActivationAuthoritySnapshot)
| AuthorityIsStale (snapshot : ActivationAuthoritySnapshot)
| AuthorityIsUnknown (diagnostic : DiagnosticRef)
| AuthorityCancelled (diagnostic : DiagnosticRef).

Record ActivationAuthorityRequest := mk_ActivationAuthorityRequest {
  au_workspace_id : WorkspaceId;
  au_operation_id : OperationId;
  au_expected_head : ExpectedHead;
  au_execution_fence : WriterFence
}.

Record ActivationAppendContract := mk_ActivationAppendContract {
  co_attempt : ActivationAttempt;
  co_command : FabricCommand;
  co_execution_fence : WriterFence;
  co_event_id : ActivationEventId;
  co_predecessor_event_id : option ActivationEventId;
  co_ordinal : ActivationOrdinal;
  co_pins : FabricEpochPins;
  co_table_versions : TableVersionSet;
  co_compatibility : CompatibilityClassRef;
  co_retention : RetentionPolicyRef;
  co_operation_selection : OperationSelectionRef;
  co_transaction : TransactionRef;
  co_control_relation : ActivationControlRelationPin
}.

(** [SelectedEpochRecord] of src/src/fabric/production_kernel.rs, as far as it is read here. *)
Record SelectedEpochRecord := mk_SelectedEpochRecord {
  se_event : ActivationEvent;
  se_table_versions : TableVersionSet
}.

Inductive ActivationNotCommittedReason := Rejected | CancelledBeforeCommit | PredecessorConflict.

Inductive ActivationAppendUnknownReason :=
| CommitOutcomeUnknown | ReadbackUnavailable | CancelledDuringCommit.

Inductive ActivationAppendOutcome :=
| AppendCommitted (selection : SelectedEpochRecord) (chain_after_readback : ActivationChain)
| AppendNotCommitted (unchanged_chain : ActivationChain) (reason : ActivationNotCommittedReason)
| AppendUnknown (reason : ActivationAppendUnknownReason) (diagnostic : DiagnosticRef).

Record ActivationCacheReceipt := mk_ActivationCacheReceipt {
  ca_workspace_id : WorkspaceId;
  ca_operation_id : OperationId;
  ca_event_id : ActivationEventId;
  ca_selected_epoch : EpochId;
  ca_active_fence : WriterFence;
  ca_transaction : TransactionRef
}.

Inductive ActivationCacheOutcome :=
| CacheReconciled (receipt : ActivationCacheReceipt)
| CacheIsUnknown (diagnostic : DiagnosticRef)
| CacheIsCancelled (diagnostic : DiagnosticRef).

Record ActivationAcknowledgementReceipt := mk_ActivationAcknowledgementReceipt {
  ak_workspace_id : WorkspaceId;
  ak_operation_id : OperationId;
  ak_event_id : ActivationEventId;
  ak_selected_epoch : EpochId;
  ak_active_fence : WriterFence;
  ak_transaction : TransactionRef;
  ak_operation_selection : OperationSelectionRef
}.

Inductive ActivationAcknowledgementOutcome :=
| Acknowledged (receipt : ActivationAcknowledgementReceipt)
| AcknowledgementIsUnknown (diagnostic : DiagnosticRef)
| AcknowledgementIsCancelled (diagnostic : DiagnosticRef).

Record ActivationOperationMarkerRequest := mk_ActivationOperationMarkerRequest {
  mr_workspace_id : WorkspaceId;
  mr_operation_id : OperationId;
  mr_event_id : ActivationEventId;
  mr_expected_head : ExpectedHead;
  mr_execution_fence : WriterFence;
  mr_active_recovery_fence : WriterFence;
  mr_transaction : TransactionRef;
  mr_operation_selection : OperationSelectionRef;
  mr_control_relation : ActivationControlRelationPin
}.

(** [ActivationAcknowledgementMarker]: [None] is [Absent]. *)
Inductive ActivationOperationMarkerOutcome :=
| MarkerSelected (selection : SelectedEpochRecord) (chain_after_readback : ActivationChain)
    (acknowledgement : option ActivationAcknowledgementReceipt) (evidence : ReconciliationEvidenceRef)
| MarkerProvedNotSelected (unchanged_chain : ActivationChain) (evidence : ReconciliationEvidenceRef)
| MarkerUnknown (diagnostic : DiagnosticRef).

#[export] Instance ActivationCacheReceipt_eq_dec : EqDecision ActivationCacheReceipt.
Proof. solve_decision. Defined.

(** ** The ports *)

Class ActivationCandidateProofPort (W : Type) :=
  prove_candidate : CandidateProofRequest -> W -> W * CandidateProofOutcome.

Class ActivationAuthorityPort (W : Type) :=
  revalidate : ActivationAuthorityRequest -> W -> W * AuthorityRevalidationOutcome.

Class ActivationAdmissionPort (W B : Type) := {
  port_close_admission : ExpectedHead -> WriterFence -> W -> W * result B AdmissionError;
  port_publish : B -> SelectedEpochRecord -> ActivationChain -> ProgrammaticFabricEpoch -> W ->
    W * result unit AdmissionError;
  port_reopen : B -> ExpectedHead -> W -> W * result unit AdmissionError;
  port_abort : B -> ActivationChain -> W -> W * result unit AdmissionError
}.

Class ActivationEventPort (W : Type) :=
  append_and_readback : ActivationAppendContract -> W -> W * ActivationAppendOutcome.

Class ActivationCachePort (W : Type) :=
  reconcile_selected : ActivationEvent -> ActivationChain -> WriterFence -> W -> W * ActivationCacheOutcome.

Class ActivationAcknowledgementPort (W : Type) :=
  acknowledge : ActivationEvent -> WriterFence -> W -> W * ActivationAcknowledgementOutcome.

Class ActivationOperationMarkerPort (W : Type) :=
  read_operation_marker : ActivationOperationMarkerRequest -> W -> W * ActivationOperationMarkerOutcome.

Class ActivationRecoveryAdmissionPort (W : Type) := {
  port_recover_selected : ExpectedHead -> WriterFence -> WriterFence -> SelectedEpochRecord ->
    ActivationChain -> bool -> W -> W * result RecoverySelectionPublication AdmissionError;
  port_reopen_recovered : ActivationEvent -> ActivationChain -> WriterFence -> W ->
    W * result unit AdmissionError;
  port_recover_none : ExpectedHead -> WriterFence -> WriterFence -> ActivationChain -> W ->
    W * result unit AdmissionError
}.

(** ** Requests *)

Record ActivationTransactionRequest := mk_ActivationTransactionRequest {
  tr_attempt : ActivationAttempt;
  tr_command : FabricCommand;
  tr_execution_fence : WriterFence;
  tr_candidate : ProgrammaticFabricEpoch;
  tr_pins : FabricEpochPins;
  tr_event_id : ActivationEventId;
  tr_compatibility : CompatibilityClassRef;
  tr_retention : RetentionPolicyRef;
  tr_operation_selection : OperationSelectionRef;
  tr_transaction : TransactionRef;
  tr_control_relation : ActivationControlRelationPin
}.

Record ActivationRecoveryRequest := mk_ActivationRecoveryRequest {
  rr_attempt : ActivationAttempt;
  rr_command : FabricCommand;
  rr_execution_fence : WriterFence;
  rr_pins : FabricEpochPins;
  rr_event_id : ActivationEventId;
  rr_compatibility : CompatibilityClassRef;
  rr_retention : RetentionPolicyRef;
  rr_operation_selection : OperationSelectionRef;
  rr_transaction : TransactionRef;
  rr_control_relation : ActivationControlRelationPin
}.

Inductive ActivationTransactionRequestError :=
| RequestDoesNotSelectEpoch
| CandidateIdentityMismatch
| CandidateTableVersionSetMismatch
| RequestProofReceiptMismatch
| RequestPinMismatch.

(** The pins are compared field by field, as [command_pins_match] does. *)
Definition validate_request_contract (attempt : ActivationAttempt) (p : FabricEpochPins)
  : result (FabricCommand * WriterFence * EpochId) ActivationTransactionRequestError :=
  let c := attempt_command attempt in
  let? selected :=
    match payload c with
    | ActivateEpoch candidate_epoch proof_receipt => Ok (candidate_epoch, Some proof_receipt)
    | RollbackEpoch target_epoch _ => Ok (target_epoch, None)
    | _ => Err RequestDoesNotSelectEpoch
    end in
  let '(selected_epoch, activation_proof) := selected in
  if negb (bool_decide (selected_epoch = ep_epoch p)) then Err CandidateIdentityMismatch
  else if match activation_proof with
          | Some proof => negb (bool_decide (proof = ep_proof_receipt p))
          | None => false
          end
  then Err RequestProofReceiptMismatch
  else if negb (command_pins_match p c) then Err RequestPinMismatch
  else Ok (c, attempt_fence attempt, selected_epoch).

(** [ActivationTransactionRequest::try_new]. *)
Definition transaction_request (attempt : ActivationAttempt) (candidate : ProgrammaticFabricEpoch)
    (p : FabricEpochPins) (event_id : ActivationEventId) (compatibility : CompatibilityClassRef)
    (retention : RetentionPolicyRef) (operation_selection : OperationSelectionRef)
    (transaction : TransactionRef) (control_relation : ActivationControlRelationPin)
  : result ActivationTransactionRequest ActivationTransactionRequestError :=
  let? validated := validate_request_contract attempt p in
  let '(c, execution_fence, selected_epoch) := validated in
  if (negb (bool_decide (selected_epoch = ep_epoch p))
      || negb (bool_decide (selected_epoch = epoch_identity candidate)))%bool
  then Err CandidateIdentityMismatch
  else if negb (bool_decide (ep_table_versions p = tv_reference (epoch_table_versions candidate)))
  then Err CandidateTableVersionSetMismatch
  else Ok (mk_ActivationTransactionRequest attempt c execution_fence candidate p event_id compatibility
             retention operation_selection transaction control_relation).

Definition recovery_request (r : ActivationTransactionRequest) : ActivationRecoveryRequest :=
  mk_ActivationRecoveryRequest (tr_attempt r) (tr_command r) (tr_execution_fence r) (tr_pins r)
    (tr_event_id r) (tr_compatibility r) (tr_retention r) (tr_operation_selection r)
    (tr_transaction r) (tr_control_relation r).

(** [ActivationRecoveryRequest::try_new]. *)
Definition recovery_request_from (attempt : ActivationAttempt) (p : FabricEpochPins)
    (event_id : ActivationEventId) (compatibility : CompatibilityClassRef)
    (retention : RetentionPolicyRef) (operation_selection : OperationSelectionRef)
    (transaction : TransactionRef) (control_relation : ActivationControlRelationPin)
  : result ActivationRecoveryRequest ActivationTransactionRequestError :=
  let? validated := validate_request_contract attempt p in
  let '(c, execution_fence, _) := validated in
  Ok (mk_ActivationRecoveryRequest attempt c execution_fence p event_id compatibility retention
        operation_selection transaction control_relation).

(** What both requests show. *)
Class ActivationRequestView (R : Type) := {
  view_command : R -> FabricCommand;
  view_execution_fence : R -> WriterFence;
  view_pins : R -> FabricEpochPins;
  view_event_id : R -> ActivationEventId;
  view_operation_selection : R -> OperationSelectionRef;
  view_transaction : R -> TransactionRef;
  view_control_relation : R -> ActivationControlRelationPin
}.

#[export] Instance transaction_request_view : ActivationRequestView ActivationTransactionRequest :=
  {| view_command := tr_command; view_execution_fence := tr_execution_fence; view_pins := tr_pins;
     view_event_id := tr_event_id; view_operation_selection := tr_operation_selection;
     view_transaction := tr_transaction; view_control_relation := tr_control_relation |}.
#[export] Instance recovery_request_view : ActivationRequestView ActivationRecoveryRequest :=
  {| view_command := rr_command; view_execution_fence := rr_execution_fence; view_pins := rr_pins;
     view_event_id := rr_event_id; view_operation_selection := rr_operation_selection;
     view_transaction := rr_transaction; view_control_relation := rr_control_relation |}.

(** ** Outcomes *)

Inductive ActivationTransactionStage :=
| CandidateProof | AdmissionClosure | AuthorityRevalidation | DurableAppendReadback | EpochSwap
| CacheReconciliation | AdmissionReopen | Acknowledgement.

Inductive DurableSelectionKnowledge :=
| NotAttempted
| SelectionUnknown
| ReadBack (event_id : ActivationEventId).

Inductive ActivationAdmissionPosture := NeverClosed | PostureClosed | PostureSwapped | PostureReopened.

Inductive ActivationNotSelectedReason :=
| ProofFailed (diagnostic : DiagnosticRef)
| ProofUnknown (diagnostic : DiagnosticRef)
| CancelledBeforeClosure (diagnostic : DiagnosticRef)
| NotSelectedProofMismatch
| AdmissionRejected (error : AdmissionError)
| AppendProvedNotCommitted (reason : ActivationNotCommittedReason)
| OperationMarkerProvedNotSelected (evidence : ReconciliationEvidenceRef).

Inductive ActivationReadbackViolation :=
| EventContract (error : ActivationError)
| EventDiffersFromContract
| TableVersionSetMismatch
| ChainWorkspaceMismatch
| EventIsNotUniqueHead
| ChainHeadMismatch
| UnchangedChainMismatch
| CacheReceiptMismatch
| AcknowledgementReceiptMismatch
| AuthorityMismatch
| RecoveryTicketMismatch
| OperationMarkerMismatch
| AcknowledgementMarkerMismatch
| RecoveryAttemptMismatch
| RecoveryFenceUnauthorized.

Inductive ActivationReconciliationReason :=
| AuthorityStale
| AuthorityUnknown (diagnostic : DiagnosticRef)
| CancelledAfterClosure (diagnostic : DiagnosticRef)
| AppendIsUnknown (reason : ActivationAppendUnknownReason) (diagnostic : DiagnosticRef)
| ReadbackViolation (violation : ActivationReadbackViolation)
| AdmissionFailure (error : AdmissionError)
| CacheUnknown (diagnostic : DiagnosticRef)
| CacheCancelled (diagnostic : DiagnosticRef)
| AcknowledgementUnknown (diagnostic : DiagnosticRef)
| AcknowledgementCancelled (diagnostic : DiagnosticRef)
| OperationMarkerUnknown (diagnostic : DiagnosticRef).

Record ActivationReconciliationTicket := mk_ActivationReconciliationTicket {
  ti_stage : ActivationTransactionStage;
  ti_reason : ActivationReconciliationReason;
  ti_workspace_id : WorkspaceId;
  ti_operation_id : OperationId;
  ti_candidate_epoch : EpochId;
  ti_expected_head : ExpectedHead;
  ti_execution_fence : WriterFence;
  ti_event_id : ActivationEventId;
  ti_transaction : TransactionRef;
  ti_operation_selection : OperationSelectionRef;
  ti_durable_selection : DurableSelectionKnowledge;
  ti_admission_posture : ActivationAdmissionPosture
}.

Record ActivationNotSelected := mk_ActivationNotSelected {
  ns_stage : ActivationTransactionStage;
  ns_reason : ActivationNotSelectedReason;
  ns_operation_id : OperationId;
  ns_candidate_epoch : EpochId
}.

Record ActivatedEpochReceipt := mk_ActivatedEpochReceipt {
  ae_event : ActivationEvent;
  ae_cache : ActivationCacheReceipt;
  ae_acknowledgement : ActivationAcknowledgementReceipt;
  ae_reconciliation_evidence : option ReconciliationEvidenceRef
}.

Inductive ActivationTransactionOutcome :=
| Activated (receipt : ActivatedEpochReceipt)
| NotSelected (stopped : ActivationNotSelected)
| ReconciliationNeeded (ticket : ActivationReconciliationTicket).

#[export] Instance ActivationAdmissionPosture_eq_dec : EqDecision ActivationAdmissionPosture.
Proof. solve_decision. Defined.
#[export] Instance DurableSelectionKnowledge_eq_dec : EqDecision DurableSelectionKnowledge.
Proof. solve_decision. Defined.

Definition not_selected {R} `{ActivationRequestView R} (request : R) (stage : ActivationTransactionStage)
    (reason : ActivationNotSelectedReason) : ActivationTransactionOutcome :=
  NotSelected (mk_ActivationNotSelected stage reason (operation_id (identity (view_command request)))
                 (ep_epoch (view_pins request))).

Definition reconciliation {R} `{ActivationRequestView R} (request : R)
    (stage : ActivationTransactionStage) (reason : ActivationReconciliationReason)
    (durable_selection : DurableSelectionKnowledge) (admission_posture : ActivationAdmissionPosture)
  : ActivationTransactionOutcome :=
  ReconciliationNeeded
    (mk_ActivationReconciliationTicket stage reason
       (owner_workspace_id (ownership (view_command request)))
       (operation_id (identity (view_command request))) (ep_epoch (view_pins request))
       (expected_head (view_command request)) (view_execution_fence request) (view_event_id request)
       (view_transaction request) (view_operation_selection request) durable_selection
       admission_posture).

(** ** Checks *)

Definition proof_request (r : ActivationTransactionRequest) : CandidateProofRequest :=
  mk_CandidateProofRequest (owner_workspace_id (ownership (tr_command r)))
    (operation_id (identity (tr_command r))) (expected_head (tr_command r)) (tr_execution_fence r)
    (tr_pins r).

Definition authority_request (r : ActivationTransactionRequest) : ActivationAuthorityRequest :=
  mk_ActivationAuthorityRequest (owner_workspace_id (ownership (tr_command r)))
    (operation_id (identity (tr_command r))) (expected_head (tr_command r)) (tr_execution_fence r).

Definition operation_marker_request {R} `{ActivationRequestView R} (r : R)
    (active_recovery_fence : WriterFence) : ActivationOperationMarkerRequest :=
  mk_ActivationOperationMarkerRequest (owner_workspace_id (ownership (view_command r)))
    (operation_id (identity (view_command r))) (view_event_id r) (expected_head (view_command r))
    (view_execution_fence r) active_recovery_fence (view_transaction r) (view_operation_selection r)
    (view_control_relation r).

Definition authority_matches (r : ActivationTransactionRequest) (s : ActivationAuthoritySnapshot) : bool :=
  (bool_decide (chain_workspace_id (sn_chain s) = owner_workspace_id (ownership (tr_command r)))
   && bool_decide (chain_head (sn_chain s) = expected_head (tr_command r))
   && bool_decide (sn_active_fence s = tr_execution_fence r))%bool.

Definition append_contract (r : ActivationTransactionRequest) (authority : ActivationAuthoritySnapshot)
  : option ActivationAppendContract :=
  '(predecessor_event_id, ordinal) ←
    match head_event (sn_chain authority) with
    | Some head =>
        next ← checked_add u64_max (ordinal_get (ev_ordinal head)) 1;
        ordinal ← ActivationOrdinal_new next;
        Some (Some (ev_event_id head), ordinal)
    | None => ordinal ← ActivationOrdinal_new 1; Some (None, ordinal)
    end;
  Some (mk_ActivationAppendContract (tr_attempt r) (tr_command r) (tr_execution_fence r) (tr_event_id r)
          predecessor_event_id ordinal (tr_pins r) (epoch_table_versions (tr_candidate r))
          (tr_compatibility r) (tr_retention r) (tr_operation_selection r) (tr_transaction r)
          (tr_control_relation r)).

(** The row the contract asks for. *)
Definition contract_event (c : ActivationAppendContract) (commit : ActivationCommit)
  : result ActivationEvent ActivationError :=
  event_from_attempt (co_event_id c) (co_attempt c) (co_predecessor_event_id c) (co_ordinal c) (co_pins c)
    (co_compatibility c) (co_retention c)
    (mk_ActivationCommit (co_operation_selection c) (co_transaction c) (ac_backend_commit commit)
       (ac_readback commit)).

Definition validate_committed_selection (c : ActivationAppendContract) (e : ActivationEvent)
    (table_versions : TableVersionSet) (chain : ActivationChain)
  : result unit ActivationReadbackViolation :=
  match contract_event c (ev_commit e) with
  | Err error => Err (EventContract error)
  | Ok expected =>
      if negb (bool_decide (expected = e)) then Err EventDiffersFromContract
      else if (negb (bool_decide (tv_reference table_versions = ep_table_versions (co_pins c)))
               || negb (bool_decide (table_versions = co_table_versions c)))%bool
      then Err TableVersionSetMismatch
      else if negb (bool_decide (chain_workspace_id chain = owner_workspace_id (ownership (co_command c))))
      then Err ChainWorkspaceMismatch
      else if negb (is_head chain e) then Err EventIsNotUniqueHead
      else if negb (bool_decide (chain_head chain = EpochHead (ep_epoch (co_pins c))))
      then Err ChainHeadMismatch
      else Ok tt
  end.

Definition validate_recovered_selection (r : ActivationRecoveryRequest) (e : ActivationEvent)
    (table_versions : TableVersionSet) (chain : ActivationChain)
  : result unit ActivationReadbackViolation :=
  match validate_committed_selection
          (mk_ActivationAppendContract (rr_attempt r) (rr_command r) (rr_execution_fence r) (rr_event_id r)
             (ev_predecessor_event_id e) (ev_ordinal e) (rr_pins r) table_versions (rr_compatibility r)
             (rr_retention r) (rr_operation_selection r) (rr_transaction r) (rr_control_relation r))
          e table_versions chain with
  | Ok u => Ok u
  | Err TableVersionSetMismatch => Err TableVersionSetMismatch
  | Err _ => Err OperationMarkerMismatch
  end.

Definition unchanged_chain_matches (r : ActivationTransactionRequest)
    (authority : ActivationAuthoritySnapshot) (chain : ActivationChain) : bool :=
  (bool_decide (chain = sn_chain authority)
   && bool_decide (chain_workspace_id chain = owner_workspace_id (ownership (tr_command r)))
   && bool_decide (chain_head chain = expected_head (tr_command r)))%bool.

Definition recovered_unchanged_chain_matches (r : ActivationRecoveryRequest) (chain : ActivationChain) : bool :=
  (bool_decide (chain_workspace_id chain = owner_workspace_id (ownership (rr_command r)))
   && bool_decide (chain_head chain = expected_head (rr_command r))
   && forallb (fun e =>
        negb (bool_decide (ev_operation_id e = operation_id (identity (rr_command r))))
        && negb (bool_decide (ev_event_id e = rr_event_id r))
        && negb (bool_decide (ac_transaction (ev_commit e) = rr_transaction r))
        && negb (bool_decide (ac_operation_selection (ev_commit e) = rr_operation_selection r)))
        (chain_events chain))%bool.

Definition cache_receipt_matches {R} `{ActivationRequestView R} (request : R) (e : ActivationEvent)
    (active : WriterFence) (receipt : ActivationCacheReceipt) : bool :=
  (bool_decide (ca_workspace_id receipt = owner_workspace_id (ownership (view_command request)))
   && bool_decide (ca_operation_id receipt = operation_id (identity (view_command request)))
   && bool_decide (ca_event_id receipt = ev_event_id e)
   && bool_decide (ca_selected_epoch receipt = ep_epoch (view_pins request))
   && bool_decide (ca_active_fence receipt = active)
   && bool_decide (ca_transaction receipt = view_transaction request))%bool.

(** The fields both acknowledgement checks compare. *)
Definition acknowledgement_identity {R} `{ActivationRequestView R} (request : R) (e : ActivationEvent)
    (receipt : ActivationAcknowledgementReceipt) : bool :=
  (bool_decide (ak_workspace_id receipt = owner_workspace_id (ownership (view_command request)))
   && bool_decide (ak_operation_id receipt = operation_id (identity (view_command request)))
   && bool_decide (ak_event_id receipt = ev_event_id e)
   && bool_decide (ak_selected_epoch receipt = ep_epoch (view_pins request))
   && bool_decide (ak_transaction receipt = view_transaction request)
   && bool_decide (ak_operation_selection receipt = view_operation_selection request))%bool.

Definition acknowledgement_matches {R} `{ActivationRequestView R} (request : R) (e : ActivationEvent)
    (active : WriterFence) (receipt : ActivationAcknowledgementReceipt) : bool :=
  (acknowledgement_identity request e receipt && bool_decide (ak_active_fence receipt = active))%bool.

Definition recovered_acknowledgement_matches (r : ActivationRecoveryRequest) (e : ActivationEvent)
    (active_recovery_fence : WriterFence) (receipt : ActivationAcknowledgementReceipt) : bool :=
  (acknowledgement_identity r e receipt
   && recovery_fence_authorizes (rr_execution_fence r) (ak_active_fence receipt)
   && recovery_fence_authorizes (ak_active_fence receipt) active_recovery_fence)%bool.

Definition is_read_back (k : DurableSelectionKnowledge) : bool :=
  match k with ReadBack _ => true | NotAttempted | SelectionUnknown => false end.

Definition recovery_stage_is_causal (t : ActivationReconciliationTicket) : bool :=
  let posture p := bool_decide (ti_admission_posture t = p) in
  let untried := bool_decide (ti_durable_selection t = NotAttempted) in
  let read_back := is_read_back (ti_durable_selection t) in
  match ti_stage t with
  | CandidateProof | AdmissionClosure => posture NeverClosed && untried
  | AuthorityRevalidation => posture PostureClosed && untried
  | DurableAppendReadback => posture PostureClosed && negb read_back
  | EpochSwap => posture PostureClosed && read_back
  | CacheReconciliation => posture PostureSwapped && read_back
  | AdmissionReopen => posture PostureClosed && untried || posture PostureSwapped && read_back
  | Acknowledgement => posture PostureReopened && read_back
  end%bool.

Definition recovery_ticket_matches (r : ActivationRecoveryRequest) (t : ActivationReconciliationTicket) : bool :=
  (bool_decide (ti_workspace_id t = owner_workspace_id (ownership (rr_command r)))
   && bool_decide (ti_operation_id t = operation_id (identity (rr_command r)))
   && bool_decide (ti_candidate_epoch t = ep_epoch (rr_pins r))
   && bool_decide (ti_expected_head t = expected_head (rr_command r))
   && bool_decide (ti_execution_fence t = rr_execution_fence r)
   && bool_decide (ti_event_id t = rr_event_id r)
   && bool_decide (ti_transaction t = rr_transaction r)
   && bool_decide (ti_operation_selection t = rr_operation_selection r)
   && match ti_durable_selection t with
      | ReadBack event_id => bool_decide (event_id = rr_event_id r)
      | NotAttempted | SelectionUnknown => true
      end
   && recovery_stage_is_causal t)%bool.

(** ** The sequences *)

(** A sequence of calls that may leave early with an outcome. *)
Abbreviation tx W := (stm W ActivationTransactionOutcome).

Definition call {W A} (m : W -> W * A) : tx W A := fun w => let (w, a) := m w in (w, Ok a).

(** The outcome of a sequence: of an early return, or of its last value. *)
Definition outcome {W} (m : tx W ActivatedEpochReceipt) (w : W) : W * ActivationTransactionOutcome :=
  let (w, r) := m w in (w, match r with Ok receipt => Activated receipt | Err stopped => stopped end).

Section stages.
Context {W : Type} {R : Type} `{!ActivationRequestView R, !ActivationCachePort W, !ActivationAcknowledgementPort W}.
Context (request : R) (e : ActivationEvent).

(** Cache reconciliation, as [activate] and [recover] do it. *)
Definition reconcile_cache (chain : ActivationChain) (active : WriterFence)
    (durable_selection : DurableSelectionKnowledge) (posture : ActivationAdmissionPosture)
  : tx W ActivationCacheReceipt :=
  do! answer <- call (reconcile_selected e chain active) ;
  let stop reason := st_err (reconciliation request CacheReconciliation reason durable_selection posture) in
  match answer with
  | CacheReconciled receipt =>
      if cache_receipt_matches request e active receipt then st_ret receipt
      else stop (ReadbackViolation CacheReceiptMismatch)
  | CacheIsUnknown diagnostic => stop (CacheUnknown diagnostic)
  | CacheIsCancelled diagnostic => stop (CacheCancelled diagnostic)
  end.

(** Acknowledgement, as [activate] and [recover] do it. *)
Definition request_acknowledgement (active : WriterFence) (durable_selection : DurableSelectionKnowledge)
  : tx W ActivationAcknowledgementReceipt :=
  do! answer <- call (acknowledge e active) ;
  let stop reason := st_err (reconciliation request Acknowledgement reason durable_selection PostureReopened) in
  match answer with
  | Acknowledged receipt =>
      if acknowledgement_matches request e active receipt then st_ret receipt
      else stop (ReadbackViolation AcknowledgementReceiptMismatch)
  | AcknowledgementIsUnknown diagnostic => stop (AcknowledgementUnknown diagnostic)
  | AcknowledgementIsCancelled diagnostic => stop (AcknowledgementCancelled diagnostic)
  end.
End stages.

Section activate.
Context {W B : Type} `{!ActivationCandidateProofPort W, !ActivationAuthorityPort W,
  !ActivationAdmissionPort W B, !ActivationEventPort W, !ActivationCachePort W,
  !ActivationAcknowledgementPort W}.
Context (request : ActivationTransactionRequest).

Definition prove : tx W unit :=
  do! proof <- call (prove_candidate (proof_request request)) ;
  let stop reason := st_err (not_selected request CandidateProof reason) in
  match proof with
  | CandidateProved proof_receipt =>
      if bool_decide (proof_receipt = ep_proof_receipt (tr_pins request)) then st_ret tt
      else stop NotSelectedProofMismatch
  | CandidateFailed diagnostic => stop (ProofFailed diagnostic)
  | CandidateUnknown diagnostic => stop (ProofUnknown diagnostic)
  | CandidateCancelled diagnostic => stop (CancelledBeforeClosure diagnostic)
  end.

Definition close : tx W B :=
  do! answer <- call (port_close_admission (expected_head (tr_command request)) (tr_execution_fence request)) ;
  match answer with
  | Ok barrier => st_ret barrier
  | Err error => st_err (not_selected request AdmissionClosure (AdmissionRejected error))
  end.

Definition revalidate_authority : tx W ActivationAuthoritySnapshot :=
  do! answer <- call (revalidate (authority_request request)) ;
  let stop reason :=
    st_err (reconciliation request AuthorityRevalidation reason NotAttempted PostureClosed) in
  match answer with
  | AuthorityValid snapshot =>
      if authority_matches request snapshot then st_ret snapshot else stop AuthorityStale
  | AuthorityIsStale _ => stop AuthorityStale
  | AuthorityIsUnknown diagnostic => stop (AuthorityUnknown diagnostic)
  | AuthorityCancelled diagnostic => stop (CancelledAfterClosure diagnostic)
  end.

Definition append (barrier : B) (authority : ActivationAuthoritySnapshot) (contract : ActivationAppendContract)
  : tx W (SelectedEpochRecord * ActivationChain) :=
  do! answer <- call (append_and_readback contract) ;
  let stop reason :=
    st_err (reconciliation request DurableAppendReadback reason SelectionUnknown PostureClosed) in
  match answer with
  | AppendCommitted selection chain =>
      match validate_committed_selection contract (se_event selection) (se_table_versions selection) chain with
      | Err violation => stop (ReadbackViolation violation)
      | Ok _ => st_ret (selection, chain)
      end
  | AppendNotCommitted unchanged_chain reason =>
      if negb (unchanged_chain_matches request authority unchanged_chain)
      then stop (ReadbackViolation UnchangedChainMismatch)
      else
        do! aborted <- call (port_abort barrier unchanged_chain) ;
        match aborted with
        | Err error =>
            st_err (reconciliation request AdmissionReopen (AdmissionFailure error) NotAttempted PostureClosed)
        | Ok _ => st_err (not_selected request DurableAppendReadback (AppendProvedNotCommitted reason))
        end
  | AppendUnknown reason diagnostic => stop (AppendIsUnknown reason diagnostic)
  end.

(** [ActivationTransactionCoordinator::activate]. *)
Definition activate : W -> W * ActivationTransactionOutcome :=
  outcome (
    do! _ <- prove ;
    do! barrier <- close ;
    do! authority <- revalidate_authority ;
    match append_contract request authority with
    | None =>
        st_err (reconciliation request AuthorityRevalidation (ReadbackViolation AuthorityMismatch)
                  NotAttempted PostureClosed)
    | Some contract =>
        do! selected <- append barrier authority contract ;
        let '(selection, chain) := selected in
        let e := se_event selection in
        let durable_selection := ReadBack (ev_event_id e) in
        do! published <- call (port_publish barrier selection chain (tr_candidate request)) ;
        match published with
        | Err error =>
            st_err (reconciliation request EpochSwap (AdmissionFailure error) durable_selection PostureClosed)
        | Ok _ =>
            do! cache <- reconcile_cache request e chain (tr_execution_fence request) durable_selection
                           PostureSwapped ;
            do! reopened <- call (port_reopen barrier (EpochHead (ep_epoch (tr_pins request)))) ;
            match reopened with
            | Err error =>
                st_err (reconciliation request AdmissionReopen (AdmissionFailure error) durable_selection
                          PostureSwapped)
            | Ok _ =>
                do! acknowledgement <- request_acknowledgement request e (tr_execution_fence request)
                                         durable_selection ;
                st_ret (mk_ActivatedEpochReceipt e cache acknowledgement None)
            end
        end
    end).
End activate.

Section recover.
Context {W : Type} `{!ActivationRecoveryAdmissionPort W, !ActivationOperationMarkerPort W,
  !ActivationCachePort W, !ActivationAcknowledgementPort W}.
Context (request : ActivationRecoveryRequest) (ticket : ActivationReconciliationTicket).

(** The marker says that nothing was selected. *)
Definition recover_not_selected (active_recovery_fence : WriterFence) (unchanged_chain : ActivationChain)
    (evidence : ReconciliationEvidenceRef) : tx W ActivatedEpochReceipt :=
  let stop violation :=
    st_err (reconciliation request DurableAppendReadback (ReadbackViolation violation) SelectionUnknown
              (ti_admission_posture ticket)) in
  if is_read_back (ti_durable_selection ticket) then stop OperationMarkerMismatch
  else if negb (recovered_unchanged_chain_matches request unchanged_chain) then stop UnchangedChainMismatch
  else
    do! answer <- call (port_recover_none (expected_head (rr_command request)) (rr_execution_fence request)
                          active_recovery_fence unchanged_chain) ;
    match answer with
    | Err error =>
        st_err (reconciliation request AdmissionReopen (AdmissionFailure error) NotAttempted
                  (ti_admission_posture ticket))
    | Ok _ => st_err (not_selected request DurableAppendReadback (OperationMarkerProvedNotSelected evidence))
    end.

(** The marker says that the epoch was selected. *)
Definition recover_selected (active_recovery_fence : WriterFence) (selection : SelectedEpochRecord)
    (chain : ActivationChain) (acknowledgement : option ActivationAcknowledgementReceipt)
    (evidence : ReconciliationEvidenceRef) : tx W ActivatedEpochReceipt :=
  let e := se_event selection in
  let durable_selection := ReadBack (ev_event_id e) in
  do! _ <-
    match validate_recovered_selection request e (se_table_versions selection) chain with
    | Err violation =>
        st_err (reconciliation request DurableAppendReadback (ReadbackViolation violation) SelectionUnknown
                  (ti_admission_posture ticket))
    | Ok u => st_ret u
    end ;
  do! _ <-
    match acknowledgement with
    | Some receipt =>
        if recovered_acknowledgement_matches request e active_recovery_fence receipt then st_ret tt
        else st_err (reconciliation request Acknowledgement (ReadbackViolation AcknowledgementMarkerMismatch)
                       durable_selection (ti_admission_posture ticket))
    | None => st_ret tt
    end ;
  do! recovered <- call (port_recover_selected (expected_head (rr_command request))
                           (rr_execution_fence request) active_recovery_fence selection chain
                           (bool_decide (ti_admission_posture ticket = PostureReopened))) ;
  match recovered with
  | Err error =>
      st_err (reconciliation request EpochSwap (AdmissionFailure error) durable_selection
                (ti_admission_posture ticket))
  | Ok publication =>
      let recovery_posture :=
        match publication with PublishedClosed => PostureSwapped | AlreadyReopened => PostureReopened end in
      do! cache <- reconcile_cache request e chain active_recovery_fence durable_selection recovery_posture ;
      do! _ <-
        match publication with
        | PublishedClosed =>
            do! reopened <- call (port_reopen_recovered e chain active_recovery_fence) ;
            match reopened with
            | Err error =>
                st_err (reconciliation request AdmissionReopen (AdmissionFailure error) durable_selection
                          PostureSwapped)
            | Ok u => st_ret u
            end
        | AlreadyReopened => st_ret tt
        end ;
      do! acknowledgement <-
        match acknowledgement with
        | Some receipt => st_ret receipt
        | None => request_acknowledgement request e active_recovery_fence durable_selection
        end ;
      st_ret (mk_ActivatedEpochReceipt e cache acknowledgement (Some evidence))
  end.

(** [ActivationRecoveryCoordinator::recover]. *)
Definition recover (recovery : ActivationRecoveryAttempt) : W -> W * ActivationTransactionOutcome :=
  let stop violation :=
    st_err (reconciliation request (ti_stage ticket) (ReadbackViolation violation) SelectionUnknown
              (ti_admission_posture ticket)) in
  let active_recovery_fence := recovering_fence recovery in
  outcome (
    if negb (bool_decide (rr_attempt request = recovered_attempt recovery)) then stop RecoveryAttemptMismatch
    else if negb (recovery_ticket_matches request ticket) then stop RecoveryTicketMismatch
    else if negb (recovery_fence_authorizes (rr_execution_fence request) active_recovery_fence)
    then stop RecoveryFenceUnauthorized
    else
      do! marker <- call (read_operation_marker (operation_marker_request request active_recovery_fence)) ;
      match marker with
      | MarkerUnknown diagnostic =>
          st_err (reconciliation request DurableAppendReadback (OperationMarkerUnknown diagnostic)
                    (ti_durable_selection ticket) (ti_admission_posture ticket))
      | MarkerProvedNotSelected unchanged_chain evidence =>
          recover_not_selected active_recovery_fence unchanged_chain evidence
      | MarkerSelected selection chain acknowledgement evidence =>
          recover_selected active_recovery_fence selection chain acknowledgement evidence
      end).
End recover.
