(* ===== verification/TransactionPorts.v ===== *)
(** The ports of the activation transaction that the repository implements itself
    (src/src/fabric/activation_transaction.rs): the validation of the published candidate, the
    admission gate, the receipt cache and the acknowledgements; and the contract of the ports it
    leaves to the Delta control tables, which hold the durable log of activation events. *)

From S2P Require Import Prelude.
From S2P Require Import Encoding.
From S2P Require Import CommandModel.
From S2P Require Import EffectContract.
From S2P Require Import ActivationModel.
From S2P Require Import ActivationTheory.
From S2P Require Import AdmissionModel.
From S2P Require Import TransactionModel.
Local Open Scope Z_scope.

(** ** Candidate validation *)

Record PublishedCandidateValidation := mk_PublishedCandidateValidation {
  pv_candidate : option (WorkspaceId * FabricEpochPins);
  pv_diagnostic : DiagnosticRef
}.

(** The constant is the message of the error. *)
Definition for_published (workspace_id : WorkspaceId) (p : FabricEpochPins)
    (epoch : ProgrammaticFabricEpoch) (diagnostic : DiagnosticRef)
  : result PublishedCandidateValidation string :=
  if (negb (bool_decide (epoch_identity epoch = ep_epoch p))
      || negb (bool_decide (tv_reference (epoch_table_versions epoch) = ep_table_versions p))
      || all_zero (as_bytes (ep_proof_receipt p)))%bool
  then Err "published candidate and activation record disagree"%string
  else Ok (mk_PublishedCandidateValidation (Some (workspace_id, p)) diagnostic).

Definition unavailable (diagnostic : DiagnosticRef) : PublishedCandidateValidation :=
  mk_PublishedCandidateValidation None diagnostic.

Definition replace_with (self published : PublishedCandidateValidation) : PublishedCandidateValidation :=
  mk_PublishedCandidateValidation (pv_candidate published) (pv_diagnostic self).

Definition validate_candidate (self : PublishedCandidateValidation) (request : CandidateProofRequest)
  : CandidateProofOutcome :=
  if bool_decide (pv_candidate self = Some (pr_workspace_id request, pr_pins request))
  then CandidateProved (ep_proof_receipt (pr_pins request))
  else CandidateUnknown (pv_diagnostic self).

(** ** Receipts *)

(** BLAKE3. *)
Class Blake3 := blake3_hash : list byte -> byte_array 32.

Section receipts.
Context `{!Blake3}.

Definition activation_runtime_projection_diagnostic (e : ActivationEvent) (active : WriterFence)
    (reason : list byte) : DiagnosticRef :=
  let frame bytes := (to_be_bytes 8 (Z.min (Z.of_nat (length bytes)) u64_max) ++ bytes)%list in
  @from_bytes TDiagnosticRef
    (blake3_hash
       (text "codefabric.activation-runtime-projection-diagnostic.v1" ++ [x00]
        ++ frame (id_bytes (ev_workspace_id e)) ++ frame (id_bytes (ev_operation_id e))
        ++ frame (aid_bytes (ev_event_id e)) ++ frame (id_bytes (lease_id active))
        ++ frame (u64_bytes (generation_get (generation active))) ++ frame reason)%list).

(** [ActivationReconciliationReceiptCache]: its workspace and its last receipt. *)
Definition cache_reconcile_selected (workspace_id : WorkspaceId) (e : ActivationEvent)
    (chain : ActivationChain) (active : WriterFence) (current : option ActivationCacheReceipt)
  : option ActivationCacheReceipt * ActivationCacheOutcome :=
  let stop reason :=
    (current, CacheIsUnknown (activation_runtime_projection_diagnostic e active (text reason))) in
  if (negb (bool_decide (ev_workspace_id e = workspace_id))
      || negb (bool_decide (chain_workspace_id chain = workspace_id))
      || negb (is_head chain e)
      || negb (bool_decide (chain_head chain = EpochHead (ep_epoch (ev_pins e))))
      || negb (recovery_fence_authorizes (ev_execution_fence e) active))%bool
  then stop "cache-input-mismatch"%string
  else
    let receipt := mk_ActivationCacheReceipt workspace_id (ev_operation_id e) (ev_event_id e)
                     (ep_epoch (ev_pins e)) active (ac_transaction (ev_commit e)) in
    if match current with
       | Some prior =>
           negb (bool_decide (ca_workspace_id prior = workspace_id))
           || negb (recovery_fence_authorizes (ca_active_fence prior) active)
       | None => false
       end%bool
    then stop "cache-fence-regression"%string
    else (Some receipt, CacheReconciled receipt).

(** [IdempotentActivationAcknowledgements] of a workspace. *)
Definition idempotent_acknowledge (workspace_id : WorkspaceId) (e : ActivationEvent) (active : WriterFence)
  : ActivationAcknowledgementOutcome :=
  if (negb (bool_decide (ev_workspace_id e = workspace_id))
      || negb (recovery_fence_authorizes (ev_execution_fence e) active))%bool
  then AcknowledgementIsUnknown
         (activation_runtime_projection_diagnostic e active (text "acknowledgement-input-mismatch"))
  else Acknowledged (mk_ActivationAcknowledgementReceipt workspace_id (ev_operation_id e) (ev_event_id e)
                       (ep_epoch (ev_pins e)) active (ac_transaction (ev_commit e))
                       (ac_operation_selection (ev_commit e))).
End receipts.

(** ** The durable log *)

(** The Delta control tables: the events they hold and the rows of appends still under way, with
    the three ports over them. *)
Class ActivationLog (L : Type) := {
  log : L -> list ActivationEvent;
  in_flight : L -> list DurableActivationRow;
  log_ok : L -> Prop;
  log_revalidate : ActivationAuthorityRequest -> L -> L * AuthorityRevalidationOutcome;
  log_append : ActivationAppendContract -> L -> L * ActivationAppendOutcome;
  log_marker : ActivationOperationMarkerRequest -> L -> L * ActivationOperationMarkerOutcome
}.

(** The row a contract asks to append. *)
Definition contract_row (c : ActivationAppendContract) : result DurableActivationRow ActivationError :=
  row_from_attempt (co_event_id c) (co_attempt c) (co_predecessor_event_id c) (co_ordinal c) (co_pins c)
    (co_compatibility c) (co_retention c)
    (mk_DurableActivationCommit (co_operation_selection c) (co_transaction c)).

Section log.
Context {L : Type} `{!ActivationLog L}.

(** Events are never removed; a new one was under way or is [new]. *)
Definition grows (new : DurableActivationRow -> Prop) (l l' : L) : Prop :=
  log l `prefix_of` log l'
  /\ (forall e, e ∈ log l' -> e ∈ log l \/ durable_row e ∈ in_flight l \/ new (durable_row e))
  /\ (forall r, r ∈ in_flight l' -> r ∈ in_flight l \/ new r).

(** No event of the operation is in the log, and none can come. *)
Definition absent (op : OperationId) (l : L) : Prop :=
  (forall e, e ∈ log l -> ev_operation_id e <> op) /\ (forall r, r ∈ in_flight l -> ar_operation_id r <> op).
End log.

(** What the documentation of the ports obliges them to: authority and marker reads and readbacks
    return the validated history; an append adds its own row, at once or later; a marker that is
    found selected an event of the history with its table versions; non-commitment and non-selection
    are reported only when proved; an unknown outcome means nothing. *)
Class ActivationLogLaws (L : Type) (ws : WorkspaceId) `{!ActivationLog L} : Prop := {
  law_history : forall l, log_ok l -> history ws (log l) /\ typed (log l);
  law_revalidate : forall rq l, log_ok l ->
    let (l', x) := log_revalidate rq l in
    log_ok l' /\ grows (fun _ => False) l l'
    /\ match x with
       | AuthorityValid s | AuthorityIsStale s => sn_chain s = mk_ActivationChain ws (log l')
       | AuthorityIsUnknown _ | AuthorityCancelled _ => True
       end;
  law_append : forall c l, log_ok l ->
    let (l', x) := log_append c l in
    log_ok l' /\ grows (fun r => contract_row c = Ok r) l l'
    /\ match x with
       | AppendCommitted _ chain => chain = mk_ActivationChain ws (log l')
       | AppendNotCommitted chain _ =>
           chain = mk_ActivationChain ws (log l') /\ absent (operation_id (identity (co_command c))) l'
       | AppendUnknown _ _ => True
       end;
  law_marker : forall rq l, log_ok l ->
    let (l', x) := log_marker rq l in
    log_ok l' /\ grows (fun _ => False) l l'
    /\ match x with
       | MarkerSelected selection chain _ _ =>
           chain = mk_ActivationChain ws (log l') /\ se_event selection ∈ log l'
           /\ ev_operation_id (se_event selection) = mr_operation_id rq
           /\ tv_reference (se_table_versions selection)
              = ep_table_versions (ev_pins (se_event selection))
       | MarkerProvedNotSelected chain _ =>
           chain = mk_ActivationChain ws (log l') /\ absent (mr_operation_id rq) l'
       | MarkerUnknown _ => True
       end
}.

(** ** A workspace at work *)

Record ActivationWorld (L : Type) := mk_ActivationWorld {
  aw_workspace : WorkspaceId;
  aw_published : PublishedCandidateValidation;
  aw_gate : FabricAdmissionRuntime;
  aw_cache : option ActivationCacheReceipt;
  aw_log : L
}.
Arguments mk_ActivationWorld {L} _ _ _ _ _.
Arguments aw_workspace {L} _.
Arguments aw_published {L} _.
Arguments aw_gate {L} _.
Arguments aw_cache {L} _.
Arguments aw_log {L} _.

Section ports.
Context {L : Type} `{!ActivationLog L, !Blake3}.
Implicit Types w : ActivationWorld L.

Definition set_gate w (g : FabricAdmissionRuntime) : ActivationWorld L :=
  mk_ActivationWorld (aw_workspace w) (aw_published w) g (aw_cache w) (aw_log w).
Definition set_cache w (c : option ActivationCacheReceipt) : ActivationWorld L :=
  mk_ActivationWorld (aw_workspace w) (aw_published w) (aw_gate w) c (aw_log w).
Definition set_log w (l : L) : ActivationWorld L :=
  mk_ActivationWorld (aw_workspace w) (aw_published w) (aw_gate w) (aw_cache w) l.

(** An operation of the gate, of the log. *)
Definition on_gate {A} (m : admission A) w : ActivationWorld L * result A AdmissionError :=
  let (g, r) := m (aw_gate w) in (set_gate w g, r).
Definition on_log {A} (m : L -> L * A) w : ActivationWorld L * A :=
  let (l, a) := m (aw_log w) in (set_log w l, a).

#[export] Instance world_proof : ActivationCandidateProofPort (ActivationWorld L) :=
  fun request w => (w, validate_candidate (aw_published w) request).

#[export] Instance world_authority : ActivationAuthorityPort (ActivationWorld L) :=
  fun request => on_log (log_revalidate request).

#[export] Instance world_admission : ActivationAdmissionPort (ActivationWorld L) ActivationBarrier := {|
  port_close_admission h f := on_gate (close_admission h f);
  port_publish b _ chain candidate := on_gate (publish_selected_epoch b chain candidate);
  port_reopen b h := on_gate (reopen_after_reconciliation b h);
  port_abort b chain := on_gate (abort_before_selection b chain)
|}.

#[export] Instance world_events : ActivationEventPort (ActivationWorld L) :=
  fun c => on_log (log_append c).

#[export] Instance world_cache : ActivationCachePort (ActivationWorld L) := fun e chain f w =>
  let (c, x) := cache_reconcile_selected (aw_workspace w) e chain f (aw_cache w) in
  (set_cache w c, x).

#[export] Instance world_acknowledgements : ActivationAcknowledgementPort (ActivationWorld L) :=
  fun e f w => (w, idempotent_acknowledge (aw_workspace w) e f).

#[export] Instance world_markers : ActivationOperationMarkerPort (ActivationWorld L) :=
  fun request => on_log (log_marker request).

#[export] Instance world_recovery_admission : ActivationRecoveryAdmissionPort (ActivationWorld L) := {|
  port_recover_selected h f active selection chain again :=
    on_gate (recover_selected_epoch h f active (se_event selection) chain again);
  port_reopen_recovered e chain active := on_gate (reopen_recovered_selection e chain active);
  port_recover_none h f active chain := on_gate (recover_proved_no_selection h f active chain)
|}.
End ports.
