(* ===== verification/TransactionTheory.v ===== *)
(** The activation transaction over the repository's own gate, cache and acknowledgements and a
    durable log that keeps its contract: what each outcome of [activate] and [recover] means for the
    log and the gate, and which tickets recovery can use. *)

From S2P Require Import Prelude.
From S2P Require Import Encoding.
From S2P Require Import CommandModel.
From S2P Require Import EffectContract.
From S2P Require Import ActivationModel.
From S2P Require Import ActivationTheory.
From S2P Require Import AdmissionModel.
From S2P Require Import AdmissionTheory.
From S2P Require Import TransactionModel.
From S2P Require Import TransactionPorts.
Local Open Scope Z_scope.

(** ** What a request asks for *)

Definition request_operation (r : ActivationRecoveryRequest) : OperationId :=
  operation_id (identity (rr_command r)).
Definition request_workspace (r : ActivationRecoveryRequest) : WorkspaceId :=
  owner_workspace_id (ownership (rr_command r)).

(** The request was built by its constructor, so that its command selects the epoch of its pins. *)
Definition selects_epoch (r : ActivationRecoveryRequest) : Prop :=
  validate_request_contract (rr_attempt r) (rr_pins r)
  = Ok (rr_command r, rr_execution_fence r, ep_epoch (rr_pins r)).

(** The event records what the request asks for. *)
Record records (r : ActivationRecoveryRequest) (e : ActivationEvent) : Prop := {
  rc_event_id : ev_event_id e = rr_event_id r;
  rc_workspace : ev_workspace_id e = request_workspace r;
  rc_operation : ev_operation_id e = request_operation r;
  rc_predecessor : ev_predecessor_epoch e = expected_head (rr_command r);
  rc_fence : ev_execution_fence e = rr_execution_fence r;
  rc_pins : ev_pins e = rr_pins r;
  rc_compatibility : ev_compatibility e = rr_compatibility r;
  rc_retention : ev_retention e = rr_retention r;
  rc_transaction : ac_transaction (ev_commit e) = rr_transaction r;
  rc_selection : ac_operation_selection (ev_commit e) = rr_operation_selection r
}.

Lemma validate_request_Ok a p c f epoch :
  validate_request_contract a p = Ok (c, f, epoch) ->
  c = attempt_command a /\ f = attempt_fence a /\ epoch = ep_epoch p /\ command_pins_match p c = true.
Proof.
  unfold validate_request_contract. intros H.
  destruct (payload (attempt_command a)); simpl in H; try done;
    (case_bool_decide as He; [simpl in H|done]; repeat case_match; simplify_eq/=;
     split_and!; [done..|by apply negb_false_iff]).
Qed.

(** ** Events of a contract *)

Definition contract_for (r : ActivationRecoveryRequest) (c : ActivationAppendContract) : Prop :=
  co_attempt c = rr_attempt r /\ co_command c = rr_command r /\ co_event_id c = rr_event_id r
  /\ co_pins c = rr_pins r /\ co_compatibility c = rr_compatibility r /\ co_retention c = rr_retention r
  /\ co_operation_selection c = rr_operation_selection r /\ co_transaction c = rr_transaction r.

Lemma row_from_attempt_Ok id a pred n p comp ret cm row :
  row_from_attempt id a pred n p comp ret cm = Ok row ->
  row = mk_DurableActivationRow id (owner_workspace_id (ownership (attempt_command a)))
          (operation_id (identity (attempt_command a))) pred (expected_head (attempt_command a)) n
          (attempt_fence a) p comp ret cm.
Proof.
  unfold row_from_attempt. intros H. destruct (payload (attempt_command a)); simpl in H; try done;
    repeat case_match; simplify_eq/=; done.
Qed.

Lemma contract_event_records r c cm e :
  selects_epoch r -> contract_for r c -> contract_event c cm = Ok e ->
  records r e /\ ev_predecessor_event_id e = co_predecessor_event_id c /\ ev_ordinal e = co_ordinal c.
Proof.
  intros (Hc & Hf & _)%validate_request_Ok (Ha & _ & Hid & Hp & Hcp & Hr & Hs & Ht).
  unfold contract_event, event_from_attempt.
  destruct (row_from_attempt _ _ _ _ _ _ _ _) as [row|] eqn:Hrow; [|done]. intros [= <-].
  apply row_from_attempt_Ok in Hrow as ->. split; [|done].
  split; simpl; rewrite ?Ha, ?Hid, ?Hp, ?Hcp, ?Hr, ?Hs, ?Ht; unfold request_workspace, request_operation;
    congruence.
Qed.

Lemma contract_row_operation r c row :
  selects_epoch r -> contract_for r c -> contract_row c = Ok row -> ar_operation_id row = request_operation r.
Proof.
  intros (Hc & _)%validate_request_Ok (Ha & _) Hrow. apply row_from_attempt_Ok in Hrow as ->.
  simpl. unfold request_operation. congruence.
Qed.

Lemma validate_committed_Ok c e tv chain :
  validate_committed_selection c e tv chain = Ok tt ->
  contract_event c (ev_commit e) = Ok e /\ tv = co_table_versions c
  /\ tv_reference tv = ep_table_versions (co_pins c)
  /\ chain_workspace_id chain = owner_workspace_id (ownership (co_command c))
  /\ head_event chain = Some e /\ chain_head chain = EpochHead (ep_epoch (co_pins c)).
Proof.
  unfold validate_committed_selection. destruct (contract_event c (ev_commit e)) as [e'|]; [|done].
  case_bool_decide; simpl; [|done]. subst e'. intros H. repeat case_match; try done. gate_facts. done.
Qed.

Lemma authority_contract r s c :
  append_contract r s = Some c ->
  contract_for (recovery_request r) c /\ co_execution_fence c = tr_execution_fence r
  /\ co_table_versions c = epoch_table_versions (tr_candidate r).
Proof.
  unfold append_contract. intros H.
  apply bind_Some in H as ([pred n] & _ & [= <-]). done.
Qed.

(** ** Histories *)

Lemma history_head_extends ws l e :
  history ws (l ++ [e]) -> ev_predecessor_epoch e = chain_head (mk_ActivationChain ws l).
Proof.
  intros [_ Hl]. apply linear_snoc in Hl as [_ He]. unfold chain_head, head_event. simpl.
  destruct (last l) as [p|]; simpl in He; apply He.
Qed.

Lemma head_event_Some ws l e :
  head_event (mk_ActivationChain ws l) = Some e <-> exists before, l = before ++ [e].
Proof. apply last_Some. Qed.

Lemma chain_head_snoc ws l e : chain_head (mk_ActivationChain ws (l ++ [e])) = EpochHead (ep_epoch (ev_pins e)).
Proof. unfold chain_head, head_event. simpl. by rewrite last_snoc. Qed.

(** ** The log *)

Section log.
Context {L : Type} `{!ActivationLog L}.

Lemma grows_absent (new : DurableActivationRow -> Prop) op (l l' : L) :
  grows new l l' -> (forall r, new r -> ar_operation_id r <> op) -> absent op l -> absent op l'.
Proof.
  intros (_ & He & Hr) Hnew [Hl Hf]. split.
  - intros e Hin. destruct (He e Hin) as [?|[Hin'|Hin']]; [by apply Hl|by apply (Hf _ Hin')|by apply (Hnew _ Hin')].
  - intros r Hin. destruct (Hr r Hin); auto.
Qed.

Lemma grows_elem new (l l' : L) e : grows new l l' -> e ∈ log l -> e ∈ log l'.
Proof. intros ([k ->] & _) He. apply elem_of_app. by left. Qed.
End log.

(** ** Provenance *)

(** The row is the one the request asks for, wherever in the history. *)
Record asks (r : ActivationRecoveryRequest) (row : DurableActivationRow) : Prop := {
  as_event_id : ar_event_id row = rr_event_id r;
  as_workspace : ar_workspace_id row = request_workspace r;
  as_operation : ar_operation_id row = request_operation r;
  as_predecessor : ar_predecessor_epoch row = expected_head (rr_command r);
  as_fence : ar_execution_fence row = rr_execution_fence r;
  as_pins : ar_pins row = rr_pins r;
  as_compatibility : ar_compatibility row = rr_compatibility r;
  as_retention : ar_retention row = rr_retention r;
  as_transaction : dc_transaction (ar_commit row) = rr_transaction r;
  as_selection : dc_operation_selection (ar_commit row) = rr_operation_selection r
}.

Lemma asks_records r e : asks r (durable_row e) <-> records r e.
Proof. split; intros []; by split. Qed.

Lemma contract_row_asks r c row : selects_epoch r -> contract_for r c -> contract_row c = Ok row -> asks r row.
Proof.
  intros (Hc & Hf & _)%validate_request_Ok (Ha & _ & Hid & Hp & Hcp & Hr & Hs & Ht) Hrow.
  apply row_from_attempt_Ok in Hrow as ->.
  split; simpl; rewrite ?Ha, ?Hid, ?Hp, ?Hcp, ?Hr, ?Hs, ?Ht; unfold request_workspace, request_operation; congruence.
Qed.

Section provenance.
Context {L : Type} `{!ActivationLog L} (r : ActivationRecoveryRequest).

(** Whatever the log holds or awaits of the operation is what the request asks for. *)
Definition authored (l : L) : Prop :=
  (forall e, e ∈ log l -> ev_operation_id e = request_operation r -> records r e)
  /\ (forall row, row ∈ in_flight l -> ar_operation_id row = request_operation r -> asks r row).

Lemma absent_authored l : absent (request_operation r) l -> authored l.
Proof. intros [He Hf]. split; [intros e Hin Heq|intros row Hin Heq]; [by destruct (He e)|by destruct (Hf row)]. Qed.

Lemma grows_authored (new : DurableActivationRow -> Prop) l l' :
  grows new l l' -> (forall row, new row -> ar_operation_id row = request_operation r -> asks r row) ->
  authored l -> authored l'.
Proof.
  intros (_ & He & Hr) Hnew [Hl Hf]. split.
  - intros e Hin Heq. destruct (He e Hin) as [?|[Hin'|Hin']]; [by apply Hl| |]; apply asks_records; auto.
  - intros row Hin Heq. destruct (Hr row Hin); auto.
Qed.
End provenance.

(** ** Sequences that may leave early *)

(** Run from [w], [m] either goes on with a value and a state in [Q], or leaves with an outcome and a
    state in [Ψ]. *)
Definition steps {W A} (m : tx W A) (w : W) (Q : A -> W -> Prop)
    (Ψ : ActivationTransactionOutcome -> W -> Prop) : Prop :=
  wp m w (fun x w' => match x with Ok a => Q a w' | Err o => Ψ o w' end).

Section steps.
Context {W : Type} (Ψ : ActivationTransactionOutcome -> W -> Prop).

Lemma steps_ret {A} (a : A) w (Q : A -> W -> Prop) : Q a w -> steps (st_ret a) w Q Ψ.
Proof. intros H. by apply wp_ret. Qed.

Lemma steps_stop {A} o w (Q : A -> W -> Prop) : Ψ o w -> steps (st_err o) w Q Ψ.
Proof. intros H. by apply wp_err. Qed.

Lemma steps_bind {A B} (m : tx W A) (k : A -> tx W B) w Q Q' :
  steps m w Q Ψ -> (forall a w', Q a w' -> steps (k a) w' Q' Ψ) -> steps (st_bind m k) w Q' Ψ.
Proof.
  unfold steps, wp, st_bind. intros Hm Hk. destruct (m w) as [w' [a|o]]; simpl in *; [by apply Hk|done].
Qed.

Lemma steps_call {A B} (c : W -> W * A) (k : A -> tx W B) w Q' :
  steps (k (c w).2) (c w).1 Q' Ψ -> steps (st_bind (call c) k) w Q' Ψ.
Proof.
  intros Hk. apply wp_bind. unfold wp, call. by destruct (c w) as [w' a].
Qed.

Lemma steps_bind_ret {A B} (a : A) (k : A -> tx W B) w Q' : steps (k a) w Q' Ψ -> steps (st_bind (st_ret a) k) w Q' Ψ.
Proof. done. Qed.

Lemma outcome_ends (m : tx W ActivatedEpochReceipt) w :
  steps m w (fun receipt => Ψ (Activated receipt)) Ψ -> Ψ (outcome m w).2 (outcome m w).1.
Proof. unfold steps, wp, outcome. by destruct (m w) as [w' [receipt|o]]. Qed.
End steps.

(** ** Tickets *)

(** The gate is in the posture of the ticket. *)
Definition posture_holds (t : ActivationReconciliationTicket) (g : FabricAdmissionRuntime) : Prop :=
  match ti_admission_posture t with
  | NeverClosed => False
  | PostureClosed =>
      exists b, gate_phase g = PhaseClosed b /\ ba_expected_head b = ti_expected_head t
                /\ ba_authority_fence b = ti_execution_fence t
  | PostureSwapped =>
      exists b, gate_phase g = PhaseSwapped b (ti_event_id t) (ti_candidate_epoch t)
                /\ ba_authority_fence b = ti_execution_fence t
  | PostureReopened => gate_phase g = PhaseOpen
  end.

Section knowledge.
Context {L : Type} `{!ActivationLog L}.

(** The log agrees with what the ticket knows. *)
Definition knowledge_holds (t : ActivationReconciliationTicket) (l : L) : Prop :=
  match ti_durable_selection t with
  | NotAttempted => absent (ti_operation_id t) l
  | SelectionUnknown => True
  | ReadBack event_id =>
      exists e, e ∈ log l /\ ev_event_id e = event_id /\ ev_operation_id e = ti_operation_id t
  end.

(** Events of other operations leave it true. *)
Lemma grows_knowledge (new : DurableActivationRow -> Prop) t (l l' : L) :
  grows new l l' -> (forall row, new row -> ar_operation_id row <> ti_operation_id t) ->
  knowledge_holds t l -> knowledge_holds t l'.
Proof.
  intros Hgrow Hnew. unfold knowledge_holds. destruct (ti_durable_selection t); [by eapply grows_absent|done|].
  intros (e & He & ?). exists e. split; [by eapply grows_elem|done].
Qed.
End knowledge.

(** A reconciled cache holds the receipt it answers. *)
Lemma cache_answer `{!Blake3} ws e chain f current :
  match cache_reconcile_selected ws e chain f current with
  | (c, CacheReconciled receipt) => c = Some receipt
  | (c, _) => c = current
  end.
Proof. unfold cache_reconcile_selected. by repeat case_match; simplify_eq/=. Qed.

(** ** The forward transaction *)

Section activate.
Context {L : Type} (ws : WorkspaceId) `{!ActivationLog L, !ActivationLogLaws L ws}.
Context `{!Blake3} (r : ActivationTransactionRequest) (w0 : ActivationWorld L).

Let rr : ActivationRecoveryRequest := recovery_request r.
Let op : OperationId := request_operation rr.
Let g0 : FabricAdmissionRuntime := aw_gate w0.

Context (Hreq : selects_epoch rr) (Hws : request_workspace rr = ws).
Context (Hok : log_ok (aw_log w0)) (Habsent : absent op (aw_log w0)).

(** The gate after the transaction closed it. *)
Definition closed_gate (b : ActivationBarrier) : FabricAdmissionRuntime :=
  moved g0 (PhaseClosed b) (gate_generation g0) (gate_next_barrier_id g0 + 1).

(** What stays true throughout. *)
Definition kept (w : ActivationWorld L) : Prop :=
  log_ok (aw_log w) /\ authored rr (aw_log w) /\ aw_workspace w = aw_workspace w0
  /\ gate_workspace_id (aw_gate w) = gate_workspace_id g0.

Lemma kept_start : kept w0.
Proof. split_and!; [done| |done..]. by apply absent_authored. Qed.

Lemma kept_log (new : DurableActivationRow -> Prop) w l' :
  kept w -> log_ok l' -> grows new (aw_log w) l' -> (forall row, new row -> asks rr row) -> kept (set_log w l').
Proof. intros (_ & Ha & Hw & Hg) Hl Hgrow Hnew. split_and!; [done| |done..]. eapply grows_authored; eauto. Qed.

(** What each outcome says. *)
Definition activated (o : ActivationTransactionOutcome) (w : ActivationWorld L) : Prop :=
  kept w /\
  match o with
  | Activated receipt =>
      (exists before, log (aw_log w) = before ++ [ae_event receipt]
                      /\ chain_head (mk_ActivationChain ws before) = expected_head (tr_command r))
      /\ records rr (ae_event receipt)
      /\ aw_gate w = moved g0 PhaseOpen (gate_generation g0 + 1) (gate_next_barrier_id g0 + 1)
      /\ aw_cache w = Some (ae_cache receipt)
  | NotSelected _ =>
      absent op (aw_log w)
      /\ (aw_gate w = g0
          \/ gate_phase g0 = PhaseOpen
             /\ aw_gate w = moved g0 PhaseOpen (gate_generation g0) (gate_next_barrier_id g0 + 1))
  | ReconciliationNeeded t =>
      recovery_ticket_matches rr t = true /\ posture_holds t (aw_gate w) /\ knowledge_holds t (aw_log w)
  end.

(** A ticket of this request, at a stage that fits what it claims. *)
Lemma ticket_matches stage reason k p t :
  reconciliation r stage reason k p = ReconciliationNeeded t ->
  recovery_stage_is_causal t = true ->
  match k with ReadBack id => id = tr_event_id r | _ => True end ->
  recovery_ticket_matches rr t = true.
Proof.
  intros [= <-] Hc Hk. unfold recovery_ticket_matches. rewrite Hc. simpl.
  rewrite !bool_decide_eq_true_2 by done. simpl. destruct k; [done..|]. by rewrite bool_decide_eq_true_2.
Qed.

Lemma stop_closed stage reason k w b :
  kept w -> aw_gate w = closed_gate b ->
  ba_expected_head b = expected_head (tr_command r) -> ba_authority_fence b = tr_execution_fence r ->
  match stage, k with
  | AuthorityRevalidation, NotAttempted | AdmissionReopen, NotAttempted => absent op (aw_log w)
  | DurableAppendReadback, SelectionUnknown => True
  | EpochSwap, ReadBack id =>
      id = tr_event_id r /\ exists e, e ∈ log (aw_log w) /\ ev_event_id e = id /\ ev_operation_id e = op
  | _, _ => False
  end ->
  activated (reconciliation r stage reason k PostureClosed) w.
Proof.
  intros Hl Hg Hh Hf Hcase. split; [done|]. split_and!.
  - eapply ticket_matches; [done|by destruct stage, k|]. by destruct stage, k; destruct Hcase.
  - exists b. rewrite Hg. done.
  - unfold knowledge_holds. simpl. destruct stage, k; try done. by destruct Hcase.
Qed.

Lemma prove_steps :
  steps (prove r) w0 (fun _ w => w = w0) activated.
Proof.
  apply steps_call. simpl. unfold validate_candidate. case_bool_decide as Hp; simpl.
  - rewrite bool_decide_eq_true_2 by done. by apply steps_ret.
  - apply steps_stop. split; [apply kept_start|]. split; [done|by left].
Qed.

(** The gate is closed by this transaction, and nothing was appended yet. *)
Definition is_closed (b : ActivationBarrier) (w : ActivationWorld L) : Prop :=
  kept w /\ aw_gate w = closed_gate b /\ gate_phase g0 = PhaseOpen
  /\ ba_expected_head b = expected_head (tr_command r) /\ ba_authority_fence b = tr_execution_fence r.

Lemma close_steps :
  steps (close r) w0 (fun b w => is_closed b w /\ absent op (aw_log w)) activated.
Proof.
  apply steps_call. simpl. unfold on_gate.
  pose proof (close_admission_inv g0 (expected_head (tr_command r)) (tr_execution_fence r)) as Hi.
  fold g0. destruct (close_admission _ _ g0) as [g' [b|error]]; simpl.
  - destruct Hi as (Hp & -> & ->). apply steps_ret. split; [|done]. split; [apply kept_start|done].
  - subst g'. apply steps_stop. split; [apply kept_start|]. split; [done|by left].
Qed.

Lemma revalidate_steps b w :
  is_closed b w -> absent op (aw_log w) ->
  steps (revalidate_authority r) w (fun s w' => is_closed b w' /\ absent op (aw_log w')
    /\ authority_matches r s = true /\ sn_chain s = mk_ActivationChain ws (log (aw_log w'))) activated.
Proof.
  intros (Hl & Hg & Hp & Hh & Hf) Ha. apply steps_call. simpl. unfold revalidate, world_authority, on_log.
  pose proof (law_revalidate (authority_request r) (aw_log w) (proj1 Hl)) as Hr.
  destruct (log_revalidate _ _) as [l' x]. destruct Hr as (Hl' & Hgrow & Hx). simpl.
  assert (absent op l') as Ha' by (by eapply grows_absent).
  assert (kept (set_log w l')) as Hk by (by eapply kept_log).
  assert (forall reason, activated (reconciliation r AuthorityRevalidation reason NotAttempted PostureClosed)
            (set_log w l')) as Hstop by (intros reason; by eapply stop_closed).
  destruct x as [s|s|d|d]; [|by apply steps_stop..].
  destruct (authority_matches r s) eqn:Hm; [|by apply steps_stop]. by apply steps_ret.
Qed.

(** The append was read back: the event asked for is the last of the log. *)
Definition read_back (b : ActivationBarrier) (e : ActivationEvent) (chain : ActivationChain)
    (w : ActivationWorld L) : Prop :=
  is_closed b w /\ records rr e /\ chain = mk_ActivationChain ws (log (aw_log w))
  /\ head_event chain = Some e.

Lemma append_steps b s c w :
  is_closed b w -> absent op (aw_log w) -> append_contract r s = Some c ->
  steps (append r b s c) w (fun x => read_back b (se_event x.1) x.2) activated.
Proof.
  intros Hcl Ha (Hfor & Hcf & Htv)%authority_contract. pose proof Hcl as (Hl & Hg & Hp & Hh & Hf).
  apply steps_call. simpl. unfold append_and_readback, world_events, on_log.
  pose proof (law_append c (aw_log w) (proj1 Hl)) as Hr.
  destruct (log_append _ _) as [l' x]. destruct Hr as (Hl' & Hgrow & Hx). simpl.
  assert (kept (set_log w l')) as Hk.
  { eapply kept_log; [done..|]. intros row Hrow. by eapply contract_row_asks. }
  assert (forall reason, activated (reconciliation r DurableAppendReadback reason SelectionUnknown PostureClosed)
            (set_log w l')) as Hstop by (intros reason; by eapply stop_closed).
  destruct x as [sel chain|chain reason|reason d]; [| |by apply steps_stop].
  - destruct (validate_committed_selection _ _ _ _) as [[]|v] eqn:Hv; [|by apply steps_stop].
    apply validate_committed_Ok in Hv as (He & _ & _ & _ & Hhead & _).
    apply (contract_event_records rr) in He as [Hrec _]; [|done..]. by apply steps_ret.
  - destruct (unchanged_chain_matches r s chain); simpl; [|by apply steps_stop]. destruct Hx as [-> Ha'].
    replace (operation_id (identity (co_command c))) with op in Ha' by (unfold op, request_operation; by destruct Hfor as (_ & -> & _)).
    apply steps_call. simpl. unfold on_gate. simpl.
    pose proof (abort_before_selection_inv (aw_gate w) b (mk_ActivationChain ws (log l'))) as Hab.
    destruct (abort_before_selection _ _ _) as [g' [u|error]]; simpl.
    + destruct Hab as [_ ->]. apply steps_stop. split; [done|]. split; [done|]. right. by rewrite Hg.
    + subst g'. apply steps_stop. by eapply stop_closed.
Qed.

(** The epoch is published and the gate still closed. *)
Definition swapped_gate (b : ActivationBarrier) (e : ActivationEvent) : FabricAdmissionRuntime :=
  moved g0 (PhaseSwapped b (ev_event_id e) (ep_epoch (ev_pins e))) (gate_generation g0)
    (gate_next_barrier_id g0 + 1).

Lemma stop_after reason stage p e w :
  kept w -> records rr e -> e ∈ log (aw_log w) ->
  match stage, p with
  | CacheReconciliation, PostureSwapped | AdmissionReopen, PostureSwapped =>
      exists b, aw_gate w = swapped_gate b e /\ ba_authority_fence b = tr_execution_fence r
  | Acknowledgement, PostureReopened => gate_phase (aw_gate w) = PhaseOpen
  | _, _ => False
  end ->
  activated (reconciliation r stage reason (ReadBack (ev_event_id e)) p) w.
Proof.
  intros Hl Hrec He Hcase. pose proof (rc_event_id _ _ Hrec) as Hid. split; [done|]. split_and!.
  - eapply ticket_matches; [done|by destruct stage, p|done].
  - unfold posture_holds. simpl. destruct stage, p; try done.
    + destruct Hcase as (b & -> & Hf). exists b. simpl. by rewrite (rc_pins _ _ Hrec), Hid.
    + destruct Hcase as (b & -> & Hf). exists b. simpl. by rewrite (rc_pins _ _ Hrec), Hid.
  - exists e. split_and!; [done..|]. apply (rc_operation _ _ Hrec).
Qed.

Lemma cache_steps b e chain w :
  kept w -> records rr e -> e ∈ log (aw_log w) ->
  aw_gate w = swapped_gate b e -> ba_authority_fence b = tr_execution_fence r ->
  steps (reconcile_cache r e chain (tr_execution_fence r) (ReadBack (ev_event_id e)) PostureSwapped) w
    (fun receipt w' => w' = set_cache w (Some receipt)) activated.
Proof.
  intros Hl Hrec He Hg Hf. apply steps_call. unfold reconcile_selected, world_cache.
  pose proof (cache_answer (aw_workspace w) e chain (tr_execution_fence r) (aw_cache w)) as Hc.
  destruct (cache_reconcile_selected _ _ _ _ _) as [c x]. simpl.
  assert (forall reason, activated (reconciliation r CacheReconciliation reason (ReadBack (ev_event_id e)) PostureSwapped)
            (set_cache w c)) as Hstop by (intros reason; eapply stop_after; [done..|by exists b]).
  destruct x as [receipt|d|d]; [|by apply steps_stop..].
  case_match; [|by apply steps_stop]. subst c. by apply steps_ret.
Qed.

Lemma acknowledge_steps e w :
  kept w -> records rr e -> e ∈ log (aw_log w) -> gate_phase (aw_gate w) = PhaseOpen ->
  steps (request_acknowledgement r e (tr_execution_fence r) (ReadBack (ev_event_id e))) w
    (fun _ w' => w' = w) activated.
Proof.
  intros Hl Hrec He Hg. apply steps_call. unfold acknowledge, world_acknowledgements. simpl.
  assert (forall reason, activated (reconciliation r Acknowledgement reason (ReadBack (ev_event_id e)) PostureReopened) w)
    as Hstop by (intros reason; by eapply stop_after).
  destruct (idempotent_acknowledge _ _ _); [|by apply steps_stop..].
  case_match; [by apply steps_ret|by apply steps_stop].
Qed.

Lemma activate_spec : activated (activate r w0).2 (activate r w0).1.
Proof.
  unfold activate. apply (outcome_ends activated). eapply steps_bind; [apply prove_steps|]. intros _ w ->.
  eapply steps_bind; [apply close_steps|]. intros b w1 [Hcl Ha].
  eapply steps_bind; [by apply revalidate_steps|]. intros s w2 (Hcl2 & Ha2 & Hm & Hs).
  destruct (append_contract r s) as [c|] eqn:Hc.
  2: { destruct Hcl2 as (? & ? & ? & ? & ?). apply steps_stop. by eapply stop_closed. }
  eapply steps_bind; [by eapply append_steps|]. intros [sel chain] w3 (Hcl3 & Hrec & Hchain & Hhead).
  simpl in *. subst chain.
  set (e := se_event sel) in *. destruct Hcl3 as (Hl & Hg & Hp & Hh & Hf).
  pose proof Hhead as [before Hlog]%head_event_Some.
  assert (e ∈ log (aw_log w3)) as He by (rewrite Hlog; set_solver).
  apply steps_call. simpl. unfold on_gate. simpl.
  pose proof (publish_selected_epoch_inv (aw_gate w3) b (mk_ActivationChain ws (log (aw_log w3))) (tr_candidate r)) as Hpub.
  destruct (publish_selected_epoch _ _ _ _) as [g' [u|error]]; simpl.
  2: { subst g'. apply steps_stop. eapply stop_closed; try done. split; [apply (rc_event_id _ _ Hrec)|].
       exists e. split_and!; [done..|]. apply (rc_operation _ _ Hrec). }
  destruct Hpub as (_ & e' & (_ & Hhead' & _) & ->). assert (e' = e) as -> by congruence. rewrite Hg.
  assert (kept (set_gate w3 (swapped_gate b e))) as Hk by (by destruct Hl as (? & ? & ? & _)).
  eapply steps_bind; [by apply (cache_steps b)|]. intros receipt w4 ->.
  apply steps_call. simpl. unfold on_gate. simpl.
  pose proof (reopen_after_reconciliation_inv (swapped_gate b e) b (EpochHead (ep_epoch (tr_pins r)))) as Hre.
  destruct (reopen_after_reconciliation _ _ _) as [g' [u'|error]]; simpl.
  2: { subst g'. apply steps_stop. eapply stop_after; [done..|]. by exists b. }
  destruct Hre as [_ ->]. eapply steps_bind; [by apply acknowledge_steps|].
  intros ack w5 ->. apply steps_ret. split; [done|]. split_and!; [|done..].
  exists before. split; [done|]. transitivity (ev_predecessor_epoch e); [|apply (rc_predecessor _ _ Hrec)].
  symmetry. apply history_head_extends. rewrite <- Hlog. apply law_history, Hl.
Qed.
End activate.
