(* ===== verification/ActivationRecovery.v ===== *)
(** Recovery of an interrupted activation: what its outcomes mean, when it converges, and the tickets
    it leaves that it will not accept again. *)

From S2P Require Import Prelude.
From S2P Require Import Encoding.
From S2P Require Import CommandModel.
From S2P Require Import EffectContract.
From S2P Require Import ActivationModel.
From S2P Require Import ActivationTheory.
From S2P Require Import AdmissionModel.
From S2P Require Import AdmissionTheory.
From S2P Require Import TransactionModel.
From S2P Require Import TransactionPorts.
From S2P Require Import TransactionTheory.
Local Open Scope Z_scope.

(** The ticket names the request. *)
Definition names (r : ActivationRecoveryRequest) (t : ActivationReconciliationTicket) : Prop :=
  ti_workspace_id t = request_workspace r /\ ti_operation_id t = request_operation r
  /\ ti_candidate_epoch t = ep_epoch (rr_pins r) /\ ti_expected_head t = expected_head (rr_command r)
  /\ ti_execution_fence t = rr_execution_fence r /\ ti_event_id t = rr_event_id r
  /\ ti_transaction t = rr_transaction r /\ ti_operation_selection t = rr_operation_selection r.

Lemma ticket_matches_names r t : recovery_ticket_matches r t = true -> names r t.
Proof. unfold recovery_ticket_matches. intros H. gate_facts. done. Qed.

Lemma validate_recovered_Ok r e tv chain u :
  selects_epoch r -> validate_recovered_selection r e tv chain = Ok u ->
  records r e /\ chain_workspace_id chain = request_workspace r /\ head_event chain = Some e.
Proof.
  intros Hr. unfold validate_recovered_selection. set (c := mk_ActivationAppendContract _ _ _ _ _ _ _ _ _ _ _ _ _).
  destruct (validate_committed_selection _ _ _ _) as [[]|v] eqn:Hv; [|by destruct v].
  intros _. apply validate_committed_Ok in Hv as (He & _ & _ & Hw & Hh & _).
  apply (contract_event_records r) in He as [Hrec _]; done.
Qed.

(** A request that was accepted can be turned into its row. *)
Lemma row_from_attempt_total id a pred n p comp ret cm c f epoch :
  validate_request_contract a p = Ok (c, f, epoch) ->
  row_from_attempt id a pred n p comp ret cm
  = Ok (mk_DurableActivationRow id (owner_workspace_id (ownership c)) (operation_id (identity c)) pred
          (expected_head c) n f p comp ret cm).
Proof.
  intros Hv. pose proof (validate_request_Ok _ _ _ _ _ Hv) as (-> & -> & -> & Hpins).
  unfold validate_request_contract in Hv. unfold row_from_attempt.
  destruct (payload (attempt_command a)); simpl in *; try done;
    repeat case_match; simplify_eq/=; gate_facts; congruence || done.
Qed.

Lemma records_validate r e tv ws l before :
  selects_epoch r -> records r e -> request_workspace r = ws -> l = before ++ [e] ->
  tv_reference tv = ep_table_versions (ev_pins e) ->
  validate_recovered_selection r e tv (mk_ActivationChain ws l) = Ok tt.
Proof.
  intros Hr [Hid Hw Ho Hp Hf Hpi Hc Hre Ht Hs] <- -> Htv.
  unfold validate_recovered_selection, validate_committed_selection, contract_event, event_from_attempt. simpl.
  rewrite (row_from_attempt_total _ _ _ _ _ _ _ _ _ _ _ Hr). simpl.
  assert (is_head (mk_ActivationChain (request_workspace r) (before ++ [e])) e = true) as Hh
    by (apply is_head_true, head_event_Some; by exists before).
  rewrite Hh, chain_head_snoc, !bool_decide_eq_true_2; try done; try congruence.
  destruct e as [? ? ? ? ? ? ? ? ? ? []]; unfold from_durable_parts; simpl in *; subst. done.
Qed.

Section recover.
Context {L : Type} (ws : WorkspaceId) `{!ActivationLog L, !ActivationLogLaws L ws} `{!Blake3}.
Context (r : ActivationRecoveryRequest) (t : ActivationReconciliationTicket)
  (recovery : ActivationRecoveryAttempt) (w0 : ActivationWorld L).

Let op : OperationId := request_operation r.
Let active : WriterFence := recovering_fence recovery.

Context (Hreq : selects_epoch r) (Hws : request_workspace r = ws).
Context (Hok : log_ok (aw_log w0)) (Hauth : authored r (aw_log w0)) (Hknow : knowledge_holds t (aw_log w0)).

Definition consistent (w : ActivationWorld L) : Prop := log_ok (aw_log w) /\ authored r (aw_log w).

(** The event of the request is the last of the log. *)
Definition selected_last (e : ActivationEvent) (l : L) : Prop :=
  records r e /\ exists before, log l = before ++ [e].

Definition recovered (o : ActivationTransactionOutcome) (w : ActivationWorld L) : Prop :=
  consistent w /\
  match o with
  | Activated receipt =>
      selected_last (ae_event receipt) (aw_log w) /\ gate_phase (aw_gate w) = PhaseOpen
      /\ aw_cache w = Some (ae_cache receipt)
  | NotSelected _ => absent op (aw_log w) /\ gate_phase (aw_gate w) = PhaseOpen
  | ReconciliationNeeded t' =>
      names r t' /\ knowledge_holds t' (aw_log w)
      /\ (gate_phase (aw_gate w) = PhaseOpen ->
          gate_phase (aw_gate w0) = PhaseOpen \/ exists e, selected_last e (aw_log w))
  end.

(** Leaving with a ticket. *)
Lemma stop_recovery stage reason k p w :
  consistent w ->
  match k with
  | NotAttempted => absent op (aw_log w)
  | SelectionUnknown => True
  | ReadBack id => exists e, e ∈ log (aw_log w) /\ ev_event_id e = id /\ ev_operation_id e = op
  end ->
  (gate_phase (aw_gate w) = PhaseOpen ->
   gate_phase (aw_gate w0) = PhaseOpen \/ exists e, selected_last e (aw_log w)) ->
  recovered (reconciliation r stage reason k p) w.
Proof. intros Hc Hk Hg. split; [done|]. split_and!; [done| |done]. by destruct k. Qed.

Lemma selected_elem e l : selected_last e l -> e ∈ log l /\ ev_event_id e = ev_event_id e /\ ev_operation_id e = op.
Proof. intros [Hrec [before ->]]. split_and!; [set_solver|done|apply (rc_operation _ _ Hrec)]. Qed.

Lemma recover_not_selected_steps chain evidence w :
  consistent w -> aw_gate w = aw_gate w0 -> absent op (aw_log w) ->
  steps (recover_not_selected r t active chain evidence) w (fun x => recovered (Activated x)) recovered.
Proof.
  intros Hc Hg Ha. unfold recover_not_selected.
  assert (forall stage reason k p, (k = NotAttempted \/ k = SelectionUnknown) ->
            recovered (reconciliation r stage reason k p) w) as Hstop.
  { intros stage reason k p Hk. apply stop_recovery; [done|by destruct Hk as [-> | ->]|]. rewrite Hg. by left. }
  destruct (is_read_back _); [apply steps_stop; auto|].
  destruct (recovered_unchanged_chain_matches r chain); simpl; [|apply steps_stop; auto].
  apply steps_call. simpl. unfold on_gate.
  pose proof (recover_proved_no_selection_inv (aw_gate w) (expected_head (rr_command r)) (rr_execution_fence r) active chain) as Hi.
  destruct (recover_proved_no_selection _ _ _ _ _) as [g' [u|error]]; simpl.
  - destruct Hi as [Ho _]. apply steps_stop. by split.
  - subst g'. apply steps_stop. by apply Hstop; left.
Qed.

Lemma reconcile_cache_steps e chain k p w :
  consistent w -> (forall c reason, recovered (reconciliation r CacheReconciliation reason k p) (set_cache w c)) ->
  steps (reconcile_cache r e chain active k p) w (fun receipt w' => w' = set_cache w (Some receipt)) recovered.
Proof.
  intros Hc Hstop. apply steps_call. unfold reconcile_selected, world_cache.
  pose proof (cache_answer (aw_workspace w) e chain active (aw_cache w)) as Ha.
  destruct (cache_reconcile_selected _ _ _ _ _) as [c x]. simpl.
  destruct x as [receipt|d|d]; [|by apply steps_stop..].
  case_match; [|by apply steps_stop]. subst c. by apply steps_ret.
Qed.

Lemma acknowledgement_steps e acknowledgement w :
  consistent w -> selected_last e (aw_log w) ->
  steps match acknowledgement with
        | Some receipt => st_ret receipt
        | None => request_acknowledgement r e active (ReadBack (ev_event_id e))
        end w (fun _ w' => w' = w) recovered.
Proof.
  intros Hc He. destruct acknowledgement as [receipt|]; [by apply steps_ret|].
  apply steps_call. unfold acknowledge, world_acknowledgements. simpl.
  assert (forall reason, recovered (reconciliation r Acknowledgement reason (ReadBack (ev_event_id e)) PostureReopened) w)
    as Hstop.
  { intros reason. apply stop_recovery; [done| |by intros; right; exists e]. exists e. by apply selected_elem. }
  destruct (idempotent_acknowledge _ _ _); [|by apply steps_stop..].
  case_match; [by apply steps_ret|by apply steps_stop].
Qed.

Lemma recover_selected_steps selection chain acknowledgement evidence w :
  consistent w -> aw_gate w = aw_gate w0 -> chain = mk_ActivationChain ws (log (aw_log w)) ->
  steps (recover_selected r t active selection chain acknowledgement evidence) w
    (fun x => recovered (Activated x)) recovered.
Proof.
  intros Hc Hg Hchain. unfold recover_selected. set (e := se_event selection).
  eapply (steps_bind _ _ _ _ (fun _ w' => w' = w /\ selected_last e (aw_log w))).
  { destruct (validate_recovered_selection _ _ _ _) as [u|v] eqn:Hv.
    - apply validate_recovered_Ok in Hv as (Hrec & _ & Hh); [|done]. apply steps_ret. split; [done|].
      split; [done|]. subst chain. by eapply head_event_Some.
    - apply steps_stop, stop_recovery; [done|done|]. rewrite Hg. by left. }
  intros _ w' [-> He]. pose proof (selected_elem _ _ He) as Helem.
  assert (forall stage reason p, recovered (reconciliation r stage reason (ReadBack (ev_event_id e)) p) w) as Hstop.
  { intros stage reason p. apply stop_recovery; [done|by exists e|]. intros _. right. by exists e. }
  eapply (steps_bind _ _ _ _ (fun _ w' => w' = w)).
  { destruct acknowledgement as [receipt|]; [|by apply steps_ret].
    destruct (recovered_acknowledgement_matches _ _ _ _); [by apply steps_ret|by apply steps_stop]. }
  intros _ w' ->. apply steps_call. simpl. unfold on_gate. fold e.
  pose proof (recover_selected_epoch_inv (aw_gate w) (expected_head (rr_command r)) (rr_execution_fence r) active e chain
                (bool_decide (ti_admission_posture t = PostureReopened))) as Hi.
  destruct (recover_selected_epoch _ _ _ _ _ _ _) as [g' [publication|error]]; simpl.
  2: { subst g'. replace (set_gate w (aw_gate w)) with w by (by destruct w). by apply steps_stop. }
  assert (forall g c stage reason p,
            recovered (reconciliation r stage reason (ReadBack (ev_event_id e)) p) (set_cache (set_gate w g) c)) as Hstop'.
  { intros g c stage reason p. apply stop_recovery; [done|by exists e|]. intros _. right. by exists e. }
  eapply steps_bind; [apply reconcile_cache_steps; [done|]; intros; apply Hstop'|]. intros receipt w' ->.
  eapply (steps_bind _ _ _ _ (fun _ w' => consistent w' /\ aw_log w' = aw_log w /\ aw_cache w' = Some receipt
                                          /\ gate_phase (aw_gate w') = PhaseOpen)).
  { destruct publication.
    - apply steps_call. simpl. unfold on_gate. simpl.
      pose proof (reopen_recovered_selection_inv g' e chain active) as Hr.
      destruct (reopen_recovered_selection _ _ _ _) as [g'' [u|error]]; simpl.
      + apply steps_ret. by destruct Hr.
      + apply steps_stop. apply (Hstop' g'').
    - apply steps_ret. destruct Hi as (_ & -> & Ho). done. }
  intros _ w' (Hc' & Hl & Hcache & Ho). rewrite <- Hl in He.
  eapply steps_bind; [by apply acknowledgement_steps|]. intros ack w'' ->. by apply steps_ret.
Qed.

Lemma recover_spec : recovered (recover r t recovery w0).2 (recover r t recovery w0).1.
Proof.
  unfold recover. apply (outcome_ends recovered). fold active.
  assert (forall reason, recovered (reconciliation r (ti_stage t) reason SelectionUnknown (ti_admission_posture t)) w0)
    as Hstop by (intros reason; apply stop_recovery; [done|done|by left]).
  case_bool_decide; simpl; [|by apply steps_stop].
  destruct (recovery_ticket_matches r t) eqn:Hm; simpl; [|by apply steps_stop].
  destruct (recovery_fence_authorizes _ _); simpl; [|by apply steps_stop].
  apply steps_call. unfold read_operation_marker, world_markers, on_log.
  pose proof (law_marker (operation_marker_request r active) (aw_log w0) Hok) as Hr.
  destruct (log_marker _ _) as [l' x]. destruct Hr as (Hl' & Hgrow & Hx). simpl.
  assert (consistent (set_log w0 l')) as Hc by (split; [done|by eapply grows_authored]).
  destruct x as [selection chain ack evidence|chain evidence|d].
  - destruct Hx as (Hx & _). by apply recover_selected_steps.
  - destruct Hx as [_ Ha]. by apply recover_not_selected_steps.
  - apply steps_stop. apply stop_recovery; [done| |by left]. apply ticket_matches_names in Hm as (_ & Hop & _).
    unfold knowledge_holds in Hknow. rewrite Hop in Hknow.
    destruct (ti_durable_selection t); [by eapply grows_absent|done|].
    destruct Hknow as (e & He & ?). exists e. split; [by eapply grows_elem|done].
Qed.

(** ** Convergence *)

Let l1 : L := (log_marker (operation_marker_request r active) (aw_log w0)).1.
Let answer : ActivationOperationMarkerOutcome := (log_marker (operation_marker_request r active) (aw_log w0)).2.

(** The marker read settles the outcome; an acknowledgement it reports is one of this activation. *)
Definition settled : Prop :=
  match answer with
  | MarkerUnknown _ => False
  | MarkerSelected selection _ (Some ack) _ =>
      recovered_acknowledgement_matches r (se_event selection) active ack = true
  | MarkerSelected _ _ None _ | MarkerProvedNotSelected _ _ => True
  end.

(** Nothing was activated after this operation, or in its place. *)
Definition undisturbed : Prop :=
  (forall e, e ∈ log l1 -> ev_operation_id e = op -> last (log l1) = Some e)
  /\ (absent op l1 ->
      chain_head (mk_ActivationChain ws (log l1)) = expected_head (rr_command r)
      /\ forall e, e ∈ log l1 -> ev_event_id e <> rr_event_id r
           /\ ac_transaction (ev_commit e) <> rr_transaction r
           /\ ac_operation_selection (ev_commit e) <> rr_operation_selection r).

(** The gate as the transaction left it, as an earlier recovery left it, or after a restart. *)
Definition gate_fits (g : FabricAdmissionRuntime) : Prop :=
  match gate_phase g with
  | PhaseOpen => ti_admission_posture t = PostureReopened \/ absent op l1
  | PhaseDraining => False
  | PhaseRecovering durable_head => durable_head = chain_head (mk_ActivationChain ws (log l1))
  | PhaseClosed b => ba_expected_head b = expected_head (rr_command r) /\ ba_authority_fence b = rr_execution_fence r
  | PhaseSwapped b event epoch =>
      ti_admission_posture t = PostureSwapped /\ event = rr_event_id r /\ epoch = ep_epoch (rr_pins r)
      /\ recovery_fence_authorizes (ba_authority_fence b) active = true
  end.

Record recoverable : Prop := {
  rv_attempt : rr_attempt r = recovered_attempt recovery;
  rv_ticket : recovery_ticket_matches r t = true;
  rv_fence : recovery_fence_authorizes (rr_execution_fence r) active = true;
  rv_settled : settled;
  rv_undisturbed : undisturbed;
  rv_workspace : aw_workspace w0 = ws;
  rv_gate_workspace : gate_workspace_id (aw_gate w0) = ws;
  rv_gate : gate_fits (aw_gate w0);
  rv_generation : gate_generation (aw_gate w0) < u64_max;
  rv_barriers : gate_next_barrier_id (aw_gate w0) < u64_max;
  rv_cache : match aw_cache w0 with
             | Some prior => ca_workspace_id prior = ws /\ recovery_fence_authorizes (ca_active_fence prior) active = true
             | None => True
             end
}.

(** Decided: no reconciliation is left to do. *)
Definition decided (o : ActivationTransactionOutcome) (_ : ActivationWorld L) : Prop :=
  match o with Activated _ | NotSelected _ => True | ReconciliationNeeded _ => False end.

Lemma cache_answers e chain :
  ev_workspace_id e = ws -> chain_workspace_id chain = ws -> head_event chain = Some e ->
  recovery_fence_authorizes (ev_execution_fence e) active = true ->
  match aw_cache w0 with
  | Some prior => ca_workspace_id prior = ws /\ recovery_fence_authorizes (ca_active_fence prior) active = true
  | None => True
  end ->
  exists receipt, cache_reconcile_selected ws e chain active (aw_cache w0) = (Some receipt, CacheReconciled receipt)
    /\ (records r e -> cache_receipt_matches r e active receipt = true).
Proof.
  intros Hw Hc He Hf Hprior. assert (chain_head chain = EpochHead (ep_epoch (ev_pins e))) as Hh
    by (unfold chain_head; by rewrite He). apply is_head_true in He.
  unfold cache_reconcile_selected. rewrite He, Hf, !bool_decide_eq_true_2 by done. simpl.
  eexists. split.
  - destruct (aw_cache w0) as [prior|]; [|done]. destruct Hprior as [Hp1 Hp2].
    by rewrite Hp2, bool_decide_eq_true_2.
  - intros [Hid Hrw Ho Hp Hfe Hpi Hcm Hre Ht Hs]. unfold cache_receipt_matches. simpl.
    rewrite !bool_decide_eq_true_2; unfold request_workspace, request_operation in *; congruence || done.
Qed.

Lemma acknowledges e :
  records r e -> recovery_fence_authorizes (rr_execution_fence r) active = true ->
  exists ack, idempotent_acknowledge ws e active = Acknowledged ack /\ acknowledgement_matches r e active ack = true.
Proof.
  intros [Hid Hw Ho Hp Hfe Hpi Hcm Hre Ht Hs] Hf. unfold idempotent_acknowledge.
  rewrite Hfe, Hf, bool_decide_eq_true_2 by congruence. simpl. eexists. split; [done|].
  unfold acknowledgement_matches, acknowledgement_identity. simpl.
  rewrite !bool_decide_eq_true_2; unfold request_workspace, request_operation in *; congruence || done.
Qed.

(** An operation that was read back cannot turn out absent. *)
Lemma read_back_present l : grows (fun _ => False) (aw_log w0) l -> names r t -> absent op l ->
  is_read_back (ti_durable_selection t) = false.
Proof.
  intros Hgrow (_ & Hop & _) [Ha _]. unfold knowledge_holds in Hknow. rewrite Hop in Hknow.
  destruct (ti_durable_selection t) as [| |id]; [done..|]. destruct Hknow as (e & He & _ & Heq).
  destruct (Ha e); [by eapply grows_elem|done].
Qed.

(** The cache and the acknowledgement answer. *)
Lemma reconcile_cache_succeeds e chain k p (w : ActivationWorld L) Ψ :
  records r e -> chain_workspace_id chain = ws -> head_event chain = Some e ->
  recovery_fence_authorizes (rr_execution_fence r) active = true ->
  aw_workspace w = ws -> aw_cache w = aw_cache w0 ->
  match aw_cache w0 with
  | Some prior => ca_workspace_id prior = ws /\ recovery_fence_authorizes (ca_active_fence prior) active = true
  | None => True
  end ->
  steps (reconcile_cache r e chain active k p) w (fun receipt w' => w' = set_cache w (Some receipt)) Ψ.
Proof.
  intros Hr Hc Hh Hf Hw Hcw Hprior.
  destruct (cache_answers e chain) as (receipt & Hcr & Hcm); [|done|done| |done|].
  - by rewrite (rc_workspace _ _ Hr).
  - by rewrite (rc_fence _ _ Hr).
  - apply steps_call. unfold reconcile_selected, world_cache. rewrite Hw, Hcw, Hcr. simpl. by rewrite Hcm.
Qed.

Lemma acknowledgement_succeeds e ack k (w : ActivationWorld L) Ψ :
  records r e -> recovery_fence_authorizes (rr_execution_fence r) active = true -> aw_workspace w = ws ->
  steps match ack with
        | Some receipt => st_ret receipt
        | None => request_acknowledgement r e active k
        end w (fun _ _ => True) Ψ.
Proof.
  intros Hr Hf Hw. destruct ack as [receipt|]; [done|]. destruct (acknowledges e Hr Hf) as (a & Hak & Ham).
  apply steps_call. unfold acknowledge, world_acknowledgements. simpl. rewrite Hw, Hak. simpl. by rewrite Ham.
Qed.

(** The gate lets the selection be taken up. *)
Lemma gate_resumable e :
  gate_fits (aw_gate w0) -> e ∈ log l1 -> ev_operation_id e = op -> records r e -> last (log l1) = Some e ->
  resumable (aw_gate w0) (expected_head (rr_command r)) (rr_execution_fence r) active e
    (bool_decide (ti_admission_posture t = PostureReopened)).
Proof.
  intros Hg He Hop Hr [before Hlog]%last_Some. unfold gate_fits, resumable in *.
  rewrite (rc_event_id _ _ Hr). destruct (gate_phase (aw_gate w0)); try done.
  - destruct Hg as [Hg|[Ha _]]; [by apply bool_decide_eq_true_2|]. by destruct (Ha e He).
  - by rewrite Hg, Hlog, chain_head_snoc.
  - rewrite (rc_pins _ _ Hr). naive_solver.
Qed.

Lemma recover_selected_decides selection chain ack evidence :
  recoverable -> chain = mk_ActivationChain ws (log l1) ->
  se_event selection ∈ log l1 -> ev_operation_id (se_event selection) = op -> authored r l1 ->
  tv_reference (se_table_versions selection) = ep_table_versions (ev_pins (se_event selection)) ->
  (forall a, ack = Some a -> recovered_acknowledgement_matches r (se_event selection) active a = true) ->
  steps (recover_selected r t active selection chain ack evidence) (set_log w0 l1)
    (fun x => decided (Activated x)) decided.
Proof.
  intros [_ Hm Hf _ [Hlast _] Hw Hgw Hg Hgen Hbar Hcache] -> He Hop [Hrec _] Htv Hack.
  unfold recover_selected. set (e := se_event selection) in *. pose proof (Hrec e He Hop) as Hr.
  pose proof (Hlast e He Hop) as [before Hlog]%last_Some.
  assert (head_event (mk_ActivationChain ws (log l1)) = Some e) as Hhead by (by apply Hlast).
  pose proof (rc_fence _ _ Hr) as Hfe. pose proof (rc_pins _ _ Hr) as Hpi.
  rewrite (records_validate r e _ ws _ before) by done. apply steps_bind_ret.
  apply steps_bind with (fun _ w => w = set_log w0 l1); [destruct ack as [a|]; [by rewrite (Hack a)|done]|].
  intros _ w ->. apply steps_call. simpl. unfold on_gate. simpl.
  pose proof (recover_selected_epoch_Ok (aw_gate w0) (expected_head (rr_command r)) (rr_execution_fence r) active e
                (mk_ActivationChain ws (log l1)) Hf (eq_sym Hgw) Hgen Hbar
                (bool_decide (ti_admission_posture t = PostureReopened)) Hhead (rc_predecessor _ _ Hr) Hfe) as Hok'.
  specialize (Hok' (gate_resumable e Hg He Hop Hr (Hlast e He Hop))).
  destruct (recover_selected_epoch _ _ _ _ _ _ _) as [g' x].
  assert (forall b, x = Ok b -> steps (reconcile_cache r e (mk_ActivationChain ws (log l1)) active
            (ReadBack (ev_event_id e)) match b with PublishedClosed => PostureSwapped | AlreadyReopened => PostureReopened end)
            (set_gate (set_log w0 l1) g')
            (fun receipt w => w = set_cache (set_gate (set_log w0 l1) g') (Some receipt)) decided) as Hc.
  { intros b _. by apply reconcile_cache_succeeds. }
  destruct x as [b|error]; [|done]. simpl. eapply steps_bind; [by apply Hc|]. intros receipt w ->.
  apply steps_bind with (fun _ w => aw_workspace w = ws).
  - destruct b; [|done]. destruct Hok' as (b & Hp & Hb & Hg1 & Hg2). apply steps_call. simpl. unfold on_gate. simpl.
    pose proof (reopen_recovered_selection_Ok g' active e (mk_ActivationChain ws (log l1)) b) as Hre.
    destruct (reopen_recovered_selection _ _ _ _) as [g'' x]. simpl in *.
    by rewrite Hre by (done || congruence || lia).
  - intros _ w Hw'. eapply steps_bind; [by apply acknowledgement_succeeds|]. done.
Qed.

(** The marker says that nothing was selected: the ticket did not know better, and the gate reopens. *)
Lemma gate_reopens :
  gate_fits (aw_gate w0) -> is_read_back (ti_durable_selection t) = false -> recovery_stage_is_causal t = true ->
  absent op l1 -> chain_head (mk_ActivationChain ws (log l1)) = expected_head (rr_command r) ->
  match gate_phase (aw_gate w0) with
  | PhaseOpen => True
  | PhaseRecovering durable_head => durable_head = expected_head (rr_command r)
  | PhaseClosed b => ba_expected_head b = expected_head (rr_command r) /\ ba_authority_fence b = rr_execution_fence r
  | PhaseDraining | PhaseSwapped _ _ _ => False
  end.
Proof.
  intros Hg Hk Hcausal Ha Hh. unfold gate_fits in Hg. destruct (gate_phase (aw_gate w0)); try done; [congruence|].
  destruct Hg as [Hp _]. unfold recovery_stage_is_causal in Hcausal. rewrite Hk, Hp in Hcausal.
  by destruct (ti_stage t).
Qed.

Lemma recover_not_selected_decides chain evidence :
  recoverable -> chain = mk_ActivationChain ws (log l1) -> absent op l1 -> grows (fun _ => False) (aw_log w0) l1 ->
  steps (recover_not_selected r t active chain evidence) (set_log w0 l1)
    (fun x => decided (Activated x)) decided.
Proof.
  intros [_ Hm Hf _ [_ Hun] Hw Hgw Hg Hgen _ _] -> Ha Hgrow. unfold recover_not_selected.
  pose proof (read_back_present _ Hgrow (ticket_matches_names _ _ Hm) Ha) as Hk. rewrite Hk. simpl.
  destruct (Hun Ha) as [Hh Hids].
  assert (recovered_unchanged_chain_matches r (mk_ActivationChain ws (log l1)) = true) as ->.
  { unfold recovered_unchanged_chain_matches. rewrite !bool_decide_eq_true_2 by done. simpl. apply forallb_forall.
    intros e He%list_elem_of_In. destruct (Hids e He) as (? & ? & ?). destruct Ha as [Ha _]. specialize (Ha e He).
    by rewrite !bool_decide_eq_false_2. }
  simpl. apply steps_call. simpl. unfold on_gate. simpl.
  pose proof (recover_proved_no_selection_Ok (aw_gate w0) (expected_head (rr_command r)) (rr_execution_fence r) active
                (mk_ActivationChain ws (log l1)) Hf (eq_sym Hgw) Hgen Hh) as Hre.
  destruct (recover_proved_no_selection _ _ _ _ _) as [g' x]. simpl in *. rewrite Hre; [done|].
  apply gate_reopens; [done|done| |done|done].
  unfold recovery_ticket_matches in Hm. by apply andb_true_iff in Hm as [_ Hm].
Qed.

Lemma recover_decides : recoverable -> decided (recover r t recovery w0).2 (recover r t recovery w0).1.
Proof.
  intros Hrec. pose proof (rv_settled Hrec) as Hset.
  unfold recover. apply (outcome_ends decided). fold active.
  rewrite bool_decide_eq_true_2, (rv_ticket Hrec), (rv_fence Hrec) by apply (rv_attempt Hrec). simpl. apply steps_call.
  pose proof (law_marker (operation_marker_request r active) (aw_log w0) Hok) as Hr.
  pose proof (fun x c a e => recover_selected_decides x c a e Hrec) as Hsel.
  pose proof (fun c e => recover_not_selected_decides c e Hrec) as Hno.
  unfold read_operation_marker, world_markers, on_log. unfold l1 in Hsel, Hno. clear Hrec. unfold settled, answer in Hset.
  destruct (log_marker (operation_marker_request r active) (aw_log w0)) as [l' x]. simpl in *.
  destruct Hr as (Hl' & Hgrow & Hx). destruct x as [selection chain ack evidence|chain evidence|d]; [| |done].
  - destruct Hx as (Hx & He & Hop & Htv). apply Hsel; [done..|by eapply grows_authored|done|]. by intros a ->.
  - destruct Hx as [Hx Habs]. by apply Hno.
Qed.

(** The posture a ticket records is one the recovery can start from, also after a restart. *)
Lemma posture_fits g :
  names r t -> recovery_fence_authorizes (rr_execution_fence r) active = true ->
  posture_holds t g -> gate_fits g.
Proof.
  intros (_ & _ & Hep & Hh & Hf & Hid & _) Hact Hp. unfold posture_holds in Hp. unfold gate_fits.
  destruct (ti_admission_posture t) eqn:Hpo; [done| | |by rewrite Hp; left].
  - destruct Hp as (b & -> & Hb1 & Hb2). by rewrite <- Hh, <- Hf.
  - destruct Hp as (b & -> & Hb). split_and!; [done..|]. by rewrite Hb, Hf.
Qed.

(** Where and how the recovery runs after an activation that ended in [w1]: by the same attempt, under
    an authorized fence, over the gate as it was left or as a restart installs it. *)
Record resumes (w1 : ActivationWorld L) : Prop := {
  re_attempt : rr_attempt r = recovered_attempt recovery;
  re_fence : recovery_fence_authorizes (rr_execution_fence r) active = true;
  re_settled : settled;
  re_undisturbed : undisturbed;
  re_workspace : aw_workspace w0 = ws;
  re_gate_workspace : gate_workspace_id (aw_gate w0) = ws;
  re_gate : aw_gate w0 = aw_gate w1
            \/ gate_phase (aw_gate w0) = PhaseRecovering (chain_head (mk_ActivationChain ws (log l1)));
  re_generation : gate_generation (aw_gate w0) < u64_max;
  re_barriers : gate_next_barrier_id (aw_gate w0) < u64_max;
  re_cache : match aw_cache w0 with
             | Some prior => ca_workspace_id prior = ws /\ recovery_fence_authorizes (ca_active_fence prior) active = true
             | None => True
             end
}.

Lemma resumes_recoverable w1 :
  recovery_ticket_matches r t = true -> posture_holds t (aw_gate w1) -> resumes w1 -> recoverable.
Proof.
  intros Ht Hp [Ha Hf Hse Hun Hw Hgw Hg Hgen Hbar Hc]. split; try done.
  destruct Hg as [->|Hg]; [|by unfold gate_fits; rewrite Hg].
  apply posture_fits; [by apply ticket_matches_names|done|done].
Qed.
End recover.

(** ** Tickets that recovery leaves and refuses *)

(** A ticket that is not causal, and whose stage and posture stay so when its selection is unknown. *)
Definition stranded (t : ActivationReconciliationTicket) : Prop :=
  recovery_stage_is_causal t = false
  /\ (ti_stage t <> DurableAppendReadback \/ ti_admission_posture t <> PostureClosed).

Section stranded.
Context {W : Type} `{!ActivationRecoveryAdmissionPort W, !ActivationOperationMarkerPort W, !ActivationCachePort W,
  !ActivationAcknowledgementPort W}.

(** Recoveries with the ticket of one as the ticket of the next; anything happens to the world in between. *)
Fixpoint recover_again (r : ActivationRecoveryRequest) (t : ActivationReconciliationTicket)
    (runs : list ((W -> W) * ActivationRecoveryAttempt)) (w : W) : W * ActivationTransactionOutcome :=
  match runs with
  | [] => (w, ReconciliationNeeded t)
  | (meanwhile, recovery) :: runs =>
      match recover r t recovery (meanwhile w) with
      | (w, ReconciliationNeeded t) => recover_again r t runs w
      | (w, decision) => (w, decision)
      end
  end.

(** A stranded ticket is refused before any port is asked, and its successor is stranded. *)
Lemma stranded_refused r t recovery (w : W) :
  stranded t -> exists t', recover r t recovery w = (w, ReconciliationNeeded t') /\ stranded t'.
Proof.
  intros [Hc Hs]. unfold recover.
  assert (recovery_ticket_matches r t = false) as ->
    by (unfold recovery_ticket_matches; by rewrite Hc, andb_false_r).
  assert (forall reason, exists t', reconciliation r (ti_stage t) reason SelectionUnknown (ti_admission_posture t)
            = ReconciliationNeeded t' /\ stranded t') as Hstop.
  { intros reason. eexists. split; [done|]. split; [|done]. unfold recovery_stage_is_causal. simpl.
    destruct (ti_stage t), (ti_admission_posture t); naive_solver. }
  case_bool_decide; simpl.
  - destruct (Hstop (ReadbackViolation RecoveryTicketMismatch)) as (t' & Ht' & ?). exists t'. by unfold outcome; simpl; rewrite Ht'.
  - destruct (Hstop (ReadbackViolation RecoveryAttemptMismatch)) as (t' & Ht' & ?). exists t'. by unfold outcome; simpl; rewrite Ht'.
Qed.

Lemma stranded_forever r runs t (w : W) :
  stranded t -> exists t', (recover_again r t runs w).2 = ReconciliationNeeded t' /\ stranded t'.
Proof.
  revert t w. induction runs as [|[meanwhile recovery] runs IH]; intros t w Hs; simpl; [by exists t|].
  destruct (stranded_refused r t recovery (meanwhile w) Hs) as (t' & -> & Ht'). auto.
Qed.

(** One unreadable marker while the epoch is published strands a ticket that was good. *)
Lemma marker_unknown_strands r t recovery (w w' : W) d :
  rr_attempt r = recovered_attempt recovery -> recovery_ticket_matches r t = true ->
  recovery_fence_authorizes (rr_execution_fence r) (recovering_fence recovery) = true ->
  ti_admission_posture t = PostureSwapped \/ ti_admission_posture t = PostureReopened ->
  read_operation_marker (operation_marker_request r (recovering_fence recovery)) w = (w', MarkerUnknown d) ->
  exists t', recover r t recovery w = (w', ReconciliationNeeded t') /\ stranded t'.
Proof.
  intros Ha Hm Hf Hp Hmark. unfold recover, outcome, st_bind, call.
  rewrite bool_decide_eq_true_2, Hm, Hf by done. simpl. rewrite Hmark. eexists. split; [done|].
  split; [|right; simpl; by destruct Hp as [-> | ->]]. unfold recovery_stage_is_causal. simpl.
  by rewrite bool_decide_eq_false_2 by (by destruct Hp as [-> | ->]).
Qed.

(** From then on no sequence of recoveries decides the activation, whatever the ports would answer. *)
Theorem unreadable_marker_strands_the_activation r t recovery (w w' : W) d runs :
  rr_attempt r = recovered_attempt recovery -> recovery_ticket_matches r t = true ->
  recovery_fence_authorizes (rr_execution_fence r) (recovering_fence recovery) = true ->
  ti_admission_posture t = PostureSwapped \/ ti_admission_posture t = PostureReopened ->
  read_operation_marker (operation_marker_request r (recovering_fence recovery)) w = (w', MarkerUnknown d) ->
  exists t', (recover_again r t ((id, recovery) :: runs) w).2 = ReconciliationNeeded t'.
Proof.
  intros Ha Hm Hf Hp Hmark. destruct (marker_unknown_strands r t recovery w w' d Ha Hm Hf Hp Hmark) as (t1 & Hr & Hs).
  simpl. unfold id. rewrite Hr. destruct (stranded_forever r runs t1 w' Hs) as (t2 & Ht2 & _). by exists t2.
Qed.
End stranded.
