(* ===== verification/ActivationEffect.v ===== *)
(** The activation family of the command effects (src/src/fabric/activation_command_effect.rs): how
    the command actor prepares, commits and reconciles an epoch activation through the coordinator and
    the recovery of activation_transaction.rs. *)

From S2P Require Import Prelude.
From S2P Require Import CommandModel.
From S2P Require Import ActorModel.
From S2P Require Import EffectContract.
From S2P Require Import ActivationModel.
From S2P Require Import AdmissionModel.
From S2P Require Import TransactionModel.
Local Open Scope Z_scope.

(** ** Bindings of a request to its transaction *)

Inductive ActivationCommandBindingError := TransactionMismatch | TicketMismatch.

Record ResolvedActivationTransaction := mk_ResolvedActivationTransaction {
  rt_request : ActivationTransactionRequest;
  rt_transaction : TransactionRef
}.

Record ResolvedActivationRecovery := mk_ResolvedActivationRecovery {
  rs_request : ActivationRecoveryRequest;
  rs_transaction : TransactionRef
}.

Record LoadedActivationReconciliation := mk_LoadedActivationReconciliation {
  lo_resolved : ResolvedActivationRecovery;
  lo_ticket : ActivationReconciliationTicket
}.

Record PersistedActivationReconciliation := mk_PersistedActivationReconciliation {
  pe_unknown : UnknownCommit;
  pe_evidence : ReconciliationEvidenceRef
}.

(** [ResolvedActivationRecovery::try_new]. *)
Definition resolved_recovery (request : ActivationRecoveryRequest) (transaction : TransactionRef)
  : result ResolvedActivationRecovery ActivationCommandBindingError :=
  if negb (bool_decide (rr_transaction request = transaction)) then Err TransactionMismatch
  else Ok (mk_ResolvedActivationRecovery request transaction).

(** [ResolvedActivationTransaction::try_new]. *)
Definition resolved_transaction (request : ActivationTransactionRequest) (transaction : TransactionRef)
  : result ResolvedActivationTransaction ActivationCommandBindingError :=
  if negb (bool_decide (tr_transaction request = transaction)) then Err TransactionMismatch
  else Ok (mk_ResolvedActivationTransaction request transaction).

(** [LoadedActivationReconciliation::try_new]. *)
Definition loaded_reconciliation (resolved : ResolvedActivationRecovery)
    (ticket : ActivationReconciliationTicket)
  : result LoadedActivationReconciliation ActivationCommandBindingError :=
  let request := rs_request resolved in
  let c := rr_command request in
  if (negb (bool_decide (ti_workspace_id ticket = owner_workspace_id (ownership c)))
      || negb (bool_decide (ti_operation_id ticket = operation_id (identity c)))
      || negb (bool_decide (ti_candidate_epoch ticket = ep_epoch (rr_pins request)))
      || negb (bool_decide (ti_expected_head ticket = expected_head c))
      || negb (bool_decide (ti_execution_fence ticket = rr_execution_fence request))
      || negb (bool_decide (ti_event_id ticket = rr_event_id request))
      || negb (bool_decide (ti_transaction ticket = rs_transaction resolved))
      || negb (bool_decide (ti_operation_selection ticket = rr_operation_selection request)))%bool
  then Err TicketMismatch
  else Ok (mk_LoadedActivationReconciliation resolved ticket).

(** ** Ports *)

(** Requests, diagnostics and tickets, kept by the application. *)
Class ActivationCommandStatePort (S : Type) := {
  resolve_request : CommandRecord -> ActivationAttempt -> ReductionContext ->
    S -> S * result ResolvedActivationTransaction CommandPortError;
  classify_not_selected : ResolvedActivationTransaction -> ActivationNotSelected ->
    S -> S * result CommandFailure CommandPortError;
  persist_reconciliation : ResolvedActivationRecovery -> ActivationReconciliationTicket ->
    S -> S * result PersistedActivationReconciliation CommandPortError;
  load_reconciliation : CommandRecord -> ExecutionOwner -> TransactionRef -> ReductionContext ->
    S -> S * result LoadedActivationReconciliation CommandPortError
}.

(** Forward execution, and recovery. *)
Class ActivationCommitExecutionPort (W : Type) :=
  execute_activation : ActivationTransactionRequest -> W -> W * ActivationTransactionOutcome.

Class ActivationRecoveryExecutionPort (W : Type) :=
  execute_recovery : ActivationRecoveryRequest -> ActivationReconciliationTicket ->
    ActivationRecoveryAttempt -> W -> W * ActivationTransactionOutcome.

(** ** Receipts *)

Definition activated_result (receipt : ActivatedEpochReceipt) : CommandResult :=
  EpochActivated (ep_epoch (ev_pins (ae_event receipt)))
    (ac_operation_selection (ev_commit (ae_event receipt))).

Definition activated_receipt_identity_matches {R} `{ActivationRequestView R} (request : R)
    (receipt : ActivatedEpochReceipt) : bool :=
  let e := ae_event receipt in
  let cache := ae_cache receipt in
  let acknowledgement := ae_acknowledgement receipt in
  (bool_decide (ev_workspace_id e = owner_workspace_id (ownership (view_command request)))
   && bool_decide (ev_operation_id e = operation_id (identity (view_command request)))
   && bool_decide (ev_event_id e = view_event_id request)
   && bool_decide (ev_predecessor_epoch e = expected_head (view_command request))
   && bool_decide (ev_execution_fence e = view_execution_fence request)
   && bool_decide (ev_pins e = view_pins request)
   && bool_decide (ac_transaction (ev_commit e) = view_transaction request)
   && bool_decide (ac_operation_selection (ev_commit e) = view_operation_selection request)
   && bool_decide (ca_workspace_id cache = ev_workspace_id e)
   && bool_decide (ca_operation_id cache = ev_operation_id e)
   && bool_decide (ca_event_id cache = ev_event_id e)
   && bool_decide (ca_selected_epoch cache = ep_epoch (view_pins request))
   && bool_decide (ca_transaction cache = view_transaction request)
   && bool_decide (ak_workspace_id acknowledgement = ev_workspace_id e)
   && bool_decide (ak_operation_id acknowledgement = ev_operation_id e)
   && bool_decide (ak_event_id acknowledgement = ev_event_id e)
   && bool_decide (ak_selected_epoch acknowledgement = ep_epoch (view_pins request))
   && bool_decide (ak_transaction acknowledgement = view_transaction request)
   && bool_decide (ak_operation_selection acknowledgement = view_operation_selection request))%bool.

Definition activated_receipt_matches (request : ActivationTransactionRequest)
    (receipt : ActivatedEpochReceipt) (active_fence : WriterFence) : bool :=
  (activated_receipt_identity_matches request receipt
   && bool_decide (ca_active_fence (ae_cache receipt) = active_fence)
   && bool_decide (ak_active_fence (ae_acknowledgement receipt) = active_fence))%bool.

Definition recovered_activated_receipt_matches (request : ActivationRecoveryRequest)
    (receipt : ActivatedEpochReceipt) (active_recovery_fence : WriterFence) : bool :=
  (activated_receipt_identity_matches request receipt
   && bool_decide (ca_active_fence (ae_cache receipt) = active_recovery_fence)
   && recovery_fence_authorizes (rr_execution_fence request) (ak_active_fence (ae_acknowledgement receipt))
   && recovery_fence_authorizes (ak_active_fence (ae_acknowledgement receipt)) active_recovery_fence)%bool.

Definition not_selected_matches {R} `{ActivationRequestView R} (request : R)
    (stopped : ActivationNotSelected) : bool :=
  (bool_decide (ns_operation_id stopped = operation_id (identity (view_command request)))
   && bool_decide (ns_candidate_epoch stopped = ep_epoch (view_pins request)))%bool.

(** ** The effect *)

Section effect.
Context {W S : Type} `{!ActivationCommandStatePort S, !ActivationCommitExecutionPort W,
  !ActivationRecoveryExecutionPort W}.

(** The state of the workspace and the state the application keeps. *)
Abbreviation effect := (stm (W * S) CommandPortError).

Definition on_state {A} (m : S -> S * result A CommandPortError) : effect A :=
  fun '(w, s) => let (s, x) := m s in (w, s, x).
Definition on_world {A} (m : W -> W * A) : effect A :=
  fun '(w, s) => let (w, x) := m w in (w, s, Ok x).

(** [map_err(|_| CommandPortError::CorruptRecord)]. *)
Definition or_corrupt {A E} (x : result A E) : effect A :=
  match x with Ok a => st_ret a | Err _ => st_err CorruptRecord end.

Definition resolved (record : CommandRecord) (attempt : ValidatedCommandAttempt)
    (context : ReductionContext) (transaction : option TransactionRef)
  : effect ResolvedActivationTransaction :=
  let attempt := activation_attempt attempt in
  do! resolved <- on_state (resolve_request record attempt context) ;
  if (negb (bool_decide (tr_attempt (rt_request resolved) = attempt))
      || match transaction with
         | Some value => negb (bool_decide (value = rt_transaction resolved))
         | None => false
         end)%bool
  then st_err CorruptRecord
  else st_ret resolved.

Definition activation_prepare (executing : CommandRecord) (owner : ExecutionOwner)
    (context : ReductionContext) : effect PrepareEffectOutcome :=
  do! attempt <- st_lift (executing_attempt executing owner context KindActivateEpoch) ;
  do! resolved <- resolved executing attempt context None ;
  st_ret (Prepared (rt_transaction resolved)).

Definition activation_commit (prepared : CommandRecord) (owner : ExecutionOwner)
    (transaction : TransactionRef) (context : ReductionContext) : effect CommitEffectOutcome :=
  do! attempt <- st_lift (prepared_attempt prepared owner transaction context KindActivateEpoch) ;
  do! resolved <- resolved prepared attempt context (Some transaction) ;
  let request := rt_request resolved in
  do! answer <- on_world (execute_activation request) ;
  match answer with
  | Activated receipt =>
      if (bool_decide (is_Some (ae_reconciliation_evidence receipt))
          || negb (activated_receipt_matches request receipt (tr_execution_fence request)))%bool
      then st_err CorruptRecord
      else st_ret (Committed (activated_result receipt))
  | NotSelected stopped =>
      if negb (not_selected_matches request stopped) then st_err CorruptRecord
      else
        do! failure <- on_state (classify_not_selected resolved stopped) ;
        st_ret (CommitKnownFailure failure)
  | ReconciliationNeeded ticket =>
      do! recovery_resolved <- or_corrupt (resolved_recovery (recovery_request request) transaction) ;
      do! _ <- or_corrupt (loaded_reconciliation recovery_resolved ticket) ;
      do! persisted <- on_state (persist_reconciliation recovery_resolved ticket) ;
      st_ret (CommitUnknown (pe_unknown persisted))
  end.

Definition activation_reconcile (awaiting : CommandRecord) (owner : ExecutionOwner)
    (transaction : TransactionRef) (context : ReductionContext) : effect ReconciliationObservation :=
  do! recovery <- st_lift (reconciliation_attempt awaiting owner transaction context KindActivateEpoch) ;
  let attempt := activation_attempt (vr_attempt recovery) in
  let recovery_attempt := activation_recovery recovery in
  do! loaded <- on_state (load_reconciliation awaiting owner transaction context) ;
  let resolved := lo_resolved loaded in
  let request := rs_request resolved in
  if (negb (bool_decide (rr_attempt request = attempt))
      || negb (bool_decide (rr_command request = attempt_command attempt))
      || negb (bool_decide (rs_transaction resolved = transaction))
      || negb (bool_decide (rr_execution_fence request = attempt_fence attempt)))%bool
  then st_err CorruptRecord
  else
    do! answer <- on_world (execute_recovery request (lo_ticket loaded) recovery_attempt) ;
    match answer with
    | Activated receipt =>
        match ae_reconciliation_evidence receipt with
        | None => st_err CorruptRecord
        | Some evidence =>
            if negb (recovered_activated_receipt_matches request receipt (fence owner))
            then st_err CorruptRecord
            else st_ret (ObservedCommitted evidence (activated_result receipt))
        end
    | NotSelected stopped =>
        match ns_reason stopped with
        | OperationMarkerProvedNotSelected evidence =>
            if not_selected_matches request stopped then st_ret (ObservedNotCommitted evidence)
            else st_err CorruptRecord
        | _ => st_err CorruptRecord
        end
    | ReconciliationNeeded next_ticket =>
        do! _ <- or_corrupt (loaded_reconciliation resolved next_ticket) ;
        do! persisted <- on_state (persist_reconciliation resolved next_ticket) ;
        st_ret (ObservedIndeterminate (pe_evidence persisted))
    end.
End effect.

(** The coordinator and the recovery execute. *)
#[export] Instance coordinator_execution {W B} `{!ActivationCandidateProofPort W, !ActivationAuthorityPort W,
  !ActivationAdmissionPort W B, !ActivationEventPort W, !ActivationCachePort W, !ActivationAcknowledgementPort W}
  : ActivationCommitExecutionPort W := fun request => activate request.

#[export] Instance recovery_execution {W} `{!ActivationRecoveryAdmissionPort W,
  !ActivationOperationMarkerPort W, !ActivationCachePort W, !ActivationAcknowledgementPort W}
  : ActivationRecoveryExecutionPort W := fun request ticket recovery => recover request ticket recovery.
