(* ===== verification/ActivationEffectTheory.v ===== *)
(** The activation effect tells the command actor the truth: what it reports as committed is the last
    event of the history, what it reports as failed or not committed is absent from it, and a ticket it
    persists describes the workspace. *)

From S2P Require Import Prelude.
From S2P Require Import CommandModel.
From S2P Require Import ActorModel.
From S2P Require Import EffectContract.
From S2P Require Import ActorWorld.
From S2P Require Import ActivationModel.
From S2P Require Import ActivationTheory.
From S2P Require Import AdmissionModel.
From S2P Require Import AdmissionTheory.
From S2P Require Import TransactionModel.
From S2P Require Import TransactionPorts.
From S2P Require Import TransactionTheory.
From S2P Require Import ActivationRecovery.
From S2P Require Import ActivationEffect.
Local Open Scope Z_scope.

(** ** The outcomes name the request, whatever the ports answer *)

Definition activate_named (r : ActivationTransactionRequest) (o : ActivationTransactionOutcome) : Prop :=
  match o with
  | Activated x =>
      records (recovery_request r) (ae_event x)
      /\ cache_receipt_matches r (ae_event x) (tr_execution_fence r) (ae_cache x) = true
      /\ acknowledgement_matches r (ae_event x) (tr_execution_fence r) (ae_acknowledgement x) = true
      /\ ae_reconciliation_evidence x = None
  | NotSelected stopped => not_selected_matches r stopped = true
  | ReconciliationNeeded t => names (recovery_request r) t
  end.

Definition recover_named (r : ActivationRecoveryRequest) (active : WriterFence)
    (o : ActivationTransactionOutcome) : Prop :=
  match o with
  | Activated x =>
      records r (ae_event x)
      /\ cache_receipt_matches r (ae_event x) active (ae_cache x) = true
      /\ recovered_acknowledgement_matches r (ae_event x) active (ae_acknowledgement x) = true
      /\ is_Some (ae_reconciliation_evidence x)
  | NotSelected stopped =>
      not_selected_matches r stopped = true
      /\ exists evidence, ns_reason stopped = OperationMarkerProvedNotSelected evidence
  | ReconciliationNeeded t => names r t
  end.

Lemma not_selected_named {R} `{ActivationRequestView R} (r : R) stage reason :
  match not_selected r stage reason with NotSelected s => not_selected_matches r s = true | _ => False end.
Proof. unfold not_selected_matches. simpl. by rewrite !bool_decide_eq_true_2. Qed.

Section cache.
Context {W R : Type} `{!ActivationRequestView R, !ActivationCachePort W, !ActivationAcknowledgementPort W}.
Context (Ψ : ActivationTransactionOutcome -> W -> Prop) (r : R) (e : ActivationEvent).
Context (Hstop : forall stage reason k p w, Ψ (reconciliation r stage reason k p) w).

Lemma reconcile_cache_named chain active k p (w : W) :
  steps (reconcile_cache r e chain active k p) w
    (fun receipt _ => cache_receipt_matches r e active receipt = true) Ψ.
Proof.
  apply steps_call. destruct (reconcile_selected e chain active w) as [w' [receipt|d|d]]; simpl.
  - destruct (cache_receipt_matches r e active receipt) eqn:Hm; [by apply steps_ret|apply steps_stop, Hstop].
  - apply steps_stop, Hstop.
  - apply steps_stop, Hstop.
Qed.

Lemma request_acknowledgement_named active k (w : W) :
  steps (request_acknowledgement r e active k) w
    (fun receipt _ => acknowledgement_matches r e active receipt = true) Ψ.
Proof.
  apply steps_call. destruct (acknowledge e active w) as [w' [receipt|d|d]]; simpl.
  - destruct (acknowledgement_matches r e active receipt) eqn:Hm; [by apply steps_ret|apply steps_stop, Hstop].
  - apply steps_stop, Hstop.
  - apply steps_stop, Hstop.
Qed.
End cache.

Section activate.
Context {W B : Type} `{!ActivationCandidateProofPort W, !ActivationAuthorityPort W, !ActivationAdmissionPort W B,
  !ActivationEventPort W, !ActivationCachePort W, !ActivationAcknowledgementPort W}.
Context (r : ActivationTransactionRequest) (Hreq : selects_epoch (recovery_request r)).

Let Ψ : ActivationTransactionOutcome -> W -> Prop := fun o _ => activate_named r o.

Lemma reconcile_stops stage reason k p (w : W) : Ψ (reconciliation r stage reason k p) w.
Proof. done. Qed.

Lemma refuse_stops stage reason (w : W) : Ψ (not_selected r stage reason) w.
Proof. apply (not_selected_named r stage reason). Qed.

#[local] Hint Resolve reconcile_stops refuse_stops : core.

(** The stages before the append leave with a named outcome or go on. *)
Lemma prefix_named (w : W) :
  steps (prove r) w (fun _ _ => True) Ψ /\ steps (close r) w (fun _ _ => True) Ψ
  /\ steps (revalidate_authority r) w (fun _ _ => True) Ψ.
Proof.
  split_and!; apply steps_call; repeat case_match; simpl; (by apply steps_ret) || (apply steps_stop; auto).
Qed.

Lemma append_named b s c (w : W) :
  append_contract r s = Some c ->
  steps (append r b s c) w (fun x _ => records (recovery_request r) (se_event x.1)) Ψ.
Proof.
  intros (Hfor & _ & _)%authority_contract. apply steps_call.
  destruct (append_and_readback c w) as [w' [selection chain|chain reason|reason d]]; simpl.
  - destruct (validate_committed_selection _ _ _ _) as [[]|] eqn:Hv; [|by apply steps_stop].
    apply validate_committed_Ok in Hv as (He & _). apply steps_ret.
    by apply (contract_event_records (recovery_request r)) in He as [? _].
  - destruct (unchanged_chain_matches r s chain); simpl; [|by apply steps_stop].
    apply steps_call. destruct (port_abort b chain w') as [w'' [u|error]]; simpl; by apply steps_stop; auto.
  - by apply steps_stop.
Qed.

Lemma activate_names (w : W) : activate_named r (activate r w).2.
Proof.
  unfold activate. apply (outcome_ends Ψ).
  eapply steps_bind; [apply prefix_named|]. intros _ w1 _. eapply steps_bind; [apply prefix_named|]. intros b w2 _.
  eapply steps_bind; [apply prefix_named|]. intros s w3 _.
  destruct (append_contract r s) as [c|] eqn:Hc; [|by apply steps_stop].
  eapply steps_bind; [by apply append_named|]. intros [selection chain] w4 He. simpl in He.
  apply steps_call. destruct (port_publish _ _ _ _ w4) as [w5 [u|error]]; simpl; [|by apply steps_stop].
  eapply steps_bind; [by apply reconcile_cache_named|]. intros cache w6 Hcache.
  apply steps_call. destruct (port_reopen _ _ w6) as [w7 [u'|error]]; simpl; [|by apply steps_stop].
  eapply steps_bind; [by apply request_acknowledgement_named|]. intros ack w8 Hack. by apply steps_ret.
Qed.
End activate.

Section recover.
Context {W : Type} `{!ActivationRecoveryAdmissionPort W, !ActivationOperationMarkerPort W, !ActivationCachePort W,
  !ActivationAcknowledgementPort W}.
Context (r : ActivationRecoveryRequest) (t : ActivationReconciliationTicket) (recovery : ActivationRecoveryAttempt).
Context (Hreq : selects_epoch r).

Let active : WriterFence := recovering_fence recovery.
Let Ψ : ActivationTransactionOutcome -> W -> Prop := fun o _ => recover_named r active o.

Lemma reconciliation_stops stage reason k p (w : W) : Ψ (reconciliation r stage reason k p) w.
Proof. done. Qed.

#[local] Hint Resolve reconciliation_stops : core.

Lemma recover_not_selected_named chain evidence (w : W) :
  steps (recover_not_selected r t active chain evidence) w (fun x => Ψ (Activated x)) Ψ.
Proof.
  unfold recover_not_selected. destruct (is_read_back _); [by apply steps_stop|].
  destruct (recovered_unchanged_chain_matches r chain); simpl; [|by apply steps_stop].
  apply steps_call. destruct (port_recover_none _ _ _ _ w) as [w' [u|error]]; simpl; apply steps_stop; [|done].
  split; [apply (not_selected_named r DurableAppendReadback (OperationMarkerProvedNotSelected evidence))|].
  by exists evidence.
Qed.

(** An acknowledgement made now is one that a recovery accepts. *)
Lemma acknowledgement_recovered e ack :
  recovery_fence_authorizes (rr_execution_fence r) active = true ->
  acknowledgement_matches r e active ack = true -> recovered_acknowledgement_matches r e active ack = true.
Proof.
  unfold acknowledgement_matches, recovered_acknowledgement_matches. intros Hf [-> ->%bool_decide_eq_true]%andb_true_iff.
  by rewrite Hf, recovery_fence_refl.
Qed.

Lemma recover_selected_named selection chain acknowledgement evidence (w : W) :
  recovery_fence_authorizes (rr_execution_fence r) active = true ->
  steps (recover_selected r t active selection chain acknowledgement evidence) w (fun x => Ψ (Activated x)) Ψ.
Proof.
  intros Hf. unfold recover_selected. set (e := se_event selection).
  eapply (steps_bind _ _ _ _ (fun _ _ => records r e)).
  { destruct (validate_recovered_selection _ _ _ _) as [u|] eqn:Hv; [|by apply steps_stop].
    apply validate_recovered_Ok in Hv as [? _]; [by apply steps_ret|done]. }
  intros _ w1 He. eapply (steps_bind _ _ _ _ (fun _ _ => forall a, acknowledgement = Some a ->
                            recovered_acknowledgement_matches r e active a = true)).
  { destruct acknowledgement as [a|]; [|by apply steps_ret].
    destruct (recovered_acknowledgement_matches r e active a) eqn:Ha; [|by apply steps_stop].
    apply steps_ret. by intros ? [= <-]. }
  intros _ w2 Hack. apply steps_call.
  destruct (port_recover_selected _ _ _ _ _ _ w2) as [w3 [publication|error]]; simpl; [|by apply steps_stop].
  eapply steps_bind; [by apply reconcile_cache_named|]. intros cache w4 Hcache.
  eapply (steps_bind _ _ _ _ (fun _ _ => True)).
  { destruct publication; [|by apply steps_ret]. apply steps_call.
    destruct (port_reopen_recovered _ _ _ w4) as [w5 [u|error]]; simpl; [by apply steps_ret|by apply steps_stop]. }
  intros _ w5 _. eapply (steps_bind _ _ _ _ (fun a _ => recovered_acknowledgement_matches r e active a = true)).
  { destruct acknowledgement as [a|]; [apply steps_ret; auto|].
    eapply wp_mono; [|by apply (request_acknowledgement_named Ψ)]. intros [a|o] w6 Ha; [|done].
    by apply acknowledgement_recovered. }
  intros a w6 Ha. by apply steps_ret.
Qed.

Lemma recover_names (w : W) : recover_named r active (recover r t recovery w).2.
Proof.
  unfold recover. apply (outcome_ends Ψ). fold active. case_bool_decide; simpl; [|by apply steps_stop].
  destruct (recovery_ticket_matches r t); simpl; [|by apply steps_stop].
  destruct (recovery_fence_authorizes _ _) eqn:Hf; simpl; [|by apply steps_stop].
  apply steps_call. destruct (read_operation_marker _ w) as [w' [selection chain ack evidence|chain evidence|d]]; simpl.
  - by apply recover_selected_named.
  - by apply recover_not_selected_named.
  - by apply steps_stop.
Qed.
End recover.

(** ** What the receipts of the coordinators pass *)

(** The conjuncts of a comparison of fields, each an equation. *)
Ltac each_field := repeat (apply andb_true_iff; split); try (apply bool_decide_eq_true_2; simpl).

Lemma activated_receipt_accepted r x :
  activate_named r (Activated x) -> activated_receipt_matches r x (tr_execution_fence r) = true.
Proof.
  intros ([Hid Hw Ho Hp Hfe Hpi Hcm Hre Ht Hs] & Hc & Ha & _).
  unfold cache_receipt_matches, acknowledgement_matches, acknowledgement_identity in *. gate_facts.
  unfold request_workspace, request_operation in *. simpl in *.
  unfold activated_receipt_matches, activated_receipt_identity_matches. each_field; congruence.
Qed.

Lemma recovered_receipt_accepted r active x :
  recover_named r active (Activated x) -> recovered_activated_receipt_matches r x active = true.
Proof.
  intros ([Hid Hw Ho Hp Hfe Hpi Hcm Hre Ht Hs] & Hc & Ha & _).
  unfold cache_receipt_matches, recovered_acknowledgement_matches, acknowledgement_identity in *. gate_facts.
  unfold request_workspace, request_operation in *. simpl in *.
  unfold recovered_activated_receipt_matches, activated_receipt_identity_matches. each_field; congruence || done.
Qed.

(** A ticket that names the request loads with it. *)
Lemma names_loads r t tx : names r t -> rr_transaction r = tx ->
  loaded_reconciliation (mk_ResolvedActivationRecovery r tx) t
  = Ok (mk_LoadedActivationReconciliation (mk_ResolvedActivationRecovery r tx) t).
Proof.
  intros (H1 & H2 & H3 & H4 & H5 & H6 & H7 & H8) <-. unfold loaded_reconciliation. simpl.
  unfold request_workspace, request_operation in *. by rewrite !bool_decide_eq_true_2.
Qed.

(** ** The effect *)

(** What the constructors of the bindings guarantee: a resolved request selects the epoch of its pins
    and carries the transaction it is bound to; a loaded ticket names its request. *)
Class ActivationCommandStateLaws (S : Type) `{!ActivationCommandStatePort S} : Prop := {
  law_resolved : forall record attempt context s,
    match (resolve_request record attempt context s).2 with
    | Ok resolved =>
        selects_epoch (recovery_request (rt_request resolved))
        /\ tr_transaction (rt_request resolved) = rt_transaction resolved
    | Err _ => True
    end;
  law_loaded : forall record owner transaction context s,
    match (load_reconciliation record owner transaction context s).2 with
    | Ok loaded =>
        selects_epoch (rs_request (lo_resolved loaded))
        /\ rr_transaction (rs_request (lo_resolved loaded)) = rs_transaction (lo_resolved loaded)
        /\ names (rs_request (lo_resolved loaded)) (lo_ticket loaded)
    | Err _ => True
    end
}.

(** The command of the record activates the epoch the request selects. *)
Lemma activation_payload r attempt c :
  selects_epoch r -> rr_attempt r = activation_attempt attempt -> va_command attempt = c ->
  command_kind c = KindActivateEpoch ->
  rr_command r = c /\ payload c = ActivateEpoch (ep_epoch (rr_pins r)) (ep_proof_receipt (rr_pins r)).
Proof.
  unfold selects_epoch. intros Hs Ha Hc Hk. rewrite Ha in Hs.
  destruct (validate_request_Ok _ _ _ _ _ Hs) as (Hcmd & _). unfold attempt_command in Hcmd. simpl in Hcmd.
  split; [congruence|]. unfold validate_request_contract, attempt_command in Hs. simpl in Hs. rewrite Hc in Hs.
  unfold command_kind in Hk. destruct (payload c); try done. simpl in Hs.
  repeat case_bool_decide; simpl in *; try done. by subst.
Qed.

Section effect.
Context {L : Type} (ws : WorkspaceId) `{!ActivationLog L, !ActivationLogLaws L ws} `{!Blake3}.
Context {S : Type} `{!ActivationCommandStatePort S, !ActivationCommandStateLaws S}.
Context (record : CommandRecord) (owner : ExecutionOwner) (transaction : TransactionRef) (context : ReductionContext).
Context (w0 : ActivationWorld L) (s0 : S).

Let c : FabricCommand := command record.
Let op : OperationId := operation_id (identity c).

Context (Hws : owner_workspace_id (ownership c) = ws) (Hok : log_ok (aw_log w0)).

(** The event that the result describes is the last of the history: it belongs to the operation and
    its transaction, follows the head the command expected, and selects the epoch the command names. *)
Definition last_event (result : CommandResult) (l : L) : Prop :=
  exists before e, log l = before ++ [e] /\ ev_operation_id e = op /\ ev_predecessor_epoch e = expected_head c
    /\ payload c = ActivateEpoch (ep_epoch (ev_pins e)) (ep_proof_receipt (ev_pins e))
    /\ ac_transaction (ev_commit e) = transaction
    /\ result = EpochActivated (ep_epoch (ev_pins e)) (ac_operation_selection (ev_commit e)).

(** The application failed to classify an outcome, or to persist a ticket. *)
Definition state_failed (error : CommandPortError) (s : S) : Prop :=
  (exists resolved stopped s1, classify_not_selected resolved stopped s1 = (s, Err error))
  \/ (exists resolved ticket s1, persist_reconciliation resolved ticket s1 = (s, Err error)).

Definition commit_reports (x : result CommitEffectOutcome CommandPortError) (ws : ActivationWorld L * S) : Prop :=
  let '(w, s) := ws in
  match x with
  | Ok (Committed result) => last_event result (aw_log w) /\ gate_phase (aw_gate w) = PhaseOpen
  | Ok (CommitKnownFailure _) => absent op (aw_log w)
  | Ok (CommitUnknown unknown) =>
      exists resolved ticket persisted s1,
        persist_reconciliation resolved ticket s1 = (s, Ok persisted) /\ pe_unknown persisted = unknown
        /\ recovery_ticket_matches (rs_request resolved) ticket = true
        /\ posture_holds ticket (aw_gate w) /\ knowledge_holds ticket (aw_log w)
  | Err error => w = w0 \/ state_failed error s
  end.

Definition reconcile_reports (x : result ReconciliationObservation CommandPortError)
    (ws : ActivationWorld L * S) : Prop :=
  let '(w, s) := ws in
  match x with
  | Ok (ObservedCommitted _ result) => last_event result (aw_log w) /\ gate_phase (aw_gate w) = PhaseOpen
  | Ok (ObservedNotCommitted _) => absent op (aw_log w) /\ gate_phase (aw_gate w) = PhaseOpen
  | Ok (ObservedIndeterminate evidence) =>
      exists resolved ticket persisted s1,
        persist_reconciliation resolved ticket s1 = (s, Ok persisted) /\ pe_evidence persisted = evidence
        /\ names (rs_request resolved) ticket /\ knowledge_holds ticket (aw_log w)
  | Err error => w = w0 \/ state_failed error s
  end.

Lemma wp_on_world {A B} (m : ActivationWorld L -> ActivationWorld L * A)
    (k : A -> stm (ActivationWorld L * S) CommandPortError B) w s Φ :
  wp (k (m w).2) ((m w).1, s) Φ -> wp (st_bind (on_world m) k) (w, s) Φ.
Proof. intros Hm. apply wp_bind. unfold wp, on_world. by destruct (m w). Qed.

Lemma wp_on_state {A B} (m : S -> S * result A CommandPortError) (k : A -> stm (ActivationWorld L * S) _ B) w s Φ :
  match (m s).2 with Ok a => wp (k a) (w, (m s).1) Φ | Err e => Φ (Err e) (w, (m s).1) end ->
  wp (st_bind (on_state m) k) (w, s) Φ.
Proof. intros Hm. apply wp_bind. unfold wp, on_state. by destruct (m s) as [s' [a|e]]. Qed.

Lemma resolved_wp attempt (w : ActivationWorld L) (s : S) :
  wp (resolved record attempt context (Some transaction)) (w, s)
    (fun x (w' : ActivationWorld L * S) =>
       w'.1 = w
       /\ match x with
          | Ok x =>
              selects_epoch (recovery_request (rt_request x))
              /\ tr_attempt (rt_request x) = activation_attempt attempt /\ tr_transaction (rt_request x) = transaction
          | Err _ => True
          end).
Proof.
  apply wp_on_state. pose proof (law_resolved record (activation_attempt attempt) context s) as Hl.
  destruct (resolve_request _ _ _ s) as [s' [x|e]]; simpl in *; [|done]. destruct Hl as [Hs Ht].
  repeat case_bool_decide; simpl; (apply wp_ret || apply wp_err); split; try done. by rewrite Ht.
Qed.

Lemma prepared_attempt_Ok attempt :
  prepared_attempt record owner transaction context KindActivateEpoch = Ok attempt ->
  va_command attempt = c /\ command_kind c = KindActivateEpoch.
Proof.
  unfold prepared_attempt, validate_kind, validated_attempt. intros Hv.
  destruct (validate_context _ _ _ _); simpl in Hv; [|done]. case_bool_decide; simpl in Hv; [|done].
  repeat case_match; simplify_eq/=. done.
Qed.

Lemma reconciliation_attempt_Ok recovery :
  reconciliation_attempt record owner transaction context KindActivateEpoch = Ok recovery ->
  va_command (vr_attempt recovery) = c /\ command_kind c = KindActivateEpoch
  /\ vr_active_recovery_owner recovery = owner.
Proof.
  unfold reconciliation_attempt, validate_kind, validated_attempt. intros Hv.
  destruct (validate_context _ _ _ _); simpl in Hv; [|done]. case_bool_decide; simpl in Hv; [|done].
  destruct (state record); try done.
  destruct (validate_owner_advance _ _ true); simpl in Hv; [|done].
  destruct (validate_owner_advance _ _ false); simpl in Hv; [|done].
  repeat case_match; simplify_eq/=. done.
Qed.

(** The event of a request of this command is the one the report describes. *)
Lemma records_last_event r receipt before l :
  rr_command r = c -> payload c = ActivateEpoch (ep_epoch (rr_pins r)) (ep_proof_receipt (rr_pins r)) ->
  rr_transaction r = transaction -> records r (ae_event receipt) -> log l = before ++ [ae_event receipt] ->
  last_event (activated_result receipt) l.
Proof.
  intros Hc Hp Ht Hr Hl. exists before, (ae_event receipt).
  rewrite (rc_operation _ _ Hr), (rc_predecessor _ _ Hr), (rc_pins _ _ Hr), (rc_transaction _ _ Hr).
  unfold request_operation. rewrite Hc. split_and!; try done. unfold activated_result. by rewrite (rc_pins _ _ Hr).
Qed.

(** Persisting a ticket. *)
Lemma persist_wp {A} (resolved : ResolvedActivationRecovery) ticket (k : PersistedActivationReconciliation -> A)
    (w : ActivationWorld L) (s : S) Φ :
  (forall persisted s', persist_reconciliation resolved ticket s = (s', Ok persisted) -> Φ (Ok (k persisted)) (w, s')) ->
  (forall error s', persist_reconciliation resolved ticket s = (s', Err error) -> Φ (Err error) (w, s')) ->
  wp (do! persisted <- on_state (persist_reconciliation resolved ticket) ; st_ret (k persisted)) (w, s) Φ.
Proof.
  intros Hk He. apply wp_on_state. destruct (persist_reconciliation resolved ticket s) as [s' [x|e]]; simpl; auto.
  by apply wp_ret, Hk.
Qed.

Lemma commit_spec : absent op (aw_log w0) ->
  wp (activation_commit record owner transaction context) (w0, s0) commit_reports.
Proof.
  intros Ha. apply wp_bind, wp_lift.
  destruct (prepared_attempt _ _ _ _ _) as [attempt|] eqn:Hattempt; [|by left].
  apply prepared_attempt_Ok in Hattempt as [Hc Hk].
  apply wp_bind. eapply wp_mono; [|apply resolved_wp]. intros [x|e] [w s] [Hw Hx]; simpl in Hw; subst w; [|by left].
  destruct x as [r tx]. simpl in Hx. destruct Hx as (Hreq & Hatt & Htx).
  destruct (activation_payload (recovery_request r) attempt c Hreq Hatt Hc Hk) as [Hcmd Hp]. simpl in Hcmd, Hp.
  assert (request_workspace (recovery_request r) = ws) as Hws' by (unfold request_workspace; simpl; by rewrite Hcmd).
  assert (request_operation (recovery_request r) = op) as Hop by (unfold request_operation; simpl; by rewrite Hcmd).
  apply wp_on_world. cbn [rt_request]. unfold execute_activation, coordinator_execution.
  pose proof (activate_names r Hreq w0) as Hn.
  pose proof (activate_spec ws r w0 Hreq Hws' Hok ltac:(by rewrite Hop)) as [_ Hsp].
  destruct (activate r w0) as [w [receipt|stopped|ticket]]; cbn [fst snd] in Hn, Hsp |- *.
  - rewrite (activated_receipt_accepted _ _ Hn). destruct Hn as (Hr & _ & _ & ->).
    rewrite bool_decide_eq_false_2 by apply is_Some_None. apply wp_ret.
    destruct Hsp as ((before & Hl & _) & _ & Hg & _). split; [by eapply (records_last_event (recovery_request r))|by rewrite Hg].
  - unfold activate_named in Hn. rewrite Hn. cbn [negb]. destruct Hsp as [Habs _]. rewrite Hop in Habs. apply wp_on_state.
    destruct (classify_not_selected _ _ s) as [s' [failure|error]] eqn:Hcl; simpl; [by apply wp_ret|].
    right. left. eauto.
  - unfold resolved_recovery. rewrite bool_decide_eq_true_2 by done. apply wp_bind, wp_ret.
    rewrite names_loads by done. apply wp_bind, wp_ret. destruct Hsp as (Hm & Hpo & Hkn).
    apply persist_wp; [intros persisted s' Hper; by exists (mk_ResolvedActivationRecovery (recovery_request r) transaction), ticket, persisted, s|].
    intros error s' Hper. right. right. eauto.
Qed.

(** Every ticket the application would answer tells the truth about the history. *)
Definition tickets_true : Prop :=
  match (load_reconciliation record owner transaction context s0).2 with
  | Ok loaded =>
      knowledge_holds (lo_ticket loaded) (aw_log w0) /\ authored (rs_request (lo_resolved loaded)) (aw_log w0)
  | Err _ => True
  end.

Lemma reconcile_spec : tickets_true ->
  wp (activation_reconcile record owner transaction context) (w0, s0) reconcile_reports.
Proof.
  intros Htickets. apply wp_bind, wp_lift.
  destruct (reconciliation_attempt _ _ _ _ _) as [recovery|] eqn:Hattempt; [|by left].
  apply reconciliation_attempt_Ok in Hattempt as (Hc & Hk & Howner).
  apply wp_on_state. unfold tickets_true in Htickets.
  pose proof (law_loaded record owner transaction context s0) as Hlo.
  destruct (load_reconciliation _ _ _ _ s0) as [s [loaded|e]]; cbn [fst snd] in Htickets, Hlo |- *; [|by left].
  destruct Htickets as [Hkn Hau]. destruct Hlo as (Hreq & Htx & Hna). destruct loaded as [[r tx] t].
  cbn [lo_resolved lo_ticket rs_request rs_transaction] in *.
  destruct (_ || _)%bool eqn:Hchecks; [by left|]. gate_facts. subst tx.
  destruct (activation_payload r (vr_attempt recovery) c Hreq ltac:(done) Hc Hk) as [Hcmd Hp].
  assert (request_workspace r = ws) as Hws' by (unfold request_workspace; by rewrite Hcmd).
  assert (request_operation r = op) as Hop by (unfold request_operation; by rewrite Hcmd).
  apply wp_on_world. unfold execute_recovery, recovery_execution.
  pose proof (recover_names r t (activation_recovery recovery) Hreq w0) as Hn.
  pose proof (recover_spec ws r t (activation_recovery recovery) w0 Hreq Hws' Hok Hau Hkn) as [_ Hsp].
  destruct (recover r t _ w0) as [w [receipt|stopped|ticket]]; cbn [fst snd] in Hn, Hsp |- *.
  - apply recovered_receipt_accepted in Hn as Hacc. unfold recovering_fence in Hacc. simpl in Hacc.
    rewrite Howner in Hacc. destruct Hn as (Hr & _ & _ & [evidence ->]). rewrite Hacc. apply wp_ret.
    destruct Hsp as ((_ & before & Hl) & Hg & _). split; [by eapply records_last_event|done].
  - destruct Hn as [Hm [evidence ->]]. rewrite Hm. apply wp_ret. rewrite Hop in Hsp. done.
  - rewrite names_loads by done. apply wp_bind, wp_ret. destruct Hsp as (_ & Hkn' & _).
    apply persist_wp; [intros persisted s' Hper; by exists (mk_ResolvedActivationRecovery r (rr_transaction r)), ticket, persisted, s|].
    intros error s' Hper. right. right. eauto.
Qed.

(** ** The contract of the actor *)

(** What the history shows of a transaction of the operation. *)
Definition attests (l : L) (f : Fate) : Prop :=
  match f with
  | Landed => exists e, e ∈ log l /\ ev_operation_id e = op
  | Dead => absent op l
  | InFlight => True
  end.

Lemma last_event_attests result l : last_event result l -> attests l Landed.
Proof. intros (before & e & Hl & Ho & _). exists e. rewrite Hl. split; [set_solver|done]. Qed.

Lemma commit_honours a x w s :
  commit_reports x (w, s) ->
  exists f, attests (aw_log w) f /\ commit_answers (mk_Invocation op a f) x.
Proof.
  intros Hx. destruct x as [[result|failure|unknown]|error].
  - exists Landed. split; [by eapply last_event_attests, Hx|done].
  - by exists Dead.
  - by exists InFlight.
  - by exists InFlight.
Qed.

(** A reconciliation answers as the transactions of the attempt are known to have ended. *)
Lemma reconcile_honours recovery x w s :
  reconciliation_attempt record owner transaction context (routed_kind record) = Ok recovery ->
  reconcile_reports x (w, s) ->
  exists invocations closed,
    Forall (fun v => attests (aw_log w) (inv_fate v)) invocations
    /\ (closed <> [] -> absent op (aw_log w))
    /\ reconcile_answers invocations closed record owner transaction context x.
Proof.
  intros Hr Hx. unfold reconcile_answers. rewrite Hr.
  destruct x as [[evidence result|evidence|evidence]|error].
  - exists [mk_Invocation op (va_attempt (vr_attempt recovery)) Landed], []. split_and!; [|done|by exists 0%nat].
    apply Forall_singleton. by eapply last_event_attests, Hx.
  - exists [], [(op, va_attempt (vr_attempt recovery))]. destruct Hx as [Hx _]. split_and!; [done..|]. set_solver.
  - by exists [], [].
  - by exists [], [].
Qed.

Lemma prepare_spec :
  command_kind c = KindActivateEpoch ->
  wp (activation_prepare record owner context) (w0, s0)
    (fun x (w : ActivationWorld L * S) => w.1 = w0 /\ prepare_answers record owner context x).
Proof.
  intros Hk. apply wp_bind, wp_lift. unfold prepare_answers. rewrite routed_kind_eq. fold c. rewrite Hk.
  destruct (executing_attempt _ _ _ _) as [attempt|]; [|done].
  apply wp_bind, wp_on_state. destruct (resolve_request _ _ _ s0) as [s' [x|e]]; cbn [fst snd]; [|done].
  destruct (_ || _)%bool; [done|by apply wp_ret].
Qed.
End effect.

(** ** The constructors *)

Lemma transaction_request_selects a candidate p id comp ret sel tx ctl r :
  transaction_request a candidate p id comp ret sel tx ctl = Ok r ->
  selects_epoch (recovery_request r) /\ tr_attempt r = a /\ tr_transaction r = tx.
Proof.
  unfold transaction_request, selects_epoch. destruct (validate_request_contract a p) as [[[c f] epoch]|] eqn:Hv; [|done].
  cbn beta iota. intros Hr. repeat (case_match; [done|]). injection Hr as <-.
  pose proof (validate_request_Ok _ _ _ _ _ Hv) as (_ & _ & He & _). split; [|done].
  unfold recovery_request. cbn [rr_attempt rr_pins rr_command rr_execution_fence tr_attempt tr_pins tr_command
    tr_execution_fence]. by rewrite Hv, He.
Qed.

Lemma recovery_request_selects a p id comp ret sel tx ctl r :
  recovery_request_from a p id comp ret sel tx ctl = Ok r ->
  selects_epoch r /\ rr_attempt r = a /\ rr_transaction r = tx.
Proof.
  unfold recovery_request_from, selects_epoch. destruct (validate_request_contract a p) as [[[c f] epoch]|] eqn:Hv; [|done].
  intros [= <-]. pose proof (validate_request_Ok _ _ _ _ _ Hv) as (_ & _ & He & _). split; [|done].
  cbn [rr_attempt rr_pins rr_command rr_execution_fence]. by rewrite Hv, He.
Qed.

Lemma loaded_names resolved t loaded :
  rr_transaction (rs_request resolved) = rs_transaction resolved ->
  loaded_reconciliation resolved t = Ok loaded ->
  lo_resolved loaded = resolved /\ lo_ticket loaded = t /\ names (rs_request resolved) t.
Proof.
  unfold loaded_reconciliation. intros Htx H. destruct (_ || _)%bool eqn:Hc in H; [done|]. injection H as <-.
  gate_facts. split_and!; [done..|]. split_and!; try done. congruence.
Qed.
