(* ===== verification/ActivationClaims.v ===== *)
(** The guarantees of activation: of the history, the admission gate, the transaction, its recovery,
    and the command effect built on them. *)

From S2P Require Import Prelude.
From S2P Require Import Encoding.
From S2P Require Import CommandModel.
From S2P Require Import ActorModel.
From S2P Require Import EffectContract.
From S2P Require Import ActorWorld.
From S2P Require Import ActivationModel.
From S2P Require Import ActivationTheory.
From S2P Require Import AdmissionModel.
From S2P Require Import AdmissionTheory.
From S2P Require Import TransactionModel.
From S2P Require Import TransactionPorts.
From S2P Require Import TransactionTheory.
From S2P Require Import ActivationRecovery.
From S2P Require Import ActivationEffect.
From S2P Require Import ActivationEffectTheory.
Local Open Scope Z_scope.

(** ** Rows *)

Section rows.
Context (blake3_hash : list byte -> byte_array 32).

Abbreviation Row := (DurableActivationRow * ExactDeltaPin * ActivationDeltaCommitEvidence)%type.
Abbreviation of_row := (fun (x : Row) e => event_from_durable_row blake3_hash x.1.1 x.1.2 x.2 = Ok e).

Lemma events_from_rows_Forall2 rows events :
  events_from_rows blake3_hash rows = Ok events <-> Forall2 of_row rows events.
Proof.
  revert events. induction rows as [|[[row pin] evidence] rows IH]; intros events; simpl.
  - split; [by intros [= <-]|]. by intros ->%Forall2_nil_inv_l.
  - split.
    + destruct (event_from_durable_row _ _ _ _) as [e|] eqn:He; [|done].
      destruct (events_from_rows _ rows) as [es|]; [|done]. intros [= <-]. constructor; [done|by apply IH].
    + intros (e & es & He & Hes & ->)%Forall2_cons_inv_l. simpl in He. rewrite He.
      by rewrite (proj2 (IH es) Hes).
Qed.

(** The row of a reconstructed event is the row it came from, at the version its evidence committed. *)
Lemma event_of_row (x : Row) e :
  of_row x e ->
  durable_row e = x.1.1 /\ x.1.2 = de_committed x.2 /\ ev_operation_id e = de_operation_id x.2
  /\ ac_transaction (ev_commit e) = de_transaction x.2 /\ ev_execution_fence e = de_execution_fence x.2.
Proof.
  destruct x as [[row pin] evidence]. simpl. unfold event_from_durable_row. intros He.
  repeat case_bool_decide; simpl in He; try done. injection He as <-. simpl.
  split_and!; try done. by destruct row as [? ? ? ? ? ? ? ? ? ? []].
Qed.

Lemma rows_of_events rows events : Forall2 of_row rows events -> durable_row <$> events = (fun x => x.1.1) <$> rows.
Proof.
  induction 1 as [|x e rows events He _ IH]; [done|]. rewrite !fmap_cons, IH. f_equal. by apply event_of_row.
Qed.

Lemma rows_typed rows events :
  Forall2 of_row rows events -> Forall (fun x : Row => ordinal_typed (ar_ordinal x.1.1)) rows -> typed events.
Proof.
  intros Hr Ht. unfold typed. apply Forall_forall. intros e He. apply list_elem_of_lookup in He as [i Hi].
  destruct (Forall2_lookup_r _ _ _ _ _ Hr Hi) as (x & Hx & Hxe). apply event_of_row in Hxe as [Hrow _].
  replace (ev_ordinal e) with (ar_ordinal x.1.1) by (by rewrite <- Hrow).
  eapply Forall_lookup_1 in Ht; done.
Qed.

(** Rows in another order give the same events in another order. *)
Lemma rows_permuted rows rows' events :
  rows' ≡ₚ rows -> Forall2 of_row rows events -> exists events', Forall2 of_row rows' events' /\ events' ≡ₚ events.
Proof.
  intros Hp. revert events. induction Hp as [|x rows rows' _ IH|x y rows|r1 r2 r3 _ IH1 _ IH2]; intros events Hr.
  - exists events. by apply Forall2_nil_inv_l in Hr as ->.
  - apply Forall2_cons_inv_l in Hr as (e & es & He & Hes & ->). destruct (IH _ Hes) as (es' & Hes' & Hp').
    exists (e :: es'). split; [by constructor|by f_equiv].
  - apply Forall2_cons_inv_l in Hr as (e1 & es & He1 & Hes & ->).
    apply Forall2_cons_inv_l in Hes as (e2 & es' & He2 & Hes' & ->).
    exists (e2 :: e1 :: es'). split; [by repeat constructor|by constructor].
  - destruct (IH2 _ Hr) as (es2 & Hes2 & Hp2). destruct (IH1 _ Hes2) as (es1 & Hes1 & Hp1).
    exists es1. split; [done|by rewrite Hp1].
Qed.

(** With the rows evidenced, reconstruction is derivation. *)
Lemma reconstruct_exact ws rows events chain :
  Forall (fun x : Row => ordinal_typed (ar_ordinal x.1.1)) rows -> Forall2 of_row rows events ->
  chain_from_durable_rows blake3_hash ws rows = Returned (Ok chain) <->
  chain_workspace_id chain = ws /\ chain_events chain ≡ₚ events /\ history ws (chain_events chain).
Proof.
  intros Ht Hr. rewrite <- (derive_exact ws events chain (rows_typed _ _ Hr Ht)).
  apply events_from_rows_Forall2 in Hr. unfold chain_from_durable_rows. rewrite Hr.
  destruct (derive ws events) as [[c|e]| |]; naive_solver.
Qed.

(** A reconstructed history comes from evidenced rows. *)
Lemma reconstruct_evidenced ws rows chain :
  chain_from_durable_rows blake3_hash ws rows = Returned (Ok chain) -> exists events, Forall2 of_row rows events.
Proof.
  unfold chain_from_durable_rows. destruct (events_from_rows blake3_hash rows) as [events|] eqn:Hr; [|done].
  intros _. exists events. by apply events_from_rows_Forall2.
Qed.

(** [C12] The activation history is exact: from the rows of the control table, in whatever order they
    are read, the reconstruction always returns. It returns a history exactly when every row carries
    the evidence of its own commit and the events can be put in one line: each follows the one before
    by identity, by epoch and by ordinal, from the empty head on, under a writer that is not older,
    without a repeated event, operation, selection or transaction, and all of this workspace. The
    history holds exactly the rows that were read, and does not depend on their order; the check for
    disconnected or cyclic histories never fires. *)
Theorem activation_history_is_exact ws (rows : list Row) :
  Forall (fun x : Row => ordinal_typed (ar_ordinal x.1.1)) rows ->
  let reconstruct := chain_from_durable_rows blake3_hash ws in
  (exists x, reconstruct rows = Returned x)
  /\ (forall chain, reconstruct rows = Returned (Ok chain) <->
        chain_workspace_id chain = ws /\ history ws (chain_events chain)
        /\ exists events, Forall2 of_row rows events /\ chain_events chain ≡ₚ events)
  /\ (forall chain, reconstruct rows = Returned (Ok chain) ->
        durable_row <$> chain_events chain ≡ₚ (fun x => x.1.1) <$> rows)
  /\ (forall chain rows', rows' ≡ₚ rows -> reconstruct rows = Returned (Ok chain) ->
        reconstruct rows' = Returned (Ok chain))
  /\ (forall error, reconstruct rows = Returned (Err (ChainError error)) ->
        forall n m, error <> DisconnectedOrCyclicHistory n m).
Proof.
  intros Hty reconstruct. pose proof (reconstruct_exact ws) as Hex. pose proof (reconstruct_evidenced ws) as Hev.
  assert (forall chain, reconstruct rows = Returned (Ok chain) -> exists events, Forall2 of_row rows events
            /\ chain_workspace_id chain = ws /\ chain_events chain ≡ₚ events /\ history ws (chain_events chain)) as Hok.
  { intros chain Hc. destruct (Hev _ _ Hc) as [events Hr]. exists events. split; [done|]. by apply (Hex rows events chain Hty Hr). }
  split_and!.
  - unfold reconstruct, chain_from_durable_rows. destruct (events_from_rows blake3_hash rows) as [events|] eqn:Hr; [|eauto].
    apply events_from_rows_Forall2 in Hr. pose proof (derive_spec ws events (rows_typed _ _ Hr Hty)) as Hd.
    destruct (derive ws events) as [[c|e]| |]; eauto; done.
  - intros chain. split.
    + intros (events & Hr & Hw & Hp & Hh)%Hok. split_and!; [done..|by exists events].
    + intros (Hw & Hh & events & Hr & Hp). by apply (Hex rows events).
  - intros chain (events & Hr & _ & Hp & _)%Hok. by rewrite Hp, (rows_of_events _ _ Hr).
  - intros chain rows' Hp (events & Hr & Hw & Hpe & Hh)%Hok. destruct (rows_permuted _ _ _ Hp Hr) as (events' & Hr' & Hp').
    apply (Hex rows' events'); [by rewrite Hp|done|]. by rewrite Hp'.
  - intros error. unfold reconstruct, chain_from_durable_rows.
    destruct (events_from_rows blake3_hash rows) as [events|] eqn:Hr; [|intros [= ->]].
    + apply events_from_rows_Forall2 in Hr. pose proof (derive_spec ws events (rows_typed _ _ Hr Hty)) as Hd.
      destruct (derive ws events) as [[c|e]| |]; try done. intros [= <-]. by destruct Hd.
    + exfalso. revert Hr. clear. induction rows as [|[[row pin] evidence] rows IH]; [done|]. simpl.
      destruct (event_from_durable_row _ _ _ _); [|done]. destruct (events_from_rows _ rows); [done|].
      intros [= ->]. by apply IH.
Qed.
End rows.

(** ** The admission gate *)

(** [C5] Whatever calls the admission gate has served, in any order and with any arguments: the next
    one changes it only along the moves of the activation protocol, where an epoch is published only
    over the barrier that closed its predecessor, from a history of this workspace whose last event
    extends that predecessor under the closing fence, and nothing reopens an unpublished gate but a
    history whose head is still the one it was closed at. A query is admitted only while the gate is
    open, and its lease carries the generation that was current. Generations never go back; when an
    epoch was swapped in, or a restart is being reconciled, admission reopens only with a newer
    generation, so that a lease tells the epochs apart. A gate that drains stays so. A barrier that the
    gate has drawn and no longer holds never moves it again. *)
Theorem admission_gate_is_safe ops g :
  let g' := serve ops g in
  (forall op, move g' (presents op) (after op g'))
  /\ (forall epoch lease, (admit_selected epoch g').2 = Ok lease ->
        gate_phase g' = PhaseOpen /\ ql_epoch lease = epoch /\ ql_generation lease = gate_generation g')
  /\ gate_generation g <= gate_generation g'
  /\ (awaiting g -> gate_phase g' = PhaseOpen -> gate_generation g < gate_generation g')
  /\ (gate_phase g = PhaseDraining -> gate_phase g' = PhaseDraining)
  /\ (forall b op, spent g b -> shows op = Some b -> after op g' = g').
Proof.
  intros g'. split_and!.
  - intros op. apply op_moves.
  - intros epoch lease. unfold admit_selected, st_bind, st_get. simpl.
    destruct (gate_phase g'); simpl; try done. by intros [= <-].
  - apply serve_generation.
  - apply serve_awaiting.
  - apply serve_draining.
  - intros b op Hs Hb. destruct (shown_held op g' b Hb) as [|Hh]; [done|].
    by destruct (serve_spent ops g b Hs).
Qed.

(** ** The transaction *)

Section transaction.
Context {L : Type} (ws : WorkspaceId) `{!ActivationLog L, !ActivationLogLaws L ws} `{!Blake3}.
Context (r : ActivationTransactionRequest).

Let rr : ActivationRecoveryRequest := recovery_request r.

(** [C4] An activation is all or nothing, and says which: whatever the durable ports answer, its
    outcome tells the truth about the log and the gate. [Activated] means that the event is the last
    of the history, right after the head the command expected, that the epoch is served under the
    next generation, and that the cache holds its receipt. [NotSelected] means that no event of the
    operation is in the log or can still come, with the gate as it was or open again. Otherwise it
    leaves a ticket that recovery accepts, with the gate in the posture the ticket records and the log
    in agreement with it. In every case an event of the operation, if there is one, is exactly the one
    the request asked for. *)
Theorem activation_is_atomic (w : ActivationWorld L) :
  selects_epoch rr -> request_workspace rr = ws -> log_ok (aw_log w) -> absent (request_operation rr) (aw_log w) ->
  let '(w', o) := activate r w in
  kept r w w'
  /\ match o with
     | Activated receipt =>
         (exists before, log (aw_log w') = before ++ [ae_event receipt]
            /\ chain_head (mk_ActivationChain ws before) = expected_head (tr_command r))
         /\ records rr (ae_event receipt)
         /\ aw_gate w' = moved (aw_gate w) PhaseOpen (gate_generation (aw_gate w) + 1)
                           (gate_next_barrier_id (aw_gate w) + 1)
         /\ aw_cache w' = Some (ae_cache receipt)
     | NotSelected _ =>
         absent (request_operation rr) (aw_log w')
         /\ (aw_gate w' = aw_gate w
             \/ gate_phase (aw_gate w) = PhaseOpen
                /\ aw_gate w' = moved (aw_gate w) PhaseOpen (gate_generation (aw_gate w))
                                  (gate_next_barrier_id (aw_gate w) + 1))
     | ReconciliationNeeded t =>
         recovery_ticket_matches rr t = true /\ posture_holds t (aw_gate w') /\ knowledge_holds t (aw_log w')
     end.
Proof.
  intros Hr Hws Hok Ha. pose proof (activate_spec ws r w Hr Hws Hok Ha) as H'.
  by destruct (activate r w) as [w' o].
Qed.

(** [C7] An interrupted activation recovers: let an activation leave a ticket, and let other operations
    go on. Recovering with that ticket never selects anything itself and never lies: [Activated] means
    that the event of the request is the last of the history, with the gate open and the cache
    reconciled; [NotSelected] that the operation is absent for good, with the gate open; and a further
    ticket names the same request, agrees with the log, and leaves the gate closed unless the epoch is
    the selected one. Once the marker can be read, recovery under the same or a newer fence decides,
    over the gate as it was left or after a restart, as long as nothing was activated in between. *)
Theorem interrupted_activation_recovers (w w1 w2 : ActivationWorld L) t recovery :
  selects_epoch rr -> request_workspace rr = ws -> log_ok (aw_log w) -> absent (request_operation rr) (aw_log w) ->
  activate r w = (w1, ReconciliationNeeded t) ->
  log_ok (aw_log w2) ->
  grows (fun row => ar_operation_id row <> request_operation rr) (aw_log w1) (aw_log w2) ->
  let '(w3, o) := recover rr t recovery w2 in
  recovered rr w2 o w3 /\ (resumes ws rr recovery w2 w1 -> decided o w3).
Proof.
  intros Hr Hws Hok Ha Hact Hok2 Hgrow. pose proof (activate_spec ws r w Hr Hws Hok Ha) as Hsp.
  rewrite Hact in Hsp. destruct Hsp as [(_ & Hau & _) (Hm & Hpo & Hkn)].
  pose proof (ticket_matches_names _ _ Hm) as (_ & Hop & _).
  assert (authored rr (aw_log w2)) as Hau2 by (eapply grows_authored; [done|by intros|done]).
  assert (knowledge_holds t (aw_log w2)) as Hkn2 by (eapply grows_knowledge; [done|by rewrite Hop|done]).
  pose proof (recover_spec ws rr t recovery w2 Hr Hws Hok2 Hau2 Hkn2) as Hrec.
  pose proof (recover_decides ws rr t recovery w2 Hr Hws Hok2 Hau2 Hkn2) as Hdec.
  destruct (recover rr t recovery w2) as [w3 o]. split; [done|]. intros Hres. apply Hdec.
  by eapply resumes_recoverable.
Qed.
End transaction.

(** ** The effect *)

(** [C19] The activation effect keeps the contract on which the command actor relies. [prepare] touches
    nothing but the application's own state. What [commit] reports as committed, and what [reconcile]
    observes as committed, is the last event of the history, of this operation and transaction, for the
    epoch the command names, and is being served. A known failure, and an observation of no commit, mean
    that no event of the operation exists or can come. An unknown outcome leaves a persisted ticket that
    recovery accepts and that describes the gate and the log. An error means that the workspace is as it
    was, or comes from the application's own store: the receipts of the coordinators always pass the
    checks. The answers are those that the model of the actor assumes of its effect port. *)
Theorem activation_effect_keeps_the_contract {L : Type} (ws : WorkspaceId) `{!ActivationLog L, !ActivationLogLaws L ws}
    `{!Blake3} {S : Type} `{!ActivationCommandStatePort S, !ActivationCommandStateLaws S}
    (record : CommandRecord) owner transaction context (w : ActivationWorld L) (s : S) :
  let op := record_operation record in
  owner_workspace_id (ownership (command record)) = ws -> command_kind (command record) = KindActivateEpoch ->
  log_ok (aw_log w) ->
  (let '(w', s', x) := activation_prepare record owner context (w, s) in
   w' = w /\ prepare_answers record owner context x)
  /\ (absent op (aw_log w) ->
      let '(w', s', x) := activation_commit record owner transaction context (w, s) in
      commit_reports record transaction w x (w', s')
      /\ forall a, exists f, attests record (aw_log w') f /\ commit_answers (mk_Invocation op a f) x)
  /\ (tickets_true record owner transaction context w s ->
      let '(w', s', x) := activation_reconcile record owner transaction context (w, s) in
      reconcile_reports record transaction w x (w', s')
      /\ forall recovery,
           reconciliation_attempt record owner transaction context (routed_kind record) = Ok recovery ->
           exists invocations closed,
             Forall (fun v => attests record (aw_log w') (inv_fate v)) invocations
             /\ (closed <> [] -> absent op (aw_log w'))
             /\ reconcile_answers invocations closed record owner transaction context x).
Proof.
  intros op Hws Hk Hok. split_and!.
  - pose proof (prepare_spec record owner context w s Hk) as Hp. unfold wp in Hp.
    by destruct (activation_prepare _ _ _ _) as [[w' s'] x].
  - intros Ha. pose proof (commit_spec ws record owner transaction context w s Hws Hok Ha) as Hc. unfold wp in Hc.
    destruct (activation_commit _ _ _ _ _) as [[w' s'] x]. split; [done|]. intros a. by eapply commit_honours.
  - intros Ht. pose proof (reconcile_spec ws record owner transaction context w s Hws Hok Ht) as Hc. unfold wp in Hc.
    destruct (activation_reconcile _ _ _ _ _) as [[w' s'] x]. split; [done|]. intros recovery Hr.
    by eapply reconcile_honours.
Qed.
