(* ===== verification/ActivationWitness.v ===== *)
(** A concrete workspace: a control table that loses an acknowledgement on demand, an application that
    keeps one ticket, and the command of [CommandSample] activated in it. The guarantees of
    [ActivationClaims] with hypotheses are instantiated here; the tickets that recovery refuses are
    shown on a run of it. *)

From S2P Require Import Prelude.
From S2P Require Import Encoding.
From S2P Require Import CommandModel.
From S2P Require Import CommandWitness.
From S2P Require Import ActorModel.
From S2P Require Import EffectContract.
From S2P Require Import ActorWorld.
From S2P Require Import ActivationModel.
From S2P Require Import ActivationTheory.
From S2P Require Import AdmissionModel.
From S2P Require Import AdmissionTheory.
From S2P Require Import TransactionModel.
From S2P Require Import TransactionPorts.
From S2P Require Import TransactionTheory.
From S2P Require Import ActivationRecovery.
From S2P Require Import ActivationEffect.
From S2P Require Import ActivationEffectTheory.
From S2P Require Import ActivationClaims.
Local Open Scope Z_scope.

Module ActivationSample.
Abbreviation ident := CommandSample.ident.
Abbreviation cmd := CommandSample.cmd.

Definition aid (t : activation_tag) (b : byte) : activation_identity t := activation_from_bytes (repeat_byte 32 b).
Definition ws : WorkspaceId := owner_workspace_id (ownership cmd).
Definition diagnostic : DiagnosticRef := ident _ x60.

#[export] Instance blake3 : Blake3 := fun _ => repeat_byte 32 x61.

(** ** The control table *)

(** What the next answers of the table leave out: nothing, the outcome of an append, the marker. *)
Inductive Loss := Nothing | AppendOutcome | Marker.

Record Table := mk_Table { ta_events : list ActivationEvent; ta_loss : Loss }.

Definition chain_of (l : Table) : ActivationChain := mk_ActivationChain ws (ta_events l).
Definition ordinal_fits (e : ActivationEvent) : bool := ((0 <? ordinal e) && (ordinal e <=? u64_max))%bool.

(** The table with a row more, when the rows still form a history. *)
Definition extended (c : ActivationAppendContract) (l : Table) : option (Table * ActivationEvent) :=
  match contract_row c with
  | Err _ => None
  | Ok row =>
      let e := from_durable_parts row (aid _ x62) (aid _ x63) in
      let events := (ta_events l ++ [e])%list in
      match derive ws events with
      | Returned (Ok chain) =>
          if (ordinal_fits e && bool_decide (chain = mk_ActivationChain ws events))%bool
          then Some (mk_Table events (ta_loss l), e) else None
      | _ => None
      end
  end.

Definition table_append (c : ActivationAppendContract) (l : Table) : Table * ActivationAppendOutcome :=
  match extended c l with
  | None => (l, AppendUnknown CommitOutcomeUnknown diagnostic)
  | Some (l', e) =>
      match ta_loss l with
      | AppendOutcome => (l', AppendUnknown CommitOutcomeUnknown diagnostic)
      | Nothing | Marker => (l', AppendCommitted (mk_SelectedEpochRecord e (co_table_versions c)) (chain_of l'))
      end
  end.

Definition table_marker (rq : ActivationOperationMarkerRequest) (l : Table)
  : Table * ActivationOperationMarkerOutcome :=
  match ta_loss l with
  | Marker => (l, MarkerUnknown diagnostic)
  | Nothing | AppendOutcome =>
      (l, match list_find (fun e => ev_operation_id e = mr_operation_id rq) (ta_events l) with
          | Some (_, e) =>
              MarkerSelected (mk_SelectedEpochRecord e (mk_TableVersionSet (ep_table_versions (ev_pins e)) ∅))
                (chain_of l) None (ident _ x64)
          | None => MarkerProvedNotSelected (chain_of l) (ident _ x64)
          end)
  end.

#[export] Instance table_log : ActivationLog Table := {|
  log := ta_events;
  in_flight := fun _ => [];
  log_ok := fun l => history ws (ta_events l) /\ typed (ta_events l);
  log_revalidate := fun rq l => (l, AuthorityValid (mk_ActivationAuthoritySnapshot (chain_of l) (au_execution_fence rq)));
  log_append := table_append;
  log_marker := table_marker
|}.

Lemma table_grows_refl (new : DurableActivationRow -> Prop) (l : Table) : grows new l l.
Proof. split_and!; [done|intros e He; by left|by intros r Hr; left]. Qed.

Lemma extended_Some c l l' e :
  history ws (ta_events l) /\ typed (ta_events l) -> extended c l = Some (l', e) ->
  log_ok l' /\ grows (fun r => contract_row c = Ok r) l l'.
Proof.
  intros [_ Ht]. unfold extended. destruct (contract_row c) as [row|] eqn:Hrow; [|done].
  set (e' := from_durable_parts _ _ _). destruct (derive ws _) as [[chain|]| |] eqn:Hd; try done.
  destruct (ordinal_fits e') eqn:Hf; [|done]. case_bool_decide as Hc; [|done]. intros [= <- <-]. subst chain.
  assert (typed (ta_events l ++ [e'])) as Ht'.
  { apply Forall_app. split; [done|]. apply Forall_singleton. unfold ordinal_fits in Hf. unfold ordinal_typed.
    change (ordinal_get (ev_ordinal e')) with (ordinal e'). lia. }
  apply derive_exact in Hd as (_ & _ & Hh); [|done]. split; [done|]. split_and!.
  - by eexists.
  - intros e He. simpl in He. apply elem_of_app in He as [He|He]; [by left|]. apply list_elem_of_singleton in He as ->.
    right; right. f_equal. by destruct row as [? ? ? ? ? ? ? ? ? ? []].
  - by intros r Hr; left.
Qed.

Lemma table_find_operation op l :
  match list_find (fun e => ev_operation_id e = op) (ta_events l) with
  | Some (_, e) => e ∈ log l /\ ev_operation_id e = op
  | None => absent op l
  end.
Proof.
  destruct (list_find _ _) as [[i e]|] eqn:Hf.
  - apply list_find_Some in Hf as (Hi & He & _). split; [by eapply list_elem_of_lookup_2|done].
  - apply list_find_None in Hf. split; [|by intros r Hr%elem_of_nil]. intros e He. by eapply Forall_forall in Hf.
Qed.

#[export] Instance table_laws : ActivationLogLaws Table ws.
Proof.
  split.
  - done.
  - intros rq l Hl. split; [done|]. split; [apply table_grows_refl|done].
  - intros c l Hl. unfold log_append, table_log, table_append. destruct (extended c l) as [[l' e]|] eqn:He.
    + apply extended_Some in He as [Hok Hg]; [|done]. by destruct (ta_loss l).
    + split; [done|]. split; [apply table_grows_refl|done].
  - intros rq l Hl. unfold log_marker, table_log, table_marker.
    pose proof (table_find_operation (mr_operation_id rq) l) as Hfind.
    destruct (ta_loss l); (split; [done|split; [apply table_grows_refl|]]); [..|done].
    all: destruct (list_find _ _) as [[i e]|]; [by destruct Hfind|done].
Qed.

(** ** The request *)

Definition txn : TransactionRef := CommandSample.txn.
Definition o1 : ExecutionOwner := CommandSample.o1.
Definition context : ReductionContext := CommandSample.at_fence 1.

Definition epoch_pins : FabricEpochPins :=
  mk_FabricEpochPins (ident _ x0e) (input_release (pins cmd)) (program_release (pins cmd))
    (application_release (pins cmd)) (source_authority (pins cmd)) (pinned_source_generation (pins cmd))
    (provider_release (pins cmd)) (provider_set (pins cmd)) (aid _ x70) (aid _ x71) (aid _ x72) (resources cmd)
    (ident _ x0f).
Definition candidate : ProgrammaticFabricEpoch :=
  mk_ProgrammaticFabricEpoch (ident _ x0e) (mk_TableVersionSet (aid _ x70) ∅).
Definition root : ExactDeltaPin := mk_ExactDeltaPin "memory:///control/" 0.
Definition control : ActivationControlRelationPin :=
  mk_ActivationControlRelationPin root (mk_SealedActivationControlBinding "session" (repeat_byte 32 x73))
    (repeat_byte 32 x74).

Definition request_of (a : ActivationAttempt) : result ActivationTransactionRequest ActivationTransactionRequestError :=
  transaction_request a candidate epoch_pins (aid _ x75) (aid _ x76) (ident _ x77) (ident _ x78) txn control.
Definition recovery_of (a : ActivationAttempt) (tx : TransactionRef)
  : result ActivationRecoveryRequest ActivationTransactionRequestError :=
  recovery_request_from a epoch_pins (aid _ x75) (aid _ x76) (ident _ x77) (ident _ x78) tx control.

Definition validated : ValidatedCommandAttempt := mk_ValidatedCommandAttempt cmd 1 o1 (Some txn).
Definition attempt : ActivationAttempt := activation_attempt validated.
Definition recovery : ActivationRecoveryAttempt := activation_recovery (mk_ValidatedCommandRecovery validated o1).
Definition request : ActivationTransactionRequest :=
  mk_ActivationTransactionRequest attempt cmd (attempt_fence attempt) candidate epoch_pins (aid _ x75) (aid _ x76)
    (ident _ x77) (ident _ x78) txn control.

Lemma request_built : request_of attempt = Ok request.
Proof. vm_compute. reflexivity. Qed.

Lemma request_selects : selects_epoch (recovery_request request).
Proof. by eapply transaction_request_selects, request_built. Qed.

(** ** The workspace *)

Definition world (loss : Loss) : ActivationWorld Table :=
  mk_ActivationWorld ws (mk_PublishedCandidateValidation (Some (ws, epoch_pins)) diagnostic)
    (mk_FabricAdmissionRuntime ws 0 PhaseOpen 0 0) None (mk_Table [] loss).

Lemma empty_ok loss : log_ok (aw_log (world loss)).
Proof. split; [split; [apply distinct_nil|done]|constructor]. Qed.

Lemma empty_absent loss op : absent op (aw_log (world loss)).
Proof. split; intros x Hx; by apply elem_of_nil in Hx. Qed.

Definition the_event : ActivationEvent :=
  mk_ActivationEvent (aid _ x75) ws (operation_id (identity cmd)) None EmptyHead (mk_ActivationOrdinal 1)
    (attempt_fence attempt) epoch_pins (aid _ x76) (ident _ x77)
    (mk_ActivationCommit (ident _ x78) txn (aid _ x62) (aid _ x63)).
End ActivationSample.

Import ActivationSample.

Lemma activation_is_atomic_witness :
  exists w' receipt, activate request (world Nothing) = (w', Activated receipt)
    /\ log (aw_log w') = [the_event] /\ ae_event receipt = the_event
    /\ aw_gate w' = mk_FabricAdmissionRuntime ws 0 PhaseOpen 1 1.
Proof.
  pose proof (activation_is_atomic ws request (world Nothing) request_selects eq_refl (empty_ok _) (empty_absent _ _)) as H.
  assert (exists w' receipt, activate request (world Nothing) = (w', Activated receipt)
            /\ log (aw_log w') = [the_event] /\ ae_event receipt = the_event) as (w' & receipt & Ha & Hl & He)
    by (vm_compute; do 2 eexists; split_and!; reflexivity).
  rewrite Ha in H. destruct H as (_ & _ & _ & Hg & _). exists w', receipt. by split_and!.
Defined.

(** The acknowledgement of the append is lost; recovery finds the event. *)
Definition left_world : ActivationWorld Table := (activate request (world AppendOutcome)).1.
Definition left_ticket : ActivationReconciliationTicket :=
  mk_ActivationReconciliationTicket DurableAppendReadback (AppendIsUnknown CommitOutcomeUnknown diagnostic) ws
    (operation_id (identity cmd)) (ident _ x0e) EmptyHead (attempt_fence attempt) (aid _ x75) txn (ident _ x78)
    SelectionUnknown PostureClosed.

Lemma left_by_activate : activate request (world AppendOutcome) = (left_world, ReconciliationNeeded left_ticket).
Proof. vm_compute. reflexivity. Qed.

Lemma left_log : log (aw_log left_world) = [the_event].
Proof. vm_compute. reflexivity. Qed.

Lemma left_undisturbed : undisturbed ws (recovery_request request) recovery left_world.
Proof.
  assert (log (log_marker (operation_marker_request (recovery_request request) (recovering_fence recovery))
                 (aw_log left_world)).1 = [the_event]) as Hl by (vm_compute; reflexivity).
  split.
  - intros e He _. rewrite Hl in *. by apply list_elem_of_singleton in He as ->.
  - intros [Ha _]. exfalso. apply (Ha the_event); [|reflexivity]. rewrite Hl. by apply list_elem_of_singleton.
Qed.

Lemma interrupted_activation_recovers_witness :
  exists w3 receipt, recover (recovery_request request) left_ticket recovery left_world = (w3, Activated receipt)
    /\ ae_event receipt = the_event /\ gate_phase (aw_gate w3) = PhaseOpen.
Proof.
  pose proof (interrupted_activation_recovers ws request (world AppendOutcome) left_world left_world left_ticket recovery
    request_selects eq_refl (empty_ok _) (empty_absent _ _) left_by_activate) as H.
  assert (log_ok (aw_log left_world)) as Hok.
  { pose proof (activate_spec ws request (world AppendOutcome) request_selects eq_refl (empty_ok _) (empty_absent _ _))
      as [[Hl _] _]. exact Hl. }
  specialize (H Hok (table_grows_refl _ _)).
  assert (resumes ws (recovery_request request) recovery left_world left_world) as Hres.
  { split.
    - vm_compute. reflexivity.
    - vm_compute. reflexivity.
    - vm_compute. exact I.
    - apply left_undisturbed.
    - vm_compute. reflexivity.
    - vm_compute. reflexivity.
    - left. reflexivity.
    - vm_compute. reflexivity.
    - vm_compute. reflexivity.
    - vm_compute. exact I. }
  destruct (recover _ _ _ _) as [w3 o] eqn:Hr. destruct H as [Hrec Hdec]. specialize (Hdec Hres).
  destruct o as [receipt|stopped|]; [| |by destruct Hdec].
  - destruct Hrec as (_ & (_ & before & Hl) & Hg & _). exists w3, receipt. split_and!; [done| |done].
    assert (log (aw_log w3) = [the_event]) as Hw3.
    { change w3 with (w3, Activated receipt).1. rewrite <- Hr. vm_compute. reflexivity. }
    rewrite Hw3 in Hl. destruct before as [|? [|]]; by inversion Hl.
  - exfalso.
    assert ((recover (recovery_request request) left_ticket recovery left_world).2 <> NotSelected stopped) as Hn
      by (vm_compute; discriminate). rewrite Hr in Hn. by apply Hn.
Defined.

(** An activation whose cache could not be reconciled: its ticket is good, and one recovery decides. *)
Definition swapped_world (loss : Loss) : ActivationWorld Table :=
  mk_ActivationWorld ws (mk_PublishedCandidateValidation (Some (ws, epoch_pins)) diagnostic)
    (mk_FabricAdmissionRuntime ws 0
       (PhaseSwapped (mk_ActivationBarrier 0 0 EmptyHead (attempt_fence attempt)) (aid _ x75) (ident _ x0e)) 0 1)
    None (mk_Table [the_event] loss).
Definition swapped_ticket : ActivationReconciliationTicket :=
  mk_ActivationReconciliationTicket CacheReconciliation (CacheUnknown diagnostic) ws (operation_id (identity cmd))
    (ident _ x0e) EmptyHead (attempt_fence attempt) (aid _ x75) txn (ident _ x78) (ReadBack (aid _ x75)) PostureSwapped.

Lemma swapped_activation_recovers :
  exists w receipt,
    recover (recovery_request request) swapped_ticket recovery (swapped_world Nothing) = (w, Activated receipt).
Proof. vm_compute. do 2 eexists. reflexivity. Qed.

(** The same ticket, when the marker cannot be read once: the epoch stays swapped in and the gate closed,
    although the marker can be read from the second recovery on. *)
Definition repaired (w : ActivationWorld Table) : ActivationWorld Table :=
  set_log w (mk_Table (ta_events (aw_log w)) Nothing).

Lemma one_unreadable_marker_strands runs :
  exists t', (recover_again (recovery_request request) swapped_ticket
                ((id, recovery) :: (repaired, recovery) :: runs) (swapped_world Marker)).2 = ReconciliationNeeded t'.
Proof.
  eapply unreadable_marker_strands_the_activation; [vm_compute; reflexivity..|left; reflexivity|vm_compute; reflexivity].
Qed.

(** ** The history *)

Definition the_evidence : ActivationDeltaCommitEvidence :=
  mk_ActivationDeltaCommitEvidence control (mk_ExactDeltaPin "memory:///control/" 1)
    (mk_ExactDeltaPin "memory:///control/" 1) (operation_id (identity cmd)) txn (attempt_fence attempt)
    NotExposedByCommitHistory 0 (aid _ x62).

Lemma activation_history_is_exact_witness :
  exists chain,
    chain_from_durable_rows blake3 ws [(durable_row the_event, de_committed the_evidence, the_evidence)]
    = Returned (Ok chain)
    /\ durable_row <$> chain_events chain ≡ₚ [durable_row the_event].
Proof.
  destruct (activation_history_is_exact blake3 ws [(durable_row the_event, de_committed the_evidence, the_evidence)])
    as (_ & _ & Hrows & _).
  { apply Forall_singleton. split; vm_compute; [reflexivity|discriminate]. }
  assert (exists chain, chain_from_durable_rows blake3 ws
            [(durable_row the_event, de_committed the_evidence, the_evidence)] = Returned (Ok chain)) as [chain Hc]
    by (vm_compute; eexists; reflexivity).
  exists chain. split; [exact Hc|]. exact (Hrows chain Hc).
Defined.

(** ** The gate *)

Lemma admission_gate_is_safe_witness :
  let closed := after (CloseAdmission EmptyHead (attempt_fence attempt)) (aw_gate (world Nothing)) in
  after (AbortBeforeSelection (mk_ActivationBarrier 0 0 EmptyHead (attempt_fence attempt)) (mk_ActivationChain ws []))
    closed = mk_FabricAdmissionRuntime ws 0 PhaseOpen 0 1
  /\ gate_generation (aw_gate (world Nothing)) <= gate_generation closed.
Proof.
  intros closed. split; [vm_compute; reflexivity|].
  exact (proj1 (proj2 (proj2 (admission_gate_is_safe
    [CloseAdmission EmptyHead (attempt_fence attempt)] (aw_gate (world Nothing)))))).
Defined.

(** ** The effect *)

(** An application that keeps the last ticket. *)
#[export] Instance application : ActivationCommandStatePort (option ActivationReconciliationTicket) := {|
  resolve_request := fun _ a _ s =>
    (s, match request_of a with
        | Ok r => map_err (fun _ => CorruptRecord) (resolved_transaction r txn)
        | Err _ => Err CorruptRecord
        end);
  classify_not_selected := fun _ _ s => (s, Err EffectUnavailable);
  persist_reconciliation := fun _ t _ =>
    (Some t, Ok (mk_PersistedActivationReconciliation CommandSample.unknown CommandSample.evidence));
  load_reconciliation := fun record owner tx ctx s =>
    (s, match s with
        | None => Err ContextUnavailable
        | Some t =>
            let? v := reconciliation_attempt record owner tx ctx KindActivateEpoch in
            let? r := map_err (fun _ => CorruptRecord) (recovery_of (activation_attempt (vr_attempt v)) tx) in
            let? resolved := map_err (fun _ => CorruptRecord) (resolved_recovery r tx) in
            map_err (fun _ => CorruptRecord) (loaded_reconciliation resolved t)
        end)
|}.

#[export] Instance application_laws : ActivationCommandStateLaws (option ActivationReconciliationTicket).
Proof.
  split.
  - intros record a ctx s. unfold resolve_request, application. cbn [snd].
    destruct (request_of a) as [r|] eqn:Hr; [|done]. unfold resolved_transaction.
    case_bool_decide as Ht; simpl; [|done]. apply transaction_request_selects in Hr as (Hs & _). done.
  - intros record o tx ctx s. unfold load_reconciliation, application. cbn [snd].
    destruct s as [t|]; [|done]. destruct (reconciliation_attempt _ _ _ _ _) as [v|]; [|done].
    destruct (recovery_of _ _) as [r|] eqn:Hr; cbn [map_err]; [|done].
    apply recovery_request_selects in Hr as (Hs & _ & Htx).
    unfold resolved_recovery. rewrite bool_decide_eq_true_2 by done. cbn [map_err negb].
    destruct (loaded_reconciliation _ t) as [l|] eqn:Hl; [|done]. cbn [map_err].
    apply loaded_names in Hl as (-> & -> & Hn); [|done]. done.
Qed.

Definition prepared_record : CommandRecord := mk_CommandRecord cmd (StateCommitPrepared 1 o1 txn) 2.
Definition awaiting_record : CommandRecord :=
  mk_CommandRecord cmd (StateAwaitingReconciliation 1 o1 o1 txn CommandSample.unknown 0 None) 3.

Lemma left_ticket_true : tickets_true awaiting_record o1 txn context left_world (Some left_ticket).
Proof.
  pose proof (activate_spec ws request (world AppendOutcome) request_selects eq_refl (empty_ok _) (empty_absent _ _))
    as [(_ & Hau & _) _].
  unfold tickets_true.
  replace (load_reconciliation awaiting_record o1 txn context (Some left_ticket)).2
    with (Ok (mk_LoadedActivationReconciliation (mk_ResolvedActivationRecovery (recovery_request request) txn) left_ticket)
          : result LoadedActivationReconciliation CommandPortError) by (vm_compute; reflexivity).
  split; [exact I|exact Hau].
Qed.

(** A commit whose acknowledgement is lost leaves the ticket; its reconciliation observes the commit. *)
Lemma activation_effect_keeps_the_contract_witness :
  (activation_commit prepared_record o1 txn context (world AppendOutcome, None)).2 = Ok (CommitUnknown CommandSample.unknown)
  /\ (activation_commit prepared_record o1 txn context (world AppendOutcome, None)).1 = (left_world, Some left_ticket)
  /\ exists evidence result,
       (activation_reconcile awaiting_record o1 txn context (left_world, Some left_ticket)).2
       = Ok (ObservedCommitted evidence result)
       /\ last_event awaiting_record txn result
            (aw_log (activation_reconcile awaiting_record o1 txn context (left_world, Some left_ticket)).1.1).
Proof.
  split; [vm_compute; reflexivity|]. split; [vm_compute; reflexivity|].
  assert (log_ok (aw_log left_world)) as Hok.
  { pose proof (activate_spec ws request (world AppendOutcome) request_selects eq_refl (empty_ok _) (empty_absent _ _))
      as [[Hl _] _]. exact Hl. }
  destruct (activation_effect_keeps_the_contract ws awaiting_record o1 txn context left_world (Some left_ticket)
              eq_refl eq_refl Hok) as (_ & _ & Hrec).
  specialize (Hrec left_ticket_true).
  assert (exists evidence result, (activation_reconcile awaiting_record o1 txn context (left_world, Some left_ticket)).2
       = Ok (ObservedCommitted evidence result)) as (evidence & result & Hx) by (vm_compute; do 2 eexists; reflexivity).
  exists evidence, result. destruct (activation_reconcile _ _ _ _ _) as [[w' s'] x]. cbn [fst snd] in *. subst x.
  split; [reflexivity|]. exact (proj1 (proj1 Hrec)).
Defined.
