(* ===== verification/FamiliesModel.v ===== *)
(** The other command families: source waves, relation publications, rollbacks, compactions, retention
    and administration (src/src/fabric/*_command_effect.rs), and the router over all seven.

    The six files are one program up to names: each resolves a request, hands it once to the authority
    that commits, checks the receipt against the attempt, and reads the marker when the outcome is open.
    That program is written once here over a [CommandFamily], and each file is an instance. Only
    retention resolves its request again before it commits. *)

From S2P Require Import Prelude.
From S2P Require Import CommandModel.
From S2P Require Import ActorModel.
From S2P Require Import EffectContract.
From S2P Require Import ActivationEffect.
Local Open Scope Z_scope.

(** ** Shapes *)

(** An attempt, with what the accessors read from its payload. *)
Record Attempt (P : Type) := mk_Attempt {
  at_validated : ValidatedCommandAttempt;
  at_payload : P
}.
Arguments mk_Attempt {P} _ _.
Arguments at_validated {P} _.
Arguments at_payload {P} _.

Definition at_command {P} (a : Attempt P) : FabricCommand := va_command (at_validated a).

Record CommitRequest (P : Type) := mk_CommitRequest {
  cq_attempt : Attempt P;
  cq_transaction : TransactionRef
}.
Arguments mk_CommitRequest {P} _ _.
Arguments cq_attempt {P} _.
Arguments cq_transaction {P} _.

Record ReconciliationRequest (P : Type) := mk_ReconciliationRequest {
  rq_attempt : Attempt P;
  rq_active_recovery_owner : ExecutionOwner;
  rq_transaction : TransactionRef
}.
Arguments mk_ReconciliationRequest {P} _ _ _.
Arguments rq_attempt {P} _.
Arguments rq_active_recovery_owner {P} _.
Arguments rq_transaction {P} _.

Inductive Resolution (V : Type) :=
| Resolved (resolved : V)
| ResolutionKnownFailure (failure : CommandFailure)
| ResolutionCancelled (cancellation : CommandCancellation).
Arguments Resolved {V} _.
Arguments ResolutionKnownFailure {V} _.
Arguments ResolutionCancelled {V} _.

Record MarkerReceipt := mk_MarkerReceipt {
  ma_workspace_id : WorkspaceId;
  ma_operation_id : OperationId;
  ma_transaction : TransactionRef;
  ma_writer_generation : WriterGeneration
}.

Inductive CommitObservation (R : Type) :=
| CommitCommitted (receipt : R)
| MarkerAlreadyCommitted (marker : MarkerReceipt) (diagnostic : DiagnosticRef)
| CommitConflict (diagnostic : DiagnosticRef)
| CommitOutcomeOpen (reason : UnknownCommitReason) (diagnostic : DiagnosticRef).
Arguments CommitCommitted {R} _.
Arguments MarkerAlreadyCommitted {R} _ _.
Arguments CommitConflict {R} _.
Arguments CommitOutcomeOpen {R} _ _.

Inductive MarkerObservation (R : Type) :=
| MarkerCommitted (receipt : R) (evidence : ReconciliationEvidenceRef)
| MarkerProvedNotCommitted (evidence : ReconciliationEvidenceRef)
| MarkerIndeterminate (evidence : ReconciliationEvidenceRef).
Arguments MarkerCommitted {R} _ _.
Arguments MarkerProvedNotCommitted {R} _.
Arguments MarkerIndeterminate {R} _.

(** What tells the families apart: the kind they serve, how they read the payload, what they resolve a
    request to, and how they check a receipt and turn it into a result. *)
Record CommandFamily (P V R : Type) := mk_CommandFamily {
  fa_kind : CommandKind;
  fa_from_validated : ValidatedCommandAttempt -> result (Attempt P) CommandPortError;
  fa_resolved_attempt : V -> Attempt P;
  fa_resolved_transaction : V -> TransactionRef;
  fa_validate_receipt : Attempt P -> TransactionRef -> R -> result unit CommandPortError;
  fa_result_from_receipt : R -> CommandResult
}.
Arguments mk_CommandFamily {P V R} _ _ _ _ _ _.
Arguments fa_kind {P V R} _.
Arguments fa_from_validated {P V R} _ _.
Arguments fa_resolved_attempt {P V R} _ _.
Arguments fa_resolved_transaction {P V R} _ _.
Arguments fa_validate_receipt {P V R} _ _ _ _.
Arguments fa_result_from_receipt {P V R} _ _.

(** The three authorities: one resolves, one commits, one reads markers. *)
Class FamilyPorts (X P V Q R : Type) := {
  resolve : Attempt P -> X -> X * result (Resolution V) CommandPortError;
  commit_once : Q -> X -> X * result (CommitObservation R) CommandPortError;
  read_exact : ReconciliationRequest P -> X -> X * result (MarkerObservation R) CommandPortError
}.

(** ** The program *)

Definition validate_marker {P} (attempt : Attempt P) (transaction : TransactionRef) (marker : MarkerReceipt)
  : result unit CommandPortError :=
  let? _ := validate_receipt_generation (at_validated attempt) (ma_writer_generation marker) in
  let c := at_command attempt in
  if (negb (bool_decide (ma_workspace_id marker = owner_workspace_id (ownership c)))
      || negb (bool_decide (ma_operation_id marker = operation_id (identity c)))
      || negb (bool_decide (ma_transaction marker = transaction)))%bool
  then Err CorruptRecord
  else Ok tt.

Definition unknown (reason : UnknownCommitReason) (diagnostic : DiagnosticRef) : CommitEffectOutcome :=
  CommitUnknown (mk_UnknownCommit reason diagnostic).

Section family.
Context {X P V Q R : Type} (f : CommandFamily P V R) `{!FamilyPorts X P V Q R}.

Definition family_prepare (executing : CommandRecord) (owner : ExecutionOwner) (context : ReductionContext)
  : stm X CommandPortError PrepareEffectOutcome :=
  do! validated <- st_lift (executing_attempt executing owner context (fa_kind f)) ;
  do! attempt <- st_lift (fa_from_validated f validated) ;
  do! resolution <- (resolve attempt : stm X CommandPortError _) ;
  match resolution with
  | Resolved resolved =>
      if negb (bool_decide (at_validated (fa_resolved_attempt f resolved) = at_validated attempt))
      then st_err CorruptRecord
      else st_ret (Prepared (fa_resolved_transaction f resolved))
  | ResolutionKnownFailure failure => st_ret (PrepareKnownFailure failure)
  | ResolutionCancelled cancellation => st_ret (PrepareCancelled cancellation)
  end.

(** The [match] on the observation of a commit. *)
Definition observe (attempt : Attempt P) (transaction : TransactionRef) (observation : CommitObservation R)
  : result CommitEffectOutcome CommandPortError :=
  match observation with
  | CommitCommitted receipt =>
      let? _ := fa_validate_receipt f attempt transaction receipt in
      Ok (Committed (fa_result_from_receipt f receipt))
  | MarkerAlreadyCommitted marker diagnostic =>
      let? _ := validate_marker attempt transaction marker in
      Ok (unknown ReadbackUnavailable diagnostic)
  | CommitConflict diagnostic => Ok (unknown ReadbackUnavailable diagnostic)
  | CommitOutcomeOpen reason diagnostic => Ok (unknown reason diagnostic)
  end.

(** [commit], given how the request is made from the attempt. *)
Definition family_commit (request : Attempt P -> TransactionRef -> stm X CommandPortError Q)
    (prepared : CommandRecord) (owner : ExecutionOwner) (transaction : TransactionRef)
    (context : ReductionContext) : stm X CommandPortError CommitEffectOutcome :=
  do! validated <- st_lift (prepared_attempt prepared owner transaction context (fa_kind f)) ;
  do! attempt <- st_lift (fa_from_validated f validated) ;
  do! request <- request attempt transaction ;
  do! observation <- (commit_once request : stm X CommandPortError _) ;
  st_lift (observe attempt transaction observation).

Definition family_reconcile (awaiting : CommandRecord) (owner : ExecutionOwner) (transaction : TransactionRef)
    (context : ReductionContext) : stm X CommandPortError ReconciliationObservation :=
  do! recovery <- st_lift (reconciliation_attempt awaiting owner transaction context (fa_kind f)) ;
  do! attempt <- st_lift (fa_from_validated f (vr_attempt recovery)) ;
  let request := mk_ReconciliationRequest attempt (vr_active_recovery_owner recovery) transaction in
  do! observation <- (read_exact request : stm X CommandPortError _) ;
  match observation with
  | MarkerCommitted receipt evidence =>
      do! _ <- st_lift (fa_validate_receipt f attempt transaction receipt) ;
      st_ret (ObservedCommitted evidence (fa_result_from_receipt f receipt))
  | MarkerProvedNotCommitted evidence => st_ret (ObservedNotCommitted evidence)
  | MarkerIndeterminate evidence => st_ret (ObservedIndeterminate evidence)
  end.
End family.

(** The authorities of a family whose requests are an attempt and its transaction. *)
Abbreviation PlainPorts X P R := (FamilyPorts X P (CommitRequest P) (CommitRequest P) R).

(** The request of the families that do not resolve again. *)
Definition plain_request {X P} (attempt : Attempt P) (transaction : TransactionRef)
  : stm X CommandPortError (CommitRequest P) := st_ret (mk_CommitRequest attempt transaction).

(** ** Source waves *)

Record SourceWaveCommitReceipt := mk_SourceWaveCommitReceipt {
  sw_workspace_id : WorkspaceId;
  sw_operation_id : OperationId;
  sw_transaction : TransactionRef;
  sw_writer_generation : WriterGeneration;
  sw_source_images : SourceImageSetRef;
  sw_prior_generation : SourceGeneration;
  sw_target_generation : SourceGeneration;
  sw_resulting_head : ExpectedHead;
  sw_operation_selection : OperationSelectionRef
}.

Abbreviation SourceWaveAttempt := (Attempt (SourceImageSetRef * SourceGeneration)).

Definition source_wave_from_validated (validated : ValidatedCommandAttempt)
  : result SourceWaveAttempt CommandPortError :=
  match payload (va_command validated) with
  | PublishSourceWave source_images target_generation =>
      Ok (mk_Attempt validated (source_images, target_generation))
  | _ => Err CorruptRecord
  end.

Definition source_wave_validate_receipt (attempt : SourceWaveAttempt) (transaction : TransactionRef)
    (receipt : SourceWaveCommitReceipt) : result unit CommandPortError :=
  let c := at_command attempt in
  let '(source_images, target_generation) := at_payload attempt in
  if (negb (bool_decide (sw_workspace_id receipt = owner_workspace_id (ownership c)))
      || negb (bool_decide (sw_operation_id receipt = operation_id (identity c)))
      || negb (bool_decide (sw_transaction receipt = transaction))
      || negb (bool_decide (sw_source_images receipt = source_images))
      || negb (bool_decide (sw_prior_generation receipt = pinned_source_generation (pins c)))
      || negb (bool_decide (sw_target_generation receipt = target_generation))
      || negb (bool_decide (sw_resulting_head receipt = expected_head c)))%bool
  then Err CorruptRecord
  else validate_receipt_generation (at_validated attempt) (sw_writer_generation receipt).

Definition source_wave_result (receipt : SourceWaveCommitReceipt) : CommandResult :=
  SourceWavePublished (sw_target_generation receipt) (sw_resulting_head receipt) (sw_operation_selection receipt).

Definition source_wave_family
  : CommandFamily (SourceImageSetRef * SourceGeneration) (CommitRequest _) SourceWaveCommitReceipt :=
  mk_CommandFamily KindPublishSourceWave source_wave_from_validated cq_attempt cq_transaction
    source_wave_validate_receipt source_wave_result.

(** ** Relation publications *)

Record RelationPublicationCommitReceipt := mk_RelationPublicationCommitReceipt {
  rp_workspace_id : WorkspaceId;
  rp_operation_id : OperationId;
  rp_transaction : TransactionRef;
  rp_writer_generation : WriterGeneration;
  rp_publication : RelationPublication;
  rp_resulting_head : ExpectedHead;
  rp_operation_selection : OperationSelectionRef
}.

Abbreviation RelationPublicationAttempt := (Attempt RelationPublication).

Definition relation_publication_from_validated (validated : ValidatedCommandAttempt)
  : result RelationPublicationAttempt CommandPortError :=
  match payload (va_command validated) with
  | PublishRelations publication => Ok (mk_Attempt validated publication)
  | _ => Err CorruptRecord
  end.

Definition relation_publication_validate_receipt (attempt : RelationPublicationAttempt)
    (transaction : TransactionRef) (receipt : RelationPublicationCommitReceipt) : result unit CommandPortError :=
  let c := at_command attempt in
  if (negb (bool_decide (rp_workspace_id receipt = owner_workspace_id (ownership c)))
      || negb (bool_decide (rp_operation_id receipt = operation_id (identity c)))
      || negb (bool_decide (rp_transaction receipt = transaction))
      || negb (bool_decide (rp_publication receipt = at_payload attempt))
      || negb (bool_decide (rp_resulting_head receipt = expected_head c)))%bool
  then Err CorruptRecord
  else validate_receipt_generation (at_validated attempt) (rp_writer_generation receipt).

Definition publication_relations (p : RelationPublication) : RelationSetRef :=
  match p with
  | PublishProviderNative _ _ relations | PublishCanonical _ _ relations | PublishDerived _ _ relations
  | PublishOperationalFact _ relations => relations
  end.

Definition relation_publication_result (receipt : RelationPublicationCommitReceipt) : CommandResult :=
  RelationsPublished (RelationPublication_class (rp_publication receipt))
    (publication_relations (rp_publication receipt)) (rp_resulting_head receipt) (rp_operation_selection receipt).

Definition relation_publication_family
  : CommandFamily RelationPublication (CommitRequest _) RelationPublicationCommitReceipt :=
  mk_CommandFamily KindPublishRelations relation_publication_from_validated cq_attempt cq_transaction
    relation_publication_validate_receipt relation_publication_result.

(** ** Rollbacks *)

Record RollbackCommitReceipt := mk_RollbackCommitReceipt {
  rb_workspace_id : WorkspaceId;
  rb_operation_id : OperationId;
  rb_transaction : TransactionRef;
  rb_writer_generation : WriterGeneration;
  rb_target_epoch : EpochId;
  rb_rollback_authorization : RollbackAuthorizationRef;
  rb_operation_selection : OperationSelectionRef;
  rb_selected_epoch : EpochId
}.

Abbreviation RollbackAttempt := (Attempt (EpochId * RollbackAuthorizationRef)).

Definition rollback_from_validated (validated : ValidatedCommandAttempt)
  : result RollbackAttempt CommandPortError :=
  match payload (va_command validated) with
  | RollbackEpoch target_epoch authorization => Ok (mk_Attempt validated (target_epoch, authorization))
  | _ => Err CorruptRecord
  end.

Definition rollback_validate_receipt (attempt : RollbackAttempt) (transaction : TransactionRef)
    (receipt : RollbackCommitReceipt) : result unit CommandPortError :=
  let? _ := validate_receipt_generation (at_validated attempt) (rb_writer_generation receipt) in
  let c := at_command attempt in
  let '(target_epoch, rollback_authorization) := at_payload attempt in
  if (negb (bool_decide (rb_workspace_id receipt = owner_workspace_id (ownership c)))
      || negb (bool_decide (rb_operation_id receipt = operation_id (identity c)))
      || negb (bool_decide (rb_transaction receipt = transaction))
      || negb (bool_decide (rb_target_epoch receipt = target_epoch))
      || negb (bool_decide (rb_rollback_authorization receipt = rollback_authorization))
      || negb (bool_decide (rb_selected_epoch receipt = target_epoch)))%bool
  then Err CorruptRecord
  else Ok tt.

Definition rollback_result (receipt : RollbackCommitReceipt) : CommandResult :=
  EpochRolledBack (rb_selected_epoch receipt) (rb_operation_selection receipt).

Definition rollback_family
  : CommandFamily (EpochId * RollbackAuthorizationRef) (CommitRequest _) RollbackCommitReceipt :=
  mk_CommandFamily KindRollbackEpoch rollback_from_validated cq_attempt cq_transaction
    rollback_validate_receipt rollback_result.

(** ** Compactions *)

Record CompactionCommitReceipt := mk_CompactionCommitReceipt {
  cp_workspace_id : WorkspaceId;
  cp_operation_id : OperationId;
  cp_transaction : TransactionRef;
  cp_writer_generation : WriterGeneration;
  cp_relations : RelationSetRef;
  cp_equivalence_proof : ProofReceiptRef;
  cp_resulting_head : ExpectedHead;
  cp_operation_selection : OperationSelectionRef
}.

Abbreviation CompactionAttempt := (Attempt (RelationSetRef * ProofReceiptRef)).

Definition compaction_from_validated (validated : ValidatedCommandAttempt)
  : result CompactionAttempt CommandPortError :=
  match payload (va_command validated) with
  | CompactRelations relations equivalence_proof => Ok (mk_Attempt validated (relations, equivalence_proof))
  | _ => Err CorruptRecord
  end.

Definition compaction_validate_receipt (attempt : CompactionAttempt) (transaction : TransactionRef)
    (receipt : CompactionCommitReceipt) : result unit CommandPortError :=
  let c := at_command attempt in
  let '(relations, equivalence_proof) := at_payload attempt in
  if (negb (bool_decide (cp_workspace_id receipt = owner_workspace_id (ownership c)))
      || negb (bool_decide (cp_operation_id receipt = operation_id (identity c)))
      || negb (bool_decide (cp_transaction receipt = transaction))
      || negb (bool_decide (cp_relations receipt = relations))
      || negb (bool_decide (cp_equivalence_proof receipt = equivalence_proof))
      || negb (bool_decide (cp_resulting_head receipt = expected_head c)))%bool
  then Err CorruptRecord
  else validate_receipt_generation (at_validated attempt) (cp_writer_generation receipt).

Definition compaction_result (receipt : CompactionCommitReceipt) : CommandResult :=
  RelationsCompacted (cp_relations receipt) (cp_resulting_head receipt) (cp_operation_selection receipt).

Definition compaction_family
  : CommandFamily (RelationSetRef * ProofReceiptRef) (CommitRequest _) CompactionCommitReceipt :=
  mk_CommandFamily KindCompactRelations compaction_from_validated cq_attempt cq_transaction
    compaction_validate_receipt compaction_result.

(** ** Retention *)

Record RetentionDeletionPlanRef := mk_RetentionDeletionPlanRef { deletion_plan_as_bytes : byte_array 32 }.

Abbreviation RetentionAttempt := (Attempt (RetentionPolicyRef * ProtectedSetRef)).

Record ResolvedRetention := mk_ResolvedRetention {
  rd_attempt : RetentionAttempt;
  rd_deletion_plan : RetentionDeletionPlanRef;
  rd_proof_receipt : ProofReceiptRef;
  rd_transaction : TransactionRef
}.

Record RetentionCommitReceipt := mk_RetentionCommitReceipt {
  rn_workspace_id : WorkspaceId;
  rn_operation_id : OperationId;
  rn_transaction : TransactionRef;
  rn_writer_generation : WriterGeneration;
  rn_policy : RetentionPolicyRef;
  rn_protected : ProtectedSetRef;
  rn_resulting_head : ExpectedHead;
  rn_operation_selection : OperationSelectionRef
}.

Definition retention_from_validated (validated : ValidatedCommandAttempt)
  : result RetentionAttempt CommandPortError :=
  match payload (va_command validated) with
  | ApplyRetention policy protected => Ok (mk_Attempt validated (policy, protected))
  | _ => Err CorruptRecord
  end.

Definition retention_validate_receipt (attempt : RetentionAttempt) (transaction : TransactionRef)
    (receipt : RetentionCommitReceipt) : result unit CommandPortError :=
  let? _ := validate_receipt_generation (at_validated attempt) (rn_writer_generation receipt) in
  let c := at_command attempt in
  let '(policy, protected) := at_payload attempt in
  if (negb (bool_decide (rn_workspace_id receipt = owner_workspace_id (ownership c)))
      || negb (bool_decide (rn_operation_id receipt = operation_id (identity c)))
      || negb (bool_decide (rn_transaction receipt = transaction))
      || negb (bool_decide (rn_policy receipt = policy))
      || negb (bool_decide (rn_protected receipt = protected))
      || negb (bool_decide (rn_resulting_head receipt = expected_head c)))%bool
  then Err CorruptRecord
  else Ok tt.

Definition retention_result (receipt : RetentionCommitReceipt) : CommandResult :=
  RetentionApplied (rn_protected receipt) (rn_resulting_head receipt) (rn_operation_selection receipt).

Definition retention_family
  : CommandFamily (RetentionPolicyRef * ProtectedSetRef) ResolvedRetention RetentionCommitReceipt :=
  mk_CommandFamily KindApplyRetention retention_from_validated rd_attempt rd_transaction
    retention_validate_receipt retention_result.

(** The request of a retention commit is resolved again, and must come out the same. *)
Definition retention_request {X R} `{!FamilyPorts X (RetentionPolicyRef * ProtectedSetRef) ResolvedRetention
    ResolvedRetention R} (attempt : RetentionAttempt) (transaction : TransactionRef)
  : stm X CommandPortError ResolvedRetention :=
  do! resolution <- (resolve attempt : stm X CommandPortError _) ;
  match resolution with
  | Resolved resolved =>
      if (negb (bool_decide (at_validated (rd_attempt resolved) = at_validated attempt))
          || negb (bool_decide (rd_transaction resolved = transaction)))%bool
      then st_err CorruptRecord
      else st_ret resolved
  | ResolutionKnownFailure _ | ResolutionCancelled _ => st_err CorruptRecord
  end.

(** ** Administration *)

Record AdministrationCommitReceipt := mk_AdministrationCommitReceipt {
  ad_workspace_id : WorkspaceId;
  ad_operation_id : OperationId;
  ad_transaction : TransactionRef;
  ad_writer_generation : WriterGeneration;
  ad_action : AdministrationAction;
  ad_request : AdministrationRequestRef;
  ad_resulting_head : ExpectedHead;
  ad_operation_selection : OperationSelectionRef
}.

Abbreviation AdministrationAttempt := (Attempt (AdministrationAction * AdministrationRequestRef)).

Definition administration_from_validated (validated : ValidatedCommandAttempt)
  : result AdministrationAttempt CommandPortError :=
  match payload (va_command validated) with
  | Administer action request => Ok (mk_Attempt validated (action, request))
  | _ => Err CorruptRecord
  end.

Definition administration_validate_receipt (attempt : AdministrationAttempt) (transaction : TransactionRef)
    (receipt : AdministrationCommitReceipt) : result unit CommandPortError :=
  let? _ := validate_receipt_generation (at_validated attempt) (ad_writer_generation receipt) in
  let c := at_command attempt in
  let '(action, request) := at_payload attempt in
  if (negb (bool_decide (ad_workspace_id receipt = owner_workspace_id (ownership c)))
      || negb (bool_decide (ad_operation_id receipt = operation_id (identity c)))
      || negb (bool_decide (ad_transaction receipt = transaction))
      || negb (bool_decide (ad_action receipt = action))
      || negb (bool_decide (ad_request receipt = request))
      || negb (bool_decide (ad_resulting_head receipt = expected_head c)))%bool
  then Err CorruptRecord
  else Ok tt.

Definition administration_result (receipt : AdministrationCommitReceipt) : CommandResult :=
  AdministrationApplied (ad_request receipt) (ad_resulting_head receipt) (ad_operation_selection receipt).

Definition administration_family
  : CommandFamily (AdministrationAction * AdministrationRequestRef) (CommitRequest _) AdministrationCommitReceipt :=
  mk_CommandFamily KindAdminister administration_from_validated cq_attempt cq_transaction
    administration_validate_receipt administration_result.

(** ** The port of a family, and the router *)

(** The operations of [FabricCommandEffectPort] over a state [X]. *)
Record EffectPort (X : Type) := mk_EffectPort {
  ep_prepare : CommandRecord -> ExecutionOwner -> ReductionContext -> stm X CommandPortError PrepareEffectOutcome;
  ep_commit : CommandRecord -> ExecutionOwner -> TransactionRef -> ReductionContext ->
    stm X CommandPortError CommitEffectOutcome;
  ep_reconcile : CommandRecord -> ExecutionOwner -> TransactionRef -> ReductionContext ->
    stm X CommandPortError ReconciliationObservation
}.
Arguments mk_EffectPort {X} _ _ _.
Arguments ep_prepare {X} _ _ _ _.
Arguments ep_commit {X} _ _ _ _ _.
Arguments ep_reconcile {X} _ _ _ _ _.

Section ports.
Context {X : Type}.

(** A family that does not resolve again. *)
Definition plain_port {P R} (f : CommandFamily P (CommitRequest P) R)
    `{!PlainPorts X P R} : EffectPort X :=
  mk_EffectPort (family_prepare f) (family_commit f plain_request) (family_reconcile f).

Context `{!PlainPorts X (SourceImageSetRef * SourceGeneration) SourceWaveCommitReceipt,
  !PlainPorts X RelationPublication RelationPublicationCommitReceipt,
  !PlainPorts X (EpochId * RollbackAuthorizationRef) RollbackCommitReceipt,
  !PlainPorts X (RelationSetRef * ProofReceiptRef) CompactionCommitReceipt,
  !FamilyPorts X (RetentionPolicyRef * ProtectedSetRef) ResolvedRetention ResolvedRetention RetentionCommitReceipt,
  !PlainPorts X (AdministrationAction * AdministrationRequestRef) AdministrationCommitReceipt}.

(** [SourceWaveCommandEffect], [RelationPublicationCommandEffect] and so on. *)
Definition source_wave_effect : EffectPort X := plain_port source_wave_family.
Definition relation_publication_effect : EffectPort X := plain_port relation_publication_family.
Definition rollback_effect : EffectPort X := plain_port rollback_family.
Definition compaction_effect : EffectPort X := plain_port compaction_family.
Definition retention_effect : EffectPort X :=
  mk_EffectPort (family_prepare retention_family) (family_commit retention_family retention_request)
    (family_reconcile retention_family).
Definition administration_effect : EffectPort X := plain_port administration_family.

(** The seven families, with the port of the activation family. *)
Definition effects (activation_effect : EffectPort X) : FabricCommandEffectRouter (EffectPort X) :=
  mk_Router source_wave_effect relation_publication_effect activation_effect rollback_effect compaction_effect
    retention_effect administration_effect.
End ports.

(** [FabricCommandEffectRouter::prepare], [commit] and [reconcile]. *)
Section router.
Context {X : Type} (router : FabricCommandEffectRouter (EffectPort X)).

Definition routed_prepare (executing : CommandRecord) :=
  ep_prepare (route router (payload (command executing))) executing.
Definition routed_commit (prepared : CommandRecord) :=
  ep_commit (route router (payload (command prepared))) prepared.
Definition routed_reconcile (awaiting : CommandRecord) :=
  ep_reconcile (route router (payload (command awaiting))) awaiting.
End router.

(** The activation family over the workspace and the state of the application. *)
Definition activation_effect {W S : Type} `{!ActivationCommandStatePort S, !ActivationCommitExecutionPort W,
  !ActivationRecoveryExecutionPort W} : EffectPort (W * S) :=
  mk_EffectPort activation_prepare activation_commit activation_reconcile.
