(* ===== verification/FamiliesTheory.v ===== *)
(** The command families and the reducer agree: whatever a family answers, the reducer accepts, and a
    committed result describes what the command asked for. *)

From S2P Require Import Prelude.
From S2P Require Import CommandModel.
From S2P Require Import CommandTheory.
From S2P Require Import ActorModel.
From S2P Require Import EffectContract.
From S2P Require Import ActivationModel.
From S2P Require Import AdmissionModel.
From S2P Require Import AdmissionTheory.
From S2P Require Import TransactionModel.
From S2P Require Import TransactionTheory.
From S2P Require Import ActivationRecovery.
From S2P Require Import ActivationEffect.
From S2P Require Import ActivationEffectTheory.
From S2P Require Import FamiliesModel.
Local Open Scope Z_scope.

(** ** Answers *)

(** The result is of the kind of the command, for the data the command names, over the head it
    expected where the family does not move the head. *)
Definition describes (c : FabricCommand) (r : CommandResult) : Prop :=
  match payload c, r with
  | PublishSourceWave _ target, SourceWavePublished generation h _ => generation = target /\ h = expected_head c
  | PublishRelations p, RelationsPublished class relations h _ =>
      class = RelationPublication_class p /\ relations = publication_relations p /\ h = expected_head c
  | ActivateEpoch candidate _, EpochActivated epoch _ => epoch = candidate
  | RollbackEpoch target _, EpochRolledBack epoch _ => epoch = target
  | CompactRelations relations _, RelationsCompacted compacted h _ => compacted = relations /\ h = expected_head c
  | ApplyRetention _ protected, RetentionApplied kept h _ => kept = protected /\ h = expected_head c
  | Administer _ request, AdministrationApplied applied h _ => applied = request /\ h = expected_head c
  | _, _ => False
  end.

Lemma describes_kind c r : describes c r -> command_kind c = result_kind r.
Proof. unfold describes, command_kind. by destruct (payload c), r. Qed.

Lemma bool_decide_false_else {A} (Q : Prop) `{!Decision Q} (a b : A) :
  Q -> (if negb (bool_decide Q) then a else b) = b.
Proof. intros HQ. by rewrite bool_decide_eq_true_2. Qed.

(** The events the actor makes of the answers. *)
Definition prepare_event (owner : ExecutionOwner) (o : PrepareEffectOutcome) : CommandEvent :=
  match o with
  | Prepared transaction => EvPrepareCommit owner transaction
  | PrepareKnownFailure failure => EvReportKnownFailure owner failure
  | PrepareCancelled cancellation => EvCancelBeforeCommit owner cancellation
  end.

Definition commit_event (owner : ExecutionOwner) (transaction : TransactionRef) (o : CommitEffectOutcome)
  : CommandEvent :=
  match o with
  | Committed result => EvConfirmCommit owner transaction result
  | CommitKnownFailure failure => EvReportKnownFailure owner failure
  | CommitUnknown unknown => EvReportUnknownCommit owner transaction unknown
  end.

(** A port of family [k] calls its authorities and answers only after it validated the attempt, and a
    committed result describes the command. *)
Record sound_port {X} (p : EffectPort X) (k : CommandKind) : Prop := {
  sp_prepare_guarded : forall r o ctx x,
    (ep_prepare p r o ctx x).1 = x \/ exists v, executing_attempt r o ctx k = Ok v;
  sp_commit_guarded : forall r o t ctx x,
    (ep_commit p r o t ctx x).1 = x \/ exists v, prepared_attempt r o t ctx k = Ok v;
  sp_reconcile_guarded : forall r o t ctx x,
    (ep_reconcile p r o t ctx x).1 = x \/ exists v, reconciliation_attempt r o t ctx k = Ok v;
  sp_prepare : forall r o ctx x answer,
    (ep_prepare p r o ctx x).2 = Ok answer -> exists v, executing_attempt r o ctx k = Ok v;
  sp_commit : forall r o t ctx x answer,
    (ep_commit p r o t ctx x).2 = Ok answer ->
    (exists v, prepared_attempt r o t ctx k = Ok v)
    /\ match answer with Committed result => describes (command r) result | _ => True end;
  sp_reconcile : forall r o t ctx x answer,
    (ep_reconcile p r o t ctx x).2 = Ok answer ->
    (exists v, reconciliation_attempt r o t ctx k = Ok v)
    /\ match answer with ObservedCommitted _ result => describes (command r) result | _ => True end
}.

(** ** The validation of the contract, seen from the reducer *)

Lemma executing_attempt_inv r o ctx k v :
  executing_attempt r o ctx k = Ok v ->
  active_fence ctx = fence o /\ current_head ctx = expected_head (command r) /\ va_command v = command r
  /\ exists attempt, state r = StateExecuting attempt o.
Proof.
  unfold executing_attempt, validate_context, validate_kind, validated_attempt. intros Hv.
  destruct (state r) eqn:Hs; inv_ok Hv. gate_facts. subst. eauto 6.
Qed.

Lemma prepared_attempt_inv r o t ctx k v :
  prepared_attempt r o t ctx k = Ok v ->
  active_fence ctx = fence o /\ va_command v = command r /\ command_kind (command r) = k
  /\ exists attempt, state r = StateCommitPrepared attempt o t.
Proof.
  unfold prepared_attempt, validate_context, validate_kind, validated_attempt. intros Hv.
  destruct (state r) eqn:Hs; inv_ok Hv. gate_facts. subst. eauto 6.
Qed.

Lemma reconciliation_attempt_inv r o t ctx k v :
  reconciliation_attempt r o t ctx k = Ok v ->
  active_fence ctx = fence o /\ va_command (vr_attempt v) = command r /\ command_kind (command r) = k
  /\ exists attempt execution recovery u n e,
       state r = StateAwaitingReconciliation attempt execution recovery t u n e
       /\ CommandReducer.validate_recovery_owner recovery o = Ok tt.
Proof.
  unfold reconciliation_attempt, validate_context, validate_kind, validated_attempt, validate_owner_advance. intros Hv.
  destruct (state r) eqn:Hs; inv_ok Hv. gate_facts. subst. split_and!; try done.
  do 6 eexists. split; [done|]. unfold CommandReducer.validate_recovery_owner.
  match goal with H : (bool_decide (_ = o) || _)%bool = true |- _ => by rewrite H end.
Qed.

(** ** The reducer accepts *)

Section accepts.
Context (r : CommandRecord) (o : ExecutionOwner) (t : TransactionRef) (ctx : ReductionContext) (k : CommandKind).
Context (Hrev : revision r < u64_max).

(** The attempt counter has room for another attempt. *)
Definition attempts_left (s : DurableCommandState) : Prop :=
  match s with
  | StateExecuting attempt _ | StateCommitPrepared attempt _ _ => attempt < u32_max
  | StateAwaitingReconciliation attempt _ _ _ _ probes _ => attempt < u32_max /\ probes < u32_max
  | _ => True
  end.
Context (Hleft : attempts_left (state r)).

Lemma room_changed s : exists n, CommandReducer.changed r s
  = Ok (mk_Reduction (mk_CommandRecord (command r) s n) StateChanged
          (Some (mk_ReducerTransition r (mk_CommandRecord (command r) s n) StateChanged))).
Proof. exists (revision r + 1). apply changed_Ok. split; [lia|done]. Qed.

Lemma room_next_attempt a : a < u32_max -> CommandReducer.next_attempt a = Ok (a + 1).
Proof. intros H. apply next_attempt_Ok. split; [done|lia]. Qed.

(** A known failure ends the command, or makes it ready for another attempt. *)
Definition failed_state (failure : CommandFailure) (s : DurableCommandState) : Prop :=
  s = StateFailed failure \/ exists n, s = StateRetryReady n (fence o) (KnownFailure failure).

Lemma known_failure_Ok a failure :
  a < u32_max -> exists s, CommandReducer.known_failure_state a (fence o) failure = Ok s /\ failed_state failure s.
Proof.
  intros H. unfold CommandReducer.known_failure_state, failed_state. destruct (failure_class failure); [eauto|].
  rewrite room_next_attempt by done. eauto 6.
Qed.

(** The state an accepted answer leaves behind. *)
Definition prepared_state (answer : PrepareEffectOutcome) (s : DurableCommandState) : Prop :=
  match answer with
  | Prepared transaction => exists n, s = StateCommitPrepared n o transaction
  | PrepareKnownFailure failure => failed_state failure s
  | PrepareCancelled cancellation => s = StateCancelled cancellation
  end.

Definition committed_state (answer : CommitEffectOutcome) (s : DurableCommandState) : Prop :=
  match answer with
  | Committed result => s = StateSucceeded t result DirectConfirmation
  | CommitKnownFailure failure => failed_state failure s
  | CommitUnknown unknown => exists n, s = StateAwaitingReconciliation n o o t unknown 0 None
  end.

Definition observed_state (answer : ReconciliationObservation) (s : DurableCommandState) : Prop :=
  match answer with
  | ObservedCommitted evidence result => s = StateSucceeded t result (ReconciledConfirmation evidence)
  | ObservedNotCommitted evidence => exists n, s = StateRetryReady n (fence o) (ReconciledNotCommitted evidence)
  | ObservedIndeterminate evidence =>
      exists n execution u probes, s = StateAwaitingReconciliation n execution o t u probes (Some evidence)
  end.

Lemma prepare_accepted answer v :
  executing_attempt r o ctx k = Ok v ->
  exists red, CommandReducer.reduce r (prepare_event o answer) ctx = Ok red
    /\ prepared_state answer (state (reduced_record red)).
Proof.
  intros (Hf & Hh & _ & attempt & Hs)%executing_attempt_inv. unfold CommandReducer.reduce.
  replace (CommandReducer.validate_result_kind (command r) (prepare_event o answer)) with (@Ok unit CommandContractError tt)
    by (by destruct answer).
  unfold CommandReducer.terminal_replay, CommandReducer.validate_reduction_context. rewrite Hs. rewrite Hs in Hleft.
  replace (event_owner (prepare_event o answer)) with o by (by destruct answer).
  simpl. rewrite bool_decide_eq_true_2 by done. rewrite (bool_decide_eq_true_2 (current_head ctx = _)) by done.
  rewrite andb_false_r. unfold CommandReducer.reduce_executing, CommandReducer.validate_current_owner.
  destruct answer as [tx|failure|c]; simpl; rewrite bool_decide_eq_true_2 by done.
  - destruct (room_changed (StateCommitPrepared attempt o tx)) as [n ->]. eexists. split; [done|]. simpl. eauto.
  - destruct (known_failure_Ok attempt failure Hleft) as (s & -> & Hfail).
    destruct (room_changed s) as [n ->]. by eexists.
  - destruct (room_changed (StateCancelled c)) as [n ->]. by eexists.
Qed.

Lemma commit_accepted answer v :
  prepared_attempt r o t ctx k = Ok v ->
  match answer with Committed result => describes (command r) result | _ => True end ->
  exists red, CommandReducer.reduce r (commit_event o t answer) ctx = Ok red
    /\ committed_state answer (state (reduced_record red)).
Proof.
  intros (Hf & _ & _ & attempt & Hs)%prepared_attempt_inv Hd. unfold CommandReducer.reduce.
  replace (CommandReducer.validate_result_kind (command r) (commit_event o t answer))
    with (@Ok unit CommandContractError tt)
    by (destruct answer; [|done..]; symmetry; apply bool_decide_false_else, describes_kind, Hd).
  unfold CommandReducer.terminal_replay, CommandReducer.validate_reduction_context. rewrite Hs. rewrite Hs in Hleft.
  replace (event_owner (commit_event o t answer)) with o by (by destruct answer).
  simpl. rewrite bool_decide_eq_true_2 by done.
  unfold CommandReducer.reduce_prepared, CommandReducer.validate_current_owner, CommandReducer.validate_recovery_owner,
    CommandReducer.validate_transaction.
  destruct answer as [result|failure|u]; simpl; rewrite !bool_decide_eq_true_2 by done; simpl.
  - destruct (room_changed (StateSucceeded t result DirectConfirmation)) as [n ->]. by eexists.
  - destruct (known_failure_Ok attempt failure Hleft) as (s & -> & Hfail). destruct (room_changed s) as [n ->]. by eexists.
  - destruct (room_changed (StateAwaitingReconciliation attempt o o t u 0 None)) as [n ->].
    eexists. split; [done|]. simpl. eauto.
Qed.

Lemma observation_accepted answer v :
  reconciliation_attempt r o t ctx k = Ok v ->
  match answer with ObservedCommitted _ result => describes (command r) result | _ => True end ->
  exists red, CommandReducer.reduce r (EvObserveReconciliation o t answer) ctx = Ok red
    /\ observed_state answer (state (reduced_record red)).
Proof.
  intros (Hf & _ & _ & attempt & ex & rec & u & n & e & Hs & Hadv)%reconciliation_attempt_inv Hd.
  unfold CommandReducer.reduce.
  replace (CommandReducer.validate_result_kind (command r) (EvObserveReconciliation o t answer))
    with (@Ok unit CommandContractError tt)
    by (destruct answer; [|done..]; symmetry; apply bool_decide_false_else, describes_kind, Hd).
  unfold CommandReducer.terminal_replay, CommandReducer.validate_reduction_context. rewrite Hs. rewrite Hs in Hleft.
  destruct Hleft as [Ha Hn]. simpl. rewrite bool_decide_eq_true_2 by done. simpl.
  rewrite Hadv. unfold CommandReducer.validate_transaction. rewrite bool_decide_eq_true_2 by done.
  unfold CommandReducer.apply_reconciliation. simpl.
  destruct answer as [evidence result|evidence|evidence].
  - destruct (room_changed (StateSucceeded t result (ReconciledConfirmation evidence))) as [m ->].
    eexists. by split.
  - rewrite room_next_attempt by done.
    destruct (room_changed (StateRetryReady (attempt + 1) (fence o) (ReconciledNotCommitted evidence))) as [m ->].
    eexists. split; [done|]. simpl. eauto.
  - rewrite (proj2 (checked_add_Some u32_max n 1 (n + 1))) by lia. simpl.
    destruct (room_changed (StateAwaitingReconciliation attempt ex o t u (n + 1) (Some evidence))) as [m ->].
    eexists. split; [done|]. simpl. eauto 6.
Qed.
End accepts.

(** ** Each family is sound *)

Lemma st_bind_Ok {S E A B} (m : stm S E A) (k : A -> stm S E B) s b :
  (st_bind m k s).2 = Ok b -> exists a s', m s = (s', Ok a) /\ (k a s').2 = Ok b.
Proof. unfold st_bind. destruct (m s) as [s' [a|e]]; [eauto|done]. Qed.

Lemma st_lift_Ok {S E A} (x : result A E) (s : S) s' a : st_lift x s = (s', Ok a) -> x = Ok a.
Proof. by intros [= _ ->]. Qed.

Lemma st_bind_guarded {S E A B} (v : result A E) (k : A -> stm S E B) s :
  (st_bind (st_lift v) k s).1 = s \/ exists a, v = Ok a.
Proof. destruct v; [eauto|by left]. Qed.

(** What the checks of a family have to establish. *)
Definition honest_family {P V R} (f : CommandFamily P V R) : Prop :=
  forall validated attempt transaction receipt,
    fa_from_validated f validated = Ok attempt ->
    fa_validate_receipt f attempt transaction receipt = Ok tt ->
    describes (va_command validated) (fa_result_from_receipt f receipt).

Ltac run_Ok H :=
  let a := fresh "a" in let s := fresh "s" in let Ha := fresh "Hstep" in
  apply st_bind_Ok in H as (a & s & Ha & H); try apply st_lift_Ok in Ha.

Lemma family_prepare_Ok {X P V Q R} (f : CommandFamily P V R) `{!FamilyPorts X P V Q R} r o ctx x answer :
  (family_prepare f r o ctx x).2 = Ok answer -> exists v, executing_attempt r o ctx (fa_kind f) = Ok v.
Proof. intros H. run_Ok H. eauto. Qed.

Lemma family_commit_Ok {X P V Q R} (f : CommandFamily P V R) `{!FamilyPorts X P V Q R} q r o t ctx x answer :
  honest_family f -> (family_commit f q r o t ctx x).2 = Ok answer ->
  (exists v, prepared_attempt r o t ctx (fa_kind f) = Ok v)
  /\ match answer with Committed result => describes (command r) result | _ => True end.
Proof.
  intros Hf H. do 4 run_Ok H. split; [eauto|]. apply prepared_attempt_inv in Hstep as (_ & <- & _).
  simpl in H. destruct a2; simpl in H; unfold unknown in H; inv_ok H; [|done..].
  eapply Hf; [done|]. by match goal with u : unit |- _ => destruct u end.
Qed.

Lemma family_reconcile_Ok {X P V Q R} (f : CommandFamily P V R) `{!FamilyPorts X P V Q R} r o t ctx x answer :
  honest_family f -> (family_reconcile f r o t ctx x).2 = Ok answer ->
  (exists v, reconciliation_attempt r o t ctx (fa_kind f) = Ok v)
  /\ match answer with ObservedCommitted _ result => describes (command r) result | _ => True end.
Proof.
  intros Hf H. do 3 run_Ok H. split; [eauto|]. apply reconciliation_attempt_inv in Hstep as (_ & <- & _).
  destruct a1; [|by inv_ok H..]. run_Ok H. inv_ok H.
  eapply Hf; [done|]. by match goal with u : unit |- _ => destruct u end.
Qed.

(** The payload is the one the family reads, the receipt passed every check. *)
Ltac honest :=
  intros validated attempt transaction receipt Ha Hr; simpl in Ha, Hr |- *; unfold describes;
  match type of Ha with ?g _ = _ => unfold g in Ha end;
  destruct (payload (va_command validated)) eqn:Hp; inv_ok Ha;
  match type of Hr with ?g _ _ _ = _ => unfold g, at_command in Hr end; simpl in Hr;
  inv_ok Hr; gate_facts.

Lemma source_wave_honest : honest_family source_wave_family.
Proof. honest. by split. Qed.
Lemma relation_publication_honest : honest_family relation_publication_family.
Proof. honest. match goal with H : rp_publication _ = _ |- _ => rewrite H end. by split_and!. Qed.
Lemma rollback_honest : honest_family rollback_family.
Proof. honest. done. Qed.
Lemma compaction_honest : honest_family compaction_family.
Proof. honest. by split. Qed.
Lemma retention_honest : honest_family retention_family.
Proof. honest. by split. Qed.
Lemma administration_honest : honest_family administration_family.
Proof. honest. by split. Qed.

Lemma plain_port_sound {X P R} (f : CommandFamily P (CommitRequest P) R) `{!PlainPorts X P R} :
  honest_family f -> sound_port (plain_port f) (fa_kind f).
Proof.
  intros Hf. split; try (intros; apply st_bind_guarded); [apply family_prepare_Ok|intros r o t ctx x answer..].
  - by apply family_commit_Ok.
  - by apply family_reconcile_Ok.
Qed.

Lemma retention_effect_sound {X} `{!FamilyPorts X (RetentionPolicyRef * ProtectedSetRef) ResolvedRetention
    ResolvedRetention RetentionCommitReceipt} : sound_port (X := X) retention_effect KindApplyRetention.
Proof.
  split; try (intros; apply st_bind_guarded); [apply (family_prepare_Ok retention_family)|intros r o t ctx x answer..].
  - apply (family_commit_Ok retention_family), retention_honest.
  - apply (family_reconcile_Ok retention_family), retention_honest.
Qed.

(** The activation family checks the receipt of the coordinator itself. *)
Section activation.
Context {W S : Type} `{!ActivationCommandStatePort S, !ActivationCommandStateLaws S,
  !ActivationCommitExecutionPort W, !ActivationRecoveryExecutionPort W}.

Lemma identity_matches_pins {R} `{ActivationRequestView R} (request : R) receipt :
  activated_receipt_identity_matches request receipt = true -> ev_pins (ae_event receipt) = view_pins request.
Proof. unfold activated_receipt_identity_matches. intros ?. gate_facts. done. Qed.

Lemma activated_describes (q : ActivationRecoveryRequest) attempt c receipt :
  selects_epoch q -> rr_attempt q = activation_attempt attempt -> va_command attempt = c ->
  command_kind c = KindActivateEpoch -> ev_pins (ae_event receipt) = rr_pins q ->
  describes c (activated_result receipt).
Proof.
  intros Hq Ha Hc Hk Hpins. destruct (activation_payload q attempt c Hq Ha Hc Hk) as [_ Hp].
  unfold describes, activated_result. by rewrite Hp, Hpins.
Qed.

Lemma resolved_Ok record attempt context tx (x : W * S) q x' :
  resolved record attempt context tx x = (x', Ok q) ->
  selects_epoch (recovery_request (rt_request q)) /\ tr_attempt (rt_request q) = activation_attempt attempt.
Proof.
  destruct x as [w s]. unfold resolved, st_bind, on_state. pose proof (law_resolved record (activation_attempt attempt) context s) as Hl.
  destruct (resolve_request _ _ _ s) as [s' [y|e]]; [|done]. cbn [fst snd] in Hl.
  destruct (_ || _)%bool eqn:Hc; [done|]. intros [= _ ->]. gate_facts. by destruct Hl.
Qed.

Lemma activation_commit_Ok r o t ctx (x : W * S) answer :
  (activation_commit r o t ctx x).2 = Ok answer ->
  (exists v, prepared_attempt r o t ctx KindActivateEpoch = Ok v)
  /\ match answer with Committed result => describes (command r) result | _ => True end.
Proof.
  intros H. do 3 run_Ok H. split; [eauto|]. apply prepared_attempt_inv in Hstep as (_ & Hc & Hk & _).
  apply resolved_Ok in Hstep0 as [Hq Ha].
  destruct a1 as [receipt|stopped|ticket].
  - destruct (_ || _)%bool eqn:Hm; [done|]. injection H as <-. gate_facts.
    match goal with H : activated_receipt_matches _ _ _ = true |- _ => unfold activated_receipt_matches in H end.
    gate_facts. eapply activated_describes; [done..|].
    match goal with H : activated_receipt_identity_matches _ _ = true |- _ => exact (identity_matches_pins _ _ H) end.
  - destruct (negb _); [done|]. run_Ok H. by injection H as <-.
  - do 3 run_Ok H. by injection H as <-.
Qed.

Lemma activation_reconcile_Ok r o t ctx (x : W * S) answer :
  (activation_reconcile r o t ctx x).2 = Ok answer ->
  (exists v, reconciliation_attempt r o t ctx KindActivateEpoch = Ok v)
  /\ match answer with ObservedCommitted _ result => describes (command r) result | _ => True end.
Proof.
  intros H. do 2 run_Ok H. split; [eauto|]. apply reconciliation_attempt_inv in Hstep as (_ & Hc & Hk & _).
  destruct s as [w u]. pose proof (law_loaded r o t ctx u) as Hl. unfold on_state in Hstep0.
  destruct (load_reconciliation r o t ctx u) as [u' y]. injection Hstep0 as _ ->. destruct Hl as (Hq & _ & _).
  cbv zeta in H.
  destruct (_ || _)%bool eqn:Hm; [done|]. gate_facts. run_Ok H. destruct a1 as [receipt|stopped|ticket].
  - destruct (ae_reconciliation_evidence receipt); [|done].
    destruct (recovered_activated_receipt_matches _ _ _) eqn:Hr; [|done]. injection H as <-.
    unfold recovered_activated_receipt_matches in Hr. gate_facts.
    eapply activated_describes; [done..|].
    match goal with H : activated_receipt_identity_matches _ _ = true |- _ => exact (identity_matches_pins _ _ H) end.
  - destruct (ns_reason stopped); try done. destruct (not_selected_matches _ _); [|done]. by injection H as <-.
  - do 2 run_Ok H. by injection H as <-.
Qed.

Lemma activation_effect_sound : sound_port (X := W * S) activation_effect KindActivateEpoch.
Proof.
  split; try (intros; apply st_bind_guarded); [ |apply activation_commit_Ok|apply activation_reconcile_Ok].
  intros r o ctx x answer H. run_Ok H. eauto.
Qed.
End activation.
