(* ===== verification/FamiliesClaims.v ===== *)
(** What the actor and the router promise each other: the theorem over the seven command families. *)

From S2P Require Import Prelude.
From S2P Require Import CommandModel.
From S2P Require Import ActorModel.
From S2P Require Import EffectContract.
From S2P Require Import ActivationEffect.
From S2P Require Import ActivationEffectTheory.
From S2P Require Import FamiliesModel.
From S2P Require Import FamiliesTheory.
Local Open Scope Z_scope.

Section router.
Context {W S : Type} `{!ActivationCommandStatePort S, !ActivationCommandStateLaws S,
  !ActivationCommitExecutionPort W, !ActivationRecoveryExecutionPort W,
  !PlainPorts (W * S) (SourceImageSetRef * SourceGeneration) SourceWaveCommitReceipt,
  !PlainPorts (W * S) RelationPublication RelationPublicationCommitReceipt,
  !PlainPorts (W * S) (EpochId * RollbackAuthorizationRef) RollbackCommitReceipt,
  !PlainPorts (W * S) (RelationSetRef * ProofReceiptRef) CompactionCommitReceipt,
  !FamilyPorts (W * S) (RetentionPolicyRef * ProtectedSetRef) ResolvedRetention ResolvedRetention
     RetentionCommitReceipt,
  !PlainPorts (W * S) (AdministrationAction * AdministrationRequestRef) AdministrationCommitReceipt}.

Abbreviation router := (effects (X := W * S) activation_effect).

(** Every payload goes to a port that is sound for its kind. *)
Lemma routed_sound (p : FabricCommandPayload) : sound_port (route router p) (payload_kind p).
Proof.
  destruct p; simpl.
  - apply (plain_port_sound source_wave_family), source_wave_honest.
  - apply (plain_port_sound relation_publication_family), relation_publication_honest.
  - apply activation_effect_sound.
  - apply (plain_port_sound rollback_family), rollback_honest.
  - apply (plain_port_sound compaction_family), compaction_honest.
  - apply retention_effect_sound.
  - apply (plain_port_sound administration_family), administration_honest.
Qed.

(** C11. The effects and the reducer agree, for each of the seven command families and whatever their
    authorities answer. The router touches the authorities to prepare, commit or reconcile only when
    the record stands in the matching state, under the active fence of the owner that asks; and every
    answer it lets through becomes an event the reducer accepts, while the revision and the attempt
    counters have room. A commit or an observation moves the record to the state its answer names, and
    a result reported as committed is the one the command asked for: the generation, relations, epoch,
    protected set or request of its payload, over the head it expected. *)
Theorem routed_effects_are_accepted record owner transaction context (x : W * S) :
  revision record < u64_max -> attempts_left (state record) ->
  ((routed_prepare router record owner context x).1 <> x ->
     active_fence context = fence owner /\ current_head context = expected_head (command record)
     /\ exists n, state record = StateExecuting n owner)
  /\ ((routed_commit router record owner transaction context x).1 <> x ->
     active_fence context = fence owner /\ exists n, state record = StateCommitPrepared n owner transaction)
  /\ ((routed_reconcile router record owner transaction context x).1 <> x ->
     active_fence context = fence owner
     /\ exists n execution recovery unknown probes evidence,
          state record = StateAwaitingReconciliation n execution recovery transaction unknown probes evidence
          /\ CommandReducer.validate_recovery_owner recovery owner = Ok tt)
  /\ (forall answer, (routed_prepare router record owner context x).2 = Ok answer ->
     exists red, CommandReducer.reduce record (prepare_event owner answer) context = Ok red
       /\ prepared_state owner answer (state (reduced_record red)))
  /\ (forall answer, (routed_commit router record owner transaction context x).2 = Ok answer ->
     match answer with Committed result => describes (command record) result | _ => True end
     /\ exists red, CommandReducer.reduce record (commit_event owner transaction answer) context = Ok red
       /\ committed_state owner transaction answer (state (reduced_record red)))
  /\ (forall answer, (routed_reconcile router record owner transaction context x).2 = Ok answer ->
     match answer with ObservedCommitted _ result => describes (command record) result | _ => True end
     /\ exists red,
          CommandReducer.reduce record (EvObserveReconciliation owner transaction answer) context = Ok red
          /\ observed_state owner transaction answer (state (reduced_record red))).
Proof.
  intros Hrev Hleft. pose proof (routed_sound (payload (command record))) as [Hpg Hcg Hrg Hp Hc Hr].
  split_and!.
  - intros Hx. destruct (Hpg record owner context x) as [|[v Hv]]; [done|].
    apply executing_attempt_inv in Hv as (? & ? & _ & ?). done.
  - intros Hx. destruct (Hcg record owner transaction context x) as [|[v Hv]]; [done|].
    apply prepared_attempt_inv in Hv as (? & _ & _ & ?). done.
  - intros Hx. destruct (Hrg record owner transaction context x) as [|[v Hv]]; [done|].
    apply reconciliation_attempt_inv in Hv as (? & _ & _ & ?). done.
  - intros answer Ha. destruct (Hp _ _ _ _ _ Ha) as [v Hv]. by eapply prepare_accepted.
  - intros answer Ha. destruct (Hc _ _ _ _ _ _ Ha) as [[v Hv] Hd]. split; [done|]. by eapply commit_accepted.
  - intros answer Ha. destruct (Hr _ _ _ _ _ _ Ha) as [[v Hv] Hd]. split; [done|]. by eapply observation_accepted.
Qed.
End router.
