(* ===== verification/FamiliesWitness.v ===== *)
(** A retention command run through the router: authorities that count their commits and answer an
    honest receipt, and the theorem of [FamiliesClaims] applied to its commit. *)

From S2P Require Import Prelude.
From S2P Require Import CommandModel.
From S2P Require Import CommandWitness.
From S2P Require Import ActorModel.
From S2P Require Import EffectContract.
From S2P Require Import ActivationModel.
From S2P Require Import TransactionModel.
From S2P Require Import ActivationEffect.
From S2P Require Import ActivationEffectTheory.
From S2P Require Import ActivationWitness.
From S2P Require Import FamiliesModel.
From S2P Require Import FamiliesTheory.
From S2P Require Import FamiliesClaims.
Local Open Scope Z_scope.

Module FamiliesSample.
Abbreviation ident := CommandSample.ident.
Abbreviation txn := CommandSample.txn.
Abbreviation o1 := CommandSample.o1.

(** The number of commits, beside the ticket the application keeps. *)
Abbreviation counting := (nat * option ActivationReconciliationTicket)%type.

Definition count (x : counting) : counting := (S x.1, x.2).

Section authority.
Context {P V Q R : Type} (resolved_of : Attempt P -> V) (parts : Q -> Attempt P * TransactionRef)
  (receipt_of : Attempt P -> TransactionRef -> R).

(** Resolves, commits and reads back without a fault. *)
Definition authority : FamilyPorts counting P V Q R := {|
  resolve := fun a x => (x, Ok (Resolved (resolved_of a)));
  commit_once := fun q x => (count x, Ok (CommitCommitted (receipt_of (parts q).1 (parts q).2)));
  read_exact := fun q x =>
    (x, Ok (MarkerCommitted (receipt_of (rq_attempt q) (rq_transaction q)) CommandSample.evidence))
|}.
End authority.

Definition plain_authority {P R} (receipt_of : Attempt P -> TransactionRef -> R) : PlainPorts counting P R :=
  authority (fun a => mk_CommitRequest a txn) (fun q => (cq_attempt q, cq_transaction q)) receipt_of.

Definition wid {P} (a : Attempt P) : WorkspaceId := owner_workspace_id (ownership (at_command a)).
Definition oid {P} (a : Attempt P) : OperationId := operation_id (identity (at_command a)).
Definition gen {P} (a : Attempt P) : WriterGeneration :=
  generation (fence (va_execution_owner (at_validated a))).
Definition selection : OperationSelectionRef := ident _ x70.

#[export] Instance source_waves : PlainPorts counting (SourceImageSetRef * SourceGeneration) SourceWaveCommitReceipt :=
  plain_authority (fun a t => mk_SourceWaveCommitReceipt (wid a) (oid a) t (gen a) (at_payload a).1
    (pinned_source_generation (pins (at_command a))) (at_payload a).2 (expected_head (at_command a)) selection).
#[export] Instance publications : PlainPorts counting RelationPublication RelationPublicationCommitReceipt :=
  plain_authority (fun a t => mk_RelationPublicationCommitReceipt (wid a) (oid a) t (gen a) (at_payload a)
    (expected_head (at_command a)) selection).
#[export] Instance rollbacks : PlainPorts counting (EpochId * RollbackAuthorizationRef) RollbackCommitReceipt :=
  plain_authority (fun a t => mk_RollbackCommitReceipt (wid a) (oid a) t (gen a) (at_payload a).1 (at_payload a).2
    selection (at_payload a).1).
#[export] Instance compactions : PlainPorts counting (RelationSetRef * ProofReceiptRef) CompactionCommitReceipt :=
  plain_authority (fun a t => mk_CompactionCommitReceipt (wid a) (oid a) t (gen a) (at_payload a).1 (at_payload a).2
    (expected_head (at_command a)) selection).
#[export] Instance retentions : FamilyPorts counting (RetentionPolicyRef * ProtectedSetRef) ResolvedRetention
    ResolvedRetention RetentionCommitReceipt :=
  authority (fun a => mk_ResolvedRetention a (mk_RetentionDeletionPlanRef (repeat_byte 32 x71)) (ident _ x72) txn)
    (fun q => (rd_attempt q, rd_transaction q))
    (fun a t => mk_RetentionCommitReceipt (wid a) (oid a) t (gen a) (at_payload a).1 (at_payload a).2
       (expected_head (at_command a)) selection).
#[export] Instance administrations
  : PlainPorts counting (AdministrationAction * AdministrationRequestRef) AdministrationCommitReceipt :=
  plain_authority (fun a t => mk_AdministrationCommitReceipt (wid a) (oid a) t (gen a) (at_payload a).1
    (at_payload a).2 (expected_head (at_command a)) selection).

(** A workspace whose candidates never get their proof: it activates nothing. *)
Definition unproved (op : OperationId) (epoch : EpochId) : ActivationTransactionOutcome :=
  NotSelected (mk_ActivationNotSelected CandidateProof (ProofUnknown (ident _ x73)) op epoch).
#[export] Instance idle_execution : ActivationCommitExecutionPort nat :=
  fun r w => (w, unproved (operation_id (identity (tr_command r))) (ep_epoch (tr_pins r))).
#[export] Instance idle_recovery : ActivationRecoveryExecutionPort nat :=
  fun r _ _ w => (w, unproved (operation_id (identity (rr_command r))) (ep_epoch (rr_pins r))).

Definition protected : ProtectedSetRef := ident _ x74.
Definition cmd : FabricCommand :=
  let c := CommandSample.cmd in
  mk_FabricCommand (identity c) (ownership c) (expected_head c) (writer_fence c) (pins c) (resources c)
    (ApplyRetention (ident _ x75) protected).
Definition prepared_retention : CommandRecord := mk_CommandRecord cmd (StateCommitPrepared 1 o1 txn) 2.
End FamiliesSample.

Import ActivationSample FamiliesSample.

(** The commit of a retention command reaches the authority once and ends the command. *)
Lemma routed_effects_are_accepted_witness :
  let run := routed_commit (effects (X := FamiliesSample.counting) activation_effect) FamiliesSample.prepared_retention
               FamiliesSample.o1 FamiliesSample.txn (CommandSample.at_fence 1) (0%nat, None) in
  run.1 = (1%nat, None)
  /\ exists result red,
       run.2 = Ok (Committed result)
       /\ describes FamiliesSample.cmd result
       /\ CommandReducer.reduce FamiliesSample.prepared_retention
            (EvConfirmCommit FamiliesSample.o1 FamiliesSample.txn result) (CommandSample.at_fence 1) = Ok red
       /\ state (reduced_record red) = StateSucceeded FamiliesSample.txn result DirectConfirmation.
Proof.
  split; [vm_compute; reflexivity|].
  exists (RetentionApplied FamiliesSample.protected EmptyHead FamiliesSample.selection).
  destruct (routed_effects_are_accepted FamiliesSample.prepared_retention FamiliesSample.o1 FamiliesSample.txn
              (CommandSample.at_fence 1) ((0%nat, None) : FamiliesSample.counting)
              eq_refl eq_refl) as (_ & _ & _ & _ & Hc & _).
  destruct (Hc (Committed (RetentionApplied FamiliesSample.protected EmptyHead FamiliesSample.selection)))
    as (Hd & red & Hred & Hs); [vm_compute; reflexivity|].
  exists red. split; [vm_compute; reflexivity|]. exact (conj Hd (conj Hred Hs)).
Defined.
